(* ===== verification/_CoqProject ===== *)
-Q . S2P
Prelude.v
Crc16.v
CMem.v
CState.v
Proto.v
ProtoFacts.v
CpuMonitor.v
TcpMgr.v
TcpMgrFacts.v
WifiMgr.v
WifiFacts.v
WifiStatus.v
WifiProps.v
Firmware.v
FirmwareFacts.v
RelayInst.v
FirmwareProps.v
CcArray.v
CcArrayFacts.v
CcStack.v
CcRingBuffer.v
CcPqueue.v
Blocks.v
CcDeque.v
CcDequeFacts.v
CcDequeMid.v
CcDequeProps.v
CcQueue.v
CcHashTable.v
CcHashTableFacts.v
CcHashTableProps.v
CcHash.v
CcHashSet.v
CcStringTable.v
CcPool.v
CcPoolFacts.v
CcArraySized.v
CcArraySizedFacts.v
CcArraySizedProps.v
CHeap.v
HeapLogic.v
CcSlist.v
CcSlistFacts.v
CcSlistProps.v
CcSlistPair.v
Button.v
ButtonFacts.v
ButtonReg.v
ButtonSys.v
ButtonDrv.v
ButtonDrvFacts.v
CcTreeTable.v
RbTree.v
CcTreeFacts.v
CcTreeInsert.v
CcTreeDelete.v
CcTreeRead.v
CcTreeRemove.v
CcTreeIter.v
CcTreeProps.v
CcTreeSet.v
CcList.v
CcListFacts.v
CcListOps.v
CcListPair.v
CcListCopy.v
CcListSort.v
CcListProps.v
CcListTwo.v
CcListIter.v
CcTst.v
TstTree.v
CcTstFacts.v
CcTstOps.v
CcTstRemove.v
CcTstProps.v
CcTstIter.v
CcArrayMore.v
CcTreeCheck.v
ButtonPins.v
