(* ===== verification/Prelude.v ===== *)
(** * esp-network: a verification development

    The program is the firmware of an ESP32 network adapter.  A host sends
    framed commands over a USB serial port; the device keeps a Wi-Fi station
    connected, opens one TCP connection on request, relays its bytes and answers
    every command with one frame.  This library models the C code of src/main
    and of the two components the repository carries: the button drivers
    (src/components/button) and the containers of Collections-C
    (src/components/Collections-C/src).

    ** How the parts interact

    USB bytes arrive in [usb_cdc_rx_callback], go through a stream buffer to
    [cmd_task], which feeds them to the parser of proto.c; the parser calls
    [on_frame] for each complete frame; [on_frame] dispatches to a handler,
    which calls the Wi-Fi manager or the TCP relay and sends its answer through
    [cdc_send_response].  The relay's own tasks send push frames the same way.
    Wi-Fi driver events and a reconnect timer run next to the commands.  The
    buttons and the containers stand alone: nothing in src/main calls them.
    Among the containers the stack and the priority queue use the array, the
    queue uses the deque, the two sets use their tables.

    ** Files and what they model

    Foundations.
    - [Prelude] (this file): machine integers, scopes, tactics and generic lemmas.
    - [CMem]: bounded memory, an access outside it is [Fault].
    - [CState]: the monad of stateful C functions, with restart, undefined
      behaviour and non-termination as results, and its weakest preconditions
      ([wp], [wpr] with the states a restart is allowed in) and transition
      invariants ([keeps]); programs of single actions ([prog]), which one task
      runs to the end ([run]) or several interleave ([pstep], [rg]).
    - [Blocks]: allocated blocks as lists, moves inside them, powers of two and
      their masks.
    - [CHeap]: a heap of nodes by address, with an allocator that may fail, as
      the state of the pointer structures.  [HeapLogic]: separation logic
      over it, as an instance of Iris's [bi], so that the proof mode is
      available for heap predicates.

    The firmware (src/main).
    - [Crc16], [Proto], [ProtoFacts]: proto.{h,c}.  [proto_parser_feed] is a
      fold of [feed_byte]; the state is [parser].
    - [TcpMgr], [TcpMgrFacts]: tcp_mgr.c.  The receive task, the send task and
      the command task are program counters over the shared variables
      ([shared]); a critical section, a socket call and a queue call are one
      step each; [tcp_step] interleaves them.  What lwIP returns labels the step.
    - [WifiMgr], [WifiFacts], [WifiStatus], [WifiProps]: wifi_mgr.c.  The static
      variables are [wifi]; flash, driver and network interface are a
      [Platform].  Each function is a program whose actions are the single reads
      and writes of the variables and the calls; [make_moves] interleaves the
      command, the event and the timer task action by action.  [WifiStatus] has
      what a reported status says, [WifiProps] the other guarantees and the
      specifications of the functions run to their end, which [Firmware] uses.
    - [CpuMonitor]: cpu_monitor.c.
    - [Firmware], [FirmwareFacts], [FirmwareProps]: esp32-network.c.  USB stack
      and board are a [Machine]; the relay is used through the class [Relay],
      whose laws the handlers' proofs assume and [RelayInst] proves for the
      model of tcp_mgr.c.

    The buttons (src/components/button).
    - [Button], [ButtonFacts], [ButtonReg]: one button of iot_button.c, its tick
      ([button_handler]) and its callback registry.  [ButtonSys]: the list of
      buttons, the timer with the answer of each [esp_timer] call, power saving.
    - [ButtonDrv], [ButtonDrvFacts]: button_matrix.c, button_gpio.c and
      button_adc.c, as the modules [Matrix], [Gpio] and [Adc].  [ButtonPins]:
      their calls that configure pins, arm the wake-up interrupt and own
      calibration handles, and the names and queries of iot_button.c.

    The containers over blocks (src/components/Collections-C/src).  The
    allocator and the float arithmetic of the expansion factor are a [Runtime].
    - [CcArray], [CcArrayFacts]: cc_array.c.  [CcStack]: cc_stack.c.
      [CcRingBuffer]: cc_ring_buffer.c.  [CcPqueue]: cc_pqueue.c.
      [CcArrayMore]: the calls of these that run a function of the caller's
      (sort, map, reduce, destructors).
    - [CcArraySized], [CcArraySizedFacts], [CcArraySizedProps]:
      sized/cc_array_sized.c, blocks of bytes by value.
    - [CcDeque], [CcDequeFacts], [CcDequeMid], [CcDequeProps]: cc_deque.c, the
      circular buffer.  [CcQueue]: cc_queue.c.
    - [CcHashTable], [CcHashTableFacts], [CcHashTableProps]: cc_hashtable.c;
      [CcHash] its hash functions, [CcStringTable] the table on strings,
      [CcHashSet]: cc_hashset.c.
    - [CcPool], [CcPoolFacts]: memory/cc_dynamic_pool.c and cc_static_pool.c.

    The containers over a heap of nodes (same directory).
    - [CcSlist], [CcSlistFacts], [CcSlistProps], [CcSlistPair]: cc_slist.c.
    - [CcList] and the files after it: cc_list.c.  [CcListFacts] and [CcListOps]
      prove the operations, [CcListPair] reversal, insertion and splicing of one
      list in another, [CcListCopy] copies, sublists, filters and arrays,
      [CcListSort] the merge sort, [CcListProps] the contract of one list (class [LinkedList], shared
      with the singly linked one), [CcListTwo] calls on two lists, [CcListIter]
      the iterators.
    - [CcTreeTable]: cc_treetable.c.  [RbTree] has the red-black trees without
      pointers; [CcTreeFacts], [CcTreeInsert], [CcTreeDelete], [CcTreeRead],
      [CcTreeRemove] and [CcTreeIter] show that each routine computes on the
      heap what RbTree.v says of trees, [CcTreeProps] the contract,
      [CcTreeCheck] the rule checker, [CcTreeSet]: cc_treeset.c.
    - [CcTst]: cc_tsttable.c.  [TstTree] has the trees without pointers,
      [CcTstFacts], [CcTstOps], [CcTstRemove] the operations, [CcTstProps] the
      contract, [CcTstIter] the iterator.

    ** What the theorems show

    - Protocol: frames separated by garbage are delivered once and in order; what
      is built is parsed back; what is delivered was on the wire with a good
      checksum; an error burst within two adjacent bytes is never delivered; the
      parser stays in its buffer; where the builder's length check ends.
    - Relay, in every interleaving: each lost connection is notified exactly once,
      no descriptor leaks or is closed twice, received bytes are pushed unchanged
      and in order, the counters are exact, a queued job is written completely;
      and two histories in which a job or an error outlives its connection.
    - Wi-Fi, in every interleaving of single actions: no connection attempt after
      a disconnect but that of a callback under way, a status consistent with
      the events unless a handler overlaps it, saved credentials read back; run
      to their end, a loss starts the timer and a callback reconnects, scans
      stay in bounds; and where a report is torn, credentials are truncated, a
      disconnect is undone or the device restarts for ever.
    - Firmware: every command but [CMD_PROXY_SEND] gives exactly one response and
      no undefined behaviour, under a stated bound for [CMD_WIFI_SET_CONFIG]
      that is shown to be exact; the serial writer terminates and writes
      everything unless a flush fails; and the round trip from request bytes to
      the response a host parser delivers.  A frame a failing flush cuts short
      is counted ([writes_cut], which the code does not have), and the theorems
      say what is then queued.
    - Buttons: click trains call exactly the right callbacks, glitches are
      ignored, the registry stays sorted, the timer is driven legally in every
      history and whatever [esp_timer] answers, a power-saving cycle leaves its pins as they were; and several
      accesses outside or after freeing a block, and a calibration handle lost.
    - Containers over blocks: the array, the deque and the sized array refine
      lists and the hash table a finite map, over every history of calls and
      without an access outside a block, with an addition failing only where
      memory is refused; the queue sorts; the stack is last-in
      first-out; when the ring buffer is first-in first-out; a pool's pages are
      released once; the 64-bit hash is the reference one.  Beside them, the
      histories in which an operation leaves its block or loses elements.
    - Containers over a heap: both lists refine the same list specification and
      are interchangeable, the tree table a sorted association list and the
      ternary search table a map from strings that are not empty, over every
      history of calls and touching no other memory (but for the last entry of
      an empty tree, which follows a null pointer); searches of a tree end within 2*log2(n+1) turns;
      the merge sort is stable and keeps the nodes; iteration passes every entry,
      with the exceptions stated.  Beside them, what leaks, what is counted
      twice, and which entries an iterator repeats or misses.

    ** Bounds and fuel

    Integers are [Z] with the wrap of their C type at each store.  Loops over
    data are structural where the data is a list.  The loops with fuel in the
    firmware, the buttons and the block containers are: [cdc_loop], given two
    turns per byte, since a flush happens at most between two chunks of at least
    one byte ([cdc_write_complete] proves it never runs out); [sift_up] and
    [cc_pqueue_heapify], whose index moves strictly towards the root or the end
    and which get one turn per index ([pqueue_sorts]); the loops of the button
    over one event's callbacks, one turn per callback; [filter_stack_loop], one
    turn per element and one for the end, and the filter in place of the deque,
    one turn per element; the walks over the pages of a pool, one turn per page
    and one for the end.  Loops over a heap follow pointers, and a call gives
    each of them one turn more than the heap has nodes ([heap_fuel]): a loop
    that visits no node twice ends before, and on a cycle the C loop does not
    return either.  Running out is [Hang], so a theorem that says an operation
    returns says that this is enough; [tree_search_turns] gives the sharper
    bound of a search.  Trains of clicks are bounded by 255, the range of the
    8-bit counter.

    ** What is not modelled

    Code outside src/: FreeRTOS, ESP-IDF, lwIP, TinyUSB and the C library are
    parameters, with the behaviour relied on as named laws ([NvsLaws],
    [UsbLaws], [LedLaws], [RuntimeLaws], [NodeAllocLaws], [PageHeapLaws],
    [QSortLaws] and [QSortSorts], [BlockSortLaws]) that concrete instances
    satisfy; a comparator given to a container has the laws of an order
    ([Comparator], [Comparison], [KeyLaws]).  Logging has no effect.  Tasks
    interleave between the steps listed in [TcpMgr] and between the actions of
    [WifiMgr].  A command handler of [Firmware] runs the Wi-Fi functions it
    calls to their end; the button API, the tick of the timer task and the
    wake-up interrupt ([button_power_save_isr_handler]) each run to completion,
    though the code does not keep them from preempting each other; the
    containers are used by one task.  User callbacks of
    buttons are recorded, not run; a function given to a container's map, reduce
    or destructor only sees elements and does not call the container back.  Two
    arrays or deques under one zip iterator, and two lists of one call, are
    distinct.  A chain of the hash table is the list of its entries, without
    their addresses.  The functions that return the size of a struct or the
    default configuration are left out where nothing uses them.  The host
    programs in Go and HTML are represented by the wire format only; the tests
    and the examples of the components are not modelled. *)

From Stdlib Require Export ZArith Lia Btauto.
From stdpp Require Export base list gmap strings numbers.

#[export] Set Default Goal Selector "!".
#[global] Open Scope Z_scope.

(** ** Machine integers

    An unsigned [w]-bit C integer is a [Z] in [[0, 2^w)]; every store into a
    variable of a C integer type is written with the [wrap] of its width. *)

Definition wrap (w z : Z) : Z := z mod 2 ^ w.

Abbreviation u8 := (wrap 8).
Abbreviation u16 := (wrap 16).
Abbreviation u32 := (wrap 32).
Abbreviation u64 := (wrap 64).

(** Two's complement reinterpretation of a [w]-bit pattern as a signed value. *)
Definition sgn (w z : Z) : Z :=
  let r := wrap w z in if r <? 2 ^ (w - 1) then r else r - 2 ^ w.

Declare Scope c_scope.
Delimit Scope c_scope with C.
Infix "&&&" := Z.land (at level 40, left associativity) : c_scope.
Infix "^^^" := Z.lxor (at level 43, left associativity) : c_scope.
Infix "|||" := Z.lor (at level 50, left associativity) : c_scope.
Infix "<<<" := Z.shiftl (at level 38, left associativity) : c_scope.
Infix ">>>" := Z.shiftr (at level 38, left associativity) : c_scope.

(** A value fits in [w] bits. *)
Definition fits (w z : Z) : Prop := 0 <= z < 2 ^ w.

(** A byte string: every element is a [uint8_t] value. *)
Abbreviation bytes_ok := (Forall (fits 8)).

#[export] Instance fits_dec w z : Decision (fits w z).
Proof. unfold fits. apply _. Defined.

Create HintDb cint.

Section Widths.
Context (w : Z) (Hw : 0 <= w).

Lemma wrap_fits z : fits w (wrap w z).
Proof using Hw. apply Z.mod_pos_bound, Z.pow_pos_nonneg; lia. Qed.

Lemma wrap_id z : fits w z -> wrap w z = z.
Proof using Type. apply Z.mod_small. Qed.

Lemma wrap_wrap z : wrap w (wrap w z) = wrap w z.
Proof using Hw. apply wrap_id, wrap_fits. Qed.

Lemma fits_testbit z :
  fits w z <-> 0 <= z /\ forall i, w <= i -> Z.testbit z i = false.
Proof using Hw.
  split.
  - intros H. split; [apply H|]. intros i Hi.
    rewrite <-(Z.mod_small z (2 ^ w)) by apply H.
    by apply Z.mod_pow2_bits_high.
  - intros [Hz Hb]. replace z with (Z.land z (Z.ones w)).
    + rewrite Z.land_ones by lia. apply wrap_fits.
    + apply Z.bits_inj'. intros i Hi. rewrite Z.land_spec.
      destruct (Z.lt_ge_cases i w).
      * rewrite Z.ones_spec_low by lia. by rewrite andb_true_r.
      * by rewrite Hb by done.
Qed.

Lemma lxor_fits a b : fits w a -> fits w b -> fits w (Z.lxor a b).
Proof using Hw.
  rewrite !fits_testbit. intros [Ha Hab] [Hb Hbb]. split.
  - apply Z.lxor_nonneg. lia.
  - intros i Hi. by rewrite Z.lxor_spec, Hab, Hbb.
Qed.

Lemma lor_fits a b : fits w a -> fits w b -> fits w (Z.lor a b).
Proof using Hw.
  rewrite !fits_testbit. intros [Ha Hab] [Hb Hbb]. split.
  - apply Z.lor_nonneg. lia.
  - intros i Hi. by rewrite Z.lor_spec, Hab, Hbb.
Qed.

Lemma wrap_testbit z i :
  0 <= i -> Z.testbit (wrap w z) i = (i <? w) && Z.testbit z i.
Proof using Hw.
  intros Hi. unfold wrap. destruct (Z.ltb_spec i w); simpl.
  - by rewrite Z.mod_pow2_bits_low.
  - by rewrite Z.mod_pow2_bits_high.
Qed.
End Widths.

Lemma fits_weaken v w z : 0 <= v <= w -> fits v z -> fits w z.
Proof.
  intros Hvw Hz. unfold fits in *.
  pose proof (Z.pow_le_mono_r 2 v w). lia.
Qed.

(** Exhaustive check of a decidable property of a byte. *)
Lemma byte_forall (P : Z -> bool) :
  forallb P (Z.of_nat <$> seq 0 256) = true -> forall b, fits 8 b -> P b = true.
Proof.
  rewrite forallb_forall. intros H b Hb. apply H.
  rewrite <-list_elem_of_In, list_elem_of_fmap. unfold fits in Hb.
  exists (Z.to_nat b). rewrite Z2Nat.id by lia. split; [done|].
  apply elem_of_seq. lia.
Qed.

Lemma fits_high w z i : fits w z -> 0 <= w <= i -> Z.testbit z i = false.
Proof.
  intros Hz Hw. apply fits_testbit in Hz as [_ Hb]; [|lia]. apply Hb. lia.
Qed.

Lemma take_insert_snoc {A} (l : list A) n x :
  (n < length l)%nat -> take (S n) (<[n:=x]> l) = take n l ++ [x].
Proof.
  intros Hn. rewrite (take_S_r _ _ x) by (by apply list_lookup_insert_eq).
  by rewrite take_insert_ge by lia.
Qed.

(** Number of elements that satisfy a test. *)
Definition countb {A} (f : A -> bool) (l : list A) : nat :=
  foldr (fun e n => ((if f e then 1 else 0) + n)%nat) 0%nat l.

Lemma countb_app {A} (f : A -> bool) l1 l2 :
  countb f (l1 ++ l2) = (countb f l1 + countb f l2)%nat.
Proof. unfold countb. induction l1; simpl; lia. Qed.

Lemma countb_snoc {A} (f : A -> bool) l e :
  countb f (l ++ [e]) = (countb f l + if f e then 1 else 0)%nat.
Proof. rewrite countb_app. simpl. lia. Qed.

(** Counting with a 32-bit counter. *)
Lemma foldl_count (f : Z -> bool) l o :
  0 <= o -> o + Z.of_nat (length l) < 2 ^ 32 ->
  foldl (fun a x => if f x then u32 (a + 1) else a) o l = o + Z.of_nat (countb f l).
Proof.
  revert o. induction l as [|x l IH]; intros o Ho Hl; [simpl; lia|]. simpl in Hl |- *.
  destruct (f x); rewrite ?(wrap_id 32) by (unfold fits; lia); rewrite IH by lia; lia.
Qed.

(** Closed decidable goals by evaluation. *)
Ltac by_compute := apply (bool_decide_unpack _); vm_compute; exact I.

(** Case analysis on the conditions of the goal only. *)
Ltac split_ifs :=
  repeat match goal with
    | |- context [if ?b then _ else _] =>
        lazymatch b with
        | context [if _ then _ else _] => fail
        | _ => let E := fresh "E" in destruct b eqn:E
        end
    end.
