(* ===== verification/Crc16.v ===== *)
(** * CRC16-CCITT of the serial protocol ([crc16_update] in src/main/proto.c)

    The running checksum of every frame.  The update is GF(2)-linear, every
    round is a bijection of the 16-bit register, and a message followed by its
    own checksum has residue 0; from these facts the detection of every error
    burst confined to two adjacent bytes follows. *)

From S2P Require Import Prelude.
Local Open Scope c_scope.

(** ** The code *)

(** One turn of the loop body of [crc16_update]. *)
Definition crc16_step (crc : Z) : Z :=
  if negb (crc &&& 0x8000 =? 0)
  then u16 ((crc <<< 1) ^^^ 0x1021)
  else u16 (crc <<< 1).

(** [crc16_update]: xor the byte into the high half, then eight rounds. *)
Definition crc16_update (crc byte : Z) : Z :=
  Nat.iter 8 crc16_step (u16 (crc ^^^ (byte <<< 8))).

Definition CRC_INIT : Z := 0xFFFF.

(** The accumulation loops [for (k = 0; k < n; k++) crc = crc16_update(crc, buf[k])]
    of [proto_build_response] and [proto_build_push]. *)
Definition crc16 (crc : Z) (bs : list Z) : Z := foldl crc16_update crc bs.

Lemma crc16_cons c b bs : crc16 c (b :: bs) = crc16 (crc16_update c b) bs.
Proof. reflexivity. Qed.

Lemma crc16_nil c : crc16 c [] = c.
Proof. reflexivity. Qed.

Lemma crc16_app c a b : crc16 c (a ++ b) = crc16 (crc16 c a) b.
Proof. apply foldl_app. Qed.

(** ** Range *)

Lemma crc16_step_fits x : fits 16 (crc16_step x).
Proof. unfold crc16_step. case_match; by apply wrap_fits. Qed.

Lemma iter_fits (f : Z -> Z) n x :
  (forall y, fits 16 (f y)) -> fits 16 x -> fits 16 (Nat.iter n f x).
Proof. intros Hf Hx. destruct n; [done|]. apply Hf. Qed.

Lemma crc16_update_fits c b : fits 16 (crc16_update c b).
Proof. apply iter_fits; [apply crc16_step_fits|by apply wrap_fits]. Qed.

Lemma crc16_fits c bs : fits 16 c -> fits 16 (crc16 c bs).
Proof.
  revert c. induction bs as [|b bs IH]; intros c Hc; [done|].
  apply IH, crc16_update_fits.
Qed.

#[export] Hint Resolve crc16_step_fits crc16_update_fits crc16_fits : cint.

(** ** Linearity *)

Lemma bit15_test x : negb (x &&& 0x8000 =? 0) = Z.testbit x 15.
Proof.
  change 0x8000 with (2 ^ 15).
  destruct (Z.eqb_spec (x &&& 2 ^ 15) 0) as [E|E]; simpl.
  - assert (Z.testbit (x &&& 2 ^ 15) 15 = false) as H by (by rewrite E, Z.testbit_0_l).
    rewrite Z.land_spec, Z.pow2_bits_true in H by lia.
    by rewrite andb_true_r in H.
  - destruct (Z.testbit x 15) eqn:Hb; [done|]. destruct E.
    apply Z.bits_inj'. intros i Hi.
    rewrite Z.land_spec, Z.testbit_0_l, Z.pow2_bits_eqb by lia.
    destruct (Z.eqb_spec 15 i); [by subst; rewrite Hb|by rewrite andb_false_r].
Qed.

(** Branch-free form of a round. *)
Lemma crc16_step_alt x :
  crc16_step x = u16 (x <<< 1) ^^^ (if Z.testbit x 15 then 0x1021 else 0).
Proof.
  unfold crc16_step. rewrite bit15_test. destruct (Z.testbit x 15).
  - apply Z.bits_inj'. intros i Hi.
    rewrite Z.lxor_spec, !wrap_testbit, Z.lxor_spec by lia.
    destruct (Z.ltb_spec i 16); simpl; [done|].
    rewrite (fits_high 16 0x1021 i) by (done || lia).
    done.
  - by rewrite Z.lxor_0_r.
Qed.

Lemma wrap_lxor w a b : 0 <= w -> wrap w (a ^^^ b) = wrap w a ^^^ wrap w b.
Proof.
  intros Hw. apply Z.bits_inj'. intros i Hi.
  rewrite Z.lxor_spec, !wrap_testbit, Z.lxor_spec by lia.
  by destruct (i <? w).
Qed.

Lemma lxor_swap a b c d : (a ^^^ b) ^^^ (c ^^^ d) = (a ^^^ c) ^^^ (b ^^^ d).
Proof.
  apply Z.bits_inj'. intros i _. rewrite !Z.lxor_spec. btauto.
Qed.

Lemma crc16_step_lxor a b :
  crc16_step (a ^^^ b) = crc16_step a ^^^ crc16_step b.
Proof.
  rewrite !crc16_step_alt, Z.shiftl_lxor, wrap_lxor, Z.lxor_spec by lia.
  rewrite lxor_swap. f_equal.
  by destruct (Z.testbit a 15), (Z.testbit b 15).
Qed.

Lemma iter_lxor n a b :
  Nat.iter n crc16_step (a ^^^ b)
  = Nat.iter n crc16_step a ^^^ Nat.iter n crc16_step b.
Proof.
  induction n as [|n IH]; simpl; [done|]. by rewrite IH, crc16_step_lxor.
Qed.

Lemma crc16_update_lxor c d a b :
  crc16_update (c ^^^ d) (a ^^^ b) = crc16_update c a ^^^ crc16_update d b.
Proof.
  unfold crc16_update. rewrite <-iter_lxor, <-wrap_lxor, Z.shiftl_lxor by lia.
  by rewrite lxor_swap.
Qed.

(** Pointwise xor of two equally long messages. *)
Abbreviation lxors := (zip_with Z.lxor).

Lemma crc16_lxors c d xs ys :
  length xs = length ys ->
  crc16 (c ^^^ d) (lxors xs ys) = crc16 c xs ^^^ crc16 d ys.
Proof.
  revert c d ys. induction xs as [|x xs IH]; intros c d [|y ys] Hl; try done.
  simpl in *. rewrite crc16_update_lxor. apply IH. lia.
Qed.

(** ** Injectivity of the rounds *)

Lemma crc16_step_zero x : fits 16 x -> crc16_step x = 0 -> x = 0.
Proof.
  intros Hx H. rewrite crc16_step_alt in H.
  assert (Z.testbit x 15 = false) as Hb.
  { assert (Z.testbit (u16 (x <<< 1) ^^^ (if Z.testbit x 15 then 0x1021 else 0)) 0
            = false) as H0 by (by rewrite H).
    rewrite Z.lxor_spec, wrap_testbit, Z.shiftl_spec in H0 by lia.
    rewrite (Z.testbit_neg_r x (0 - 1)) in H0 by lia.
    by destruct (Z.testbit x 15). }
  rewrite Hb, Z.lxor_0_r in H.
  apply Z.bits_inj'. intros i Hi. rewrite Z.testbit_0_l.
  destruct (Z.lt_ge_cases i 15).
  - rewrite <-(Z.testbit_0_l (i + 1)), <-H, wrap_testbit, Z.shiftl_spec by lia.
    replace (i + 1 - 1) with i by lia.
    by replace (i + 1 <? 16) with true by lia.
  - destruct (decide (i = 15)) as [->|]; [done|].
    by apply (fits_high 16); [done|lia].
Qed.

Lemma iter_zero n x : fits 16 x -> Nat.iter n crc16_step x = 0 -> x = 0.
Proof.
  intros Hx. induction n as [|n IH]; simpl; [done|]. intros H.
  apply IH, crc16_step_zero, H. by apply iter_fits; auto with cint.
Qed.

Lemma crc16_update_zero c b :
  fits 16 c -> fits 8 b -> crc16_update c b = 0 -> c = b <<< 8.
Proof.
  intros Hc Hb H. apply iter_zero in H; [|by apply wrap_fits].
  assert (fits 16 (b <<< 8)) as Hb'.
  { unfold fits in *. rewrite Z.shiftl_mul_pow2 by lia. lia. }
  rewrite wrap_id in H by (by apply lxor_fits). by apply Z.lxor_eq.
Qed.

Lemma crc16_update_00 : crc16_update 0 0 = 0.
Proof. reflexivity. Qed.

Lemma crc16_zeros n : crc16 0 (replicate n 0) = 0.
Proof. induction n; [done|]. simpl. by rewrite crc16_update_00. Qed.

(** A non-zero register stays non-zero while zero bytes are shifted in. *)
Lemma crc16_zeros_inv c n : fits 16 c -> crc16 c (replicate n 0) = 0 -> c = 0.
Proof.
  revert c. induction n as [|n IH]; intros c Hc; [done|]. simpl. intros H.
  apply IH in H; [|auto with cint].
  by apply crc16_update_zero in H; [|done|done].
Qed.

Lemma crc16_hi_table :
  forallb (fun a => implb (wrap 8 (crc16_update 0 a) =? 0) (a =? 0))
          (Z.of_nat <$> seq 0 256) = true.
Proof. vm_compute. reflexivity. Qed.

(** No non-zero high byte is cancelled by the byte that follows it. *)
Lemma crc16_pair_zero a b :
  fits 8 a -> fits 8 b -> crc16 0 [a; b] = 0 -> a = 0 /\ b = 0.
Proof.
  intros Ha Hb H.
  rewrite !crc16_cons, crc16_nil in H.
  apply crc16_update_zero in H; [|auto with cint|done].
  assert (wrap 8 (crc16_update 0 a) = 0) as E.
  { rewrite H. unfold wrap. rewrite Z.shiftl_mul_pow2 by lia. by apply Z.mod_mul. }
  pose proof (byte_forall _ crc16_hi_table a Ha) as Hall. cbv beta in Hall.
  rewrite E, Z.eqb_refl in Hall. apply Z.eqb_eq in Hall as ->.
  split; [done|]. rewrite crc16_update_00, Z.shiftl_mul_pow2 in H by lia. lia.
Qed.

(** ** Residue of a message followed by its checksum *)

Lemma be16_lxor_hi hi lo :
  fits 8 lo -> u16 (((hi <<< 8) ||| lo) ^^^ (hi <<< 8)) = lo.
Proof.
  intros Hlo.
  rewrite <-(wrap_id 16 lo) at 2 by (by apply (fits_weaken 8)).
  f_equal. apply Z.bits_inj'. intros i Hi.
  rewrite Z.lxor_spec, Z.lor_spec, Z.shiftl_spec by lia.
  destruct (Z.lt_ge_cases i 8).
  - rewrite (Z.testbit_neg_r hi) by lia. by rewrite xorb_false_r.
  - rewrite (fits_high 8 lo i) by (done || lia). btauto.
Qed.

Lemma crc16_low_table :
  forallb (fun lo => crc16_update (Nat.iter 8 crc16_step lo) lo =? 0)
          (Z.of_nat <$> seq 0 256) = true.
Proof. vm_compute. reflexivity. Qed.

(** Feeding the register its own two bytes clears it. *)
Lemma crc16_self hi lo : fits 8 lo -> crc16 ((hi <<< 8) ||| lo) [hi; lo] = 0.
Proof.
  intros Hlo. pose proof (byte_forall _ crc16_low_table lo Hlo) as H.
  apply Z.eqb_eq in H. rewrite <-H, !crc16_cons, crc16_nil.
  f_equal. unfold crc16_update. by rewrite be16_lxor_hi.
Qed.

Lemma crc16_residue c hi lo :
  fits 16 c -> fits 8 hi -> fits 8 lo ->
  crc16 c [hi; lo] = 0 <-> c = (hi <<< 8) ||| lo.
Proof.
  intros Hc Hhi Hlo. set (r := (hi <<< 8) ||| lo).
  assert (fits 16 r) as Hr.
  { apply lor_fits; [lia| |by apply (fits_weaken 8)].
    unfold fits in *. rewrite Z.shiftl_mul_pow2 by lia. lia. }
  replace (crc16 c [hi; lo]) with (crc16 (c ^^^ r) (replicate 2 0)).
  - split; [|by intros ->; rewrite Z.lxor_nilpotent].
    intros H. apply crc16_zeros_inv in H; [|by apply lxor_fits]. by apply Z.lxor_eq.
  - transitivity (crc16 (c ^^^ r) (replicate 2 0) ^^^ crc16 r [hi; lo]);
      [by rewrite (crc16_self hi lo Hlo : crc16 r [hi; lo] = 0), Z.lxor_0_r|].
    rewrite <-crc16_lxors by done.
    change (lxors (replicate 2 0) [hi; lo]) with [0 ^^^ hi; 0 ^^^ lo].
    by rewrite Z.lxor_assoc, Z.lxor_nilpotent, Z.lxor_0_r, !Z.lxor_0_l.
Qed.

(** ** Burst detection *)

(** An error pattern confined to two adjacent bytes: [n] clean bytes, the
    two corrupted ones, then [m] clean bytes. *)
Definition burst (n m : nat) (a b : Z) : list Z :=
  replicate n 0 ++ [a; b] ++ replicate m 0.

Lemma burst_length n m a b : length (burst n m a b) = (n + 2 + m)%nat.
Proof. unfold burst. rewrite !length_app, !length_replicate. simpl. lia. Qed.

Lemma crc16_burst n m a b :
  fits 8 a -> fits 8 b -> crc16 0 (burst n m a b) = 0 -> a = 0 /\ b = 0.
Proof.
  intros Ha Hb H. unfold burst in H.
  rewrite !crc16_app, crc16_zeros in H.
  apply crc16_zeros_inv in H; [|by apply crc16_fits].
  by apply crc16_pair_zero in H.
Qed.

(** Two equally long messages with the same checksum from the same start,
    differing only in two adjacent bytes, are equal there. *)
Lemma crc16_burst_detect c xs n m a b :
  length xs = (n + 2 + m)%nat -> fits 8 a -> fits 8 b ->
  crc16 c (lxors xs (burst n m a b)) = crc16 c xs -> a = 0 /\ b = 0.
Proof.
  intros Hl Ha Hb H. apply (crc16_burst n m); [done..|].
  rewrite <-(Z.lxor_0_r c) in H at 1.
  rewrite crc16_lxors in H by (by rewrite burst_length).
  apply (f_equal (fun z => crc16 c xs ^^^ z)) in H.
  by rewrite <-Z.lxor_assoc, Z.lxor_nilpotent, Z.lxor_0_l in H.
Qed.

#[global] Arguments crc16 : simpl never.
#[global] Opaque crc16_step crc16_update crc16.
