(* ===== verification/CMem.v ===== *)
(** * C memory: bounded buffers, character arrays and undefined behaviour

    A C object that the code writes into is a list with its capacity; an
    access outside it is the value [Fault] of the [outcome] monad.  The
    definitions here are the language and its [string.h], not the program. *)

From S2P Require Import Prelude.
Local Open Scope c_scope.

(** ** The outcome of a C computation *)

Inductive outcome (A : Type) : Type :=
  | Ret (a : A)
  | Fault.                      (** undefined behaviour: an access out of bounds *)
Arguments Ret {A} a.
Arguments Fault {A}.

#[export] Instance outcome_ret : MRet outcome := fun A a => Ret a.
#[export] Instance outcome_bind : MBind outcome :=
  fun A B f m => match m with Ret a => f a | Fault => Fault end.

Definition is_ret {A} (m : outcome A) : Prop := exists a, m = Ret a.

Lemma bind_Ret {A B} (a : A) (f : A -> outcome B) : (Ret a ≫= f) = f a.
Proof. reflexivity. Qed.

Lemma bind_Fault {A B} (f : A -> outcome B) : (Fault ≫= f) = Fault.
Proof. reflexivity. Qed.

Lemma bind_inv {A B} (m : outcome A) (f : A -> outcome B) b :
  (m ≫= f) = Ret b -> exists a, m = Ret a /\ f a = Ret b.
Proof. destruct m as [a|]; [eauto|done]. Qed.

Lemma bind_assoc {A B C} (m : outcome A) (f : A -> outcome B) (g : B -> outcome C) :
  (m ≫= f) ≫= g = m ≫= (fun a => f a ≫= g).
Proof. by destruct m. Qed.

(** ** Buffers filled from the front ([buf[n++] = x], [memcpy(&buf[n], ...)]) *)

Abbreviation zlen l := (Z.of_nat (length l)).

(** [buf[n++] = x] on an array of [cap] elements whose first [n] are [buf]. *)
Definition buf_put (cap : Z) (buf : list Z) (x : Z) : outcome (list Z) :=
  if zlen buf <? cap then Ret (buf ++ [x]) else Fault.

(** [memcpy(&buf[n], src, len); n += len]. *)
Definition buf_puts (cap : Z) (buf src : list Z) : outcome (list Z) :=
  if zlen buf + zlen src <=? cap then Ret (buf ++ src) else Fault.

(** Reading [len] bytes from an object holding [src]. *)
Definition mem_read (src : list Z) (len : Z) : outcome (list Z) :=
  if len <=? zlen src then Ret (take (Z.to_nat len) src) else Fault.

(** [memcpy(dst, src, sizeof src)] into a whole array [dst]. *)
Definition mem_write (dst src : list Z) : outcome (list Z) :=
  if zlen src <=? zlen dst then Ret (src ++ drop (length src) dst) else Fault.

Lemma buf_put_ok cap buf x : zlen buf < cap -> buf_put cap buf x = Ret (buf ++ [x]).
Proof. intros H. unfold buf_put. by rewrite (proj2 (Z.ltb_lt _ _) H). Qed.

Lemma buf_puts_ok cap buf src :
  zlen buf + zlen src <= cap -> buf_puts cap buf src = Ret (buf ++ src).
Proof. intros H. unfold buf_puts. by rewrite (proj2 (Z.leb_le _ _) H). Qed.

Lemma mem_read_all src : mem_read src (zlen src) = Ret src.
Proof. unfold mem_read. by rewrite Z.leb_refl, Nat2Z.id, firstn_all. Qed.

Lemma mem_write_ok dst src :
  zlen src <= zlen dst -> mem_write dst src = Ret (src ++ drop (length src) dst).
Proof. intros H. unfold mem_write. by rewrite (proj2 (Z.leb_le _ _) H). Qed.

Lemma mem_write_over dst src : zlen dst < zlen src -> mem_write dst src = Fault.
Proof. intros H. unfold mem_write. by rewrite (proj2 (Z.leb_gt _ _) H). Qed.

(** ** Character arrays *)

(** The C string starting at [l]: the characters before the first NUL;
    running past the end of the object is a fault. *)
Fixpoint c_str (l : list Z) : outcome (list Z) :=
  match l with
  | [] => Fault
  | c :: l' => if c =? 0 then Ret [] else s ← c_str l'; Ret (c :: s)
  end.

Definition strlen (l : list Z) : outcome Z := s ← c_str l; Ret (zlen s).

(** A NUL-free byte string, the contents of a C string. *)
Definition str_ok (s : list Z) : Prop := Forall (fun c => c <> 0) s.

(** At most [n] characters of a C string; the object may end without a NUL
    once [n] characters have been read. *)
Fixpoint c_strn (n : nat) (l : list Z) : outcome (list Z) :=
  match n, l with
  | O, _ => Ret []
  | S _, [] => Fault
  | S n', c :: l' => if c =? 0 then Ret [] else s ← c_strn n' l'; Ret (c :: s)
  end.

(** [strncpy(dst, src, n)]: at most [n] characters of [src], then zeros up to [n]. *)
Definition strncpy (dst src : list Z) (n : Z) : outcome (list Z) :=
  t ← c_strn (Z.to_nat n) src;
  mem_write dst (t ++ replicate (Z.to_nat n - length t) 0).

Lemma c_str_app s l : str_ok s -> c_str (s ++ 0 :: l) = Ret s.
Proof.
  induction 1 as [|c s Hc Hs IH]; [done|]. simpl.
  rewrite (proj2 (Z.eqb_neq _ _) Hc). by rewrite IH.
Qed.

Lemma strlen_app s l : str_ok s -> strlen (s ++ 0 :: l) = Ret (zlen s).
Proof. intros Hs. unfold strlen. by rewrite c_str_app. Qed.

Lemma c_str_unterminated l : str_ok l -> c_str l = Fault.
Proof.
  induction 1 as [|c s Hc Hs IH]; [done|]. simpl.
  rewrite (proj2 (Z.eqb_neq _ _) Hc). by rewrite IH.
Qed.

Lemma c_str_inv l s : c_str l = Ret s -> str_ok s /\ exists r, l = s ++ 0 :: r.
Proof.
  revert s. induction l as [|c l IH]; intros s; [done|]. simpl.
  destruct (Z.eqb_spec c 0) as [->|Hc].
  - intros [= <-]. split; [constructor|]. by exists l.
  - intros (s' & Hs' & [= <-])%bind_inv. destruct (IH _ Hs') as (Hok & r & ->).
    split; [by constructor|]. by exists r.
Qed.

(** A character array of [n] cells that was zero-filled and then given the
    bytes [s] at its front is a string iff a zero cell is left or in [s]. *)
Definition char_array (n : nat) (s : list Z) : list Z := s ++ replicate (n - length s) 0.

Lemma char_array_length n s : (length s <= n)%nat -> length (char_array n s) = n.
Proof. intros H. unfold char_array. rewrite length_app, length_replicate. lia. Qed.

Lemma c_str_char_array n s :
  str_ok s -> (length s < n)%nat -> c_str (char_array n s) = Ret s.
Proof.
  intros Hs Hl. unfold char_array.
  replace (n - length s)%nat with (S (n - length s - 1))%nat by lia.
  by apply c_str_app.
Qed.

Lemma mem_write_zeroed n s :
  (length s <= n)%nat -> mem_write (replicate n 0) s = Ret (char_array n s).
Proof.
  intros H. rewrite mem_write_ok by (rewrite length_replicate; lia).
  by rewrite drop_replicate.
Qed.

Lemma c_strn_app n s l : str_ok s -> c_strn n (s ++ 0 :: l) = Ret (take n s).
Proof.
  intros Hs. revert n. induction Hs as [|c s Hc Hs IH]; intros [|n]; try done. simpl.
  rewrite (proj2 (Z.eqb_neq _ _) Hc). by rewrite IH.
Qed.

Lemma c_strn_long n s l : str_ok s -> length s = n -> c_strn n (s ++ l) = Ret s.
Proof.
  intros Hs <-. induction Hs as [|c s Hc Hs IH]; [done|]. simpl.
  rewrite (proj2 (Z.eqb_neq _ _) Hc). by rewrite IH.
Qed.

Lemma c_strn_inv n l s :
  c_strn n l = Ret s -> str_ok s /\ (length s <= n)%nat.
Proof.
  revert l s. induction n as [|n IH]; intros l s; [intros [= <-]; split; [constructor|done]|].
  destruct l as [|c l]; [done|]. simpl. destruct (Z.eqb_spec c 0) as [->|Hc].
  - intros [= <-]. split; [constructor|simpl; lia].
  - intros (s' & Hs' & [= <-])%bind_inv. apply IH in Hs' as [Hok Hl].
    split; [by constructor|simpl; lia].
Qed.

(** [strncpy] into a zeroed array keeps the zeros. *)
Lemma strncpy_zeroed m n src s :
  c_strn n src = Ret s -> (n <= m)%nat ->
  strncpy (replicate m 0) src (Z.of_nat n) = Ret (char_array m s).
Proof.
  intros Hs Hn. unfold strncpy. rewrite Nat2Z.id, Hs, bind_Ret.
  pose proof (c_strn_inv _ _ _ Hs) as [_ Hl].
  rewrite mem_write_zeroed by (rewrite length_app, length_replicate; lia).
  f_equal. unfold char_array. rewrite <-app_assoc, <-replicate_add, length_app, length_replicate.
  do 2 f_equal. lia.
Qed.

Lemma c_strn_bytes n l s : bytes_ok l -> c_strn n l = Ret s -> bytes_ok s.
Proof.
  intros Hl. revert n s. induction Hl as [|c l Hc _ IH]; intros [|n] s; simpl; try done;
    try (intros [= <-]; constructor).
  destruct (c =? 0); [intros [= <-]; constructor|].
  intros (s' & Hs' & [= <-])%bind_inv. constructor; [done|by eapply IH].
Qed.
