(* ===== verification/CState.v ===== *)
(** * Stateful C functions

    A C function that works on static variables is a value of [M S A]: from
    the state it returns with a result and a new state ([Done]), ends in a
    restart of the device, by [abort()] or [esp_restart()], in some last state
    ([Reset]), has undefined behaviour ([Undef]), or does not return within the
    bound its loop was given ([Hang]).  [wp] is the weakest precondition of
    such a function: it has no undefined behaviour and does not hang, and the
    postcondition holds if it returns.

    A function that other tasks can interrupt is a [prog], a sequence of atomic
    actions: [run] runs it to its end, [pstep] makes one action, and [rg] is its
    rely-guarantee triple. *)

From S2P Require Import Prelude CMem.

Inductive exec (S A : Type) : Type :=
  | Done (a : A) (s : S)
  | Reset (s : S)
  | Undef
  | Hang.
Arguments Done {S A} a s.
Arguments Reset {S A} s.
Arguments Undef {S A}.
Arguments Hang {S A}.

Definition M (S A : Type) : Type := S -> exec S A.

#[export] Instance M_ret S : MRet (M S) := fun A a s => Done a s.
#[export] Instance M_bind S : MBind (M S) :=
  fun A B f m s =>
    match m s with
    | Done a s' => f a s' | Reset s' => Reset s' | Undef => Undef | Hang => Hang
    end.

Definition gets {S A} (f : S -> A) : M S A := fun s => Done (f s) s.
Definition modify {S} (f : S -> S) : M S unit := fun s => Done tt (f s).

(** A call that works on a part of the state. *)
Definition zoom {S T A} (get : S -> T) (put : T -> S -> S) (f : T -> A * T) : M S A :=
  fun s => let '(a, t) := f (get s) in Done a (put t s).

(** A whole function of another component. *)
Definition embed {S T A} (get : S -> T) (put : T -> S -> S) (m : M T A) : M S A :=
  fun s => match m (get s) with
           | Done a t => Done a (put t s) | Reset t => Reset (put t s)
           | Undef => Undef | Hang => Hang
           end.

Definition lift {S A} (o : outcome A) : M S A :=
  fun s => match o with Ret a => Done a s | Fault => Undef end.

Definition abort {S A} : M S A := fun s => Reset s.
Definition hang {S A} : M S A := fun _ => Hang.

(** [ESP_ERROR_CHECK(x)]: abort unless the call returned [ESP_OK]. *)
Definition ESP_OK : Z := 0.
Definition ESP_FAIL : Z := -1.
Definition ESP_ERR_INVALID_ARG : Z := 0x102.
Definition ESP_ERR_NOT_FOUND : Z := 0x105.
Definition ESP_ERROR_CHECK {S} (m : M S Z) : M S unit :=
  r ← m; if r =? ESP_OK then mret tt else abort.

(** ** Weakest preconditions

    [wpr R m Q s]: run from [s], [m] returns in a state of [Q] or restarts the
    device in a state of [R]. *)

Definition wpr {S A} (R : S -> Prop) (m : M S A) (Q : A -> S -> Prop) (s : S) : Prop :=
  match m s with Done a s' => Q a s' | Reset s' => R s' | Undef | Hang => False end.

Abbreviation wp := (wpr (fun _ => True)).

Section Wp.
Context {S : Type} {R : S -> Prop}.
Implicit Types s : S.

Lemma wp_ret {A} (a : A) Q s : Q a s -> wpr R (mret a) Q s.
Proof. done. Qed.

Lemma wp_bind {A B} (m : M S A) (f : A -> M S B) Q s :
  wpr R m (fun a s' => wpr R (f a) Q s') s -> wpr R (m ≫= f) Q s.
Proof. unfold wpr, mbind, M_bind. by destruct (m s). Qed.

Lemma wp_mono {A} (m : M S A) (Q Q' : A -> S -> Prop) s :
  (forall a s', Q a s' -> Q' a s') -> wpr R m Q s -> wpr R m Q' s.
Proof. unfold wpr. destruct (m s); auto. Qed.

Lemma wp_gets {A} (f : S -> A) Q s : Q (f s) s -> wpr R (gets f) Q s.
Proof. done. Qed.

Lemma wp_modify f Q s : Q tt (f s) -> wpr R (modify f) Q s.
Proof. done. Qed.

Lemma wp_zoom {T A} (get : S -> T) put (f : T -> A * T) Q s :
  (forall a t, f (get s) = (a, t) -> Q a (put t s)) -> wpr R (zoom get put f) Q s.
Proof. unfold wpr, zoom. destruct (f (get s)). auto. Qed.

Lemma wp_lift {A} (o : outcome A) (Q : A -> S -> Prop) s a :
  o = Ret a -> Q a s -> wpr R (lift o) Q s.
Proof. by intros ->. Qed.

Lemma wp_embed {T A} (get : S -> T) put (m : M T A) (Q : A -> S -> Prop) s :
  wpr (fun t => R (put t s)) m (fun a t => Q a (put t s)) (get s) -> wpr R (embed get put m) Q s.
Proof. unfold wpr, embed. by destruct (m (get s)). Qed.

Lemma wp_if {A} (b : bool) (m1 m2 : M S A) Q s :
  (b = true -> wpr R m1 Q s) -> (b = false -> wpr R m2 Q s) ->
  wpr R (if b then m1 else m2) Q s.
Proof. destruct b; auto. Qed.

Lemma wp_abort {A} (Q : A -> S -> Prop) s : R s -> wpr R abort Q s.
Proof. done. Qed.

Lemma wp_check (m : M S Z) (Q : unit -> S -> Prop) s :
  wpr R m (fun r s' => if r =? ESP_OK then Q tt s' else R s') s ->
  wpr R (ESP_ERROR_CHECK m) Q s.
Proof.
  intros H. apply wp_bind. revert H. apply wp_mono. intros r s' H.
  apply wp_if; intros E; by rewrite E in H.
Qed.

Lemma bind_assoc_M {A B C} (m : M S A) (f : A -> M S B) (g : B -> M S C) s :
  ((m ≫= f) ≫= g) s = (m ≫= (fun a => f a ≫= g)) s.
Proof. unfold mbind, M_bind. by destruct (m s). Qed.

Lemma done_wp {A} (m : M S A) a s s' Q : m s = Done a s' -> wpr R m Q s -> Q a s'.
Proof. unfold wpr. by intros ->. Qed.

Lemma wp_conj {A} (m : M S A) (Q1 Q2 : A -> S -> Prop) s :
  wpr R m Q1 s -> wpr R m Q2 s -> wpr R m (fun a s' => Q1 a s' /\ Q2 a s') s.
Proof. unfold wpr. destruct (m s); auto. Qed.
End Wp.

Lemma wpr_weaken {S A} (R R' : S -> Prop) (m : M S A) (Q Q' : A -> S -> Prop) s :
  (forall s', R s' -> R' s') -> (forall a s', Q a s' -> Q' a s') -> wpr R m Q s -> wpr R' m Q' s.
Proof. unfold wpr. destruct (m s); auto. Qed.

(** ** Programs of atomic actions

    What a task does between two points where another task may run is one
    action: an access to a shared variable or a call. *)

Inductive prog (S : Type) : Type -> Type :=
  | Act {A} (m : M S A) : prog S A
  | Then {A B} (p : prog S A) (k : A -> prog S B) : prog S B.
Arguments Act {S A} m.
Arguments Then {S A B} p k.

#[export] Instance prog_ret S : MRet (prog S) := fun A a => Act (mret a).
#[export] Instance prog_bind S : MBind (prog S) := fun A B k p => Then p k.

Abbreviation pgets f := (Act (gets f)).
Abbreviation pmodify f := (Act (modify f)).
Abbreviation plift o := (Act (lift o)).
Abbreviation pabort := (Act abort).

Definition PROG_ERROR_CHECK {S} (p : prog S Z) : prog S unit :=
  r ← p; if r =? ESP_OK then mret tt else pabort.

(** All of it, without interruption. *)
Fixpoint run {S A} (p : prog S A) : M S A :=
  match p with Act m => m | Then p k => run p ≫= fun a => run (k a) end.

Lemma run_bind {S A B} (p : prog S A) (k : A -> prog S B) s :
  run (p ≫= k) s = match run p s with
                   | Done a s' => run (k a) s' | Reset s' => Reset s' | Undef => Undef | Hang => Hang
                   end.
Proof. done. Qed.

Lemma run_ret {S A} (a : A) (s : S) : run (mret a) s = Done a s.
Proof. done. Qed.

(** The first action: the result, or the program that is left. *)
Fixpoint pstep {S A} (p : prog S A) (s : S) : exec S (A + prog S A) :=
  match p with
  | Act m => match m s with Done a s' => Done (inl a) s' | Reset s' => Reset s' | Undef => Undef | Hang => Hang end
  | Then p k =>
      match pstep p s with
      | Done (inl a) s' => Done (inr (k a)) s'
      | Done (inr p) s' => Done (inr (Then p k)) s'
      | Reset s' => Reset s' | Undef => Undef | Hang => Hang
      end
  end.

(** Stepping to the end is running. *)
Lemma pstep_run {S A} (p : prog S A) s :
  run p s = match pstep p s with
            | Done (inl a) s' => Done a s' | Done (inr p') s' => run p' s'
            | Reset s' => Reset s' | Undef => Undef | Hang => Hang
            end.
Proof.
  induction p as [A m|A B p IH k _]; simpl; [by destruct (m s)|]. unfold mbind, M_bind. rewrite IH.
  by destruct (pstep p s) as [[a|p'] s'| | |].
Qed.

Section WpRun.
Context {S : Type} {R : S -> Prop}.

Lemma wp_run_bind {A B} (p : prog S A) (k : A -> prog S B) Q s :
  wpr R (run p) (fun a s' => wpr R (run (k a)) Q s') s -> wpr R (run (p ≫= k)) Q s.
Proof. apply wp_bind. Qed.

Lemma wp_run_check (p : prog S Z) (Q : unit -> S -> Prop) s :
  wpr R (run p) (fun r s' => if r =? ESP_OK then Q tt s' else R s') s ->
  wpr R (run (PROG_ERROR_CHECK p)) Q s.
Proof.
  intros H. apply wp_run_bind. revert H. apply wp_mono. intros r s' H. by destruct (r =? ESP_OK).
Qed.
End WpRun.

(** One symbolic step of a function body. *)
Ltac wp_step :=
  match goal with
  | |- wpr _ (mret _) _ _ => apply wp_ret
  | |- wpr _ (_ ≫= _) _ _ => apply wp_bind
  | |- wpr _ (gets _) _ _ => apply wp_gets
  | |- wpr _ (modify _) _ _ => apply wp_modify
  | |- wpr _ (zoom _ _ _) _ _ => apply wp_zoom; intros ? ? ?
  | |- wpr _ (embed _ _ _) _ _ => apply wp_embed
  | |- wpr _ (ESP_ERROR_CHECK _) _ _ => apply wp_check
  | |- wpr (fun _ => True) abort _ _ => exact I
  | |- wpr _ (if _ then _ else _) _ _ => apply wp_if; intros ?
  | |- wpr _ (run (Act ?m)) _ _ => change (run (Act m)) with m
  | |- wpr _ (run (mret ?a)) _ _ => apply wp_ret
  | |- wpr _ (run (_ ≫= _)) _ _ => apply wp_run_bind
  | |- wpr _ (run (PROG_ERROR_CHECK _)) _ _ => apply wp_run_check
  | |- wpr _ (run (if ?b then _ else _)) _ _ => destruct b eqn:?
  end.
Ltac wp_steps := repeat (wp_step; cbv beta).

(** ** Transitions that respect a preorder on the state

    [keeps R m]: whenever [m] returns, the states before and after it are
    related.  A preorder is respected by a whole function as soon as each of
    its primitive steps respects it. *)

Definition keeps {S A} (R : S -> S -> Prop) (m : M S A) : Prop :=
  forall s a s', m s = Done a s' -> R s s'.

Create HintDb keeps.

Section Keeps.
Context {S : Type} (R : S -> S -> Prop) `{!PreOrder R}.

Lemma keeps_ret {A} (a : A) : keeps R (mret a).
Proof using Type*. intros s a' s' [= _ <-]. reflexivity. Qed.

Lemma keeps_bind {A B} (m : M S A) (f : A -> M S B) :
  keeps R m -> (forall a, keeps R (f a)) -> keeps R (m ≫= f).
Proof using Type*.
  intros Hm Hf s b s'. unfold mbind, M_bind. destruct (m s) as [a s1| | |] eqn:E; [|done..].
  intros Hb. transitivity s1; [by eapply Hm|by eapply Hf].
Qed.

Lemma keeps_gets {A} (f : S -> A) : keeps R (gets f).
Proof using Type*. intros s a s' [= _ <-]. reflexivity. Qed.

Lemma keeps_lift {A} (o : outcome A) : keeps R (lift o).
Proof using Type*. intros s a s'. unfold lift. destruct o; [|done]. intros [= _ <-]. reflexivity. Qed.

Lemma keeps_abort {A} : keeps R (abort : M S A).
Proof using Type. done. Qed.

Lemma keeps_modify f : (forall s, R s (f s)) -> keeps R (modify f).
Proof using Type. intros H s a s' [= _ <-]. apply H. Qed.

(** Two assignments that only together respect the preorder. *)
Lemma keeps_modify2 {A} f g (k : M S A) :
  (forall s, R s (g (f s))) -> keeps R k -> keeps R (modify f ;; modify g ;; k).
Proof using Type*.
  intros H Hk s a s'. unfold mbind, M_bind, modify. intros Hs.
  transitivity (g (f s)); [apply H|by eapply Hk].
Qed.

Lemma keeps_pair f g : (forall s, R s (g (f s))) -> keeps R (modify f ;; modify g).
Proof using Type. intros H s a s' [= _ <-]. apply H. Qed.

Lemma keeps_zoom {T A} (get : S -> T) put (f : T -> A * T) :
  (forall s, R s (put (f (get s)).2 s)) -> keeps R (zoom get put f).
Proof using Type.
  intros H s a s'. unfold zoom. specialize (H s). destruct (f (get s)). by intros [= _ <-].
Qed.

Lemma keeps_if {A} (b : bool) (m1 m2 : M S A) :
  keeps R m1 -> keeps R m2 -> keeps R (if b then m1 else m2).
Proof using Type. by destruct b. Qed.

Lemma keeps_check (m : M S Z) : keeps R m -> keeps R (ESP_ERROR_CHECK m).
Proof using Type*.
  intros H. apply keeps_bind; [done|]. intros r. apply keeps_if; [apply keeps_ret|apply keeps_abort].
Qed.
End Keeps.

(** ** Every action of a program *)

Fixpoint each {S A} (P : forall B, M S B -> Prop) (p : prog S A) : Prop :=
  match p with Act m => P _ m | Then p k => each P p /\ forall a, each P (k a) end.

Definition pkeeps {S A} (R : S -> S -> Prop) : prog S A -> Prop := each (fun B => keeps R).

Section PKeeps.
Context {S : Type} (R : S -> S -> Prop).

Lemma pkeeps_bind {A B} (p : prog S A) (k : A -> prog S B) :
  pkeeps R p -> (forall a, pkeeps R (k a)) -> pkeeps R (p ≫= k).
Proof. by split. Qed.

Lemma pkeeps_mono (R' : S -> S -> Prop) {A} (p : prog S A) :
  (forall s s', R s s' -> R' s s') -> pkeeps R p -> pkeeps R' p.
Proof.
  intros H. induction p as [A m|A B p IH k IHk]; [by intros Hm s a s' E; eapply H, Hm|].
  intros [Hp Hk]. split; [by apply IH|]. intros a. apply IHk, Hk.
Qed.

Lemma pkeeps_act {A} (m : M S A) : keeps R m -> pkeeps R (Act m).
Proof. done. Qed.

Lemma pkeeps_ret `{!PreOrder R} {A} (a : A) : pkeeps R (mret a).
Proof. apply keeps_ret, _. Qed.

Lemma pkeeps_if {A} (b : bool) (p q : prog S A) : pkeeps R p -> pkeeps R q -> pkeeps R (if b then p else q).
Proof. by destruct b. Qed.

Lemma pkeeps_check `{!PreOrder R} (p : prog S Z) : pkeeps R p -> pkeeps R (PROG_ERROR_CHECK p).
Proof. intros H. apply pkeeps_bind; [done|]. intros r. apply pkeeps_if; [by apply pkeeps_ret|by apply pkeeps_act]. Qed.

Lemma pkeeps_run `{!PreOrder R} {A} (p : prog S A) : pkeeps R p -> keeps R (run p).
Proof. induction p as [A m|A B p IH k IHk]; [done|]. intros [Hp Hk]. by apply keeps_bind; [|apply IH|intros a; apply IHk, Hk]. Qed.

Lemma pkeeps_step {A} (p : prog S A) s r s' :
  pkeeps R p -> pstep p s = Done r s' -> R s s' /\ match r with inl _ => True | inr p' => pkeeps R p' end.
Proof.
  revert r. induction p as [A m|A B p IH k _]; intros r; simpl.
  - intros Hm. destruct (m s) as [a s1| | |] eqn:E; [|done..]. intros [= <- <-]. by split; [eapply Hm|].
  - intros [Hp Hk]. destruct (pstep p s) as [[a|p'] s1| | |]; [..|done|done|done]; intros [= <- <-];
      destruct (IH _ Hp eq_refl) as [HR Hp']; split; done || apply Hk.
Qed.
End PKeeps.

(** ** Rely and guarantee

    [rg R G p Q s]: started from [s], with other tasks making transitions of
    [R] before each of its actions, [p] only makes transitions of [G] and ends
    in [Q]. *)

Fixpoint rg {S A} (R G : S -> S -> Prop) (p : prog S A) (Q : A -> S -> Prop) (s : S) : Prop :=
  match p in prog _ A return (A -> S -> Prop) -> Prop with
  | Act m => fun Q =>
      forall s1, R s s1 -> match m s1 with Done a s2 => G s1 s2 /\ Q a s2 | _ => True end
  | Then p k => fun Q => rg R G p (fun a s' => rg R G (k a) Q s') s
  end Q.

Section Rg.
Context {S : Type} (R G : S -> S -> Prop).

Lemma rg_mono {A} (p : prog S A) (Q Q' : A -> S -> Prop) s :
  (forall a s', Q a s' -> Q' a s') -> rg R G p Q s -> rg R G p Q' s.
Proof.
  revert Q Q' s. induction p as [A m|A B p IH k IHk]; intros Q Q' s HQ; simpl.
  - intros H s1 H1. specialize (H s1 H1). destruct (m s1); naive_solver.
  - apply IH. intros a s'. by apply IHk.
Qed.

Lemma rg_stable `{!Transitive R} {A} (p : prog S A) (Q : A -> S -> Prop) s s' :
  R s s' -> rg R G p Q s -> rg R G p Q s'.
Proof.
  revert Q. induction p as [A m|A B p IH k IHk]; intros Q HR; simpl; [|by apply IH].
  intros H s1 H1. apply H. by transitivity s'.
Qed.

Lemma rg_step `{!Reflexive R} {A} (p : prog S A) (Q : A -> S -> Prop) s r s' :
  rg R G p Q s -> pstep p s = Done r s' ->
  G s s' /\ match r with inl a => Q a s' | inr p' => rg R G p' Q s' end.
Proof.
  revert Q r. induction p as [A m|A B p IH k _]; intros Q r; simpl.
  - intros H. specialize (H s (reflexivity s)). destruct (m s) as [a s1| | |]; [|done..]. by intros [= <- <-].
  - intros Hp. destruct (pstep p s) as [[a|p'] s1| | |] eqn:E; [..|done|done|done]; intros [= <- <-];
      by destruct (IH _ _ Hp eq_refl).
Qed.

Lemma rg_keeps {A} (p : prog S A) s : pkeeps G p -> rg R G p (fun _ _ => True) s.
Proof.
  revert s. induction p as [A m|A B p IH k IHk]; intros s; simpl.
  - intros Hm s1 _. destruct (m s1) eqn:E; [|done..]. split; [by eapply Hm|done].
  - intros [Hp Hk]. eapply rg_mono; [|by apply IH]. intros a s' _. apply IHk, Hk.
Qed.

Lemma rg_bind {A B} (p : prog S A) (k : A -> prog S B) Q s :
  rg R G p (fun a s' => rg R G (k a) Q s') s -> rg R G (p ≫= k) Q s.
Proof. done. Qed.

Lemma rg_ret {A} (a : A) (Q : A -> S -> Prop) s :
  (forall s1, R s s1 -> G s1 s1 /\ Q a s1) -> rg R G (mret a) Q s.
Proof. done. Qed.

Lemma rg_gets {A} (f : S -> A) (Q : A -> S -> Prop) s :
  (forall s1, R s s1 -> G s1 s1 /\ Q (f s1) s1) -> rg R G (pgets f) Q s.
Proof. done. Qed.

Lemma rg_modify (f : S -> S) (Q : unit -> S -> Prop) s :
  (forall s1, R s s1 -> G s1 (f s1) /\ Q tt (f s1)) -> rg R G (pmodify f) Q s.
Proof. done. Qed.

(** A part that makes no transition the others could not make. *)
Lemma rg_frame `{!PreOrder R} {A} (p : prog S A) (Q : A -> S -> Prop) s :
  (forall s s', R s s' -> G s s') -> pkeeps R p -> (forall a s', R s s' -> Q a s') -> rg R G p Q s.
Proof.
  intros HG. revert Q s. induction p as [A m|A B p IH k IHk]; intros Q s; simpl.
  - intros Hm HQ s1 H1. destruct (m s1) as [a s2| | |] eqn:E; [|done..]. apply Hm in E.
    split; [by apply HG|]. apply HQ. by transitivity s1.
  - intros [Hp Hk] HQ. apply IH; [done|]. intros a s' H'. apply IHk; [apply Hk|]. intros b s2 H2.
    apply HQ. by transitivity s'.
Qed.
End Rg.

(** Structural rules, then the hints for the primitives of a component. *)
Ltac keeps_step :=
  match goal with
  | |- forall _, _ => intros ?
  | |- keeps _ (modify _ ;; modify _) => solve [eauto with keeps]
  | |- keeps _ (mret _) => apply keeps_ret
  | |- keeps _ (_ ≫= _) => apply keeps_bind
  | |- keeps _ (gets _) => apply keeps_gets
  | |- keeps _ (lift _) => apply keeps_lift
  | |- keeps _ abort => apply keeps_abort
  | |- keeps _ (if _ then _ else _) => apply keeps_if
  | |- keeps _ (ESP_ERROR_CHECK _) => apply keeps_check
  | |- keeps _ (let '(_, _) := ?p in _) => destruct p
  | |- PreOrder _ => apply _
  | |- pkeeps _ (Act _) => apply pkeeps_act
  | |- pkeeps _ (mret _) => apply pkeeps_ret
  | |- pkeeps _ (_ ≫= _) => apply pkeeps_bind
  | |- pkeeps _ (if _ then _ else _) => apply pkeeps_if
  | |- pkeeps _ (PROG_ERROR_CHECK _) => apply pkeeps_check
  | |- pkeeps _ (let '(_, _) := ?p in _) => destruct p
  | |- pkeeps _ _ => solve [eauto with keeps]
  | |- keeps _ _ => solve [eauto with keeps]
  end.
Ltac keeps_steps := repeat keeps_step.

(** Runs the primitives at the head of a function. *)
Ltac run_simpl := unfold mbind, M_bind, prog_bind, mret, M_ret, prog_ret, gets, modify, lift, zoom; simpl.
