(* ===== verification/ProtoFacts.v ===== *)
(** * Correctness of the serial protocol

    The abstract wire format, the refinement of the builders to it, the
    parser's invariant, and the round-trip, soundness and error-detection
    theorems. *)

From S2P Require Import Prelude Crc16 CMem Proto.
Local Open Scope c_scope.

(** ** The wire format (the frame layout in the header of proto.h) *)

Definition be16 (v : Z) : list Z := [u8 (v >>> 8); u8 (v &&& 0xFF)].

(** Magic, length and body: what the checksum covers. *)
Definition wire_msg (bd : list Z) : list Z :=
  [PROTO_MAGIC0; PROTO_MAGIC1] ++ be16 (zlen bd) ++ bd.

Definition wire (bd : list Z) : list Z :=
  wire_msg bd ++ be16 (crc16 CRC_INIT (wire_msg bd)).

(** A body the parser accepts: [SEQ], [CMD] and at most 1024 payload bytes. *)
Definition body_ok (bd : list Z) : Prop :=
  bytes_ok bd /\ 2 <= zlen bd <= 2 + PROTO_MAX_PAYLOAD.

(** The body of a frame. *)
Definition frame_body (f : proto_frame) : list Z := f_seq f :: f_cmd f :: f_payload f.

#[global] Arguments be16 : simpl never.

Lemma be16_fits v : bytes_ok (be16 v).
Proof. repeat constructor; by apply wrap_fits. Qed.

Lemma be16_join v : fits 16 v -> (u8 (v >>> 8) <<< 8) ||| u8 (v &&& 0xFF) = v.
Proof.
  intros Hv. apply Z.bits_inj'. intros i Hi.
  rewrite Z.lor_spec, Z.shiftl_spec by lia.
  rewrite (wrap_testbit 8 ltac:(lia) (v &&& 0xFF)), Z.land_spec by lia.
  change 0xFF with (Z.ones 8).
  destruct (Z.ltb_spec i 8); simpl.
  - rewrite Z.ones_spec_low, (Z.testbit_neg_r (u8 (v >>> 8))) by lia.
    by rewrite andb_true_r.
  - rewrite orb_false_r, wrap_testbit, Z.shiftr_spec by lia.
    replace (i - 8 + 8) with i by lia.
    destruct (Z.ltb_spec (i - 8) 8); [done|].
    symmetry. by apply (fits_high 16); [done|lia].
Qed.

Lemma be16_length v : length (be16 v) = 2%nat.
Proof. done. Qed.

Lemma wire_msg_length bd : length (wire_msg bd) = (4 + length bd)%nat.
Proof. done. Qed.

Lemma wire_length bd : length (wire bd) = (6 + length bd)%nat.
Proof. unfold wire. rewrite length_app, wire_msg_length, be16_length. lia. Qed.

Lemma crc_init_fits : fits 16 CRC_INIT.
Proof. done. Qed.
#[export] Hint Resolve crc_init_fits be16_fits : cint.

(** ** The builders refine the wire format *)

Lemma put_crc_ok n buf :
  zlen buf + 2 <= n -> put_crc n buf = Ret (buf ++ be16 (crc16 CRC_INIT buf)).
Proof.
  intros H. unfold put_crc. rewrite buf_put_ok by lia. rewrite bind_Ret.
  rewrite buf_put_ok by (rewrite length_app; simpl; lia). by rewrite <-app_assoc.
Qed.

Lemma put_data_ok n buf d :
  zlen buf + zlen d <= n -> put_data n buf (Some d) (zlen d) = Ret (buf ++ d).
Proof.
  intros H. unfold put_data. destruct (Z.ltb_spec 0 (zlen d)).
  - rewrite mem_read_all, bind_Ret. by apply buf_puts_ok.
  - destruct d; [by rewrite app_nil_r|simpl in *; lia].
Qed.

Ltac put_bytes :=
  repeat (rewrite buf_put_ok by (simpl; lia); rewrite bind_Ret; simpl app).

Lemma build_response_wire seq cmd st d n :
  9 + zlen d <= n -> zlen d <= 65532 ->
  proto_build_response seq cmd st (Some d) (zlen d) n
  = Ret (wire (seq :: u8 (cmd ||| PROTO_RESP_FLAG) :: status_byte st :: d)).
Proof.
  intros Hn Hd. unfold proto_build_response.
  rewrite wrap_id by (unfold fits; lia).
  rewrite (proj2 (Z.ltb_ge _ _)) by lia. put_bytes.
  rewrite put_data_ok by (simpl; lia). rewrite bind_Ret.
  rewrite put_crc_ok by (simpl; lia). unfold wire, wire_msg, be16.
  replace (zlen (seq :: u8 (cmd ||| PROTO_RESP_FLAG) :: status_byte st :: d))
    with (3 + zlen d) by (simpl; lia). done.
Qed.

Lemma build_response_wire_null seq cmd st n :
  9 <= n ->
  proto_build_response seq cmd st None 0 n
  = Ret (wire [seq; u8 (cmd ||| PROTO_RESP_FLAG); status_byte st]).
Proof.
  intros Hn. rewrite <-(build_response_wire seq cmd st [] n) by (simpl; lia).
  reflexivity.
Qed.

Lemma build_push_wire cmd d n :
  8 + zlen d <= n -> zlen d <= 65533 ->
  proto_build_push cmd (Some d) (zlen d) n = Ret (wire (0 :: cmd :: d)).
Proof.
  intros Hn Hd. unfold proto_build_push.
  rewrite wrap_id by (unfold fits; lia).
  rewrite (proj2 (Z.ltb_ge _ _)) by lia. put_bytes.
  rewrite put_data_ok by (simpl; lia). rewrite bind_Ret.
  rewrite put_crc_ok by (simpl; lia). unfold wire, wire_msg, be16.
  replace (zlen (0 :: cmd :: d)) with (2 + zlen d) by (simpl; lia). done.
Qed.

Lemma build_push_wire_null cmd n :
  8 <= n -> proto_build_push cmd None 0 n = Ret (wire [0; cmd]).
Proof.
  intros Hn. rewrite <-(build_push_wire cmd [] n) by (simpl; lia). reflexivity.
Qed.

(** ** The parser's invariant

    [repr p pd] : [pd] are the input bytes of the frame the parser is in. *)

Definition repr (p : parser) (pd : list Z) : Prop :=
  length (body p) = Z.to_nat (2 + PROTO_MAX_PAYLOAD) /\ bytes_ok pd /\
  let hdr := [PROTO_MAGIC0; PROTO_MAGIC1] in
  let recv := Z.to_nat (body_recv p) in
  match state p with
  | ST_MAGIC0 => pd = []
  | ST_MAGIC1 => pd = [PROTO_MAGIC0] /\ crc_calc p = crc16 CRC_INIT pd
  | ST_LEN_H => pd = hdr /\ crc_calc p = crc16 CRC_INIT pd
  | ST_LEN_L =>
      exists h, pd = hdr ++ [h] /\ body_len p = h <<< 8 /\ crc_calc p = crc16 CRC_INIT pd
  | ST_BODY =>
      pd = hdr ++ be16 (body_len p) ++ take recv (body p) /\
      2 <= body_len p <= 2 + PROTO_MAX_PAYLOAD /\ 0 <= body_recv p < body_len p /\
      crc_calc p = crc16 CRC_INIT pd
  | ST_CRC_H =>
      pd = hdr ++ be16 (body_len p) ++ take recv (body p) /\
      2 <= body_len p <= 2 + PROTO_MAX_PAYLOAD /\ body_recv p = body_len p /\
      crc_calc p = crc16 CRC_INIT pd
  | ST_CRC_L =>
      exists msg, pd = msg ++ [crc_hi p] /\
      msg = hdr ++ be16 (body_len p) ++ take recv (body p) /\
      2 <= body_len p <= 2 + PROTO_MAX_PAYLOAD /\ body_recv p = body_len p /\
      crc_calc p = crc16 CRC_INIT msg
  end.

(** ** One parser step *)

Lemma parser_reset_repr p : length (body p) = Z.to_nat (2 + PROTO_MAX_PAYLOAD) ->
  repr (parser_reset p) [].
Proof. intros Hl. split; [done|]. split; [constructor|done]. Qed.

Lemma be16_of_bytes h l :
  fits 8 h -> fits 8 l -> be16 ((h <<< 8) ||| l) = [h; l].
Proof.
  intros Hh Hl. unfold be16. f_equal; [|f_equal].
  - rewrite <-(wrap_id 8 h Hh) at 2. apply Z.bits_inj'. intros i Hi.
    rewrite !wrap_testbit, Z.shiftr_spec, Z.lor_spec, Z.shiftl_spec by lia.
    replace (i + 8 - 8) with i by lia.
    rewrite (fits_high 8 l (i + 8)) by (done || lia). by rewrite orb_false_r.
  - rewrite <-(wrap_id 8 l Hl) at 2. apply Z.bits_inj'. intros i Hi.
    rewrite !wrap_testbit, Z.land_spec, Z.lor_spec, Z.shiftl_spec by lia.
    destruct (Z.ltb_spec i 8); simpl; [|done].
    change 0xFF with (Z.ones 8).
    rewrite Z.ones_spec_low, Z.testbit_neg_r by lia. by rewrite andb_true_r.
Qed.

Lemma shiftl8_fits b : fits 8 b -> fits 16 (b <<< 8).
Proof. intros H. unfold fits in *. rewrite Z.shiftl_mul_pow2 by lia. lia. Qed.

Lemma be_join_fits h l : fits 8 h -> fits 8 l -> fits 16 ((h <<< 8) ||| l).
Proof.
  intros Hh Hl. apply lor_fits; [lia|by apply shiftl8_fits|by apply (fits_weaken 8)].
Qed.

Lemma bytes_ok_snoc pd b : bytes_ok pd -> fits 8 b -> bytes_ok (pd ++ [b]).
Proof. intros. apply Forall_app. auto. Qed.
#[export] Hint Resolve bytes_ok_snoc parser_reset_repr : cint.

Lemma crc16_snoc c l b : crc16 c (l ++ [b]) = crc16_update (crc16 c l) b.
Proof. by rewrite crc16_app. Qed.

(** The body is complete: it is the whole input between header and checksum. *)
Lemma body_frame_body p :
  length (body p) = Z.to_nat (2 + PROTO_MAX_PAYLOAD) ->
  2 <= body_len p <= 2 + PROTO_MAX_PAYLOAD ->
  frame_body (body_frame p) = take (Z.to_nat (body_len p)) (body p).
Proof.
  intros Hl Hn. unfold body_frame, frame_body, PROTO_MAX_PAYLOAD in *; simpl.
  rewrite wrap_id by (unfold fits; lia).
  destruct (body p) as [|x [|y r]]; [simpl in Hl; lia..|]. simpl nth. simpl drop.
  replace (Z.to_nat (body_len p)) with (S (S (Z.to_nat (body_len p - 2)))) by lia.
  done.
Qed.

Lemma feed_magic0 p b :
  fits 8 b -> state p = ST_MAGIC0 -> length (body p) = Z.to_nat (2 + PROTO_MAX_PAYLOAD) ->
  exists p', feed_byte p b = (p', None) /\
    repr p' (if b =? PROTO_MAGIC0 then [b] else []).
Proof.
  intros Hb Hs Hl. unfold feed_byte. rewrite Hs. destruct (Z.eqb_spec b PROTO_MAGIC0).
  - eexists; split; [done|]. subst b. split; [done|]. split; [by repeat constructor|done].
  - eexists; split; [done|]. split; [done|]. split; [constructor|]. by rewrite Hs.
Qed.

Lemma feed_magic1 p pd b :
  fits 8 b -> repr p pd -> state p = ST_MAGIC1 ->
  exists p', feed_byte p b = (p', None) /\
    repr p' (if b =? PROTO_MAGIC1 then pd ++ [b]
             else if b =? PROTO_MAGIC0 then [b] else []).
Proof.
  intros Hb (Hl & Hok & Hp) Hs. rewrite Hs in Hp. destruct Hp as [-> Hc].
  unfold feed_byte. rewrite Hs. destruct (Z.eqb_spec b PROTO_MAGIC1).
  - eexists; split; [done|]. subst b. split; [done|]. split; [auto with cint|].
    split; [done|]. rewrite crc16_snoc. simpl. by rewrite Hc.
  - destruct (Z.eqb_spec b PROTO_MAGIC0).
    + eexists; split; [done|]. subst b. split; [done|]. split; [by repeat constructor|done].
    + eexists; split; [done|]. auto with cint.
Qed.

Lemma feed_len_h p pd b :
  fits 8 b -> repr p pd -> state p = ST_LEN_H ->
  exists p', feed_byte p b = (p', None) /\ repr p' (pd ++ [b]) /\ state p' = ST_LEN_L.
Proof.
  intros Hb (Hl & Hok & Hp) Hs. rewrite Hs in Hp. destruct Hp as [-> Hc].
  unfold feed_byte. rewrite Hs. eexists; split; [done|]. split; [|done].
  split; [done|]. split; [auto with cint|]. exists b. split; [done|].
  split; [simpl; by rewrite wrap_id by (by apply shiftl8_fits)|].
  rewrite crc16_snoc. simpl. by rewrite Hc.
Qed.

Lemma feed_len_l p pd b :
  fits 8 b -> repr p pd -> state p = ST_LEN_L ->
  exists p' h, feed_byte p b = (p', None) /\
    pd = [PROTO_MAGIC0; PROTO_MAGIC1; h] /\ fits 8 h /\
    let n := (h <<< 8) ||| b in
    if decide (2 <= n <= 2 + PROTO_MAX_PAYLOAD)
    then state p' = ST_BODY /\ body_recv p' = 0 /\ repr p' (pd ++ [b])
    else repr p' [].
Proof.
  intros Hb (Hl & Hok & Hp) Hs. rewrite Hs in Hp. destruct Hp as (h & -> & Hn & Hc).
  assert (fits 8 h) as Hh by (by apply Forall_app in Hok as [_ Hok]; inversion Hok).
  unfold feed_byte. rewrite Hs. simpl body_len. rewrite Hn, wrap_id by (by apply be_join_fits).
  set (n := (h <<< 8) ||| b).
  destruct (decide (2 <= n <= 2 + PROTO_MAX_PAYLOAD)) as [Hr|Hr].
  - rewrite (proj2 (Z.ltb_ge n 2)), (proj2 (Z.ltb_ge (2 + PROTO_MAX_PAYLOAD) n)) by lia.
    eexists _, h; split; [done|]. split; [done|]. split; [done|].
    cbn zeta. rewrite decide_True by done. split; [done|]. split; [done|].
    split; [done|]. split; [auto with cint|]. cbn zeta. split.
    + pose proof (be16_of_bytes h b Hh Hb : be16 n = [h; b]) as Hbe.
      unfold be16 in Hbe. simpl. by rewrite take_0, Hbe.
    + split; [done|]. split; [simpl; lia|]. rewrite crc16_snoc. simpl. by rewrite Hc.
  - replace ((n <? 2) || (2 + PROTO_MAX_PAYLOAD <? n)) with true by lia.
    eexists _, h; split; [done|]. split; [done|]. split; [done|].
    cbn zeta. rewrite decide_False by done. auto with cint.
Qed.

Lemma feed_body p pd b :
  fits 8 b -> repr p pd -> state p = ST_BODY ->
  exists p', feed_byte p b = (p', None) /\ repr p' (pd ++ [b]) /\
    body_len p' = body_len p /\ body_recv p' = body_recv p + 1 /\
    state p' = (if body_len p <=? body_recv p + 1 then ST_CRC_H else ST_BODY).
Proof.
  intros Hb (Hl & Hok & Hp) Hs. rewrite Hs in Hp. destruct Hp as (Hpd & Hn & Hr & Hc).
  unfold feed_byte, PROTO_MAX_PAYLOAD in *. rewrite Hs. simpl body_recv. simpl body_len.
  rewrite wrap_id by (unfold fits; lia).
  assert (pd ++ [b] = [PROTO_MAGIC0; PROTO_MAGIC1] ++ be16 (body_len p) ++
            take (Z.to_nat (body_recv p + 1)) (<[Z.to_nat (body_recv p) := b]> (body p)))
    as Hpd'.
  { rewrite Hpd. replace (Z.to_nat (body_recv p + 1)) with (S (Z.to_nat (body_recv p))) by lia.
    rewrite take_insert_snoc by lia. by rewrite <-!app_assoc. }
  assert (crc16_update (crc_calc p) b = crc16 CRC_INIT (pd ++ [b])) as Hc'
    by (by rewrite crc16_snoc, Hc).
  destruct (Z.leb_spec (body_len p) (body_recv p + 1)); eexists; (split; [done|]).
  - split; [|done]. split; [simpl; by rewrite length_insert|].
    split; [auto with cint|]. simpl. repeat (split; [done || lia|]). done.
  - simpl. rewrite Hs. split; [|done]. split; [simpl; by rewrite length_insert|].
    split; [auto with cint|]. simpl. rewrite Hs. repeat (split; [done || lia|]). done.
Qed.

Lemma feed_crc_h p pd b :
  fits 8 b -> repr p pd -> state p = ST_CRC_H ->
  exists p', feed_byte p b = (p', None) /\ repr p' (pd ++ [b]) /\
    state p' = ST_CRC_L /\ body_len p' = body_len p /\ body p' = body p.
Proof.
  intros Hb (Hl & Hok & Hp) Hs. rewrite Hs in Hp. destruct Hp as (Hpd & Hn & Hr & Hc).
  unfold feed_byte. rewrite Hs. eexists; split; [done|].
  split; [|done]. split; [done|]. split; [auto with cint|]. exists pd. simpl.
  by repeat (split; [done|]).
Qed.

(** The last byte: the frame is delivered exactly when the input since the
    magic is a wire frame. *)
Lemma feed_crc_l p pd b :
  fits 8 b -> repr p pd -> state p = ST_CRC_L ->
  let bd := take (Z.to_nat (body_len p)) (body p) in
  body_ok bd /\ pd = wire_msg bd ++ [crc_hi p] /\
  exists p', repr p' [] /\
    ((pd ++ [b] = wire bd /\ feed_byte p b = (p', Some (body_frame p)) /\
      frame_body (body_frame p) = bd)
     \/ (pd ++ [b] <> wire bd /\ feed_byte p b = (p', None))).
Proof.
  intros Hb (Hl & Hok & Hp) Hs. rewrite Hs in Hp.
  destruct Hp as (msg & -> & Hmsg & Hn & Hr & Hc). rewrite Hr in Hmsg.
  set (bd := take (Z.to_nat (body_len p)) (body p)) in *. cbn zeta.
  assert (zlen bd = body_len p) as Hbd.
  { unfold bd, PROTO_MAX_PAYLOAD in *. rewrite length_take. lia. }
  assert (msg = wire_msg bd) as Hw by (unfold wire_msg; by rewrite Hbd).
  assert (fits 8 (crc_hi p)) as Hhi by (by apply Forall_app in Hok as [_ Hok]; inversion Hok).
  split.
  { split; [|lia]. apply Forall_app in Hok as [Hok _]. rewrite Hmsg in Hok.
    rewrite !Forall_app in Hok. apply Hok. }
  split; [by rewrite Hw|].
  exists (parser_reset p). split; [auto with cint|].
  unfold feed_byte. rewrite Hs, wrap_id by (by apply be_join_fits). rewrite Hc, Hw.
  destruct (Z.eqb_spec ((crc_hi p <<< 8) ||| b) (crc16 CRC_INIT (wire_msg bd))) as [E|E].
  - left. split; [|split; [done|by apply body_frame_body]].
    unfold wire. rewrite <-E, be16_of_bytes by done. by rewrite <-app_assoc.
  - right. split; [|done]. unfold wire. rewrite <-app_assoc. intros [= Hhi' Hlo]%app_inv_head.
    destruct E. subst b. rewrite Hhi'. apply be16_join. auto with cint.
Qed.

(** ** Running the parser *)

(** The frames delivered for [data], in order, and the parser afterwards. *)
Definition run (p : parser) (data : list Z) : parser * list proto_frame :=
  proto_parser_feed (fun f fs => fs ++ [f]) p data [].

(** The frame whose body is [bd]. *)
Definition body_to_frame (bd : list Z) : proto_frame :=
  mk_frame (nth 0 bd 0) (nth 1 bd 0) (drop 2 bd).

Lemma body_to_frame_body f : body_to_frame (frame_body f) = f.
Proof. by destruct f. Qed.

Lemma frame_body_to_frame bd : 2 <= zlen bd -> frame_body (body_to_frame bd) = bd.
Proof. intros H. by destruct bd as [|x [|y l]]; [simpl in H; lia..|]. Qed.

Lemma feed_cons {S} (cb : proto_frame -> S -> S) p b data s :
  proto_parser_feed cb p (b :: data) s
  = proto_parser_feed cb (fst (feed_byte p b)) data
      (match snd (feed_byte p b) with Some f => cb f s | None => s end).
Proof. unfold proto_parser_feed. simpl. by destruct (feed_byte p b). Qed.

Lemma feed_app {S} (cb : proto_frame -> S -> S) p a b s :
  proto_parser_feed cb p (a ++ b) s
  = let '(p', s') := proto_parser_feed cb p a s in proto_parser_feed cb p' b s'.
Proof.
  unfold proto_parser_feed. rewrite foldl_app. by destruct (foldl _ _ a).
Qed.

(** The effect of a callback is a fold over the delivered frames. *)
Lemma feed_run {S} (cb : proto_frame -> S -> S) p data s :
  proto_parser_feed cb p data s
  = (fst (run p data), foldl (fun s f => cb f s) s (snd (run p data))).
Proof.
  assert (forall fs, proto_parser_feed cb p data (foldl (fun s f => cb f s) s fs)
    = let '(p', fs') := proto_parser_feed (fun f fs => fs ++ [f]) p data fs in
      (p', foldl (fun s f => cb f s) s fs')) as H.
  - revert p. induction data as [|b data IH]; intros p fs; [done|].
    rewrite !feed_cons. destruct (feed_byte p b) as [p' [f|]]; simpl; [|apply IH].
    rewrite <-IH. f_equal. by rewrite foldl_app.
  - specialize (H []). simpl in H. rewrite H. unfold run.
    by destruct (proto_parser_feed _ p data []).
Qed.

Lemma run_nil p : run p [] = (p, []).
Proof. reflexivity. Qed.

Lemma run_app p a b :
  run p (a ++ b)
  = (fst (run (fst (run p a)) b), snd (run p a) ++ snd (run (fst (run p a)) b)).
Proof.
  unfold run. rewrite feed_app. destruct (proto_parser_feed _ p a []) as [p' fs] eqn:E.
  simpl. rewrite feed_run. f_equal. fold (run p' b).
  clear E. generalize (snd (run p' b)) as gs. intros gs. revert fs. induction gs as [|g gs IH]; intros fs; simpl.
  - by rewrite app_nil_r.
  - by rewrite IH, <-app_assoc.
Qed.

Lemma run_cons p b data :
  run p (b :: data)
  = (fst (run (fst (feed_byte p b)) data),
     option_list (snd (feed_byte p b)) ++ snd (run (fst (feed_byte p b)) data)).
Proof.
  change (b :: data) with ([b] ++ data). rewrite run_app.
  assert (run p [b] = (fst (feed_byte p b), option_list (snd (feed_byte p b)))) as ->; [|done].
  unfold run, proto_parser_feed; simpl. by destruct (feed_byte p b) as [p' [f|]].
Qed.

Lemma run_cons_none p p' b data :
  feed_byte p b = (p', None) -> run p (b :: data) = run p' data.
Proof. intros H. rewrite run_cons, H. simpl. by destruct (run p' data). Qed.

Ltac feed_none H :=
  match type of H with
  | feed_byte _ _ = (_, None) => rewrite (run_cons_none _ _ _ _ H)
  end.

(** The body bytes. *)
Lemma run_body p pd x y :
  bytes_ok x -> repr p pd -> state p = ST_BODY -> body_recv p + zlen x = body_len p ->
  exists p', run p (x ++ y) = run p' y /\ repr p' (pd ++ x) /\
    body_len p' = body_len p /\ state p' = ST_CRC_H.
Proof.
  intros Hx. revert p pd. induction Hx as [|b x Hb Hx IH]; intros p pd Hp Hs Hl.
  - destruct Hp as (_ & _ & Hp). rewrite Hs in Hp.
    destruct Hp as (_ & _ & ? & _). cbn [length] in Hl. lia.
  - destruct (feed_body p pd b Hb Hp Hs) as (p1 & Hf & Hp1 & Hn & Hr & Hs1).
    simpl app. feed_none Hf. destruct x as [|c x]; cbn [length] in Hl, IH.
    + exists p1. rewrite Hs1. by rewrite (proj2 (Z.leb_le _ _)) by lia.
    + rewrite (proj2 (Z.leb_gt _ _)) in Hs1 by lia.
      destruct (IH p1 (pd ++ [b]) Hp1 Hs1) as (p' & Hrun & Hp' & Hn' & Hs'); [lia|].
      exists p'. rewrite <-app_assoc in Hp'. rewrite Hn' , <-Hn. auto.
Qed.

(** The number of pending bytes determines the header states. *)
Lemma repr_state p pd :
  repr p pd ->
  match length pd with
  | 0%nat => state p = ST_MAGIC0
  | 1%nat => state p = ST_MAGIC1
  | 2%nat => state p = ST_LEN_H
  | 3%nat => state p = ST_LEN_L
  | _ => True
  end.
Proof.
  intros (_ & _ & Hp). cbn zeta in Hp. destruct (state p).
  - by subst.
  - by destruct Hp as [-> _].
  - by destruct Hp as [-> _].
  - by destruct Hp as (h & -> & _).
  - by destruct Hp as (-> & _).
  - by destruct Hp as (-> & _).
  - by destruct Hp as (msg & -> & -> & _).
Qed.

Lemma be16_inj m n : fits 16 m -> fits 16 n -> be16 m = be16 n -> m = n.
Proof.
  intros Hm Hn [= H1 H2]. rewrite <-(be16_join m Hm), <-(be16_join n Hn). congruence.
Qed.

Lemma wire_msg_inj a b : wire_msg a = wire_msg b -> a = b.
Proof. intros H. apply (f_equal (drop 4)) in H. done. Qed.

Lemma wire_inj a b : wire a = wire b -> a = b.
Proof.
  intros H. apply wire_msg_inj. unfold wire in H.
  by apply app_inj_2 in H as [H _].
Qed.

(** Header to body: after the magic, a length [n] and [n] body bytes. *)
Lemma run_header p n bd y :
  repr p [PROTO_MAGIC0] -> bytes_ok bd -> 2 <= n <= 2 + PROTO_MAX_PAYLOAD ->
  zlen bd = n ->
  exists p', run p (PROTO_MAGIC1 :: be16 n ++ bd ++ y) = run p' y /\
    repr p' (wire_msg bd) /\ state p' = ST_CRC_H.
Proof.
  intros Hp Hbd Hn Hl. unfold PROTO_MAX_PAYLOAD in Hn.
  assert (fits 16 n) as Hn16 by (unfold fits; lia).
  destruct (feed_magic1 p _ PROTO_MAGIC1 ltac:(done) Hp (repr_state _ _ Hp)) as (p1 & Hf1 & Hp1).
  simpl in Hp1. change (be16 n ++ bd ++ y) with (u8 (n >>> 8) :: u8 (n &&& 255) :: bd ++ y).
  feed_none Hf1.
  destruct (feed_len_h p1 _ (u8 (n >>> 8)) (wrap_fits 8 ltac:(lia) _) Hp1 (repr_state _ _ Hp1))
    as (p2 & Hf2 & Hp2 & Hs2). feed_none Hf2.
  destruct (feed_len_l p2 _ (u8 (n &&& 255)) (wrap_fits 8 ltac:(lia) _) Hp2 Hs2)
    as (p3 & h & Hf3 & Hh & _ & Hp3). feed_none Hf3.
  simpl in Hh. injection Hh as <-. cbn zeta in Hp3. rewrite be16_join in Hp3 by done.
  rewrite decide_True in Hp3 by (unfold PROTO_MAX_PAYLOAD; lia).
  destruct Hp3 as (Hs3 & Hr3 & Hp3).
  assert (body_len p3 = n) as Hn3.
  { pose proof Hp3 as (_ & _ & Hq). rewrite Hs3 in Hq.
    destruct Hq as (Hq & ? & _). rewrite Hr3, take_0, app_nil_r in Hq.
    unfold PROTO_MAX_PAYLOAD in *.
    apply be16_inj; [unfold fits; lia|done|]. injection Hq as H1 H2. unfold be16. congruence. }
  destruct (run_body p3 _ bd y Hbd Hp3 Hs3) as (p4 & Hrun & Hp4 & _ & Hs4); [lia|].
  exists p4. split; [done|]. split; [|done].
  unfold wire_msg. by rewrite Hl.
Qed.

(** The parser on a length-delimited packet, complete: it delivers the body's
    frame exactly when the packet is that body's wire encoding. *)
Lemma run_packet p n bd c1 c2 y :
  repr p [PROTO_MAGIC0] -> bytes_ok bd -> fits 8 c1 -> fits 8 c2 ->
  2 <= n <= 2 + PROTO_MAX_PAYLOAD -> zlen bd = n ->
  exists p', repr p' [] /\
    run p (PROTO_MAGIC1 :: be16 n ++ bd ++ [c1; c2] ++ y)
    = (fst (run p' y),
       (if decide ([c1; c2] = be16 (crc16 CRC_INIT (wire_msg bd)))
        then [body_to_frame bd] else []) ++ snd (run p' y)).
Proof.
  intros Hp Hbd Hc1 Hc2 Hn Hl.
  destruct (run_header p n bd ([c1; c2] ++ y) Hp Hbd Hn Hl) as (p1 & -> & Hp1 & Hs1).
  destruct (feed_crc_h p1 _ c1 Hc1 Hp1 Hs1) as (p2 & Hf2 & Hp2 & Hs2 & _ & _).
  simpl app. feed_none Hf2.
  destruct (feed_crc_l p2 _ c2 Hc2 Hp2 Hs2) as ([_ Hok] & Hpd & p3 & Hp3 & Hcase).
  set (bd' := take (Z.to_nat (body_len p2)) (body p2)) in *.
  apply app_inj_2 in Hpd as [->%wire_msg_inj _]; [|done].
  assert ((wire_msg bd' ++ [c1]) ++ [c2] = wire bd' <->
          [c1; c2] = be16 (crc16 CRC_INIT (wire_msg bd'))) as Hiff.
  { unfold wire. rewrite <-app_assoc. split; [by intros ?%app_inv_head|].
    by intros <-. }
  exists p3. split; [done|]. rewrite run_cons.
  destruct Hcase as [(Hw & Hf & Hfr)|(Hw & Hf)]; rewrite Hf; simpl.
  - rewrite decide_True by (by apply Hiff).
    by rewrite <-Hfr, body_to_frame_body.
  - rewrite decide_False by (by rewrite <-Hiff). by destruct (run p3 y).
Qed.

(** ** Hunting for the magic *)

(** [l] contains no magic pair. *)
Fixpoint no_magic (l : list Z) : bool :=
  match l with
  | a :: ((b :: _) as l') =>
      negb ((a =? PROTO_MAGIC0) && (b =? PROTO_MAGIC1)) && no_magic l'
  | _ => true
  end.

(** The parser is between frames, having possibly seen a first magic byte. *)
Definition hunting (p : parser) : Prop := repr p [] \/ repr p [PROTO_MAGIC0].

Lemma hunting_magic0 p :
  hunting p -> exists p', feed_byte p PROTO_MAGIC0 = (p', None) /\ repr p' [PROTO_MAGIC0].
Proof.
  intros [Hp|Hp].
  - apply (feed_magic0 p PROTO_MAGIC0); [done|exact (repr_state _ _ Hp)|apply Hp].
  - apply (feed_magic1 p [PROTO_MAGIC0] PROTO_MAGIC0); [done|done|exact (repr_state _ _ Hp)].
Qed.

Lemma run_hunt p pd g y :
  repr p pd -> pd = [] \/ pd = [PROTO_MAGIC0] -> bytes_ok g -> no_magic (pd ++ g) = true ->
  exists p', hunting p' /\ run p (g ++ y) = run p' y.
Proof.
  intros Hp Hpd Hg. revert p pd Hp Hpd. induction Hg as [|b g Hb Hg IH]; intros p pd Hp Hpd Hm.
  - exists p. split; [|done]. destruct Hpd as [->| ->]; [by left|by right].
  - destruct Hpd as [->| ->].
    + destruct (feed_magic0 p b Hb (repr_state _ _ Hp) (proj1 Hp)) as (p1 & Hf & Hp1).
      simpl app. feed_none Hf. destruct (Z.eqb_spec b PROTO_MAGIC0) as [->|Hn].
      * apply (IH p1 _ Hp1); [by right|done].
      * apply (IH p1 _ Hp1); [by left|]. destruct g; [done|].
        simpl in Hm. by apply andb_prop in Hm as [_ Hm].
    + destruct (feed_magic1 p _ b Hb Hp (repr_state _ _ Hp)) as (p1 & Hf & Hp1).
      simpl app. feed_none Hf. simpl in Hm.
      destruct (Z.eqb_spec b PROTO_MAGIC1) as [->|Hn]; [done|].
      destruct (Z.eqb_spec b PROTO_MAGIC0) as [->|Hn0].
      * apply (IH p1 _ Hp1); [by right|done].
      * apply (IH p1 _ Hp1); [by left|]. destruct g; [done|].
        by apply andb_prop in Hm as [_ Hm].
Qed.

(** A wire frame met while hunting is delivered and ends between frames. *)
Lemma run_wire p bd y :
  hunting p -> body_ok bd ->
  exists p', repr p' [] /\
    run p (wire bd ++ y) = (fst (run p' y), body_to_frame bd :: snd (run p' y)).
Proof.
  intros Hp [Hbd Hl]. destruct (hunting_magic0 p Hp) as (p1 & Hf1 & Hp1).
  set (crc := crc16 CRC_INIT (wire_msg bd)).
  destruct (run_packet p1 (zlen bd) bd (u8 (crc >>> 8)) (u8 (crc &&& 255)) y Hp1 Hbd)
    as (p2 & Hp2 & Hrun); [by apply wrap_fits..|lia|done|].
  exists p2. split; [done|]. rewrite decide_True in Hrun by done. simpl in Hrun.
  rewrite <-Hrun, <-(run_cons_none p p1 PROTO_MAGIC0 _ Hf1). f_equal.
  unfold wire, wire_msg. by rewrite <-!app_assoc.
Qed.

Lemma create_repr : repr proto_parser_create [].
Proof.
  split; [|split; [constructor|done]].
  unfold proto_parser_create. cbn [body]. by rewrite length_replicate.
Qed.
#[export] Hint Resolve create_repr : cint.

(** A byte stream: garbage, a frame, garbage, a frame, ... and a tail. *)
Definition stream (segs : list (list Z * list Z)) (tail : list Z) : list Z :=
  concat (map (fun '(g, bd) => g ++ wire bd) segs) ++ tail.

Definition seg_ok '((g, bd) : list Z * list Z) : Prop :=
  bytes_ok g /\ no_magic g = true /\ body_ok bd.

#[export] Instance body_ok_dec bd : Decision (body_ok bd).
Proof. unfold body_ok. apply _. Defined.

#[export] Instance seg_ok_dec sg : Decision (seg_ok sg).
Proof. destruct sg. unfold seg_ok. apply _. Defined.

Lemma run_stream p segs tail :
  repr p [] -> Forall seg_ok segs -> bytes_ok tail -> no_magic tail = true ->
  snd (run p (stream segs tail)) = map (fun s => body_to_frame (snd s)) segs.
Proof.
  intros Hp Hs Ht Hm. revert p Hp. induction Hs as [|[g bd] segs (Hg & Hgm & Hbd) Hs IH];
    intros p Hp; unfold stream; simpl.
  - destruct (run_hunt p [] tail [] Hp ltac:(by left) Ht Hm) as (p' & _ & Hrun).
    rewrite app_nil_r in Hrun. by rewrite Hrun.
  - rewrite <-!app_assoc.
    destruct (run_hunt p [] g (wire bd ++ stream segs tail) Hp ltac:(by left) Hg Hgm)
      as (p1 & Hp1 & Hrun1). unfold stream in Hrun1. rewrite Hrun1.
    destruct (run_wire p1 bd (stream segs tail) Hp1 Hbd) as (p2 & Hp2 & Hrun2).
    unfold stream in Hrun2. rewrite Hrun2. simpl. f_equal. by apply IH.
Qed.

(** ** Soundness of delivery *)

(** The frames [fs] lie disjoint and in order, as wire frames, in [l]. *)
Inductive framed : list Z -> list proto_frame -> Prop :=
  | framed_nil l : framed l []
  | framed_cons g f l fs :
      body_ok (frame_body f) -> framed l fs ->
      framed (g ++ wire (frame_body f) ++ l) (f :: fs).

Lemma framed_prefix g l fs : framed l fs -> framed (g ++ l) fs.
Proof.
  destruct 1; [constructor|]. rewrite app_assoc. by constructor.
Qed.

Lemma feed_byte_sound p pd b :
  fits 8 b -> repr p pd ->
  match feed_byte p b with
  | (p', None) => exists g pd', pd ++ [b] = g ++ pd' /\ repr p' pd'
  | (p', Some f) => pd ++ [b] = wire (frame_body f) /\ body_ok (frame_body f) /\ repr p' []
  end.
Proof.
  intros Hb Hp. destruct (state p) eqn:Hs.
  - destruct (feed_magic0 p b Hb Hs (proj1 Hp)) as (p' & -> & Hp').
    assert (pd = []) as -> by (destruct Hp as (_ & _ & Hp); by rewrite Hs in Hp).
    destruct (b =? PROTO_MAGIC0); [by exists [], [b]|by exists [b], []].
  - destruct (feed_magic1 p pd b Hb Hp Hs) as (p' & -> & Hp').
    destruct (b =? PROTO_MAGIC1); [by exists [], (pd ++ [b])|].
    destruct (b =? PROTO_MAGIC0); [by exists pd, [b]|].
    exists (pd ++ [b]), []. by rewrite app_nil_r.
  - destruct (feed_len_h p pd b Hb Hp Hs) as (p' & -> & Hp' & _). by exists [], (pd ++ [b]).
  - destruct (feed_len_l p pd b Hb Hp Hs) as (p' & h & -> & _ & _ & Hp'). cbn zeta in Hp'.
    case_decide; [by destruct Hp' as (_ & _ & Hp'); exists [], (pd ++ [b])|].
    exists (pd ++ [b]), []. by rewrite app_nil_r.
  - destruct (feed_body p pd b Hb Hp Hs) as (p' & -> & Hp' & _). by exists [], (pd ++ [b]).
  - destruct (feed_crc_h p pd b Hb Hp Hs) as (p' & -> & Hp' & _). by exists [], (pd ++ [b]).
  - destruct (feed_crc_l p pd b Hb Hp Hs) as (Hok & _ & p' & Hp' & [(Hw & Hf & Hfr)|[_ Hf]]).
    + rewrite Hf, Hfr. split; [done|]. by split.
    + rewrite Hf. exists (pd ++ [b]), []. by rewrite app_nil_r.
Qed.

Lemma run_sound p pd data :
  repr p pd -> bytes_ok data -> framed (pd ++ data) (snd (run p data)).
Proof.
  intros Hp Hd. revert p pd Hp. induction Hd as [|b data Hb Hd IH]; intros p pd Hp.
  - rewrite run_nil. constructor.
  - pose proof (feed_byte_sound p pd b Hb Hp) as Hstep.
    rewrite run_cons. replace (pd ++ b :: data) with ((pd ++ [b]) ++ data)
      by (by rewrite <-app_assoc).
    destruct (feed_byte p b) as [p' [f|]]; simpl.
    + destruct Hstep as (-> & Hok & Hp'). apply (framed_cons [] f); [done|].
      by apply (IH p' []).
    + destruct Hstep as (g & pd' & -> & Hp'). rewrite <-app_assoc.
      apply framed_prefix. by apply IH.
Qed.

Lemma run_repr p pd data :
  repr p pd -> bytes_ok data -> exists pd', repr (fst (run p data)) pd'.
Proof.
  intros Hp Hd. revert p pd Hp. induction Hd as [|b data Hb Hd IH]; intros p pd Hp.
  - by exists pd.
  - pose proof (feed_byte_sound p pd b Hb Hp) as Hstep. rewrite run_cons.
    destruct (feed_byte p b) as [p' [f|]]; simpl.
    + destruct Hstep as (_ & _ & Hp'). by apply (IH p' []).
    + destruct Hstep as (g & pd' & _ & Hp'). by apply (IH p' pd').
Qed.

(** ** Residue and corruption *)

Lemma crc16_wire bd : crc16 CRC_INIT (wire bd) = 0.
Proof.
  unfold wire. rewrite crc16_app. unfold be16.
  apply crc16_residue; [auto with cint|by apply wrap_fits..|].
  symmetry. apply be16_join. auto with cint.
Qed.

Lemma lxors_bytes_ok xs ys : bytes_ok xs -> bytes_ok ys -> bytes_ok (lxors xs ys).
Proof.
  intros Hx. revert ys. induction Hx as [|x xs Hx Hxs IH]; intros ys Hy; [constructor|].
  destruct Hy as [|y ys Hy Hys]; [constructor|].
  simpl. constructor; [by apply lxor_fits|by apply IH].
Qed.

Lemma burst_bytes_ok n m a b : fits 8 a -> fits 8 b -> bytes_ok (burst n m a b).
Proof.
  intros Ha Hb. unfold burst. apply Forall_app. split; [by apply Forall_replicate|].
  apply Forall_app. split; [|by apply Forall_replicate].
  constructor; [done|]. constructor; [done|constructor].
Qed.

(** The bytes of a wire frame after its four header bytes. *)
Definition wire_tail (bd : list Z) : list Z := bd ++ be16 (crc16 CRC_INIT (wire_msg bd)).

Lemma wire_split bd :
  wire bd = [PROTO_MAGIC0; PROTO_MAGIC1] ++ be16 (zlen bd) ++ wire_tail bd.
Proof. unfold wire, wire_msg, wire_tail. by rewrite <-!app_assoc. Qed.

(** A frame whose body or checksum suffered a burst error of at most two
    adjacent bytes is discarded. *)
Lemma run_burst p bd n m a b :
  hunting p -> body_ok bd -> fits 8 a -> fits 8 b -> ~ (a = 0 /\ b = 0) ->
  (n + m)%nat = length bd ->
  snd (run p ([PROTO_MAGIC0; PROTO_MAGIC1] ++ be16 (zlen bd) ++
              lxors (wire_tail bd) (burst n m a b))) = [].
Proof.
  intros Hp [Hbd Hl] Ha Hb Hab Hnm.
  set (x := lxors (wire_tail bd) (burst n m a b)).
  assert (length (wire_tail bd) = (n + 2 + m)%nat) as Htl
    by (unfold wire_tail; rewrite length_app, be16_length; lia).
  assert (length x = (n + 2 + m)%nat) as Hx
    by (unfold x; rewrite length_zip_with, burst_length; lia).
  assert (bytes_ok x) as Hxok.
  { apply lxors_bytes_ok; [|by apply burst_bytes_ok].
    unfold wire_tail. rewrite Forall_app. auto with cint. }
  destruct (hunting_magic0 p Hp) as (p1 & Hf1 & Hp1).
  assert (exists bd' c1 c2, x = bd' ++ [c1; c2] /\ length bd' = length bd) as (bd' & c1 & c2 & Hxe & Hl').
  { exists (take (length bd) x).
    destruct (drop (length bd) x) as [|c1 [|c2 [|]]] eqn:E;
      try (apply (f_equal length) in E; rewrite length_drop in E; simpl in E; lia).
    exists c1, c2. rewrite <-E, take_drop. split; [done|]. rewrite length_take. lia. }
  rewrite Hxe in Hxok |- *. apply Forall_app in Hxok as [Hbd' Hc].
  inversion Hc as [|? ? Hc1 Hc']; subst. inversion Hc' as [|? ? Hc2 _]; subst.
  change ([PROTO_MAGIC0; PROTO_MAGIC1] ++ be16 (zlen bd) ++ bd' ++ [c1; c2])
    with (PROTO_MAGIC0 :: PROTO_MAGIC1 :: be16 (zlen bd) ++ bd' ++ [c1; c2] ++ []).
  feed_none Hf1.
  destruct (run_packet p1 (zlen bd) bd' c1 c2 [] Hp1 Hbd' Hc1 Hc2 Hl ltac:(lia))
    as (p2 & _ & Hrun).
  rewrite Hrun, run_nil. simpl. rewrite app_nil_r.
  case_decide as Hcrc; [|done]. destruct Hab.
  (* the corrupted packet would be a wire frame: both residues vanish *)
  set (c := crc16 CRC_INIT ([PROTO_MAGIC0; PROTO_MAGIC1] ++ be16 (zlen bd))).
  apply (crc16_burst_detect c (wire_tail bd) n m a b Htl Ha Hb).
  fold x. unfold c. rewrite <-!crc16_app, Hxe, Hcrc, <-!app_assoc, <-wire_split, crc16_wire.
  replace (zlen bd) with (zlen bd') by lia.
  by rewrite <-wire_split, crc16_wire.
Qed.

(** ** The theorems *)

(** C2. Stream delivery.  However much garbage free of the magic pair
    precedes, separates and follows well-formed frames, a fresh parser calls
    its callback once per frame, in order, with exactly that frame. *)
Theorem stream_delivery {S : Type} (cb : proto_frame -> S -> S) segs tail s :
  Forall seg_ok segs -> bytes_ok tail -> no_magic tail = true ->
  snd (proto_parser_feed cb proto_parser_create (stream segs tail) s)
  = foldl (fun s sg => cb (body_to_frame (snd sg)) s) s segs.
Proof.
  intros Hs Ht Hm. rewrite feed_run, run_stream by (done || apply create_repr). simpl.
  generalize s. clear. induction segs; intros s; simpl; auto.
Qed.

Lemma stream_delivery_witness :
  snd (proto_parser_feed (fun f n => n + f_cmd f) proto_parser_create
         (stream [([1; 0xAA; 7], [9; 1; 5]); ([], [1; 2])] [0xAA]) 0) = 3.
Proof.
  rewrite stream_delivery; [reflexivity|by_compute|by_compute|reflexivity].
Defined.

(** C5. Response round trip.  For every response whose body fits the
    protocol (at most 1023 data bytes) and a large enough buffer,
    [proto_build_response] succeeds with [9 + data_len] bytes, and feeding them
    to a parser that is between frames delivers the request's sequence number,
    the command with its response flag and the status followed by the data. *)
Theorem response_roundtrip {S : Type} (cb : proto_frame -> S -> S)
    seq cmd st d n p s :
  fits 8 seq -> bytes_ok d -> zlen d <= 1023 -> 9 + zlen d <= n -> hunting p ->
  exists buf p',
    proto_build_response seq cmd st (Some d) (zlen d) n = Ret buf /\
    zlen buf = 9 + zlen d /\ hunting p' /\
    proto_parser_feed cb p buf s
    = (p', cb (mk_frame seq (u8 (cmd ||| PROTO_RESP_FLAG)) (status_byte st :: d)) s).
Proof.
  intros Hseq Hd Hl Hn Hp. rewrite build_response_wire by lia.
  set (bd := seq :: u8 (cmd ||| PROTO_RESP_FLAG) :: status_byte st :: d).
  assert (body_ok bd) as Hbd.
  { split; [|unfold bd, PROTO_MAX_PAYLOAD; simpl; lia].
    repeat (constructor; [first [done|by apply wrap_fits|by destruct st]|]). done. }
  destruct (run_wire p bd [] Hp Hbd) as (p' & Hp' & Hrun). rewrite app_nil_r in Hrun.
  exists (wire bd), p'. split; [done|].
  split; [rewrite wire_length; simpl; lia|]. split; [by left|].
  by rewrite feed_run, Hrun.
Qed.

Lemma response_roundtrip_witness :
  exists buf p', proto_build_response 7 1 PROTO_STATUS_OK (Some [80; 79; 78; 71]) 4 1056
    = Ret buf /\ zlen buf = 13 /\ hunting p' /\
    proto_parser_feed (fun f l => f :: l) proto_parser_create buf []
    = (p', [mk_frame 7 129 [0; 80; 79; 78; 71]]).
Proof.
  apply (response_roundtrip (fun f l => f :: l) 7 1 PROTO_STATUS_OK [80; 79; 78; 71] 1056
           proto_parser_create []).
  - done.
  - by_compute.
  - done.
  - done.
  - left. apply create_repr.
Defined.

(** Push round trip.  [proto_build_push] of at most 1024 bytes into a
    large enough buffer succeeds, and a parser between frames delivers it as a
    frame with sequence number 0, the unflagged command and exactly those
    bytes. *)
Theorem push_roundtrip {S : Type} (cb : proto_frame -> S -> S) cmd d n p s :
  fits 8 cmd -> bytes_ok d -> zlen d <= PROTO_MAX_PAYLOAD -> 8 + zlen d <= n -> hunting p ->
  exists buf p',
    proto_build_push cmd (Some d) (zlen d) n = Ret buf /\
    zlen buf = 8 + zlen d /\ hunting p' /\
    proto_parser_feed cb p buf s = (p', cb (mk_frame 0 cmd d) s).
Proof.
  intros Hcmd Hd Hl Hn Hp. unfold PROTO_MAX_PAYLOAD in Hl. rewrite build_push_wire by lia.
  assert (body_ok (0 :: cmd :: d)) as Hbd.
  { split; [|unfold PROTO_MAX_PAYLOAD; simpl; lia]. by repeat (constructor; [done|]). }
  destruct (run_wire p _ [] Hp Hbd) as (p' & Hp' & Hrun). rewrite app_nil_r in Hrun.
  exists (wire (0 :: cmd :: d)), p'. split; [done|].
  split; [rewrite wire_length; simpl; lia|]. split; [by left|].
  by rewrite feed_run, Hrun.
Qed.

Lemma push_roundtrip_witness :
  exists buf p', proto_build_push CMD_PROXY_DATA_PUSH (Some [1; 0xAA; 0x55]) 3 1056 = Ret buf /\
    zlen buf = 11 /\ hunting p' /\
    proto_parser_feed (fun f l => f :: l) proto_parser_create buf []
    = (p', [mk_frame 0 0x40 [1; 0xAA; 0x55]]).
Proof.
  apply (push_roundtrip (fun f l => f :: l) CMD_PROXY_DATA_PUSH [1; 0xAA; 0x55] 1056
           proto_parser_create []).
  - done.
  - by_compute.
  - done.
  - done.
  - left. apply create_repr.
Defined.

(** C11. Soundness of delivery.  Whatever bytes a fresh parser is fed, the
    frames it hands to its callback lie in the input as disjoint, complete wire
    frames (magic, length, body of at most 1026 bytes, matching checksum), in
    the order of delivery. *)
Theorem delivery_sound data :
  bytes_ok data ->
  framed data (snd (proto_parser_feed (fun f fs => fs ++ [f]) proto_parser_create data [])).
Proof. intros Hd. exact (run_sound _ [] data create_repr Hd). Qed.

Lemma delivery_sound_witness :
  framed (wire [3; 1; 9]) (snd (proto_parser_feed (fun f fs => fs ++ [f])
                                  proto_parser_create (wire [3; 1; 9]) [])).
Proof. apply delivery_sound. by_compute. Defined.

(** C12. Burst errors.  A frame whose body or checksum bytes were changed in
    at most two adjacent positions (any single-byte error, any error burst of
    that extent) is never delivered. *)
Theorem burst_error_rejected p bd n m a b :
  hunting p -> body_ok bd -> fits 8 a -> fits 8 b -> ~ (a = 0 /\ b = 0) ->
  (n + m)%nat = length bd ->
  snd (proto_parser_feed (fun f fs => fs ++ [f]) p
         ([PROTO_MAGIC0; PROTO_MAGIC1] ++ be16 (zlen bd) ++
          lxors (wire_tail bd) (burst n m a b)) []) = [].
Proof. apply run_burst. Qed.

Lemma burst_error_rejected_witness :
  snd (proto_parser_feed (fun f fs => fs ++ [f]) proto_parser_create
         ([PROTO_MAGIC0; PROTO_MAGIC1] ++ be16 4 ++
          lxors (wire_tail [7; 0x81; 0; 42]) (burst 3 1 0x10 0x80)) []) = [].
Proof.
  apply (burst_error_rejected proto_parser_create [7; 0x81; 0; 42] 3 1 0x10 0x80).
  - left. apply create_repr.
  - by_compute.
  - done.
  - done.
  - intros [H _]. discriminate H.
  - done.
Defined.

(** C36. Memory safety of the parser.  After any input, a store into the
    body array is in range, and the frame assembled from a complete body reads
    only bytes of that array. *)
Theorem parser_in_bounds data p fs :
  bytes_ok data ->
  proto_parser_feed (fun f fs => fs ++ [f]) proto_parser_create data [] = (p, fs) ->
  zlen (body p) = 2 + PROTO_MAX_PAYLOAD /\
  (state p = ST_BODY -> 0 <= body_recv p < zlen (body p)) /\
  (state p = ST_CRC_L ->
     2 <= body_len p <= zlen (body p) /\ u16 (body_len p - 2) = body_len p - 2 /\
     body_recv p = body_len p).
Proof.
  intros Hd Hrun. destruct (run_repr _ [] data create_repr Hd) as (pd & Hl & _ & Hp).
  fold (run proto_parser_create data) in Hrun. rewrite Hrun in Hl, Hp. simpl fst in *.
  cbn zeta in Hp. unfold PROTO_MAX_PAYLOAD in *.
  split; [lia|]. rewrite Hl. split; intros Hs; rewrite Hs in Hp.
  - destruct Hp as (_ & ? & ? & _). lia.
  - destruct Hp as (msg & _ & _ & ? & ? & _).
    rewrite wrap_id by (unfold fits; lia). lia.
Qed.

Lemma parser_in_bounds_witness :
  exists p fs, proto_parser_feed (fun f fs => fs ++ [f]) proto_parser_create
                 [0xAA; 0x55; 4; 2; 1] [] = (p, fs) /\
  zlen (body p) = 2 + PROTO_MAX_PAYLOAD /\
  (state p = ST_BODY -> 0 <= body_recv p < zlen (body p)) /\
  (state p = ST_CRC_L ->
     2 <= body_len p <= zlen (body p) /\ u16 (body_len p - 2) = body_len p - 2 /\
     body_recv p = body_len p).
Proof.
  eexists _, _. split; [apply surjective_pairing|].
  apply (parser_in_bounds [0xAA; 0x55; 4; 2; 1] _ _ ltac:(by_compute)
           (surjective_pairing _)).
Defined.

(** *** The builder's size check *)

Lemma put_then_fault {A} cap buf x (k : list Z -> outcome A) :
  k (buf ++ [x]) = Fault -> (buf_put cap buf x ≫= k) = Fault.
Proof. unfold buf_put. by destruct (zlen buf <? cap). Qed.

(** C37. The size check of [proto_build_response].  For up to 65532 data
    bytes the check is exact: the frame is built iff it fits, otherwise 0 is
    returned and nothing is written.  From 65533 on the 16-bit body length
    wraps, and a buffer that only satisfies the wrapped check is overrun. *)
Theorem build_response_bounds seq cmd st d n :
  (zlen d <= 65532 ->
     proto_build_response seq cmd st (Some d) (zlen d) n
     = Ret (if n <? 9 + zlen d then []
            else wire (seq :: u8 (cmd ||| PROTO_RESP_FLAG) :: status_byte st :: d))) /\
  (65533 <= zlen d <= 131068 -> zlen d - 65527 <= n < 9 + zlen d ->
     proto_build_response seq cmd st (Some d) (zlen d) n = Fault).
Proof.
  split.
  - intros Hd. destruct (Z.ltb_spec n (9 + zlen d)); [|by rewrite build_response_wire by lia].
    unfold proto_build_response. rewrite wrap_id by (unfold fits; lia).
    by rewrite (proj2 (Z.ltb_lt _ _)) by lia.
  - intros Hd Hn. unfold proto_build_response.
    assert (u16 (3 + zlen d) = 3 + zlen d - 65536) as ->.
    { unfold wrap. change (2 ^ 16) with 65536.
      symmetry. apply (Z.mod_unique_pos _ _ 1); lia. }
    rewrite (proj2 (Z.ltb_ge _ _)) by lia.
    do 7 apply put_then_fault. unfold put_data.
    rewrite (proj2 (Z.ltb_lt _ _)) by lia. rewrite mem_read_all, bind_Ret. unfold buf_puts.
    case_match eqn:Hle; [|done]. apply Z.leb_le in Hle. rewrite bind_Ret.
    unfold put_crc. apply put_then_fault. unfold buf_put.
    rewrite (proj2 (Z.ltb_ge _ _)); [done|].
    rewrite !length_app in *. simpl in *. lia.
Qed.

Lemma build_response_bounds_witness :
  proto_build_response 1 2 PROTO_STATUS_OK (Some [5; 6]) 2 10 = Ret [] /\
  proto_build_response 1 2 PROTO_STATUS_OK (Some (replicate (Z.to_nat 65540) 0)) 65540 1056 = Fault.
Proof.
  split.
  - apply (proj1 (build_response_bounds 1 2 PROTO_STATUS_OK [5; 6] 10)). done.
  - pose proof (proj2 (build_response_bounds 1 2 PROTO_STATUS_OK (replicate (Z.to_nat 65540) 0) 1056)) as H.
    rewrite length_replicate, Z2Nat.id in H by lia. apply H; lia.
Defined.
