(* ===== verification/CpuMonitor.v ===== *)
(** * CPU load monitor (src/main/cpu_monitor.c)

    The idle-hook counter and the one-second sampler, run as a sequence of
    events: idle iterations interleaved with timer callbacks. *)

From S2P Require Import Prelude.

(** The four static variables. *)
Record cpu_monitor := mk_cpu {
  s_idle_ticks : Z;    (** [atomic_uint] *)
  s_prev_ticks : Z;    (** [uint32_t] *)
  s_max_ticks : Z;     (** [uint32_t] *)
  s_cpu_load : Z;      (** [uint8_t] *)
}.

Definition cpu_initial : cpu_monitor := mk_cpu 0 0 0 0.

Definition idle_hook_cb (m : cpu_monitor) : cpu_monitor :=
  mk_cpu (u32 (s_idle_ticks m + 1)) (s_prev_ticks m) (s_max_ticks m) (s_cpu_load m).

Definition sample_cb (m : cpu_monitor) : cpu_monitor :=
  let curr := s_idle_ticks m in
  let delta := u32 (curr - s_prev_ticks m) in
  let max_ticks := if s_max_ticks m <? delta then delta else s_max_ticks m in
  let cpu_load :=
    if 0 <? max_ticks
    then let load := u32 (100 - u32 (delta * 100) / max_ticks) in
         u8 (if 100 <? load then 100 else load)
    else s_cpu_load m in
  mk_cpu curr curr max_ticks cpu_load.

Definition cpu_monitor_get_load (m : cpu_monitor) : Z := s_cpu_load m.

(** [cpu_monitor_init] registers both callbacks; from then on the monitor is
    driven by their calls, in any order. *)
Inductive cpu_event := IdleHook | SampleTimer.

Definition cpu_step (m : cpu_monitor) (e : cpu_event) : cpu_monitor :=
  match e with IdleHook => idle_hook_cb m | SampleTimer => sample_cb m end.

Definition cpu_run (m : cpu_monitor) (es : list cpu_event) : cpu_monitor :=
  foldl cpu_step m es.

(** ** Invariant *)

Definition cpu_inv (m : cpu_monitor) : Prop :=
  fits 32 (s_idle_ticks m) /\ fits 32 (s_prev_ticks m) /\ fits 32 (s_max_ticks m) /\
  0 <= s_cpu_load m <= 100.

Lemma cpu_initial_inv : cpu_inv cpu_initial.
Proof. done. Qed.

(** The quotient never exceeds 100, even when [delta * 100] wraps. *)
Lemma load_quotient delta max :
  0 <= delta <= max -> 0 < max -> 0 <= u32 (delta * 100) / max <= 100.
Proof.
  intros Hd Hm. assert (0 <= u32 (delta * 100) <= delta * 100) as Hu.
  { split; [apply wrap_fits; lia|]. apply Z.mod_le; lia. }
  split; [apply Z.div_pos; lia|]. apply Z.div_le_upper_bound; lia.
Qed.

Lemma sample_max m :
  s_max_ticks (sample_cb m)
  = Z.max (s_max_ticks m) (u32 (s_idle_ticks m - s_prev_ticks m)).
Proof. simpl. destruct (Z.ltb_spec (s_max_ticks m) (u32 (s_idle_ticks m - s_prev_ticks m))); lia. Qed.

Lemma sample_load m :
  fits 32 (s_max_ticks m) -> 0 < s_max_ticks (sample_cb m) ->
  s_cpu_load (sample_cb m)
  = 100 - u32 (u32 (s_idle_ticks m - s_prev_ticks m) * 100) / s_max_ticks (sample_cb m).
Proof.
  intros Hm Hpos. pose proof (sample_max m) as Hmax. cbv zeta in Hpos.
  set (delta := u32 (s_idle_ticks m - s_prev_ticks m)) in *.
  assert (fits 32 delta) as Hd by (by apply wrap_fits).
  pose proof (load_quotient delta (s_max_ticks (sample_cb m))) as Hq.
  unfold fits in *.
  unfold sample_cb in *. cbn [s_cpu_load s_max_ticks] in *. fold delta; fold delta in Hmax, Hpos, Hq.
  set (mx := if s_max_ticks m <? delta then delta else s_max_ticks m) in *.
  rewrite (proj2 (Z.ltb_lt 0 mx) Hpos). rewrite (wrap_id 32) by (unfold fits; lia).
  rewrite (proj2 (Z.ltb_ge _ _)) by lia. apply wrap_id. unfold fits. lia.
Qed.

Lemma cpu_step_inv m e : cpu_inv m -> cpu_inv (cpu_step m e).
Proof.
  intros (Hi & Hp & Hm & Hl). destruct e; simpl.
  - split; [by apply wrap_fits|]. done.
  - pose proof (sample_max m) as Hmax. pose proof (sample_load m Hm) as Hload.
    assert (fits 32 (u32 (s_idle_ticks m - s_prev_ticks m))) as Hd by (by apply wrap_fits).
    pose proof (load_quotient (u32 (s_idle_ticks m - s_prev_ticks m))
                  (s_max_ticks (sample_cb m))) as Hq.
    unfold fits in *. split; [done|]. split; [done|].
    split; [unfold fits; lia|].
    destruct (Z.lt_ge_cases 0 (s_max_ticks (sample_cb m))) as [Hpos|Hz]; [lia|].
    unfold sample_cb in *. cbn [s_cpu_load s_max_ticks] in *.
    by rewrite (proj2 (Z.ltb_ge _ _) Hz).
Qed.

Lemma cpu_run_inv m es : cpu_inv m -> cpu_inv (cpu_run m es).
Proof.
  revert m. induction es as [|e es IH]; intros m Hm; [done|].
  apply IH, cpu_step_inv, Hm.
Qed.

(** ** One-second periods *)

(** [n] idle iterations and the sample that ends the period. *)
Definition period (n : nat) : list cpu_event := replicate n IdleHook ++ [SampleTimer].

Lemma idle_iter n m :
  cpu_inv m ->
  cpu_run m (replicate n IdleHook)
  = mk_cpu (u32 (s_idle_ticks m + Z.of_nat n)) (s_prev_ticks m) (s_max_ticks m) (s_cpu_load m).
Proof.
  revert m. induction n as [|n IH]; intros m Hm.
  - simpl. rewrite Z.add_0_r, wrap_id by apply Hm. by destruct m.
  - simpl. rewrite IH by (by apply (cpu_step_inv m IdleHook)). simpl. f_equal.
    unfold wrap. rewrite Z.add_mod_idemp_l by done. f_equal. lia.
Qed.

(** Between samples the previous sample is the current count. *)
Lemma period_step n m :
  cpu_inv m -> s_idle_ticks m = s_prev_ticks m -> Z.of_nat n <= 42949672 ->
  let m' := cpu_run m (period n) in
  s_idle_ticks m' = s_prev_ticks m' /\
  s_max_ticks m' = Z.max (s_max_ticks m) (Z.of_nat n) /\
  (0 < s_max_ticks m' -> s_cpu_load m' = 100 - Z.of_nat n * 100 / s_max_ticks m') /\
  (s_max_ticks m' = 0 -> s_cpu_load m' = s_cpu_load m).
Proof.
  intros Hm Heq Hn. unfold cpu_run, period. rewrite foldl_app. fold (cpu_run m (replicate n IdleHook)).
  rewrite idle_iter by done. simpl foldl. cbv zeta.
  set (m1 := mk_cpu _ _ _ _).
  assert (u32 (s_idle_ticks m1 - s_prev_ticks m1) = Z.of_nat n) as Hd.
  { unfold m1; simpl. rewrite Heq. unfold wrap. rewrite Zminus_mod_idemp_l.
    replace (s_prev_ticks m + Z.of_nat n - s_prev_ticks m) with (Z.of_nat n) by lia.
    apply Z.mod_small. lia. }
  pose proof (sample_max m1) as Hmax. rewrite Hd in Hmax.
  pose proof (sample_load m1 ltac:(apply Hm)) as Hl. rewrite Hd in Hl.
  rewrite (wrap_id 32 (Z.of_nat n * 100)) in Hl by (unfold fits; lia).
  split; [done|]. split; [exact Hmax|]. split; [done|].
  intros Hz. unfold sample_cb in *. cbn [s_cpu_load s_max_ticks] in *.
  by rewrite Hz.
Qed.

(** Load range.  Whatever the order of idle iterations and timer
    callbacks, and through every wrap of the 32-bit counters and of the product
    [delta * 100], the reported load is a percentage. *)
Theorem cpu_load_range es :
  0 <= cpu_monitor_get_load (cpu_run cpu_initial es) <= 100.
Proof. apply (cpu_run_inv _ es cpu_initial_inv). Qed.

(** The baseline and the load after a history of periods, the latest last. *)
Definition baseline (ns : list nat) : Z := foldr (fun n b => Z.max (Z.of_nat n) b) 0 ns.

Lemma baseline_app ns n : baseline (ns ++ [n]) = Z.max (baseline ns) (Z.of_nat n).
Proof. unfold baseline. induction ns; simpl; lia. Qed.

Lemma baseline_nonneg ns : 0 <= baseline ns.
Proof. unfold baseline. induction ns; simpl; lia. Qed.

Lemma periods_run ns :
  Forall (fun n => Z.of_nat n <= 42949672) ns ->
  let m := cpu_run cpu_initial (concat (map period ns)) in
  cpu_inv m /\ s_idle_ticks m = s_prev_ticks m /\ s_max_ticks m = baseline ns /\
  (baseline ns = 0 -> s_cpu_load m = 0).
Proof.
  induction ns as [|n ns IH] using rev_ind; intros Hns; [done|].
  apply Forall_app in Hns as [Hns Hn]. destruct (IH Hns) as (Hm & Heq & Hmax & Hz).
  rewrite map_app, concat_app. unfold cpu_run. rewrite foldl_app. cbn [map concat].
  rewrite app_nil_r. fold (cpu_run cpu_initial (concat (map period ns))) in *.
  set (m := cpu_run cpu_initial (concat (map period ns))) in *.
  fold (cpu_run m (period n)). inversion Hn; subst.
  destruct (period_step n m Hm Heq) as (Heq' & Hmax' & _ & Hl'); [done|].
  rewrite baseline_app. cbv zeta. split; [by apply cpu_run_inv|]. split; [done|].
  split; [lia|]. intros H0. rewrite Hl' by lia. apply Hz.
  pose proof (baseline_nonneg ns). lia.
Qed.

(** The sampler computes the documented estimate.  When every one-second
    period has at most 42949672 idle iterations (the bound below which
    [delta * 100] does not wrap), the load after the period with [n] iterations
    is [100 - n * 100 / max] over the largest period so far, and 0 while no
    idle iteration has been seen; the free-running counter may wrap any number
    of times. *)
Theorem cpu_load_estimate ns n :
  Forall (fun n => Z.of_nat n <= 42949672) (ns ++ [n]) ->
  cpu_monitor_get_load (cpu_run cpu_initial (concat (map period (ns ++ [n]))))
  = if baseline (ns ++ [n]) =? 0 then 0
    else 100 - Z.of_nat n * 100 / baseline (ns ++ [n]).
Proof.
  intros Hns. pose proof Hns as [Hns' Hn]%Forall_app. inversion Hn; subst.
  destruct (periods_run _ Hns) as (_ & _ & Hmax & Hz).
  destruct (periods_run _ Hns') as (Hm & Heq & _ & _).
  destruct (Z.eqb_spec (baseline (ns ++ [n])) 0) as [E|E]; [by apply Hz|].
  rewrite <-Hmax in E |- *. revert E. rewrite map_app, concat_app. unfold cpu_run.
  rewrite foldl_app. cbn [map concat]. rewrite app_nil_r.
  fold (cpu_run cpu_initial (concat (map period ns))) in *.
  set (m := cpu_run cpu_initial (concat (map period ns))) in *.
  fold (cpu_run m (period n)). intros E.
  destruct (period_step n m Hm Heq) as (_ & Hmax' & Hl' & _); [done|].
  apply Hl'. destruct Hm as (_ & _ & Hf & _). unfold fits in Hf. lia.
Qed.

Lemma cpu_load_estimate_witness :
  cpu_monitor_get_load (cpu_run cpu_initial (concat (map period ([4%nat; 8%nat] ++ [2%nat])))) = 75.
Proof. rewrite cpu_load_estimate; [reflexivity|by_compute]. Defined.
