(* ===== verification/TcpMgr.v ===== *)
(** * The TCP relay (src/main/tcp_mgr.c)

    Three tasks share [s_fd], the send queue and the counters: the receive
    task, the send task, and the command task that calls the public API.  Each
    task is a program counter with an executable step; a critical section of
    [s_mu] is one step, and so is every socket or queue call.  The results of
    calls into lwIP and FreeRTOS are the labels of the steps. *)

From S2P Require Import Prelude Proto.

(** ** Configuration *)

Definition RX_BUF_SIZE : Z := PROTO_MAX_PAYLOAD.
Definition SEND_QUEUE_DEPTH : Z := 32.
Definition KA_IDLE_S : Z := 30.
Definition KA_INTVL_S : Z := 5.
Definition KA_CNT : Z := 3.

(** ** Opening a socket: the middle of [tcp_mgr_connect]

    The part between the two critical sections touches only local variables
    and the network stack; it is a function of what the stack answers, and
    records the calls it makes. *)

Inductive sock_opt := SO_KEEPALIVE | TCP_KEEPIDLE | TCP_KEEPINTVL | TCP_KEEPCNT.

Inductive sock_call :=
  | GetAddrInfo | FreeAddrInfo | Socket
  | SetSockOpt (fd : Z) (o : sock_opt) (v : Z)
  | FcntlSetFl (fd flags : Z)
  | Connect (fd : Z) | SelectWrite (fd : Z) | GetSoError (fd : Z)
  | CloseSock (fd : Z).

#[export] Instance sock_opt_eq_dec : EqDecision sock_opt.
Proof. solve_decision. Defined.
#[export] Instance sock_call_eq_dec : EqDecision sock_call.
Proof. solve_decision. Defined.

(** What the calls return. *)
Record connect_env := mk_cenv {
  ce_gai : Z;              (** [getaddrinfo] *)
  ce_res : bool;           (** [res != NULL] *)
  ce_sock : Z;             (** [socket] *)
  ce_flags : Z;            (** [fcntl(F_GETFL)] *)
  ce_O_NONBLOCK : Z;       (** the constant of <fcntl.h> *)
  ce_rc : Z;               (** [connect] *)
  ce_inprogress : bool;    (** [errno == EINPROGRESS] after it *)
  ce_select : Z;           (** [select] *)
  ce_sock_err : Z;         (** [getsockopt(SO_ERROR)] *)
}.

(** The socket, or [None] for every [return -1]; and the calls, in order. *)
Definition connect_socket (e : connect_env) : option Z * list sock_call :=
  if negb (ce_gai e =? 0) || negb (ce_res e) then
    (None, GetAddrInfo :: (if ce_res e then [FreeAddrInfo] else []))
  else
    let sock := ce_sock e in
    if sock <? 0 then (None, [GetAddrInfo; Socket; FreeAddrInfo])
    else
      let opened :=
        [GetAddrInfo; Socket;
         SetSockOpt sock SO_KEEPALIVE 1; SetSockOpt sock TCP_KEEPIDLE KA_IDLE_S;
         SetSockOpt sock TCP_KEEPINTVL KA_INTVL_S; SetSockOpt sock TCP_KEEPCNT KA_CNT;
         FcntlSetFl sock (Z.lor (ce_flags e) (ce_O_NONBLOCK e)); Connect sock; FreeAddrInfo] in
      if negb (ce_rc e =? 0) && negb (ce_inprogress e) then
        (None, opened ++ [CloseSock sock])
      else if negb (ce_rc e =? 0) && (ce_select e <=? 0) then
        (None, opened ++ [SelectWrite sock; CloseSock sock])
      else if negb (ce_rc e =? 0) && negb (ce_sock_err e =? 0) then
        (None, opened ++ [SelectWrite sock; GetSoError sock; CloseSock sock])
      else
        (Some sock,
         opened ++ (if ce_rc e =? 0 then [] else [SelectWrite sock; GetSoError sock])
                ++ [FcntlSetFl sock (ce_flags e)]).

(** ** Shared state *)

Inductive tcp_event :=
  | EvConnected (fd : Z)              (** [s_fd = sock] in [tcp_mgr_connect] *)
  | EvShutdown (fd : Z)
  | EvClose (fd : Z) (was_open : bool)
  | EvRecv (fd : Z) (data : list Z)
  | EvSent (fd : Z) (data : list Z)
  | EvPush (cmd : Z) (data : list Z)  (** [s_push_cb] *)
  | EvReturn (r : Z).                 (** return value of the API call *)

Record shared := mk_shared {
  s_fd : Z;
  s_rx_bytes : Z;
  s_tx_bytes : Z;
  s_send_queue : list (list Z);       (** pending jobs, oldest first *)
  os_open : list Z;                   (** descriptors the network stack has open *)
  log : list tcp_event;
}.

Definition emit (g : shared) (e : tcp_event) : shared :=
  mk_shared (s_fd g) (s_rx_bytes g) (s_tx_bytes g) (s_send_queue g) (os_open g) (log g ++ [e]).
Definition set_fd (g : shared) (fd : Z) : shared :=
  mk_shared fd (s_rx_bytes g) (s_tx_bytes g) (s_send_queue g) (os_open g) (log g).
Definition add_rx (g : shared) (n : Z) : shared :=
  mk_shared (s_fd g) (u64 (s_rx_bytes g + n)) (s_tx_bytes g) (s_send_queue g) (os_open g) (log g).
Definition add_tx (g : shared) (n : Z) : shared :=
  mk_shared (s_fd g) (s_rx_bytes g) (u64 (s_tx_bytes g + n)) (s_send_queue g) (os_open g) (log g).
Definition set_queue (g : shared) (q : list (list Z)) : shared :=
  mk_shared (s_fd g) (s_rx_bytes g) (s_tx_bytes g) q (os_open g) (log g).
Definition set_open (g : shared) (l : list Z) : shared :=
  mk_shared (s_fd g) (s_rx_bytes g) (s_tx_bytes g) (s_send_queue g) l (log g).

(** The stack's [close]: the descriptor is released. *)
Definition os_close (g : shared) (fd : Z) : shared :=
  set_open (emit g (EvClose fd (bool_decide (fd ∈ os_open g))))
           (filter (fun x => x <> fd) (os_open g)).

(** ** [close_relay] *)

Inductive close_pc :=
  | CrSwap                 (** [fd = s_fd; s_fd = -1] under [s_mu] *)
  | CrShutdown (fd : Z)
  | CrClose (fd : Z)
  | CrPush.                (** [s_push_cb(CMD_PROXY_CLOSED_PUSH, NULL, 0)] *)

(** One step; [None] when the function has returned. *)
Definition close_relay (c : close_pc) (g : shared) : shared * option close_pc :=
  match c with
  | CrSwap =>
      let fd := s_fd g in
      (set_fd g (-1), if fd <? 0 then None else Some (CrShutdown fd))
  | CrShutdown fd => (emit g (EvShutdown fd), Some (CrClose fd))
  | CrClose fd => (os_close g fd, Some CrPush)
  | CrPush => (emit g (EvPush CMD_PROXY_CLOSED_PUSH []), None)
  end.

(** ** [tcp_rx_task] *)

Inductive rx_pc :=
  | RxStart                        (** [malloc(RX_BUF_SIZE)] *)
  | RxSnap                         (** snapshot of [s_fd] *)
  | RxSelect (fd : Z)
  | RxRecv (fd : Z)
  | RxPush (data : list Z)
  | RxClose (c : close_pc)
  | RxDead.                        (** [vTaskDelete] after OOM *)

Inductive rx_answer :=
  | AMalloc (ok : bool)
  | ASelect (n : Z) (eintr : bool)
  | ARecv (n : Z) (data : list Z) (again : bool)
  | ARx.                           (** a step that asks nothing of the stack *)

Definition tcp_rx_task (a : rx_answer) (pc : rx_pc) (g : shared) : shared * rx_pc :=
  match pc, a with
  | RxStart, AMalloc ok => (g, if ok then RxSnap else RxDead)
  | RxSnap, ARx =>
      let fd := s_fd g in
      (g, if fd <? 0 then RxSnap else RxSelect fd)
  | RxSelect fd, ASelect n eintr =>
      (g, if n <? 0 then (if eintr then RxSnap else RxClose CrSwap)
          else if n =? 0 then RxSnap
          else RxRecv fd)
  | RxRecv fd, ARecv n data again =>
      if 0 <? n then (emit (add_rx g n) (EvRecv fd data), RxPush data)
      else if n =? 0 then (g, RxClose CrSwap)
      else (g, if again then RxSnap else RxClose CrSwap)
  | RxPush data, ARx => (emit g (EvPush CMD_PROXY_DATA_PUSH data), RxSnap)
  | RxClose c, ARx =>
      let '(g', c') := close_relay c g in
      (g', match c' with Some c' => RxClose c' | None => RxSnap end)
  | _, _ => (g, pc)
  end.

(** ** [tcp_send_task] *)

Inductive tx_pc :=
  | TxWait                                   (** [xQueueReceive] *)
  | TxSnap (job : list Z)                    (** snapshot of [s_fd] *)
  | TxSend (fd : Z) (job : list Z) (sent : Z)
  | TxClose (c : close_pc).

Inductive tx_answer :=
  | ASend (n : Z)
  | ATx.

Definition tcp_send_task (a : tx_answer) (pc : tx_pc) (g : shared) : shared * tx_pc :=
  match pc, a with
  | TxWait, ATx =>
      match s_send_queue g with
      | [] => (g, TxWait)
      | job :: q => (set_queue g q, TxSnap job)
      end
  | TxSnap job, ATx =>
      let fd := s_fd g in
      (g, if fd <? 0 then TxWait else TxSend fd job 0)
  | TxSend fd job sent, ASend n =>
      if sent <? Z.of_nat (length job) then
        if n <=? 0 then (g, TxClose CrSwap)
        else (emit (add_tx g n)
                (EvSent fd (take (Z.to_nat n) (drop (Z.to_nat sent) job))),
              TxSend fd job (sent + n))
      else (g, pc)
  | TxSend fd job sent, ATx =>
      (g, if sent <? Z.of_nat (length job) then pc else TxWait)
  | TxClose c, ATx =>
      let '(g', c') := close_relay c g in
      (g', match c' with Some c' => TxClose c' | None => TxWait end)
  | _, _ => (g, pc)
  end.

(** ** The public API, called by the command task *)

Inductive cmd_pc :=
  | CmdIdle
  | CnOpen                         (** past the busy check *)
  | CnStore (sock : Z)             (** [s_fd = sock] under [s_mu] *)
  | SdQueue (data : list Z)        (** [malloc], [xQueueSend] *)
  | CmdClose (c : close_pc).

Inductive api_answer :=
  | CallConnect (host_len : option Z)   (** [None]: a null host *)
  | AConnect (e : connect_env)
  | CallSend (data : option (list Z))
  | AAlloc (ok : bool)
  | CallDisconnect
  | CallIsConnected
  | ACmd.

(** Return from the API call. *)
Definition ret (g : shared) (r : Z) : shared * cmd_pc := (emit g (EvReturn r), CmdIdle).

Definition api_step (a : api_answer) (pc : cmd_pc) (g : shared) : shared * cmd_pc :=
  match pc, a with
  (* tcp_mgr_connect *)
  | CmdIdle, CallConnect None => ret g (-1)
  | CmdIdle, CallConnect (Some len) =>
      if 255 <? len then ret g (-1)
      else if 0 <=? s_fd g then ret g (-2)
      else (g, CnOpen)
  | CnOpen, AConnect e =>
      match fst (connect_socket e) with
      | None => ret g (-1)
      | Some sock => (set_open g (sock :: os_open g), CnStore sock)
      end
  | CnStore sock, ACmd => ret (emit (set_fd g sock) (EvConnected sock)) 0
  (* tcp_mgr_send *)
  | CmdIdle, CallSend None => ret g (-1)
  | CmdIdle, CallSend (Some data) =>
      if Z.of_nat (length data) =? 0 then ret g (-1)
      else if 0 <=? s_fd g then (g, SdQueue data)
      else ret g (-1)
  | SdQueue data, AAlloc ok =>
      if negb ok then ret g (-1)
      else if Z.of_nat (length (s_send_queue g)) <? SEND_QUEUE_DEPTH
      then ret (set_queue g (s_send_queue g ++ [data])) 0
      else ret g (-1)
  (* tcp_mgr_disconnect *)
  | CmdIdle, CallDisconnect => (g, CmdClose CrSwap)
  | CmdClose c, ACmd =>
      let '(g', c') := close_relay c g in
      (g', match c' with Some c' => CmdClose c' | None => CmdIdle end)
  (* tcp_mgr_is_connected *)
  | CmdIdle, CallIsConnected => ret g (if 0 <=? s_fd g then 1 else 0)
  | _, _ => (g, pc)
  end.

(** [tcp_mgr_get_bytes]: two separate atomic loads. *)
Definition tcp_mgr_get_bytes (g : shared) : Z * Z := (s_rx_bytes g, s_tx_bytes g).

(** ** The whole component *)

Record tcp := mk_tcp { sh : shared; rx : rx_pc; tx : tx_pc; cm : cmd_pc }.

(** [tcp_mgr_init]: counters and queue created, both tasks started. *)
Definition tcp_mgr_init : tcp :=
  mk_tcp (mk_shared (-1) 0 0 [] [] []) RxStart TxWait CmdIdle.

Inductive label := LRx (a : rx_answer) | LTx (a : tx_answer) | LCmd (a : api_answer).

Definition tcp_exec (l : label) (t : tcp) : tcp :=
  match l with
  | LRx a => let '(g, pc) := tcp_rx_task a (rx t) (sh t) in mk_tcp g pc (tx t) (cm t)
  | LTx a => let '(g, pc) := tcp_send_task a (tx t) (sh t) in mk_tcp g (rx t) pc (cm t)
  | LCmd a => let '(g, pc) := api_step a (cm t) (sh t) in mk_tcp g (rx t) (tx t) pc
  end.

(** The documented behaviour of the socket calls: [recv] returns at most the
    buffer size and that many bytes, [send] accepts at most what it was given,
    and [socket] returns a descriptor that is not open. *)
Definition label_ok (l : label) (t : tcp) : Prop :=
  match l with
  | LRx (ARecv n data _) =>
      0 < n -> Z.of_nat (length data) = n /\ n <= RX_BUF_SIZE /\ bytes_ok data
  | LTx (ASend n) =>
      match tx t with
      | TxSend _ job sent => n <= Z.of_nat (length job) - sent
      | _ => True
      end
  | LCmd (AConnect e) => 0 <= ce_sock e -> ce_sock e ∉ os_open (sh t)
  | _ => True
  end.

(** An interleaving of the three tasks. *)
Inductive tcp_step : tcp -> tcp -> Prop :=
  | step_task l t : label_ok l t -> tcp_step t (tcp_exec l t).

Definition tcp_reachable (t : tcp) : Prop := rtc tcp_step tcp_mgr_init t.
