(* ===== verification/TcpMgrFacts.v ===== *)
(** * Correctness of the TCP relay

    Invariants of every interleaving of the three tasks (descriptor ownership,
    exactly-once close notification, byte accounting, delivery in order), the
    resource discipline of the connect path, the draining of a send job, and
    the two behaviours that follow from jobs and descriptor snapshots outliving
    their connection. *)

From S2P Require Import Prelude CMem Proto ProtoFacts TcpMgr.

(** ** Observations on the log *)

(** Occurrences of a descriptor. *)
Definition occ (x : Z) (l : list Z) : nat := countb (Z.eqb x) l.

Lemma occ_elem x l : x ∈ l <-> (0 < occ x l)%nat.
Proof.
  unfold occ. induction l as [|y l IH]; simpl.
  - rewrite elem_of_nil. lia.
  - rewrite elem_of_cons, IH. destruct (Z.eqb_spec x y); [intuition lia|]. intuition (try congruence; lia).
Qed.

Lemma occ_filter x y l :
  occ x (filter (fun z => z <> y) l) = if x =? y then 0%nat else occ x l.
Proof.
  unfold occ. induction l as [|z l IH]; simpl; [by case_match|].
  rewrite filter_cons. case_decide as Hz; simpl; rewrite IH.
  - destruct (Z.eqb_spec x y); destruct (Z.eqb_spec x z); congruence || lia.
  - subst z. destruct (Z.eqb_spec x y); lia.
Qed.

Definition is_connected (e : tcp_event) : bool :=
  match e with EvConnected _ => true | _ => false end.
Definition is_closed_push (e : tcp_event) : bool :=
  match e with EvPush c _ => c =? CMD_PROXY_CLOSED_PUSH | _ => false end.
Definition close_ok (e : tcp_event) : bool :=
  match e with EvClose _ b => b | _ => true end.

Definition n_connected (l : list tcp_event) : nat := countb is_connected l.
Definition n_closed (l : list tcp_event) : nat := countb is_closed_push l.

(** The data pushed to ctrl, the data received, the data sent. *)
Definition pushed (l : list tcp_event) : list (list Z) :=
  omap (fun e => match e with
                 | EvPush c d => if c =? CMD_PROXY_DATA_PUSH then Some d else None
                 | _ => None end) l.
Definition received (l : list tcp_event) : list (list Z) :=
  omap (fun e => match e with EvRecv _ d => Some d | _ => None end) l.
Definition sent_data (l : list tcp_event) : list (list Z) :=
  omap (fun e => match e with EvSent _ d => Some d | _ => None end) l.

(** ** The invariant *)

(** Descriptors a task is about to close, and whether it still owes the
    notification. *)
Definition close_holds (x : Z) (c : close_pc) : nat :=
  match c with
  | CrShutdown fd | CrClose fd => if (x =? fd)%Z then 1 else 0
  | _ => 0
  end%nat.
Definition close_owes (c : close_pc) : nat :=
  match c with CrSwap => 0 | _ => 1 end%nat.

Definition rx_holds x pc := match pc with RxClose c => close_holds x c | _ => 0%nat end.
Definition tx_holds x pc := match pc with TxClose c => close_holds x c | _ => 0%nat end.
Definition cm_holds x pc :=
  match pc with
  | CmdClose c => close_holds x c
  | CnStore s => if (x =? s)%Z then 1 else 0
  | _ => 0
  end%nat.
Definition fd_holds (x : Z) (g : shared) : nat :=
  if (0 <=? s_fd g) && (x =? s_fd g) then 1%nat else 0%nat.

Definition rx_owes pc := match pc with RxClose c => close_owes c | _ => 0%nat end.
Definition tx_owes pc := match pc with TxClose c => close_owes c | _ => 0%nat end.
Definition cm_owes pc := match pc with CmdClose c => close_owes c | _ => 0%nat end.
Definition fd_owes (g : shared) : nat := if 0 <=? s_fd g then 1%nat else 0%nat.

Definition rx_pending pc : list (list Z) := match pc with RxPush d => [d] | _ => [] end.

Record tcp_inv (t : tcp) : Prop := {
  inv_owner : forall x,
    occ x (os_open (sh t))
    = (fd_holds x (sh t) + rx_holds x (rx t) + tx_holds x (tx t) + cm_holds x (cm t))%nat;
  inv_unique : forall x, (occ x (os_open (sh t)) <= 1)%nat;
  inv_connecting :
    match cm t with CnOpen => s_fd (sh t) < 0 | CnStore s => s_fd (sh t) < 0 <= s | _ => True end;
  inv_close : Forall (fun e => close_ok e = true) (log (sh t));
  inv_notify :
    (n_closed (log (sh t)) + fd_owes (sh t) + rx_owes (rx t) + tx_owes (tx t) + cm_owes (cm t)
     = n_connected (log (sh t)))%nat;
  inv_pushed : pushed (log (sh t)) ++ rx_pending (rx t) = received (log (sh t));
  inv_chunks : Forall (fun d => 1 <= zlen d <= RX_BUF_SIZE /\ bytes_ok d) (received (log (sh t)));
  inv_rx : s_rx_bytes (sh t) = u64 (zlen (concat (received (log (sh t)))));
  inv_tx : s_tx_bytes (sh t) = u64 (zlen (concat (sent_data (log (sh t)))));
  inv_sending :
    match tx t with TxSend _ job sent => 0 <= sent <= zlen job | _ => True end;
  inv_queue : zlen (s_send_queue (sh t)) <= SEND_QUEUE_DEPTH;
}.

Lemma tcp_init_inv : tcp_inv tcp_mgr_init.
Proof. split; simpl; try done; try constructor; simpl; lia. Qed.

(** ** [close_relay] under the invariant *)

Definition opt_holds (x : Z) (c : option close_pc) : nat :=
  match c with Some c => close_holds x c | None => 0%nat end.
Definition opt_owes (c : option close_pc) : nat :=
  match c with Some c => close_owes c | None => 0%nat end.

(** What a step of [close_relay] does, whoever runs it; [others] is what the
    other tasks hold. *)
Lemma close_relay_spec c g g' c' (others : Z -> nat) :
  close_relay c g = (g', c') ->
  (forall x, occ x (os_open g) = (fd_holds x g + close_holds x c + others x)%nat) ->
  (forall x, (occ x (os_open g) <= 1)%nat) ->
  Forall (fun e => close_ok e = true) (log g) ->
  (forall x, occ x (os_open g') = (fd_holds x g' + opt_holds x c' + others x)%nat) /\
  (forall x, (occ x (os_open g') <= 1)%nat) /\
  Forall (fun e => close_ok e = true) (log g') /\
  (n_closed (log g') + fd_owes g' + opt_owes c' + n_connected (log g)
   = n_closed (log g) + fd_owes g + close_owes c + n_connected (log g'))%nat /\
  (s_fd g < 0 -> s_fd g' < 0) /\
  pushed (log g') = pushed (log g) /\ received (log g') = received (log g) /\
  sent_data (log g') = sent_data (log g) /\
  s_rx_bytes g' = s_rx_bytes g /\ s_tx_bytes g' = s_tx_bytes g /\
  s_send_queue g' = s_send_queue g.
Proof.
  intros Hc Ho Hu Hl. destruct c as [|fd|fd|]; simpl in Hc; injection Hc as <- <-;
    unfold fd_holds, fd_owes, opt_holds, pushed, received, sent_data, n_closed, n_connected in *;
    simpl in *; rewrite ?omap_app, ?countb_snoc, ?app_nil_r.
  - destruct (Z.ltb_spec (s_fd g) 0); simpl.
    + rewrite (proj2 (Z.leb_gt _ _)) in * by lia. simpl in *. split_and!; auto; lia.
    + rewrite (proj2 (Z.leb_le _ _)) in * by lia. simpl in *. split_and!; auto; try lia.
      intros x. rewrite Ho. lia.
  - split_and!; auto; try (simpl; lia); apply Forall_app; auto.
  - split_and!; auto; try (simpl; lia).
    + intros x. rewrite occ_filter, Ho. pose proof (Hu x) as H1. rewrite Ho in H1.
      destruct (Z.eqb_spec x fd); lia.
    + intros x. rewrite occ_filter. case_match; [lia|apply Hu].
    + apply Forall_app. split; [done|]. constructor; [|done]. simpl.
      apply bool_decide_eq_true, occ_elem. rewrite Ho, Z.eqb_refl. lia.
  - split_and!; auto; try (simpl; lia); apply Forall_app; auto.
Qed.

(** ** Preservation, task by task *)

Ltac log_simpl :=
  unfold n_closed, n_connected, pushed, received, sent_data, fd_owes in *;
  rewrite ?omap_app, ?countb_snoc, ?concat_app, ?length_app, ?app_nil_r in *;
  simpl in *; rewrite ?app_nil_r, ?Nat.add_0_r in *.

Lemma u64_add a b : u64 (u64 a + b) = u64 (a + b).
Proof. unfold wrap. by rewrite Z.add_mod_idemp_l. Qed.

Lemma rx_close_inv c t :
  rx t = RxClose c -> tcp_inv t -> tcp_inv (tcp_exec (LRx ARx) t).
Proof.
  intros Hpc [Ho Hu Hcn Hcl Hn Hp Hch Hrx Htx Hs Hq]. unfold tcp_exec. rewrite Hpc in *. simpl.
  destruct (close_relay c (sh t)) as [g' c'] eqn:E.
  destruct (close_relay_spec _ _ _ _ (fun x => tx_holds x (tx t) + cm_holds x (cm t))%nat E)
    as (Ho' & Hu' & Hcl' & Hn' & Hfd & Hpe & Hre & Hse & Hrb & Htb & Hsq); [|done..|].
  { intros x. rewrite Ho. simpl. lia. }
  split; simpl; rewrite ?Hre, ?Hse, ?Hrb, ?Htb, ?Hpe, ?Hsq; try done.
  - intros x. rewrite Ho'. destruct c'; simpl; lia.
  - destruct (cm t); try done; lia.
  - simpl in Hn. destruct c'; simpl in *; lia.
  - by destruct c'.
Qed.

Lemma tx_close_inv c t :
  tx t = TxClose c -> tcp_inv t -> tcp_inv (tcp_exec (LTx ATx) t).
Proof.
  intros Hpc [Ho Hu Hcn Hcl Hn Hp Hch Hrx Htx Hs Hq]. unfold tcp_exec. rewrite Hpc in *. simpl.
  destruct (close_relay c (sh t)) as [g' c'] eqn:E.
  destruct (close_relay_spec _ _ _ _ (fun x => rx_holds x (rx t) + cm_holds x (cm t))%nat E)
    as (Ho' & Hu' & Hcl' & Hn' & Hfd & Hpe & Hre & Hse & Hrb & Htb & Hsq); [|done..|].
  { intros x. rewrite Ho. simpl. lia. }
  split; simpl; rewrite ?Hre, ?Hse, ?Hrb, ?Htb, ?Hpe, ?Hsq; try done.
  - intros x. rewrite Ho'. destruct c'; simpl; lia.
  - destruct (cm t); try done; lia.
  - simpl in Hn. destruct c'; simpl in *; lia.
  - by destruct c'.
Qed.

Lemma cm_close_inv c t :
  cm t = CmdClose c -> tcp_inv t -> tcp_inv (tcp_exec (LCmd ACmd) t).
Proof.
  intros Hpc [Ho Hu Hcn Hcl Hn Hp Hch Hrx Htx Hs Hq]. unfold tcp_exec. rewrite Hpc in *. simpl.
  destruct (close_relay c (sh t)) as [g' c'] eqn:E.
  destruct (close_relay_spec _ _ _ _ (fun x => rx_holds x (rx t) + tx_holds x (tx t))%nat E)
    as (Ho' & Hu' & Hcl' & Hn' & Hfd & Hpe & Hre & Hse & Hrb & Htb & Hsq); [|done..|].
  { intros x. rewrite Ho. simpl. lia. }
  split; simpl; rewrite ?Hre, ?Hse, ?Hrb, ?Htb, ?Hpe, ?Hsq; try done.
  - intros x. rewrite Ho'. destruct c'; simpl; lia.
  - by destruct c'.
  - simpl in Hn. destruct c'; simpl in *; lia.
Qed.

Ltac inv_same H :=
  (* a step that changes no field the invariant reads *)
  destruct H as [Ho Hu Hcn Hcl Hn Hp Hch Hrx Htx Hs Hq];
  split; simpl in *; auto.

Lemma rx_inv a t : label_ok (LRx a) t -> tcp_inv t -> tcp_inv (tcp_exec (LRx a) t).
Proof.
  intros Hok H. destruct (rx t) as [| |fd|fd|data|c|] eqn:Hpc.
  6: { destruct a; try (by unfold tcp_exec; rewrite Hpc; destruct t; simpl in *; subst).
       by apply (rx_close_inv c). }
  all: unfold tcp_exec; rewrite Hpc; destruct H as [Ho Hu Hcn Hcl Hn Hp Hch Hrx Htx Hs Hq];
    rewrite Hpc in *.
  - destruct a as [[]| | |]; split; simpl in *; auto.
  - destruct a; simpl; split_ifs; split; simpl in *; auto.
  - destruct a; simpl; split_ifs; split; simpl in *; auto.
  - destruct a as [| |n data again|]; simpl;
      [split; simpl in *; auto..| |split; simpl in *; auto].
    destruct (Z.ltb_spec 0 n) as [Hpos|]; simpl; [|split_ifs; split; simpl in *; auto].
    destruct (Hok Hpos) as (Hlen & Hmax & Hby).
    split; simpl in *; auto; log_simpl; auto.
    + apply Forall_app. auto.
    + by rewrite Hp.
    + apply Forall_app. split; [done|]. constructor; [|constructor]. split; [lia|done].
    + rewrite Hrx, u64_add. f_equal. lia.
  - destruct a; simpl; split; simpl in *; auto; log_simpl; auto; try lia.
    apply Forall_app. auto.
  - destruct a; simpl; split; simpl in *; auto.
Qed.

Lemma tx_inv a t : label_ok (LTx a) t -> tcp_inv t -> tcp_inv (tcp_exec (LTx a) t).
Proof.
  intros Hok H. destruct (tx t) as [|job|fd job sent|c] eqn:Hpc.
  4: { destruct a; [by unfold tcp_exec; rewrite Hpc; destruct t; simpl in *; subst|].
       by apply (tx_close_inv c). }
  all: unfold tcp_exec; rewrite Hpc; destruct H as [Ho Hu Hcn Hcl Hn Hp Hch Hrx Htx Hs Hq];
    simpl in Hok; rewrite Hpc in *.
  - destruct a; simpl; [split; simpl in *; auto|].
    destruct (s_send_queue (sh t)) eqn:Eq; split; simpl in *; auto; rewrite ?Eq; simpl; lia.
  - destruct a; simpl; split_ifs; split; simpl in *; auto. lia.
  - destruct a as [n|]; simpl; split_ifs; split; simpl in *; auto; log_simpl; auto;
      rewrite ?Z.leb_gt, ?Z.ltb_lt in *.
    + apply Forall_app. auto.
    + rewrite Htx, u64_add. f_equal. rewrite length_take, length_drop. lia.
    + lia.
Qed.

Lemma connect_socket_nonneg e s : fst (connect_socket e) = Some s -> s = ce_sock e /\ 0 <= s.
Proof.
  unfold connect_socket. split_ifs; simpl; try done.
  all: intros [= <-]; split; [done|]; by apply Z.ltb_ge.
Qed.

Lemma cm_inv a t : label_ok (LCmd a) t -> tcp_inv t -> tcp_inv (tcp_exec (LCmd a) t).
Proof.
  intros Hok H. destruct (cm t) as [| |s|data|c] eqn:Hpc.
  5: { destruct a; try (by unfold tcp_exec; rewrite Hpc; destruct t; simpl in *; subst).
       by apply (cm_close_inv c). }
  all: unfold tcp_exec; rewrite Hpc; destruct H as [Ho Hu Hcn Hcl Hn Hp Hch Hrx Htx Hs Hq];
    rewrite Hpc in *.
  - destruct a as [[len|]| |[d|]| | | |]; simpl; split_ifs; split; simpl in *; auto;
      log_simpl; auto; try (apply Forall_app; auto).
    + by apply Z.leb_gt.
  - destruct a as [|e| | | | |]; simpl; try (split; simpl in *; auto; fail).
    destruct (fst (connect_socket e)) as [s|] eqn:E.
    + apply connect_socket_nonneg in E as [-> Hs0]. simpl in Hok.
      specialize (Hok Hs0). split; simpl in *; auto.
      * intros x. rewrite Ho. unfold fd_holds; simpl. destruct (Z.eqb_spec x (ce_sock e)); lia.
      * intros x. pose proof (Hu x). destruct (Z.eqb_spec x (ce_sock e)) as [->|]; [|lia].
        rewrite occ_elem in Hok. unfold occ in *. lia.
    + split; simpl in *; auto; log_simpl; auto. apply Forall_app. auto.
  - destruct a; simpl; try (split; simpl in *; auto; fail).
    split; simpl in *; auto; log_simpl; auto.
    + intros x. rewrite Ho. unfold fd_holds; simpl.
      rewrite (proj2 (Z.leb_gt _ _)), (proj2 (Z.leb_le _ _)) by lia. simpl. lia.
    + rewrite !Forall_app. auto.
    + unfold fd_owes in *; simpl.
      rewrite (proj2 (Z.leb_gt _ _)) in Hn by lia. rewrite (proj2 (Z.leb_le _ _)) by lia. lia.
  - destruct a as [| | |[]| | |]; simpl; split_ifs; split; simpl in *; auto;
      log_simpl; auto; try (apply Forall_app; auto; fail).
    apply Z.ltb_lt in E. lia.
Qed.

Lemma tcp_exec_inv l t : label_ok l t -> tcp_inv t -> tcp_inv (tcp_exec l t).
Proof. destruct l; [apply rx_inv|apply tx_inv|apply cm_inv]. Qed.

Lemma reachable_inv t : tcp_reachable t -> tcp_inv t.
Proof.
  unfold tcp_reachable. generalize tcp_init_inv. generalize tcp_mgr_init as t0.
  intros t0 H0 H. induction H as [|t1 t2 t3 [l t' Hok] _ IH]; [done|].
  by apply IH, tcp_exec_inv.
Qed.

(** ** Executable interleavings *)

#[export] Instance label_ok_dec l t : Decision (label_ok l t).
Proof.
  destruct l as [[]|[]|[]]; simpl; try apply _. destruct (tx t); apply _.
Defined.

Fixpoint exec_all (ls : list label) (t : tcp) : tcp :=
  match ls with [] => t | l :: ls => exec_all ls (tcp_exec l t) end.

Fixpoint labels_ok (ls : list label) (t : tcp) : bool :=
  match ls with
  | [] => true
  | l :: ls => bool_decide (label_ok l t) && labels_ok ls (tcp_exec l t)
  end.

Lemma exec_all_rtc ls t : labels_ok ls t = true -> rtc tcp_step t (exec_all ls t).
Proof.
  revert t. induction ls as [|l ls IH]; intros t H; [constructor|].
  simpl in H. apply andb_prop in H as [Hl H].
  econstructor; [by constructor; apply (bool_decide_eq_true_1 _ Hl)|by apply IH].
Qed.

Lemma exec_reachable ls :
  labels_ok ls tcp_mgr_init = true -> tcp_reachable (exec_all ls tcp_mgr_init).
Proof. apply exec_all_rtc. Qed.

(** A successful connect with descriptor [fd], and a complete disconnect. *)
Definition env_ok (fd : Z) : connect_env := mk_cenv 0 true fd 2 0x4000 (-1) true 1 0.
Definition do_connect (fd : Z) : list label :=
  [LCmd (CallConnect (Some 9)); LCmd (AConnect (env_ok fd)); LCmd ACmd].
Definition do_disconnect : list label :=
  [LCmd CallDisconnect; LCmd ACmd; LCmd ACmd; LCmd ACmd; LCmd ACmd].
Definition do_send (d : list Z) : list label :=
  [LCmd (CallSend (Some d)); LCmd (AAlloc true)].

(** No task is inside [close_relay]. *)
Definition quiescent (t : tcp) : Prop :=
  rx_owes (rx t) = 0%nat /\ tx_owes (tx t) = 0%nat /\ cm_owes (cm t) = 0%nat.

#[export] Instance quiescent_dec t : Decision (quiescent t).
Proof. unfold quiescent. apply _. Defined.

Lemma close_owes_holds x c : close_owes c = 0%nat -> close_holds x c = 0%nat.
Proof. by destruct c. Qed.

(** ** The theorems *)

(** C3. Exactly one close notification per connection.  In every interleaving
    of the receive, send and command tasks, whoever detects the loss, ctrl is
    sent at most one [CMD_PROXY_CLOSED_PUSH] per established connection, and
    whenever no task is inside [close_relay] exactly one for every connection
    except the one still up. *)
Theorem closed_notification_exactly_once t :
  tcp_reachable t ->
  (n_closed (log (sh t)) <= n_connected (log (sh t)))%nat /\
  (quiescent t ->
   n_connected (log (sh t))
   = (n_closed (log (sh t)) + if (0 <=? s_fd (sh t))%Z then 1 else 0)%nat).
Proof.
  intros H. pose proof (inv_notify _ (reachable_inv _ H)) as Hn. unfold fd_owes in Hn.
  split; [lia|]. intros (Hr & Ht & Hc). lia.
Qed.

Lemma closed_notification_exactly_once_witness :
  n_connected (log (sh (exec_all (do_connect 5 ++ do_disconnect ++ do_connect 6) tcp_mgr_init)))
  = 2%nat /\
  n_closed (log (sh (exec_all (do_connect 5 ++ do_disconnect ++ do_connect 6) tcp_mgr_init)))
  = 1%nat.
Proof.
  pose proof (proj2 (closed_notification_exactly_once
    (exec_all (do_connect 5 ++ do_disconnect ++ do_connect 6) tcp_mgr_init)
    (exec_reachable (do_connect 5 ++ do_disconnect ++ do_connect 6) eq_refl))
    ltac:(by_compute)) as H.
  split; [rewrite H; reflexivity|reflexivity].
Defined.

(** C6. Descriptor discipline.  In every interleaving, each [close] is of a
    descriptor that is open (none is closed twice), and when no task is closing
    or storing one, the only open descriptor is the current connection's: none
    leaks. *)
Theorem descriptors_closed_once t :
  tcp_reachable t ->
  Forall (fun e => close_ok e = true) (log (sh t)) /\
  (quiescent t -> (forall s, cm t <> CnStore s) ->
   forall fd, fd ∈ os_open (sh t) <-> fd = s_fd (sh t) /\ 0 <= s_fd (sh t)).
Proof.
  intros H. destruct (reachable_inv _ H) as [Ho Hu _ Hcl _ _ _ _ _ _ _].
  split; [done|]. intros (Hr & Ht & Hc) Hst fd.
  rewrite occ_elem, Ho.
  assert (rx_holds fd (rx t) = 0%nat) as ->
    by (destruct (rx t); try done; by apply close_owes_holds).
  assert (tx_holds fd (tx t) = 0%nat) as ->
    by (destruct (tx t); try done; by apply close_owes_holds).
  assert (cm_holds fd (cm t) = 0%nat) as ->
    by (destruct (cm t); try done; [by destruct (Hst sock)|by apply close_owes_holds]).
  unfold fd_holds. destruct (Z.leb_spec 0 (s_fd (sh t))), (Z.eqb_spec fd (s_fd (sh t)));
    simpl; intuition (congruence || lia).
Qed.

Lemma descriptors_closed_once_witness :
  Forall (fun e => close_ok e = true)
    (log (sh (exec_all (do_connect 5 ++ do_disconnect ++ do_connect 5) tcp_mgr_init))) /\
  5 ∈ os_open (sh (exec_all (do_connect 5 ++ do_disconnect ++ do_connect 5) tcp_mgr_init)).
Proof.
  destruct (descriptors_closed_once
    (exec_all (do_connect 5 ++ do_disconnect ++ do_connect 5) tcp_mgr_init)
    (exec_reachable (do_connect 5 ++ do_disconnect ++ do_connect 5) eq_refl)) as [H1 H2].
  split; [exact H1|].
  apply H2; [by_compute|discriminate|]. split; [reflexivity|]. vm_compute. discriminate.
Defined.

(** C8. The relay is transparent towards ctrl.  In every interleaving, the
    [CMD_PROXY_DATA_PUSH] payloads handed to the push callback, followed by the
    one the receive task is about to hand over, are exactly the blocks received
    from the socket, in order; each is non-empty and small enough for
    [proto_build_push] to build its frame in [PUSH_BUF_SIZE] bytes. *)
Theorem relay_rx_transparent t :
  tcp_reachable t ->
  pushed (log (sh t)) ++ rx_pending (rx t) = received (log (sh t)) /\
  Forall (fun d => 1 <= zlen d /\
            exists buf, proto_build_push CMD_PROXY_DATA_PUSH (Some d) (zlen d)
                          (PROTO_MAX_PAYLOAD + 32) = Ret buf /\ zlen buf = 8 + zlen d)
         (received (log (sh t))).
Proof.
  intros H. destruct (reachable_inv _ H) as [_ _ _ _ _ Hp Hch _ _ _ _].
  split; [done|]. revert Hch. apply Forall_impl.
  intros d ([Hlo Hhi] & _). split; [done|].
  unfold RX_BUF_SIZE, PROTO_MAX_PAYLOAD in *. rewrite build_push_wire by lia.
  eexists. split; [done|]. rewrite wire_length. simpl. lia.
Qed.

Lemma relay_rx_transparent_witness :
  pushed (log (sh (exec_all
    (LRx (AMalloc true) :: do_connect 5 ++
     [LRx ARx; LRx (ASelect 1 false); LRx (ARecv 3 [7; 8; 9] false); LRx ARx]) tcp_mgr_init)))
  = [[7; 8; 9]].
Proof.
  pose proof (proj1 (relay_rx_transparent _ (exec_reachable
    (LRx (AMalloc true) :: do_connect 5 ++
     [LRx ARx; LRx (ASelect 1 false); LRx (ARecv 3 [7; 8; 9] false); LRx ARx]) eq_refl))) as H.
  vm_compute in H. exact H.
Defined.

(** Byte accounting.  [tcp_mgr_get_bytes] reports the total number of
    bytes received from and sent to the proxy over all connections, modulo
    2^64, in every interleaving. *)
Theorem byte_counters_exact t :
  tcp_reachable t ->
  tcp_mgr_get_bytes (sh t)
  = (u64 (zlen (concat (received (log (sh t))))), u64 (zlen (concat (sent_data (log (sh t)))))).
Proof.
  intros H. destruct (reachable_inv _ H) as [_ _ _ _ _ _ _ Hrx Htx _ _].
  unfold tcp_mgr_get_bytes. by rewrite Hrx, Htx.
Qed.

Lemma byte_counters_exact_witness :
  tcp_mgr_get_bytes (sh (exec_all
    (do_connect 5 ++ do_send [1; 2; 3] ++ [LTx ATx; LTx ATx; LTx (ASend 2); LTx (ASend 1)])
    tcp_mgr_init)) = (0, 3).
Proof.
  rewrite (byte_counters_exact _ (exec_reachable
    (do_connect 5 ++ do_send [1; 2; 3] ++ [LTx ATx; LTx ATx; LTx (ASend 2); LTx (ASend 1)])
    eq_refl)). reflexivity.
Defined.

(** ** Draining one job *)

(** The inner loop of [tcp_send_task] on successive results of [send]. *)
Definition send_loop (ns : list Z) (g : shared) (pc : tx_pc) : shared * tx_pc :=
  foldl (fun '(g, pc) n => tcp_send_task (ASend n) pc g) (g, pc) ns.

Lemma send_loop_spec ns g fd job sent :
  Forall (fun n => 1 <= n) ns -> 0 <= sent -> sent + foldr Z.add 0 ns <= zlen job ->
  exists frags,
    send_loop ns g (TxSend fd job sent)
    = (mk_shared (s_fd g) (s_rx_bytes g)
         (foldl (fun c n => u64 (c + n)) (s_tx_bytes g) ns)
         (s_send_queue g) (os_open g) (log g ++ map (EvSent fd) frags),
       TxSend fd job (sent + foldr Z.add 0 ns)) /\
    concat frags = take (Z.to_nat (foldr Z.add 0 ns)) (drop (Z.to_nat sent) job).
Proof.
  intros Hns. revert g sent. induction Hns as [|n ns Hn Hns IH]; intros g sent H0 Hle.
  - exists []. simpl. rewrite app_nil_r, Z.add_0_r. split; [|by rewrite take_0].
    by destruct g.
  - simpl in Hle. assert (0 <= foldr Z.add 0 ns) as Hpos.
    { clear -Hns. induction Hns; simpl; lia. }
    unfold send_loop. cbn [foldl tcp_send_task].
    rewrite (proj2 (Z.ltb_lt _ _)), (proj2 (Z.leb_gt _ _)) by lia.
    destruct (IH (emit (add_tx g n) (EvSent fd (take (Z.to_nat n) (drop (Z.to_nat sent) job))))
                (sent + n)) as (frags & Hrun & Hc); [lia..|].
    fold (send_loop ns (emit (add_tx g n) (EvSent fd (take (Z.to_nat n) (drop (Z.to_nat sent) job))))
            (TxSend fd job (sent + n))).
    rewrite Hrun. exists (take (Z.to_nat n) (drop (Z.to_nat sent) job) :: frags).
    simpl. split; [f_equal; [|f_equal; lia]|].
    + f_equal. by rewrite <-app_assoc.
    + rewrite Hc. replace (Z.to_nat (sent + n)) with (Z.to_nat sent + Z.to_nat n)%nat by lia.
      rewrite Z2Nat.inj_add, <-drop_drop by lia. by rewrite take_take_drop.
Qed.

(** C38. A job is sent completely and in order.  However [send] splits it into
    positive partial writes, the fragments written to the descriptor taken at
    the start of the job concatenate to exactly the job, after at most one call
    per byte, and the task goes back to its queue. *)
Theorem send_job_drained ns g fd job :
  Forall (fun n => 1 <= n) ns -> foldr Z.add 0 ns = zlen job ->
  exists frags,
    log (fst (send_loop ns g (TxSend fd job 0))) = log g ++ map (EvSent fd) frags /\
    concat frags = job /\ zlen ns <= zlen job /\
    snd (tcp_send_task ATx (snd (send_loop ns g (TxSend fd job 0)))
           (fst (send_loop ns g (TxSend fd job 0)))) = TxWait.
Proof.
  intros Hns Hsum. destruct (send_loop_spec ns g fd job 0 Hns) as (frags & -> & Hc); [lia..|].
  exists frags. split; [done|]. split; [|split].
  - rewrite Hc, Hsum. change (Z.to_nat 0) with 0%nat. by rewrite drop_0, Nat2Z.id, firstn_all.
  - rewrite <-Hsum. clear -Hns. induction Hns; simpl; lia.
  - cbn [fst snd tcp_send_task]. by rewrite Hsum, (proj2 (Z.ltb_ge _ _)) by lia.
Qed.

Lemma send_job_drained_witness :
  exists frags,
    log (fst (send_loop [2; 1] (sh tcp_mgr_init) (TxSend 5 [1; 2; 3] 0)))
    = log (sh tcp_mgr_init) ++ map (EvSent 5) frags /\
    concat frags = [1; 2; 3] /\ zlen [2; 1] <= zlen [1; 2; 3] /\
    snd (tcp_send_task ATx (snd (send_loop [2; 1] (sh tcp_mgr_init) (TxSend 5 [1; 2; 3] 0)))
           (fst (send_loop [2; 1] (sh tcp_mgr_init) (TxSend 5 [1; 2; 3] 0)))) = TxWait.
Proof. apply (send_job_drained [2; 1]); [by_compute|reflexivity]. Defined.

(** ** The connect path *)

Definition is_free (c : sock_call) : bool :=
  match c with FreeAddrInfo => true | _ => false end.
Definition is_close_of (fd : Z) (c : sock_call) : bool :=
  match c with CloseSock fd' => fd =? fd' | _ => false end.

(** C39. Resources of [tcp_mgr_connect].  On every answer of the resolver and
    the stack, a non-null address list is freed exactly once; on every failure
    after [socket] succeeded the socket is closed exactly once; and a returned
    socket is the one [socket] gave, is not closed, has the three keep-alive
    parameters set to 30 s / 5 s / 3, and has its original (blocking) flags
    restored by the last call. *)
Theorem connect_resources e r calls :
  connect_socket e = (r, calls) ->
  countb is_free calls = (if ce_res e then 1%nat else 0%nat) /\
  match r with
  | None =>
      countb (is_close_of (ce_sock e)) calls
      = (if bool_decide (Socket ∈ calls) && (0 <=? ce_sock e) then 1%nat else 0%nat)
  | Some s =>
      s = ce_sock e /\ 0 <= s /\ countb (is_close_of s) calls = 0%nat /\
      [SetSockOpt s SO_KEEPALIVE 1; SetSockOpt s TCP_KEEPIDLE 30;
       SetSockOpt s TCP_KEEPINTVL 5; SetSockOpt s TCP_KEEPCNT 3] ⊆ calls /\
      exists cs, calls = cs ++ [FcntlSetFl s (ce_flags e)]
  end.
Proof.
  unfold connect_socket, KA_IDLE_S, KA_INTVL_S, KA_CNT.
  destruct (ce_res e) eqn:Hres; destruct (ce_gai e =? 0); simpl;
    try (intros [= <- <-]; split; reflexivity).
  destruct (Z.ltb_spec (ce_sock e) 0).
  { intros [= <- <-]. split; [done|]. by rewrite (proj2 (Z.leb_gt _ _)). }
  assert (forall l, bool_decide (Socket ∈ GetAddrInfo :: Socket :: l) = true) as Hin
    by (intros l; apply bool_decide_eq_true; set_solver).
  destruct (ce_rc e =? 0), (ce_inprogress e), (ce_select e <=? 0),
    (ce_sock_err e =? 0); simpl; intros [= <- <-]; (split; [done|]);
    rewrite ?Hin, ?(proj2 (Z.leb_le _ _)) by done; simpl; rewrite ?Z.eqb_refl; try done;
    (split; [done|]; split; [done|]; split; [done|]; split; [set_solver|]);
    match goal with |- exists cs, ?l = _ => by exists (removelast l) end.
Qed.

Lemma connect_resources_witness :
  countb is_free (snd (connect_socket (env_ok 5))) = 1%nat /\
  exists cs, snd (connect_socket (env_ok 5)) = cs ++ [FcntlSetFl 5 2].
Proof.
  destruct (connect_resources (env_ok 5) (fst (connect_socket (env_ok 5)))
              (snd (connect_socket (env_ok 5))) eq_refl) as (H1 & _ & _ & _ & _ & H2).
  split; [exact H1|exact H2].
Defined.

(** ** Jobs and snapshots that outlive their connection *)

(** A queued job crosses connections.  There is an interleaving in which a
    job accepted while connection 5 was up is transmitted, complete, on
    connection 6: [close_relay] does not empty the queue, and the send task
    takes the descriptor current when it dequeues. *)
Theorem stale_job_crosses_connections :
  exists t, tcp_reachable t /\
    log (sh t)
    = [EvConnected 5; EvReturn 0; EvReturn 0 (* job accepted *);
       EvShutdown 5; EvClose 5 true; EvPush CMD_PROXY_CLOSED_PUSH [];
       EvConnected 6; EvReturn 0; EvSent 6 [1; 2; 3]].
Proof.
  exists (exec_all (do_connect 5 ++ do_send [1; 2; 3] ++ do_disconnect ++ do_connect 6 ++
                    [LTx ATx; LTx ATx; LTx (ASend 3)]) tcp_mgr_init).
  split; [by apply exec_reachable|]. vm_compute. reflexivity.
Qed.

(** An error on the old connection closes the new one.  There is an
    interleaving in which the only failed call is a [send] on the already
    closed descriptor 5, and the connection it tears down, with a
    notification to ctrl, is the healthy connection 6. *)
Theorem stale_error_closes_new_connection :
  exists t, tcp_reachable t /\ s_fd (sh t) = -1 /\
    log (sh t)
    = [EvConnected 5; EvReturn 0; EvReturn 0;
       EvShutdown 5; EvClose 5 true; EvPush CMD_PROXY_CLOSED_PUSH [];
       EvConnected 6; EvReturn 0;
       EvShutdown 6; EvClose 6 true; EvPush CMD_PROXY_CLOSED_PUSH []].
Proof.
  exists (exec_all (do_connect 5 ++ do_send [1; 2; 3] ++ [LTx ATx; LTx ATx] ++
                    do_disconnect ++ do_connect 6 ++
                    [LTx (ASend (-1)); LTx ATx; LTx ATx; LTx ATx; LTx ATx]) tcp_mgr_init).
  split; [by apply exec_reachable|]. vm_compute. split; reflexivity.
Qed.
