(* ===== verification/WifiMgr.v ===== *)
(** * Wi-Fi manager (src/main/wifi_mgr.c)

    The static variables, the event handlers, the reconnect timer and the
    public API.  Flash storage, the Wi-Fi driver and the network interface are
    not part of the repository: they are a [Platform], a state type with one
    function per call.  The [log] records the calls that matter, in order.

    Three tasks run this code without locks: the command task (the API), the
    event task and the timer task.  Each function is a [prog], whose actions are
    the single reads and writes of the static variables and the calls, and
    [move] interleaves the actions of the three tasks. *)

From S2P Require Import Prelude CMem CState.
Local Open Scope c_scope.

(** ** Constants *)

Definition WIFI_MGR_SSID_MAX : Z := 32.
Definition WIFI_MGR_PASS_MAX : Z := 64.
Definition WIFI_MGR_SCAN_MAX : Z := 20.
Definition WIFI_MGR_HOSTNAME_MAX : Z := 32.

Inductive nvs_key := NVS_KEY_SSID | NVS_KEY_PASS | NVS_KEY_HOSTNAME.
Definition WIFI_CONNECTED_BIT : Z := 1 <<< 0.
Definition WIFI_FAILED_BIT : Z := 1 <<< 1.
Definition WIFI_SCAN_DONE_BIT : Z := 1 <<< 2.

#[export] Instance nvs_key_eq_dec : EqDecision nvs_key.
Proof. solve_decision. Defined.

(** ** Data *)

Inductive wifi_mgr_state_t :=
  | WIFI_MGR_STATE_DISCONNECTED
  | WIFI_MGR_STATE_CONNECTING
  | WIFI_MGR_STATE_CONNECTED
  | WIFI_MGR_STATE_FAILED.

#[export] Instance wifi_mgr_state_eq_dec : EqDecision wifi_mgr_state_t.
Proof. solve_decision. Defined.

(** The value of the C enumerator. *)
Definition state_byte (s : wifi_mgr_state_t) : Z :=
  match s with
  | WIFI_MGR_STATE_DISCONNECTED => 0
  | WIFI_MGR_STATE_CONNECTING => 1
  | WIFI_MGR_STATE_CONNECTED => 2
  | WIFI_MGR_STATE_FAILED => 3
  end.

Record wifi_mgr_status_t := mk_status { state : wifi_mgr_state_t; ip : list Z; rssi : Z }.

(** Character arrays of [WIFI_MGR_SSID_MAX + 1] and [WIFI_MGR_PASS_MAX + 1] cells. *)
Record wifi_mgr_config_t := mk_config { ssid : list Z; password : list Z }.

Record wifi_mgr_ap_info_t := mk_ap { ap_ssid : list Z; ap_rssi : Z; ap_authmode : Z }.

Inductive authmode_t := WIFI_AUTH_OPEN | WIFI_AUTH_WPA2_PSK.

(** [wifi_config_t.sta], as far as it is written. *)
Record sta_config := mk_sta { sta_ssid : list Z; sta_password : list Z; sta_authmode : authmode_t }.

#[export] Instance authmode_eq_dec : EqDecision authmode_t.
Proof. solve_decision. Defined.
#[export] Instance sta_config_eq_dec : EqDecision sta_config.
Proof. solve_decision. Defined.

(** ** The platform *)

Inductive nvs_mode := NVS_READONLY | NVS_READWRITE.

(** Calls of [wifi_mgr_init] whose failure aborts. *)
Inductive init_call :=
  | EspNetifInit | EspEventLoopCreateDefault | EspWifiInit
  | RegisterWifiEvent | RegisterIpEvent | EspWifiSetMode | EspWifiStart
  | EspWifiSetMac (mac : list Z).

(** An access point as the driver reports it. *)
Record ap_record := mk_rec { rec_ssid : list Z; rec_rssi : Z; rec_authmode : Z }.

Class Platform (W : Type) := {
  sizeof_sta_ssid : nat;
  sizeof_sta_password : nat;
  sys_init : init_call -> W -> Z * W;
  timer_create : W -> bool * W;             (** [xTimerCreate] is not [NULL] *)
  timer_cmd : W -> bool * W;                (** [xTimerStart], [xTimerStop] *)
  esp_fill_random : nat -> W -> list Z * W;
  nvs_open : nvs_mode -> W -> Z * W;
  nvs_set_str : nvs_key -> list Z -> W -> Z * W;
  nvs_get_str : nvs_key -> Z -> W -> Z * list Z;   (** the bytes stored to [out] *)
  nvs_commit : W -> Z * W;
  nvs_close : W -> W;
  esp_wifi_set_config : sta_config -> W -> Z * W;
  esp_wifi_connect : W -> Z * W;
  esp_wifi_disconnect : W -> Z * W;
  esp_wifi_scan_start : W -> Z * W;
  esp_wifi_scan_stop : W -> Z * W;
  esp_wifi_scan_get_ap_records : Z -> W -> (Z * list ap_record) * W;
  esp_wifi_sta_get_ap_info : W -> Z * Z;    (** error code, [rssi] *)
  esp_netif_set_hostname : list Z -> W -> Z * W;
  malloc_ok : W -> bool * W;
}.

(** ** Static state *)

Inductive wifi_call :=
  | LNvsSet (k : nvs_key) (v : list Z)
  | LSetConfig (c : sta_config)
  | LConnect
  | LDisconnect
  | LSetHostname (h : list Z)
  | LGotIp (addr : Z)
  | LSaved (r : Z)                      (** returned by [wifi_mgr_set_config] *)
  | LStatus (st : wifi_mgr_status_t).   (** reported by [wifi_mgr_get_status] *)

Section Wifi.
Context {W : Type} `{Platform W}.

Record wifi := mk_wifi {
  s_wifi_eg : Z;
  s_state : wifi_mgr_state_t;
  s_ip : list Z;
  s_auto_reconnect : bool;
  s_reconnect_timer : option bool;   (** [NULL], or created and active or not *)
  dev : W;
  log : list wifi_call;
}.

Definition wifi_statics (w : W) : wifi :=
  mk_wifi 0 WIFI_MGR_STATE_DISCONNECTED [0; 0; 0; 0] false None w [].

Definition set_eg (f : Z -> Z) (s : wifi) : wifi :=
  mk_wifi (f (s_wifi_eg s)) (s_state s) (s_ip s) (s_auto_reconnect s) (s_reconnect_timer s) (dev s) (log s).
Definition set_state (x : wifi_mgr_state_t) (s : wifi) : wifi :=
  mk_wifi (s_wifi_eg s) x (s_ip s) (s_auto_reconnect s) (s_reconnect_timer s) (dev s) (log s).
Definition set_ip (x : list Z) (s : wifi) : wifi :=
  mk_wifi (s_wifi_eg s) (s_state s) x (s_auto_reconnect s) (s_reconnect_timer s) (dev s) (log s).
Definition set_auto (b : bool) (s : wifi) : wifi :=
  mk_wifi (s_wifi_eg s) (s_state s) (s_ip s) b (s_reconnect_timer s) (dev s) (log s).
Definition set_timer (t : option bool) (s : wifi) : wifi :=
  mk_wifi (s_wifi_eg s) (s_state s) (s_ip s) (s_auto_reconnect s) t (dev s) (log s).
Definition set_dev (w : W) (s : wifi) : wifi :=
  mk_wifi (s_wifi_eg s) (s_state s) (s_ip s) (s_auto_reconnect s) (s_reconnect_timer s) w (log s).
Definition add_log (c : wifi_call) (s : wifi) : wifi :=
  mk_wifi (s_wifi_eg s) (s_state s) (s_ip s) (s_auto_reconnect s) (s_reconnect_timer s) (dev s) (log s ++ [c]).

Abbreviation P := (prog wifi).

Definition drv {A} (f : W -> A * W) : P A := Act (zoom dev set_dev f).
Definition note (c : wifi_call) : P unit := pmodify (add_log c).

(** A call that is recorded. *)
Definition noted {A} (c : wifi_call) (f : W -> A * W) : P A := Act (modify (add_log c) ;; zoom dev set_dev f).

(** The address is four bytes, read and written one at a time. *)
Definition ip_byte (i : nat) : P Z := pgets (fun s => s_ip s !!! i).
Definition set_ip_byte (i : nat) (v : Z) : P unit := pmodify (fun s => set_ip (<[i := v]> (s_ip s)) s).

(** [memset(s_ip, 0, sizeof(s_ip))]. *)
Definition clear_ip : P unit :=
  set_ip_byte 0 0 ;; set_ip_byte 1 0 ;; set_ip_byte 2 0 ;; set_ip_byte 3 0.

Definition xEventGroupSetBits (b : Z) : P unit := pmodify (set_eg (fun x => x ||| b)).
Definition xEventGroupClearBits (b : Z) : P unit := pmodify (set_eg (fun x => Z.ldiff x b)).

(** [xTimerStart] and [xTimerStop] post a command, which may not fit. *)
Definition xTimerCmd (active : bool) : P unit :=
  Act (ok ← zoom dev set_dev timer_cmd;
       if (ok : bool) then modify (set_timer (Some active)) else mret tt).

(** ** Persistence *)

(** [nvs_get_str(nvs, k, dst, &len)] into an array. *)
Definition get_str (k : nvs_key) (dst : list Z) : P (Z * list Z) :=
  w ← pgets dev;
  let rb := nvs_get_str k (zlen dst) w in
  dst' ← plift (mem_write dst rb.2);
  mret (rb.1, dst').

Definition set_str (k : nvs_key) (v : list Z) : P Z := noted (LNvsSet k v) (nvs_set_str k v).

Definition close_nvs : P unit := pmodify (fun s => set_dev (nvs_close (dev s)) s).

Definition wifi_mgr_set_config (ssid password : option (list Z)) : P Z :=
  match ssid with
  | None => mret ESP_ERR_INVALID_ARG
  | Some ssid_p =>
      ssid ← plift (c_str ssid_p);
      if (zlen ssid =? 0) || (WIFI_MGR_SSID_MAX <? zlen ssid) then mret ESP_ERR_INVALID_ARG
      else
        pass ← plift (match password with None => Ret [] | Some p => c_str p end);
        if WIFI_MGR_PASS_MAX <? zlen pass then mret ESP_ERR_INVALID_ARG
        else
          r ← drv (nvs_open NVS_READWRITE);
          if negb (r =? ESP_OK) then mret r
          else
            r ← set_str NVS_KEY_SSID ssid;
            r ← (if r =? ESP_OK then set_str NVS_KEY_PASS pass else mret r);
            r ← (if r =? ESP_OK then drv nvs_commit else mret r);
            close_nvs ;;
            mret r
  end.

Definition wifi_mgr_get_config (out : wifi_mgr_config_t) : P (Z * wifi_mgr_config_t) :=
  r ← drv (nvs_open NVS_READONLY);
  if negb (r =? ESP_OK) then mret (r, out)
  else
    rs ← get_str NVS_KEY_SSID (ssid out);
    rp ← (if rs.1 =? ESP_OK then get_str NVS_KEY_PASS (password out)
          else mret (rs.1, password out));
    close_nvs ;;
    mret (rp.1, mk_config rs.2 rp.2).

Definition zero_config : wifi_mgr_config_t :=
  mk_config (replicate (Z.to_nat (WIFI_MGR_SSID_MAX + 1)) 0)
            (replicate (Z.to_nat (WIFI_MGR_PASS_MAX + 1)) 0).

(** The driver configuration made from stored credentials. *)
Definition sta_of_config (cfg : wifi_mgr_config_t) : outcome sta_config :=
  s ← strncpy (replicate sizeof_sta_ssid 0) (ssid cfg) (Z.of_nat sizeof_sta_ssid - 1);
  p ← strncpy (replicate sizeof_sta_password 0) (password cfg) (Z.of_nat sizeof_sta_password - 1);
  c ← (match password cfg with [] => Fault | c :: _ => Ret c end);
  Ret (mk_sta s p (if negb (c =? 0) then WIFI_AUTH_WPA2_PSK else WIFI_AUTH_OPEN)).

Definition driver_set_config (c : sta_config) : P Z :=
  noted (LSetConfig c) (esp_wifi_set_config c).
Definition driver_connect : P Z := noted LConnect esp_wifi_connect.

(** ** The reconnect timer: the guard, then the attempt *)

(** The guard reads the state again for its second test. *)
Definition reconnect_timer_check : P bool :=
  auto ← pgets s_auto_reconnect;
  if negb auto then mret false
  else
    st ← pgets s_state;
    if bool_decide (st = WIFI_MGR_STATE_CONNECTED) then mret false
    else st ← pgets s_state; mret (negb (bool_decide (st = WIFI_MGR_STATE_CONNECTING))).

Definition reconnect_timer_act : P unit :=
  rc ← wifi_mgr_get_config zero_config;
  if negb (rc.1 =? ESP_OK) then mret tt
  else
    wifi_cfg ← plift (sta_of_config rc.2);
    driver_set_config wifi_cfg ;;
    r ← driver_connect;
    if r =? ESP_OK then pmodify (set_state WIFI_MGR_STATE_CONNECTING) else mret tt.

Definition reconnect_timer_cb : P unit :=
  go ← reconnect_timer_check;
  if (go : bool) then reconnect_timer_act else mret tt.

(** ** Event handlers *)

Inductive wifi_event :=
  | WIFI_EVENT_STA_START
  | WIFI_EVENT_STA_CONNECTED
  | WIFI_EVENT_STA_DISCONNECTED
  | WIFI_EVENT_SCAN_DONE
  | WIFI_EVENT_OTHER.

Inductive ip_event :=
  | IP_EVENT_STA_GOT_IP (addr : Z)
  | IP_EVENT_STA_LOST_IP
  | IP_EVENT_OTHER.

Definition on_wifi_event (id : wifi_event) : P unit :=
  match id with
  | WIFI_EVENT_STA_START | WIFI_EVENT_OTHER => mret tt
  | WIFI_EVENT_STA_CONNECTED => pmodify (set_state WIFI_MGR_STATE_CONNECTING)
  | WIFI_EVENT_STA_DISCONNECTED =>
      clear_ip ;;
      pmodify (set_state WIFI_MGR_STATE_DISCONNECTED) ;;
      xEventGroupSetBits WIFI_FAILED_BIT ;;
      auto ← pgets s_auto_reconnect;
      t ← pgets s_reconnect_timer;
      if (auto : bool) && bool_decide (t <> None) then xTimerCmd true else mret tt
  | WIFI_EVENT_SCAN_DONE => xEventGroupSetBits WIFI_SCAN_DONE_BIT
  end.

Definition ip_bytes (ip : Z) : list Z :=
  [(ip >>> 0) &&& 0xFF; (ip >>> 8) &&& 0xFF; (ip >>> 16) &&& 0xFF; (ip >>> 24) &&& 0xFF].

Definition on_ip_event (id : ip_event) : P unit :=
  match id with
  | IP_EVENT_STA_GOT_IP addr =>
      note (LGotIp addr) ;;
      set_ip_byte 0 ((addr >>> 0) &&& 0xFF) ;;
      set_ip_byte 1 ((addr >>> 8) &&& 0xFF) ;;
      set_ip_byte 2 ((addr >>> 16) &&& 0xFF) ;;
      set_ip_byte 3 ((addr >>> 24) &&& 0xFF) ;;
      pmodify (set_state WIFI_MGR_STATE_CONNECTED) ;;
      xEventGroupSetBits WIFI_CONNECTED_BIT
  | IP_EVENT_STA_LOST_IP =>
      clear_ip ;;
      pmodify (set_state WIFI_MGR_STATE_DISCONNECTED)
  | IP_EVENT_OTHER => mret tt
  end.

Definition on_event (e : wifi_event + ip_event) : P unit :=
  match e with inl e => on_wifi_event e | inr e => on_ip_event e end.

(** ** Connection *)

Definition wifi_mgr_connect : P Z :=
  rc ← wifi_mgr_get_config zero_config;
  if negb (rc.1 =? ESP_OK) then mret ESP_ERR_NOT_FOUND
  else
    wifi_cfg ← plift (sta_of_config rc.2);
    xEventGroupClearBits (WIFI_CONNECTED_BIT ||| WIFI_FAILED_BIT) ;;
    pmodify (set_state WIFI_MGR_STATE_CONNECTING) ;;
    pmodify (set_auto true) ;;
    PROG_ERROR_CHECK (driver_set_config wifi_cfg) ;;
    r ← driver_connect;
    (if negb (r =? ESP_OK) then pmodify (set_state WIFI_MGR_STATE_FAILED) else mret tt) ;;
    mret r.

Definition wifi_mgr_disconnect : P Z :=
  pmodify (set_auto false) ;;
  t ← pgets s_reconnect_timer;
  (if bool_decide (t <> None) then xTimerCmd false else mret tt) ;;
  r ← noted LDisconnect esp_wifi_disconnect;
  (if r =? ESP_OK
   then pmodify (set_state WIFI_MGR_STATE_DISCONNECTED) ;; clear_ip
   else mret tt) ;;
  mret r.

(** The state is read twice, and the address in between. *)
Definition wifi_mgr_get_status : P wifi_mgr_status_t :=
  st ← pgets s_state;
  b0 ← ip_byte 0;
  b1 ← ip_byte 1;
  b2 ← ip_byte 2;
  b3 ← ip_byte 3;
  st2 ← pgets s_state;
  if bool_decide (st2 = WIFI_MGR_STATE_CONNECTED) then
    w ← pgets dev;
    let rv := esp_wifi_sta_get_ap_info w in
    mret (mk_status st [b0; b1; b2; b3] (if rv.1 =? ESP_OK then rv.2 else 0))
  else mret (mk_status st [b0; b1; b2; b3] 0).

(** ** Hostname *)

Definition set_hostname (h : list Z) : P Z :=
  noted (LSetHostname h) (esp_netif_set_hostname h).

Definition wifi_mgr_set_hostname (hostname : option (list Z)) : P Z :=
  match hostname with
  | None => mret ESP_ERR_INVALID_ARG
  | Some p =>
      h ← plift (c_str p);
      if (zlen h =? 0) || (WIFI_MGR_HOSTNAME_MAX <? zlen h) then mret ESP_ERR_INVALID_ARG
      else
        r ← drv (nvs_open NVS_READWRITE);
        if negb (r =? ESP_OK) then mret r
        else
          r ← set_str NVS_KEY_HOSTNAME h;
          r ← (if r =? ESP_OK then drv nvs_commit else mret r);
          close_nvs ;;
          if negb (r =? ESP_OK) then mret r else set_hostname h
  end.

Definition wifi_mgr_get_hostname (out : list Z) : P (Z * list Z) :=
  r ← drv (nvs_open NVS_READONLY);
  if negb (r =? ESP_OK) then mret (r, out)
  else
    ro ← get_str NVS_KEY_HOSTNAME out;
    close_nvs ;;
    mret ro.

(** ** Scan *)

(** The copy loop over the driver's records. *)
Fixpoint scan_loop (n i : nat) (records : list ap_record) (ap_list : list wifi_mgr_ap_info_t)
    : outcome (list wifi_mgr_ap_info_t) :=
  match n with
  | O => Ret ap_list
  | S n' =>
      match records !! i, ap_list !! i with
      | Some r, Some a =>
          s ← strncpy (ap_ssid a) (rec_ssid r) WIFI_MGR_SSID_MAX;
          scan_loop n' (S i) records
            (<[i := mk_ap (<[Z.to_nat WIFI_MGR_SSID_MAX := 0]> s) (rec_rssi r)
                          (u8 (rec_authmode r))]> ap_list)
      | _, _ => Fault
      end
  end.

(** [xEventGroupWaitBits], when it returns: the bits before it cleared the one
    waited for. *)
Definition xEventGroupWaitBits (b : Z) : P Z :=
  Act (bits ← gets s_wifi_eg;
       (if negb (bits &&& b =? 0) then modify (set_eg (fun x => Z.ldiff x b)) else mret tt) ;;
       mret bits).

(** [waiting]: events handled while the caller waits for the scan, when it is
    run to its end; the event task of an interleaving does the same. *)
Definition wifi_mgr_scan (waiting : list (wifi_event + ip_event)) (ap_list : list wifi_mgr_ap_info_t)
    (max_count : Z) : P (Z * list wifi_mgr_ap_info_t) :=
  xEventGroupClearBits WIFI_SCAN_DONE_BIT ;;
  r ← drv esp_wifi_scan_start;
  if negb (r =? ESP_OK) then mret (-1, ap_list)
  else
    foldr (fun e m => on_event e ;; m) (mret tt) waiting ;;
    bits ← xEventGroupWaitBits WIFI_SCAN_DONE_BIT;
    if bits &&& WIFI_SCAN_DONE_BIT =? 0 then
      drv esp_wifi_scan_stop ;; mret (-1, ap_list)
    else
      ok ← drv malloc_ok;
      if negb ok then mret (-1, ap_list)
      else
        rr ← drv (esp_wifi_scan_get_ap_records (u16 max_count));
        if negb (rr.1 =? ESP_OK) then mret (-1, ap_list)
        else
          l ← plift (scan_loop (length rr.2) 0 rr.2 ap_list);
          mret (zlen rr.2, l).

(** ** [wifi_mgr_init] *)

Definition init_check (c : init_call) : P unit := PROG_ERROR_CHECK (drv (sys_init c)).

Definition wifi_mgr_init : P Z :=
  pmodify (set_eg (fun _ => 0)) ;;
  t ← drv timer_create;
  pmodify (set_timer (if (t : bool) then Some false else None)) ;;
  (if (t : bool) then mret tt else pabort) ;;
  init_check EspNetifInit ;;
  init_check EspEventLoopCreateDefault ;;
  init_check EspWifiInit ;;
  init_check RegisterWifiEvent ;;
  init_check RegisterIpEvent ;;
  init_check EspWifiSetMode ;;
  rh ← wifi_mgr_get_hostname (replicate (Z.to_nat (WIFI_MGR_HOSTNAME_MAX + 1)) 0);
  (if rh.1 =? ESP_OK
   then h ← plift (c_str rh.2); set_hostname h ;; mret tt
   else mret tt) ;;
  mac ← drv (esp_fill_random 6);
  mac ← plift (match mac with
              | m0 :: m => Ret (((m0 &&& 0xFE) ||| 0x02) :: m) | [] => Fault end);
  init_check (EspWifiSetMac mac) ;;
  init_check EspWifiStart ;;
  saved ← wifi_mgr_get_config zero_config;
  (if saved.1 =? ESP_OK then wifi_mgr_connect ;; mret tt else mret tt) ;;
  mret ESP_OK.

(** ** Interleavings *)

Inductive wifi_op :=
  | OpInit | OpConnect | OpDisconnect
  | OpSetConfig (s p : option (list Z))
  | OpSetHostname (h : option (list Z))
  | OpGetConfig | OpGetHostname (out : list Z) | OpGetStatus
  | OpScan (ap_list : list wifi_mgr_ap_info_t).

Definition void {A} (p : P A) : P unit := p ;; mret tt.

Definition api (op : wifi_op) : P unit :=
  match op with
  | OpInit => void wifi_mgr_init
  | OpConnect => void wifi_mgr_connect
  | OpDisconnect => void wifi_mgr_disconnect
  | OpSetConfig s p => r ← wifi_mgr_set_config s p; note (LSaved r)
  | OpSetHostname h => void (wifi_mgr_set_hostname h)
  | OpGetConfig => void (wifi_mgr_get_config zero_config)
  | OpGetHostname out => void (wifi_mgr_get_hostname out)
  | OpGetStatus => st ← wifi_mgr_get_status; note (LStatus st)
  | OpScan l => void (wifi_mgr_scan [] l WIFI_MGR_SCAN_MAX)
  end.

(** What is left of the function each task is in; the command task also has
    the call it is in. *)
Record tasks := mk_tasks {
  cmd_task : option (wifi_op * P unit);
  event_task : option (P unit);
  timer_task : option (P unit);
}.

Definition idle : tasks := mk_tasks None None None.

(** A task that is idle starts a function, or one that is not makes its next
    action. *)
Inductive move :=
  | Call (op : wifi_op) | Event (e : wifi_event + ip_event) | Fire
  | StepCmd | StepEvent | StepTimer.

Definition advance (p : P unit) (s : wifi) : option (option (P unit) * wifi) :=
  match pstep p s with
  | Done (inl _) s' => Some (None, s')
  | Done (inr p') s' => Some (Some p', s')
  | _ => None
  end.

Definition make_move (m : move) (x : wifi * tasks) : option (wifi * tasks) :=
  let s := x.1 in
  match m, x.2 with
  | Call op, mk_tasks None e c => Some (s, mk_tasks (Some (op, api op)) e c)
  | Event ev, mk_tasks a None c => Some (s, mk_tasks a (Some (on_event ev)) c)
  | Fire, mk_tasks a e None => Some (s, mk_tasks a e (Some reconnect_timer_cb))
  | StepCmd, mk_tasks (Some (op, p)) e c =>
      match advance p s with
      | Some (Some p', s') => Some (s', mk_tasks (Some (op, p')) e c)
      | Some (None, s') => Some (s', mk_tasks None e c)
      | None => None
      end
  | StepEvent, mk_tasks a (Some p) c =>
      match advance p s with Some (p', s') => Some (s', mk_tasks a p' c) | None => None end
  | StepTimer, mk_tasks a e (Some p) =>
      match advance p s with Some (p', s') => Some (s', mk_tasks a e p') | None => None end
  | _, _ => None
  end.

(** [None]: a move was not possible, or an action did not return. *)
Fixpoint make_moves (ms : list move) (x : wifi * tasks) : option (wifi * tasks) :=
  match ms with
  | [] => Some x
  | m :: ms => match make_move m x with Some y => make_moves ms y | None => None end
  end.
End Wifi.
Arguments wifi : clear implicits.
Arguments tasks : clear implicits.
