(* ===== verification/WifiFacts.v ===== *)
(** * What the Wi-Fi manager guarantees

    What every action of the three tasks respects; the moves of an interleaving;
    storing and loading the credentials. *)

From S2P Require Import Prelude CMem CState WifiMgr.

(** ** Flash storage

    The documented behaviour of NVS, as the code relies on it: [stored] is the
    content of the name space, a string once written is read back, and no
    other call changes it. *)

Definition frame {W A} (view : W -> nvs_key -> option (list Z)) (f : W -> A * W) : Prop :=
  forall w k, view (f w).2 k = view w k.

Class NvsLaws (W : Type) `{Platform W} := {
  stored : W -> nvs_key -> option (list Z);
  law_open m : frame stored (nvs_open m);
  law_open_ro w k s : stored w k = Some s -> (nvs_open NVS_READONLY w).1 = ESP_OK;
  law_set w k v :
    str_ok v -> (nvs_set_str k v w).1 = ESP_OK ->
    forall k', stored (nvs_set_str k v w).2 k' = if decide (k' = k) then Some v else stored w k';
  law_set_fail w k v k' : k' <> k -> stored (nvs_set_str k v w).2 k' = stored w k';
  law_get w k s cap :
    stored w k = Some s -> zlen s < cap -> nvs_get_str k cap w = (ESP_OK, s ++ [0]);
  law_get_ok w k cap bytes :
    nvs_get_str k cap w = (ESP_OK, bytes) ->
    exists s, str_ok s /\ bytes_ok s /\ bytes = s ++ [0] /\ zlen bytes <= cap;
  law_get_bound w k cap : 0 <= cap -> zlen (nvs_get_str k cap w).2 <= cap;
  law_init c : frame stored (sys_init c);
  law_timer_create : frame stored timer_create;
  law_random n : frame stored (esp_fill_random n);
  law_random_length n w : length (esp_fill_random n w).1 = n;
  law_commit : frame stored nvs_commit;
  law_close w k : stored (nvs_close w) k = stored w k;
  law_timer : frame stored timer_cmd;
  law_set_config c : frame stored (esp_wifi_set_config c);
  law_connect : frame stored esp_wifi_connect;
  law_disconnect : frame stored esp_wifi_disconnect;
  law_scan_start : frame stored esp_wifi_scan_start;
  law_scan_stop : frame stored esp_wifi_scan_stop;
  law_scan_records n : frame stored (esp_wifi_scan_get_ap_records n);
  law_netif h : frame stored (esp_netif_set_hostname h);
  law_malloc : frame stored malloc_ok;
}.

(** An in-memory flash and a driver that accepts or rejects a configuration
    and then accepts every request; it satisfies the laws. *)
Record board := mk_board {
  b_ssid : option (list Z); b_pass : option (list Z); b_host : option (list Z);
  b_records : list ap_record
}.
Definition b_get (b : board) (k : nvs_key) : option (list Z) :=
  match k with NVS_KEY_SSID => b_ssid b | NVS_KEY_PASS => b_pass b | NVS_KEY_HOSTNAME => b_host b end.
Definition b_set (k : nvs_key) (v : list Z) (b : board) : board :=
  match k with
  | NVS_KEY_SSID => mk_board (Some v) (b_pass b) (b_host b) (b_records b)
  | NVS_KEY_PASS => mk_board (b_ssid b) (Some v) (b_host b) (b_records b)
  | NVS_KEY_HOSTNAME => mk_board (b_ssid b) (b_pass b) (Some v) (b_records b)
  end.

Definition board_ops (accepts : bool) : Platform board := {|
  sizeof_sta_ssid := 32; sizeof_sta_password := 64;
  sys_init := fun _ w => (0, w);
  timer_create := fun w => (true, w);
  timer_cmd := fun w => (true, w);
  esp_fill_random := fun n w => (replicate n 0xFF, w);
  nvs_open := fun _ w => (0, w);
  nvs_set_str := fun k v w => if bool_decide (bytes_ok v) then (0, b_set k v w) else (0x1101, w);
  nvs_get_str := fun k cap w =>
    match b_get w k with
    | None => (0x1102, [])
    | Some s => if (zlen s <? cap) && bool_decide (str_ok s /\ bytes_ok s)
                then (0, s ++ [0]) else (0x110c, [])
    end;
  nvs_commit := fun w => (0, w);
  nvs_close := fun w => w;
  esp_wifi_set_config := fun _ w => (if accepts then 0 else 0x300b, w);
  esp_wifi_connect := fun w => (0, w);
  esp_wifi_disconnect := fun w => (0, w);
  esp_wifi_scan_start := fun w => (0, w);
  esp_wifi_scan_stop := fun w => (0, w);
  esp_wifi_scan_get_ap_records := fun n w => 
    ((0, take (Z.to_nat n) (filter (fun x => (32 <= length (rec_ssid x))%nat /\ bytes_ok (rec_ssid x)) (b_records w))), w);
  esp_wifi_sta_get_ap_info := fun w => (0, -50);
  esp_netif_set_hostname := fun _ w => (0, w);
  malloc_ok := fun w => (true, w);
|}.
#[export] Instance board_platform : Platform board := board_ops true.

Definition b_stored (b : board) (k : nvs_key) : option (list Z) :=
  s ← b_get b k; if bool_decide (str_ok s /\ bytes_ok s) then Some s else None.

Definition board_ops_laws accepts : @NvsLaws board (board_ops accepts).
Proof.
  refine {| stored := b_stored |}; try done.
  - intros w k v Hv. simpl. case_bool_decide as Hb; [|done]. intros _ k'. unfold b_stored.
    destruct k, k'; simpl; try done; by rewrite bool_decide_eq_true_2.
  - intros w k v k' Hk. simpl. case_bool_decide; [|done]. unfold b_stored. by destruct k, k'.
  - intros w k s cap Hs Hl. unfold b_stored in Hs. simpl. destruct (b_get w k) as [s'|]; [|done].
    simpl in Hs. case_bool_decide as Hok; [|done]. injection Hs as ->.
    by rewrite (proj2 (Z.ltb_lt _ _) Hl).
  - intros w k cap bytes. simpl. destruct (b_get w k) as [s|]; [|done].
    destruct (Z.ltb_spec (zlen s) cap); simpl; [|done]. case_bool_decide as Hok; [|done].
    destruct Hok as [H1 H2]. intros [= <-]. exists s. rewrite length_app. simpl. split_and!; [done..|lia].
  - intros w k cap Hc. simpl. destruct (b_get w k) as [s|]; [|done].
    destruct (Z.ltb_spec (zlen s) cap); simpl; [|lia]. case_bool_decide; simpl; [|lia].
    rewrite length_app. simpl. lia.
  - intros n w. simpl. apply length_replicate.
Defined.
#[export] Instance board_laws : NvsLaws board := board_ops_laws true.

(** Unfolds the bodies of the operations down to their primitives. *)
Ltac wifi_ops :=
  unfold api, void, wifi_mgr_init, init_check, wifi_mgr_connect, wifi_mgr_disconnect, wifi_mgr_set_config,
    wifi_mgr_set_hostname, wifi_mgr_get_hostname, wifi_mgr_get_status, wifi_mgr_scan, xEventGroupWaitBits,
    reconnect_timer_cb, reconnect_timer_act, wifi_mgr_get_config, set_hostname, set_str, get_str, close_nvs,
    driver_set_config, driver_connect, reconnect_timer_check, on_event, on_wifi_event, on_ip_event,
    clear_ip, set_ip_byte, ip_byte, noted, note, drv,
    xTimerCmd, xEventGroupSetBits, xEventGroupClearBits in *.
Ltac wifi_cases :=
  repeat match goal with
    | |- pkeeps _ (match ?o with None => _ | Some _ => _ end) => destruct o
    | |- pkeeps _ (let '(_, _) := ?p in _) => destruct p
    | |- keeps _ (modify _ ;; _) => apply keeps_bind
    end.
Ltac wifi_steps := wifi_ops; wifi_cases; cbn [foldr]; cbv zeta; repeat (keeps_step; wifi_cases).

Section Facts.
Context {W : Type} `{HP : !Platform W}.
Local Abbreviation wifi := (wifi W).
Implicit Types s : wifi.

(** ** Relations that actions respect *)

(** The connection attempts in a log. *)
Definition is_connect (c : wifi_call) : bool := match c with LConnect => true | _ => false end.
Definition connects (l : list wifi_call) : nat := length (List.filter is_connect l).

Lemma connects_app l1 l2 : connects (l1 ++ l2) = (connects l1 + connects l2)%nat.
Proof. unfold connects. by rewrite List.filter_app, length_app. Qed.

(** At most [n] attempts are added to the log. *)
Definition attempts (n : nat) s s' : Prop := exists l, log s' = log s ++ l /\ (connects l <= n)%nat.

Lemma attempts_same n s s' : log s' = log s -> attempts n s s'.
Proof. intros H. exists []. rewrite app_nil_r. split; [done|unfold connects; simpl; lia]. Qed.

Lemma attempts_one n c s s' : log s' = log s ++ [c] -> (connects [c] <= n)%nat -> attempts n s s'.
Proof. intros H Hc. by exists [c]. Qed.

Lemma attempts_trans n1 n2 s1 s2 s3 : attempts n1 s1 s2 -> attempts n2 s2 s3 -> attempts (n1 + n2) s1 s3.
Proof.
  intros (l1 & E1 & H1) (l2 & E2 & H2). exists (l1 ++ l2). rewrite E2, E1, app_assoc, connects_app.
  split; [done|lia].
Qed.

(** Reconnection stays off. *)
Definition stays_off s s' : Prop := s_auto_reconnect s = false -> s_auto_reconnect s' = false.

#[export] Instance stays_off_preorder : PreOrder stays_off.
Proof. unfold stays_off. split; [by intros s|]. intros s1 s2 s3. auto. Qed.

Lemma off_zoom {A} (f : W -> A * W) : keeps stays_off (zoom dev set_dev f).
Proof. apply keeps_zoom. by intros s Hs. Qed.

Lemma off_modify (f : wifi -> wifi) :
  (forall s, s_auto_reconnect (f s) = s_auto_reconnect s \/ s_auto_reconnect (f s) = false) ->
  keeps stays_off (modify f).
Proof. intros H. apply keeps_modify. intros s Hs. destruct (H s); congruence. Qed.

(** If reconnection is off it stays off, and no attempt is added. *)
Definition quiet s s' : Prop :=
  s_auto_reconnect s = false -> s_auto_reconnect s' = false /\ attempts 0 s s'.

#[export] Instance quiet_preorder : PreOrder quiet.
Proof.
  split; [intros s Hs; split; [done|by apply attempts_same]|]. intros s1 s2 s3 H1 H2 Hs.
  destruct (H1 Hs) as [Ha H]. destruct (H2 Ha) as [Ha' H']. split; [done|]. by apply (attempts_trans 0 0 _ s2).
Qed.

Lemma quiet_same s s' :
  s_auto_reconnect s' = s_auto_reconnect s \/ s_auto_reconnect s' = false ->
  log s' = log s -> quiet s s'.
Proof. intros Ha Hl Hs. split; [destruct Ha; congruence|by apply attempts_same]. Qed.

Lemma quiet_zoom {A} (f : W -> A * W) : keeps quiet (zoom dev set_dev f).
Proof. apply keeps_zoom. intros s. by apply quiet_same; [left|]. Qed.

Lemma quiet_log c : is_connect c = false -> keeps quiet (modify (add_log c)).
Proof.
  intros Hc. apply keeps_modify. intros s Hs. split; [done|]. apply (attempts_one 0 c); [done|].
  unfold connects. simpl. by rewrite Hc.
Qed.

Lemma quiet_modify (f : wifi -> wifi) :
  (forall s, (s_auto_reconnect (f s) = s_auto_reconnect s \/ s_auto_reconnect (f s) = false)
             /\ log (f s) = log s) ->
  keeps quiet (modify f).
Proof. intros H. apply keeps_modify. intros s. by apply quiet_same; apply H. Qed.

(** What is stored under the two credential keys is not changed. *)
Definition same_config `{!NvsLaws W} s s' : Prop :=
  forall k, k <> NVS_KEY_HOSTNAME -> stored (dev s') k = stored (dev s) k.

#[export] Instance same_config_preorder `{!NvsLaws W} : PreOrder same_config.
Proof. split; [by intros s k|]. intros s1 s2 s3 H1 H2 k Hk. by rewrite H2, H1. Qed.

Lemma same_zoom `{!NvsLaws W} {A} (f : W -> A * W) : frame stored f -> keeps same_config (zoom dev set_dev f).
Proof. intros Hf. apply keeps_zoom. intros s k Hk. apply Hf. Qed.

Lemma same_modify `{!NvsLaws W} (f : wifi -> wifi) :
  (forall s, dev (f s) = dev s) -> keeps same_config (modify f).
Proof. intros Hf. apply keeps_modify. intros s k Hk. by rewrite Hf. Qed.

Lemma same_close `{!NvsLaws W} : keeps same_config (modify (fun s => set_dev (nvs_close (dev s)) s)).
Proof. apply keeps_modify. intros s k _. apply law_close. Qed.

Lemma same_hostname `{!NvsLaws W} v : keeps same_config (zoom dev set_dev (nvs_set_str NVS_KEY_HOSTNAME v)).
Proof. apply keeps_zoom. intros s k Hk. by apply law_set_fail. Qed.

Hint Resolve off_zoom quiet_zoom same_zoom same_close same_hostname : keeps.
Hint Extern 1 (keeps stays_off (modify _)) => apply off_modify; intros ?; simpl; auto : keeps.
Hint Extern 1 (keeps quiet (modify (add_log _))) => apply quiet_log; reflexivity : keeps.
Hint Extern 2 (keeps quiet (modify _)) => apply quiet_modify; intros ?; simpl; auto : keeps.
Hint Extern 1 (keeps same_config (modify _)) => apply same_modify; reflexivity : keeps.
Hint Resolve law_open law_commit law_timer law_set_config law_connect law_disconnect law_init law_timer_create
  law_random law_scan_start law_scan_stop law_scan_records law_netif law_malloc : keeps.

(** *** Every operation *)

Ltac event_cases e := destruct e as [[]|[]]; wifi_steps.

Lemma quiet_event e : pkeeps quiet (on_event e).
Proof. event_cases e. Qed.
Lemma off_event e : pkeeps stays_off (on_event e).
Proof. event_cases e. Qed.
Lemma same_event `{!NvsLaws W} e : pkeeps same_config (on_event e).
Proof. event_cases e. Qed.

Lemma off_timer : pkeeps stays_off reconnect_timer_cb.
Proof. wifi_steps. Qed.
Lemma same_timer `{!NvsLaws W} : pkeeps same_config reconnect_timer_cb.
Proof. wifi_steps. Qed.

(** The calls that switch reconnection on. *)
Definition connecting (op : wifi_op) : bool := match op with OpInit | OpConnect => true | _ => false end.

Lemma quiet_api op : connecting op = false -> pkeeps quiet (api op).
Proof. destruct op; intros H; try discriminate H; wifi_steps. Qed.

Lemma same_api `{!NvsLaws W} op : (forall id p, op <> OpSetConfig id p) -> pkeeps same_config (api op).
Proof. intros H. destruct op; try (by edestruct H); wifi_steps. Qed.

(** ** Moves *)

(** One move, with what it did. *)
Inductive moved : move -> wifi * tasks W -> wifi * tasks W -> Prop :=
  | moved_call op s e c : moved (Call op) (s, mk_tasks None e c) (s, mk_tasks (Some (op, api op)) e c)
  | moved_event ev s a c : moved (Event ev) (s, mk_tasks a None c) (s, mk_tasks a (Some (on_event ev)) c)
  | moved_fire s a e : moved Fire (s, mk_tasks a e None) (s, mk_tasks a e (Some reconnect_timer_cb))
  | moved_cmd op p r s s' e c : pstep p s = Done r s' ->
      moved StepCmd (s, mk_tasks (Some (op, p)) e c)
        (s', mk_tasks (match r with inl _ => None | inr p' => Some (op, p') end) e c)
  | moved_ev p r s s' a c : pstep p s = Done r s' ->
      moved StepEvent (s, mk_tasks a (Some p) c)
        (s', mk_tasks a (match r with inl _ => None | inr p' => Some p' end) c)
  | moved_timer p r s s' a e : pstep p s = Done r s' ->
      moved StepTimer (s, mk_tasks a e (Some p))
        (s', mk_tasks a e (match r with inl _ => None | inr p' => Some p' end)).

Lemma make_move_moved m x y : make_move m x = Some y -> moved m x y.
Proof.
  destruct m, x as [s [ta te tc]]; simpl; unfold advance; repeat case_match; intros Hy; simplify_eq;
    try (by constructor).
  all: match goal with H : pstep ?p _ = Done ?r _ |- _ =>
    first [by apply (moved_cmd _ p r)|by apply (moved_ev p r)|by apply (moved_timer p r)] end.
Qed.

(** A property of configurations that moves keep, if they are allowed. *)
Lemma moves_keep (I : wifi * tasks W -> Prop) (ok : move -> Prop) ms x y :
  (forall m x y, ok m -> moved m x y -> I x -> I y) ->
  make_moves ms x = Some y -> Forall ok ms -> I x -> I y.
Proof.
  intros HI. revert x. induction ms as [|m ms IH]; intros x; simpl; [by intros [= ->]|].
  destruct (make_move m x) as [z|] eqn:E; [|done]. intros Hy [Hm Hms]%Forall_cons_1 Hx.
  apply (IH z); [done..|]. apply (HI m x); [done|by apply make_move_moved|done].
Qed.

(** What holds of the function a task is in, if it is in one. *)
Definition rest (Q : prog wifi unit -> Prop) (o : option (prog wifi unit)) : Prop :=
  match o with None => True | Some p => Q p end.
Definition rest_cmd (Q : wifi_op -> prog wifi unit -> Prop) (o : option (wifi_op * prog wifi unit)) : Prop :=
  match o with None => True | Some (op, p) => Q op p end.

(** Tasks whose actions, while the others make transitions of [R], are
    transitions of [R]. *)
Record working (R : wifi -> wifi -> Prop) (s : wifi) (t : tasks W) : Prop := {
  wk_cmd : rest_cmd (fun _ p => rg R R p (fun _ _ => True) s) (cmd_task t);
  wk_event : rest (fun p => rg R R p (fun _ _ => True) s) (event_task t);
  wk_timer : rest (fun p => rg R R p (fun _ _ => True) s) (timer_task t);
}.

Section Working.
Context (R : wifi -> wifi -> Prop) `{!PreOrder R} (I : wifi -> Prop) (ok : move -> Prop).
Context (HI : forall s s', R s s' -> I s -> I s').
Context (Hcall : forall op s, ok (Call op) -> I s -> rg R R (api op) (fun _ _ => True) s).
Context (Hevent : forall e s, I s -> rg R R (on_event e) (fun _ _ => True) s).
Context (Htimer : forall s, I s -> rg R R reconnect_timer_cb (fun _ _ => True) s).

Lemma rest_stable s s' o : R s s' -> rest (fun p => rg R R p (fun _ _ => True) s) o ->
  rest (fun p => rg R R p (fun _ _ => True) s') o.
Proof using PreOrder0. destruct o; [|done]. intros H. by apply rg_stable; [apply _|]. Qed.

Lemma rest_cmd_stable s s' o : R s s' -> rest_cmd (fun _ p => rg R R p (fun _ _ => True) s) o ->
  rest_cmd (fun _ p => rg R R p (fun _ _ => True) s') o.
Proof using PreOrder0. destruct o as [[]|]; [|done]. intros H. by apply rg_stable; [apply _|]. Qed.

Lemma move_works m x y :
  ok m -> moved m x y -> I x.1 -> working R x.1 x.2 -> R x.1 y.1 /\ I y.1 /\ working R y.1 y.2.
Proof using All.
  intros Hok Hm. destruct Hm; intros Hx [H1 H2 H3]; cbn [fst snd cmd_task event_task timer_task rest rest_cmd] in *.
  1-3: split; [reflexivity|]; split; [done|]; split; cbn [cmd_task event_task timer_task rest rest_cmd]; auto.
  all: match goal with H : pstep _ _ = Done ?r _, Hp : rg R R _ _ _ |- _ =>
    destruct (rg_step R R _ _ _ _ _ Hp H) as [HR Hr] end.
  all: split; [done|]; split; [by eapply HI|]; split; cbn [cmd_task event_task timer_task];
    first [by eapply rest_stable|by eapply rest_cmd_stable|by destruct r].
Qed.

Lemma moves_work ms x y :
  make_moves ms x = Some y -> Forall ok ms -> I x.1 -> working R x.1 x.2 ->
  R x.1 y.1 /\ I y.1 /\ working R y.1 y.2.
Proof using All.
  intros Hm Hok Hx Hw.
  apply (moves_keep (fun y => R x.1 y.1 /\ I y.1 /\ working R y.1 y.2) ok ms x y); [|done..|by split].
  intros m y1 y2 H1 H2 (HR & Hi & Hw1). destruct (move_works m y1 y2) as (? & ? & ?); [done..|].
  split; [by transitivity y1.1|done].
Qed.
End Working.

(** ** Storing and loading credentials *)

Ltac run_simpl := unfold drv, note, noted, close_nvs; CState.run_simpl; cbn [run]; CState.run_simpl.

Lemma set_str_run k v s :
  run (set_str k v) s = Done (nvs_set_str k v (dev s)).1
                       (set_dev (nvs_set_str k v (dev s)).2 (add_log (LNvsSet k v) s)).
Proof. unfold set_str. run_simpl. by destruct (nvs_set_str k v (dev s)). Qed.

(** The arguments are checked before anything is opened. *)
Lemma set_config_invalid id pw r1 r2 s :
  str_ok id -> str_ok pw ->
  ~ (1 <= zlen id <= WIFI_MGR_SSID_MAX /\ zlen pw <= WIFI_MGR_PASS_MAX) ->
  run (wifi_mgr_set_config (Some (id ++ 0 :: r1)) (Some (pw ++ 0 :: r2))) s
  = Done ESP_ERR_INVALID_ARG s.
Proof.
  intros Hid Hpw Hbad. unfold wifi_mgr_set_config. rewrite run_bind. cbn [run]. unfold lift. rewrite c_str_app by done.
  destruct (Z.eqb_spec (zlen id) 0); [done|].
  destruct (Z.ltb_spec WIFI_MGR_SSID_MAX (zlen id)); [done|]. cbn [orb].
  rewrite run_bind. cbn [run]. unfold lift. rewrite c_str_app by done.
  destruct (Z.ltb_spec WIFI_MGR_PASS_MAX (zlen pw)); [done|]. destruct Hbad. lia.
Qed.

Lemma set_config_valid id pw r1 r2 s :
  str_ok id -> str_ok pw -> 1 <= zlen id <= WIFI_MGR_SSID_MAX -> zlen pw <= WIFI_MGR_PASS_MAX ->
  run (wifi_mgr_set_config (Some (id ++ 0 :: r1)) (Some (pw ++ 0 :: r2))) s
  = run (r ← drv (nvs_open NVS_READWRITE);
     if negb (r =? ESP_OK) then mret r
     else
       r ← set_str NVS_KEY_SSID id;
       r ← (if r =? ESP_OK then set_str NVS_KEY_PASS pw else mret r);
       r ← (if r =? ESP_OK then drv nvs_commit else mret r);
       close_nvs ;; mret r) s.
Proof.
  intros Hid Hpw H1 H2. unfold wifi_mgr_set_config. rewrite run_bind; cbn [run]; unfold lift.
  rewrite c_str_app by done.
  rewrite (proj2 (Z.eqb_neq (zlen id) 0)), (proj2 (Z.ltb_ge _ _)) by lia. cbn [orb].
  rewrite run_bind; cbn [run]. rewrite c_str_app by done.
  by rewrite (proj2 (Z.ltb_ge _ _)) by lia.
Qed.

Lemma set_config_stores `{!NvsLaws W} id pw r1 r2 s s' :
  str_ok id -> str_ok pw ->
  run (wifi_mgr_set_config (Some (id ++ 0 :: r1)) (Some (pw ++ 0 :: r2))) s = Done ESP_OK s' ->
  1 <= zlen id <= WIFI_MGR_SSID_MAX /\ zlen pw <= WIFI_MGR_PASS_MAX /\
  stored (dev s') NVS_KEY_SSID = Some id /\ stored (dev s') NVS_KEY_PASS = Some pw /\
  log s' = log s ++ [LNvsSet NVS_KEY_SSID id; LNvsSet NVS_KEY_PASS pw].
Proof.
  intros Hid Hpw.
  destruct (decide (1 <= zlen id <= WIFI_MGR_SSID_MAX /\ zlen pw <= WIFI_MGR_PASS_MAX)) as [[H1 H2]|H];
    [|by rewrite set_config_invalid].
  rewrite set_config_valid by done. rewrite run_bind; unfold drv at 1; cbn [run]; unfold zoom.
  destruct (nvs_open NVS_READWRITE (dev s)) as [r w0]. destruct (Z.eqb_spec r ESP_OK); cbn [negb];
    [|by intros [= ?]].
  rewrite run_bind; cbn [run]. rewrite set_str_run.
  set (s1 := set_dev _ (add_log (LNvsSet NVS_KEY_SSID id) _)).
  destruct (Z.eqb_spec (nvs_set_str NVS_KEY_SSID id (dev (set_dev w0 s))).1 ESP_OK) as [E1|E1];
    [|rewrite run_bind, run_ret, run_bind, (proj2 (Z.eqb_neq _ _) E1); by intros [= ? _]].
  rewrite run_bind; cbn [run]. rewrite set_str_run.
  set (s2 := set_dev _ (add_log (LNvsSet NVS_KEY_PASS pw) s1)).
  destruct (Z.eqb_spec (nvs_set_str NVS_KEY_PASS pw (dev s1)).1 ESP_OK) as [E2|E2];
    [|rewrite run_bind, run_ret; by intros [= ? _]].
  assert (stored (dev s2) NVS_KEY_SSID = Some id /\ stored (dev s2) NVS_KEY_PASS = Some pw /\
          log s2 = log s ++ [LNvsSet NVS_KEY_SSID id; LNvsSet NVS_KEY_PASS pw]) as (Hi & Hp & Hl).
  { subst s2. simpl. rewrite !(law_set (dev s1)) by done. subst s1. simpl.
    rewrite !law_set by done. simpl. by rewrite <-app_assoc. }
  clearbody s2. run_simpl. pose proof (law_commit (dev s2)) as Hc.
  destruct (nvs_commit (dev s2)) as [r' w']. simpl in Hc. intros [= -> <-]. simpl.
  by rewrite !law_close, !Hc.
Qed.

Lemma get_str_run `{!NvsLaws W} k n v s :
  stored (dev s) k = Some v -> (length v < n)%nat ->
  run (get_str k (replicate n 0)) s = Done (ESP_OK, char_array n v) s.
Proof.
  intros Hv Hn. unfold get_str. run_simpl. rewrite length_replicate.
  rewrite (law_get _ _ _ _ Hv) by lia. cbn [fst snd].
  rewrite mem_write_zeroed by (rewrite length_app; simpl; lia). do 2 f_equal.
  unfold char_array. rewrite <-app_assoc, length_app. simpl. do 3 f_equal.
  replace (n - length v)%nat with (S (n - (length v + 1)))%nat by lia. done.
Qed.

(** The configuration is loaded into zeroed arrays; the flash is opened and
    closed. *)
Definition after_load s : wifi := set_dev (nvs_close (nvs_open NVS_READONLY (dev s)).2) s.

Lemma get_config_run `{!NvsLaws W} id pw s :
  stored (dev s) NVS_KEY_SSID = Some id -> stored (dev s) NVS_KEY_PASS = Some pw ->
  zlen id <= WIFI_MGR_SSID_MAX -> zlen pw <= WIFI_MGR_PASS_MAX ->
  run (wifi_mgr_get_config zero_config) s
  = Done (ESP_OK, mk_config (char_array 33 id) (char_array 65 pw)) (after_load s).
Proof.
  intros Hs Hp Hid Hpw. unfold wifi_mgr_get_config, after_load.
  rewrite run_bind; unfold drv, zoom; cbn [run].
  pose proof (law_open_ro _ _ _ Hs) as Hr. pose proof (law_open NVS_READONLY (dev s)) as Ho.
  destruct (nvs_open NVS_READONLY (dev s)) as [r w]. simpl in Hr, Ho. subst r.
  rewrite Z.eqb_refl. cbn [negb]. unfold WIFI_MGR_SSID_MAX, WIFI_MGR_PASS_MAX in *.
  change (ssid zero_config) with (replicate 33 0). change (password zero_config) with (replicate 65 0).
  rewrite run_bind; cbn [run].
  rewrite (get_str_run _ _ id) by (simpl; rewrite ?Ho; done || lia). cbn [fst snd].
  rewrite Z.eqb_refl. rewrite run_bind; cbn [run].
  by rewrite (get_str_run _ _ pw) by (simpl; rewrite ?Ho; done || lia).
Qed.

Lemma after_load_stored `{!NvsLaws W} s k : stored (dev (after_load s)) k = stored (dev s) k.
Proof. simpl. by rewrite law_close, law_open. Qed.
End Facts.

#[export] Hint Resolve off_zoom quiet_zoom same_zoom same_close same_hostname : keeps.
#[export] Hint Extern 1 (keeps stays_off (modify _)) => apply off_modify; intros ?; simpl; auto : keeps.
#[export] Hint Extern 1 (keeps quiet (modify (add_log _))) => apply quiet_log; reflexivity : keeps.
#[export] Hint Extern 2 (keeps quiet (modify _)) => apply quiet_modify; intros ?; simpl; auto : keeps.
#[export] Hint Extern 1 (keeps same_config (modify _)) => apply same_modify; reflexivity : keeps.
#[export] Hint Resolve law_open law_commit law_timer law_set_config law_connect law_disconnect law_init law_timer_create
  law_random law_scan_start law_scan_stop law_scan_records law_netif law_malloc : keeps.
