(* ===== verification/WifiStatus.v ===== *)
(** * What the status says

    Interleavings of the single actions of the three tasks: every report of
    [wifi_mgr_get_status] against the events handled before it. *)

From S2P Require Import Prelude CMem CState WifiMgr WifiFacts.

(** ** The reported status

    What a status says, against the log up to the report. *)

Definition last_ip (l : list wifi_call) : option Z :=
  foldl (fun r c => match c with LGotIp a => Some a | _ => r end) None l.

Definition consistent (l : list wifi_call) (st : wifi_mgr_status_t) : Prop :=
  (state st = WIFI_MGR_STATE_DISCONNECTED -> ip st = [0; 0; 0; 0]) /\
  (state st = WIFI_MGR_STATE_CONNECTED -> exists a, last_ip l = Some a /\ ip st = ip_bytes a) /\
  (state st <> WIFI_MGR_STATE_CONNECTED -> rssi st = 0).

(** Every byte is zero or the byte of an address received before. *)
Definition received (l : list wifi_call) (bs : list Z) : Prop :=
  forall i b, bs !! i = Some b -> b = 0 \/ exists a, LGotIp a ∈ l /\ ip_bytes a !! i = Some b.

(** Every status in a log satisfies [Q] with the log before it. *)
Definition reports (Q : list wifi_call -> wifi_mgr_status_t -> Prop) (l : list wifi_call) : Prop :=
  forall l1 st l2, l = l1 ++ LStatus st :: l2 -> Q l1 st.

Lemma reports_nil Q : reports Q [].
Proof. by intros [|? ?] st l2. Qed.

Lemma reports_snoc Q l c : reports Q l -> (forall st, c = LStatus st -> Q l st) -> reports Q (l ++ [c]).
Proof.
  intros Hl Hc l1 st l2. destruct l2 as [|d l2 _] using rev_ind.
  - intros [E1 E2]%app_inj_tail. subst. by apply Hc.
  - rewrite app_comm_cons, app_assoc. intros [E _]%app_inj_tail. by eapply Hl.
Qed.

Definition not_status (c : wifi_call) : bool := match c with LStatus _ => false | _ => true end.

Lemma reports_app Q l l' : reports Q l -> forallb not_status l' = true -> reports Q (l ++ l').
Proof.
  intros Hl. induction l' as [|c l' IH] using rev_ind; [by rewrite app_nil_r|].
  rewrite forallb_app. intros [H1 H2]%andb_prop. rewrite app_assoc. apply reports_snoc; [by apply IH|].
  intros st ->. discriminate H2.
Qed.

Section Status.
Context {W : Type} `{HP : !Platform W}.
Local Abbreviation wifi := (wifi W).
Implicit Types s : wifi.

(** *** In every interleaving *)

Definition bytes_inv s : Prop :=
  length (s_ip s) = 4%nat /\ received (log s) (s_ip s) /\ reports (fun l st => received l (ip st)) (log s).

Definition bytes_step s s' : Prop := (exists l, log s' = log s ++ l) /\ (bytes_inv s -> bytes_inv s').

#[local] Instance bytes_preorder : PreOrder bytes_step.
Proof.
  split; [intros s; split; [exists []; by rewrite app_nil_r|done]|].
  intros s1 s2 s3 [[l E] H] [[l' E'] H']. split; [|auto]. exists (l ++ l'). by rewrite E', E, app_assoc.
Qed.

Lemma received_app l l' bs : received l bs -> received (l ++ l') bs.
Proof.
  intros H i b Hb. destruct (H i b Hb) as [->|(a & Ha & E)]; [by left|right]. exists a. split; [|done].
  apply elem_of_app. by left.
Qed.

Lemma bytes_zoom {A} (f : W -> A * W) : keeps bytes_step (zoom dev set_dev f).
Proof. apply keeps_zoom. intros s. split; [exists []; by rewrite app_nil_r|done]. Qed.

Lemma bytes_same (f : wifi -> wifi) :
  (forall s, s_ip (f s) = s_ip s /\ log (f s) = log s) -> keeps bytes_step (modify f).
Proof.
  intros H. apply keeps_modify. intros s. destruct (H s) as [Hi Hl]. unfold bytes_step, bytes_inv.
  rewrite Hi, Hl. split; [exists []; by rewrite app_nil_r|done].
Qed.

Lemma bytes_add c s :
  (bytes_inv s -> forall st, c = LStatus st -> received (log s) (ip st)) -> bytes_step s (add_log c s).
Proof.
  intros Hc. split; [by exists [c]|]. intros (H4 & Hr & Hs). specialize (Hc (conj H4 (conj Hr Hs))).
  split_and!; [done|by apply received_app|]. by apply reports_snoc.
Qed.

Lemma bytes_log c : not_status c = true -> keeps bytes_step (modify (add_log c)).
Proof. intros Hc. apply keeps_modify. intros s. apply bytes_add. intros _ st ->. discriminate Hc. Qed.

Lemma bytes_write i v s :
  (v = 0 \/ exists a, LGotIp a ∈ log s /\ ip_bytes a !! i = Some v) ->
  bytes_step s (set_ip (<[i := v]> (s_ip s)) s).
Proof.
  intros Hv. split; [exists []; by rewrite app_nil_r|]. intros (H4 & Hr & Hs).
  split_and!; [by simpl; rewrite length_insert| |done]. simpl. intros j b Hb.
  destruct (decide (j = i)) as [->|Hj].
  - assert (i < length (s_ip s))%nat as Hi by (apply lookup_lt_Some in Hb; by rewrite length_insert in Hb).
    rewrite list_lookup_insert_eq in Hb by done. by injection Hb as <-.
  - rewrite list_lookup_insert_ne in Hb by done. by apply Hr.
Qed.

Lemma bytes_zero i : keeps bytes_step (modify (fun s => set_ip (<[i := 0]> (s_ip s)) s)).
Proof. apply keeps_modify. intros s. apply bytes_write. by left. Qed.

Hint Resolve bytes_zoom bytes_zero : keeps.
Hint Extern 1 (keeps bytes_step (modify (add_log _))) => apply bytes_log; reflexivity : keeps.
Hint Extern 2 (keeps bytes_step (modify _)) => apply bytes_same; intros ?; split; reflexivity : keeps.

Lemma bytes_api op : op <> OpGetStatus -> pkeeps bytes_step (api op).
Proof. intros H. destruct op; try done; wifi_steps. Qed.

Lemma bytes_timer : pkeeps bytes_step reconnect_timer_cb.
Proof. wifi_steps. Qed.

(** Reading a byte, in [get_status]. *)
Lemma bytes_read i (Q : Z -> wifi -> Prop) s :
  bytes_inv s -> (i < 4)%nat ->
  (forall b s', bytes_step s s' -> bytes_inv s' ->
     (b = 0 \/ exists a, LGotIp a ∈ log s' /\ ip_bytes a !! i = Some b) -> Q b s') ->
  rg bytes_step bytes_step (ip_byte i) Q s.
Proof.
  intros Hs Hi HQ. apply rg_gets. intros s1 H1. split; [reflexivity|]. pose proof (proj2 H1 Hs) as Hs1.
  apply HQ; [done|done|]. destruct Hs1 as (H4 & Hr & _). apply Hr.
  apply list_lookup_lookup_total_lt. lia.
Qed.

Lemma grown_got s s' a : bytes_step s s' -> LGotIp a ∈ log s -> LGotIp a ∈ log s'.
Proof. intros [[l ->] _] Ha. apply elem_of_app. by left. Qed.

Lemma grown_byte s s' i (b : Z) :
  bytes_step s s' -> (b = 0 \/ exists a, LGotIp a ∈ log s /\ ip_bytes a !! i = Some b) ->
  b = 0 \/ exists a, LGotIp a ∈ log s' /\ ip_bytes a !! i = Some b.
Proof. intros H [->|(a & Ha & E)]; [by left|right]. exists a. split; [by eapply grown_got|done]. Qed.

Lemma bytes_status s : bytes_inv s -> rg bytes_step bytes_step (api OpGetStatus) (fun _ _ => True) s.
Proof.
  intros Hs. unfold api, wifi_mgr_get_status. apply rg_bind, rg_bind, rg_gets. intros s1 H1. split; [reflexivity|].
  pose proof (proj2 H1 Hs) as Hs1.
  apply rg_bind, bytes_read; [done|lia|]. intros b0 s2 G2 I2 B0.
  apply rg_bind, bytes_read; [done|lia|]. intros b1 s3 G3 I3 B1.
  apply rg_bind, bytes_read; [done|lia|]. intros b2 s4 G4 I4 B2.
  apply rg_bind, bytes_read; [done|lia|]. intros b3 s5 G5 I5 B3.
  apply (grown_byte _ s3) in B0; [|done]. apply (grown_byte _ s4) in B0, B1; [|done..].
  apply (grown_byte _ s5) in B0, B1, B2; [|done..]. clear -B0 B1 B2 B3.
  assert (received (log s5) [b0; b1; b2; b3]) as Hr by (by intros [|[|[|[|i]]]] b; simpl; intros [= <-]).
  assert (forall r s, bytes_step s5 s -> rg bytes_step bytes_step (note (LStatus (mk_status (s_state s1) [b0; b1; b2; b3] r)))
            (fun _ _ => True) s) as Hn.
  { intros r s H. apply rg_modify. intros s' H'. split; [|done]. apply bytes_add. intros _ st [= <-]. simpl.
    destruct (transitivity H H') as [[l ->] _]. by apply received_app. }
  apply rg_bind, rg_gets. intros s6 H6. split; [reflexivity|]. destruct (bool_decide _).
  - apply rg_bind, rg_gets. intros s7 H7. split; [reflexivity|]. cbv zeta. apply rg_ret. intros s8 H8.
    split; [reflexivity|]. apply Hn. by do 2 (etransitivity; [|done]).
  - apply rg_ret. intros s7 H7. split; [reflexivity|]. apply Hn. by etransitivity.
Qed.

Lemma bytes_event e s : rg bytes_step bytes_step (on_event e) (fun _ _ => True) s.
Proof.
  destruct e as [e|[addr| |]]; [apply rg_keeps; destruct e; wifi_steps| |apply rg_keeps; wifi_steps..].
  unfold on_event, on_ip_event. apply rg_bind, rg_modify. intros s1 _. split; [apply bytes_add; by intros _ st|].
  assert (LGotIp addr ∈ log (add_log (LGotIp addr) s1)) as Ha by (simpl; apply elem_of_app; right; by left).
  revert Ha. generalize (add_log (LGotIp addr) s1). clear s s1. intros s Ha.
  unfold set_ip_byte.
  do 4 (apply rg_bind, rg_modify; intros ? H; apply (grown_got _ _ _ H) in Ha; clear H;
    split; [apply bytes_write; right; by exists addr|];
    match goal with |- rg _ _ _ _ ?s' => assert (LGotIp addr ∈ log s') as Ha' by exact Ha end; clear Ha; rename Ha' into Ha).
  apply rg_keeps. wifi_steps.
Qed.

Lemma bytes_call op s : bytes_inv s -> rg bytes_step bytes_step (api op) (fun _ _ => True) s.
Proof.
  intros Hs. assert (op = OpGetStatus \/ op <> OpGetStatus) as [->|Hop] by (destruct op; auto; by right).
  - by apply bytes_status.
  - by apply rg_keeps, bytes_api.
Qed.

Lemma bytes_moves ms w y :
  make_moves ms (wifi_statics w, idle) = Some y -> reports (fun l st => received l (ip st)) (log y.1).
Proof.
  intros Hm.
  destruct (moves_work bytes_step bytes_inv (fun _ => True) (fun s s' H => proj2 H)
              (fun op s _ => bytes_call op s)
              (fun e s _ => bytes_event e s) (fun s _ => rg_keeps _ _ _ _ bytes_timer) ms _ _ Hm)
    as (_ & (_ & _ & H) & _); [by apply Forall_true| |by split|done].
  split_and!; [done| |apply reports_nil]. intros i b Hb. left.
  by repeat (destruct i as [|i]; [injection Hb as <-|]).
Qed.
End Status.

(** *** Where no event handler overlaps a report or a disconnection *)

(** The calls that read or write the state together with the address. *)
Definition critical (op : wifi_op) : bool := match op with OpDisconnect | OpGetStatus => true | _ => false end.

Definition overlaps {W} `{Platform W} (t : tasks W) : bool :=
  match t with mk_tasks (Some (op, _)) (Some _) _ => critical op | _ => false end.

(** No configuration on the way has an event handler begun while a critical
    call is, or the other way round. *)
Fixpoint no_overlap {W} `{Platform W} (ms : list move) (x : wifi W * tasks W) : bool :=
  negb (overlaps x.2) &&
  match ms with
  | [] => true
  | m :: ms => match make_move m x with Some y => no_overlap ms y | None => true end
  end.

Section Calm.
Context {W : Type} `{HP : !Platform W}.
Local Abbreviation wifi := (wifi W).
Implicit Types s : wifi.

Definition plain (c : wifi_call) : bool := match c with LStatus _ | LGotIp _ => false | _ => true end.

(** The address is left alone, and the state too or it says that there is no
    connection yet. *)
Definition narrow s s' : Prop :=
  s_ip s' = s_ip s /\
  (s_state s' = s_state s \/ s_state s' = WIFI_MGR_STATE_CONNECTING \/ s_state s' = WIFI_MGR_STATE_FAILED) /\
  exists l, log s' = log s ++ l /\ forallb plain l = true.

#[local] Instance narrow_preorder : PreOrder narrow.
Proof.
  split; [intros s; split_and!; [done|by left|exists []; by rewrite app_nil_r]|].
  intros s1 s2 s3 (I1 & S1 & l1 & L1 & P1) (I2 & S2 & l2 & L2 & P2). split_and!; [congruence| |].
  - destruct S2 as [->|S2]; auto.
  - exists (l1 ++ l2). by rewrite L2, L1, app_assoc, forallb_app, P1, P2.
Qed.

Lemma narrow_same (f : wifi -> wifi) s :
  s_ip (f s) = s_ip s -> log (f s) = log s ->
  s_state (f s) = s_state s \/ s_state (f s) = WIFI_MGR_STATE_CONNECTING \/ s_state (f s) = WIFI_MGR_STATE_FAILED ->
  narrow s (f s).
Proof. intros Hi Hl Hs. split_and!; [done..|]. exists []. by rewrite Hl, app_nil_r. Qed.

Lemma narrow_zoom {A} (f : W -> A * W) : keeps narrow (zoom dev set_dev f).
Proof. apply keeps_zoom. intros s. apply (narrow_same (set_dev (f (dev s)).2)); auto. Qed.

Lemma narrow_add c s : plain c = true -> narrow s (add_log c s).
Proof. intros Hc. split_and!; [done|by left|]. exists [c]. split; [done|]. simpl. by rewrite Hc. Qed.

Lemma narrow_log c : plain c = true -> keeps narrow (modify (add_log c)).
Proof. intros Hc. apply keeps_modify. intros s. by apply narrow_add. Qed.

Hint Resolve narrow_zoom : keeps.
Hint Extern 1 (keeps narrow (modify (add_log _))) => apply narrow_log; reflexivity : keeps.
Hint Extern 2 (keeps narrow (modify _)) => apply keeps_modify; intros ?; apply narrow_same; simpl; auto : keeps.

Lemma narrow_api op : critical op = false -> pkeeps narrow (api op).
Proof. intros H. destruct op; try discriminate H; wifi_steps. Qed.

Lemma narrow_timer : pkeeps narrow reconnect_timer_cb.
Proof. wifi_steps. Qed.

Lemma last_ip_plain l l' : forallb plain l' = true -> last_ip (l ++ l') = last_ip l.
Proof.
  unfold last_ip. rewrite foldl_app. generalize (foldl (fun r c => match c with LGotIp a => Some a | _ => r end) None l).
  induction l' as [|c l' IH]; simpl; [done|]. intros o [H1 H2]%andb_prop. destruct c; try discriminate H1; by apply IH.
Qed.

(** The state and the address agree. *)
Definition status_inv s : Prop :=
  length (s_ip s) = 4%nat /\
  (s_state s = WIFI_MGR_STATE_DISCONNECTED -> s_ip s = [0; 0; 0; 0]) /\
  (s_state s = WIFI_MGR_STATE_CONNECTED -> exists a, last_ip (log s) = Some a /\ s_ip s = ip_bytes a).

Lemma narrow_inv s s' : narrow s s' -> status_inv s -> status_inv s'.
Proof.
  intros (Hi & Hs & l & Hl & Hp) (H4 & H1 & H2). unfold status_inv. rewrite Hi, Hl, last_ip_plain by done.
  split; [done|]. destruct Hs as [-> | [-> | ->]]; done.
Qed.

(** The reports so far were consistent, and are still. *)
Definition honest s s' : Prop := reports consistent (log s) -> reports consistent (log s').

Lemma grown_honest s s' l : log s' = log s ++ l -> forallb not_status l = true -> honest s s'.
Proof. intros E Hl H. rewrite E. by apply reports_app. Qed.

Lemma narrow_honest s s' : narrow s s' -> honest s s'.
Proof.
  intros (_ & _ & l & Hl & Hp). apply (grown_honest s s' l); [done|]. rewrite forallb_forall in *. intros c Hc.
  specialize (Hp c Hc). by destruct c.
Qed.

Lemma same_honest s s' : log s' = log s -> honest s s'.
Proof. intros E. apply (grown_honest s s' []); [by rewrite app_nil_r|done]. Qed.

Local Abbreviation ends_well p s := (rg narrow honest p (fun _ => status_inv) s).

Lemma ends_frame {A} (p : prog wifi A) s : pkeeps narrow p -> status_inv s -> ends_well p s.
Proof. intros Hp Hs. apply (rg_frame narrow honest); [exact narrow_honest|done|]. intros _ s' H. by apply (narrow_inv s). Qed.

(** The first [i] bytes are those of [bs], since [s0] the state was at most
    narrowed, and no address was received. *)
Definition stored_bytes (i : nat) (bs : list Z) s0 s : Prop :=
  length (s_ip s) = 4%nat /\ take i (s_ip s) = take i bs /\
  (s_state s = s_state s0 \/ s_state s = WIFI_MGR_STATE_CONNECTING \/ s_state s = WIFI_MGR_STATE_FAILED) /\
  last_ip (log s) = last_ip (log s0).

Lemma stored_narrow i bs s0 s s' : narrow s s' -> stored_bytes i bs s0 s -> stored_bytes i bs s0 s'.
Proof.
  intros (Hi & Hs & l & Hl & Hp) (H4 & Ht & H & Hip). unfold stored_bytes. rewrite Hi, Hl, last_ip_plain by done.
  split_and!; [done..| |done]. destruct Hs as [->|Hs]; auto.
Qed.

Lemma rg_store i v bs (Q : unit -> wifi -> Prop) s0 s :
  stored_bytes i bs s0 s -> (i < 4)%nat -> bs !! i = Some v ->
  (forall s', stored_bytes (S i) bs s0 s' -> Q tt s') -> rg narrow honest (set_ip_byte i v) Q s.
Proof.
  intros Hs Hi Hv HQ. apply rg_modify. intros s1 N. split; [by apply same_honest|]. apply HQ.
  destruct (stored_narrow _ _ _ _ _ N Hs) as (H4 & Ht & Hst & Hip).
  unfold stored_bytes. simpl. rewrite length_insert. split_and!; [done| |done..].
  rewrite (take_S_r _ _ v) by (apply list_lookup_insert_eq; lia). rewrite (take_S_r _ _ v) by done.
  by rewrite take_insert_ge, Ht by lia.
Qed.

Lemma stored_start bs s : length (s_ip s) = 4%nat -> stored_bytes 0 bs s s.
Proof. intros H. split_and!; auto. Qed.

Lemma stored_all bs s0 s : length bs = 4%nat -> stored_bytes 4 bs s0 s -> s_ip s = bs.
Proof. intros Hb (H4 & Ht & _). by rewrite !take_ge in Ht by lia. Qed.

Lemma rg_clear (Q : unit -> wifi -> Prop) s :
  length (s_ip s) = 4%nat -> (forall s', stored_bytes 4 [0; 0; 0; 0] s s' -> Q tt s') -> rg narrow honest clear_ip Q s.
Proof.
  intros H4 HQ. unfold clear_ip.
  apply rg_bind, (rg_store 0 0 [0; 0; 0; 0] _ s); [by apply stored_start|lia|done|]. intros s1 H1.
  apply rg_bind, (rg_store 1 0 [0; 0; 0; 0] _ s); [done|lia|done|]. intros s2 H2.
  apply rg_bind, (rg_store 2 0 [0; 0; 0; 0] _ s); [done|lia|done|]. intros s3 H3.
  by apply (rg_store 3 0 [0; 0; 0; 0] _ s); [|lia| |].
Qed.

Lemma cleared_inv s : s_ip s = [0; 0; 0; 0] -> s_state s <> WIFI_MGR_STATE_CONNECTED -> status_inv s.
Proof. intros E Hs. unfold status_inv. by rewrite E. Qed.

Lemma stored_cleared s0 s s' : stored_bytes 4 [0; 0; 0; 0] s0 s -> narrow s s' -> s_ip s' = [0; 0; 0; 0].
Proof. intros H N. by apply (stored_all [0; 0; 0; 0] s0); [|apply (stored_narrow _ _ _ _ _ N H)]. Qed.

(** The state is set once the address is there. *)
Lemma disconnected_well s :
  status_inv s -> ends_well (on_event (inl WIFI_EVENT_STA_DISCONNECTED)) s /\
  ends_well (on_event (inr IP_EVENT_STA_LOST_IP)) s.
Proof.
  intros (H4 & _). split; unfold on_event, on_wifi_event, on_ip_event; apply rg_bind, rg_clear; try done; intros s1 H1.
  - apply rg_bind, rg_modify. intros s2 N2. split; [by apply same_honest|]. apply ends_frame; [wifi_steps|].
    by apply cleared_inv; [apply (stored_cleared _ _ _ H1 N2)|].
  - apply rg_modify. intros s2 N2. split; [by apply same_honest|].
    by apply cleared_inv; [apply (stored_cleared _ _ _ H1 N2)|].
Qed.

Lemma got_ip_well addr s : status_inv s -> ends_well (on_event (inr (IP_EVENT_STA_GOT_IP addr))) s.
Proof.
  intros (H4 & _). unfold on_event, on_ip_event. apply rg_bind, rg_modify. intros s1 N1.
  split; [by apply (grown_honest _ _ [LGotIp addr])|]. set (s0 := add_log (LGotIp addr) s1).
  assert (length (s_ip s0) = 4%nat) as H4' by (destruct N1 as [E _]; simpl; by rewrite E).
  apply rg_bind, (rg_store 0 _ (ip_bytes addr) _ s0); [by apply stored_start|lia|done|]. intros s2 H2.
  apply rg_bind, (rg_store 1 _ (ip_bytes addr) _ s0); [done|lia|done|]. intros s3 H3.
  apply rg_bind, (rg_store 2 _ (ip_bytes addr) _ s0); [done|lia|done|]. intros s4 H5.
  apply rg_bind, (rg_store 3 _ (ip_bytes addr) _ s0); [done|lia|done|]. intros s5 H6.
  apply rg_bind, rg_modify. intros s6 N6. split; [by apply same_honest|]. apply ends_frame; [wifi_steps|].
  pose proof (stored_narrow _ _ _ _ _ N6 H6) as H7. pose proof (stored_all (ip_bytes addr) _ _ ltac:(done) H7) as E.
  destruct H7 as (? & _ & _ & Hip). split_and!; [done|done|]. intros _. exists addr. split; [|done].
  simpl. rewrite Hip. simpl. unfold last_ip. by rewrite foldl_app.
Qed.

Lemma event_well e s : status_inv s -> ends_well (on_event e) s.
Proof.
  intros Hs. destruct e as [[]|[addr| |]]; try (by apply disconnected_well); try (by apply got_ip_well);
    apply ends_frame; try done; wifi_steps.
Qed.

(** The critical calls. *)
Lemma disconnect_well s : status_inv s -> ends_well (api OpDisconnect) s.
Proof.
  intros Hs. unfold api, void, wifi_mgr_disconnect.
  apply rg_bind, rg_bind, (rg_frame narrow honest); [exact narrow_honest|wifi_steps|]. intros _ s1 N1.
  apply rg_bind, rg_gets. intros s2 N2. split; [by apply same_honest|].
  apply rg_bind, (rg_frame narrow honest); [exact narrow_honest|wifi_steps|]. intros _ s3 N3.
  apply rg_bind, (rg_frame narrow honest); [exact narrow_honest|wifi_steps|]. intros r s4 N4.
  assert (status_inv s4) as Hs4 by (do 4 (eapply narrow_inv; [eassumption|]); done).
  apply rg_bind. destruct (r =? ESP_OK).
  - apply rg_bind, rg_modify. intros s5 N5. split; [by apply same_honest|].
    apply rg_clear; [simpl; destruct N5 as [-> _]; apply Hs4|]. intros s6 H6.
    apply rg_ret. intros s7 N7. split; [by apply same_honest|]. apply ends_frame; [wifi_steps|].
    apply (narrow_inv s6 s7 N7), cleared_inv; [by apply (stored_cleared _ _ _ H6)|].
    destruct H6 as (_ & _ & [-> | [-> | ->]] & _); done.
  - do 2 (apply rg_ret; intros ? N; split; [by apply same_honest|]; apply (narrow_inv _ _ N) in Hs4; clear N).
    by apply ends_frame; [wifi_steps|].
Qed.

Lemma four_bytes (l : list Z) : length l = 4%nat -> [l !!! 0%nat; l !!! 1%nat; l !!! 2%nat; l !!! 3%nat] = l.
Proof. by destruct l as [|? [|? [|? [|? []]]]]. Qed.

Lemma report_consistent s s' r :
  status_inv s -> narrow s s' -> (s_state s <> WIFI_MGR_STATE_CONNECTED -> r = 0) ->
  rg narrow honest (note (LStatus (mk_status (s_state s) (s_ip s) r))) (fun _ => status_inv) s'.
Proof.
  intros Hs N Hr. apply rg_modify. intros s1 N1. pose proof (transitivity N N1) as N2.
  pose proof (narrow_inv _ _ N2 Hs) as (H4 & Hd & Hc). destruct N2 as (Hi & _ & l & Hl & Hp).
  destruct Hs as (_ & H1 & H2). split.
  - intros Hh. apply reports_snoc; [done|]. intros _ [= <-]. split_and!; simpl; [done| |done].
    intros E. destruct (H2 E) as (a & Ha & Ea). exists a. split; [|done]. by rewrite Hl, last_ip_plain.
  - split_and!; [done..|]. simpl. intros E. destruct (Hc E) as (a & Ha & Ea). exists a. split; [|done].
    unfold last_ip. by rewrite foldl_app.
Qed.

Lemma status_well s : status_inv s -> ends_well (api OpGetStatus) s.
Proof.
  intros Hs. unfold api, wifi_mgr_get_status, ip_byte.
  apply rg_bind, rg_bind, rg_gets. intros s1 N1. split; [by apply same_honest|].
  pose proof (narrow_inv _ _ N1 Hs) as Hs1. clear Hs N1 s. pose proof (proj1 Hs1) as H4.
  apply rg_bind, rg_gets. intros s2 N2. split; [by apply same_honest|].
  apply rg_bind, rg_gets. intros s3 N3. split; [by apply same_honest|]. pose proof (transitivity N2 N3) as M3.
  apply rg_bind, rg_gets. intros s4 N4. split; [by apply same_honest|]. pose proof (transitivity M3 N4) as M4.
  apply rg_bind, rg_gets. intros s5 N5. split; [by apply same_honest|]. pose proof (transitivity M4 N5) as M5.
  apply rg_bind, rg_gets. intros s6 N6. split; [by apply same_honest|]. pose proof (transitivity M5 N6) as M6.
  rewrite (proj1 N2), (proj1 M3), (proj1 M4), (proj1 M5), four_bytes by done.
  destruct (bool_decide_reflect (s_state s6 = WIFI_MGR_STATE_CONNECTED)) as [E|E].
  - assert (s_state s1 = WIFI_MGR_STATE_CONNECTED) as E1 by (destruct M6 as (_ & [Hs|[Hs|Hs]] & _); congruence).
    apply rg_bind, rg_gets. intros s7 N7. split; [by apply same_honest|]. cbv zeta.
    apply rg_ret. intros s8 N8. split; [by apply same_honest|]. apply report_consistent; [done| |done].
    by do 2 (etransitivity; [|eassumption]).
  - apply rg_ret. intros s7 N7. split; [by apply same_honest|]. apply report_consistent; [done| |done].
    by etransitivity.
Qed.

(** *** Every configuration of such an interleaving *)

Definition event_rest s (o : option (prog wifi unit)) : Prop := rest (fun p => ends_well p s) o.

(** The state and the address agree between the functions that change both. *)
Definition calm (x : wifi * tasks W) : Prop :=
  reports consistent (log x.1) /\ rest (pkeeps narrow) (timer_task x.2) /\
  match event_task x.2, cmd_task x.2 with
  | Some p, c => ends_well p x.1 /\ rest_cmd (fun op p => critical op = false /\ pkeeps narrow p) c
  | None, Some (op, p) =>
      if critical op then ends_well p x.1 else pkeeps narrow p /\ status_inv x.1
  | None, None => status_inv x.1
  end.

Lemma calm_call op s (c : option (prog wifi unit)) :
  calm (s, mk_tasks None None c) -> calm (s, mk_tasks (Some (op, api op)) None c).
Proof.
  intros (Hr & Ht & Hs). split_and!; [done..|]. simpl in *. destruct (critical op) eqn:E.
  - destruct op; try discriminate E; [by apply disconnect_well|by apply status_well].
  - split; [by apply narrow_api|done].
Qed.

Lemma calm_event ev s a (c : option (prog wifi unit)) :
  overlaps (mk_tasks a (Some (on_event ev)) c) = false ->
  calm (s, mk_tasks a None c) -> calm (s, mk_tasks a (Some (on_event ev)) c).
Proof.
  intros Ho (Hr & Ht & Hs). split_and!; [done..|]. cbn [event_task cmd_task fst snd] in *.
  destruct a as [[op p]|].
  - simpl in Ho. rewrite Ho in Hs. destruct Hs as [Hp Hs]. split; [by apply event_well|done].
  - split; [by apply event_well|done].
Qed.

(** A narrowing transition of a task that does no more. *)
Lemma calm_narrow s s' (a : option (wifi_op * prog wifi unit)) e (c c' : option (prog wifi unit)) :
  narrow s s' -> rest (pkeeps narrow) c' -> calm (s, mk_tasks a e c) -> calm (s', mk_tasks a e c').
Proof.
  intros N Hc (Hr & _ & Hs). split_and!; [by apply (narrow_honest s)|done|]. cbn [event_task cmd_task fst snd] in *.
  destruct e as [p|]; [by destruct Hs; split; [apply (rg_stable _ _ _ _ s)|]|].
  destruct a as [[op p]|]; [|by apply (narrow_inv s)]. destruct (critical op); [by apply (rg_stable _ _ _ _ s)|].
  destruct Hs. split; [done|by apply (narrow_inv s)].
Qed.

Lemma calm_moved m x y : overlaps y.2 = false -> moved m x y -> calm x -> calm y.
Proof.
  intros Ho Hm. destruct Hm as [op s e c|ev s a c|s a e|op p r s s' e c Hp|p r s s' a c Hp|p r s s' a e Hp].
  - destruct e as [p|]; [|apply calm_call]. intros (Hr & Ht & Hs & _). split_and!; [done..|]. split; [done|].
    simpl in *. split; [done|by apply narrow_api].
  - by apply calm_event.
  - intros H. apply (calm_narrow s s a e None); [reflexivity|apply narrow_timer|done].
  - intros (Hr & Ht & Hs). cbn [event_task cmd_task timer_task fst snd] in *.
    destruct e as [q|].
    + destruct Hs as [Hq [Hc Hn]]. destruct (pkeeps_step _ _ _ _ _ Hn Hp) as [N Hn'].
      split_and!; [by apply (narrow_honest s)|done|]. split; [by apply (rg_stable _ _ _ _ s)|]. by destruct r.
    + destruct (critical op) eqn:Hc.
      * destruct (rg_step _ _ _ _ _ _ _ Hs Hp) as [HG Hr']. split_and!; [by apply HG|done|].
        destruct r; cbn [event_task cmd_task fst snd]; [done|by rewrite Hc].
      * destruct Hs as [Hn Hs]. destruct (pkeeps_step _ _ _ _ _ Hn Hp) as [N Hn'].
        split_and!; [by apply (narrow_honest s)|done|]. pose proof (narrow_inv _ _ N Hs).
        destruct r; cbn [event_task cmd_task fst snd]; [done|by rewrite Hc].
  - intros (Hr & Ht & Hs & Ha). destruct (rg_step _ _ _ _ _ _ _ Hs Hp) as [HG Hr'].
    split_and!; [by apply HG|done|]. cbn [event_task cmd_task fst snd] in *. destruct r; [|by split].
    destruct a as [[op q]|]; [|done]. simpl in Ha. destruct Ha as [-> Ha]. by split.
  - intros H. pose proof H as (_ & Ht & _). destruct (pkeeps_step _ _ _ _ _ Ht Hp) as [N Hn].
    by apply (calm_narrow s s' a e (Some p)); [|destruct r|].
Qed.

Lemma calm_moves ms x y : make_moves ms x = Some y -> no_overlap ms x = true -> calm x -> calm y.
Proof.
  revert x. induction ms as [|m ms IH]; intros x; simpl; [by intros [= ->]|].
  destruct (make_move m x) as [z|] eqn:E; [|done]. intros Hy [_ Hz]%andb_prop Hx. apply (IH z); [done..|].
  apply (calm_moved m x); [|by apply make_move_moved|done].
  by destruct ms; simpl in Hz; apply andb_prop in Hz as [Hz%negb_true_iff _].
Qed.
End Calm.

(** ** The theorem *)

(** C10. The reported status is consistent.  From the start of the program, in
    every interleaving of the single actions of the three tasks: every byte of
    an address reported by [wifi_mgr_get_status] is zero or the byte of an
    address received before.  If no event handler overlaps such a call, or one
    of [wifi_mgr_disconnect], then a report has a zero address when it says
    DISCONNECTED, the address of the latest got-IP event when it says
    CONNECTED, and a signal strength of 0 unless CONNECTED.  ([status_torn] and
    [disconnect_race] show what happens otherwise.) *)
Theorem status_consistent {W} `{Platform W} (w : W) ms y :
  make_moves ms (wifi_statics w, idle) = Some y ->
  reports (fun l st => received l (ip st)) (log y.1) /\
  (no_overlap ms (wifi_statics w, idle) = true -> reports consistent (log y.1)).
Proof.
  intros Hm. split; [by apply (bytes_moves ms w)|]. intros Ho.
  destruct (calm_moves ms _ _ Hm Ho) as [Hr _]; [|done]. split_and!; [apply reports_nil|done|done].
Qed.

(** ** Concrete runs *)

(** A board with the credentials "ap" / "secret12". *)
Definition demo_ssid : list Z := [97; 112].
Definition demo_pass : list Z := [115; 101; 99; 114; 101; 116; 49; 50].
Definition demo_board : board :=
  mk_board (Some demo_ssid) (Some demo_pass) None
    [mk_rec (char_array 33 [110; 101; 116]) (-40) 3].

(** A call, an event or a timer callback with all its [n] actions. *)
Definition call (n : nat) (op : wifi_op) : list move := Call op :: replicate n StepCmd.
Definition handle (n : nat) (e : wifi_event + ip_event) : list move := Event e :: replicate n StepEvent.
Definition fire (n : nat) : list move := Fire :: replicate n StepTimer.

Definition demo_address : Z := 0x0201A8C0.
Definition boot : list move := call 59 OpInit.
Definition got_ip : list move := handle 7 (inr (IP_EVENT_STA_GOT_IP demo_address)).

(** Where moves from the start of the program lead. *)
Definition reach (ms : list move) : wifi board * tasks board :=
  match make_moves ms (wifi_statics demo_board, idle) with
  | Some y => y | None => (wifi_statics demo_board, idle)
  end.

Lemma reach_moves ms : is_Some (make_moves ms (wifi_statics demo_board, idle)) ->
  make_moves ms (wifi_statics demo_board, idle) = Some (reach ms).
Proof. intros [y E]. unfold reach. by rewrite E. Qed.

Definition latest (l : list wifi_call) : option wifi_call := head (reverse l).

Lemma status_consistent_witness :
  latest (log (reach (boot ++ got_ip ++ call 9 OpGetStatus)).1)
  = Some (LStatus (mk_status WIFI_MGR_STATE_CONNECTED [192; 168; 1; 2] (-50))) /\
  reports consistent (log (reach (boot ++ got_ip ++ call 9 OpGetStatus)).1).
Proof.
  split; [vm_compute; reflexivity|].
  apply (status_consistent demo_board (boot ++ got_ip ++ call 9 OpGetStatus)
           (reach (boot ++ got_ip ++ call 9 OpGetStatus))); [|vm_compute; reflexivity].
  apply reach_moves. eexists. vm_compute. reflexivity.
Defined.

(** A report torn by an event.  [wifi_mgr_get_status] reads CONNECTED, the
    driver reports a disconnection, and the address read then is zero. *)
Theorem status_torn :
  latest (log (reach (boot ++ got_ip ++ Call OpGetStatus :: StepCmd ::
                    handle 9 (inl WIFI_EVENT_STA_DISCONNECTED) ++ replicate 7 StepCmd)).1)
  = Some (LStatus (mk_status WIFI_MGR_STATE_CONNECTED [0; 0; 0; 0] 0)).
Proof. vm_compute. reflexivity. Qed.

(** A disconnection torn by an event.  A got-IP event handled while
    [wifi_mgr_disconnect] is about to clear the address leaves CONNECTED with a
    zero address when all tasks are idle, and every later report says so. *)
Theorem disconnect_race :
  exists y, make_moves (boot ++ Call OpDisconnect :: replicate 5 StepCmd ++ got_ip ++ replicate 6 StepCmd ++ call 9 OpGetStatus)
                       (wifi_statics demo_board, idle) = Some (y, idle) /\
    s_state y = WIFI_MGR_STATE_CONNECTED /\ s_ip y = [0; 0; 0; 0] /\
    latest (log y) = Some (LStatus (mk_status WIFI_MGR_STATE_CONNECTED [0; 0; 0; 0] (-50))).
Proof. eexists. vm_compute. repeat split. Qed.
