(* ===== verification/WifiProps.v ===== *)
(** * The properties of the Wi-Fi manager

    What a disconnection, saved credentials and a lost connection lead to in
    every interleaving; what reaches the driver; scanning; and each function
    run to its end, as the command handlers call it. *)

From S2P Require Import Prelude CMem CState WifiMgr WifiFacts WifiStatus.

(** Runs the actions at the head of a function. *)
Ltac wifi_run := unfold drv, note, noted; do 4 (run_simpl; cbn [run]); run_simpl.

(** ** After a disconnection *)

Section Quiet.
Context {W : Type} `{HP : !Platform W}.
Local Abbreviation wifi := (wifi W).
Implicit Types s : wifi.

(** A program that makes at most [n] connection attempts. *)
Fixpoint at_most {A} (n : nat) (p : prog wifi A) : Prop :=
  match p with
  | Act m => keeps (attempts n) m
  | Then p k => exists i, (i <= n)%nat /\ at_most i p /\ forall a, at_most (n - i) (k a)
  end.

Lemma attempts_mono i n s s' : (i <= n)%nat -> attempts i s s' -> attempts n s s'.
Proof. intros Hi (l & E & Hl). exists l. split; [done|lia]. Qed.

Lemma at_most_mono {A} i n (p : prog wifi A) : (i <= n)%nat -> at_most i p -> at_most n p.
Proof.
  revert i n. induction p as [A m|A B p IH k IHk]; simpl; intros i n Hi.
  - intros H s a s' E. by apply (attempts_mono i), (H s a).
  - intros (j & Hj & Hp & Hk). exists j. split; [lia|]. split; [done|]. intros a. apply (IHk a (i - j)%nat); [lia|done].
Qed.

Lemma at_most_bind {A B} i n (p : prog wifi A) (k : A -> prog wifi B) :
  (i <= n)%nat -> at_most i p -> (forall a, at_most (n - i) (k a)) -> at_most n (p ≫= k).
Proof. intros. by exists i. Qed.

Lemma at_most_step {A} n (p : prog wifi A) s r s' :
  at_most n p -> pstep p s = Done r s' ->
  exists i, (i <= n)%nat /\ attempts i s s' /\ match r with inl _ => True | inr p' => at_most (n - i) p' end.
Proof.
  revert n r. induction p as [A m|A B p IH k _]; intros n r; simpl.
  - intros H E. exists n. split; [done|]. destruct (m s) as [a s1| | |] eqn:Em; [|done..]. injection E as <- <-.
    by split; [apply (H s a)|].
  - intros (i & Hi & Hp & Hk). destruct (pstep p s) as [[a|p'] s1| | |] eqn:E; [..|done|done|done]; intros [= <- <-];
      destruct (IH _ _ Hp eq_refl) as (j & Hj & Hl & H').
    + exists j. split; [lia|]. split; [done|]. apply (at_most_mono (n - i)); [lia|apply Hk].
    + exists j. split; [lia|]. split; [done|]. exists (i - j)%nat. split; [lia|]. split; [done|]. intros a.
      apply (at_most_mono (n - i)); [lia|apply Hk].
Qed.

(** Part of a program without attempts. *)
Lemma no_attempt {A} (p : prog wifi A) : pkeeps (attempts 0) p -> at_most 0 p.
Proof.
  induction p as [A m|A B p IH k IHk]; [done|]. intros [Hp Hk]. exists 0%nat. split; [done|]. split; [by apply IH|].
  intros a. apply IHk, Hk.
Qed.

#[local] Instance attempts_preorder : PreOrder (attempts 0 (W := W)).
Proof.
  split; [intros s; by apply attempts_same|]. intros s1 s2 s3 H1 H2. by apply (attempts_trans 0 0 _ s2).
Qed.

Lemma attempts_zoom {A} (f : W -> A * W) : keeps (attempts 0) (zoom dev set_dev f).
Proof. apply keeps_zoom. intros s. by apply attempts_same. Qed.

Lemma attempts_modify (f : wifi -> wifi) : (forall s, log (f s) = log s) -> keeps (attempts 0) (modify f).
Proof. intros H. apply keeps_modify. intros s. by apply attempts_same. Qed.

Lemma attempts_log c : is_connect c = false -> keeps (attempts (W := W) 0) (modify (add_log c)).
Proof.
  intros H. apply keeps_modify. intros s. apply (attempts_one 0 c); [done|]. unfold connects. simpl. by rewrite H.
Qed.

Hint Resolve attempts_zoom : keeps.
Hint Extern 1 (keeps (attempts 0) (modify (add_log _))) => apply attempts_log; reflexivity : keeps.
Hint Extern 2 (keeps (attempts 0) (modify _)) => apply attempts_modify; reflexivity : keeps.

(** The timer callback makes at most one. *)
Lemma timer_once : at_most 1 reconnect_timer_cb.
Proof.
  unfold reconnect_timer_cb, reconnect_timer_act.
  apply (at_most_bind 0); [lia|apply no_attempt; wifi_steps|]. intros go.
  destruct go; [|apply (at_most_mono 0), no_attempt; [lia|wifi_steps]].
  apply (at_most_bind 0); [lia|apply no_attempt; wifi_steps|]. intros rc.
  destruct (negb _); [apply (at_most_mono 0), no_attempt; [lia|wifi_steps]|].
  apply (at_most_bind 0); [lia|apply no_attempt; wifi_steps|]. intros cfg.
  apply (at_most_bind 0); [lia|apply no_attempt; wifi_steps|]. intros _.
  apply (at_most_bind 1); [lia| |intros r; apply no_attempt; wifi_steps].
  intros s a s'. unfold driver_connect, noted. run_simpl. destruct (esp_wifi_connect _).
  intros [= _ <-]. by eapply (attempts_one 1 LConnect).
Qed.

(** With reconnection off, the callback makes none if it has not started. *)
Lemma timer_quiet s : s_auto_reconnect s = false -> rg quiet quiet reconnect_timer_cb (fun _ _ => True) s.
Proof.
  intros Hs. unfold reconnect_timer_cb, reconnect_timer_check. apply rg_bind, rg_bind, rg_gets. intros s1 H1.
  destruct (H1 Hs) as [-> _]. split; [reflexivity|]. simpl. intros s2 _. split; [reflexivity|].
  intros s3 _. by split; [reflexivity|].
Qed.

(** *** Invariants of the moves *)

(** What is true all the time. *)
Record always (x : wifi * tasks W) : Prop := {
  al_cmd : rest_cmd (fun op p => connecting op = false -> pkeeps quiet p) (cmd_task x.2);
  al_event : rest (fun p => pkeeps quiet p /\ pkeeps stays_off p) (event_task x.2);
  al_timer : rest (fun p => at_most 1 p /\ pkeeps stays_off p) (timer_task x.2);
}.

Lemma always_moved m x y : moved m x y -> always x -> always y.
Proof.
  intros Hm. destruct Hm as [op s e c|ev s a c|s a e|op p r s s' e c Hp|p r s s' a c Hp|p r s s' a e Hp];
    intros [H1 H2 H3]; split; cbn [cmd_task event_task timer_task fst snd rest rest_cmd] in *; try done.
  - apply quiet_api.
  - split; [apply quiet_event|apply off_event].
  - split; [apply timer_once|apply off_timer].
  - destruct r as [|q]; [done|]. intros Hop. by destruct (pkeeps_step _ _ _ _ _ (H1 Hop) Hp).
  - destruct r as [|q]; [done|]. destruct H2 as [Hq Ho].
    split; [by destruct (pkeeps_step _ _ _ _ _ Hq Hp)|by destruct (pkeeps_step _ _ _ _ _ Ho Hp)].
  - destruct r as [|q]; [done|]. destruct H3 as [Hq Ho].
    split; [|by destruct (pkeeps_step _ _ _ _ _ Ho Hp)].
    destruct (at_most_step _ _ _ _ _ Hq Hp) as (i & Hi & _ & Hr). by apply (at_most_mono (1 - i)); [lia|].
Qed.

Lemma always_moves ms w y : make_moves ms (wifi_statics w, idle) = Some y -> always y.
Proof.
  intros Hm. apply (moves_keep always (fun _ => True) ms _ y) in Hm; [done| |by apply Forall_true|by split].
  intros m x z _. apply always_moved.
Qed.

(** While [wifi_mgr_disconnect] runs, and after it. *)
Definition not_call (m : move) : Prop := forall op, m <> Call op.
Definition switched_off (x : wifi * tasks W) : Prop :=
  match cmd_task x.2 with
  | Some (_, p) => rg stays_off (fun _ _ => True) p (fun _ s => s_auto_reconnect s = false) x.1
  | None => s_auto_reconnect x.1 = false
  end.

Lemma disconnect_off s : rg stays_off (fun _ _ => True) (api OpDisconnect) (fun _ s => s_auto_reconnect s = false) s.
Proof.
  unfold api, void, wifi_mgr_disconnect. apply rg_bind, rg_bind, rg_modify. intros s1 _. split; [done|].
  apply (rg_frame stays_off (fun _ _ => True)); [done|wifi_steps|]. intros r s2 H2.
  apply (rg_frame stays_off (fun _ _ => True)); [done|wifi_steps|]. intros _ s3 H3. by apply H3, H2.
Qed.

Lemma switched_moved m x y : not_call m -> moved m x y -> always x -> switched_off x -> switched_off y.
Proof.
  intros Hc Hm. destruct Hm as [op s e c|ev s a c|s a e|op p r s s' e c Hp|p r s s' a c Hp|p r s s' a e Hp];
    intros [H1 H2 H3] Hs; unfold switched_off in *; cbn [cmd_task event_task timer_task fst snd rest] in *;
    try done; [by destruct (Hc op)|..].
  - destruct (rg_step _ _ _ _ _ _ _ Hs Hp) as [_ Hr]. by destruct r.
  - destruct (pkeeps_step _ _ _ _ _ (proj2 H2) Hp) as [Ho _].
    destruct a as [[op q]|]; [by apply (rg_stable _ _ _ _ s)|by apply Ho].
  - destruct (pkeeps_step _ _ _ _ _ (proj2 H3) Hp) as [Ho _].
    destruct a as [[op q]|]; [by apply (rg_stable _ _ _ _ s)|by apply Ho].
Qed.

(** With at most [n] attempts to come. *)
Record silent (n : nat) (x : wifi * tasks W) : Prop := {
  si_off : s_auto_reconnect x.1 = false;
  si_cmd : rest_cmd (fun _ p => pkeeps quiet p) (cmd_task x.2);
  si_event : rest (fun p => pkeeps quiet p) (event_task x.2);
  si_timer : rest (fun p => rg quiet quiet p (fun _ _ => True) x.1 \/ (at_most n p /\ pkeeps stays_off p)) (timer_task x.2);
}.

Lemma silent_same n x s : quiet x.1 s -> silent n x ->
  s_auto_reconnect s = false /\ attempts 0 x.1 s /\
  rest (fun p => rg quiet quiet p (fun _ _ => True) s \/ (at_most (n - 0) p /\ pkeeps stays_off p)) (timer_task x.2).
Proof.
  intros Hq [H1 _ _ H4]. destruct (Hq H1) as [Ho Ha]. split_and!; [done..|]. rewrite Nat.sub_0_r.
  destruct (timer_task x.2) as [p|]; [|done]. destruct H4 as [H4|H4]; [left|by right]. by apply (rg_stable _ _ _ _ x.1).
Qed.

Lemma silent_moved n m x y :
  (forall op, m = Call op -> connecting op = false) -> moved m x y -> silent n x ->
  exists i, (i <= n)%nat /\ attempts i x.1 y.1 /\ silent (n - i) y.
Proof.
  intros Hc Hm Hs. pose proof Hs as [H1 H2 H3 H4].
  destruct Hm as [op s e c|ev s a c|s a e|op p r s s' e c Hp|p r s s' a c Hp|p r s s' a e Hp];
    cbn [cmd_task event_task timer_task fst snd rest rest_cmd] in *.
  - exists 0%nat. split_and!; [lia|by apply attempts_same|]. rewrite Nat.sub_0_r. split; try done. by apply quiet_api, Hc.
  - exists 0%nat. split_and!; [lia|by apply attempts_same|]. rewrite Nat.sub_0_r. split; try done. apply quiet_event.
  - exists 0%nat. split_and!; [lia|by apply attempts_same|]. rewrite Nat.sub_0_r. split; try done. left. by apply timer_quiet.
  - destruct (pkeeps_step _ _ _ _ _ H2 Hp) as [Hq Hr]. destruct (silent_same n (s, _) s' Hq Hs) as (Ho & Ha & Ht).
    exists 0%nat. split_and!; [lia|done|]. split; try done. by destruct r.
  - destruct (pkeeps_step _ _ _ _ _ H3 Hp) as [Hq Hr]. destruct (silent_same n (s, _) s' Hq Hs) as (Ho & Ha & Ht).
    exists 0%nat. split_and!; [lia|done|]. split; try done. by destruct r.
  - destruct H4 as [H4|[H4 H5]].
    + destruct (rg_step _ _ _ _ _ _ _ H4 Hp) as [Hq Hr]. destruct (Hq H1) as [Ho Ha].
      exists 0%nat. split_and!; [lia|done|]. split; try done. destruct r; [done|by left].
    + destruct (at_most_step _ _ _ _ _ H4 Hp) as (i & Hi & Ha & Hr).
      destruct (pkeeps_step _ _ _ _ _ H5 Hp) as [Ho Hr']. exists i. split_and!; [done..|].
      split; try done; [by apply Ho|]. destruct r; [done|by right].
Qed.

Lemma silent_moves n ms x y :
  make_moves ms x = Some y -> Forall (fun m => forall op, m = Call op -> connecting op = false) ms -> silent n x ->
  attempts n x.1 y.1.
Proof.
  revert n x. induction ms as [|m ms IH]; intros n x; simpl; [intros [= ->] _ _; by apply attempts_same|].
  destruct (make_move m x) as [z|] eqn:E; [|done]. intros Hy [Hm Hms]%Forall_cons_1 Hs.
  destruct (silent_moved n m x z Hm (make_move_moved _ _ _ E) Hs) as (i & Hi & Ha & Hz).
  replace n with (i + (n - i))%nat by lia. apply (attempts_trans _ _ _ z.1); [done|by apply IH].
Qed.

(** C7. [wifi_mgr_disconnect] is respected.  From the start of the program, in
    every interleaving of the single actions of the three tasks: once a call of
    [wifi_mgr_disconnect] has returned, and until [wifi_mgr_connect] or
    [wifi_mgr_init] is called, the driver's connect is called at most once, and
    not at all unless a callback of the timer had begun before and not ended. *)
Theorem no_connect_after_disconnect w ms0 x0 ms1 x1 ms2 x2 :
  make_moves ms0 (wifi_statics w, idle) = Some x0 ->
  make_moves (Call OpDisconnect :: ms1) x0 = Some x1 -> Forall not_call ms1 -> cmd_task x1.2 = None ->
  make_moves ms2 x1 = Some x2 -> Forall (fun m => forall op, m = Call op -> connecting op = false) ms2 ->
  attempts (match timer_task x1.2 with None => 0 | Some _ => 1 end) x1.1 x2.1.
Proof.
  intros H0 H1 Hc Hret H2 Hok. apply (silent_moves _ ms2); [done..|].
  assert (always x1 /\ switched_off x1) as [[Hcmd Hev Htm] Hoff].
  { apply always_moves in H0. simpl in H1. destruct x0 as [s0 [[?|] e c]]; [done|]. simpl in H1.
    apply (moves_keep (fun x => always x /\ switched_off x) not_call ms1 _ x1) in H1; [done| |done|].
    - intros m x y Hm Hv [Ha Hs]. split; [by apply (always_moved m x)|by apply (switched_moved m x)].
    - split; [by apply (always_moved (Call OpDisconnect) (s0, mk_tasks None e c)); [constructor|]|].
      apply disconnect_off. }
  unfold switched_off in Hoff. rewrite Hret in Hoff. split; [done|by rewrite Hret|..].
  - destruct (event_task x1.2); [apply Hev|done].
  - destruct (timer_task x1.2); [by right|done].
Qed.
End Quiet.

(** ** Persistence *)

Section Persist.
Context {W : Type} `{HP : !Platform W} `{HL : !NvsLaws W}.
Local Abbreviation wifi := (wifi W).
Implicit Types s : wifi.

(** Stored credentials are left alone, and the log grows by no result of
    [wifi_mgr_set_config]. *)
Definition not_saved (c : wifi_call) : bool := match c with LSaved _ => false | _ => true end.
Definition grown s s' : Prop := exists l, log s' = log s ++ l /\ forallb not_saved l = true.
Definition apart s s' : Prop := same_config s s' /\ grown s s'.

#[local] Instance grown_preorder : PreOrder grown.
Proof.
  split; [intros s; exists []; by rewrite app_nil_r|]. intros s1 s2 s3 (l1 & E1 & H1) (l2 & E2 & H2).
  exists (l1 ++ l2). by rewrite E2, E1, app_assoc, forallb_app, H1, H2.
Qed.

#[local] Instance apart_preorder : PreOrder apart.
Proof.
  split; [intros s; split; reflexivity|]. intros s1 s2 s3 [] []. split; by etransitivity.
Qed.

Lemma grown_same s s' : log s' = log s -> grown s s'.
Proof. intros E. exists []. by rewrite app_nil_r. Qed.

Lemma grown_add c s : not_saved c = true -> grown s (add_log c s).
Proof. intros H. exists [c]. split; [done|]. simpl. by rewrite H. Qed.

Lemma apart_zoom {A} (f : W -> A * W) : frame stored f -> keeps apart (zoom dev set_dev f).
Proof. intros Hf. apply keeps_zoom. intros s. split; [intros k _; apply Hf|by apply grown_same]. Qed.

Lemma apart_modify (f : wifi -> wifi) :
  (forall s, dev (f s) = dev s /\ log (f s) = log s) -> keeps apart (modify f).
Proof. intros H. apply keeps_modify. intros s. destruct (H s) as [E1 E2]. split; [intros k _; by rewrite E1|by apply grown_same]. Qed.

Lemma apart_log c : not_saved c = true -> keeps apart (modify (add_log c)).
Proof. intros H. apply keeps_modify. intros s. split; [done|by apply grown_add]. Qed.

Lemma apart_close : keeps apart (modify (fun s => set_dev (nvs_close (dev s)) s)).
Proof. apply keeps_modify. intros s. split; [intros k _; apply law_close|by apply grown_same]. Qed.

Hint Resolve apart_zoom apart_close : keeps.
Hint Extern 1 (keeps apart (modify (add_log _))) => apply apart_log; reflexivity : keeps.
Hint Extern 2 (keeps apart (modify _)) => apply apart_modify; intros ?; split; reflexivity : keeps.

Lemma apart_event e : pkeeps apart (on_event e).
Proof. destruct e as [[]|[]]; wifi_steps. Qed.
Lemma apart_timer : pkeeps apart reconnect_timer_cb.
Proof. wifi_steps. Qed.

(** Between two states of the same credentials; [s] only grew since [s0]. *)
Definition holds (k : nvs_key) (v : list Z) s : Prop := stored (dev s) k = Some v.

Lemma holds_apart k v s s' : k <> NVS_KEY_HOSTNAME -> apart s s' -> holds k v s -> holds k v s'.
Proof. intros Hk [H _] Hs. unfold holds. by rewrite H. Qed.

(** One platform call of [wifi_mgr_set_config], the others running before it. *)
Lemma rg_call {A} (f : W -> A * W) (Q : A -> wifi -> Prop) s :
  (forall s1, apart s s1 -> Q (f (dev s1)).1 (set_dev (f (dev s1)).2 s1)) ->
  rg apart (fun _ _ => True) (drv f) Q s.
Proof. intros H s1 H1. unfold zoom. specialize (H s1 H1). by destruct (f (dev s1)). Qed.

Lemma rg_set_str k v (Q : Z -> wifi -> Prop) s0 s :
  grown s0 s -> str_ok v ->
  (forall r s', grown s0 s' -> (r = ESP_OK -> holds k v s') ->
     (forall k' v', k' <> k -> k' <> NVS_KEY_HOSTNAME -> holds k' v' s -> holds k' v' s') -> Q r s') ->
  rg apart (fun _ _ => True) (set_str k v) Q s.
Proof.
  intros Hg Hv HQ s1 H1. pose proof (law_set (dev s1) k v Hv) as Hs.
  pose proof (law_set_fail (dev s1) k v) as Hf. run_simpl. destruct (nvs_set_str k v (dev s1)) as [r w].
  simpl in *. split; [done|]. apply HQ.
  - etransitivity; [exact Hg|]. etransitivity; [apply H1|]. by apply (grown_add (LNvsSet k v)).
  - intros ->. unfold holds. simpl. by rewrite (Hs eq_refl), decide_True.
  - intros k' v' Hk Hn Hh. unfold holds. simpl. rewrite Hf by done. by apply (holds_apart _ _ s).
Qed.

Lemma rg_value {A} (a : A) (m : prog wifi A) (Q : A -> wifi -> Prop) s :
  m = mret a \/ (exists o, m = plift o /\ o = Ret a) ->
  (forall s', apart s s' -> Q a s') -> rg apart (fun _ _ => True) m Q s.
Proof. intros [-> | (o & -> & ->)] HQ s1 H1; by split; [|apply HQ]. Qed.

(** What [wifi_mgr_set_config] promises of its result. *)
Definition set_post id pw s (r : Z) s' : Prop :=
  grown s s' /\ (r = ESP_OK -> zlen id <= WIFI_MGR_SSID_MAX /\ zlen pw <= WIFI_MGR_PASS_MAX /\
                 holds NVS_KEY_SSID id s' /\ holds NVS_KEY_PASS pw s').

Lemma set_post_apart id pw s r s1 s2 : apart s1 s2 -> set_post id pw s r s1 -> set_post id pw s r s2.
Proof.
  intros H [Hg Hr]. split; [etransitivity; [exact Hg|apply H]|]. intros E. destruct (Hr E) as (? & ? & ? & ?).
  by split_and!; [..|apply (holds_apart _ _ s1)|apply (holds_apart _ _ s1)].
Qed.

Lemma set_post_fail id pw s r s' : grown s s' -> r <> ESP_OK -> set_post id pw s r s'.
Proof. by split. Qed.

Lemma rg_fail id pw s (r : Z) s' :
  grown s s' -> r <> ESP_OK -> rg apart (fun _ _ => True) (mret r) (set_post id pw s) s'.
Proof.
  intros Hg Hr. apply (rg_value r); [by left|]. intros s2 [_ H2]. by apply set_post_fail; [etransitivity|].
Qed.

(** The end of the function: commit and close. *)
Lemma rg_commit id pw s (r : Z) s' :
  set_post id pw s r s' ->
  rg apart (fun _ _ => True)
     (r ← (if r =? ESP_OK then drv nvs_commit else mret r); close_nvs ;; mret r) (set_post id pw s) s'.
Proof.
  intros Hs. apply rg_bind. apply (rg_mono _ _ _ (set_post id pw s)).
  - intros r' s2 H2. apply rg_bind, (rg_frame apart (fun _ _ => True)); [done|wifi_steps|]. intros _ s3 H3.
    apply (rg_value r'); [by left|]. intros s4 H4. by do 2 (eapply set_post_apart; [eassumption|]).
  - destruct (Z.eqb_spec r ESP_OK) as [->|Hr].
    + apply rg_call. intros s2 H2. destruct (set_post_apart _ _ _ _ _ _ H2 Hs) as [Hg Hr].
      destruct (Hr eq_refl) as (? & ? & Hi & Hp). split; [etransitivity; [exact Hg|by apply grown_same]|]. intros _.
      by split_and!; [..|unfold holds; simpl; rewrite law_commit|unfold holds; simpl; rewrite law_commit].
    + apply (rg_value r); [by left|]. intros s2 H2. by eapply set_post_apart.
Qed.

Lemma set_config_holds id pw r1 r2 s :
  str_ok id -> str_ok pw ->
  rg apart (fun _ _ => True) (wifi_mgr_set_config (Some (id ++ 0 :: r1)) (Some (pw ++ 0 :: r2))) (set_post id pw s) s.
Proof.
  intros Hid Hpw. unfold wifi_mgr_set_config.
  apply rg_bind, (rg_value id); [right; eexists; split; [done|by apply c_str_app]|]. intros s1 [_ H1].
  destruct (zlen id =? 0); [by apply rg_fail|]. destruct (Z.ltb_spec WIFI_MGR_SSID_MAX (zlen id)); [by apply rg_fail|].
  cbn [orb]. apply rg_bind, (rg_value pw); [right; eexists; split; [done|by apply c_str_app]|]. intros s2 [_ H2].
  destruct (Z.ltb_spec WIFI_MGR_PASS_MAX (zlen pw)); [apply rg_fail; [by etransitivity|done]|].
  apply rg_bind, rg_call. intros s3 [_ H3]. destruct (nvs_open _ _) as [r w]. cbn [fst snd].
  assert (grown s (set_dev w s3)) as Hg
    by (etransitivity; [exact H1|]; etransitivity; [exact H2|]; etransitivity; [exact H3|by apply grown_same]).
  destruct (Z.eqb_spec r ESP_OK) as [->|Hr]; cbn [negb]; [|by apply rg_fail]. clear H1 H2 H3.
  apply rg_bind, (rg_set_str _ _ _ s); [done..|]. clear Hg. intros ri s4 Hg Hi _. apply rg_bind.
  destruct (Z.eqb_spec ri ESP_OK) as [->|Hr].
  - apply (rg_set_str _ _ _ s); [done..|]. clear Hg. intros rp s5 Hg Hp Hk. apply rg_commit. split; [done|].
    intros E. split_and!; [lia..| |by apply Hp]. by apply Hk; [| |apply Hi].
  - apply (rg_value ri); [by left|]. intros s5 [_ H5]. apply rg_commit, set_post_fail; [by etransitivity|done].
Qed.

(** *** The moves of the call, and those after it *)

(** The tasks other than the command task keep [apart]. *)
Record aside (x : wifi * tasks W) : Prop := {
  as_event : rest (pkeeps apart) (event_task x.2);
  as_timer : rest (pkeeps apart) (timer_task x.2);
}.

Lemma aside_moved m x y : moved m x y -> aside x -> aside y.
Proof.
  intros Hm. destruct Hm as [op s e c|ev s a c|s a e|op p r s s' e c Hp|p r s s' a c Hp|p r s s' a e Hp];
    intros [H1 H2]; split; cbn [event_task timer_task fst snd rest] in *; try done.
  - apply apart_event.
  - apply apart_timer.
  - destruct r; [done|]. by destruct (pkeeps_step _ _ _ _ _ H1 Hp).
  - destruct r; [done|]. by destruct (pkeeps_step _ _ _ _ _ H2 Hp).
Qed.

(** One result of [wifi_mgr_set_config] since [s0], and what it says. *)
Definition saved_since id pw s0 s : Prop :=
  exists l r l', log s = log s0 ++ l ++ LSaved r :: l' /\
    forallb not_saved l = true /\ forallb not_saved l' = true /\
    (r = ESP_OK -> zlen id <= WIFI_MGR_SSID_MAX /\ zlen pw <= WIFI_MGR_PASS_MAX /\
                   holds NVS_KEY_SSID id s /\ holds NVS_KEY_PASS pw s).

Lemma saved_since_apart id pw s0 s s' : apart s s' -> saved_since id pw s0 s -> saved_since id pw s0 s'.
Proof.
  intros H (l & r & l' & E & H1 & H2 & Hr). pose proof H as [_ (l2 & E2 & Hl2)]. exists l, r, (l' ++ l2).
  rewrite E2, E, forallb_app, H2, <-!app_assoc. split_and!; [done..|]. intros Er. destruct (Hr Er) as (? & ? & ? & ?).
  by split_and!; [..|apply (holds_apart _ _ s)|apply (holds_apart _ _ s)].
Qed.

Lemma forallb_member (l : list wifi_call) c : forallb not_saved l = true -> c ∈ l -> not_saved c = true.
Proof. intros H Hc. rewrite forallb_forall in H. by apply H, list_elem_of_In. Qed.

Lemma saved_since_ok id pw s0 s l :
  saved_since id pw s0 s -> log s = log s0 ++ l -> LSaved ESP_OK ∈ l ->
  zlen id <= WIFI_MGR_SSID_MAX /\ zlen pw <= WIFI_MGR_PASS_MAX /\ holds NVS_KEY_SSID id s /\ holds NVS_KEY_PASS pw s.
Proof.
  intros (l1 & r & l2 & E & H1 & H2 & Hr) El Hl. apply Hr. rewrite El in E. apply app_inv_head in E. subst l.
  apply elem_of_app in Hl as [Hl|[Hl|Hl]%elem_of_cons].
  - by apply (forallb_member _ _ H1) in Hl.
  - by injection Hl as <-.
  - by apply (forallb_member _ _ H2) in Hl.
Qed.

Lemma set_config_call id pw r1 r2 s :
  str_ok id -> str_ok pw ->
  rg apart (fun _ _ => True) (api (OpSetConfig (Some (id ++ 0 :: r1)) (Some (pw ++ 0 :: r2))))
     (fun _ s' => saved_since id pw s s') s.
Proof.
  intros Hid Hpw. apply rg_bind. eapply rg_mono; [|by apply set_config_holds]. intros r s1 H1.
  apply rg_modify. intros s2 H2. split; [done|].
  destruct (set_post_apart _ _ _ _ _ _ H2 H1) as [(l & E & Hl) Hr]. exists l, r, []. simpl. by rewrite E, <-app_assoc.
Qed.

(** While [wifi_mgr_set_config] runs, and after it. *)
Definition saving id pw s0 (x : wifi * tasks W) : Prop :=
  match cmd_task x.2 with
  | Some (_, p) => rg apart (fun _ _ => True) p (fun _ => saved_since id pw s0) x.1
  | None => saved_since id pw s0 x.1
  end.

Lemma saving_moved id pw s0 m x y :
  not_call m -> moved m x y -> aside x -> saving id pw s0 x -> saving id pw s0 y.
Proof.
  intros Hc Hm. destruct Hm as [op s e c|ev s a c|s a e|op p r s s' e c Hp|p r s s' a c Hp|p r s s' a e Hp];
    intros [H1 H2] Hs; unfold saving in *; cbn [cmd_task event_task timer_task fst snd rest] in *;
    try done; [by destruct (Hc op)|..].
  - destruct (rg_step _ _ _ _ _ _ _ Hs Hp) as [_ Hr]. by destruct r.
  - destruct (pkeeps_step _ _ _ _ _ H1 Hp) as [Ho _].
    destruct a as [[op q]|]; [by apply (rg_stable _ _ _ _ s)|by apply (saved_since_apart _ _ _ s)].
  - destruct (pkeeps_step _ _ _ _ _ H2 Hp) as [Ho _].
    destruct a as [[op q]|]; [by apply (rg_stable _ _ _ _ s)|by apply (saved_since_apart _ _ _ s)].
Qed.

(** C14. Saved credentials persist.  In every interleaving of the single actions
    of the three tasks: if a call of [wifi_mgr_set_config] for an SSID and a
    password returns success, then however the tasks go on without saving
    others (connections, disconnections, events, scans, hostname changes),
    [wifi_mgr_get_config] succeeds and returns exactly these two strings. *)
Theorem credentials_persist id pw r1 r2 s ms0 x0 ms1 x1 l ms2 x2 :
  str_ok id -> str_ok pw ->
  make_moves ms0 (s, idle) = Some x0 ->
  make_moves (Call (OpSetConfig (Some (id ++ 0 :: r1)) (Some (pw ++ 0 :: r2))) :: ms1) x0 = Some x1 ->
  Forall not_call ms1 -> cmd_task x1.2 = None -> log x1.1 = log x0.1 ++ l -> LSaved ESP_OK ∈ l ->
  make_moves ms2 x1 = Some x2 -> Forall (fun m => forall i q, m <> Call (OpSetConfig i q)) ms2 ->
  exists cfg s', run (wifi_mgr_get_config zero_config) x2.1 = Done (ESP_OK, cfg) s' /\
    c_str (ssid cfg) = Ret id /\ c_str (password cfg) = Ret pw.
Proof.
  intros Hid Hpw H0 H1 Hc Hret Hlog Hl H2 Hok.
  assert (aside x1 /\ saving id pw x0.1 x1) as [[He Ht] Hsv].
  { apply (moves_keep aside (fun _ => True)) in H0; [|intros; by eapply aside_moved|by apply Forall_true|by split].
    simpl in H1. destruct x0 as [s0 [[?|] e c]]; [done|]. simpl in H1.
    apply (moves_keep (fun x => aside x /\ saving id pw s0 x) not_call ms1 _ x1) in H1; [done| |done|].
    - intros m x y Hm Hv [Ha Hs]. split; [by apply (aside_moved m x)|by apply (saving_moved _ _ _ m x)].
    - split; [by destruct H0|by apply set_config_call]. }
  unfold saving in Hsv. rewrite Hret in Hsv.
  destruct (saved_since_ok _ _ _ _ _ Hsv Hlog Hl) as (Hl1 & Hl2 & Hi & Hp).
  assert (same_config x1.1 x2.1) as Hsame.
  { assert (forall p : prog wifi unit, pkeeps apart p -> rg same_config same_config p (fun _ _ => True) x1.1) as Hw
      by (intros p Hk; by apply rg_keeps, (pkeeps_mono apart); [intros ? ? []|]).
    apply (moves_work same_config (fun _ => True) (fun m => forall i q, m <> Call (OpSetConfig i q))) in H2
      as [H2 _]; try done.
    - intros op s' Hop _. apply rg_keeps, same_api. intros i q ->. by destruct (Hop i q).
    - intros e s' _. apply rg_keeps, same_event.
    - intros s' _. apply rg_keeps, same_timer.
    - split; [by rewrite Hret|destruct (event_task x1.2)|destruct (timer_task x1.2)]; try done; by apply Hw. }
  unfold holds, WIFI_MGR_SSID_MAX, WIFI_MGR_PASS_MAX in *.
  eexists _, _. split; [apply (get_config_run id pw)|]; unfold WIFI_MGR_SSID_MAX, WIFI_MGR_PASS_MAX; try lia;
    [by rewrite Hsame..|]. simpl. split; apply c_str_char_array; done || lia.
Qed.
End Persist.
(** ** What reaches the driver *)

Section Connect.
Context {W : Type} `{HP : !Platform W} `{NvsLaws0 : !NvsLaws W}.
Local Abbreviation wifi := (wifi W).
Implicit Types s : wifi.

(** The driver's arrays hold one character less than their size. *)
Definition sent_config (id pw : list Z) : sta_config :=
  mk_sta (char_array sizeof_sta_ssid (take (sizeof_sta_ssid - 1) id))
         (char_array sizeof_sta_password (take (sizeof_sta_password - 1) pw))
         (match pw with [] => WIFI_AUTH_OPEN | _ => WIFI_AUTH_WPA2_PSK end).

Lemma char_array_nul n l :
  (length l < n)%nat -> char_array n l = l ++ 0 :: replicate (n - length l - 1) 0.
Proof.
  intros H. unfold char_array. f_equal. destruct (n - length l)%nat eqn:E; [lia|].
  simpl. by rewrite Nat.sub_0_r.
Qed.

Lemma sta_of_config_run id pw :
  str_ok id -> str_ok pw -> (length id < 33)%nat -> (length pw < 65)%nat ->
  (0 < sizeof_sta_ssid)%nat -> (0 < sizeof_sta_password)%nat ->
  sta_of_config (mk_config (char_array 33 id) (char_array 65 pw)) = Ret (sent_config id pw).
Proof.
  intros Hid Hpw H1 H2 Hn Hm. unfold sta_of_config. cbn [ssid password].
  rewrite !char_array_nul by done.
  replace (Z.of_nat sizeof_sta_ssid - 1) with (Z.of_nat (sizeof_sta_ssid - 1)) by lia.
  replace (Z.of_nat sizeof_sta_password - 1) with (Z.of_nat (sizeof_sta_password - 1)) by lia.
  rewrite (strncpy_zeroed sizeof_sta_ssid _ _ (take (sizeof_sta_ssid - 1) id)) by (done || lia || by apply c_strn_app).
  rewrite (strncpy_zeroed sizeof_sta_password _ _ (take (sizeof_sta_password - 1) pw)) by (done || lia || by apply c_strn_app).
  rewrite !bind_Ret. destruct Hpw as [|c pw Hc Hpw]; [done|]. simpl.
  by rewrite (proj2 (Z.eqb_neq _ _) Hc).
Qed.

Context (Hsz1 : (0 < sizeof_sta_ssid)%nat) (Hsz2 : (0 < sizeof_sta_password)%nat).

(** The stored credentials, as [wifi_mgr_set_config] leaves them. *)
Record saved s (id pw : list Z) : Prop := {
  sv_id : str_ok id; sv_pw : str_ok pw;
  sv_ssid : stored (dev s) NVS_KEY_SSID = Some id;
  sv_pass : stored (dev s) NVS_KEY_PASS = Some pw;
  sv_len : zlen id <= WIFI_MGR_SSID_MAX; sv_len' : zlen pw <= WIFI_MGR_PASS_MAX;
}.

Lemma saved_load s id pw :
  saved s id pw ->
  run (wifi_mgr_get_config zero_config) s
  = Done (ESP_OK, mk_config (char_array 33 id) (char_array 65 pw)) (after_load s) /\
  sta_of_config (mk_config (char_array 33 id) (char_array 65 pw)) = Ret (sent_config id pw).
Proof using NvsLaws0 Hsz1 Hsz2.
  intros [Hi Hp H1 H2 H3 H4]. split; [by apply get_config_run|].
  unfold WIFI_MGR_SSID_MAX, WIFI_MGR_PASS_MAX in *. apply sta_of_config_run; done || lia.
Qed.

(** [wifi_mgr_connect] up to the driver's verdict on the configuration. *)
Lemma connect_run s id pw :
  saved s id pw ->
  exists s1, log s1 = log s ++ [LSetConfig (sent_config id pw)] /\ s_auto_reconnect s1 = true /\
    s_state s1 = WIFI_MGR_STATE_CONNECTING /\
    dev s1 = (esp_wifi_set_config (sent_config id pw) (dev (after_load s))).2 /\
    run wifi_mgr_connect s
    = run (if (esp_wifi_set_config (sent_config id pw) (dev (after_load s))).1 =? ESP_OK
       then r ← driver_connect;
            (if negb (r =? ESP_OK) then pmodify (set_state WIFI_MGR_STATE_FAILED) else mret tt) ;;
            mret r
       else pabort) s1.
Proof using NvsLaws0 Hsz1 Hsz2.
  intros Hsv. destruct (saved_load _ _ _ Hsv) as [Hg Hc].
  unfold wifi_mgr_connect. rewrite run_bind, Hg. cbn [fst snd].
  rewrite Z.eqb_refl. cbn [negb]. rewrite run_bind. cbn [run]. unfold lift. rewrite Hc.
  unfold PROG_ERROR_CHECK, driver_set_config, xEventGroupClearBits. wifi_run. clear Hg.
  destruct (esp_wifi_set_config _ _) as [r w]. simpl.
  eexists (set_dev w (add_log _ (set_auto true (set_state _ (set_eg _ (after_load s)))))).
  simpl. split_and!; [done..|]. by destruct (r =? ESP_OK).
Qed.

(** What [wifi_mgr_connect] asks of the driver.  With credentials stored, a
    driver that accepts the configuration is given exactly one configuration,
    the SSID and the password cut to one character less than the driver's
    arrays (WPA2 unless the password is empty), then one connect; automatic
    reconnection is on and the state is CONNECTING, or FAILED if the connect
    call fails.  A driver that refuses the configuration makes the device
    restart. *)
Theorem connect_credentials s id pw :
  saved s id pw ->
  ((esp_wifi_set_config (sent_config id pw) (dev (after_load s))).1 = ESP_OK ->
   exists r s', run wifi_mgr_connect s = Done r s' /\
     log s' = log s ++ [LSetConfig (sent_config id pw); LConnect] /\
     s_auto_reconnect s' = true /\
     s_state s' = if r =? ESP_OK then WIFI_MGR_STATE_CONNECTING else WIFI_MGR_STATE_FAILED) /\
  ((esp_wifi_set_config (sent_config id pw) (dev (after_load s))).1 <> ESP_OK ->
   exists s', run wifi_mgr_connect s = Reset s').
Proof using NvsLaws0 Hsz1 Hsz2.
  intros Hsv. destruct (connect_run _ _ _ Hsv) as (s1 & Hl & Ha & Hs & _ & ->).
  split; intros Hr; [rewrite Hr, Z.eqb_refl|rewrite (proj2 (Z.eqb_neq _ _) Hr); by eexists].
  unfold driver_connect. wifi_run. destruct (esp_wifi_connect _) as [r w]. exists r.
  destruct (r =? ESP_OK); eexists; (split; [reflexivity|]); simpl; by rewrite Hl, <-app_assoc.
Qed.

(** C40. Lost connections are retried.  Take the driver's report of a
    disconnection while automatic reconnection is on and the timer exists.  If
    the timer command does not fit, the handler, whose result is not tested,
    leaves the timer as it was.  If it does, the handler leaves the periodic
    timer running; and a callback of the timer in the state then left, with
    credentials stored, configures the driver once with them, makes one
    connection attempt, and leaves CONNECTING if the driver accepts it and
    DISCONNECTED if not.  (Handler and callback are each run to their end here.) *)
Theorem reconnect_after_loss s :
  s_auto_reconnect s = true -> s_reconnect_timer s <> None ->
  exists s1, run (on_wifi_event WIFI_EVENT_STA_DISCONNECTED) s = Done tt s1 /\
    s_reconnect_timer s1 = (if (timer_cmd (dev s)).1 then Some true else s_reconnect_timer s) /\
    forall id pw, saved s1 id pw ->
      exists s2, run reconnect_timer_cb s1 = Done tt s2 /\
        log s2 = log s ++ [LSetConfig (sent_config id pw); LConnect] /\
        s_state s2 = if (esp_wifi_connect (esp_wifi_set_config (sent_config id pw) (dev (after_load s1))).2).1 =? ESP_OK
                     then WIFI_MGR_STATE_CONNECTING else WIFI_MGR_STATE_DISCONNECTED.
Proof using NvsLaws0 Hsz1 Hsz2.
  intros Ha Ht.
  assert (exists s1, run (on_wifi_event WIFI_EVENT_STA_DISCONNECTED) s = Done tt s1 /\
    s_reconnect_timer s1 = (if (timer_cmd (dev s)).1 then Some true else s_reconnect_timer s) /\
    s_auto_reconnect s1 = true /\ s_state s1 = WIFI_MGR_STATE_DISCONNECTED /\ log s1 = log s)
    as (s1 & He & Ht1 & Ha1 & Hs1 & Hl).
  { unfold on_wifi_event, clear_ip, set_ip_byte, xTimerCmd, xEventGroupSetBits. wifi_run.
    rewrite Ha, (bool_decide_eq_true_2 _ Ht). simpl.
    destruct (timer_cmd (dev s)) as [ok w]. destruct ok; eexists; (split; [reflexivity|]); done. }
  exists s1. split_and!; [done..|]. intros id pw Hsv. destruct (saved_load _ _ _ Hsv) as [Hg Hc].
  assert (run reconnect_timer_check s1 = Done true s1) as Hck
    by (unfold reconnect_timer_check; wifi_run; rewrite Ha1; wifi_run; rewrite Hs1; wifi_run; rewrite Hs1; done).
  unfold reconnect_timer_cb. rewrite run_bind, Hck. unfold reconnect_timer_act.
  rewrite run_bind, Hg. cbn [fst snd]. rewrite Z.eqb_refl. cbn [negb]. rewrite run_bind. cbn [run]. unfold lift.
  rewrite Hc. unfold driver_set_config, driver_connect. wifi_run. clear Hg.
  destruct (esp_wifi_set_config _ _) as [r w]. simpl. destruct (esp_wifi_connect w) as [r' w']. simpl.
  destruct (r' =? ESP_OK); eexists; (split; [reflexivity|]); simpl; by rewrite <-app_assoc, Hl.
Qed.

(** ** Start-up with a refused configuration *)

(** Calls that leave the stored credentials alone. *)
Lemma saved_drv {A} (f : W -> A * W) s id pw a w :
  frame stored f -> saved s id pw -> f (dev s) = (a, w) -> saved (set_dev w s) id pw.
Proof using Type.
  intros Hf [] E. assert (forall k, stored w k = stored (dev s) k) as Hw
    by (intros k; by rewrite <-(Hf (dev s) k), E).
  split; try done; simpl; by rewrite Hw.
Qed.

Lemma saved_same s s' id pw : dev s' = dev s -> saved s id pw -> saved s' id pw.
Proof using Type. intros E []. by split; try rewrite E. Qed.

Lemma init_check_wp c (Q : unit -> wifi -> Prop) s id pw :
  saved s id pw -> (forall s', saved s' id pw -> Q tt s') ->
  wpr (fun s => saved s id pw) (run (init_check c)) Q s.
Proof using Type.
  intros Hs HQ. unfold init_check, drv. wp_steps.
  assert (saved (set_dev t s) id pw) by (by eapply saved_drv; [apply law_init|..]).
  case_match; auto.
Qed.

Lemma get_hostname_wp (Q : _ -> wifi -> Prop) n s id pw :
  saved s id pw ->
  (forall r out s', saved s' id pw -> (r = ESP_OK -> is_ret (c_str out)) -> Q (r, out) s') ->
  wpr (fun s => saved s id pw) (run (wifi_mgr_get_hostname (replicate n 0))) Q s.
Proof using Type.
  intros Hs HQ. unfold wifi_mgr_get_hostname, drv. wp_steps.
  all: assert (saved (set_dev t s) id pw) as Hs' by (by eapply saved_drv; [apply law_open|..]).
  { apply HQ; [done|]. intros ->. by rewrite Z.eqb_refl in *. }
  unfold get_str. wp_steps. simpl.
  destruct (nvs_get_str NVS_KEY_HOSTNAME (zlen (replicate n 0)) t) as [r bytes] eqn:E.
  pose proof (law_get_bound t NVS_KEY_HOSTNAME (zlen (replicate n 0)) (Zle_0_nat _)) as Hb.
  rewrite E in Hb. simpl in Hb.
  eapply wp_lift; [by apply mem_write_ok|]. wp_step. unfold close_nvs. wp_steps.
  apply HQ.
  - destruct Hs'. split; try done; simpl; by rewrite law_close.
  - simpl. intros ->. destruct (law_get_ok _ _ _ _ E) as (l & Hl & _ & -> & _). exists l.
    rewrite <-app_assoc. by apply c_str_app.
Qed.

(** A refused configuration keeps the device from starting.  With
    credentials in flash that the driver refuses, [wifi_mgr_init] ends in a
    restart of the device, whatever else the platform answers, and with the
    same credentials still in flash, so every later start ends the same way. *)
Theorem init_restarts_on_refused_config w id pw :
  saved (wifi_statics w) id pw ->
  (forall w', (esp_wifi_set_config (sent_config id pw) w').1 <> ESP_OK) ->
  exists s', run wifi_mgr_init (wifi_statics w) = Reset s' /\ saved (wifi_statics (dev s')) id pw.
Proof using NvsLaws0 Hsz1 Hsz2.
  intros Hsv Href.
  assert (wpr (fun s => saved s id pw) (run wifi_mgr_init) (fun _ _ => False) (wifi_statics w)) as Hwp.
  2: { unfold wpr in Hwp. destruct (run wifi_mgr_init _) as [|s'| |]; try done.
       exists s'. split; [done|]. by apply (saved_same s'). }
  unfold wifi_mgr_init. do 3 (wp_step; cbv beta). unfold drv. do 6 (wp_step; cbv beta).
  match goal with |- wpr _ _ _ ?s => assert (saved s id pw) as H1 end.
  { apply (saved_same (set_dev t (set_eg (fun _ => 0) (wifi_statics w)))); [done|].
    eapply saved_drv; [apply law_timer_create| |done]. by apply (saved_same (wifi_statics w)). }
  wp_step. apply (wp_mono _ (fun _ s => saved s id pw)); [clear H1; intros _ s1 H1|by destruct a].
  do 6 (wp_step; eapply init_check_wp; [eassumption|]; clear H1; intros ? H1).
  wp_step. eapply get_hostname_wp; [eassumption|]. clear H1. intros r out s8 H1 Hh. cbn [fst snd].
  wp_step. apply (wp_mono _ (fun _ s => saved s id pw)).
  2: { wp_step; [|done]. destruct Hh as [h Hh]; [by apply Z.eqb_eq|].
       wp_step. eapply wp_lift; [done|]. unfold set_hostname, noted. wp_steps.
       eapply saved_drv; [apply law_netif| |done]. by apply (saved_same s8). }
  clear H1 Hh s8. intros _ s8 H1. do 3 (wp_step; cbv beta).
  assert (saved (set_dev t0 s8) id pw) as H2 by (by eapply saved_drv; [apply law_random|..]).
  pose proof (law_random_length 6 (dev s8)) as Hlen. rewrite H0 in Hlen.
  destruct a0 as [|m0 mac]; [done|]. wp_step. eapply wp_lift; [done|].
  do 2 (wp_step; eapply init_check_wp; [eassumption|]; clear H2; intros ? H2).
  wp_step. destruct (saved_load _ _ _ H2) as [Hg _]. unfold wpr at 1. rewrite Hg. cbn [fst snd].
  rewrite Z.eqb_refl. do 2 wp_step.
  assert (forall s, saved s id pw -> saved (after_load s) id pw) as Hload
    by (intros ? []; split; rewrite ?after_load_stored; done).
  match type of H2 with saved ?s _ _ =>
    destruct (connect_run (after_load s) id pw) as (s2 & _ & _ & _ & Hd & Hc); [by apply Hload|] end.
  unfold wpr at 1. rewrite Hc, (proj2 (Z.eqb_neq _ _) (Href _)). simpl.
  apply Hload, Hload in H2 as []. split; try done; by rewrite Hd, law_set_config.
Qed.
End Connect.

(** ** Scanning *)

(** A record of the driver: an SSID array of at least 32 bytes. *)
Definition record_ok (r : ap_record) : Prop :=
  (32 <= length (rec_ssid r))%nat /\ bytes_ok (rec_ssid r).

(** An entry of [ap_list] filled from a record. *)
Definition ap_of (r : ap_record) (a : wifi_mgr_ap_info_t) : Prop :=
  length (ap_ssid a) = 33%nat /\ c_strn 32 (rec_ssid r) = c_str (ap_ssid a) /\
  is_ret (c_str (ap_ssid a)) /\ ap_rssi a = rec_rssi r /\ ap_authmode a = u8 (rec_authmode r).

Lemma entry_filled r a :
  record_ok r -> length (ap_ssid a) = 33%nat ->
  exists l, strncpy (ap_ssid a) (rec_ssid r) WIFI_MGR_SSID_MAX = Ret l /\
    ap_of r (mk_ap (<[Z.to_nat WIFI_MGR_SSID_MAX := 0]> l) (rec_rssi r) (u8 (rec_authmode r))).
Proof.
  intros [Hr _] Ha. unfold strncpy. change (Z.to_nat WIFI_MGR_SSID_MAX) with 32%nat.
  destruct (c_strn 32 (rec_ssid r)) as [t|] eqn:E.
  - destruct (c_strn_inv _ _ _ E) as [Hok Hl]. rewrite bind_Ret.
    rewrite mem_write_ok by (rewrite length_app, length_replicate; lia).
    eexists. split; [reflexivity|].
    rewrite length_app, length_replicate. replace (length t + (32 - length t))%nat with 32%nat by lia.
    assert (length (drop 32 (ap_ssid a)) = 1%nat) as Hd by (rewrite length_drop; lia).
    destruct (drop 32 (ap_ssid a)) as [|x [|]]; [done| |done].
    assert (<[32%nat:=0]> ((t ++ replicate (32 - length t) 0) ++ [x])
            = t ++ 0 :: replicate (32 - length t) 0) as Hins.
    { rewrite insert_app_r_alt by (rewrite length_app, length_replicate; lia).
      rewrite length_app, length_replicate. replace (32 - (length t + (32 - length t)))%nat with 0%nat by lia.
      change (<[0%nat:=0]> [x]) with [0].
      rewrite <-app_assoc. f_equal. change [0] with (replicate 1 0).
      rewrite <-replicate_add, Nat.add_comm. done. }
    unfold ap_of. cbn [ap_ssid ap_rssi ap_authmode]. rewrite Hins, c_str_app, E by done.
    split_and!; try done; [|by exists t]. rewrite length_app. simpl. rewrite length_replicate. lia.
  - exfalso. revert Hr E. generalize 32%nat as n, (rec_ssid r) as l. intros n l. revert l.
    induction n as [|n IH]; intros [|c l] Hl; simpl in *; try done; try lia.
    destruct (c =? 0); [done|]. specialize (IH l ltac:(lia)). by destruct (c_strn n l).
Qed.

Lemma scan_loop_spec n i records l :
  (i + n <= length records)%nat -> (i + n <= length l)%nat ->
  Forall record_ok records ->
  Forall (fun a => length (ap_ssid a) = 33%nat) l ->
  exists l', scan_loop n i records l = Ret l' /\ length l' = length l /\
    (forall j, (j < i)%nat \/ (i + n <= j)%nat -> l' !! j = l !! j) /\
    (forall j r, (i <= j < i + n)%nat -> records !! j = Some r ->
       exists a, l' !! j = Some a /\ ap_of r a).
Proof.
  revert i l. induction n as [|n IH]; intros i l Hi Hl Hr Ha; simpl.
  - exists l. split_and!; auto. intros j r Hj. lia.
  - destruct (lookup_lt_is_Some_2 records i) as [r Er]; [lia|].
    destruct (lookup_lt_is_Some_2 l i) as [a Ea]; [lia|]. rewrite Er, Ea.
    destruct (entry_filled r a) as (t & Ht & Hap).
    { by apply (Forall_lookup_1 _ _ _ _ Hr Er). } { by apply (Forall_lookup_1 _ _ _ _ Ha Ea). }
    rewrite Ht, bind_Ret. set (a' := mk_ap _ _ _) in *.
    destruct (IH (S i) (<[i:=a']> l)) as (l' & -> & Hlen & Hout & Hin); try done; try lia.
    { rewrite length_insert. lia. }
    { apply Forall_insert; [done|]. apply Hap. }
    exists l'. rewrite length_insert in Hlen. split_and!; [done..| |].
    + intros j Hj. rewrite Hout by lia. apply list_lookup_insert_ne. lia.
    + intros j r' Hj Hr'. destruct (decide (j = i)) as [->|].
      * exists a'. rewrite Hout by lia. rewrite list_lookup_insert_eq by lia.
        replace r' with r by congruence. done.
      * apply Hin; [lia|done].
Qed.

Section Scan.
Context {W : Type} `{HP : !Platform W}.

(** Documented behaviour of the driver: at most the requested number of
    records. *)
Context (Hdriver : forall n w r recs w',
  0 <= n -> esp_wifi_scan_get_ap_records n w = ((r, recs), w') ->
  zlen recs <= n /\ Forall record_ok recs).

Lemma event_wp R e (Q : unit -> wifi W -> Prop) s : (forall s', Q tt s') -> wpr R (run (on_event e)) Q s.
Proof using Type.
  intros HQ. destruct e as [[]|[]]; simpl; unfold xEventGroupSetBits, xTimerCmd, clear_ip, set_ip_byte, note, drv;
    wp_steps; apply HQ.
Qed.

Lemma events_wp R es (Q : unit -> wifi W -> Prop) s :
  (forall s', Q tt s') -> wpr R (run (foldr (fun e m => on_event e ;; m) (mret tt) es)) Q s.
Proof using Type.
  intros HQ. revert s. induction es as [|e es IH]; intros s; simpl foldr; [by apply wp_ret|].
  wp_step. apply event_wp. intros s'. apply IH.
Qed.

(** The scan, with the records it copied. *)
Lemma scan_wp R waiting ap_list s :
  zlen ap_list = WIFI_MGR_SCAN_MAX -> Forall (fun a => length (ap_ssid a) = 33%nat) ap_list ->
  wpr R (run (wifi_mgr_scan waiting ap_list WIFI_MGR_SCAN_MAX))
     (fun res _ =>
        (res.1 = -1 /\ res.2 = ap_list) \/
        exists w recs w', esp_wifi_scan_get_ap_records WIFI_MGR_SCAN_MAX w = ((ESP_OK, recs), w') /\
          res.1 = zlen recs /\ res.1 <= WIFI_MGR_SCAN_MAX /\ length res.2 = length ap_list /\
          (forall j r, recs !! j = Some r -> exists a, res.2 !! j = Some a /\ ap_of r a) /\
          (forall j, res.1 <= Z.of_nat j -> res.2 !! j = ap_list !! j)) s.
Proof using Hdriver.
  intros Hlen Hcells. unfold wifi_mgr_scan, xEventGroupClearBits, xEventGroupWaitBits, drv. wp_steps; auto.
  apply events_wp. intros s1. wp_steps; auto.
  all: match goal with H : esp_wifi_scan_get_ap_records _ _ = (?rr, _), E : negb (?rr.1 =? _) = false |- _ =>
    rename H into Hrec; destruct rr as [r recs]; cbn [fst snd] in *; apply negb_false_iff, Z.eqb_eq in E as -> end.
  all: change (u16 WIFI_MGR_SCAN_MAX) with WIFI_MGR_SCAN_MAX in Hrec;
    destruct (Hdriver WIFI_MGR_SCAN_MAX _ _ _ _ ltac:(done) Hrec) as [Hn Hr];
    destruct (scan_loop_spec (length recs) 0 recs ap_list) as (l & Hl & Hll & Hout & Hin); [lia..| | |];
    try done.
  all: eapply wp_lift; [exact Hl|]; apply wp_ret; right; eexists _, recs, _; split; [exact Hrec|];
    split_and!; simpl; try done; [|intros j Hj; apply Hout; lia];
    intros j x Hx; apply (Hin j x); [apply lookup_lt_Some in Hx; lia|done].
Qed.

(** Scan results.  Whatever happens during the wait, [wifi_mgr_scan] called
    with [WIFI_MGR_SCAN_MAX] entries has no undefined behaviour; it returns -1
    with the list untouched, or the number of records the driver gave, at most
    20, each copied to its entry with a terminated SSID of at most 32
    characters, the others left alone. *)
Theorem scan_results waiting ap_list s :
  zlen ap_list = WIFI_MGR_SCAN_MAX -> Forall (fun a => length (ap_ssid a) = 33%nat) ap_list ->
  wp (run (wifi_mgr_scan waiting ap_list WIFI_MGR_SCAN_MAX))
     (fun res _ =>
        (res.1 = -1 /\ res.2 = ap_list) \/
        exists w recs w', esp_wifi_scan_get_ap_records WIFI_MGR_SCAN_MAX w = ((ESP_OK, recs), w') /\
          res.1 = zlen recs /\ res.1 <= WIFI_MGR_SCAN_MAX /\ length res.2 = length ap_list /\
          (forall j r, recs !! j = Some r -> exists a, res.2 !! j = Some a /\ ap_of r a) /\
          (forall j, res.1 <= Z.of_nat j -> res.2 !! j = ap_list !! j)) s.
Proof using Hdriver. apply scan_wp. Qed.
End Scan.

(** ** Each function run to its end

    No undefined behaviour, and what the command handlers see of the results. *)

Section Safe.
Context {W : Type} `{HP : !Platform W} `{HL : !NvsLaws W}.
Local Abbreviation wifi := (wifi W).
Implicit Types s : wifi.

(** A zeroed array of [n] cells after [nvs_get_str]. *)
Definition loaded (n : nat) (r : Z * list Z) : Prop :=
  length r.2 = n /\
  (r.1 = ESP_OK -> exists l, str_ok l /\ bytes_ok l /\ (length l < n)%nat /\ r.2 = char_array n l).

(** What a function of the manager leaves alone. *)
Definition same_ip s s' : Prop := s_ip s' = s_ip s.

Lemma get_str_wp R k n (Q : _ -> wifi -> Prop) s :
  (forall r, loaded n r -> Q r s) -> wpr R (run (get_str k (replicate n 0))) Q s.
Proof using HL.
  intros HQ. unfold get_str. wp_steps. rewrite length_replicate.
  destruct (nvs_get_str k (Z.of_nat n) (dev s)) as [r bytes] eqn:E.
  pose proof (law_get_bound (dev s) k (Z.of_nat n) (Zle_0_nat _)) as Hb. rewrite E in Hb. simpl in Hb.
  wp_steps. eapply wp_lift; [apply mem_write_zeroed; simpl; lia|]. wp_step. apply HQ. split; simpl.
  - apply char_array_length. lia.
  - intros ->. destruct (law_get_ok _ _ _ _ E) as (l & Hl & Hb' & -> & Hn).
    rewrite length_app in Hn. simpl in Hn. exists l. do 2 (split; [done|]). split; [lia|].
    unfold char_array. rewrite <-app_assoc, length_app. simpl. f_equal.
    by replace (n - length l)%nat with (S (n - (length l + 1)))%nat by lia.
Qed.

Lemma get_config_wp R (Q : _ -> wifi -> Prop) s :
  (forall r cfg s', same_ip s s' ->
     (r = ESP_OK -> exists id pw, str_ok id /\ str_ok pw /\ bytes_ok id /\ bytes_ok pw /\
        (length id < 33)%nat /\
        (length pw < 65)%nat /\ cfg = mk_config (char_array 33 id) (char_array 65 pw)) ->
     Q (r, cfg) s') ->
  wpr R (run (wifi_mgr_get_config zero_config)) Q s.
Proof using HL.
  intros HQ. unfold wifi_mgr_get_config, drv. wp_steps.
  { apply HQ; [done|]. intros ->. by rewrite Z.eqb_refl in *. }
  change (ssid zero_config) with (replicate 33 0). apply get_str_wp. intros [rs id] [Hl1 Hid].
  cbn [fst snd] in *. wp_step. destruct (rs =? ESP_OK) eqn:Ers.
  - change (password zero_config) with (replicate 65 0). apply get_str_wp.
    intros [rp pw] [Hl2 Hpw]. unfold close_nvs. wp_steps. apply HQ; [done|]. simpl in *. intros ->.
    apply Z.eqb_eq in Ers. destruct (Hid Ers) as (id' & ? & ? & ? & ->).
    destruct (Hpw eq_refl) as (pw' & ? & ? & ? & ->). by exists id', pw'.
  - unfold close_nvs. wp_steps. apply HQ; [done|]. simpl. intros ->. by rewrite Z.eqb_refl in Ers.
Qed.

Lemma set_config_wp R id pw (Q : _ -> wifi -> Prop) s :
  is_ret (c_str id) -> is_ret (c_str pw) ->
  (forall r s', same_ip s s' -> Q r s') ->
  wpr R (run (wifi_mgr_set_config (Some id) (Some pw))) Q s.
Proof using Type.
  intros [i Hi] [p Hp] HQ. unfold wifi_mgr_set_config, set_str, close_nvs, drv, noted.
  wp_steps. eapply wp_lift; [done|]. wp_step; [by wp_step; apply HQ|].
  wp_steps. eapply wp_lift; [done|]. wp_steps; by apply HQ.
Qed.

Lemma set_hostname_wp R h (Q : _ -> wifi -> Prop) s :
  is_ret (c_str h) -> (forall r s', same_ip s s' -> Q r s') ->
  wpr R (run (wifi_mgr_set_hostname (Some h))) Q s.
Proof using Type.
  intros [i Hi] HQ. unfold wifi_mgr_set_hostname, set_str, set_hostname, close_nvs, drv, noted.
  wp_steps. eapply wp_lift; [done|]. wp_steps; by apply HQ.
Qed.

Lemma load_hostname_wp R n (Q : _ -> wifi -> Prop) s :
  (forall r s', same_ip s s' -> loaded n r -> Q r s') ->
  wpr R (run (wifi_mgr_get_hostname (replicate n 0))) Q s.
Proof using HL.
  intros HQ. unfold wifi_mgr_get_hostname, drv, close_nvs. wp_steps.
  - apply HQ; [done|]. split; [apply length_replicate|]. simpl. intros ->.
    by rewrite Z.eqb_refl in *.
  - apply get_str_wp. intros r Hr. wp_steps. by apply HQ.
Qed.

(** The report of the state as it is. *)
Lemma get_status_wp R (Q : _ -> wifi -> Prop) s :
  length (s_ip s) = 4%nat ->
  (forall r, (s_state s <> WIFI_MGR_STATE_CONNECTED -> r = 0) -> Q (mk_status (s_state s) (s_ip s) r) s) ->
  wpr R (run wifi_mgr_get_status) Q s.
Proof using Type.
  intros H4 HQ. unfold wifi_mgr_get_status, ip_byte. wp_steps; rewrite four_bytes by done; apply HQ; [|done].
  intros Hs. by apply bool_decide_eq_true in Heqb.
Qed.

Lemma disconnect_wp R (Q : _ -> wifi -> Prop) s :
  (forall r s', Q r s') -> wpr R (run wifi_mgr_disconnect) Q s.
Proof using Type.
  intros HQ. unfold wifi_mgr_disconnect, xTimerCmd, clear_ip, set_ip_byte, drv, noted. wp_steps; apply HQ.
Qed.

Context (Hsz1 : (0 < sizeof_sta_ssid)%nat) (Hsz2 : (0 < sizeof_sta_password)%nat).

Lemma connect_wp (R : wifi -> Prop) (Q : _ -> wifi -> Prop) s :
  (forall c w s', (esp_wifi_set_config c w).1 <> ESP_OK -> R s') ->
  (forall r s', same_ip s s' -> Q r s') -> wpr R (run wifi_mgr_connect) Q s.
Proof using HL Hsz1 Hsz2.
  intros HR HQ. unfold wifi_mgr_connect. wp_step. apply get_config_wp.
  intros r cfg s1 Hs1 Hcfg. cbn [fst snd]. wp_step; [by wp_step; apply HQ|].
  destruct Hcfg as (id & pw & H1 & H2 & _ & _ & H3 & H4 & ->); [by apply Z.eqb_eq, negb_false_iff|].
  wp_steps. eapply wp_lift; [by apply sta_of_config_run|].
  unfold driver_set_config, driver_connect, xEventGroupClearBits, drv, noted. wp_steps.
  case_match eqn:Er; [wp_steps; by apply HQ|]. apply Z.eqb_neq in Er.
  match goal with H : esp_wifi_set_config ?c ?w = _ |- _ => apply (HR c w); by rewrite H end.
Qed.
End Safe.
(** ** Concrete runs *)

Definition result_state {S A} (m : M S A) (s : S) : S :=
  match m s with Done _ s' => s' | _ => s end.
Definition started (b : board) : wifi board := result_state (run wifi_mgr_init) (wifi_statics b).
Definition demo : wifi board := started demo_board.

Lemma demo_boots : make_moves boot (wifi_statics demo_board, idle) = Some (demo, idle).
Proof. vm_compute. reflexivity. Qed.

(** The callback's guard, and the rest of it. *)
Definition guard : list move := Fire :: replicate 4 StepTimer.
Definition attempt : list move := replicate 13 StepTimer.

(** A callback already past its guard undoes a disconnect.  There is a run
    in which the timer task is preempted after its test of [s_auto_reconnect],
    [wifi_mgr_disconnect] returns, and the callback then still connects. *)
Theorem timer_race_reconnects :
  exists s1 t1 s2 : wifi board,
    make_moves (boot ++ handle 9 (inl WIFI_EVENT_STA_DISCONNECTED) ++ guard)
               (wifi_statics demo_board, idle) = Some (t1, mk_tasks None None (Some reconnect_timer_act)) /\
    make_moves (call 11 OpDisconnect) (t1, mk_tasks None None (Some reconnect_timer_act))
    = Some (s1, mk_tasks None None (Some reconnect_timer_act)) /\ s_auto_reconnect s1 = false /\
    make_moves attempt (s1, mk_tasks None None (Some reconnect_timer_act)) = Some (s2, idle) /\
    log s2 = log s1 ++ [LSetConfig (sent_config demo_ssid demo_pass); LConnect] /\
    s_state s2 = WIFI_MGR_STATE_CONNECTING.
Proof. eexists _, _, _. split_and!; vm_compute; reflexivity. Qed.

Lemma board_sizes :
  (0 < sizeof_sta_ssid (W := board) /\ 0 < sizeof_sta_password (W := board))%nat.
Proof. simpl. lia. Qed.

(** Full-length credentials are truncated.  A 32-character SSID and a
    64-character password, accepted and stored by [wifi_mgr_set_config], reach
    a driver whose arrays have 32 and 64 bytes without their last character. *)
Theorem full_length_credentials_truncated id pw r1 r2 (s0 s1 : wifi board) :
  str_ok id -> str_ok pw -> length id = 32%nat -> length pw = 64%nat ->
  run (wifi_mgr_set_config (Some (id ++ 0 :: r1)) (Some (pw ++ 0 :: r2))) s0 = Done ESP_OK s1 ->
  exists r s2 c, run wifi_mgr_connect s1 = Done r s2 /\ log s2 = log s1 ++ [LSetConfig c; LConnect] /\
    c_str (sta_ssid c) = Ret (take 31 id) /\ c_str (sta_password c) = Ret (take 63 pw).
Proof.
  intros Hid Hpw Hl1 Hl2 Hset.
  destruct (set_config_stores _ _ _ _ _ _ Hid Hpw Hset) as (H1 & H2 & H3 & H4 & _).
  destruct (connect_run (proj1 board_sizes) (proj2 board_sizes) s1 id pw) as (s2 & Hlog & _ & _ & _ & Hc);
    [by split; try lia|].
  rewrite Hc. change (dev (after_load s1)) with (dev s1). simpl.
  eexists _, _, (sent_config id pw). split; [reflexivity|]. simpl. rewrite Hlog, <-app_assoc.
  split; [done|]. split; apply (c_str_char_array _ (take _ _)); try (by apply Forall_take);
    rewrite length_take; lia.
Qed.

Lemma demo_saved s : dev s = demo_board -> saved s demo_ssid demo_pass.
Proof. intros E. split; rewrite ?E; try reflexivity; try by_compute; done. Qed.

(** Before a disconnection, its moves, and what follows: the attempt under
    way, a loss of the connection and a callback that finds reconnection off. *)
Definition past_guard : list move := boot ++ handle 9 (inl WIFI_EVENT_STA_DISCONNECTED) ++ guard.
Definition after_race : list move := attempt ++ handle 8 (inl WIFI_EVENT_STA_DISCONNECTED) ++ fire 3.

Lemma no_connect_after_disconnect_witness :
  attempts 1 (reach (past_guard ++ call 11 OpDisconnect)).1
             (reach ((past_guard ++ call 11 OpDisconnect) ++ after_race)).1.
Proof.
  eapply (no_connect_after_disconnect demo_board past_guard (reach past_guard) (replicate 11 StepCmd)
            (reach (past_guard ++ call 11 OpDisconnect)) after_race
            (reach ((past_guard ++ call 11 OpDisconnect) ++ after_race))).
  - vm_compute. reflexivity.
  - vm_compute. reflexivity.
  - repeat constructor; discriminate.
  - vm_compute. reflexivity.
  - vm_compute. reflexivity.
  - repeat constructor; discriminate.
Defined.

Definition blank_board : board := mk_board None None None [].
Definition save : wifi_op := OpSetConfig (Some (demo_ssid ++ [0])) (Some (demo_pass ++ [0])).
Definition from (ms : list move) (x : wifi board * tasks board) : wifi board * tasks board :=
  match make_moves ms x with Some y => y | None => x end.

(** Booted without credentials; saved, with a scan ending meanwhile; connected. *)
Definition blank : wifi board * tasks board := from (call 39 OpInit) (wifi_statics blank_board, idle).
Definition saving_moves : list move :=
  replicate 4 StepCmd ++ handle 1 (inl WIFI_EVENT_SCAN_DONE) ++ replicate 5 StepCmd.
Definition configured : wifi board * tasks board := from (Call save :: saving_moves) blank.
Definition later : list move := call 19 OpConnect ++ call 7 (OpSetHostname (Some [104; 0])) ++ got_ip.

Lemma credentials_persist_witness :
  exists cfg s', run (wifi_mgr_get_config zero_config) (from later configured).1 = Done (ESP_OK, cfg) s' /\
    c_str (ssid cfg) = Ret demo_ssid /\ c_str (password cfg) = Ret demo_pass.
Proof.
  eapply (credentials_persist demo_ssid demo_pass [] [] (wifi_statics blank_board) (call 39 OpInit) blank
            saving_moves configured [LNvsSet NVS_KEY_SSID demo_ssid; LNvsSet NVS_KEY_PASS demo_pass; LSaved ESP_OK]
            later (from later configured)).
  - by_compute.
  - by_compute.
  - vm_compute. reflexivity.
  - vm_compute. reflexivity.
  - repeat constructor; discriminate.
  - vm_compute. reflexivity.
  - vm_compute. reflexivity.
  - repeat constructor.
  - vm_compute. reflexivity.
  - repeat constructor; discriminate.
Defined.

Lemma connect_credentials_witness :
  exists r s', run wifi_mgr_connect demo = Done r s' /\
    log s' = log demo ++ [LSetConfig (sent_config demo_ssid demo_pass); LConnect] /\
    s_auto_reconnect s' = true /\
    s_state s' = if r =? ESP_OK then WIFI_MGR_STATE_CONNECTING else WIFI_MGR_STATE_FAILED.
Proof.
  apply (connect_credentials (W := board) (proj1 board_sizes) (proj2 board_sizes) demo);
    [apply demo_saved|]; vm_compute; reflexivity.
Defined.

Definition lost : wifi board := result_state (run (on_wifi_event WIFI_EVENT_STA_DISCONNECTED)) demo.

Lemma reconnect_after_loss_witness :
  s_reconnect_timer lost = Some true /\
  exists s2, run reconnect_timer_cb lost = Done tt s2 /\
    log s2 = log demo ++ [LSetConfig (sent_config demo_ssid demo_pass); LConnect] /\
    s_state s2 = WIFI_MGR_STATE_CONNECTING.
Proof.
  destruct (reconnect_after_loss (W := board) (proj1 board_sizes) (proj2 board_sizes) demo)
    as (s1 & E & Ht & H); [vm_compute; reflexivity|vm_compute; discriminate|].
  assert (s1 = lost) as -> by (unfold lost, result_state; by rewrite E).
  split; [exact Ht|]. apply (H demo_ssid demo_pass), demo_saved. vm_compute. reflexivity.
Defined.

Lemma init_restarts_on_refused_config_witness :
  exists s', run (wifi_mgr_init (H := board_ops false)) (wifi_statics demo_board) = Reset s' /\
    saved (HP := board_ops false) (NvsLaws0 := board_ops_laws false)
      (wifi_statics (dev s')) demo_ssid demo_pass.
Proof.
  apply (init_restarts_on_refused_config (HP := board_ops false) (NvsLaws0 := board_ops_laws false)
           ltac:(simpl; lia) ltac:(simpl; lia) demo_board demo_ssid demo_pass).
  - split; try reflexivity; try by_compute; done.
  - discriminate.
Defined.

Lemma board_records (n : Z) (w : board) r recs w' :
  0 <= n -> esp_wifi_scan_get_ap_records n w = ((r, recs), w') ->
  zlen recs <= n /\ Forall record_ok recs.
Proof.
  intros Hn [= _ <- _]. rewrite length_take. split; [lia|].
  apply Forall_take, Forall_forall. intros x Hx.
  by apply list_elem_of_In, list_elem_of_filter in Hx as [Hx _].
Qed.

Definition empty_list : list wifi_mgr_ap_info_t := replicate 20 (mk_ap (replicate 33 0) 0 0).

Lemma scan_results_witness :
  exists w recs w', esp_wifi_scan_get_ap_records (W := board) WIFI_MGR_SCAN_MAX w
                    = ((ESP_OK, recs), w') /\ 1 = zlen recs.
Proof.
  pose proof (scan_results board_records [inl WIFI_EVENT_SCAN_DONE] empty_list demo
                eq_refl ltac:(by_compute)) as H.
  assert (exists l s', run (wifi_mgr_scan [inl WIFI_EVENT_SCAN_DONE] empty_list WIFI_MGR_SCAN_MAX) demo
                       = Done (1, l) s') as (l & s' & E)
    by (eexists _, _; vm_compute; reflexivity).
  unfold wpr in H. rewrite E in H.
  destruct H as [[H _]|(w & recs & w' & H1 & H2 & _)]; [discriminate H|].
  exists w, recs, w'. split; assumption.
Defined.

Lemma full_length_credentials_truncated_witness :
  exists r s2 c,
    run wifi_mgr_connect (result_state (run (wifi_mgr_set_config (Some (replicate 32 65 ++ [0]))
       (Some (replicate 64 66 ++ [0])))) (started blank_board)) = Done r s2 /\
    log s2 = log (result_state (run (wifi_mgr_set_config (Some (replicate 32 65 ++ [0]))
       (Some (replicate 64 66 ++ [0])))) (started blank_board)) ++ [LSetConfig c; LConnect] /\
    c_str (sta_ssid c) = Ret (replicate 31 65) /\ c_str (sta_password c) = Ret (replicate 63 66).
Proof.
  apply (full_length_credentials_truncated (replicate 32 65) (replicate 64 66) [] []
           (started blank_board)); try by_compute; vm_compute; reflexivity.
Defined.
