(* ===== verification/Firmware.v ===== *)
(** * Firmware (src/main/esp32-network.c)

    The LED, the USB serial port, the command handlers and their dispatcher,
    the tasks and callbacks around them, and start-up.  The USB stack and the
    board are a [Machine]; the TCP relay is used through the interface
    [Relay], which [RelayInst] implements with the model of tcp_mgr.c. *)

From S2P Require Import Prelude CMem CState Proto CpuMonitor WifiMgr.
Local Open Scope c_scope.

(** ** Constants *)

Definition CDC_RX_BUF_SIZE : Z := 512.
Definition CMD_STREAM_SIZE : Z := 8192.
Definition RESP_BUF_SIZE : Z := PROTO_MAX_PAYLOAD + 32.
Definition PUSH_BUF_SIZE : Z := PROTO_MAX_PAYLOAD + 32.

(** ** What the firmware uses of other components *)

(** The relay, as the command handlers see it: a call runs to its return; the
    frames it pushes on the way are returned in order. *)
Class Relay (T : Type) := {
  tcp_mgr_connect : list Z -> Z -> T -> Z * T;
  tcp_mgr_send : list Z -> T -> Z * T;
  tcp_mgr_disconnect : T -> list (Z * list Z) * T;
  tcp_mgr_is_connected : T -> bool;
  relay_bytes : T -> Z * Z;              (** received, sent *)
  relay_start : T -> T;                  (** [tcp_mgr_init] *)
}.

(** Readings of [handle_get_dev_info]. *)
Record readings := mk_readings {
  free_heap : Z; total_heap : Z; min_heap : Z;
  timer_us : Z;                          (** [esp_timer_get_time] *)
  task_number : Z;                       (** [uxTaskGetNumberOfTasks] *)
  temp_c : Z;                            (** [(int8_t)temp_f] *)
  cpu_hz : Z;                            (** [esp_clk_cpu_freq] *)
}.

(** Calls of [app_main] whose failure aborts. *)
Inductive boot_call :=
  | NvsFlashErase | LedTimerCreate | LedTimerStart
  | TinyusbDriverInstall | TinyusbCdcacmInit.

Class Machine (U : Type) := {
  write_available : U -> Z * U;          (** [tud_cdc_n_write_available] *)
  write_flush : U -> Z * U;              (** [tinyusb_cdcacm_write_flush] *)
  write_queue : list Z -> U -> U;        (** [tinyusb_cdcacm_write_queue] *)
  cdcacm_read : Z -> U -> (Z * list Z) * U;
  led_open : nvs_mode -> U -> Z * U;     (** [nvs_open] of "led_cfg" *)
  led_set_u8 : Z -> U -> Z * U;
  led_get_u8 : U -> option Z;            (** the value stored, if any *)
  led_commit : U -> Z * U;
  led_close : U -> U;
  gpio_set_level : Z -> U -> U;
  idf_version : list Z;                  (** the object [esp_get_idf_version] returns *)
  read_sensors : U -> readings;
  fw_malloc : U -> bool * U;
  nvs_flash_init : U -> Z * U;
  boot : boot_call -> U -> Z * U;
  mutex_create : U -> bool * U;
  ESP_ERR_NVS_NO_FREE_PAGES : Z;
  ESP_ERR_NVS_NEW_VERSION_FOUND : Z;
}.

Section Firmware.
Context {W U T : Type} `{Platform W} `{Machine U} `{Relay T}.

(** ** State *)

Record fw := mk_fw {
  s_data_active : Z;
  s_led_enabled : Z;
  s_cmd_stream : list Z;       (** the stream buffer, oldest byte first *)
  cpu : cpu_monitor;
  wm : wifi W;
  relay : T;
  usb : U;
  queued : list Z;             (** bytes handed to the USB stack so far *)
  writes_cut : nat;            (** writes given up after a flush that failed *)
}.

Definition fw_statics (w : W) (t : T) (u : U) : fw :=
  mk_fw 0 1 [] cpu_initial (wifi_statics w) t u [] 0.

Definition set_active (x : Z) (s : fw) : fw :=
  mk_fw x (s_led_enabled s) (s_cmd_stream s) (cpu s) (wm s) (relay s) (usb s) (queued s) (writes_cut s).
Definition set_led (x : Z) (s : fw) : fw :=
  mk_fw (s_data_active s) x (s_cmd_stream s) (cpu s) (wm s) (relay s) (usb s) (queued s) (writes_cut s).
Definition set_stream (x : list Z) (s : fw) : fw :=
  mk_fw (s_data_active s) (s_led_enabled s) x (cpu s) (wm s) (relay s) (usb s) (queued s) (writes_cut s).
Definition set_wm (x : wifi W) (s : fw) : fw :=
  mk_fw (s_data_active s) (s_led_enabled s) (s_cmd_stream s) (cpu s) x (relay s) (usb s) (queued s) (writes_cut s).
Definition set_relay (x : T) (s : fw) : fw :=
  mk_fw (s_data_active s) (s_led_enabled s) (s_cmd_stream s) (cpu s) (wm s) x (usb s) (queued s) (writes_cut s).
Definition set_usb (x : U) (s : fw) : fw :=
  mk_fw (s_data_active s) (s_led_enabled s) (s_cmd_stream s) (cpu s) (wm s) (relay s) x (queued s) (writes_cut s).
Definition add_queued (x : list Z) (s : fw) : fw :=
  mk_fw (s_data_active s) (s_led_enabled s) (s_cmd_stream s) (cpu s) (wm s) (relay s) (usb s) (queued s ++ x) (writes_cut s).
Definition count_cut (s : fw) : fw :=
  mk_fw (s_data_active s) (s_led_enabled s) (s_cmd_stream s) (cpu s) (wm s) (relay s) (usb s) (queued s) (S (writes_cut s)).

Definition mach {A} (f : U -> A * U) : M fw A := zoom usb set_usb f.
Definition mach_ (f : U -> U) : M fw unit := modify (fun s => set_usb (f (usb s)) s).
Definition wifi_call {A} (m : prog (wifi W) A) : M fw A := embed wm set_wm (run m).
Definition rel {A} (f : T -> A * T) : M fw A := zoom relay set_relay f.

(** ** LED *)

Definition led_timer_cb : M fw unit :=
  en ← gets s_led_enabled;
  if en =? 0 then mach_ (gpio_set_level 0)
  else
    act ← gets s_data_active;
    modify (set_active 0) ;;
    if negb (act =? 0) then mach_ (gpio_set_level 1) else mach_ (gpio_set_level 0).

(** ** Writing to the serial port *)

(** The loop; [fuel] turns at most. *)
Fixpoint cdc_loop (fuel : nat) (buf : list Z) (sent : Z) : M fw unit :=
  if sent <? zlen buf then
    match fuel with
    | O => hang
    | S fuel =>
        available_size ← mach write_available;
        if available_size =? 0 then
          err ← mach write_flush;
          if negb (err =? ESP_OK) then modify count_cut else cdc_loop fuel buf sent
        else
          let chunk := if available_size <? zlen buf - sent then available_size
                       else zlen buf - sent in
          let data := take (Z.to_nat chunk) (drop (Z.to_nat sent) buf) in
          mach_ (write_queue data) ;;
          modify (add_queued data) ;;
          cdc_loop fuel buf (sent + chunk)
    end
  else mret tt.

(** Two turns per byte: a flush at most between two chunks. *)
Definition cdc_fuel (buf : list Z) : nat := 2 * length buf.

Definition cdc_write_locked (buf : list Z) : M fw unit :=
  cdc_loop (cdc_fuel buf) buf 0 ;;
  mach write_flush ;;
  modify (set_active 1).

Definition data_size (data : option (list Z)) : Z :=
  match data with Some d => zlen d | None => 0 end.

Definition cdc_send_response (seq cmd : Z) (status : proto_status_t)
    (data : option (list Z)) : M fw unit :=
  buf ← lift (proto_build_response seq cmd status data (data_size data) RESP_BUF_SIZE);
  if zlen buf =? 0 then mret tt else cdc_write_locked buf.

Definition cdc_send_push (cmd : Z) (data : list Z) : M fw unit :=
  ok ← mach fw_malloc;
  if negb ok then mret tt
  else
    buf ← lift (proto_build_push cmd (match data with [] => None | _ => Some data end)
                  (zlen data) PUSH_BUF_SIZE);
    if 0 <? zlen buf then cdc_write_locked buf else mret tt.

(** ** Command handlers *)

Definition resp (f : proto_frame) (st : proto_status_t) (data : option (list Z)) : M fw unit :=
  cdc_send_response (f_seq f) (f_cmd f) st data.

(** [ret == ESP_OK ? PROTO_STATUS_OK : PROTO_STATUS_ERROR]. *)
Definition status_of (ret : Z) : proto_status_t :=
  if ret =? ESP_OK then PROTO_STATUS_OK else PROTO_STATUS_ERROR.

(** Reading [p[i]]. *)
Definition rd (p : list Z) (i : nat) : outcome Z :=
  match p !! i with Some x => Ret x | None => Fault end.

Definition handle_led_set (f : proto_frame) : M fw unit :=
  if payload_len f <? 1 then resp f PROTO_STATUS_INVALID None
  else
    x ← lift (rd (f_payload f) 0);
    let val := if negb (x =? 0) then 1 else 0 in
    modify (set_led val) ;;
    r ← mach (led_open NVS_READWRITE);
    (if r =? ESP_OK
     then mach (led_set_u8 val) ;; mach led_commit ;; mach_ led_close
     else mret tt) ;;
    resp f PROTO_STATUS_OK None.

Definition handle_led_get (f : proto_frame) : M fw unit :=
  en ← gets s_led_enabled;
  resp f PROTO_STATUS_OK (Some [u8 en]).

Definition PONG : list Z := [80; 79; 78; 71].

Definition handle_ping (f : proto_frame) : M fw unit := resp f PROTO_STATUS_OK (Some PONG).

(** The macros [PUT_U32] and [PUT_U64]. *)
Definition PUT_U32 (v : Z) : list Z :=
  [v &&& 0xFF; (v >>> 8) &&& 0xFF; (v >>> 16) &&& 0xFF; (v >>> 24) &&& 0xFF].
Definition PUT_U64 (v : Z) : list Z :=
  [v &&& 0xFF; (v >>> 8) &&& 0xFF; (v >>> 16) &&& 0xFF; (v >>> 24) &&& 0xFF;
   (v >>> 32) &&& 0xFF; (v >>> 40) &&& 0xFF; (v >>> 48) &&& 0xFF; (v >>> 56) &&& 0xFF].

Definition INFO_BUF_SIZE : Z := 1 + 64 + 4 + 4 + 4 + 1 + 4 + 2 + 8 + 8 + 1 + 2.

Definition dev_info (ver : list Z) (g : readings) (load rx tx : Z) : outcome (list Z) :=
  let uptime_s := u32 (timer_us g / 1000000) in
  let task_count := u16 (task_number g) in
  let cpu_freq := u16 (cpu_hz g / 1000000) in
  len ← strlen ver;
  let ver_len := u8 len in
  src ← mem_read ver ver_len;
  buf ← buf_put INFO_BUF_SIZE [] ver_len;
  buf ← buf_puts INFO_BUF_SIZE buf src;
  buf ← buf_puts INFO_BUF_SIZE buf (PUT_U32 (free_heap g));
  buf ← buf_puts INFO_BUF_SIZE buf (PUT_U32 (total_heap g));
  buf ← buf_puts INFO_BUF_SIZE buf (PUT_U32 (min_heap g));
  buf ← buf_put INFO_BUF_SIZE buf load;
  buf ← buf_puts INFO_BUF_SIZE buf (PUT_U32 uptime_s);
  buf ← buf_put INFO_BUF_SIZE buf (u8 (task_count &&& 0xFF));
  buf ← buf_put INFO_BUF_SIZE buf (u8 (task_count >>> 8));
  buf ← buf_puts INFO_BUF_SIZE buf (PUT_U64 rx);
  buf ← buf_puts INFO_BUF_SIZE buf (PUT_U64 tx);
  buf ← buf_put INFO_BUF_SIZE buf (u8 (temp_c g));
  buf ← buf_put INFO_BUF_SIZE buf (u8 (cpu_freq &&& 0xFF));
  buf_put INFO_BUF_SIZE buf (u8 (cpu_freq >>> 8)).

Definition handle_get_dev_info (f : proto_frame) : M fw unit :=
  g ← gets (fun s => read_sensors (usb s));
  load ← gets (fun s => cpu_monitor_get_load (cpu s));
  b ← gets (fun s => relay_bytes (relay s));
  buf ← lift (dev_info idf_version g load b.1 b.2);
  resp f PROTO_STATUS_OK (Some buf).

Definition handle_reset (f : proto_frame) : M fw unit :=
  resp f PROTO_STATUS_OK None ;; abort.

Definition handle_wifi_set_config (f : proto_frame) : M fw unit :=
  let bad_arg := resp f PROTO_STATUS_INVALID None in
  let p := f_payload f in
  let remaining := payload_len f in
  if remaining <? 1 then bad_arg
  else
    ssid_len ← lift (rd p 0);
    let p := drop 1 p in let remaining := remaining - 1 in
    if remaining <? ssid_len + 1 then bad_arg
    else
      src ← lift (mem_read p ssid_len);
      ssid ← lift (mem_write (replicate (Z.to_nat (WIFI_MGR_SSID_MAX + 1)) 0) src);
      let p := drop (Z.to_nat ssid_len) p in let remaining := remaining - ssid_len in
      pass_len ← lift (rd p 0);
      let p := drop 1 p in let remaining := remaining - 1 in
      if remaining <? pass_len then bad_arg
      else
        src ← lift (mem_read p pass_len);
        pass ← lift (mem_write (replicate (Z.to_nat (WIFI_MGR_PASS_MAX + 1)) 0) src);
        ret ← wifi_call (wifi_mgr_set_config (Some ssid) (Some pass));
        resp f (status_of ret) None.

Definition CONFIG_BUF_SIZE : Z := WIFI_MGR_SSID_MAX + WIFI_MGR_PASS_MAX + 4.

Definition config_payload (cfg : wifi_mgr_config_t) : outcome (list Z) :=
  sl ← strlen (ssid cfg);
  pl ← strlen (password cfg);
  let ssid_len := u8 sl in
  let pass_len := u8 pl in
  buf ← buf_put CONFIG_BUF_SIZE [] ssid_len;
  src ← mem_read (ssid cfg) ssid_len;
  buf ← buf_puts CONFIG_BUF_SIZE buf src;
  buf ← buf_put CONFIG_BUF_SIZE buf pass_len;
  src ← mem_read (password cfg) pass_len;
  buf_puts CONFIG_BUF_SIZE buf src.

Definition handle_wifi_get_config (f : proto_frame) : M fw unit :=
  rc ← wifi_call (wifi_mgr_get_config zero_config);
  if negb (rc.1 =? ESP_OK) then resp f PROTO_STATUS_ERROR None
  else
    buf ← lift (config_payload rc.2);
    resp f PROTO_STATUS_OK (Some buf).

Definition handle_wifi_connect (f : proto_frame) : M fw unit :=
  ret ← wifi_call wifi_mgr_connect;
  resp f (status_of ret) None.

Definition handle_wifi_disconnect (f : proto_frame) : M fw unit :=
  ret ← wifi_call wifi_mgr_disconnect;
  resp f (status_of ret) None.

Definition handle_wifi_get_status (f : proto_frame) : M fw unit :=
  st ← wifi_call wifi_mgr_get_status;
  ipb ← lift (mem_read (ip st) 4);
  resp f PROTO_STATUS_OK (Some (u8 (state_byte (state st)) :: ipb ++ [u8 (rssi st)])).

Definition handle_wifi_set_hostname (f : proto_frame) : M fw unit :=
  let bad_arg := resp f PROTO_STATUS_INVALID None in
  let p := f_payload f in
  let rem := payload_len f in
  if rem <? 1 then bad_arg
  else
    hlen ← lift (rd p 0);
    let p := drop 1 p in let rem := rem - 1 in
    if (rem <? hlen) || (hlen =? 0) || (WIFI_MGR_HOSTNAME_MAX <? hlen) then bad_arg
    else
      src ← lift (mem_read p hlen);
      hostname ← lift (mem_write (replicate (Z.to_nat (WIFI_MGR_HOSTNAME_MAX + 1)) 0) src);
      ret ← wifi_call (wifi_mgr_set_hostname (Some hostname));
      resp f (status_of ret) None.

Definition handle_wifi_get_hostname (f : proto_frame) : M fw unit :=
  rh ← wifi_call (wifi_mgr_get_hostname (replicate (Z.to_nat (WIFI_MGR_HOSTNAME_MAX + 1)) 0));
  if negb (rh.1 =? ESP_OK) then resp f PROTO_STATUS_ERROR None
  else
    l ← lift (strlen rh.2);
    let hlen := u8 l in
    buf ← lift (src ← mem_read rh.2 hlen; buf_puts (1 + WIFI_MGR_HOSTNAME_MAX) [hlen] src);
    resp f PROTO_STATUS_OK (Some buf).

(** The payload loop of [handle_wifi_scan] over the entries left. *)
Fixpoint scan_payload (aps : list wifi_mgr_ap_info_t) (buf : list Z) : outcome (list Z) :=
  match aps with
  | [] => Ret buf
  | a :: aps =>
      if zlen buf <? PROTO_MAX_PAYLOAD - 3 then
        l ← strlen (ap_ssid a);
        let slen := u8 l in
        if PROTO_MAX_PAYLOAD <? zlen buf + 1 + slen + 2 then Ret buf
        else
          buf ← buf_put PROTO_MAX_PAYLOAD buf slen;
          src ← mem_read (ap_ssid a) slen;
          buf ← buf_puts PROTO_MAX_PAYLOAD buf src;
          buf ← buf_put PROTO_MAX_PAYLOAD buf (u8 (ap_rssi a));
          buf ← buf_put PROTO_MAX_PAYLOAD buf (ap_authmode a);
          scan_payload aps buf
      else Ret buf
  end.

(** [waiting]: the events during the scan; [aps]: what [malloc] returned. *)
Definition handle_wifi_scan (waiting : list (wifi_event + ip_event))
    (aps : list wifi_mgr_ap_info_t) (f : proto_frame) : M fw unit :=
  ok ← mach fw_malloc;
  if negb ok then resp f PROTO_STATUS_ERROR None
  else
    r ← wifi_call (wifi_mgr_scan waiting aps WIFI_MGR_SCAN_MAX);
    if r.1 <? 0 then resp f PROTO_STATUS_ERROR None
    else
      buf ← lift (if r.1 <=? zlen r.2 then scan_payload (take (Z.to_nat r.1) r.2) [u8 r.1]
                  else Fault);
      resp f PROTO_STATUS_OK (Some buf).

Definition handle_proxy_connect (f : proto_frame) : M fw unit :=
  let bad_arg := resp f PROTO_STATUS_INVALID None in
  let p := f_payload f in
  let rem := payload_len f in
  if rem <? 1 then bad_arg
  else
    host_len ← lift (rd p 0);
    let p := drop 1 p in let rem := rem - 1 in
    if rem <? host_len + 2 then bad_arg
    else
      src ← lift (mem_read p host_len);
      host ← lift (buf ← buf_puts 256 [] src; buf_put 256 buf 0);
      let p := drop (Z.to_nat host_len) p in
      p0 ← lift (rd p 0);
      p1 ← lift (rd p 1);
      let port := u16 ((p0 <<< 8) ||| p1) in
      name ← lift (c_str host);
      ret ← rel (tcp_mgr_connect name port);
      if ret =? -2 then resp f PROTO_STATUS_BUSY None
      else resp f (if ret =? 0 then PROTO_STATUS_OK else PROTO_STATUS_ERROR) None.

Definition handle_proxy_send (f : proto_frame) : M fw unit :=
  if payload_len f =? 0 then mret tt
  else rel (tcp_mgr_send (f_payload f)) ;; mret tt.

Definition handle_proxy_disconnect (f : proto_frame) : M fw unit :=
  pushes ← rel tcp_mgr_disconnect;
  foldr (fun '(c, d) m => cdc_send_push c d ;; m) (mret tt) pushes ;;
  resp f PROTO_STATUS_OK None.

Definition handle_proxy_get_status (f : proto_frame) : M fw unit :=
  c ← gets (fun s => tcp_mgr_is_connected (relay s));
  resp f PROTO_STATUS_OK (Some [if (c : bool) then 1 else 0]).

(** ** Dispatcher *)

(** What the world does during one command. *)
Record env := mk_env { during_scan : list (wifi_event + ip_event); heap_aps : list wifi_mgr_ap_info_t }.

Definition on_frame (e : env) (f : proto_frame) : M fw unit :=
  let c := f_cmd f in
  if c =? CMD_PING then handle_ping f
  else if c =? CMD_GET_DEV_INFO then handle_get_dev_info f
  else if c =? CMD_RESET then handle_reset f
  else if c =? CMD_LED_SET then handle_led_set f
  else if c =? CMD_LED_GET then handle_led_get f
  else if c =? CMD_WIFI_SET_CONFIG then handle_wifi_set_config f
  else if c =? CMD_WIFI_GET_CONFIG then handle_wifi_get_config f
  else if c =? CMD_WIFI_CONNECT then handle_wifi_connect f
  else if c =? CMD_WIFI_DISCONNECT then handle_wifi_disconnect f
  else if c =? CMD_WIFI_GET_STATUS then handle_wifi_get_status f
  else if c =? CMD_WIFI_SCAN then handle_wifi_scan (during_scan e) (heap_aps e) f
  else if c =? CMD_WIFI_SET_HOSTNAME then handle_wifi_set_hostname f
  else if c =? CMD_WIFI_GET_HOSTNAME then handle_wifi_get_hostname f
  else if c =? CMD_PROXY_CONNECT then handle_proxy_connect f
  else if c =? CMD_PROXY_SEND then handle_proxy_send f
  else if c =? CMD_PROXY_DISCONNECT then handle_proxy_disconnect f
  else if c =? CMD_PROXY_GET_STATUS then handle_proxy_get_status f
  else resp f PROTO_STATUS_INVALID None.

(** ** Tasks and callbacks *)

(** One turn of the loop of [cmd_task]: [n] bytes are taken from the stream
    buffer and fed to the parser, whose callback is [on_frame]. *)
Definition cmd_task_step (e : env) (n : Z) (p : parser) (s : fw) : parser * exec fw unit :=
  let n := Z.min n (Z.min CDC_RX_BUF_SIZE (zlen (s_cmd_stream s))) in
  let data := take (Z.to_nat n) (s_cmd_stream s) in
  let s := set_stream (drop (Z.to_nat n) (s_cmd_stream s)) s in
  if 0 <? n then
    proto_parser_feed
      (fun f x => match x with Done _ s => on_frame e f s | x => x end) p data (Done tt s)
  else (p, Done tt s).

Definition usb_cdc_rx_callback : M fw unit :=
  rr ← mach (cdcacm_read CDC_RX_BUF_SIZE);
  if negb (rr.1 =? ESP_OK) || (zlen rr.2 =? 0) then mret tt
  else
    modify (set_active 1) ;;
    modify (fun s =>
      let room := CMD_STREAM_SIZE - zlen (s_cmd_stream s) in
      set_stream (s_cmd_stream s ++ take (Z.to_nat room) rr.2) s).

Definition usb_cdc_line_state_changed_callback : M fw unit := modify (set_active 1).

(** ** Start-up *)

Definition boot_check (c : boot_call) : M fw unit := ESP_ERROR_CHECK (mach (boot c)).

Definition restore_led : M fw unit :=
  r ← mach (led_open NVS_READONLY);
  if r =? ESP_OK then
    v ← gets (fun s => led_get_u8 (usb s));
    mach_ led_close ;;
    modify (set_led (default 1 v))
  else mret tt.

Definition app_main : M fw unit :=
  ret ← mach nvs_flash_init;
  ret ← (if (ret =? ESP_ERR_NVS_NO_FREE_PAGES) || (ret =? ESP_ERR_NVS_NEW_VERSION_FOUND)
         then boot_check NvsFlashErase ;; mach nvs_flash_init
         else mret ret);
  ESP_ERROR_CHECK (mret ret) ;;
  restore_led ;;
  mach_ (gpio_set_level 0) ;;
  boot_check LedTimerCreate ;;
  boot_check LedTimerStart ;;
  ESP_ERROR_CHECK (wifi_call wifi_mgr_init) ;;
  ok ← mach mutex_create;
  (if (ok : bool) then mret tt else abort) ;;
  modify (set_stream []) ;;
  modify (fun s => set_relay (relay_start (relay s)) s) ;;
  boot_check TinyusbDriverInstall ;;
  boot_check TinyusbCdcacmInit.
End Firmware.
Arguments fw : clear implicits.
