(* ===== verification/FirmwareFacts.v ===== *)
(** * What the firmware guarantees

    Complete writes to the serial port, exactly one response per command, the
    memory safety of the handlers, and the end-to-end command round trip. *)

From S2P Require Import Prelude CMem CState Proto ProtoFacts CpuMonitor.
From S2P Require Import WifiMgr WifiFacts WifiStatus WifiProps Firmware.
Local Open Scope c_scope.

(** ** The USB stack

    Documented behaviour the loop of [cdc_write_locked] relies on: the free
    space is not negative, and there is some after a flush that succeeded. *)

Class UsbLaws (U : Type) `{Machine U} : Prop := {
  available_nonneg u : 0 <= (write_available u).1;
  flush_makes_room u : (write_flush u).1 = ESP_OK -> 0 < (write_available (write_flush u).2).1;
}.

(** The frames a disconnect pushes fit the push buffer. *)
Definition push_ok (p : Z * list Z) : Prop :=
  fits 8 p.1 /\ bytes_ok p.2 /\ zlen p.2 <= PROTO_MAX_PAYLOAD.

Class RelayLaws (T : Type) `{Relay T} : Prop := {
  disconnect_pushes t : Forall push_ok (tcp_mgr_disconnect t).1;
}.

Section Facts.
Context {W U T : Type} `{HP : !Platform W} `{HM : !Machine U} `{HR : !Relay T}.
Local Abbreviation fw := (fw W U T).
Implicit Types s : fw.

(** ** [cdc_write_locked] *)

Section Write.
Context `{HU : !UsbLaws U} (buf : list Z).

(** [s'] is [s] after [bytes] were queued: only the USB stack and the
    activity flag may differ otherwise. *)
Definition others s := (s_led_enabled s, s_cmd_stream s, cpu s, wm s, relay s).
Definition wrote (bytes : list Z) s s' : Prop :=
  others s' = others s /\ queued s' = queued s ++ bytes.

Lemma wrote_nil s s' : others s' = others s -> queued s' = queued s -> wrote [] s s'.
Proof. intros H1 H2. split; [done|]. by rewrite app_nil_r. Qed.

Lemma wrote_trans b1 b2 s1 s2 s3 : wrote b1 s1 s2 -> wrote b2 s2 s3 -> wrote (b1 ++ b2) s1 s3.
Proof. intros [H1 H2] [H3 H4]. split; [congruence|]. by rewrite H4, H2, app_assoc. Qed.

(** Bytes from [sent] on: a prefix of the rest, and all of it unless a flush
    failed, which [writes_cut] counts. *)
Definition progress (sent : Z) s s' : Prop :=
  (exists n, wrote (take n (drop (Z.to_nat sent) buf)) s s') /\ (writes_cut s <= writes_cut s')%nat /\
  (writes_cut s' = writes_cut s -> wrote (drop (Z.to_nat sent) buf) s s') /\
  ((forall u, (write_flush u).1 = ESP_OK) -> writes_cut s' = writes_cut s).

(** Turns left: two per byte, one less when there is room already. *)
Definition turns (sent : Z) s (fuel : nat) : Prop :=
  2 * (zlen buf - sent) <= Z.of_nat fuel + (if 0 <? (write_available (usb s)).1 then 1 else 0).

Lemma progress_end sent s : zlen buf <= sent -> progress sent s s.
Proof.
  intros Hs. assert (drop (Z.to_nat sent) buf = []) as E by (apply drop_ge; lia).
  unfold progress. rewrite E. split_and!; [exists 0%nat; by apply wrote_nil|done|intros _; by apply wrote_nil|done].
Qed.

Lemma progress_chunk sent chunk s s1 s' :
  0 <= sent -> 0 <= chunk -> sent + chunk <= zlen buf -> writes_cut s1 = writes_cut s ->
  wrote (take (Z.to_nat chunk) (drop (Z.to_nat sent) buf)) s s1 ->
  progress (sent + chunk) s1 s' -> progress sent s s'.
Proof.
  intros H1 H2 H3 Hc Hw ((n & Hn) & Hle & Hall & Hok).
  assert (drop (Z.to_nat (sent + chunk)) buf
          = drop (Z.to_nat chunk) (drop (Z.to_nat sent) buf)) as E
    by (rewrite drop_drop; f_equal; lia).
  rewrite E, Hc in *. split_and!; [|done| |done].
  - exists (Z.to_nat chunk + n)%nat. rewrite <-take_take_drop. by apply (wrote_trans _ _ _ s1).
  - intros Hs. rewrite <-(take_drop (Z.to_nat chunk) (drop (Z.to_nat sent) buf)).
    apply (wrote_trans _ _ _ s1); auto.
Qed.

Lemma cdc_loop_wp R fuel sent s :
  0 <= sent <= zlen buf -> turns sent s fuel ->
  wpr R (cdc_loop fuel buf sent) (fun _ s' => progress sent s s') s.
Proof using HU.
  revert sent s. induction fuel as [|fuel IH]; intros sent s Hs Hf; unfold turns in Hf; simpl.
  - destruct (Z.ltb_spec sent (zlen buf)); [destruct (0 <? _); lia|]. by apply progress_end.
  - destruct (Z.ltb_spec sent (zlen buf)); [|by apply progress_end].
    wp_step. unfold mach at 1. wp_step.
    pose proof (available_nonneg (usb s)) as Hav. rewrite H0 in *. cbn [fst snd] in *.
    apply wp_if; intros Ha.
    + apply Z.eqb_eq in Ha as ->. wp_step. unfold mach at 1. wp_step. cbn [usb set_usb] in *.
      pose proof (flush_makes_room t) as Hr. rewrite H1 in *. cbn [fst snd] in *.
      apply wp_if; intros Ee; [wp_step|].
      * split_and!; [exists 0%nat; by apply wrote_nil|simpl; lia|simpl; lia|]. intros Hok. specialize (Hok t).
        rewrite H1 in Hok. simpl in Hok. by rewrite Hok, Z.eqb_refl in Ee.
      * apply negb_false_iff, Z.eqb_eq in Ee. specialize (Hr Ee).
        eapply wp_mono; [|apply IH; [lia|]]; [intros [] s' Hp; exact Hp|].
        unfold turns. simpl in *. rewrite (proj2 (Z.ltb_lt _ _) Hr). lia.
    + apply Z.eqb_neq in Ha. set (chunk := if a <? zlen buf - sent then a else zlen buf - sent).
      assert (1 <= chunk <= zlen buf - sent) as Hc
        by (subst chunk; destruct (Z.ltb_spec a (zlen buf - sent)); lia).
      unfold mach_. do 2 wp_step. cbv beta. do 2 wp_step. cbv beta.
      eapply wp_mono; [|apply IH; [lia|unfold turns; destruct (0 <? a), (0 <? (write_available _).1); lia]].
      intros [] s'. apply progress_chunk; [lia..|done|done].
Qed.

Lemma cdc_write_wp R (Q : unit -> fw -> Prop) s :
  (forall s', progress 0 s s' -> Q tt s') -> wpr R (cdc_write_locked buf) Q s.
Proof using HU.
  intros HQ. unfold cdc_write_locked. wp_step. eapply wp_mono; [|apply cdc_loop_wp].
  - intros [] s1 ((n & H1 & H2) & Hle & Hall & Hok). unfold mach. wp_steps. apply HQ.
    split_and!; [by exists n|done| |done]. intros Hs. by destruct (Hall Hs).
  - lia.
  - unfold turns, cdc_fuel. case_match; lia.
Qed.

End Write.

Definition flush_works : Prop := forall u : U, (write_flush u).1 = ESP_OK.

(** What was queued for some frames, in order: a prefix of each, each of them
    whole unless a write was given up, which takes a flush that fails. *)
Definition sent (frames : list (list Z)) s s' : Prop :=
  exists pieces, Forall2 prefix pieces frames /\ queued s' = queued s ++ concat pieces /\
    (writes_cut s <= writes_cut s')%nat /\ (writes_cut s' = writes_cut s -> pieces = frames) /\
    (flush_works -> writes_cut s' = writes_cut s).

Lemma sent_none s s' : queued s' = queued s -> writes_cut s' = writes_cut s -> sent [] s s'.
Proof. intros H1 H2. exists []. split_and!; [constructor|by rewrite app_nil_r|lia|done|done]. Qed.

Lemma sent_app f1 f2 s1 s2 s3 : sent f1 s1 s2 -> sent f2 s2 s3 -> sent (f1 ++ f2) s1 s3.
Proof.
  intros (p1 & H1 & Q1 & L1 & C1 & W1) (p2 & H2 & Q2 & L2 & C2 & W2). exists (p1 ++ p2).
  split_and!; [by apply Forall2_app|by rewrite Q2, Q1, concat_app, app_assoc|lia| |].
  - intros E. rewrite C1, C2 by lia. done.
  - intros Hok. by rewrite W2, W1.
Qed.

(** The frames are whole where no flush failed. *)
Lemma sent_whole frames s s' :
  sent frames s s' -> writes_cut s' = writes_cut s -> queued s' = queued s ++ concat frames.
Proof. intros (ps & _ & Hq & _ & Hc & _) E. by rewrite Hq, Hc. Qed.

Lemma progress_sent buf s s' : progress buf 0 s s' -> sent [buf] s s'.
Proof.
  intros ((n & _ & Hn) & Hle & Hall & Hok). rewrite drop_0 in *.
  destruct (decide (writes_cut s' = writes_cut s)) as [E|E].
  - destruct (Hall E) as [_ Hq]. exists [buf]. split_and!; [by repeat constructor|by rewrite Hq; simpl; rewrite app_nil_r|done|done|done].
  - exists [take n buf]. split_and!; [constructor; [apply prefix_take|constructor]|by rewrite Hn; simpl; rewrite app_nil_r|done|done|done].
Qed.

(** ** Responses *)

Context `{HU : !UsbLaws U}.

Lemma cdc_write_sent R buf (Q : unit -> fw -> Prop) s :
  (forall s', sent [buf] s s' -> Q tt s') -> wpr R (cdc_write_locked buf) Q s.
Proof using HU. intros HQ. apply cdc_write_wp. intros s' Hp. by apply HQ, progress_sent. Qed.

Definition response_wire (f : proto_frame) (st : proto_status_t) (d : list Z) : list Z :=
  wire (f_seq f :: u8 (f_cmd f ||| PROTO_RESP_FLAG) :: status_byte st :: d).

Lemma resp_wp R f st data (Q : unit -> fw -> Prop) s :
  zlen (default [] data) <= PROTO_MAX_PAYLOAD ->
  (forall s', sent [response_wire f st (default [] data)] s s' -> Q tt s') ->
  wpr R (resp f st data) Q s.
Proof using HU.
  intros Hd HQ. unfold resp, cdc_send_response, PROTO_MAX_PAYLOAD in *. wp_step.
  assert (proto_build_response (f_seq f) (f_cmd f) st data (data_size data) RESP_BUF_SIZE
          = Ret (response_wire f st (default [] data))) as E.
  { destruct data as [d|]; simpl in *.
    - apply build_response_wire; unfold RESP_BUF_SIZE, PROTO_MAX_PAYLOAD; lia.
    - by apply build_response_wire_null. }
  eapply wp_lift; [exact E|].
  rewrite (proj2 (Z.eqb_neq _ _)) by (unfold response_wire; rewrite wire_length; lia).
  by apply cdc_write_sent.
Qed.

(** The longest data any command returns: a scan of 20 names of 32 characters. *)
Definition MAX_DATA : Z := 1 + WIFI_MGR_SCAN_MAX * (WIFI_MGR_SSID_MAX + 3).

(** The state without what a write changes. *)
Definition same_output s0 s : Prop := queued s = queued s0 /\ writes_cut s = writes_cut s0.

Lemma sent_from frames s0 s s' : same_output s0 s -> sent frames s s' -> sent frames s0 s'.
Proof. intros [H1 H2] Hs. apply (sent_app [] frames s0 s s'); [by apply sent_none|done]. Qed.

(** Exactly one response to [f] was added to the output of [s]. *)
Definition answers (f : proto_frame) s s' : Prop :=
  exists st d, zlen d <= MAX_DATA /\ bytes_ok d /\ sent [response_wire f st d] s s'.

Lemma resp_answers R f st data s0 s :
  same_output s0 s -> zlen (default [] data) <= MAX_DATA -> bytes_ok (default [] data) ->
  wpr R (resp f st data) (fun _ s' => answers f s0 s') s.
Proof using HU.
  intros Hq Hd Hb. unfold MAX_DATA, WIFI_MGR_SCAN_MAX, WIFI_MGR_SSID_MAX in *. apply resp_wp.
  - unfold PROTO_MAX_PAYLOAD. lia.
  - intros s' Hs'. eexists st, _. split; [|split; [exact Hb|by eapply sent_from]].
    unfold MAX_DATA, WIFI_MGR_SCAN_MAX, WIFI_MGR_SSID_MAX. lia.
Qed.

Create HintDb fw.
Hint Unfold mach mach_ rel : fw.

Lemma no_answer_data R f st s0 s :
  same_output s0 s -> wpr R (resp f st None) (fun _ s' => answers f s0 s') s.
Proof using HU. intros Hq. apply resp_answers; [done|done|constructor]. Qed.

Ltac handler := autounfold with fw; wp_steps;
  try match goal with |- wpr _ (resp _ _ None) _ _ => by apply no_answer_data end.

(** ** The handlers that read no payload *)

Lemma ping_wp R f s : wpr R (handle_ping f) (fun _ s' => answers f s s') s.
Proof using HU. apply resp_answers; [done|done|by_compute]. Qed.

Lemma led_get_wp R f s : wpr R (handle_led_get f) (fun _ s' => answers f s s') s.
Proof using HU.
  unfold handle_led_get. handler. apply resp_answers; [done|done|].
  constructor; [by apply wrap_fits|constructor].
Qed.

Lemma reset_wp f s : wpr (fun s' => answers f s s') (handle_reset f) (fun _ _ => False) s.
Proof using HU.
  unfold handle_reset. wp_step. eapply wp_mono; [|by apply no_answer_data].
  intros [] s' Ha. by apply wp_abort.
Qed.

Lemma led_set_wp R f s : wpr R (handle_led_set f) (fun _ s' => answers f s s') s.
Proof using HU.
  unfold handle_led_set. wp_step; [by apply no_answer_data|]. unfold payload_len in *.
  destruct (f_payload f) as [|x pl] eqn:E; [done|]. wp_step. eapply wp_lift; [done|]. handler.
Qed.

Lemma proxy_status_wp R f s : wpr R (handle_proxy_get_status f) (fun _ s' => answers f s s') s.
Proof using HU.
  unfold handle_proxy_get_status. handler. apply resp_answers; [done|done|].
  destruct (tcp_mgr_is_connected _); by_compute.
Qed.

(** ** The Wi-Fi handlers *)

Context `{HL : !NvsLaws W}.

Lemma wifi_call_wp {A} R (m : prog (wifi W) A) (Q : A -> fw -> Prop) s :
  wpr (fun x => R (set_wm x s)) (CState.run m) (fun a x => Q a (set_wm x s)) (wm s) -> wpr R (wifi_call m) Q s.
Proof using Type. apply wp_embed. Qed.

Lemma wifi_disconnect_wp R f s : wpr R (handle_wifi_disconnect f) (fun _ s' => answers f s s') s.
Proof using HU.
  unfold handle_wifi_disconnect. wp_step. apply wifi_call_wp, disconnect_wp. intros r x.
  by apply no_answer_data.
Qed.

Lemma wifi_status_wp R f s :
  length (s_ip (wm s)) = 4%nat -> bytes_ok (s_ip (wm s)) ->
  wpr R (handle_wifi_get_status f) (fun _ s' => answers f s s') s.
Proof using HU.
  intros Hip Hb. unfold handle_wifi_get_status. wp_step. apply wifi_call_wp.
  apply get_status_wp; [done|]. intros r _. wp_step. cbn [ip state rssi]. eapply wp_lift.
  - change 4 with (Z.of_nat 4). rewrite <-Hip. apply mem_read_all.
  - apply resp_answers; [done| |].
    + simpl. rewrite length_app, Hip. by compute.
    + constructor; [by apply wrap_fits|]. apply Forall_app. split; [done|].
      constructor; [by apply wrap_fits|constructor].
Qed.

(** A string of at most 255 characters copied from a loaded array. *)
Lemma strlen_array n l : str_ok l -> (length l < n)%nat -> strlen (char_array n l) = Ret (zlen l).
Proof using Type. intros Hl Hn. unfold strlen. by rewrite c_str_char_array. Qed.

Lemma mem_read_array n l : mem_read (char_array n l) (zlen l) = Ret l.
Proof using Type.
  unfold mem_read, char_array. rewrite length_app, (proj2 (Z.leb_le _ _)) by lia.
  by rewrite Nat2Z.id, take_app_length.
Qed.

Lemma config_payload_ok id pw :
  str_ok id -> str_ok pw -> (length id < 33)%nat -> (length pw < 65)%nat ->
  config_payload (mk_config (char_array 33 id) (char_array 65 pw))
  = Ret (zlen id :: id ++ zlen pw :: pw).
Proof using Type.
  intros H1 H2 H3 H4. unfold config_payload, CONFIG_BUF_SIZE, WIFI_MGR_SSID_MAX, WIFI_MGR_PASS_MAX.
  cbn [ssid password]. rewrite !strlen_array, !bind_Ret by done. cbv zeta.
  rewrite !wrap_id by (unfold fits; lia).
  rewrite !mem_read_array. rewrite buf_put_ok by (simpl; lia). rewrite !bind_Ret.
  rewrite buf_puts_ok, bind_Ret by (simpl; lia).
  rewrite buf_put_ok by (rewrite length_app; simpl; lia). rewrite !bind_Ret.
  rewrite buf_puts_ok by (rewrite !length_app; simpl; lia). simpl. by rewrite <-app_assoc.
Qed.

Lemma wifi_get_config_wp R f s : wpr R (handle_wifi_get_config f) (fun _ s' => answers f s s') s.
Proof using HU HL.
  unfold handle_wifi_get_config. wp_step. apply wifi_call_wp, get_config_wp.
  intros r cfg x _ Hcfg. cbn [fst snd]. wp_step; [by apply no_answer_data|].
  destruct Hcfg as (id & pw & H1 & H2 & Hb1 & Hb2 & H3 & H4 & ->);
    [by apply Z.eqb_eq, negb_false_iff|].
  wp_step. eapply wp_lift; [by apply config_payload_ok|]. apply resp_answers; [done| |].
  - unfold MAX_DATA, WIFI_MGR_SCAN_MAX, WIFI_MGR_SSID_MAX. simpl. rewrite length_app. simpl. lia.
  - simpl. constructor; [unfold fits; lia|]. apply Forall_app. split; [done|].
    constructor; [unfold fits; lia|done].
Qed.

Lemma wifi_get_hostname_wp R f s : wpr R (handle_wifi_get_hostname f) (fun _ s' => answers f s s') s.
Proof using HU HL.
  unfold handle_wifi_get_hostname. change (Z.to_nat (WIFI_MGR_HOSTNAME_MAX + 1)) with 33%nat.
  wp_step. apply wifi_call_wp, load_hostname_wp. intros [r h] x _ [_ Hh]. cbn [fst snd] in *.
  wp_step; [by apply no_answer_data|].
  destruct Hh as (l & Hl & Hb & Hn & ->); [by apply Z.eqb_eq, negb_false_iff|].
  wp_step. eapply wp_lift; [by apply strlen_array|]. rewrite wrap_id by (unfold fits; lia).
  wp_step. eapply wp_lift.
  { rewrite mem_read_array, bind_Ret. apply buf_puts_ok.
    unfold WIFI_MGR_HOSTNAME_MAX. simpl. lia. }
  apply resp_answers; [done| |].
  - unfold MAX_DATA, WIFI_MGR_SCAN_MAX, WIFI_MGR_SSID_MAX. simpl. lia.
  - simpl. constructor; [unfold fits; lia|done].
Qed.

(** *** Arguments in the payload *)

Lemma terminated_array n l : (length l < n)%nat -> is_ret (c_str (char_array n l)).
Proof using Type.
  intros Hn. unfold char_array. destruct (n - length l)%nat eqn:E; [lia|]. clear E Hn. simpl.
  induction l as [|c l [a IH]]; simpl; [by eexists|].
  destruct (c =? 0); [by eexists|]. rewrite IH. by eexists.
Qed.

Lemma take_read (p : list Z) n :
  0 <= n <= zlen p -> mem_read p n = Ret (take (Z.to_nat n) p) /\
  length (take (Z.to_nat n) p) = Z.to_nat n.
Proof using Type.
  intros H. unfold mem_read. rewrite (proj2 (Z.leb_le _ _)) by lia. split; [done|].
  rewrite length_take. lia.
Qed.

Lemma wifi_set_hostname_wp R f s :
  bytes_ok (f_payload f) -> wpr R (handle_wifi_set_hostname f) (fun _ s' => answers f s s') s.
Proof using HU.
  intros Hb. unfold handle_wifi_set_hostname, payload_len. wp_step; [by apply no_answer_data|].
  destruct (f_payload f) as [|hlen p]; [done|]. inversion_clear Hb as [|? ? [Hh _] _].
  wp_step. eapply wp_lift; [done|]. wp_step; [by apply no_answer_data|].
  simpl in *. rewrite drop_0 in *.
  destruct (Z.ltb_spec (Z.of_nat (S (length p)) - 1) hlen); [done|].
  destruct (Z.eqb_spec hlen 0); [done|].
  destruct (Z.ltb_spec WIFI_MGR_HOSTNAME_MAX hlen); [done|].
  unfold WIFI_MGR_HOSTNAME_MAX in *. destruct (take_read p hlen) as [Hr Hl]; [lia|].
  wp_step. eapply wp_lift; [done|]. wp_step.
  eapply wp_lift; [apply (mem_write_zeroed 33); lia|].
  wp_step. apply wifi_call_wp, set_hostname_wp; [apply terminated_array; lia|].
  intros r x _. by apply no_answer_data.
Qed.

(** The payloads [handle_wifi_set_config] handles without overrunning its
    arrays: malformed ones, and those whose two lengths fit. *)
Definition set_config_safe (p : list Z) : bool :=
  match p with
  | [] => true
  | sl :: r =>
      (zlen r <? sl + 1) ||
      ((sl <=? WIFI_MGR_SSID_MAX) &&
       match drop (Z.to_nat sl) r with
       | [] => true
       | pl :: r' => (zlen r' <? pl) || (pl <=? WIFI_MGR_PASS_MAX)
       end)
  end.

Lemma wifi_set_config_wp R f s :
  bytes_ok (f_payload f) -> set_config_safe (f_payload f) = true ->
  wpr R (handle_wifi_set_config f) (fun _ s' => answers f s s') s.
Proof using HU.
  intros Hb Hsafe. unfold handle_wifi_set_config, payload_len. wp_step; [by apply no_answer_data|].
  destruct (f_payload f) as [|sl p]; [done|]. inversion_clear Hb as [|? ? [Hs _] Hb'].
  wp_step. eapply wp_lift; [done|]. cbv zeta. simpl length. simpl drop. rewrite drop_0.
  wp_step; [by apply no_answer_data|]. simpl in Hsafe.
  destruct (Z.ltb_spec (Z.of_nat (S (length p)) - 1) (sl + 1)); [done|].
  rewrite (proj2 (Z.ltb_ge (zlen p) (sl + 1))) in Hsafe by lia. simpl in Hsafe.
  apply andb_prop in Hsafe as [Hsl Hsafe]. apply Z.leb_le in Hsl.
  unfold WIFI_MGR_SSID_MAX, WIFI_MGR_PASS_MAX in *.
  destruct (take_read p sl) as [Hr Hl]; [lia|].
  wp_step. eapply wp_lift; [done|]. wp_step.
  eapply wp_lift; [apply (mem_write_zeroed 33); lia|]. cbv zeta.
  assert (length (drop (Z.to_nat sl) p) = (length p - Z.to_nat sl)%nat) as Hd by apply length_drop.
  apply (Forall_drop _ (Z.to_nat sl)) in Hb'.
  destruct (drop (Z.to_nat sl) p) as [|pl q]; [simpl in Hd; lia|]. simpl in Hd.
  inversion_clear Hb' as [|? ? [Hpl _] _].
  wp_step. eapply wp_lift; [done|]. simpl drop. rewrite drop_0. wp_step; [by apply no_answer_data|].
  destruct (Z.ltb_spec (Z.of_nat (S (length p)) - 1 - sl - 1) pl); [done|].
  rewrite (proj2 (Z.ltb_ge _ _)) in Hsafe by lia. apply Z.leb_le in Hsafe.
  destruct (take_read q pl) as [Hr' Hl']; [lia|].
  wp_step. eapply wp_lift; [done|]. wp_step.
  eapply wp_lift; [apply (mem_write_zeroed 65); lia|].
  wp_step. apply wifi_call_wp, set_config_wp; [apply terminated_array; lia..|].
  intros r x _. by apply no_answer_data.
Qed.

(** ** Device information *)

(** The documented layout, for a version string [v]. *)
Definition info_layout (v : list Z) (g : readings) (load rx tx : Z) : list Z :=
  zlen v :: v ++ PUT_U32 (free_heap g) ++ PUT_U32 (total_heap g) ++ PUT_U32 (min_heap g) ++
  [load] ++ PUT_U32 (u32 (timer_us g / 1000000)) ++
  [u8 (u16 (task_number g) &&& 0xFF); u8 (u16 (task_number g) >>> 8)] ++
  PUT_U64 rx ++ PUT_U64 tx ++ [u8 (temp_c g)] ++
  [u8 (u16 (cpu_hz g / 1000000) &&& 0xFF); u8 (u16 (cpu_hz g / 1000000) >>> 8)].

Ltac put_fields :=
  repeat first
    [ rewrite buf_put_ok by (rewrite ?length_app; simpl; lia)
    | rewrite buf_puts_ok by (rewrite ?length_app; simpl; lia) | rewrite bind_Ret ].

Lemma dev_info_ok v r g load rx tx :
  str_ok v -> zlen v <= 64 -> dev_info (v ++ 0 :: r) g load rx tx = Ret (info_layout v g load rx tx).
Proof using Type.
  intros Hv Hl. unfold dev_info, info_layout, INFO_BUF_SIZE. rewrite strlen_app, bind_Ret by done.
  cbv zeta. rewrite (wrap_id 8 (zlen v)) by (unfold fits; lia).
  unfold mem_read. rewrite (proj2 (Z.leb_le _ _)) by (rewrite length_app; lia).
  rewrite Nat2Z.id, take_app_length, bind_Ret. put_fields.
  f_equal. simpl. by rewrite <-!app_assoc.
Qed.

Lemma buf_put_inv cap buf x buf' :
  buf_put cap buf x = Ret buf' -> buf' = buf ++ [x] /\ zlen buf' <= cap.
Proof using Type.
  unfold buf_put. destruct (Z.ltb_spec (zlen buf) cap); [|done]. intros [= <-].
  rewrite length_app. simpl. split; [done|lia].
Qed.

Lemma buf_puts_inv cap buf x buf' :
  buf_puts cap buf x = Ret buf' -> buf' = buf ++ x /\ zlen buf' <= cap.
Proof using Type.
  unfold buf_puts. destruct (Z.leb_spec (zlen buf + zlen x) cap); [|done]. intros [= <-].
  rewrite length_app. split; [done|lia].
Qed.

Ltac put_inv Hb :=
  first [apply buf_put_inv in Hb | apply buf_puts_inv in Hb]; destruct Hb as [-> ?].

Lemma dev_info_overrun v r g load rx tx :
  str_ok v -> 64 < zlen v < 256 -> dev_info (v ++ 0 :: r) g load rx tx = Fault.
Proof using Type.
  intros Hv Hl. unfold dev_info, INFO_BUF_SIZE. rewrite strlen_app, bind_Ret by done.
  cbv zeta. rewrite (wrap_id 8 (zlen v)) by (unfold fits; lia).
  unfold mem_read. rewrite (proj2 (Z.leb_le _ _)) by (rewrite length_app; lia).
  rewrite Nat2Z.id, take_app_length, bind_Ret.
  match goal with |- ?m = _ => destruct m as [out|] eqn:E; [exfalso|done] end.
  repeat (apply bind_inv in E as (? & Hb & E); put_inv Hb).
  apply buf_put_inv in E as [-> Hfin]. rewrite !length_app in Hfin. simpl in Hfin. lia.
Qed.

Lemma land_255_fits x : fits 8 (x &&& 0xFF).
Proof using Type. change 0xFF with (Z.ones 8). rewrite Z.land_ones by done. by apply wrap_fits. Qed.

Lemma info_bytes v g load rx tx :
  bytes_ok v -> zlen v <= 64 -> fits 8 load -> bytes_ok (info_layout v g load rx tx).
Proof using Type.
  intros Hv Hl Hld. unfold info_layout. constructor; [unfold fits; lia|].
  rewrite !Forall_app. split_and!; try done;
    repeat (constructor; try apply land_255_fits; try (by apply wrap_fits); try done).
Qed.

Lemma get_dev_info_wp R f s v r :
  idf_version = v ++ 0 :: r -> str_ok v -> bytes_ok v -> zlen v <= 64 ->
  fits 8 (cpu_monitor_get_load (cpu s)) ->
  wpr R (handle_get_dev_info f) (fun _ s' => answers f s s') s.
Proof using HU.
  intros E Hv Hbv Hl Hload. unfold handle_get_dev_info. wp_steps. rewrite E.
  eapply wp_lift; [by apply dev_info_ok|]. apply resp_answers; [done| |by apply info_bytes].
  unfold MAX_DATA, WIFI_MGR_SCAN_MAX, WIFI_MGR_SSID_MAX. simpl. rewrite length_app. simpl. lia.
Qed.

(** ** Scan *)

Definition ap_entry (a : wifi_mgr_ap_info_t) : list Z :=
  match c_str (ap_ssid a) with
  | Ret n => zlen n :: n ++ [u8 (ap_rssi a); ap_authmode a]
  | Fault => []
  end.

Definition ap_ok (a : wifi_mgr_ap_info_t) : Prop :=
  length (ap_ssid a) = 33%nat /\ fits 8 (ap_authmode a) /\
  exists n, c_str (ap_ssid a) = Ret n /\ bytes_ok n.

Lemma ap_entry_length a : ap_ok a -> (length (ap_entry a) <= 35)%nat.
Proof using Type.
  intros (Hl & _ & n & Hn & _). unfold ap_entry. rewrite Hn. apply c_str_inv in Hn as (_ & r & E).
  rewrite E, length_app in Hl. simpl in *. rewrite length_app. simpl. lia.
Qed.

Lemma ap_entry_bytes a : ap_ok a -> bytes_ok (ap_entry a).
Proof using Type.
  intros Ha. pose proof (ap_entry_length a Ha) as Hle. destruct Ha as (_ & Hau & n & Hn & Hb).
  unfold ap_entry in *. rewrite Hn in *. simpl in Hle. rewrite length_app in Hle. simpl in Hle.
  constructor; [unfold fits; lia|]. apply Forall_app. split; [done|].
  constructor; [by apply wrap_fits|]. constructor; [done|constructor].
Qed.

Lemma scan_payload_ok aps buf :
  Forall ap_ok aps -> zlen buf + 35 * zlen aps <= 1020 ->
  scan_payload aps buf = Ret (buf ++ concat (map ap_entry aps)).
Proof using Type.
  intros Hok. revert buf. induction Hok as [|a aps (Hl & _ & n & Hn & _) _ IH]; intros buf Hb; simpl.
  - by rewrite app_nil_r.
  - pose proof (c_str_inv _ _ Hn) as (_ & r & E). rewrite E, length_app in Hl. simpl in Hl, Hb.
    unfold PROTO_MAX_PAYLOAD. rewrite (proj2 (Z.ltb_lt _ _)) by lia.
    unfold strlen. rewrite Hn, !bind_Ret. cbv zeta. rewrite (wrap_id 8 (zlen n)) by (unfold fits; lia).
    rewrite (proj2 (Z.ltb_ge _ _)) by lia. rewrite buf_put_ok, bind_Ret by lia.
    unfold mem_read. rewrite E, length_app, (proj2 (Z.leb_le _ _)) by lia.
    rewrite Nat2Z.id, take_app_length, bind_Ret.
    rewrite buf_puts_ok, bind_Ret by (rewrite length_app; simpl; lia).
    rewrite buf_put_ok, bind_Ret by (rewrite !length_app; simpl; lia).
    rewrite buf_put_ok, bind_Ret by (rewrite !length_app; simpl; lia).
    rewrite IH by (rewrite !length_app; simpl; lia). unfold ap_entry at 2. rewrite Hn.
    f_equal. repeat (rewrite <-app_assoc; simpl). done.
Qed.

(** The block [malloc] returned: 20 entries with names of 33 cells. *)
Definition env_fits (e : env) : Prop :=
  zlen (heap_aps e) = WIFI_MGR_SCAN_MAX /\
  Forall (fun a => length (ap_ssid a) = 33%nat) (heap_aps e).

Definition scan_driver : Prop :=
  forall n (w : W) r recs w',
    0 <= n -> esp_wifi_scan_get_ap_records n w = ((r, recs), w') ->
    zlen recs <= n /\ Forall record_ok recs.

Lemma concat_entries_length aps :
  Forall ap_ok aps -> zlen (concat (map ap_entry aps)) <= 35 * zlen aps.
Proof using Type.
  induction 1 as [|a aps Ha _ IH]; simpl; [done|]. rewrite length_app.
  pose proof (ap_entry_length _ Ha). lia.
Qed.

Lemma wifi_scan_wp R f e s :
  scan_driver -> env_fits e ->
  wpr R (handle_wifi_scan (during_scan e) (heap_aps e) f) (fun _ s' => answers f s s') s.
Proof using HU.
  intros Hdrv [Hn Hc]. unfold handle_wifi_scan, mach. do 2 wp_step. wp_step; [by apply no_answer_data|].
  wp_step. apply wifi_call_wp.
  eapply wp_mono; [|apply (scan_wp Hdrv _ (during_scan e) (heap_aps e)); done].
  intros [n l] x Hpost. cbn [fst snd] in *.
  destruct Hpost as [[-> ->]|(w & recs & w' & Hw & -> & Hmax & Hlen & Hin & _)];
    [by apply no_answer_data|].
  destruct (Hdrv WIFI_MGR_SCAN_MAX _ _ _ _ ltac:(done) Hw) as [_ Hrecs].
  rewrite (proj2 (Z.ltb_ge _ _)) by lia. unfold WIFI_MGR_SCAN_MAX in *.
  rewrite (proj2 (Z.leb_le _ _)) by lia. rewrite Nat2Z.id.
  assert (Forall ap_ok (take (length recs) l)) as Hok.
  { apply Forall_lookup. intros j ap Ha. apply lookup_take_Some in Ha as [Ha Hj].
    destruct (lookup_lt_is_Some_2 recs j Hj) as [r Hr].
    destruct (Hin _ _ Hr) as (a' & Ha' & Hap). replace ap with a' by congruence.
    destruct Hap as (? & Heq & [nm Hnm] & _ & Hau). split; [done|]. split.
    - rewrite Hau. by apply wrap_fits.
    - exists nm. split; [done|]. rewrite Hnm in Heq. apply (c_strn_bytes _ _ _) in Heq; [done|].
      by apply (Forall_lookup_1 _ _ _ _ Hrecs Hr). }
  pose proof (concat_entries_length _ Hok) as Hcl. rewrite length_take in Hcl.
  wp_step. eapply wp_lift; [apply scan_payload_ok; [done|rewrite length_take; simpl; lia]|].
  apply resp_answers; [done| |].
  - unfold MAX_DATA, WIFI_MGR_SCAN_MAX, WIFI_MGR_SSID_MAX. simpl in *. lia.
  - simpl. constructor; [by apply wrap_fits|]. apply Forall_concat, Forall_map.
    revert Hok. apply Forall_impl, ap_entry_bytes.
Qed.

(** ** The relay's commands *)

Lemma proxy_connect_wp R f s :
  bytes_ok (f_payload f) -> wpr R (handle_proxy_connect f) (fun _ s' => answers f s s') s.
Proof using HU.
  intros Hb. unfold handle_proxy_connect, payload_len. wp_step; [by apply no_answer_data|].
  destruct (f_payload f) as [|hl p]; [done|]. inversion_clear Hb as [|? ? [Hh0 Hh1] _].
  wp_step. eapply wp_lift; [done|]. cbv zeta. simpl length. simpl drop. rewrite drop_0.
  wp_step; [by apply no_answer_data|].
  destruct (Z.ltb_spec (Z.of_nat (S (length p)) - 1) (hl + 2)); [done|].
  destruct (take_read p hl) as [Hr Hl]; [lia|]. change (2 ^ 8) with 256 in Hh1.
  wp_step. eapply wp_lift; [done|]. wp_step. eapply wp_lift.
  { rewrite buf_puts_ok, bind_Ret by (simpl; lia). apply buf_put_ok. simpl. lia. }
  assert (length (drop (Z.to_nat hl) p) = (length p - Z.to_nat hl)%nat) as Hd by apply length_drop.
  destruct (drop (Z.to_nat hl) p) as [|p0 [|p1 q]]; [simpl in Hd; lia..|].
  wp_step. eapply wp_lift; [done|]. wp_step. eapply wp_lift; [done|].
  destruct (terminated_array (S (Z.to_nat hl)) (take (Z.to_nat hl) p)) as [name Hname]; [lia|].
  wp_step. eapply wp_lift.
  { rewrite <-Hname. unfold char_array. do 3 f_equal. rewrite Hl.
    by replace (S (Z.to_nat hl) - Z.to_nat hl)%nat with 1%nat by lia. }
  unfold rel. wp_steps; by apply no_answer_data.
Qed.

Lemma proxy_send_wp R f s :
  wpr R (handle_proxy_send f) (fun _ s' => same_output s s') s.
Proof using Type. unfold handle_proxy_send, rel. by wp_steps. Qed.

(** A disconnect may push frames first. *)
Definition push_wire (p : Z * list Z) : list Z := wire (0 :: p.1 :: p.2).

Lemma pushes_wp R pushes (Q : unit -> fw -> Prop) s :
  Forall push_ok pushes ->
  (forall s' ps, sublist ps pushes -> sent (map push_wire ps) s s' -> Q tt s') ->
  wpr R (foldr (fun '(c, d) m => cdc_send_push c d ;; m) (mret tt) pushes) Q s.
Proof using HU.
  revert s. induction pushes as [|[c d] pushes IH]; intros s Hl HQ; simpl.
  - apply wp_ret, (HQ s []); [done|]. by apply sent_none.
  - apply Forall_cons_1 in Hl as [(_ & _ & Hd) Hl]. wp_step. unfold cdc_send_push, mach. do 2 wp_step.
    wp_step; [wp_step|].
    + apply IH; [done|]. intros s' ps Hps Hq. apply (HQ s' ps); [by apply sublist_cons|]. by eapply sent_from.
    + assert (proto_build_push c (match d with [] => None | _ => Some d end) (zlen d) PUSH_BUF_SIZE
              = Ret (push_wire (c, d))) as E.
      { unfold PUSH_BUF_SIZE, PROTO_MAX_PAYLOAD in *. simpl in Hd. destruct d as [|x d].
        - by apply build_push_wire_null.
        - apply build_push_wire; lia. }
      wp_step. eapply wp_lift; [exact E|].
      rewrite (proj2 (Z.ltb_lt _ _)) by (unfold push_wire; rewrite wire_length; lia).
      apply cdc_write_sent. intros s1 Hs1. apply IH; [done|]. intros s' ps Hps Hq.
      apply (HQ s' ((c, d) :: ps)); [by apply sublist_skip|].
      apply (sent_app [_] _ _ s1); [by eapply sent_from|done].
Qed.

Lemma proxy_disconnect_wp `{!RelayLaws T} R f s :
  wpr R (handle_proxy_disconnect f)
    (fun _ s' => exists ps st d, zlen d <= MAX_DATA /\ bytes_ok d /\
       sublist ps (tcp_mgr_disconnect (relay s)).1 /\
       sent (map push_wire ps ++ [response_wire f st d]) s s') s.
Proof using HU.
  unfold handle_proxy_disconnect, rel. do 2 wp_step. wp_step. apply pushes_wp.
  - pose proof (disconnect_pushes (relay s)) as Hp. by rewrite H in Hp.
  - intros s1 ps Hps Hq. eapply wp_mono; [|by apply (no_answer_data R f _ s1)].
    intros [] s' (st & d & Hd & Hbd & Hs'). exists ps, st, d. rewrite H. split_and!; [done..|].
    apply (sent_app _ _ _ s1); [by eapply sent_from|done].
Qed.

Context (Hsz1 : (0 < sizeof_sta_ssid)%nat) (Hsz2 : (0 < sizeof_sta_password)%nat).

(** The device restarts if the driver refuses the configuration. *)
Definition refused s s' : Prop :=
  same_output s s' /\ exists c w, (esp_wifi_set_config (W := W) c w).1 <> ESP_OK.

Lemma wifi_connect_wp f s : wpr (refused s) (handle_wifi_connect f) (fun _ s' => answers f s s') s.
Proof using HU HL Hsz1 Hsz2.
  unfold handle_wifi_connect. wp_step. apply wifi_call_wp, connect_wp; [done..| |].
  - intros c w x Hc. split; [done|by exists c, w].
  - intros r x _. by apply no_answer_data.
Qed.

(** ** Every command *)

Context `{HRL : !RelayLaws T}.
Context (Hscan : scan_driver) (v rv : list Z) (Hver : idf_version = v ++ 0 :: rv)
  (Hv : str_ok v) (Hvb : bytes_ok v) (Hvl : zlen v <= 64).

(** What one command adds to the output: nothing for [CMD_PROXY_SEND],
    otherwise one response, after the frames a disconnect pushes. *)
Definition output_of (f : proto_frame) s s' : Prop :=
  if f_cmd f =? CMD_PROXY_SEND then same_output s s'
  else exists ps st d, zlen d <= MAX_DATA /\ bytes_ok d /\
    sublist ps (if f_cmd f =? CMD_PROXY_DISCONNECT then (tcp_mgr_disconnect (relay s)).1 else []) /\
    sent (map push_wire ps ++ [response_wire f st d]) s s'.

Lemma answers_output f s s' :
  f_cmd f <> CMD_PROXY_SEND -> answers f s s' -> output_of f s s'.
Proof using Type.
  intros Hc (st & d & Hd & Hb & Hq). unfold output_of. rewrite (proj2 (Z.eqb_neq _ _) Hc).
  exists [], st, d. split_and!; try done. apply sublist_nil_l.
Qed.

(** The memory safety of [on_frame] depends on these. *)
Record frame_safe (e : env) (f : proto_frame) s : Prop := {
  fs_bytes : bytes_ok (f_payload f);
  fs_env : env_fits e;
  fs_ip : length (s_ip (wm s)) = 4%nat;
  fs_ip_bytes : bytes_ok (s_ip (wm s));
  fs_load : fits 8 (cpu_monitor_get_load (cpu s));
  fs_config : f_cmd f = CMD_WIFI_SET_CONFIG -> set_config_safe (f_payload f) = true;
}.

(** The commands that may restart the device: [CMD_RESET] after its response,
    [CMD_WIFI_CONNECT] without one if the driver refuses the configuration. *)
Definition restart_ok (f : proto_frame) s s' : Prop :=
  (f_cmd f = CMD_RESET /\ output_of f s s') \/ (f_cmd f = CMD_WIFI_CONNECT /\ refused s s').

(** From a handler's lemma to the dispatcher's postcondition. *)
Lemma handler_output c f s (m : M fw unit) :
  (f_cmd f =? c) = true -> c <> CMD_PROXY_SEND ->
  wpr (fun _ => False) m (fun _ s' => answers f s s') s ->
  wpr (restart_ok f s) m (fun _ s' => output_of f s s') s.
Proof using Type.
  intros Hc%Z.eqb_eq Hs. apply wpr_weaken; [done|].
  intros _ s' Ha. apply answers_output; [congruence|done].
Qed.

Lemma on_frame_wp e f s :
  frame_safe e f s ->
  wpr (restart_ok f s) (on_frame e f) (fun _ s' => output_of f s s') s.
Proof using All.
  intros [Hb He Hip Hipb Hload Hcfg]. unfold on_frame.
  apply wp_if; intros ?; [by apply (handler_output CMD_PING), ping_wp|].
  apply wp_if; intros ?; [by apply (handler_output CMD_GET_DEV_INFO), (get_dev_info_wp _ _ _ v rv)|].
  apply wp_if; intros Hr.
  { eapply wpr_weaken; [| |apply reset_wp]; [|done]. intros s' Ha. apply Z.eqb_eq in Hr. left.
    split; [done|]. apply answers_output; [by rewrite Hr|done]. }
  apply wp_if; intros ?; [by apply (handler_output CMD_LED_SET), led_set_wp|].
  apply wp_if; intros ?; [by apply (handler_output CMD_LED_GET), led_get_wp|].
  apply wp_if; intros Hc.
  { apply (handler_output CMD_WIFI_SET_CONFIG); [done..|].
    apply wifi_set_config_wp; [done|]. by apply Hcfg, Z.eqb_eq. }
  apply wp_if; intros ?; [by apply (handler_output CMD_WIFI_GET_CONFIG), wifi_get_config_wp|].
  apply wp_if; intros Hw.
  { apply Z.eqb_eq in Hw. eapply wpr_weaken; [| |apply wifi_connect_wp].
    - intros s' Hs'. by right.
    - intros [] s' Ha. apply answers_output; [by rewrite Hw|done]. }
  apply wp_if; intros ?; [by apply (handler_output CMD_WIFI_DISCONNECT), wifi_disconnect_wp|].
  apply wp_if; intros ?; [by apply (handler_output CMD_WIFI_GET_STATUS), wifi_status_wp|].
  apply wp_if; intros ?; [by apply (handler_output CMD_WIFI_SCAN), wifi_scan_wp|].
  apply wp_if; intros ?; [by apply (handler_output CMD_WIFI_SET_HOSTNAME), wifi_set_hostname_wp|].
  apply wp_if; intros ?; [by apply (handler_output CMD_WIFI_GET_HOSTNAME), wifi_get_hostname_wp|].
  apply wp_if; intros ?; [by apply (handler_output CMD_PROXY_CONNECT), proxy_connect_wp|].
  apply wp_if; intros Hs.
  { eapply wp_mono; [|apply proxy_send_wp]. intros ? s' Hq. unfold output_of. by rewrite Hs. }
  apply wp_if; intros Hd.
  { eapply wp_mono; [|by apply proxy_disconnect_wp].
    intros ? s' (ps & st & d & Hps). unfold output_of. rewrite Hs, Hd. by exists ps, st, d. }
  apply wp_if; intros ?; [by apply (handler_output CMD_PROXY_GET_STATUS), proxy_status_wp|].
  eapply wp_mono; [|by apply no_answer_data]. intros [] s' Ha.
  apply answers_output; [by apply Z.eqb_neq|done].
Qed.
End Facts.
