(* ===== verification/RelayInst.v ===== *)
(** * The TCP relay behind the firmware's interface

    [Relay] implemented with the model of tcp_mgr.c: an API call is the run of
    the command task from its call to its return, the other tasks standing
    still.  [relay_reachable] places each call among the interleavings. *)

From S2P Require Import Prelude CMem Proto TcpMgr Firmware FirmwareFacts.

(** The component, and what the network will answer to a connect. *)
Definition relay_t : Type := tcp * connect_env.

Definition cmd_exec (a : api_answer) (t : tcp) : tcp := tcp_exec (LCmd a) t.

Definition last_return (l : list tcp_event) : Z :=
  foldl (fun r e => match e with EvReturn x => x | _ => r end) 0 l.

Definition new_pushes (old new : tcp) : list (Z * list Z) :=
  omap (fun e => match e with EvPush c d => Some (c, d) | _ => None end)
       (drop (length (log (sh old))) (log (sh new))).

(** [tcp_mgr_connect]: busy check, the socket, the store of [s_fd]. *)
Definition run_connect (host : list Z) (e : connect_env) (t : tcp) : tcp :=
  let t := cmd_exec (CallConnect (Some (zlen host))) t in
  match cm t with
  | CnOpen =>
      let t := cmd_exec (AConnect e) t in
      match cm t with CnStore _ => cmd_exec ACmd t | _ => t end
  | _ => t
  end.

(** [tcp_mgr_send]; [malloc] succeeds. *)
Definition run_send (data : list Z) (t : tcp) : tcp :=
  let t := cmd_exec (CallSend (Some data)) t in
  match cm t with SdQueue _ => cmd_exec (AAlloc true) t | _ => t end.

(** [tcp_mgr_disconnect]: [close_relay] takes at most four steps. *)
Definition run_disconnect (t : tcp) : tcp :=
  cmd_exec ACmd (cmd_exec ACmd (cmd_exec ACmd (cmd_exec ACmd (cmd_exec CallDisconnect t)))).

#[export] Instance tcp_relay : Relay relay_t := {
  tcp_mgr_connect host _ x :=
    let t := run_connect host x.2 x.1 in (last_return (log (sh t)), (t, x.2));
  tcp_mgr_send data x := let t := run_send data x.1 in (last_return (log (sh t)), (t, x.2));
  tcp_mgr_disconnect x := let t := run_disconnect x.1 in (new_pushes x.1 t, (t, x.2));
  tcp_mgr_is_connected x := 0 <=? s_fd (sh x.1);
  relay_bytes x := tcp_mgr_get_bytes (sh x.1);
  relay_start x := (tcp_mgr_init, x.2);
}.

(** ** The calls are runs of the component *)

Lemma cmd_step a t : label_ok (LCmd a) t -> tcp_reachable t -> tcp_reachable (cmd_exec a t).
Proof. intros Hok Hr. eapply rtc_r; [exact Hr|]. by constructor. Qed.

Lemma relay_reachable t e :
  tcp_reachable t -> (0 <= ce_sock e -> ce_sock e ∉ os_open (sh t)) ->
  (forall host port, tcp_reachable (tcp_mgr_connect host port (t, e)).2.1) /\
  (forall data, tcp_reachable (tcp_mgr_send data (t, e)).2.1) /\
  tcp_reachable (tcp_mgr_disconnect (t, e)).2.1.
Proof.
  intros Hr Hs. split_and!; simpl.
  - intros host _. unfold run_connect.
    assert (os_open (sh (cmd_exec (CallConnect (Some (zlen host))) t)) = os_open (sh t)) as Ho.
    { unfold cmd_exec, tcp_exec, api_step. destruct (cm t); try done. by split_ifs. }
    pose proof (cmd_step (CallConnect (Some (zlen host))) t I Hr) as H1.
    set (t1 := cmd_exec _ t) in *. clearbody t1.
    destruct (cm t1) eqn:E1; try done.
    assert (tcp_reachable (cmd_exec (AConnect e) t1)) as H2
      by (apply cmd_step; [by rewrite <-Ho in Hs|done]).
    destruct (cm (cmd_exec (AConnect e) t1)); try done. by apply cmd_step.
  - intros data. unfold run_send.
    destruct (cm (cmd_exec (CallSend (Some data)) t)); by repeat apply cmd_step.
  - unfold run_disconnect. by repeat apply cmd_step.
Qed.

(** Only the close notification is pushed, and only if a connection was up. *)
Lemma disconnect_spec t e :
  cm t = CmdIdle ->
  (tcp_mgr_disconnect (t, e)).1
  = (if 0 <=? s_fd (sh t) then [(CMD_PROXY_CLOSED_PUSH, [])] else []) /\
  tcp_mgr_is_connected (tcp_mgr_disconnect (t, e)).2 = false /\
  cm (tcp_mgr_disconnect (t, e)).2.1 = CmdIdle.
Proof.
  intros Hc. destruct t as [g r x c]. simpl in Hc. subst c.
  assert (run_disconnect (mk_tcp g r x CmdIdle)
          = mk_tcp (if s_fd g <? 0 then set_fd g (-1)
                    else emit (os_close (emit (set_fd g (-1)) (EvShutdown (s_fd g))) (s_fd g))
                              (EvPush CMD_PROXY_CLOSED_PUSH [])) r x CmdIdle) as E.
  { unfold run_disconnect, cmd_exec, tcp_exec. simpl. by destruct (s_fd g <? 0). }
  simpl. rewrite E. unfold new_pushes. simpl.
  destruct (Z.ltb_spec (s_fd g) 0), (Z.leb_spec 0 (s_fd g)); try lia; simpl.
  - by rewrite drop_all.
  - rewrite <-!app_assoc, drop_app_length. done.
Qed.

(** Whatever the state, the command task pushes nothing but that notification. *)
Definition notice (e : tcp_event) : Prop :=
  match e with EvPush c d => c = CMD_PROXY_CLOSED_PUSH /\ d = [] | _ => True end.
Definition extends (t t' : tcp) : Prop :=
  exists l, log (sh t') = log (sh t) ++ l /\ Forall notice l.

#[export] Instance extends_preorder : PreOrder extends.
Proof.
  split.
  - intros t. exists []. by rewrite app_nil_r.
  - intros t1 t2 t3 (l & E & H) (l' & E' & H'). exists (l ++ l').
    rewrite E', E, app_assoc. split; [done|]. by apply Forall_app.
Qed.

Lemma close_relay_extends c g :
  exists l, log (close_relay c g).1 = log g ++ l /\ Forall notice l.
Proof.
  destruct c; simpl; [exists []; by rewrite app_nil_r|eexists; (split; [reflexivity|])..];
    by repeat constructor.
Qed.

Lemma cmd_exec_extends a t : extends t (cmd_exec a t).
Proof.
  assert (exists l, log (api_step a (cm t) (sh t)).1 = log (sh t) ++ l /\ Forall notice l)
    as (l & Hl & Hn).
  { destruct (cm t) as [| | | |c], a as [[]| |[]| | | |]; simpl; split_ifs;
      try (destruct (connect_socket e).1); simpl;
      try (exists []; by rewrite app_nil_r);
      try (eexists; split; [rewrite <-?app_assoc; reflexivity|]; by repeat constructor).
    destruct (close_relay_extends c (sh t)) as (l & Hl & Hn).
    destruct (close_relay c (sh t)). by exists l. }
  exists l. unfold cmd_exec, tcp_exec. destruct (api_step a (cm t) (sh t)). by split.
Qed.

#[export] Instance tcp_relay_laws : RelayLaws relay_t.
Proof.
  split. intros [t e]. simpl. unfold new_pushes.
  assert (extends t (run_disconnect t)) as (l & -> & Hl)
    by (unfold run_disconnect; do 5 (etransitivity; [|apply cmd_exec_extends]); reflexivity).
  rewrite drop_app_length. induction Hl as [|ev l Hev _ IH]; simpl; [constructor|].
  destruct ev as [| | | | |c d|]; try done. destruct Hev as [-> ->].
  constructor; [|done]. by split; [|split; [constructor|]].
Qed.
