(* ===== verification/FirmwareProps.v ===== *)
(** * The properties of the firmware *)

From S2P Require Import Prelude Crc16 CMem CState Proto ProtoFacts CpuMonitor TcpMgr.
From S2P Require Import WifiMgr WifiFacts WifiStatus WifiProps Firmware FirmwareFacts RelayInst.
Local Open Scope c_scope.

(** ** A concrete machine

    A serial port with a buffer of 64 bytes that a flush empties. *)

Record port := mk_port { room : nat; led_nv : option Z; level : Z; rx : list Z }.

#[export] Instance port_machine : Machine port := {
  write_available u := (Z.of_nat (room u), u);
  write_flush u := (0, mk_port 64 (led_nv u) (level u) (rx u));
  write_queue d u := mk_port (room u - length d) (led_nv u) (level u) (rx u);
  cdcacm_read n u := ((0, take (Z.to_nat n) (rx u)),
                      mk_port (room u) (led_nv u) (level u) (drop (Z.to_nat n) (rx u)));
  led_open _ u := (0, u);
  led_set_u8 v u := (0, mk_port (room u) (Some v) (level u) (rx u));
  led_get_u8 u := led_nv u;
  led_commit u := (0, u);
  led_close u := u;
  gpio_set_level v u := mk_port (room u) (led_nv u) v (rx u);
  idf_version := [118; 53; 46; 51; 0];
  read_sensors _ := mk_readings 100000 300000 90000 123456789 9 41 240000000;
  fw_malloc u := (true, u);
  nvs_flash_init u := (0, u);
  boot _ u := (0, u);
  mutex_create u := (true, u);
  ESP_ERR_NVS_NO_FREE_PAGES := 0x110d;
  ESP_ERR_NVS_NEW_VERSION_FOUND := 0x1110;
}.

#[export] Instance port_usb : UsbLaws port.
Proof. split; simpl; intros; lia. Qed.

Section Props.
Context {W U T : Type} `{HP : !Platform W} `{HM : !Machine U} `{HR : !Relay T}.
Local Abbreviation fw := (fw W U T).
Implicit Types s : fw.

Section Write.
Context `{HU : !UsbLaws U}.

(** C9. Writing to the serial port is complete and terminates.  However much
    room the USB stack reports, the loop of [cdc_write_locked] ends within two
    turns per byte; what it queues is a prefix of the buffer, in order, and
    the whole buffer if no flush fails. *)
Theorem cdc_write_complete buf s :
  wp (cdc_write_locked buf)
     (fun _ s' => (exists n, queued s' = queued s ++ take n buf) /\
        ((forall u, (write_flush u).1 = ESP_OK) -> queued s' = queued s ++ buf)) s.
Proof.
  apply cdc_write_wp. intros s' ((n & _ & Hn) & _ & Hall & Hok). rewrite drop_0 in *. split; [by exists n|].
  intros Hf. by apply Hall, Hok.
Qed.
End Write.

Context `{HU : !UsbLaws U} `{HL : !NvsLaws W} `{HRL : !RelayLaws T}.

Lemma lift_ret {A B} s (a : A) (k : A -> M fw B) : (lift (Ret a) ≫= k) s = k a s.
Proof using Type. done. Qed.

Lemma mem_read_app l r : mem_read (l ++ r) (zlen l) = Ret l.
Proof using Type.
  unfold mem_read. rewrite length_app, (proj2 (Z.leb_le _ _)) by lia.
  by rewrite Nat2Z.id, take_app_length.
Qed.

(** A well-formed payload: the two copies, then the manager. *)
Lemma set_config_run f id pw s :
  f_payload f = zlen id :: id ++ zlen pw :: pw ->
  handle_wifi_set_config f s
  = (ssid ← lift (mem_write (replicate 33 0) id);
     pass ← lift (mem_write (replicate 65 0) pw);
     ret ← wifi_call (wifi_mgr_set_config (Some ssid) (Some pass));
     resp f (status_of ret) None) s.
Proof using Type.
  intros Hp. unfold handle_wifi_set_config, payload_len. rewrite Hp. cbv zeta.
  rewrite (proj2 (Z.ltb_ge _ 1)) by (simpl; lia).
  change (rd (zlen id :: id ++ zlen pw :: pw) 0) with (Ret (zlen id)).
  change (drop 1 (zlen id :: id ++ zlen pw :: pw)) with (drop 0 (id ++ zlen pw :: pw)). rewrite drop_0.
  unfold mbind at 1, M_bind at 1, lift at 1. cbv beta iota.
  rewrite (proj2 (Z.ltb_ge _ (zlen id + 1))) by (simpl; rewrite length_app; simpl; lia).
  rewrite mem_read_app, Nat2Z.id, drop_app_length, lift_ret.
  change (Z.to_nat (WIFI_MGR_SSID_MAX + 1)) with 33%nat.
  change (Z.to_nat (WIFI_MGR_PASS_MAX + 1)) with 65%nat.
  destruct (mem_write (replicate 33 0) id) as [sid|]; [|done].
  rewrite !(lift_ret s sid). change (rd (zlen pw :: pw) 0) with (Ret (zlen pw)).
  rewrite lift_ret. change (drop 1 (zlen pw :: pw)) with (drop 0 pw). rewrite drop_0.
  rewrite (proj2 (Z.ltb_ge _ (zlen pw))) by (simpl; rewrite length_app; simpl; lia).
  by rewrite mem_read_all, lift_ret.
Qed.

Lemma mem_write_full (l : list Z) n : length l = n -> mem_write (replicate n 0) l = Ret l.
Proof using Type.
  intros <-. rewrite mem_write_ok by (rewrite length_replicate; lia).
  rewrite drop_ge, app_nil_r; [done|]. by rewrite length_replicate.
Qed.

(** C13. The buffers of [handle_wifi_set_config].  For a well-formed payload
    whose SSID and password are free of NUL bytes, the SSID not empty, the
    handler is safe and answers exactly when the SSID has at most 32 and the
    password at most 64 bytes; otherwise it overruns a stack array or reads past
    its end: the lengths are bounded only by the payload. *)
Theorem set_config_memory f id pw s :
  f_payload f = zlen id :: id ++ zlen pw :: pw -> id <> [] ->
  str_ok id -> str_ok pw -> bytes_ok (f_payload f) ->
  (zlen id <= WIFI_MGR_SSID_MAX /\ zlen pw <= WIFI_MGR_PASS_MAX ->
   wp (handle_wifi_set_config f) (fun _ s' => answers f s s') s) /\
  (~ (zlen id <= WIFI_MGR_SSID_MAX /\ zlen pw <= WIFI_MGR_PASS_MAX) ->
   handle_wifi_set_config f s = Undef).
Proof.
  intros Hp Hne Hid Hpw Hb. split.
  - intros [H1 H2]. apply wifi_set_config_wp; [done|]. rewrite Hp. simpl.
    rewrite (proj2 (Z.leb_le _ _) H1), Nat2Z.id, drop_app_length.
    rewrite (proj2 (Z.leb_le _ _) H2). by destruct (_ <? _), (_ <? _).
  - intros Hbad. rewrite (set_config_run _ _ _ _ Hp).
    unfold WIFI_MGR_SSID_MAX, WIFI_MGR_PASS_MAX in *. unfold mbind at 1, M_bind at 1, lift at 1.
    destruct (decide (33 < zlen id)).
    { rewrite mem_write_over by (rewrite length_replicate; lia). done. }
    destruct (decide (65 < zlen pw)).
    { rewrite (mem_write_zeroed 33) by lia. unfold mbind at 1, M_bind at 1, lift at 1.
      rewrite mem_write_over by (rewrite length_replicate; lia). done. }
    destruct (decide (zlen id = 33)).
    { rewrite mem_write_full by lia. unfold mbind at 1, M_bind at 1, lift at 1.
      rewrite mem_write_zeroed by lia. unfold mbind at 1, M_bind at 1, wifi_call, embed.
      unfold wifi_mgr_set_config. rewrite run_bind. cbn [CState.run]. unfold lift.
      by rewrite c_str_unterminated. }
    rewrite mem_write_zeroed by lia. unfold mbind at 1, M_bind at 1, lift at 1.
    rewrite mem_write_full by lia. unfold mbind at 1, M_bind at 1, wifi_call, embed.
    unfold wifi_mgr_set_config. rewrite run_bind. cbn [CState.run]. unfold lift at 1.
    rewrite c_str_char_array by (done || lia).
    rewrite (proj2 (Z.eqb_neq (zlen id) 0)) by (destruct id; simpl; done || lia).
    unfold WIFI_MGR_SSID_MAX. rewrite (proj2 (Z.ltb_ge 32 (zlen id))) by lia. cbn [orb].
    rewrite run_bind. cbn [CState.run]. unfold lift at 1. by rewrite c_str_unterminated.
Qed.

(** ** Exact answers *)

(** The stored configuration is returned in clear.  With credentials
    stored, [CMD_WIFI_GET_CONFIG] is answered with the SSID and the password,
    each preceded by its length: the password is not masked. *)
Theorem get_config_response f s id pw :
  saved (wm s) id pw -> bytes_ok id -> bytes_ok pw ->
  wp (handle_wifi_get_config f)
     (fun _ s' => sent [response_wire f PROTO_STATUS_OK (zlen id :: id ++ zlen pw :: pw)] s s') s.
Proof using HU.
  intros [H1 H2 H3 H4 H5 H6] Hb1 Hb2. unfold WIFI_MGR_SSID_MAX, WIFI_MGR_PASS_MAX in *.
  unfold handle_wifi_get_config. wp_step. apply wifi_call_wp. unfold wpr at 1.
  rewrite (get_config_run id pw) by done. cbn [fst snd]. rewrite Z.eqb_refl. cbn [negb].
  wp_step. eapply wp_lift; [apply config_payload_ok; done || lia|].
  apply resp_wp; [|done].
  unfold PROTO_MAX_PAYLOAD. simpl. rewrite length_app. simpl. lia.
Qed.

(** The status report.  [CMD_WIFI_GET_STATUS] is answered with six bytes:
    the state, the four address bytes and the signal strength. *)
Theorem get_status_response f s :
  length (s_ip (wm s)) = 4%nat ->
  wp (handle_wifi_get_status f)
     (fun _ s' => exists r,
        sent [response_wire f PROTO_STATUS_OK
                (u8 (state_byte (s_state (wm s))) :: s_ip (wm s) ++ [u8 r])] s s' /\
        (s_state (wm s) <> WIFI_MGR_STATE_CONNECTED -> r = 0)) s.
Proof using HU.
  intros Hip. unfold handle_wifi_get_status. wp_step. apply wifi_call_wp.
  apply get_status_wp; [done|]. intros r Hr. wp_step. cbn [ip state rssi]. eapply wp_lift.
  { change 4 with (Z.of_nat 4). rewrite <-Hip. apply mem_read_all. }
  apply resp_wp.
  - unfold PROTO_MAX_PAYLOAD. simpl. rewrite length_app, Hip. simpl. lia.
  - intros s' Hs'. by exists r.
Qed.

(** Device information.  For every version string of at most 64
    characters the report has the documented layout, in a buffer it fits
    exactly; a longer one (up to 255 characters) overruns the buffer. *)
Theorem dev_info_layout v r g load rx tx :
  str_ok v -> zlen v < 256 ->
  dev_info (v ++ 0 :: r) g load rx tx
  = if zlen v <=? 64 then Ret (info_layout v g load rx tx) else Fault.
Proof using Type.
  intros Hv Hl. destruct (Z.leb_spec (zlen v) 64); [by apply dev_info_ok|].
  by apply dev_info_overrun.
Qed.

(** ** Every command *)

Lemma Forall_sub {A} (P : A -> Prop) l1 l2 : sublist l1 l2 -> Forall P l2 -> Forall P l1.
Proof using Type.
  induction 1; [done|intros [? ?]%Forall_cons_1; constructor; auto|intros [? ?]%Forall_cons_1; auto].
Qed.

(** The host's view of the output: what its parser delivers. *)
Definition push_frame (p : Z * list Z) : proto_frame := mk_frame 0 p.1 p.2.

Lemma host_reads ps bd hp :
  Forall push_ok ps -> body_ok bd -> hunting hp ->
  (run hp (concat (map push_wire ps) ++ wire bd)).2 = map push_frame ps ++ [body_to_frame bd].
Proof using Type.
  intros Hps Hbd. revert hp. induction Hps as [|[c d] ps (Hc & Hd & Hl) _ IH]; intros hp Hh.
  - destruct (run_wire hp bd [] Hh Hbd) as (p' & _ & Hr). rewrite app_nil_r in Hr. simpl. by rewrite Hr.
  - simpl in Hc, Hd, Hl. cbn [map concat]. rewrite <-app_assoc.
    change (push_wire (c, d)) with (wire (0 :: c :: d)).
    destruct (run_wire hp (0 :: c :: d) (concat (map push_wire ps) ++ wire bd) Hh)
      as (p' & Hp' & ->).
    + split; [by repeat (constructor; [done|])|].
      unfold PROTO_MAX_PAYLOAD in *. simpl. lia.
    + cbn [snd]. rewrite IH by (by left). done.
Qed.

(** Some frames were queued: pushed ones and then a response to [f], or of each
    a prefix if a write was given up, which takes a flush that fails.  If none
    was, the host's parser delivers them, from the pushes to the response. *)
Definition host_answer (f : proto_frame) (hp : parser) s s' : Prop :=
  exists ps st d pieces,
    sublist ps (if f_cmd f =? CMD_PROXY_DISCONNECT then (tcp_mgr_disconnect (relay s)).1 else []) /\
    queued s' = queued s ++ concat pieces /\
    Forall2 prefix pieces (map push_wire ps ++ [response_wire f st d]) /\
    (writes_cut s' = writes_cut s ->
     (run hp (concat pieces)).2 = map push_frame ps ++
       [mk_frame (f_seq f) (u8 (f_cmd f ||| PROTO_RESP_FLAG)) (status_byte st :: d)]) /\
    (flush_works (U := U) -> writes_cut s' = writes_cut s).

Lemma output_host f hp s s' :
  fits 8 (f_seq f) -> f_cmd f <> CMD_PROXY_SEND -> hunting hp ->
  output_of f s s' -> host_answer f hp s s'.
Proof using HRL.
  intros Hseq Hc Hh. unfold output_of. rewrite (proj2 (Z.eqb_neq _ _) Hc).
  intros (ps & st & d & Hd & Hb & Hps & pieces & Hpre & Hq & _ & Hall & Hok). exists ps, st, d, pieces.
  split_and!; [done..| |done]. intros E. rewrite (Hall E), concat_app. cbn [concat]. rewrite app_nil_r.
  unfold response_wire. rewrite host_reads; [done| | |done].
  - destruct (f_cmd f =? CMD_PROXY_DISCONNECT).
    + apply (Forall_sub _ _ _ Hps), disconnect_pushes.
    + apply sublist_nil_r in Hps as ->. constructor.
  - unfold MAX_DATA, WIFI_MGR_SCAN_MAX, WIFI_MGR_SSID_MAX in Hd. split.
    + constructor; [done|]. constructor; [by apply wrap_fits|]. constructor; [by destruct st|done].
    + unfold PROTO_MAX_PAYLOAD. simpl. lia.
Qed.

(** The device restarts: as asked, after the response, or because the driver
    refused the stored configuration, with nothing queued. *)
Definition host_restart (f : proto_frame) (hp : parser) s s' : Prop :=
  (f_cmd f = CMD_RESET /\ host_answer f hp s s') \/ (f_cmd f = CMD_WIFI_CONNECT /\ refused s s').

Section Commands.
Context (Hsz1 : (0 < sizeof_sta_ssid)%nat) (Hsz2 : (0 < sizeof_sta_password)%nat).
Context (Hscan : scan_driver) (v rv : list Z) (Hver : idf_version = v ++ 0 :: rv)
  (Hv : str_ok v) (Hvb : bytes_ok v) (Hvl : zlen v <= 64).

(** C4. One response per command.  Take any command byte and payload, except a
    [CMD_WIFI_SET_CONFIG] whose lengths exceed the two arrays, with a 4-byte
    address, a one-byte load and an IDF version of at most 64 characters.  Then
    [on_frame] has no undefined behaviour.  [CMD_PROXY_SEND] adds nothing to the
    output.  For every other command the frames written are one response, with
    the request's sequence number, its command byte with the response flag and
    at most 701 data bytes, and before it, for [CMD_PROXY_DISCONNECT] only, the
    relay's pushes; a frame can be cut short only by a flush of the USB stack
    that fails.  The device restarts only for [CMD_RESET], after the response,
    and for [CMD_WIFI_CONNECT], without one, if the driver refuses the stored
    configuration. *)
Theorem one_response_per_command e f s :
  frame_safe e f s ->
  wpr (restart_ok f s) (on_frame e f) (fun _ s' => output_of f s s') s.
Proof using All. by eapply on_frame_wp. Qed.

(** C1. The command round trip.  A request frame of at most 512 bytes in the
    stream buffer, other than [CMD_PROXY_SEND] and a [CMD_WIFI_SET_CONFIG] whose
    lengths exceed the two arrays, is taken by [cmd_task] with its parser between
    frames (and a 4-byte address, a one-byte load, an IDF version of at most 64
    characters).  Unless a write is given up because a flush fails, the host's
    parser then delivers exactly one response with the request's sequence number
    and flagged command byte, preceded only by the pushes of a disconnect; if
    one is, a prefix of each frame is queued.  The device restarts only after
    the response to [CMD_RESET], or, with nothing queued, for a
    [CMD_WIFI_CONNECT] whose configuration the driver refuses.  Parser,
    dispatcher, handler, builder and serial writer together. *)
Theorem command_round_trip e p hp f n s :
  frame_safe e f s -> body_ok (frame_body f) -> f_cmd f <> CMD_PROXY_SEND ->
  s_cmd_stream s = wire (frame_body f) ->
  zlen (wire (frame_body f)) <= CDC_RX_BUF_SIZE -> zlen (wire (frame_body f)) <= n ->
  hunting p -> hunting hp ->
  wpr (host_restart f hp s)
      (fun s => (cmd_task_step e n p s).2) (fun _ s' => host_answer f hp s s') s.
Proof using All.
  intros [Hb He Hip Hipb Hload Hcfg] Hbd Hc Hstr Hcap Hn Hp Hh. unfold wpr, cmd_task_step.
  rewrite Hstr, !Z.min_r by lia.
  rewrite (proj2 (Z.ltb_lt _ _)) by (rewrite wire_length; lia).
  rewrite Nat2Z.id, firstn_all, feed_run.
  destruct (run_wire p (frame_body f) [] Hp Hbd) as (p' & _ & Hr). rewrite app_nil_r in Hr.
  rewrite Hr, body_to_frame_body. simpl. set (s1 := set_stream _ s).
  assert (fits 8 (f_seq f)) as Hseq by (destruct Hbd as [Hbb _]; by inversion Hbb).
  assert (frame_safe e f s1) as Hsafe by done.
  pose proof (on_frame_wp Hsz1 Hsz2 Hscan v rv Hver Hv Hvb Hvl e f s1 Hsafe) as Hwp.
  unfold wpr in Hwp. destruct (on_frame e f s1) as [[] s'|s'| |]; try done.
  - by apply (output_host f hp s1) in Hwp.
  - destruct Hwp as [[Hr' Hwp]|Hwp]; [left|by right]. split; [done|]. by apply (output_host f hp s1).
Qed.
End Commands.

(** ** The LED setting *)

(** Documented behaviour of the flash calls of the LED setting: a written
    value is read back, and the serial port does not change it. *)
Class LedLaws := {
  led_stored : U -> option Z;
  led_open_ok m u : (led_open m u).1 = ESP_OK;
  led_open_keeps m u : led_stored (led_open m u).2 = led_stored u;
  led_set_stores x u : led_stored (led_set_u8 x u).2 = Some x;
  led_commit_keeps u : led_stored (led_commit u).2 = led_stored u;
  led_close_keeps u : led_stored (led_close u) = led_stored u;
  led_get_reads u : led_get_u8 u = led_stored u;
  available_keeps u : led_stored (write_available u).2 = led_stored u;
  flush_keeps u : led_stored (write_flush u).2 = led_stored u;
  queue_keeps d u : led_stored (write_queue d u) = led_stored u;
}.

Section Led.
Context `{HLed : !LedLaws}.

Definition same_led s s' : Prop :=
  s_led_enabled s' = s_led_enabled s /\ led_stored (usb s') = led_stored (usb s).

#[local] Instance same_led_preorder : PreOrder same_led.
Proof. split; [by intros s|]. intros s1 s2 s3 [H1 H2] [H3 H4]. split; congruence. Qed.

Lemma led_mach {A} (f : U -> A * U) :
  (forall u, led_stored (f u).2 = led_stored u) -> keeps same_led (mach f).
Proof using Type. intros Hf. apply keeps_zoom. intros s. split; [done|]. apply Hf. Qed.

Lemma led_loop fuel buf sent : keeps same_led (cdc_loop fuel buf sent).
Proof using Type.
  revert sent. induction fuel as [|fuel IH]; intros sent; simpl; apply keeps_if; try (by apply keeps_ret; apply _).
  - done.
  - apply keeps_bind; [apply _|apply led_mach, available_keeps|]. intros a. apply keeps_if.
    + apply keeps_bind; [apply _|apply led_mach, flush_keeps|]. intros r. apply keeps_if; [|done].
      by apply keeps_modify.
    + apply keeps_bind; [apply _| |intros _; apply keeps_bind; [apply _| |intros _; apply IH]].
      * apply keeps_modify. intros s. split; [done|]. apply queue_keeps.
      * by apply keeps_modify.
Qed.

Lemma led_resp f st data : keeps same_led (resp f st data).
Proof using Type.
  unfold resp, cdc_send_response, cdc_write_locked.
  apply keeps_bind; [apply _|apply keeps_lift; apply _|]. intros buf.
  apply keeps_if; [apply keeps_ret; apply _|].
  apply keeps_bind; [apply _|apply led_loop|]. intros _.
  apply keeps_bind; [apply _|apply led_mach, flush_keeps|]. intros _. by apply keeps_modify.
Qed.

(** The LED setting survives a restart.  After [CMD_LED_SET] with a first
    payload byte [x], the indicator is enabled exactly if [x] is not zero, and
    so it is again when a restarted device has run the restore of [app_main]. *)
Theorem led_setting_survives_restart f x pl s r s' w t :
  f_payload f = x :: pl -> handle_led_set f s = Done r s' ->
  s_led_enabled s' = (if x =? 0 then 0 else 1) /\
  exists s2, restore_led (fw_statics w t (usb s')) = Done tt s2 /\
    s_led_enabled s2 = (if x =? 0 then 0 else 1).
Proof using HLed.
  intros Hp. unfold handle_led_set, payload_len. rewrite Hp. rewrite (proj2 (Z.ltb_ge _ 1)) by (simpl; lia).
  change (rd (x :: pl) 0) with (Ret x). rewrite lift_ret. cbv zeta.
  replace (if negb (x =? 0) then 1 else 0) with (if x =? 0 then 0 else 1) by (by destruct (x =? 0)).
  set (b := if x =? 0 then 0 else 1). intros H.
  assert (s_led_enabled s' = b /\ led_stored (usb s') = Some b) as [H1 H2].
  { revert H. unfold mach, mach_. run_simpl.
    pose proof (led_open_ok NVS_READWRITE (usb s)) as Ho.
    destruct (led_open NVS_READWRITE (usb s)) as [ro uo]. simpl in Ho. subst ro. simpl.
    pose proof (led_set_stores b uo) as Hs. destruct (led_set_u8 b uo) as [rs us]. simpl in *.
    pose proof (led_commit_keeps us) as Hc. destruct (led_commit us) as [rc uc]. simpl in *.
    intros [Ha Hb]%(led_resp f). simpl in *. split; [done|].
    by rewrite Hb, led_close_keeps, Hc. }
  split; [done|]. unfold restore_led, mach, mach_. run_simpl.
  pose proof (led_open_ok NVS_READONLY (usb s')) as Ho.
  pose proof (led_open_keeps NVS_READONLY (usb s')) as Hk.
  destruct (led_open NVS_READONLY (usb s')) as [ro uo]. simpl in *. subst ro. simpl.
  eexists. split; [reflexivity|]. simpl. by rewrite led_get_reads, Hk, H2.
Qed.
End Led.
End Props.
Arguments LedLaws U {_}.

(** ** A concrete device *)

#[export] Instance port_led : LedLaws port.
Proof. refine {| led_stored := led_nv |}; done. Defined.

Definition net : connect_env := mk_cenv 0 true 5 2 0x4000 (-1) true 1 0.
Definition rig : fw board port relay_t :=
  mk_fw 0 1 [] cpu_initial demo (tcp_mgr_init, net) (mk_port 64 None 0 []) [] 0.
Definition rig_env : env := mk_env [inl WIFI_EVENT_SCAN_DONE] empty_list.
Definition frame (c : Z) (pl : list Z) : proto_frame := mk_frame 7 c pl.
Definition receiving (f : proto_frame) : fw board port relay_t :=
  set_stream (wire (frame_body f)) rig.

Lemma rig_safe c pl :
  bytes_ok pl -> c <> CMD_WIFI_SET_CONFIG -> frame_safe rig_env (frame c pl) (receiving (frame c pl)).
Proof.
  intros Hpl Hc.
  split; [done|split; [done|by_compute]|vm_compute; reflexivity|by_compute|by_compute|done].
Qed.

Lemma rig_version : idf_version (U := port) = [118; 53; 46; 51] ++ 0 :: [].
Proof. reflexivity. Qed.

Lemma set_config_memory_witness :
  wp (handle_wifi_set_config (frame CMD_WIFI_SET_CONFIG [2; 97; 112; 1; 120]))
     (fun _ s' => answers (frame CMD_WIFI_SET_CONFIG [2; 97; 112; 1; 120]) rig s') rig /\
  handle_wifi_set_config
    (frame CMD_WIFI_SET_CONFIG (33 :: replicate 33 97 ++ [0])) rig = Undef.
Proof.
  split.
  - apply (set_config_memory (frame CMD_WIFI_SET_CONFIG [2; 97; 112; 1; 120]) [97; 112] [120] rig);
      [reflexivity|discriminate|by_compute|by_compute|by_compute|split; by_compute].
  - apply (set_config_memory (frame CMD_WIFI_SET_CONFIG (33 :: replicate 33 97 ++ [0]))
             (replicate 33 97) [] rig);
      [reflexivity|discriminate|by_compute|by_compute|by_compute|].
    intros [H _]. vm_compute in H. by apply H.
Defined.

Lemma get_config_response_witness :
  wp (handle_wifi_get_config (frame CMD_WIFI_GET_CONFIG []))
     (fun _ s' => sent [response_wire (frame CMD_WIFI_GET_CONFIG [])
                    PROTO_STATUS_OK (2 :: demo_ssid ++ 8 :: demo_pass)] rig s') rig.
Proof.
  apply (get_config_response (frame CMD_WIFI_GET_CONFIG []) rig demo_ssid demo_pass);
    [apply demo_saved; vm_compute; reflexivity|by_compute|by_compute].
Defined.

Lemma get_status_response_witness :
  wp (handle_wifi_get_status (frame CMD_WIFI_GET_STATUS []))
     (fun _ s' => exists r, sent [response_wire (frame CMD_WIFI_GET_STATUS []) PROTO_STATUS_OK
          (u8 (state_byte (s_state (wm rig))) :: s_ip (wm rig) ++ [u8 r])] rig s' /\
        (s_state (wm rig) <> WIFI_MGR_STATE_CONNECTED -> r = 0)) rig.
Proof. apply (get_status_response (frame CMD_WIFI_GET_STATUS []) rig). vm_compute. reflexivity. Defined.

Lemma dev_info_layout_witness :
  dev_info ([118; 53; 46; 51] ++ 0 :: []) (mk_readings 1 2 3 4000000 5 (-6) 240000000) 7 8 9
  = Ret [4; 118; 53; 46; 51; 1; 0; 0; 0; 2; 0; 0; 0; 3; 0; 0; 0; 7; 4; 0; 0; 0; 5; 0;
         8; 0; 0; 0; 0; 0; 0; 0; 9; 0; 0; 0; 0; 0; 0; 0; 250; 240; 0].
Proof.
  rewrite (dev_info_layout [118; 53; 46; 51] [] (mk_readings 1 2 3 4000000 5 (-6) 240000000) 7 8 9
             ltac:(by_compute) ltac:(by_compute)).
  vm_compute. reflexivity.
Defined.

Lemma one_response_per_command_witness :
  wpr (restart_ok (frame CMD_PING []) (receiving (frame CMD_PING [])))
      (on_frame rig_env (frame CMD_PING []))
      (fun _ s' => output_of (frame CMD_PING []) (receiving (frame CMD_PING [])) s')
      (receiving (frame CMD_PING [])).
Proof.
  apply (one_response_per_command (proj1 board_sizes) (proj2 board_sizes) board_records
           [118; 53; 46; 51] [] rig_version ltac:(by_compute) ltac:(by_compute) ltac:(by_compute)
           rig_env (frame CMD_PING []) (receiving (frame CMD_PING []))).
  apply rig_safe; [by_compute|discriminate].
Defined.

Lemma command_round_trip_witness :
  wpr (host_restart (frame CMD_PING []) proto_parser_create (receiving (frame CMD_PING [])))
      (fun s => (cmd_task_step rig_env 64 proto_parser_create s).2)
      (fun _ s' => host_answer (frame CMD_PING []) proto_parser_create
                     (receiving (frame CMD_PING [])) s')
      (receiving (frame CMD_PING [])).
Proof.
  apply (command_round_trip (proj1 board_sizes) (proj2 board_sizes) board_records
           [118; 53; 46; 51] [] rig_version ltac:(by_compute) ltac:(by_compute) ltac:(by_compute)
           rig_env proto_parser_create proto_parser_create (frame CMD_PING []) 64);
    [apply rig_safe; [by_compute|discriminate]|split; by_compute|discriminate|reflexivity
    |by_compute|by_compute|left; apply create_repr|left; apply create_repr].
Defined.

Lemma led_setting_survives_restart_witness :
  exists s',
    handle_led_set (frame CMD_LED_SET [0]) rig = Done tt s' /\ s_led_enabled s' = 0 /\
    exists s2, restore_led (fw_statics blank_board (tcp_mgr_init, net) (usb s')) = Done tt s2 /\
      s_led_enabled s2 = 0.
Proof.
  destruct (handle_led_set (frame CMD_LED_SET [0]) rig) as [[] s'| | |] eqn:E;
    [|discriminate E..].
  exists s'. split; [reflexivity|].
  apply (led_setting_survives_restart (frame CMD_LED_SET [0]) 0 [] rig tt s' blank_board
           (tcp_mgr_init, net)); [reflexivity|exact E].
Defined.

Lemma cdc_write_complete_witness :
  wp (cdc_write_locked (replicate 200 1))
     (fun _ s' => (exists n, queued s' = queued rig ++ take n (replicate 200 1)) /\
        ((forall u : port, (write_flush u).1 = ESP_OK) -> queued s' = queued rig ++ replicate 200 1)) rig.
Proof. apply (cdc_write_complete (replicate 200 1) rig). Defined.
