(* ===== verification/CcArray.v ===== *)
(** * Dynamic array (src/components/Collections-C/src/cc_array.c)

    An array of words with its allocated block.  The block is a list whose
    length is what the allocator gave, which need not be [capacity]; an access
    outside it is a [Fault].  [size_t] and pointers have 32 bits, as on the
    target.  The allocator and the float arithmetic of the expansion factor
    are parameters. *)

From S2P Require Import Prelude CMem.

(** ** Common definitions (cc_common.h) *)

Inductive cc_stat :=
  | CC_OK | CC_ERR_ALLOC | CC_ERR_INVALID_CAPACITY | CC_ERR_INVALID_RANGE
  | CC_ERR_MAX_CAPACITY | CC_ERR_KEY_NOT_FOUND | CC_ERR_VALUE_NOT_FOUND
  | CC_ERR_OUT_OF_RANGE | CC_ITER_END.

#[export] Instance cc_stat_eq_dec : EqDecision cc_stat.
Proof. solve_decision. Defined.

Definition PTR : Z := 4.                        (** [sizeof(void* )] *)
Definition SIZEOF_ARRAY : Z := 28.              (** [sizeof(CC_Array)] *)
Definition CC_MAX_ELEMENTS : Z := u32 (-2).
Definition DEFAULT_CAPACITY : Z := 8.

(** Cells of a block. *)
Definition cell (b : list Z) (i : Z) : outcome Z :=
  match b !! Z.to_nat i with Some x => Ret x | None => Fault end.
Definition set_cell (b : list Z) (i x : Z) : outcome (list Z) :=
  if i <? zlen b then Ret (<[Z.to_nat i := x]> b) else Fault.

(** [memmove(&b[d], &b[s], n * sizeof(void* ))]. *)
Definition memmove (b : list Z) (d s n : Z) : outcome (list Z) :=
  if (d + n <=? zlen b) && (s + n <=? zlen b)
  then Ret (take (Z.to_nat d) b ++ take (Z.to_nat n) (drop (Z.to_nat s) b)
            ++ drop (Z.to_nat (d + n)) b)
  else Fault.

(** [memcpy(dst, &src[s], n * sizeof(void* ))] between two blocks. *)
Definition memcpy (dst src : list Z) (s n : Z) : outcome (list Z) :=
  if (n <=? zlen dst) && (s + n <=? zlen src)
  then Ret (take (Z.to_nat n) (drop (Z.to_nat s) src) ++ drop (Z.to_nat n) dst)
  else Fault.

(** Parameters: an allocator ([mem_alloc] by the size in bytes, [mem_calloc] by
    the number of blocks and their size, giving the contents in words), and
    the expansion factor, a float. *)
Class Runtime (F : Type) := {
  mem_alloc : Z -> option (list Z);
  mem_calloc : Z -> Z -> option (list Z);
  le_one : F -> bool;                            (** [x <= 1] *)
  DEFAULT_EXPANSION_FACTOR : F;
  zero_factor : F;                               (** 0.0 *)
  ge_size : F -> Z -> bool;                      (** [x >= n] *)
  scale : Z -> F -> Z;                           (** [(size_t)(n * x)] *)
}.

(** Documented behaviour: a block of [n] bytes holds [n / 4] words, and no
    block is larger than [PTRDIFF_MAX]. *)
Class RuntimeLaws (F : Type) `{Runtime F} : Prop := {
  alloc_size n b : mem_alloc n = Some b -> zlen b = n / PTR /\ n < 2 ^ 31;
  calloc_size n m b : mem_calloc n m = Some b -> zlen b = n * m / PTR /\ n * m < 2 ^ 31;
}.

Section Array.
Context {F : Type} `{Runtime F}.

Record cc_array := mk_array {
  size : Z;
  capacity : Z;
  exp_factor : F;
  buffer : list Z;
}.

Definition set_size (n : Z) (a : cc_array) : cc_array :=
  mk_array n (capacity a) (exp_factor a) (buffer a).
Definition set_buffer (b : list Z) (a : cc_array) : cc_array :=
  mk_array (size a) (capacity a) (exp_factor a) b.

(** Status, output ([*out]) and the array afterwards. *)
Definition result : Type := cc_stat * option Z * cc_array.
Definition fail (st : cc_stat) (a : cc_array) : outcome result := Ret (st, None, a).

(** ** Construction *)

Definition cc_array_new_conf (conf_factor : F) (conf_capacity : Z) : option cc_array * cc_stat :=
  let ex := if le_one conf_factor then DEFAULT_EXPANSION_FACTOR else conf_factor in
  if (conf_capacity =? 0) || ge_size ex (CC_MAX_ELEMENTS / conf_capacity)
  then (None, CC_ERR_INVALID_CAPACITY)
  else
    match mem_calloc 1 SIZEOF_ARRAY with
    | None => (None, CC_ERR_ALLOC)
    | Some _ =>
        match mem_alloc (u32 (conf_capacity * PTR)) with
        | None => (None, CC_ERR_ALLOC)
        | Some buff => (Some (mk_array 0 conf_capacity ex buff), CC_OK)
        end
    end.

Definition cc_array_new : option cc_array * cc_stat :=
  cc_array_new_conf DEFAULT_EXPANSION_FACTOR DEFAULT_CAPACITY.

(** ** Growing *)

Definition expand_capacity (a : cc_array) : outcome (cc_stat * cc_array) :=
  if capacity a =? CC_MAX_ELEMENTS then Ret (CC_ERR_MAX_CAPACITY, a)
  else
    let new_capacity := scale (capacity a) (exp_factor a) in
    let cap := if new_capacity <=? capacity a then CC_MAX_ELEMENTS else new_capacity in
    let a := mk_array (size a) cap (exp_factor a) (buffer a) in
    match mem_alloc (u32 (cap * PTR)) with
    | None => Ret (CC_ERR_ALLOC, a)
    | Some new_buff =>
        b ← memcpy new_buff (buffer a) 0 (size a);
        Ret (CC_OK, set_buffer b a)
    end.

(** The growth check before an insertion. *)
Definition ensure_room (a : cc_array) : outcome (cc_stat * cc_array) :=
  if capacity a <=? size a then expand_capacity a else Ret (CC_OK, a).

Definition cc_array_add (a : cc_array) (element : Z) : outcome result :=
  sa ← ensure_room a;
  if negb (bool_decide (sa.1 = CC_OK)) then fail sa.1 sa.2
  else
    let a := sa.2 in
    b ← set_cell (buffer a) (size a) element;
    Ret (CC_OK, None, set_size (u32 (size a + 1)) (set_buffer b a)).

Definition cc_array_add_at (a : cc_array) (element index : Z) : outcome result :=
  if index =? size a then cc_array_add a element
  else if ((size a =? 0) && negb (index =? 0)) || (u32 (size a - 1) <? index)
  then fail CC_ERR_OUT_OF_RANGE a
  else
    sa ← ensure_room a;
    if negb (bool_decide (sa.1 = CC_OK)) then fail sa.1 sa.2
    else
      let a := sa.2 in
      b ← memmove (buffer a) (index + 1) index (size a - index);
      b ← set_cell b index element;
      Ret (CC_OK, None, set_size (u32 (size a + 1)) (set_buffer b a)).

(** ** Replacing and removing *)

Definition cc_array_replace_at (a : cc_array) (element index : Z) : outcome result :=
  if size a <=? index then fail CC_ERR_OUT_OF_RANGE a
  else
    x ← cell (buffer a) index;
    b ← set_cell (buffer a) index element;
    Ret (CC_OK, Some x, set_buffer b a).

Definition cc_array_swap_at (a : cc_array) (index1 index2 : Z) : outcome result :=
  if (size a <=? index1) || (size a <=? index2) then fail CC_ERR_OUT_OF_RANGE a
  else
    tmp ← cell (buffer a) index1;
    y ← cell (buffer a) index2;
    b ← set_cell (buffer a) index1 y;
    b ← set_cell b index2 tmp;
    Ret (CC_OK, None, set_buffer b a).

(** The loop of [cc_array_index_of] from [i], [n] turns. *)
Fixpoint index_loop (n : nat) (i : Z) (b : list Z) (element : Z) : outcome (option Z) :=
  match n with
  | O => Ret None
  | S n =>
      x ← cell b i;
      if x =? element then Ret (Some i) else index_loop n (i + 1) b element
  end.

Definition cc_array_index_of (a : cc_array) (element : Z) : outcome result :=
  r ← index_loop (Z.to_nat (size a)) 0 (buffer a) element;
  match r with
  | Some i => Ret (CC_OK, Some i, a)
  | None => fail CC_ERR_OUT_OF_RANGE a
  end.

(** The shift shared by the removals. *)
Definition close_gap (a : cc_array) (index : Z) : outcome cc_array :=
  b ← (if negb (index =? u32 (size a - 1))
       then memmove (buffer a) index (index + 1) (u32 (size a - 1 - index))
       else Ret (buffer a));
  Ret (set_size (u32 (size a - 1)) (set_buffer b a)).

Definition cc_array_remove (a : cc_array) (element : Z) : outcome result :=
  r ← cc_array_index_of a element;
  match r with
  | (CC_ERR_OUT_OF_RANGE, _, _) => fail CC_ERR_VALUE_NOT_FOUND a
  | (_, index, _) =>
      a ← close_gap a (default 0 index);
      Ret (CC_OK, Some element, a)
  end.

Definition cc_array_remove_at (a : cc_array) (index : Z) : outcome result :=
  if size a <=? index then fail CC_ERR_OUT_OF_RANGE a
  else
    x ← cell (buffer a) index;
    a ← close_gap a index;
    Ret (CC_OK, Some x, a).

Definition cc_array_remove_last (a : cc_array) : outcome result :=
  cc_array_remove_at a (u32 (size a - 1)).

Definition cc_array_remove_all (a : cc_array) : cc_array := set_size 0 a.

(** ** Access *)

Definition cc_array_get_at (a : cc_array) (index : Z) : outcome result :=
  if size a <=? index then fail CC_ERR_OUT_OF_RANGE a
  else x ← cell (buffer a) index; Ret (CC_OK, Some x, a).

Definition cc_array_get_last (a : cc_array) : outcome result :=
  if size a =? 0 then fail CC_ERR_VALUE_NOT_FOUND a
  else cc_array_get_at a (u32 (size a - 1)).

(** The counting loops: [test] of each element. *)
Fixpoint count_loop (n : nat) (i : Z) (b : list Z) (test : Z -> bool) (o : Z) : outcome Z :=
  match n with
  | O => Ret o
  | S n => x ← cell b i; count_loop n (i + 1) b test (if test x then u32 (o + 1) else o)
  end.

Definition cc_array_contains (a : cc_array) (element : Z) : outcome Z :=
  count_loop (Z.to_nat (size a)) 0 (buffer a) (fun x => x =? element) 0.

Definition cc_array_contains_value (a : cc_array) (element : Z) (cmp : Z -> Z -> Z) : outcome Z :=
  count_loop (Z.to_nat (size a)) 0 (buffer a) (fun x => cmp element x =? 0) 0.

(** ** Whole-array operations *)

Fixpoint reverse_loop (n : nat) (i j : Z) (b : list Z) : outcome (list Z) :=
  match n with
  | O => Ret b
  | S n =>
      tmp ← cell b i;
      y ← cell b j;
      b ← set_cell b i y;
      b ← set_cell b j tmp;
      reverse_loop n (i + 1) (j - 1) b
  end.

Definition cc_array_reverse (a : cc_array) : outcome cc_array :=
  if size a =? 0 then Ret a
  else b ← reverse_loop (Z.to_nat (size a / 2)) 0 (size a - 1) (buffer a); Ret (set_buffer b a).

(** [i] counts down from [n - 1]; [rm] elements are waiting to be removed
    after it, [keep] kept after those. *)
Fixpoint filter_loop (n : nat) (pred : Z -> bool) (b : list Z) (sz rm keep : Z)
    : outcome (list Z * Z * Z * Z) :=
  match n with
  | O => Ret (b, sz, rm, keep)
  | S i =>
      x ← cell b (Z.of_nat i);
      if negb (pred x) then filter_loop i pred b sz (rm + 1) keep
      else if 0 <? rm then
        b ← (if 0 <? keep
             then memmove b (Z.of_nat i + 1) (Z.of_nat i + 1 + rm) keep
             else Ret b);
        filter_loop i pred b (u32 (sz - rm)) 0 (keep + 1)
      else filter_loop i pred b sz rm (keep + 1)
  end.

Definition cc_array_filter_mut (a : cc_array) (pred : Z -> bool) : outcome (cc_stat * cc_array) :=
  if size a =? 0 then Ret (CC_ERR_OUT_OF_RANGE, a)
  else
    r ← filter_loop (Z.to_nat (size a)) pred (buffer a) (size a) 0 0;
    let '(b, sz, rm, keep) := r in
    if 0 <? rm then
      b ← memmove b 0 rm keep;
      Ret (CC_OK, set_size (u32 (sz - rm)) (set_buffer b a))
    else Ret (CC_OK, set_size sz (set_buffer b a)).

Definition cc_array_trim_capacity (a : cc_array) : outcome (cc_stat * cc_array) :=
  if size a =? capacity a then Ret (CC_OK, a)
  else
    match mem_calloc (size a) PTR with
    | None => Ret (CC_ERR_ALLOC, a)
    | Some new_buff =>
        let n := if size a <? 1 then 1 else size a in
        b ← memcpy new_buff (buffer a) 0 n;
        Ret (CC_OK, mk_array (size a) (size a) (exp_factor a) b)
    end.

(** ** Copies *)

Definition cc_array_subarray (a : cc_array) (b e : Z) : outcome (cc_stat * option cc_array) :=
  if (e <? b) || (size a <=? e) then Ret (CC_ERR_INVALID_RANGE, None)
  else
    match mem_calloc 1 SIZEOF_ARRAY, mem_alloc (u32 (capacity a * PTR)) with
    | None, _ | _, None => Ret (CC_ERR_ALLOC, None)
    | Some _, Some buff =>
        let n := u32 (e - b + 1) in
        buff ← memcpy buff (buffer a) b n;
        Ret (CC_OK, Some (mk_array n n zero_factor buff))
    end.

Definition cc_array_copy_shallow (a : cc_array) : outcome (cc_stat * option cc_array) :=
  match mem_alloc SIZEOF_ARRAY, mem_calloc (capacity a) PTR with
  | None, _ | _, None => Ret (CC_ERR_ALLOC, None)
  | Some _, Some buff =>
      buff ← memcpy buff (buffer a) 0 (size a);
      Ret (CC_OK, Some (mk_array (size a) (capacity a) (exp_factor a) buff))
  end.

Fixpoint copy_loop (n : nat) (i : Z) (cp : Z -> Z) (src dst : list Z) : outcome (list Z) :=
  match n with
  | O => Ret dst
  | S n => x ← cell src i; dst ← set_cell dst i (cp x); copy_loop n (i + 1) cp src dst
  end.

Definition cc_array_copy_deep (a : cc_array) (cp : Z -> Z) : outcome (cc_stat * option cc_array) :=
  match mem_alloc SIZEOF_ARRAY, mem_calloc (capacity a) PTR with
  | None, _ | _, None => Ret (CC_ERR_ALLOC, None)
  | Some _, Some buff =>
      buff ← copy_loop (Z.to_nat (size a)) 0 cp (buffer a) buff;
      Ret (CC_OK, Some (mk_array (size a) (capacity a) (exp_factor a) buff))
  end.

Fixpoint select_loop (n : nat) (i f : Z) (pred : Z -> bool) (src dst : list Z)
    : outcome (list Z * Z) :=
  match n with
  | O => Ret (dst, f)
  | S n =>
      x ← cell src i;
      if pred x
      then dst ← set_cell dst f x; select_loop n (i + 1) (f + 1) pred src dst
      else select_loop n (i + 1) f pred src dst
  end.

Definition cc_array_filter (a : cc_array) (pred : Z -> bool) : outcome (cc_stat * option cc_array) :=
  if size a =? 0 then Ret (CC_ERR_OUT_OF_RANGE, None)
  else
    match mem_alloc SIZEOF_ARRAY, mem_calloc (capacity a) PTR with
    | None, _ | _, None => Ret (CC_ERR_ALLOC, None)
    | Some _, Some buff =>
        r ← select_loop (Z.to_nat (size a)) 0 0 pred (buffer a) buff;
        Ret (CC_OK, Some (mk_array r.2 (capacity a) (exp_factor a) r.1))
    end.

(** ** Iterator *)

Record cc_array_iter := mk_iter { it_ar : cc_array; it_index : Z; it_last_removed : bool }.

Definition cc_array_iter_init (a : cc_array) : cc_array_iter := mk_iter a 0 false.

Definition cc_array_iter_next (it : cc_array_iter) : outcome (cc_stat * option Z * cc_array_iter) :=
  if size (it_ar it) <=? it_index it then Ret (CC_ITER_END, None, it)
  else
    x ← cell (buffer (it_ar it)) (it_index it);
    Ret (CC_OK, Some x, mk_iter (it_ar it) (u32 (it_index it + 1)) false).

Definition cc_array_iter_remove (it : cc_array_iter) : outcome (cc_stat * option Z * cc_array_iter) :=
  if it_last_removed it then Ret (CC_ERR_VALUE_NOT_FOUND, None, it)
  else
    r ← cc_array_remove_at (it_ar it) (u32 (it_index it - 1));
    let '(st, out, a) := r in
    Ret (st, out, mk_iter a (it_index it) (bool_decide (st = CC_OK))).

Definition cc_array_iter_add (it : cc_array_iter) (element : Z)
    : outcome (cc_stat * option Z * cc_array_iter) :=
  r ← cc_array_add_at (it_ar it) element (it_index it);
  let '(st, out, a) := r in
  Ret (st, out, mk_iter a (u32 (it_index it + 1)) (it_last_removed it)).

Definition cc_array_iter_replace (it : cc_array_iter) (element : Z)
    : outcome (cc_stat * option Z * cc_array_iter) :=
  r ← cc_array_replace_at (it_ar it) element (u32 (it_index it - 1));
  let '(st, out, a) := r in
  Ret (st, out, mk_iter a (it_index it) (it_last_removed it)).

Definition cc_array_iter_index (it : cc_array_iter) : Z := u32 (it_index it - 1).

(** ** Iterator over two arrays *)

Record cc_array_zip_iter :=
  mk_zip { zi_ar1 : cc_array; zi_ar2 : cc_array; zi_index : Z; zi_last_removed : bool }.

Definition cc_array_zip_iter_init (a1 a2 : cc_array) : cc_array_zip_iter := mk_zip a1 a2 0 false.

(** The status, the pair of outputs and the iterator afterwards. *)
Definition zip_result : Type := cc_stat * option (Z * Z) * cc_array_zip_iter.

Definition cc_array_zip_iter_next (it : cc_array_zip_iter) : outcome zip_result :=
  if (size (zi_ar1 it) <=? zi_index it) || (size (zi_ar2 it) <=? zi_index it)
  then Ret (CC_ITER_END, None, it)
  else
    x ← cell (buffer (zi_ar1 it)) (zi_index it);
    y ← cell (buffer (zi_ar2 it)) (zi_index it);
    Ret (CC_OK, Some (x, y), mk_zip (zi_ar1 it) (zi_ar2 it) (u32 (zi_index it + 1)) false).

(** Whether the last pair returned is outside one of the arrays. *)
Definition zip_out_of_range (it : cc_array_zip_iter) : bool :=
  (size (zi_ar1 it) <=? u32 (zi_index it - 1)) || (size (zi_ar2 it) <=? u32 (zi_index it - 1)).

Definition cc_array_zip_iter_remove (it : cc_array_zip_iter) : outcome zip_result :=
  if zip_out_of_range it then Ret (CC_ERR_OUT_OF_RANGE, None, it)
  else if negb (zi_last_removed it) then
    r1 ← cc_array_remove_at (zi_ar1 it) (u32 (zi_index it - 1));
    r2 ← cc_array_remove_at (zi_ar2 it) (u32 (zi_index it - 1));
    Ret (CC_OK, option_map (fun x => (x, default 0 r2.1.2)) r1.1.2,
         mk_zip r1.2 r2.2 (zi_index it) true)
  else Ret (CC_ERR_VALUE_NOT_FOUND, None, it).

(** The growth check of one array: whether it failed. *)
Definition zip_room (a : cc_array) : outcome (bool * cc_array) :=
  if size a =? capacity a
  then sa ← expand_capacity a; Ret (negb (bool_decide (sa.1 = CC_OK)), sa.2)
  else Ret (false, a).

Definition cc_array_zip_iter_add (it : cc_array_zip_iter) (e1 e2 : Z) : outcome zip_result :=
  let index := zi_index it in
  let next := u32 (index + 1) in
  r1 ← zip_room (zi_ar1 it);
  if r1.1 : bool
  then Ret (CC_ERR_ALLOC, None, mk_zip r1.2 (zi_ar2 it) next (zi_last_removed it))
  else
    r2 ← zip_room (zi_ar2 it);
    if r2.1 : bool then Ret (CC_ERR_ALLOC, None, mk_zip r1.2 r2.2 next (zi_last_removed it))
    else
      s1 ← cc_array_add_at r1.2 e1 index;
      s2 ← cc_array_add_at r2.2 e2 index;
      Ret (CC_OK, None, mk_zip s1.2 s2.2 next (zi_last_removed it)).

Definition cc_array_zip_iter_replace (it : cc_array_zip_iter) (e1 e2 : Z) : outcome zip_result :=
  if zip_out_of_range it then Ret (CC_ERR_OUT_OF_RANGE, None, it)
  else
    r1 ← cc_array_replace_at (zi_ar1 it) e1 (u32 (zi_index it - 1));
    r2 ← cc_array_replace_at (zi_ar2 it) e2 (u32 (zi_index it - 1));
    Ret (CC_OK, option_map (fun x => (x, default 0 r2.1.2)) r1.1.2,
         mk_zip r1.2 r2.2 (zi_index it) (zi_last_removed it)).

Definition cc_array_zip_iter_index (it : cc_array_zip_iter) : Z := u32 (zi_index it - 1).
End Array.
Arguments cc_array : clear implicits.
