(* ===== verification/CcArrayFacts.v ===== *)
(** * The dynamic array implements lists

    [contents] is the list an array stands for.  Each operation of cc_array.c
    is a step of the list specification, or fails to allocate and leaves the
    contents alone. *)

From S2P Require Import Prelude CMem CcArray.

(** ** The specification: lists *)

Inductive aop :=
  | Add (x : Z) | AddAt (x i : Z) | ReplaceAt (x i : Z) | SwapAt (i j : Z)
  | Remove (x : Z) | RemoveAt (i : Z) | RemoveLast | RemoveAll
  | GetAt (i : Z) | GetLast | IndexOf (x : Z) | Contains (x : Z)
  | Reverse | FilterMut (p : Z -> bool).

Definition index_of (x : Z) (l : list Z) : option nat :=
  fst <$> list_find (fun y => y = x) l.

Definition remove_nth {A} (i : nat) (l : list A) : list A := take i l ++ drop (S i) l.

Definition list_step (op : aop) (l : list Z) : cc_stat * option Z * list Z :=
  match op with
  | Add x => (CC_OK, None, l ++ [x])
  | AddAt x i =>
      if i <=? zlen l
      then (CC_OK, None, take (Z.to_nat i) l ++ x :: drop (Z.to_nat i) l)
      else (CC_ERR_OUT_OF_RANGE, None, l)
  | ReplaceAt x i =>
      match l !! Z.to_nat i with
      | Some y => (CC_OK, Some y, <[Z.to_nat i := x]> l)
      | None => (CC_ERR_OUT_OF_RANGE, None, l)
      end
  | SwapAt i j =>
      match l !! Z.to_nat i, l !! Z.to_nat j with
      | Some x, Some y => (CC_OK, None, <[Z.to_nat j := x]> (<[Z.to_nat i := y]> l))
      | _, _ => (CC_ERR_OUT_OF_RANGE, None, l)
      end
  | Remove x =>
      match index_of x l with
      | Some i => (CC_OK, Some x, remove_nth i l)
      | None => (CC_ERR_VALUE_NOT_FOUND, None, l)
      end
  | RemoveAt i =>
      match l !! Z.to_nat i with
      | Some y => (CC_OK, Some y, remove_nth (Z.to_nat i) l)
      | None => (CC_ERR_OUT_OF_RANGE, None, l)
      end
  | RemoveLast =>
      match l with
      | [] => (CC_ERR_OUT_OF_RANGE, None, l)
      | _ => (CC_OK, list.last l, take (length l - 1) l)
      end
  | RemoveAll => (CC_OK, None, [])
  | GetAt i =>
      match l !! Z.to_nat i with
      | Some y => (CC_OK, Some y, l)
      | None => (CC_ERR_OUT_OF_RANGE, None, l)
      end
  | GetLast =>
      match l with [] => (CC_ERR_VALUE_NOT_FOUND, None, l) | _ => (CC_OK, list.last l, l) end
  | IndexOf x =>
      match index_of x l with
      | Some i => (CC_OK, Some (Z.of_nat i), l)
      | None => (CC_ERR_OUT_OF_RANGE, None, l)
      end
  | Contains x => (CC_OK, Some (Z.of_nat (countb (fun y => y =? x) l)), l)
  | Reverse => (CC_OK, None, reverse l)
  | FilterMut p =>
      match l with
      | [] => (CC_ERR_OUT_OF_RANGE, None, l)
      | _ => (CC_OK, None, filter (fun y => p y = true) l)
      end
  end.

Section Facts.
Context {F : Type} `{HR : !Runtime F} `{HL : !RuntimeLaws F}.
Local Abbreviation cc_array := (cc_array F).
Implicit Types a : cc_array.

Definition array_step (op : aop) (a : cc_array) : outcome (cc_stat * option Z * cc_array) :=
  match op with
  | Add x => cc_array_add a x
  | AddAt x i => cc_array_add_at a x i
  | ReplaceAt x i => cc_array_replace_at a x i
  | SwapAt i j => cc_array_swap_at a i j
  | Remove x => cc_array_remove a x
  | RemoveAt i => cc_array_remove_at a i
  | RemoveLast => cc_array_remove_last a
  | RemoveAll => Ret (CC_OK, None, cc_array_remove_all a)
  | GetAt i => cc_array_get_at a i
  | GetLast => cc_array_get_last a
  | IndexOf x => cc_array_index_of a x
  | Contains x => n ← cc_array_contains a x; Ret (CC_OK, Some n, a)
  | Reverse => a ← cc_array_reverse a; Ret (CC_OK, None, a)
  | FilterMut p => r ← cc_array_filter_mut a p; Ret (r.1, None, r.2)
  end.

(** ** Well-formed arrays *)

Definition contents a : list Z := take (Z.to_nat (size a)) (buffer a).

(** A factor whose product does not leave the address space. *)
Definition growth_ok (x : F) : Prop := forall n, 0 <= n < 2 ^ 29 -> 0 <= scale n x < 2 ^ 30.

Record array_wf a : Prop := {
  wf_size : 0 <= size a <= capacity a;
  wf_block : capacity a <= zlen (buffer a);
  wf_max : zlen (buffer a) < 2 ^ 29;
  wf_growth : growth_ok (exp_factor a);
}.

Lemma contents_length a : array_wf a -> length (contents a) = Z.to_nat (size a).
Proof. intros [H1 H2 _ _]. unfold contents. rewrite length_take. lia. Qed.

Lemma contents_zlen a : array_wf a -> zlen (contents a) = size a.
Proof. intros Hw. rewrite contents_length by done. destruct Hw. lia. Qed.

Lemma cell_lookup a i :
  array_wf a -> 0 <= i < size a ->
  exists x, cell (buffer a) i = Ret x /\ contents a !! Z.to_nat i = Some x.
Proof.
  intros [H1 H2 _ _] Hi. unfold cell, contents.
  destruct (lookup_lt_is_Some_2 (buffer a) (Z.to_nat i)) as [x Hx]; [lia|].
  exists x. rewrite Hx, lookup_take_lt by lia. done.
Qed.

Lemma contents_beyond a i : array_wf a -> size a <= i -> contents a !! Z.to_nat i = None.
Proof.
  intros Hw Hi. apply lookup_ge_None_2. rewrite contents_length by done. destruct Hw. lia.
Qed.

Lemma set_cell_ok (b : list Z) i x : i < zlen b -> set_cell b i x = Ret (<[Z.to_nat i := x]> b).
Proof. intros Hi. unfold set_cell. by rewrite (proj2 (Z.ltb_lt _ _) Hi). Qed.

Lemma memmove_ok (b : list Z) d s n :
  d + n <= zlen b -> s + n <= zlen b ->
  memmove b d s n
  = Ret (take (Z.to_nat d) b ++ take (Z.to_nat n) (drop (Z.to_nat s) b) ++ drop (Z.to_nat (d + n)) b).
Proof. intros H1 H2. unfold memmove. by rewrite !(proj2 (Z.leb_le _ _)) by lia. Qed.

(** Replacing the block under the same size. *)
Lemma wf_set_buffer a b :
  array_wf a -> length b = length (buffer a) -> array_wf (set_buffer b a).
Proof. intros [] Hb. split; simpl; rewrite ?Hb; done. Qed.

Lemma wf_shrink a n b :
  array_wf a -> length b = length (buffer a) -> 0 <= n <= size a ->
  array_wf (set_size n (set_buffer b a)).
Proof. intros [] Hb Hn. split; simpl; rewrite ?Hb; lia || done. Qed.

(** ** Growth *)

(** The bytes [expand_capacity] asks for. *)
Definition request a : Z :=
  u32 ((if scale (capacity a) (exp_factor a) <=? capacity a then CC_MAX_ELEMENTS
        else scale (capacity a) (exp_factor a)) * PTR).

(** A full array that cannot grow. *)
Definition starved a : Prop := size a = capacity a /\ mem_alloc (request a) = None.

Lemma expand_ok a :
  array_wf a -> size a = capacity a ->
  (exists a', expand_capacity a = Ret (CC_ERR_ALLOC, a') /\ contents a' = contents a /\ starved a) \/
  (exists a', expand_capacity a = Ret (CC_OK, a') /\ array_wf a' /\
     contents a' = contents a /\ size a' = size a /\ size a' < capacity a').
Proof using HL.
  intros [H1 H2 H3 H4] Hfull. unfold expand_capacity, starved, request.
  assert (CC_MAX_ELEMENTS = 2 ^ 32 - 2) as Hmax by reflexivity.
  rewrite (proj2 (Z.eqb_neq (capacity a) CC_MAX_ELEMENTS)) by lia. cbv zeta.
  destruct (H4 (capacity a) ltac:(lia)) as [Hg1 Hg2].
  destruct (Z.leb_spec (scale (capacity a) (exp_factor a)) (capacity a)).
  - destruct (mem_alloc _) as [b|] eqn:E; [|left; by eexists].
    apply alloc_size in E as [_ E]. rewrite Hmax in E. vm_compute in E. done.
  - set (c := scale _ _) in *. destruct (mem_alloc _) as [b|] eqn:E; [|left; by eexists].
    apply alloc_size in E as [Hb Hn]. unfold PTR in *.
    rewrite wrap_id in Hb, Hn by (unfold fits; lia).
    rewrite Z.div_mul in Hb by lia.
    right. unfold memcpy. simpl. rewrite !(proj2 (Z.leb_le _ _)) by lia. simpl.
    eexists. split; [reflexivity|]. unfold contents. cbn [size capacity buffer set_buffer].
    rewrite drop_0. split; [split; simpl; rewrite ?length_app, ?length_take, ?length_drop; done || lia|].
    split; [|lia]. rewrite take_app_le by (rewrite length_take; lia).
    by rewrite take_take, Nat.min_id.
Qed.

Lemma room_ok a :
  array_wf a ->
  (exists a', ensure_room a = Ret (CC_ERR_ALLOC, a') /\ contents a' = contents a /\ starved a) \/
  (exists a', ensure_room a = Ret (CC_OK, a') /\ array_wf a' /\
     contents a' = contents a /\ size a' = size a /\ size a' < capacity a').
Proof using HL.
  intros Hw. unfold ensure_room. destruct (Z.leb_spec (capacity a) (size a)).
  - apply expand_ok; [done|]. destruct Hw. lia.
  - right. exists a. split_and!; done || lia.
Qed.

(** ** Simulation, operation by operation *)

(** A step of the specification, or a failed allocation. *)
Definition simulates (op : aop) a : Prop :=
  exists st out a', array_step op a = Ret (st, out, a') /\
    ((st = CC_ERR_ALLOC /\ contents a' = contents a /\ starved a) \/
     (array_wf a' /\ list_step op (contents a) = (st, out, contents a'))).

(** Indices are [size_t] values. *)
Definition op_ok (op : aop) : Prop :=
  match op with
  | AddAt _ i | ReplaceAt _ i | RemoveAt i | GetAt i => fits 32 i
  | SwapAt i j => fits 32 i /\ fits 32 j
  | _ => True
  end.

Lemma sim_exact op a st out a' :
  array_step op a = Ret (st, out, a') -> array_wf a' ->
  list_step op (contents a) = (st, out, contents a') -> simulates op a.
Proof. intros H1 H2 H3. exists st, out, a'. auto. Qed.

Lemma sim_alloc op a out a' :
  array_step op a = Ret (CC_ERR_ALLOC, out, a') -> contents a' = contents a -> starved a ->
  simulates op a.
Proof. intros H1 H2 H3. exists CC_ERR_ALLOC, out, a'. auto. Qed.

(** *** Insertion *)

Lemma wf_grow a b :
  array_wf a -> size a < capacity a -> length b = length (buffer a) ->
  array_wf (set_size (u32 (size a + 1)) (set_buffer b a)) /\ u32 (size a + 1) = size a + 1.
Proof.
  intros [H1 H2 H3 H4] Hr Hb.
  assert (u32 (size a + 1) = size a + 1) as E by (apply wrap_id; unfold fits; lia).
  rewrite E. split; [|done]. split; simpl; rewrite ?Hb; done || lia.
Qed.

Lemma add_run a x :
  array_wf a ->
  (exists a', cc_array_add a x = Ret (CC_ERR_ALLOC, None, a') /\ contents a' = contents a /\ starved a) \/
  (exists a', cc_array_add a x = Ret (CC_OK, None, a') /\ array_wf a' /\ contents a' = contents a ++ [x]).
Proof using HL.
  intros Hw. unfold cc_array_add.
  destruct (room_ok a Hw) as [(a' & -> & Hc & Hv)|(a' & -> & Hw' & Hc & Hs & Hr)]; rewrite bind_Ret; simpl.
  - left. by eexists.
  - right. pose proof Hw' as [H1 H2 _ _]. rewrite set_cell_ok, bind_Ret by lia.
    destruct (wf_grow a' (<[Z.to_nat (size a') := x]> (buffer a'))) as [Hg Hu];
      [done|done|by rewrite length_insert|].
    eexists. split; [reflexivity|]. split; [done|]. rewrite <-Hc. unfold contents.
    cbn [size buffer set_size set_buffer]. rewrite Hu.
    replace (Z.to_nat (size a' + 1)) with (S (Z.to_nat (size a'))) by lia.
    apply take_insert_snoc. lia.
Qed.

Lemma sim_add a x : array_wf a -> simulates (Add x) a.
Proof using HL.
  intros Hw. destruct (add_run a x Hw) as [(a' & E & Hc & Hv)|(a' & E & Hw' & Hc)].
  - by eapply sim_alloc.
  - eapply sim_exact; [exact E|done|]. simpl. by rewrite Hc.
Qed.

Lemma insert_shift {A} (b : list A) (n i : nat) x :
  (i <= n)%nat -> (n < length b)%nat ->
  take (S n) (<[i := x]> (take (S i) b ++ take (n - i) (drop i b) ++ drop (S n) b))
  = take i (take n b) ++ x :: drop i (take n b).
Proof.
  intros Hi Hn.
  assert (take i (take n b) = take i b) as -> by (rewrite take_take; f_equal; lia).
  assert (drop i (take n b) = take (n - i) (drop i b)) as -> by apply skipn_firstn_comm.
  rewrite insert_app_l by (rewrite length_take; lia).
  assert (<[i := x]> (take (S i) b) = take i b ++ [x]) as ->.
  { destruct (lookup_lt_is_Some_2 b i) as [y Hy]; [lia|].
    rewrite (take_S_r _ _ _ Hy), insert_app_r_alt by (rewrite length_take; lia).
    rewrite length_take. by replace (i - i `min` length b)%nat with 0%nat by lia. }
  rewrite <-app_assoc, take_app_ge by (rewrite length_take; lia). f_equal. rewrite length_take.
  replace (S n - i `min` length b)%nat with (S (n - i)) by lia. simpl. f_equal.
  rewrite take_app_le by (rewrite length_take, length_drop; lia).
  by rewrite take_take, Nat.min_id.
Qed.

Lemma sim_add_at a x i : array_wf a -> fits 32 i -> simulates (AddAt x i) a.
Proof using HL.
  intros Hw [Hi0 Hi1]. pose proof Hw as [H1 H2 H3 _]. pose proof (contents_zlen a Hw) as Hz.
  destruct (Z.eqb_spec i (size a)) as [->|Hne].
  { assert (list_step (AddAt x (size a)) (contents a) = (CC_OK, None, contents a ++ [x])) as El.
    { simpl. rewrite Hz, Z.leb_refl, <-(contents_length a Hw), firstn_all, drop_all. done. }
    destruct (add_run a x Hw) as [(a' & E & Hc & Hv)|(a' & E & Hw' & Hc)].
    - eapply sim_alloc; [|exact Hc|exact Hv]. simpl. unfold cc_array_add_at. by rewrite Z.eqb_refl, E.
    - eapply sim_exact; [|exact Hw'|by rewrite El, Hc].
      simpl. unfold cc_array_add_at. by rewrite Z.eqb_refl, E. }
  assert (simpl_guard : ((size a =? 0) && negb (i =? 0) || (u32 (size a - 1) <? i)) = (size a <? i)).
  { destruct (Z.eqb_spec (size a) 0) as [E|E].
    - rewrite (proj2 (Z.eqb_neq i 0)) by lia. simpl. symmetry. apply Z.ltb_lt. lia.
    - simpl. rewrite wrap_id by (unfold fits; lia).
      destruct (Z.ltb_spec (size a - 1) i), (Z.ltb_spec (size a) i); done || lia. }
  unfold simulates. simpl. unfold cc_array_add_at. rewrite (proj2 (Z.eqb_neq _ _) Hne), simpl_guard, Hz.
  destruct (Z.ltb_spec (size a) i).
  { eexists _, _, _. split; [reflexivity|]. right. split; [done|].
    by rewrite (proj2 (Z.leb_gt _ _)) by lia. }
  rewrite (proj2 (Z.leb_le _ _)) by lia.
  destruct (room_ok a Hw) as [(a' & -> & Hc & Hv)|(a' & -> & Hw' & Hc & Hs & Hr)]; rewrite bind_Ret; simpl.
  - eexists _, _, _. split; [reflexivity|]. by left.
  - pose proof Hw' as [H1' H2' _ _]. rewrite memmove_ok, bind_Ret by lia.
    set (b := take _ _ ++ _). assert (length b = length (buffer a')) as Hb.
    { subst b. rewrite !length_app, !length_take, !length_drop. lia. }
    rewrite set_cell_ok, bind_Ret by lia.
    destruct (wf_grow a' (<[Z.to_nat i := x]> b)) as [Hg Hu]; [done|done|by rewrite length_insert|].
    eexists _, _, _. split; [reflexivity|]. right. split; [done|]. do 2 f_equal.
    rewrite <-Hc. unfold contents. cbn [size buffer set_size set_buffer]. rewrite Hu, Hs. subst b.
    replace (Z.to_nat (size a + 1)) with (S (Z.to_nat (size a))) by lia.
    replace (Z.to_nat (i + 1)) with (S (Z.to_nat i)) by lia.
    replace (Z.to_nat (i + 1 + (size a' - i))) with (S (Z.to_nat (size a))) by lia.
    replace (Z.to_nat (size a' - i)) with (Z.to_nat (size a) - Z.to_nat i)%nat by lia.
    symmetry. apply insert_shift; lia.
Qed.

(** *** Access and replacement *)

Lemma contents_insert a i x :
  array_wf a -> 0 <= i < size a ->
  contents (set_buffer (<[Z.to_nat i := x]> (buffer a)) a) = <[Z.to_nat i := x]> (contents a).
Proof. intros Hw Hi. unfold contents. simpl. rewrite take_insert_lt by lia. done. Qed.

Lemma wf_insert a i x :
  array_wf a -> array_wf (set_buffer (<[Z.to_nat i := x]> (buffer a)) a).
Proof. intros Hw. apply wf_set_buffer; [done|]. by rewrite length_insert. Qed.

Lemma sim_get_at a i : array_wf a -> fits 32 i -> simulates (GetAt i) a.
Proof.
  intros Hw [Hi _]. unfold simulates. simpl. unfold cc_array_get_at.
  destruct (Z.leb_spec (size a) i).
  - rewrite contents_beyond by done. eexists _, _, _. split; [reflexivity|]. by right.
  - destruct (cell_lookup a i Hw) as (x & -> & ->); [lia|].
    eexists _, _, _. split; [reflexivity|]. by right.
Qed.

Lemma sim_replace_at a x i : array_wf a -> fits 32 i -> simulates (ReplaceAt x i) a.
Proof.
  intros Hw [Hi _]. pose proof Hw as [H1 H2 _ _]. unfold simulates. simpl.
  unfold cc_array_replace_at. destruct (Z.leb_spec (size a) i).
  - rewrite contents_beyond by done. eexists _, _, _. split; [reflexivity|]. by right.
  - destruct (cell_lookup a i Hw) as (y & -> & ->); [lia|]. rewrite bind_Ret.
    rewrite set_cell_ok, bind_Ret by lia. eexists _, _, _. split; [reflexivity|]. right.
    split; [by apply wf_insert|]. by rewrite contents_insert by (done || lia).
Qed.

Lemma sim_swap_at a i j : array_wf a -> fits 32 i -> fits 32 j -> simulates (SwapAt i j) a.
Proof.
  intros Hw [Hi _] [Hj _]. pose proof Hw as [H1 H2 _ _]. unfold simulates. simpl.
  unfold cc_array_swap_at. destruct (Z.leb_spec (size a) i); simpl.
  { rewrite contents_beyond by done. eexists _, _, _. split; [reflexivity|]. by right. }
  destruct (cell_lookup a i Hw) as (x & Hx & Ex); [lia|]. rewrite Ex.
  destruct (Z.leb_spec (size a) j); simpl.
  { rewrite (contents_beyond a j) by done. eexists _, _, _. split; [reflexivity|]. by right. }
  destruct (cell_lookup a j Hw) as (y & Hy & Ey); [lia|]. rewrite Hx, Hy, Ey, !bind_Ret.
  rewrite set_cell_ok, bind_Ret by lia. rewrite set_cell_ok, bind_Ret by (rewrite length_insert; lia).
  eexists _, _, _. split; [reflexivity|]. right.
  set (a1 := set_buffer (<[Z.to_nat i := y]> (buffer a)) a).
  assert (array_wf a1) as Hw1 by (by apply wf_insert).
  change (set_buffer (<[Z.to_nat j := x]> (<[Z.to_nat i := y]> (buffer a))) a)
    with (set_buffer (<[Z.to_nat j := x]> (buffer a1)) a1).
  split; [by apply wf_insert|]. rewrite contents_insert by (done || (simpl; lia)).
  subst a1. by rewrite contents_insert by (done || lia).
Qed.

Lemma last_contents a :
  array_wf a -> 0 < size a ->
  exists x, cell (buffer a) (size a - 1) = Ret x /\ list.last (contents a) = Some x.
Proof.
  intros Hw Hs. destruct (cell_lookup a (size a - 1) Hw) as (x & Hx & Ex); [lia|]. exists x.
  split; [done|]. rewrite last_lookup, contents_length by done.
  by replace (Nat.pred (Z.to_nat (size a))) with (Z.to_nat (size a - 1)) by lia.
Qed.

Lemma contents_nil a : array_wf a -> contents a = [] <-> size a = 0.
Proof.
  intros Hw. pose proof (contents_zlen a Hw) as Hz. split; intros E.
  - rewrite E in Hz. simpl in Hz. lia.
  - destruct (contents a); [done|]. simpl in Hz. lia.
Qed.

Lemma sim_get_last a : array_wf a -> simulates GetLast a.
Proof.
  intros Hw. pose proof Hw as [H1 H2 H3 _]. unfold simulates. simpl. unfold cc_array_get_last, cc_array_get_at.
  destruct (Z.eqb_spec (size a) 0) as [E|E].
  - rewrite (proj2 (contents_nil a Hw) E). eexists _, _, _. split; [reflexivity|]. right.
    split; [done|]. by rewrite (proj2 (contents_nil a Hw) E).
  - rewrite wrap_id by (unfold fits; lia). rewrite (proj2 (Z.leb_gt _ _)) by lia.
    destruct (last_contents a Hw) as (x & -> & Hl); [lia|]. rewrite bind_Ret.
    eexists _, _, _. split; [reflexivity|]. right. split; [done|]. rewrite <-Hl.
    destruct (contents a) eqn:Ec; [|done]. by apply contents_nil in Ec.
Qed.

(** *** Search *)

Lemma cell_ok (b : list Z) i x : b !! i = Some x -> cell b (Z.of_nat i) = Ret x.
Proof. intros Hx. unfold cell. by rewrite Nat2Z.id, Hx. Qed.

Lemma index_loop_ok n i (b : list Z) x :
  (i + n <= length b)%nat ->
  index_loop n (Z.of_nat i) b x
  = Ret ((fun k => Z.of_nat (i + k)%nat) <$> index_of x (take n (drop i b))).
Proof.
  revert i. induction n as [|n IH]; intros i Hi; [done|]. simpl.
  destruct (lookup_lt_is_Some_2 b i) as [y Hy]; [lia|].
  rewrite (cell_ok _ _ _ Hy), bind_Ret, (drop_S _ _ _ Hy). unfold index_of. simpl.
  destruct (Z.eqb_spec y x) as [->|Hn].
  - rewrite decide_True by done. simpl. by rewrite Nat.add_0_r.
  - rewrite decide_False by done.
    replace (Z.of_nat i + 1) with (Z.of_nat (S i)) by lia. rewrite IH by lia. f_equal. unfold index_of.
    destruct (list_find _ _) as [[k z]|]; simpl; [|done]. do 2 f_equal. lia.
Qed.

Lemma index_run a x :
  array_wf a ->
  cc_array_index_of a x
  = Ret (match index_of x (contents a) with
         | Some i => (CC_OK, Some (Z.of_nat i), a) | None => (CC_ERR_OUT_OF_RANGE, None, a) end).
Proof.
  intros [H1 H2 _ _]. unfold cc_array_index_of. change 0 with (Z.of_nat 0) at 1.
  rewrite index_loop_ok, drop_0, bind_Ret by lia. unfold contents.
  by destruct (index_of x _).
Qed.

Lemma sim_index_of a x : array_wf a -> simulates (IndexOf x) a.
Proof.
  intros Hw. unfold simulates. simpl. rewrite index_run by done.
  destruct (index_of x (contents a)); (eexists _, _, _; split; [reflexivity|]); by right.
Qed.

Lemma count_loop_ok n i (b : list Z) f o :
  (i + n <= length b)%nat -> 0 <= o -> o + Z.of_nat n < 2 ^ 32 ->
  count_loop n (Z.of_nat i) b f o = Ret (o + Z.of_nat (countb f (take n (drop i b)))).
Proof.
  revert i o. induction n as [|n IH]; intros i o Hi Ho Hb; simpl; [f_equal; simpl; lia|].
  destruct (lookup_lt_is_Some_2 b i) as [y Hy]; [lia|].
  rewrite (cell_ok _ _ _ Hy), bind_Ret, (drop_S _ _ _ Hy). simpl.
  replace (Z.of_nat i + 1) with (Z.of_nat (S i)) by lia.
  destruct (f y); rewrite ?wrap_id, IH by (unfold fits; lia); f_equal; lia.
Qed.

Lemma sim_contains a x : array_wf a -> simulates (Contains x) a.
Proof.
  intros Hw. pose proof Hw as [H1 H2 H3 _]. unfold simulates. simpl. unfold cc_array_contains.
  change 0 with (Z.of_nat 0) at 1. rewrite count_loop_ok, bind_Ret by lia. rewrite drop_0.
  eexists _, _, _. split; [reflexivity|]. right. split; [done|]. done.
Qed.

(** *** Removal *)

Lemma gap_ok a i :
  array_wf a -> 0 <= i < size a ->
  exists a', close_gap a i = Ret a' /\ array_wf a' /\
    contents a' = remove_nth (Z.to_nat i) (contents a).
Proof.
  intros Hw Hi. pose proof Hw as [H1 H2 H3 _]. unfold close_gap.
  rewrite !(wrap_id 32 (size a - 1)) by (unfold fits; lia).
  destruct (Z.eqb_spec i (size a - 1)) as [->|Hne]; simpl.
  - eexists. split; [reflexivity|]. split; [apply wf_shrink; done || lia|].
    unfold remove_nth, contents. cbn [size buffer set_size set_buffer].
    rewrite drop_ge by (rewrite length_take; lia). rewrite app_nil_r, take_take. f_equal. lia.
  - rewrite wrap_id by (unfold fits; lia). rewrite memmove_ok, bind_Ret by lia.
    eexists. split; [reflexivity|]. split.
    { apply wf_shrink; [done| |lia]. rewrite !length_app, !length_take, !length_drop. lia. }
    unfold remove_nth, contents. cbn [size buffer set_size set_buffer].
    assert (take (Z.to_nat i) (take (Z.to_nat (size a)) (buffer a)) = take (Z.to_nat i) (buffer a)) as ->
      by (rewrite take_take; f_equal; lia).
    rewrite skipn_firstn_comm, app_assoc, take_app_le
      by (rewrite length_app, !length_take, length_drop; lia).
    rewrite firstn_all2 by (rewrite length_app, !length_take, length_drop; lia).
    f_equal. do 2 f_equal; lia.
Qed.

Lemma sim_remove_at a i : array_wf a -> fits 32 i -> simulates (RemoveAt i) a.
Proof.
  intros Hw [Hi _]. unfold simulates. simpl. unfold cc_array_remove_at.
  destruct (Z.leb_spec (size a) i).
  - rewrite contents_beyond by done. eexists _, _, _. split; [reflexivity|]. by right.
  - destruct (cell_lookup a i Hw) as (x & -> & ->); [lia|]. rewrite bind_Ret.
    destruct (gap_ok a i Hw) as (a' & -> & Hw' & Hc); [lia|]. rewrite bind_Ret.
    eexists _, _, _. split; [reflexivity|]. right. by rewrite Hc.
Qed.

Lemma sim_remove_last a : array_wf a -> simulates RemoveLast a.
Proof.
  intros Hw. pose proof Hw as [H1 H2 H3 _]. unfold simulates. simpl.
  unfold cc_array_remove_last, cc_array_remove_at.
  destruct (Z.eq_dec (size a) 0) as [E|E].
  - rewrite E. simpl. eexists _, _, _. split; [reflexivity|]. right. split; [done|].
    by rewrite (proj2 (contents_nil a Hw) E).
  - rewrite wrap_id by (unfold fits; lia). rewrite (proj2 (Z.leb_gt _ _)) by lia.
    destruct (last_contents a Hw) as (x & -> & Hl); [lia|]. rewrite bind_Ret.
    destruct (gap_ok a (size a - 1) Hw) as (a' & -> & Hw' & Hc); [lia|]. rewrite bind_Ret.
    eexists _, _, _. split; [reflexivity|]. right. split; [done|]. rewrite <-Hl, Hc.
    unfold remove_nth. rewrite drop_ge by (rewrite contents_length by done; lia).
    rewrite app_nil_r, contents_length by done.
    replace (Z.to_nat (size a) - 1)%nat with (Z.to_nat (size a - 1)) by lia.
    destruct (contents a) eqn:Ec; [|done]. by apply contents_nil in Ec.
Qed.

Lemma index_of_lt x l i : index_of x l = Some i -> (i < length l)%nat.
Proof.
  unfold index_of. intros (p & E & ->)%fmap_Some_1. destruct p as [k y].
  apply list_find_Some in E as (E & _). by apply lookup_lt_Some in E.
Qed.

Lemma sim_remove a x : array_wf a -> simulates (Remove x) a.
Proof.
  intros Hw. unfold simulates. simpl. unfold cc_array_remove. rewrite index_run, bind_Ret by done.
  destruct (index_of x (contents a)) as [i|] eqn:E.
  - apply index_of_lt in E. rewrite contents_length in E by done. simpl.
    destruct (gap_ok a (Z.of_nat i) Hw) as (a' & -> & Hw' & Hc); [lia|]. rewrite bind_Ret.
    eexists _, _, _. split; [reflexivity|]. right. by rewrite Hc, Nat2Z.id.
  - eexists _, _, _. split; [reflexivity|]. by right.
Qed.

Lemma sim_remove_all a : array_wf a -> simulates RemoveAll a.
Proof.
  intros Hw. unfold simulates. simpl. eexists _, _, _. split; [reflexivity|]. right.
  split; [|done]. destruct Hw. split; simpl; done || lia.
Qed.

(** *** Reversal *)

Lemma reverse_loop_ok n i j (b : list Z) :
  (i + n <= j + 1 - n)%nat -> (j < length b)%nat ->
  exists b', reverse_loop n (Z.of_nat i) (Z.of_nat j) b = Ret b' /\ length b' = length b /\
    forall p, b' !! p = if decide ((i <= p < i + n) \/ (j - n < p <= j))%nat
                       then b !! (i + j - p)%nat else b !! p.
Proof.
  revert i j b. induction n as [|n IH]; intros i j b Hn Hj; simpl.
  - exists b. split_and!; [done..|]. intros p. case_decide; [lia|done].
  - destruct (lookup_lt_is_Some_2 b i) as [x Hx]; [lia|].
    destruct (lookup_lt_is_Some_2 b j) as [y Hy]; [lia|].
    rewrite (cell_ok _ _ _ Hx), (cell_ok _ _ _ Hy), !bind_Ret.
    rewrite set_cell_ok, bind_Ret by lia. rewrite set_cell_ok, bind_Ret by (rewrite length_insert; lia).
    rewrite !Nat2Z.id. replace (Z.of_nat i + 1) with (Z.of_nat (S i)) by lia.
    replace (Z.of_nat j - 1) with (Z.of_nat (j - 1)) by lia.
    destruct (IH (S i) (j - 1)%nat (<[j:=x]> (<[i:=y]> b))) as (b' & -> & Hl & Hp);
      [lia|rewrite !length_insert; lia|]. rewrite !length_insert in Hl.
    exists b'. split_and!; [done..|]. intros p. rewrite Hp.
    destruct (decide (p = i)) as [->|Hpi].
    { rewrite (decide_False (P := (S i <= i < S i + n \/ j - 1 - n < i <= j - 1)%nat)) by lia.
      rewrite decide_True by lia. replace (i + j - i)%nat with j by lia. rewrite Hy.
      rewrite list_lookup_insert_ne by lia. by apply list_lookup_insert_eq; lia. }
    destruct (decide (p = j)) as [->|Hpj].
    { rewrite (decide_False (P := (S i <= j < S i + n \/ j - 1 - n < j <= j - 1)%nat)) by lia.
      rewrite decide_True by lia. replace (i + j - j)%nat with i by lia. rewrite Hx.
      apply list_lookup_insert_eq. rewrite length_insert. lia. }
    destruct (decide (i <= p < i + S n \/ j - S n < p <= j)%nat).
    + rewrite decide_True by lia. replace (S i + (j - 1) - p)%nat with (i + j - p)%nat by lia.
      by rewrite !list_lookup_insert_ne by lia.
    + rewrite decide_False by lia. by rewrite !list_lookup_insert_ne by lia.
Qed.

Lemma sim_reverse a : array_wf a -> simulates Reverse a.
Proof.
  intros Hw. pose proof Hw as [H1 H2 H3 _]. unfold simulates. simpl. unfold cc_array_reverse.
  destruct (Z.eqb_spec (size a) 0) as [E|E].
  - rewrite bind_Ret. eexists _, _, _. split; [reflexivity|]. right. split; [done|].
    by rewrite (proj2 (contents_nil a Hw) E).
  - pose proof (Z.mod_pos_bound (size a) 2 ltac:(lia)). pose proof (Z.div_mod (size a) 2 ltac:(lia)).
    destruct (reverse_loop_ok (Z.to_nat (size a / 2)) 0 (Z.to_nat (size a - 1)) (buffer a))
      as (b & Eb & Hl & Hp); [lia|lia|].
    rewrite Z2Nat.id in Eb by lia. change (Z.of_nat 0) with 0 in Eb. rewrite Eb, !bind_Ret. eexists _, _, _. split; [reflexivity|].
    right. split; [by apply wf_set_buffer|]. do 2 f_equal. symmetry.
    apply list_eq. intros p. destruct (decide (p < Z.to_nat (size a))%nat) as [Hlt|Hge].
    + rewrite reverse_lookup by (rewrite contents_length by done; lia).
      rewrite contents_length by done. unfold contents. simpl.
      rewrite !lookup_take_lt by lia. rewrite Hp. case_decide; f_equal; lia.
    + rewrite !lookup_ge_None_2; [done|rewrite length_reverse, contents_length by done; lia|].
      rewrite contents_length by (by apply wf_set_buffer). simpl. lia.
Qed.

(** *** Filtering in place *)

Lemma filter_loop_ok n p (b : list Z) rm keep :
  (n + rm + keep <= length b)%nat -> Z.of_nat (length b) < 2 ^ 32 ->
  exists b' rm' keep',
    filter_loop n p b (Z.of_nat (n + rm + keep)) (Z.of_nat rm) (Z.of_nat keep)
    = Ret (b', Z.of_nat (rm' + keep'), Z.of_nat rm', Z.of_nat keep') /\
    length b' = length b /\ (rm' + keep' <= n + rm + keep)%nat /\
    take keep' (drop rm' b')
    = filter (fun y => p y = true) (take n b) ++ take keep (drop (n + rm) b).
Proof.
  revert b rm keep. induction n as [|i IH]; intros b rm keep Hl Hb; simpl.
  - exists b, rm, keep. by split_and!.
  - destruct (lookup_lt_is_Some_2 b i) as [x Hx]; [lia|].
    rewrite (cell_ok _ _ _ Hx), bind_Ret, (take_S_r _ _ _ Hx), list.filter_app, <-app_assoc.
    rewrite filter_cons, filter_nil. destruct (p x) eqn:Epx; cbn [negb].
    + rewrite decide_True by done.
      destruct rm as [|rm];
        [change (0 <? Z.of_nat 0) with false|change (0 <? Z.of_nat (S rm)) with true]; cbn iota.
      * destruct (IH b 0%nat (S keep)) as (b' & rm' & keep' & E & H1 & H2 & H3); [lia|done|].
        exists b', rm', keep'. split_and!; [|done|lia|].
        -- rewrite <-E. f_equal; lia.
        -- rewrite H3, !Nat.add_0_r, (drop_S _ _ _ Hx). done.
      * assert (exists b1, (if 0 <? Z.of_nat keep
             then memmove b (Z.of_nat i + 1) (Z.of_nat i + 1 + Z.of_nat (S rm)) (Z.of_nat keep)
             else Ret b) = Ret b1 /\ length b1 = length b /\ take i b1 = take i b /\
             take (S keep) (drop i b1) = x :: take keep (drop (S i + S rm) b))
          as (b1 & -> & Hlb & Ht & Hd).
        { destruct (Z.ltb_spec 0 (Z.of_nat keep)).
          - rewrite memmove_ok by lia. eexists. split; [reflexivity|].
            replace (Z.to_nat (Z.of_nat i + 1)) with (S i) by lia.
            rewrite !length_app, !length_take, !length_drop, Nat2Z.id. split; [lia|].
            split; [rewrite take_app_le, take_take by (rewrite length_take; lia); f_equal; lia|].
            rewrite (take_S_r _ _ _ Hx), <-app_assoc, drop_app_ge by (rewrite length_take; lia).
            rewrite length_take. replace (i - i `min` length b)%nat with 0%nat by lia.
            rewrite drop_0. simpl. f_equal. rewrite take_app_le by (rewrite length_take, length_drop; lia).
            rewrite take_take, Nat.min_id. do 2 f_equal. lia.
          - exists b. split_and!; try done. replace keep with 0%nat by lia.
            by rewrite (drop_S _ _ _ Hx). }
        rewrite bind_Ret, wrap_id by (unfold fits; lia).
        destruct (IH b1 0%nat (S keep)) as (b' & rm' & keep' & E & H1 & H2 & H3); [lia|lia|].
        exists b', rm', keep'. split_and!; [|lia|lia|].
        -- rewrite <-E. f_equal; lia.
        -- rewrite H3, Nat.add_0_r, Ht, Hd. done.
    + rewrite decide_False by done.
      destruct (IH b (S rm) keep) as (b' & rm' & keep' & E & H1 & H2 & H3); [lia|done|].
      exists b', rm', keep'. split_and!; [|done|lia|].
      * rewrite <-E. f_equal; lia.
      * rewrite H3. by replace (i + S rm)%nat with (S (i + rm))%nat by lia.
Qed.

Lemma sim_filter_mut a p : array_wf a -> simulates (FilterMut p) a.
Proof.
  intros Hw. pose proof Hw as [H1 H2 H3 _]. unfold simulates. simpl. unfold cc_array_filter_mut.
  destruct (Z.eqb_spec (size a) 0) as [E|E].
  { rewrite bind_Ret. eexists _, _, _. split; [reflexivity|]. right. split; [done|].
    simpl. by rewrite (proj2 (contents_nil a Hw) E). }
  destruct (filter_loop_ok (Z.to_nat (size a)) p (buffer a) 0 0)
    as (b & rm & keep & Ef & Hl & Hle & Hd); [lia|lia|].
  replace (Z.of_nat (Z.to_nat (size a) + 0 + 0)) with (size a) in Ef by lia.
  change (Z.of_nat 0) with 0 in Ef. rewrite Ef, bind_Ret. rewrite app_nil_r in Hd.
  assert (forall x, list_step (FilterMut p) (contents a) = (CC_OK, None, x) <->
    filter (fun y => p y = true) (contents a) = x) as Hspec.
  { intros x. simpl. destruct (contents a) eqn:Ec; [by apply contents_nil in Ec|].
    split; [by intros [= <-]|by intros <-]. }
  destruct (Z.ltb_spec 0 (Z.of_nat rm)).
  - rewrite memmove_ok, !bind_Ret by lia. rewrite wrap_id by (unfold fits; lia).
    eexists _, _, _. split; [reflexivity|]. right. split.
    { apply wf_shrink; [done| |lia]. rewrite !length_app, !length_take, !length_drop. simpl. lia. }
    apply Hspec. change (contents a) with (take (Z.to_nat (size a)) (buffer a)). rewrite <-Hd.
    unfold contents. cbn [size buffer set_size set_buffer snd]. rewrite !Nat2Z.id.
    change (take (Z.to_nat 0) b) with (@nil Z). rewrite app_nil_l.
    rewrite take_app_le by (rewrite length_take, length_drop; lia).
    rewrite take_take. f_equal. lia.
  - assert (rm = 0%nat) as -> by lia. rewrite bind_Ret. eexists _, _, _. split; [reflexivity|].
    right. split; [apply wf_shrink; done || lia|]. apply Hspec.
    change (contents a) with (take (Z.to_nat (size a)) (buffer a)). rewrite <-Hd, drop_0.
    unfold contents. cbn [size buffer set_size set_buffer snd]. by rewrite Nat2Z.id.
Qed.

Lemma step_simulates op a : array_wf a -> op_ok op -> simulates op a.
Proof using HL.
  intros Hw. destruct op; simpl; intros Hok.
  - by apply sim_add.
  - by apply sim_add_at.
  - by apply sim_replace_at.
  - destruct Hok. by apply sim_swap_at.
  - by apply sim_remove.
  - by apply sim_remove_at.
  - by apply sim_remove_last.
  - by apply sim_remove_all.
  - by apply sim_get_at.
  - by apply sim_get_last.
  - by apply sim_index_of.
  - by apply sim_contains.
  - by apply sim_reverse.
  - by apply sim_filter_mut.
Qed.

(** ** Histories *)

(** A sequence of calls, up to the first failed allocation. *)
Fixpoint array_run (ops : list aop) (a : cc_array) : outcome (list (cc_stat * option Z) * cc_array) :=
  match ops with
  | [] => Ret ([], a)
  | op :: ops =>
      r ← array_step op a;
      let '(st, out, a') := r in
      if bool_decide (st = CC_ERR_ALLOC) then Ret ([], a')
      else rs ← array_run ops a'; Ret ((st, out) :: rs.1, rs.2)
  end.

Fixpoint list_run (ops : list aop) (l : list Z) : list (cc_stat * option Z) * list Z :=
  match ops with
  | [] => ([], l)
  | op :: ops =>
      let '(st, out, l') := list_step op l in
      let '(rs, l'') := list_run ops l' in ((st, out) :: rs, l'')
  end.

Lemma list_step_not_alloc op l st out l' : list_step op l = (st, out, l') -> st <> CC_ERR_ALLOC.
Proof. destruct op; simpl; repeat case_match; congruence. Qed.

(** C18. The array implements a list.  On a well-formed array, every sequence
    of calls with any arguments runs without an access outside the allocated
    block, and up to the first failed allocation each call returns the status
    and the element the list specification gives, the array standing for the
    specification's list.  All calls are answered unless one finds the array
    full and the allocator out of memory, which leaves the list as it was. *)
Theorem array_refines_list ops a :
  array_wf a -> Forall op_ok ops ->
  exists k rs a', array_run ops a = Ret (rs, a') /\
    rs = take k (list_run ops (contents a)).1 /\
    contents a' = (list_run (take k ops) (contents a)).2 /\
    (k = length ops /\ array_wf a' \/
     exists rs0 a0, array_run (take k ops) a = Ret (rs0, a0) /\ starved a0).
Proof using HL.
  intros Hw Hok. revert a Hw. induction Hok as [|op ops Hop _ IH]; intros a Hw; simpl.
  - exists 0%nat, [], a. split_and!; try done. by left.
  - destruct (step_simulates op a Hw Hop) as (st & out & a1 & E & [(-> & Hc & Hv)|[Hw1 Hs]]);
      rewrite E, bind_Ret; simpl.
    + exists 0%nat, [], a1. split_and!; try done. right. by exists [], a.
    + assert (bool_decide (st = CC_ERR_ALLOC) = false) as Hst
        by (apply bool_decide_eq_false_2; by eapply list_step_not_alloc).
      rewrite Hst, Hs. destruct (IH a1 Hw1) as (k & rs & a' & -> & -> & Hc & Hk).
      rewrite bind_Ret. simpl. exists (S k). eexists _, a'. split; [reflexivity|].
      simpl. rewrite Hs. destruct (list_run ops (contents a1)) as [l1 l2] eqn:E1.
      destruct (list_run (take k ops) (contents a1)) as [l3 l4] eqn:E2. split_and!; [done|done|].
      destruct Hk as [[-> Hk]|(rs0 & a0 & Hr & Hv)]; [by left|right].
      eexists _, a0. split; [|exact Hv]. by rewrite E, bind_Ret, Hst, Hr, bind_Ret.
Qed.

(** ** Where the code goes wrong *)

(** A failed growth makes the next insertion write out of bounds.  When
    the block of a full array cannot be enlarged, [cc_array_add] reports
    [CC_ERR_ALLOC] but has already raised the capacity, so the next
    [cc_array_add] stores past the end of the old block. *)
Theorem failed_growth_overruns a x y :
  array_wf a -> size a = capacity a -> zlen (buffer a) = capacity a ->
  (forall n, mem_alloc n = None) ->
  exists a', cc_array_add a x = Ret (CC_ERR_ALLOC, None, a') /\ cc_array_add a' y = Fault.
Proof using Type.
  intros [H1 H2 H3 H4] Hf Hb Hno. unfold cc_array_add at 1, ensure_room.
  assert (CC_MAX_ELEMENTS = 2 ^ 32 - 2) as Hmax by reflexivity.
  rewrite Hf, Z.leb_refl. unfold expand_capacity.
  rewrite (proj2 (Z.eqb_neq (capacity a) CC_MAX_ELEMENTS)), Hno by lia. simpl.
  eexists. split; [reflexivity|]. unfold cc_array_add, ensure_room. cbn [size capacity buffer].
  rewrite (proj2 (Z.leb_gt _ _)) by (case_match; lia). rewrite bind_Ret. simpl.
  unfold set_cell. by rewrite (proj2 (Z.ltb_ge _ _)) by lia.
Qed.

(** Trimming an empty array writes out of bounds.  [cc_array_trim_capacity]
    of an empty array asks for a block of zero bytes and copies one element
    into it. *)
Theorem trim_empty_overruns a :
  size a = 0 -> capacity a <> 0 -> mem_calloc 0 PTR = Some [] ->
  cc_array_trim_capacity a = Fault.
Proof using Type.
  intros Hs Hc Ha. unfold cc_array_trim_capacity. rewrite Hs.
  rewrite (proj2 (Z.eqb_neq 0 (capacity a))) by congruence. by rewrite Ha.
Qed.
End Facts.

(** ** A concrete runtime: blocks of at most 64 bytes, factor 2 *)

Definition small_block (n : Z) : option (list Z) :=
  if (0 <=? n) && (n <=? 64) then Some (replicate (Z.to_nat (n / 4)) 0) else None.

#[export] Instance small_heap : Runtime unit := {
  mem_alloc := small_block;
  mem_calloc n m := small_block (n * m);
  le_one _ := false;
  DEFAULT_EXPANSION_FACTOR := tt;
  zero_factor := tt;
  ge_size _ n := n <=? 2;
  scale n _ := u32 (2 * n);
}.

Lemma small_block_size n b : small_block n = Some b -> zlen b = n / PTR /\ n < 2 ^ 31.
Proof.
  unfold small_block. destruct (Z.leb_spec 0 n), (Z.leb_spec n 64); simpl; try done.
  intros [= <-]. rewrite length_replicate. unfold PTR.
  rewrite Z2Nat.id by (apply Z.div_pos; lia). lia.
Qed.

#[export] Instance small_heap_laws : RuntimeLaws unit.
Proof. split; intros *; apply small_block_size. Qed.

Definition array0 : cc_array unit :=
  match cc_array_new with (Some a, _) => a | _ => mk_array 0 0 tt [] end.

Lemma growth_double : growth_ok tt.
Proof.
  intros n Hn. unfold scale, small_heap. rewrite wrap_id by (unfold fits; lia). lia.
Qed.

Lemma array0_wf : array_wf array0.
Proof. split; [by_compute|by_compute|by_compute|exact growth_double]. Qed.

Lemma array_refines_list_witness :
  exists k rs a',
    array_run [Add 5; Add 6; AddAt 7 1; Reverse; RemoveAt 0; FilterMut (fun x => 5 <? x)] array0
    = Ret (rs, a') /\
    rs = take k [(CC_OK, None); (CC_OK, None); (CC_OK, None); (CC_OK, None); (CC_OK, Some 6); (CC_OK, None)].
Proof.
  destruct (array_refines_list
    [Add 5; Add 6; AddAt 7 1; Reverse; RemoveAt 0; FilterMut (fun x => 5 <? x)] array0
    array0_wf ltac:(repeat constructor; simpl; by_compute)) as (k & rs & a' & H1 & H2 & _).
  exists k, rs, a'. split; [exact H1|exact H2].
Defined.

Definition full_array : cc_array unit := mk_array 2 2 tt [1; 2].

(** No block is left. *)
Definition no_heap : Runtime unit :=
  Build_Runtime unit (fun _ => None) (fun _ _ => None) (fun _ => false) tt tt
    (fun _ n => n <=? 2) (fun n _ => u32 (2 * n)).

Lemma failed_growth_overruns_witness :
  exists a', cc_array_add (H := no_heap) full_array 3 = Ret (CC_ERR_ALLOC, None, a') /\
    cc_array_add (H := no_heap) a' 4 = Fault.
Proof.
  apply (failed_growth_overruns (HR := no_heap) full_array 3 4); [|reflexivity..].
  split; [by_compute|by_compute|by_compute|].
  intros n Hn. unfold scale, no_heap. rewrite wrap_id by (unfold fits; lia). lia.
Defined.

Lemma trim_empty_overruns_witness : cc_array_trim_capacity array0 = Fault.
Proof. apply (trim_empty_overruns array0); [reflexivity|discriminate|reflexivity]. Defined.

(** Iterating over the whole array and removing every element returned. *)
Fixpoint drain (fuel : nat) (it : cc_array_iter) : outcome (cc_array unit) :=
  match fuel with
  | O => Ret (it_ar it)
  | S fuel =>
      r ← cc_array_iter_next it;
      match r with
      | (CC_OK, _, it) => r ← cc_array_iter_remove it; drain fuel r.2
      | (_, _, it) => Ret (it_ar it)
      end
  end.

(** Removal through the iterator skips elements.  [cc_array_iter_remove]
    does not move the index back, so the element that slides into the gap is
    never returned: removing every element returned leaves half of them. *)
Theorem iter_remove_skips :
  exists a, drain 10 (cc_array_iter_init (mk_array 4 8 tt [1; 2; 3; 4; 0; 0; 0; 0])) = Ret a /\
    contents a = [2; 4].
Proof. eexists. split; vm_compute; reflexivity. Qed.
