(* ===== verification/CcStack.v ===== *)
(** * Stack (src/components/Collections-C/src/cc_stack.c)

    A stack is an array; the calls that only forward are definitions of the same
    name.  What is proved: last in, first out, and that filtering into a new
    stack reports success when it loses elements. *)

From S2P Require Import Prelude CMem CcArray CcArrayFacts.

Definition SIZEOF_STACK : Z := 16.

Section Stack.
Context {F : Type} `{HR : !Runtime F}.
Local Abbreviation cc_array := (cc_array F).

Record cc_stack := mk_stack { v : cc_array }.

(** A result of the array on the array of a stack. *)
Definition on_v (r : outcome (cc_stat * option Z * cc_array)) : outcome (cc_stat * option Z * cc_stack) :=
  x ← r; Ret (x.1, mk_stack x.2).

Definition cc_stack_new_conf (conf_factor : F) (conf_capacity : Z) : option cc_stack * cc_stat :=
  match mem_calloc 1 SIZEOF_STACK with
  | None => (None, CC_ERR_ALLOC)
  | Some _ =>
      match cc_array_new_conf conf_factor conf_capacity with
      | (Some array, CC_OK) => (Some (mk_stack array), CC_OK)
      | (_, status) => (None, status)
      end
  end.

Definition cc_stack_new : option cc_stack * cc_stat :=
  cc_stack_new_conf DEFAULT_EXPANSION_FACTOR DEFAULT_CAPACITY.

Definition cc_stack_push (s : cc_stack) (element : Z) := on_v (cc_array_add (v s) element).
Definition cc_stack_peek (s : cc_stack) := on_v (cc_array_get_last (v s)).
Definition cc_stack_pop (s : cc_stack) := on_v (cc_array_remove_last (v s)).
Definition cc_stack_size (s : cc_stack) : Z := size (v s).

Definition cc_stack_filter_mut (s : cc_stack) (predicate : Z -> bool) : outcome (cc_stat * cc_stack) :=
  r ← cc_array_filter_mut (v s) predicate; Ret (r.1, mk_stack r.2).

Definition cc_stack_iter_init (s : cc_stack) : cc_array_iter := cc_array_iter_init (v s).
Definition cc_stack_iter_next (it : cc_array_iter (F := F)) := cc_array_iter_next it.
Definition cc_stack_iter_replace (it : cc_array_iter (F := F)) (element : Z) := cc_array_iter_replace it element.

(** The loop of [cc_stack_filter]; the status of [cc_stack_push] is ignored.
    [None] is the stack that [cc_stack_new] failed to create. *)
Fixpoint filter_stack_loop (fuel : nat) (it : cc_array_iter (F := F)) (predicate : Z -> bool)
    (out : option cc_stack) : outcome (option cc_stack) :=
  match fuel with
  | O => Ret out
  | S fuel =>
      r ← cc_stack_iter_next it;
      match r with
      | (CC_OK, Some e, it) =>
          if predicate e then
            match out with
            | None => Fault
            | Some o => p ← cc_stack_push o e; filter_stack_loop fuel it predicate (Some p.2)
            end
          else filter_stack_loop fuel it predicate out
      | _ => Ret out
      end
  end.

(** One turn per element and one for the end. *)
Definition cc_stack_filter (s : cc_stack) (predicate : Z -> bool) : outcome (cc_stat * option cc_stack) :=
  if cc_stack_size s =? 0 then Ret (CC_ERR_OUT_OF_RANGE, None)
  else
    o ← filter_stack_loop (Z.to_nat (size (v s)) + 1) (cc_stack_iter_init s) predicate cc_stack_new.1;
    Ret (CC_OK, o).

(** Last in, first out: what a successful push added is what the next pop
    returns, and the stack is as before. *)
Theorem stack_lifo `{!RuntimeLaws F} s x st out s' :
  array_wf (v s) -> cc_stack_push s x = Ret (st, out, s') -> st = CC_OK ->
  contents (v s') = contents (v s) ++ [x] /\
  exists s'', cc_stack_pop s' = Ret (CC_OK, Some x, s'') /\ contents (v s'') = contents (v s).
Proof.
  intros Hw Hp ->. unfold cc_stack_push, on_v in Hp.
  destruct (add_run (v s) x Hw) as [(a & E & _)|(a & E & Hw' & Hc)]; rewrite E, bind_Ret in Hp; [done|].
  simplify_eq/=. split; [done|].
  destruct (sim_remove_last a Hw') as (st & o & a2 & Hr & [(-> & _ & Hv)|[_ Hs]]); simpl in Hr.
  - destruct Hv as [Hfull _]. pose proof (contents_zlen a Hw') as Hz.
    rewrite Hc, length_app in Hz. simpl in Hz. exfalso. revert Hr. unfold cc_array_remove_last, cc_array_remove_at.
    destruct Hw' as [H1 H2 H3 H4]. rewrite wrap_id by (unfold fits; lia).
    rewrite (proj2 (Z.leb_gt _ _)) by lia. unfold cell.
    destruct (buffer a !! _); [|done]. rewrite bind_Ret. by destruct (close_gap _ _).
  - unfold cc_stack_pop, on_v. simpl. rewrite Hr, bind_Ret. simpl in Hs. rewrite Hc in Hs.
    destruct (contents (v s) ++ [x]) as [|y l] eqn:El; [by destruct (contents (v s))|].
    rewrite <-El, last_snoc, length_app, Nat.add_sub, take_app_length in Hs.
    injection Hs as <- <- Hc2. eexists. split; [reflexivity|]. by rewrite Hc2.
Qed.
End Stack.
Arguments cc_stack : clear implicits.

(** Filtering 17 elements with memory for 16: the status is [CC_OK], one
    element is missing. *)
Theorem stack_filter_loses :
  exists o, cc_stack_filter (mk_stack (mk_array 17 17 tt (Z.of_nat <$> seq 1 17))) (fun _ => true)
            = Ret (CC_OK, Some o) /\ contents (v o) = Z.of_nat <$> seq 1 16.
Proof. eexists. split; vm_compute; reflexivity. Qed.
