(* ===== verification/CcRingBuffer.v ===== *)
(** * Ring buffer (src/components/Collections-C/src/cc_ring_buffer.c)

    The buffer as coded, and what a sequence of insertions followed by
    removals returns. *)

From S2P Require Import Prelude CMem CcArray.

Definition DEFAULT_CC_RBUF_CAPACITY : Z := 10.

Record cc_rbuf := mk_rbuf { rb_size : Z; rb_capacity : Z; rb_head : Z; rb_tail : Z; rb_buf : list Z }.

(** [calloc_ok]: whether the two allocations succeed. *)
Definition cc_rbuf_conf_new (capacity : Z) (calloc_struct calloc_buf : bool) : option cc_rbuf * cc_stat :=
  if negb calloc_struct then (None, CC_ERR_ALLOC)
  else if negb calloc_buf then (None, CC_ERR_ALLOC)
  else (Some (mk_rbuf 0 capacity 0 0 (replicate (Z.to_nat capacity) 0)), CC_OK).

Definition cc_rbuf_new (calloc_struct calloc_buf : bool) : option cc_rbuf * cc_stat :=
  cc_rbuf_conf_new DEFAULT_CC_RBUF_CAPACITY calloc_struct calloc_buf.

Definition cc_rbuf_is_empty (r : cc_rbuf) : bool := rb_size r =? 0.

(** A division by a zero capacity is a fault. *)
Definition modulo (x n : Z) : outcome Z := if n =? 0 then Fault else Ret (x mod n).

Definition cc_rbuf_enqueue (r : cc_rbuf) (item : Z) : outcome cc_rbuf :=
  tail ← (if rb_head r =? rb_tail r then modulo (u32 (rb_tail r + 1)) (rb_capacity r)
          else Ret (rb_tail r));
  buf ← set_cell (rb_buf r) (rb_head r) item;
  head ← modulo (u32 (rb_head r + 1)) (rb_capacity r);
  Ret (mk_rbuf (if rb_size r <? rb_capacity r then u32 (rb_size r + 1) else rb_size r)
               (rb_capacity r) head tail buf).

Definition cc_rbuf_dequeue (r : cc_rbuf) : outcome (cc_stat * option Z * cc_rbuf) :=
  if cc_rbuf_is_empty r then Ret (CC_ERR_OUT_OF_RANGE, None, r)
  else
    out ← cell (rb_buf r) (rb_tail r);
    tail ← modulo (u32 (rb_tail r + 1)) (rb_capacity r);
    Ret (CC_OK, Some out,
         mk_rbuf (u32 (rb_size r - 1)) (rb_capacity r) (rb_head r) tail (rb_buf r)).

Definition cc_rbuf_peek (r : cc_rbuf) (index : Z) : outcome Z := cell (rb_buf r) index.

Fixpoint enqueue_all (xs : list Z) (r : cc_rbuf) : outcome cc_rbuf :=
  match xs with [] => Ret r | x :: xs => r ← cc_rbuf_enqueue r x; enqueue_all xs r end.

(** The elements of [n] removals. *)
Fixpoint dequeue_n (n : nat) (r : cc_rbuf) : outcome (list (option Z)) :=
  match n with
  | O => Ret []
  | S n => d ← cc_rbuf_dequeue r; l ← dequeue_n n d.2; Ret (d.1.2 :: l)
  end.

Section Facts.
Context (cap : nat) (Hcap : (0 < cap)%nat) (Hmax : Z.of_nat cap < 2 ^ 31).

Definition fresh : cc_rbuf := mk_rbuf 0 (Z.of_nat cap) 0 0 (replicate cap 0).

(** The buffer after the insertions [xs] alone: head and tail coincide, and
    each cell holds the latest element stored there. *)
Record filled (xs : list Z) (r : cc_rbuf) : Prop := {
  fl_cap : rb_capacity r = Z.of_nat cap;
  fl_head : rb_head r = Z.of_nat (length xs mod cap);
  fl_tail : rb_tail r = Z.of_nat (length xs mod cap);
  fl_size : rb_size r = Z.of_nat (length xs `min` cap);
  fl_len : length (rb_buf r) = cap;
  fl_new : forall j, (j < length xs)%nat -> (length xs <= j + cap)%nat ->
             rb_buf r !! (j mod cap)%nat = xs !! j;
  fl_zero : forall p, (length xs <= p < cap)%nat -> rb_buf r !! p = Some 0;
}.

Lemma fresh_filled : filled [] fresh.
Proof using Hcap.
  split; cbn [rb_capacity rb_head rb_tail rb_size rb_buf fresh length];
    rewrite ?Nat.Div0.mod_0_l, ?length_replicate; try done; try lia.
  intros p Hp. apply lookup_replicate_2. lia.
Qed.

Lemma mod_step n : modulo (u32 (Z.of_nat (n mod cap) + 1)) (Z.of_nat cap) = Ret (Z.of_nat (S n mod cap)).
Proof using Hcap Hmax.
  pose proof (Nat.mod_upper_bound n cap ltac:(lia)).
  unfold modulo. rewrite (proj2 (Z.eqb_neq _ _)) by lia. rewrite wrap_id by (unfold fits; lia).
  f_equal. rewrite <-Nat2Z.inj_succ || replace (Z.of_nat (n mod cap) + 1) with (Z.of_nat (S (n mod cap))) by lia.
  rewrite <-Nat2Z.inj_mod. f_equal. rewrite <-(Nat.add_1_r (n mod cap)), <-(Nat.add_1_r n).
  apply Nat.Div0.add_mod_idemp_l.
Qed.

Lemma mod_neq j n : (j < n)%nat -> (n < j + cap)%nat -> (n mod cap)%nat <> (j mod cap)%nat.
Proof using Hcap.
  intros H1 H2 E. pose proof (Nat.div_mod_eq n cap). pose proof (Nat.div_mod_eq j cap).
  rewrite E in *. clear E.
  assert ((n / cap = j / cap) \/ (S (j / cap) <= n / cap) \/ (S (n / cap) <= j / cap))%nat by lia. nia.
Qed.

Lemma enqueue_filled xs r x :
  filled xs r -> exists r', cc_rbuf_enqueue r x = Ret r' /\ filled (xs ++ [x]) r'.
Proof using Hcap Hmax.
  intros [H1 H2 H3 H4 H5 H6 H7]. pose proof (Nat.mod_upper_bound (length xs) cap ltac:(lia)) as Hm.
  unfold cc_rbuf_enqueue. rewrite H2, H3, H1, Z.eqb_refl, mod_step, bind_Ret.
  unfold set_cell. rewrite (proj2 (Z.ltb_lt _ (zlen (rb_buf r)))) by lia. rewrite !bind_Ret, Nat2Z.id.
  eexists. split; [reflexivity|].
  split; simpl; rewrite ?length_app; simpl; replace (length xs + 1)%nat with (S (length xs)) by lia; try done.
  - rewrite H4. destruct (Z.ltb_spec (Z.of_nat (length xs `min` cap)) (Z.of_nat cap));
      [rewrite wrap_id by (unfold fits; lia)|]; lia.
  - by rewrite length_insert.
  - intros j Hj Hj'. destruct (decide (j = length xs)) as [->|Hne].
    + rewrite list_lookup_insert_eq by lia. by rewrite list_lookup_middle.
    + rewrite lookup_app_l by lia. rewrite list_lookup_insert_ne; [apply H6; lia|].
      apply mod_neq; lia.
  - intros p Hp. rewrite list_lookup_insert_ne; [apply H7; lia|].
    rewrite Nat.mod_small by lia. lia.
Qed.

Lemma enqueue_all_filled ys xs r :
  filled xs r -> exists r', enqueue_all ys r = Ret r' /\ filled (xs ++ ys) r'.
Proof using Hcap Hmax.
  revert xs r. induction ys as [|y ys IH]; intros xs r Hf; simpl.
  - exists r. by rewrite app_nil_r.
  - destruct (enqueue_filled xs r y Hf) as (r1 & -> & Hf1). rewrite bind_Ret.
    destruct (IH _ _ Hf1) as (r2 & -> & Hf2). exists r2. by rewrite <-app_assoc in Hf2.
Qed.

(** The state after [k] removals. *)
Definition drained (k : nat) (xs : list Z) (r : cc_rbuf) : cc_rbuf :=
  mk_rbuf (rb_size r - Z.of_nat k) (rb_capacity r) (rb_head r)
          (Z.of_nat ((length xs + k) mod cap)) (rb_buf r).

Lemma dequeue_drained k xs r x :
  filled xs r -> Z.of_nat k < rb_size r -> rb_buf r !! ((length xs + k) mod cap)%nat = Some x ->
  cc_rbuf_dequeue (drained k xs r) = Ret (CC_OK, Some x, drained (S k) xs r).
Proof using Hcap Hmax.
  intros [H1 H2 H3 H4 H5 _ _] Hk Hx. unfold cc_rbuf_dequeue, cc_rbuf_is_empty, drained.
  cbn [rb_size rb_capacity rb_head rb_tail rb_buf].
  rewrite (proj2 (Z.eqb_neq _ _)) by lia. unfold cell. rewrite Nat2Z.id, Hx, bind_Ret.
  rewrite H1, mod_step, bind_Ret. rewrite wrap_id by (unfold fits; lia).
  do 3 f_equal; [lia|]. f_equal. f_equal. lia.
Qed.

Lemma dequeue_n_drained n k xs r ys :
  filled xs r -> Z.of_nat k + Z.of_nat n <= rb_size r -> length ys = n ->
  (forall i y, ys !! i = Some y -> rb_buf r !! ((length xs + (k + i)) mod cap)%nat = Some y) ->
  dequeue_n n (drained k xs r) = Ret (Some <$> ys).
Proof using Hcap Hmax.
  intros Hf. revert k ys. induction n as [|n IH]; intros k ys Hk Hl Hy.
  - by destruct ys.
  - destruct ys as [|y ys]; [done|]. simpl.
    rewrite (dequeue_drained k xs r y Hf); [|lia|].
    + rewrite bind_Ret. simpl. rewrite (IH (S k) ys); [done|lia|simpl in Hl; lia|].
      intros i z Hz. specialize (Hy (S i) z Hz). by replace (S k + i)%nat with (k + S i)%nat by lia.
    + specialize (Hy 0%nat y eq_refl). by rewrite Nat.add_0_r in Hy.
Qed.

Lemma filled_drained xs r : filled xs r -> r = drained 0 xs r.
Proof using Hcap Hmax.
  intros [H1 H2 H3 H4 H5 _ _]. destruct r as [sz c h t b]. unfold drained. simpl in *. subst.
  rewrite Nat.add_0_r. f_equal. symmetry. apply Z.sub_0_r.
Qed.

(** A filled ring buffer is first-in first-out, a partly filled one is
    not.  After [n] insertions into a new buffer of capacity [cap], removing
    [min n cap] elements returns the last [cap] elements in order if
    [n >= cap]; but if [0 < n < cap] the first removal returns the zero of a
    cell never written, whatever was inserted. *)
Theorem rbuf_fifo_when_full xs :
  exists r, enqueue_all xs fresh = Ret r /\
    ((cap <= length xs)%nat -> dequeue_n cap r = Ret (Some <$> drop (length xs - cap) xs)) /\
    ((0 < length xs < cap)%nat ->
     exists r', cc_rbuf_dequeue r = Ret (CC_OK, Some 0, r')).
Proof using Hcap Hmax.
  destruct (enqueue_all_filled xs [] fresh fresh_filled) as (r & Hr & Hf). simpl in Hf.
  pose proof Hf as [H1 H2 H3 H4 H5 H6 H7]. exists r. split; [done|]. split; intros Hn.
  - rewrite (filled_drained _ _ Hf). apply dequeue_n_drained; [done|lia|rewrite length_drop; lia|].
    intros i y Hy. rewrite lookup_drop in Hy. rewrite <-Hy.
    pose proof (lookup_lt_Some _ _ _ Hy). rewrite <-H6 by lia. f_equal.
    replace (length xs + (0 + i))%nat with (length xs - cap + i + 1 * cap)%nat by lia.
    apply Nat.Div0.mod_add.
  - rewrite (filled_drained _ _ Hf). eexists. apply dequeue_drained; [done|lia|].
    rewrite Nat.add_0_r, Nat.mod_small by lia. apply H7. lia.
Qed.
End Facts.

Lemma rbuf_fifo_when_full_witness :
  exists r, enqueue_all [7; 8] (fresh 3) = Ret r /\
    exists r', cc_rbuf_dequeue r = Ret (CC_OK, Some 0, r').
Proof.
  destruct (rbuf_fifo_when_full 3 ltac:(lia) ltac:(lia) [7; 8]) as (r & H1 & _ & H2).
  exists r. split; [exact H1|]. apply H2. simpl. lia.
Defined.
