(* ===== verification/CcPqueue.v ===== *)
(** * Priority queue (src/components/Collections-C/src/cc_pqueue.c)

    A binary heap in a growing block, with the comparator a parameter.  The
    definitions follow the source, reads outside the block included; the
    theorems show that the queue sorts while the block is at least twice as
    large as the queue, and that [cc_pqueue_pop] reads past the block when it
    is full. *)

From Stdlib Require Import Sorted.
From S2P Require Import Prelude CMem CcArray.

Module Pqueue.
Section Ops.
Context {F : Type} `{Runtime F} (cmp : Z -> Z -> Z).

Record cc_pqueue := mk_pqueue {
  pq_size : Z;
  pq_capacity : Z;
  pq_exp_factor : F;
  pq_buffer : list Z;
}.

Definition SIZEOF_PQUEUE : Z := 32.

(** The macros [CC_PARENT], [CC_LEFT] and [CC_RIGHT]. *)
Definition CC_PARENT (x : Z) : Z := if 0 <? x then (x - 1) / 2 else 0.
Definition CC_LEFT (x : Z) : Z := u32 (2 * x + 1).
Definition CC_RIGHT (x : Z) : Z := u32 (2 * x + 2).

Definition cc_pqueue_new_conf (conf_factor : F) (conf_capacity : Z) : option cc_pqueue * cc_stat :=
  let ex := if le_one conf_factor then DEFAULT_EXPANSION_FACTOR else conf_factor in
  if (conf_capacity =? 0) || ge_size ex (CC_MAX_ELEMENTS / conf_capacity)
  then (None, CC_ERR_INVALID_CAPACITY)
  else
    match mem_calloc 1 SIZEOF_PQUEUE with
    | None => (None, CC_ERR_ALLOC)
    | Some _ =>
        match mem_alloc (u32 (conf_capacity * PTR)) with
        | None => (None, CC_ERR_ALLOC)
        | Some buff => (Some (mk_pqueue 0 conf_capacity ex buff), CC_OK)
        end
    end.

Definition cc_pqueue_new : option cc_pqueue * cc_stat :=
  cc_pqueue_new_conf DEFAULT_EXPANSION_FACTOR DEFAULT_CAPACITY.

Definition expand_capacity (pq : cc_pqueue) : outcome (cc_stat * cc_pqueue) :=
  if pq_capacity pq =? CC_MAX_ELEMENTS then Ret (CC_ERR_MAX_CAPACITY, pq)
  else
    let new_capacity := scale (pq_capacity pq) (pq_exp_factor pq) in
    let cap := if new_capacity <=? pq_capacity pq then CC_MAX_ELEMENTS else new_capacity in
    match mem_alloc (u32 (cap * PTR)) with
    | None => Ret (CC_ERR_ALLOC, mk_pqueue (pq_size pq) cap (pq_exp_factor pq) (pq_buffer pq))
    | Some new_buff =>
        b ← memcpy new_buff (pq_buffer pq) 0 (pq_size pq);
        Ret (CC_OK, mk_pqueue (pq_size pq) cap (pq_exp_factor pq) b)
    end.

(** [tmp = b[i]; b[i] = b[j]; b[j] = tmp]. *)
Definition swap_cells (b : list Z) (i j : Z) : outcome (list Z) :=
  tmp ← cell b i;
  y ← cell b j;
  b ← set_cell b i y;
  set_cell b j tmp.

(** The loop of [cc_pqueue_push]; [fuel] bounds [i], which decreases. *)
Fixpoint sift_up (fuel : nat) (b : list Z) (i : Z) : outcome (list Z) :=
  match fuel with
  | O => Ret b
  | S fuel =>
      child ← cell b i;
      parent ← cell b (CC_PARENT i);
      if negb (i =? 0) && (0 <? cmp child parent)
      then b ← swap_cells b i (CC_PARENT i); sift_up fuel b (CC_PARENT i)
      else Ret b
  end.

Definition cc_pqueue_push (pq : cc_pqueue) (element : Z) : outcome (cc_stat * cc_pqueue) :=
  let i := pq_size pq in
  sp ← (if pq_capacity pq <=? i then expand_capacity pq else Ret (CC_OK, pq));
  if negb (bool_decide (sp.1 = CC_OK)) then Ret sp
  else
    let pq := sp.2 in
    b ← set_cell (pq_buffer pq) i element;
    let n := u32 (pq_size pq + 1) in
    if i =? 0 then Ret (CC_OK, mk_pqueue n (pq_capacity pq) (pq_exp_factor pq) b)
    else
      b ← sift_up (Z.to_nat i + 1) b i;
      Ret (CC_OK, mk_pqueue n (pq_capacity pq) (pq_exp_factor pq) b).

Definition cc_pqueue_top (pq : cc_pqueue) : outcome (cc_stat * option Z) :=
  if pq_size pq =? 0 then Ret (CC_ERR_OUT_OF_RANGE, None)
  else x ← cell (pq_buffer pq) 0; Ret (CC_OK, Some x).

(** The two comparisons of [cc_pqueue_heapify]: the index of the largest of
    an element and its children. *)
Definition larger_child (size index L R indexPtr left right : Z) : Z :=
  let '(indexPtr, i1) :=
    if (L <? size) && (cmp indexPtr left <? 0) then (left, L) else (indexPtr, index) in
  if (R <? size) && (cmp indexPtr right <? 0) then R else i1.

(** [cc_pqueue_heapify] on the block; [fuel] bounds [size - index]. *)
Fixpoint cc_pqueue_heapify (fuel : nat) (b : list Z) (size index : Z) : outcome (list Z) :=
  match fuel with
  | O => Ret b
  | S fuel =>
      if size <=? 1 then Ret b
      else
        let L := CC_LEFT index in
        let R := CC_RIGHT index in
        left ← cell b L;
        right ← cell b R;
        indexPtr ← cell b index;
        let i2 := larger_child size index L R indexPtr left right in
        if negb (i2 =? index)
        then b ← swap_cells b index i2; cc_pqueue_heapify fuel b size i2
        else Ret b
  end.

Definition cc_pqueue_pop (pq : cc_pqueue) : outcome (cc_stat * option Z * cc_pqueue) :=
  if pq_size pq =? 0 then Ret (CC_ERR_OUT_OF_RANGE, None, pq)
  else
    b ← swap_cells (pq_buffer pq) 0 (u32 (pq_size pq - 1));
    tmp ← cell b (u32 (pq_size pq - 1));
    let n := u32 (pq_size pq - 1) in
    b ← cc_pqueue_heapify (Z.to_nat n + 1) b n 0;
    Ret (CC_OK, Some tmp, mk_pqueue n (pq_capacity pq) (pq_exp_factor pq) b).

(** Insertions in order, and all removals until the queue is empty. *)
Fixpoint push_all (xs : list Z) (pq : cc_pqueue) : outcome (cc_stat * cc_pqueue) :=
  match xs with
  | [] => Ret (CC_OK, pq)
  | x :: xs =>
      r ← cc_pqueue_push pq x;
      if negb (bool_decide (r.1 = CC_OK)) then Ret r else push_all xs r.2
  end.

Fixpoint pop_n (n : nat) (pq : cc_pqueue) : outcome (list Z * cc_pqueue) :=
  match n with
  | O => Ret ([], pq)
  | S n =>
      r ← cc_pqueue_pop pq;
      rest ← pop_n n r.2;
      Ret (match r.1.2 with Some x => x :: rest.1 | None => rest.1 end, rest.2)
  end.
End Ops.
Arguments cc_pqueue : clear implicits.

(** ** Comparators: a total preorder, larger elements first *)

Class Comparator (cmp : Z -> Z -> Z) : Prop := {
  cmp_sym x y : cmp x y <= 0 <-> 0 <= cmp y x;
  cmp_trans x y z : cmp x y <= 0 -> cmp y z <= 0 -> cmp x z <= 0;
}.

(** ** Exchanges *)

Definition swp (b : list Z) (i j : nat) : list Z := <[j := b !!! i]> (<[i := b !!! j]> b).

Lemma swp_length b i j : length (swp b i j) = length b.
Proof. unfold swp. by rewrite !length_insert. Qed.

Lemma swp_lookup b i j k :
  (i < length b)%nat -> (j < length b)%nat ->
  swp b i j !!! k = if decide (k = j) then b !!! i else if decide (k = i) then b !!! j else b !!! k.
Proof.
  intros Hi Hj. unfold swp. destruct (decide (k = j)) as [->|Hk].
  { by rewrite list_lookup_total_insert_eq by (rewrite length_insert; lia). }
  rewrite list_lookup_total_insert_ne by done.
  destruct (decide (k = i)) as [->|]; [by rewrite list_lookup_total_insert_eq|].
  by rewrite list_lookup_total_insert_ne.
Qed.

Lemma swp_perm b i j n :
  (i < n)%nat -> (j < n)%nat -> (n <= length b)%nat -> take n (swp b i j) ≡ₚ take n b.
Proof.
  intros Hi Hj Hn. unfold swp. rewrite !take_insert_lt by lia.
  apply Permutation_insert_swap; rewrite lookup_take_lt by lia; apply list_lookup_lookup_total_lt; lia.
Qed.

Lemma cell_total b (i : nat) : (i < length b)%nat -> cell b (Z.of_nat i) = Ret (b !!! i).
Proof. intros Hi. unfold cell. by rewrite Nat2Z.id, list_lookup_lookup_total_lt. Qed.

Lemma swap_total b (i j : nat) :
  (i < length b)%nat -> (j < length b)%nat -> swap_cells b (Z.of_nat i) (Z.of_nat j) = Ret (swp b i j).
Proof.
  intros Hi Hj. unfold swap_cells. rewrite (cell_total b i Hi), bind_Ret, (cell_total b j Hj), bind_Ret.
  unfold set_cell. rewrite (proj2 (Z.ltb_lt _ _)), bind_Ret by lia.
  rewrite length_insert, (proj2 (Z.ltb_lt _ _)) by lia. by rewrite !Nat2Z.id.
Qed.

(** ** The heap invariant *)

Section Heap.
Context (cmp : Z -> Z -> Z) `{HC : !Comparator cmp}.

Definition par (i : nat) : nat := ((i - 1) / 2)%nat.

Definition edge (b : list Z) (j : nat) : Prop := cmp (b !!! j) (b !!! par j) <= 0.

Definition heap (b : list Z) (n : nat) : Prop := forall j, (0 < j < n)%nat -> edge b j.

Lemma cmp_refl x : cmp x x <= 0.
Proof using HC. destruct (Z.le_ge_cases (cmp x x) 0); [done|]. by apply cmp_sym. Qed.

Lemma cmp_gt x y : 0 < cmp x y -> cmp y x <= 0.
Proof using HC. intros H. apply cmp_sym. lia. Qed.

Lemma cmp_lt x y : cmp x y < 0 -> cmp x y <= 0.
Proof using Type. lia. Qed.

Lemma cmp_ge x y : 0 <= cmp x y -> cmp y x <= 0.
Proof using HC. apply cmp_sym. Qed.

Lemma par_lt i : (0 < i)%nat -> (par i < i)%nat.
Proof using Type. unfold par. intros H. apply Nat.Div0.div_lt_upper_bound. lia. Qed.

Lemma par_spec i : (0 < i)%nat -> (i = 2 * par i + 1 \/ i = 2 * par i + 2)%nat.
Proof using Type.
  unfold par. intros H. pose proof (Nat.div_mod_eq (i - 1) 2).
  pose proof (Nat.mod_upper_bound (i - 1) 2). lia.
Qed.

Lemma par_left i : par (2 * i + 1) = i.
Proof using Type. pose proof (par_spec (2 * i + 1)). lia. Qed.

Lemma par_right i : par (2 * i + 2) = i.
Proof using Type. pose proof (par_spec (2 * i + 2)). lia. Qed.

Lemma CC_PARENT_nat (i : nat) : CC_PARENT (Z.of_nat i) = Z.of_nat (par i).
Proof using Type.
  unfold CC_PARENT, par. destruct (Z.ltb_spec 0 (Z.of_nat i)).
  - rewrite Nat2Z.inj_div. f_equal. lia.
  - by replace i with 0%nat by lia.
Qed.

Lemma heap_max b n j : heap b n -> (j < n)%nat -> cmp (b !!! j) (b !!! 0%nat) <= 0.
Proof using HC.
  intros Hh. induction j as [j IH] using lt_wf_ind. intros Hj.
  destruct (decide (j = 0%nat)) as [->|]; [apply cmp_refl|].
  pose proof (par_lt j). apply cmp_trans with (b !!! par j); [apply Hh; lia|apply IH; lia].
Qed.

(** *** Upwards *)

Lemma sift_up_ok fuel b i n :
  (i < fuel)%nat -> (i < n)%nat -> (n <= length b)%nat ->
  (forall j, (0 < j < n)%nat -> j <> i -> edge b j) ->
  (forall j, (0 < j < n)%nat -> (0 < i)%nat -> par j = i -> cmp (b !!! j) (b !!! par i) <= 0) ->
  exists b', sift_up cmp fuel b (Z.of_nat i) = Ret b' /\ heap b' n /\
    length b' = length b /\ take n b' ≡ₚ take n b.
Proof using HC.
  revert b i. induction fuel as [|fuel IH]; intros b i Hf Hi Hn H1 H2; [lia|]. simpl.
  assert (par i <= i)%nat as Hp by (destruct i; [done|pose proof (par_lt (S i)); lia]).
  rewrite CC_PARENT_nat, (cell_total b i), bind_Ret, (cell_total b (par i)), bind_Ret by lia.
  destruct (Z.eqb_spec (Z.of_nat i) 0) as [E|E]; simpl.
  { exists b. split_and!; try done. intros j Hj. apply H1; lia. }
  assert (par i < i)%nat as Hlt by (apply par_lt; lia).
  destruct (Z.ltb_spec 0 (cmp (b !!! i) (b !!! par i))) as [Hc|Hc].
  2: { exists b. split_and!; try done. intros j Hj. destruct (decide (j = i)) as [->|]; [done|auto]. }
  rewrite swap_total, bind_Ret by lia.
  destruct (IH (swp b i (par i)) (par i)) as (b' & Hr & Hh & Hl & Ht);
    [lia|lia|by rewrite swp_length| | |].
  - intros j Hj Hne. unfold edge. rewrite !swp_lookup by lia.
    rewrite (decide_False (P := j = par i)) by done.
    destruct (decide (j = i)) as [->|Hji].
    { rewrite decide_True by done. by apply cmp_gt. }
    pose proof (H1 j Hj Hji) as He. unfold edge in He.
    destruct (decide (par j = par i)) as [E1|].
    { apply cmp_trans with (b !!! par j); [done|]. rewrite E1. by apply cmp_gt. }
    destruct (decide (par j = i)) as [E2|]; [|done]. apply H2; done || lia.
  - intros j Hj H0 Hpj. pose proof (par_lt (par i) H0). pose proof (par_lt j).
    assert (edge b (par i)) as He by (apply H1; lia). unfold edge in He.
    rewrite !swp_lookup by lia. rewrite (decide_False (P := j = par i)) by lia.
    rewrite !(decide_False (P := par (par i) = _)) by lia.
    destruct (decide (j = i)) as [->|]; [done|].
    apply cmp_trans with (b !!! par i); [|done]. rewrite <-Hpj. apply H1; done.
  - exists b'. split_and!; [done|done|by rewrite Hl, swp_length|]. rewrite Ht. apply swp_perm; lia.
Qed.
(** *** Downwards *)

(** Moving the larger child [c] of [i] up keeps every edge but those below [c]. *)
Lemma sink_step b i c n :
  (i < c)%nat -> (c < n)%nat -> (n <= length b)%nat -> par c = i ->
  cmp (b !!! i) (b !!! c) < 0 ->
  (forall j, (0 < j < n)%nat -> par j = i -> cmp (b !!! j) (b !!! c) <= 0) ->
  (forall j, (0 < j < n)%nat -> par j <> i -> edge b j) ->
  (forall j, (0 < j < n)%nat -> (0 < i)%nat -> par j = i -> cmp (b !!! j) (b !!! par i) <= 0) ->
  (forall j, (0 < j < n)%nat -> par j <> c -> edge (swp b i c) j) /\
  (forall j, (0 < j < n)%nat -> (0 < c)%nat -> par j = c ->
     cmp (swp b i c !!! j) (swp b i c !!! par c) <= 0).
Proof using HC.
  intros Hic Hc Hn Hpc Hlt Hmax H1 H2. split.
  - intros j Hj Hne. unfold edge. pose proof (par_lt j). rewrite !swp_lookup by lia.
    rewrite (decide_False (P := par j = c)) by done.
    destruct (decide (j = c)) as [->|].
    { rewrite Hpc, decide_True by done. lia. }
    destruct (decide (j = i)) as [->|].
    { rewrite decide_False by lia. apply H2; done || lia. }
    destruct (decide (par j = i)); [by apply Hmax|by apply H1].
  - intros j Hj _ Hpj. pose proof (par_lt j). rewrite Hpc, !swp_lookup by lia.
    rewrite (decide_False (P := j = c)), (decide_False (P := j = i)) by lia.
    rewrite (decide_False (P := i = c)), (decide_True (P := i = i)) by lia.
    pose proof (H1 j Hj ltac:(lia)) as He. unfold edge in He. by rewrite Hpj in He.
Qed.

Lemma child_cases i j : (0 < j)%nat -> par j = i -> (j = 2 * i + 1 \/ j = 2 * i + 2)%nat.
Proof using Type. intros Hj <-. by apply par_spec. Qed.

Lemma cmp_lt_trans x y z : cmp x y < 0 -> cmp y z < 0 -> cmp x z < 0.
Proof using HC.
  intros H1 H2. destruct (Z_lt_ge_dec (cmp x z) 0) as [|H3]; [done|].
  assert (cmp z y <= 0) as H4 by (apply cmp_trans with x; [apply cmp_ge|]; lia).
  apply cmp_sym in H4. lia.
Qed.

Lemma larger_child_spec (b : list Z) i n (l := (2 * i + 1)%nat) (r := (2 * i + 2)%nat) :
  exists c, larger_child cmp (Z.of_nat n) (Z.of_nat i) (Z.of_nat l) (Z.of_nat r)
              (b !!! i) (b !!! l) (b !!! r) = Z.of_nat c /\
    (forall j, (0 < j < n)%nat -> par j = i -> cmp (b !!! j) (b !!! c) <= 0) /\
    (c = i \/ (i < c < n)%nat /\ par c = i /\ cmp (b !!! i) (b !!! c) < 0).
Proof using HC.
  assert (forall c : nat, ((l < n)%nat -> cmp (b !!! l) (b !!! c) <= 0) ->
    ((r < n)%nat -> cmp (b !!! r) (b !!! c) <= 0) ->
    forall j : nat, (0 < j < n)%nat -> par j = i -> cmp (b !!! j) (b !!! c) <= 0) as Hkids.
  { intros c Hl Hr j Hj Hp. destruct (child_cases i j) as [->| ->]; [lia|done|apply Hl|apply Hr]; lia. }
  pose proof (par_left i) as Pl. pose proof (par_right i) as Pr. unfold larger_child.
  destruct (Z.ltb_spec (Z.of_nat l) (Z.of_nat n)), (Z.ltb_spec (cmp (b !!! i) (b !!! l)) 0); simpl;
    destruct (Z.ltb_spec (Z.of_nat r) (Z.of_nat n)); simpl; try lia.
  - destruct (Z.ltb_spec (cmp (b !!! l) (b !!! r)) 0).
    + exists r. split_and!; [done|apply Hkids; [lia|intros; apply cmp_refl]|].
      right. split_and!; [lia|lia|done|]. by eapply cmp_lt_trans.
    + exists l. split_and!; [done|apply Hkids; intros; [apply cmp_refl|by apply cmp_ge]|].
      right. split_and!; [lia|lia|done|done].
  - exists l. split_and!; [done|apply Hkids; [intros; apply cmp_refl|lia]|]. right. split_and!; [lia|lia|done|done].
  - destruct (Z.ltb_spec (cmp (b !!! i) (b !!! r)) 0).
    + exists r. split_and!; [done|apply Hkids; intros; [|apply cmp_refl]|].
      * apply cmp_trans with (b !!! i); [by apply cmp_ge|lia].
      * right. split_and!; [lia|lia|done|done].
    + exists i. split_and!; [done|apply Hkids; intros; by apply cmp_ge|by left].
  - exists i. split_and!; [done|apply Hkids; [intros; by apply cmp_ge|lia]|by left].
  - exists i. split_and!; [done|apply Hkids; lia|by left].
  - exists i. split_and!; [done|apply Hkids; lia|by left].
Qed.

Lemma heapify_ok fuel b i n :
  (n - i < fuel)%nat -> (i < n)%nat -> (2 * n < length b)%nat -> Z.of_nat (length b) < 2 ^ 29 ->
  (forall j, (0 < j < n)%nat -> par j <> i -> edge b j) ->
  (forall j, (0 < j < n)%nat -> (0 < i)%nat -> par j = i -> cmp (b !!! j) (b !!! par i) <= 0) ->
  exists b', cc_pqueue_heapify cmp fuel b (Z.of_nat n) (Z.of_nat i) = Ret b' /\ heap b' n /\
    length b' = length b /\ take n b' ≡ₚ take n b.
Proof using HC.
  revert b i. induction fuel as [|fuel IH]; intros b i Hf Hi Hn Hb H1 H2; [lia|]. simpl.
  destruct (Z.leb_spec (Z.of_nat n) 1).
  { exists b. split_and!; try done. intros j Hj. lia. }
  assert (CC_LEFT (Z.of_nat i) = Z.of_nat (2 * i + 1)) as ->
    by (unfold CC_LEFT; rewrite wrap_id by (unfold fits; lia); lia).
  assert (CC_RIGHT (Z.of_nat i) = Z.of_nat (2 * i + 2)) as ->
    by (unfold CC_RIGHT; rewrite wrap_id by (unfold fits; lia); lia).
  rewrite (cell_total b (2 * i + 1)), bind_Ret, (cell_total b (2 * i + 2)), bind_Ret by lia.
  rewrite (cell_total b i), bind_Ret by lia.
  destruct (larger_child_spec b i n) as (c & -> & Hmax & [->|(Hc & Hpc & Hlt)]).
  - rewrite Z.eqb_refl. simpl. exists b. split_and!; try done.
    intros j Hj. destruct (decide (par j = i)) as [<-|]; [by apply Hmax|by apply H1].
  - rewrite (proj2 (Z.eqb_neq _ _)) by lia. simpl. rewrite swap_total, bind_Ret by lia.
    destruct (sink_step b i c n) as [G1 G2]; [lia|lia|lia|done|done|done|done|done|].
    destruct (IH (swp b i c) c) as (b' & Hr & Hh & Hl & Ht);
      [lia|lia|by rewrite swp_length|by rewrite swp_length|exact G1|exact G2|].
    exists b'. split_and!; [done|done|by rewrite Hl, swp_length|].
    rewrite Ht. apply swp_perm; lia.
Qed.
(** ** The queue *)

Context {F : Type} `{HRT : !Runtime F}.
Implicit Types pq : cc_pqueue F.

Definition elems pq : list Z := take (Z.to_nat (pq_size pq)) (pq_buffer pq).

Record pq_wf pq : Prop := {
  pq_sized : 0 <= pq_size pq <= pq_capacity pq;
  pq_block : zlen (pq_buffer pq) = pq_capacity pq;
  pq_max : pq_capacity pq < 2 ^ 29;
  pq_heap : heap (pq_buffer pq) (Z.to_nat (pq_size pq));
}.

Lemma heap_insert b n x :
  heap b n -> (n < length b)%nat -> forall j, (0 < j < S n)%nat -> j <> n -> edge (<[n := x]> b) j.
Proof using Type.
  intros Hh Hn j Hj Hne. pose proof (par_lt j). unfold edge.
  rewrite !list_lookup_total_insert_ne by lia. apply Hh. lia.
Qed.

Lemma push_ok pq x :
  pq_wf pq -> pq_size pq < pq_capacity pq ->
  exists pq', cc_pqueue_push cmp pq x = Ret (CC_OK, pq') /\ pq_wf pq' /\
    pq_size pq' = pq_size pq + 1 /\ pq_capacity pq' = pq_capacity pq /\ elems pq' ≡ₚ x :: elems pq.
Proof using HC.
  intros [H1 H2 H3 H4] Hr. unfold cc_pqueue_push.
  rewrite (proj2 (Z.leb_gt _ _)), bind_Ret by lia. simpl.
  assert (u32 (pq_size pq + 1) = pq_size pq + 1) as -> by (apply wrap_id; unfold fits; lia).
  unfold set_cell. rewrite (proj2 (Z.ltb_lt _ _)), bind_Ret by lia.
  set (n := Z.to_nat (pq_size pq)) in *. set (b := <[n := x]> (pq_buffer pq)).
  assert (length b = length (pq_buffer pq)) as Hlb by (subst b; by rewrite length_insert).
  assert (pq_size pq = Z.of_nat n) as En by lia.
  assert (take (S n) b ≡ₚ x :: take n (pq_buffer pq)) as Hp.
  { subst b. rewrite take_insert_snoc by lia. by rewrite <-Permutation_cons_append. }
  destruct (sift_up_ok (n + 1) b n (S n)) as (b' & Hs & Hh & Hl & Ht); [lia..| | |].
  { apply heap_insert; [done|lia]. }
  { intros j Hj _ Hpj. pose proof (par_lt j). lia. }
  assert (Z.to_nat (pq_size pq + 1) = S n) as Es by lia.
  destruct (Z.eqb_spec (pq_size pq) 0) as [E|E].
  - eexists. split; [reflexivity|]. unfold elems. simpl. fold n. rewrite Es.
    split; [|done]. split; simpl; [lia|lia|lia|]. intros j Hj. lia.
  - rewrite En, Hs, bind_Ret. eexists. split; [reflexivity|]. unfold elems. simpl. rewrite <-En, Es.
    split_and!; [|done|done|by rewrite Ht]. split; simpl; rewrite ?Es; [lia|lia|lia|done].
Qed.

Lemma pop_ok pq :
  pq_wf pq -> 0 < pq_size pq -> 2 * (pq_size pq - 1) < pq_capacity pq ->
  exists x pq', cc_pqueue_pop cmp pq = Ret (CC_OK, Some x, pq') /\ pq_wf pq' /\
    pq_size pq' = pq_size pq - 1 /\ pq_capacity pq' = pq_capacity pq /\
    elems pq ≡ₚ x :: elems pq' /\ (forall y, y ∈ elems pq -> cmp y x <= 0).
Proof using HC.
  intros [H1 H2 H3 H4] H0 Hroom. unfold cc_pqueue_pop. rewrite (proj2 (Z.eqb_neq _ _)) by lia.
  assert (u32 (pq_size pq - 1) = pq_size pq - 1) as -> by (apply wrap_id; unfold fits; lia).
  set (n := Z.to_nat (pq_size pq - 1)). set (b := pq_buffer pq) in *.
  assert (pq_size pq - 1 = Z.of_nat n) as En by lia.
  assert (Z.to_nat (pq_size pq) = S n) as Es by lia. rewrite Es in H4.
  rewrite En. change (swap_cells b 0 (Z.of_nat n)) with (swap_cells b (Z.of_nat 0) (Z.of_nat n)).
  rewrite swap_total, bind_Ret by lia.
  rewrite cell_total, bind_Ret by (rewrite swp_length; lia).
  assert (forall j, (j < n)%nat -> (0 < j)%nat -> swp b 0 n !!! j = b !!! j) as Hsame.
  { intros j Hj Hj0. rewrite swp_lookup by lia. by rewrite !decide_False by lia. }
  assert (swp b 0 n !!! n = b !!! 0%nat) as Htop by (rewrite swp_lookup by lia; by rewrite decide_True).
  assert (exists b', cc_pqueue_heapify cmp (n + 1) (swp b 0 n) (Z.of_nat n) 0 = Ret b' /\ heap b' n /\
    length b' = length b /\ take n b' ≡ₚ take n (swp b 0 n)) as (b' & Hr & Hh & Hl & Ht).
  { destruct (decide (n = 0%nat)) as [->|Hn0].
    { eexists. split; [reflexivity|]. split; [intros j Hj; lia|]. by rewrite swp_length. }
    destruct (heapify_ok (n + 1) (swp b 0 n) 0 n) as (b' & Hr & Hh & Hl & Ht);
      [lia|lia|rewrite swp_length; lia|rewrite swp_length; lia| | |].
    - intros j Hj Hp. pose proof (par_lt j). unfold edge. rewrite !Hsame by lia. apply H4. lia.
    - lia.
    - exists b'. by rewrite Hl, swp_length. }
  rewrite Hr, bind_Ret, Htop. exists (b !!! 0%nat). eexists. split; [reflexivity|].
  unfold elems. simpl. rewrite Nat2Z.id, Es. fold b. split_and!.
  - split; simpl; rewrite ?Nat2Z.id; [lia|lia|lia|done].
  - done.
  - done.
  - rewrite Ht, <-(swp_perm b 0 n (S n)) by lia.
    rewrite (take_S_r _ _ (b !!! 0%nat)); [by rewrite <-Permutation_cons_append|].
    rewrite <-Htop. apply list_lookup_lookup_total_lt. rewrite swp_length. lia.
  - intros y Hy. apply list_elem_of_lookup in Hy as [j Hj].
    pose proof (lookup_lt_Some _ _ _ Hj) as Hjl. rewrite length_take in Hjl.
    rewrite lookup_take_lt in Hj by lia. apply list_lookup_total_correct in Hj. subst y.
    apply (heap_max b (S n)); [done|lia].
Qed.
Lemma push_all_ok xs pq :
  pq_wf pq -> pq_size pq + zlen xs <= pq_capacity pq ->
  exists pq', push_all cmp xs pq = Ret (CC_OK, pq') /\ pq_wf pq' /\
    pq_size pq' = pq_size pq + zlen xs /\ pq_capacity pq' = pq_capacity pq /\
    elems pq' ≡ₚ xs ++ elems pq.
Proof using HC.
  revert pq. induction xs as [|x xs IH]; intros pq Hw Hc; simpl.
  - exists pq. split_and!; done || lia.
  - simpl in Hc. destruct (push_ok pq x) as (pq1 & -> & Hw1 & Hs1 & Hc1 & He1); [done|lia|].
    rewrite bind_Ret. simpl. destruct (IH pq1) as (pq' & -> & Hw' & Hs' & Hc' & He'); [done|lia|].
    exists pq'. split_and!; [done|done|lia|lia|]. rewrite He', He1. by rewrite Permutation_middle.
Qed.

Lemma pop_n_ok n pq :
  pq_wf pq -> pq_size pq = Z.of_nat n -> 2 * Z.of_nat n <= pq_capacity pq ->
  exists ys pq', pop_n cmp n pq = Ret (ys, pq') /\ ys ≡ₚ elems pq /\
    StronglySorted (fun x y => cmp y x <= 0) ys /\ pq_size pq' = 0.
Proof using HC.
  revert pq. induction n as [|n IH]; intros pq Hw Hs Hc; simpl.
  - exists [], pq. unfold elems. rewrite Hs. split_and!; [done|done|constructor|done].
  - destruct (pop_ok pq) as (x & pq1 & -> & Hw1 & Hs1 & Hc1 & He & Hmax); [done|lia|lia|].
    rewrite bind_Ret. simpl. destruct (IH pq1) as (ys & pq' & -> & Hp & Hsort & Hz); [done|lia|lia|].
    rewrite bind_Ret. simpl. exists (x :: ys), pq'. split_and!; [done|by rewrite Hp, He| |done].
    constructor; [done|]. apply list.Forall_forall. intros y Hy. apply Hmax.
    rewrite He, <-Hp. by apply list_elem_of_further.
Qed.

End Heap.

(** ** Concrete queues: integers, larger first *)

Definition int_cmp (x y : Z) : Z := x - y.

#[export] Instance int_cmp_ok : Comparator int_cmp.
Proof. split; unfold int_cmp; lia. Qed.

(** A heap of 64 bytes, the growth factor 2. *)
#[local] Instance heap64 : Runtime unit := {
  mem_alloc n := if n <=? 64 then Some (replicate (Z.to_nat (n / 4)) 0) else None;
  mem_calloc n m := if n * m <=? 64 then Some (replicate (Z.to_nat (n * m / 4)) 0) else None;
  le_one _ := false;
  DEFAULT_EXPANSION_FACTOR := tt;
  zero_factor := tt;
  ge_size _ n := n <=? 2;
  scale n _ := u32 (2 * n);
}.

Definition queue8 : cc_pqueue unit := mk_pqueue 0 8 tt (replicate 8 0).


(** Removal from a full queue reads past its block.  [cc_pqueue_heapify]
    reads both children of an index before it compares their indices with
    the size: after eight insertions into a new queue of the default
    capacity, [cc_pqueue_pop] reads the ninth cell of eight. *)
Theorem pop_reads_past_block :
  exists pq pq', (cc_pqueue_new : option (cc_pqueue unit) * cc_stat) = (Some pq, CC_OK) /\
    push_all int_cmp [1; 2; 3; 4; 5; 6; 7; 8] pq = Ret (CC_OK, pq') /\
    pq_capacity pq' = 8 /\ cc_pqueue_pop int_cmp pq' = Fault.
Proof.
  exists queue8, (mk_pqueue 8 8 tt [8; 7; 6; 4; 3; 2; 5; 1]).
  split_and!; vm_compute; reflexivity.
Qed.
End Pqueue.
