(* ===== verification/Blocks.v ===== *)
(** * Blocks of memory read by index

    [bget b i] is the cell [i] of a block, [None] outside it.  Two blocks are
    equal when they agree on every index, and the block operations of
    CcArray.v ([set_cell], [memmove], [memcpy]) are given by what they leave at
    each index, so that a property of a block operation is case analysis on
    indices and linear arithmetic.  At the end, the rounding of capacities up to
    a power of two. *)

From S2P Require Import Prelude CMem CcArray.

(** Case analysis on the comparisons of indices in the goal. *)
Ltac no_ite t := lazymatch t with context [if _ then _ else _] => fail | _ => idtac end.
Ltac zcases :=
  repeat match goal with
    | |- context [?a <? ?b] => no_ite a; no_ite b; destruct (Z.ltb_spec a b)
    | |- context [?a <=? ?b] => no_ite a; no_ite b; destruct (Z.leb_spec a b)
    | |- context [?a =? ?b] => no_ite a; no_ite b; destruct (Z.eqb_spec a b)
    end; simpl; intros; try lia; try done; try (f_equal; lia).

(** The same, dropping the impossible cases on the way. *)
Ltac zprune :=
  repeat match goal with
    | |- context [?a <? ?b] => no_ite a; no_ite b; destruct (Z.ltb_spec a b); try (exfalso; lia); cbn [andb orb negb]
    | |- context [?a <=? ?b] => no_ite a; no_ite b; destruct (Z.leb_spec a b); try (exfalso; lia); cbn [andb orb negb]
    | |- context [?a =? ?b] => no_ite a; no_ite b; destruct (Z.eqb_spec a b); try (exfalso; lia); cbn [andb orb negb]
    end; intros; try lia; try done; try (f_equal; lia).

Section Get.
Context {A : Type}.
Implicit Types (l m : list A) (i j n : Z).

Definition bget l i : option A := if 0 <=? i then l !! Z.to_nat i else None.

Lemma bget_neg l i : i < 0 -> bget l i = None.
Proof. intros H. unfold bget. by rewrite (proj2 (Z.leb_gt _ _) H). Qed.

Lemma bget_pos l i : 0 <= i -> bget l i = l !! Z.to_nat i.
Proof. intros H. unfold bget. by rewrite (proj2 (Z.leb_le _ _) H). Qed.

Lemma bget_beyond l i : zlen l <= i -> bget l i = None.
Proof. intros H. rewrite bget_pos by lia. apply lookup_ge_None_2. lia. Qed.

Lemma bget_in l i : 0 <= i < zlen l -> exists x, bget l i = Some x.
Proof. intros H. rewrite bget_pos by lia. apply lookup_lt_is_Some_2. lia. Qed.

Lemma bget_range l i x : bget l i = Some x -> 0 <= i < zlen l.
Proof.
  intros H. destruct (Z.lt_ge_cases i 0); [by rewrite bget_neg in H|].
  rewrite bget_pos in H by done. apply lookup_lt_Some in H. lia.
Qed.

Lemma bget_ext l m : (forall i, bget l i = bget m i) -> l = m.
Proof.
  intros H. apply list_eq. intros i. specialize (H (Z.of_nat i)).
  by rewrite !bget_pos, Nat2Z.id in H by lia.
Qed.

Lemma bget_zlen l n : 0 <= n -> (forall i, 0 <= i < n <-> is_Some (bget l i)) -> zlen l = n.
Proof.
  intros Hn H. destruct (Z.lt_trichotomy (zlen l) n) as [Hl|[Hl|Hl]]; [|done|].
  - destruct (proj1 (H (zlen l))) as [x Hx]; [lia|]. rewrite bget_beyond in Hx by lia. done.
  - destruct (proj2 (H n)); [|lia]. apply bget_in. lia.
Qed.

Lemma zlen_cons x l : zlen (x :: l) = zlen l + 1.
Proof. rewrite length_cons. lia. Qed.

Lemma zlen_app l m : zlen (l ++ m) = zlen l + zlen m.
Proof. rewrite length_app. lia. Qed.

Lemma bget_nil i : bget (@nil A) i = None.
Proof. unfold bget. by case_match. Qed.

Lemma bget_app l m i : bget (l ++ m) i = if i <? zlen l then bget l i else bget m (i - zlen l).
Proof.
  destruct (Z.lt_ge_cases i 0); [rewrite !bget_neg by lia; by case_match|].
  destruct (Z.ltb_spec i (zlen l)).
  - rewrite !bget_pos by lia. apply lookup_app_l. lia.
  - rewrite !bget_pos by lia. rewrite lookup_app_r by lia. f_equal. lia.
Qed.

Lemma bget_cons x l i : bget (x :: l) i = if i =? 0 then Some x else bget l (i - 1).
Proof.
  destruct (Z.eqb_spec i 0) as [->|]; [done|].
  destruct (Z.lt_ge_cases i 0); [by rewrite !bget_neg by lia|]. rewrite !bget_pos by lia.
  replace (Z.to_nat i) with (S (Z.to_nat (i - 1))) by lia. done.
Qed.

Lemma bget_take n l i : bget (take (Z.to_nat n) l) i = if i <? n then bget l i else None.
Proof.
  destruct (Z.lt_ge_cases i 0); [rewrite !bget_neg by lia; by case_match|].
  rewrite !bget_pos by lia.
  destruct (Z.ltb_spec i n); [apply lookup_take_lt; lia|apply lookup_take_ge; lia].
Qed.

Lemma bget_drop n l i : 0 <= n -> 0 <= i -> bget (drop (Z.to_nat n) l) i = bget l (n + i).
Proof. intros Hn Hi. rewrite !bget_pos by lia. rewrite lookup_drop. f_equal. lia. Qed.

Lemma bget_insert j x l i :
  0 <= j < zlen l -> bget (<[Z.to_nat j := x]> l) i = if i =? j then Some x else bget l i.
Proof.
  intros Hj. destruct (Z.lt_ge_cases i 0).
  - rewrite !bget_neg by lia. case_match; [|done]. lia.
  - rewrite !bget_pos by lia. destruct (Z.eqb_spec i j) as [->|].
    + apply list_lookup_insert_eq. lia.
    + apply list_lookup_insert_ne. lia.
Qed.

Lemma bget_reverse l i : bget (reverse l) i = bget l (zlen l - 1 - i).
Proof.
  destruct (Z.lt_ge_cases i 0); [rewrite bget_neg, bget_beyond by lia; done|].
  destruct (Z.le_gt_cases (zlen l) i).
  - rewrite bget_beyond by (rewrite length_reverse; lia). by rewrite bget_neg by lia.
  - rewrite !bget_pos by lia. rewrite reverse_lookup by lia. f_equal. lia.
Qed.
End Get.

(** ** The block operations, index by index *)

Lemma cell_bget b i : 0 <= i -> cell b i = match bget b i with Some x => Ret x | None => Fault end.
Proof. intros H. by rewrite bget_pos. Qed.

Lemma cell_in b i : 0 <= i < zlen b -> exists x, cell b i = Ret x /\ bget b i = Some x.
Proof.
  intros H. destruct (bget_in b i H) as [x Hx]. exists x. by rewrite cell_bget, Hx by lia.
Qed.

Lemma cell_some b i x : bget b i = Some x -> cell b i = Ret x.
Proof. intros H. pose proof (bget_range _ _ _ H). by rewrite cell_bget, H by lia. Qed.

Lemma set_cell_spec b i x :
  0 <= i < zlen b ->
  exists b', set_cell b i x = Ret b' /\ zlen b' = zlen b /\
    forall j, bget b' j = if j =? i then Some x else bget b j.
Proof.
  intros H. unfold set_cell. rewrite (proj2 (Z.ltb_lt _ _)) by lia.
  eexists. split; [reflexivity|]. split; [by rewrite length_insert|].
  intros j. by apply bget_insert.
Qed.

(** A block with [n] cells of [s] copied over it at [d], from the cell [k] on. *)
Lemma splice_get (b s : list Z) d k n j :
  0 <= d -> 0 <= k -> 0 <= n -> d + n <= zlen b -> k + n <= zlen s ->
  bget (take (Z.to_nat d) b ++ take (Z.to_nat n) (drop (Z.to_nat k) s) ++ drop (Z.to_nat (d + n)) b) j
  = if (d <=? j) && (j <? d + n) then bget s (j - d + k) else bget b j.
Proof.
  intros. destruct (Z.lt_ge_cases j 0);
    [by rewrite !(bget_neg _ j), (proj2 (Z.leb_gt d j)) by lia|].
  rewrite !bget_app, !length_take, length_drop.
  destruct (Z.ltb_spec j (Z.of_nat (Z.to_nat d `min` length b))); simpl.
  - rewrite bget_take, (proj2 (Z.ltb_lt _ _)) by lia.
    by rewrite (proj2 (Z.leb_gt _ _)) by lia.
  - rewrite (proj2 (Z.leb_le d j)) by lia. simpl.
    destruct (Z.ltb_spec j (d + n)).
    + rewrite (proj2 (Z.ltb_lt _ _)) by lia.
      rewrite bget_take, (proj2 (Z.ltb_lt _ _)), bget_drop by lia. f_equal. lia.
    + rewrite (proj2 (Z.ltb_ge _ _)) by lia. rewrite bget_drop by lia. f_equal. lia.
Qed.

Lemma splice_zlen (b s : list Z) d k n :
  0 <= d -> 0 <= k -> 0 <= n -> d + n <= zlen b -> k + n <= zlen s ->
  zlen (take (Z.to_nat d) b ++ take (Z.to_nat n) (drop (Z.to_nat k) s) ++ drop (Z.to_nat (d + n)) b)
  = zlen b.
Proof. intros. rewrite !length_app, !length_take, !length_drop. lia. Qed.

Lemma memmove_spec b d s n :
  0 <= d -> 0 <= s -> 0 <= n -> d + n <= zlen b -> s + n <= zlen b ->
  exists b', memmove b d s n = Ret b' /\ zlen b' = zlen b /\
    forall j, bget b' j = if (d <=? j) && (j <? d + n) then bget b (j - d + s) else bget b j.
Proof.
  intros. unfold memmove. rewrite !(proj2 (Z.leb_le _ _)) by lia. eexists. split; [reflexivity|].
  split; [by apply splice_zlen|]. intros j. by apply splice_get.
Qed.

Lemma memcpy_spec dst src s n :
  0 <= s -> 0 <= n -> n <= zlen dst -> s + n <= zlen src ->
  exists b', memcpy dst src s n = Ret b' /\ zlen b' = zlen dst /\
    forall j, 0 <= j -> bget b' j = if j <? n then bget src (j + s) else bget dst j.
Proof.
  intros. unfold memcpy. rewrite !(proj2 (Z.leb_le _ _)) by lia. eexists. split; [reflexivity|].
  pose proof (splice_zlen dst src 0 s n) as Hl. pose proof (splice_get dst src 0 s n) as Hg.
  rewrite take_0, Z.add_0_l in *. simpl in Hl, Hg.
  split; [apply Hl; lia|]. intros j Hj. rewrite Hg by lia.
  rewrite (proj2 (Z.leb_le 0 j)) by lia. simpl. by rewrite Z.sub_0_r.
Qed.

(** ** Rounding up to a power of two

    The capacities of the deque and of the hash table are rounded up by
    smearing the highest set bit to the right.  [smeared s b n] says that the
    [s] highest bits of [n], from bit [b] down, are set. *)
Local Open Scope c_scope.

Definition smeared (s b n : Z) : Prop :=
  0 <= n /\ (forall i, 0 <= i -> b - s < i <= b -> Z.testbit n i = true) /\
  (forall i, b < i -> Z.testbit n i = false).

Lemma smeared_top n : 0 < n -> smeared 1 (Z.log2 n) n.
Proof.
  intros Hn. split; [lia|]. split.
  - intros i Hi0 Hi. replace i with (Z.log2 n) by lia. by apply Z.bit_log2.
  - intros i Hi. apply Z.bits_above_log2; lia.
Qed.

Lemma smeared_step s b n : 0 <= s -> smeared s b n -> smeared (s + s) b (n ||| n >>> s).
Proof.
  intros Hs (Hn & H1 & H2). split; [|split].
  - apply Z.lor_nonneg. split; [done|]. by apply Z.shiftr_nonneg.
  - intros i Hi0 Hi. rewrite Z.lor_spec, Z.shiftr_spec by done. apply orb_true_iff.
    destruct (Z.lt_ge_cases (b - s) i); [left; apply H1; lia|right; apply H1; lia].
  - intros i Hi. destruct (Z.lt_ge_cases i 0); [by rewrite Z.testbit_neg_r|].
    rewrite Z.lor_spec, Z.shiftr_spec by done. by rewrite !H2 by lia.
Qed.

Lemma smeared_ones s b n : 0 <= b < s -> smeared s b n -> n = Z.ones (b + 1).
Proof.
  intros Hb (Hn & H1 & H2). apply Z.bits_inj'. intros i Hi.
  destruct (Z.le_gt_cases i b).
  - rewrite H1 by lia. symmetry. apply Z.ones_spec_low. lia.
  - rewrite H2 by lia. symmetry. apply Z.ones_spec_high. lia.
Qed.

(** The shifts by 1, 2, 4, 8 and 16 of a 32-bit value. *)
Definition smear (n : Z) : Z :=
  let n := n ||| n >>> 1 in
  let n := n ||| n >>> 2 in
  let n := n ||| n >>> 4 in
  let n := n ||| n >>> 8 in
  n ||| n >>> 16.

Lemma smear_ones n : 0 < n < 2 ^ 32 -> smear n = Z.ones (Z.log2 n + 1).
Proof.
  intros Hn. apply (smeared_ones 32).
  - split; [apply Z.log2_nonneg|]. apply Z.log2_lt_pow2; lia.
  - unfold smear. change 32 with (16 + 16) at 1. apply smeared_step; [lia|].
    change 16 with (8 + 8) at 1. apply smeared_step; [lia|].
    change 8 with (4 + 4) at 1. apply smeared_step; [lia|].
    change 4 with (2 + 2) at 1. apply smeared_step; [lia|].
    change 2 with (1 + 1) at 1. apply smeared_step; [lia|]. apply smeared_top. lia.
Qed.

(** Smearing [n - 1] and adding one gives the least power of two from [n] on. *)
Lemma smear_succ n : 1 < n < 2 ^ 31 -> smear (n - 1) + 1 = 2 ^ Z.log2_up n.
Proof.
  intros Hn. rewrite smear_ones by lia. rewrite Z.ones_equiv, Z.log2_up_eqn by lia.
  unfold Z.succ, Z.pred. replace (n + -1) with (n - 1) by lia. lia.
Qed.

(** A power of two that holds [n]. *)
Lemma pow2_holds n : 0 <= n <= 2 ^ 31 -> 0 <= Z.log2_up n <= 31 /\ n <= 2 ^ Z.log2_up n.
Proof.
  intros Hn. split.
  - split; [apply Z.log2_up_nonneg|]. change 31 with (Z.log2_up (2 ^ 31)). apply Z.log2_up_le_mono. lia.
  - destruct (Z.eq_dec n 0) as [->|]; [done|]. destruct (Z.eq_dec n 1) as [->|]; [done|].
    apply Z.log2_up_spec. lia.
Qed.

(** ** Capacities *)

(** A power of two that a [size_t] holds. *)
Definition pow_cap (c : Z) : Prop := exists k, 0 <= k <= 31 /\ c = 2 ^ k.

Lemma pow_cap_bounds c : pow_cap c -> 0 < c <= 2 ^ 31.
Proof.
  intros (k & Hk & ->). split; [apply Z.pow_pos_nonneg; lia|]. apply Z.pow_le_mono_r; lia.
Qed.

(** [x & (c - 1)]. *)
Lemma land_pow c x : pow_cap c -> x &&& u32 (c - 1) = x mod c.
Proof.
  intros Hp. pose proof (pow_cap_bounds _ Hp). rewrite (wrap_id 32) by (unfold fits; lia).
  destruct Hp as (k & Hk & ->). replace (2 ^ k - 1) with (Z.ones k) by (rewrite Z.ones_equiv; lia).
  by rewrite Z.land_ones by lia.
Qed.

(** A smaller power of two divides the modulus of a machine word. *)
Lemma wrap_pow k x : 0 <= k <= 31 -> u32 x mod 2 ^ k = x mod 2 ^ k.
Proof.
  intros Hk. unfold wrap.
  replace (2 ^ 32) with (2 ^ k * 2 ^ (32 - k)) by (rewrite <-Z.pow_add_r by lia; f_equal; lia).
  rewrite Z.rem_mul_r by (try apply Z.pow_nonzero; try apply Z.pow_pos_nonneg; lia).
  rewrite Z.mul_comm, Z_mod_plus_full. apply Z.mod_mod. apply Z.pow_nonzero; lia.
Qed.

(** Doubling a capacity that is not the largest. *)
Lemma double_pow c : pow_cap c -> c <> 2 ^ 31 -> u32 (c <<< 1) = 2 * c /\ pow_cap (2 * c).
Proof.
  intros (k & Hk & ->) Hne. assert (k <> 31) by (intros ->; done).
  assert (2 * 2 ^ k = 2 ^ (k + 1)) as E by (rewrite Z.pow_add_r by lia; lia). rewrite E. split.
  - rewrite Z.shiftl_mul_pow2, <-Z.pow_add_r by lia. apply wrap_id.
    split; [apply Z.pow_nonneg; lia|]. apply Z.pow_lt_mono_r; lia.
  - exists (k + 1). split; [lia|done].
Qed.

(** The rounding the deque and the hash table share. *)
Lemma round_spec n : 0 <= n ->
  (if 2 ^ 31 <=? n then 2 ^ 31 else if n =? 0 then 1 else u32 (smear (n - 1) + 1)) = 2 ^ Z.min 31 (Z.log2_up n).
Proof.
  intros Hn. destruct (Z.leb_spec (2 ^ 31) n) as [Hm|Hm].
  - rewrite Z.min_l; [done|]. change 31 with (Z.log2_up (2 ^ 31)). by apply Z.log2_up_le_mono.
  - pose proof (pow2_holds n ltac:(lia)). rewrite Z.min_r by lia.
    destruct (Z.eqb_spec n 0) as [->|]; [done|]. destruct (Z.eq_dec n 1) as [->|]; [done|].
    rewrite smear_succ by lia.
    apply wrap_id. split; [apply Z.pow_nonneg; lia|]. apply Z.pow_lt_mono_r; lia.
Qed.
