(* ===== verification/CcDeque.v ===== *)
(** * Deque (src/components/Collections-C/src/cc_deque.c)

    A circular buffer whose capacity is a power of two: positions are masked
    with [capacity - 1].  The block is a list whose length is what the
    allocator gave; an access outside it is a [Fault].  [size_t] has 32 bits
    and [ARCH_64] is not defined, as on the target. *)

From S2P Require Import Prelude CMem CcArray.
Local Open Scope c_scope.

Definition MAX_POW_TWO : Z := 2 ^ 31.
Definition SIZEOF_DEQUE : Z := 32.

(** [memcpy(&dst[d], &src[s], n * sizeof(void* ))] between two blocks. *)
Definition memcpy_at (dst : list Z) (d : Z) (src : list Z) (s n : Z) : outcome (list Z) :=
  if (d + n <=? zlen dst) && (s + n <=? zlen src)
  then Ret (take (Z.to_nat d) dst ++ take (Z.to_nat n) (drop (Z.to_nat s) src)
            ++ drop (Z.to_nat (d + n)) dst)
  else Fault.

Section Deque.
Context {F : Type} `{HR : !Runtime F}.

Record cc_deque := mk_deque {
  dq_size : Z;
  dq_capacity : Z;
  dq_first : Z;
  dq_last : Z;
  dq_buffer : list Z;
}.

Definition dq_set_buffer (b : list Z) (d : cc_deque) : cc_deque :=
  mk_deque (dq_size d) (dq_capacity d) (dq_first d) (dq_last d) b.

Definition deque_result : Type := cc_stat * option Z * cc_deque.
Definition dq_fail (st : cc_stat) (d : cc_deque) : outcome deque_result := Ret (st, None, d).

(** [x & (capacity - 1)]. *)
Definition masked (d : cc_deque) (x : Z) : Z := u32 x &&& u32 (dq_capacity d - 1).

(** ** Construction and growth *)

Definition upper_pow_two (n : Z) : Z :=
  if MAX_POW_TWO <=? n then MAX_POW_TWO
  else if n =? 0 then 1
  else
    let n := n - 1 in
    let n := n ||| n >>> 1 in
    let n := n ||| n >>> 2 in
    let n := n ||| n >>> 4 in
    let n := n ||| n >>> 8 in
    let n := n ||| n >>> 16 in
    u32 (n + 1).

Definition cc_deque_new_conf (conf_capacity : Z) : option cc_deque * cc_stat :=
  match mem_calloc 1 SIZEOF_DEQUE, mem_alloc (u32 (conf_capacity * PTR)) with
  | None, _ | _, None => (None, CC_ERR_ALLOC)
  | Some _, Some buffer => (Some (mk_deque 0 (upper_pow_two conf_capacity) 0 0 buffer), CC_OK)
  end.

Definition cc_deque_new : option cc_deque * cc_stat := cc_deque_new_conf DEFAULT_CAPACITY.

(** [copy_buffer] without and with a copy function. *)
Definition copy_buffer (d : cc_deque) (buff : list Z) : outcome (list Z) :=
  if dq_first d <? dq_last d then memcpy buff (dq_buffer d) (dq_first d) (dq_size d)
  else
    let l := dq_last d in
    let e := u32 (dq_capacity d - dq_first d) in
    buff ← memcpy buff (dq_buffer d) (dq_first d) e;
    memcpy_at buff e (dq_buffer d) 0 l.

Fixpoint copy_with (n : nat) (i : Z) (cp : Z -> Z) (d : cc_deque) (buff : list Z) : outcome (list Z) :=
  match n with
  | O => Ret buff
  | S n =>
      x ← cell (dq_buffer d) (masked d (dq_first d + i));
      buff ← set_cell buff i (cp x);
      copy_with n (i + 1) cp d buff
  end.

Definition expand_capacity (d : cc_deque) : outcome (cc_stat * cc_deque) :=
  if dq_capacity d =? MAX_POW_TWO then Ret (CC_ERR_MAX_CAPACITY, d)
  else
    let new_capacity := u32 (dq_capacity d <<< 1) in
    match mem_calloc new_capacity PTR with
    | None => Ret (CC_ERR_ALLOC, d)
    | Some new_buffer =>
        b ← copy_buffer d new_buffer;
        Ret (CC_OK, mk_deque (dq_size d) new_capacity 0 (dq_size d) b)
    end.

(** The growth check of an insertion: whether there is no room, and the deque. *)
Definition no_room (full : bool) (d : cc_deque) : outcome (bool * cc_deque) :=
  if full then r ← expand_capacity d; Ret (negb (bool_decide (r.1 = CC_OK)), r.2)
  else Ret (false, d).

(** ** Insertion *)

Definition cc_deque_add_first (d : cc_deque) (element : Z) : outcome deque_result :=
  r ← no_room (dq_capacity d <=? dq_size d) d;
  if r.1 : bool then dq_fail CC_ERR_ALLOC r.2
  else
    let d := r.2 in
    let first := masked d (dq_first d - 1) in
    b ← set_cell (dq_buffer d) first element;
    Ret (CC_OK, None, mk_deque (u32 (dq_size d + 1)) (dq_capacity d) first (dq_last d) b).

Definition cc_deque_add_last (d : cc_deque) (element : Z) : outcome deque_result :=
  r ← no_room (dq_capacity d =? dq_size d) d;
  if r.1 : bool then dq_fail CC_ERR_ALLOC r.2
  else
    let d := r.2 in
    b ← set_cell (dq_buffer d) (dq_last d) element;
    Ret (CC_OK, None,
         mk_deque (u32 (dq_size d + 1)) (dq_capacity d) (dq_first d) (masked d (dq_last d + 1)) b).

Definition cc_deque_add (d : cc_deque) (element : Z) : outcome deque_result :=
  cc_deque_add_last d element.

(** The moves of [cc_deque_add_at] in the front half: the block afterwards. *)
Definition add_at_front (d : cc_deque) (index c f p : Z) : outcome (list Z) :=
  let b := dq_buffer d in
  if (p <? f) || (f =? 0) then
    let r_move := if negb (f =? 0) then u32 (c - f + 1) else 0 in
    e_first ← cell b 0;
    b ← (if negb (f =? 0) then memmove b (f - 1) f r_move else Ret b);
    b ← (if negb (p =? 0) then memmove b 0 1 p else Ret b);
    set_cell b c e_first
  else memmove b (f - 1) f index.

(** The same in the back half. *)
Definition add_at_back (d : cc_deque) (index c l p : Z) : outcome (list Z) :=
  let b := dq_buffer d in
  if (l <? p) || (l =? c) then
    e_last ← cell b c;
    b ← (if negb (p =? c) then memmove b (p + 1) p (u32 (c - p)) else Ret b);
    b ← (if negb (l =? c) then memmove b 1 0 (u32 (l + 1)) else Ret b);
    set_cell b 0 e_last
  else memmove b (p + 1) p (u32 (dq_size d - index)).

Definition cc_deque_add_at (d : cc_deque) (element index : Z) : outcome deque_result :=
  if dq_size d <=? index then dq_fail CC_ERR_OUT_OF_RANGE d
  else
    r ← no_room (dq_capacity d =? dq_size d) d;
    if r.1 : bool then dq_fail CC_ERR_ALLOC r.2
    else
      let d := r.2 in
      let c := u32 (dq_capacity d - 1) in
      let l := masked d (dq_last d) in
      let f := masked d (dq_first d) in
      let p := masked d (dq_first d + index) in
      if index =? 0 then cc_deque_add_first d element
      else if index =? c then cc_deque_add_last d element
      else if index <=? u32 (dq_size d / 2 - 1) then
        b ← add_at_front d index c f p;
        b ← set_cell b p element;
        Ret (CC_OK, None,
             mk_deque (u32 (dq_size d + 1)) (dq_capacity d) (masked d (dq_first d - 1)) (dq_last d) b)
      else
        b ← add_at_back d index c l p;
        b ← set_cell b p element;
        Ret (CC_OK, None,
             mk_deque (u32 (dq_size d + 1)) (dq_capacity d) (dq_first d) (masked d (dq_last d + 1)) b).

Definition cc_deque_replace_at (d : cc_deque) (element index : Z) : outcome deque_result :=
  if dq_size d <=? index then dq_fail CC_ERR_OUT_OF_RANGE d
  else
    let i := masked d (dq_first d + index) in
    x ← cell (dq_buffer d) i;
    b ← set_cell (dq_buffer d) i element;
    Ret (CC_OK, Some x, dq_set_buffer b d).

(** ** Removal *)

Definition cc_deque_remove_first (d : cc_deque) : outcome deque_result :=
  if dq_size d =? 0 then dq_fail CC_ERR_OUT_OF_RANGE d
  else
    element ← cell (dq_buffer d) (dq_first d);
    Ret (CC_OK, Some element,
         mk_deque (u32 (dq_size d - 1)) (dq_capacity d) (masked d (dq_first d + 1)) (dq_last d) (dq_buffer d)).

Definition cc_deque_remove_last (d : cc_deque) : outcome deque_result :=
  if dq_size d =? 0 then dq_fail CC_ERR_OUT_OF_RANGE d
  else
    let last := masked d (dq_last d - 1) in
    element ← cell (dq_buffer d) last;
    Ret (CC_OK, Some element,
         mk_deque (u32 (dq_size d - 1)) (dq_capacity d) (dq_first d) last (dq_buffer d)).

(** The moves of [cc_deque_remove_at] in the front half and in the back half. *)
Definition remove_at_front (d : cc_deque) (index c f p : Z) : outcome (list Z) :=
  let b := dq_buffer d in
  if p <? f then
    e ← cell b c;
    b ← (if negb (f =? c) then memmove b (f + 1) f (u32 (c - f)) else Ret b);
    b ← (if negb (p =? 0) then memmove b 1 0 p else Ret b);
    set_cell b 0 e
  else memmove b (f + 1) f index.

Definition remove_at_back (d : cc_deque) (c l p : Z) : outcome (list Z) :=
  let b := dq_buffer d in
  if l <? p then
    e ← cell b 0;
    b ← (if negb (p =? c) then memmove b p (p + 1) (u32 (c - p)) else Ret b);
    b ← (if negb (p =? 0) then memmove b 1 0 l else Ret b);
    set_cell b c e
  else memmove b p (p + 1) (u32 (l - p)).

Definition cc_deque_remove_at (d : cc_deque) (index : Z) : outcome deque_result :=
  if dq_size d <=? index then dq_fail CC_ERR_OUT_OF_RANGE d
  else
    let c := u32 (dq_capacity d - 1) in
    let l := masked d (dq_last d) in
    let f := masked d (dq_first d) in
    let p := masked d (dq_first d + index) in
    removed ← cell (dq_buffer d) p;
    if index =? 0 then cc_deque_remove_first d
    else if index =? c then cc_deque_remove_last d
    else if index <=? u32 (dq_size d / 2 - 1) then
      b ← remove_at_front d index c f p;
      Ret (CC_OK, Some removed,
           mk_deque (u32 (dq_size d - 1)) (dq_capacity d) (masked d (dq_first d + 1)) (dq_last d) b)
    else
      b ← remove_at_back d c l p;
      Ret (CC_OK, Some removed,
           mk_deque (u32 (dq_size d - 1)) (dq_capacity d) (dq_first d) (masked d (dq_last d - 1)) b).

Definition cc_deque_remove_all (d : cc_deque) : cc_deque :=
  mk_deque 0 (dq_capacity d) 0 0 (dq_buffer d).

(** ** Access *)

Definition cc_deque_get_at (d : cc_deque) (index : Z) : outcome deque_result :=
  if dq_size d <? index then dq_fail CC_ERR_OUT_OF_RANGE d
  else x ← cell (dq_buffer d) (masked d (dq_first d + index)); Ret (CC_OK, Some x, d).

Definition cc_deque_get_first (d : cc_deque) : outcome deque_result :=
  if dq_size d =? 0 then dq_fail CC_ERR_OUT_OF_RANGE d
  else x ← cell (dq_buffer d) (dq_first d); Ret (CC_OK, Some x, d).

Definition cc_deque_get_last (d : cc_deque) : outcome deque_result :=
  if dq_size d =? 0 then dq_fail CC_ERR_OUT_OF_RANGE d
  else x ← cell (dq_buffer d) (masked d (dq_last d - 1)); Ret (CC_OK, Some x, d).

(** The loop over the positions from the [i]th element on, [n] turns: [step]
    folds over the elements. *)
Fixpoint deque_loop {A} (step : Z -> A -> A) (n : nat) (i : Z) (d : cc_deque) (a : A) : outcome A :=
  match n with
  | O => Ret a
  | S n =>
      x ← cell (dq_buffer d) (masked d (dq_first d + i));
      deque_loop step n (i + 1) d (step x a)
  end.

Definition cc_deque_contains (d : cc_deque) (element : Z) : outcome Z :=
  deque_loop (fun x o => if x =? element then u32 (o + 1) else o) (Z.to_nat (dq_size d)) 0 d 0.

Definition cc_deque_contains_value (d : cc_deque) (element : Z) (cmp : Z -> Z -> Z) : outcome Z :=
  deque_loop (fun x o => if cmp x element =? 0 then u32 (o + 1) else o) (Z.to_nat (dq_size d)) 0 d 0.

Fixpoint deque_find (n : nat) (i : Z) (d : cc_deque) (element : Z) : outcome (option Z) :=
  match n with
  | O => Ret None
  | S n =>
      x ← cell (dq_buffer d) (masked d (dq_first d + i));
      if x =? element then Ret (Some i) else deque_find n (i + 1) d element
  end.

Definition cc_deque_index_of (d : cc_deque) (element : Z) : outcome deque_result :=
  r ← deque_find (Z.to_nat (dq_size d)) 0 d element;
  match r with Some i => Ret (CC_OK, Some i, d) | None => dq_fail CC_ERR_OUT_OF_RANGE d end.

Definition cc_deque_remove (d : cc_deque) (element : Z) : outcome deque_result :=
  r ← cc_deque_index_of d element;
  match r with
  | (CC_OK, Some index, _) => cc_deque_remove_at d index
  | (status, _, _) => dq_fail status d
  end.

Definition cc_deque_size (d : cc_deque) : Z := dq_size d.
Definition cc_deque_capacity (d : cc_deque) : Z := dq_capacity d.

(** The elements [cc_deque_foreach] calls its function with, in order. *)
Definition cc_deque_foreach (d : cc_deque) : outcome (list Z) :=
  deque_loop (fun x l => l ++ [x]) (Z.to_nat (dq_size d)) 0 d [].

(** The destructors that call back: the arguments of the calls, in order. *)
Definition cc_deque_remove_all_cb (d : cc_deque) : outcome (list Z * cc_deque) :=
  l ← cc_deque_foreach d; Ret (l, cc_deque_remove_all d).

Definition cc_deque_destroy_cb (d : cc_deque) : outcome (list Z) :=
  r ← cc_deque_remove_all_cb d; Ret r.1.

(** ** Whole-deque operations *)

Fixpoint deque_reverse_loop (n : nat) (i j : Z) (d : cc_deque) : outcome cc_deque :=
  match n with
  | O => Ret d
  | S n =>
      let f := masked d (dq_first d + i) in
      let l := masked d (dq_first d + j) in
      tmp ← cell (dq_buffer d) f;
      y ← cell (dq_buffer d) l;
      b ← set_cell (dq_buffer d) f y;
      b ← set_cell b l tmp;
      deque_reverse_loop n (i + 1) (j - 1) (dq_set_buffer b d)
  end.

Definition cc_deque_reverse (d : cc_deque) : outcome cc_deque :=
  deque_reverse_loop (Z.to_nat (dq_size d / 2)) 0 (dq_size d - 1) d.

Definition cc_deque_copy_shallow (d : cc_deque) : outcome (cc_stat * option cc_deque) :=
  match mem_alloc SIZEOF_DEQUE, mem_alloc (u32 (dq_capacity d * PTR)) with
  | None, _ | _, None => Ret (CC_ERR_ALLOC, None)
  | Some _, Some buffer =>
      b ← copy_buffer d buffer;
      Ret (CC_OK, Some (mk_deque (dq_size d) (dq_capacity d) 0 (dq_size d) b))
  end.

Definition cc_deque_copy_deep (d : cc_deque) (cp : Z -> Z) : outcome (cc_stat * option cc_deque) :=
  match mem_alloc SIZEOF_DEQUE, mem_alloc (u32 (dq_capacity d * PTR)) with
  | None, _ | _, None => Ret (CC_ERR_ALLOC, None)
  | Some _, Some buffer =>
      b ← copy_with (Z.to_nat (dq_size d)) 0 cp d buffer;
      Ret (CC_OK, Some (mk_deque (dq_size d) (dq_capacity d) 0 (dq_size d) b))
  end.

Definition cc_deque_trim_capacity (d : cc_deque) : outcome (cc_stat * cc_deque) :=
  if dq_capacity d =? dq_size d then Ret (CC_OK, d)
  else
    let new_size := upper_pow_two (dq_size d) in
    if new_size =? dq_capacity d then Ret (CC_OK, d)
    else
      match mem_alloc (u32 (PTR * new_size)) with
      | None => Ret (CC_ERR_ALLOC, d)
      | Some new_buff =>
          b ← copy_buffer d new_buff;
          Ret (CC_OK, mk_deque (dq_size d) new_size 0 (dq_size d) b)
      end.

(** Each turn of the loop of [cc_deque_filter_mut] drops an element or advances
    [i]; the status of the removal is ignored. *)
Fixpoint filter_mut_loop (fuel : nat) (i : Z) (pred : Z -> bool) (d : cc_deque) : outcome cc_deque :=
  match fuel with
  | O => Ret d
  | S fuel =>
      if i <? dq_size d then
        x ← cell (dq_buffer d) (masked d (dq_first d + i));
        if negb (pred x) then r ← cc_deque_remove_at d i; filter_mut_loop fuel i pred r.2
        else filter_mut_loop fuel (i + 1) pred d
      else Ret d
  end.

Definition cc_deque_filter_mut (d : cc_deque) (pred : Z -> bool) : outcome (cc_stat * cc_deque) :=
  if dq_size d =? 0 then Ret (CC_ERR_OUT_OF_RANGE, d)
  else d ← filter_mut_loop (Z.to_nat (dq_size d)) 0 pred d; Ret (CC_OK, d).

(** The status of each addition to the new deque is ignored. *)
Fixpoint filter_into (n : nat) (i : Z) (pred : Z -> bool) (d filtered : cc_deque) : outcome cc_deque :=
  match n with
  | O => Ret filtered
  | S n =>
      x ← cell (dq_buffer d) (masked d (dq_first d + i));
      if pred x then r ← cc_deque_add filtered x; filter_into n (i + 1) pred d r.2
      else filter_into n (i + 1) pred d filtered
  end.

Definition cc_deque_filter (d : cc_deque) (pred : Z -> bool) : outcome (cc_stat * option cc_deque) :=
  if dq_size d =? 0 then Ret (CC_ERR_OUT_OF_RANGE, None)
  else
    match cc_deque_new.1 with
    | None => Ret (CC_ERR_ALLOC, None)
    | Some filtered =>
        f ← filter_into (Z.to_nat (dq_size d)) 0 pred d filtered; Ret (CC_OK, Some f)
    end.

(** ** Iterators *)

Record cc_deque_iter := mk_dq_iter { di_deque : cc_deque; di_index : Z; di_last_removed : bool }.

Definition deque_iter_result : Type := cc_stat * option Z * cc_deque_iter.

Definition cc_deque_iter_init (d : cc_deque) : cc_deque_iter := mk_dq_iter d 0 false.

(** The end test shared by the iterators. *)
Definition at_end (d : cc_deque) (index : Z) : bool :=
  (masked d (dq_last d) =? masked d (dq_first d)) || (dq_size d <=? index).

Definition cc_deque_iter_next (it : cc_deque_iter) : outcome deque_iter_result :=
  let d := di_deque it in
  if at_end d (di_index it) then Ret (CC_ITER_END, None, it)
  else
    x ← cell (dq_buffer d) (masked d (dq_first d + di_index it));
    Ret (CC_OK, Some x, mk_dq_iter d (u32 (di_index it + 1)) false).

Definition cc_deque_iter_remove (it : cc_deque_iter) : outcome deque_iter_result :=
  if di_last_removed it then Ret (CC_ERR_VALUE_NOT_FOUND, None, it)
  else
    r ← cc_deque_remove_at (di_deque it) (u32 (di_index it - 1));
    let '(st, out, d) := r in
    if bool_decide (st = CC_OK) then Ret (st, out, mk_dq_iter d (u32 (di_index it - 1)) true)
    else Ret (st, None, mk_dq_iter d (di_index it) (di_last_removed it)).

Definition cc_deque_iter_add (it : cc_deque_iter) (element : Z) : outcome deque_iter_result :=
  r ← cc_deque_add_at (di_deque it) element (di_index it);
  let '(st, _, d) := r in
  Ret (st, None, mk_dq_iter d (if bool_decide (st = CC_OK) then u32 (di_index it + 1) else di_index it)
                   (di_last_removed it)).

Definition cc_deque_iter_replace (it : cc_deque_iter) (replacement : Z) : outcome deque_iter_result :=
  r ← cc_deque_replace_at (di_deque it) replacement (di_index it);
  let '(st, out, d) := r in
  Ret (st, out, mk_dq_iter d (di_index it) (di_last_removed it)).

Definition cc_deque_iter_index (it : cc_deque_iter) : Z := u32 (di_index it - 1).

Record cc_deque_zip_iter :=
  mk_dq_zip { dz_d1 : cc_deque; dz_d2 : cc_deque; dz_index : Z; dz_last_removed : bool }.

Definition deque_zip_result : Type := cc_stat * option (Z * Z) * cc_deque_zip_iter.

Definition cc_deque_zip_iter_init (d1 d2 : cc_deque) : cc_deque_zip_iter := mk_dq_zip d1 d2 0 false.

Definition cc_deque_zip_iter_next (it : cc_deque_zip_iter) : outcome deque_zip_result :=
  let d1 := dz_d1 it in
  let d2 := dz_d2 it in
  if at_end d1 (dz_index it) then Ret (CC_ITER_END, None, it)
  else if at_end d2 (dz_index it) then Ret (CC_ITER_END, None, it)
  else
    x ← cell (dq_buffer d1) (masked d1 (dq_first d1 + dz_index it));
    y ← cell (dq_buffer d2) (masked d2 (dq_first d2 + dz_index it));
    Ret (CC_OK, Some (x, y), mk_dq_zip d1 d2 (u32 (dz_index it + 1)) false).

Definition cc_deque_zip_iter_add (it : cc_deque_zip_iter) (e1 e2 : Z) : outcome deque_zip_result :=
  if (dq_size (dz_d1 it) <=? dz_index it) || (dq_size (dz_d2 it) <=? dz_index it)
  then Ret (CC_ERR_OUT_OF_RANGE, None, it)
  else
    r1 ← no_room (dq_capacity (dz_d1 it) =? dq_size (dz_d1 it)) (dz_d1 it);
    if r1.1 : bool
    then Ret (CC_ERR_ALLOC, None, mk_dq_zip r1.2 (dz_d2 it) (dz_index it) (dz_last_removed it))
    else
      r2 ← no_room (dq_capacity (dz_d2 it) =? dq_size (dz_d2 it)) (dz_d2 it);
      if r2.1 : bool
      then Ret (CC_ERR_ALLOC, None, mk_dq_zip r1.2 r2.2 (dz_index it) (dz_last_removed it))
      else
        s1 ← cc_deque_add_at r1.2 e1 (dz_index it);
        s2 ← cc_deque_add_at r2.2 e2 (dz_index it);
        Ret (CC_OK, None, mk_dq_zip s1.2 s2.2 (u32 (dz_index it + 1)) (dz_last_removed it)).

(** Whether the last pair returned is outside one of the deques. *)
Definition dq_zip_out (it : cc_deque_zip_iter) : bool :=
  (dq_size (dz_d1 it) <=? u32 (dz_index it - 1)) || (dq_size (dz_d2 it) <=? u32 (dz_index it - 1)).

Definition cc_deque_zip_iter_remove (it : cc_deque_zip_iter) : outcome deque_zip_result :=
  if dz_last_removed it then Ret (CC_ERR_VALUE_NOT_FOUND, None, it)
  else if dq_zip_out it then Ret (CC_ERR_OUT_OF_RANGE, None, it)
  else
    r1 ← cc_deque_remove_at (dz_d1 it) (u32 (dz_index it - 1));
    r2 ← cc_deque_remove_at (dz_d2 it) (u32 (dz_index it - 1));
    Ret (CC_OK, option_map (fun x => (x, default 0 r2.1.2)) r1.1.2,
         mk_dq_zip r1.2 r2.2 (u32 (dz_index it - 1)) true).

Definition cc_deque_zip_iter_replace (it : cc_deque_zip_iter) (e1 e2 : Z) : outcome deque_zip_result :=
  if dq_zip_out it then Ret (CC_ERR_OUT_OF_RANGE, None, it)
  else
    r1 ← cc_deque_replace_at (dz_d1 it) e1 (u32 (dz_index it - 1));
    r2 ← cc_deque_replace_at (dz_d2 it) e2 (u32 (dz_index it - 1));
    Ret (CC_OK, option_map (fun x => (x, default 0 r2.1.2)) r1.1.2,
         mk_dq_zip r1.2 r2.2 (dz_index it) (dz_last_removed it)).

Definition cc_deque_zip_iter_index (it : cc_deque_zip_iter) : Z := u32 (dz_index it - 1).
End Deque.
