(* ===== verification/CcDequeFacts.v ===== *)
(** * The deque as a list

    [dcontents] is the list a deque stands for.  The operations at the two
    ends, the reads and the whole-deque operations are steps of the list
    specification; insertion and removal in the middle are described exactly,
    where they agree with the list and where they do not. *)

From S2P Require Import Prelude CMem CcArray CcArrayFacts Blocks CcDeque.
Local Open Scope c_scope.

(** ** The shape of a deque *)

Lemma upper_pow_two_spec n : 0 <= n -> upper_pow_two n = 2 ^ Z.min 31 (Z.log2_up n).
Proof. exact (round_spec n). Qed.

(** ** The specification *)

Inductive dop :=
  | DAddFirst (x : Z) | DAddLast (x : Z) | DReplaceAt (x i : Z)
  | DRemoveFirst | DRemoveLast | DRemoveAll
  | DGetFirst | DGetLast | DIndexOf (x : Z) | DContains (x : Z) | DReverse.

Definition deque_list_step (op : dop) (l : list Z) : cc_stat * option Z * list Z :=
  match op, l with
  | DAddFirst x, _ => (CC_OK, None, x :: l)
  | DAddLast x, _ => (CC_OK, None, l ++ [x])
  | DReplaceAt x i, _ =>
      match bget l i with
      | Some y => (CC_OK, Some y, <[Z.to_nat i := x]> l)
      | None => (CC_ERR_OUT_OF_RANGE, None, l)
      end
  | DRemoveAll, _ => (CC_OK, None, [])
  | DRemoveFirst, x :: l' => (CC_OK, Some x, l')
  | DRemoveLast, _ :: _ => (CC_OK, list.last l, removelast l)
  | DGetFirst, x :: _ => (CC_OK, Some x, l)
  | DGetLast, _ :: _ => (CC_OK, list.last l, l)
  | DRemoveFirst, [] | DRemoveLast, [] | DGetFirst, [] | DGetLast, [] =>
      (CC_ERR_OUT_OF_RANGE, None, l)
  | DIndexOf x, _ =>
      match index_of x l with
      | Some i => (CC_OK, Some (Z.of_nat i), l)
      | None => (CC_ERR_OUT_OF_RANGE, None, l)
      end
  | DContains x, _ => (CC_OK, Some (Z.of_nat (countb (fun y => y =? x) l)), l)
  | DReverse, _ => (CC_OK, None, reverse l)
  end.

Definition is_add (op : dop) : bool := match op with DAddFirst _ | DAddLast _ => true | _ => false end.

Section Facts.
Context {F : Type} `{HR : !Runtime F} `{HL : !RuntimeLaws F}.
Implicit Types d : cc_deque.

Definition deque_step (op : dop) d : outcome (cc_stat * option Z * cc_deque) :=
  match op with
  | DAddFirst x => cc_deque_add_first d x
  | DAddLast x => cc_deque_add_last d x
  | DReplaceAt x i => cc_deque_replace_at d x i
  | DRemoveFirst => cc_deque_remove_first d
  | DRemoveLast => cc_deque_remove_last d
  | DRemoveAll => Ret (CC_OK, None, cc_deque_remove_all d)
  | DGetFirst => cc_deque_get_first d
  | DGetLast => cc_deque_get_last d
  | DIndexOf x => cc_deque_index_of d x
  | DContains x => n ← cc_deque_contains d x; Ret (CC_OK, Some n, d)
  | DReverse => d ← cc_deque_reverse d; Ret (CC_OK, None, d)
  end.

(** Where the [i]th element is. *)
Definition dpos d (i : Z) : Z :=
  let p := dq_first d + i in if p <? dq_capacity d then p else p - dq_capacity d.

Record deque_wf d : Prop := {
  dwf_pow : pow_cap (dq_capacity d);
  dwf_block : zlen (dq_buffer d) = dq_capacity d;
  dwf_first : 0 <= dq_first d < dq_capacity d;
  dwf_size : 0 <= dq_size d <= dq_capacity d;
  dwf_last : dq_last d = dpos d (dq_size d);
}.

Definition dcontents d : list Z :=
  take (Z.to_nat (dq_size d))
    (drop (Z.to_nat (dq_first d)) (dq_buffer d) ++ take (Z.to_nat (dq_first d)) (dq_buffer d)).

Lemma masked_mod d x : pow_cap (dq_capacity d) -> masked d x = x mod dq_capacity d.
Proof.
  intros Hp. unfold masked. rewrite land_pow by done. destruct Hp as (k & Hk & ->). by apply wrap_pow.
Qed.

Lemma masked_near d x :
  pow_cap (dq_capacity d) -> - dq_capacity d <= x < 2 * dq_capacity d ->
  masked d x = if x <? 0 then x + dq_capacity d
               else if x <? dq_capacity d then x else x - dq_capacity d.
Proof.
  intros Hp Hx. rewrite masked_mod by done. pose proof (pow_cap_bounds _ Hp). zcases.
  - rewrite <-(Z_mod_plus_full _ 1), Z.mod_small; lia.
  - by rewrite Z.mod_small.
  - rewrite <-(Z_mod_plus_full _ (-1)), Z.mod_small; lia.
Qed.

Lemma wf_last_eq d :
  deque_wf d ->
  dq_last d = if dq_first d + dq_size d <? dq_capacity d then dq_first d + dq_size d
              else dq_first d + dq_size d - dq_capacity d.
Proof. by intros [? ? ? ? ->]. Qed.

Lemma masked_pos d i : deque_wf d -> 0 <= i <= dq_size d -> masked d (dq_first d + i) = dpos d i.
Proof.
  intros [Hp Hb Hf Hs _] Hi. pose proof (pow_cap_bounds _ Hp). rewrite masked_near by done || lia.
  unfold dpos. zcases.
Qed.

Lemma dpos_range d i : deque_wf d -> 0 <= i <= dq_size d -> 0 <= dpos d i < zlen (dq_buffer d).
Proof. intros [Hp Hb Hf Hs _] Hi. unfold dpos. zcases. Qed.

Lemma dcontents_zlen d : deque_wf d -> zlen (dcontents d) = dq_size d.
Proof.
  intros [Hp Hb Hf Hs _]. unfold dcontents.
  rewrite length_take, length_app, length_drop, length_take. lia.
Qed.

Lemma dget d i :
  deque_wf d ->
  bget (dcontents d) i = if (0 <=? i) && (i <? dq_size d) then bget (dq_buffer d) (dpos d i) else None.
Proof.
  intros [Hp Hb Hf Hs _]. unfold dcontents. rewrite bget_take, bget_app, length_drop.
  destruct (Z.leb_spec 0 i); simpl; [|rewrite !bget_neg by lia; zcases].
  destruct (Z.ltb_spec i (dq_size d)); [|done]. unfold dpos.
  destruct (Z.ltb_spec i (Z.of_nat (length (dq_buffer d) - Z.to_nat (dq_first d)))).
  - rewrite bget_drop by lia. zcases.
  - rewrite bget_take. zcases.
Qed.

(** The contents of a deque, given index by index. *)
Lemma dcontents_is d l :
  deque_wf d -> zlen l = dq_size d ->
  (forall i, 0 <= i < dq_size d -> bget (dq_buffer d) (dpos d i) = bget l i) -> dcontents d = l.
Proof.
  intros Hw Hl H. apply bget_ext. intros i. rewrite dget by done.
  destruct (Z.leb_spec 0 i); simpl; [|by rewrite bget_neg].
  destruct (Z.ltb_spec i (dq_size d)); [by apply H; lia|]. by rewrite bget_beyond by lia.
Qed.

Lemma dget_in d i x :
  deque_wf d -> bget (dcontents d) i = Some x -> bget (dq_buffer d) (dpos d i) = Some x /\ 0 <= i < dq_size d.
Proof.
  intros Hw. rewrite dget by done. destruct (Z.leb_spec 0 i), (Z.ltb_spec i (dq_size d)); done || auto with lia.
Qed.

(** The element at a live index, and reading it. *)
Lemma dcell d i :
  deque_wf d -> 0 <= i < dq_size d ->
  exists x, bget (dcontents d) i = Some x /\ cell (dq_buffer d) (masked d (dq_first d + i)) = Ret x.
Proof.
  intros Hw Hi. pose proof (dpos_range d i Hw ltac:(lia)).
  destruct (bget_in (dcontents d) i) as [x Hx]; [rewrite dcontents_zlen; lia || done|].
  exists x. split; [done|]. rewrite masked_pos by done || lia.
  apply cell_some, dget_in; done.
Qed.

(** ** Growth *)

Lemma memcpy_at_spec dst o src s n :
  0 <= o -> 0 <= s -> 0 <= n -> o + n <= zlen dst -> s + n <= zlen src ->
  exists b', memcpy_at dst o src s n = Ret b' /\ zlen b' = zlen dst /\
    forall j, bget b' j = if (o <=? j) && (j <? o + n) then bget src (j - o + s) else bget dst j.
Proof.
  intros. unfold memcpy_at. rewrite !(proj2 (Z.leb_le _ _)) by lia. eexists. split; [reflexivity|].
  split; [by apply splice_zlen|]. intros j. by apply splice_get.
Qed.

(** Copying the deque to the front of a block: in order, unless it is empty. *)
Lemma copy_buffer_spec d buff :
  deque_wf d -> 0 < dq_size d <= zlen buff ->
  exists b, copy_buffer d buff = Ret b /\ zlen b = zlen buff /\
    forall i, 0 <= i < dq_size d -> bget b i = bget (dcontents d) i.
Proof.
  intros Hw Hs. pose proof (wf_last_eq d Hw) as Hl. pose proof Hw as [Hp Hb Hf Hsz _].
  pose proof (pow_cap_bounds _ Hp). unfold copy_buffer. destruct (Z.ltb_spec (dq_first d) (dq_last d)) as [E|E].
  - destruct (memcpy_spec buff (dq_buffer d) (dq_first d) (dq_size d)) as (b & -> & Hn & Hg);
      [revert E; rewrite Hl; zcases..|].
    exists b. split_and!; [done..|]. intros i Hi. rewrite Hg, dget by done || lia. unfold dpos.
    revert E. rewrite Hl. zcases.
  - rewrite (wrap_id 32) by (unfold fits; lia).
    destruct (memcpy_spec buff (dq_buffer d) (dq_first d) (dq_capacity d - dq_first d)) as (b1 & -> & Hn1 & Hg1);
      [revert E; rewrite Hl; zcases..|]. rewrite bind_Ret.
    destruct (memcpy_at_spec b1 (dq_capacity d - dq_first d) (dq_buffer d) 0 (dq_last d)) as (b & -> & Hn & Hg);
      [revert E; rewrite ?Hl; zcases..|].
    exists b. split_and!; [done|lia|]. intros i Hi. rewrite Hg, Hg1, dget by done || lia. unfold dpos.
    revert E. rewrite Hl. zcases.
Qed.

(** A full deque that cannot grow. *)
Definition starved d : Prop :=
  dq_size d = dq_capacity d /\
  (dq_capacity d = MAX_POW_TWO \/ mem_calloc (u32 (dq_capacity d <<< 1)) PTR = None).

Lemma expand_spec d :
  deque_wf d -> dq_size d = dq_capacity d ->
  (exists st, expand_capacity d = Ret (st, d) /\ st <> CC_OK /\ starved d) \/
  (exists d', expand_capacity d = Ret (CC_OK, d') /\ deque_wf d' /\
     dcontents d' = dcontents d /\ dq_size d' = dq_size d /\ dq_size d' < dq_capacity d').
Proof using HL.
  intros Hw Hfull. pose proof Hw as [Hp Hb Hf Hs _]. pose proof (pow_cap_bounds _ Hp).
  unfold expand_capacity, starved. destruct (Z.eqb_spec (dq_capacity d) MAX_POW_TWO) as [E|E].
  - left. eexists. split; [reflexivity|]. split; [done|]. by auto.
  - cbv zeta. set (c := u32 _). destruct (mem_calloc c PTR) as [nb|] eqn:Ea;
      [|left; eexists; split; [reflexivity|]; split; [done|]; by auto].
    right. apply calloc_size in Ea as [Hn _]. unfold PTR in Hn. rewrite Z.div_mul in Hn by lia.
    destruct (double_pow _ Hp E) as [Hc Hpc]. fold c in Hc. rewrite <-Hc in Hpc.
    destruct (copy_buffer_spec d nb Hw) as (b & -> & Hbl & Hg); [lia|].
    rewrite bind_Ret. eexists. split; [reflexivity|].
    assert (deque_wf (mk_deque (dq_size d) c 0 (dq_size d) b)) as Hw'.
    { split; unfold dpos; simpl; try done || lia. zcases. }
    split_and!; [done| |done|simpl; lia].
    apply dcontents_is; [done|by rewrite dcontents_zlen|]. simpl. intros i Hi.
    rewrite <-Hg by done. unfold dpos. simpl. zcases.
Qed.

Lemma room_spec d :
  deque_wf d ->
  (no_room (dq_capacity d =? dq_size d) d = Ret (true, d) /\ starved d) \/
  (exists d', no_room (dq_capacity d =? dq_size d) d = Ret (false, d') /\ deque_wf d' /\
     dcontents d' = dcontents d /\ dq_size d' = dq_size d /\ dq_size d' < dq_capacity d').
Proof using HL.
  intros Hw. unfold no_room. destruct (Z.eqb_spec (dq_capacity d) (dq_size d)) as [E|E].
  - destruct (expand_spec d Hw (eq_sym E)) as [(st & -> & Hst & Hv)|(d' & -> & H)]; rewrite bind_Ret; simpl.
    + left. by rewrite bool_decide_eq_false_2.
    + right. by exists d'.
  - right. exists d. destruct Hw. split_and!; done || lia.
Qed.

(** The growth check of [cc_deque_add_first] is the same. *)
Lemma room_le d : deque_wf d -> (dq_capacity d <=? dq_size d) = (dq_capacity d =? dq_size d).
Proof. intros []. zcases. Qed.

(** ** Simulation, operation by operation *)

Definition dsimulates (op : dop) d : Prop :=
  exists st out d', deque_step op d = Ret (st, out, d') /\
    ((st = CC_ERR_ALLOC /\ out = None /\ d' = d /\ starved d /\ is_add op = true) \/
     (deque_wf d' /\ deque_list_step op (dcontents d) = (st, out, dcontents d'))).

Lemma sim_done op d st out d' :
  deque_step op d = Ret (st, out, d') -> deque_wf d' ->
  deque_list_step op (dcontents d) = (st, out, dcontents d') -> dsimulates op d.
Proof. intros H1 H2 H3. exists st, out, d'. auto. Qed.

Lemma sim_starved op d :
  deque_step op d = Ret (CC_ERR_ALLOC, None, d) -> starved d -> is_add op = true -> dsimulates op d.
Proof. intros H1 H2 H3. exists CC_ERR_ALLOC, None, d. auto 9. Qed.

Lemma size_bound d : deque_wf d -> 0 <= dq_size d <= 2 ^ 31.
Proof. intros [Hp ? ? ? ?]. pose proof (pow_cap_bounds _ Hp). lia. Qed.

Lemma u32_size d : deque_wf d -> u32 (dq_size d) = dq_size d /\ u32 (dq_size d + 1) = dq_size d + 1.
Proof. intros Hw. pose proof (size_bound d Hw). split; apply wrap_id; unfold fits; lia. Qed.

Lemma add_first_room d x :
  deque_wf d -> dq_size d < dq_capacity d ->
  exists b, set_cell (dq_buffer d) (masked d (dq_first d - 1)) x = Ret b /\
    let d' := mk_deque (u32 (dq_size d + 1)) (dq_capacity d) (masked d (dq_first d - 1)) (dq_last d) b in
    deque_wf d' /\ dcontents d' = x :: dcontents d.
Proof.
  intros Hw Hr. destruct (u32_size d Hw) as [_ Hu]. pose proof Hw as [Hp Hb Hf Hs Hl].
  pose proof (pow_cap_bounds _ Hp). pose proof (masked_near d (dq_first d - 1) Hp ltac:(lia)) as Em.
  destruct (set_cell_spec (dq_buffer d) (masked d (dq_first d - 1)) x) as (b & -> & Hbl & Hg);
    [rewrite Em; zcases|].
  exists b. split; [done|]. cbv zeta.
  assert (deque_wf (mk_deque (u32 (dq_size d + 1)) (dq_capacity d) (masked d (dq_first d - 1)) (dq_last d) b)) as Hw'.
  { split; unfold dpos; simpl; rewrite ?Hu, ?(wf_last_eq d Hw), ?Em; try lia || done; zcases. }
  split; [done|]. apply dcontents_is; [done|rewrite zlen_cons, dcontents_zlen by done; simpl; lia|].
  simpl. rewrite Hu. intros i Hi. rewrite Hg, bget_cons, dget by done. unfold dpos. simpl. rewrite Em. zcases.
Qed.

Lemma add_last_room d x :
  deque_wf d -> dq_size d < dq_capacity d ->
  exists b, set_cell (dq_buffer d) (dq_last d) x = Ret b /\
    let d' := mk_deque (u32 (dq_size d + 1)) (dq_capacity d) (dq_first d) (masked d (dq_last d + 1)) b in
    deque_wf d' /\ dcontents d' = dcontents d ++ [x].
Proof.
  intros Hw Hr. destruct (u32_size d Hw) as [_ Hu]. pose proof Hw as [Hp Hb Hf Hs _].
  pose proof (wf_last_eq d Hw) as Hl. pose proof (pow_cap_bounds _ Hp).
  destruct (set_cell_spec (dq_buffer d) (dq_last d) x) as (b & -> & Hbl & Hg); [rewrite Hl; zcases|].
  exists b. split; [done|]. cbv zeta.
  assert (masked d (dq_last d + 1) = if dq_last d + 1 <? dq_capacity d then dq_last d + 1 else 0) as Em.
  { rewrite masked_near by (done || (rewrite Hl; zcases)). rewrite Hl. zcases. }
  assert (deque_wf (mk_deque (u32 (dq_size d + 1)) (dq_capacity d) (dq_first d) (masked d (dq_last d + 1)) b)) as Hw'.
  { split; unfold dpos; simpl; rewrite ?Hu, ?Em, ?Hl; try lia || done; zcases. }
  split; [done|]. apply dcontents_is; [done|rewrite zlen_app, dcontents_zlen by done; simpl; lia|].
  simpl. rewrite Hu. intros i Hi. rewrite Hg, bget_app, bget_cons, dcontents_zlen, dget by done.
  unfold dpos. simpl. rewrite Hl. zcases.
Qed.

Lemma sim_add_first d x : deque_wf d -> dsimulates (DAddFirst x) d.
Proof using HL.
  intros Hw. destruct (room_spec d Hw) as [(E & Hv)|(d1 & E & Hw1 & Hc & Hs & Hr)].
  - apply sim_starved; [|done..]. simpl. unfold cc_deque_add_first. by rewrite room_le, E.
  - destruct (add_first_room d1 x Hw1 Hr) as (b & Eb & Hw' & Hc').
    eapply sim_done; [simpl; unfold cc_deque_add_first; rewrite room_le, E by done; simpl; rewrite Eb; reflexivity|done|].
    simpl. by rewrite Hc', Hc.
Qed.

Lemma sim_add_last d x : deque_wf d -> dsimulates (DAddLast x) d.
Proof using HL.
  intros Hw. destruct (room_spec d Hw) as [(E & Hv)|(d1 & E & Hw1 & Hc & Hs & Hr)].
  - apply sim_starved; [|done..]. simpl. unfold cc_deque_add_last. by rewrite E.
  - destruct (add_last_room d1 x Hw1 Hr) as (b & Eb & Hw' & Hc').
    eapply sim_done; [simpl; unfold cc_deque_add_last; rewrite E; simpl; rewrite Eb; reflexivity|done|].
    simpl. by rewrite Hc', Hc.
Qed.

(** Storing into the cell of a live element. *)
Lemma store_spec d i x :
  deque_wf d -> 0 <= i < dq_size d ->
  exists b, set_cell (dq_buffer d) (dpos d i) x = Ret b /\
    deque_wf (dq_set_buffer b d) /\
    dcontents (dq_set_buffer b d) = <[Z.to_nat i := x]> (dcontents d).
Proof.
  intros Hw Hi. pose proof (dpos_range d i Hw ltac:(lia)) as Hpos. pose proof Hw as [Hp Hb Hf Hs Hl].
  destruct (set_cell_spec (dq_buffer d) (dpos d i) x Hpos) as (b & -> & Hbl & Hg).
  exists b. split; [done|].
  assert (deque_wf (dq_set_buffer b d)) as Hw' by (split; simpl; done || congruence).
  split; [done|]. apply dcontents_is; [done|by rewrite length_insert, dcontents_zlen|].
  simpl. intros j Hj. rewrite Hg, bget_insert, dget by (try rewrite dcontents_zlen; done || lia).
  unfold dpos. simpl. zcases.
Qed.

Lemma replace_run d x i :
  deque_wf d -> 0 <= i < dq_size d ->
  exists y d', cc_deque_replace_at d x i = Ret (CC_OK, Some y, d') /\ bget (dcontents d) i = Some y /\
    deque_wf d' /\ dcontents d' = <[Z.to_nat i := x]> (dcontents d).
Proof.
  intros Hw Hi. destruct (dcell d i Hw Hi) as (y & Hy & Hc).
  destruct (store_spec d i x Hw Hi) as (b & Hb & Hw' & Hc').
  unfold cc_deque_replace_at. rewrite (proj2 (Z.leb_gt _ _)) by lia.
  rewrite Hc, bind_Ret, masked_pos, Hb by done || lia. eexists y, _. split_and!; done.
Qed.

Lemma dsim_replace_at d x i : deque_wf d -> fits 32 i -> dsimulates (DReplaceAt x i) d.
Proof.
  intros Hw Hi. unfold fits in Hi. destruct (Z.lt_ge_cases i (dq_size d)) as [E|E].
  - destruct (replace_run d x i Hw ltac:(lia)) as (y & d' & Er & Hy & Hw' & Hc).
    eapply sim_done; [exact Er|done|]. simpl. by rewrite Hy, Hc.
  - eapply sim_done; [|exact Hw|].
    + simpl. unfold cc_deque_replace_at. by rewrite (proj2 (Z.leb_le _ _) E).
    + simpl. by rewrite bget_beyond by (rewrite dcontents_zlen; done).
Qed.

Lemma dcontents_empty d : deque_wf d -> dq_size d = 0 -> dcontents d = [].
Proof. intros Hw Hs. apply nil_length_inv. pose proof (dcontents_zlen d Hw). lia. Qed.

Lemma dcontents_ends d :
  deque_wf d -> dq_size d <> 0 ->
  exists x l y, dcontents d = x :: l /\ list.last (x :: l) = Some y /\
    cell (dq_buffer d) (dq_first d) = Ret x /\ cell (dq_buffer d) (masked d (dq_last d - 1)) = Ret y.
Proof.
  intros Hw Hs. pose proof Hw as [Hp Hb Hf Hsz Hl]. pose proof (pow_cap_bounds _ Hp).
  destruct (dcell d 0 Hw ltac:(lia)) as (x & Hx & Hcx).
  destruct (dcell d (dq_size d - 1) Hw ltac:(lia)) as (y & Hy & Hcy).
  pose proof (dcontents_zlen d Hw) as Hz.
  destruct (dcontents d) as [|x' l] eqn:E; [simpl in Hz; lia|].
  rewrite bget_cons in Hx. injection Hx as ->.
  exists x, l, y. split; [done|]. split; [|split].
  - rewrite bget_pos in Hy by lia. rewrite last_lookup, <-Hy. f_equal. lia.
  - rewrite Z.add_0_r, masked_near in Hcx by done || lia. revert Hcx. zcases.
  - rewrite <-Hcy. f_equal. rewrite !masked_near by (done || (rewrite ?Hl; unfold dpos; zcases)).
    rewrite Hl. unfold dpos. zcases.
Qed.

Lemma sim_get_first d : deque_wf d -> dsimulates DGetFirst d.
Proof.
  intros Hw. destruct (Z.eqb_spec (dq_size d) 0) as [E|E].
  - eapply sim_done; [simpl; unfold cc_deque_get_first; by rewrite E|done|].
    simpl. by rewrite dcontents_empty.
  - destruct (dcontents_ends d Hw E) as (x & l & y & Hc & _ & Hx & _).
    eapply sim_done; [simpl; unfold cc_deque_get_first; rewrite (proj2 (Z.eqb_neq _ _) E), Hx; reflexivity|done|].
    simpl. by rewrite Hc.
Qed.

Lemma dsim_get_last d : deque_wf d -> dsimulates DGetLast d.
Proof.
  intros Hw. destruct (Z.eqb_spec (dq_size d) 0) as [E|E].
  - eapply sim_done; [simpl; unfold cc_deque_get_last; by rewrite E|done|].
    simpl. by rewrite dcontents_empty.
  - destruct (dcontents_ends d Hw E) as (x & l & y & Hc & Hla & _ & Hy).
    eapply sim_done; [simpl; unfold cc_deque_get_last; rewrite (proj2 (Z.eqb_neq _ _) E), Hy; reflexivity|done|].
    simpl. by rewrite Hc, Hla.
Qed.

Lemma u32_pred d : deque_wf d -> dq_size d <> 0 -> u32 (dq_size d - 1) = dq_size d - 1.
Proof. intros Hw Hs. pose proof (size_bound d Hw). apply wrap_id. unfold fits. lia. Qed.

Lemma shrink_first d :
  deque_wf d -> dq_size d <> 0 ->
  let d' := mk_deque (u32 (dq_size d - 1)) (dq_capacity d) (masked d (dq_first d + 1)) (dq_last d) (dq_buffer d) in
  deque_wf d' /\ dcontents d' = tail (dcontents d).
Proof.
  intros Hw Hs d'. pose proof Hw as [Hp Hb Hf Hsz Hl]. pose proof (pow_cap_bounds _ Hp).
  pose proof (masked_near d (dq_first d + 1) Hp ltac:(lia)) as Em.
  assert (deque_wf d') as Hw'.
  { unfold d'. split; unfold dpos; simpl; rewrite ?Em, ?Hl, ?u32_pred by done;
      unfold dpos; try lia || done; zcases. }
  split; [done|]. pose proof (dcontents_zlen d Hw) as Hz.
  destruct (dcontents d) as [|x l] eqn:E; [simpl in Hz; lia|]. rewrite zlen_cons in Hz.
  apply dcontents_is; [done|simpl; rewrite u32_pred by done; lia|].
  intros i Hi. simpl in *. rewrite u32_pred in Hi by done.
  transitivity (bget (dcontents d) (i + 1)).
  - rewrite dget by done. unfold dpos. simpl. rewrite Em. zcases.
  - rewrite E, bget_cons. zcases.
Qed.

Lemma shrink_last d :
  deque_wf d -> dq_size d <> 0 ->
  let d' := mk_deque (u32 (dq_size d - 1)) (dq_capacity d) (dq_first d) (masked d (dq_last d - 1)) (dq_buffer d) in
  deque_wf d' /\ dcontents d' = removelast (dcontents d).
Proof.
  intros Hw Hs d'. pose proof Hw as [Hp Hb Hf Hsz Hl]. pose proof (pow_cap_bounds _ Hp).
  assert (masked d (dq_last d - 1) = if dq_last d - 1 <? 0 then dq_capacity d - 1 else dq_last d - 1) as Em.
  { rewrite masked_near by (done || (rewrite Hl; unfold dpos; zcases)). rewrite Hl. unfold dpos. zcases. }
  assert (deque_wf d') as Hw'.
  { unfold d'. split; unfold dpos; simpl; rewrite ?Em, ?Hl, ?u32_pred by done;
      unfold dpos; try lia || done; zcases. }
  split; [done|]. pose proof (dcontents_zlen d Hw) as Hz. rewrite removelast_firstn_len.
  apply dcontents_is; [done|simpl; rewrite u32_pred by done; rewrite length_take; lia|].
  intros i Hi. simpl in *. rewrite u32_pred in Hi by done.
  replace (Init.Nat.pred _) with (Z.to_nat (dq_size d - 1)) by lia.
  rewrite bget_take, dget by done. unfold dpos. simpl. zcases.
Qed.

Lemma sim_remove_first d : deque_wf d -> dsimulates DRemoveFirst d.
Proof.
  intros Hw. destruct (Z.eqb_spec (dq_size d) 0) as [E|E].
  - eapply sim_done; [simpl; unfold cc_deque_remove_first; by rewrite E|done|].
    simpl. by rewrite dcontents_empty.
  - destruct (dcontents_ends d Hw E) as (x & l & y & Hc & _ & Hx & _).
    destruct (shrink_first d Hw E) as [Hw' Hc'].
    eapply sim_done; [simpl; unfold cc_deque_remove_first; rewrite (proj2 (Z.eqb_neq _ _) E), Hx; reflexivity|done|].
    by rewrite Hc', Hc.
Qed.

Lemma dsim_remove_last d : deque_wf d -> dsimulates DRemoveLast d.
Proof.
  intros Hw. destruct (Z.eqb_spec (dq_size d) 0) as [E|E].
  - eapply sim_done; [simpl; unfold cc_deque_remove_last; by rewrite E|done|].
    simpl. by rewrite dcontents_empty.
  - destruct (dcontents_ends d Hw E) as (x & l & y & Hc & Hla & _ & Hy).
    destruct (shrink_last d Hw E) as [Hw' Hc'].
    eapply sim_done; [simpl; unfold cc_deque_remove_last; rewrite (proj2 (Z.eqb_neq _ _) E), Hy; reflexivity|done|].
    rewrite Hc', Hc. simpl. by rewrite <-Hla.
Qed.

Lemma dsim_remove_all d : deque_wf d -> dsimulates DRemoveAll d.
Proof.
  intros [Hp Hb Hf Hs Hl]. pose proof (pow_cap_bounds _ Hp).
  eapply sim_done; [reflexivity| |done]. split; unfold dpos; simpl; try lia || done. zcases.
Qed.

(** ** Loops *)

Lemma drop_bget (l : list Z) i x :
  bget l i = Some x -> drop (Z.to_nat i) l = x :: drop (Z.to_nat (i + 1)) l.
Proof.
  intros H. pose proof (bget_range _ _ _ H). rewrite bget_pos in H by lia.
  replace (Z.to_nat (i + 1)) with (S (Z.to_nat i)) by lia. by apply drop_S.
Qed.

(** The loop over the elements from the [i]th on folds over the contents. *)
Lemma deque_loop_spec {A} (step : Z -> A -> A) n i d a :
  deque_wf d -> 0 <= i -> i + Z.of_nat n = dq_size d ->
  deque_loop step n i d a = Ret (foldl (fun a x => step x a) a (drop (Z.to_nat i) (dcontents d))).
Proof.
  intros Hw. revert i a. induction n as [|n IH]; intros i a Hi Hn; cbn [deque_loop].
  - rewrite drop_ge; [done|]. pose proof (dcontents_zlen d Hw). lia.
  - destruct (dcell d i Hw ltac:(lia)) as (x & Hx & ->). rewrite bind_Ret, IH by lia.
    by rewrite (drop_bget _ _ _ Hx).
Qed.

Lemma deque_loop_all {A} (step : Z -> A -> A) d a :
  deque_wf d -> deque_loop step (Z.to_nat (dq_size d)) 0 d a
  = Ret (foldl (fun a x => step x a) a (dcontents d)).
Proof.
  intros Hw. pose proof (size_bound d Hw). rewrite deque_loop_spec by done || lia. done.
Qed.

Lemma contains_spec d f :
  deque_wf d ->
  deque_loop (fun x o => if f x : bool then u32 (o + 1) else o) (Z.to_nat (dq_size d)) 0 d 0
  = Ret (Z.of_nat (countb f (dcontents d))).
Proof.
  intros Hw. rewrite deque_loop_all by done. f_equal. pose proof (size_bound d Hw).
  rewrite foldl_count; rewrite ?dcontents_zlen by done; lia.
Qed.

Lemma dsim_contains d x : deque_wf d -> dsimulates (DContains x) d.
Proof.
  intros Hw. eapply sim_done; [|exact Hw|reflexivity]. simpl. unfold cc_deque_contains.
  by rewrite contains_spec.
Qed.

Lemma foreach_spec d : deque_wf d -> cc_deque_foreach d = Ret (dcontents d).
Proof.
  intros Hw. unfold cc_deque_foreach. rewrite deque_loop_all by done. f_equal.
  assert (forall l m : list Z, foldl (fun a x => a ++ [x]) m l = m ++ l) as H; [|apply H].
  induction l as [|x l IH]; intros m; simpl; [by rewrite app_nil_r|]. by rewrite IH, <-app_assoc.
Qed.

Lemma find_spec n i d x :
  deque_wf d -> 0 <= i -> i + Z.of_nat n = dq_size d ->
  deque_find n i d x = Ret ((fun j => i + Z.of_nat j) <$> index_of x (drop (Z.to_nat i) (dcontents d))).
Proof.
  intros Hw. revert i. induction n as [|n IH]; intros i Hi Hn; cbn [deque_find].
  - rewrite drop_ge; [done|]. pose proof (dcontents_zlen d Hw). lia.
  - destruct (dcell d i Hw ltac:(lia)) as (y & Hy & ->). rewrite bind_Ret, IH by lia.
    rewrite (drop_bget _ _ _ Hy). unfold index_of. simpl.
    destruct (Z.eqb_spec y x) as [->|Hne].
    + rewrite decide_True by done. simpl. do 2 f_equal. lia.
    + rewrite decide_False by done. destruct (list_find _ _) as [[j z]|]; simpl; [|done]. do 2 f_equal. lia.
Qed.

Lemma index_spec d x :
  deque_wf d ->
  cc_deque_index_of d x = Ret (match index_of x (dcontents d) with
    | Some i => (CC_OK, Some (Z.of_nat i), d) | None => (CC_ERR_OUT_OF_RANGE, None, d) end).
Proof.
  intros Hw. pose proof (size_bound d Hw). unfold cc_deque_index_of.
  rewrite find_spec by done || lia. rewrite bind_Ret. change (drop (Z.to_nat 0) ?l) with l.
  by destruct (index_of x (dcontents d)).
Qed.

Lemma dsim_index_of d x : deque_wf d -> dsimulates (DIndexOf x) d.
Proof.
  intros Hw. pose proof (index_spec d x Hw) as E.
  destruct (index_of x (dcontents d)) eqn:Ei; (eapply sim_done; [exact E|exact Hw|]); simpl; by rewrite Ei.
Qed.

Lemma masked_same b d x : masked (dq_set_buffer b d) x = masked d x.
Proof. reflexivity. Qed.

Lemma reverse_loop_spec n i j d :
  deque_wf d -> 0 <= i -> i + j = dq_size d - 1 -> i + Z.of_nat n <= dq_size d / 2 ->
  exists d', deque_reverse_loop n i j d = Ret d' /\ deque_wf d' /\ dq_size d' = dq_size d /\
    forall k, bget (dcontents d') k
      = if ((i <=? k) && (k <? i + Z.of_nat n)) || ((j - Z.of_nat n <? k) && (k <=? j))
        then bget (dcontents d) (dq_size d - 1 - k) else bget (dcontents d) k.
Proof.
  revert i j d. induction n as [|n IH]; intros i j d Hw Hi Hij Hn; cbn [deque_reverse_loop].
  - exists d. split_and!; [done..|]. intros k. zcases.
  - pose proof (size_bound d Hw). pose proof (Z.mul_div_le (dq_size d) 2 ltac:(lia)).
    destruct (dcell d i Hw ltac:(lia)) as (x & Hx & ->). destruct (dcell d j Hw ltac:(lia)) as (y & Hy & ->).
    rewrite !bind_Ret, !masked_pos by done || lia.
    destruct (store_spec d i y Hw ltac:(lia)) as (b1 & -> & Hw1 & Hc1). rewrite bind_Ret.
    destruct (store_spec (dq_set_buffer b1 d) j x Hw1 ltac:(simpl; lia)) as (b2 & Hb2 & Hw2 & Hc2).
    change (dpos (dq_set_buffer b1 d) j) with (dpos d j) in Hb2. simpl in Hb2.
    rewrite Hb2, bind_Ret.
    destruct (IH (i + 1) (j - 1) (dq_set_buffer b2 d) Hw2) as (d' & -> & Hw' & Hs & Hg); [simpl; lia..|].
    exists d'. split_and!; [done..|]. intros k. rewrite Hg. simpl.
    change (dcontents (dq_set_buffer b2 d)) with (dcontents (dq_set_buffer b2 (dq_set_buffer b1 d))).
    rewrite Hc2, Hc1, !bget_insert by (rewrite ?length_insert, dcontents_zlen by done; lia).
    zcases; subst; try (rewrite <-?Hx, <-?Hy; f_equal; lia).
Qed.

Lemma dsim_reverse d : deque_wf d -> dsimulates DReverse d.
Proof.
  intros Hw. pose proof (size_bound d Hw).
  pose proof (Z.mul_div_le (dq_size d) 2 ltac:(lia)) as Hd. pose proof (Z.mul_succ_div_gt (dq_size d) 2 ltac:(lia)).
  assert (0 <= dq_size d / 2) by (apply Z.div_pos; lia).
  destruct (reverse_loop_spec (Z.to_nat (dq_size d / 2)) 0 (dq_size d - 1) d) as (d' & E & Hw' & Hs & Hg); [done || lia..|].
  eapply sim_done; [simpl; unfold cc_deque_reverse; by rewrite E|done|]. simpl. do 2 f_equal.
  apply bget_ext. intros k. rewrite Hg, bget_reverse, dcontents_zlen, Z2Nat.id by done.
  destruct (Z.lt_ge_cases k 0); [rewrite (bget_neg _ k), bget_beyond by (rewrite ?dcontents_zlen; done || lia); zcases|].
  destruct (Z.le_gt_cases (dq_size d) k); [rewrite (bget_neg _ (_ - _)), (bget_beyond _ k) by (rewrite ?dcontents_zlen; done || lia); zcases|].
  zcases.
Qed.

Definition dop_ok (op : dop) : Prop := match op with DReplaceAt _ i => fits 32 i | _ => True end.

Lemma dstep_simulates op d : deque_wf d -> dop_ok op -> dsimulates op d.
Proof using HL.
  destruct op; simpl; auto using sim_add_first, sim_add_last, dsim_replace_at, sim_remove_first,
    dsim_remove_last, dsim_remove_all, sim_get_first, dsim_get_last, dsim_index_of, dsim_contains, dsim_reverse.
Qed.
End Facts.
