(* ===== verification/CcDequeMid.v ===== *)
(** * Insertion and removal in the middle of a deque

    [cc_deque_add_at] and [cc_deque_remove_at] shift the elements of one half
    of the circular buffer by one cell.  [add_at_result] and [remove_at_result]
    are what they leave, in every case: the list insertion and removal, except
    where the shift is one cell off. *)

From S2P Require Import Prelude CMem CcArray CcArrayFacts Blocks CcDeque CcDequeFacts.
Local Open Scope c_scope.

Definition insert_nth (k : Z) (x : Z) (l : list Z) : list Z :=
  take (Z.to_nat k) l ++ x :: drop (Z.to_nat k) l.

Definition remove_z (k : Z) (l : list Z) : list Z := remove_nth (Z.to_nat k) l.

Lemma bget_insert_nth k x l i :
  0 <= k <= zlen l ->
  bget (insert_nth k x l) i
  = if i <? k then bget l i else if i =? k then Some x else bget l (i - 1).
Proof.
  intros Hk. destruct (Z.lt_ge_cases i 0); [rewrite !bget_neg by lia; zcases|].
  unfold insert_nth. rewrite bget_app, bget_cons, bget_take, length_take.
  replace (Z.of_nat (Z.to_nat k `min` length l)) with k by lia.
  destruct (Z.ltb_spec i k); [done|]. destruct (Z.eqb_spec i k) as [->|]; [zcases|].
  rewrite bget_drop by lia. zcases.
Qed.

Lemma zlen_insert_nth k x l : 0 <= k <= zlen l -> zlen (insert_nth k x l) = zlen l + 1.
Proof.
  intros Hk. unfold insert_nth. rewrite zlen_app, zlen_cons, length_take, length_drop. lia.
Qed.

Lemma bget_remove_z k l i :
  0 <= k < zlen l -> bget (remove_z k l) i = if i <? k then bget l i else bget l (i + 1).
Proof.
  intros Hk. destruct (Z.lt_ge_cases i 0); [rewrite !bget_neg by lia; zcases; by rewrite bget_neg by lia|].
  unfold remove_z, remove_nth. rewrite bget_app, bget_take, length_take.
  replace (Z.of_nat (Z.to_nat k `min` length l)) with k by lia.
  destruct (Z.ltb_spec i k); [done|]. replace (S (Z.to_nat k)) with (Z.to_nat (k + 1)) by lia.
  rewrite bget_drop by lia. f_equal. lia.
Qed.

Lemma zlen_remove_z k l : 0 <= k < zlen l -> zlen (remove_z k l) = zlen l - 1.
Proof.
  intros Hk. unfold remove_z, remove_nth. rewrite zlen_app, length_take, length_drop. lia.
Qed.

Lemma apply_if {A B} (f : A -> B) (c : bool) x y : f (if c then x else y) = if c then f x else f y.
Proof. by destruct c. Qed.

(** The list that the wrong shift leaves. *)
Lemma bget_misshift l i w e n j :
  0 <= i < w -> w <= zlen l -> 0 <= j < n ->
  bget (take (Z.to_nat n) (remove_z i (take (Z.to_nat w) l) ++ e :: e :: drop (Z.to_nat w) l)) j
  = if j <? w - 1 then if j <? i then bget l j else bget l (j + 1)
    else if j <=? w then Some e else bget l (j - 1).
Proof.
  intros Hi Hw Hj. assert (zlen (take (Z.to_nat w) l) = w) as Hz by (rewrite length_take; lia).
  rewrite bget_take, (proj2 (Z.ltb_lt j n)) by lia.
  rewrite bget_app, zlen_remove_z, bget_remove_z, Hz, !bget_take, !bget_cons by lia.
  destruct (Z.ltb_spec j (w - 1)); [zprune|].
  zprune. rewrite bget_drop by lia. f_equal. lia.
Qed.

Lemma zlen_misshift l i w e n :
  0 <= i < w -> w <= zlen l -> 0 <= n <= zlen l + 1 ->
  zlen (take (Z.to_nat n) (remove_z i (take (Z.to_nat w) l) ++ e :: e :: drop (Z.to_nat w) l)) = n.
Proof.
  intros Hi Hw Hn. assert (zlen (take (Z.to_nat w) l) = w) as Hz by (rewrite length_take; lia).
  rewrite length_take, length_app, !length_cons, length_drop.
  pose proof (zlen_remove_z i (take (Z.to_nat w) l) ltac:(lia)). lia.
Qed.

Section Mid.
Context {F : Type} `{HR : !Runtime F} `{HL : !RuntimeLaws F}.
Implicit Types d : cc_deque.

(** One free cell, and the circular shift runs over it onto the first element. *)
Definition clobbers_first d (i : Z) : bool :=
  (dq_size d =? dq_capacity d - 1) && ((dq_last d <? dpos d i) || (dq_last d =? dq_capacity d - 1)).

(** What [cc_deque_add_at] leaves in a deque that has room. *)
Definition add_at_result d (x i : Z) : list Z :=
  let l := dcontents d in
  if i =? 0 then x :: l
  else if i <=? dq_size d / 2 - 1 then
    if (dq_first d =? 0) || (dq_capacity d <=? dq_first d + i) then insert_nth (i + 1) x l
    else <[Z.to_nat (i + 1) := x]> (insert_nth i (default 0 (bget l (i - 1))) l)
  else if clobbers_first d i
  then <[Z.to_nat 0 := default 0 (bget (dq_buffer d) (dq_last d))]> (insert_nth i x l)
  else insert_nth i x l.

Lemma memmove_if (c : bool) (b : list Z) (o s n : Z) :
  0 <= s -> 0 <= n -> (c = true -> 0 <= o /\ o + n <= zlen b /\ s + n <= zlen b) ->
  exists b', (if c then memmove b o s n else Ret b) = Ret b' /\ zlen b' = zlen b /\
    forall j, bget b' j = if c && (o <=? j) && (j <? o + n) then bget b (j - o + s) else bget b j.
Proof.
  intros Hs Hn Hc. destruct c; simpl.
  - destruct (Hc eq_refl) as (H1 & H2 & H3). by apply memmove_spec.
  - by exists b.
Qed.

(** The fields of the result, from what each cell of the new block holds. *)
Lemma grown_last d b l :
  deque_wf d -> dq_size d < dq_capacity d -> zlen b = zlen (dq_buffer d) -> zlen l = dq_size d + 1 ->
  (forall i, 0 <= i < dq_size d + 1 -> bget b (dpos d i) = bget l i) ->
  let d' := mk_deque (u32 (dq_size d + 1)) (dq_capacity d) (dq_first d) (masked d (dq_last d + 1)) b in
  deque_wf d' /\ dcontents d' = l.
Proof.
  intros Hw Hr Hb Hl Hg d'. destruct (u32_size d Hw) as [_ Hu]. pose proof Hw as [Hp Hbl Hf Hs Hla].
  pose proof (pow_cap_bounds _ Hp).
  assert (deque_wf d') as Hw'.
  { unfold d'. split; unfold dpos; simpl; rewrite ?Hu, ?masked_near by (done || rewrite Hla; unfold dpos; zcases);
      rewrite ?Hla; unfold dpos; try lia || done; zcases. }
  split; [done|]. apply dcontents_is; [done|simpl; by rewrite Hu|].
  simpl. rewrite Hu. exact Hg.
Qed.

Lemma grown_first d b l :
  deque_wf d -> dq_size d < dq_capacity d -> zlen b = zlen (dq_buffer d) -> zlen l = dq_size d + 1 ->
  (forall i, 0 <= i < dq_size d + 1 ->
     bget b (if i =? 0 then masked d (dq_first d - 1) else dpos d (i - 1)) = bget l i) ->
  let d' := mk_deque (u32 (dq_size d + 1)) (dq_capacity d) (masked d (dq_first d - 1)) (dq_last d) b in
  deque_wf d' /\ dcontents d' = l.
Proof.
  intros Hw Hr Hb Hl Hg d'. destruct (u32_size d Hw) as [_ Hu]. pose proof Hw as [Hp Hbl Hf Hs Hla].
  pose proof (pow_cap_bounds _ Hp). pose proof (masked_near d (dq_first d - 1) Hp ltac:(lia)) as Em.
  assert (deque_wf d') as Hw'.
  { unfold d'. split; unfold dpos; simpl; rewrite ?Hu, ?Em, ?Hla;
      unfold dpos; try lia || done; zcases. }
  split; [done|]. apply dcontents_is; [done|simpl; by rewrite Hu|].
  simpl. rewrite Hu. intros i Hi. rewrite <-Hg by done. f_equal. unfold dpos. simpl. rewrite Em. zcases.
Qed.

Lemma half_bounds d :
  deque_wf d -> 2 * (dq_size d / 2) <= dq_size d < 2 * (dq_size d / 2) + 2.
Proof.
  intros Hw. pose proof (size_bound d Hw).
  pose proof (Z.mul_div_le (dq_size d) 2 ltac:(lia)). pose proof (Z.mul_succ_div_gt (dq_size d) 2 ltac:(lia)). lia.
Qed.

Lemma half_u32 d : deque_wf d -> 2 <= dq_size d -> u32 (dq_size d / 2 - 1) = dq_size d / 2 - 1.
Proof.
  intros Hw H2. pose proof (half_bounds d Hw). pose proof (size_bound d Hw).
  apply wrap_id. unfold fits. lia.
Qed.

(** The front half, circular: the element goes in one place too late. *)
Lemma add_front_circular d x i :
  deque_wf d -> dq_size d < dq_capacity d -> 1 <= i <= dq_size d / 2 - 1 ->
  (dq_first d =? 0) || (dq_capacity d <=? dq_first d + i) = true ->
  exists b b2, add_at_front d i (dq_capacity d - 1) (dq_first d) (dpos d i) = Ret b /\
    set_cell b (dpos d i) x = Ret b2 /\ zlen b2 = zlen (dq_buffer d) /\
    forall j, 0 <= j < dq_size d + 1 ->
      bget b2 (if j =? 0 then masked d (dq_first d - 1) else dpos d (j - 1))
      = bget (insert_nth (i + 1) x (dcontents d)) j.
Proof.
  intros Hw Hr Hi Hc. pose proof (half_bounds d Hw).
  pose proof Hw as [Hp Hb Hf Hs _]. pose proof (pow_cap_bounds _ Hp).
  pose proof (masked_near d (dq_first d - 1) Hp ltac:(lia)) as Em.
  unfold add_at_front.
  assert ((dpos d i <? dq_first d) || (dq_first d =? 0) = true) as ->
    by (revert Hc; unfold dpos; zcases).
  destruct (cell_in (dq_buffer d) 0) as (e & He & Hge); [lia|]. rewrite He, bind_Ret.
  set (r := if negb (dq_first d =? 0) then u32 _ else 0).
  assert (r = if negb (dq_first d =? 0) then dq_capacity d - dq_first d else 0) as Er.
  { unfold r. destruct (negb _); [|done]. rewrite wrap_id by (unfold fits; lia). lia. }
  destruct (memmove_if (negb (dq_first d =? 0)) (dq_buffer d) (dq_first d - 1) (dq_first d) r)
    as (b1 & -> & Hl1 & Hg1); [lia|rewrite Er; zcases|rewrite Er; zcases|].
  rewrite bind_Ret.
  destruct (memmove_if (negb (dpos d i =? 0)) b1 0 1 (dpos d i)) as (b2 & -> & Hl2 & Hg2);
    [lia|unfold dpos; zcases|unfold dpos; zcases|].
  rewrite bind_Ret.
  destruct (set_cell_spec b2 (dq_capacity d - 1) e) as (b3 & -> & Hl3 & Hg3); [lia|].
  destruct (set_cell_spec b3 (dpos d i) x) as (b4 & E4 & Hl4 & Hg4); [unfold dpos; zcases|].
  exists b3, b4. split_and!; [done|done|lia|]. intros j Hj.
  rewrite Hg4, Hg3, !Hg2, !Hg1, bget_insert_nth, !dget by (rewrite ?dcontents_zlen; done || lia).
  rewrite Er, Em. clear Er Em Hg1 Hg2 Hg3 Hg4 E4 r. revert Hc. unfold dpos. zprune; rewrite <-Hge; f_equal; lia.
Qed.

(** The front half, in one piece: the element is written over the one at the index. *)
Lemma add_front_plain d x i :
  deque_wf d -> dq_size d < dq_capacity d -> 1 <= i <= dq_size d / 2 - 1 ->
  (dq_first d =? 0) || (dq_capacity d <=? dq_first d + i) = false ->
  exists b b2, add_at_front d i (dq_capacity d - 1) (dq_first d) (dpos d i) = Ret b /\
    set_cell b (dpos d i) x = Ret b2 /\ zlen b2 = zlen (dq_buffer d) /\
    forall j, 0 <= j < dq_size d + 1 ->
      bget b2 (if j =? 0 then masked d (dq_first d - 1) else dpos d (j - 1))
      = bget (<[Z.to_nat (i + 1) := x]> (insert_nth i (default 0 (bget (dcontents d) (i - 1))) (dcontents d))) j.
Proof.
  intros Hw Hr Hi Hc. pose proof (half_bounds d Hw). pose proof Hw as [Hp Hb Hf Hs _].
  pose proof (pow_cap_bounds _ Hp). pose proof (masked_near d (dq_first d - 1) Hp ltac:(lia)) as Em.
  apply orb_false_iff in Hc as [Hc1 Hc2]. apply Z.eqb_neq in Hc1. apply Z.leb_gt in Hc2.
  unfold add_at_front.
  assert ((dpos d i <? dq_first d) || (dq_first d =? 0) = false) as -> by (unfold dpos; zcases).
  destruct (memmove_spec (dq_buffer d) (dq_first d - 1) (dq_first d) i) as (b1 & -> & Hl1 & Hg1); [lia..|].
  destruct (set_cell_spec b1 (dpos d i) x) as (b2 & E2 & Hl2 & Hg2); [unfold dpos; zcases|].
  exists b1, b2. split_and!; [done|done|lia|]. intros j Hj.
  destruct (bget_in (dcontents d) (i - 1)) as [y Hy]; [rewrite dcontents_zlen; done || lia|]. rewrite Hy. simpl.
  rewrite bget_insert by (rewrite zlen_insert_nth; rewrite dcontents_zlen; done || lia).
  rewrite Hg2, !Hg1, bget_insert_nth by (rewrite dcontents_zlen; done || lia).
  rewrite dget in Hy |- * by done. rewrite !dget by done. revert Hy.
  rewrite Em. clear Em Hg1 Hg2 E2. unfold dpos. zprune; rewrite <-Hy; f_equal; lia.
Qed.

Lemma add_back_spec d x i :
  deque_wf d -> dq_size d < dq_capacity d -> 1 <= i < dq_size d -> dq_size d / 2 - 1 < i ->
  exists b b2, add_at_back d i (dq_capacity d - 1) (dq_last d) (dpos d i) = Ret b /\
    set_cell b (dpos d i) x = Ret b2 /\ zlen b2 = zlen (dq_buffer d) /\
    forall j, 0 <= j < dq_size d + 1 -> bget b2 (dpos d j)
      = bget (if clobbers_first d i
              then <[Z.to_nat 0 := default 0 (bget (dq_buffer d) (dq_last d))]> (insert_nth i x (dcontents d))
              else insert_nth i x (dcontents d)) j.
Proof.
  intros Hw Hr Hi Hh. pose proof (half_bounds d Hw). pose proof Hw as [Hp Hb Hf Hs Hl].
  pose proof (pow_cap_bounds _ Hp). unfold add_at_back.
  set (wrapped := (dq_last d <? dpos d i) || (dq_last d =? dq_capacity d - 1)).
  destruct (cell_in (dq_buffer d) (dq_capacity d - 1)) as (e & He & Hge); [lia|].
  destruct (bget_in (dq_buffer d) (dq_last d)) as (z & Hz); [rewrite Hl; unfold dpos; zcases|]. rewrite Hz. change (default 0 (Some z)) with z.
  destruct wrapped eqn:Ew; unfold wrapped in Ew.
  - rewrite He, bind_Ret. rewrite !(wrap_id 32) by (unfold fits; revert Ew; rewrite Hl; unfold dpos; zcases).
    destruct (memmove_if (negb (dpos d i =? dq_capacity d - 1)) (dq_buffer d) (dpos d i + 1) (dpos d i)
      (dq_capacity d - 1 - dpos d i)) as (b1 & -> & Hl1 & Hg1); [unfold dpos; zcases..|]. rewrite bind_Ret.
    destruct (memmove_if (negb (dq_last d =? dq_capacity d - 1)) b1 1 0 (dq_last d + 1))
      as (b2 & -> & Hl2 & Hg2); [revert Ew; rewrite Hl; unfold dpos; zcases..|]. rewrite bind_Ret.
    destruct (set_cell_spec b2 0 e) as (b3 & -> & Hl3 & Hg3); [lia|].
    destruct (set_cell_spec b3 (dpos d i) x) as (b4 & E4 & Hl4 & Hg4); [unfold dpos; zcases|].
    exists b3, b4. split_and!; [done|done|lia|]. intros j Hj.
    rewrite Hg4, Hg3, !Hg2, !Hg1.
    rewrite (apply_if (fun l => bget l j)), bget_insert by (rewrite zlen_insert_nth; rewrite dcontents_zlen; done || lia).
    rewrite bget_insert_nth, !dget by (rewrite ?dcontents_zlen; done || lia).
    clear Hg1 Hg2 Hg3 Hg4 E4. revert Ew. unfold clobbers_first. rewrite Hl in *. unfold dpos in *. clear Hl.
    revert Hz.
    zprune; rewrite <-?Hge, <-?Hz; f_equal; lia.
  - rewrite (wrap_id 32) by (unfold fits; lia).
    destruct (memmove_spec (dq_buffer d) (dpos d i + 1) (dpos d i) (dq_size d - i))
      as (b1 & -> & Hl1 & Hg1); [revert Ew; rewrite Hl; unfold dpos; zcases..|].
    destruct (set_cell_spec b1 (dpos d i) x) as (b2 & E2 & Hl2 & Hg2); [unfold dpos; zcases|].
    exists b1, b2. split_and!; [done|done|lia|]. intros j Hj.
    apply orb_false_iff in Ew as [Ew1 Ew2].
    assert (clobbers_first d i = false) as -> by (unfold clobbers_first; rewrite Ew1, Ew2; apply andb_false_r).
    rewrite Hg2, !Hg1, bget_insert_nth, !dget by (rewrite ?dcontents_zlen; done || lia).
    clear Hg1 Hg2 E2. revert Ew1 Ew2. rewrite Hl. unfold dpos. clear Hl. zprune.
Qed.

(** The growth check, with the deque the insertion then works on. *)
Definition grown d d1 : Prop :=
  (dq_size d < dq_capacity d /\ d1 = d) \/ (dq_size d = dq_capacity d /\ expand_capacity d = Ret (CC_OK, d1)).

Lemma room_grown d :
  deque_wf d ->
  (no_room (dq_capacity d =? dq_size d) d = Ret (true, d) /\ starved d) \/
  (exists d1, no_room (dq_capacity d =? dq_size d) d = Ret (false, d1) /\ grown d d1 /\ deque_wf d1 /\
     dcontents d1 = dcontents d /\ dq_size d1 = dq_size d /\ dq_size d1 < dq_capacity d1).
Proof using HL.
  intros Hw. unfold no_room, grown. destruct (Z.eqb_spec (dq_capacity d) (dq_size d)) as [E|E].
  - destruct (expand_spec d Hw (eq_sym E)) as [(st & -> & Hst & Hv)|(d' & -> & H)]; rewrite bind_Ret; simpl.
    + left. by rewrite bool_decide_eq_false_2.
    + right. exists d'. split_and!; try apply H; [done|by right].
  - right. exists d. pose proof Hw as []. split_and!; try done || lia. left. split; [lia|done].
Qed.

Lemma masked_id d x : deque_wf d -> 0 <= x < dq_capacity d -> masked d x = x.
Proof.
  intros [Hp _ _ _ _] Hx. pose proof (pow_cap_bounds _ Hp). rewrite masked_near by done || lia. zcases.
Qed.

Lemma last_range d : deque_wf d -> 0 <= dq_last d < dq_capacity d.
Proof. intros Hw. pose proof Hw as [Hp Hb Hf Hs ->]. rewrite <-Hb. apply dpos_range; [done|lia]. Qed.

Lemma masks d :
  deque_wf d -> masked d (dq_first d) = dq_first d /\ masked d (dq_last d) = dq_last d /\
    u32 (dq_capacity d - 1) = dq_capacity d - 1.
Proof.
  intros Hw. pose proof (last_range d Hw). pose proof Hw as [Hp _ Hf _ _]. pose proof (pow_cap_bounds _ Hp).
  rewrite !masked_id by done. split_and!; [done..|]. apply wrap_id. unfold fits. lia.
Qed.

(** Insertion by index into a deque, in every case. *)
Theorem deque_add_at_exact d x i :
  deque_wf d -> fits 32 i ->
  (dq_size d <= i /\ cc_deque_add_at d x i = Ret (CC_ERR_OUT_OF_RANGE, None, d)) \/
  (i < dq_size d /\ starved d /\ cc_deque_add_at d x i = Ret (CC_ERR_ALLOC, None, d)) \/
  exists d1 d', i < dq_size d /\ grown d d1 /\ dcontents d1 = dcontents d /\
    cc_deque_add_at d x i = Ret (CC_OK, None, d') /\ deque_wf d' /\ dcontents d' = add_at_result d1 x i.
Proof using HL.
  intros Hw Hi. unfold fits in Hi. unfold cc_deque_add_at.
  destruct (Z.leb_spec (dq_size d) i) as [E|E]; [by left|right].
  destruct (room_grown d Hw) as [[-> Hv]|(d1 & -> & Hg & Hw1 & Hc1 & Hs1 & Hr)]; rewrite bind_Ret;
    cbn [fst snd]; [by left|right].
  destruct (masks d1 Hw1) as (Mf & Ml & Mc). pose proof (half_bounds d1 Hw1). rewrite Mf, Ml, Mc.
  rewrite masked_pos by done || lia. exists d1.
  unfold add_at_result. destruct (Z.eqb_spec i 0) as [->|Hi0].
  { pose proof (sim_add_first d1 x Hw1) as (st & out & d' & E' & [(_ & _ & _ & [Hv _] & _)|[Hw' Hst]]); [lia|].
    simpl in E', Hst. injection Hst as <- <- Hst. exists d'. split_and!; done. }
  rewrite (proj2 (Z.eqb_neq i (dq_capacity d1 - 1))) by lia.
  rewrite half_u32 by done || lia. destruct (Z.leb_spec i (dq_size d1 / 2 - 1)).
  - destruct (_ || _) eqn:Ec.
    + destruct (add_front_circular d1 x i Hw1 Hr ltac:(lia) Ec) as (b & b2 & -> & E2 & Hl & Hb).
      rewrite bind_Ret, E2, bind_Ret. eexists. split_and!; [done|done|done|reflexivity| |];
        eapply grown_first; try done; rewrite zlen_insert_nth; rewrite dcontents_zlen; done || lia.
    + destruct (add_front_plain d1 x i Hw1 Hr ltac:(lia) Ec) as (b & b2 & -> & E2 & Hl & Hb).
      rewrite bind_Ret, E2, bind_Ret. eexists. split_and!; [done|done|done|reflexivity| |];
        eapply grown_first; try done; rewrite ?length_insert, zlen_insert_nth; rewrite dcontents_zlen; done || lia.
  - destruct (add_back_spec d1 x i Hw1 Hr ltac:(lia) ltac:(lia)) as (b & b2 & -> & E2 & Hl & Hb).
    rewrite bind_Ret, E2, bind_Ret. eexists. split_and!; [done|done|done|reflexivity| |];
      eapply grown_last; try done; case_match; rewrite ?length_insert, zlen_insert_nth; rewrite dcontents_zlen; done || lia.
Qed.

(** ** Removal *)

(** What [cc_deque_remove_at] leaves.  When the removed element is behind the
    wrap-around in the back half, the elements at the front of the block move
    to the right instead of to the left. *)
Definition remove_at_result d (i : Z) : list Z :=
  let l := dcontents d in
  if (i =? 0) || (i =? dq_capacity d - 1) || (i <=? dq_size d / 2 - 1) || (dpos d i <=? dq_last d)
  then remove_z i l
  else
    let w := dq_size d - dq_last d in
    let b0 := default 0 (bget (dq_buffer d) 0) in
    let r := take (Z.to_nat (dq_size d - 1))
               (remove_z i (take (Z.to_nat w) l) ++ b0 :: b0 :: drop (Z.to_nat w) l) in
    if (dq_size d =? dq_capacity d) && (0 <? dq_last d)
    then <[Z.to_nat 0 := default 0 (bget l (dq_size d - 1))]> r else r.

Lemma shrunk_first d b l :
  deque_wf d -> 0 < dq_size d -> zlen b = zlen (dq_buffer d) -> zlen l = dq_size d - 1 ->
  (forall i, 0 <= i < dq_size d - 1 -> bget b (dpos d (i + 1)) = bget l i) ->
  let d' := mk_deque (u32 (dq_size d - 1)) (dq_capacity d) (masked d (dq_first d + 1)) (dq_last d) b in
  deque_wf d' /\ dcontents d' = l.
Proof.
  intros Hw Hs0 Hb Hl Hg d'. pose proof Hw as [Hp Hbl Hf Hs Hla]. pose proof (pow_cap_bounds _ Hp).
  pose proof (masked_near d (dq_first d + 1) Hp ltac:(lia)) as Em. pose proof (u32_pred d Hw ltac:(lia)) as Hu.
  assert (deque_wf d') as Hw'.
  { unfold d'. split; unfold dpos; simpl; rewrite ?Hu, ?Em, ?Hla; unfold dpos; try lia || done; zcases. }
  split; [done|]. apply dcontents_is; [done|simpl; by rewrite Hu|].
  simpl. rewrite Hu. intros i Hi. rewrite <-Hg by done. f_equal. unfold dpos. simpl. rewrite Em. zcases.
Qed.

Lemma shrunk_last d b l :
  deque_wf d -> 0 < dq_size d -> zlen b = zlen (dq_buffer d) -> zlen l = dq_size d - 1 ->
  (forall i, 0 <= i < dq_size d - 1 -> bget b (dpos d i) = bget l i) ->
  let d' := mk_deque (u32 (dq_size d - 1)) (dq_capacity d) (dq_first d) (masked d (dq_last d - 1)) b in
  deque_wf d' /\ dcontents d' = l.
Proof.
  intros Hw Hs0 Hb Hl Hg d'. pose proof Hw as [Hp Hbl Hf Hs Hla]. pose proof (pow_cap_bounds _ Hp).
  pose proof (last_range d Hw). pose proof (u32_pred d Hw ltac:(lia)) as Hu.
  pose proof (masked_near d (dq_last d - 1) Hp ltac:(lia)) as Em.
  assert (deque_wf d') as Hw'.
  { unfold d'. split; unfold dpos; simpl; rewrite ?Hu, ?Em, ?Hla; unfold dpos; try lia || done; zcases. }
  split; [done|]. apply dcontents_is; [done|simpl; by rewrite Hu|]. simpl. rewrite Hu. exact Hg.
Qed.

Lemma remove_front_spec d i :
  deque_wf d -> 1 <= i <= dq_size d / 2 - 1 ->
  exists b, remove_at_front d i (dq_capacity d - 1) (dq_first d) (dpos d i) = Ret b /\
    zlen b = zlen (dq_buffer d) /\
    forall j, 0 <= j < dq_size d - 1 -> bget b (dpos d (j + 1)) = bget (remove_z i (dcontents d)) j.
Proof.
  intros Hw Hi. pose proof (half_bounds d Hw). pose proof Hw as [Hp Hb Hf Hs Hl].
  pose proof (pow_cap_bounds _ Hp). unfold remove_at_front. destruct (Z.ltb_spec (dpos d i) (dq_first d)) as [E|E].
  - destruct (cell_in (dq_buffer d) (dq_capacity d - 1)) as (e & He & Hge); [lia|]. rewrite He, bind_Ret.
    rewrite (wrap_id 32) by (unfold fits; lia).
    destruct (memmove_if (negb (dq_first d =? dq_capacity d - 1)) (dq_buffer d) (dq_first d + 1) (dq_first d)
      (dq_capacity d - 1 - dq_first d)) as (b1 & -> & Hl1 & Hg1); [zcases..|]. rewrite bind_Ret.
    destruct (memmove_if (negb (dpos d i =? 0)) b1 1 0 (dpos d i)) as (b2 & -> & Hl2 & Hg2);
      [unfold dpos; zcases..|]. rewrite bind_Ret.
    destruct (set_cell_spec b2 0 e) as (b3 & E3 & Hl3 & Hg3); [lia|].
    exists b3. split_and!; [done|lia|]. intros j Hj.
    rewrite Hg3, !Hg2, !Hg1, bget_remove_z, !dget by (rewrite ?dcontents_zlen; done || lia).
    clear Hg1 Hg2 Hg3 E3. revert E. unfold dpos. zprune; rewrite <-?Hge; f_equal; lia.
  - destruct (memmove_spec (dq_buffer d) (dq_first d + 1) (dq_first d) i) as (b1 & -> & Hl1 & Hg1);
      [revert E; unfold dpos; zcases..|].
    exists b1. split_and!; [done|lia|]. intros j Hj.
    rewrite !Hg1, bget_remove_z, !dget by (rewrite ?dcontents_zlen; done || lia).
    clear Hg1. revert E. unfold dpos. zprune.
Qed.

Lemma remove_back_spec d i :
  deque_wf d -> 1 <= i < dq_size d -> i <> dq_capacity d - 1 -> dq_size d / 2 - 1 < i ->
  exists b, remove_at_back d (dq_capacity d - 1) (dq_last d) (dpos d i) = Ret b /\
    zlen b = zlen (dq_buffer d) /\ zlen (remove_at_result d i) = dq_size d - 1 /\
    forall j, 0 <= j < dq_size d - 1 -> bget b (dpos d j) = bget (remove_at_result d i) j.
Proof.
  intros Hw Hi Hic Hh. pose proof (half_bounds d Hw). pose proof Hw as [Hp Hb Hf Hs Hl].
  pose proof (pow_cap_bounds _ Hp). pose proof (last_range d Hw).
  unfold remove_at_back, remove_at_result. rewrite !(proj2 (Z.eqb_neq i _)), (proj2 (Z.leb_gt i _)) by lia. cbn [orb].
  destruct (cell_in (dq_buffer d) 0) as (e & He & Hge); [lia|].
  destruct (Z.ltb_spec (dq_last d) (dpos d i)) as [E|E].
  - rewrite (proj2 (Z.leb_gt (dpos d i) _)) by lia. rewrite He, bind_Ret, Hge.
    change (default 0 (Some e)) with e. rewrite (wrap_id 32) by (unfold fits, dpos; zcases).
    destruct (memmove_if (negb (dpos d i =? dq_capacity d - 1)) (dq_buffer d) (dpos d i) (dpos d i + 1)
      (dq_capacity d - 1 - dpos d i)) as (b1 & -> & Hl1 & Hg1); [unfold dpos; zcases..|]. rewrite bind_Ret.
    destruct (memmove_if (negb (dpos d i =? 0)) b1 1 0 (dq_last d)) as (b2 & -> & Hl2 & Hg2);
      [lia..|]. rewrite bind_Ret.
    destruct (set_cell_spec b2 (dq_capacity d - 1) e) as (b3 & E3 & Hl3 & Hg3); [lia|].
    exists b3. pose proof (dcontents_zlen d Hw) as Hz.
    assert (0 <= i < dq_size d - dq_last d) as Hiw by (revert E; rewrite Hl; unfold dpos; zprune).
    set (r := take _ _).
    assert (zlen r = dq_size d - 1) as Hr by (apply zlen_misshift; rewrite ?Hz; lia).
    assert (0 < zlen r) as Hr0 by (revert E; rewrite Hr; unfold dpos; zprune).
    split_and!; [done|lia|case_match; rewrite ?length_insert; done|]. intros j Hj.
    rewrite Hg3, !Hg2, !Hg1. rewrite (apply_if (fun l => bget l j)), bget_insert by lia.
    unfold r. rewrite bget_misshift by lia.
    destruct (bget_in (dcontents d) (dq_size d - 1)) as [z Hz1]; [lia|]. rewrite Hz1.
    change (default 0 (Some z)) with z. rewrite dget in Hz1 by done. rewrite !dget by done.
    clear Hg1 Hg2 Hg3 E3 r Hr Hr0. revert Hz1 E Hiw. rewrite Hl. unfold dpos. clear Hl.
    zprune; rewrite <-?Hge, <-?Hz1; f_equal; lia.
  - rewrite (proj2 (Z.leb_le (dpos d i) _)) by lia. rewrite (wrap_id 32) by (unfold fits, dpos in *; revert E; zcases).
    destruct (memmove_spec (dq_buffer d) (dpos d i) (dpos d i + 1) (dq_last d - dpos d i)) as (b1 & -> & Hl1 & Hg1);
      [revert E; unfold dpos; zcases..|].
    exists b1. split_and!; [done|lia|rewrite zlen_remove_z; rewrite dcontents_zlen; done || lia|]. intros j Hj.
    rewrite !Hg1, bget_remove_z, !dget by (rewrite ?dcontents_zlen; done || lia).
    clear Hg1. revert E. rewrite Hl. unfold dpos. zprune.
Qed.

Lemma remove_first_run d :
  deque_wf d -> dq_size d <> 0 ->
  exists x d', bget (dcontents d) 0 = Some x /\ cc_deque_remove_first d = Ret (CC_OK, Some x, d') /\
    deque_wf d' /\ dcontents d' = remove_z 0 (dcontents d).
Proof.
  intros Hw Hs. destruct (dcontents_ends d Hw Hs) as (x & l & y & Hc & _ & Hx & _).
  destruct (shrink_first d Hw Hs) as [Hw' Hc']. unfold cc_deque_remove_first.
  rewrite (proj2 (Z.eqb_neq _ _) Hs), Hx, Hc in *. eexists x, _. by split_and!.
Qed.

Lemma remove_last_run d :
  deque_wf d -> dq_size d <> 0 ->
  exists x d', bget (dcontents d) (dq_size d - 1) = Some x /\ cc_deque_remove_last d = Ret (CC_OK, Some x, d') /\
    deque_wf d' /\ dcontents d' = remove_z (dq_size d - 1) (dcontents d).
Proof.
  intros Hw Hs. destruct (dcontents_ends d Hw Hs) as (x & l & y & Hc & Hla & _ & Hy).
  destruct (shrink_last d Hw Hs) as [Hw' Hc']. pose proof (dcontents_zlen d Hw) as Hz.
  unfold cc_deque_remove_last. rewrite (proj2 (Z.eqb_neq _ _) Hs), Hy. eexists y, _.
  split_and!; [|reflexivity|done|].
  - rewrite bget_pos by lia. rewrite <-Hla, <-Hc, last_lookup. f_equal. lia.
  - rewrite Hc', removelast_firstn_len. unfold remove_z, remove_nth.
    rewrite (drop_ge _ (S _)), app_nil_r by lia. f_equal. lia.
Qed.

(** Removal by index from a deque, in every case. *)
Theorem deque_remove_at_exact d i :
  deque_wf d -> fits 32 i ->
  (dq_size d <= i /\ cc_deque_remove_at d i = Ret (CC_ERR_OUT_OF_RANGE, None, d)) \/
  exists x d', bget (dcontents d) i = Some x /\ cc_deque_remove_at d i = Ret (CC_OK, Some x, d') /\
    deque_wf d' /\ dcontents d' = remove_at_result d i.
Proof using Type.
  intros Hw Hi. unfold fits in Hi. unfold cc_deque_remove_at.
  destruct (Z.leb_spec (dq_size d) i) as [E|E]; [by left|right].
  destruct (masks d Hw) as (Mf & Ml & Mc). pose proof (half_bounds d Hw). rewrite Mf, Ml, Mc.
  destruct (dcell d i Hw ltac:(lia)) as (x & Hx & Hcx). rewrite Hcx, bind_Ret, (masked_pos d i) by done || lia.
  pose proof (dcontents_zlen d Hw) as Hz. exists x.
  unfold remove_at_result. destruct (Z.eqb_spec i 0) as [->|Hi0].
  { destruct (remove_first_run d Hw ltac:(lia)) as (y & d' & ? & ? & ? & ?). exists d'.
    split_and!; try done. by simplify_eq. }
  destruct (Z.eqb_spec i (dq_capacity d - 1)) as [Hic|Hic].
  { pose proof Hw as [_ _ _ Hs _]. assert (i = dq_size d - 1) as -> by lia.
    destruct (remove_last_run d Hw ltac:(lia)) as (y & d' & ? & ? & ? & ?). exists d'.
    split_and!; try done. by simplify_eq. }
  cbn [orb]. rewrite half_u32 by done || lia. destruct (Z.leb_spec i (dq_size d / 2 - 1)).
  - destruct (remove_front_spec d i Hw ltac:(lia)) as (b & -> & Hl & Hb). rewrite bind_Ret. cbn [orb].
    eexists. split_and!; [done|reflexivity| |]; eapply shrunk_first; try done || lia;
      rewrite zlen_remove_z; rewrite dcontents_zlen; done || lia.
  - destruct (remove_back_spec d i Hw ltac:(lia) ltac:(lia) ltac:(lia)) as (b & -> & Hl & Hlr & Hb). rewrite bind_Ret.
    assert (remove_at_result d i = remove_at_result d i) as Er by done.
    unfold remove_at_result at 1 in Er. rewrite (proj2 (Z.eqb_neq _ _) Hi0), (proj2 (Z.eqb_neq _ _) Hic),
      (proj2 (Z.leb_gt i _)) in Er by lia. cbn [orb] in Er |- *. rewrite Er.
    eexists. split_and!; [done|reflexivity| |]; eapply shrunk_last; done || lia.
Qed.
End Mid.
