(* ===== verification/CcDequeProps.v ===== *)
(** * What the deque promises

    Histories of calls against the list specification, the well-formedness
    that construction establishes, the reads and the whole-deque operations,
    and the inputs on which the code leaves its block. *)

From S2P Require Import Prelude CMem CcArray CcArrayFacts Blocks CcDeque CcDequeFacts CcDequeMid.
Local Open Scope c_scope.

(** The runs the list specification allows: an insertion may also fail to
    allocate, leaving the list alone, when its length is a power of two. *)
Inductive deque_trace : list dop -> list Z -> list (cc_stat * option Z) -> list Z -> Prop :=
  | DT_nil l : deque_trace [] l [] l
  | DT_step op ops l r l1 rs l2 :
      deque_list_step op l = (r, l1) -> deque_trace ops l1 rs l2 ->
      deque_trace (op :: ops) l (r :: rs) l2
  | DT_starved op ops l rs l2 :
      is_add op = true -> pow_cap (zlen l) -> deque_trace ops l rs l2 ->
      deque_trace (op :: ops) l ((CC_ERR_ALLOC, None) :: rs) l2.

Section Props.
Context {F : Type} `{HR : !Runtime F} `{HL : !RuntimeLaws F}.
Implicit Types d : cc_deque.

Fixpoint deque_run (ops : list dop) d : outcome (list (cc_stat * option Z) * cc_deque) :=
  match ops with
  | [] => Ret ([], d)
  | op :: ops =>
      r ← deque_step op d;
      rs ← deque_run ops r.2;
      Ret (r.1 :: rs.1, rs.2)
  end.

(** C20. The deque implements a list.  From a well-formed deque every sequence
    of calls of the operations at both ends, replacement, search, counting,
    reversal and clearing runs without an access outside the block, keeps the
    deque well-formed, and answers as the list specification does; an
    insertion that cannot allocate reports [CC_ERR_ALLOC] and changes nothing,
    and only happens when the length is a power of two. *)
Theorem deque_refines_list ops d :
  deque_wf d -> Forall dop_ok ops ->
  exists rs d', deque_run ops d = Ret (rs, d') /\ deque_wf d' /\
    deque_trace ops (dcontents d) rs (dcontents d').
Proof using HL.
  intros Hw Hok. revert d Hw. induction Hok as [|op ops Hop _ IH]; intros d Hw; cbn [deque_run].
  - exists [], d. split_and!; [done..|constructor].
  - destruct (dstep_simulates op d Hw Hop) as (st & out & d1 & E & [(-> & -> & -> & [Hs _] & Ha)|[Hw1 Hs]]);
      rewrite E, bind_Ret; cbn [fst snd].
    + destruct (IH d Hw) as (rs & d' & -> & Hw' & Ht). rewrite bind_Ret. eexists _, d'.
      split_and!; [done..|]. constructor; [done| |done]. rewrite dcontents_zlen, Hs by done. apply Hw.
    + destruct (IH d1 Hw1) as (rs & d' & -> & Hw' & Ht). rewrite bind_Ret. eexists _, d'.
      split_and!; [done..|]. by econstructor.
Qed.

(** A deque created with a power of two as its capacity. *)
Lemma new_conf_wf k d :
  0 <= k <= 28 -> cc_deque_new_conf (2 ^ k) = (Some d, CC_OK) -> deque_wf d /\ dcontents d = [].
Proof using HL.
  intros Hk. unfold cc_deque_new_conf.
  assert (1 <= 2 ^ k <= 2 ^ 28) as Hb
    by (split; [apply (Z.pow_le_mono_r 2 0); lia|apply Z.pow_le_mono_r; lia]).
  destruct (mem_calloc 1 SIZEOF_DEQUE), (mem_alloc (u32 (2 ^ k * PTR))) as [b|] eqn:E; try done. intros [= <-].
  apply alloc_size in E as [Hn _]. unfold PTR in Hn.
  rewrite wrap_id, Z.div_mul in Hn by (unfold fits; lia).
  rewrite upper_pow_two_spec, Z.log2_up_pow2, Z.min_r by lia.
  split; [|done]. split; unfold dpos; simpl; try lia.
  - exists k. split; [lia|done].
  - zcases.
Qed.

(** A fresh deque is well-formed. *)
Theorem deque_new_wf d : cc_deque_new = (Some d, CC_OK) -> deque_wf d /\ dcontents d = [].
Proof using HL. apply (new_conf_wf 3). lia. Qed.

(** Rounding up a capacity: the result is the least power of two that
    holds it, up to the largest one a [size_t] can hold. *)
Theorem upper_pow_two_least n :
  0 <= n <= 2 ^ 31 ->
  pow_cap (upper_pow_two n) /\ n <= upper_pow_two n /\
  (forall k, 0 <= k -> n <= 2 ^ k -> upper_pow_two n <= 2 ^ k).
Proof using Type.
  intros Hn. rewrite upper_pow_two_spec by lia. destruct (pow2_holds n Hn) as [Hk Hle].
  rewrite Z.min_r by lia. split_and!; [by exists (Z.log2_up n)|done|].
  intros k Hk0 Hnk. apply Z.pow_le_mono_r; [lia|].
  rewrite <-(Z.log2_up_pow2 k) by done. by apply Z.log2_up_le_mono.
Qed.

(** Reading by index: the element below the size; at the size itself the
    call still reports success and hands out a cell that holds no element. *)
Theorem deque_get_at_exact d i :
  deque_wf d -> fits 32 i ->
  (i < dq_size d -> exists x, bget (dcontents d) i = Some x /\ cc_deque_get_at d i = Ret (CC_OK, Some x, d)) /\
  (i = dq_size d -> exists x, bget (dq_buffer d) (dq_last d) = Some x /\ cc_deque_get_at d i = Ret (CC_OK, Some x, d)) /\
  (dq_size d < i -> cc_deque_get_at d i = Ret (CC_ERR_OUT_OF_RANGE, None, d)).
Proof using Type.
  intros Hw Hi. unfold fits in Hi. unfold cc_deque_get_at. split_and!; intros H.
  - rewrite (proj2 (Z.ltb_ge _ _)) by lia. destruct (dcell d i Hw ltac:(lia)) as (x & Hx & ->). by exists x.
  - rewrite (proj2 (Z.ltb_ge _ _)) by lia. pose proof (last_range d Hw) as Hl. rewrite masked_pos by done || lia.
    pose proof Hw as [_ Hb _ _ El]. rewrite H, <-El.
    destruct (cell_in (dq_buffer d) (dq_last d)) as (x & -> & Hx); [lia|]. by exists x.
  - by rewrite (proj2 (Z.ltb_lt _ _)).
Qed.

(** ** Copies *)

(** The block a copy or a trim is given. *)
Lemma copied_block c b :
  0 < c < 2 ^ 30 -> mem_alloc (u32 (c * PTR)) = Some b -> zlen b = c.
Proof using HL.
  intros Hc E. apply alloc_size in E as [Hn _]. unfold PTR in Hn.
  by rewrite wrap_id, Z.div_mul in Hn by (unfold fits; lia).
Qed.

(** A deque laid out from the front of its block; [dq_last] is its size,
    which is one past the block when it is full. *)
Definition front_laid d (l : list Z) : Prop :=
  dq_first d = 0 /\ dq_last d = dq_size d /\ dq_size d <= dq_capacity d /\
  zlen (dq_buffer d) = dq_capacity d /\ zlen l = dq_size d /\
  (forall i, 0 <= i < dq_size d -> bget (dq_buffer d) i = bget l i).

Lemma front_laid_wf d l :
  front_laid d l -> pow_cap (dq_capacity d) -> dq_size d < dq_capacity d -> deque_wf d /\ dcontents d = l.
Proof.
  intros (Hf & Hl & Hs & Hb & Hz & Hg) Hp Hr. pose proof (pow_cap_bounds _ Hp).
  assert (deque_wf d) as Hw by (split; unfold dpos; rewrite ?Hf, ?Hl; try lia || done; zcases).
  split; [done|]. apply dcontents_is; [done|done|]. intros i Hi. rewrite <-Hg by done.
  unfold dpos. rewrite Hf. zcases.
Qed.

(** A copy holds the same list.  A shallow copy of a deque in a block
    the allocator grants holds the elements in the same order from the front
    of its block; it is a well-formed deque when the original was not full. *)
Theorem deque_copy_same d :
  deque_wf d -> dq_capacity d < 2 ^ 30 ->
  cc_deque_copy_shallow d = Ret (CC_ERR_ALLOC, None) \/
  exists c, cc_deque_copy_shallow d = Ret (CC_OK, Some c) /\
    dq_capacity c = dq_capacity d /\ front_laid c (dcontents d) /\
    (dq_size d < dq_capacity d -> deque_wf c /\ dcontents c = dcontents d).
Proof using HL.
  intros Hw Hc. pose proof Hw as [Hp Hb Hf Hs Hl]. pose proof (pow_cap_bounds _ Hp).
  unfold cc_deque_copy_shallow. destruct (mem_alloc SIZEOF_DEQUE); [|by left].
  destruct (mem_alloc (u32 (dq_capacity d * PTR))) as [nb|] eqn:E; [|by left]. right.
  apply copied_block in E; [|lia].
  assert (exists b, copy_buffer d nb = Ret b /\ zlen b = zlen nb /\
    forall i, 0 <= i < dq_size d -> bget b i = bget (dcontents d) i) as (b & -> & Hn & Hg).
  { destruct (Z.eq_dec (dq_size d) 0) as [Hz|Hz]; [|apply copy_buffer_spec; done || lia].
    pose proof (wf_last_eq d Hw) as Hle. unfold copy_buffer.
    rewrite (proj2 (Z.ltb_ge _ _)), (wrap_id 32) by (unfold fits; revert Hle; rewrite Hz; zcases).
    destruct (memcpy_spec nb (dq_buffer d) (dq_first d) (dq_capacity d - dq_first d)) as (b1 & -> & Hn1 & _); [lia..|].
    rewrite bind_Ret.
    destruct (memcpy_at_spec b1 (dq_capacity d - dq_first d) (dq_buffer d) 0 (dq_last d)) as (b & -> & Hn & _);
      [revert Hle; rewrite Hz; zcases..|].
    exists b. split_and!; [done|lia|lia]. }
  rewrite bind_Ret. eexists. split; [reflexivity|].
  assert (front_laid (mk_deque (dq_size d) (dq_capacity d) 0 (dq_size d) b) (dcontents d)) as Hfl
    by (split_and!; simpl; try done || lia; by rewrite dcontents_zlen).
  split_and!; [done|done|]. intros Hr. by apply front_laid_wf.
Qed.

(** The copying loop. *)
Lemma copy_with_spec cp d : deque_wf d -> forall n i buff,
  0 <= i -> i + Z.of_nat n = dq_size d -> dq_size d <= zlen buff ->
  exists b, copy_with n i cp d buff = Ret b /\ zlen b = zlen buff /\
    (forall j, j < i -> bget b j = bget buff j) /\
    (forall j, i <= j < dq_size d -> bget b j = cp <$> bget (dcontents d) j).
Proof.
  intros Hw. induction n as [|n IH]; intros i buff Hi Hn Hb; cbn [copy_with].
  - exists buff. split_and!; [done..|lia].
  - destruct (dcell d i Hw ltac:(lia)) as (x & Hx & ->). rewrite bind_Ret.
    destruct (set_cell_spec buff i (cp x)) as (b1 & -> & Hl1 & Hg1); [lia|]. rewrite bind_Ret.
    destruct (IH (i + 1) b1) as (b & -> & Hl & Hlo & Hhi); [lia..|].
    exists b. split_and!; [done|lia| |]; intros j Hj.
    + rewrite Hlo, Hg1 by lia. zcases.
    + destruct (Z.eq_dec j i) as [->|]; [|apply Hhi; lia]. rewrite Hlo, Hg1, Z.eqb_refl, Hx by lia. done.
Qed.

Lemma bget_fmap {A B} (f : A -> B) (l : list A) i : bget (f <$> l) i = f <$> bget l i.
Proof. unfold bget. case_match; [|done]. by rewrite list_lookup_fmap. Qed.

(** A deep copy holds the copies of the elements, in order. *)
Theorem deque_copy_deep_maps d cp :
  deque_wf d -> dq_capacity d < 2 ^ 30 ->
  cc_deque_copy_deep d cp = Ret (CC_ERR_ALLOC, None) \/
  exists c, cc_deque_copy_deep d cp = Ret (CC_OK, Some c) /\
    dq_capacity c = dq_capacity d /\ front_laid c (cp <$> dcontents d) /\
    (dq_size d < dq_capacity d -> deque_wf c /\ dcontents c = cp <$> dcontents d).
Proof using HL.
  intros Hw Hc. pose proof Hw as [Hp Hb Hf Hs Hl]. pose proof (pow_cap_bounds _ Hp).
  unfold cc_deque_copy_deep. destruct (mem_alloc SIZEOF_DEQUE); [|by left].
  destruct (mem_alloc (u32 (dq_capacity d * PTR))) as [nb|] eqn:E; [|by left]. right.
  apply copied_block in E; [|lia].
  destruct (copy_with_spec cp d Hw (Z.to_nat (dq_size d)) 0 nb) as (b & -> & Hn & _ & Hg); [lia..|].
  rewrite bind_Ret. eexists. split; [reflexivity|].
  assert (front_laid (mk_deque (dq_size d) (dq_capacity d) 0 (dq_size d) b) (cp <$> dcontents d)) as Hfl.
  { split_and!; simpl; try done || lia; [by rewrite length_fmap, dcontents_zlen|].
    intros i Hi. by rewrite bget_fmap, Hg by lia. }
  split_and!; [done|done|]. intros Hr. by apply front_laid_wf.
Qed.

(** Pushing onto a copy of a full deque, after one element was taken, writes
    past its block: the copy's last position is its capacity, unmasked. *)
Theorem full_copy_overruns d l x :
  front_laid d l -> pow_cap (dq_capacity d) -> dq_size d = dq_capacity d ->
  exists y d', cc_deque_remove_first d = Ret (CC_OK, Some y, d') /\ cc_deque_add_last d' x = Fault.
Proof using Type.
  intros (Hf & Hl & Hs & Hb & Hz & Hg) Hp Hfull. pose proof (pow_cap_bounds _ Hp).
  unfold cc_deque_remove_first. rewrite (proj2 (Z.eqb_neq _ _)), Hf by lia.
  destruct (cell_in (dq_buffer d) 0) as (y & -> & _); [lia|]. rewrite bind_Ret.
  eexists y, _. split; [reflexivity|]. unfold cc_deque_add_last, no_room. cbn [dq_size dq_capacity].
  rewrite (proj2 (Z.eqb_neq _ _)) by (rewrite wrap_id; unfold fits; lia). rewrite bind_Ret. simpl.
  unfold set_cell. by rewrite (proj2 (Z.ltb_ge _ _)) by lia.
Qed.

(** ** Trimming *)

(** Trimming an empty deque with more than one cell copies the whole block
    into a block of one cell. *)
Theorem trim_empty_deque_overruns d b :
  deque_wf d -> dq_size d = 0 -> dq_capacity d <> 1 -> mem_alloc PTR = Some b -> zlen b = 1 ->
  cc_deque_trim_capacity d = Fault.
Proof using Type.
  intros Hw Hz Hc Ha Hb1. pose proof Hw as [Hp Hb Hf Hs Hl]. pose proof (pow_cap_bounds _ Hp).
  pose proof (wf_last_eq d Hw) as Hle. rewrite Hz in Hle.
  unfold cc_deque_trim_capacity. rewrite Hz. change (upper_pow_two 0) with 1.
  rewrite !(proj2 (Z.eqb_neq _ _)) by lia. change (u32 (PTR * 1)) with PTR. rewrite Ha. cbv beta iota.
  unfold copy_buffer. rewrite (proj2 (Z.ltb_ge _ _)), (wrap_id 32) by (unfold fits; revert Hle; zcases).
  destruct (Z.eq_dec (dq_first d) (dq_capacity d - 1)) as [E|E].
  - destruct (memcpy_spec b (dq_buffer d) (dq_first d) (dq_capacity d - dq_first d)) as (b1 & -> & Hn1 & _); [lia..|].
    rewrite bind_Ret. unfold memcpy_at. rewrite (proj2 (Z.leb_gt _ _)) by (revert Hle; zcases). done.
  - unfold memcpy. rewrite (proj2 (Z.leb_gt _ _)) by lia. done.
Qed.

(** Trimming keeps the list.  Trimming a non-empty deque either reports
    that it cannot allocate, or leaves the same list, in a block of the least
    power of two that holds it; the deque stays well-formed unless the
    elements fill the new block. *)
Theorem deque_trim_same d :
  deque_wf d -> 0 < dq_size d < 2 ^ 29 ->
  cc_deque_trim_capacity d = Ret (CC_ERR_ALLOC, d) \/
  exists d', cc_deque_trim_capacity d = Ret (CC_OK, d') /\
    (d' = d \/
     dq_capacity d' = upper_pow_two (dq_size d) /\ front_laid d' (dcontents d) /\
     (dq_size d < dq_capacity d' -> deque_wf d' /\ dcontents d' = dcontents d)).
Proof using HL.
  intros Hw Hs0. unfold cc_deque_trim_capacity.
  destruct (Z.eqb_spec (dq_capacity d) (dq_size d)); [right; exists d; auto|].
  destruct (Z.eqb_spec (upper_pow_two (dq_size d)) (dq_capacity d)); [right; exists d; auto|].
  assert (pow_cap (upper_pow_two (dq_size d)) /\ dq_size d <= upper_pow_two (dq_size d) < 2 ^ 30) as [Hpc Hcb].
  { rewrite upper_pow_two_spec by lia. destruct (pow2_holds (dq_size d)) as [Hk Hle]; [lia|].
    rewrite Z.min_r by lia. split; [by exists (Z.log2_up (dq_size d))|]. split; [done|].
    apply Z.pow_lt_mono_r; [lia..|]. pose proof (Z.log2_up_le_mono (dq_size d) (2 ^ 29) ltac:(lia)) as H.
    rewrite Z.log2_up_pow2 in H by lia. lia. }
  pose proof (pow_cap_bounds _ Hpc). rewrite (Z.mul_comm PTR).
  destruct (mem_alloc (u32 (upper_pow_two (dq_size d) * PTR))) as [nb|] eqn:E; [|by left]. right.
  apply copied_block in E; [|lia].
  destruct (copy_buffer_spec d nb Hw) as (b & -> & Hn & Hg); [lia|]. rewrite bind_Ret.
  eexists. split; [reflexivity|]. right.
  assert (front_laid (mk_deque (dq_size d) (upper_pow_two (dq_size d)) 0 (dq_size d) b) (dcontents d)) as Hfl
    by (split_and!; simpl; try done || lia; by rewrite dcontents_zlen).
  split_and!; [done|done|]. intros Hr. by apply front_laid_wf.
Qed.

(** ** Filtering into a new deque *)

Lemma starved_add d x : starved d -> cc_deque_add_last d x = Ret (CC_ERR_ALLOC, None, d).
Proof.
  intros [Hs Hv]. unfold cc_deque_add_last, no_room, expand_capacity. rewrite Hs, Z.eqb_refl.
  destruct (Z.eqb_spec (dq_capacity d) MAX_POW_TWO); [done|]. destruct Hv as [?|Hv]; [done|]. by rewrite Hv.
Qed.

Lemma filter_into_starved (p : Z -> bool) d f : deque_wf d -> starved f -> forall n i,
  0 <= i -> i + Z.of_nat n = dq_size d -> filter_into n i p d f = Ret f.
Proof.
  intros Hw Hv. induction n as [|n IH]; intros i Hi Hn; cbn [filter_into]; [done|].
  destruct (dcell d i Hw ltac:(lia)) as (x & _ & ->). rewrite bind_Ret. unfold cc_deque_add.
  rewrite starved_add by done. rewrite bind_Ret. destruct (p x); apply IH; lia.
Qed.

Lemma filter_into_spec (p : Z -> bool) d : deque_wf d -> forall n i f,
  deque_wf f -> 0 <= i -> i + Z.of_nat n = dq_size d ->
  exists f' k, filter_into n i p d f = Ret f' /\ deque_wf f' /\
    dcontents f' = dcontents f ++ take k (filter (fun x => p x = true) (drop (Z.to_nat i) (dcontents d))) /\
    ((length (filter (fun x => p x = true) (drop (Z.to_nat i) (dcontents d))) <= k)%nat \/ starved f').
Proof using HL.
  intros Hw. induction n as [|n IH]; intros i f Hwf Hi Hn; cbn [filter_into].
  - pose proof (dcontents_zlen d Hw). exists f, 0%nat. rewrite drop_ge by lia.
    split_and!; [done..|by rewrite app_nil_r|left; simpl; lia].
  - destruct (dcell d i Hw ltac:(lia)) as (x & Hx & ->). rewrite bind_Ret.
    rewrite (drop_bget _ _ _ Hx). destruct (p x) eqn:Ep.
    + rewrite filter_cons_True by done. change (cc_deque_add f x) with (deque_step (DAddLast x) f).
      destruct (dstep_simulates (DAddLast x) f Hwf I) as (st & out & f1 & -> & [(_ & _ & -> & Hv & _)|[Hw1 Hs]]);
        rewrite bind_Ret; cbn [fst snd].
      * exists f, 0%nat. rewrite filter_into_starved by done || lia.
        split_and!; [done..|by rewrite app_nil_r|by right].
      * simpl in Hs. injection Hs as <- <- Hs.
        destruct (IH (i + 1) f1 Hw1) as (f' & k & -> & Hw' & Hc & Hk); [lia..|].
        exists f', (S k). split_and!; [done..| |].
        -- rewrite Hc, <-Hs, <-app_assoc. done.
        -- destruct Hk as [Hk|Hk]; [left; simpl; lia|by right].
    + rewrite filter_cons_False by (by rewrite Ep). apply IH; done || lia.
Qed.

(** Filtering a deque.  [cc_deque_filter] of a non-empty deque gives a new
    well-formed deque with the elements that satisfy the predicate, in order;
    all of them unless the new deque could not grow, which is not reported. *)
Theorem deque_filter_spec d (p : Z -> bool) :
  deque_wf d -> 0 < dq_size d ->
  cc_deque_filter d p = Ret (CC_ERR_ALLOC, None) \/
  exists f k, cc_deque_filter d p = Ret (CC_OK, Some f) /\ deque_wf f /\
    dcontents f = take k (filter (fun x => p x = true) (dcontents d)) /\
    ((length (filter (fun x => p x = true) (dcontents d)) <= k)%nat \/ starved f).
Proof using HL.
  intros Hw Hs. unfold cc_deque_filter. rewrite (proj2 (Z.eqb_neq _ _)) by lia.
  destruct cc_deque_new as [[f|] st] eqn:E; simpl; [|by left]. right.
  assert (st = CC_OK) as ->.
  { revert E. unfold cc_deque_new, cc_deque_new_conf. repeat case_match; congruence. }
  destruct (new_conf_wf 3 f ltac:(lia) E) as [Hwf Hc].
  destruct (filter_into_spec p d Hw (Z.to_nat (dq_size d)) 0 f Hwf) as (f' & k & -> & Hw' & Hc' & Hk); [lia..|].
  rewrite bind_Ret. exists f', k. rewrite Hc in Hc'. by split_and!.
Qed.

(** ** Iterating *)

(** Everything [cc_deque_iter_next] returns until it reports the end. *)
Fixpoint iter_drain (fuel : nat) (it : cc_deque_iter) : outcome (option (list Z)) :=
  match fuel with
  | O => Ret None
  | S fuel =>
      r ← cc_deque_iter_next it;
      match r with
      | (CC_OK, Some x, it) => l ← iter_drain fuel it; Ret (option_map (cons x) l)
      | _ => Ret (Some [])
      end
  end.

Lemma at_end_spec d i :
  deque_wf d -> at_end d i = (dq_size d =? 0) || (dq_size d =? dq_capacity d) || (dq_size d <=? i).
Proof.
  intros Hw. destruct (masks d Hw) as (Mf & Ml & _). unfold at_end. rewrite Mf, Ml.
  pose proof Hw as [Hp Hb Hf Hs ->]. unfold dpos. zcases.
Qed.

Lemma iter_drain_spec d fuel i r :
  deque_wf d -> dq_size d < dq_capacity d -> 0 <= i -> (Z.to_nat (dq_size d - i) < fuel)%nat ->
  iter_drain fuel (mk_dq_iter d i r) = Ret (Some (drop (Z.to_nat i) (dcontents d))).
Proof.
  intros Hw Hr. pose proof (size_bound d Hw). pose proof (dcontents_zlen d Hw).
  revert i r. induction fuel as [|fuel IH]; intros i r Hi Hf; [lia|]. cbn [iter_drain].
  unfold cc_deque_iter_next. cbn [di_deque di_index]. rewrite at_end_spec by done.
  rewrite (proj2 (Z.eqb_neq (dq_size d) (dq_capacity d))) by lia.
  destruct (Z.leb_spec (dq_size d) i) as [E|E].
  - rewrite orb_true_r. simpl. by rewrite drop_ge by lia.
  - rewrite (proj2 (Z.eqb_neq _ 0)) by lia. simpl.
    destruct (dcell d i Hw ltac:(lia)) as (x & Hx & ->). rewrite !bind_Ret.
    rewrite wrap_id, IH, bind_Ret by (unfold fits; lia). simpl. by rewrite (drop_bget _ _ _ Hx).
Qed.

(** Iterating over a deque visits every element in order - unless the
    deque is full, when the iterator ends before the first element. *)
Theorem deque_iter_visits d :
  deque_wf d ->
  iter_drain (S (Z.to_nat (dq_size d))) (cc_deque_iter_init d)
  = Ret (Some (if dq_size d <? dq_capacity d then dcontents d else [])).
Proof using Type.
  intros Hw. unfold cc_deque_iter_init. destruct (Z.ltb_spec (dq_size d) (dq_capacity d)).
  - rewrite iter_drain_spec by (done || lia). done.
  - cbn [iter_drain]. unfold cc_deque_iter_next. cbn [di_deque di_index]. rewrite at_end_spec by done.
    pose proof Hw as [_ _ _ Hs _]. rewrite (proj2 (Z.eqb_eq (dq_size d) (dq_capacity d))) by lia.
    by rewrite orb_true_r.
Qed.

(** Replacing through the iterator changes the element after the one last
    returned. *)
Theorem iter_replace_hits_next d x :
  deque_wf d -> 2 <= dq_size d < dq_capacity d ->
  exists y it out it2, cc_deque_iter_next (cc_deque_iter_init d) = Ret (CC_OK, Some y, it) /\
    bget (dcontents d) 0 = Some y /\ cc_deque_iter_replace it x = Ret (CC_OK, out, it2) /\
    dcontents (di_deque it2) = <[1%nat := x]> (dcontents d).
Proof using Type.
  intros Hw Hs. destruct (dcell d 0 Hw ltac:(lia)) as (y & Hy & Hc).
  unfold cc_deque_iter_next. cbn [di_deque di_index cc_deque_iter_init]. rewrite at_end_spec by done.
  rewrite !(proj2 (Z.eqb_neq _ _)), (proj2 (Z.leb_gt _ _)), Hc by lia. simpl.
  destruct (replace_run d x 1 Hw ltac:(lia)) as (z & d' & E & _ & _ & Hc').
  eexists y, _, (Some z), _. split_and!; [reflexivity|done| |].
  - unfold cc_deque_iter_replace. cbn [di_deque di_index]. change (u32 _) with 1. rewrite E, bind_Ret. reflexivity.
  - exact Hc'.
Qed.

(** ** Capacities that are not powers of two *)

Fixpoint push_all (l : list Z) d : outcome cc_deque :=
  match l with
  | [] => Ret d
  | x :: l => r ← cc_deque_add_last d x; push_all l r.2
  end.

Lemma push_short l d :
  pow_cap (dq_capacity d) -> dq_last d = dq_size d -> 0 <= dq_size d ->
  dq_size d + zlen l <= zlen (dq_buffer d) -> zlen (dq_buffer d) < dq_capacity d ->
  exists d', push_all l d = Ret d' /\ dq_capacity d' = dq_capacity d /\ dq_last d' = dq_size d' /\
    dq_size d' = dq_size d + zlen l /\ zlen (dq_buffer d') = zlen (dq_buffer d).
Proof.
  revert d. induction l as [|x l IH]; intros d Hp Hl Hs Hb Hc; [exists d; split_and!; simpl; done || lia|].
  rewrite zlen_cons in Hb |- *. cbn [push_all]. pose proof (pow_cap_bounds _ Hp).
  unfold cc_deque_add_last, no_room. rewrite (proj2 (Z.eqb_neq _ _)), bind_Ret by lia. cbn [fst snd].
  destruct (set_cell_spec (dq_buffer d) (dq_last d) x) as (b & -> & Hlb & _); [lia|]. rewrite bind_Ret. cbn [snd].
  rewrite bind_Ret. cbn [snd].
  set (d1 := mk_deque _ _ _ _ _).
  assert (dq_size d1 = dq_size d + 1) as Hs1 by (apply wrap_id; unfold fits; lia).
  assert (dq_last d1 = dq_last d + 1) as Hl1.
  { unfold d1. cbn [dq_last]. rewrite masked_near by (done || lia). zcases. }
  assert (dq_capacity d1 = dq_capacity d /\ dq_buffer d1 = b) as [Hc1 Hb1] by done.
  clearbody d1. destruct (IH d1) as (d' & -> & H1 & H2 & H3 & H4); rewrite ?Hc1, ?Hb1; try done || lia.
  exists d'. rewrite Hc1, Hb1 in *. split_and!; done || lia.
Qed.

(** A deque configured with a capacity that is not a power of two writes past
    its block: the block has the configured size, the capacity is rounded up. *)
Theorem odd_capacity_overruns c l x d :
  0 < c < 2 ^ 28 -> c < upper_pow_two c -> zlen l = c ->
  cc_deque_new_conf c = (Some d, CC_OK) ->
  exists d', push_all l d = Ret d' /\ cc_deque_add_last d' x = Fault.
Proof using HL.
  intros Hc Hp Hl. unfold cc_deque_new_conf.
  destruct (mem_calloc 1 SIZEOF_DEQUE), (mem_alloc (u32 (c * PTR))) as [b|] eqn:E; try done. intros [= <-].
  apply copied_block in E; [|lia].
  set (d := mk_deque _ _ _ _ _).
  assert (pow_cap (dq_capacity d)) as Hpc.
  { simpl. rewrite upper_pow_two_spec by lia. destruct (pow2_holds c) as [Hk _]; [lia|].
    rewrite Z.min_r by lia. by exists (Z.log2_up c). }
  destruct (push_short l d) as (d' & -> & H1 & H2 & H3 & H4); try done; simpl in *; try lia.
  exists d'. split; [done|]. unfold cc_deque_add_last, no_room.
  rewrite (proj2 (Z.eqb_neq _ _)), bind_Ret by lia. cbn [fst snd]. unfold set_cell.
  by rewrite (proj2 (Z.ltb_ge _ _)) by lia.
Qed.
End Props.

(** ** Concrete deques *)

Definition deque0 : cc_deque :=
  match cc_deque_new (HR := small_heap) with (Some d, _) => d | _ => mk_deque 0 0 0 0 [] end.

Lemma deque0_wf : deque_wf deque0.
Proof. apply (deque_new_wf (HR := small_heap)). reflexivity. Qed.

(** Six elements in a block of eight, from the second cell on. *)
Definition six : cc_deque := mk_deque 6 8 1 7 [0; 1; 2; 3; 4; 5; 6; 0].

(** Seven elements that wrap around the end of the block. *)
Definition seven : cc_deque := mk_deque 7 8 3 2 [6; 7; 0; 1; 2; 3; 4; 5].

Lemma six_wf : deque_wf six.
Proof. split; [by exists 3|by_compute..]. Qed.

Lemma seven_wf : deque_wf seven.
Proof. split; [by exists 3|by_compute..]. Qed.

Lemma deque_refines_list_witness :
  exists rs d', deque_run (HR := small_heap)
      [DAddLast 5; DAddFirst 6; DReplaceAt 9 1; DReverse; DRemoveLast; DGetFirst; DIndexOf 9] deque0 = Ret (rs, d') /\
    deque_wf d' /\
    deque_trace [DAddLast 5; DAddFirst 6; DReplaceAt 9 1; DReverse; DRemoveLast; DGetFirst; DIndexOf 9]
      [] rs (dcontents d').
Proof.
  apply (deque_refines_list (HR := small_heap)
    [DAddLast 5; DAddFirst 6; DReplaceAt 9 1; DReverse; DRemoveLast; DGetFirst; DIndexOf 9] deque0 deque0_wf).
  repeat constructor; by_compute.
Defined.

(** Inserting 9 at index 2 of 1, ..., 6 loses the 3 and doubles the 2. *)
Lemma deque_add_at_exact_witness :
  exists d', cc_deque_add_at (HR := small_heap) six 9 2 = Ret (CC_OK, None, d') /\
    dcontents six = [1; 2; 3; 4; 5; 6] /\ dcontents d' = [1; 2; 2; 9; 4; 5; 6].
Proof.
  destruct (deque_add_at_exact (HR := small_heap) six 9 2 six_wf ltac:(by_compute))
    as [[H _]|[(_ & [H _] & _)|(d1 & d' & _ & Hg & _ & H & _ & Hc)]].
  - by destruct H.
  - discriminate H.
  - exists d'. split; [exact H|]. split; [reflexivity|]. rewrite Hc.
    destruct Hg as [[_ ->]|[Hg _]]; [reflexivity|discriminate Hg].
Defined.

(** Removing the element at index 3 of 1, ..., 7 triples the 6 and loses the 7. *)
Lemma deque_remove_at_exact_witness :
  exists d', cc_deque_remove_at seven 3 = Ret (CC_OK, Some 4, d') /\
    dcontents seven = [1; 2; 3; 4; 5; 6; 7] /\ dcontents d' = [1; 2; 3; 5; 6; 6].
Proof.
  destruct (deque_remove_at_exact seven 3 seven_wf ltac:(by_compute)) as [[H _]|(x & d' & Hx & H & _ & Hc)].
  - by destruct H.
  - exists d'. vm_compute in Hx. injection Hx as <-. split; [exact H|]. split; [reflexivity|]. by rewrite Hc.
Defined.

Lemma deque_iter_visits_witness :
  iter_drain 5 (cc_deque_iter_init (mk_deque 4 4 1 1 [4; 1; 2; 3])) = Ret (Some []) /\
  dcontents (mk_deque 4 4 1 1 [4; 1; 2; 3]) = [1; 2; 3; 4].
Proof.
  split; [|reflexivity].
  apply (deque_iter_visits (mk_deque 4 4 1 1 [4; 1; 2; 3])). split; [by exists 2|by_compute..].
Defined.

Definition deque3 : cc_deque :=
  match cc_deque_new_conf (HR := small_heap) 3 with (Some d, _) => d | _ => mk_deque 0 0 0 0 [] end.

Lemma odd_capacity_overruns_witness :
  exists d', push_all (HR := small_heap) [1; 2; 3] deque3 = Ret d' /\
    cc_deque_add_last (HR := small_heap) d' 4 = Fault.
Proof. apply (odd_capacity_overruns (HR := small_heap) 3 [1; 2; 3] 4 deque3); by_compute || reflexivity. Defined.
