(* ===== verification/CcQueue.v ===== *)
(** * Queue (src/components/Collections-C/src/cc_queue.c)

    A queue is a deque entered at the front and left at the back; the calls
    that only forward are definitions of the same name.  What is proved: first
    in, first out, over every history of calls. *)

From S2P Require Import Prelude CMem CcArray CcArrayFacts Blocks CcDeque CcDequeFacts CcDequeProps.

Definition SIZEOF_QUEUE : Z := 16.

Section Queue.
Context {F : Type} `{HR : !Runtime F}.

Record cc_queue := mk_queue { q_d : cc_deque }.

Definition queue_result : Type := cc_stat * option Z * cc_queue.

Definition on_d (r : outcome deque_result) : outcome queue_result :=
  x ← r; Ret (x.1, mk_queue x.2).

Definition cc_queue_new_conf (conf_capacity : Z) : option cc_queue * cc_stat :=
  match mem_calloc 1 SIZEOF_QUEUE with
  | None => (None, CC_ERR_ALLOC)
  | Some _ =>
      match cc_deque_new_conf conf_capacity with
      | (Some deque, CC_OK) => (Some (mk_queue deque), CC_OK)
      | _ => (None, CC_ERR_ALLOC)
      end
  end.

Definition cc_queue_new : option cc_queue * cc_stat := cc_queue_new_conf DEFAULT_CAPACITY.

Definition cc_queue_peek (q : cc_queue) := on_d (cc_deque_get_last (q_d q)).
Definition cc_queue_poll (q : cc_queue) := on_d (cc_deque_remove_last (q_d q)).
Definition cc_queue_enqueue (q : cc_queue) (element : Z) := on_d (cc_deque_add_first (q_d q) element).
Definition cc_queue_size (q : cc_queue) : Z := dq_size (q_d q).
Definition cc_queue_foreach (q : cc_queue) : outcome (list Z) := cc_deque_foreach (q_d q).

Definition cc_queue_destroy_cb (q : cc_queue) : outcome (list Z) := cc_deque_destroy_cb (q_d q).

Definition cc_queue_iter_init (q : cc_queue) : cc_deque_iter := cc_deque_iter_init (q_d q).
Definition cc_queue_iter_next (it : cc_deque_iter) := cc_deque_iter_next it.
Definition cc_queue_iter_replace (it : cc_deque_iter) (replacement : Z) := cc_deque_iter_replace it replacement.

Definition cc_queue_zip_iter_init (q1 q2 : cc_queue) : cc_deque_zip_iter :=
  cc_deque_zip_iter_init (q_d q1) (q_d q2).
Definition cc_queue_zip_iter_next (it : cc_deque_zip_iter) := cc_deque_zip_iter_next it.
Definition cc_queue_zip_iter_replace (it : cc_deque_zip_iter) (e1 e2 : Z) := cc_deque_zip_iter_replace it e1 e2.
End Queue.

(** ** First in, first out *)

Inductive qop := Enqueue (x : Z) | Poll | Peek.

Definition fifo_step (op : qop) (l : list Z) : cc_stat * option Z * list Z :=
  match op, l with
  | Enqueue x, _ => (CC_OK, None, l ++ [x])
  | Poll, x :: l' => (CC_OK, Some x, l')
  | Peek, x :: _ => (CC_OK, Some x, l)
  | _, [] => (CC_ERR_OUT_OF_RANGE, None, l)
  end.

(** The runs of a first-in-first-out list; adding may fail to allocate when
    the length is a power of two. *)
Inductive fifo_trace : list qop -> list Z -> list (cc_stat * option Z) -> list Z -> Prop :=
  | FT_nil l : fifo_trace [] l [] l
  | FT_step op ops l r l1 rs l2 :
      fifo_step op l = (r, l1) -> fifo_trace ops l1 rs l2 -> fifo_trace (op :: ops) l (r :: rs) l2
  | FT_starved x ops l rs l2 :
      pow_cap (zlen l) -> fifo_trace ops l rs l2 ->
      fifo_trace (Enqueue x :: ops) l ((CC_ERR_ALLOC, None) :: rs) l2.

Section Fifo.
Context {F : Type} `{HR : !Runtime F} `{HL : !RuntimeLaws F}.
Implicit Types q : cc_queue.

Definition queue_step (op : qop) q : outcome queue_result :=
  match op with
  | Enqueue x => cc_queue_enqueue q x
  | Poll => cc_queue_poll q
  | Peek => cc_queue_peek q
  end.

Fixpoint queue_run (ops : list qop) q : outcome (list (cc_stat * option Z) * cc_queue) :=
  match ops with
  | [] => Ret ([], q)
  | op :: ops =>
      r ← queue_step op q;
      rs ← queue_run ops r.2;
      Ret (r.1 :: rs.1, rs.2)
  end.

(** The elements in order of arrival. *)
Definition qcontents q : list Z := reverse (dcontents (q_d q)).

(** The operation of the deque behind each operation of the queue. *)
Definition behind (op : qop) : dop :=
  match op with Enqueue x => DAddFirst x | Poll => DRemoveLast | Peek => DGetLast end.

Lemma queue_step_behind op q : queue_step op q = on_d (deque_step (behind op) (q_d q)).
Proof. by destruct op. Qed.

Lemma reverse_last (x y : Z) l : list.last (x :: l) = Some y -> exists l', reverse (x :: l) = y :: l' /\ removelast (x :: l) = reverse l'.
Proof.
  intros H. apply last_Some in H as [m ->]. rewrite reverse_snoc, removelast_last. exists (reverse m).
  by rewrite reverse_involutive.
Qed.

Lemma fifo_behind op l r l' :
  deque_list_step (behind op) l = (r, l') -> fifo_step op (reverse l) = (r, reverse l').
Proof.
  destruct op as [x| |]; cbn [behind deque_list_step].
  - intros [= <- <-]. simpl. by rewrite reverse_cons.
  - destruct l as [|x l]; [by intros [= <- <-]|]. intros [= <- <-].
    destruct (list.last (x :: l)) as [y|] eqn:E; [|by apply last_None in E].
    destruct (reverse_last _ _ _ E) as (m & -> & Hm). simpl in Hm |- *. by rewrite Hm, reverse_involutive.
  - destruct l as [|x l]; [by intros [= <- <-]|]. intros [= <- <-].
    destruct (list.last (x :: l)) as [y|] eqn:E; [|by apply last_None in E].
    by destruct (reverse_last _ _ _ E) as (m & -> & _).
Qed.

(** The queue is first in, first out. *)
Theorem queue_refines_fifo ops q :
  deque_wf (q_d q) ->
  exists rs q', queue_run ops q = Ret (rs, q') /\ deque_wf (q_d q') /\
    fifo_trace ops (qcontents q) rs (qcontents q').
Proof using HL.
  revert q. induction ops as [|op ops IH]; intros q Hw; cbn [queue_run].
  - exists [], q. split_and!; [done..|constructor].
  - rewrite queue_step_behind.
    destruct (dstep_simulates (behind op) (q_d q) Hw) as (st & out & d1 & E & Hs); [by destruct op|].
    rewrite E. unfold on_d. rewrite !bind_Ret. cbn [fst snd].
    destruct Hs as [(-> & -> & -> & [Hs _] & Ha)|[Hw1 Hs]].
    + destruct (IH (mk_queue (q_d q)) Hw) as (rs & q' & -> & Hw' & Ht). rewrite bind_Ret. eexists _, q'.
      split_and!; [done..|]. destruct op; try done. constructor; [|done].
      unfold qcontents. rewrite length_reverse, dcontents_zlen, Hs by done. apply Hw.
    + destruct (IH (mk_queue d1) Hw1) as (rs & q' & -> & Hw' & Ht). rewrite bind_Ret. eexists _, q'.
      split_and!; [done..|]. econstructor; [|exact Ht]. by apply fifo_behind.
Qed.

(** A new queue is empty and well-formed. *)
Theorem queue_new_wf q : cc_queue_new = (Some q, CC_OK) -> deque_wf (q_d q) /\ qcontents q = [].
Proof using HL.
  unfold cc_queue_new, cc_queue_new_conf. destruct (mem_calloc 1 SIZEOF_QUEUE); [|done].
  destruct (cc_deque_new_conf DEFAULT_CAPACITY) as [[d|] st] eqn:E; [|done].
  destruct st; try done. intros [= <-]. unfold qcontents. simpl.
  destruct (new_conf_wf 3 d ltac:(lia) E) as [Hw ->]. done.
Qed.
End Fifo.

Definition queue0 : cc_queue :=
  match cc_queue_new (HR := small_heap) with (Some q, _) => q | _ => mk_queue deque0 end.

Lemma queue0_wf : deque_wf (q_d queue0).
Proof. exact deque0_wf. Qed.

Lemma queue_refines_fifo_witness :
  exists rs q', queue_run (HR := small_heap) [Enqueue 1; Enqueue 2; Poll; Peek; Poll; Poll] queue0 = Ret (rs, q') /\
    deque_wf (q_d q') /\ fifo_trace [Enqueue 1; Enqueue 2; Poll; Peek; Poll; Poll] [] rs (qcontents q').
Proof.
  apply (queue_refines_fifo (HR := small_heap) [Enqueue 1; Enqueue 2; Poll; Peek; Poll; Poll] queue0 queue0_wf).
Defined.
