(* ===== verification/CcHashTable.v ===== *)
(** * Hash table (src/components/Collections-C/src/cc_hashtable.c)

    A table of chains of entries.  An entry keeps the address it was allocated
    at, because iterators hold pointers to entries: reading an entry that is no
    longer in the table is a [Fault].  Keys and values are pointers (0 is
    NULL).  The hash function and the comparator are the configuration's; they
    may fault, as the library's own string functions do on NULL.  [size_t] and
    pointers have 32 bits and [ARCH_64] is not defined, as on the target. *)

From S2P Require Import Prelude CMem CcArray CcDeque.
Local Open Scope c_scope.

Definition SIZEOF_TABLE : Z := 48.
Definition SIZEOF_ENTRY : Z := 16.
Definition HT_DEFAULT_CAPACITY : Z := 16.
Definition KEY_LENGTH_VARIABLE : Z := -1.

(** The functions of a configuration, and whether the [n]th allocation of an
    entry succeeds. *)
Class KeyOps := {
  ht_hash : Z -> Z -> Z -> outcome Z;          (** [hash(key, len, seed)] *)
  ht_key_cmp : Z -> Z -> outcome Z;
  entry_granted : Z -> bool;
}.

Record table_entry := mk_entry {
  te_key : Z;
  te_value : Z;
  te_hash : Z;
  te_addr : Z;
}.

Section Table.
Context {F : Type} `{HR : !Runtime F} `{HK : !KeyOps} (DEFAULT_LOAD_FACTOR : F).

(** [ht_next] counts the allocations of entries; it is the address of the next one. *)
Record cc_hashtable := mk_table {
  ht_capacity : Z;
  ht_size : Z;
  ht_threshold : Z;
  ht_hash_seed : Z;
  ht_key_len : Z;
  ht_load_factor : F;
  ht_buckets : list (list table_entry);
  ht_next : Z;
}.

Definition set_chains (n : Z) (b : list (list table_entry)) (t : cc_hashtable) : cc_hashtable :=
  mk_table (ht_capacity t) n (ht_threshold t) (ht_hash_seed t) (ht_key_len t) (ht_load_factor t) b (ht_next t).

Definition count_alloc (t : cc_hashtable) : cc_hashtable :=
  mk_table (ht_capacity t) (ht_size t) (ht_threshold t) (ht_hash_seed t) (ht_key_len t) (ht_load_factor t)
    (ht_buckets t) (ht_next t + 1).

Definition table_result : Type := cc_stat * option Z * cc_hashtable.

(** [buckets[i]] and its assignment. *)
Definition bucket (b : list (list table_entry)) (i : Z) : outcome (list table_entry) :=
  match b !! Z.to_nat i with Some c => Ret c | None => Fault end.
Definition set_bucket (b : list (list table_entry)) (i : Z) (c : list table_entry) : outcome (list (list table_entry)) :=
  if i <? Z.of_nat (length b) then Ret (<[Z.to_nat i := c]> b) else Fault.

(** ** Construction *)

Definition round_pow_two (n : Z) : Z :=
  if MAX_POW_TWO <=? n then MAX_POW_TWO
  else if n =? 0 then 1
  else
    let n := n - 1 in
    let n := n ||| n >>> 1 in
    let n := n ||| n >>> 2 in
    let n := n ||| n >>> 4 in
    let n := n ||| n >>> 8 in
    let n := n ||| n >>> 16 in
    u32 (n + 1).

Definition cc_hashtable_new_conf (load_factor : F) (initial_capacity key_length hash_seed : Z)
    : option cc_hashtable * cc_stat :=
  let capacity := round_pow_two initial_capacity in
  match mem_calloc 1 SIZEOF_TABLE, mem_calloc capacity PTR with
  | None, _ | _, None => (None, CC_ERR_ALLOC)
  | Some _, Some _ =>
      (Some (mk_table capacity 0 (scale capacity load_factor) hash_seed key_length load_factor
               (replicate (Z.to_nat capacity) []) 0), CC_OK)
  end.

Definition cc_hashtable_new : option cc_hashtable * cc_stat :=
  cc_hashtable_new_conf DEFAULT_LOAD_FACTOR HT_DEFAULT_CAPACITY KEY_LENGTH_VARIABLE 0.

(** ** Growth *)

(** Pushing the entries of one chain, in order, on the chains they now belong to. *)
Fixpoint move_chain (entries : list table_entry) (dest : list (list table_entry)) (dest_size : Z)
    : outcome (list (list table_entry)) :=
  match entries with
  | [] => Ret dest
  | entry :: next =>
      let index := te_hash entry &&& u32 (dest_size - 1) in
      c ← bucket dest index;
      dest ← set_bucket dest index (entry :: c);
      move_chain next dest dest_size
  end.

Fixpoint move_entries (src dest : list (list table_entry)) (dest_size : Z) : outcome (list (list table_entry)) :=
  match src with
  | [] => Ret dest
  | entries :: src => dest ← move_chain entries dest dest_size; move_entries src dest dest_size
  end.

Definition resize (t : cc_hashtable) (new_capacity : Z) : outcome (cc_stat * cc_hashtable) :=
  if ht_capacity t =? MAX_POW_TWO then Ret (CC_ERR_MAX_CAPACITY, t)
  else
    match mem_calloc new_capacity SIZEOF_ENTRY with
    | None => Ret (CC_ERR_ALLOC, t)
    | Some _ =>
        b ← move_entries (ht_buckets t) (replicate (Z.to_nat new_capacity) []) new_capacity;
        Ret (CC_OK, mk_table new_capacity (ht_size t) (scale new_capacity (ht_load_factor t)) (ht_hash_seed t)
                      (ht_key_len t) (ht_load_factor t) b (ht_next t))
    end.

(** ** Looking along a chain *)

(** The place of the first entry that [here] accepts. *)
Fixpoint chain_find (here : table_entry -> outcome bool) (c : list table_entry) : outcome (option nat) :=
  match c with
  | [] => Ret None
  | e :: next =>
      m ← here e;
      if m : bool then Ret (Some O) else r ← chain_find here next; Ret (option_map S r)
  end.

(** [entry->key && key_cmp(entry->key, key) == 0], in the two orders the code
    uses, and [entry->key == NULL]. *)
Definition same_key (key : Z) (e : table_entry) : outcome bool :=
  if te_key e =? 0 then Ret false else r ← ht_key_cmp (te_key e) key; Ret (r =? 0).
Definition key_same (key : Z) (e : table_entry) : outcome bool :=
  if te_key e =? 0 then Ret false else r ← ht_key_cmp key (te_key e); Ret (r =? 0).
Definition null_key (e : table_entry) : outcome bool := Ret (te_key e =? 0).

Definition get_table_index (t : cc_hashtable) (key : Z) : outcome Z :=
  hash ← ht_hash key (ht_key_len t) (ht_hash_seed t);
  Ret (hash &&& u32 (ht_capacity t - 1)).

(** ** Insertion *)

(** Replacing the value of the entry [here] finds in chain [i], or a new entry. *)
Definition put_entry (here : table_entry -> outcome bool) (i key val hash : Z) (t : cc_hashtable)
    : outcome (cc_stat * cc_hashtable) :=
  c ← bucket (ht_buckets t) i;
  r ← chain_find here c;
  match r with
  | Some n =>
      b ← set_bucket (ht_buckets t) i
            (alter (fun e => mk_entry (te_key e) val (te_hash e) (te_addr e)) n c);
      Ret (CC_OK, set_chains (ht_size t) b t)
  | None =>
      if entry_granted (ht_next t) then
        b ← set_bucket (ht_buckets t) i (mk_entry key val hash (ht_next t) :: c);
        Ret (CC_OK, count_alloc (set_chains (u32 (ht_size t + 1)) b t))
      else Ret (CC_ERR_ALLOC, count_alloc t)
  end.

Definition add_null_key (t : cc_hashtable) (val : Z) : outcome (cc_stat * cc_hashtable) :=
  put_entry null_key 0 0 val 0 t.

Definition cc_hashtable_add (t : cc_hashtable) (key val : Z) : outcome (cc_stat * cc_hashtable) :=
  s ← (if ht_threshold t <=? ht_size t then resize t (u32 (ht_capacity t <<< 1)) else Ret (CC_OK, t));
  if negb (bool_decide (s.1 = CC_OK)) then Ret s
  else
    let t := s.2 in
    if key =? 0 then add_null_key t val
    else
      hash ← ht_hash key (ht_key_len t) (ht_hash_seed t);
      put_entry (same_key key) (hash &&& u32 (ht_capacity t - 1)) key val hash t.

(** ** Lookup *)

Definition get_entry (here : table_entry -> outcome bool) (i : Z) (t : cc_hashtable) : outcome table_result :=
  c ← bucket (ht_buckets t) i;
  r ← chain_find here c;
  Ret (match r ≫= (c !!.) with
       | Some e => (CC_OK, Some (te_value e), t)
       | None => (CC_ERR_KEY_NOT_FOUND, None, t)
       end).

Definition get_null_key (t : cc_hashtable) : outcome table_result := get_entry null_key 0 t.

Definition cc_hashtable_get (t : cc_hashtable) (key : Z) : outcome table_result :=
  if key =? 0 then get_null_key t
  else i ← get_table_index t key; get_entry (same_key key) i t.

Definition cc_hashtable_contains_key (t : cc_hashtable) (key : Z) : outcome bool :=
  i ← get_table_index t key;
  c ← bucket (ht_buckets t) i;
  r ← chain_find (fun e => r ← ht_key_cmp key (te_key e); Ret (r =? 0)) c;
  Ret (bool_decide (is_Some r)).

(** ** Removal *)

Definition remove_entry (here : table_entry -> outcome bool) (i : Z) (t : cc_hashtable) : outcome table_result :=
  c ← bucket (ht_buckets t) i;
  r ← chain_find here c;
  match r with
  | Some n =>
      match c !! n with
      | Some e =>
          b ← set_bucket (ht_buckets t) i (delete n c);
          Ret (CC_OK, Some (te_value e), set_chains (u32 (ht_size t - 1)) b t)
      | None => Fault
      end
  | None => Ret (CC_ERR_KEY_NOT_FOUND, None, t)
  end.

Definition remove_null_key (t : cc_hashtable) : outcome table_result := remove_entry null_key 0 t.

Definition cc_hashtable_remove (t : cc_hashtable) (key : Z) : outcome table_result :=
  if key =? 0 then remove_null_key t
  else i ← get_table_index t key; remove_entry (key_same key) i t.

Definition cc_hashtable_remove_all (t : cc_hashtable) : cc_hashtable :=
  set_chains (foldl (fun n c => foldl (fun n _ => u32 (n - 1)) n c) (ht_size t) (ht_buckets t))
    ((fun _ => []) <$> ht_buckets t) t.

(** The addresses of the entries [cc_hashtable_destroy] frees, in order. *)
Definition cc_hashtable_destroy (t : cc_hashtable) : list Z := te_addr <$> concat (ht_buckets t).

Definition cc_hashtable_size (t : cc_hashtable) : Z := ht_size t.
Definition cc_hashtable_capacity (t : cc_hashtable) : Z := ht_capacity t.

(** ** Traversal *)

Definition cc_hashtable_foreach_key (t : cc_hashtable) : list Z := te_key <$> concat (ht_buckets t).
Definition cc_hashtable_foreach_value (t : cc_hashtable) : list Z := te_value <$> concat (ht_buckets t).

(** Adding to an array, in order, until an addition fails. *)
Fixpoint fill (xs : list Z) (a : cc_array F) : outcome (cc_stat * option (cc_array F)) :=
  match xs with
  | [] => Ret (CC_OK, Some a)
  | x :: xs =>
      r ← cc_array_add a x;
      if bool_decide (r.1.1 = CC_OK) then fill xs r.2 else Ret (r.1.1, None)
  end.

Definition cc_hashtable_get_values (t : cc_hashtable) : outcome (cc_stat * option (cc_array F)) :=
  match cc_array_new_conf DEFAULT_EXPANSION_FACTOR (ht_size t) with
  | (Some values, CC_OK) => fill (te_value <$> concat (ht_buckets t)) values
  | (_, stat) => Ret (stat, None)
  end.

Definition cc_hashtable_get_keys (t : cc_hashtable) : outcome (cc_stat * option (cc_array F)) :=
  match cc_array_new_conf DEFAULT_EXPANSION_FACTOR (ht_size t) with
  | (Some keys, CC_OK) => fill (te_key <$> concat (ht_buckets t)) keys
  | (_, stat) => Ret (stat, None)
  end.

(** ** Iterators *)

Record cc_hashtable_iter := mk_ht_iter {
  hi_table : cc_hashtable;
  hi_bucket_index : Z;
  hi_prev_entry : option Z;                    (** addresses of entries *)
  hi_next_entry : option Z;
}.

(** The entry at an address with the entries after it in its chain. *)
Fixpoint entry_in (a : Z) (c : list table_entry) : option (table_entry * list table_entry) :=
  match c with
  | [] => None
  | e :: next => if te_addr e =? a then Some (e, next) else entry_in a next
  end.

Fixpoint entry_at (a : Z) (b : list (list table_entry)) : outcome (table_entry * list table_entry) :=
  match b with
  | [] => Fault
  | c :: b => match entry_in a c with Some r => Ret r | None => entry_at a b end
  end.

(** The first non-empty chain from bucket [i] on. *)
Fixpoint first_chain (i : Z) (b : list (list table_entry)) : option (Z * Z) :=
  match b with
  | [] => None
  | [] :: b => first_chain (i + 1) b
  | (e :: _) :: _ => Some (i, te_addr e)
  end.

Definition cc_hashtable_iter_init (t : cc_hashtable) : cc_hashtable_iter :=
  match first_chain 0 (ht_buckets t) with
  | Some (i, e) => mk_ht_iter t i None (Some e)
  | None => mk_ht_iter t 0 None None
  end.

Definition table_iter_result : Type := cc_stat * option table_entry * cc_hashtable_iter.

Definition cc_hashtable_iter_next (it : cc_hashtable_iter) : outcome table_iter_result :=
  match hi_next_entry it with
  | None => Ret (CC_ITER_END, None, it)
  | Some a =>
      e ← entry_at a (ht_buckets (hi_table it));
      match e.2 with
      | n :: _ => Ret (CC_OK, Some e.1, mk_ht_iter (hi_table it) (hi_bucket_index it) (Some a) (Some (te_addr n)))
      | [] =>
          let i := hi_bucket_index it + 1 in
          match first_chain i (drop (Z.to_nat i) (ht_buckets (hi_table it))) with
          | Some (j, n) => Ret (CC_OK, Some e.1, mk_ht_iter (hi_table it) j (Some a) (Some n))
          | None => Ret (CC_OK, Some e.1, mk_ht_iter (hi_table it) (hi_bucket_index it) (Some a) None)
          end
      end
  end.

Definition cc_hashtable_iter_remove (it : cc_hashtable_iter) : outcome (cc_stat * option Z * cc_hashtable_iter) :=
  match hi_prev_entry it with
  | None => Fault
  | Some a =>
      e ← entry_at a (ht_buckets (hi_table it));
      r ← cc_hashtable_remove (hi_table it) (te_key e.1);
      Ret (r.1, mk_ht_iter r.2 (hi_bucket_index it) (hi_prev_entry it) (hi_next_entry it))
  end.
End Table.
