(* ===== verification/CcHashTableFacts.v ===== *)
(** * The hash table as a finite map

    [tmap] is the map a table stands for, from the identities of its keys to
    its values.  The proofs see the entries of a table as a multiset: a chain
    is a part of it, and the operations are given by the entry they add,
    change or take out. *)

From S2P Require Import Prelude CMem CcArray Blocks CcDeque CcHashTable.
Local Open Scope c_scope.

(** ** What the configured functions promise

    [canon] names the key a pointer stands for; the comparator decides whether
    two pointers stand for the same key, and the hash depends on the key only. *)
Class KeyLaws `{KeyOps} := {
  valid_key : Z -> Prop;
  canon : Z -> Z;
  valid_nonnull key : valid_key key -> key <> 0;
  hash_ok key len seed : valid_key key -> exists h, ht_hash key len seed = Ret h /\ fits 32 h;
  hash_canon a b len seed :
    valid_key a -> valid_key b -> canon a = canon b -> ht_hash a len seed = ht_hash b len seed;
  cmp_ok a b :
    valid_key a -> valid_key b -> exists r, ht_key_cmp a b = Ret r /\ (r = 0 <-> canon a = canon b);
}.

(** ** Chains and entries *)

Section Chains.
Context {A : Type}.
Implicit Types (b : list (list A)) (c : list A).

Lemma concat_split b i c : b !! i = Some c -> concat b ≡ₚ c ++ concat (delete i b).
Proof.
  intros H. rewrite delete_take_drop, <-(take_drop_middle b i c H) at 1.
  rewrite !concat_app. simpl. rewrite !app_assoc. f_equiv. apply Permutation_app_comm.
Qed.

Lemma delete_insert_list b i c : (i < length b)%nat -> delete i (<[i := c]> b) = delete i b.
Proof.
  intros H. rewrite !delete_take_drop. by rewrite take_insert_ge, drop_insert_lt by lia.
Qed.

Lemma concat_insert b i c : (i < length b)%nat -> concat (<[i := c]> b) ≡ₚ c ++ concat (delete i b).
Proof.
  intros H. rewrite (concat_split (<[i := c]> b) i c) by (by apply list_lookup_insert_eq).
  by rewrite delete_insert_list.
Qed.

(** Splitting a chain at the entry found. *)
Lemma find_split (P : A -> Prop) `{!forall x, Decision (P x)} c n e :
  list_find P c = Some (n, e) -> c ≡ₚ e :: delete n c /\ c !! n = Some e /\ P e.
Proof.
  intros (Hn & HP & _)%list_find_Some. split_and!; [|done..].
  rewrite <-(take_drop_middle c n e Hn) at 1. rewrite delete_take_drop.
  by rewrite Permutation_middle.
Qed.

Lemma alter_split f c n (e : A) : c !! n = Some e -> alter f n c ≡ₚ f e :: delete n c.
Proof.
  intros Hn. pose proof (lookup_lt_Some _ _ _ Hn) as Hl. rewrite delete_take_drop.
  rewrite <-(take_drop_middle (alter f n c) n (f e)) by (by rewrite list_lookup_alter_eq, Hn).
  assert (take n (alter f n c) = take n c) as ->.
  { apply list_eq. intros j. destruct (decide (j < n)%nat).
    - rewrite !lookup_take_lt by done. by rewrite list_lookup_alter_ne by lia.
    - by rewrite !lookup_take_ge by lia. }
  assert (drop (S n) (alter f n c) = drop (S n) c) as ->.
  { apply list_eq. intros j. rewrite !lookup_drop. by rewrite list_lookup_alter_ne by lia. }
  by rewrite <-Permutation_middle.
Qed.
End Chains.

Section Facts.
Context {F : Type} `{HR : !Runtime F} `{HRL : !RuntimeLaws F} `{HK : !KeyOps} `{HL : !KeyLaws}.
Local Abbreviation cc_hashtable := (cc_hashtable (F := F)).
Implicit Types (t : cc_hashtable) (e : table_entry) (key : Z).

(** The identity of a key; NULL is a key of its own. *)
Definition kid key : option Z := if key =? 0 then None else Some (canon key).
Definition ekid e : option Z := kid (te_key e).

(** The keys a call may be given. *)
Definition key_ok key : Prop := key = 0 \/ valid_key key.

(** The hash of a key under the configuration of the table. *)
Definition hash_of t key : outcome Z :=
  if key =? 0 then Ret 0 else ht_hash key (ht_key_len t) (ht_hash_seed t).

Definition entries t : list table_entry := concat (ht_buckets t).
Definition pairs (l : list table_entry) : list (option Z * Z) := (fun e => (ekid e, te_value e)) <$> l.
Definition emap (l : list table_entry) : gmap (option Z) Z := list_to_map (pairs l).
Definition tmap t : gmap (option Z) Z := emap (entries t).

Record table_wf t : Prop := {
  hw_pow : pow_cap (ht_capacity t);
  hw_length : Z.of_nat (length (ht_buckets t)) = ht_capacity t;
  hw_placed : forall i c e, ht_buckets t !! i = Some c -> e ∈ c -> te_hash e mod ht_capacity t = Z.of_nat i;
  hw_keys : Forall (fun e => key_ok (te_key e) /\ hash_of t (te_key e) = Ret (te_hash e) /\ 0 <= te_hash e) (entries t);
  hw_nodup : NoDup (ekid <$> entries t);
  hw_addr : NoDup (te_addr <$> entries t) /\ Forall (fun e => te_addr e < ht_next t) (entries t);
  hw_size : ht_size t = Z.of_nat (length (entries t));
}.

Lemma pairs_fst l : (pairs l).*1 = ekid <$> l.
Proof. unfold pairs. rewrite <-list_fmap_compose. done. Qed.

Lemma emap_perm l1 l2 : NoDup (ekid <$> l1) -> l1 ≡ₚ l2 -> emap l1 = emap l2.
Proof.
  intros Hn Hp. apply list_to_map_proper; [by rewrite pairs_fst|]. unfold pairs. by rewrite Hp.
Qed.

Lemma emap_cons e l : emap (e :: l) = <[ekid e := te_value e]> (emap l).
Proof. done. Qed.

Lemma emap_none l k : k ∉ ekid <$> l <-> emap l !! k = None.
Proof. rewrite <-pairs_fst. split; [apply not_elem_of_list_to_map_1|apply not_elem_of_list_to_map_2]. Qed.

Lemma emap_some l e : NoDup (ekid <$> l) -> e ∈ l -> emap l !! ekid e = Some (te_value e).
Proof.
  intros Hn He. apply elem_of_list_to_map_1; [by rewrite pairs_fst|].
  unfold pairs. apply list_elem_of_fmap. by exists e.
Qed.

(** ** Finding a key *)

Lemma cmp_null a : valid_key a -> (a =? 0) = false.
Proof using HL. intros H. by apply Z.eqb_neq, valid_nonnull. Qed.

Lemma kid_eq a b : valid_key a -> valid_key b -> kid a = kid b <-> canon a = canon b.
Proof.
  intros Ha Hb. unfold kid. rewrite !cmp_null by done. split; [by intros [=]|congruence].
Qed.

(** A test that recognises the entries of a key. *)
Definition accurate (here : table_entry -> outcome bool) key : Prop :=
  forall e, key_ok (te_key e) -> here e = Ret (bool_decide (ekid e = kid key)).

Lemma cmp_decides a b r :
  valid_key a -> valid_key b -> ht_key_cmp a b = Ret r -> (r =? 0) = bool_decide (kid a = kid b).
Proof.
  intros Ha Hb E. destruct (cmp_ok a b Ha Hb) as (r' & E' & Hr). rewrite E in E'. injection E' as <-.
  apply eq_iff_eq_true. rewrite Z.eqb_eq, bool_decide_eq_true, kid_eq by done. done.
Qed.

Lemma null_accurate : accurate null_key 0.
Proof.
  intros e He. unfold null_key, ekid. f_equal. apply eq_iff_eq_true.
  rewrite Z.eqb_eq, bool_decide_eq_true. unfold kid. simpl. destruct (Z.eqb_spec (te_key e) 0); done.
Qed.

Lemma same_accurate key : valid_key key -> accurate (same_key key) key /\ accurate (key_same key) key.
Proof.
  intros Hk. split; intros e [He|He]; unfold same_key, key_same, ekid.
  1,3: rewrite He; simpl; unfold kid; rewrite (cmp_null key) by done; done.
  - rewrite cmp_null by done. destruct (cmp_ok (te_key e) key He Hk) as (r & E & _).
    rewrite E, bind_Ret. f_equal. by apply cmp_decides.
  - rewrite cmp_null by done. destruct (cmp_ok key (te_key e) Hk He) as (r & E & _).
    rewrite E, bind_Ret. f_equal. rewrite (cmp_decides _ _ _ Hk He E). by apply bool_decide_ext.
Qed.

Lemma chain_find_spec here key c :
  accurate here key -> Forall (fun e => key_ok (te_key e)) c ->
  chain_find here c = Ret (fst <$> list_find (fun e => ekid e = kid key) c).
Proof.
  intros Ha. induction 1 as [|e c He Hc IH]; cbn [chain_find]; [done|].
  rewrite (Ha e He), bind_Ret. simpl. destruct (decide (ekid e = kid key)) as [E|E].
  - by rewrite bool_decide_eq_true_2.
  - rewrite bool_decide_eq_false_2 by done. rewrite IH, bind_Ret.
    by destruct (list_find _ c) as [[n x]|].
Qed.

Lemma hash_of_ok t key : key_ok key -> exists h, hash_of t key = Ret h /\ 0 <= h.
Proof using HL.
  intros [->|Hk]; unfold hash_of; [by exists 0|]. rewrite cmp_null by done.
  destruct (hash_ok key (ht_key_len t) (ht_hash_seed t) Hk) as (h & -> & Hh). exists h. split; [done|apply Hh].
Qed.

Lemma hash_of_kid t a b : key_ok a -> key_ok b -> kid a = kid b -> hash_of t a = hash_of t b.
Proof using HL.
  intros [->|Ha] [->|Hb]; unfold kid, hash_of; simpl;
    rewrite ?(cmp_null a), ?(cmp_null b) by done; try done.
  intros [= E]. by apply hash_canon.
Qed.

(** The chain of a key: every entry of the table with that key is in it. *)
Lemma locate t key h :
  table_wf t -> key_ok key -> hash_of t key = Ret h ->
  exists c, ht_buckets t !! Z.to_nat (h mod ht_capacity t) = Some c /\
    bucket (ht_buckets t) (h mod ht_capacity t) = Ret c /\ c ⊆ entries t /\
    Forall (fun e => key_ok (te_key e)) c /\
    (forall e, e ∈ entries t -> ekid e = kid key -> e ∈ c).
Proof using HL.
  intros Hw Hk Hh. pose proof (pow_cap_bounds _ (hw_pow _ Hw)) as Hp. pose proof (hw_length _ Hw) as Hl.
  pose proof (Z.mod_pos_bound h (ht_capacity t) ltac:(lia)) as Hm.
  destruct (lookup_lt_is_Some_2 (ht_buckets t) (Z.to_nat (h mod ht_capacity t))) as [c Hc]; [lia|].
  exists c. split; [done|]. split; [unfold bucket; by rewrite Hc|].
  assert (c ⊆ entries t) as Hsub.
  { intros e He. unfold entries. rewrite list_elem_of_In, in_concat. exists c.
    rewrite <-!list_elem_of_In. split; [by eapply list_elem_of_lookup_2|done]. }
  pose proof (hw_keys _ Hw) as Hks. rewrite list.Forall_forall in Hks.
  split; [done|]. split; [apply list.Forall_forall; intros e He; by apply Hks, Hsub|].
  intros e He Ek. destruct (Hks e He) as (Hke & Hhe & _).
  assert (te_hash e = h) as <-.
  { rewrite (hash_of_kid t (te_key e) key) in Hhe by done. congruence. }
  unfold entries in He. rewrite list_elem_of_In, in_concat in He. destruct He as (c' & Hc' & He').
  apply list_elem_of_In, list_elem_of_lookup_1 in Hc' as (i & Hi). apply list_elem_of_In in He'.
  rewrite (hw_placed _ Hw i c' e Hi He'), Nat2Z.id in Hc. congruence.
Qed.

(** What looking for a key along its chain finds. *)
Lemma find_key t key c :
  table_wf t -> c ⊆ entries t -> (forall e, e ∈ entries t -> ekid e = kid key -> e ∈ c) ->
  match list_find (fun e => ekid e = kid key) c with
  | Some (n, e) => c !! n = Some e /\ ekid e = kid key /\ tmap t !! kid key = Some (te_value e)
  | None => tmap t !! kid key = None
  end.
Proof.
  intros Hw Hsub Hall. destruct (list_find _ c) as [[n e]|] eqn:E.
  - apply find_split in E as (_ & Hn & Hk). split_and!; [done..|]. rewrite <-Hk.
    apply emap_some; [apply Hw|]. apply Hsub. by eapply list_elem_of_lookup_2.
  - apply list_find_None in E. rewrite list.Forall_forall in E. apply emap_none.
    intros (e & Hk & He)%list_elem_of_fmap. by apply (E e); [apply Hall|].
Qed.

(** ** Reading *)

Lemma get_entry_spec t key h here :
  table_wf t -> key_ok key -> hash_of t key = Ret h -> accurate here key ->
  get_entry here (h mod ht_capacity t) t
  = Ret (match tmap t !! kid key with
         | Some v => (CC_OK, Some v, t) | None => (CC_ERR_KEY_NOT_FOUND, None, t) end).
Proof using HL.
  intros Hw Hk Hh Ha. destruct (locate t key h Hw Hk Hh) as (c & _ & Hb & Hsub & Hck & Hall).
  unfold get_entry. rewrite Hb, bind_Ret, (chain_find_spec here key) by done. rewrite bind_Ret.
  pose proof (find_key t key c Hw Hsub Hall) as H. destruct (list_find _ c) as [[n e]|]; simpl.
  - destruct H as (-> & _ & ->). done.
  - by rewrite H.
Qed.

Lemma table_index_spec t key h :
  table_wf t -> valid_key key -> hash_of t key = Ret h -> get_table_index t key = Ret (h mod ht_capacity t).
Proof using HL.
  intros Hw Hk Hh. unfold hash_of in Hh. rewrite cmp_null in Hh by done.
  unfold get_table_index. rewrite Hh, bind_Ret, land_pow by apply Hw. done.
Qed.

Lemma get_spec t key :
  table_wf t -> key_ok key ->
  cc_hashtable_get t key
  = Ret (match tmap t !! kid key with
         | Some v => (CC_OK, Some v, t) | None => (CC_ERR_KEY_NOT_FOUND, None, t) end).
Proof using HL.
  intros Hw Hk. unfold cc_hashtable_get. destruct (hash_of_ok t key Hk) as (h & Hh & _).
  destruct Hk as [->|Hk].
  - simpl. unfold get_null_key. rewrite <-(get_entry_spec t 0 h null_key); [|done|by left|done|apply null_accurate].
    f_equal. simpl in Hh. injection Hh as <-. by rewrite Z.mod_0_l by (pose proof (pow_cap_bounds _ (hw_pow _ Hw)); lia).
  - rewrite cmp_null by done. rewrite (table_index_spec t key h), bind_Ret by done.
    apply get_entry_spec; [done|by right|done|by apply same_accurate].
Qed.

(** ** Changing one chain *)

Definition with_chain t (i : nat) (c : list table_entry) (n next : Z) : cc_hashtable :=
  mk_table (ht_capacity t) n (ht_threshold t) (ht_hash_seed t) (ht_key_len t) (ht_load_factor t)
    (<[i := c]> (ht_buckets t)) next.

(** The entries outside chain [i]. *)
Definition others t (i : nat) : list table_entry := concat (delete i (ht_buckets t)).

Definition good_entry t (i : nat) (next : Z) e : Prop :=
  key_ok (te_key e) /\ hash_of t (te_key e) = Ret (te_hash e) /\ 0 <= te_hash e /\
  te_hash e mod ht_capacity t = Z.of_nat i /\ te_addr e < next.

Lemma entries_chain t i c : ht_buckets t !! i = Some c -> entries t ≡ₚ c ++ others t i.
Proof. apply concat_split. Qed.

Lemma good_chain t i c next :
  table_wf t -> ht_buckets t !! i = Some c -> ht_next t <= next -> Forall (good_entry t i next) c.
Proof.
  intros Hw Hc Hn. apply list.Forall_forall. intros e He.
  assert (e ∈ entries t) as Hin by (rewrite (entries_chain t i c), elem_of_app by done; by left).
  pose proof (hw_keys _ Hw) as Hk. pose proof (proj2 (hw_addr _ Hw)) as Ha.
  rewrite list.Forall_forall in Hk, Ha. specialize (Ha e Hin). simpl in Ha.
  destruct (Hk e Hin) as (H1 & H2 & H3).
  split_and!; [done..|by eapply hw_placed|lia].
Qed.

Lemma wf_chain t i c c' n next :
  table_wf t -> ht_buckets t !! i = Some c -> Forall (good_entry t i next) c' -> ht_next t <= next ->
  NoDup (ekid <$> c' ++ others t i) -> NoDup (te_addr <$> c' ++ others t i) ->
  n = Z.of_nat (length (c' ++ others t i)) ->
  table_wf (with_chain t i c' n next) /\ entries (with_chain t i c' n next) ≡ₚ c' ++ others t i.
Proof.
  intros Hw Hc Hg Hn Hk Ha Hl. pose proof (lookup_lt_Some _ _ _ Hc) as Hi.
  assert (entries (with_chain t i c' n next) ≡ₚ c' ++ others t i) as Hp by (by apply concat_insert).
  split; [|done]. rewrite list.Forall_forall in Hg.
  assert (forall e, e ∈ others t i -> e ∈ entries t) as Hin.
  { intros e He. rewrite (entries_chain t i c), elem_of_app by done. by right. }
  split; simpl.
  - apply Hw.
  - rewrite length_insert. apply Hw.
  - intros j d e Hj He. destruct (decide (i = j)) as [<-|Hij].
    + rewrite list_lookup_insert_eq in Hj by done. injection Hj as <-. by apply Hg.
    + rewrite list_lookup_insert_ne in Hj by done. by eapply hw_placed.
  - rewrite Hp. apply Forall_app. split; apply list.Forall_forall; intros e He.
    + destruct (Hg e He) as (? & ? & ? & _). done.
    + pose proof (hw_keys _ Hw) as Hks. rewrite list.Forall_forall in Hks. by apply Hks, Hin.
  - by rewrite Hp.
  - rewrite Hp. split; [done|]. apply Forall_app. split; apply list.Forall_forall; intros e He.
    + by apply Hg.
    + pose proof (proj2 (hw_addr _ Hw)) as Hks. rewrite list.Forall_forall in Hks.
      specialize (Hks e (Hin e He)). simpl in Hks. lia.
  - rewrite Hl. f_equal. by rewrite Hp.
Qed.

Lemma set_bucket_ok t i c :
  table_wf t -> 0 <= i < ht_capacity t ->
  set_bucket (ht_buckets t) i c = Ret (<[Z.to_nat i := c]> (ht_buckets t)).
Proof.
  intros Hw Hi. unfold set_bucket. rewrite (proj2 (Z.ltb_lt _ _)); [done|]. rewrite (hw_length _ Hw). lia.
Qed.

(** Taking one entry out of the multiset. *)
Lemma entries_take t i c n e :
  ht_buckets t !! i = Some c -> c !! n = Some e -> entries t ≡ₚ e :: delete n c ++ others t i.
Proof.
  intros Hc Hn. rewrite (entries_chain t i c) by done.
  change (e :: delete n c ++ others t i) with ((e :: delete n c) ++ others t i).
  apply Permutation_app_tail. rewrite delete_take_drop, <-(take_drop_middle c n e Hn) at 1.
  by rewrite Permutation_middle.
Qed.

Lemma tmap_perm t l : table_wf t -> entries t ≡ₚ l -> tmap t = emap l.
Proof. intros Hw Hp. apply emap_perm; [apply Hw|done]. Qed.

Definition with_value (val : Z) e : table_entry := mk_entry (te_key e) val (te_hash e) (te_addr e).

Lemma chain_replace t i c n e val :
  table_wf t -> ht_buckets t !! i = Some c -> c !! n = Some e ->
  let t' := with_chain t i (alter (with_value val) n c) (ht_size t) (ht_next t) in
  table_wf t' /\ tmap t' = <[ekid e := val]> (tmap t).
Proof.
  intros Hw Hc Hn. pose proof (entries_take t i c n e Hc Hn) as Hp.
  pose proof (alter_split (with_value val) c n e Hn) as Hal.
  pose proof (hw_nodup _ Hw) as Hnd. pose proof (proj1 (hw_addr _ Hw)) as Had. pose proof (hw_size _ Hw) as Hs.
  rewrite Hp in Hnd, Had, Hs. pose proof (good_chain t i c (ht_next t) Hw Hc ltac:(lia)) as Hg.
  destruct (wf_chain t i c (alter (with_value val) n c) (ht_size t) (ht_next t)) as [Hw' Hp'];
    [done|done| |lia|rewrite Hal; done..|].
  - rewrite Hal. constructor; [|by apply Forall_delete].
    by apply (Forall_lookup_1 _ _ _ _ Hg Hn).
  - split; [done|]. rewrite (tmap_perm t _ Hw Hp), (tmap_perm _ _ Hw' Hp').
    rewrite (emap_perm _ (with_value val e :: delete n c ++ others t i)); [..|by rewrite Hal].
    + rewrite !emap_cons. by rewrite insert_insert_eq.
    + rewrite Hal. done.
Qed.

Lemma chain_new t i c e :
  table_wf t -> ht_buckets t !! i = Some c -> good_entry t i (ht_next t + 1) e -> te_addr e = ht_next t ->
  tmap t !! ekid e = None ->
  let t' := with_chain t i (e :: c) (ht_size t + 1) (ht_next t + 1) in
  table_wf t' /\ tmap t' = <[ekid e := te_value e]> (tmap t).
Proof.
  intros Hw Hc Hg Ha Hm. pose proof (entries_chain t i c Hc) as Hp.
  pose proof (hw_nodup _ Hw) as Hnd. pose proof (hw_addr _ Hw) as [Had Hlt]. pose proof (hw_size _ Hw) as Hs.
  rewrite Hp in Hnd, Had, Hlt, Hs. rewrite (tmap_perm t _ Hw Hp) in Hm |- *.
  destruct (wf_chain t i c (e :: c) (ht_size t + 1) (ht_next t + 1)) as [Hw' Hp'];
    [done|done|constructor; [done|apply good_chain; done || lia]|lia| | |simpl; lia|].
  - simpl. constructor; [|done]. by apply emap_none.
  - simpl. constructor; [|done]. intros (e' & He' & Hin)%list_elem_of_fmap.
    rewrite list.Forall_forall in Hlt. specialize (Hlt e' Hin). simpl in Hlt. lia.
  - split; [done|]. by rewrite (tmap_perm _ _ Hw' Hp').
Qed.

Lemma chain_delete t i c n e :
  table_wf t -> ht_buckets t !! i = Some c -> c !! n = Some e ->
  let t' := with_chain t i (delete n c) (ht_size t - 1) (ht_next t) in
  table_wf t' /\ tmap t' = delete (ekid e) (tmap t).
Proof.
  intros Hw Hc Hn. pose proof (entries_take t i c n e Hc Hn) as Hp.
  pose proof (hw_nodup _ Hw) as Hnd. pose proof (proj1 (hw_addr _ Hw)) as Had. pose proof (hw_size _ Hw) as Hs.
  rewrite Hp in Hnd, Had, Hs. simpl in Hnd, Had, Hs. apply list.NoDup_cons in Hnd as [Hni Hnd]. apply list.NoDup_cons in Had as [_ Had].
  destruct (wf_chain t i c (delete n c) (ht_size t - 1) (ht_next t)) as [Hw' Hp'];
    [done|done|apply Forall_delete, good_chain; done || lia|lia|done|done|lia|].
  split; [done|]. rewrite (tmap_perm t _ Hw Hp), (tmap_perm _ _ Hw' Hp'), emap_cons.
  by rewrite delete_insert_id by (by apply emap_none).
Qed.

(** ** Insertion *)

(** What decides the outcome of an addition, and the addition on it: [sp_next]
    counts the allocations of entries. *)
Record table_spec := mk_spec { sp_map : gmap (option Z) Z; sp_next : Z; sp_capacity : Z; sp_threshold : Z }.

Definition spec_of t : table_spec := mk_spec (tmap t) (ht_next t) (ht_capacity t) (ht_threshold t).

Definition with_map (m : gmap (option Z) Z) (s : table_spec) : table_spec :=
  mk_spec m (sp_next s) (sp_capacity s) (sp_threshold s).

(** A key that is there is replaced; a new one needs an entry. *)
Definition put_step (key val : Z) (s : table_spec) : cc_stat * table_spec :=
  match sp_map s !! kid key with
  | Some _ => (CC_OK, with_map (<[kid key := val]> (sp_map s)) s)
  | None =>
      let s' := mk_spec (sp_map s) (sp_next s + 1) (sp_capacity s) (sp_threshold s) in
      if entry_granted (sp_next s) then (CC_OK, with_map (<[kid key := val]> (sp_map s)) s') else (CC_ERR_ALLOC, s')
  end.

(** At the threshold the capacity is doubled first, if it can be. *)
Definition grow_step (lf : F) (s : table_spec) : cc_stat * table_spec :=
  if sp_threshold s <=? Z.of_nat (base.size (sp_map s)) then
    if sp_capacity s =? MAX_POW_TWO then (CC_ERR_MAX_CAPACITY, s)
    else
      match mem_calloc (2 * sp_capacity s) SIZEOF_ENTRY with
      | None => (CC_ERR_ALLOC, s)
      | Some _ => (CC_OK, mk_spec (sp_map s) (sp_next s) (2 * sp_capacity s) (scale (2 * sp_capacity s) lf))
      end
  else (CC_OK, s).

Definition add_step (lf : F) (key val : Z) (s : table_spec) : cc_stat * table_spec :=
  match grow_step lf s with
  | (CC_OK, s') => put_step key val s'
  | (st, s') => (st, s')
  end.

Lemma table_count t : table_wf t -> ht_size t = Z.of_nat (base.size (tmap t)).
Proof.
  intros Hw. rewrite (hw_size _ Hw). unfold tmap, emap.
  rewrite map_size_list_to_map by (rewrite pairs_fst; apply Hw).
  unfold pairs. by rewrite length_fmap.
Qed.

Lemma put_spec t key val h here :
  table_wf t -> key_ok key -> hash_of t key = Ret h -> 0 <= h -> accurate here key -> ht_size t < 2 ^ 32 - 1 ->
  exists st t', put_entry here (h mod ht_capacity t) key val h t = Ret (st, t') /\ table_wf t' /\
    put_step key val (spec_of t) = (st, spec_of t') /\ ht_load_factor t' = ht_load_factor t.
Proof using HL.
  intros Hw Hk Hh Hh0 Ha Hsz. destruct (locate t key h Hw Hk Hh) as (c & Hc & Hb & Hsub & Hck & Hall).
  pose proof (Z.mod_pos_bound h (ht_capacity t) ltac:(pose proof (pow_cap_bounds _ (hw_pow _ Hw)); lia)) as Hm.
  pose proof (find_key t key c Hw Hsub Hall) as Hf.
  unfold put_entry, put_step. rewrite Hb, bind_Ret, (chain_find_spec here key), bind_Ret by done.
  destruct (list_find _ c) as [[n e]|] eqn:Ef; cbn [fst fmap option_fmap option_map spec_of sp_map sp_next].
  - destruct Hf as (Hn & Hke & Hin). rewrite set_bucket_ok, bind_Ret, Hin by done.
    destruct (chain_replace t _ c n e val Hw Hc Hn) as [Hw' Hm']. rewrite Hke in Hm'.
    eexists CC_OK, _. split; [reflexivity|]. split_and!; [exact Hw'| |done]. unfold with_map, spec_of. simpl.
    unfold with_chain, with_value in Hm'. unfold set_chains. simpl. by rewrite Hm'.
  - rewrite Hf. pose proof (hw_size _ Hw). destruct (entry_granted (ht_next t)).
    + rewrite set_bucket_ok, bind_Ret, wrap_id by (done || (unfold fits; lia)).
      destruct (chain_new t _ c (mk_entry key val h (ht_next t)) Hw Hc) as [Hw' Hm']; [|done|exact Hf|].
      { split_and!; simpl; try done; lia. }
      eexists CC_OK, _. split; [reflexivity|]. split_and!; [exact Hw'| |done]. unfold with_map, spec_of. simpl.
      unfold with_chain, ekid in Hm'. simpl in Hm'. unfold count_alloc, set_chains. simpl. by rewrite Hm'.
    + eexists CC_ERR_ALLOC, _. split; [reflexivity|]. split_and!; [|done..].
      destruct Hw as [? ? ? ? ? [? Hx] ?]. split; simpl; try done. split; [done|].
      eapply Forall_impl; [|exact Hx]. simpl. lia.
Qed.

(** ** Growth *)

Definition placed (b : list (list table_entry)) (cap : Z) : Prop :=
  Z.of_nat (length b) = cap /\ forall i c e, b !! i = Some c -> e ∈ c -> te_hash e mod cap = Z.of_nat i.

Lemma move_chain_spec cap l b :
  pow_cap cap -> placed b cap ->
  exists b', move_chain l b cap = Ret b' /\ placed b' cap /\ concat b' ≡ₚ l ++ concat b.
Proof.
  intros Hp. pose proof (pow_cap_bounds _ Hp). revert b. induction l as [|e l IH]; intros b [Hl Hpl]; cbn [move_chain].
  - by exists b.
  - rewrite land_pow by done. pose proof (Z.mod_pos_bound (te_hash e) cap ltac:(lia)) as Hm.
    destruct (lookup_lt_is_Some_2 b (Z.to_nat (te_hash e mod cap))) as [c Hc]; [lia|].
    unfold bucket. rewrite Hc, bind_Ret. unfold set_bucket. rewrite (proj2 (Z.ltb_lt _ _)), bind_Ret by lia.
    destruct (IH (<[Z.to_nat (te_hash e mod cap) := e :: c]> b)) as (b' & -> & Hpl' & Hpm).
    + split; [by rewrite length_insert|]. intros j d x Hj Hx.
      destruct (decide (Z.to_nat (te_hash e mod cap) = j)) as [<-|Hne].
      * rewrite list_lookup_insert_eq in Hj by lia. injection Hj as <-.
        apply elem_of_cons in Hx as [->|Hx]; [lia|]. by eapply Hpl.
      * rewrite list_lookup_insert_ne in Hj by done. by eapply Hpl.
    + exists b'. split_and!; [done|apply Hpl'..|]. rewrite Hpm, concat_insert, (concat_split b _ _ Hc) by lia.
      simpl. by rewrite <-Permutation_middle.
Qed.

Lemma move_entries_spec cap src b :
  pow_cap cap -> placed b cap ->
  exists b', move_entries src b cap = Ret b' /\ placed b' cap /\ concat b' ≡ₚ concat src ++ concat b.
Proof.
  intros Hp. revert b. induction src as [|c src IH]; intros b Hb; cbn [move_entries]; [by exists b|].
  destruct (move_chain_spec cap c b Hp Hb) as (b1 & -> & Hb1 & Hp1). rewrite bind_Ret.
  destruct (IH b1 Hb1) as (b' & -> & Hb' & Hp'). exists b'. split_and!; [done|apply Hb'..|].
  rewrite Hp', Hp1. simpl. rewrite !app_assoc. f_equiv. apply Permutation_app_comm.
Qed.

Lemma concat_nils {A} (n : nat) : concat (replicate n (@nil A)) = [].
Proof. by induction n. Qed.

Lemma placed_nils cap : 0 <= cap -> placed (replicate (Z.to_nat cap) []) cap.
Proof.
  intros Hc. split; [rewrite length_replicate; lia|].
  intros i c e [-> _]%lookup_replicate He. by apply elem_of_nil in He.
Qed.

(** The table with the same entries in a new array of chains. *)
Lemma wf_rehash t cap thr b :
  table_wf t -> pow_cap cap -> placed b cap -> concat b ≡ₚ entries t ->
  let t' := mk_table cap (ht_size t) thr (ht_hash_seed t) (ht_key_len t) (ht_load_factor t) b (ht_next t) in
  table_wf t' /\ tmap t' = tmap t.
Proof.
  intros Hw Hp [Hl Hpl] Hb t'. assert (entries t' ≡ₚ entries t) as He by done.
  assert (table_wf t') as Hw'.
  { split; simpl; try done; rewrite ?He; apply Hw. }
  split; [done|]. by apply tmap_perm.
Qed.

(** The growth of [cc_hashtable_add]. *)
Lemma grow_spec t :
  table_wf t ->
  exists st t1, (if ht_threshold t <=? ht_size t then resize t (u32 (ht_capacity t <<< 1)) else Ret (CC_OK, t)) = Ret (st, t1) /\
    table_wf t1 /\ grow_step (ht_load_factor t) (spec_of t) = (st, spec_of t1) /\ ht_load_factor t1 = ht_load_factor t.
Proof.
  intros Hw. pose proof (hw_pow _ Hw) as Hp. unfold grow_step, resize. cbn [spec_of sp_map sp_threshold sp_capacity].
  rewrite <-(table_count t Hw). destruct (_ <=? _); [|by exists CC_OK, t].
  destruct (Z.eqb_spec (ht_capacity t) MAX_POW_TWO) as [E|E]; [by exists CC_ERR_MAX_CAPACITY, t|].
  destruct (double_pow _ Hp E) as [-> Hp2]. pose proof (pow_cap_bounds _ Hp2).
  destruct (mem_calloc _ _); [|by exists CC_ERR_ALLOC, t].
  destruct (move_entries_spec (2 * ht_capacity t) (ht_buckets t) _ Hp2 (placed_nils (2 * ht_capacity t) ltac:(lia)))
    as (b & -> & Hb & Hpm). rewrite bind_Ret. rewrite concat_nils, app_nil_r in Hpm.
  destruct (wf_rehash t (2 * ht_capacity t) (scale (2 * ht_capacity t) (ht_load_factor t)) b Hw Hp2 Hb Hpm) as [Hw' Hm'].
  eexists _, _. split; [reflexivity|]. split_and!; [done| |done]. unfold spec_of. simpl. by rewrite Hm'.
Qed.

(** The entry of [cc_hashtable_add] into the table it then works on. *)
Lemma add_put t key val :
  table_wf t -> key_ok key -> ht_size t < 2 ^ 32 - 1 ->
  exists st t', (if key =? 0 then add_null_key t val
     else hash ← ht_hash key (ht_key_len t) (ht_hash_seed t);
          put_entry (same_key key) (hash &&& u32 (ht_capacity t - 1)) key val hash t) = Ret (st, t') /\ table_wf t' /\
    put_step key val (spec_of t) = (st, spec_of t') /\ ht_load_factor t' = ht_load_factor t.
Proof using HL.
  intros Hw Hk Hsz. destruct (hash_of_ok t key Hk) as (h & Hh & Hh0). pose proof (pow_cap_bounds _ (hw_pow _ Hw)).
  destruct Hk as [->|Hk].
  - pose proof (put_spec t 0 val 0 null_key Hw (or_introl eq_refl) eq_refl ltac:(lia) null_accurate Hsz) as H0.
    by rewrite Z.mod_0_l in H0 by lia.
  - rewrite cmp_null by done. unfold hash_of in Hh. rewrite cmp_null in Hh by done.
    rewrite Hh, bind_Ret, land_pow by apply Hw.
    apply put_spec; try done; [by right|unfold hash_of; by rewrite cmp_null|by apply same_accurate].
Qed.

Lemma add_exact t key val :
  table_wf t -> key_ok key -> ht_size t < 2 ^ 32 - 1 ->
  exists st t', cc_hashtable_add t key val = Ret (st, t') /\ table_wf t' /\
    add_step (ht_load_factor t) key val (spec_of t) = (st, spec_of t') /\ ht_load_factor t' = ht_load_factor t.
Proof using HL.
  intros Hw Hk Hsz. unfold cc_hashtable_add, add_step.
  destruct (grow_spec t Hw) as (st & t1 & -> & Hw1 & Hg & Hlf). rewrite bind_Ret, Hg. cbn [fst snd].
  destruct (decide (st = CC_OK)) as [->|Hst].
  - rewrite bool_decide_eq_true_2 by done. cbn [negb].
    assert (tmap t1 = tmap t) as Hm.
    { revert Hg. unfold grow_step. repeat case_match; intros [=]; congruence. }
    destruct (add_put t1 key val Hw1 Hk) as (st & t' & -> & Hw' & Hs & Hlf').
    { rewrite (table_count t1), Hm, <-table_count by done. done. }
    exists st, t'. split_and!; [done..|congruence].
  - rewrite bool_decide_eq_false_2 by done. exists st, t1. split_and!; [done..| |done]. by destruct st.
Qed.

(** What the map and the counter become. *)
Lemma add_step_cases lf key val s st s' :
  add_step lf key val s = (st, s') ->
  sp_next s <= sp_next s' <= sp_next s + 1 /\
  ((st = CC_OK /\ sp_map s' = <[kid key := val]> (sp_map s)) \/ (st <> CC_OK /\ sp_map s' = sp_map s)).
Proof.
  unfold add_step, grow_step, put_step, with_map.
  repeat case_match; intros [= <- <-]; simplify_eq; simpl in *; (split; [lia|]); auto.
Qed.

Lemma add_spec t key val :
  table_wf t -> key_ok key -> ht_size t < 2 ^ 32 - 1 ->
  exists st t', cc_hashtable_add t key val = Ret (st, t') /\ table_wf t' /\
    ht_next t <= ht_next t' <= ht_next t + 1 /\
    ((st = CC_OK /\ tmap t' = <[kid key := val]> (tmap t)) \/ (st <> CC_OK /\ tmap t' = tmap t)).
Proof using HL.
  intros Hw Hk Hsz. destruct (add_exact t key val Hw Hk Hsz) as (st & t' & E & Hw' & Hs & _).
  exists st, t'. apply add_step_cases in Hs as [Hn Hs]. split; [done|]. split; [done|]. split; [exact Hn|exact Hs].
Qed.

(** ** Removal *)

Lemma remove_entry_spec t key h here :
  table_wf t -> key_ok key -> hash_of t key = Ret h -> accurate here key -> ht_size t < 2 ^ 32 ->
  exists st out t', remove_entry here (h mod ht_capacity t) t = Ret (st, out, t') /\ table_wf t' /\
    ht_next t' = ht_next t /\ tmap t' = delete (kid key) (tmap t) /\ out = tmap t !! kid key /\
    st = match tmap t !! kid key with Some _ => CC_OK | None => CC_ERR_KEY_NOT_FOUND end.
Proof using HL.
  intros Hw Hk Hh Ha Hsz. destruct (locate t key h Hw Hk Hh) as (c & Hc & Hb & Hsub & Hck & Hall).
  pose proof (Z.mod_pos_bound h (ht_capacity t) ltac:(pose proof (pow_cap_bounds _ (hw_pow _ Hw)); lia)) as Hm.
  pose proof (find_key t key c Hw Hsub Hall) as Hf. pose proof (hw_size _ Hw) as Hs.
  unfold remove_entry. rewrite Hb, bind_Ret, (chain_find_spec here key), bind_Ret by done.
  destruct (list_find _ c) as [[n e]|] eqn:Ef; cbn [fst fmap option_fmap option_map].
  - destruct Hf as (Hn & Hke & Hv). rewrite Hn, set_bucket_ok, bind_Ret by done.
    rewrite (entries_take t _ c n e Hc Hn) in Hs. simpl in Hs. rewrite wrap_id by (unfold fits; lia).
    destruct (chain_delete t _ c n e Hw Hc Hn) as [Hw' Hm']. rewrite Hke in Hm'.
    eexists CC_OK, _, _. split; [reflexivity|]. rewrite Hv. split_and!; try done. 
  - eexists _, _, t. split; [reflexivity|]. rewrite Hf. split_and!; try done.
    by rewrite delete_id.
Qed.

Lemma remove_spec t key :
  table_wf t -> key_ok key -> ht_size t < 2 ^ 32 ->
  exists st out t', cc_hashtable_remove t key = Ret (st, out, t') /\ table_wf t' /\
    ht_next t' = ht_next t /\ tmap t' = delete (kid key) (tmap t) /\ out = tmap t !! kid key /\
    st = match tmap t !! kid key with Some _ => CC_OK | None => CC_ERR_KEY_NOT_FOUND end.
Proof using HL.
  intros Hw Hk Hsz. destruct (hash_of_ok t key Hk) as (h & Hh & Hh0). pose proof (pow_cap_bounds _ (hw_pow _ Hw)).
  unfold cc_hashtable_remove. destruct Hk as [->|Hk].
  - pose proof (remove_entry_spec t 0 0 null_key Hw (or_introl eq_refl) eq_refl null_accurate Hsz) as H0.
    by rewrite Z.mod_0_l in H0 by lia.
  - rewrite cmp_null by done. rewrite (table_index_spec t key h), bind_Ret by done.
    apply remove_entry_spec; try done; [by right|by apply same_accurate].
Qed.
End Facts.
