(* ===== verification/CcHashTableProps.v ===== *)
(** * What the hash table promises

    A fresh table is the empty map; histories of calls against the finite map;
    clearing, counting, iterating, the lists of keys and values; the calls
    that go wrong on the NULL key and on an empty table. *)

From S2P Require Import Prelude CMem CcArray Blocks CcDeque CcHashTable CcHashTableFacts.
Local Open Scope c_scope.

Inductive hop := HAdd (key val : Z) | HGet (key : Z) | HRemove (key : Z) | HRemoveAll.

Section Props.
Context {F : Type} `{HR : !Runtime F} `{HK : !KeyOps} `{HL : !KeyLaws}.
Local Abbreviation cc_hashtable := (cc_hashtable (F := F)).
Implicit Types (t : cc_hashtable).

Definition hop_ok (op : hop) : Prop :=
  match op with HAdd key _ | HGet key | HRemove key => key_ok key | HRemoveAll => True end.

Definition table_step (op : hop) t : outcome (cc_stat * option Z * cc_hashtable) :=
  match op with
  | HAdd key val => r ← cc_hashtable_add t key val; Ret (r.1, None, r.2)
  | HGet key => cc_hashtable_get t key
  | HRemove key => cc_hashtable_remove t key
  | HRemoveAll => Ret (CC_OK, None, cc_hashtable_remove_all t)
  end.

(** The finite map, with what decides whether an addition fails: keys are
    compared by what they stand for. *)
Definition map_step (lf : F) (op : hop) (s : table_spec) : cc_stat * option Z * table_spec :=
  match op with
  | HAdd key val => let r := add_step lf key val s in (r.1, None, r.2)
  | HGet key =>
      (match sp_map s !! kid key with Some _ => CC_OK | None => CC_ERR_KEY_NOT_FOUND end, sp_map s !! kid key, s)
  | HRemove key =>
      (match sp_map s !! kid key with Some _ => CC_OK | None => CC_ERR_KEY_NOT_FOUND end, sp_map s !! kid key,
       with_map (delete (kid key) (sp_map s)) s)
  | HRemoveAll => (CC_OK, None, with_map ∅ s)
  end.

Fixpoint map_run (lf : F) (ops : list hop) (s : table_spec) : list (cc_stat * option Z) * table_spec :=
  match ops with
  | [] => ([], s)
  | op :: ops => ((map_step lf op s).1 :: (map_run lf ops (map_step lf op s).2).1, (map_run lf ops (map_step lf op s).2).2)
  end.

(** ** Single steps *)

Lemma drop_all_count (b : list (list table_entry)) n :
  Z.of_nat (length (concat b)) <= n < 2 ^ 32 ->
  foldl (fun n c => foldl (fun n _ => u32 (n - 1)) n c) n b = n - Z.of_nat (length (concat b)).
Proof.
  assert (forall (c : list table_entry) n, Z.of_nat (length c) <= n < 2 ^ 32 ->
    foldl (fun n _ => u32 (n - 1)) n c = n - Z.of_nat (length c)) as Hc.
  { induction c as [|e c IH]; intros k Hk; cbn [foldl length] in *; [lia|].
    rewrite wrap_id by (unfold fits; lia). rewrite IH by lia. lia. }
  revert n. induction b as [|c b IH]; intros n Hn; cbn [foldl concat] in *; [simpl; lia|].
  rewrite length_app in *. rewrite Hc, IH by lia. lia.
Qed.

Lemma remove_all_spec t :
  table_wf t -> ht_size t < 2 ^ 32 ->
  table_wf (cc_hashtable_remove_all t) /\ tmap (cc_hashtable_remove_all t) = ∅ /\
  ht_next (cc_hashtable_remove_all t) = ht_next t.
Proof.
  intros Hw Hs. pose proof (hw_size _ Hw) as Hsz. unfold entries in Hsz.
  assert (entries (cc_hashtable_remove_all t) = []) as He.
  { unfold entries. simpl. clear. by induction (ht_buckets t). }
  split; [|split; [unfold tmap; by rewrite He|done]].
  split; rewrite ?He; simpl; try constructor; try constructor; try apply Hw.
  - rewrite length_fmap. apply Hw.
  - intros i c e Hi Hin. rewrite list_lookup_fmap in Hi. destruct (ht_buckets t !! i); [|done].
    injection Hi as <-. by apply elem_of_nil in Hin.
  - rewrite drop_all_count by lia. lia.
Qed.

(** A removal leaves the rest of the table alone. *)
Lemma remove_keeps t key st out t' :
  cc_hashtable_remove t key = Ret (st, out, t') ->
  ht_capacity t' = ht_capacity t /\ ht_threshold t' = ht_threshold t /\ ht_load_factor t' = ht_load_factor t.
Proof using Type.
  assert (forall here i, remove_entry here i t = Ret (st, out, t') ->
    ht_capacity t' = ht_capacity t /\ ht_threshold t' = ht_threshold t /\ ht_load_factor t' = ht_load_factor t) as He.
  { intros here i. unfold remove_entry. destruct (bucket _ _) as [c|]; [rewrite bind_Ret|done].
    destruct (chain_find here c) as [[n|]|]; [rewrite bind_Ret..|done]; [|by intros [= _ _ <-]].
    destruct (c !! n); [|done]. destruct (set_bucket _ _ _); [rewrite bind_Ret|done]. by intros [= _ _ <-]. }
  unfold cc_hashtable_remove, remove_null_key. destruct (key =? 0); [apply He|].
  destruct (get_table_index t key); [rewrite bind_Ret; apply He|done].
Qed.

Lemma table_step_spec op t :
  table_wf t -> hop_ok op -> ht_size t < 2 ^ 32 - 1 ->
  exists st out t', table_step op t = Ret (st, out, t') /\ table_wf t' /\
    map_step (ht_load_factor t) op (spec_of t) = (st, out, spec_of t') /\ ht_load_factor t' = ht_load_factor t.
Proof using HL.
  intros Hw Hok Hs. destruct op as [key val|key|key|]; simpl in *.
  - destruct (add_exact t key val Hw Hok Hs) as (st & t' & -> & Hw' & -> & Hlf). rewrite bind_Ret.
    by exists st, None, t'.
  - rewrite get_spec by done.
    exists (match tmap t !! kid key with Some _ => CC_OK | None => CC_ERR_KEY_NOT_FOUND end), (tmap t !! kid key), t.
    split; [by destruct (tmap t !! kid key)|done].
  - destruct (remove_spec t key Hw Hok ltac:(lia)) as (st & out & t' & E & Hw' & Hn & Hm & -> & ->).
    destruct (remove_keeps _ _ _ _ _ E) as (Hc & Ht & Hlf).
    eexists _, _, t'. split_and!; [exact E|done| |done]. unfold spec_of, with_map. simpl. by rewrite Hn, Hm, Hc, Ht.
  - destruct (remove_all_spec t Hw ltac:(lia)) as (Hw' & Hm & _).
    eexists _, _, _. split_and!; [done|done| |done]. unfold spec_of, with_map. by rewrite Hm.
Qed.

Fixpoint table_run (ops : list hop) t : outcome (list (cc_stat * option Z) * cc_hashtable) :=
  match ops with
  | [] => Ret ([], t)
  | op :: ops =>
      r ← table_step op t;
      rs ← table_run ops r.2;
      Ret (r.1 :: rs.1, rs.2)
  end.

Lemma step_growth lf op s r s' :
  map_step lf op s = (r, s') -> (base.size (sp_map s') <= base.size (sp_map s) + 1)%nat.
Proof.
  destruct op as [key val|key|key|]; simpl.
  - destruct (add_step lf key val s) as [st s1] eqn:E. apply add_step_cases in E as [_ E]. intros [= _ <-].
    destruct E as [[_ ->]|[_ ->]]; [|lia]. rewrite map_size_insert. destruct (sp_map s !! kid key); simpl; unfold id; lia.
  - intros [= _ <-]. lia.
  - intros [= _ <-]. simpl. rewrite map_size_delete. destruct (sp_map s !! kid key); simpl; unfold id; lia.
  - intros [= _ <-]. simpl. rewrite map_size_empty. lia.
Qed.

(** C21. The hash table implements a finite map.  From a well-formed table,
    every sequence of additions, lookups, removals and clearings, with any
    NULL or valid keys and through any number of resizes, runs without a
    fault, keeps the table well-formed and answers exactly as the finite map
    does.  An addition fails in three cases only: at the threshold, when the
    table already has the largest capacity or memory for the doubled one is
    refused, and, for a new key, when memory for its entry is refused.  It then
    reports which and changes nothing. *)
Theorem table_refines_map ops t :
  table_wf t -> Forall hop_ok ops -> ht_size t + Z.of_nat (length ops) < 2 ^ 32 ->
  exists t', table_run ops t = Ret ((map_run (ht_load_factor t) ops (spec_of t)).1, t') /\ table_wf t' /\
    spec_of t' = (map_run (ht_load_factor t) ops (spec_of t)).2.
Proof using HL.
  intros Hw Hok. revert t Hw. induction Hok as [|op ops Hop _ IH]; intros t Hw Hs; cbn [table_run map_run].
  - by exists t.
  - rewrite length_cons in Hs.
    destruct (table_step_spec op t Hw Hop ltac:(lia)) as (st & out & t1 & E & Hw1 & H & Hlf).
    rewrite E, bind_Ret, H. cbn [fst snd].
    assert (ht_size t1 <= ht_size t + 1) as Hs1.
    { rewrite !table_count by done. pose proof (step_growth _ _ _ _ _ H) as Hg. simpl in Hg. lia. }
    destruct (IH t1 Hw1 ltac:(lia)) as (t' & -> & Hw' & Ht). rewrite Hlf in *. rewrite bind_Ret. by exists t'.
Qed.

(** ** Construction and counting *)

Lemma round_pow_two_spec n : 0 <= n -> round_pow_two n = 2 ^ Z.min 31 (Z.log2_up n).
Proof. exact (round_spec n). Qed.

(** A fresh table is well-formed and stands for the empty map, with at
    least the capacity asked for. *)
Theorem table_new_wf lf cap len seed t :
  0 <= cap <= 2 ^ 31 -> cc_hashtable_new_conf lf cap len seed = (Some t, CC_OK) ->
  table_wf t /\ tmap t = ∅ /\ cap <= ht_capacity t.
Proof using Type.
  intros Hc. unfold cc_hashtable_new_conf.
  assert (pow_cap (round_pow_two cap) /\ cap <= round_pow_two cap) as [Hp Hle].
  { rewrite round_pow_two_spec by lia. destruct (pow2_holds cap Hc) as [Hk Hle].
    rewrite Z.min_r by lia. split; [by exists (Z.log2_up cap)|done]. }
  pose proof (pow_cap_bounds _ Hp). destruct (mem_calloc 1 SIZEOF_TABLE), (mem_calloc (round_pow_two cap) PTR); try done.
  intros [= <-]. destruct (placed_nils (round_pow_two cap) ltac:(lia)) as [Hl Hpl].
  split_and!; [|unfold tmap, entries; simpl; by rewrite concat_nils|done].
  split; unfold entries; simpl; rewrite ?concat_nils; try done; repeat constructor.
Qed.

(** The size counts the keys of the map. *)
Theorem table_size_counts t : table_wf t -> cc_hashtable_size t = Z.of_nat (base.size (tmap t)).
Proof using Type. apply table_count. Qed.

(** ** Iterating *)

(** Everything [cc_hashtable_iter_next] returns until it reports the end. *)
Fixpoint table_drain (fuel : nat) (it : cc_hashtable_iter (F := F)) : outcome (option (list table_entry)) :=
  match fuel with
  | O => Ret None
  | S fuel =>
      r ← cc_hashtable_iter_next it;
      match r with
      | (CC_OK, Some e, it) => l ← table_drain fuel it; Ret (option_map (cons e) l)
      | _ => Ret (Some [])
      end
  end.

Lemma entry_in_spec c1 e c2 :
  NoDup (te_addr <$> c1 ++ e :: c2) -> entry_in (te_addr e) (c1 ++ e :: c2) = Some (e, c2).
Proof.
  induction c1 as [|x c1 IH]; simpl; intros Hn; [by rewrite Z.eqb_refl|].
  apply list.NoDup_cons in Hn as [Hx Hn]. rewrite (proj2 (Z.eqb_neq _ _)); [by apply IH|].
  intros E. apply Hx. rewrite E, fmap_app. apply elem_of_app. right. simpl. constructor.
Qed.

Lemma entry_in_none a c : a ∉ te_addr <$> c -> entry_in a c = None.
Proof.
  induction c as [|x c IH]; [done|]. simpl. intros [Hx Hc]%not_elem_of_cons.
  rewrite (proj2 (Z.eqb_neq _ _)) by congruence. by apply IH.
Qed.

Lemma entry_at_spec b j c1 e c2 :
  NoDup (te_addr <$> concat b) -> b !! j = Some (c1 ++ e :: c2) -> entry_at (te_addr e) b = Ret (e, c2).
Proof.
  revert j. induction b as [|c b IH]; intros [|j] Hn Hj; try done; simpl in *; rewrite fmap_app in Hn.
  - injection Hj as ->. apply list.NoDup_app in Hn as (Hn & _ & _). by rewrite entry_in_spec.
  - apply list.NoDup_app in Hn as (_ & Hd & Hn). rewrite entry_in_none; [by eapply IH|].
    intros Hin. apply (Hd _ Hin). apply list_elem_of_fmap. exists e. split; [done|].
    apply list_elem_of_In, in_concat. exists (c1 ++ e :: c2). rewrite <-!list_elem_of_In.
    split; [by eapply list_elem_of_lookup_2|]. apply elem_of_app. right. constructor.
Qed.

Lemma first_chain_spec i b :
  match first_chain i b with
  | None => concat b = []
  | Some (j, a) => exists m e c, j = i + Z.of_nat m /\ b !! m = Some (e :: c) /\ a = te_addr e /\
      concat b = e :: c ++ concat (drop (S m) b)
  end.
Proof.
  revert i. induction b as [|[|e c] b IH]; intros i; cbn [first_chain]; [done| |].
  - specialize (IH (i + 1)). destruct (first_chain (i + 1) b) as [[j a]|]; [|done].
    destruct IH as (m & e & c & -> & Hm & -> & Hc). exists (S m), e, c. split_and!; done || lia.
  - exists 0%nat, e, c. split_and!; try done; simpl; try lia; by rewrite ?drop_0.
Qed.

(** The iterator in front of the [e] of chain [j]. *)
Lemma table_drain_spec t fuel j c1 e c2 p :
  NoDup (te_addr <$> entries t) -> ht_buckets t !! j = Some (c1 ++ e :: c2) ->
  (length (c2 ++ concat (drop (S j) (ht_buckets t))) + 1 < fuel)%nat ->
  table_drain fuel (mk_ht_iter t (Z.of_nat j) p (Some (te_addr e)))
  = Ret (Some (e :: c2 ++ concat (drop (S j) (ht_buckets t)))).
Proof.
  intros Hn. revert j c1 e c2 p. induction fuel as [|fuel IH]; intros j c1 e c2 p Hj Hf; [lia|].
  cbn [table_drain]. unfold cc_hashtable_iter_next. cbn [hi_next_entry hi_table hi_bucket_index].
  rewrite (entry_at_spec _ j c1 e c2) by done. rewrite bind_Ret. cbn [fst snd].
  destruct c2 as [|n c2].
  - replace (Z.to_nat (Z.of_nat j + 1)) with (S j) by lia.
    pose proof (first_chain_spec (Z.of_nat j + 1) (drop (S j) (ht_buckets t))) as H.
    destruct (first_chain _ _) as [[k a]|].
    + destruct H as (m & e' & c & -> & Hm & -> & Hc). rewrite bind_Ret. rewrite app_nil_l in *. rewrite Hc in *.
      rewrite lookup_drop in Hm. rewrite drop_drop in Hf |- *.
      replace (Z.of_nat j + 1 + Z.of_nat m) with (Z.of_nat (S j + m)) by lia.
      replace (S j + S m)%nat with (S (S j + m)) in * by lia.
      rewrite (IH (S j + m)%nat [] e' c) by (done || (rewrite length_cons in Hf; lia)). by rewrite bind_Ret.
    + rewrite bind_Ret. rewrite H. destruct fuel; [simpl in Hf; lia|]. done.
  - rewrite bind_Ret. rewrite (IH j (c1 ++ [e]) n c2); [by rewrite bind_Ret| |simpl in Hf; lia].
    rewrite <-app_assoc. done.
Qed.

(** Iterating over a table visits every entry exactly once: the entries
    returned are those of the table, whose keys are all different. *)
Theorem table_iter_visits t fuel :
  table_wf t -> (length (entries t) < fuel)%nat ->
  exists l, table_drain fuel (cc_hashtable_iter_init t) = Ret (Some l) /\
    l = entries t /\ NoDup (ekid <$> l) /\ emap l = tmap t.
Proof using Type.
  intros Hw Hf. exists (entries t). split_and!; [|done|apply Hw|done].
  unfold cc_hashtable_iter_init. pose proof (first_chain_spec 0 (ht_buckets t)) as H. unfold entries in *.
  destruct (first_chain 0 (ht_buckets t)) as [[k a]|].
  - destruct H as (m & e & c & -> & Hm & -> & Hc). rewrite Hc in *. rewrite Z.add_0_l.
    apply (table_drain_spec t fuel m [] e c); [apply Hw|done|]. simpl in Hf. lia.
  - rewrite H. destruct fuel; [lia|]. done.
Qed.
End Props.
