(* ===== verification/CcHash.v ===== *)
(** * Hash functions and string comparison
    (src/components/Collections-C/src/cc_hashtable.c and cc_common.c)

    Keys are the bytes they point to.  The values are 32 bits wide; reading
    past the bytes of a key is a [Fault].  What is proved: the pointer hash is
    injective, because each of its steps is invertible on 32-bit words; the
    general hash depends on the bytes it is told to read only; comparing
    strings decides their equality. *)

From S2P Require Import Prelude CMem CcArray Blocks.
Local Open Scope c_scope.

Definition rotl32 (x r : Z) : Z := u32 (x <<< r) ||| (x >>> (32 - r)).

Definition fmix32 (h : Z) : Z :=
  let h := h ^^^ h >>> 16 in
  let h := u32 (h * 0x85ebca6b) in
  let h := h ^^^ h >>> 13 in
  let h := u32 (h * 0xc2b2ae35) in
  h ^^^ h >>> 16.

Definition hash_c1 : Z := 0xcc9e2d51.
Definition hash_c2 : Z := 0x1b873593.

(** The scrambling of one word and its mixing into the state. *)
Definition scramble (k1 : Z) : Z := u32 (rotl32 (u32 (k1 * hash_c1)) 15 * hash_c2).
Definition mix_word (h1 k1 : Z) : Z := u32 (u32 (rotl32 (h1 ^^^ scramble k1) 13 * 5) + 0xe6546b64).

(** A little-endian word of the key. *)
Definition word_at (data : list Z) (i : Z) : outcome Z :=
  b0 ← cell data (4 * i); b1 ← cell data (4 * i + 1);
  b2 ← cell data (4 * i + 2); b3 ← cell data (4 * i + 3);
  Ret (b0 ||| b1 <<< 8 ||| b2 <<< 16 ||| b3 <<< 24).

(** The loop over [blocks[-nblocks]], ..., [blocks[-1]]. *)
Fixpoint hash_blocks (n : nat) (i : Z) (data : list Z) (h1 : Z) : outcome Z :=
  match n with
  | O => Ret h1
  | S n => k1 ← word_at data i; hash_blocks n (i + 1) data (mix_word h1 k1)
  end.

(** The bytes after the last whole word: [switch(len & 3)], whose cases fall through. *)
Definition hash_tail (data : list Z) (nblocks rest h1 : Z) : outcome Z :=
  if rest =? 0 then Ret h1
  else
    b2 ← (if 3 <=? rest then cell data (4 * nblocks + 2) else Ret 0);
    b1 ← (if 2 <=? rest then cell data (4 * nblocks + 1) else Ret 0);
    b0 ← cell data (4 * nblocks);
    Ret (h1 ^^^ scramble (b2 <<< 16 ^^^ b1 <<< 8 ^^^ b0)).

(** [len / 4] truncates; a loop from [-nblocks > 0] upwards leaves the key. *)
Definition cc_hashtable_hash (data : list Z) (len seed : Z) : outcome Z :=
  let nblocks := Z.quot len 4 in
  if nblocks <? 0 then Fault
  else
    h1 ← hash_blocks (Z.to_nat nblocks) 0 data seed;
    h1 ← hash_tail data nblocks (len &&& 3) h1;
    Ret (fmix32 (h1 ^^^ u32 len)).

Definition cc_hashtable_hash_ptr (key len seed : Z) : Z :=
  fmix32 (mix_word seed (u32 key) ^^^ u32 len).

(** [while ((c = *str++)) hash = ((hash << 5) + hash) ^ c]. *)
Fixpoint hash_chars (str : list Z) (hash : Z) : outcome Z :=
  match str with
  | [] => Fault
  | c :: str =>
      if c =? 0 then Ret hash
      else hash_chars str (u32 (u32 (hash <<< 5) + hash) ^^^ u32 c)
  end.

Definition cc_hashtable_hash_string (str : list Z) (len seed : Z) : outcome Z :=
  hash_chars str (u32 (seed + 5381 + len + 1)).

(** [strcmp]: the difference of the first characters that differ. *)
Fixpoint strcmp (s1 s2 : list Z) : outcome Z :=
  match s1, s2 with
  | c1 :: s1, c2 :: s2 =>
      if c1 =? c2 then if c1 =? 0 then Ret 0 else strcmp s1 s2 else Ret (c1 - c2)
  | _, _ => Fault
  end.

Definition cc_common_cmp_str (str1 str2 : list Z) : outcome Z := strcmp str1 str2.

(** ** Invertible steps on words *)

Lemma shiftr_fits w x s : 0 <= w -> 0 <= s -> fits w x -> fits w (x >>> s).
Proof.
  intros Hw Hs [H0 H1]. split; [by apply Z.shiftr_nonneg|].
  rewrite Z.shiftr_div_pow2 by done. pose proof (Z.pow_pos_nonneg 2 s ltac:(lia) Hs).
  apply Z.div_lt_upper_bound; [done|]. nia.
Qed.

(** [x ^ (x >> s)] is undone by xoring in the further shifts. *)
Lemma xorshift16 x : fits 32 x -> (x ^^^ x >>> 16) ^^^ (x ^^^ x >>> 16) >>> 16 = x.
Proof.
  intros Hx. apply Z.bits_inj'. intros i Hi. rewrite !Z.lxor_spec, !Z.shiftr_spec, !Z.lxor_spec, !Z.shiftr_spec by lia.
  rewrite (fits_high 32 x (i + 16 + 16)) by (done || lia). btauto.
Qed.

Lemma xorshift13 x : fits 32 x ->
  (x ^^^ x >>> 13) ^^^ (x ^^^ x >>> 13) >>> 13 ^^^ (x ^^^ x >>> 13) >>> 26 = x.
Proof.
  intros Hx. apply Z.bits_inj'. intros i Hi.
  rewrite !Z.lxor_spec, !Z.shiftr_spec, !Z.lxor_spec, !Z.shiftr_spec by lia.
  rewrite (fits_high 32 x (i + 26 + 13)) by (done || lia). replace (i + 13 + 13) with (i + 26) by lia. btauto.
Qed.

(** Multiplying by an odd constant is undone by its inverse. *)
Lemma mul_inverse a b x : u32 (a * b) = 1 -> fits 32 x -> u32 (u32 (x * a) * b) = x.
Proof.
  intros Hab Hx. unfold wrap in *. rewrite Z.mul_mod_idemp_l by lia.
  rewrite <-Z.mul_assoc, <-Z.mul_mod_idemp_r, Hab, Z.mul_1_r by lia. by apply Z.mod_small.
Qed.

Lemma u32_fits x : fits 32 (u32 x).
Proof. apply wrap_fits. lia. Qed.

Lemma rotl32_testbit x r i :
  fits 32 x -> 0 < r < 32 -> 0 <= i < 32 -> Z.testbit (rotl32 x r) i = Z.testbit x ((i - r) mod 32).
Proof.
  intros Hx Hr Hi. unfold rotl32. rewrite Z.lor_spec, wrap_testbit, Z.shiftr_spec, Z.shiftl_spec by lia.
  rewrite (proj2 (Z.ltb_lt i 32)) by lia. simpl. destruct (Z.lt_ge_cases i r).
  - rewrite (Z.testbit_neg_r x (i - r)) by lia. simpl. f_equal.
    rewrite <-(Z_mod_plus_full _ 1), Z.mod_small; lia.
  - rewrite (fits_high 32 x (i + _)), orb_false_r by (done || lia). f_equal. by rewrite Z.mod_small by lia.
Qed.

Lemma rotl32_fits x r : fits 32 x -> 0 <= r <= 32 -> fits 32 (rotl32 x r).
Proof. intros Hx Hr. apply lor_fits; [lia|apply u32_fits|apply shiftr_fits; done || lia]. Qed.

Lemma rotl32_inverse x r : fits 32 x -> 0 < r < 32 -> rotl32 (rotl32 x r) (32 - r) = x.
Proof.
  intros Hx Hr. pose proof (rotl32_fits x r Hx ltac:(lia)) as Hf. apply Z.bits_inj'. intros i Hi.
  destruct (Z.lt_ge_cases i 32).
  - rewrite rotl32_testbit by (done || lia). pose proof (Z.mod_pos_bound (i - (32 - r)) 32 ltac:(lia)).
    rewrite rotl32_testbit by (done || lia). f_equal. rewrite Zminus_mod_idemp_l.
    replace (i - (32 - r) - r) with (i + (-1) * 32) by lia. rewrite Z_mod_plus_full. apply Z.mod_small. lia.
  - rewrite (fits_high 32 x i) by (done || lia). apply (fits_high 32); [|lia]. apply rotl32_fits; [done|lia].
Qed.

(** ** The inverses *)

Definition unfmix32 (h : Z) : Z :=
  let h := h ^^^ h >>> 16 in
  let h := u32 (h * 0x7ed1b41d) in
  let h := h ^^^ h >>> 13 ^^^ h >>> 26 in
  let h := u32 (h * 0xa5cb9243) in
  h ^^^ h >>> 16.

Definition unscramble (k1 : Z) : Z := u32 (rotl32 (u32 (k1 * 0x56ed309b)) 17 * 0xdee13bb1).

Lemma inverses :
  u32 (0x85ebca6b * 0xa5cb9243) = 1 /\ u32 (0xc2b2ae35 * 0x7ed1b41d) = 1 /\
  u32 (hash_c1 * 0xdee13bb1) = 1 /\ u32 (hash_c2 * 0x56ed309b) = 1 /\ u32 (5 * 0xcccccccd) = 1.
Proof. by vm_compute. Qed.

Lemma fmix32_inverse h : fits 32 h -> unfmix32 (fmix32 h) = h.
Proof.
  intros Hh. destruct inverses as (I1 & I2 & _). unfold fmix32, unfmix32.
  set (a := h ^^^ h >>> 16). set (b := u32 (a * 0x85ebca6b)). set (c := b ^^^ b >>> 13).
  set (d := u32 (c * 0xc2b2ae35)).
  assert (fits 32 a) by (apply lxor_fits, shiftr_fits; done || lia).
  assert (fits 32 b) by apply u32_fits.
  assert (fits 32 c) by (apply lxor_fits, shiftr_fits; done || lia).
  assert (fits 32 d) by apply u32_fits.
  rewrite xorshift16 by done. unfold d. rewrite (mul_inverse _ _ c I2) by done.
  unfold c. rewrite xorshift13 by done. unfold b. rewrite (mul_inverse _ _ a I1) by done.
  unfold a. by apply xorshift16.
Qed.

Lemma scramble_inverse k : fits 32 k -> unscramble (scramble k) = k.
Proof.
  intros Hk. destruct inverses as (_ & _ & I1 & I2 & _). unfold scramble, unscramble.
  rewrite (mul_inverse _ _ _ I2) by (apply rotl32_fits; [apply u32_fits|lia]).
  change 17 with (32 - 15) at 1. rewrite rotl32_inverse by (apply u32_fits || lia).
  by apply mul_inverse.
Qed.

Lemma lxor_cancel a b c : a ^^^ b = a ^^^ c -> b = c.
Proof.
  intros H. rewrite <-(Z.lxor_0_l b), <-(Z.lxor_0_l c), <-(Z.lxor_nilpotent a), !Z.lxor_assoc. by rewrite H.
Qed.

Lemma mix_word_injective h k k' :
  fits 32 h -> fits 32 k -> fits 32 k' -> mix_word h k = mix_word h k' -> k = k'.
Proof.
  intros Hh Hk Hk' E. rewrite <-(scramble_inverse k), <-(scramble_inverse k') by done. f_equal.
  apply (lxor_cancel h). destruct inverses as (_ & _ & _ & _ & I5).
  assert (forall k, fits 32 (h ^^^ scramble k)) as Hf by (intros; apply lxor_fits; [lia|done|apply u32_fits]).
  rewrite <-(rotl32_inverse (h ^^^ scramble k) 13), <-(rotl32_inverse (h ^^^ scramble k') 13) by (done || lia).
  f_equal. rewrite <-(mul_inverse 5 0xcccccccd (rotl32 (h ^^^ scramble k) 13) I5) by (apply rotl32_fits; [done|lia]).
  rewrite <-(mul_inverse 5 0xcccccccd (rotl32 (h ^^^ scramble k') 13) I5) by (apply rotl32_fits; [done|lia]).
  f_equal. f_equal. unfold mix_word in E. revert E.
  pose proof (u32_fits (rotl32 (h ^^^ scramble k) 13 * 5)) as H1.
  pose proof (u32_fits (rotl32 (h ^^^ scramble k') 13 * 5)) as H2. unfold fits, wrap in *. intros E.
  apply (f_equal (fun z => (z - 0xe6546b64) mod 2 ^ 32)) in E. rewrite !Zminus_mod_idemp_l in E.
  rewrite !Z.add_simpl_r, !(Z.mod_small (_ mod _)) in E by done. done.
Qed.

(** The pointer hash is injective.  For a fixed seed and key length, two
    32-bit pointers with the same hash are the same pointer. *)
Theorem hash_ptr_injective key key' len seed :
  fits 32 key -> fits 32 key' -> fits 32 seed ->
  cc_hashtable_hash_ptr key len seed = cc_hashtable_hash_ptr key' len seed -> key = key'.
Proof.
  intros Hk Hk' Hs E. unfold cc_hashtable_hash_ptr in E. rewrite !(wrap_id 32 key), !(wrap_id 32 key') in E by done.
  assert (forall k, fits 32 (mix_word seed k ^^^ u32 len)) as Hf by (intros; apply lxor_fits; [lia|apply u32_fits..]).
  apply (f_equal unfmix32) in E. rewrite !fmix32_inverse in E by done.
  rewrite !(Z.lxor_comm _ (u32 len)) in E. apply lxor_cancel in E. by eapply mix_word_injective.
Qed.

(** ** What the hashes read *)

(** Known values of the 32-bit hash the code implements. *)
Example hash_vector_empty : cc_hashtable_hash [] 0 1 = Ret 0x514e28b7.
Proof. reflexivity. Qed.
Example hash_vector_test : cc_hashtable_hash [116; 101; 115; 116] 4 0x9747b28c = Ret 0x704b81dc.
Proof. reflexivity. Qed.
Example hash_vector_hello :
  cc_hashtable_hash [72; 101; 108; 108; 111; 44; 32; 119; 111; 114; 108; 100; 33] 13 0x9747b28c = Ret 0x24884cba.
Proof. reflexivity. Qed.

(** The characters of a string folded into the hash. *)
Definition hash_char (hash c : Z) : Z := u32 (u32 (hash <<< 5) + hash) ^^^ u32 c.

Lemma hash_chars_spec l s h : c_str l = Ret s -> hash_chars l h = Ret (foldl hash_char h s).
Proof.
  revert s h. induction l as [|c l IH]; intros s h; [done|]. simpl.
  destruct (c =? 0); [by intros [= <-]|].
  intros (s' & Hs & [= <-])%bind_inv. simpl. by apply IH.
Qed.

Lemma hash_char_fits h s : fits 32 h -> fits 32 (foldl hash_char h s).
Proof.
  revert h. induction s as [|c s IH]; intros h Hh; [done|]. simpl. apply IH.
  apply lxor_fits; [lia|apply u32_fits..].
Qed.

(** Comparing two strings decides whether they are equal. *)
Lemma strcmp_spec l1 l2 s1 s2 :
  c_str l1 = Ret s1 -> c_str l2 = Ret s2 -> exists r, strcmp l1 l2 = Ret r /\ (r = 0 <-> s1 = s2).
Proof.
  revert l2 s1 s2. induction l1 as [|c1 l1 IH]; intros [|c2 l2] s1 s2; try done. simpl.
  destruct (Z.eqb_spec c1 c2) as [->|Hne].
  - destruct (c2 =? 0); [intros [= <-] [= <-]; by exists 0|].
    intros (t1 & H1 & [= <-])%bind_inv (t2 & H2 & [= <-])%bind_inv.
    destruct (IH l2 t1 t2 H1 H2) as (r & -> & Hr). exists r. split; [done|]. rewrite Hr.
    split; congruence.
  - intros H1 H2. exists (c1 - c2). split; [done|]. split; [lia|]. intros ->.
    destruct (Z.eqb_spec c1 0), (Z.eqb_spec c2 0); subst; try done.
    + injection H1 as <-. apply bind_inv in H2 as (t2 & _ & H2). done.
    + injection H2 as <-. apply bind_inv in H1 as (t1 & _ & H1). done.
    + apply bind_inv in H1 as (t1 & _ & [= <-]), H2 as (t2 & _ & [= -> ->]). done.
Qed.

(** Two keys that agree on their first [len] bytes. *)
Definition agree (len : Z) (a b : list Z) : Prop := forall j, 0 <= j < len -> bget a j = bget b j.

Lemma cell_agree len a b j : agree len a b -> 0 <= j < len -> cell a j = cell b j.
Proof. intros H Hj. by rewrite !cell_bget, H by lia. Qed.

Lemma hash_blocks_agree len a b n i h :
  agree len a b -> 0 <= i -> 4 * (i + Z.of_nat n) <= len -> hash_blocks n i a h = hash_blocks n i b h.
Proof.
  intros Ha. revert i h. induction n as [|n IH]; intros i h Hi Hn; [done|]. cbn [hash_blocks]. unfold word_at.
  rewrite !(cell_agree len a b) by (done || lia).
  destruct (cell b (4 * i)), (cell b (4 * i + 1)), (cell b (4 * i + 2)), (cell b (4 * i + 3)); try done.
  rewrite !bind_Ret. apply IH; lia.
Qed.

(** The general hash reads only the key: two keys that agree on the bytes
    of the configured length have the same hash. *)
Theorem hash_agrees len seed a b :
  0 <= len -> agree len a b -> cc_hashtable_hash a len seed = cc_hashtable_hash b len seed.
Proof.
  intros Hl Ha. unfold cc_hashtable_hash. rewrite Z.quot_div_nonneg by lia.
  pose proof (Z.mul_div_le len 4 ltac:(lia)). assert (0 <= len / 4) by (apply Z.div_pos; lia).
  rewrite (proj2 (Z.ltb_ge _ _)) by lia.
  rewrite (hash_blocks_agree len a b) by (done || lia). destruct (hash_blocks _ _ _ _) as [h|]; [|done].
  rewrite !bind_Ret. f_equal. unfold hash_tail.
  assert (len &&& 3 = len mod 4) as -> by (apply (Z.land_ones len 2); lia).
  pose proof (Z.div_mod len 4 ltac:(lia)). pose proof (Z.mod_pos_bound len 4 ltac:(lia)).
  destruct (Z.eqb_spec (len mod 4) 0); [done|].
  rewrite (cell_agree len a b (4 * (len / 4))) by (done || lia).
  destruct (Z.leb_spec 3 (len mod 4)), (Z.leb_spec 2 (len mod 4)); try lia;
    rewrite ?(cell_agree len a b (4 * (len / 4) + 1)), ?(cell_agree len a b (4 * (len / 4) + 2)) by (done || lia); done.
Qed.

(** * Hash functions of a 64-bit build ([ARCH_64])

    The variant the library compiles where pointers have 64 bits.  The general
    hash is shown to be defined on every key and to be a fold over little-endian
    words; the pointer hash is undefined on every key, since it rotates a 32-bit
    word by 33. *)

Definition rotl64 (x r : Z) : Z := u64 (x <<< r) ||| (x >>> (64 - r)).

Definition fmix64 (k : Z) : Z :=
  let k := k ^^^ k >>> 33 in
  let k := u64 (k * 0xff51afd7ed558ccd) in
  let k := k ^^^ k >>> 33 in
  let k := u64 (k * 0xc4ceb9fe1a85ec53) in
  k ^^^ k >>> 33.

Definition hash64_c1 : Z := 0x87c37b91114253d5.
Definition hash64_c2 : Z := 0x4cf5ad432745937f.

(** A little-endian word of the bytes. *)
Definition le_word (bs : list Z) : Z := foldr (fun b w => b + 256 * w) 0 bs.

(** [n] bytes of a key. *)
Definition bytes_at (data : list Z) (o n : Z) : outcome (list Z) :=
  if o + n <=? zlen data then Ret (take (Z.to_nat n) (drop (Z.to_nat o) data)) else Fault.

Definition scramble1 (k1 : Z) : Z := u64 (rotl64 (u64 (k1 * hash64_c1)) 31 * hash64_c2).
Definition scramble2 (k2 : Z) : Z := u64 (rotl64 (u64 (k2 * hash64_c2)) 33 * hash64_c1).

(** The body of the loop over the blocks. *)
Definition mix_block (h : Z * Z) (k1 k2 : Z) : Z * Z :=
  let '(h1, h2) := h in
  let h1 := rotl64 (h1 ^^^ scramble1 k1) 27 in
  let h1 := u64 (h1 + h2) in
  let h1 := u64 (h1 * 5 + 0x52dce729) in
  let h2 := rotl64 (h2 ^^^ scramble2 k2) 31 in
  let h2 := u64 (h2 + h1) in
  let h2 := u64 (h2 * 5 + 0x38495ab5) in
  (h1, h2).

Fixpoint hash64_blocks (n : nat) (i : Z) (data : list Z) (h : Z * Z) : outcome (Z * Z) :=
  match n with
  | O => Ret h
  | S n =>
      k1 ← bytes_at data (16 * i) 8; k2 ← bytes_at data (16 * i + 8) 8;
      hash64_blocks n (i + 1) data (mix_block h (le_word k1) (le_word k2))
  end.

(** The cases of the [switch] fall through: from [case n + 1] on,
    [k ^= tail[n] << 8 * n], down to the first byte. *)
Fixpoint switch_bytes (n : nat) (data : list Z) (o k : Z) : outcome Z :=
  match n with
  | O => Ret k
  | S n => b ← cell data (o + Z.of_nat n); switch_bytes n data o (k ^^^ b <<< (8 * Z.of_nat n))
  end.

Definition hash64_tail (data : list Z) (tail rest : Z) (h : Z * Z) : outcome (Z * Z) :=
  let '(h1, h2) := h in
  h2 ← (if 9 <=? rest then k2 ← switch_bytes (Z.to_nat (rest - 8)) data (tail + 8) 0; Ret (h2 ^^^ scramble2 k2)
        else Ret h2);
  h1 ← (if 1 <=? rest then k1 ← switch_bytes (Z.to_nat (Z.min rest 8)) data tail 0; Ret (h1 ^^^ scramble1 k1)
        else Ret h1);
  Ret (h1, h2).

Definition finish64 (h : Z * Z) (len : Z) : Z :=
  let h1 := h.1 ^^^ u64 len in let h2 := h.2 ^^^ u64 len in
  let h1 := u64 (h1 + h2) in let h2 := u64 (h2 + h1) in
  let h1 := fmix64 h1 in let h2 := fmix64 h2 in
  u64 (h1 + h2).

(** A negative length of a whole block leaves the key. *)
Definition cc_hashtable_hash_64 (data : list Z) (len seed : Z) : outcome Z :=
  let nblocks := Z.quot len 16 in
  if nblocks <? 0 then Fault
  else
    h ← hash64_blocks (Z.to_nat nblocks) 0 data (seed, seed);
    h ← hash64_tail data (16 * nblocks) (len &&& 15) h;
    Ret (finish64 h len).

(** [rotl32(x, r)], undefined unless both shifts are by less than 32. *)
Definition rotl32_checked (x r : Z) : outcome Z := if (0 <? r) && (r <? 32) then Ret (rotl32 x r) else Fault.

Definition cc_hashtable_hash_ptr_64 (key len seed : Z) : outcome Z :=
  let k1 := u32 key in
  let k2 := u32 (key >>> 32) in
  k1 ← rotl32_checked (u32 (k1 * hash64_c1)) 31;
  let k1 := u32 (k1 * hash64_c2) in
  h1 ← rotl32_checked (seed ^^^ k1) 27;
  let h1 := u32 (h1 + seed) in
  let h1 := u32 (h1 * 5 + 0x52dce729) in
  k2 ← rotl32_checked (u32 (k2 * hash64_c2)) 33;
  let k2 := u32 (k2 * hash64_c1) in
  h2 ← rotl32_checked (seed ^^^ k2) 31;
  let h2 := u32 (h2 + h1) in
  let h2 := u32 (h2 * 5 + 0x38495ab5) in
  let h1 := h1 ^^^ u32 len in let h2 := h2 ^^^ u32 len in
  let h1 := u32 (h1 + h2) in let h2 := u32 (h2 + h1) in
  let h1 := u32 (fmix64 h1) in let h2 := u32 (fmix64 h2) in
  let h1 := u32 (h1 + h2) in let h2 := u32 (h2 + h1) in
  Ret (h1 <<< 32 ||| h2).

(** ** The tail of a key is a word with the missing bytes zero *)

Lemma le_word_snoc bs b : le_word (bs ++ [b]) = le_word bs + b * 2 ^ (8 * zlen bs).
Proof.
  induction bs as [|x bs IH]; simpl; [lia|]. change (foldr _ 0 ?l) with (le_word l). rewrite IH.
  replace (8 * Z.of_nat (S (length bs))) with (8 + 8 * zlen bs) by lia. rewrite Z.pow_add_r by lia. lia.
Qed.

Lemma le_word_bound bs : bytes_ok bs -> 0 <= le_word bs < 2 ^ (8 * zlen bs).
Proof.
  induction 1 as [|x bs [Hx1 Hx2] _ IH]; [done|]. simpl. change (foldr _ 0 ?l) with (le_word l).
  replace (8 * Z.of_nat (S (length bs))) with (8 + 8 * zlen bs) by lia. rewrite Z.pow_add_r by lia. lia.
Qed.

(** Bytes above a word. *)
Lemma lxor_above w b n : 0 <= n -> 0 <= w < 2 ^ n -> 0 <= b -> w ^^^ b <<< n = w + b * 2 ^ n.
Proof.
  intros Hn Hw Hb. rewrite <-Z.add_nocarry_lxor; [by rewrite Z.shiftl_mul_pow2|].
  apply Z.bits_inj'. intros i Hi. rewrite Z.land_spec, Z.bits_0, Z.shiftl_spec by done.
  destruct (Z.lt_ge_cases i n); [by rewrite (Z.testbit_neg_r b), andb_false_r by lia|].
  rewrite (fits_high n w i) by (done || lia). done.
Qed.

Lemma switch_bytes_ok n : forall data o k,
  bytes_ok data -> 0 <= o -> o + Z.of_nat n <= zlen data ->
  switch_bytes n data o k = Ret (k ^^^ le_word (take n (drop (Z.to_nat o) data))).
Proof.
  induction n as [|n IH]; intros data o k Hd Ho Hl; simpl; [by rewrite Z.lxor_0_r|].
  destruct (lookup_lt_is_Some_2 data (Z.to_nat (o + Z.of_nat n))) as [b Hb]; [lia|].
  unfold cell. rewrite Hb, bind_Ret, IH by (done || lia). f_equal. rewrite Z.lxor_assoc. f_equal.
  assert (take (S n) (drop (Z.to_nat o) data) = take n (drop (Z.to_nat o) data) ++ [b]) as ->.
  { apply take_S_r. rewrite lookup_drop, <-Hb. f_equal. lia. }
  assert (length (take n (drop (Z.to_nat o) data)) = n) as Hn by (rewrite length_take, length_drop; lia).
  pose proof (Forall_lookup_1 _ _ _ _ Hd Hb) as Hbb. rewrite le_word_snoc, Hn, Z.lxor_comm.
  pose proof (le_word_bound (take n (drop (Z.to_nat o) data)) ltac:(by apply Forall_take, Forall_drop)) as Hw. rewrite Hn in Hw.
  apply lxor_above; [lia|done|apply Hbb].
Qed.

(** ** The hash is a fold over the words of the key *)

Definition block_words (msg : list Z) (i : nat) : Z * Z :=
  (le_word (take 8 (drop (16 * i) msg)), le_word (take 8 (drop (16 * i + 8) msg))).

(** The bytes the key lacks in its last block count as zero. *)
Definition murmur64 (msg : list Z) (seed : Z) : Z :=
  let nb := (length msg / 16)%nat in
  let h := foldl (fun h i => mix_block h (block_words msg i).1 (block_words msg i).2) (seed, seed) (seq 0 nb) in
  let t := drop (16 * nb) msg in
  finish64 (h.1 ^^^ scramble1 (le_word (take 8 t)), h.2 ^^^ scramble2 (le_word (drop 8 t))) (zlen msg).

Lemma scramble1_zero : scramble1 0 = 0.
Proof. done. Qed.
Lemma scramble2_zero : scramble2 0 = 0.
Proof. done. Qed.

Lemma bytes_at_ok msg rest o n :
  (o + n <= length msg)%nat -> bytes_at (msg ++ rest) (Z.of_nat o) (Z.of_nat n) = Ret (take n (drop o msg)).
Proof.
  intros H. unfold bytes_at. rewrite (proj2 (Z.leb_le _ _)) by (rewrite length_app; lia). rewrite !Nat2Z.id. f_equal.
  rewrite drop_app_le by lia. apply take_app_le. rewrite length_drop. lia.
Qed.

Lemma hash64_blocks_ok msg rest n : forall i h,
  (16 * (i + n) <= length msg)%nat ->
  hash64_blocks n (Z.of_nat i) (msg ++ rest) h
  = Ret (foldl (fun h i => mix_block h (block_words msg i).1 (block_words msg i).2) h (seq i n)).
Proof.
  induction n as [|n IH]; intros i h Hi; [done|]. cbn [hash64_blocks seq foldl].
  replace (16 * Z.of_nat i) with (Z.of_nat (16 * i)) by lia. change 8 with (Z.of_nat 8).
  rewrite bytes_at_ok, bind_Ret by lia. rewrite <-Nat2Z.inj_add, bytes_at_ok, bind_Ret by lia.
  replace (Z.of_nat i + 1) with (Z.of_nat (S i)) by lia. by rewrite IH by lia.
Qed.

Lemma switch_msg n msg rest o :
  bytes_ok msg -> bytes_ok rest -> (o + n <= length msg)%nat ->
  switch_bytes n (msg ++ rest) (Z.of_nat o) 0 = Ret (le_word (take n (drop o msg))).
Proof.
  intros Hm Hr Hn. rewrite switch_bytes_ok; [|by apply Forall_app|lia|rewrite length_app; lia].
  rewrite Z.lxor_0_l, Nat2Z.id, drop_app_le, take_app_le by (rewrite ?length_drop; lia). done.
Qed.

Lemma hash64_tail_ok msg rest nb h :
  bytes_ok msg -> bytes_ok rest -> (16 * nb <= length msg < 16 * nb + 16)%nat ->
  hash64_tail (msg ++ rest) (Z.of_nat (16 * nb)) (Z.of_nat (length msg - 16 * nb)) h
  = Ret (h.1 ^^^ scramble1 (le_word (take 8 (drop (16 * nb) msg))), h.2 ^^^ scramble2 (le_word (drop 8 (drop (16 * nb) msg)))).
Proof.
  intros Hm Hr Hn. destruct h as [h1 h2]. unfold hash64_tail. set (r := (length msg - 16 * nb)%nat).
  assert ((if 9 <=? Z.of_nat r
           then k2 ← switch_bytes (Z.to_nat (Z.of_nat r - 8)) (msg ++ rest) (Z.of_nat (16 * nb) + 8) 0; Ret (h2 ^^^ scramble2 k2)
           else Ret h2) = Ret (h2 ^^^ scramble2 (le_word (drop 8 (drop (16 * nb) msg))))) as ->.
  { destruct (Z.leb_spec 9 (Z.of_nat r)).
    - replace (Z.to_nat (Z.of_nat r - 8)) with (r - 8)%nat by lia.
      replace (Z.of_nat (16 * nb) + 8) with (Z.of_nat (16 * nb + 8)) by lia. rewrite switch_msg, bind_Ret by (done || lia).
      rewrite drop_drop. rewrite take_ge by (rewrite length_drop; lia). done.
    - rewrite (drop_ge (drop _ _)) by (rewrite length_drop; lia). simpl. by rewrite Z.lxor_0_r. }
  rewrite bind_Ret. destruct (Z.leb_spec 1 (Z.of_nat r)).
  - replace (Z.to_nat (Z.min (Z.of_nat r) 8)) with (r `min` 8)%nat by lia. rewrite switch_msg, !bind_Ret by (done || lia).
    f_equal. f_equal. f_equal. f_equal. f_equal. destruct (Nat.le_ge_cases r 8).
    + rewrite Nat.min_l by done. rewrite !take_ge by (rewrite length_drop; lia). done.
    + by rewrite Nat.min_r by done.
  - rewrite bind_Ret. rewrite (drop_ge msg) by lia. cbn [fst snd]. change (scramble1 (le_word (take 8 []))) with 0. by rewrite !Z.lxor_0_r.
Qed.

(** The general hash is defined on every key, reads no byte beyond its length,
    and is the fold [murmur64] of its words. *)
Theorem hash64_reference msg rest seed :
  bytes_ok msg -> bytes_ok rest -> cc_hashtable_hash_64 (msg ++ rest) (zlen msg) seed = Ret (murmur64 msg seed).
Proof.
  intros Hm Hr. unfold cc_hashtable_hash_64, murmur64. set (nb := (length msg / 16)%nat).
  pose proof (Nat.div_mod (length msg) 16 ltac:(done)) as Hdm. pose proof (Nat.mod_upper_bound (length msg) 16 ltac:(done)).
  fold nb in Hdm. assert (Z.quot (zlen msg) 16 = Z.of_nat nb) as ->.
  { rewrite Z.quot_div_nonneg by lia. unfold nb. by rewrite Nat2Z.inj_div. }
  rewrite (proj2 (Z.ltb_ge _ _)) by lia. rewrite Nat2Z.id. change 0 with (Z.of_nat 0) at 1.
  rewrite hash64_blocks_ok, bind_Ret by lia. replace (16 * Z.of_nat nb) with (Z.of_nat (16 * nb)) by lia.
  assert (zlen msg &&& 15 = Z.of_nat (length msg - 16 * nb)) as ->.
  { change 15 with (Z.ones 4). rewrite Z.land_ones by done. change (2 ^ 4) with 16.
    replace (length msg - 16 * nb)%nat with (length msg mod 16)%nat by lia. by rewrite Nat2Z.inj_mod. }
  rewrite hash64_tail_ok, bind_Ret by (done || lia). done.
Qed.

(** The pointer hash rotates a 32-bit word by 33 places: no key has a hash. *)
Lemma hash_ptr_64_undefined key len seed : cc_hashtable_hash_ptr_64 key len seed = Fault.
Proof. done. Qed.
