(* ===== verification/CcHashSet.v ===== *)
(** * Hash set (src/components/Collections-C/src/cc_hashset.c)

    A set is a hash table whose values are a dummy pointer; the calls that only
    forward are definitions of the same name.  What is proved: a finite set
    over every history of calls on non-NULL elements; what removal hands out. *)

From S2P Require Import Prelude CMem CcArray CcHashTable CcHashTableFacts CcHashTableProps.

Definition SIZEOF_HASHSET : Z := 20.

Section HashSet.
Context {F : Type} `{HR : !Runtime F} `{HK : !KeyOps} (DEFAULT_LOAD_FACTOR : F).

Record cc_hashset := mk_hashset { hs_table : cc_hashtable (F := F); hs_dummy : Z }.

Definition on_table {A} (s : cc_hashset) (r : outcome (A * cc_hashtable (F := F))) : outcome (A * cc_hashset) :=
  x ← r; Ret (x.1, mk_hashset x.2 (hs_dummy s)).

Definition cc_hashset_new_conf (load_factor : F) (initial_capacity key_length hash_seed : Z)
    : option cc_hashset * cc_stat :=
  match mem_calloc 1 SIZEOF_HASHSET with
  | None => (None, CC_ERR_ALLOC)
  | Some _ =>
      match cc_hashtable_new_conf load_factor initial_capacity key_length hash_seed with
      | (Some table, CC_OK) => (Some (mk_hashset table 1), CC_OK)
      | (_, stat) => (None, stat)
      end
  end.

Definition cc_hashset_new : option cc_hashset * cc_stat :=
  cc_hashset_new_conf DEFAULT_LOAD_FACTOR HT_DEFAULT_CAPACITY KEY_LENGTH_VARIABLE 0.

Definition cc_hashset_add (s : cc_hashset) (element : Z) : outcome (cc_stat * cc_hashset) :=
  on_table s (cc_hashtable_add (hs_table s) element (hs_dummy s)).
Definition cc_hashset_remove (s : cc_hashset) (element : Z) : outcome (cc_stat * option Z * cc_hashset) :=
  on_table s (cc_hashtable_remove (hs_table s) element).
Definition cc_hashset_remove_all (s : cc_hashset) : cc_hashset :=
  mk_hashset (cc_hashtable_remove_all (hs_table s)) (hs_dummy s).
Definition cc_hashset_contains (s : cc_hashset) (element : Z) : outcome bool :=
  cc_hashtable_contains_key (hs_table s) element.
Definition cc_hashset_size (s : cc_hashset) : Z := cc_hashtable_size (hs_table s).
Definition cc_hashset_capacity (s : cc_hashset) : Z := cc_hashtable_capacity (hs_table s).
Definition cc_hashset_foreach (s : cc_hashset) : list Z := cc_hashtable_foreach_key (hs_table s).

Definition cc_hashset_iter_init (s : cc_hashset) : cc_hashtable_iter (F := F) := cc_hashtable_iter_init (hs_table s).
Definition cc_hashset_iter_next (it : cc_hashtable_iter (F := F)) : outcome (cc_stat * option Z * cc_hashtable_iter (F := F)) :=
  r ← cc_hashtable_iter_next it;
  let '(status, entry, it) := r in
  if bool_decide (status = CC_OK) then Ret (CC_OK, option_map te_key entry, it) else Ret (status, None, it).
Definition cc_hashset_iter_remove (it : cc_hashtable_iter (F := F)) := cc_hashtable_iter_remove it.
End HashSet.

(** ** Sets *)

Inductive sop := SAdd (x : Z) | SRemove (x : Z) | SContains (x : Z) | SRemoveAll.

Section Set_.
Context {F : Type} `{HR : !Runtime F} `{HK : !KeyOps} `{HL : !KeyLaws}.
Local Abbreviation cc_hashset := (cc_hashset (F := F)).
Local Abbreviation cc_hashtable := (cc_hashtable (F := F)).
Implicit Types (s : cc_hashset) (t : cc_hashtable).

Definition sop_ok (op : sop) : Prop :=
  match op with SAdd x | SRemove x | SContains x => valid_key x | SRemoveAll => True end.

(** [contains] answers 0 or 1. *)
Definition set_op (op : sop) s : outcome (cc_stat * option Z * cc_hashset) :=
  match op with
  | SAdd x => r ← cc_hashset_add s x; Ret (r.1, None, r.2)
  | SRemove x => cc_hashset_remove s x
  | SContains x => b ← cc_hashset_contains s x; Ret (CC_OK, Some (Z.b2z b), s)
  | SRemoveAll => Ret (CC_OK, None, cc_hashset_remove_all s)
  end.

Fixpoint set_run (ops : list sop) s : outcome (list (cc_stat * option Z) * cc_hashset) :=
  match ops with
  | [] => Ret ([], s)
  | op :: ops =>
      r ← set_op op s;
      rs ← set_run ops r.2;
      Ret (r.1 :: rs.1, rs.2)
  end.

(** The set of the keys, and the set specification.  [dummy] is the value a
    removal hands out. *)
Definition elements_of s : gset (option Z) := dom (tmap (hs_table s)).

Definition set_spec (dummy : Z) (op : sop) (m : gset (option Z)) : cc_stat * option Z * gset (option Z) :=
  match op with
  | SAdd x => (CC_OK, None, {[kid x]} ∪ m)
  | SRemove x =>
      if decide (kid x ∈ m) then (CC_OK, Some dummy, m ∖ {[kid x]}) else (CC_ERR_KEY_NOT_FOUND, None, m)
  | SContains x => (CC_OK, Some (Z.b2z (bool_decide (kid x ∈ m))), m)
  | SRemoveAll => (CC_OK, None, ∅)
  end.

Inductive set_trace (dummy : Z) : list sop -> gset (option Z) -> list (cc_stat * option Z) -> gset (option Z) -> Prop :=
  | ST_nil m : set_trace dummy [] m [] m
  | ST_step op ops m r m1 rs m2 :
      set_spec dummy op m = (r, m1) -> set_trace dummy ops m1 rs m2 -> set_trace dummy (op :: ops) m (r :: rs) m2
  | ST_failed x st ops m rs m2 :
      st <> CC_OK -> set_trace dummy ops m rs m2 -> set_trace dummy (SAdd x :: ops) m ((st, None) :: rs) m2.

(** Membership, when the NULL key is not in the table. *)
Lemma hs_contains_spec t key :
  table_wf t -> valid_key key -> tmap t !! None = None ->
  cc_hashtable_contains_key t key = Ret (bool_decide (is_Some (tmap t !! kid key))).
Proof using HL.
  intros Hw Hk Hnull. destruct (hash_of_ok t key (or_intror Hk)) as (h & Hh & _).
  unfold cc_hashtable_contains_key. rewrite (table_index_spec t key h), bind_Ret by done.
  destruct (locate t key h Hw (or_intror Hk) Hh) as (c & _ & -> & Hsub & Hck & Hall). rewrite bind_Ret.
  assert (Forall (fun e => valid_key (te_key e)) c) as Hvk.
  { apply list.Forall_forall. intros e He. rewrite list.Forall_forall in Hck.
    destruct (Hck e He) as [H0|H0]; [|done]. exfalso.
    assert (tmap t !! ekid e = Some (te_value e)) as H by (apply emap_some; [apply Hw|by apply Hsub]).
    unfold ekid, kid in H. rewrite H0 in H. simpl in H. congruence. }
  assert (chain_find (fun e => r ← ht_key_cmp key (te_key e); Ret (r =? 0)) c
    = Ret (fst <$> list_find (fun e => ekid e = kid key) c)) as ->.
  { clear -Hvk Hk HL. induction Hvk as [|e c He _ IH]; [done|]. cbn [chain_find].
    destruct (cmp_ok key (te_key e) Hk He) as (r & E & _). rewrite E, !bind_Ret, (cmp_decides _ _ _ Hk He E).
    simpl. unfold ekid. destruct (decide (kid (te_key e) = kid key)) as [Ek|Ek].
    - by rewrite bool_decide_eq_true_2.
    - rewrite bool_decide_eq_false_2 by congruence. rewrite IH, bind_Ret. by destruct (list_find _ c) as [[n x]|]. }
  rewrite bind_Ret. f_equal. pose proof (find_key t key c Hw Hsub Hall) as H.
  destruct (list_find _ c) as [[n e]|]; simpl.
  - destruct H as (_ & _ & ->). by rewrite !bool_decide_eq_true_2 by by eexists.
  - rewrite H. by rewrite !bool_decide_eq_false_2 by by intros [].
Qed.

Record set_wf s : Prop := {
  sw_table : table_wf (hs_table s);
  sw_null : tmap (hs_table s) !! None = None;
  sw_dummy : map_Forall (fun _ v => v = hs_dummy s) (tmap (hs_table s));
}.

Lemma kid_some x : valid_key x -> kid x = Some (canon x).
Proof using HL. intros Hx. unfold kid. by rewrite cmp_null. Qed.

Lemma set_step_spec op s :
  set_wf s -> sop_ok op -> cc_hashset_size s < 2 ^ 32 - 1 ->
  exists st out s', set_op op s = Ret (st, out, s') /\ set_wf s' /\ hs_dummy s' = hs_dummy s /\
    (set_spec (hs_dummy s) op (elements_of s) = (st, out, elements_of s') \/
     ((exists x, op = SAdd x) /\ st <> CC_OK /\ out = None /\ elements_of s' = elements_of s)).
Proof using HL.
  intros [Hw Hn Hd] Hok Hs. unfold elements_of. destruct op as [x|x|x|]; simpl in *.
  - unfold cc_hashset_add, on_table.
    destruct (add_spec (hs_table s) x (hs_dummy s) Hw (or_intror Hok) Hs) as (st & t' & -> & Hw' & _ & H).
    rewrite !bind_Ret. cbn [fst snd]. exists st, None, (mk_hashset t' (hs_dummy s)). split; [done|].
    destruct H as [[-> Hm]|[Hst Hm]]; (split; [split; simpl; [done| |]; rewrite Hm|split; [done|simpl; rewrite Hm]]);
      try done.
    + rewrite lookup_insert_ne by (by rewrite kid_some). done.
    + by apply map_Forall_insert_2.
    + left. by rewrite dom_insert_L.
    + right. split_and!; try done. by eexists.
  - unfold cc_hashset_remove, on_table.
    destruct (remove_spec (hs_table s) x Hw (or_intror Hok) ltac:(unfold cc_hashset_size, cc_hashtable_size in Hs; lia))
      as (st & out & t' & -> & Hw' & _ & Hm & -> & ->). rewrite !bind_Ret. cbn [fst snd].
    eexists _, _, (mk_hashset t' (hs_dummy s)). split; [reflexivity|]. split; [split; simpl; [done|..]; rewrite Hm|].
    + rewrite lookup_delete_ne by (by rewrite kid_some). done.
    + by apply map_Forall_delete.
    + split; [done|]. left. simpl. rewrite Hm. destruct (tmap (hs_table s) !! kid x) as [v|] eqn:E.
      * rewrite decide_True by (apply elem_of_dom; by exists v). rewrite (Hd _ _ E). by rewrite dom_delete_L.
      * rewrite decide_False by (by apply not_elem_of_dom). by rewrite delete_id.
  - unfold cc_hashset_contains. rewrite hs_contains_spec by done. rewrite bind_Ret.
    eexists _, _, s. split; [reflexivity|]. split; [done|]. split; [done|]. left. do 3 f_equal.
    repeat f_equal. apply bool_decide_ext. apply elem_of_dom.
  - destruct (remove_all_spec (hs_table s) Hw ltac:(unfold cc_hashset_size, cc_hashtable_size in Hs; lia)) as (Hw' & Hm & _).
    eexists _, _, _. split; [reflexivity|]. split; [split; simpl; [done|..]; rewrite Hm; done|].
    split; [done|]. left. simpl. by rewrite Hm, dom_empty_L.
Qed.

Lemma set_growth (dummy : Z) (op : sop) (m m' : gset (option Z)) (r : cc_stat * option Z) : set_spec dummy op m = (r, m') -> (base.size m' <= base.size m + 1)%nat.
Proof.
  destruct op as [x|x|x|]; simpl; try (intros [= _ <-]).
  - pose proof (size_union_alt {[kid x]} m) as H. rewrite size_singleton in H.
    pose proof (subseteq_size (m ∖ {[kid x]}) m ltac:(set_solver)). lia.
  - case_decide; intros [= _ <-]; [|lia]. pose proof (subseteq_size (m ∖ {[kid x]}) m ltac:(set_solver)). lia.
  - lia.
  - rewrite size_empty. lia.
Qed.

(** The hash set implements a finite set.  From a well-formed set, every
    sequence of additions, removals, membership tests and clearings on valid,
    non-NULL elements runs without a fault and answers as the finite set
    does; a removal hands out the set's dummy pointer, not the element. *)
Theorem hashset_refines_set ops s :
  set_wf s -> Forall sop_ok ops -> cc_hashset_size s + Z.of_nat (length ops) < 2 ^ 32 ->
  exists rs s', set_run ops s = Ret (rs, s') /\ set_wf s' /\
    set_trace (hs_dummy s) ops (elements_of s) rs (elements_of s').
Proof using HL.
  intros Hw Hok. revert s Hw. induction Hok as [|op ops Hop _ IH]; intros s Hw Hs; cbn [set_run].
  - exists [], s. split_and!; [done..|constructor].
  - rewrite length_cons in Hs.
    destruct (set_step_spec op s Hw Hop ltac:(lia)) as (st & out & s1 & E & Hw1 & Hd & H).
    rewrite E, bind_Ret. cbn [fst snd].
    assert (cc_hashset_size s1 <= cc_hashset_size s + 1) as Hs1.
    { unfold cc_hashset_size, cc_hashtable_size. rewrite !table_count by apply sw_table, Hw || apply sw_table, Hw1.
      rewrite <-!size_dom. fold (elements_of s1) (elements_of s).
      destruct H as [H|(_ & _ & _ & ->)]; [|lia]. pose proof (set_growth _ _ _ _ _ H). lia. }
    destruct (IH s1 Hw1 ltac:(lia)) as (rs & s' & -> & Hw' & Ht). rewrite bind_Ret. eexists _, s'.
    split_and!; [done..|]. rewrite Hd in Ht. destruct H as [H|((x & ->) & Hst & -> & Hm)].
    + by econstructor.
    + constructor; [done|]. by rewrite <-Hm.
Qed.
End Set_.
