(* ===== verification/CcStringTable.v ===== *)
(** * Tables keyed by strings

    The default configuration of the hash table: [cc_hashtable_hash_string]
    and [cc_common_cmp_str] on the strings the keys point to.  They satisfy
    what the table asks of its functions ([KeyLaws]), so the theorems of
    CcHashTableProps.v and CcHashSet.v hold of string tables; and they fault on
    NULL, which the calls that do not test for it run into. *)

From S2P Require Import Prelude CMem CcArray CcArrayFacts Blocks CcHashTable CcHashTableFacts CcHashTableProps CcHashSet CcHash.

Section Strings.
Context (str_at : Z -> list Z) (granted : Z -> bool).

(** The functions on pointers: reading through NULL faults. *)
#[local] Instance string_ops : KeyOps := {
  ht_hash key len seed := if key =? 0 then Fault else cc_hashtable_hash_string (str_at key) len seed;
  ht_key_cmp a b := if (a =? 0) || (b =? 0) then Fault else cc_common_cmp_str (str_at a) (str_at b);
  entry_granted := granted;
}.

Definition is_string (key : Z) : Prop := key <> 0 /\ is_ret (c_str (str_at key)).

(** The string a key stands for, as a number. *)
Definition string_code (key : Z) : Z :=
  match c_str (str_at key) with Ret s => Z.pos (encode s) | Fault => 0 end.

Lemma string_code_eq a b s1 s2 :
  c_str (str_at a) = Ret s1 -> c_str (str_at b) = Ret s2 -> string_code a = string_code b <-> s1 = s2.
Proof.
  intros E1 E2. unfold string_code. rewrite E1, E2. split; [|congruence].
  intros [= H]. by apply encode_inj in H.
Qed.

Lemma string_hash key len seed s :
  c_str (str_at key) = Ret s -> key <> 0 ->
  ht_hash key len seed = Ret (foldl hash_char (u32 (seed + 5381 + len + 1)) s).
Proof.
  intros Hs Hk. unfold ht_hash, string_ops. rewrite (proj2 (Z.eqb_neq _ _) Hk).
  unfold cc_hashtable_hash_string. by apply hash_chars_spec.
Qed.

#[local] Instance string_laws : KeyLaws.
Proof.
  refine {| valid_key := is_string; canon := string_code |}.
  - by intros key [].
  - intros key len seed [Hk [s Hs]]. eexists. split; [by apply string_hash|].
    apply hash_char_fits, u32_fits.
  - intros a b len seed [Ha [s1 H1]] [Hb [s2 H2]] E. apply (string_code_eq a b s1 s2) in E as ->; [|done..].
    by rewrite !(string_hash _ _ _ s2).
  - intros a b [Ha [s1 H1]] [Hb [s2 H2]]. unfold ht_key_cmp, string_ops.
    rewrite (proj2 (Z.eqb_neq _ _) Ha), (proj2 (Z.eqb_neq _ _) Hb). simpl.
    destruct (strcmp_spec _ _ _ _ H1 H2) as (r & E & Hr). exists r. split; [exact E|].
    by rewrite (string_code_eq a b s1 s2).
Defined.

Context {F : Type} `{HR : !Runtime F}.
Implicit Types (t : cc_hashtable (F := F)).

(** The NULL key can be added and read back, but asking whether the table
    contains it reads through NULL. *)
Theorem contains_null_faults t v :
  table_wf t -> tmap t !! None = Some v ->
  cc_hashtable_get t 0 = Ret (CC_OK, Some v, t) /\ cc_hashtable_contains_key t 0 = Fault.
Proof using Type.
  intros Hw Hv. split; [|done]. rewrite get_spec by (done || by left).
  change (kid 0) with (@None Z). by rewrite Hv.
Qed.
End Strings.

Section Lists.
Context {F : Type} `{HR : !Runtime F} `{HRL : !RuntimeLaws F} `{HK : !KeyOps} `{HL : !KeyLaws}.
Local Abbreviation cc_hashtable := (cc_hashtable (F := F)).
Implicit Types (t : cc_hashtable).

(** The keys of an empty table cannot be listed: the array is created with
    the table's size as its capacity, and a capacity of 0 is refused. *)
Theorem empty_table_keys_refused t :
  ht_size t = 0 ->
  cc_hashtable_get_keys t = Ret (CC_ERR_INVALID_CAPACITY, None) /\
  cc_hashtable_get_values t = Ret (CC_ERR_INVALID_CAPACITY, None).
Proof using Type.
  intros Hs. unfold cc_hashtable_get_keys, cc_hashtable_get_values, cc_array_new_conf. by rewrite Hs.
Qed.

(** An array with room for all the elements takes them in order. *)
Lemma fill_room xs (a : cc_array F) :
  0 <= size a -> size a + zlen xs <= capacity a -> capacity a <= zlen (buffer a) -> capacity a < 2 ^ 32 ->
  exists a', fill xs a = Ret (CC_OK, Some a') /\ contents a' = contents a ++ xs.
Proof.
  revert a. induction xs as [|x xs IH]; intros a Hs Hc Hb Hm; cbn [fill].
  - exists a. by rewrite app_nil_r.
  - rewrite zlen_cons in Hc. unfold cc_array_add, ensure_room. rewrite (proj2 (Z.leb_gt _ _)), bind_Ret by lia.
    cbn [fst snd negb]. rewrite bool_decide_eq_true_2 by done. cbn [negb].
    rewrite set_cell_ok by lia. rewrite !bind_Ret. cbn [fst snd].
    rewrite bool_decide_eq_true_2 by done.
    destruct (IH (set_size (u32 (size a + 1)) (set_buffer (<[Z.to_nat (size a) := x]> (buffer a)) a)))
      as (a' & -> & Hc'); simpl; rewrite ?length_insert, ?(wrap_id 32) by (unfold fits; lia); try lia.
    exists a'. split; [done|]. rewrite Hc'. unfold contents. simpl. rewrite wrap_id by (unfold fits; lia).
    replace (Z.to_nat (size a + 1)) with (S (Z.to_nat (size a))) by lia.
    rewrite take_insert_snoc by lia. by rewrite <-app_assoc.
Qed.

(** Listing the keys and the values of a non-empty table: refused or out
    of memory, or arrays holding every key and every value, in the same order. *)
Theorem table_lists_all t :
  table_wf t -> 0 < ht_size t < 2 ^ 29 ->
  (exists st, cc_hashtable_get_keys t = Ret (st, None) /\ st <> CC_OK) \/
  (exists keys values, cc_hashtable_get_keys t = Ret (CC_OK, Some keys) /\
     cc_hashtable_get_values t = Ret (CC_OK, Some values) /\
     contents keys = te_key <$> entries t /\ contents values = te_value <$> entries t).
Proof using HRL.
  intros Hw Hs. unfold cc_hashtable_get_keys, cc_hashtable_get_values.
  destruct (cc_array_new_conf DEFAULT_EXPANSION_FACTOR (ht_size t)) as [[a|] st] eqn:E.
  2: { left. exists st. split; [done|]. intros ->. revert E. unfold cc_array_new_conf.
       repeat case_match; congruence. }
  assert (st = CC_OK /\ size a = 0 /\ capacity a = ht_size t /\ zlen (buffer a) = ht_size t) as (-> & Ha & Hc & Hb).
  { revert E. unfold cc_array_new_conf. cbv zeta. destruct (_ || _); [done|].
    destruct (mem_calloc 1 SIZEOF_ARRAY); [|done]. destruct (mem_alloc _) as [b|] eqn:Ea; [|done].
    intros [= <- <-]. apply alloc_size in Ea as [Ea _]. unfold PTR in Ea.
    rewrite wrap_id, Z.div_mul in Ea by (unfold fits; lia). done. }
  right. pose proof (hw_size _ Hw) as Hz. unfold entries in Hz.
  destruct (fill_room (te_key <$> concat (ht_buckets t)) a) as (keys & -> & Hk); [rewrite ?length_fmap; lia..|].
  destruct (fill_room (te_value <$> concat (ht_buckets t)) a) as (values & -> & Hv); [rewrite ?length_fmap; lia..|].
  exists keys, values. split_and!; [done..| |]; rewrite ?Hk, ?Hv; unfold contents; by rewrite Ha.
Qed.
End Lists.

(** ** Concrete tables: ab at 10 and at 30, cd at 20 *)

Definition strings (p : Z) : list Z :=
  if p =? 10 then [97; 98; 0] else if p =? 20 then [99; 100; 0] else if p =? 30 then [97; 98; 0] else [].

(** Memory for the fourth entry is refused. *)
#[local] Instance demo_ops : KeyOps := string_ops strings (fun n => negb (n =? 3)).
#[local] Instance demo_laws : KeyLaws := string_laws strings (fun n => negb (n =? 3)).

Lemma demo_valid p : p = 10 \/ p = 20 \/ p = 30 -> valid_key p.
Proof. intros [->|[->| ->]]; (split; [done|by eexists]). Qed.

Definition table0 : cc_hashtable :=
  match cc_hashtable_new_conf (HR := small_heap) tt 2 KEY_LENGTH_VARIABLE 0 with
  | (Some t, _) => t | _ => mk_table 0 0 0 0 0 tt [] 0 end.

Lemma table0_wf : table_wf table0.
Proof. apply (table_new_wf (HR := small_heap) tt 2 KEY_LENGTH_VARIABLE 0); [lia|reflexivity]. Qed.

Definition demo_calls : list hop :=
  [HAdd 10 1; HAdd 20 2; HAdd 30 3; HAdd 0 4; HGet 10; HRemove 20; HGet 20; HGet 0; HAdd 20 5; HAdd 30 6].

Lemma demo_calls_ok : Forall hop_ok demo_calls.
Proof. repeat (apply list.Forall_cons; split; [first [by left|right; apply demo_valid; lia]|]). constructor. Qed.

Lemma table_refines_map_witness :
  exists t', table_run (HR := small_heap) demo_calls table0
      = Ret ((map_run (HR := small_heap) tt demo_calls (spec_of table0)).1, t') /\ table_wf t' /\
    spec_of t' = (map_run (HR := small_heap) tt demo_calls (spec_of table0)).2.
Proof. apply (table_refines_map (HR := small_heap) demo_calls table0 table0_wf demo_calls_ok). by_compute. Defined.

(** The string at 30 is the one at 10, so the third addition replaces; the
    fifth needs the fourth entry and the last none. *)
Example demo_answers :
  match table_run (HR := small_heap) demo_calls table0 with
  | Ret (rs, t) => rs = [(CC_OK, None); (CC_OK, None); (CC_OK, None); (CC_OK, None); (CC_OK, Some 3);
      (CC_OK, Some 2); (CC_ERR_KEY_NOT_FOUND, None); (CC_OK, Some 4); (CC_ERR_ALLOC, None); (CC_OK, None)] /\ cc_hashtable_size t = 2
  | Fault => False
  end.
Proof. by vm_compute. Qed.

Definition set0 : cc_hashset :=
  match cc_hashset_new_conf (HR := small_heap) tt 2 KEY_LENGTH_VARIABLE 0 with
  | (Some s, _) => s | _ => mk_hashset table0 0 end.

Lemma set0_wf : set_wf set0.
Proof. split; [exact table0_wf|reflexivity|]. intros k v H. done. Qed.

Definition demo_set_calls : list sop := [SAdd 10; SContains 30; SContains 20; SRemove 30; SContains 10].

Lemma hashset_refines_set_witness :
  exists rs s', set_run (HR := small_heap) demo_set_calls set0 = Ret (rs, s') /\ set_wf s' /\
    set_trace 1 demo_set_calls ∅ rs (elements_of s').
Proof.
  apply (hashset_refines_set (HR := small_heap) demo_set_calls set0 set0_wf).
  - repeat (apply list.Forall_cons; split; [apply demo_valid; lia|]). constructor.
  - by_compute.
Defined.

(** The table after adding the string ab and the NULL key. *)
Definition added (t : cc_hashtable) (key val : Z) : cc_hashtable :=
  match cc_hashtable_add (HR := small_heap) t key val with Ret (_, t') => t' | Fault => t end.

Lemma added_wf t key val :
  table_wf t -> key_ok key -> ht_size t < 2 ^ 32 - 1 -> table_wf (added t key val).
Proof.
  intros Hw Hk Hs. unfold added.
  destruct (add_spec (HR := small_heap) t key val Hw Hk Hs) as (st & t' & -> & Hw' & _). done.
Qed.

Definition table2 : cc_hashtable := added (added table0 10 1) 0 4.

Lemma table2_wf : table_wf table2.
Proof.
  apply added_wf; [apply added_wf; [exact table0_wf|right; apply demo_valid; lia|by_compute]|by left|by_compute].
Qed.

Lemma table_iter_visits_witness :
  exists l, table_drain 3 (cc_hashtable_iter_init table2) = Ret (Some l) /\
    l = entries table2 /\ NoDup (ekid <$> l) /\ emap l = tmap table2.
Proof. apply (table_iter_visits table2 3 table2_wf). by_compute. Defined.

Lemma contains_null_faults_witness :
  cc_hashtable_get table2 0 = Ret (CC_OK, Some 4, table2) /\ cc_hashtable_contains_key table2 0 = Fault.
Proof. apply (contains_null_faults strings (fun n => negb (n =? 3)) table2 4 table2_wf). reflexivity. Defined.

Lemma table_lists_all_witness :
  (exists st, cc_hashtable_get_keys (HR := small_heap) table2 = Ret (st, None) /\ st <> CC_OK) \/
  (exists keys values, cc_hashtable_get_keys (HR := small_heap) table2 = Ret (CC_OK, Some keys) /\
     cc_hashtable_get_values (HR := small_heap) table2 = Ret (CC_OK, Some values) /\
     contents keys = te_key <$> entries table2 /\ contents values = te_value <$> entries table2).
Proof. apply (table_lists_all (HR := small_heap) table2 table2_wf). by_compute. Defined.

Lemma hash_ptr_injective_witness :
  cc_hashtable_hash_ptr 4 4 7 = cc_hashtable_hash_ptr 4 4 7 /\ 4 = 4.
Proof. split; [reflexivity|]. apply (hash_ptr_injective 4 4 4 7); by_compute || reflexivity. Defined.
