(* ===== verification/CcPool.v ===== *)
(** * Memory pools (src/components/Collections-C/src/memory/)

    The static pool hands out blocks of a buffer by moving a pointer; the
    dynamic pool does the same in a chain of pages it allocates.  Pointers are
    32-bit addresses and pointer arithmetic wraps, as on the target.  The pages
    of a dynamic pool are a map from their addresses to their headers: reading
    a header that was freed is a [Fault]. *)

From S2P Require Import Prelude CMem CcArray Blocks.
Local Open Scope c_scope.

(** ** The static pool (cc_static_pool.c) *)

Record cc_static_pool := mk_spool {
  sp_size : Z;
  sp_block : Z;
  sp_high_ptr : Z;
  sp_low_ptr : Z;
  sp_free_ptr : Z;
}.

Definition cc_static_pool_new (size offset data_buf : Z) : cc_stat * cc_static_pool :=
  let block := u32 (data_buf + offset) in
  (CC_OK, mk_spool size block block block block).

Definition cc_static_pool_reset (pool : cc_static_pool) : cc_static_pool :=
  mk_spool (sp_size pool) (sp_block pool) (sp_low_ptr pool) (sp_low_ptr pool) (sp_low_ptr pool).

(** [None] is NULL. *)
Definition cc_static_pool_malloc (size : Z) (pool : cc_static_pool) : option Z * cc_static_pool :=
  let page_max := u32 (sp_low_ptr pool + sp_size pool) in
  let new_high := u32 (sp_high_ptr pool + size) in
  if page_max <=? new_high then (None, pool)
  else
    let ptr := sp_free_ptr pool in
    (Some ptr, mk_spool (sp_size pool) (sp_block pool) ptr (sp_low_ptr pool) (u32 (ptr + size))).

(** [memset(ptr, 0, n)] in a buffer of bytes at [data_buf]. *)
Definition memset0 (data_buf : Z) (mem : list Z) (ptr n : Z) : outcome (list Z) :=
  let d := ptr - data_buf in
  if (0 <=? d) && (d + n <=? zlen mem)
  then Ret (take (Z.to_nat d) mem ++ replicate (Z.to_nat n) 0 ++ drop (Z.to_nat (d + n)) mem)
  else Fault.

Definition cc_static_pool_calloc (count size : Z) (data_buf : Z) (mem : list Z) (pool : cc_static_pool)
    : outcome (option Z * list Z * cc_static_pool) :=
  match cc_static_pool_malloc (u32 (count * size)) pool with
  | (Some ptr, pool) => mem ← memset0 data_buf mem ptr (u32 (count * size)); Ret (Some ptr, mem, pool)
  | (None, pool) => Ret (None, mem, pool)
  end.

Definition cc_static_pool_free (ptr : Z) (pool : cc_static_pool) : cc_static_pool :=
  if ptr =? sp_high_ptr pool
  then mk_spool (sp_size pool) (sp_block pool) (sp_high_ptr pool) (sp_low_ptr pool) (sp_high_ptr pool)
  else pool.

Definition cc_static_pool_used_bytes (pool : cc_static_pool) : Z := u32 (sp_free_ptr pool - sp_low_ptr pool).
Definition cc_static_pool_free_bytes (pool : cc_static_pool) : Z :=
  u32 (sp_size pool - u32 (sp_free_ptr pool - sp_low_ptr pool)).

(** ** The dynamic pool (cc_dynamic_pool.c) *)

Record page_info := mk_page { pi_previous : Z; pi_size : Z }.

Definition SIZEOF_PAGE_INFO : Z := 8.
Definition SIZEOF_DYNAMIC_POOL : Z := 44.

(** The allocator of pages: the address of a block of [n] bytes, given the
    pages in use. *)
Class PageHeap := page_alloc : gmap Z page_info -> Z -> option Z.

Record dynamic_pool_conf (F : Type) := mk_pool_conf {
  pc_exp_factor : F;
  pc_is_fixed : bool;
  pc_is_packed : bool;
  pc_alignment_boundary : Z;
}.
Arguments mk_pool_conf {F}.
Arguments pc_exp_factor {F}. Arguments pc_is_fixed {F}. Arguments pc_is_packed {F}. Arguments pc_alignment_boundary {F}.

Section Dynamic.
Context {F : Type} `{HR : !Runtime F} `{HP : !PageHeap} (one : F).

Record cc_dynamic_pool := mk_dpool {
  dp_is_fixed : bool;
  dp_is_packed : bool;
  dp_exp_factor : F;
  dp_top_page_size : Z;
  dp_alignment_boundary : Z;
  dp_page : Z;
  dp_high_ptr : Z;
  dp_low_ptr : Z;
  dp_free_ptr : Z;
  dp_pages : gmap Z page_info;
}.

Definition cc_dynamic_pool_conf_init : dynamic_pool_conf F := mk_pool_conf one true true 1.

(** The structure comes from [calloc]; the alignment of the configuration is
    not stored. *)
Definition cc_dynamic_pool_new_conf (size : Z) (conf : dynamic_pool_conf F) : cc_stat * option cc_dynamic_pool :=
  match mem_calloc 1 SIZEOF_DYNAMIC_POOL with
  | None => (CC_ERR_ALLOC, None)
  | Some _ =>
      match page_alloc ∅ (u32 (size + SIZEOF_PAGE_INFO)) with
      | None => (CC_ERR_ALLOC, None)
      | Some page =>
          let start := u32 (page + SIZEOF_PAGE_INFO) in
          (CC_OK, Some (mk_dpool (pc_is_fixed conf) (pc_is_packed conf) (pc_exp_factor conf) size 0
                          page start start start {[page := mk_page 0 size]}))
      end
  end.

Definition cc_dynamic_pool_new (size : Z) : cc_stat * option cc_dynamic_pool :=
  cc_dynamic_pool_new_conf size cc_dynamic_pool_conf_init.

(** Reading the header of a page. *)
Definition page_at (pages : gmap Z page_info) (p : Z) : outcome page_info :=
  match pages !! p with Some i => Ret i | None => Fault end.

(** The loop of [cc_dynamic_pool_destroy]: what is left of the pages. *)
Fixpoint destroy_loop (fuel : nat) (p : Z) (pages : gmap Z page_info) : outcome (gmap Z page_info) :=
  match fuel with
  | O => Ret pages
  | S fuel =>
      i ← page_at pages p;
      let pages := delete p pages in
      if pi_previous i =? 0 then Ret pages else destroy_loop fuel (pi_previous i) pages
  end.

Definition cc_dynamic_pool_destroy (pool : cc_dynamic_pool) : outcome (gmap Z page_info) :=
  destroy_loop (S (base.size (dp_pages pool))) (dp_page pool) (dp_pages pool).

(** The loop of [cc_dynamic_pool_reset] from its [top_page]; [free(NULL)] does
    nothing. *)
Fixpoint reset_loop (fuel : nat) (top del : Z) (pages : gmap Z page_info) : outcome (Z * gmap Z page_info) :=
  match fuel with
  | O => Ret (top, pages)
  | S fuel =>
      if del =? 0 then Ret (top, pages)
      else
        i ← page_at pages del;
        reset_loop fuel del (pi_previous i) (delete (pi_previous i) pages)
  end.

Definition cc_dynamic_pool_reset (pool : cc_dynamic_pool) : outcome cc_dynamic_pool :=
  i ← page_at (dp_pages pool) (dp_page pool);
  r ← reset_loop (S (base.size (dp_pages pool))) (dp_page pool) (pi_previous i) (dp_pages pool);
  j ← page_at r.2 r.1;
  let start := u32 (r.1 + SIZEOF_PAGE_INFO) in
  Ret (mk_dpool (dp_is_fixed pool) (dp_is_packed pool) (dp_exp_factor pool) (pi_size j)
         (dp_alignment_boundary pool) r.1 start start start r.2).

(** The page a request is served from: the current one, or a new one when the
    request does not fit; [None] is the refusal. *)
Definition page_for (size : Z) (pool : cc_dynamic_pool) : option cc_dynamic_pool :=
  let page_max := u32 (dp_low_ptr pool + dp_top_page_size pool) in
  let new_high := u32 (dp_high_ptr pool + size) in
  if page_max <=? new_high then
    let next_max := scale (dp_top_page_size pool) (dp_exp_factor pool) in
    if dp_is_fixed pool || (next_max <? size) then None
    else
      match page_alloc (dp_pages pool) (u32 (next_max + SIZEOF_PAGE_INFO)) with
      | None => None
      | Some new_page =>
          let start := u32 (new_page + SIZEOF_PAGE_INFO) in
          Some (mk_dpool (dp_is_fixed pool) (dp_is_packed pool) (dp_exp_factor pool) next_max
                  (dp_alignment_boundary pool) new_page start start start
                  (<[new_page := mk_page (dp_page pool) next_max]> (dp_pages pool)))
      end
  else Some pool.

(** [a % b]: division by zero is undefined. *)
Definition c_mod (a b : Z) : outcome Z := if b =? 0 then Fault else Ret (a mod b).

Definition cc_dynamic_pool_malloc (size : Z) (pool : cc_dynamic_pool) : outcome (option Z * cc_dynamic_pool) :=
  if dp_top_page_size pool <=? size then Ret (None, pool)
  else
    match page_for size pool with
    | None => Ret (None, pool)
    | Some pool =>
        let ptr := dp_free_ptr pool in
        padding ← (if negb (dp_is_packed pool) then c_mod size (dp_alignment_boundary pool) else Ret 0);
        Ret (Some ptr,
             mk_dpool (dp_is_fixed pool) (dp_is_packed pool) (dp_exp_factor pool) (dp_top_page_size pool)
               (dp_alignment_boundary pool) (dp_page pool) ptr (dp_low_ptr pool) (u32 (u32 (ptr + size) + padding))
               (dp_pages pool))
    end.

(** The block [cc_dynamic_pool_calloc] zeroes, with its length. *)
Definition cc_dynamic_pool_calloc (count size : Z) (pool : cc_dynamic_pool)
    : outcome (option (Z * Z) * cc_dynamic_pool) :=
  r ← cc_dynamic_pool_malloc (u32 (count * size)) pool;
  Ret (option_map (fun ptr => (ptr, u32 (count * size))) r.1, r.2).

Definition cc_dynamic_pool_free (ptr : Z) (pool : cc_dynamic_pool) : cc_dynamic_pool :=
  if ptr =? dp_high_ptr pool
  then mk_dpool (dp_is_fixed pool) (dp_is_packed pool) (dp_exp_factor pool) (dp_top_page_size pool)
         (dp_alignment_boundary pool) (dp_page pool) (dp_high_ptr pool) (dp_low_ptr pool) (dp_high_ptr pool) (dp_pages pool)
  else pool.

(** The loop adds the size of each page that has a page before it. *)
Fixpoint used_loop (fuel : nat) (pages : gmap Z page_info) (pi : page_info) (total : Z) : outcome Z :=
  match fuel with
  | O => Ret total
  | S fuel =>
      if pi_previous pi =? 0 then Ret total
      else
        p ← page_at pages (pi_previous pi);
        used_loop fuel pages p (u32 (total + pi_size pi))
  end.

Definition cc_dynamic_pool_used_bytes (pool : cc_dynamic_pool) : outcome Z :=
  pi ← page_at (dp_pages pool) (dp_page pool);
  used_loop (S (base.size (dp_pages pool))) (dp_pages pool) pi (u32 (dp_free_ptr pool - dp_low_ptr pool)).

Definition cc_dynamic_pool_free_bytes (pool : cc_dynamic_pool) : Z :=
  u32 (dp_top_page_size pool - u32 (dp_free_ptr pool - dp_low_ptr pool)).
End Dynamic.
