(* ===== verification/CcPoolFacts.v ===== *)
(** * What the memory pools promise

    The static pool lays its blocks out one after the other; how far they may
    reach past the buffer; the dynamic pool's pages are all freed by
    [cc_dynamic_pool_destroy], and what [cc_dynamic_pool_reset] does to them. *)

From S2P Require Import Prelude CMem CcArray CcArrayFacts Blocks CcPool.

Section Static.
Implicit Types pool : cc_static_pool.

(** The pointers of a pool whose addresses do not wrap; the last block starts
    inside the buffer or the pool is full for good. *)
Record spool_wf pool : Prop := {
  pw_size : 0 <= sp_size pool;
  pw_low : 0 <= sp_low_ptr pool;
  pw_order : sp_low_ptr pool <= sp_high_ptr pool <= sp_free_ptr pool;
  pw_high : sp_high_ptr pool <= sp_low_ptr pool + 2 * sp_size pool;
  pw_free : sp_free_ptr pool <= sp_low_ptr pool + 2 * sp_size pool;
  pw_last : sp_high_ptr pool < sp_low_ptr pool + sp_size pool ->
            sp_free_ptr pool <= sp_high_ptr pool + sp_size pool;
  pw_mem : sp_low_ptr pool + 4 * sp_size pool < 2 ^ 32;
}.

Definition page_end pool : Z := sp_low_ptr pool + sp_size pool.

(** A request that does not make the addresses wrap. *)
Definition request_ok pool (r : Z) : Prop := 0 <= r < 2 ^ 32 - sp_low_ptr pool - 2 * sp_size pool.

Lemma malloc_cases pool r :
  spool_wf pool -> request_ok pool r ->
  cc_static_pool_malloc r pool
  = if page_end pool <=? sp_high_ptr pool + r then (None, pool)
    else (Some (sp_free_ptr pool), mk_spool (sp_size pool) (sp_block pool) (sp_free_ptr pool) (sp_low_ptr pool)
            (sp_free_ptr pool + r)).
Proof.
  intros [] Hr. unfold request_ok in Hr. unfold cc_static_pool_malloc, page_end. cbv zeta.
  rewrite !(wrap_id 32) by (unfold fits; lia). done.
Qed.

Lemma malloc_wf pool r p pool' :
  spool_wf pool -> request_ok pool r -> cc_static_pool_malloc r pool = (p, pool') ->
  spool_wf pool' /\ sp_low_ptr pool' = sp_low_ptr pool /\ sp_size pool' = sp_size pool.
Proof.
  intros Hw Hr. rewrite malloc_cases by done. pose proof Hw as []. unfold request_ok, page_end in *.
  destruct (Z.leb_spec (sp_low_ptr pool + sp_size pool) (sp_high_ptr pool + r)); intros [= <- <-]; [done|].
  split; [|done]. split; simpl; lia.
Qed.

(** Blocks laid out one after the other from [a] on; [None] is a refusal. *)
Inductive laid : Z -> list Z -> list (option Z) -> Z -> Prop :=
  | laid_nil a : laid a [] [] a
  | laid_refused a r rs ps b : laid a rs ps b -> laid a (r :: rs) (None :: ps) b
  | laid_granted a r rs ps b : laid (a + r) rs ps b -> laid a (r :: rs) (Some a :: ps) b.

Fixpoint malloc_run (rs : list Z) pool : list (option Z) * cc_static_pool :=
  match rs with
  | [] => ([], pool)
  | r :: rs =>
      let '(p, pool) := cc_static_pool_malloc r pool in
      let '(ps, pool) := malloc_run rs pool in (p :: ps, pool)
  end.

(** The blocks of a static pool do not overlap.  For every sequence of
    requests that do not wrap the address space, the blocks granted lie one
    after the other from the free pointer on, and the last one ends at the new
    free pointer, before twice the size of the pool. *)
Theorem static_pool_lays_out rs pool :
  spool_wf pool -> Forall (request_ok pool) rs ->
  laid (sp_free_ptr pool) rs (malloc_run rs pool).1 (sp_free_ptr (malloc_run rs pool).2) /\
  sp_low_ptr pool <= sp_free_ptr (malloc_run rs pool).2 <= sp_low_ptr pool + 2 * sp_size pool.
Proof.
  intros Hw Hr. revert pool Hw Hr. induction rs as [|r rs IH]; intros pool Hw Hr; cbn [malloc_run].
  - split; [constructor|]. destruct Hw. simpl. lia.
  - apply list.Forall_cons in Hr as [Hr Hrs].
    destruct (cc_static_pool_malloc r pool) as [p pool'] eqn:E.
    destruct (malloc_wf pool r p pool' Hw Hr E) as (Hw' & Hl & Hsz).
    destruct (IH pool' Hw') as [IH1 IH2].
    { eapply Forall_impl; [|exact Hrs]. unfold request_ok. by rewrite Hl, Hsz. }
    rewrite malloc_cases in E by done. rewrite Hl, Hsz in IH2.
    destruct (malloc_run rs pool') as [ps pool''] eqn:E2. cbn [fst snd] in *. split; [|done].
    destruct (page_end pool <=? sp_high_ptr pool + r); injection E as <- <-.
    + by apply laid_refused.
    + by apply laid_granted.
Qed.

(** A fresh pool. *)
Lemma static_pool_new_wf size offset buf :
  0 <= size -> 0 <= buf + offset -> buf + offset + 4 * size < 2 ^ 32 ->
  spool_wf (cc_static_pool_new size offset buf).2.
Proof.
  intros H1 H2 H3. unfold cc_static_pool_new. rewrite wrap_id by (unfold fits; lia).
  split; simpl; lia.
Qed.

(** The second block of a fresh pool may reach past its end: the check
    looks at where the last block starts, not at where it ends. *)
Theorem static_pool_overruns pool a b :
  spool_wf pool -> sp_high_ptr pool = sp_low_ptr pool -> sp_free_ptr pool = sp_low_ptr pool ->
  0 <= a < sp_size pool -> 0 <= b < sp_size pool -> sp_size pool < a + b ->
  exists p1 p2, cc_static_pool_malloc a pool = (Some (sp_low_ptr pool), p1) /\
    cc_static_pool_malloc b p1 = (Some (sp_low_ptr pool + a), p2) /\
    page_end pool < sp_low_ptr pool + a + b.
Proof.
  intros Hw Hh Hf Ha Hb Hab. pose proof Hw as [].
  assert (request_ok pool a) as Hra by (unfold request_ok; lia).
  pose proof (malloc_cases pool a Hw Hra) as E1. unfold page_end in *.
  rewrite (proj2 (Z.leb_gt _ _)) in E1 by lia.
  destruct (malloc_wf pool a _ _ Hw Hra E1) as (Hw1 & _).
  eexists _, _. split; [rewrite E1, Hf; reflexivity|]. split; [|lia].
  rewrite Hf in Hw1. rewrite malloc_cases by (done || (unfold request_ok; simpl; lia)).
  unfold page_end. simpl. rewrite (proj2 (Z.leb_gt _ _)) by lia. reflexivity.
Qed.

(** Freeing the block just allocated gives its bytes back. *)
Theorem static_pool_free_restores pool r ptr pool' :
  spool_wf pool -> request_ok pool r -> cc_static_pool_malloc r pool = (Some ptr, pool') ->
  ptr = sp_free_ptr pool /\
  cc_static_pool_used_bytes (cc_static_pool_free ptr pool') = cc_static_pool_used_bytes pool /\
  cc_static_pool_free_bytes (cc_static_pool_free ptr pool') = cc_static_pool_free_bytes pool.
Proof.
  intros Hw Hr. rewrite malloc_cases by done. destruct (_ <=? _); intros [= <- <-].
  unfold cc_static_pool_free. simpl. by rewrite Z.eqb_refl.
Qed.

(** A fresh pool cannot give out all its bytes at once. *)
Theorem static_pool_never_full pool :
  spool_wf pool -> sp_high_ptr pool = sp_low_ptr pool ->
  (cc_static_pool_malloc (sp_size pool) pool).1 = None.
Proof.
  intros Hw Hh. pose proof Hw as []. rewrite malloc_cases by (done || (unfold request_ok; lia)).
  unfold page_end. by rewrite Hh, Z.leb_refl.
Qed.

(** A request so large that the address wraps is granted. *)
Theorem static_pool_huge_granted pool k :
  spool_wf pool -> 0 < k <= sp_high_ptr pool -> sp_high_ptr pool < page_end pool ->
  exists pool', cc_static_pool_malloc (2 ^ 32 - k) pool = (Some (sp_free_ptr pool), pool').
Proof.
  intros [] Hk Hh. unfold page_end in Hh. unfold cc_static_pool_malloc. cbv zeta.
  replace (sp_high_ptr pool + (2 ^ 32 - k)) with (sp_high_ptr pool - k + 1 * 2 ^ 32) by lia.
  unfold wrap at 2. rewrite Z_mod_plus_full. fold (wrap 32 (sp_high_ptr pool - k)).
  rewrite !(wrap_id 32) by (unfold fits; lia). rewrite (proj2 (Z.leb_gt _ _)) by lia. by eexists.
Qed.
End Static.

(** ** The dynamic pool *)

(** The allocator hands out non-null addresses that are not in use. *)
Class PageHeapLaws `{PageHeap} : Prop := {
  page_fresh pages n p : page_alloc pages n = Some p -> p <> 0 /\ pages !! p = None;
}.

Section Dynamic.
Context {F : Type} `{HR : !Runtime F} `{HP : !PageHeap} `{HL : !PageHeapLaws}.
Implicit Types pool : cc_dynamic_pool (F := F).

(** The pages from [p] down to the first: a list of distinct addresses, each
    header pointing to the next. *)
Inductive page_chain (pages : gmap Z page_info) : Z -> list Z -> Prop :=
  | chain_first p size :
      p <> 0 -> pages !! p = Some (mk_page 0 size) -> page_chain pages p [p]
  | chain_next p q size l :
      p <> 0 -> pages !! p = Some (mk_page q size) -> page_chain pages q l -> p ∉ l ->
      page_chain pages p (p :: l).

(** The pool owns its pages and no others. *)
Definition pool_owns pool (l : list Z) : Prop :=
  page_chain (dp_pages pool) (dp_page pool) l /\ dom (dp_pages pool) = list_to_set l.

Lemma chain_head pages p l : page_chain pages p l -> p <> 0 /\ exists l', l = p :: l'.
Proof. intros []; eauto. Qed.

Lemma pool_chain_delete pages p l x : page_chain pages p l -> x ∉ l -> page_chain (delete x pages) p l.
Proof.
  induction 1 as [p size Hp Hl|p q size l Hp Hl _ IH Hni]; intros Hx; apply not_elem_of_cons in Hx as [Hxp Hx].
  - econstructor; [done|]. by rewrite lookup_delete_ne.
  - econstructor; [done|by rewrite lookup_delete_ne|by apply IH|done].
Qed.

Lemma chain_nodup pages p l : page_chain pages p l -> NoDup l.
Proof. induction 1; constructor; try done; [by apply not_elem_of_nil|constructor]. Qed.

Lemma destroy_spec fuel pages p l :
  page_chain pages p l -> (length l <= fuel)%nat -> dom pages = list_to_set l ->
  destroy_loop fuel p pages = Ret ∅.
Proof.
  revert pages p l. induction fuel as [|fuel IH]; intros pages p l Hc Hf Hd.
  - destruct (chain_head _ _ _ Hc) as (_ & l' & ->). simpl in Hf. lia.
  - cbn [destroy_loop]. unfold page_at. destruct Hc as [p size Hp Hl|p q size l Hp Hl Hc Hni]; rewrite Hl, bind_Ret; simpl.
    + f_equal. apply dom_empty_inv_L. rewrite dom_delete_L, Hd. clear. set_solver.
    + destruct (chain_head _ _ _ Hc) as (Hq & _). rewrite (proj2 (Z.eqb_neq _ _) Hq).
      apply (IH _ _ l); [by apply pool_chain_delete|simpl in Hf; lia|]. rewrite dom_delete_L, Hd. clear -Hni. set_solver.
Qed.

(** C34. Destroying a pool frees all its pages. *)
Theorem pool_destroy_frees pool l : pool_owns pool l -> cc_dynamic_pool_destroy pool = Ret ∅.
Proof using Type.
  intros [Hc Hd]. apply (destroy_spec _ _ _ l Hc); [|done].
  rewrite <-(size_dom (D := gset Z)), Hd, size_list_to_set by (by eapply chain_nodup). lia.
Qed.

Lemma chain_insert pages p l x i : page_chain pages p l -> x ∉ l -> page_chain (<[x := i]> pages) p l.
Proof.
  induction 1 as [p size Hp Hl|p q size l Hp Hl _ IH Hni]; intros Hx; apply not_elem_of_cons in Hx as [Hxp Hx].
  - econstructor; [done|]. by rewrite lookup_insert_ne.
  - econstructor; [done|by rewrite lookup_insert_ne|by apply IH|done].
Qed.

Lemma pool_new_owns size conf pool :
  cc_dynamic_pool_new_conf (F := F) size conf = (CC_OK, Some pool) -> exists p, pool_owns pool [p].
Proof using HL.
  unfold cc_dynamic_pool_new_conf. destruct (mem_calloc _ _); [|done].
  destruct (page_alloc ∅ _) as [p|] eqn:E; [|done]. intros [= <-]. apply page_fresh in E as [Hp _].
  exists p. split; simpl; [econstructor; [done|by rewrite lookup_singleton_eq]|]. rewrite dom_singleton_L. clear. set_solver.
Qed.

(** A fresh pool owns one page, and every allocation keeps the chain of
    pages owned: no page is lost or shared. *)
Theorem pool_pages_owned :
  (forall size conf pool, cc_dynamic_pool_new_conf (F := F) size conf = (CC_OK, Some pool) ->
     exists p, pool_owns pool [p]) /\
  (forall size pool l out pool', pool_owns pool l -> cc_dynamic_pool_malloc size pool = Ret (out, pool') ->
     pool_owns pool' l \/ exists p, (p ∉ l) /\ pool_owns pool' (p :: l)).
Proof using HL.
  split.
  - exact pool_new_owns.
  - intros size pool l out pool' Ho. unfold cc_dynamic_pool_malloc. destruct (_ <=? size); [intros [= <- <-]; by left|].
    destruct (page_for size pool) as [pool1|] eqn:E; [|intros [= <- <-]; by left].
    intros (padding & _ & [= <- <-])%bind_inv. unfold page_for in E. destruct (_ <=? u32 _); [|injection E as <-; by left].
    destruct (_ || _); [done|]. destruct (page_alloc _ _) as [p|] eqn:Ep; [|done]. injection E as <-.
    apply page_fresh in Ep as [Hp Hn]. destruct Ho as [Hc Hd]. right.
    assert (p ∉ l) as Hpl by (apply not_elem_of_dom in Hn; rewrite Hd in Hn; clear -Hn; set_solver).
    exists p. split; [done|]. split; simpl.
    + econstructor; [done|by rewrite lookup_insert_eq|by apply chain_insert|done].
    + by rewrite dom_insert_L, Hd.
Qed.

(** ** Reset *)

(** Resetting a pool of three pages or more reads the header of a page it has
    just freed. *)
Theorem reset_reads_freed_page pool p q i j :
  dp_pages pool !! dp_page pool = Some i -> pi_previous i = p ->
  p <> 0 -> dp_pages pool !! p = Some j -> pi_previous j = q -> q <> 0 ->
  cc_dynamic_pool_reset pool = Fault.
Proof using Type.
  intros Hi <- Hp Hj <- Hq. unfold cc_dynamic_pool_reset, page_at. rewrite Hi, bind_Ret.
  destruct (base.size (dp_pages pool)) as [|n] eqn:En.
  { apply map_size_empty_inv in En. rewrite En in Hi. done. }
  cbn [reset_loop]. rewrite (proj2 (Z.eqb_neq _ _) Hp). unfold page_at. rewrite Hj, bind_Ret.
  rewrite (proj2 (Z.eqb_neq _ _) Hq). by rewrite lookup_delete_eq.
Qed.

(** Resetting a pool of two pages goes back to the first page and leaves the
    second allocated, where no later call can free it. *)
Theorem reset_leaks_top_page pool p q s r :
  pool_owns pool [p; q] -> dp_pages pool !! q = Some (mk_page 0 s) ->
  dp_pages pool !! p = Some (mk_page q r) -> p <> 0 -> q <> 0 ->
  exists pool', cc_dynamic_pool_reset pool = Ret pool' /\ dp_page pool' = q /\
    dp_pages pool' !! p = Some (mk_page q r) /\
    exists left, cc_dynamic_pool_destroy pool' = Ret left /\ left !! p = Some (mk_page q r).
Proof using Type.
  intros [Hc Hd] Hq Hp Hp0 Hq0. assert (dp_page pool = p) as Ep by (inversion Hc; done).
  assert (p <> q) as Hpq. { apply chain_nodup in Hc. apply list.NoDup_cons in Hc as [Hc _]. clear -Hc. set_solver. }
  assert (delete 0 (dp_pages pool) = dp_pages pool) as E0.
  { apply delete_id. apply not_elem_of_dom. rewrite Hd. clear -Hp0 Hq0. set_solver. }
  assert (exists n, base.size (dp_pages pool) = S n) as [n En].
  { destruct (base.size (dp_pages pool)) eqn:En; [|by eexists]. apply map_size_empty_inv in En. by rewrite En in Hq. }
  unfold cc_dynamic_pool_reset, page_at. rewrite Ep, Hp, bind_Ret, En. simpl.
  rewrite (proj2 (Z.eqb_neq _ _) Hq0). unfold page_at. rewrite Hq, bind_Ret. simpl. rewrite E0. simpl.
  rewrite Hq. eexists. split; [reflexivity|]. simpl. split_and!; [done..|].
  exists (delete q (dp_pages pool)). split; [|by rewrite lookup_delete_ne].
  unfold cc_dynamic_pool_destroy. cbn [dp_page dp_pages destroy_loop]. unfold page_at. by rewrite Hq, bind_Ret.
Qed.

(** ** Alignment and counting *)

(** A pool that is not packed never hands out a block: the alignment boundary
    of the configuration is not stored, and the padding divides by zero. *)
Theorem unpacked_pool_faults size conf pool r :
  cc_dynamic_pool_new_conf (F := F) size conf = (CC_OK, Some pool) -> pc_is_packed conf = false ->
  0 <= r -> r + 8 + dp_page pool < 2 ^ 32 -> r < size -> size + 8 + dp_page pool < 2 ^ 32 -> 0 <= dp_page pool ->
  cc_dynamic_pool_malloc r pool = Fault.
Proof using Type.
  unfold cc_dynamic_pool_new_conf. destruct (mem_calloc _ _); [|done].
  destruct (page_alloc ∅ _) as [p|]; [|done]. intros [= <-] Hk. simpl. intros H0 H1 H2 H3 H4.
  unfold cc_dynamic_pool_malloc. simpl. rewrite (proj2 (Z.leb_gt _ _)) by lia.
  unfold page_for, SIZEOF_PAGE_INFO. simpl. rewrite (wrap_id 32 (p + 8)) by (unfold fits; lia).
  rewrite !(wrap_id 32) by (unfold fits; lia). rewrite (proj2 (Z.leb_gt _ _)) by lia. simpl. by rewrite Hk.
Qed.

(** The used bytes of a pool of two pages count the size of the top page, which
    may be almost empty, instead of the size of the full page below it. *)
Theorem used_bytes_counts_top pool p q s r :
  pool_owns pool [p; q] -> dp_pages pool !! p = Some (mk_page q r) -> dp_pages pool !! q = Some (mk_page 0 s) ->
  q <> 0 ->
  cc_dynamic_pool_used_bytes pool = Ret (u32 (u32 (dp_free_ptr pool - dp_low_ptr pool) + r)).
Proof using Type.
  intros [Hc Hd] Hp Hq Hq0. assert (dp_page pool = p) as Ep by (inversion Hc; done).
  unfold cc_dynamic_pool_used_bytes, page_at. rewrite Ep, Hp, bind_Ret.
  destruct (base.size (dp_pages pool)) as [|n] eqn:En.
  { apply map_size_empty_inv in En. by rewrite En in Hq. }
  simpl. rewrite (proj2 (Z.eqb_neq _ _) Hq0). unfold page_at. by rewrite Hq, bind_Ret.
Qed.
End Dynamic.

(** ** Concrete pools *)

Definition pool100 : cc_static_pool := (cc_static_pool_new 100 0 1000).2.

Lemma pool100_wf : spool_wf pool100.
Proof. apply static_pool_new_wf; lia. Qed.

(** Two blocks of 60 bytes from a pool of 100: both granted, the third refused. *)
Lemma static_pool_lays_out_witness :
  laid 1000 [60; 60; 40] [Some 1000; Some 1060; None] 1120 /\ 1000 <= 1120 <= 1200.
Proof.
  apply (static_pool_lays_out [60; 60; 40] pool100 pool100_wf).
  repeat (apply list.Forall_cons; split; [unfold request_ok; by_compute|]). constructor.
Defined.

Lemma static_pool_overruns_witness :
  exists p1 p2, cc_static_pool_malloc 60 pool100 = (Some 1000, p1) /\
    cc_static_pool_malloc 60 p1 = (Some 1060, p2) /\ page_end pool100 < 1120.
Proof. apply (static_pool_overruns pool100 60 60 pool100_wf); by_compute || reflexivity. Defined.

Definition high_water (pages : gmap Z page_info) : Z := foldr Z.max 0 (elements (dom pages)).

#[local] Instance stack_heap : PageHeap := fun pages _ => Some (high_water pages + 1000).

Lemma high_water_max pages p : is_Some (pages !! p) -> p <= high_water pages /\ 0 <= high_water pages.
Proof.
  intros Hp. unfold high_water. apply elem_of_dom, elem_of_elements in Hp.
  induction (elements (dom pages)) as [|x l IH]; [by apply elem_of_nil in Hp|]. simpl.
  apply elem_of_cons in Hp as [->|Hp]; [|destruct (IH Hp); lia].
  assert (0 <= foldr Z.max 0 l) by (clear; induction l; simpl; lia). lia.
Qed.

#[local] Instance stack_heap_laws : PageHeapLaws.
Proof.
  split. intros pages n p [= <-].
  assert (0 <= high_water pages) by (unfold high_water; induction (elements (dom pages)); simpl; lia).
  split; [lia|]. destruct (pages !! (high_water pages + 1000)) eqn:E; [|done].
  destruct (high_water_max pages (high_water pages + 1000)); [by rewrite E|lia].
Qed.

Definition growing : dynamic_pool_conf unit := mk_pool_conf tt false true 1.

Definition dpool1 : cc_dynamic_pool :=
  match cc_dynamic_pool_new_conf (HR := small_heap) 32 growing with
  | (_, Some p) => p
  | _ => mk_dpool true true tt 0 0 0 0 0 0 ∅
  end.

Lemma dpool1_owns : exists p, pool_owns dpool1 [p].
Proof. apply (pool_new_owns (HR := small_heap) 32 growing). reflexivity. Qed.

Lemma pool_destroy_frees_witness : exists p, pool_owns dpool1 [p] /\ cc_dynamic_pool_destroy dpool1 = Ret ∅.
Proof. destruct dpool1_owns as [p Hp]. exists p. split; [exact Hp|]. apply (pool_destroy_frees dpool1 [p] Hp). Defined.
