(* ===== verification/CcArraySized.v ===== *)
(** * Array of byte blocks (src/components/Collections-C/src/sized/cc_array_sized.c)

    The elements are blocks of [data_length] bytes laid out one after the other
    in a buffer of bytes, so every offset is a product of 32-bit integers.  A
    buffer is the list of the bytes the allocator gave, an access outside it is
    a [Fault].  The element a caller passes is the object it points to, the
    element handed out through [out] is the bytes written there. *)

From S2P Require Import Prelude CMem CcArray.

(** Parameters: the allocator, in bytes. *)
Class ByteHeap := {
  byte_alloc : Z -> option (list Z);
  byte_calloc : Z -> Z -> option (list Z);
}.

(** Documented behaviour: a block has the size asked for, and no block is
    larger than [PTRDIFF_MAX]. *)
Class ByteHeapLaws `{ByteHeap} : Prop := {
  byte_alloc_size n b : byte_alloc n = Some b -> zlen b = n /\ n < 2 ^ 31;
  byte_calloc_size n m b : byte_calloc n m = Some b -> zlen b = n * m /\ n * m < 2 ^ 31;
}.

Definition SIZEOF_SIZED : Z := 32.              (** [sizeof(CC_ArraySized)] *)

(** [memcpy(out, &b[o], n)] and [memcpy(&b[o], src, n)]. *)
Definition read_at (b : list Z) (o n : Z) : outcome (list Z) :=
  if o + n <=? zlen b then Ret (take (Z.to_nat n) (drop (Z.to_nat o) b)) else Fault.
Definition write_at (b : list Z) (o : Z) (src : list Z) (n : Z) : outcome (list Z) :=
  e ← mem_read src n;
  if o + n <=? zlen b then Ret (take (Z.to_nat o) b ++ e ++ drop (Z.to_nat (o + n)) b) else Fault.

Section Sized.
Context {F : Type} `{HR : !Runtime F} `{HB : !ByteHeap}.

Record cc_array_sized := mk_sized {
  data_length : Z;
  sz_size : Z;
  sz_capacity : Z;
  sz_exp_factor : F;
  sz_buffer : list Z;
}.
Implicit Types a : cc_array_sized.

Definition set_sz_size (n : Z) a : cc_array_sized :=
  mk_sized (data_length a) n (sz_capacity a) (sz_exp_factor a) (sz_buffer a).
Definition set_sz_buffer (b : list Z) a : cc_array_sized :=
  mk_sized (data_length a) (sz_size a) (sz_capacity a) (sz_exp_factor a) b.

(** [BUF_ADDR(a, i)] as an offset, and [INDEX(a, i + j)], which the macro
    expands to [a->data_length * i + j]. *)
Definition BUF_ADDR a (i : Z) : Z := u32 (data_length a * i).
Definition INDEX_PLUS a (i j : Z) : Z := u32 (data_length a * i + j).

(** Status, the element written to [*out] and the array afterwards. *)
Definition sized_result : Type := cc_stat * option (list Z) * cc_array_sized.
Definition sfail (st : cc_stat) a : outcome sized_result := Ret (st, None, a).

(** ** Construction *)

Definition cc_array_sized_new_conf (element_size : Z) (conf_factor : F) (conf_capacity : Z)
    : option cc_array_sized * cc_stat :=
  let ex := if le_one conf_factor then DEFAULT_EXPANSION_FACTOR else conf_factor in
  if (conf_capacity =? 0) || ge_size ex (CC_MAX_ELEMENTS / conf_capacity)
  then (None, CC_ERR_INVALID_CAPACITY)
  else
    match byte_calloc 1 SIZEOF_SIZED with
    | None => (None, CC_ERR_ALLOC)
    | Some _ =>
        match byte_alloc (u32 (conf_capacity * element_size)) with
        | None => (None, CC_ERR_ALLOC)
        | Some buff => (Some (mk_sized element_size 0 conf_capacity ex buff), CC_OK)
        end
    end.

Definition cc_array_sized_new (element_size : Z) : option cc_array_sized * cc_stat :=
  cc_array_sized_new_conf element_size DEFAULT_EXPANSION_FACTOR DEFAULT_CAPACITY.

(** ** Growing and adding *)

Definition expand_capacity a : outcome (cc_stat * cc_array_sized) :=
  if sz_capacity a =? CC_MAX_ELEMENTS then Ret (CC_ERR_MAX_CAPACITY, a)
  else
    let new_capacity := scale (sz_capacity a) (sz_exp_factor a) in
    let cap := if new_capacity <=? sz_capacity a then CC_MAX_ELEMENTS else new_capacity in
    let a := mk_sized (data_length a) (sz_size a) cap (sz_exp_factor a) (sz_buffer a) in
    match byte_alloc (u32 (cap * data_length a)) with
    | None => Ret (CC_ERR_ALLOC, a)
    | Some new_buff =>
        b ← memcpy new_buff (sz_buffer a) 0 (u32 (sz_size a * data_length a));
        Ret (CC_OK, set_sz_buffer b a)
    end.

(** The growth check before an insertion. *)
Definition sized_room a : outcome (cc_stat * cc_array_sized) :=
  if sz_capacity a <=? sz_size a then expand_capacity a else Ret (CC_OK, a).

Definition cc_array_sized_add a (element : list Z) : outcome sized_result :=
  sa ← sized_room a;
  if negb (bool_decide (sa.1 = CC_OK)) then sfail sa.1 sa.2
  else
    let a := sa.2 in
    b ← write_at (sz_buffer a) (BUF_ADDR a (sz_size a)) element (data_length a);
    Ret (CC_OK, None, set_sz_size (u32 (sz_size a + 1)) (set_sz_buffer b a)).

Definition cc_array_sized_add_at a (element : list Z) (index : Z) : outcome sized_result :=
  if index =? sz_size a then cc_array_sized_add a element
  else if ((sz_size a =? 0) && negb (index =? 0)) || (u32 (sz_size a - 1) <? index)
  then sfail CC_ERR_OUT_OF_RANGE a
  else
    sa ← sized_room a;
    if negb (bool_decide (sa.1 = CC_OK)) then sfail sa.1 sa.2
    else
      let a := sa.2 in
      let shift := u32 (u32 (sz_size a - index) * data_length a) in
      b ← memmove (sz_buffer a) (BUF_ADDR a (u32 (index + 1))) (BUF_ADDR a index) shift;
      b ← write_at b (BUF_ADDR a index) element (data_length a);
      Ret (CC_OK, None, set_sz_size (u32 (sz_size a + 1)) (set_sz_buffer b a)).

(** ** Replacing *)

Definition cc_array_sized_replace_at a (element : list Z) (index : Z) : outcome sized_result :=
  if sz_size a <=? index then sfail CC_ERR_OUT_OF_RANGE a
  else
    out ← read_at (sz_buffer a) (BUF_ADDR a index) (data_length a);
    b ← write_at (sz_buffer a) (BUF_ADDR a index) element (data_length a);
    Ret (CC_OK, Some out, set_sz_buffer b a).

(** The bytes [i], [n] of them, of two elements change places. *)
Fixpoint swap_loop (n : nat) (i : Z) a (index1 index2 : Z) (b : list Z) : outcome (list Z) :=
  match n with
  | O => Ret b
  | S n =>
      tmp ← cell b (INDEX_PLUS a index1 i);
      y ← cell b (INDEX_PLUS a index2 i);
      b ← set_cell b (INDEX_PLUS a index1 i) y;
      b ← set_cell b (INDEX_PLUS a index2 i) tmp;
      swap_loop n (i + 1) a index1 index2 b
  end.

Definition cc_array_sized_swap_at a (index1 index2 : Z) : outcome sized_result :=
  if (sz_size a <=? index1) || (sz_size a <=? index2) then sfail CC_ERR_OUT_OF_RANGE a
  else
    b ← swap_loop (Z.to_nat (data_length a)) 0 a index1 index2 (sz_buffer a);
    Ret (CC_OK, None, set_sz_buffer b a).

(** ** Searching *)

(** The loop over the bytes [j] of the element [i]: whether the last byte was
    reached with every byte equal. *)
Fixpoint block_match (n : nat) (j : Z) a (i : Z) (element : list Z) : outcome bool :=
  match n with
  | O => Ret false
  | S n =>
      x ← cell (sz_buffer a) (INDEX_PLUS a i j);
      y ← cell element j;
      if negb (x =? y) then Ret false
      else if j =? u32 (data_length a - 1) then Ret true
      else block_match n (j + 1) a i element
  end.

Fixpoint sized_find (n : nat) (i : Z) a (element : list Z) : outcome (option Z) :=
  match n with
  | O => Ret None
  | S n =>
      same ← block_match (Z.to_nat (data_length a)) 0 a i element;
      if same : bool then Ret (Some i) else sized_find n (i + 1) a element
  end.

Definition cc_array_sized_index_of a (element : list Z) : outcome (cc_stat * option Z) :=
  r ← sized_find (Z.to_nat (sz_size a)) 0 a element;
  match r with
  | Some i => Ret (CC_OK, Some i)
  | None => Ret (CC_ERR_OUT_OF_RANGE, None)
  end.

Fixpoint sized_count (n : nat) (i o : Z) a (element : list Z) : outcome Z :=
  match n with
  | O => Ret o
  | S n =>
      same ← block_match (Z.to_nat (data_length a)) 0 a i element;
      sized_count n (i + 1) (if same : bool then u32 (o + 1) else o) a element
  end.

Definition cc_array_sized_contains a (element : list Z) : outcome Z :=
  sized_count (Z.to_nat (sz_size a)) 0 0 a element.

(** ** Removing *)

(** The shift shared by the removals. *)
Definition sized_close_gap a (index : Z) : outcome cc_array_sized :=
  b ← (if negb (index =? u32 (sz_size a - 1))
       then memmove (sz_buffer a) (BUF_ADDR a index) (BUF_ADDR a (u32 (index + 1)))
              (u32 (u32 (sz_size a - 1 - index) * data_length a))
       else Ret (sz_buffer a));
  Ret (set_sz_size (u32 (sz_size a - 1)) (set_sz_buffer b a)).

Definition cc_array_sized_remove a (element : list Z) : outcome sized_result :=
  r ← cc_array_sized_index_of a element;
  match r with
  | (CC_ERR_OUT_OF_RANGE, _) => sfail CC_ERR_VALUE_NOT_FOUND a
  | (_, index) => a ← sized_close_gap a (default 0 index); Ret (CC_OK, None, a)
  end.

Definition cc_array_sized_remove_at a (index : Z) : outcome sized_result :=
  if sz_size a <=? index then sfail CC_ERR_OUT_OF_RANGE a
  else
    out ← read_at (sz_buffer a) (BUF_ADDR a index) (data_length a);
    a ← sized_close_gap a index;
    Ret (CC_OK, Some out, a).

Definition cc_array_sized_remove_last a : outcome sized_result :=
  cc_array_sized_remove_at a (u32 (sz_size a - 1)).

Definition cc_array_sized_remove_all a : cc_array_sized := set_sz_size 0 a.

(** ** Access *)

Definition cc_array_sized_get_at a (index : Z) : outcome sized_result :=
  if sz_size a <=? index then sfail CC_ERR_OUT_OF_RANGE a
  else
    out ← read_at (sz_buffer a) (BUF_ADDR a index) (data_length a);
    Ret (CC_OK, Some out, a).

Definition cc_array_sized_get_last a : outcome sized_result :=
  if sz_size a =? 0 then sfail CC_ERR_VALUE_NOT_FOUND a
  else cc_array_sized_get_at a (u32 (sz_size a - 1)).

(** The address handed out, as an offset in the buffer. *)
Definition cc_array_sized_peek a (index : Z) : cc_stat * option Z :=
  if sz_size a <? index then (CC_ERR_OUT_OF_RANGE, None)
  else (CC_OK, Some (BUF_ADDR a index)).

(** ** Copies *)

Definition cc_array_sized_subarray a (b e : Z) : outcome (cc_stat * option cc_array_sized) :=
  if (e <? b) || (sz_size a <=? e) then Ret (CC_ERR_INVALID_RANGE, None)
  else
    match byte_calloc 1 SIZEOF_SIZED, byte_alloc (u32 (sz_capacity a * data_length a)) with
    | None, _ | _, None => Ret (CC_ERR_ALLOC, None)
    | Some _, Some buff =>
        let n := u32 (e - b + 1) in
        buff ← memcpy buff (sz_buffer a) (BUF_ADDR a b) (u32 (n * data_length a));
        Ret (CC_OK, Some (mk_sized (data_length a) n n zero_factor buff))
    end.

Definition cc_array_sized_copy a : outcome (cc_stat * option cc_array_sized) :=
  match byte_alloc SIZEOF_SIZED, byte_calloc (sz_capacity a) (data_length a) with
  | None, _ | _, None => Ret (CC_ERR_ALLOC, None)
  | Some _, Some buff =>
      buff ← memcpy buff (sz_buffer a) 0 (u32 (sz_size a * data_length a));
      Ret (CC_OK, Some (set_sz_buffer buff a))
  end.

Definition cc_array_sized_trim_capacity a : outcome (cc_stat * cc_array_sized) :=
  if sz_size a =? sz_capacity a then Ret (CC_OK, a)
  else
    match byte_calloc (sz_size a) (data_length a) with
    | None => Ret (CC_ERR_ALLOC, a)
    | Some new_buff =>
        let n := if sz_size a <? 1 then 1 else sz_size a in
        b ← memcpy new_buff (sz_buffer a) 0 (u32 (n * data_length a));
        Ret (CC_OK, mk_sized (data_length a) (sz_size a) (sz_size a) (sz_exp_factor a) b)
    end.

(** ** Filters *)

(** [i] counts down from [n - 1]; [rm] elements are waiting to be removed
    after it, [keep] kept after those. *)
Fixpoint sized_filter_loop (n : nat) (pred : list Z -> bool) (rm keep : Z) a
    : outcome (Z * Z * cc_array_sized) :=
  match n with
  | O => Ret (rm, keep, a)
  | S i =>
      x ← read_at (sz_buffer a) (BUF_ADDR a (Z.of_nat i)) (data_length a);
      if negb (pred x) then sized_filter_loop i pred (rm + 1) keep a
      else if 0 <? rm then
        b ← (if 0 <? keep
             then memmove (sz_buffer a) (BUF_ADDR a (Z.of_nat i + 1))
                    (BUF_ADDR a (Z.of_nat i + 1 + rm)) (u32 (keep * data_length a))
             else Ret (sz_buffer a));
        sized_filter_loop i pred 0 (keep + 1)
          (set_sz_size (u32 (sz_size a - rm)) (set_sz_buffer b a))
      else sized_filter_loop i pred rm (keep + 1) a
  end.

Definition cc_array_sized_filter_mut a (pred : list Z -> bool)
    : outcome (cc_stat * cc_array_sized) :=
  if sz_size a =? 0 then Ret (CC_ERR_OUT_OF_RANGE, a)
  else
    r ← sized_filter_loop (Z.to_nat (sz_size a)) pred 0 0 a;
    let '(rm, keep, a) := r in
    if 0 <? rm then
      b ← memmove (sz_buffer a) (BUF_ADDR a 0) (BUF_ADDR a rm) (u32 (keep * data_length a));
      Ret (CC_OK, set_sz_size (u32 (sz_size a - rm)) (set_sz_buffer b a))
    else Ret (CC_OK, a).

(** The elements from [i] on, [n] of them, that satisfy [pred] go to [out]. *)
Fixpoint sized_select (n : nat) (i : Z) (pred : list Z -> bool) a (out : cc_array_sized)
    : outcome cc_array_sized :=
  match n with
  | O => Ret out
  | S n =>
      x ← read_at (sz_buffer a) (BUF_ADDR a i) (data_length a);
      if pred x
      then
        b ← write_at (sz_buffer out) (BUF_ADDR out (sz_size out)) x (data_length a);
        sized_select n (i + 1) pred a (set_sz_size (u32 (sz_size out + 1)) (set_sz_buffer b out))
      else sized_select n (i + 1) pred a out
  end.

Definition cc_array_sized_filter a (pred : list Z -> bool)
    : outcome (cc_stat * option cc_array_sized) :=
  if sz_size a =? 0 then Ret (CC_ERR_OUT_OF_RANGE, None)
  else
    match byte_alloc SIZEOF_SIZED, byte_calloc (sz_capacity a) (data_length a) with
    | None, _ | _, None => Ret (CC_ERR_ALLOC, None)
    | Some _, Some buff =>
        r ← sized_select (Z.to_nat (sz_size a)) 0 pred a (set_sz_size 0 (set_sz_buffer buff a));
        Ret (CC_OK, Some r)
    end.

(** ** Whole-array operations *)

(** The elements change places through [tmp], the caller's buffer of
    [tmp_len] bytes. *)
Fixpoint sized_reverse_loop (n : nat) (i j : Z) (tmp_len : Z) a (b : list Z) : outcome (list Z) :=
  match n with
  | O => Ret b
  | S n =>
      x ← read_at b (BUF_ADDR a i) (data_length a);
      if tmp_len <? data_length a then Fault
      else
        y ← read_at b (BUF_ADDR a j) (data_length a);
        b ← write_at b (BUF_ADDR a i) y (data_length a);
        b ← write_at b (BUF_ADDR a j) x (data_length a);
        sized_reverse_loop n (i + 1) (j - 1) tmp_len a b
  end.

Definition cc_array_sized_reverse a (tmp_len : Z) : outcome cc_array_sized :=
  if sz_size a =? 0 then Ret a
  else
    b ← sized_reverse_loop (Z.to_nat (sz_size a / 2)) 0 (sz_size a - 1) tmp_len a (sz_buffer a);
    Ret (set_sz_buffer b a).

(** [fn] rewrites the element it is given in place. *)
Fixpoint sized_map_loop (n : nat) (i : Z) (fn : list Z -> list Z) a : outcome cc_array_sized :=
  match n with
  | O => Ret a
  | S n =>
      x ← read_at (sz_buffer a) (BUF_ADDR a i) (data_length a);
      b ← write_at (sz_buffer a) (BUF_ADDR a i) (fn x) (data_length a);
      sized_map_loop n (i + 1) fn (set_sz_buffer b a)
  end.

Definition cc_array_sized_map a (fn : list Z -> list Z) : outcome cc_array_sized :=
  sized_map_loop (Z.to_nat (sz_size a)) 0 fn a.

(** [fn e1 e2 result] is what [fn] leaves in [result], given the objects its
    arguments point to ([None] for [NULL]). *)
Fixpoint sized_reduce_loop (n : nat) (i : Z) (fn : list Z -> option (list Z) -> list Z -> list Z)
    a (result : list Z) : outcome (list Z) :=
  match n with
  | O => Ret result
  | S n =>
      x ← read_at (sz_buffer a) (BUF_ADDR a i) (data_length a);
      sized_reduce_loop n (i + 1) fn a (fn result (Some x) result)
  end.

Definition cc_array_sized_reduce a (fn : list Z -> option (list Z) -> list Z -> list Z)
    (result : list Z) : outcome (list Z) :=
  if sz_size a =? 1 then
    x ← read_at (sz_buffer a) (BUF_ADDR a 0) (data_length a);
    Ret (fn x None result)
  else
    result ← (if 1 <? sz_size a then
                x ← read_at (sz_buffer a) (BUF_ADDR a 0) (data_length a);
                y ← read_at (sz_buffer a) (BUF_ADDR a 1) (data_length a);
                Ret (fn x (Some y) result)
              else Ret result);
    sized_reduce_loop (Z.to_nat (sz_size a - 2)) 2 fn a result.

(** ** Iterator *)

Record sized_iter := mk_siter { si_ar : cc_array_sized; si_index : Z; si_last_removed : bool }.
Implicit Types it : sized_iter.

Definition cc_array_sized_iter_init a : sized_iter := mk_siter a 0 false.

(** The address handed out is given as an offset. *)
Definition cc_array_sized_iter_next it : cc_stat * option Z * sized_iter :=
  if sz_size (si_ar it) <=? si_index it then (CC_ITER_END, None, it)
  else
    (CC_OK, Some (BUF_ADDR (si_ar it) (si_index it)),
     mk_siter (si_ar it) (u32 (si_index it + 1)) false).

Definition cc_array_sized_iter_remove it : outcome (cc_stat * option (list Z) * sized_iter) :=
  if si_last_removed it then Ret (CC_ERR_VALUE_NOT_FOUND, None, it)
  else
    r ← cc_array_sized_remove_at (si_ar it) (u32 (si_index it - 1));
    let '(st, out, a) := r in
    Ret (st, out, mk_siter a (si_index it) (bool_decide (st = CC_OK))).

Definition cc_array_sized_iter_add it (element : list Z)
    : outcome (cc_stat * option (list Z) * sized_iter) :=
  r ← cc_array_sized_add_at (si_ar it) element (si_index it);
  let '(st, out, a) := r in
  Ret (st, out, mk_siter a (u32 (si_index it + 1)) (si_last_removed it)).

Definition cc_array_sized_iter_replace it (element : list Z)
    : outcome (cc_stat * option (list Z) * sized_iter) :=
  r ← cc_array_sized_replace_at (si_ar it) element (u32 (si_index it - 1));
  let '(st, out, a) := r in
  Ret (st, out, mk_siter a (si_index it) (si_last_removed it)).

Definition cc_array_sized_iter_index it : Z := u32 (si_index it - 1).

(** ** Iterator over two arrays *)

Record sized_zip :=
  mk_szip { sz_ar1 : cc_array_sized; sz_ar2 : cc_array_sized; sz_index : Z; sz_last_removed : bool }.
Implicit Types z : sized_zip.

Definition cc_array_sized_zip_iter_init (a1 a2 : cc_array_sized) : sized_zip :=
  mk_szip a1 a2 0 false.

Definition cc_array_sized_zip_iter_next z : cc_stat * option (Z * Z) * sized_zip :=
  if (sz_size (sz_ar1 z) <=? sz_index z) || (sz_size (sz_ar2 z) <=? sz_index z)
  then (CC_ITER_END, None, z)
  else
    (CC_OK, Some (BUF_ADDR (sz_ar1 z) (sz_index z), BUF_ADDR (sz_ar2 z) (sz_index z)),
     mk_szip (sz_ar1 z) (sz_ar2 z) (u32 (sz_index z + 1)) false).

(** Whether the last pair returned is outside one of the arrays. *)
Definition sized_zip_out z : bool :=
  (sz_size (sz_ar1 z) <=? u32 (sz_index z - 1)) || (sz_size (sz_ar2 z) <=? u32 (sz_index z - 1)).

(** The statuses of the two removals are not looked at. *)
Definition cc_array_sized_zip_iter_remove z
    : outcome (cc_stat * option (list Z) * option (list Z) * sized_zip) :=
  if sized_zip_out z then Ret (CC_ERR_OUT_OF_RANGE, None, None, z)
  else if negb (sz_last_removed z) then
    r1 ← cc_array_sized_remove_at (sz_ar1 z) (u32 (sz_index z - 1));
    r2 ← cc_array_sized_remove_at (sz_ar2 z) (u32 (sz_index z - 1));
    Ret (CC_OK, r1.1.2, r2.1.2, mk_szip r1.2 r2.2 (sz_index z) true)
  else Ret (CC_ERR_VALUE_NOT_FOUND, None, None, z).

(** The growth check of one array: whether it failed. *)
Definition sized_zip_room a : outcome (bool * cc_array_sized) :=
  if sz_size a =? sz_capacity a
  then sa ← expand_capacity a; Ret (negb (bool_decide (sa.1 = CC_OK)), sa.2)
  else Ret (false, a).

Definition cc_array_sized_zip_iter_add z (e1 e2 : list Z) : outcome (cc_stat * sized_zip) :=
  let index := sz_index z in
  let next := u32 (index + 1) in
  r1 ← sized_zip_room (sz_ar1 z);
  if r1.1 : bool then Ret (CC_ERR_ALLOC, mk_szip r1.2 (sz_ar2 z) next (sz_last_removed z))
  else
    r2 ← sized_zip_room (sz_ar2 z);
    if r2.1 : bool then Ret (CC_ERR_ALLOC, mk_szip r1.2 r2.2 next (sz_last_removed z))
    else
      s1 ← cc_array_sized_add_at r1.2 e1 index;
      s2 ← cc_array_sized_add_at r2.2 e2 index;
      Ret (CC_OK, mk_szip s1.2 s2.2 next (sz_last_removed z)).

Definition cc_array_sized_zip_iter_replace z (e1 e2 : list Z)
    : outcome (cc_stat * option (list Z) * option (list Z) * sized_zip) :=
  if sized_zip_out z then Ret (CC_ERR_OUT_OF_RANGE, None, None, z)
  else
    r1 ← cc_array_sized_replace_at (sz_ar1 z) e1 (u32 (sz_index z - 1));
    r2 ← cc_array_sized_replace_at (sz_ar2 z) e2 (u32 (sz_index z - 1));
    Ret (CC_OK, r1.1.2, r2.1.2, mk_szip r1.2 r2.2 (sz_index z) (sz_last_removed z)).

Definition cc_array_sized_zip_iter_index z : Z := u32 (sz_index z - 1).
End Sized.
Arguments cc_array_sized : clear implicits.
Arguments sized_iter : clear implicits.
Arguments sized_zip : clear implicits.
