(* ===== verification/CcArraySizedFacts.v ===== *)
(** * The array of byte blocks implements lists of blocks

    A buffer stands for the blocks it is the concatenation of ([laid_out]):
    reading, writing and moving at multiples of the element size are reading,
    writing and moving whole blocks.  Each operation of cc_array_sized.c is
    then a step of the specification on lists of blocks. *)

From S2P Require Import Prelude CMem CcArray CcArrayFacts CcArraySized.

(** ** Blocks in a buffer *)

Section Layout.
Context (d : nat).
Implicit Types (b t e : list Z) (es : list (list Z)) (i k n s : nat).

(** The first [n] blocks of [d] bytes. *)
Fixpoint chunks n b : list (list Z) :=
  match n with O => [] | S n => take d b :: chunks n (drop d b) end.

Definition sized_blocks es : Prop := Forall (fun e => length e = d) es.
Definition laid_out b es : Prop := sized_blocks es /\ exists t, b = mjoin es ++ t.

Lemma join_length es : sized_blocks es -> length (mjoin es) = (d * length es)%nat.
Proof.
  induction 1 as [|e es He _ IH]; simpl; [lia|]. rewrite length_app, IH, He. lia.
Qed.

Lemma take_join es i : sized_blocks es -> take (d * i) (mjoin es) = mjoin (take i es).
Proof.
  intros H. revert i. induction H as [|e es He _ IH]; intros i.
  - simpl. by rewrite !take_nil.
  - destruct i as [|i]; simpl; [by rewrite Nat.mul_0_r|].
    rewrite take_app_ge by lia. rewrite <-IH, He. do 2 f_equal. lia.
Qed.

Lemma drop_join es i : sized_blocks es -> drop (d * i) (mjoin es) = mjoin (drop i es).
Proof.
  intros H. revert i. induction H as [|e es He _ IH]; intros i.
  - simpl. by rewrite !drop_nil.
  - destruct i as [|i]; simpl; [by rewrite Nat.mul_0_r|].
    rewrite drop_app_ge by lia. rewrite <-IH, He. f_equal. lia.
Qed.

Lemma sized_take es i : sized_blocks es -> sized_blocks (take i es).
Proof. apply Forall_take. Qed.
Lemma sized_drop es i : sized_blocks es -> sized_blocks (drop i es).
Proof. apply Forall_drop. Qed.

Lemma laid_out_long b es : laid_out b es -> (d * length es <= length b)%nat.
Proof. intros (Hs & t & ->). rewrite length_app, join_length by done. lia. Qed.

Lemma chunks_laid n b : (d * n <= length b)%nat -> laid_out b (chunks n b) /\ length (chunks n b) = n.
Proof.
  revert b. induction n as [|n IH]; intros b Hn; simpl.
  - split; [split; [constructor|by exists b]|done].
  - destruct (IH (drop d b)) as ((Hs & t & Et) & Hl); [rewrite length_drop; lia|].
    split; [|by rewrite Hl]. split.
    + constructor; [rewrite length_take; lia|done].
    + exists t. simpl. by rewrite <-app_assoc, <-Et, take_drop.
Qed.

Lemma chunks_unique b es : laid_out b es -> chunks (length es) b = es.
Proof.
  intros (Hs & t & ->). revert t. induction Hs as [|e es He Hs IH]; intros t; [done|]. simpl.
  rewrite <-!app_assoc, take_app_length', drop_app_length' by done. by rewrite IH.
Qed.

Lemma laid_out_prefix b es n : laid_out b es -> laid_out b (take n es).
Proof.
  intros (Hs & t & ->). split; [by apply sized_take|]. exists (mjoin (drop n es) ++ t).
  by rewrite app_assoc, <-join_app, take_drop.
Qed.

(** A block of the buffer, and the buffer after whole blocks of another one
    have been copied over it. *)
Lemma laid_out_seg b es i n :
  laid_out b es -> (i + n <= length es)%nat ->
  take (d * n) (drop (d * i) b) = mjoin (take n (drop i es)).
Proof.
  intros (Hs & t & ->) Hi.
  rewrite drop_app_le by (rewrite join_length by done; nia). rewrite drop_join by done.
  rewrite take_app_le; [by apply take_join, sized_drop|].
  rewrite join_length, length_drop by (by apply sized_drop). nia.
Qed.

Lemma laid_out_splice b es src k n :
  laid_out b es -> sized_blocks src -> length src = n -> (k + n <= length es)%nat ->
  laid_out (take (d * k) b ++ mjoin src ++ drop (d * k + d * n) b)
           (take k es ++ src ++ drop (k + n) es).
Proof.
  intros (Hs & t & ->) Hsrc Hl Hk. split.
  - apply Forall_app. split; [by apply sized_take|]. apply Forall_app. split; [done|by apply sized_drop].
  - exists t. rewrite take_app_le by (rewrite join_length by done; nia). rewrite take_join by done.
    rewrite drop_app_le by (rewrite join_length by done; nia).
    replace (d * k + d * n)%nat with (d * (k + n))%nat by lia. rewrite drop_join by done.
    by rewrite !join_app, !app_assoc.
Qed.

(** The memory operations at multiples of the element size. *)
Lemma read_block b es i e :
  laid_out b es -> es !! i = Some e -> read_at b (Z.of_nat (d * i)) (Z.of_nat d) = Ret e.
Proof.
  intros Hb He. pose proof (lookup_lt_Some _ _ _ He). pose proof (laid_out_long _ _ Hb).
  unfold read_at. rewrite (proj2 (Z.leb_le _ _)) by nia. rewrite !Nat2Z.id. f_equal.
  replace d with (d * 1)%nat at 1 by lia. rewrite (laid_out_seg _ es) by (done || lia).
  rewrite (drop_S _ _ _ He). simpl. by rewrite app_nil_r.
Qed.

Lemma write_block b es i e :
  laid_out b es -> (i < length es)%nat -> length e = d ->
  exists b', write_at b (Z.of_nat (d * i)) e (Z.of_nat d) = Ret b' /\
    laid_out b' (<[i := e]> es) /\ length b' = length b.
Proof.
  intros Hb Hi He. pose proof (laid_out_long _ _ Hb). unfold write_at.
  assert (mem_read e (Z.of_nat d) = Ret e) as -> by (rewrite <-He; apply mem_read_all).
  rewrite bind_Ret, (proj2 (Z.leb_le _ _)) by nia. eexists. split; [reflexivity|].
  split; [|rewrite !length_app, length_take, length_drop, He; nia].
  rewrite insert_take_drop by done.
  pose proof (laid_out_splice b es [e] i 1 Hb) as Hl. simpl in Hl. rewrite app_nil_r in Hl.
  replace (Z.to_nat (Z.of_nat (d * i) + Z.of_nat d)) with (d * i + d * 1)%nat by lia.
  rewrite Nat2Z.id. replace (S i) with (i + 1)%nat by lia. apply Hl; [|done|lia].
  by constructor.
Qed.

Lemma move_blocks b es k s n :
  laid_out b es -> (k + n <= length es)%nat -> (s + n <= length es)%nat ->
  exists b', memmove b (Z.of_nat (d * k)) (Z.of_nat (d * s)) (Z.of_nat (d * n)) = Ret b' /\
    laid_out b' (take k es ++ take n (drop s es) ++ drop (k + n) es) /\ length b' = length b.
Proof.
  intros Hb Hk Hs. pose proof (laid_out_long _ _ Hb). unfold memmove.
  rewrite !(proj2 (Z.leb_le _ _)) by nia. simpl. eexists. split; [reflexivity|].
  rewrite !Nat2Z.id. replace (Z.to_nat (Z.of_nat (d * k) + Z.of_nat (d * n))) with (d * k + d * n)%nat by lia.
  split; [|rewrite !length_app, !length_take, !length_drop; nia].
  rewrite (laid_out_seg _ es) by done. apply laid_out_splice; [done| |rewrite length_take, length_drop; lia|done].
  apply sized_take, sized_drop, Hb.
Qed.

Lemma copy_blocks dst des b es s n :
  laid_out dst des -> laid_out b es -> (n <= length des)%nat -> (s + n <= length es)%nat ->
  exists b', memcpy dst b (Z.of_nat (d * s)) (Z.of_nat (d * n)) = Ret b' /\
    laid_out b' (take n (drop s es) ++ drop n des) /\ length b' = length dst.
Proof.
  intros Hd Hb Hn Hs. pose proof (laid_out_long _ _ Hd). pose proof (laid_out_long _ _ Hb).
  unfold memcpy. rewrite !(proj2 (Z.leb_le _ _)) by nia. simpl. eexists. split; [reflexivity|].
  rewrite !Nat2Z.id. split; [|rewrite length_app, length_take, !length_drop; nia].
  rewrite (laid_out_seg _ es) by done.
  pose proof (laid_out_splice dst des (take n (drop s es)) 0 n Hd) as Hl.
  rewrite Nat.mul_0_r in Hl. simpl in Hl. apply Hl; [|rewrite length_take, length_drop; lia|lia].
  apply sized_take, sized_drop, Hb.
Qed.

(** A byte of a block. *)
Lemma byte_of_block b es i j e y :
  laid_out b es -> es !! i = Some e -> e !! j = Some y ->
  cell b (Z.of_nat (d * i + j)) = Ret y.
Proof.
  intros (Hs & t & ->) He Hy. unfold cell. rewrite Nat2Z.id.
  pose proof (lookup_lt_Some _ _ _ He). pose proof (lookup_lt_Some _ _ _ Hy).
  assert (length e = d) as Hd by (by eapply Forall_lookup_1 in Hs).
  rewrite lookup_app_l by (rewrite join_length by done; nia).
  rewrite <-lookup_drop, drop_join, (drop_S _ _ _ He) by done. simpl.
  by rewrite lookup_app_l, Hy by lia.
Qed.

Lemma join_set es i j e (v : Z) :
  sized_blocks es -> es !! i = Some e -> (j < d)%nat ->
  <[(d * i + j)%nat := v]> (mjoin es) = mjoin (<[i := <[j := v]> e]> es).
Proof.
  intros Hs. revert i. induction Hs as [|e0 es He0 Hs IH]; intros i He Hj; [done|].
  destruct i as [|i]; simpl in *.
  - simplify_eq. rewrite Nat.mul_0_r. apply insert_app_l. lia.
  - rewrite <-IH by done. replace (d * S i + j)%nat with (length e0 + (d * i + j))%nat by lia.
    apply insert_app_r.
Qed.

Lemma set_byte b es i j e v :
  laid_out b es -> es !! i = Some e -> (j < d)%nat ->
  exists b', set_cell b (Z.of_nat (d * i + j)) v = Ret b' /\
    laid_out b' (<[i := <[j := v]> e]> es) /\ length b' = length b.
Proof.
  intros (Hs & t & ->) He Hj. pose proof (lookup_lt_Some _ _ _ He).
  pose proof (join_length es Hs). unfold set_cell.
  rewrite (proj2 (Z.ltb_lt _ _)) by (rewrite length_app; nia). eexists. split; [reflexivity|].
  rewrite Nat2Z.id. split; [|by rewrite length_insert]. split.
  - apply Forall_insert; [done|]. rewrite length_insert. exact (Forall_lookup_1 _ _ _ _ Hs He).
  - exists t. rewrite insert_app_l by nia. by rewrite (join_set _ _ _ e).
Qed.
End Layout.

(** ** The specification: lists of blocks *)

Inductive sop :=
  | SAdd (e : list Z) | SAddAt (e : list Z) (i : Z) | SReplaceAt (e : list Z) (i : Z)
  | SSwapAt (i j : Z) | SRemove (e : list Z) | SRemoveAt (i : Z) | SRemoveLast | SRemoveAll
  | SGetAt (i : Z) | SGetLast | SIndexOf (e : list Z) | SContains (e : list Z)
  | SReverse | SFilterMut (p : list Z -> bool) | SMap (f : list Z -> list Z).

(** What is handed out: an element or a number. *)
Definition sout : Type := list Z + Z.

Definition find_block (e : list Z) (l : list (list Z)) : option nat :=
  fst <$> list_find (fun y => y = e) l.
Definition count_block (e : list Z) (l : list (list Z)) : nat :=
  countb (fun y => bool_decide (y = e)) l.

Definition blocks_step (op : sop) (l : list (list Z)) : cc_stat * option sout * list (list Z) :=
  match op with
  | SAdd e => (CC_OK, None, l ++ [e])
  | SAddAt e i =>
      if i <=? zlen l
      then (CC_OK, None, take (Z.to_nat i) l ++ e :: drop (Z.to_nat i) l)
      else (CC_ERR_OUT_OF_RANGE, None, l)
  | SReplaceAt e i =>
      match l !! Z.to_nat i with
      | Some y => (CC_OK, Some (inl y), <[Z.to_nat i := e]> l)
      | None => (CC_ERR_OUT_OF_RANGE, None, l)
      end
  | SSwapAt i j =>
      match l !! Z.to_nat i, l !! Z.to_nat j with
      | Some x, Some y => (CC_OK, None, <[Z.to_nat j := x]> (<[Z.to_nat i := y]> l))
      | _, _ => (CC_ERR_OUT_OF_RANGE, None, l)
      end
  | SRemove e =>
      match find_block e l with
      | Some i => (CC_OK, None, remove_nth i l)
      | None => (CC_ERR_VALUE_NOT_FOUND, None, l)
      end
  | SRemoveAt i =>
      match l !! Z.to_nat i with
      | Some y => (CC_OK, Some (inl y), remove_nth (Z.to_nat i) l)
      | None => (CC_ERR_OUT_OF_RANGE, None, l)
      end
  | SRemoveLast =>
      match l with
      | [] => (CC_ERR_OUT_OF_RANGE, None, l)
      | _ => (CC_OK, inl <$> list.last l, take (length l - 1) l)
      end
  | SRemoveAll => (CC_OK, None, [])
  | SGetAt i =>
      match l !! Z.to_nat i with
      | Some y => (CC_OK, Some (inl y), l)
      | None => (CC_ERR_OUT_OF_RANGE, None, l)
      end
  | SGetLast =>
      match l with
      | [] => (CC_ERR_VALUE_NOT_FOUND, None, l)
      | _ => (CC_OK, inl <$> list.last l, l)
      end
  | SIndexOf e =>
      match find_block e l with
      | Some i => (CC_OK, Some (inr (Z.of_nat i)), l)
      | None => (CC_ERR_OUT_OF_RANGE, None, l)
      end
  | SContains e => (CC_OK, Some (inr (Z.of_nat (count_block e l))), l)
  | SReverse => (CC_OK, None, reverse l)
  | SFilterMut p =>
      match l with
      | [] => (CC_ERR_OUT_OF_RANGE, None, l)
      | _ => (CC_OK, None, filter (fun y => p y = true) l)
      end
  | SMap f => (CC_OK, None, f <$> l)
  end.

(** Indices are [size_t] values, elements have the size of the array's. *)
Definition sop_ok (d : nat) (op : sop) : Prop :=
  match op with
  | SAdd e | SRemove e | SIndexOf e | SContains e => length e = d
  | SAddAt e i | SReplaceAt e i => length e = d /\ fits 32 i
  | SRemoveAt i | SGetAt i => fits 32 i
  | SSwapAt i j => fits 32 i /\ fits 32 j
  | SMap f => forall e, length e = d -> length (f e) = d
  | _ => True
  end.

Section Facts.
Context {F : Type} `{HR : !Runtime F} `{HB : !ByteHeap} `{HL : !ByteHeapLaws}.
Local Abbreviation sized := (cc_array_sized F).
Implicit Types (a : sized) (es : list (list Z)) (d : nat).

Definition as_elem (r : cc_stat * option (list Z) * sized) : cc_stat * option sout * sized :=
  (r.1.1, inl <$> r.1.2, r.2).

Definition as_num (r : cc_stat * option Z) a : cc_stat * option sout * sized :=
  (r.1, inr <$> r.2, a).

Definition sized_step (op : sop) a : outcome (cc_stat * option sout * sized) :=
  match op with
  | SAdd e => r ← cc_array_sized_add a e; Ret (as_elem r)
  | SAddAt e i => r ← cc_array_sized_add_at a e i; Ret (as_elem r)
  | SReplaceAt e i => r ← cc_array_sized_replace_at a e i; Ret (as_elem r)
  | SSwapAt i j => r ← cc_array_sized_swap_at a i j; Ret (as_elem r)
  | SRemove e => r ← cc_array_sized_remove a e; Ret (as_elem r)
  | SRemoveAt i => r ← cc_array_sized_remove_at a i; Ret (as_elem r)
  | SRemoveLast => r ← cc_array_sized_remove_last a; Ret (as_elem r)
  | SRemoveAll => Ret (CC_OK, None, cc_array_sized_remove_all a)
  | SGetAt i => r ← cc_array_sized_get_at a i; Ret (as_elem r)
  | SGetLast => r ← cc_array_sized_get_last a; Ret (as_elem r)
  | SIndexOf e => r ← cc_array_sized_index_of a e; Ret (as_num r a)
  | SContains e => n ← cc_array_sized_contains a e; Ret (CC_OK, Some (inr n), a)
  | SReverse => a ← cc_array_sized_reverse a (data_length a); Ret (CC_OK, None, a)
  | SFilterMut p => r ← cc_array_sized_filter_mut a p; Ret (r.1, None, r.2)
  | SMap f => a ← cc_array_sized_map a f; Ret (CC_OK, None, a)
  end.

(** ** Well-formed arrays *)

Definition sz_contents a : list (list Z) :=
  chunks (Z.to_nat (data_length a)) (Z.to_nat (sz_size a)) (sz_buffer a).

(** A factor whose product, in bytes, does not leave the address space. *)
Definition sized_growth_ok d (x : F) : Prop :=
  forall n, 0 <= n -> n * Z.of_nat d < 2 ^ 31 -> 0 <= scale n x /\ scale n x * Z.of_nat d < 2 ^ 32.

(** The buffer is laid out as [capacity] blocks [es] of [d] bytes. *)
Record holds d es a : Prop := {
  h_unit : 0 < Z.of_nat d <= 2 ^ 30;
  h_len : data_length a = Z.of_nat d;
  h_cap : sz_capacity a = zlen es;
  h_size : 0 <= sz_size a <= zlen es;
  h_laid : laid_out d (sz_buffer a) es;
  h_max : zlen (sz_buffer a) < 2 ^ 31;
  h_grow : sized_growth_ok d (sz_exp_factor a);
}.

Definition sized_wf d a : Prop := exists es, holds d es a.

Lemma holds_contents d es a : holds d es a -> sz_contents a = take (Z.to_nat (sz_size a)) es.
Proof.
  intros []. unfold sz_contents. rewrite h_len0, Nat2Z.id.
  rewrite <-(chunks_unique d (sz_buffer a) (take (Z.to_nat (sz_size a)) es)).
  - rewrite length_take. f_equal. lia.
  - by apply laid_out_prefix.
Qed.

Lemma sz_contents_length d es a : holds d es a -> length (sz_contents a) = Z.to_nat (sz_size a).
Proof. intros Hh. rewrite (holds_contents _ _ _ Hh), length_take. destruct Hh. lia. Qed.

(** The offsets do not wrap. *)
Lemma holds_total d es a : holds d es a -> Z.of_nat d * zlen es < 2 ^ 31.
Proof. intros []. pose proof (laid_out_long _ _ _ h_laid0). nia. Qed.

Lemma offset_ok d es a k :
  holds d es a -> 0 <= k <= zlen es -> BUF_ADDR a k = Z.of_nat (d * Z.to_nat k).
Proof.
  intros Hh Hk. pose proof (holds_total _ _ _ Hh). destruct Hh. unfold BUF_ADDR.
  rewrite h_len0, wrap_id by (unfold fits; nia). nia.
Qed.

Lemma offset_plus d es a k j :
  holds d es a -> 0 <= k < zlen es -> 0 <= j < Z.of_nat d ->
  INDEX_PLUS a k j = Z.of_nat (d * Z.to_nat k + Z.to_nat j).
Proof.
  intros Hh Hk Hj. pose proof (holds_total _ _ _ Hh). destruct Hh. unfold INDEX_PLUS.
  rewrite h_len0, wrap_id by (unfold fits; nia). nia.
Qed.

Lemma bytes_ok d es a k :
  holds d es a -> 0 <= k <= zlen es -> u32 (k * data_length a) = Z.of_nat (d * Z.to_nat k).
Proof.
  intros Hh Hk. rewrite Z.mul_comm. change (BUF_ADDR a k = Z.of_nat (d * Z.to_nat k)).
  by eapply offset_ok.
Qed.

(** A small index does not wrap either. *)
Lemma index_fits d es a k : holds d es a -> 0 <= k <= zlen es -> u32 k = k.
Proof.
  intros Hh Hk. pose proof (holds_total _ _ _ Hh). destruct Hh. apply wrap_id. unfold fits. nia.
Qed.

Lemma holds_put d es a b es' :
  holds d es a -> laid_out d b es' -> length es' = length es -> length b = length (sz_buffer a) ->
  holds d es' (set_sz_buffer b a).
Proof. intros [] Hb He Hl. split; simpl; rewrite ?He, ?Hl; done. Qed.

Lemma holds_resize d es a n : holds d es a -> 0 <= n <= zlen es -> holds d es (set_sz_size n a).
Proof. intros [] Hn. split; done. Qed.

(** What an element operation does to the array. *)
Lemma read_elem d es a k :
  holds d es a -> 0 <= k < zlen es ->
  exists e, es !! Z.to_nat k = Some e /\ length e = d /\
    read_at (sz_buffer a) (BUF_ADDR a k) (data_length a) = Ret e.
Proof.
  intros Hh Hk. destruct (lookup_lt_is_Some_2 es (Z.to_nat k)) as [e He]; [lia|]. exists e.
  rewrite (offset_ok _ _ _ _ Hh) by lia. destruct Hh. split; [done|].
  split; [eapply Forall_lookup_1 in He; [exact He|apply h_laid0]|].
  rewrite h_len0. by eapply read_block.
Qed.

Lemma write_elem d es a k e :
  holds d es a -> 0 <= k < zlen es -> length e = d ->
  exists b, write_at (sz_buffer a) (BUF_ADDR a k) e (data_length a) = Ret b /\
    holds d (<[Z.to_nat k := e]> es) (set_sz_buffer b a).
Proof.
  intros Hh Hk He. rewrite (offset_ok _ _ _ _ Hh) by lia. pose proof Hh as [].
  rewrite h_len0. destruct (write_block d (sz_buffer a) es (Z.to_nat k) e) as (b & -> & Hb & Hl);
    [done|lia|done|].
  exists b. split; [done|]. eapply holds_put; [done|done|by rewrite length_insert|done].
Qed.

Lemma move_elems d es a k s n :
  holds d es a -> 0 <= k -> 0 <= s -> 0 <= n -> k + n <= zlen es -> s + n <= zlen es ->
  exists b, memmove (sz_buffer a) (BUF_ADDR a k) (BUF_ADDR a s) (u32 (n * data_length a)) = Ret b /\
    holds d (take (Z.to_nat k) es ++ take (Z.to_nat n) (drop (Z.to_nat s) es)
             ++ drop (Z.to_nat k + Z.to_nat n) es) (set_sz_buffer b a).
Proof.
  intros Hh Hk Hs Hn Hkn Hsn.
  rewrite !(offset_ok _ _ _ _ Hh), (bytes_ok _ _ _ _ Hh) by lia. pose proof Hh as [].
  destruct (move_blocks d (sz_buffer a) es (Z.to_nat k) (Z.to_nat s) (Z.to_nat n))
    as (b & -> & Hb & Hl); [done|lia|lia|].
  exists b. split; [done|]. eapply holds_put; [done|done| |done].
  rewrite !length_app, !length_take, !length_drop. lia.
Qed.

Lemma contents_lookup d es a i :
  holds d es a -> 0 <= i < sz_size a -> sz_contents a !! Z.to_nat i = es !! Z.to_nat i.
Proof. intros Hh Hi. rewrite (holds_contents _ _ _ Hh), lookup_take_lt by lia. done. Qed.

Lemma contents_outside d es a i :
  holds d es a -> sz_size a <= i -> sz_contents a !! Z.to_nat i = None.
Proof.
  intros Hh Hi. apply lookup_ge_None_2. rewrite (sz_contents_length _ _ _ Hh). destruct Hh. lia.
Qed.

(** ** Growth *)

(** The bytes [expand_capacity] asks for. *)
Definition sized_request a : Z :=
  u32 ((if scale (sz_capacity a) (sz_exp_factor a) <=? sz_capacity a then CC_MAX_ELEMENTS
        else scale (sz_capacity a) (sz_exp_factor a)) * data_length a).

(** A full array that cannot grow. *)
Definition sized_starved a : Prop :=
  sz_size a = sz_capacity a /\ byte_alloc (sized_request a) = None.

Lemma max_request n : 0 < n <= 2 ^ 30 -> u32 (CC_MAX_ELEMENTS * n) = 2 ^ 32 - 2 * n.
Proof.
  intros Hn. assert (CC_MAX_ELEMENTS = 2 ^ 32 - 2) as -> by reflexivity.
  unfold wrap. symmetry. apply (Z.mod_unique _ _ (n - 1)); lia.
Qed.

Lemma sized_room_ok d es a :
  holds d es a ->
  (exists a', sized_room a = Ret (CC_ERR_ALLOC, a') /\ sz_contents a' = sz_contents a /\ sized_starved a) \/
  (exists a' es', sized_room a = Ret (CC_OK, a') /\ holds d es' a' /\ sz_size a' = sz_size a /\
     sz_size a < zlen es' /\ take (Z.to_nat (sz_size a)) es' = take (Z.to_nat (sz_size a)) es).
Proof using HL.
  intros Hh. pose proof (holds_total _ _ _ Hh) as Ht. pose proof Hh as [].
  unfold sized_room. destruct (Z.leb_spec (sz_capacity a) (sz_size a)) as [Hfull|].
  2: { right. exists a, es. split_and!; done || lia. }
  unfold sized_starved, sized_request, expand_capacity. cbn [data_length sz_size sz_buffer].
  assert (sz_capacity a <> CC_MAX_ELEMENTS) as Hm.
  { assert (CC_MAX_ELEMENTS = 2 ^ 32 - 2) as -> by reflexivity. nia. }
  rewrite (proj2 (Z.eqb_neq _ _) Hm).
  destruct (h_grow0 (sz_capacity a)) as [Hs0 Hs1]; [lia|nia|].
  destruct (Z.leb_spec (scale (sz_capacity a) (sz_exp_factor a)) (sz_capacity a)).
  - assert (u32 (CC_MAX_ELEMENTS * data_length a) = 2 ^ 32 - 2 * data_length a) as ->
      by (apply max_request; lia). left. destruct (byte_alloc _) as [b|] eqn:E.
    { apply byte_alloc_size in E. lia. }
    eexists. split; [reflexivity|]. split; [done|]. split; [lia|done].
  - set (c := scale _ _) in *. rewrite (wrap_id 32 (c * _)) by (unfold fits; nia).
    destruct (byte_alloc _) as [b|] eqn:E; [|left; eexists; split_and!; done || lia].
    right. apply byte_alloc_size in E as [Hb Hb'].
    destruct (chunks_laid d (Z.to_nat c) b) as [Hl Hn]; [nia|].
    rewrite (bytes_ok _ _ _ _ Hh) by lia.
    destruct (copy_blocks d b (chunks d (Z.to_nat c) b) (sz_buffer a) es 0 (Z.to_nat (sz_size a)))
      as (b' & Eb & Hlb & Hbl); [done|done|lia|lia|].
    rewrite Nat.mul_0_r in Eb. change (Z.of_nat 0) with 0 in Eb. rewrite Eb, bind_Ret.
    set (es' := _ ++ _) in *. assert (length es' = Z.to_nat c) as Hl'.
    { subst es'. rewrite length_app, length_take, !length_drop. lia. }
    exists (set_sz_buffer b' (mk_sized (data_length a) (sz_size a) c (sz_exp_factor a) (sz_buffer a))), es'.
    split_and!; [done| |done|lia|].
    + split; simpl; done || lia.
    + subst es'. rewrite drop_0, take_app_le by (rewrite length_take; lia).
      rewrite take_take. f_equal. lia.
Qed.

(** ** Simulation, operation by operation *)

(** A step of the specification, or a failed allocation. *)
Definition sized_simulates d (op : sop) a : Prop :=
  exists st out a', sized_step op a = Ret (st, out, a') /\
    ((st = CC_ERR_ALLOC /\ sz_contents a' = sz_contents a /\ sized_starved a) \/
     (sized_wf d a' /\ blocks_step op (sz_contents a) = (st, out, sz_contents a'))).

Lemma ssim_exact d es op a st out a' :
  sized_step op a = Ret (st, out, a') -> holds d es a' ->
  blocks_step op (sz_contents a) = (st, out, take (Z.to_nat (sz_size a')) es) ->
  sized_simulates d op a.
Proof.
  intros H1 H2 H3. exists st, out, a'. split; [done|]. right. split; [by exists es|].
  by rewrite (holds_contents _ _ _ H2).
Qed.

(** An operation that reports and leaves the array alone. *)
Lemma ssim_same d es op a st out :
  sized_step op a = Ret (st, out, a) -> holds d es a ->
  blocks_step op (sz_contents a) = (st, out, sz_contents a) -> sized_simulates d op a.
Proof. intros H1 H2 H3. exists st, out, a. split; [done|]. right. split; [by exists es|done]. Qed.

Lemma sized_add_run d es a e :
  holds d es a -> length e = d ->
  (exists a', cc_array_sized_add a e = Ret (CC_ERR_ALLOC, None, a') /\
     sz_contents a' = sz_contents a /\ sized_starved a) \/
  (exists a' es', cc_array_sized_add a e = Ret (CC_OK, None, a') /\ holds d es' a' /\
     take (Z.to_nat (sz_size a')) es' = sz_contents a ++ [e]).
Proof using HL.
  intros Hh He. unfold cc_array_sized_add.
  destruct (sized_room_ok _ _ _ Hh) as [(a' & -> & Hc & Hv)|(a' & es' & -> & Hh' & Hs & Hr & Ht)];
    rewrite bind_Ret; simpl.
  - left. by eexists.
  - right. destruct (write_elem d es' a' (sz_size a') e Hh') as (b & -> & Hb);
      [destruct Hh'; lia|done|]. rewrite bind_Ret.
    assert (u32 (sz_size a' + 1) = sz_size a' + 1) as Hu
      by (eapply index_fits; [exact Hh'|destruct Hh'; lia]).
    exists (set_sz_size (sz_size a' + 1) (set_sz_buffer b a')), (<[Z.to_nat (sz_size a') := e]> es').
    rewrite Hu. split; [done|]. split.
    + eapply holds_resize; [done|]. rewrite length_insert. destruct Hh'. lia.
    + simpl. rewrite (holds_contents _ _ _ Hh), <-Ht, Hs.
      assert (0 <= sz_size a) by (destruct Hh; lia).
      replace (Z.to_nat (sz_size a + 1)) with (S (Z.to_nat (sz_size a))) by lia.
      apply take_insert_snoc. lia.
Qed.

Lemma ssim_add d es a e : holds d es a -> length e = d -> sized_simulates d (SAdd e) a.
Proof using HL.
  intros Hh He. destruct (sized_add_run d es a e Hh He) as [(a' & E & Hc & Hv)|(a' & es' & E & Hh' & Hc)].
  - exists CC_ERR_ALLOC, None, a'. split; [|by left]. simpl. by rewrite E.
  - eapply ssim_exact; [|exact Hh'|by rewrite Hc]. simpl. by rewrite E.
Qed.

Lemma size_guard d es a i :
  holds d es a -> 0 <= i -> i <> sz_size a ->
  ((sz_size a =? 0) && negb (i =? 0) || (u32 (sz_size a - 1) <? i)) = (sz_size a <? i).
Proof.
  intros Hh Hi Hne. destruct (Z.eqb_spec (sz_size a) 0) as [E|E].
  - rewrite (proj2 (Z.eqb_neq i 0)) by lia. symmetry. apply Z.ltb_lt. lia.
  - simpl. rewrite (index_fits _ _ _ _ Hh) by (destruct Hh; lia).
    destruct (Z.ltb_spec (sz_size a - 1) i), (Z.ltb_spec (sz_size a) i); done || lia.
Qed.

Lemma ssim_add_at d es a e i :
  holds d es a -> length e = d -> fits 32 i -> sized_simulates d (SAddAt e i) a.
Proof using HL.
  intros Hh He [Hi0 _]. pose proof (sz_contents_length _ _ _ Hh) as Hn.
  assert (0 <= sz_size a) as Hs0 by (destruct Hh; lia).
  destruct (Z.eq_dec i (sz_size a)) as [->|Hne].
  { assert (blocks_step (SAddAt e (sz_size a)) (sz_contents a)
            = (CC_OK, None, sz_contents a ++ [e])) as El.
    { simpl. rewrite Hn, (proj2 (Z.leb_le _ _)) by lia.
      by rewrite <-Hn, firstn_all, drop_all. }
    destruct (sized_add_run d es a e Hh He) as [(a' & E & Hc & Hv)|(a' & es' & E & Hh' & Hc)].
    - exists CC_ERR_ALLOC, None, a'. split; [|by left]. simpl. unfold cc_array_sized_add_at.
      by rewrite Z.eqb_refl, E.
    - eapply ssim_exact; [|exact Hh'|by rewrite El, Hc]. simpl. unfold cc_array_sized_add_at.
      by rewrite Z.eqb_refl, E. }
  assert (sized_step (SAddAt e i) a = r ← cc_array_sized_add_at a e i; Ret (as_elem r)) as Est by done.
  revert Est. unfold cc_array_sized_add_at.
  rewrite (proj2 (Z.eqb_neq _ _) Hne), (size_guard d es) by done.
  destruct (Z.ltb_spec (sz_size a) i); intros Est.
  { eapply ssim_same; [exact Est|done|]. simpl. rewrite Hn, (proj2 (Z.leb_gt _ _)) by lia. done. }
  destruct (sized_room_ok _ _ _ Hh) as [(a' & E & Hc & Hv)|(a' & es' & E & Hh' & Hs & Hr & Ht)];
    rewrite E, bind_Ret in Est; simpl in Est.
  { eexists _, _, _. split; [exact Est|]. by left. }
  rewrite Hs, (index_fits _ _ _ (i + 1) Hh') in Est by lia.
  rewrite (index_fits _ _ _ (sz_size a - i) Hh') in Est by lia.
  destruct (move_elems d es' a' (i + 1) i (sz_size a - i) Hh') as (b & Eb & Hb); [lia..|].
  rewrite Eb, bind_Ret in Est.
  set (es1 := _ ++ _ ++ _) in Hb. assert (length es1 = length es') as Hl1.
  { subst es1. rewrite !length_app, !length_take, !length_drop. lia. }
  destruct (write_elem d es1 (set_sz_buffer b a') i e Hb) as (b2 & Eb2 & Hb2); [lia|done|].
  change (write_at b (BUF_ADDR a' i) e (data_length a') = Ret b2) in Eb2.
  rewrite Eb2, !bind_Ret, (index_fits _ _ _ (sz_size a + 1) Hh') in Est by lia.
  eapply ssim_exact; [exact Est| |].
  - eapply (holds_resize d _ (set_sz_buffer b2 a')); [exact Hb2|]. rewrite length_insert, Hl1. lia.
  - simpl. rewrite Hn, (proj2 (Z.leb_le _ _)) by lia. do 2 f_equal.
    rewrite (holds_contents _ _ _ Hh), <-Ht. subst es1. symmetry.
    replace (Z.to_nat (i + 1)) with (S (Z.to_nat i)) by lia.
    replace (Z.to_nat (sz_size a + 1)) with (S (Z.to_nat (sz_size a))) by lia.
    replace (Z.to_nat (sz_size a - i)) with (Z.to_nat (sz_size a) - Z.to_nat i)%nat by lia.
    replace (S (Z.to_nat i) + (Z.to_nat (sz_size a) - Z.to_nat i))%nat with (S (Z.to_nat (sz_size a))) by lia.
    apply insert_shift; lia.
Qed.

(** *** Access and replacement *)

(** The first [n] blocks after a block has been replaced. *)
Lemma take_put es (n k : nat) e :
  (k < n)%nat -> take n (<[k := e]> es) = <[k := e]> (take n es).
Proof. intros Hk. by apply take_insert_lt. Qed.

Lemma ssim_get_at d es a i : holds d es a -> fits 32 i -> sized_simulates d (SGetAt i) a.
Proof.
  intros Hh [Hi _]. assert (Est : sized_step (SGetAt i) a = r ← cc_array_sized_get_at a i; Ret (as_elem r)) by done.
  revert Est. unfold cc_array_sized_get_at. destruct (Z.leb_spec (sz_size a) i); intros Est.
  - eapply ssim_same; [exact Est|done|]. simpl. by rewrite (contents_outside _ _ _ _ Hh).
  - destruct (read_elem d es a i Hh) as (e & He & _ & Er); [destruct Hh; lia|].
    rewrite Er, !bind_Ret in Est. eapply ssim_same; [exact Est|done|]. simpl.
    by rewrite (contents_lookup _ _ _ _ Hh), He.
Qed.

Lemma ssim_replace_at d es a e i :
  holds d es a -> length e = d -> fits 32 i -> sized_simulates d (SReplaceAt e i) a.
Proof.
  intros Hh He [Hi _].
  assert (Est : sized_step (SReplaceAt e i) a = r ← cc_array_sized_replace_at a e i; Ret (as_elem r)) by done.
  revert Est. unfold cc_array_sized_replace_at. destruct (Z.leb_spec (sz_size a) i); intros Est.
  - eapply ssim_same; [exact Est|done|]. simpl. by rewrite (contents_outside _ _ _ _ Hh).
  - assert (0 <= i < zlen es) as Hi' by (destruct Hh; lia).
    destruct (read_elem d es a i Hh Hi') as (y & Hy & _ & Er).
    destruct (write_elem d es a i e Hh Hi' He) as (b & Ew & Hb).
    rewrite Er, Ew, !bind_Ret in Est. eapply ssim_exact; [exact Est|exact Hb|]. simpl.
    rewrite (contents_lookup _ _ _ _ Hh), Hy by lia.
    by rewrite take_put, (holds_contents _ _ _ Hh) by lia.
Qed.

Lemma last_elem d es a :
  holds d es a -> 0 < sz_size a ->
  list.last (sz_contents a) = es !! Z.to_nat (sz_size a - 1).
Proof.
  intros Hh Hs. rewrite last_lookup, (sz_contents_length _ _ _ Hh), (holds_contents _ _ _ Hh).
  rewrite lookup_take_lt by lia. f_equal. lia.
Qed.

Lemma sz_contents_nil d es a : holds d es a -> sz_contents a = [] <-> sz_size a = 0.
Proof.
  intros Hh. pose proof (sz_contents_length _ _ _ Hh) as Hl.
  assert (0 <= sz_size a) by (destruct Hh; lia). split; intros E.
  - rewrite E in Hl. simpl in Hl. lia.
  - apply nil_length_inv. lia.
Qed.

Lemma ssim_get_last d es a : holds d es a -> sized_simulates d SGetLast a.
Proof.
  intros Hh. assert (Est : sized_step SGetLast a = r ← cc_array_sized_get_last a; Ret (as_elem r)) by done.
  revert Est. unfold cc_array_sized_get_last, cc_array_sized_get_at.
  destruct (Z.eqb_spec (sz_size a) 0) as [E|E]; intros Est.
  - eapply ssim_same; [exact Est|done|]. simpl. by rewrite (proj2 (sz_contents_nil _ _ _ Hh) E).
  - assert (0 < sz_size a <= zlen es) as Hs by (destruct Hh; lia).
    rewrite (index_fits _ _ _ _ Hh), (proj2 (Z.leb_gt _ _)) in Est by lia.
    destruct (read_elem d es a (sz_size a - 1) Hh) as (e & He & _ & Er); [lia|].
    rewrite Er, !bind_Ret in Est. eapply ssim_same; [exact Est|done|]. simpl.
    rewrite (last_elem _ _ _ Hh), He by lia.
    destruct (sz_contents a) eqn:Ec; [|done]. by apply (sz_contents_nil _ _ _ Hh) in Ec.
Qed.

(** *** Exchange, byte by byte *)

(** A block whose first [k] bytes are [x]'s and whose others are [y]'s. *)
Definition mix (k : nat) (x y : list Z) : list Z := take k x ++ drop k y.

Lemma mix_same k x : mix k x x = x.
Proof. apply take_drop. Qed.

Lemma mix_get k x y : length x = length y -> mix k x y !! k = y !! k.
Proof.
  intros Hl. unfold mix. destruct (Nat.lt_ge_cases k (length x)).
  - rewrite lookup_app_r, length_take, lookup_drop by (rewrite length_take; lia). f_equal. lia.
  - rewrite !lookup_ge_None_2; [done|lia|]. rewrite length_app, length_take, length_drop. lia.
Qed.

Lemma mix_step k x y v : length x = length y -> x !! k = Some v -> <[k := v]> (mix k x y) = mix (S k) x y.
Proof.
  intros Hl Hv. pose proof (lookup_lt_Some _ _ _ Hv). unfold mix.
  destruct (lookup_lt_is_Some_2 y k) as [w Hw]; [lia|].
  rewrite (drop_S _ _ _ Hw), (take_S_r _ _ _ Hv), <-app_assoc.
  replace k with (length (take k x) + 0)%nat at 1 by (rewrite length_take; lia).
  by rewrite insert_app_r.
Qed.

Lemma mix_length k x y : length x = length y -> length (mix k x y) = length x.
Proof. intros Hl. unfold mix. rewrite length_app, length_take, length_drop. lia. Qed.

(** The blocks after the first [k] bytes of the [i]-th and the [j]-th have
    been exchanged. *)
Definition half_swapped (k i j : nat) (x y : list Z) es : list (list Z) :=
  <[j := mix k x y]> (<[i := mix k y x]> es).

Lemma half_swapped_step d b es (i j k : nat) x y vx vy :
  laid_out d b (half_swapped k i j x y es) -> (i < length es)%nat -> (j < length es)%nat ->
  length x = d -> length y = d -> x !! k = Some vx -> y !! k = Some vy -> (i = j -> x = y) ->
  cell b (Z.of_nat (d * i + k)) = Ret vx /\ cell b (Z.of_nat (d * j + k)) = Ret vy /\
  exists b1 b2, set_cell b (Z.of_nat (d * i + k)) vy = Ret b1 /\
    set_cell b1 (Z.of_nat (d * j + k)) vx = Ret b2 /\
    laid_out d b2 (half_swapped (S k) i j x y es) /\ length b2 = length b.
Proof.
  intros Hb Hi Hj Hx Hy Hvx Hvy Hij. pose proof (lookup_lt_Some _ _ _ Hvx) as Hk.
  assert (half_swapped k i j x y es !! j = Some (mix k x y)) as Ej.
  { apply list_lookup_insert_eq. by rewrite length_insert. }
  assert (half_swapped k i j x y es !! i = Some (mix k y x)) as Ei.
  { unfold half_swapped. destruct (decide (j = i)) as [->|].
    - rewrite Hij by done. rewrite list_lookup_insert_eq by (by rewrite length_insert). by rewrite !mix_same.
    - rewrite list_lookup_insert_ne by done. by apply list_lookup_insert_eq. }
  split; [eapply byte_of_block; [exact Hb|exact Ei|]; by rewrite mix_get by congruence|].
  split; [eapply byte_of_block; [exact Hb|exact Ej|]; by rewrite mix_get by congruence|].
  destruct (set_byte d b _ i k _ vy Hb Ei) as (b1 & E1 & H1 & L1); [lia|].
  rewrite (mix_step k y x) in H1 by (done || congruence). exists b1.
  assert (<[i := mix (S k) y x]> (half_swapped k i j x y es) !! j = Some (mix k x y)
          \/ (i = j /\ <[i := mix (S k) y x]> (half_swapped k i j x y es) !! j = Some (mix (S k) x y)))
    as [Ej1|[-> Ej1]].
  { destruct (decide (i = j)) as [->|].
    - right. split; [done|]. rewrite Hij by done. apply list_lookup_insert_eq.
      unfold half_swapped. by rewrite !length_insert.
    - left. by rewrite list_lookup_insert_ne. }
  - destruct (set_byte d b1 _ j k _ vx H1 Ej1) as (b2 & E2 & H2 & L2); [lia|].
    rewrite (mix_step k x y) in H2 by (done || congruence). exists b2.
    split_and!; [done|done| |lia]. revert H2. unfold half_swapped.
    destruct (decide (i = j)) as [->|Hn].
    + by rewrite !list_insert_insert_eq.
    + rewrite (list_insert_insert_ne _ i j) by done. by rewrite !list_insert_insert_eq.
  - destruct (set_byte d b1 _ j k _ vx H1 Ej1) as (b2 & E2 & H2 & L2); [lia|]. exists b2.
    rewrite Hij in * by done. split_and!; [done|done| |lia]. revert H2. unfold half_swapped.
    rewrite !mix_same, !list_insert_insert_eq, (list_insert_id y) by done. done.
Qed.

Lemma swap_loop_ok d es a b (i j : Z) x y n k :
  holds d es a -> 0 <= i < zlen es -> 0 <= j < zlen es -> (k + n = d)%nat ->
  length x = d -> length y = d -> (Z.to_nat i = Z.to_nat j -> x = y) ->
  laid_out d b (half_swapped k (Z.to_nat i) (Z.to_nat j) x y es) ->
  exists b', swap_loop n (Z.of_nat k) a i j b = Ret b' /\
    laid_out d b' (half_swapped d (Z.to_nat i) (Z.to_nat j) x y es) /\ length b' = length b.
Proof.
  intros Hh Hi Hj. revert k b. induction n as [|n IH]; intros k b Hk Hx Hy Hij Hb.
  - exists b. rewrite Nat.add_0_r in Hk. by subst k.
  - simpl. destruct (lookup_lt_is_Some_2 x k) as [vx Hvx]; [lia|].
    destruct (lookup_lt_is_Some_2 y k) as [vy Hvy]; [lia|].
    destruct (half_swapped_step d b es _ _ k x y vx vy Hb) as (E1 & E2 & b1 & b2 & E3 & E4 & H2 & L2);
      [lia|lia|done..|].
    rewrite !(offset_plus _ _ _ _ _ Hh), !Nat2Z.id by lia.
    rewrite E1, E2, !bind_Ret, E3, bind_Ret, E4, bind_Ret.
    replace (Z.of_nat k + 1) with (Z.of_nat (S k)) by lia.
    destruct (IH (S k) b2) as (b' & -> & Hb' & Hl); [lia|done..|]. exists b'. split_and!; done || lia.
Qed.

Lemma ssim_swap_at d es a i j :
  holds d es a -> fits 32 i -> fits 32 j -> sized_simulates d (SSwapAt i j) a.
Proof.
  intros Hh [Hi _] [Hj _].
  assert (Est : sized_step (SSwapAt i j) a = r ← cc_array_sized_swap_at a i j; Ret (as_elem r)) by done.
  revert Est. unfold cc_array_sized_swap_at.
  destruct (Z.leb_spec (sz_size a) i) as [H1|H1]; simpl; intros Est.
  { eapply ssim_same; [exact Est|done|]. simpl. by rewrite (contents_outside _ _ _ i Hh). }
  destruct (Z.leb_spec (sz_size a) j) as [H2|H2]; simpl in Est.
  { eapply ssim_same; [exact Est|done|]. simpl. rewrite (contents_outside _ _ _ j Hh) by done. by case_match. }
  assert (sz_size a <= zlen es) by (destruct Hh; lia).
  destruct (read_elem d es a i Hh) as (x & Ex & Lx & _); [lia|].
  destruct (read_elem d es a j Hh) as (y & Ey & Ly & _); [lia|].
  rewrite (h_len _ _ _ Hh), Nat2Z.id in Est.
  destruct (swap_loop_ok d es a (sz_buffer a) i j x y d 0 Hh) as (b & Eb & Hb & Hl);
    [lia|lia|done..| | |].
  { intros E. rewrite E in Ex. congruence. }
  { unfold half_swapped, mix. rewrite !take_0, !drop_0. simpl.
    rewrite (list_insert_id es) by done. rewrite list_insert_id by done. apply h_laid. done. }
  change (Z.of_nat 0) with 0 in Eb. rewrite Eb, !bind_Ret in Est. clear Eb.
  unfold half_swapped, mix in Hb. rewrite !take_ge, !drop_ge, !app_nil_r in Hb by lia.
  eapply ssim_exact; [exact Est| |].
  - eapply holds_put; [exact Hh|exact Hb|by rewrite !length_insert|done].
  - simpl. rewrite !(contents_lookup _ _ _ _ Hh), Ex, Ey by lia.
    by rewrite !take_put, (holds_contents _ _ _ Hh) by lia.
Qed.

(** *** Search *)

Lemma cell_nth (e : list Z) (j : nat) y : e !! j = Some y -> cell e (Z.of_nat j) = Ret y.
Proof. intros Hy. unfold cell. by rewrite Nat2Z.id, Hy. Qed.

Lemma block_match_ok d es a i x e n j :
  holds d es a -> 0 <= i < zlen es -> es !! Z.to_nat i = Some x -> length e = d ->
  (0 < n)%nat -> (j + n = d)%nat ->
  block_match n (Z.of_nat j) a i e = Ret (bool_decide (drop j x = drop j e)).
Proof.
  intros Hh Hi Hx He. assert (length x = d) as Hl.
  { pose proof (h_laid _ _ _ Hh) as [Hs _]. by eapply Forall_lookup_1 in Hs. }
  revert j. induction n as [|n IH]; intros j Hn Hj; [lia|]. simpl.
  destruct (lookup_lt_is_Some_2 x j) as [u Hu]; [lia|].
  destruct (lookup_lt_is_Some_2 e j) as [v Hv]; [lia|].
  rewrite (offset_plus _ _ _ _ _ Hh), Nat2Z.id by lia.
  rewrite (byte_of_block d _ es _ j x u (h_laid _ _ _ Hh) Hx Hu), bind_Ret.
  rewrite (cell_nth _ _ _ Hv), bind_Ret, (drop_S _ _ _ Hu), (drop_S _ _ _ Hv).
  destruct (Z.eqb_spec u v) as [->|Hne]; cbn [negb].
  2: { rewrite bool_decide_eq_false_2; [done|]. congruence. }
  rewrite (h_len _ _ _ Hh), wrap_id by (pose proof (h_unit _ _ _ Hh); unfold fits; lia).
  destruct (Z.eqb_spec (Z.of_nat j) (Z.of_nat d - 1)) as [Hlast|Hnl].
  - rewrite !drop_ge by lia. by rewrite bool_decide_eq_true_2.
  - replace (Z.of_nat j + 1) with (Z.of_nat (S j)) by lia. rewrite IH by lia.
    f_equal. apply bool_decide_ext. split; [by intros ->|congruence].
Qed.

(** Comparing a whole element. *)
Lemma match_ok d es a i x e :
  holds d es a -> 0 <= i < zlen es -> es !! Z.to_nat i = Some x -> length e = d ->
  block_match (Z.to_nat (data_length a)) 0 a i e = Ret (bool_decide (x = e)).
Proof.
  intros Hh Hi Hx He. rewrite (h_len _ _ _ Hh), Nat2Z.id. change 0 with (Z.of_nat 0) at 1.
  pose proof (h_unit _ _ _ Hh). by rewrite (block_match_ok d es _ _ x) by (done || lia).
Qed.

Lemma sized_find_ok d es a e n i :
  holds d es a -> length e = d -> (i + n <= length es)%nat ->
  sized_find n (Z.of_nat i) a e
  = Ret ((fun k => Z.of_nat (i + k)%nat) <$> find_block e (take n (drop i es))).
Proof.
  intros Hh He. revert i. induction n as [|n IH]; intros i Hi; [done|]. simpl.
  destruct (lookup_lt_is_Some_2 es i) as [x Hx]; [lia|].
  rewrite (match_ok d es _ _ x) by (rewrite ?Nat2Z.id; done || lia).
  rewrite bind_Ret, (drop_S _ _ _ Hx). unfold find_block. simpl. case_bool_decide as E.
  - rewrite decide_True by done. simpl. by rewrite Nat.add_0_r.
  - rewrite decide_False by done.
    replace (Z.of_nat i + 1) with (Z.of_nat (S i)) by lia. rewrite IH by lia. f_equal.
    unfold find_block. destruct (list_find _ _) as [[k z]|]; simpl; [|done]. do 2 f_equal. lia.
Qed.

Lemma sized_index_run d es a e :
  holds d es a -> length e = d ->
  cc_array_sized_index_of a e
  = Ret (match find_block e (sz_contents a) with
         | Some i => (CC_OK, Some (Z.of_nat i)) | None => (CC_ERR_OUT_OF_RANGE, None) end).
Proof.
  intros Hh He. pose proof Hh as []. unfold cc_array_sized_index_of. change 0 with (Z.of_nat 0).
  rewrite (sized_find_ok d es) by (done || lia). rewrite bind_Ret, drop_0, (holds_contents _ _ _ Hh).
  by destruct (find_block e _).
Qed.

Lemma ssim_index_of d es a e : holds d es a -> length e = d -> sized_simulates d (SIndexOf e) a.
Proof.
  intros Hh He. pose proof (sized_index_run d es a e Hh He) as Er.
  destruct (find_block e (sz_contents a)) as [i|] eqn:E;
    (eapply ssim_same; [simpl; by rewrite Er|exact Hh|]; simpl; by rewrite E).
Qed.

Lemma sized_count_ok d es a e n i o :
  holds d es a -> length e = d -> (i + n <= length es)%nat -> 0 <= o -> o + Z.of_nat n < 2 ^ 32 ->
  sized_count n (Z.of_nat i) o a e
  = Ret (o + Z.of_nat (count_block e (take n (drop i es)))).
Proof.
  intros Hh He. revert i o. induction n as [|n IH]; intros i o Hi Ho Hb; simpl.
  - f_equal. unfold count_block. simpl. lia.
  - destruct (lookup_lt_is_Some_2 es i) as [x Hx]; [lia|].
    rewrite (match_ok d es _ _ x) by (rewrite ?Nat2Z.id; done || lia).
    rewrite bind_Ret, (drop_S _ _ _ Hx). unfold count_block in *. simpl.
    replace (Z.of_nat i + 1) with (Z.of_nat (S i)) by lia.
    destruct (bool_decide (x = e)); rewrite ?wrap_id, IH by (unfold fits; lia); f_equal; lia.
Qed.

Lemma ssim_contains d es a e : holds d es a -> length e = d -> sized_simulates d (SContains e) a.
Proof.
  intros Hh He. pose proof (holds_total _ _ _ Hh). pose proof Hh as [].
  eapply ssim_same; [|exact Hh|reflexivity]. simpl. unfold cc_array_sized_contains.
  change 0 with (Z.of_nat 0) at 1.
  rewrite (sized_count_ok d es) by (done || nia). by rewrite bind_Ret, drop_0, (holds_contents _ _ _ Hh).
Qed.

(** *** Removal *)

Lemma close_gap_list {A} (l : list A) (n i : nat) :
  (i < n)%nat -> (n <= length l)%nat ->
  take (n - 1) (take i l ++ take (n - 1 - i) (drop (S i) l) ++ drop (i + (n - 1 - i)) l)
  = remove_nth i (take n l).
Proof.
  intros Hi Hn. unfold remove_nth.
  rewrite take_take, skipn_firstn_comm, app_assoc, take_app_le
    by (rewrite length_app, !length_take, length_drop; lia).
  rewrite firstn_all2 by (rewrite length_app, !length_take, length_drop; lia).
  f_equal; f_equal; lia.
Qed.

Lemma sized_gap_ok d es a i :
  holds d es a -> 0 <= i < sz_size a ->
  exists a' es', sized_close_gap a i = Ret a' /\ holds d es' a' /\
    take (Z.to_nat (sz_size a')) es' = remove_nth (Z.to_nat i) (sz_contents a).
Proof.
  intros Hh Hi. assert (sz_size a <= zlen es) as Hs by (destruct Hh; lia). unfold sized_close_gap.
  rewrite (index_fits _ _ _ (sz_size a - 1) Hh), (index_fits _ _ _ (i + 1) Hh) by lia.
  rewrite (holds_contents _ _ _ Hh).
  destruct (Z.eqb_spec i (sz_size a - 1)) as [->|Hne]; cbn [negb].
  - rewrite bind_Ret. exists (set_sz_size (sz_size a - 1) a), es. split; [by destruct a|].
    split; [apply holds_resize; done || lia|]. simpl. unfold remove_nth.
    rewrite drop_ge by (rewrite length_take; lia). rewrite app_nil_r, take_take. f_equal. lia.
  - rewrite (index_fits _ _ _ (sz_size a - 1 - i) Hh) by lia.
    destruct (move_elems d es a i (i + 1) (sz_size a - 1 - i) Hh) as (b & -> & Hb); [lia..|].
    rewrite bind_Ret. set (es1 := _ ++ _ ++ _) in Hb. assert (length es1 = length es) as Hl1.
    { subst es1. rewrite !length_app, !length_take, !length_drop. lia. }
    exists (set_sz_size (sz_size a - 1) (set_sz_buffer b a)), es1. split; [done|].
    split; [apply holds_resize; [done|lia]|]. simpl. subst es1. rewrite <-close_gap_list by lia.
    replace (Z.to_nat (i + 1)) with (S (Z.to_nat i)) by lia.
    replace (Z.to_nat (sz_size a - 1 - i)) with (Z.to_nat (sz_size a) - 1 - Z.to_nat i)%nat by lia.
    by replace (Z.to_nat (sz_size a - 1)) with (Z.to_nat (sz_size a) - 1)%nat by lia.
Qed.

Lemma sized_remove_at_run d es a i e :
  holds d es a -> 0 <= i < sz_size a -> es !! Z.to_nat i = Some e ->
  exists a' es', cc_array_sized_remove_at a i = Ret (CC_OK, Some e, a') /\ holds d es' a' /\
    take (Z.to_nat (sz_size a')) es' = remove_nth (Z.to_nat i) (sz_contents a).
Proof.
  intros Hh Hi He. unfold cc_array_sized_remove_at. rewrite (proj2 (Z.leb_gt _ _)) by lia.
  destruct (read_elem d es a i Hh) as (e' & He' & _ & ->); [destruct Hh; lia|]. simplify_eq.
  destruct (sized_gap_ok d es a i Hh Hi) as (a' & es' & -> & Hh' & Hc).
  rewrite !bind_Ret. by exists a', es'.
Qed.

Lemma ssim_remove_at d es a i : holds d es a -> fits 32 i -> sized_simulates d (SRemoveAt i) a.
Proof.
  intros Hh [Hi _]. destruct (Z.le_gt_cases (sz_size a) i).
  - eapply ssim_same; [|exact Hh|].
    + simpl. unfold cc_array_sized_remove_at. rewrite (proj2 (Z.leb_le _ _)) by lia. done.
    + simpl. by rewrite (contents_outside _ _ _ _ Hh).
  - destruct (lookup_lt_is_Some_2 es (Z.to_nat i)) as [e He]; [destruct Hh; lia|].
    destruct (sized_remove_at_run d es a i e Hh) as (a' & es' & E & Hh' & Hc); [lia|done|].
    eapply ssim_exact; [simpl; by rewrite E|exact Hh'|]. simpl.
    by rewrite (contents_lookup _ _ _ _ Hh), He, Hc by lia.
Qed.

Lemma ssim_remove_last d es a : holds d es a -> sized_simulates d SRemoveLast a.
Proof.
  intros Hh. assert (0 <= sz_size a <= zlen es) as Hs by (destruct Hh; lia).
  destruct (Z.eq_dec (sz_size a) 0) as [E|E].
  - eapply ssim_same; [|exact Hh|].
    + simpl. unfold cc_array_sized_remove_last, cc_array_sized_remove_at. rewrite E. done.
    + simpl. by rewrite (proj2 (sz_contents_nil _ _ _ Hh) E).
  - destruct (lookup_lt_is_Some_2 es (Z.to_nat (sz_size a - 1))) as [e He]; [lia|].
    destruct (sized_remove_at_run d es a (sz_size a - 1) e Hh) as (a' & es' & Er & Hh' & Hc);
      [lia|done|].
    eapply ssim_exact; [|exact Hh'|].
    + simpl. unfold cc_array_sized_remove_last. rewrite (index_fits _ _ _ _ Hh), Er by lia. done.
    + rewrite Hc. simpl. rewrite (last_elem _ _ _ Hh), He by lia. unfold remove_nth.
      rewrite drop_ge, app_nil_r by (rewrite (sz_contents_length _ _ _ Hh); lia).
      rewrite (sz_contents_length _ _ _ Hh).
      replace (Z.to_nat (sz_size a) - 1)%nat with (Z.to_nat (sz_size a - 1)) by lia.
      destruct (sz_contents a) eqn:Ec; [|done]. by apply (sz_contents_nil _ _ _ Hh) in Ec.
Qed.

Lemma find_block_lt e l i : find_block e l = Some i -> (i < length l)%nat.
Proof.
  unfold find_block. intros (p & E & ->)%fmap_Some_1. destruct p as [k y].
  apply list_find_Some in E as (E & _). by apply lookup_lt_Some in E.
Qed.

Lemma ssim_remove d es a e : holds d es a -> length e = d -> sized_simulates d (SRemove e) a.
Proof.
  intros Hh He. assert (0 <= sz_size a <= zlen es) as Hs by (destruct Hh; lia).
  assert (Est : sized_step (SRemove e) a = r ← cc_array_sized_remove a e; Ret (as_elem r)) by done.
  revert Est. unfold cc_array_sized_remove. rewrite (sized_index_run d es), bind_Ret by done.
  destruct (find_block e (sz_contents a)) as [i|] eqn:E; intros Est.
  - pose proof (find_block_lt _ _ _ E) as Hi. rewrite (sz_contents_length _ _ _ Hh) in Hi.
    simpl in Est.
    destruct (sized_gap_ok d es a (Z.of_nat i) Hh) as (a' & es' & Eg & Hh' & Hc); [lia|].
    rewrite Eg, !bind_Ret in Est. eapply ssim_exact; [exact Est|exact Hh'|].
    simpl. by rewrite E, Hc, Nat2Z.id.
  - eapply ssim_same; [exact Est|done|]. simpl. by rewrite E.
Qed.

Lemma ssim_remove_all d es a : holds d es a -> sized_simulates d SRemoveAll a.
Proof.
  intros Hh. eapply (ssim_exact d es); [done|apply holds_resize; [done|lia]|done].
Qed.

(** *** Filtering in place *)

(** A kept block is moved down to the blocks kept before it. *)
Lemma gather_list {A} (l : list A) (i rm keep : nat) x :
  l !! i = Some x -> (S i + rm + keep <= length l)%nat ->
  take i (take (S i) l ++ take keep (drop (S i + rm) l) ++ drop (S i + keep) l) = take i l /\
  take (S keep) (drop i (take (S i) l ++ take keep (drop (S i + rm) l) ++ drop (S i + keep) l))
  = x :: take keep (drop (S i + rm) l).
Proof.
  intros Hx Hl. split.
  - rewrite take_app_le, take_take by (rewrite length_take; lia). f_equal. lia.
  - rewrite (take_S_r _ _ _ Hx), <-app_assoc, drop_app_ge by (rewrite length_take; lia).
    rewrite length_take. replace (i - i `min` length l)%nat with 0%nat by lia.
    rewrite drop_0. simpl. f_equal. rewrite take_app_le by (rewrite length_take, length_drop; lia).
    by rewrite take_take, Nat.min_id.
Qed.

Lemma sized_filter_ok d n p es a rm keep :
  holds d es a -> sz_size a = Z.of_nat (n + rm + keep) ->
  exists es' a' rm' keep',
    sized_filter_loop n p (Z.of_nat rm) (Z.of_nat keep) a = Ret (Z.of_nat rm', Z.of_nat keep', a') /\
    holds d es' a' /\ sz_size a' = Z.of_nat (rm' + keep') /\
    take keep' (drop rm' es')
    = filter (fun y => p y = true) (take n es) ++ take keep (drop (n + rm) es).
Proof.
  revert es a rm keep. induction n as [|i IH]; intros es a rm keep Hh Hs; simpl.
  - exists es, a, rm, keep. by split_and!.
  - assert (Z.of_nat (S i + rm + keep) <= zlen es) as Hl by (destruct Hh; lia).
    destruct (read_elem d es a (Z.of_nat i) Hh) as (x & Hx & _ & Er); [lia|]. rewrite Nat2Z.id in Hx.
    rewrite Er, bind_Ret, (take_S_r _ _ _ Hx), list.filter_app, <-app_assoc.
    rewrite filter_cons, filter_nil. destruct (p x) eqn:Epx; cbn [negb].
    + rewrite decide_True by done.
      destruct rm as [|rm];
        [change (0 <? Z.of_nat 0) with false|change (0 <? Z.of_nat (S rm)) with true]; cbn iota.
      * destruct (IH es a 0%nat (S keep) Hh) as (es' & a' & rm' & keep' & E & H1 & H2 & H3); [lia|].
        exists es', a', rm', keep'. split_and!; [|done|done|].
        -- rewrite <-E. f_equal; lia.
        -- rewrite H3, !Nat.add_0_r, (drop_S _ _ _ Hx). done.
      * assert (exists b1 es1, (if 0 <? Z.of_nat keep
             then memmove (sz_buffer a) (BUF_ADDR a (Z.of_nat i + 1))
                    (BUF_ADDR a (Z.of_nat i + 1 + Z.of_nat (S rm))) (u32 (Z.of_nat keep * data_length a))
             else Ret (sz_buffer a)) = Ret b1 /\ holds d es1 (set_sz_buffer b1 a) /\
             length es1 = length es /\ take i es1 = take i es /\
             take (S keep) (drop i es1) = x :: take keep (drop (S i + S rm) es))
          as (b1 & es1 & -> & Hh1 & Hl1 & Ht & Hd).
        { destruct (Z.ltb_spec 0 (Z.of_nat keep)).
          - destruct (move_elems d es a (Z.of_nat i + 1) (Z.of_nat i + 1 + Z.of_nat (S rm)) (Z.of_nat keep) Hh)
              as (b & -> & Hb); [lia..|].
            replace (Z.to_nat (Z.of_nat i + 1)) with (S i) in Hb by lia.
            replace (Z.to_nat (Z.of_nat i + 1 + Z.of_nat (S rm))) with (S i + S rm)%nat in Hb by lia.
            rewrite Nat2Z.id in Hb. eexists _, _. split; [reflexivity|]. split; [exact Hb|].
            split; [rewrite !length_app, !length_take, !length_drop; lia|].
            apply gather_list; [done|lia].
          - exists (sz_buffer a), es. split_and!; try done; [by destruct a|].
            replace keep with 0%nat by lia. by rewrite (drop_S _ _ _ Hx). }
        rewrite bind_Ret. assert (0 <= sz_size a - Z.of_nat (S rm) <= zlen es1) as Hn by lia.
        rewrite (index_fits _ _ _ _ Hh1 Hn).
        destruct (IH es1 _ 0%nat (S keep) (holds_resize _ _ _ _ Hh1 Hn))
          as (es' & a' & rm' & keep' & E & H1 & H2 & H3); [simpl; lia|].
        exists es', a', rm', keep'. split_and!; [|done|done|].
        -- rewrite <-E. f_equal; lia.
        -- rewrite H3, Nat.add_0_r, Ht, Hd. done.
    + rewrite decide_False by congruence.
      destruct (IH es a (S rm) keep Hh) as (es' & a' & rm' & keep' & E & H1 & H2 & H3); [lia|].
      exists es', a', rm', keep'. split_and!; [|done|done|].
      * rewrite <-E. f_equal; lia.
      * rewrite H3. by replace (i + S rm)%nat with (S (i + rm))%nat by lia.
Qed.

Lemma ssim_filter_mut d es a p : holds d es a -> sized_simulates d (SFilterMut p) a.
Proof.
  intros Hh. assert (Est : sized_step (SFilterMut p) a = r ← cc_array_sized_filter_mut a p; Ret (r.1, None, r.2)) by done.
  revert Est. unfold cc_array_sized_filter_mut.
  destruct (Z.eqb_spec (sz_size a) 0) as [E|E]; intros Est.
  { eapply ssim_same; [exact Est|done|]. simpl. by rewrite (proj2 (sz_contents_nil _ _ _ Hh) E). }
  assert (0 <= sz_size a) as Hs0 by (destruct Hh; lia).
  destruct (sized_filter_ok d (Z.to_nat (sz_size a)) p es a 0 0 Hh)
    as (es' & a' & rm & keep & Ef & Hh' & Hs & Hc); [lia|].
  change (Z.of_nat 0) with 0 in Ef. rewrite Ef, bind_Ret in Est. clear Ef.
  assert (take keep (drop rm es') = filter (fun y => p y = true) (sz_contents a)) as Hc'.
  { by rewrite Hc, app_nil_r, (holds_contents _ _ _ Hh). }
  assert (Z.of_nat (rm + keep) <= zlen es') as Hr by (destruct Hh'; lia).
  assert (forall l, take (Z.to_nat (Z.of_nat keep)) l = filter (fun y => p y = true) (sz_contents a) ->
    blocks_step (SFilterMut p) (sz_contents a) = (CC_OK, None, take (Z.to_nat (Z.of_nat keep)) l)) as Hspec.
  { intros l ->. simpl. destruct (sz_contents a) eqn:Ec; [|done].
    by apply (sz_contents_nil _ _ _ Hh) in Ec. }
  destruct (Z.ltb_spec 0 (Z.of_nat rm)).
  - destruct (move_elems d es' a' 0 (Z.of_nat rm) (Z.of_nat keep) Hh') as (b & Eb & Hb); [lia..|].
    rewrite Eb, !bind_Ret in Est. simpl in Est. rewrite (index_fits _ _ _ _ Hh') in Est by lia.
    replace (sz_size a' - Z.of_nat rm) with (Z.of_nat keep) in Est by lia.
    set (es1 := _ ++ _) in Hb. assert (length es1 = length es') as Hl1.
    { subst es1. rewrite !length_app, !length_take, !length_drop. lia. }
    eapply ssim_exact; [exact Est|apply holds_resize; [exact Hb|lia]|]. apply Hspec. subst es1.
    rewrite <-Hc', !Nat2Z.id. simpl. rewrite take_app_le by (rewrite length_take, length_drop; lia).
    by rewrite take_take, Nat.min_id.
  - rewrite bind_Ret in Est. simpl in Est. eapply ssim_exact; [exact Est|exact Hh'|].
    replace (sz_size a') with (Z.of_nat keep) by lia. apply Hspec. rewrite Nat2Z.id, <-Hc'.
    replace rm with 0%nat by lia. done.
Qed.

(** *** Mapping in place *)

Lemma sized_map_ok d f n i es a :
  (forall e, length e = d -> length (f e) = d) ->
  holds d es a -> (i + n <= length es)%nat ->
  exists a', sized_map_loop n (Z.of_nat i) f a = Ret a' /\ sz_size a' = sz_size a /\
    holds d (take i es ++ (f <$> take n (drop i es)) ++ drop (i + n) es) a'.
Proof.
  intros Hf. revert i es a. induction n as [|n IH]; intros i es a Hh Hi; simpl.
  - exists a. split_and!; [done..|]. by rewrite Nat.add_0_r, take_drop.
  - destruct (read_elem d es a (Z.of_nat i) Hh) as (x & Hx & Lx & ->); [lia|]. rewrite bind_Ret.
    destruct (write_elem d es a (Z.of_nat i) (f x) Hh) as (b & -> & Hb); [lia|by apply Hf|].
    rewrite bind_Ret. rewrite Nat2Z.id in *. replace (Z.of_nat i + 1) with (Z.of_nat (S i)) by lia.
    destruct (IH (S i) _ _ Hb) as (a' & -> & Hs & Ha); [rewrite length_insert; lia|].
    exists a'. split_and!; [done|done|]. rewrite (drop_S _ _ _ Hx). cbn [firstn fmap list_fmap].
    rewrite (take_S_r (<[i:=f x]> es) i (f x)) in Ha by (apply list_lookup_insert_eq; lia).
    rewrite take_insert_ge, !drop_insert_lt, <-app_assoc in Ha by lia.
    replace (i + S n)%nat with (S i + n)%nat by lia. exact Ha.
Qed.

Lemma ssim_map d es a f :
  holds d es a -> (forall e, length e = d -> length (f e) = d) -> sized_simulates d (SMap f) a.
Proof.
  intros Hh Hf. assert (0 <= sz_size a <= zlen es) as Hs by (destruct Hh; lia).
  destruct (sized_map_ok d f (Z.to_nat (sz_size a)) 0 es a Hf Hh) as (a' & E & Hs' & Ha); [lia|].
  change (Z.of_nat 0) with 0 in E. eapply ssim_exact; [|exact Ha|].
  - simpl. unfold cc_array_sized_map. by rewrite E.
  - simpl. rewrite drop_0, (holds_contents _ _ _ Hh), Hs'.
    rewrite take_app_le by (rewrite length_fmap, length_take; lia).
    f_equal. symmetry. apply take_ge. rewrite length_fmap, length_take. lia.
Qed.

(** *** Reversal *)

Lemma sized_reverse_ok d n (i j : nat) es a b :
  holds d es (set_sz_buffer b a) -> (i + n <= j + 1 - n)%nat -> (j < length es)%nat ->
  exists b' es', sized_reverse_loop n (Z.of_nat i) (Z.of_nat j) (data_length a) a b = Ret b' /\
    holds d es' (set_sz_buffer b' a) /\ length es' = length es /\
    forall q, es' !! q = if decide ((i <= q < i + n) \/ (j - n < q <= j))%nat
                        then es !! (i + j - q)%nat else es !! q.
Proof.
  revert i j es b. induction n as [|n IH]; intros i j es b Hh Hn Hj; simpl.
  - exists b, es. split_and!; [done..|]. intros p. case_decide; [lia|done].
  - destruct (read_elem d es _ (Z.of_nat i) Hh) as (x & Hx & Lx & Ex); [lia|].
    destruct (read_elem d es _ (Z.of_nat j) Hh) as (y & Hy & Ly & Ey); [lia|].
    destruct (write_elem d es _ (Z.of_nat i) y Hh) as (b1 & E1 & H1); [lia|done|].
    destruct (write_elem d _ _ (Z.of_nat j) x H1) as (b2 & E2 & H2); [rewrite length_insert; lia|done|].
    simpl in Ex, Ey, E1, E2. unfold BUF_ADDR in *. simpl in Ex, Ey, E1, E2. rewrite Z.ltb_irrefl.
    rewrite Ex, Ey, !bind_Ret, E1, bind_Ret, E2, bind_Ret. rewrite !Nat2Z.id in *.
    replace (Z.of_nat i + 1) with (Z.of_nat (S i)) by lia.
    replace (Z.of_nat j - 1) with (Z.of_nat (j - 1)) by lia.
    destruct (IH (S i) (j - 1)%nat _ b2 H2) as (b' & es' & E & Hh' & Hl & Hp);
      [lia|rewrite !length_insert; lia|]. rewrite !length_insert in Hl.
    exists b', es'. split_and!; [exact E|done|done|]. intros p. rewrite Hp.
    destruct (decide (p = i)) as [->|Hpi].
    { rewrite (decide_False (P := (S i <= i < S i + n \/ j - 1 - n < i <= j - 1)%nat)) by lia.
      rewrite decide_True by lia. replace (i + j - i)%nat with j by lia. rewrite Hy.
      rewrite list_lookup_insert_ne by lia. by apply list_lookup_insert_eq; lia. }
    destruct (decide (p = j)) as [->|Hpj].
    { rewrite (decide_False (P := (S i <= j < S i + n \/ j - 1 - n < j <= j - 1)%nat)) by lia.
      rewrite decide_True by lia. replace (i + j - j)%nat with i by lia. rewrite Hx.
      apply list_lookup_insert_eq. rewrite length_insert. lia. }
    destruct (decide (i <= p < i + S n \/ j - S n < p <= j)%nat).
    + rewrite decide_True by lia. replace (S i + (j - 1) - p)%nat with (i + j - p)%nat by lia.
      by rewrite !list_lookup_insert_ne by lia.
    + rewrite decide_False by lia. by rewrite !list_lookup_insert_ne by lia.
Qed.

Lemma ssim_reverse d es a : holds d es a -> sized_simulates d SReverse a.
Proof.
  intros Hh. assert (0 <= sz_size a <= zlen es) as Hs by (destruct Hh; lia).
  assert (Est : sized_step SReverse a = a' ← cc_array_sized_reverse a (data_length a); Ret (CC_OK, None, a')) by done.
  revert Est. unfold cc_array_sized_reverse.
  destruct (Z.eqb_spec (sz_size a) 0) as [E|E]; intros Est.
  { eapply ssim_same; [exact Est|done|]. simpl. by rewrite (proj2 (sz_contents_nil _ _ _ Hh) E). }
  pose proof (Z.mod_pos_bound (sz_size a) 2 ltac:(lia)).
  pose proof (Z.div_mod (sz_size a) 2 ltac:(lia)).
  destruct (sized_reverse_ok d (Z.to_nat (sz_size a / 2)) 0 (Z.to_nat (sz_size a - 1)) es a (sz_buffer a))
    as (b & es' & Eb & Hb & Hl & Hp); [by destruct a|lia|lia|].
  rewrite Z2Nat.id in Eb by lia. change (Z.of_nat 0) with 0 in Eb. rewrite Eb, !bind_Ret in Est.
  eapply ssim_exact; [exact Est|exact Hb|]. simpl. f_equal. apply list_eq. intros p.
  rewrite (holds_contents _ _ _ Hh).
  destruct (decide (p < Z.to_nat (sz_size a))%nat) as [Hlt|Hge].
  - rewrite reverse_lookup by (rewrite length_take; lia).
    rewrite length_take, !lookup_take_lt by lia. rewrite Hp. case_decide; f_equal; lia.
  - rewrite !lookup_ge_None_2; [done|rewrite length_take; lia|].
    rewrite length_reverse, length_take. lia.
Qed.

(** ** Refinement *)

(** Every operation on a well-formed array of byte blocks is a step of the
    specification, or fails to allocate and leaves the elements alone. *)
Lemma sized_step_simulates d op a : sized_wf d a -> sop_ok d op -> sized_simulates d op a.
Proof using HL.
  intros [es Hh] Hop. destruct op; simpl in Hop; destruct_and?;
    eauto using ssim_add, ssim_add_at, ssim_replace_at, ssim_swap_at, ssim_remove, ssim_remove_at,
      ssim_remove_last, ssim_remove_all, ssim_get_at, ssim_get_last, ssim_index_of, ssim_contains,
      ssim_reverse, ssim_filter_mut, ssim_map.
Qed.
End Facts.
