(* ===== verification/CcArraySizedProps.v ===== *)
(** * What the array of byte blocks promises

    Sequences of calls against the list specification, the equivalence with
    the array of words, the operations that make a new array, and where the
    code goes wrong. *)

From S2P Require Import Prelude CMem CcArray CcArrayFacts CcArraySized CcArraySizedFacts.

(** ** Sequences of calls *)

Fixpoint blocks_run (ops : list sop) (l : list (list Z))
    : list (cc_stat * option sout) * list (list Z) :=
  match ops with
  | [] => ([], l)
  | op :: ops =>
      let '(st, out, l') := blocks_step op l in
      let '(rs, l'') := blocks_run ops l' in ((st, out) :: rs, l'')
  end.

Lemma blocks_step_not_alloc op l st out l' :
  blocks_step op l = (st, out, l') -> st <> CC_ERR_ALLOC.
Proof. destruct op; simpl; repeat case_match; congruence. Qed.

Section Props.
Context {F : Type} `{HR : !Runtime F} `{HB : !ByteHeap} `{HL : !ByteHeapLaws}.
Local Abbreviation sized := (cc_array_sized F).
Implicit Types (a : sized) (es : list (list Z)) (d : nat).

(** The calls up to the first failed allocation. *)
Fixpoint sized_run (ops : list sop) a : outcome (list (cc_stat * option sout) * sized) :=
  match ops with
  | [] => Ret ([], a)
  | op :: ops =>
      r ← sized_step op a;
      let '(st, out, a') := r in
      if bool_decide (st = CC_ERR_ALLOC) then Ret ([], a')
      else rs ← sized_run ops a'; Ret ((st, out) :: rs.1, rs.2)
  end.

(** One call of a run that goes on. *)
Lemma sized_run_cons op ops a st out a' rs a'' :
  sized_step op a = Ret (st, out, a') -> st <> CC_ERR_ALLOC -> sized_run ops a' = Ret (rs, a'') ->
  sized_run (op :: ops) a = Ret ((st, out) :: rs, a'').
Proof.
  intros E Hst Er. simpl. rewrite E, bind_Ret, bool_decide_eq_false_2 by done. by rewrite Er.
Qed.

(** C33. The array of byte blocks implements a list of blocks.  On a
    well-formed array, every sequence of calls runs without an access outside
    the buffer, and up to the first failed allocation each call returns the
    status and the bytes the list specification gives, the buffer standing for
    the specification's list.  All calls are answered unless one finds the
    array full and the allocator out of memory. *)
Theorem sized_refines_blocks d ops a :
  sized_wf d a -> Forall (sop_ok d) ops ->
  exists k rs a', sized_run ops a = Ret (rs, a') /\
    rs = take k (blocks_run ops (sz_contents a)).1 /\
    sz_contents a' = (blocks_run (take k ops) (sz_contents a)).2 /\
    (k = length ops /\ sized_wf d a' \/
     exists rs0 a0, sized_run (take k ops) a = Ret (rs0, a0) /\ sized_starved a0).
Proof using HL.
  intros Hw Hok. revert a Hw. induction Hok as [|op ops Hop _ IH]; intros a Hw.
  - exists 0%nat, [], a. split_and!; try done. by left.
  - destruct (sized_step_simulates d op a Hw Hop) as (st & out & a1 & E & [(-> & Hc & Hv)|[Hw1 Hs]]).
    + exists 0%nat, [], a1. simpl. rewrite E. split_and!; try done. right. by exists [], a.
    + pose proof (blocks_step_not_alloc _ _ _ _ _ Hs) as Hst.
      destruct (IH a1 Hw1) as (k & rs & a' & Er & -> & Hc & Hk).
      exists (S k). eexists _, a'. split; [by eapply sized_run_cons|]. simpl. rewrite Hs.
      destruct (blocks_run ops (sz_contents a1)) as [l1 l2] eqn:E1.
      destruct (blocks_run (take k ops) (sz_contents a1)) as [l3 l4] eqn:E2. split_and!; [done|done|].
      destruct Hk as [[-> Hk]|(rs0 & a0 & Hr & Hv)]; [by left|right].
      eexists _, a0. split; [|exact Hv]. by apply (sized_run_cons _ _ _ _ _ _ _ _ E Hst Hr).
Qed.

(** ** The operations that make a new array *)

(** A new array over a fresh block of [capacity] elements. *)
Lemma fresh_holds d es a b n :
  holds d es a -> zlen b = sz_capacity a * data_length a -> 0 <= n <= sz_capacity a ->
  exists bs, length bs = length es /\ laid_out d b bs /\ holds d bs (set_sz_size n (set_sz_buffer b a)).
Proof.
  intros Hh Hb Hn. pose proof (holds_total _ _ _ Hh). pose proof Hh as [].
  destruct (chunks_laid d (length es) b) as [Hl Hc]; [nia|].
  exists (chunks d (length es) b). split_and!; [done|done|]. split; simpl; rewrite ?Hc; done || nia.
Qed.

(** Copying an array.  [cc_array_sized_copy] of a well-formed array
    reports that it could not allocate, or gives a well-formed array with the
    same elements, in a buffer of its own. *)
Theorem sized_copy_same d a :
  sized_wf d a ->
  cc_array_sized_copy a = Ret (CC_ERR_ALLOC, None) \/
  exists c, cc_array_sized_copy a = Ret (CC_OK, Some c) /\ sized_wf d c /\ sz_contents c = sz_contents a.
Proof using HL.
  intros [es Hh]. assert (0 <= sz_size a <= zlen es) as Hs by (destruct Hh; lia).
  unfold cc_array_sized_copy. destruct (byte_alloc _); [|by left].
  destruct (byte_calloc _ _) as [b|] eqn:E; [|by left]. right. apply byte_calloc_size in E as [E _].
  destruct (fresh_holds d es a b (sz_size a) Hh E) as (bs & Hlb & Hb & Hhb); [destruct Hh; lia|].
  destruct (copy_blocks d b bs (sz_buffer a) es 0 (Z.to_nat (sz_size a)))
    as (b' & Eb & Hb' & Hl'); [done|apply Hh|lia|lia|].
  rewrite Nat.mul_0_r in Eb. change (Z.of_nat 0) with 0 in Eb.
  rewrite (bytes_ok _ _ _ _ Hh), Eb, bind_Ret by lia. eexists. split; [reflexivity|].
  assert (holds d (take (Z.to_nat (sz_size a)) (drop 0 es) ++ drop (Z.to_nat (sz_size a)) bs)
            (set_sz_buffer b' a)) as Hh'.
  { apply (holds_put d bs (set_sz_size (sz_size a) (set_sz_buffer b a)) b'); [done|done| |done].
    rewrite drop_0, length_app, length_take, length_drop. lia. }
  split; [by eexists|]. rewrite (holds_contents _ _ _ Hh'), (holds_contents _ _ _ Hh). simpl.
  rewrite drop_0, take_app_le by (rewrite length_take; lia). by rewrite take_take, Nat.min_id.
Qed.

Lemma sized_select_ok d p es a : holds d es a -> forall n i bs out,
  (i + n)%nat = Z.to_nat (sz_size a) -> holds d bs out -> length bs = length es ->
  sz_size out <= Z.of_nat i ->
  exists bs' out', sized_select n (Z.of_nat i) p a out = Ret out' /\ holds d bs' out' /\
    take (Z.to_nat (sz_size out')) bs'
    = take (Z.to_nat (sz_size out)) bs ++ filter (fun e => p e = true) (drop i (sz_contents a)).
Proof.
  intros Hh. pose proof (sz_contents_length _ _ _ Hh) as Hcl.
  assert (0 <= sz_size a <= zlen es) as Hs by (destruct Hh; lia).
  induction n as [|n IH]; intros i bs out Hn Ho Hl Hi.
  - exists bs, out. split_and!; [done|done|]. rewrite drop_ge by lia. by rewrite app_nil_r.
  - cbn [sized_select]. destruct (read_elem d es a (Z.of_nat i) Hh) as (e & He & Le & ->); [lia|].
    rewrite bind_Ret. assert (sz_contents a !! i = Some e) as Hc.
    { rewrite <-(Nat2Z.id i), (contents_lookup _ _ _ _ Hh) by lia. done. }
    rewrite (drop_S _ _ _ Hc), filter_cons. replace (Z.of_nat i + 1) with (Z.of_nat (S i)) by lia.
    destruct (p e) eqn:Ep; [rewrite decide_True by done|rewrite decide_False by congruence; apply IH; done || lia].
    assert (0 <= sz_size out) as Ho0 by (destruct Ho; lia).
    destruct (write_elem d bs out (sz_size out) e Ho) as (b & Eb & Hb); [lia|done|].
    rewrite (h_len _ _ _ Hh), <-(h_len _ _ _ Ho), Eb, bind_Ret.
    rewrite (index_fits _ _ _ _ Ho) by lia.
    destruct (IH (S i) _ _ ltac:(lia) (holds_resize _ _ _ (sz_size out + 1) Hb ltac:(rewrite length_insert; lia)))
      as (bs' & out' & E & Ho' & Hc'); [by rewrite length_insert|simpl; lia|].
    exists bs', out'. split_and!; [exact E|done|]. rewrite Hc'. cbn [sz_size set_sz_size].
    replace (Z.to_nat (sz_size out + 1)) with (S (Z.to_nat (sz_size out))) by lia.
    rewrite take_insert_snoc by lia. by rewrite <-app_assoc.
Qed.

(** Filtering into a new array.  [cc_array_sized_filter] of a
    well-formed array that is not empty reports that it could not allocate, or
    gives a well-formed array of the elements that satisfy the predicate, in
    order. *)
Theorem sized_filter_spec d a p :
  sized_wf d a -> sz_size a <> 0 ->
  cc_array_sized_filter a p = Ret (CC_ERR_ALLOC, None) \/
  exists c, cc_array_sized_filter a p = Ret (CC_OK, Some c) /\ sized_wf d c /\
    sz_contents c = filter (fun e => p e = true) (sz_contents a).
Proof using HL.
  intros [es Hh] Hne. assert (0 <= sz_size a <= zlen es) as Hs by (destruct Hh; lia).
  unfold cc_array_sized_filter. rewrite (proj2 (Z.eqb_neq _ _)) by done.
  destruct (byte_alloc _); [|by left].
  destruct (byte_calloc _ _) as [b|] eqn:E; [|by left]. right. apply byte_calloc_size in E as [E _].
  destruct (fresh_holds d es a b 0 Hh E) as (bs & Hlb & Hb & Hhb); [destruct Hh; lia|].
  destruct (sized_select_ok d p es a Hh (Z.to_nat (sz_size a)) 0 bs _ eq_refl Hhb Hlb)
    as (bs' & out & Er & Ho & Hc); [simpl; lia|]. change (Z.of_nat 0) with 0 in Er.
  rewrite Er, bind_Ret. exists out. split; [done|]. split; [by eexists|].
  by rewrite (holds_contents _ _ _ Ho), Hc.
Qed.

(** A part of an array.  Between two indices of a well-formed array
    [cc_array_sized_subarray] reports that it could not allocate, or gives an
    array of exactly the elements from the first to the last, with no room
    left and an expansion factor of zero; other indices are refused. *)
Theorem sized_subarray_spec d a b e :
  sized_wf d a -> 0 <= b -> 0 <= e ->
  ((e < b \/ sz_size a <= e) /\ cc_array_sized_subarray a b e = Ret (CC_ERR_INVALID_RANGE, None)) \/
  cc_array_sized_subarray a b e = Ret (CC_ERR_ALLOC, None) \/
  exists c, cc_array_sized_subarray a b e = Ret (CC_OK, Some c) /\ sz_capacity c = sz_size c /\
    sz_exp_factor c = zero_factor /\
    sz_contents c = take (Z.to_nat (e + 1 - b)) (drop (Z.to_nat b) (sz_contents a)).
Proof using HL.
  intros [es Hh] Hb He. assert (0 <= sz_size a <= zlen es) as Hs by (destruct Hh; lia).
  unfold cc_array_sized_subarray.
  destruct (Z.ltb_spec e b) as [Heb|Heb]; [by left; auto|].
  destruct (Z.leb_spec (sz_size a) e) as [Hse|Hse]; [by left; auto|]. right. cbn [orb].
  destruct (byte_calloc _ _); [|by left].
  destruct (byte_alloc _) as [m|] eqn:E; [|by left]. right. apply byte_alloc_size in E as [E _].
  rewrite (bytes_ok _ _ _ _ Hh) in E by (destruct Hh; lia).
  rewrite (index_fits _ _ _ (e - b + 1) Hh) by lia.
  rewrite (offset_ok _ _ _ _ Hh), (bytes_ok _ _ _ _ Hh) by lia.
  destruct (chunks_laid d (length es) m) as [Hl Hc]; [destruct Hh; nia|].
  destruct (copy_blocks d m (chunks d (length es) m) (sz_buffer a) es (Z.to_nat b) (Z.to_nat (e - b + 1)))
    as (m' & Em & Hm & _); [done|apply Hh|lia|lia|].
  rewrite Em, bind_Ret. eexists. split; [reflexivity|]. cbn [sz_capacity sz_size sz_exp_factor].
  split_and!; [done|done|]. unfold sz_contents at 1. cbn [data_length sz_size sz_buffer].
  rewrite (h_len _ _ _ Hh), Nat2Z.id.
  apply (laid_out_prefix d _ _ (Z.to_nat (e - b + 1))) in Hm.
  rewrite take_app_le, take_take, Nat.min_id in Hm by (rewrite length_take, length_drop; lia).
  assert (length (take (Z.to_nat (e - b + 1)) (drop (Z.to_nat b) es)) = Z.to_nat (e - b + 1)) as Hlen
    by (rewrite length_take, length_drop; lia).
  rewrite <-Hlen at 1. rewrite (chunks_unique d m' _ Hm), (holds_contents _ _ _ Hh).
  rewrite skipn_firstn_comm, take_take. f_equal. lia.
Qed.

(** What folding a list of blocks leaves in the result. *)
Definition fold_blocks (fn : list Z -> option (list Z) -> list Z -> list Z) (r : list Z)
    (l : list (list Z)) : list Z :=
  match l with
  | [] => r
  | [x] => fn x None r
  | x :: y :: l => foldl (fun r e => fn r (Some e) r) (fn x (Some y) r) l
  end.

Lemma sized_reduce_loop_ok d fn es a : holds d es a -> forall n i r,
  (i + n)%nat = Z.to_nat (sz_size a) ->
  sized_reduce_loop n (Z.of_nat i) fn a r
  = Ret (foldl (fun r e => fn r (Some e) r) r (drop i (sz_contents a))).
Proof.
  intros Hh. pose proof (sz_contents_length _ _ _ Hh) as Hcl.
  assert (0 <= sz_size a <= zlen es) as Hs by (destruct Hh; lia).
  induction n as [|n IH]; intros i r Hn; cbn [sized_reduce_loop].
  - by rewrite drop_ge by lia.
  - destruct (read_elem d es a (Z.of_nat i) Hh) as (e & He & _ & ->); [lia|]. rewrite bind_Ret.
    assert (sz_contents a !! i = Some e) as Hc.
    { rewrite <-(Nat2Z.id i), (contents_lookup _ _ _ _ Hh) by lia. done. }
    rewrite (drop_S _ _ _ Hc). simpl. replace (Z.of_nat i + 1) with (Z.of_nat (S i)) by lia.
    apply IH. lia.
Qed.

(** Folding an array.  [cc_array_sized_reduce] leaves the result of an
    empty array as it is, gives the function one element and [NULL] when there
    is one, and otherwise the first two and then each of the others in order. *)
Theorem sized_reduce_spec d a fn r :
  sized_wf d a -> cc_array_sized_reduce a fn r = Ret (fold_blocks fn r (sz_contents a)).
Proof.
  intros [es Hh]. pose proof (sz_contents_length _ _ _ Hh) as Hcl.
  assert (0 <= sz_size a <= zlen es) as Hs by (destruct Hh; lia). unfold cc_array_sized_reduce.
  assert (forall i, 0 <= i < sz_size a -> exists e,
    read_at (sz_buffer a) (BUF_ADDR a i) (data_length a) = Ret e /\ sz_contents a !! Z.to_nat i = Some e) as Hrd.
  { intros i Hi. destruct (read_elem d es a i Hh) as (e & He & _ & Er); [lia|]. exists e.
    by rewrite (contents_lookup _ _ _ _ Hh) by lia. }
  destruct (Z.eqb_spec (sz_size a) 1) as [E|E].
  - destruct (Hrd 0) as (x & -> & Hx); [lia|]. rewrite bind_Ret.
    destruct (sz_contents a) as [|? [|? ?]]; simpl in *; [lia|by simplify_eq|lia].
  - destruct (Z.ltb_spec 1 (sz_size a)).
    + destruct (Hrd 0) as (x & -> & Hx); [lia|]. destruct (Hrd 1) as (y & -> & Hy); [lia|].
      rewrite !bind_Ret. change 2 with (Z.of_nat 2) at 2.
      rewrite (sized_reduce_loop_ok d fn es a Hh) by lia. f_equal.
      destruct (sz_contents a) as [|? [|? l]]; simpl in *; [done..|]. unfold fold_blocks.
      change (Pos.to_nat 1) with 1%nat in Hy. simpl in Hy. simplify_eq. by rewrite drop_0.
    + rewrite bind_Ret. replace (Z.to_nat (sz_size a - 2)) with 0%nat by lia. simpl.
      destruct (sz_contents a); [done|]. simpl in Hcl. lia.
Qed.

(** ** Where the code goes wrong *)

(** A failed growth makes a later insertion write out of bounds: the capacity
    has been raised before the allocation that failed. *)
Theorem sized_failed_growth_overruns d es a e e' :
  holds d es a -> sz_size a = sz_capacity a -> zlen (sz_buffer a) = sz_capacity a * data_length a ->
  (forall n, byte_alloc n = None) ->
  exists a', cc_array_sized_add a e = Ret (CC_ERR_ALLOC, None, a') /\ cc_array_sized_add a' e' = Fault.
Proof using Type.
  intros Hh Hf Hb Hno. pose proof (holds_total _ _ _ Hh) as Ht. pose proof (h_unit _ _ _ Hh) as Hu.
  assert (CC_MAX_ELEMENTS = 2 ^ 32 - 2) as Hmax by reflexivity.
  assert (sz_capacity a < CC_MAX_ELEMENTS) as Hc by (destruct Hh; nia).
  unfold cc_array_sized_add at 1, sized_room. rewrite Hf, Z.leb_refl. unfold expand_capacity.
  rewrite (proj2 (Z.eqb_neq _ _)), Hno by lia. simpl. eexists. split; [reflexivity|].
  unfold cc_array_sized_add, sized_room. cbn [sz_size sz_capacity sz_buffer data_length].
  rewrite (proj2 (Z.leb_gt _ _)) by (case_match; lia). rewrite bind_Ret. simpl.
  unfold BUF_ADDR, write_at. cbn [data_length].
  rewrite (wrap_id 32 (data_length a * sz_size a)) by (unfold fits; destruct Hh; nia).
  destruct (mem_read e' (data_length a)); [|done]. rewrite bind_Ret.
  rewrite (proj2 (Z.leb_gt (_ + _) _)) by (rewrite Hb, Hf; destruct Hh; nia). done.
Qed.

(** Trimming an empty array writes out of bounds: the new block has no byte and
    one element is copied into it. *)
Theorem sized_trim_empty_overruns d es a :
  holds d es a -> sz_size a = 0 -> sz_capacity a <> 0 ->
  byte_calloc 0 (data_length a) = Some [] -> cc_array_sized_trim_capacity a = Fault.
Proof using Type.
  intros Hh Hs Hc Ha. unfold cc_array_sized_trim_capacity. rewrite Hs.
  rewrite (proj2 (Z.eqb_neq 0 _)), Ha by congruence. simpl (if 0 <? 1 then _ else _).
  rewrite Z.mul_1_l, wrap_id by (pose proof (h_unit _ _ _ Hh); unfold fits; rewrite (h_len _ _ _ Hh); lia).
  unfold memcpy. rewrite (proj2 (Z.leb_gt _ _)); [done|].
  pose proof (h_unit _ _ _ Hh). rewrite (h_len _ _ _ Hh). simpl. lia.
Qed.

(** The capacity check of the constructor does not cover the size in bytes: an
    array of eight elements of 2^29 bytes is created with an empty buffer, and
    every insertion into it writes out of bounds. *)
Theorem creation_size_wraps s f :
  le_one f = false -> ge_size f (CC_MAX_ELEMENTS / 8) = false ->
  byte_calloc 1 SIZEOF_SIZED = Some s -> byte_alloc 0 = Some [] ->
  exists a, cc_array_sized_new_conf (2 ^ 29) f 8 = (Some a, CC_OK) /\
    forall e, cc_array_sized_add a e = Fault.
Proof using Type.
  intros H1 H2 H3 H4. unfold cc_array_sized_new_conf. rewrite H1, H2, H3.
  change (u32 (8 * 2 ^ 29)) with 0. rewrite H4. eexists. split; [reflexivity|]. intros e.
  unfold cc_array_sized_add, sized_room. cbn [sz_size sz_capacity].
  change (8 <=? 0) with false. cbn iota. rewrite bind_Ret. cbn [fst snd sz_buffer sz_size data_length].
  rewrite bool_decide_eq_true_2 by done. cbn [negb]. unfold write_at.
  destruct (mem_read e (2 ^ 29)); [|done]. rewrite bind_Ret. unfold BUF_ADDR. cbn [data_length].
  by rewrite Z.mul_0_r.
Qed.

(** ** The offsets an iteration hands out *)

Fixpoint sized_drain (n : nat) (it : sized_iter F) : list Z * sized_iter F :=
  match n with
  | O => ([], it)
  | S n =>
      match cc_array_sized_iter_next it with
      | (CC_OK, Some o, it) => let r := sized_drain n it in (o :: r.1, r.2)
      | (_, _, it) => ([], it)
      end
  end.

Lemma sized_drain_ok d es a : holds d es a -> forall n i r,
  i <= sz_size a -> 0 <= i -> sz_size a - i < Z.of_nat n ->
  (sized_drain n (mk_siter a i r)).1
  = (fun k => Z.of_nat (d * k)) <$> seq (Z.to_nat i) (Z.to_nat (sz_size a - i)).
Proof.
  intros Hh. assert (sz_size a <= zlen es) as Hs by (destruct Hh; lia).
  induction n as [|n IH]; intros i r Hi Hi0 Hn; [lia|]. cbn [sized_drain].
  unfold cc_array_sized_iter_next. cbn [si_ar si_index].
  destruct (Z.leb_spec (sz_size a) i).
  - by replace (Z.to_nat (sz_size a - i)) with 0%nat by lia.
  - cbn [fst]. rewrite (index_fits _ _ _ (i + 1) Hh), IH by lia.
    rewrite (offset_ok _ _ _ _ Hh) by lia.
    replace (Z.to_nat (sz_size a - i)) with (S (Z.to_nat (sz_size a - (i + 1)))) by lia.
    simpl. do 3 f_equal. lia.
Qed.

(** Iterating over an array.  Advancing an iterator more often than there
    are elements hands out the addresses of the elements, each once, in order. *)
Theorem sized_iter_visits d a n :
  sized_wf d a -> sz_size a < Z.of_nat n ->
  (sized_drain n (cc_array_sized_iter_init a)).1
  = (fun k => Z.of_nat (d * k)) <$> seq 0 (Z.to_nat (sz_size a)).
Proof using Type.
  intros [es Hh] Hn. unfold cc_array_sized_iter_init.
  rewrite (sized_drain_ok d es a Hh) by (destruct Hh; lia). by rewrite Z.sub_0_r.
Qed.

End Props.

(** ** The array of words and the array of four-byte blocks *)

(** A word in memory. *)
Definition word_bytes (w : Z) : list Z :=
  [w mod 256; w / 256 mod 256; w / 65536 mod 256; w / 16777216 mod 256].
Definition bytes_word (b : list Z) : Z :=
  match b with
  | [b0; b1; b2; b3] => b0 + 256 * b1 + 65536 * b2 + 16777216 * b3
  | _ => 0
  end.

Lemma word_bytes_word w : fits 32 w -> bytes_word (word_bytes w) = w.
Proof.
  intros [H0 H1]. unfold bytes_word, word_bytes.
  pose proof (Z.div_mod w 256 ltac:(lia)). pose proof (Z.div_mod (w / 256) 256 ltac:(lia)).
  pose proof (Z.div_mod (w / 65536) 256 ltac:(lia)).
  assert (w / 65536 = w / 256 / 256) by (rewrite Z.div_div; done || lia).
  assert (w / 16777216 = w / 65536 / 256) by (rewrite Z.div_div; done || lia).
  rewrite (Z.mod_small (w / 16777216)); [lia|].
  split; [by apply Z.div_pos|apply Z.div_lt_upper_bound; lia].
Qed.

(** The same call on the array of blocks. *)
Definition block_op (op : aop) : sop :=
  match op with
  | Add x => SAdd (word_bytes x)
  | AddAt x i => SAddAt (word_bytes x) i
  | ReplaceAt x i => SReplaceAt (word_bytes x) i
  | SwapAt i j => SSwapAt i j
  | Remove x => SRemove (word_bytes x)
  | RemoveAt i => SRemoveAt i
  | RemoveLast => SRemoveLast
  | RemoveAll => SRemoveAll
  | GetAt i => SGetAt i
  | GetLast => SGetLast
  | IndexOf x => SIndexOf (word_bytes x)
  | Contains x => SContains (word_bytes x)
  | Reverse => SReverse
  | FilterMut p => SFilterMut (fun b => p (bytes_word b))
  end.

(** The same answer: elements as their bytes, numbers as they are; only
    [cc_array_remove] hands out the element it was given. *)
Definition block_out (op : aop) (out : option Z) : option sout :=
  match op with
  | Remove _ => None
  | IndexOf _ | Contains _ => inr <$> out
  | _ => (fun x => inl (word_bytes x)) <$> out
  end.

(** The elements an operation brings in are words. *)
Definition words_op (op : aop) : Prop :=
  match op with
  | Add x | AddAt x _ | ReplaceAt x _ | Remove x | IndexOf x | Contains x => fits 32 x
  | _ => True
  end.

Abbreviation words l := (Forall (fits 32) l).

Lemma word_bytes_inj x y : fits 32 x -> fits 32 y -> word_bytes x = word_bytes y -> x = y.
Proof.
  intros Hx Hy E. rewrite <-(word_bytes_word x), <-(word_bytes_word y) by done. by rewrite E.
Qed.

Lemma find_words x l : fits 32 x -> words l -> find_block (word_bytes x) (word_bytes <$> l) = index_of x l.
Proof.
  intros Hx. unfold find_block, index_of. induction 1 as [|y l Hy Hl IH]; [done|]. cbn [fmap list_fmap list_find].
  destruct (decide (y = x)) as [->|Hn].
  - by rewrite decide_True.
  - rewrite decide_False by (intros E; by apply Hn, word_bytes_inj).
    destruct (list_find _ (word_bytes <$> l)) as [[? ?]|], (list_find _ l) as [[? ?]|]; simpl in *; by simplify_eq.
Qed.

Lemma count_words x l : fits 32 x -> words l ->
  count_block (word_bytes x) (word_bytes <$> l) = countb (fun y => y =? x) l.
Proof.
  intros Hx. unfold count_block. induction 1 as [|y l Hy Hl IH]; [done|].
  change (y :: l) with ([y] ++ l). rewrite fmap_app, !countb_app, IH. f_equal. simpl.
  destruct (Z.eqb_spec y x) as [->|Hn].
  - by rewrite bool_decide_eq_true_2.
  - rewrite bool_decide_eq_false_2; [done|]. intros E. by apply Hn, word_bytes_inj.
Qed.

Lemma filter_words (p : Z -> bool) l : words l ->
  filter (fun b => p (bytes_word b) = true) (word_bytes <$> l)
  = word_bytes <$> filter (fun x => p x = true) l.
Proof.
  induction 1 as [|y l Hy Hl IH]; [done|]. cbn [fmap list_fmap]. rewrite !filter_cons, IH.
  rewrite word_bytes_word by done. by case_decide.
Qed.

Lemma last_words x l :
  inl <$> list.last (word_bytes x :: (word_bytes <$> l))
  = (fun y => inl (word_bytes y) : sout) <$> list.last (x :: l).
Proof.
  change (word_bytes x :: (word_bytes <$> l)) with (word_bytes <$> x :: l). rewrite fmap_last.
  by destruct (list.last (x :: l)).
Qed.

(** The two specifications take the same step. *)
Lemma block_step_words op l st out l' :
  words_op op -> words l -> list_step op l = (st, out, l') ->
  blocks_step (block_op op) (word_bytes <$> l) = (st, block_out op out, word_bytes <$> l').
Proof.
  intros Hop Hl. destruct op; cbn [list_step block_op block_out blocks_step words_op] in *;
    rewrite ?length_fmap, ?list_lookup_fmap, ?find_words, ?count_words, ?filter_words by done.
  14: destruct l; [|change (word_bytes <$> z :: l) with (word_bytes z :: (word_bytes <$> l))].
  all: try (repeat (case_match; simplify_eq/=); intros; simplify_eq/=; unfold remove_nth).
  all: rewrite ?fmap_app, ?fmap_cons, ?fmap_take, ?fmap_drop, ?list_fmap_insert, ?fmap_reverse; try done.
  all: by repeat f_equal; apply last_words.
Qed.

Lemma list_step_words op l st out l' :
  words_op op -> words l -> list_step op l = (st, out, l') -> words l'.
Proof.
  intros Hop Hl. destruct op; cbn [list_step words_op] in *;
    repeat (case_match; simplify_eq/=); intros; simplify_eq/=; unfold remove_nth;
    try done; repeat first [apply Forall_app; split | apply Forall_cons; split];
    try done; eauto using Forall_take, Forall_drop, Forall_insert.
  - apply Forall_insert; [by apply Forall_insert; [|by eapply Forall_lookup_1]|by eapply Forall_lookup_1].
  - by apply Forall_reverse.
  - apply list.Forall_forall. intros x [_ Hx]%list_elem_of_filter. by apply (proj1 (list.Forall_forall _ _) Hl).
Qed.

Lemma block_op_ok op : op_ok op -> sop_ok 4 (block_op op).
Proof. by destruct op. Qed.

Section Equivalence.
Context {F : Type} `{HR : !Runtime F} `{HL : !RuntimeLaws F} `{HB : !ByteHeap} `{HBL : !ByteHeapLaws}.
Implicit Types (a : cc_array F) (s : cc_array_sized F).

(** The two arrays hold the same words. *)
Definition same_words a s : Prop :=
  array_wf a /\ sized_wf 4 s /\ words (contents a) /\ sz_contents s = word_bytes <$> contents a.

(** An array of four-byte blocks is equivalent to the array of words.
    When cc_array.c and cc_array_sized.c (with an element size of four) hold
    the same words, every sequence of calls gets the same answers from both,
    an element being its four bytes in the second, and leaves the same words
    in both, up to a call that finds one of the arrays full and its allocator
    out of memory. *)
Theorem sized_equals_array ops a s :
  same_words a s -> Forall op_ok ops -> Forall words_op ops ->
  exists k rs a' s', array_run (take k ops) a = Ret (rs, a') /\
    sized_run (block_op <$> take k ops) s
    = Ret (zip_with (fun op r => (r.1, block_out op r.2)) (take k ops) rs, s') /\
    length rs = length (take k ops) /\ same_words a' s' /\
    (k = length ops \/ starved a' \/ sized_starved s').
Proof using HL HBL.
  revert a s. induction ops as [|op ops IH]; intros a s (Hw & Hsw & Hl & Hc) Hok Hws.
  { exists 0%nat, [], a, s. split_and!; [done..|by left]. }
  apply list.Forall_cons in Hok as [Hop Hok]. apply list.Forall_cons in Hws as [Hwo Hws].
  destruct (step_simulates op a Hw Hop) as (st & out & a1 & E & [(-> & _ & Hv)|[Hw1 Hs]]).
  { exists 0%nat, [], a, s. split_and!; [done..|by right; left]. }
  destruct (sized_step_simulates 4 (block_op op) s Hsw (block_op_ok op Hop))
    as (st' & out' & s1 & E' & [(-> & _ & Hv)|[Hsw1 Hs']]).
  { exists 0%nat, [], a, s. split_and!; [done..|by right; right]. }
  pose proof (list_step_not_alloc _ _ _ _ _ Hs) as Hst.
  rewrite Hc, (block_step_words op _ _ _ _ Hwo Hl Hs) in Hs'. injection Hs' as <- <- Hc1.
  destruct (IH a1 s1) as (k & rs & a' & s' & Er & Er' & Hlen & Hsame & Hk);
    [by split_and!; [| |by eapply list_step_words|]|done|done|].
  exists (S k), ((st, out) :: rs), a', s'. split_and!; [| | |done|].
  - cbn [firstn array_run]. rewrite E, bind_Ret, bool_decide_eq_false_2 by done. by rewrite Er.
  - cbn [firstn]. rewrite fmap_cons. by apply (sized_run_cons _ _ _ _ _ _ _ _ E' Hst Er').
  - simpl. by rewrite Hlen.
  - destruct Hk as [->|Hk]; [by left|by right].
Qed.
End Equivalence.

(** ** Concrete runs: a heap of blocks of at most 256 bytes *)

Definition small_bytes (n : Z) : option (list Z) :=
  if (0 <=? n) && (n <=? 256) then Some (replicate (Z.to_nat n) 0) else None.

#[export] Instance small_byte_heap : ByteHeap :=
  {| byte_alloc := small_bytes; byte_calloc n m := small_bytes (n * m) |}.

Lemma small_bytes_size n b : small_bytes n = Some b -> zlen b = n /\ n < 2 ^ 31.
Proof.
  unfold small_bytes. destruct (Z.leb_spec 0 n), (Z.leb_spec n 256); simpl; try done.
  intros [= <-]. rewrite length_replicate. lia.
Qed.

#[export] Instance small_byte_laws : ByteHeapLaws.
Proof. split; intros *; apply small_bytes_size. Qed.

Definition sized0 (d : Z) : cc_array_sized unit :=
  match cc_array_sized_new d with (Some a, _) => a | _ => mk_sized 0 0 0 tt [] end.

Lemma sized_growth_double d : (0 < d)%nat -> sized_growth_ok d tt.
Proof.
  intros Hd n Hn Hb. unfold scale, small_heap. rewrite wrap_id by (unfold fits; nia). lia.
Qed.

Lemma sized0_wf : sized_wf 4 (sized0 4).
Proof.
  exists (replicate 8 (replicate 4 0)).
  split; [lia|done|done|simpl; lia| |by_compute|apply sized_growth_double; lia].
  split; [by repeat constructor|]. by exists [].
Qed.

Lemma sized_refines_blocks_witness :
  exists k rs a',
    sized_run [SAdd [1;2;3;4]; SAdd [5;6;7;8]; SAddAt [9;9;9;9] 1; SSwapAt 0 2; SIndexOf [1;2;3;4];
               SReverse; SRemoveAt 0] (sized0 4) = Ret (rs, a') /\
    rs = take k [(CC_OK, None); (CC_OK, None); (CC_OK, None); (CC_OK, None); (CC_OK, Some (inr 2));
                 (CC_OK, None); (CC_OK, Some (inl [1;2;3;4]))].
Proof.
  destruct (sized_refines_blocks 4
    [SAdd [1;2;3;4]; SAdd [5;6;7;8]; SAddAt [9;9;9;9] 1; SSwapAt 0 2; SIndexOf [1;2;3;4];
     SReverse; SRemoveAt 0] (sized0 4) sized0_wf ltac:(repeat constructor; simpl; by_compute))
    as (k & rs & a' & H1 & H2 & _).
  exists k, rs, a'. split; [exact H1|exact H2].
Defined.

Lemma sized_equals_array_witness :
  exists k rs a' s',
    array_run (take k [Add 258; Add 65536; Reverse; Contains 258; GetAt 0]) array0 = Ret (rs, a') /\
    sized_run (block_op <$> take k [Add 258; Add 65536; Reverse; Contains 258; GetAt 0]) (sized0 4)
    = Ret (zip_with (fun op r => (r.1, block_out op r.2))
             (take k [Add 258; Add 65536; Reverse; Contains 258; GetAt 0]) rs, s').
Proof.
  destruct (sized_equals_array [Add 258; Add 65536; Reverse; Contains 258; GetAt 0] array0 (sized0 4))
    as (k & rs & a' & s' & H1 & H2 & _).
  - split_and!; [exact array0_wf|exact sized0_wf|constructor|reflexivity].
  - repeat constructor; simpl; by_compute.
  - repeat constructor; simpl; by_compute.
  - exists k, rs, a', s'. split; [exact H1|exact H2].
Defined.

(** Removing every element an iteration returns leaves half of them. *)
Fixpoint sized_remove_all_seen (n : nat) (it : sized_iter unit) : outcome (cc_array_sized unit) :=
  match n with
  | O => Ret (si_ar it)
  | S n =>
      match cc_array_sized_iter_next it with
      | (CC_OK, _, it) => r ← cc_array_sized_iter_remove it; sized_remove_all_seen n r.2
      | (_, _, it) => Ret (si_ar it)
      end
  end.

Lemma sized_iter_remove_skips :
  exists a, sized_remove_all_seen 10 (cc_array_sized_iter_init (mk_sized 1 4 8 tt [1;2;3;4;0;0;0;0]))
            = Ret a /\ sz_contents a = [[2]; [4]].
Proof. eexists. split; vm_compute; reflexivity. Qed.
