(* ===== verification/CHeap.v ===== *)
(** * A heap of nodes

    The nodes of a linked structure are a map from their addresses: reading or
    writing through [NULL], through a dangling pointer or freeing twice is
    undefined behaviour of the monad of CState.v.  [NULL] is 0.  A loop that
    follows pointers gets as many turns as there are nodes: longer chains are
    cycles, on which the C loop does not return either ([Hang]). *)

From S2P Require Import Prelude CMem CState.

Abbreviation heap N := (gmap Z N).
Definition NULL : Z := 0.

(** A node of zero bytes. *)
Class Zeroed (N : Type) := zero_node : N.

(** The allocator: the address [mem_calloc] of one node gives, [NULL] when it
    fails, and whether [mem_calloc] of a list header succeeds, both depending
    on the nodes in use; [mem_alloc] of an array of words. *)
Class NodeAlloc (N : Type) := {
  calloc_at : heap N -> Z;
  header_ok : heap N -> bool;
  words_ok : heap N -> Z -> bool;
}.

(** What a block of [mem_alloc] contains before it is written. *)
Class Uninit (N : Type) := uninit_node : heap N -> N.

(** Documented behaviour: a new node is at an address not in use. *)
Class NodeAllocLaws (N : Type) `{NodeAlloc N} : Prop :=
  calloc_fresh h : calloc_at h <> NULL -> h !! calloc_at h = None.

Section Ops.
Context {N : Type} `{!Zeroed N} `{!NodeAlloc N}.

(** [*a], [*a = c] and [mem_free(a)]. *)
Definition load (a : Z) : M (heap N) N :=
  fun h => match h !! a with Some c => Done c h | None => Undef end.
Definition store (a : Z) (c : N) : M (heap N) unit :=
  fun h => match h !! a with Some _ => Done tt (<[a := c]> h) | None => Undef end.
Definition mem_free (a : Z) : M (heap N) unit :=
  fun h => if a =? NULL then Done tt h
           else match h !! a with Some _ => Done tt (delete a h) | None => Undef end.

(** [mem_calloc(1, sizeof(node))]. *)
Definition node_calloc : M (heap N) Z :=
  fun h => if calloc_at h =? NULL then Done NULL h
           else Done (calloc_at h) (<[calloc_at h := zero_node]> h).

(** [mem_alloc(sizeof(node))]. *)
Definition node_malloc `{!Uninit N} : M (heap N) Z :=
  fun h => if calloc_at h =? NULL then Done NULL h
           else Done (calloc_at h) (<[calloc_at h := uninit_node h]> h).

(** [a->f], and [*a] changed in one field. *)
Definition field {A} (f : N -> A) (a : Z) : M (heap N) A := c ← load a; mret (f c).
Definition update (a : Z) (f : N -> N) : M (heap N) unit := c ← load a; store a (f c).

(** The turns a loop over nodes gets. *)
Definition heap_fuel : M (heap N) nat := gets (fun h => S (stdpp.base.size h)).

(** [mem_calloc(1, sizeof(list))], which gives a header of zeros, and
    [mem_alloc(n)] of an array of words. *)
Definition header_alloc : M (heap N) bool := gets header_ok.
Definition words_alloc (n : Z) : M (heap N) bool := gets (fun h => words_ok h n).
End Ops.

(** ** An allocator of a few cells *)

Section Cells.
Context {N : Type} (cells : list Z).

Definition first_free (h : heap N) : Z :=
  default NULL (snd <$> list_find (fun a => h !! a = None) cells).

Definition cell_alloc : NodeAlloc N :=
  {| calloc_at := first_free; header_ok := fun _ => true; words_ok := fun _ _ => true |}.

Lemma cell_alloc_laws : NodeAllocLaws N (H := cell_alloc).
Proof.
  intros h. simpl. unfold first_free. destruct (list_find _ cells) as [[k a]|] eqn:E; [|done].
  simpl. intros _. by apply list_find_Some in E as (_ & ? & _).
Qed.
End Cells.
