(* ===== verification/HeapLogic.v ===== *)
(** * Separation logic for the heap of nodes

    Assertions are predicates on heaps; [P ∗ Q] splits the heap into two
    disjoint parts.  The logic is linear: a cell cannot be dropped, so a
    specification accounts for every node, a freed one as much as a new one.
    [hwp m Φ] holds of the part of the heap [m] works on: whatever the rest of
    the heap is, [m] returns, leaves the rest alone, and [Φ] describes what it
    leaves of its own part.  The assertions form a [bi], so the proof mode of
    Iris applies to them. *)

From iris.proofmode Require Import proofmode.
From S2P Require Import Prelude CMem CState CHeap.

(** ** Assertions *)

Section Assertions.
Context {N : Type}.
Implicit Types h : heap N.

Record hprop := Hprop { hprop_at : heap N -> Prop }.
Implicit Types P Q R : hprop.

(** A record, so that an entailment does not unfold to a function. *)
Record hentails P Q : Prop := Hentails { entails_at : forall h, hprop_at P h -> hprop_at Q h }.
Definition hemp : hprop := Hprop (fun h => h = ∅).
Definition hpure (φ : Prop) : hprop := Hprop (fun _ => φ).
Definition hand P Q : hprop := Hprop (fun h => hprop_at P h /\ hprop_at Q h).
Definition hor P Q : hprop := Hprop (fun h => hprop_at P h \/ hprop_at Q h).
Definition himpl P Q : hprop := Hprop (fun h => hprop_at P h -> hprop_at Q h).
Definition hforall {A} (Φ : A -> hprop) : hprop := Hprop (fun h => forall x, hprop_at (Φ x) h).
Definition hexist {A} (Φ : A -> hprop) : hprop := Hprop (fun h => exists x, hprop_at (Φ x) h).
Definition hsep P Q : hprop :=
  Hprop (fun h => exists h1 h2, h = h1 ∪ h2 /\ h1 ##ₘ h2 /\ hprop_at P h1 /\ hprop_at Q h2).
Definition hwand P Q : hprop :=
  Hprop (fun h => forall h', h ##ₘ h' -> hprop_at P h' -> hprop_at Q (h ∪ h')).
Definition hpersistently P : hprop := hpure (hentails hemp P).

#[local] Instance hprop_equiv : Equiv hprop := fun P Q => forall h, hprop_at P h <-> hprop_at Q h.
#[local] Instance hprop_equivalence : Equivalence (≡@{hprop}).
Proof. split; repeat intro; [done|by symmetry|etrans; eauto]. Qed.
Canonical Structure hpropO := discreteO hprop.

Lemma hprop_bi_mixin :
  BiMixin hentails hemp hpure hand hor himpl (@hforall) (@hexist) hsep hwand.
Proof.
  split.
  - split; [by intros P; split|]. intros P Q R [HPQ] [HQR]. split. intros h HP. by apply HQR, HPQ.
  - intros P Q. split; [intros E; split; split=> h; apply E|].
    intros [[E1] [E2]] h. split; [apply E1|apply E2].
  - intros n φ ψ E h. apply E.
  - intros n P P' EP Q Q' EQ h. split; intros [? ?]; (split; [by apply EP|by apply EQ]).
  - intros n P P' EP Q Q' EQ h. split; (intros [?|?]; [left; by apply EP|right; by apply EQ]).
  - intros n P P' EP Q Q' EQ h. split; intros HI HP; apply EQ, HI, EP, HP.
  - intros A n Φ Φ' E h. split; intros HΦ x; apply (E x), HΦ.
  - intros A n Φ Φ' E h. split; intros [x HΦ]; exists x; apply (E x), HΦ.
  - intros n P P' EP Q Q' EQ h. split; intros (h1 & h2 & Hh & Hd & H1 & H2); exists h1, h2;
      (split_and!; [done|done|by apply EP|by apply EQ]).
  - intros n P P' EP Q Q' EQ h. split; intros HW h' Hd HP; apply EQ, HW; try done; by apply EP.
  - done.
  - intros φ P Hφ. split. intros h H. by apply (Hφ H).
  - intros P Q. split. by intros h [].
  - intros P Q. split. by intros h [].
  - intros P Q R [HQ] [HR]. split. intros h HP. split; [by apply HQ|by apply HR].
  - split. by left.
  - split. by right.
  - intros P Q R [HP] [HQ]. split. intros h [H|H]; [by apply HP|by apply HQ].
  - intros P Q R [HR]. split. intros h HP HQ. by apply HR.
  - intros P Q R [HR]. split. intros h [HP HQ]. by apply HR.
  - intros A P Φ HΦ. split. intros h HP x. by apply HΦ.
  - intros A Φ x. split. intros h HΦ. apply HΦ.
  - intros A Φ x. split. intros h HΦ. by exists x.
  - intros A Φ Q HΦ. split. intros h [x Hx]. by apply (HΦ x).
  - intros P P' Q Q' [HP] [HQ]. split. intros h (h1 & h2 & Hh & Hd & H1 & H2). exists h1, h2.
    split_and!; [done|done|by apply HP|by apply HQ].
  - intros P. split. intros h HP. exists ∅, h. split_and!; [by rw left_id|apply map_disjoint_empty_l|done|done].
  - intros P. split. intros h (h1 & h2 & -> & Hd & -> & HP). by rw left_id.
  - intros P Q. split. intros h (h1 & h2 & -> & Hd & H1 & H2). exists h2, h1.
    split_and!; [by apply map_union_comm|done|done|done].
  - intros P Q R. split. intros h (h12 & h3 & -> & Hd & (h1 & h2 & -> & Hd' & H1 & H2) & H3).
    apply map_disjoint_union_l in Hd as [Hd1 Hd2]. exists h1, (h2 ∪ h3).
    split_and!; [by rw assoc|by apply map_disjoint_union_r|done|]. by exists h2, h3.
  - intros P Q R [HR]. split. intros h HP h' Hd HQ. apply HR. by exists h, h'.
  - intros P Q R [HR]. split. intros h (h1 & h2 & -> & Hd & HP & HQ). by apply HR.
Qed.

Lemma hprop_persistently_mixin :
  BiPersistentlyMixin hentails hemp hand (@hexist) hsep hpersistently.
Proof.
  eapply bi_persistently_mixin_discrete, hprop_bi_mixin; [done| |done].
  intros A Φ [H]. destruct (H ∅ eq_refl) as [x Hx]. exists x. split. by intros h ->.
Qed.

Lemma hprop_later_mixin :
  BiLaterMixin hentails hpure hor himpl (@hforall) (@hexist) hsep hpersistently (fun P => P).
Proof. by eapply bi_later_mixin_id, hprop_bi_mixin. Qed.

Canonical Structure hpropI : bi :=
  {| bi_ofe_mixin := ofe_mixin_of hprop; bi_bi_mixin := hprop_bi_mixin;
     bi_bi_persistently_mixin := hprop_persistently_mixin;
     bi_bi_later_mixin := hprop_later_mixin |}.

#[global] Instance hprop_pure_forall : BiPureForall hpropI.
Proof. intros A φ. by split=> h. Qed.

(** ** Cells and programs *)

(** The cell at [a] holds [c]. *)
Definition pointsto (a : Z) (c : N) : hpropI := Hprop (fun h => h = {[a := c]} /\ a <> NULL).

Definition hwp {A} (m : M (heap N) A) (Φ : A -> hpropI) : hpropI :=
  Hprop (fun h => forall hf, h ##ₘ hf ->
    match m (h ∪ hf) with
    | Done a h1 => exists h', h1 = h' ∪ hf /\ h' ##ₘ hf /\ hprop_at (Φ a) h'
    | _ => False
    end).
End Assertions.
Arguments hprop : clear implicits.
Arguments hpropI : clear implicits.
Notation "a ↦ c" := (pointsto a c) (at level 20, format "a  ↦  c") : bi_scope.

(** The two parts of a run. *)
Lemma bind_done {S A B} (m : M S A) (k : A -> M S B) h y h' :
  (m ≫= k) h = Done y h' -> exists x h1, m h = Done x h1 /\ k x h1 = Done y h'.
Proof. unfold mbind, M_bind. destruct (m h) as [x h1| | |]; [|done..]. eauto. Qed.

Section Rules.
Context {N : Type} `{!Zeroed N} `{!NodeAlloc N} `{HL : !NodeAllocLaws N}.
Implicit Types (h : heap N) (P Q : hpropI N) (a : Z) (c : N).

Lemma pointsto_cell a c h : hprop_at (a ↦ c)%I h -> h !! a = Some c.
Proof. intros [-> _]. apply lookup_singleton_eq. Qed.

Lemma pointsto_not_null a c : a ↦ c ⊢ ⌜a <> NULL⌝ ∧ a ↦ c.
Proof. split. intros h Hh. split; [apply Hh|done]. Qed.

Lemma pointsto_ne a b c d : a ↦ c ∗ b ↦ d ⊢ ⌜a <> b⌝ ∧ a ↦ c ∗ b ↦ d.
Proof.
  split. intros h Hh. split; [|done]. destruct Hh as (h1 & h2 & _ & Hd & [-> _] & [-> _]).
  apply map_disjoint_singleton_l in Hd. intros ->. by rw lookup_singleton_eq in Hd.
Qed.

(** A specification read as a statement about a run on a whole heap. *)
Lemma hwp_run {A} P (m : M (heap N) A) (Φ : A -> hpropI N) h hf :
  (P ⊢ hwp m Φ) -> hprop_at P h -> h ##ₘ hf ->
  exists x h', m (h ∪ hf) = Done x (h' ∪ hf) /\ h' ##ₘ hf /\ hprop_at (Φ x) h'.
Proof.
  intros Hm HP Hd. pose proof (entails_at _ _ Hm h HP hf Hd) as Hr.
  destruct (m (h ∪ hf)) as [x h1| | |]; [|done..]. destruct Hr as (h' & -> & Hd' & HΦ). by exists x, h'.
Qed.

(** Adding a cell to a concrete heap. *)
Lemma cell_sep P a c h :
  hprop_at P h -> h !! a = None -> a <> NULL -> hprop_at (a ↦ c ∗ P)%I (<[a := c]> h).
Proof.
  intros HP Ha Hn. exists {[a := c]}, h. rw insert_union_singleton_l. split_and!; [done| |done|done].
  by apply map_disjoint_singleton_l.
Qed.

(** *** Structural rules *)

Lemma hwp_ret {A} (x : A) (Φ : A -> hpropI N) : Φ x ⊢ hwp (mret x) Φ.
Proof. split. intros h HΦ hf Hd. by exists h. Qed.

Lemma hwp_bind {A B} (m : M (heap N) A) (f : A -> M (heap N) B) (Φ : B -> hpropI N) :
  hwp m (fun x => hwp (f x) Φ) ⊢ hwp (m ≫= f) Φ.
Proof.
  split. intros h Hm hf Hd. specialize (Hm hf Hd). unfold mbind, M_bind.
  destruct (m (h ∪ hf)) as [x h1| | |]; [|done..]. destruct Hm as (h' & -> & Hd' & Hf). by apply Hf.
Qed.

Lemma hwp_wand {A} (m : M (heap N) A) (Φ Ψ : A -> hpropI N) :
  hwp m Φ ∗ (∀ x, Φ x -∗ Ψ x) ⊢ hwp m Ψ.
Proof.
  split. intros h (h1 & h2 & -> & Hd & Hm & HΨ) hf Hdf. apply map_disjoint_union_l in Hdf as [Hd1 Hd2].
  specialize (Hm (h2 ∪ hf)). rw -assoc in Hm |- *.
  destruct (m (h1 ∪ (h2 ∪ hf))) as [x h'| | |]; try (apply Hm; by apply map_disjoint_union_r).
  destruct Hm as (h1' & -> & Hd' & HΦ); [by apply map_disjoint_union_r|].
  apply map_disjoint_union_r in Hd' as [Hd2' Hdf']. exists (h2 ∪ h1').
  split; [by rw assoc (map_union_comm h1')|]. split; [by apply map_disjoint_union_l|].
  by apply (HΨ x h1').
Qed.

(** A call whose specification is known, and what is done with its result. *)
Lemma hwp_call {A B} (m : M (heap N) A) (f : A -> M (heap N) B) (Φ : A -> hpropI N) (Ψ : B -> hpropI N) :
  hwp m Φ ∗ (∀ x, Φ x -∗ hwp (f x) Ψ) ⊢ hwp (m ≫= f) Ψ.
Proof. iIntros "H". iApply hwp_bind. iApply (hwp_wand with "H"). Qed.

Lemma hwp_lift {A} (o : outcome A) (Φ : A -> hpropI N) x : o = Ret x -> Φ x ⊢ hwp (lift o) Φ.
Proof. intros ->. split. intros h HΦ hf Hd. by exists h. Qed.

(** *** Memory *)

Lemma hwp_load a c (Φ : N -> hpropI N) : a ↦ c ∗ (a ↦ c -∗ Φ c) ⊢ hwp (load a) Φ.
Proof.
  split. intros h (h1 & h2 & -> & Hd & Ha & HΦ) hf Hdf. unfold load.
  rw (lookup_union_Some_l _ _ _ c); [|apply lookup_union_Some_l; by eapply pointsto_cell].
  exists (h1 ∪ h2). split_and!; [done|done|]. rw map_union_comm; [|done]. by apply HΦ.
Qed.

Lemma hwp_store a c c' (Φ : unit -> hpropI N) : a ↦ c ∗ (a ↦ c' -∗ Φ tt) ⊢ hwp (store a c') Φ.
Proof.
  split. intros h (h1 & h2 & -> & Hd & Ha & HΦ) hf Hdf. unfold store.
  rw (lookup_union_Some_l _ _ _ c); [|apply lookup_union_Some_l; by eapply pointsto_cell].
  destruct Ha as [-> Hn]. apply map_disjoint_singleton_l in Hd as Hd'.
  apply map_disjoint_union_l in Hdf as [Hf1 Hf2]. apply map_disjoint_singleton_l in Hf1 as Hf1'.
  exists (h2 ∪ {[a := c']}). split_and!.
  - rw insert_union_l insert_union_l insert_singleton_eq.
    by rw (map_union_comm {[a := c']}); [|apply map_disjoint_singleton_l].
  - apply map_disjoint_union_l. split; [done|]. by apply map_disjoint_singleton_l.
  - apply HΦ; [|done]. by apply map_disjoint_singleton_r.
Qed.

Lemma hwp_free a c (Φ : unit -> hpropI N) : a ↦ c ∗ Φ tt ⊢ hwp (mem_free a) Φ.
Proof.
  split. intros h (h1 & h2 & -> & Hd & Ha & HΦ) hf Hdf. unfold mem_free.
  rw (proj2 (Z.eqb_neq _ _)); [|apply Ha].
  rw (lookup_union_Some_l _ _ _ c); [|apply lookup_union_Some_l; by eapply pointsto_cell].
  destruct Ha as [-> Hn]. apply map_disjoint_singleton_l in Hd as Hd'.
  apply map_disjoint_union_l in Hdf as [Hf1 Hf2]. apply map_disjoint_singleton_l in Hf1 as Hf1'.
  exists h2. split_and!; [|done|done].
  rw -assoc delete_union delete_singleton_eq left_id. apply delete_id. by apply lookup_union_None.
Qed.

(** Either no memory is left, or there is a new cell. *)
Lemma hwp_fresh (g : heap N -> N) (Φ : Z -> hpropI N) :
  Φ NULL ∧ (∀ a h, a ↦ g h -∗ Φ a)
  ⊢ hwp (fun h => if calloc_at h =? NULL then Done NULL h
                  else Done (calloc_at h) (<[calloc_at h := g h]> h)) Φ.
Proof using HL.
  split. intros h HΦ hf Hdf. destruct (Z.eqb_spec (calloc_at (h ∪ hf)) NULL) as [E|E].
  - exists h. split_and!; [done|done|apply HΦ].
  - pose proof (calloc_fresh _ E) as [Hf1 Hf2]%lookup_union_None. set (a := calloc_at _) in *.
    set (c := g _). exists (h ∪ {[a := c]}). split_and!.
    + rw insert_union_singleton_l assoc. by rw (map_union_comm {[a := c]} h); [|apply map_disjoint_singleton_l].
    + apply map_disjoint_union_l. split; [done|]. by apply map_disjoint_singleton_l.
    + destruct HΦ as [_ HΦ]. apply (HΦ a (h ∪ hf)); [by apply map_disjoint_singleton_r|done].
Qed.

Lemma hwp_calloc (Φ : Z -> hpropI N) :
  Φ NULL ∧ (∀ a, a ↦ zero_node -∗ Φ a) ⊢ hwp node_calloc Φ.
Proof using HL.
  etrans; [|apply (hwp_fresh (fun _ => zero_node))]. iIntros "H". iSplit; [by iDestruct "H" as "[H _]"|].
  iDestruct "H" as "[_ H]". iIntros (a _). iApply "H".
Qed.

Lemma hwp_malloc `{!Uninit N} (Φ : Z -> hpropI N) :
  Φ NULL ∧ (∀ a c, a ↦ c -∗ Φ a) ⊢ hwp node_malloc Φ.
Proof using HL.
  etrans; [|apply (hwp_fresh uninit_node)]. iIntros "H". iSplit; [by iDestruct "H" as "[H _]"|].
  iDestruct "H" as "[_ H]". iIntros (a h). iApply "H".
Qed.

Lemma hwp_field {A B} (f : N -> A) a c (k : A -> M (heap N) B) (Φ : B -> hpropI N) :
  a ↦ c ∗ (a ↦ c -∗ hwp (k (f c)) Φ) ⊢ hwp (field f a ≫= k) Φ.
Proof.
  iIntros "[Ha H]". iApply hwp_bind. unfold field. iApply hwp_bind. iApply hwp_load. iFrame "Ha".
  iIntros "Ha". iApply hwp_ret. by iApply "H".
Qed.

Lemma hwp_update a c (f : N -> N) (Φ : unit -> hpropI N) :
  a ↦ c ∗ (a ↦ f c -∗ Φ tt) ⊢ hwp (update a f) Φ.
Proof.
  iIntros "[Ha HΦ]". unfold update. iApply hwp_bind. iApply hwp_load. iFrame "Ha". iIntros "Ha".
  iApply hwp_store. iFrame.
Qed.

(** An oracle that does not look at the heap. *)
Lemma hwp_gets {A} (f : heap N -> A) (Φ : A -> hpropI N) : (∀ x, Φ x) ⊢ hwp (gets f) Φ.
Proof. split. intros h HΦ hf Hd. by exists h. Qed.

(** There are at least as many turns as cells owned. *)
Lemma hwp_fuel P n (Φ : nat -> hpropI N) :
  (forall h, hprop_at P h -> (n <= stdpp.base.size h)%nat) ->
  P ∗ (∀ k, ⌜(n < k)%nat⌝ → P -∗ Φ k) ⊢ hwp heap_fuel Φ.
Proof.
  intros Hn. split. intros h (h1 & h2 & -> & Hd & HP & HΦ) hf Hdf. unfold heap_fuel, gets.
  exists (h1 ∪ h2). split_and!; [done|done|]. apply map_disjoint_union_l in Hdf as [Hf1 Hf2].
  assert (n < S (stdpp.base.size ((h1 ∪ h2) ∪ hf)))%nat as Hk.
  { rw !map_size_disj_union; [|done|by apply map_disjoint_union_l]. specialize (Hn h1 HP). lia. }
  pose proof (HΦ _ Hk h1) as H1.
  rw (map_union_comm h2) in H1; [|done]. by apply H1.
Qed.
End Rules.
