(* ===== verification/CcSlist.v ===== *)
(** * Singly linked list (src/components/Collections-C/src/cc_slist.c)

    The nodes are cells of the heap of CHeap.v; the header of a list, its
    size, its head and its tail, is a value each operation returns changed.
    The calls of a callback are given as the list of its arguments.  The
    sorting function of the C library is a parameter. *)

From S2P Require Import Prelude CMem CState CHeap CcArray.

Record snode := mk_snode { sn_data : Z; sn_next : Z }.
#[export] Instance snode_zeroed : Zeroed snode := mk_snode 0 0.
Definition sn_set_data (e : Z) (n : snode) : snode := mk_snode e (sn_next n).
Definition sn_set_next (p : Z) (n : snode) : snode := mk_snode (sn_data n) p.

Record slist := mk_slist { sl_size : Z; sl_head : Z; sl_tail : Z }.
Definition set_sl_size (n : Z) (l : slist) : slist := mk_slist n (sl_head l) (sl_tail l).
Definition set_sl_head (p : Z) (l : slist) : slist := mk_slist (sl_size l) p (sl_tail l).
Definition set_sl_tail (p : Z) (l : slist) : slist := mk_slist (sl_size l) (sl_head l) p.

(** [qsort] on words. *)
Class QSort := qsort : (Z -> Z -> Z) -> list Z -> list Z.

Section Slist.
Context `{HA : !NodeAlloc snode} `{HQ : !QSort}.
Local Abbreviation SM := (M (heap snode)).
Implicit Types l : slist.

Definition is_ok (st : cc_stat) : bool := bool_decide (st = CC_OK).

(** ** Construction *)

Definition cc_slist_new_conf : SM (cc_stat * option slist) :=
  ok ← header_alloc;
  if ok : bool then mret (CC_OK, Some (mk_slist 0 NULL NULL)) else mret (CC_ERR_ALLOC, None).

Definition cc_slist_new : SM (cc_stat * option slist) := cc_slist_new_conf.

(** ** Finding a node *)

Fixpoint walk (n : nat) (node prev : Z) : SM (Z * Z) :=
  match n with
  | O => mret (node, prev)
  | S n => c ← load node; walk n (sn_next c) node
  end.

(** The status, the node and the node before it. *)
Definition get_node_at l (index : Z) : SM (cc_stat * Z * Z) :=
  if sl_size l <=? index then mret (CC_ERR_OUT_OF_RANGE, NULL, NULL)
  else r ← walk (Z.to_nat index) (sl_head l) NULL; mret (CC_OK, r.1, r.2).

Fixpoint seek (n : nat) (element node prev : Z) : SM (cc_stat * Z * Z) :=
  match n with
  | O => hang
  | S n =>
      if node =? NULL then mret (CC_ERR_VALUE_NOT_FOUND, node, prev)
      else
        c ← load node;
        if sn_data c =? element then mret (CC_OK, node, prev)
        else seek n element (sn_next c) node
  end.

Definition get_node l (element : Z) : SM (cc_stat * Z * Z) :=
  n ← heap_fuel; seek n element (sl_head l) NULL.

(** ** Unlinking *)

Definition unlinkn l (node prev : Z) : SM (Z * slist) :=
  c ← load node;
  l ← (if negb (prev =? NULL)
       then update prev (sn_set_next (sn_next c)) ;; mret l
       else mret (set_sl_head (sn_next c) l));
  c' ← load node;
  let l := if sn_next c' =? NULL then set_sl_tail prev l else l in
  mem_free node ;;
  mret (sn_data c, set_sl_size (u32 (sl_size l - 1)) l).

(** The elements handed to the callback, in order. *)
Fixpoint unlink_loop (fuel : nat) (n size : Z) : SM (list Z * Z) :=
  match fuel with
  | O => hang
  | S fuel =>
      if n =? NULL then mret ([], size)
      else
        c ← load n;
        mem_free n ;;
        r ← unlink_loop fuel (sn_next c) (u32 (size - 1));
        mret (sn_data c :: r.1, r.2)
  end.

Definition unlinkn_all l : SM (bool * list Z * slist) :=
  if sl_size l =? 0 then mret (false, [], l)
  else
    n ← heap_fuel;
    r ← unlink_loop n (sl_head l) (sl_size l);
    mret (true, r.1, set_sl_size r.2 l).

Definition cc_slist_remove_all_cb l : SM (cc_stat * list Z * slist) :=
  r ← unlinkn_all l;
  if r.1.1 : bool then mret (CC_OK, r.1.2, set_sl_tail NULL (set_sl_head NULL r.2))
  else mret (CC_ERR_VALUE_NOT_FOUND, r.1.2, r.2).

Definition cc_slist_remove_all l : SM (cc_stat * slist) :=
  r ← unlinkn_all l;
  if r.1.1 : bool then mret (CC_OK, set_sl_tail NULL (set_sl_head NULL r.2))
  else mret (CC_ERR_VALUE_NOT_FOUND, r.2).

(** The header is freed with the nodes. *)
Definition cc_slist_destroy l : SM unit := cc_slist_remove_all l ;; mret tt.
Definition cc_slist_destroy_cb l : SM (list Z) := r ← cc_slist_remove_all_cb l; mret r.1.2.

(** ** Adding *)

Definition cc_slist_add_first l (element : Z) : SM (cc_stat * slist) :=
  node ← node_calloc;
  if node =? NULL then mret (CC_ERR_ALLOC, l)
  else
    update node (sn_set_data element) ;;
    l ← (if sl_size l =? 0 then mret (set_sl_tail node (set_sl_head node l))
         else update node (sn_set_next (sl_head l)) ;; mret (set_sl_head node l));
    mret (CC_OK, set_sl_size (u32 (sl_size l + 1)) l).

Definition cc_slist_add_last l (element : Z) : SM (cc_stat * slist) :=
  node ← node_calloc;
  if node =? NULL then mret (CC_ERR_ALLOC, l)
  else
    update node (sn_set_data element) ;;
    l ← (if sl_size l =? 0 then mret (set_sl_tail node (set_sl_head node l))
         else update (sl_tail l) (sn_set_next node) ;; mret (set_sl_tail node l));
    mret (CC_OK, set_sl_size (u32 (sl_size l + 1)) l).

Definition cc_slist_add l (element : Z) : SM (cc_stat * slist) := cc_slist_add_last l element.

Definition cc_slist_add_at l (element index : Z) : SM (cc_stat * slist) :=
  r ← get_node_at l index;
  let '(status, node, prev) := r in
  if negb (is_ok status) then mret (status, l)
  else
    new ← node_calloc;
    if new =? NULL then mret (CC_ERR_ALLOC, l)
    else
      update new (sn_set_data element) ;;
      l ← (if prev =? NULL
           then update new (sn_set_next (sl_head l)) ;; mret (set_sl_head new l)
           else
             tmp ← load prev;
             update prev (sn_set_next new) ;;
             update new (sn_set_next (sn_next tmp)) ;;
             mret l);
      mret (CC_OK, set_sl_size (u32 (sl_size l + 1)) l).

(** Freeing the nodes linked so far. *)
Fixpoint free_chain (fuel : nat) (h : Z) : SM unit :=
  match fuel with
  | O => hang
  | S fuel => if h =? NULL then mret tt else tmp ← load h; mem_free h ;; free_chain fuel (sn_next tmp)
  end.

(** Copies of [n] nodes from [ins] on, linked after the chain from [h] to [t]. *)
Fixpoint link_loop (n : nat) (ins h t : Z) : SM (bool * Z * Z) :=
  match n with
  | O => mret (true, h, t)
  | S n =>
      new ← node_calloc;
      if new =? NULL then fuel ← heap_fuel; free_chain fuel h ;; mret (false, NULL, t)
      else
        c ← load ins;
        update new (sn_set_data (sn_data c)) ;;
        r ← (if h =? NULL then mret (new, new)
             else update t (sn_set_next new) ;; mret (h, new));
        link_loop n (sn_next c) r.1 r.2
  end.

Definition link_all_externally l : SM (bool * Z * Z) :=
  link_loop (Z.to_nat (sl_size l)) (sl_head l) NULL NULL.

(** [list2] is not changed; the two lists are distinct. *)
Definition cc_slist_add_all l1 l2 : SM (cc_stat * slist) :=
  if sl_size l2 =? 0 then mret (CC_OK, l1)
  else
    r ← link_all_externally l2;
    let '(ok, head, tail) := r in
    if negb ok then mret (CC_ERR_ALLOC, l1)
    else
      l1 ← (if sl_size l1 =? 0 then mret (set_sl_tail tail (set_sl_head head l1))
            else update (sl_tail l1) (sn_set_next head) ;; mret (set_sl_tail tail l1));
      mret (CC_OK, set_sl_size (u32 (sl_size l1 + sl_size l2)) l1).

Definition cc_slist_add_all_at l1 l2 (index : Z) : SM (cc_stat * slist) :=
  if sl_size l2 =? 0 then mret (CC_OK, l1)
  else
    r ← get_node_at l1 index;
    let '(status, node, prev) := r in
    if negb (is_ok status) then mret (status, l1)
    else
      r ← link_all_externally l2;
      let '(ok, head, tail) := r in
      if negb ok then mret (CC_ERR_ALLOC, l1)
      else
        l1 ← (if prev =? NULL
              then update tail (sn_set_next node) ;; mret (set_sl_head head l1)
              else update prev (sn_set_next head) ;; update tail (sn_set_next node) ;; mret l1);
        mret (CC_OK, set_sl_size (u32 (sl_size l1 + sl_size l2)) l1).

(** ** Splicing *)

Definition cc_slist_splice l1 l2 : SM (cc_stat * slist * slist) :=
  if sl_size l2 =? 0 then mret (CC_OK, l1, l2)
  else
    l1 ← (if sl_size l1 =? 0 then mret (set_sl_tail (sl_tail l2) (set_sl_head (sl_head l2) l1))
          else update (sl_tail l1) (sn_set_next (sl_head l2)) ;; mret (set_sl_tail (sl_tail l2) l1));
    mret (CC_OK, set_sl_size (u32 (sl_size l1 + sl_size l2)) l1, mk_slist 0 NULL NULL).

Definition splice_between l1 l2 (base end_ : Z) : SM (slist * slist) :=
  l1 ← (if base =? NULL
        then update (sl_tail l2) (sn_set_next (sl_head l1)) ;; mret (set_sl_head (sl_head l2) l1)
        else if end_ =? NULL
        then update (sl_tail l1) (sn_set_next (sl_head l2)) ;; mret (set_sl_tail (sl_tail l2) l1)
        else
          update base (sn_set_next (sl_head l2)) ;; update (sl_tail l2) (sn_set_next end_) ;; mret l1);
  mret (set_sl_size (u32 (sl_size l1 + sl_size l2)) l1, mk_slist 0 NULL NULL).

Definition cc_slist_splice_at l1 l2 (index : Z) : SM (cc_stat * slist * slist) :=
  if sl_size l2 =? 0 then mret (CC_OK, l1, l2)
  else if sl_size l1 <=? index then mret (CC_ERR_OUT_OF_RANGE, l1, l2)
  else
    r ← get_node_at l1 index;
    let '(status, node, prev) := r in
    if negb (is_ok status) then mret (status, l1, l2)
    else r ← splice_between l1 l2 prev node; mret (CC_OK, r.1, r.2).

(** ** Removing *)

(** Status, the element removed or read, and the list. *)
Definition sl_result : Type := cc_stat * option Z * slist.

Definition cc_slist_remove l (element : Z) : SM sl_result :=
  r ← get_node l element;
  let '(status, node, prev) := r in
  if negb (is_ok status) then mret (status, None, l)
  else r ← unlinkn l node prev; mret (CC_OK, Some r.1, r.2).

Definition cc_slist_remove_at l (index : Z) : SM sl_result :=
  r ← get_node_at l index;
  let '(status, node, prev) := r in
  if negb (is_ok status) then mret (status, None, l)
  else r ← unlinkn l node prev; mret (CC_OK, Some r.1, r.2).

Definition cc_slist_remove_first l : SM sl_result :=
  if sl_size l =? 0 then mret (CC_ERR_VALUE_NOT_FOUND, None, l)
  else r ← unlinkn l (sl_head l) NULL; mret (CC_OK, Some r.1, r.2).

Definition cc_slist_remove_last l : SM sl_result :=
  if sl_size l =? 0 then mret (CC_ERR_VALUE_NOT_FOUND, None, l)
  else
    r ← get_node_at l (u32 (sl_size l - 1));
    let '(status, node, prev) := r in
    if negb (is_ok status) then mret (status, None, l)
    else r ← unlinkn l node prev; mret (CC_OK, Some r.1, r.2).

(** ** Access *)

Definition cc_slist_replace_at l (element index : Z) : SM sl_result :=
  r ← get_node_at l index;
  let '(status, node, _) := r in
  if negb (is_ok status) then mret (status, None, l)
  else
    old ← load node;
    update node (sn_set_data element) ;;
    mret (CC_OK, Some (sn_data old), l).

Definition cc_slist_get_first l : SM sl_result :=
  if sl_size l =? 0 then mret (CC_ERR_VALUE_NOT_FOUND, None, l)
  else c ← load (sl_head l); mret (CC_OK, Some (sn_data c), l).

Definition cc_slist_get_last l : SM sl_result :=
  if sl_size l =? 0 then mret (CC_ERR_VALUE_NOT_FOUND, None, l)
  else c ← load (sl_tail l); mret (CC_OK, Some (sn_data c), l).

Definition cc_slist_get_at l (index : Z) : SM sl_result :=
  r ← get_node_at l index;
  let '(status, node, _) := r in
  if negb (is_ok status) then mret (status, None, l)
  else c ← load node; mret (CC_OK, Some (sn_data c), l).

(** ** Loops over the nodes *)

Fixpoint flip_loop (fuel : nat) (flip prev : Z) : SM Z :=
  match fuel with
  | O => hang
  | S fuel =>
      if flip =? NULL then mret prev
      else
        c ← load flip;
        update flip (sn_set_next prev) ;;
        flip_loop fuel (sn_next c) flip
  end.

Definition cc_slist_reverse l : SM slist :=
  if (sl_size l =? 0) || (sl_size l =? 1) then mret l
  else
    n ← heap_fuel;
    head ← flip_loop n (sl_head l) NULL;
    mret (set_sl_head head (set_sl_tail (sl_head l) l)).

(** The calls of [f] on the elements from [node] on, with what it makes of [x]. *)
Fixpoint fold_nodes {A} (fuel : nat) (f : A -> Z -> A) (x : A) (node : Z) : SM A :=
  match fuel with
  | O => hang
  | S fuel =>
      if node =? NULL then mret x
      else c ← load node; fold_nodes fuel f (f x (sn_data c)) (sn_next c)
  end.

Definition fold_slist {A} (f : A -> Z -> A) (x : A) l : SM A :=
  n ← heap_fuel; fold_nodes n f x (sl_head l).

Definition cc_slist_contains l (element : Z) : SM Z :=
  fold_slist (fun n x => if x =? element then u32 (n + 1) else n) 0 l.

Definition cc_slist_contains_value l (element : Z) (cmp : Z -> Z -> Z) : SM Z :=
  fold_slist (fun n x => if cmp x element =? 0 then u32 (n + 1) else n) 0 l.

Definition cc_slist_foreach l : SM (list Z) := fold_slist (fun xs x => xs ++ [x]) [] l.

Fixpoint index_nodes (fuel : nat) (element node i : Z) : SM (cc_stat * option Z) :=
  match fuel with
  | O => hang
  | S fuel =>
      if node =? NULL then mret (CC_ERR_OUT_OF_RANGE, None)
      else
        c ← load node;
        if sn_data c =? element then mret (CC_OK, Some i)
        else index_nodes fuel element (sn_next c) (u32 (i + 1))
  end.

Definition cc_slist_index_of l (element : Z) : SM (cc_stat * option Z) :=
  n ← heap_fuel; index_nodes n element (sl_head l) 0.

(** ** New lists and arrays *)

(** [n] elements from [node] on are added to [sub]; a failure destroys it. *)
Fixpoint sub_loop (n : nat) (node : Z) (sub : slist) : SM (cc_stat * option slist) :=
  match n with
  | O => mret (CC_OK, Some sub)
  | S n =>
      c ← load node;
      r ← cc_slist_add sub (sn_data c);
      if negb (is_ok r.1) then cc_slist_destroy r.2 ;; mret (r.1, None)
      else sub_loop n (sn_next c) r.2
  end.

Definition cc_slist_sublist l (from to : Z) : SM (cc_stat * option slist) :=
  if (to <? from) || (sl_size l <=? to) then mret (CC_ERR_INVALID_RANGE, None)
  else
    r ← cc_slist_new;
    match r with
    | (CC_OK, Some sub) =>
        r ← get_node_at l from;
        let '(status, node, _) := r in
        if negb (is_ok status) then cc_slist_destroy sub ;; mret (status, None)
        else sub_loop (Z.to_nat (to - from + 1)) node sub
    | (status, _) => mret (status, None)
    end.

(** The elements from [node] on are added to [copy] through [cp]; a failure
    destroys it. *)
Fixpoint copy_nodes (fuel : nat) (cp : Z -> Z) (node : Z) (copy : slist) : SM (cc_stat * option slist) :=
  match fuel with
  | O => hang
  | S fuel =>
      if node =? NULL then mret (CC_OK, Some copy)
      else
        c ← load node;
        r ← cc_slist_add copy (cp (sn_data c));
        if negb (is_ok r.1) then cc_slist_destroy r.2 ;; mret (r.1, None)
        else copy_nodes fuel cp (sn_next c) r.2
  end.

Definition cc_slist_copy_deep l (cp : Z -> Z) : SM (cc_stat * option slist) :=
  r ← cc_slist_new;
  match r with
  | (CC_OK, Some copy) => n ← heap_fuel; copy_nodes n cp (sl_head l) copy
  | (status, _) => mret (status, None)
  end.

Definition cc_slist_copy_shallow l : SM (cc_stat * option slist) := cc_slist_copy_deep l (fun x => x).

(** The status of [cc_slist_add] is not looked at. *)
Fixpoint filter_nodes (fuel : nat) (pred : Z -> bool) (node : Z) (out : slist) : SM slist :=
  match fuel with
  | O => hang
  | S fuel =>
      if node =? NULL then mret out
      else
        c ← load node;
        out ← (if pred (sn_data c) then r ← cc_slist_add out (sn_data c); mret r.2 else mret out);
        filter_nodes fuel pred (sn_next c) out
  end.

Definition cc_slist_filter l (pred : Z -> bool) : SM (cc_stat * option slist) :=
  if sl_size l =? 0 then mret (CC_ERR_OUT_OF_RANGE, None)
  else
    r ← cc_slist_new;
    match r.2 with
    | Some out => n ← heap_fuel; out ← filter_nodes n pred (sl_head l) out; mret (CC_OK, Some out)
    | None => mret (CC_ERR_ALLOC, None)
    end.

Fixpoint filter_mut_nodes (fuel : nat) (pred : Z -> bool) (curr prev : Z) l : SM slist :=
  match fuel with
  | O => hang
  | S fuel =>
      if curr =? NULL then mret l
      else
        c ← load curr;
        if negb (pred (sn_data c))
        then r ← unlinkn l curr prev; filter_mut_nodes fuel pred (sn_next c) prev r.2
        else filter_mut_nodes fuel pred (sn_next c) curr l
  end.

Definition cc_slist_filter_mut l (pred : Z -> bool) : SM (cc_stat * slist) :=
  if sl_size l =? 0 then mret (CC_ERR_OUT_OF_RANGE, l)
  else n ← heap_fuel; l ← filter_mut_nodes n pred (sl_head l) NULL l; mret (CC_OK, l).

Fixpoint read_nodes (n : nat) (node : Z) : SM (list Z) :=
  match n with
  | O => mret []
  | S n => c ← load node; xs ← read_nodes n (sn_next c); mret (sn_data c :: xs)
  end.

Definition cc_slist_to_array l : SM (cc_stat * list Z) :=
  ok ← words_alloc (u32 (sl_size l * PTR));
  if negb ok then mret (CC_ERR_ALLOC, [])
  else xs ← read_nodes (Z.to_nat (sl_size l)) (sl_head l); mret (CC_OK, xs).

Fixpoint write_nodes (xs : list Z) (node : Z) : SM unit :=
  match xs with
  | [] => mret tt
  | x :: xs => update node (sn_set_data x) ;; c ← load node; write_nodes xs (sn_next c)
  end.

Definition cc_slist_sort l (cmp : Z -> Z -> Z) : SM cc_stat :=
  if sl_size l =? 1 then mret CC_OK
  else
    r ← cc_slist_to_array l;
    if negb (is_ok r.1) then mret r.1
    else write_nodes (qsort cmp r.2) (sl_head l) ;; mret CC_OK.

(** ** Iterator *)

Record slist_iter := mk_slit {
  sli_index : Z; sli_list : slist; sli_next : Z; sli_current : Z; sli_prev : Z
}.
Implicit Types it : slist_iter.

Definition cc_slist_iter_init l : slist_iter := mk_slit 0 l (sl_head l) NULL NULL.

Definition cc_slist_iter_remove it : SM (cc_stat * option Z * slist_iter) :=
  if sli_current it =? NULL then mret (CC_ERR_VALUE_NOT_FOUND, None, it)
  else
    r ← unlinkn (sli_list it) (sli_current it) (sli_prev it);
    mret (CC_OK, Some r.1,
          mk_slit (u32 (sli_index it - 1)) r.2 (sli_next it) NULL (sli_prev it)).

Definition cc_slist_iter_add it (element : Z) : SM (cc_stat * slist_iter) :=
  new_node ← node_calloc;
  if new_node =? NULL then mret (CC_ERR_ALLOC, it)
  else
    update new_node (sn_set_data element) ;;
    update new_node (sn_set_next (sli_next it)) ;;
    update (sli_current it) (sn_set_next new_node) ;;
    let l := sli_list it in
    let l := if sli_index it =? sl_size l then set_sl_tail new_node l else l in
    mret (CC_OK, mk_slit (u32 (sli_index it + 1)) (set_sl_size (u32 (sl_size l + 1)) l)
                   (sli_next it) (sli_current it) (sli_prev it)).

Definition cc_slist_iter_replace it (element : Z) : SM (cc_stat * option Z) :=
  if sli_current it =? NULL then mret (CC_ERR_VALUE_NOT_FOUND, None)
  else
    old ← load (sli_current it);
    update (sli_current it) (sn_set_data element) ;;
    mret (CC_OK, Some (sn_data old)).

Definition cc_slist_iter_next it : SM (cc_stat * option Z * slist_iter) :=
  if sli_next it =? NULL then mret (CC_ITER_END, None, it)
  else
    c ← load (sli_next it);
    let prev := if negb (sli_current it =? NULL) then sli_current it else sli_prev it in
    mret (CC_OK, Some (sn_data c),
          mk_slit (u32 (sli_index it + 1)) (sli_list it) (sn_next c) (sli_next it) prev).

Definition cc_slist_iter_index it : Z := u32 (sli_index it - 1).

(** ** Iterator over two lists *)

Record slist_zip := mk_szit {
  szi_index : Z; szi_l1 : slist; szi_l2 : slist; szi_next1 : Z; szi_next2 : Z;
  szi_current1 : Z; szi_current2 : Z; szi_prev1 : Z; szi_prev2 : Z
}.
Implicit Types z : slist_zip.

Definition cc_slist_zip_iter_init l1 l2 : slist_zip :=
  mk_szit 0 l1 l2 (sl_head l1) (sl_head l2) NULL NULL NULL NULL.

Definition cc_slist_zip_iter_next z : SM (cc_stat * option (Z * Z) * slist_zip) :=
  if (szi_next1 z =? NULL) || (szi_next2 z =? NULL) then mret (CC_ITER_END, None, z)
  else
    c1 ← load (szi_next1 z);
    c2 ← load (szi_next2 z);
    let prev1 := if negb (szi_current1 z =? NULL) then szi_current1 z else szi_prev1 z in
    let prev2 := if negb (szi_current2 z =? NULL) then szi_current2 z else szi_prev2 z in
    mret (CC_OK, Some (sn_data c1, sn_data c2),
          mk_szit (u32 (szi_index z + 1)) (szi_l1 z) (szi_l2 z) (sn_next c1) (sn_next c2)
                  (szi_next1 z) (szi_next2 z) prev1 prev2).

Definition cc_slist_zip_iter_add z (e1 e2 : Z) : SM (cc_stat * slist_zip) :=
  new1 ← node_calloc;
  if new1 =? NULL then mret (CC_ERR_ALLOC, z)
  else
    new2 ← node_calloc;
    if new2 =? NULL then mem_free new1 ;; mret (CC_ERR_ALLOC, z)
    else
      update new1 (sn_set_data e1) ;;
      update new2 (sn_set_data e2) ;;
      update new1 (sn_set_next (szi_next1 z)) ;;
      update new2 (sn_set_next (szi_next2 z)) ;;
      update (szi_current1 z) (sn_set_next new1) ;;
      update (szi_current2 z) (sn_set_next new2) ;;
      let l1 := szi_l1 z in
      let l2 := szi_l2 z in
      let l1 := if szi_index z =? sl_size l1 then set_sl_tail new1 l1 else l1 in
      let l2 := if szi_index z =? sl_size l2 then set_sl_tail new2 l2 else l2 in
      mret (CC_OK, mk_szit (u32 (szi_index z + 1)) (set_sl_size (u32 (sl_size l1 + 1)) l1)
                     (set_sl_size (u32 (sl_size l2 + 1)) l2) (szi_next1 z) (szi_next2 z)
                     (szi_current1 z) (szi_current2 z) (szi_prev1 z) (szi_prev2 z)).

Definition cc_slist_zip_iter_remove z : SM (cc_stat * option (Z * Z) * slist_zip) :=
  if (szi_current1 z =? NULL) || (szi_current2 z =? NULL)
  then mret (CC_ERR_VALUE_NOT_FOUND, None, z)
  else
    r1 ← unlinkn (szi_l1 z) (szi_current1 z) (szi_prev1 z);
    r2 ← unlinkn (szi_l2 z) (szi_current2 z) (szi_prev2 z);
    mret (CC_OK, Some (r1.1, r2.1),
          mk_szit (u32 (szi_index z - 1)) r1.2 r2.2 (szi_next1 z) (szi_next2 z) NULL NULL
                  (szi_prev1 z) (szi_prev2 z)).

Definition cc_slist_zip_iter_replace z (e1 e2 : Z) : SM (cc_stat * option (Z * Z)) :=
  if (szi_current1 z =? NULL) || (szi_current2 z =? NULL)
  then mret (CC_ERR_VALUE_NOT_FOUND, None)
  else
    old1 ← load (szi_current1 z);
    old2 ← load (szi_current2 z);
    update (szi_current1 z) (sn_set_data e1) ;;
    update (szi_current2 z) (sn_set_data e2) ;;
    mret (CC_OK, Some (sn_data old1, sn_data old2)).

Definition cc_slist_zip_iter_index z : Z := u32 (szi_index z - 1).
End Slist.
