(* ===== verification/CcSlistFacts.v ===== *)
(** * The singly linked list in separation logic

    [slist_at l ns] owns exactly the nodes of the list [l]: [ns] are their
    addresses and elements, in order.  Each operation of cc_slist.c gets a
    specification of what it does to [ns]; as the logic is linear, it also
    says that no node is lost and none is freed twice. *)

From iris.proofmode Require Import proofmode.
From S2P Require Import Prelude CMem CState CHeap HeapLogic CcArray CcSlist.

(** ** Symbolic execution *)

Ltac hsimpl := cbn [fst snd sn_data sn_next sn_set_data sn_set_next sl_size sl_head sl_tail
  set_sl_size set_sl_head set_sl_tail].
Tactic Notation "hload" constr(H) := iApply hwp_bind; iApply hwp_load; iFrame H; iIntros H; hsimpl.
Tactic Notation "hstore" constr(H) := iApply hwp_bind; iApply hwp_store; iFrame H; iIntros H; hsimpl.
Tactic Notation "hupdate" constr(H) := iApply hwp_bind; iApply hwp_update; iFrame H; iIntros H; hsimpl.
Tactic Notation "hfree" constr(H) := iApply hwp_bind; iApply hwp_free; iFrame H; hsimpl.
Ltac hret := iApply hwp_ret; hsimpl.
Ltac hskip := iApply hwp_bind; hret.

(** ** Chains of nodes *)

Abbreviation nodes := (list (Z * Z)).

Definition first_addr (ns : nodes) (q : Z) : Z := match ns with [] => q | n :: _ => n.1 end.
Definition last_from (p : Z) (ns : nodes) : Z := default p (list.last ns.*1).

Fixpoint chain (ns : nodes) (q : Z) : hpropI snode :=
  match ns with
  | [] => emp
  | n :: ns => n.1 ↦ mk_snode n.2 (first_addr ns q) ∗ chain ns q
  end%I.

Lemma first_addr_app ns1 ns2 q : first_addr (ns1 ++ ns2) q = first_addr ns1 (first_addr ns2 q).
Proof. by destruct ns1. Qed.

Lemma last_from_snoc p ns n : last_from p (ns ++ [n]) = n.1.
Proof. unfold last_from. by rw fmap_app /= last_snoc. Qed.

Lemma last_from_cons p n ns : last_from p (n :: ns) = last_from n.1 ns.
Proof. unfold last_from. rw fmap_cons last_cons. by destruct (list.last ns.*1). Qed.

Lemma chain_app ns1 ns2 q : chain (ns1 ++ ns2) q ⊣⊢ chain ns1 (first_addr ns2 q) ∗ chain ns2 q.
Proof.
  induction ns1 as [|n ns1 IH]; simpl; [by rw left_id|]. by rw IH first_addr_app assoc.
Qed.

Lemma chain_mid ns1 n ns2 q :
  chain (ns1 ++ n :: ns2) q
  ⊣⊢ chain ns1 n.1 ∗ n.1 ↦ mk_snode n.2 (first_addr ns2 q) ∗ chain ns2 q.
Proof. by rw chain_app. Qed.

Lemma chain_snoc ns n q : chain (ns ++ [n]) q ⊣⊢ chain ns n.1 ∗ n.1 ↦ mk_snode n.2 q.
Proof. rw chain_mid /=. by rw right_id. Qed.

Lemma chain_size ns q h : hprop_at (chain ns q) h -> stdpp.base.size h = length ns.
Proof.
  revert h. induction ns as [|n ns IH]; simpl; intros h.
  - intros ->. apply map_size_empty.
  - intros (h1 & h2 & -> & Hd & [-> _] & Hc). rw map_size_disj_union; [|done].
    by rw map_size_singleton (IH h2).
Qed.

Lemma chain_not_null n ns q :
  chain (n :: ns) q ⊢ ⌜n.1 <> NULL⌝ ∧ chain (n :: ns) q.
Proof.
  simpl. iIntros "[Ha Hc]". iDestruct (pointsto_not_null with "Ha") as "[%Hn Ha]".
  iSplit; [done|]. iFrame.
Qed.

(** The first address of a chain is [NULL] iff there is no node. *)
Lemma chain_null ns :
  chain ns NULL ⊢ ⌜(first_addr ns NULL =? NULL) = match ns with [] => true | _ => false end⌝ ∧ chain ns NULL.
Proof.
  destruct ns as [|n ns].
  - iIntros "H". iSplit; [done|]. iFrame.
  - iIntros "H". iDestruct (chain_not_null with "H") as "[%Hn H]". iSplit; [|iFrame].
    iPureIntro. by apply Z.eqb_neq.
Qed.

(** ** Lists *)

Definition header_ok_for (l : slist) (ns : nodes) : Prop :=
  sl_size l = zlen ns /\ zlen ns < 2 ^ 32 /\ sl_head l = first_addr ns NULL /\
  sl_tail l = last_from NULL ns.

Definition slist_at (l : slist) (ns : nodes) : hpropI snode := (⌜header_ok_for l ns⌝ ∧ chain ns NULL)%I.

Section Facts.
Context `{HA : !NodeAlloc snode} `{HQ : !QSort} `{HL : !NodeAllocLaws snode}.
Implicit Types (l : slist) (ns : nodes).

(** *** Walking *)

Lemma walk_spec ns node q prev :
  node = first_addr ns q ->
  chain ns q ⊢ hwp (walk (length ns) node prev) (λ r, ⌜r = (q, last_from prev ns)⌝ ∧ chain ns q).
Proof.
  revert node prev. induction ns as [|n ns IH]; intros node prev ->; simpl.
  - iIntros "H". hret. iSplit; [done|]. iFrame.
  - iIntros "[Ha Hc]". hload "Ha".
    iApply hwp_wand. iSplitL "Hc"; [by iApply IH|]. iIntros (r) "[-> Hc]".
    iSplit; [by rw last_from_cons|]. iFrame.
Qed.

Lemma get_node_at_spec l ns1 n ns2 :
  slist_at l (ns1 ++ n :: ns2)
  ⊢ hwp (get_node_at l (zlen ns1)) (λ r, ⌜r = (CC_OK, n.1, last_from NULL ns1)⌝ ∧ slist_at l (ns1 ++ n :: ns2)).
Proof.
  iIntros "[%Hl Hc]". unfold get_node_at. destruct Hl as (Hs & Hb & Hh & Ht) eqn:El.
  rw (proj2 (Z.leb_gt _ _)); [|rw Hs length_app /=; lia]. rw Nat2Z.id.
  rw chain_app. iDestruct "Hc" as "[H1 H2]". iApply hwp_bind. iApply hwp_wand.
  iSplitL "H1"; [iApply (walk_spec ns1 _ n.1 with "H1"); by rw Hh first_addr_app|].
  iIntros (r) "[-> H1]". hret. iSplit; [done|]. iSplit; [done|]. rw chain_app. iFrame.
Qed.

Lemma get_node_at_out l ns i :
  zlen ns <= i ->
  slist_at l ns ⊢ hwp (get_node_at l i) (λ r, ⌜r = (CC_ERR_OUT_OF_RANGE, NULL, NULL)⌝ ∧ slist_at l ns).
Proof.
  iIntros (Hi) "[%Hl Hc]". unfold get_node_at. rw (proj2 (Z.leb_le _ _)); [|destruct Hl; lia].
  hret. iSplit; [done|]. by iSplit.
Qed.

(** The nodes before the first one that holds [x]. *)
Lemma seek_spec ns2 fuel x node prev :
  (length ns2 < fuel)%nat -> node = first_addr ns2 NULL ->
  chain ns2 NULL ⊢ hwp (seek fuel x node prev)
    (λ r, ⌜match list_find (fun n => n.2 = x) ns2 with
           | Some (k, n) => r = (CC_OK, n.1, last_from prev (take k ns2))
           | None => r = (CC_ERR_VALUE_NOT_FOUND, NULL, last_from prev ns2)
           end⌝ ∧ chain ns2 NULL).
Proof.
  revert fuel node prev. induction ns2 as [|n ns IH]; intros fuel node prev Hf ->;
    (destruct fuel as [|fuel]; [simpl in Hf; lia|]).
  - iIntros "H". simpl. hret. iSplit; [done|]. iFrame.
  - iIntros "Hc". iDestruct (chain_not_null with "Hc") as "[%Hn Hc]". cbn [seek first_addr].
    rw (proj2 (Z.eqb_neq _ _) Hn). iDestruct "Hc" as "[Ha Hc]". hload "Ha".
    cbn [list_find]. destruct (Z.eqb_spec n.2 x) as [E|E].
    + rw decide_True; [|done]. hret. iSplit; [done|]. cbn [chain]. iFrame.
    + rw decide_False; [|done]. iApply hwp_wand.
      iSplitL "Hc"; [iApply (IH with "Hc"); [simpl in Hf; lia|done]|]. iIntros (r) "[%Hr Hc]".
      iSplit; [|cbn [chain]; iFrame]. iPureIntro. destruct (list_find _ ns) as [[k m]|]; simpl in *.
      * by rw last_from_cons.
      * by rw last_from_cons.
Qed.

Lemma chain_fuel ns (Φ : nat -> hpropI snode) :
  chain ns NULL ∗ (∀ k, ⌜(length ns < k)%nat⌝ → chain ns NULL -∗ Φ k) ⊢ hwp heap_fuel Φ.
Proof.
  apply hwp_fuel. intros h Hh. by rw (chain_size _ _ _ Hh).
Qed.

Lemma get_node_spec l ns x :
  slist_at l ns ⊢ hwp (get_node l x)
    (λ r, ⌜match list_find (fun n => n.2 = x) ns with
           | Some (k, n) => r = (CC_OK, n.1, last_from NULL (take k ns))
           | None => r = (CC_ERR_VALUE_NOT_FOUND, NULL, last_from NULL ns)
           end⌝ ∧ slist_at l ns).
Proof.
  iIntros "[%Hl Hc]". unfold get_node. iApply hwp_bind. iApply chain_fuel. iFrame "Hc".
  iIntros (k Hk) "Hc". iApply hwp_wand. iSplitL "Hc"; [iApply (seek_spec with "Hc"); [done|apply Hl]|].
  iIntros (r) "[%Hr Hc]". iSplit; [done|]. by iSplit.
Qed.

(** *** Unlinking a node *)

Lemma header_unlink l ns1 n ns2 (sz hd tl : Z) :
  header_ok_for l (ns1 ++ n :: ns2) ->
  sz = u32 (sl_size l - 1) ->
  hd = first_addr (ns1 ++ ns2) NULL ->
  tl = last_from NULL (ns1 ++ ns2) ->
  header_ok_for (mk_slist sz hd tl) (ns1 ++ ns2).
Proof.
  intros (Hs & Hb & _) -> -> ->. rw length_app /= in Hs Hb. split_and!; hsimpl; [|rw length_app; lia|done|done].
  rw wrap_id; [rw Hs length_app; lia|unfold fits; lia].
Qed.

Lemma last_from_app p ns1 ns2 : last_from p (ns1 ++ ns2) = last_from (last_from p ns1) ns2.
Proof.
  revert p. induction ns1 as [|n ns1 IH]; intros p; [done|]. by rw -app_comm_cons !last_from_cons IH.
Qed.

Lemma unlink_spec l ns1 n ns2 :
  slist_at l (ns1 ++ n :: ns2)
  ⊢ hwp (unlinkn l n.1 (last_from NULL ns1)) (λ r, ⌜r.1 = n.2⌝ ∧ slist_at r.2 (ns1 ++ ns2)).
Proof.
  iIntros "[%Hl Hc]". unfold unlinkn. rw chain_mid. iDestruct "Hc" as "(H1 & Hn & H2)".
  pose proof Hl as (_ & _ & Hh & Ht). rw last_from_app last_from_cons in Ht.
  hload "Hn".
  iAssert (hwp (if negb (last_from NULL ns1 =? NULL)
                then update (last_from NULL ns1) (sn_set_next (first_addr ns2 NULL)) ;; mret l
                else mret (set_sl_head (first_addr ns2 NULL) l))
             (λ l', ⌜l' = mk_slist (sl_size l) (first_addr (ns1 ++ ns2) NULL) (sl_tail l)⌝ ∧
                    chain ns1 (first_addr ns2 NULL)))%I with "[H1]" as "Hif".
  { destruct ns1 as [|p ns1 _] using rev_ind.
    - hret. iSplit; [done|]. iFrame.
    - rw last_from_snoc. iEval (rw chain_snoc) in "H1". iDestruct "H1" as "[H1 Hp]".
      iDestruct (pointsto_not_null with "Hp") as "[%Hp Hp]". rw (proj2 (Z.eqb_neq _ _) Hp) /=.
      hupdate "Hp". hret. iSplit; [|rw chain_snoc; iFrame].
      iPureIntro. destruct l. simpl in *. f_equal. rw Hh. by rw !first_addr_app; destruct ns1. }
  iApply hwp_call. iFrame "Hif". iIntros (l') "[-> H1]".
  iDestruct (chain_null with "H2") as "[%Hz H2]".
  hload "Hn". hfree "Hn". hret. iSplit; [done|]. iSplit; [|rw chain_app; iFrame].
  iPureIntro. rw Hz. destruct ns2 as [|m ns2]; hsimpl; (apply (header_unlink l ns1 n); [done..|]).
  - by rw app_nil_r.
  - by rw Ht last_from_app !last_from_cons.
Qed.

(** *** Freeing all the nodes *)

Lemma unlink_loop_spec ns fuel node sz :
  (length ns < fuel)%nat -> node = first_addr ns NULL -> zlen ns <= sz < 2 ^ 32 ->
  chain ns NULL ⊢ hwp (unlink_loop fuel node sz) (λ r, ⌜r = (ns.*2, sz - zlen ns)⌝ ∧ emp).
Proof.
  revert fuel node sz. induction ns as [|n ns IH]; intros fuel node sz Hf -> Hsz;
    (destruct fuel as [|fuel]; [simpl in Hf; lia|]).
  - iIntros "H". simpl. hret. iSplit; [|done]. iPureIntro. f_equal. lia.
  - iIntros "Hc". iDestruct (chain_not_null with "Hc") as "[%Hn Hc]". cbn [unlink_loop first_addr].
    rw (proj2 (Z.eqb_neq _ _) Hn). iDestruct "Hc" as "[Ha Hc]". simpl in Hf, Hsz.
    hload "Ha". hfree "Ha". iApply hwp_call. iSplitL "Hc".
    { iApply (IH with "Hc"); [lia|done|]. rw wrap_id; [lia|unfold fits; lia]. }
    iIntros (r) "[-> _]". hret. iSplit; [|done]. iPureIntro. rw fmap_cons.
    f_equal. rw wrap_id; unfold fits; simpl; lia.
Qed.

Definition empty_list : slist := mk_slist 0 NULL NULL.

Lemma empty_list_at : emp ⊢ slist_at empty_list [].
Proof. iIntros "_". by iSplit. Qed.

Lemma unlinkn_all_spec l ns :
  ns <> [] ->
  slist_at l ns ⊢ hwp (unlinkn_all l) (λ r, ⌜r = (true, ns.*2, set_sl_size 0 l)⌝ ∧ emp).
Proof.
  iIntros (Hne) "[%Hl Hc]". destruct Hl as (Hs & Hb & Hh & Ht). unfold unlinkn_all.
  rw (proj2 (Z.eqb_neq _ _)); [|destruct ns; [done|simpl in Hs; lia]].
  iApply hwp_bind. iApply chain_fuel. iFrame "Hc". iIntros (k Hk) "Hc".
  iApply hwp_call. iSplitL "Hc"; [iApply (unlink_loop_spec with "Hc"); [done|done|lia]|].
  iIntros (r) "[-> _]". hret. iSplit; [|done]. iPureIntro. do 2 f_equal. lia.
Qed.

Lemma remove_all_cb_spec l ns :
  slist_at l ns ⊢ hwp (cc_slist_remove_all_cb l)
    (λ r, ⌜r.1 = (if ns is [] then CC_ERR_VALUE_NOT_FOUND else CC_OK, ns.*2)⌝ ∧ slist_at r.2 []).
Proof.
  destruct ns as [|n ns].
  - iIntros "[%Hl Hc]". destruct Hl as (Hs & Hb & Hh & Ht). unfold cc_slist_remove_all_cb, unlinkn_all.
    rw Hs /=. hskip. hret. iSplit; [done|]. by iSplit.
  - iIntros "H". iApply hwp_call. iSplitL; [iApply (unlinkn_all_spec with "H"); done|].
    iIntros (r) "[-> _]". hret. iSplit; [done|]. iApply empty_list_at. done.
Qed.

Lemma sremove_all_spec l ns :
  slist_at l ns ⊢ hwp (cc_slist_remove_all l)
    (λ r, ⌜r.1 = if ns is [] then CC_ERR_VALUE_NOT_FOUND else CC_OK⌝ ∧ slist_at r.2 []).
Proof.
  destruct ns as [|n ns].
  - iIntros "[%Hl Hc]". destruct Hl as (Hs & Hb & Hh & Ht). unfold cc_slist_remove_all, unlinkn_all.
    rw Hs /=. hskip. hret. iSplit; [done|]. by iSplit.
  - iIntros "H". iApply hwp_call. iSplitL; [iApply (unlinkn_all_spec with "H"); done|].
    iIntros (r) "[-> _]". hret. iSplit; [done|]. iApply empty_list_at. done.
Qed.

Lemma slist_at_nil l : slist_at l [] ⊢ emp.
Proof. by iIntros "[_ H]". Qed.

(** Destroying a list frees every node. *)
Lemma sdestroy_spec l ns : slist_at l ns ⊢ hwp (cc_slist_destroy l) (λ _, emp).
Proof.
  iIntros "H". iApply hwp_call. iSplitL; [iApply (sremove_all_spec with "H")|].
  iIntros (r) "[_ H]". hret. by iApply slist_at_nil.
Qed.

(** *** Adding a node *)

(** Memory ran out and nothing has changed, or the list has become [ns']. *)
Definition added l ns (P : nodes -> Prop) (r : cc_stat * slist) : hpropI snode :=
  ((⌜r = (CC_ERR_ALLOC, l)⌝ ∧ slist_at l ns) ∨
   (∃ ns', ⌜r.1 = CC_OK /\ P ns'⌝ ∧ slist_at r.2 ns'))%I.

Lemma new_node_spec (Φ : Z -> hpropI snode) :
  Φ NULL ∧ (∀ a, ⌜(a =? NULL) = false⌝ → a ↦ zero_node -∗ Φ a) ⊢ hwp node_calloc Φ.
Proof using HL.
  iIntros "H". iApply hwp_calloc. iSplit; [by iDestruct "H" as "[H _]"|].
  iIntros (a) "Ha". iDestruct (pointsto_not_null with "Ha") as "[%Hn Ha]".
  iDestruct "H" as "[_ H]". iApply "H"; [|done]. iPureIntro. by apply Z.eqb_neq.
Qed.

Lemma size_test l ns : header_ok_for l ns -> (sl_size l =? 0) = if ns is [] then true else false.
Proof. intros (-> & _). by destruct ns. Qed.

Lemma header_grow l ns ns' hd tl k :
  header_ok_for l ns -> zlen ns' = zlen ns + k -> 0 <= k -> zlen ns + k < 2 ^ 32 ->
  hd = first_addr ns' NULL -> tl = last_from NULL ns' ->
  header_ok_for (mk_slist (u32 (sl_size l + k)) hd tl) ns'.
Proof.
  intros (Hs & Hb & _) Hl Hk Hm -> ->. split_and!; hsimpl; [|lia|done|done].
  rw wrap_id; [lia|unfold fits; lia].
Qed.

Lemma add_first_spec l ns e :
  zlen ns + 1 < 2 ^ 32 ->
  slist_at l ns ⊢ hwp (cc_slist_add_first l e) (added l ns (fun ns' => ns'.*2 = e :: ns.*2)).
Proof using HL.
  iIntros (Hmax) "[%Hl Hc]". unfold cc_slist_add_first. iApply hwp_bind. iApply new_node_spec. iSplit.
  { rw Z.eqb_refl. hret. iLeft. iSplit; [done|]. by iSplit. }
  iIntros (a Ha) "Ha". rw Ha. hupdate "Ha". rw (size_test l ns Hl). pose proof Hl as (_ & _ & Hh & Ht).
  destruct ns as [|n ns].
  - hskip. hret. iRight. iExists [(a, e)]. iSplit; [done|]. iSplit; [|iDestruct "Hc" as "_"; simpl; iFrame].
    iPureIntro. hsimpl. by apply (header_grow l []).
  - iApply hwp_bind. hupdate "Ha". hret. hret. iRight. iExists ((a, e) :: n :: ns).
    iSplit; [done|]. iSplit; [|cbn [chain]; rw Hh; iFrame].
    iPureIntro. hsimpl. apply (header_grow l (n :: ns)); [done|simpl; lia|lia|done|done|].
    rw Ht. by rw !last_from_cons.
Qed.

Lemma add_last_spec l ns e :
  zlen ns + 1 < 2 ^ 32 ->
  slist_at l ns ⊢ hwp (cc_slist_add_last l e) (added l ns (fun ns' => ns'.*2 = ns.*2 ++ [e])).
Proof using HL.
  iIntros (Hmax) "[%Hl Hc]". unfold cc_slist_add_last. iApply hwp_bind. iApply new_node_spec. iSplit.
  { rw Z.eqb_refl. hret. iLeft. iSplit; [done|]. by iSplit. }
  iIntros (a Ha) "Ha". rw Ha. hupdate "Ha". rw (size_test l ns Hl). pose proof Hl as (_ & _ & Hh & Ht).
  destruct ns as [|n ns _] using rev_ind.
  - hskip. hret. iRight. iExists [(a, e)]. iSplit; [done|]. iSplit; [|iDestruct "Hc" as "_"; simpl; iFrame].
    iPureIntro. hsimpl. by apply (header_grow l []).
  - rw last_from_snoc in Ht. iEval (rw chain_snoc) in "Hc". iDestruct "Hc" as "[Hc Hn]".
    assert ((if ns ++ [n] is [] then true else false) = false) as -> by (by destruct ns).
    rw Ht. iApply hwp_bind. hupdate "Hn". hret. hret. iRight. iExists ((ns ++ [n]) ++ [(a, e)]).
    iSplit; [by rw fmap_app|]. iSplit; [|rw !chain_snoc; iFrame].
    iPureIntro. hsimpl. apply (header_grow l (ns ++ [n])); [done|rw length_app; simpl; lia|lia|done| |].
    + rw Hh. by rw !first_addr_app; destruct ns.
    + by rw last_from_snoc.
Qed.

Lemma add_at_spec l ns1 n ns2 e :
  zlen (ns1 ++ n :: ns2) + 1 < 2 ^ 32 ->
  slist_at l (ns1 ++ n :: ns2)
  ⊢ hwp (cc_slist_add_at l e (zlen ns1))
        (added l (ns1 ++ n :: ns2) (fun ns' => ns'.*2 = ns1.*2 ++ e :: (n :: ns2).*2)).
Proof using HL.
  iIntros (Hmax) "H". unfold cc_slist_add_at. iApply hwp_call.
  iSplitL; [iApply (get_node_at_spec with "H")|]. iIntros (r) "[-> [%Hl Hc]]".
  pose proof Hl as (_ & _ & Hh & Ht). hsimpl. simpl (negb _).
  iApply hwp_bind. iApply new_node_spec. iSplit.
  { rw Z.eqb_refl. hret. iLeft. iSplit; [done|]. by iSplit. }
  iIntros (a Ha) "Ha". rw Ha. hupdate "Ha".
  assert (forall ns', ns' = ns1 ++ (a, e) :: n :: ns2 ->
    ns'.*2 = ns1.*2 ++ e :: (n :: ns2).*2 /\ zlen ns' = zlen (ns1 ++ n :: ns2) + 1) as Hns.
  { intros ns' ->. rw fmap_app !length_app /=. split; [done|lia]. }
  destruct ns1 as [|p ns1 _] using rev_ind.
  - rw Z.eqb_refl. iApply hwp_bind. hupdate "Ha". hret. hret. iRight. iExists ((a, e) :: n :: ns2).
    iSplit; [done|]. iSplit; [|cbn [chain]; rw Hh; iFrame].
    iPureIntro. apply (header_grow l (n :: ns2)); [done|simpl; lia|lia|done|done|].
    rw Ht. by rw /= !last_from_cons.
  - rw last_from_snoc. iEval (rw chain_mid chain_snoc) in "Hc". iDestruct "Hc" as "([H1 Hp] & Hn & H2)".
    iDestruct (pointsto_not_null with "Hp") as "[%Hp Hp]". rw (proj2 (Z.eqb_neq _ _) Hp).
    iApply hwp_bind. hload "Hp". hupdate "Hp". hupdate "Ha". hret. hret.
    iRight. iExists ((ns1 ++ [p]) ++ (a, e) :: n :: ns2). iSplit; [by iPureIntro; split; [done|apply Hns]|].
    iSplit; [|rw chain_mid chain_snoc; cbn [chain]; iFrame].
    iPureIntro. apply (header_grow l ((ns1 ++ [p]) ++ n :: ns2)); [done|by apply Hns|lia|done| |].
    + rw Hh. by rw !first_addr_app; destruct ns1.
    + rw Ht. by rw !last_from_app !last_from_cons.
Qed.

(** *** Copies of nodes *)

Lemma free_chain_spec ns fuel h :
  (length ns < fuel)%nat -> h = first_addr ns NULL ->
  chain ns NULL ⊢ hwp (free_chain fuel h) (λ _, emp).
Proof.
  revert fuel h. induction ns as [|n ns IH]; intros fuel h Hf ->;
    (destruct fuel as [|fuel]; [simpl in Hf; lia|]).
  - iIntros "H". simpl. hret. by iStopProof.
  - iIntros "Hc". iDestruct (chain_not_null with "Hc") as "[%Hn Hc]". cbn [free_chain first_addr].
    rw (proj2 (Z.eqb_neq _ _) Hn). iDestruct "Hc" as "[Ha Hc]". hload "Ha". hfree "Ha".
    iApply (IH with "Hc"); [simpl in Hf; lia|done].
Qed.

Lemma link_loop_spec ms q done_ ins h t :
  ins = first_addr ms q -> h = first_addr done_ NULL -> t = last_from NULL done_ ->
  chain ms q ∗ chain done_ NULL
  ⊢ hwp (link_loop (length ms) ins h t)
      (λ r, chain ms q ∗
         ((⌜r.1.1 = false⌝ ∧ emp) ∨
          (∃ ns, ⌜r = (true, first_addr ns NULL, last_from NULL ns) /\ ns.*2 = done_.*2 ++ ms.*2⌝ ∧ chain ns NULL))).
Proof using HL.
  revert done_ ins h t. induction ms as [|m ms IH]; intros done_ ins h t -> Hh Ht; cbn [length link_loop].
  { iIntros "[Hm Hd]". hret. iFrame "Hm". iRight. iExists done_. iSplit; [|iFrame].
    iPureIntro. split; [by rw Hh Ht|by rw app_nil_r]. }
  iIntros "[[Ha Hm] Hd]". iApply hwp_bind. iApply new_node_spec. iSplit.
  - rw Z.eqb_refl. iApply hwp_bind. iApply chain_fuel. iFrame "Hd". iIntros (k Hk) "Hd".
    iApply hwp_call. iSplitL "Hd"; [by iApply (free_chain_spec with "Hd")|]. iIntros (_) "_".
    hret. cbn [chain]. iFrame. by iLeft.
  - iIntros (a Hn) "Hb". rw Hn. hload "Ha". hupdate "Hb".
    iApply hwp_call.
    iAssert (hwp (if h =? NULL then mret (a, a) else update t (sn_set_next a) ;; mret (h, a))
      (λ r, ⌜r = (first_addr (done_ ++ [(a, m.2)]) NULL, a)⌝ ∧ chain (done_ ++ [(a, m.2)]) NULL))%I
      with "[Hd Hb]" as "Hif".
    { iDestruct (chain_null with "Hd") as "[%Hz Hd]". rw Hh Hz.
      destruct done_ as [|d ds _] using rev_ind.
      - hret. iSplit; [done|]. simpl. iFrame.
      - assert ((if ds ++ [d] is [] then true else false) = false) as -> by (by destruct ds).
        rw last_from_snoc in Ht. iEval (rw chain_snoc) in "Hd". iDestruct "Hd" as "[Hd Hl]".
        rw Ht. hupdate "Hl". hret. iSplit; [|rw !chain_snoc; iFrame].
        iPureIntro. by rw !first_addr_app; destruct ds. }
    iFrame "Hif". iIntros (r) "[-> Hd]". iApply hwp_wand. iSplitL "Hm Hd".
    { iApply (IH (done_ ++ [(a, m.2)])); [done|done|by rw last_from_snoc|iFrame]. }
    iIntros (r) "[Hm Hr]". cbn [chain]. iFrame "Ha Hm". iDestruct "Hr" as "[Hr|(%ns & %Hns & Hr)]"; [by iLeft|].
    iRight. iExists ns. iSplit; [|done]. iPureIntro. destruct Hns as [-> ->]. by rw fmap_app -app_assoc.
Qed.

Lemma link_all_spec l ns :
  slist_at l ns
  ⊢ hwp (link_all_externally l)
      (λ r, slist_at l ns ∗
         ((⌜r.1.1 = false⌝ ∧ emp) ∨
          (∃ ms, ⌜r = (true, first_addr ms NULL, last_from NULL ms) /\ ms.*2 = ns.*2⌝ ∧ chain ms NULL))).
Proof using HL.
  iIntros "[%Hl Hc]". pose proof Hl as (Hs & _ & Hh & _). unfold link_all_externally. rw Hs Nat2Z.id.
  iApply hwp_wand. iSplitL.
  - iApply (link_loop_spec ns NULL []); [done..|]. iFrame.
  - iIntros (r) "[Hc Hr]". iSplitL "Hc"; [by iSplit|]. done.
Qed.

(** Linking a chain of nodes after the last node of a list. *)
Lemma last_from_some p ns : ns <> [] -> last_from p ns = last_from NULL ns.
Proof. destruct ns; [done|]. by rw !last_from_cons. Qed.

Lemma first_addr_some p ns : ns <> [] -> first_addr ns p = first_addr ns NULL.
Proof. by destruct ns. Qed.

Lemma append_spec l ns ms :
  ms <> [] ->
  slist_at l ns ∗ chain ms NULL
  ⊢ hwp (if sl_size l =? 0 then mret (set_sl_tail (last_from NULL ms) (set_sl_head (first_addr ms NULL) l))
         else update (sl_tail l) (sn_set_next (first_addr ms NULL)) ;; mret (set_sl_tail (last_from NULL ms) l))
      (λ l', ⌜l' = mk_slist (sl_size l) (first_addr (ns ++ ms) NULL) (last_from NULL (ns ++ ms))⌝ ∧
             chain (ns ++ ms) NULL).
Proof.
  iIntros (Hms) "[[%Hl Hc] Hm]". rw (size_test l ns Hl). pose proof Hl as (_ & _ & Hh & Ht).
  destruct ns as [|n ns _] using rev_ind.
  - iDestruct "Hc" as "_". hret. by iSplit.
  - assert ((if ns ++ [n] is [] then true else false) = false) as -> by (by destruct ns).
    rw last_from_snoc in Ht. rw Ht. iEval (rw chain_snoc) in "Hc". iDestruct "Hc" as "[Hc Hn]".
    hupdate "Hn". hret. iSplit.
    + iPureIntro. unfold set_sl_tail. f_equal; [by rw Hh !first_addr_app; destruct ns|by rw last_from_app last_from_some].
    + rw chain_app chain_snoc. iFrame.
Qed.

Lemma add_all_spec l1 ns l2 ms :
  zlen ns + zlen ms < 2 ^ 32 ->
  slist_at l1 ns ∗ slist_at l2 ms
  ⊢ hwp (cc_slist_add_all l1 l2) (λ r, added l1 ns (fun ns' => ns'.*2 = ns.*2 ++ ms.*2) r ∗ slist_at l2 ms).
Proof using HL.
  iIntros (Hmax) "[H1 H2]". unfold cc_slist_add_all. iDestruct "H2" as "[%Hl2 H2]".
  rw (size_test l2 ms Hl2). destruct ms as [|m ms]; cbn iota.
  { hret. iSplitL "H1"; [|by iSplit]. iRight. iExists ns. iSplit; [|done]. by rw app_nil_r. }
  iAssert (slist_at l2 (m :: ms)) with "[H2]" as "H2"; [by iSplit|].
  iApply hwp_call. iSplitL "H2"; [iApply (link_all_spec with "H2")|]. iIntros (r) "[H2 Hr]".
  iDestruct "Hr" as "[[%Hr _]|(%ks & %Hr & Hk)]"; last destruct Hr as [-> Hks].
  { destruct r as [[ok h] t]. simpl in Hr. subst ok. simpl (negb _). hret. iFrame "H2". iLeft. by iSplit. }
  simpl (negb _). iDestruct "H1" as "[%Hl1 H1]".
  assert (ks <> []) as Hne by (intros ->; done).
  iApply hwp_call. iSplitL "H1 Hk"; [iApply (append_spec l1 ns ks); [done|]; iFrame; by iSplit|].
  iIntros (l') "[-> Hc]". hret. iFrame "H2". iRight. iExists (ns ++ ks). iSplit; [by rw fmap_app Hks|].
  iSplit; [|done]. iPureIntro. hsimpl. apply (f_equal length) in Hks. rw !length_fmap in Hks.
  replace (sl_size l2) with (zlen ks) by (destruct Hl2; lia).
  apply (header_grow l1 ns); [done|rw length_app; lia|lia|simpl in *; lia|done|done].
Qed.

(** Linking a chain of nodes before a node. *)
Lemma header_mid l ns1 ns2 ms :
  header_ok_for l (ns1 ++ ns2) -> zlen (ns1 ++ ns2) + zlen ms < 2 ^ 32 -> ns2 <> [] ->
  header_ok_for (mk_slist (u32 (sl_size l + zlen ms)) (first_addr (ns1 ++ ms ++ ns2) NULL) (sl_tail l))
    (ns1 ++ ms ++ ns2).
Proof.
  intros Hl Hm Hne. apply (header_grow l (ns1 ++ ns2)); [done| |lia|done|done|].
  - rw !length_app. lia.
  - destruct Hl as (_ & _ & _ & ->). rw !last_from_app. by rw !(last_from_some _ ns2).
Qed.

Lemma add_all_at_spec l1 ns1 n ns2 l2 ms :
  zlen (ns1 ++ n :: ns2) + zlen ms < 2 ^ 32 ->
  slist_at l1 (ns1 ++ n :: ns2) ∗ slist_at l2 ms
  ⊢ hwp (cc_slist_add_all_at l1 l2 (zlen ns1))
      (λ r, added l1 (ns1 ++ n :: ns2) (fun ns' => ns'.*2 = ns1.*2 ++ ms.*2 ++ (n :: ns2).*2) r ∗ slist_at l2 ms).
Proof using HL.
  iIntros (Hmax) "[H1 H2]". unfold cc_slist_add_all_at. iDestruct "H2" as "[%Hl2 H2]".
  rw (size_test l2 ms Hl2). destruct ms as [|m ms]; cbn iota.
  { hret. iSplitL "H1"; [|by iSplit]. iRight. iExists _. iSplit; [|done]. by rw fmap_app. }
  iAssert (slist_at l2 (m :: ms)) with "[H2]" as "H2"; [by iSplit|].
  iApply hwp_call. iSplitL "H1"; [iApply (get_node_at_spec with "H1")|]. iIntros (r) "[-> H1]".
  simpl (negb _).
  iApply hwp_call. iSplitL "H2"; [iApply (link_all_spec with "H2")|]. iIntros (r) "[H2 Hr]".
  iDestruct "Hr" as "[[%Hr _]|(%ks & %Hr & Hk)]"; last destruct Hr as [-> Hks].
  { destruct r as [[ok h] t]. simpl in Hr. subst ok. simpl (negb _). hret. iFrame "H2". iLeft. by iSplit. }
  simpl (negb _). iDestruct "H1" as "[%Hl1 H1]". pose proof Hl1 as (_ & _ & Hh & Ht).
  assert (ks <> []) as Hne by (intros ->; done).
  pose proof (f_equal length Hks) as Hlen. rw !length_fmap in Hlen.
  iAssert (hwp (if last_from NULL ns1 =? NULL
                then update (last_from NULL ks) (sn_set_next n.1) ;; mret (set_sl_head (first_addr ks NULL) l1)
                else update (last_from NULL ns1) (sn_set_next (first_addr ks NULL)) ;;
                     update (last_from NULL ks) (sn_set_next n.1) ;; mret l1)
    (λ l', ⌜l' = mk_slist (sl_size l1) (first_addr (ns1 ++ ks ++ n :: ns2) NULL) (sl_tail l1)⌝ ∧
           chain (ns1 ++ ks ++ n :: ns2) NULL))%I with "[H1 Hk]" as "Hif".
  { destruct ks as [|k ks _] using rev_ind; [done|]. rw last_from_snoc.
    iEval (rw chain_snoc) in "Hk". iDestruct "Hk" as "[Hk Hl]".
    destruct ns1 as [|p ns1 _] using rev_ind.
    - rw Z.eqb_refl. hupdate "Hl". hret. iSplit; [iPureIntro|].
      + f_equal. by rw !first_addr_app; destruct ks.
      + iEval (rw app_nil_l chain_app chain_snoc). iFrame "Hk Hl". iExact "H1".
    - rw last_from_snoc. iEval (rw chain_app chain_snoc) in "H1". iDestruct "H1" as "[[H1 Hp] H2]".
      iDestruct (pointsto_not_null with "Hp") as "[%Hp Hp]". rw (proj2 (Z.eqb_neq _ _) Hp).
      hupdate "Hp". hupdate "Hl". hret. iSplit; [iPureIntro|].
      + destruct l1. simpl in *. f_equal. rw Hh. by rw !first_addr_app; destruct ns1.
      + iEval (rw chain_app chain_snoc (chain_app (ks ++ [k])) chain_snoc).
        rw !first_addr_app. destruct ks; iFrame. }
  iApply hwp_call. iFrame "Hif". iIntros (l') "[-> Hc]". hret. iFrame "H2". iRight. iExists _.
  iSplit; [|iSplit; [|iExact "Hc"]].
  - iPureIntro. split; [done|]. by rw !fmap_app Hks.
  - iPureIntro. replace (sl_size l2) with (zlen ks) by (destruct Hl2; lia).
    unfold set_sl_size; hsimpl. apply header_mid; [done|simpl in *; lia|done].
Qed.

(** *** Splicing *)

Lemma splice_spec l1 ns l2 ms :
  zlen ns + zlen ms < 2 ^ 32 ->
  slist_at l1 ns ∗ slist_at l2 ms
  ⊢ hwp (cc_slist_splice l1 l2)
      (λ r, ⌜r.1.1 = CC_OK⌝ ∧ (slist_at r.1.2 (ns ++ ms) ∗ slist_at r.2 [])).
Proof.
  iIntros (Hmax) "[H1 [%Hl2 H2]]". unfold cc_slist_splice. rw (size_test l2 ms Hl2).
  destruct ms as [|m ms]; cbn iota.
  { hret. iSplit; [done|]. rw app_nil_r. iFrame "H1". by iSplit. }
  pose proof Hl2 as (Hs2 & _ & Hh2 & Ht2). rw Hh2 Ht2. iDestruct "H1" as "[%Hl1 H1]".
  iApply hwp_call. iSplitL.
  { iApply (append_spec l1 ns (m :: ms)); [done|]. iFrame. by iSplit. }
  iIntros (l') "[-> Hc]". hret. iSplit; [done|]. iSplitL; [|by iApply empty_list_at].
  iSplit; [|done]. iPureIntro. unfold set_sl_size. hsimpl. rw Hs2.
  apply (header_grow l1 ns); [done|rw length_app; lia|lia|done|done|done].
Qed.

Lemma splice_at_spec l1 ns1 n ns2 l2 ms :
  zlen (ns1 ++ n :: ns2) + zlen ms < 2 ^ 32 ->
  slist_at l1 (ns1 ++ n :: ns2) ∗ slist_at l2 ms
  ⊢ hwp (cc_slist_splice_at l1 l2 (zlen ns1))
      (λ r, ⌜r.1.1 = CC_OK⌝ ∧ (slist_at r.1.2 (ns1 ++ ms ++ n :: ns2) ∗ slist_at r.2 [])).
Proof.
  iIntros (Hmax) "[H1 [%Hl2 H2]]". unfold cc_slist_splice_at. rw (size_test l2 ms Hl2).
  destruct ms as [|m ms _] using rev_ind; [|assert ((if ms ++ [m] is [] then true else false) = false) as -> by (by destruct ms)].
  { hret. iSplit; [done|]. iFrame "H1". by iSplit. }
  iDestruct "H1" as "[%Hl1 H1]". pose proof Hl1 as (Hs1 & _ & Hh1 & Ht1).
  pose proof Hl2 as (Hs2 & _ & Hh2 & Ht2). rw last_from_snoc in Ht2.
  rw (proj2 (Z.leb_gt _ _)); [|rw Hs1 length_app /=; lia].
  iApply hwp_call. iSplitL "H1"; [iApply (get_node_at_spec l1 ns1 n ns2); by iSplit|].
  iIntros (r) "[-> [_ H1]]". simpl (negb _). unfold splice_between. rw Hh2 Ht2.
  iAssert (hwp (if last_from NULL ns1 =? NULL
                then update m.1 (sn_set_next (sl_head l1)) ;; mret (set_sl_head (first_addr (ms ++ [m]) NULL) l1)
                else if n.1 =? NULL
                then update (sl_tail l1) (sn_set_next (first_addr (ms ++ [m]) NULL)) ;; mret (set_sl_tail m.1 l1)
                else update (last_from NULL ns1) (sn_set_next (first_addr (ms ++ [m]) NULL)) ;;
                     update m.1 (sn_set_next n.1) ;; mret l1)
    (λ l', ⌜l' = mk_slist (sl_size l1) (first_addr (ns1 ++ (ms ++ [m]) ++ n :: ns2) NULL) (sl_tail l1)⌝ ∧
           chain (ns1 ++ (ms ++ [m]) ++ n :: ns2) NULL))%I with "[H1 H2]" as "Hif".
  { iEval (rw chain_snoc) in "H2". iDestruct "H2" as "[H2 Hl]".
    destruct ns1 as [|p ns1 _] using rev_ind.
    - rw Z.eqb_refl. hupdate "Hl". hret. iSplit; [iPureIntro|].
      + unfold set_sl_head. f_equal. by rw !first_addr_app; destruct ms.
      + iEval (rw app_nil_l chain_app chain_snoc). rw Hh1. iFrame "H2 Hl". iExact "H1".
    - rw last_from_snoc. iEval (rw chain_app chain_snoc) in "H1". iDestruct "H1" as "[[H1 Hp] Hn]".
      iDestruct (pointsto_not_null with "Hp") as "[%Hp Hp]". rw (proj2 (Z.eqb_neq _ _) Hp).
      iDestruct (chain_not_null with "Hn") as "[%Hn Hn]". rw (proj2 (Z.eqb_neq _ _) Hn).
      hupdate "Hp". hupdate "Hl". hret. iSplit; [iPureIntro|].
      + destruct l1. simpl in *. f_equal. rw Hh1. by rw !first_addr_app; destruct ns1.
      + iEval (rw chain_app chain_snoc (chain_app (ms ++ [m])) chain_snoc).
        rw !first_addr_app. destruct ms; iFrame. }
  iApply hwp_bind. iApply hwp_call. iFrame "Hif". iIntros (l') "[-> Hc]". hret. hret. iSplit; [done|].
  iSplitL; [|by iApply empty_list_at]. iSplit; [|done]. iPureIntro. unfold set_sl_size. hsimpl. rw Hs2.
  apply header_mid; [done|lia|done].
Qed.

(** *** Removing and reading *)

Lemma remove_at_spec l ns1 n ns2 :
  slist_at l (ns1 ++ n :: ns2)
  ⊢ hwp (cc_slist_remove_at l (zlen ns1)) (λ r, ⌜r.1 = (CC_OK, Some n.2)⌝ ∧ slist_at r.2 (ns1 ++ ns2)).
Proof.
  iIntros "H". iApply hwp_call. iSplitL; [iApply (get_node_at_spec with "H")|].
  iIntros (r) "[-> H]". simpl (negb _). iApply hwp_call. iSplitL; [iApply (unlink_spec with "H")|].
  iIntros ([x l']) "[%Hx H]". simpl in Hx. subst x. hret. by iSplit.
Qed.

Lemma sremove_spec l ns x :
  slist_at l ns
  ⊢ hwp (cc_slist_remove l x)
      (λ r, match list_find (fun n => n.2 = x) ns with
            | Some (k, n) => ⌜r.1 = (CC_OK, Some n.2)⌝ ∧ slist_at r.2 (take k ns ++ drop (S k) ns)
            | None => ⌜r.1 = (CC_ERR_VALUE_NOT_FOUND, None)⌝ ∧ slist_at r.2 ns
            end).
Proof.
  iIntros "H". iApply hwp_call. iSplitL; [iApply (get_node_spec with "H")|].
  iIntros (r) "[%Hr H]". destruct (list_find _ ns) as [[k n]|] eqn:E; subst r; simpl (negb _).
  - apply list_find_Some in E as (Hk & _ & _).
    iApply hwp_call. iSplitL; [iApply (unlink_spec l (take k ns) n (drop (S k) ns)); by rw take_drop_middle|].
    iIntros ([y l']) "[%Hy H]". simpl in Hy. subst y. hret. by iSplit.
  - hret. by iSplit.
Qed.

Lemma remove_first_spec l ns :
  slist_at l ns
  ⊢ hwp (cc_slist_remove_first l)
      (λ r, match ns with
            | [] => ⌜r.1 = (CC_ERR_VALUE_NOT_FOUND, None)⌝ ∧ slist_at r.2 ns
            | n :: ns => ⌜r.1 = (CC_OK, Some n.2)⌝ ∧ slist_at r.2 ns
            end).
Proof.
  iIntros "[%Hl H]". unfold cc_slist_remove_first. rw (size_test l ns Hl).
  pose proof Hl as (_ & _ & Hh & _). destruct ns as [|n ns].
  - hret. iSplit; [done|]. by iSplit.
  - iApply hwp_call. rw Hh. iSplitL; [iApply (unlink_spec l [] n ns); by iSplit|].
    iIntros ([x l']) "[%Hx H]". simpl in Hx. subst x. hret. by iSplit.
Qed.

Lemma remove_last_spec l ns n :
  slist_at l (ns ++ [n])
  ⊢ hwp (cc_slist_remove_last l) (λ r, ⌜r.1 = (CC_OK, Some n.2)⌝ ∧ slist_at r.2 ns).
Proof.
  iIntros "[%Hl H]". unfold cc_slist_remove_last. rw (size_test l _ Hl).
  assert ((if ns ++ [n] is [] then true else false) = false) as -> by (by destruct ns).
  assert (u32 (sl_size l - 1) = zlen ns) as ->.
  { destruct Hl as (-> & Hb & _). rw length_app /= in Hb |- *. rw wrap_id; [lia|unfold fits; lia]. }
  iApply hwp_call. iSplitL; [iApply (get_node_at_spec l ns n []); by iSplit|].
  iIntros (r) "[-> H]". simpl (negb _). iApply hwp_call. iSplitL; [iApply (unlink_spec with "H")|].
  iIntros ([x l']) "[%Hx H]". simpl in Hx. subst x. hret. iSplit; [done|]. by rw app_nil_r.
Qed.

Lemma remove_last_empty l :
  slist_at l [] ⊢ hwp (cc_slist_remove_last l) (λ r, ⌜r.1 = (CC_ERR_VALUE_NOT_FOUND, None)⌝ ∧ slist_at r.2 []).
Proof.
  iIntros "[%Hl H]". unfold cc_slist_remove_last. rw (size_test l _ Hl). hret.
  iSplit; [done|]. by iSplit.
Qed.

Lemma header_same_shape l ns1 n m ns2 :
  n.1 = m.1 -> header_ok_for l (ns1 ++ n :: ns2) -> header_ok_for l (ns1 ++ m :: ns2).
Proof.
  intros E (H1 & H2 & H3 & H4). rw !length_app /= in H1 H2. split_and!.
  - by rw length_app.
  - by rw length_app.
  - rw H3 !first_addr_app /=. by rw E.
  - rw H4 !last_from_app !last_from_cons. by rw E.
Qed.

Lemma replace_at_spec l ns1 n ns2 e :
  slist_at l (ns1 ++ n :: ns2)
  ⊢ hwp (cc_slist_replace_at l e (zlen ns1))
      (λ r, ⌜r.1 = (CC_OK, Some n.2)⌝ ∧ slist_at r.2 (ns1 ++ (n.1, e) :: ns2)).
Proof.
  iIntros "H". iApply hwp_call. iSplitL; [iApply (get_node_at_spec with "H")|].
  iIntros (r) "[-> [%Hl H]]". simpl (negb _). iEval (rw chain_mid) in "H".
  iDestruct "H" as "(H1 & Hn & H2)". hload "Hn". hupdate "Hn". hret. iSplit; [done|]. iSplit.
  - iPureIntro. by eapply header_same_shape; last exact Hl.
  - rw (chain_mid ns1 (n.1, e)). iFrame.
Qed.

Lemma get_at_spec l ns1 n ns2 :
  slist_at l (ns1 ++ n :: ns2)
  ⊢ hwp (cc_slist_get_at l (zlen ns1)) (λ r, ⌜r = (CC_OK, Some n.2, l)⌝ ∧ slist_at l (ns1 ++ n :: ns2)).
Proof.
  iIntros "H". iApply hwp_call. iSplitL; [iApply (get_node_at_spec with "H")|].
  iIntros (r) "[-> [%Hl H]]". simpl (negb _). iEval (rw chain_mid) in "H".
  iDestruct "H" as "(H1 & Hn & H2)". hload "Hn". hret. iSplit; [done|]. iSplit; [done|].
  rw chain_mid. iFrame.
Qed.

Lemma get_first_spec l ns :
  slist_at l ns
  ⊢ hwp (cc_slist_get_first l)
      (λ r, ⌜r = (match ns with [] => (CC_ERR_VALUE_NOT_FOUND, None) | n :: _ => (CC_OK, Some n.2) end, l)⌝ ∧
            slist_at l ns).
Proof.
  iIntros "[%Hl H]". unfold cc_slist_get_first. rw (size_test l ns Hl).
  pose proof Hl as (_ & _ & Hh & _). destruct ns as [|n ns].
  - hret. iSplit; [done|]. by iSplit.
  - rw Hh. iDestruct "H" as "[Hn H]". hload "Hn". hret. iSplit; [done|]. iSplit; [done|]. cbn [chain]. iFrame.
Qed.

Lemma get_last_spec l ns :
  slist_at l ns
  ⊢ hwp (cc_slist_get_last l)
      (λ r, ⌜r = (match list.last ns with None => (CC_ERR_VALUE_NOT_FOUND, None) | Some n => (CC_OK, Some n.2) end, l)⌝ ∧
            slist_at l ns).
Proof.
  iIntros "[%Hl H]". unfold cc_slist_get_last. rw (size_test l ns Hl).
  pose proof Hl as (_ & _ & _ & Ht). destruct ns as [|n ns _] using rev_ind.
  - hret. iSplit; [done|]. by iSplit.
  - assert ((if ns ++ [n] is [] then true else false) = false) as -> by (by destruct ns).
    rw last_from_snoc in Ht. rw Ht. iEval (rw chain_snoc) in "H". iDestruct "H" as "[H Hn]".
    hload "Hn". hret. iSplit; [by rw last_snoc|]. iSplit; [done|]. rw chain_snoc. iFrame.
Qed.

(** *** Reversal *)

Lemma flip_spec ns done_ fuel flip prev :
  (length ns < fuel)%nat -> flip = first_addr ns NULL -> prev = first_addr done_ NULL ->
  chain ns NULL ∗ chain done_ NULL
  ⊢ hwp (flip_loop fuel flip prev)
      (λ r, ⌜r = first_addr (reverse ns ++ done_) NULL⌝ ∧ chain (reverse ns ++ done_) NULL).
Proof.
  revert done_ fuel flip prev. induction ns as [|n ns IH]; intros done_ fuel flip prev Hf -> ->;
    (destruct fuel as [|fuel]; [simpl in Hf; lia|]).
  - iIntros "[_ H]". simpl. hret. by iSplit.
  - iIntros "[Hc Hd]". iDestruct (chain_not_null with "Hc") as "[%Hn Hc]". cbn [flip_loop first_addr].
    rw (proj2 (Z.eqb_neq _ _) Hn). iDestruct "Hc" as "[Ha Hc]". hload "Ha". hupdate "Ha".
    rw reverse_cons -app_assoc. iApply (IH (n :: done_)); [simpl in Hf; lia|done|done|].
    cbn [chain]. iFrame.
Qed.

Lemma last_first p ns : last_from p ns = first_addr (reverse ns) p.
Proof.
  destruct ns as [|n ns _] using rev_ind; [done|]. by rw last_from_snoc reverse_app.
Qed.

Lemma reverse_spec l ns :
  slist_at l ns ⊢ hwp (cc_slist_reverse l) (λ l', slist_at l' (reverse ns)).
Proof.
  iIntros "[%Hl H]". unfold cc_slist_reverse. pose proof Hl as (Hs & Hb & Hh & Ht).
  destruct (decide (length ns <= 1)%nat) as [Hle|Hgt].
  - assert (((sl_size l =? 0) || (sl_size l =? 1)) = true) as ->.
    { rw Hs. destruct ns as [|? [|? ?]]; [done|done|simpl in Hle; lia]. }
    hret. assert (reverse ns = ns) as -> by (by destruct ns as [|? [|? ?]]; [| |simpl in Hle; lia]).
    by iSplit.
  - assert (((sl_size l =? 0) || (sl_size l =? 1)) = false) as ->.
    { rw Hs. apply orb_false_intro; apply Z.eqb_neq; lia. }
    iApply hwp_bind. iApply chain_fuel. iFrame "H". iIntros (k Hk) "H".
    iApply hwp_call. iSplitL "H".
    { iApply (flip_spec ns [] k); [done|done|done|]. iFrame. }
    iIntros (r) "[-> H]". rw app_nil_r. hret. iSplit; [|done]. iPureIntro. split_and!; hsimpl.
    + by rw length_reverse.
    + by rw length_reverse.
    + done.
    + rw Hh last_first reverse_involutive //.
Qed.

(** *** Reading all the elements *)

Lemma fold_nodes_spec {A} (f : A -> Z -> A) ns x fuel node :
  (length ns < fuel)%nat -> node = first_addr ns NULL ->
  chain ns NULL ⊢ hwp (fold_nodes fuel f x node) (λ r, ⌜r = foldl f x ns.*2⌝ ∧ chain ns NULL).
Proof.
  revert x fuel node. induction ns as [|n ns IH]; intros x fuel node Hf ->;
    (destruct fuel as [|fuel]; [simpl in Hf; lia|]).
  - iIntros "H". simpl. hret. by iSplit.
  - iIntros "Hc". iDestruct (chain_not_null with "Hc") as "[%Hn Hc]". cbn [fold_nodes first_addr].
    rw (proj2 (Z.eqb_neq _ _) Hn). iDestruct "Hc" as "[Ha Hc]". hload "Ha".
    iApply hwp_wand. iSplitL "Hc"; [iApply (IH with "Hc"); [simpl in Hf; lia|done]|].
    iIntros (r) "[-> Hc]". iSplit; [done|]. cbn [chain]. iFrame.
Qed.

Lemma fold_spec {A} (f : A -> Z -> A) x l ns :
  slist_at l ns ⊢ hwp (fold_slist f x l) (λ r, ⌜r = foldl f x ns.*2⌝ ∧ slist_at l ns).
Proof.
  iIntros "[%Hl H]". iApply hwp_bind. iApply chain_fuel. iFrame "H". iIntros (k Hk) "H".
  iApply hwp_wand. iSplitL; [iApply (fold_nodes_spec with "H"); [done|apply Hl]|].
  iIntros (r) "[-> H]". iSplit; [done|]. by iSplit.
Qed.

(** The counting loops count. *)
Lemma index_nodes_spec ns x fuel node i :
  (length ns < fuel)%nat -> node = first_addr ns NULL -> 0 <= i -> i + zlen ns < 2 ^ 32 ->
  chain ns NULL ⊢ hwp (index_nodes fuel x node i)
    (λ r, ⌜r = match list_find (fun y => y = x) ns.*2 with
               | Some (k, _) => (CC_OK, Some (i + Z.of_nat k)%Z) | None => (CC_ERR_OUT_OF_RANGE, None) end⌝ ∧
          chain ns NULL).
Proof.
  revert fuel node i. induction ns as [|n ns IH]; intros fuel node i Hf -> Hi Hb;
    (destruct fuel as [|fuel]; [simpl in Hf; lia|]).
  - iIntros "H". simpl. hret. by iSplit.
  - iIntros "Hc". iDestruct (chain_not_null with "Hc") as "[%Hn Hc]". cbn [index_nodes first_addr].
    rw (proj2 (Z.eqb_neq _ _) Hn). iDestruct "Hc" as "[Ha Hc]". hload "Ha". simpl in Hf, Hb.
    rw fmap_cons. cbn [list_find]. destruct (Z.eqb_spec n.2 x) as [E|E].
    + rw decide_True; [|done]. hret. iSplit; [iPureIntro; do 2 f_equal; lia|]. cbn [chain]. iFrame.
    + rw decide_False; [|done]. iApply hwp_wand. rw (wrap_id 32 (i + 1)); [|unfold fits; lia].
      iSplitL "Hc"; [iApply (IH with "Hc"); [lia|done|lia|lia]|].
      iIntros (r) "[-> Hc]". iSplit; [|cbn [chain]; iFrame]. iPureIntro.
      destruct (list_find _ ns.*2) as [[k y]|]; simpl; [|done]. do 2 f_equal. lia.
Qed.

Lemma index_of_spec l ns x :
  slist_at l ns ⊢ hwp (cc_slist_index_of l x)
    (λ r, ⌜r = match list_find (fun y => y = x) ns.*2 with
               | Some (k, _) => (CC_OK, Some (Z.of_nat k)) | None => (CC_ERR_OUT_OF_RANGE, None) end⌝ ∧
          slist_at l ns).
Proof.
  iIntros "[%Hl H]". iApply hwp_bind. iApply chain_fuel. iFrame "H". iIntros (k Hk) "H".
  iApply hwp_wand. iSplitL; [iApply (index_nodes_spec with "H"); [done|apply Hl|done|]|].
  { destruct Hl. lia. }
  iIntros (r) "[-> H]". iSplit; [done|]. by iSplit.
Qed.

Lemma read_nodes_spec ns q node :
  node = first_addr ns q ->
  chain ns q ⊢ hwp (read_nodes (length ns) node) (λ r, ⌜r = ns.*2⌝ ∧ chain ns q).
Proof.
  revert node. induction ns as [|n ns IH]; intros node ->; simpl.
  - iIntros "H". hret. by iSplit.
  - iIntros "[Ha Hc]". hload "Ha". iApply hwp_call. iSplitL "Hc"; [by iApply (IH with "Hc")|].
    iIntros (r) "[-> Hc]". hret. iSplit; [done|]. iFrame.
Qed.

Lemma to_array_spec l ns :
  slist_at l ns ⊢ hwp (cc_slist_to_array l)
    (λ r, ⌜r = (CC_ERR_ALLOC, []) \/ r = (CC_OK, ns.*2)⌝ ∧ slist_at l ns).
Proof.
  iIntros "[%Hl H]". pose proof Hl as (Hs & _ & Hh & _). unfold cc_slist_to_array.
  iApply hwp_bind. iApply hwp_gets. iIntros (ok). destruct ok; simpl (negb _); cbn iota.
  - rw Hs Nat2Z.id. iApply hwp_call. iSplitL; [by iApply (read_nodes_spec with "H")|].
    iIntros (r) "[-> H]". hret. iSplit; [iPureIntro; by right|]. by iSplit.
  - hret. iSplit; [iPureIntro; by left|]. by iSplit.
Qed.

Lemma write_nodes_spec xs ns q node :
  length xs = length ns -> node = first_addr ns q ->
  chain ns q ⊢ hwp (write_nodes xs node) (λ _, chain (zip ns.*1 xs) q).
Proof.
  revert ns node. induction xs as [|x xs IH]; intros [|n ns] node Hlen -> ; try done; simpl.
  - iIntros "H". hret. done.
  - iIntros "[Ha Hc]". hupdate "Ha". hload "Ha". iApply hwp_wand.
    iSplitL "Hc"; [iApply (IH with "Hc"); [by injection Hlen|done]|]. iIntros (_) "Hc".
    change (list_fmap (Z * Z)%type Z fst ns) with ns.*1.
    assert (first_addr (zip ns.*1 xs) q = first_addr ns q) as ->; [by destruct ns, xs|iFrame].
Qed.

(** Reading a node of a list. *)
Lemma load_node l ns1 n ns2 (Φ : snode -> hpropI snode) :
  slist_at l (ns1 ++ n :: ns2) ∗
  (slist_at l (ns1 ++ n :: ns2) -∗ Φ (mk_snode n.2 (first_addr ns2 NULL))) ⊢ hwp (load n.1) Φ.
Proof.
  iIntros "[[%Hl H] HΦ]". iEval (rw chain_mid) in "H". iDestruct "H" as "(H1 & Hn & H2)".
  iApply hwp_load. iFrame "Hn". iIntros "Hn". iApply "HΦ". iSplit; [done|]. rw chain_mid. iFrame.
Qed.

Lemma slist_not_null l ns1 n ns2 :
  slist_at l (ns1 ++ n :: ns2) ⊢ ⌜(n.1 =? NULL) = false⌝ ∧ slist_at l (ns1 ++ n :: ns2).
Proof.
  iIntros "[%Hl H]". iEval (rw chain_mid) in "H". iDestruct "H" as "(H1 & Hn & H2)".
  iDestruct (pointsto_not_null with "Hn") as "[%Hz Hn]".
  iSplit; [iPureIntro; by apply Z.eqb_neq|]. iSplit; [done|]. rw chain_mid. iFrame.
Qed.

(** *** Filtering in place *)

Lemma filter_mut_nodes_spec (p : Z -> bool) ns ks fuel curr prev l :
  (length ns < fuel)%nat -> curr = first_addr ns NULL -> prev = last_from NULL ks ->
  slist_at l (ks ++ ns)
  ⊢ hwp (filter_mut_nodes fuel p curr prev l) (λ l', slist_at l' (ks ++ filter (fun n => p n.2 = true) ns)).
Proof.
  revert ks fuel curr prev l. induction ns as [|n ns IH]; intros ks fuel curr prev l Hf -> ->;
    (destruct fuel as [|fuel]; [simpl in Hf; lia|]).
  - iIntros "H". simpl. hret. done.
  - simpl in Hf. iIntros "H". iDestruct (slist_not_null with "H") as "[%Hn H]".
    cbn [filter_mut_nodes first_addr]. rw Hn. iApply hwp_bind. iApply load_node. iFrame "H". iIntros "H".
    hsimpl. destruct (p n.2) eqn:Ep; cbn [negb].
    + rw filter_cons_True; [|done].
      iApply hwp_wand. iSplitL; [iApply (IH (ks ++ [n])); [lia|done|by rw last_from_snoc|]|].
      * by rw -app_assoc.
      * iIntros (l') "H". by rw -app_assoc.
    + rw filter_cons_False; [|by rw Ep]. iApply hwp_call. iSplitL; [iApply (unlink_spec with "H")|].
      iIntros (r) "[_ H]". iApply (IH ks with "H"); [lia|done|done].
Qed.

Lemma filter_mut_spec l ns (p : Z -> bool) :
  slist_at l ns
  ⊢ hwp (cc_slist_filter_mut l p)
      (λ r, ⌜r.1 = if ns is [] then CC_ERR_OUT_OF_RANGE else CC_OK⌝ ∧
            slist_at r.2 (filter (fun n => p n.2 = true) ns)).
Proof.
  iIntros "[%Hl H]". unfold cc_slist_filter_mut. rw (size_test l ns Hl). destruct ns as [|n ns].
  - hret. iSplit; [done|]. by iSplit.
  - iApply hwp_bind. iApply chain_fuel. iFrame "H". iIntros (k Hk) "H".
    iApply hwp_call. iSplitL.
    + iApply (filter_mut_nodes_spec p (n :: ns) [] k); [done|apply Hl|done|]. by iSplit.
    + iIntros (l') "H". hret. by iSplit.
Qed.

(** *** New lists *)

Lemma copy_nodes_spec cp ns c cs fuel node :
  (length ns < fuel)%nat -> node = first_addr ns NULL -> zlen cs + zlen ns < 2 ^ 32 ->
  chain ns NULL ∗ slist_at c cs
  ⊢ hwp (copy_nodes fuel cp node c)
      (λ r, chain ns NULL ∗
         ((⌜r = (CC_ERR_ALLOC, None)⌝ ∧ emp) ∨
          (∃ c' cs', ⌜r = (CC_OK, Some c') /\ cs'.*2 = cs.*2 ++ (cp <$> ns.*2)⌝ ∧ slist_at c' cs'))).
Proof using HL.
  revert c cs fuel node. induction ns as [|n ns IH]; intros c cs fuel node Hf -> Hb;
    (destruct fuel as [|fuel]; [simpl in Hf; lia|]).
  - iIntros "[H Hc]". simpl. hret. iFrame "H". iRight. iExists c, cs. iSplit; [by rw app_nil_r|done].
  - simpl in Hf, Hb. iIntros "[H Hc]". iDestruct (chain_not_null with "H") as "[%Hn H]".
    cbn [copy_nodes first_addr]. rw (proj2 (Z.eqb_neq _ _) Hn). iDestruct "H" as "[Ha H]". hload "Ha".
    iApply hwp_call. iSplitL "Hc"; [iApply (add_last_spec with "Hc"); lia|].
    iIntros ([st c']) "[[%Hr Hc]|(%cs' & %Hr & Hc)]".
    + injection Hr as -> ->. simpl (negb _). iApply hwp_call.
      iSplitL "Hc"; [iApply (sdestroy_spec with "Hc")|]. iIntros (_) "_". hret.
      cbn [chain]. iFrame. by iLeft.
    + destruct Hr as [Hst Hcs]. simpl in Hst. subst st. simpl (negb _).
      iApply hwp_wand. iSplitL "H Hc".
      { iApply (IH c' cs'); [lia|done| |iFrame].
        apply (f_equal length) in Hcs. rw length_app !length_fmap /= in Hcs. lia. }
      iIntros (r) "[H Hr]". cbn [chain]. iFrame "Ha H".
      iDestruct "Hr" as "[Hr|(%c2 & %cs2 & %Hr & Hr)]"; [by iLeft|]. iRight. iExists c2, cs2.
      iSplit; [|done]. iPureIntro. destruct Hr as [-> ->]. split; [done|]. by rw Hcs -app_assoc.
Qed.

Lemma new_spec (Φ : cc_stat * option slist -> hpropI snode) :
  Φ (CC_ERR_ALLOC, None) ∧ Φ (CC_OK, Some empty_list) ⊢ hwp cc_slist_new Φ.
Proof.
  iIntros "H". unfold cc_slist_new, cc_slist_new_conf. iApply hwp_bind. iApply hwp_gets. iIntros (ok).
  destruct ok; hret; [by iDestruct "H" as "[_ H]"|by iDestruct "H" as "[H _]"].
Qed.

(** A copy has the elements through [cp], or memory ran out and every node
    made for it has been freed. *)
Lemma copy_deep_spec l ns cp :
  slist_at l ns
  ⊢ hwp (cc_slist_copy_deep l cp)
      (λ r, slist_at l ns ∗
         ((⌜r = (CC_ERR_ALLOC, None)⌝ ∧ emp) ∨
          (∃ c cs, ⌜r = (CC_OK, Some c) /\ cs.*2 = cp <$> ns.*2⌝ ∧ slist_at c cs))).
Proof using HL.
  iIntros "[%Hl H]". unfold cc_slist_copy_deep. iApply hwp_bind. iApply new_spec. iSplit.
  - hret. iSplitL; [by iSplit|]. by iLeft.
  - iApply hwp_bind. iApply chain_fuel. iFrame "H". iIntros (k Hk) "H".
    iApply hwp_wand. iSplitL.
    + iApply (copy_nodes_spec cp ns empty_list []); [done|apply Hl| |].
      * destruct Hl. simpl. lia.
      * iFrame "H". by iApply empty_list_at.
    + iIntros (r) "[H Hr]". iSplitL "H"; [by iSplit|]. done.
Qed.

Lemma sub_loop_spec ns q c cs node :
  node = first_addr ns q -> zlen cs + zlen ns < 2 ^ 32 ->
  chain ns q ∗ slist_at c cs
  ⊢ hwp (sub_loop (length ns) node c)
      (λ r, chain ns q ∗
         ((⌜r = (CC_ERR_ALLOC, None)⌝ ∧ emp) ∨
          (∃ c' cs', ⌜r = (CC_OK, Some c') /\ cs'.*2 = cs.*2 ++ ns.*2⌝ ∧ slist_at c' cs'))).
Proof using HL.
  revert c cs node. induction ns as [|n ns IH]; intros c cs node -> Hb; cbn [length sub_loop].
  - iIntros "[H Hc]". hret. iFrame "H". iRight. iExists c, cs. iSplit; [by rw app_nil_r|done].
  - simpl in Hb. iIntros "[[Ha H] Hc]". hload "Ha".
    iApply hwp_call. iSplitL "Hc"; [iApply (add_last_spec with "Hc"); lia|].
    iIntros ([st c']) "[[%Hr Hc]|(%cs' & %Hr & Hc)]".
    + injection Hr as -> ->. simpl (negb _). iApply hwp_call.
      iSplitL "Hc"; [iApply (sdestroy_spec with "Hc")|]. iIntros (_) "_". hret.
      cbn [chain]. iFrame. by iLeft.
    + destruct Hr as [Hst Hcs]. simpl in Hst. subst st. simpl (negb _).
      iApply hwp_wand. iSplitL "H Hc".
      { iApply (IH c' cs'); [done| |iFrame].
        apply (f_equal length) in Hcs. rw length_app !length_fmap /= in Hcs. lia. }
      iIntros (r) "[H Hr]". cbn [chain]. iFrame "Ha H".
      iDestruct "Hr" as "[Hr|(%c2 & %cs2 & %Hr & Hr)]"; [by iLeft|]. iRight. iExists c2, cs2.
      iSplit; [|done]. iPureIntro. destruct Hr as [-> ->]. split; [done|]. by rw Hcs -app_assoc.
Qed.

Lemma sublist_spec l ns1 ms ns2 :
  ms <> [] ->
  slist_at l (ns1 ++ ms ++ ns2)
  ⊢ hwp (cc_slist_sublist l (zlen ns1) (zlen ns1 + zlen ms - 1))
      (λ r, slist_at l (ns1 ++ ms ++ ns2) ∗
         ((⌜r = (CC_ERR_ALLOC, None)⌝ ∧ emp) ∨
          (∃ c cs, ⌜r = (CC_OK, Some c) /\ cs.*2 = ms.*2⌝ ∧ slist_at c cs))).
Proof using HL.
  iIntros (Hms) "[%Hl H]". unfold cc_slist_sublist. pose proof Hl as (Hs & Hb & _).
  rw !length_app in Hs Hb. assert (0 < zlen ms) as Hlen by (destruct ms; [done|simpl; lia]).
  rw (proj2 (Z.ltb_ge _ _)); [|lia]. rw (proj2 (Z.leb_gt _ _)); [|lia]. cbn [orb].
  iApply hwp_bind. iApply new_spec. iSplit.
  { hret. iSplitL; [by iSplit|]. by iLeft. }
  destruct ms as [|m ms]; [done|].
  iApply hwp_call. iSplitL; [iApply (get_node_at_spec l ns1 m (ms ++ ns2)); by iSplit|].
  iIntros (r) "[-> [_ H]]". simpl (negb _). cbn iota.
  replace (Z.to_nat (zlen ns1 + zlen (m :: ms) - 1 - zlen ns1 + 1)) with (length (m :: ms)) by lia.
  iEval (rw chain_app (chain_app (m :: ms))) in "H". iDestruct "H" as "(H1 & Hm & H2)".
  iApply hwp_wand. iSplitL "Hm".
  { iApply (sub_loop_spec (m :: ms) (first_addr ns2 NULL) empty_list []); [done|simpl in *; lia|].
    iFrame "Hm". by iApply empty_list_at. }
  iIntros (r) "[Hm Hr]". iFrame "Hr". iSplit; [done|]. rw chain_app (chain_app (m :: ms)). iFrame.
Qed.

Lemma filter_nodes_spec (p : Z -> bool) ns c cs fuel node :
  (length ns < fuel)%nat -> node = first_addr ns NULL -> zlen cs + zlen ns < 2 ^ 32 ->
  chain ns NULL ∗ slist_at c cs
  ⊢ hwp (filter_nodes fuel p node c)
      (λ c', chain ns NULL ∗
         (∃ cs' xs, ⌜cs'.*2 = cs.*2 ++ xs /\ sublist xs (filter (fun x => p x = true) ns.*2)⌝ ∧ slist_at c' cs')).
Proof using HL.
  revert c cs fuel node. induction ns as [|n ns IH]; intros c cs fuel node Hf -> Hb;
    (destruct fuel as [|fuel]; [simpl in Hf; lia|]).
  - iIntros "[H Hc]". simpl. hret. iFrame "H". iExists cs, []. iSplit; [by rw app_nil_r|done].
  - simpl in Hf, Hb. iIntros "[H Hc]". iDestruct (chain_not_null with "H") as "[%Hn H]".
    cbn [filter_nodes first_addr]. rw (proj2 (Z.eqb_neq _ _) Hn). iDestruct "H" as "[Ha H]". hload "Ha".
    iApply hwp_call.
    iAssert (hwp (if p n.2 then r ← cc_slist_add c n.2; mret r.2 else mret c)
      (λ c', ∃ cs' xs, ⌜cs'.*2 = cs.*2 ++ xs /\ (length xs <= 1)%nat /\
                       sublist xs (filter (fun x => p x = true) [n.2])⌝ ∧ slist_at c' cs'))%I with "[Hc]" as "Hif".
    { destruct (p n.2) eqn:Ep.
      - rw filter_cons_True; [|done]. iApply hwp_call. iSplitL "Hc"; [iApply (add_last_spec with "Hc"); lia|].
        iIntros ([st c']) "[[%Hr Hc]|(%cs' & %Hr & Hc)]"; hret.
        + injection Hr as -> ->. iExists cs, []. iSplit; [|done]. iPureIntro.
          split; [by rw app_nil_r|]. split; [simpl; lia|apply sublist_nil_l].
        + iExists cs', [n.2]. iSplit; [|done]. iPureIntro. by destruct Hr.
      - rw filter_cons_False; [|by rw Ep]. hret. iExists cs, []. iSplit; [|done]. iPureIntro.
        split; [by rw app_nil_r|]. split; [simpl; lia|done]. }
    iFrame "Hif". iIntros (c') "(%cs' & %xs & %Hcs & Hc)". destruct Hcs as (Hcs & Hx1 & Hx).
    iApply hwp_wand. iSplitL "H Hc".
    { iApply (IH c' cs'); [lia|done| |iFrame].
      apply (f_equal length) in Hcs. rw length_app !length_fmap /= in Hcs. lia. }
    iIntros (c2) "[H (%cs2 & %ys & %Hcs2 & Hc)]". cbn [chain]. iFrame "Ha H".
    iExists cs2, (xs ++ ys). iSplit; [|done]. iPureIntro. destruct Hcs2 as [-> Hy].
    split; [by rw Hcs -app_assoc|]. change ((n :: ns).*2) with ([n.2] ++ ns.*2).
    rw list.filter_app. by apply sublist_app.
Qed.

(** Filtering into a new list.  A node that cannot be allocated is left out
    without a report. *)
Lemma filter_spec l ns (p : Z -> bool) :
  ns <> [] ->
  slist_at l ns
  ⊢ hwp (cc_slist_filter l p)
      (λ r, slist_at l ns ∗
         ((⌜r = (CC_ERR_ALLOC, None)⌝ ∧ emp) ∨
          (∃ c cs, ⌜r = (CC_OK, Some c) /\ sublist cs.*2 (filter (fun x => p x = true) ns.*2)⌝ ∧ slist_at c cs))).
Proof using HL.
  iIntros (Hns) "[%Hl H]". unfold cc_slist_filter. rw (size_test l ns Hl).
  assert ((if ns is [] then true else false) = false) as -> by (by destruct ns).
  iApply hwp_bind. iApply new_spec. iSplit; hsimpl.
  - hret. iSplitL; [by iSplit|]. by iLeft.
  - iApply hwp_bind. iApply chain_fuel. iFrame "H". iIntros (k Hk) "H".
    iApply hwp_call. iSplitL.
    + iApply (filter_nodes_spec p ns empty_list []); [done|apply Hl| |].
      * destruct Hl. simpl. lia.
      * iFrame "H". by iApply empty_list_at.
    + iIntros (c) "[H (%cs & %xs & %Hcs & Hc)]". hret. iSplitL "H"; [by iSplit|]. iRight.
      iExists c, cs. iSplit; [|done]. iPureIntro. by destruct Hcs as [-> ?].
Qed.
End Facts.
