(* ===== verification/CcSlistProps.v ===== *)
(** * What the singly linked list promises

    Sequences of calls against the list specification, with an exact account of
    the heap; iteration; and where the code goes wrong.  The theorems are about
    runs of the code on heaps: the separation logic is only in their proofs. *)

From iris.proofmode Require Import proofmode.
From S2P Require Import Prelude CMem CState CHeap HeapLogic CcArray CcArrayFacts CcSlist CcSlistFacts.

(** ** The specification: lists *)

Inductive lop :=
  | LAddFirst (x : Z) | LAddLast (x : Z) | LAddAt (x i : Z)
  | LRemove (x : Z) | LRemoveAt (i : Z) | LRemoveFirst | LRemoveLast | LRemoveAll
  | LReplaceAt (x i : Z) | LGetAt (i : Z) | LGetFirst | LGetLast
  | LIndexOf (x : Z) | LContains (x : Z) | LReverse | LFilterMut (p : Z -> bool).

Definition lspec (op : lop) (xs : list Z) : cc_stat * option Z * list Z :=
  match op with
  | LAddFirst x => (CC_OK, None, x :: xs)
  | LAddLast x => (CC_OK, None, xs ++ [x])
  | LAddAt x i =>
      if i <? zlen xs
      then (CC_OK, None, take (Z.to_nat i) xs ++ x :: drop (Z.to_nat i) xs)
      else (CC_ERR_OUT_OF_RANGE, None, xs)
  | LRemove x =>
      match index_of x xs with
      | Some i => (CC_OK, Some x, remove_nth i xs)
      | None => (CC_ERR_VALUE_NOT_FOUND, None, xs)
      end
  | LRemoveAt i =>
      match xs !! Z.to_nat i with
      | Some y => (CC_OK, Some y, remove_nth (Z.to_nat i) xs)
      | None => (CC_ERR_OUT_OF_RANGE, None, xs)
      end
  | LRemoveFirst =>
      match xs with
      | x :: xs => (CC_OK, Some x, xs)
      | [] => (CC_ERR_VALUE_NOT_FOUND, None, xs)
      end
  | LRemoveLast =>
      match list.last xs with
      | Some x => (CC_OK, Some x, take (length xs - 1) xs)
      | None => (CC_ERR_VALUE_NOT_FOUND, None, xs)
      end
  | LRemoveAll => (match xs with [] => CC_ERR_VALUE_NOT_FOUND | _ => CC_OK end, None, [])
  | LReplaceAt x i =>
      match xs !! Z.to_nat i with
      | Some y => (CC_OK, Some y, <[Z.to_nat i := x]> xs)
      | None => (CC_ERR_OUT_OF_RANGE, None, xs)
      end
  | LGetAt i =>
      match xs !! Z.to_nat i with
      | Some y => (CC_OK, Some y, xs)
      | None => (CC_ERR_OUT_OF_RANGE, None, xs)
      end
  | LGetFirst =>
      match xs with x :: _ => (CC_OK, Some x, xs) | [] => (CC_ERR_VALUE_NOT_FOUND, None, xs) end
  | LGetLast =>
      match list.last xs with Some x => (CC_OK, Some x, xs) | None => (CC_ERR_VALUE_NOT_FOUND, None, xs) end
  | LIndexOf x =>
      match index_of x xs with
      | Some i => (CC_OK, Some (Z.of_nat i), xs)
      | None => (CC_ERR_OUT_OF_RANGE, None, xs)
      end
  | LContains x => (CC_OK, Some (Z.of_nat (countb (fun y => y =? x) xs)), xs)
  | LReverse => (CC_OK, None, reverse xs)
  | LFilterMut p =>
      (match xs with [] => CC_ERR_OUT_OF_RANGE | _ => CC_OK end, None,
       filter (fun y => p y = true) xs)
  end.

(** The calls that allocate. *)
Definition allocates (op : lop) : bool :=
  match op with LAddFirst _ | LAddLast _ | LAddAt _ _ => true | _ => false end.

Definition lop_ok (op : lop) : Prop :=
  match op with
  | LAddAt _ i | LRemoveAt i | LReplaceAt _ i | LGetAt i => fits 32 i
  | _ => True
  end.

(** What a call may do: a step of the specification, or, if it allocates,
    report that memory ran out. *)
Definition lstep (op : lop) (xs : list Z) (st : cc_stat) (out : option Z) (xs' : list Z) : Prop :=
  lspec op xs = (st, out, xs') \/
  allocates op = true /\ st = CC_ERR_ALLOC /\ out = None /\ xs' = xs.

Inductive lsteps : list lop -> list Z -> list (cc_stat * option Z) -> list Z -> Prop :=
  | lsteps_nil xs : lsteps [] xs [] xs
  | lsteps_cons op ops xs st out xs' rs xs'' :
      lstep op xs st out xs' -> lsteps ops xs' rs xs'' ->
      lsteps (op :: ops) xs ((st, out) :: rs) xs''.

Section Props.
Context `{HA : !NodeAlloc snode} `{HQ : !QSort} `{HL : !NodeAllocLaws snode}.
Implicit Types (l : slist) (ns : nodes).
Local Abbreviation SM := (M (heap snode)).

Definition unit_out (r : cc_stat * slist) : cc_stat * option Z * slist := (r.1, None, r.2).

Definition slist_step (op : lop) l : SM (cc_stat * option Z * slist) :=
  match op with
  | LAddFirst x => r ← cc_slist_add_first l x; mret (unit_out r)
  | LAddLast x => r ← cc_slist_add l x; mret (unit_out r)
  | LAddAt x i => r ← cc_slist_add_at l x i; mret (unit_out r)
  | LRemove x => cc_slist_remove l x
  | LRemoveAt i => cc_slist_remove_at l i
  | LRemoveFirst => cc_slist_remove_first l
  | LRemoveLast => cc_slist_remove_last l
  | LRemoveAll => r ← cc_slist_remove_all l; mret (unit_out r)
  | LReplaceAt x i => cc_slist_replace_at l x i
  | LGetAt i => cc_slist_get_at l i
  | LGetFirst => cc_slist_get_first l
  | LGetLast => cc_slist_get_last l
  | LIndexOf x => r ← cc_slist_index_of l x; mret (r, l)
  | LContains x => n ← cc_slist_contains l x; mret (CC_OK, Some n, l)
  | LReverse => l ← cc_slist_reverse l; mret (CC_OK, None, l)
  | LFilterMut p => r ← cc_slist_filter_mut l p; mret (unit_out r)
  end.

Fixpoint slist_run (ops : list lop) l : SM (list (cc_stat * option Z) * slist) :=
  match ops with
  | [] => mret ([], l)
  | op :: ops =>
      r ← slist_step op l;
      rs ← slist_run ops r.2;
      mret (r.1 :: rs.1, rs.2)
  end.

(** A list after a call. *)
Definition after op ns (r : cc_stat * option Z * slist) : hpropI snode :=
  (∃ ns', ⌜lstep op ns.*2 r.1.1 r.1.2 ns'.*2 /\ zlen ns' <= zlen ns + 1⌝ ∧ slist_at r.2 ns')%I.

(** A specification that gives the step, in the shape of [after]. *)
Lemma after_spec op ns ns' st out l :
  lspec op ns.*2 = (st, out, ns'.*2) -> zlen ns' <= zlen ns + 1 ->
  slist_at l ns' ⊢ after op ns (st, out, l).
Proof. iIntros (H1 H2) "H". iExists ns'. iSplit; [|done]. iPureIntro. split; [by left|done]. Qed.

Lemma after_added op l ns (P : nodes -> Prop) r :
  allocates op = true ->
  (forall ns', P ns' -> lspec op ns.*2 = (CC_OK, None, ns'.*2) /\ zlen ns' <= zlen ns + 1) ->
  added l ns P r ⊢ after op ns (unit_out r).
Proof.
  iIntros (Ho HP) "[[-> H]|(%ns' & %Hr & H)]".
  - iExists ns. iSplit; [|done]. iPureIntro. split; [by right|lia].
  - destruct r as [st l']. destruct Hr as [Hst Hns]. simpl in Hst. subst st.
    iApply (after_spec _ _ ns'); [by apply HP..|done].
Qed.

(** The node at an index. *)
Lemma split_nodes ns i :
  0 <= i < zlen ns ->
  exists ns1 n ns2, ns = ns1 ++ n :: ns2 /\ i = zlen ns1 /\ ns.*2 !! Z.to_nat i = Some n.2.
Proof.
  intros Hi. destruct (lookup_lt_is_Some_2 ns (Z.to_nat i)) as [n Hn]; [lia|].
  exists (take (Z.to_nat i) ns), n, (drop (S (Z.to_nat i)) ns).
  split; [by rw take_drop_middle|]. rw length_take list_lookup_fmap Hn. split; [lia|done].
Qed.

Lemma nodes_beyond ns i : zlen ns <= i -> ns.*2 !! Z.to_nat i = None.
Proof. intros Hi. apply lookup_ge_None_2. rw length_fmap. lia. Qed.

(** An access by index out of range. *)
Lemma indexed_out {A} l ns i (k : cc_stat * Z * Z -> SM A) (Φ : A -> hpropI snode) :
  zlen ns <= i ->
  slist_at l ns ∗ (slist_at l ns -∗ hwp (k (CC_ERR_OUT_OF_RANGE, NULL, NULL)) Φ)
  ⊢ hwp (get_node_at l i ≫= k) Φ.
Proof.
  iIntros (Hi) "[H HΦ]". iApply hwp_call. iSplitL "H"; [by iApply (get_node_at_out with "H")|].
  iIntros (r) "[-> H]". by iApply "HΦ".
Qed.

Lemma fmap_remove_nth i ns : (remove_nth i ns).*2 = remove_nth i ns.*2.
Proof. unfold remove_nth. by rw fmap_app fmap_take fmap_drop. Qed.

Lemma remove_mid (ns1 : nodes) n ns2 : remove_nth (length ns1) (ns1 ++ n :: ns2) = ns1 ++ ns2.
Proof.
  unfold remove_nth. rw take_app_length drop_app_ge; [|lia].
  by replace (S (length ns1) - length ns1)%nat with 1%nat by lia.
Qed.

Lemma find_second ns x :
  index_of x ns.*2 = fst <$> list_find (fun n => n.2 = x) ns /\
  (forall k n, list_find (fun n => n.2 = x) ns = Some (k, n) -> n.2 = x).
Proof.
  split.
  - unfold index_of. rw list_find_fmap. change ((fun y => y = x) ∘ snd) with (fun n : Z * Z => n.2 = x).
    by destruct (list_find _ ns) as [[? ?]|].
  - intros k n Hf. by apply list_find_Some in Hf as (_ & ? & _).
Qed.

(** ** One call *)

Section Out.
Context (l : slist) (ns : nodes) (i : Z) (Hi : zlen ns <= i).

Ltac out_of_range :=
  iIntros "H"; iApply indexed_out; [exact Hi|]; iFrame "H"; iIntros "H"; simpl (negb _); cbn iota; hret;
  iSplit; [done|]; done.

Lemma add_at_out x :
  slist_at l ns ⊢ hwp (cc_slist_add_at l x i) (λ r, ⌜r = (CC_ERR_OUT_OF_RANGE, l)⌝ ∧ slist_at l ns).
Proof using Hi. out_of_range. Qed.
Lemma remove_at_out :
  slist_at l ns ⊢ hwp (cc_slist_remove_at l i) (λ r, ⌜r = (CC_ERR_OUT_OF_RANGE, None, l)⌝ ∧ slist_at l ns).
Proof using Hi. out_of_range. Qed.
Lemma replace_at_out x :
  slist_at l ns ⊢ hwp (cc_slist_replace_at l x i) (λ r, ⌜r = (CC_ERR_OUT_OF_RANGE, None, l)⌝ ∧ slist_at l ns).
Proof using Hi. out_of_range. Qed.
Lemma get_at_out :
  slist_at l ns ⊢ hwp (cc_slist_get_at l i) (λ r, ⌜r = (CC_ERR_OUT_OF_RANGE, None, l)⌝ ∧ slist_at l ns).
Proof using Hi. out_of_range. Qed.
End Out.

(** A specification that gives the step of a call. *)
Lemma step_exact op l ns (R : cc_stat * option Z * slist -> Prop) ns' :
  (slist_at l ns ⊢ hwp (slist_step op l) (λ r, ⌜R r⌝ ∧ slist_at r.2 ns')) ->
  (forall r, R r -> lspec op ns.*2 = (r.1.1, r.1.2, ns'.*2)) -> zlen ns' <= zlen ns + 1 ->
  slist_at l ns ⊢ hwp (slist_step op l) (after op ns).
Proof.
  iIntros (Hs HR Hn) "H". iApply hwp_wand. iSplitL; [by iApply Hs|]. iIntros ([[st out] l']) "[%Hr H]".
  iApply (after_spec _ _ ns' with "H"); [by apply (HR _ Hr)|done].
Qed.

(** The same for a specification that gives the result with the list. *)
Lemma step_same op l ns st out :
  (slist_at l ns ⊢ hwp (slist_step op l) (λ r, ⌜r = (st, out, l)⌝ ∧ slist_at l ns)) ->
  lspec op ns.*2 = (st, out, ns.*2) ->
  slist_at l ns ⊢ hwp (slist_step op l) (after op ns).
Proof.
  iIntros (Hs HR) "H". iApply hwp_wand. iSplitL; [by iApply Hs|]. iIntros (r) "[-> H]".
  iApply (after_spec _ _ ns with "H"); [done|lia].
Qed.

Lemma step_add l ns x :
  zlen ns + 1 < 2 ^ 32 ->
  (slist_at l ns ⊢ hwp (slist_step (LAddFirst x) l) (after (LAddFirst x) ns)) /\
  (slist_at l ns ⊢ hwp (slist_step (LAddLast x) l) (after (LAddLast x) ns)).
Proof using HL.
  intros Hm. split; simpl; iIntros "H"; iApply hwp_call.
  - iSplitL; [by iApply (add_first_spec with "H")|]. iIntros (r) "H". hret.
    iApply (after_added with "H"); [done|]. intros ns' E. simpl. split; [by rw E|].
    apply (f_equal length) in E. rw /= !length_fmap in E. lia.
  - iSplitL; [by iApply (add_last_spec with "H")|]. iIntros (r) "H". hret.
    iApply (after_added with "H"); [done|]. intros ns' E. simpl. split; [by rw E|].
    apply (f_equal length) in E. rw length_app /= !length_fmap in E. lia.
Qed.

Lemma step_add_at l ns x i :
  zlen ns + 1 < 2 ^ 32 -> 0 <= i ->
  slist_at l ns ⊢ hwp (slist_step (LAddAt x i) l) (after (LAddAt x i) ns).
Proof using HL.
  iIntros (Hm Hi) "H". simpl. destruct (Z.lt_ge_cases i (zlen ns)) as [Hlt|Hge].
  - destruct (split_nodes ns i) as (ns1 & n & ns2 & -> & -> & _); [lia|].
    iApply hwp_call. iSplitL; [by iApply (add_at_spec with "H")|]. iIntros (r) "H". hret.
    iApply (after_added with "H"); [done|]. intros ns' E. cbn [lspec].
    rw (proj2 (Z.ltb_lt _ _)); [|rw length_fmap; done]. rw Nat2Z.id fmap_app.
    rw take_app_length'; [|by rw length_fmap]. rw drop_app_length'; [|by rw length_fmap]. rw -E.
    split; [done|]. apply (f_equal length) in E. rw length_app /= !length_fmap in E.
    rw length_app /=. lia.
  - iApply hwp_call. iSplitL; [by iApply (add_at_out with "H")|]. iIntros (r) "[-> H]". hret.
    iApply (after_spec _ _ ns with "H"); [|lia]. cbn [lspec].
    by rw (proj2 (Z.ltb_ge _ _)); [|rw length_fmap].
Qed.

Lemma step_indexed l ns i x :
  0 <= i ->
  (slist_at l ns ⊢ hwp (slist_step (LRemoveAt i) l) (after (LRemoveAt i) ns)) /\
  (slist_at l ns ⊢ hwp (slist_step (LReplaceAt x i) l) (after (LReplaceAt x i) ns)) /\
  (slist_at l ns ⊢ hwp (slist_step (LGetAt i) l) (after (LGetAt i) ns)).
Proof.
  intros Hi. destruct (Z.lt_ge_cases i (zlen ns)) as [Hlt|Hge].
  - destruct (split_nodes ns i) as (ns1 & n & ns2 & -> & -> & Hn); [lia|]. split_and!.
    + eapply step_exact; [apply remove_at_spec| |rw !length_app /=; lia].
      intros [[st out] l'] [= -> ->]. cbn [lspec]. rw Hn. do 2 f_equal.
      by rw Nat2Z.id -fmap_remove_nth remove_mid.
    + eapply step_exact; [apply replace_at_spec| |rw !length_app /=; lia].
      intros [[st out] l'] [= -> ->]. cbn [lspec]. rw Hn. do 2 f_equal. rw Nat2Z.id !fmap_app.
      rw insert_app_r_alt; [|rw length_fmap; lia]. by rw length_fmap Nat.sub_diag.
    + eapply step_same; [apply get_at_spec|]. cbn [lspec]. by rw Hn.
  - split_and!; (eapply step_same; [|by cbn [lspec]; rw (nodes_beyond _ _ Hge)]).
    + by apply remove_at_out.
    + by apply replace_at_out.
    + by apply get_at_out.
Qed.

Lemma step_ends l ns :
  (slist_at l ns ⊢ hwp (slist_step LRemoveFirst l) (after LRemoveFirst ns)) /\
  (slist_at l ns ⊢ hwp (slist_step LRemoveLast l) (after LRemoveLast ns)) /\
  (slist_at l ns ⊢ hwp (slist_step LGetFirst l) (after LGetFirst ns)) /\
  (slist_at l ns ⊢ hwp (slist_step LGetLast l) (after LGetLast ns)).
Proof.
  split_and!.
  - destruct ns as [|n ns].
    + eapply (step_exact _ _ _ _ []); [apply (remove_first_spec l [])| |simpl; lia]. by intros [[st out] l'] [= -> ->].
    + eapply (step_exact _ _ _ _ ns); [apply (remove_first_spec l (n :: ns))| |simpl; lia].
      by intros [[st out] l'] [= -> ->].
  - destruct ns as [|n ns _] using rev_ind.
    + eapply (step_exact _ _ _ _ []); [apply remove_last_empty| |simpl; lia]. by intros [[st out] l'] [= -> ->].
    + eapply (step_exact _ _ _ _ ns); [apply remove_last_spec| |rw length_app /=; lia].
      intros [[st out] l'] [= -> ->]. cbn [lspec]. rw fmap_app /= last_snoc. do 2 f_equal.
      rw length_app /= Nat.add_sub. by rw take_app_length.
  - destruct ns as [|n ns].
    + by eapply step_same; [apply (get_first_spec l [])|].
    + by eapply step_same; [apply (get_first_spec l (n :: ns))|].
  - destruct (list.last ns) as [n|] eqn:E.
    + eapply (step_same _ _ _ CC_OK (Some n.2)); [|by cbn [lspec]; rw fmap_last E].
      simpl. iIntros "H". iApply hwp_wand. iSplitL; [iApply (get_last_spec with "H")|].
      rw E. by iIntros (r) "H".
    + eapply (step_same _ _ _ CC_ERR_VALUE_NOT_FOUND None); [|by cbn [lspec]; rw fmap_last E].
      simpl. iIntros "H". iApply hwp_wand. iSplitL; [iApply (get_last_spec with "H")|].
      rw E. by iIntros (r) "H".
Qed.

Lemma step_search l ns x :
  (slist_at l ns ⊢ hwp (slist_step (LRemove x) l) (after (LRemove x) ns)) /\
  (slist_at l ns ⊢ hwp (slist_step (LIndexOf x) l) (after (LIndexOf x) ns)) /\
  (slist_at l ns ⊢ hwp (slist_step (LContains x) l) (after (LContains x) ns)).
Proof.
  destruct (find_second ns x) as [Hf Hx]. split_and!.
  - simpl. iIntros "H". iApply hwp_wand. iSplitL; [iApply (sremove_spec with "H")|].
    iIntros ([[st out] l']) "H". destruct (list_find (fun n => n.2 = x) ns) as [[k n]|] eqn:E;
      iDestruct "H" as "[%Hr H]"; injection Hr as -> ->.
    + iApply (after_spec with "H"); [|rw length_app length_take length_drop; lia]. cbn [lspec]. rw Hf /=.
      rw (Hx k n); [|done]. do 2 f_equal. by rw -fmap_remove_nth.
    + iApply (after_spec with "H"); [|lia]. cbn [lspec]. by rw Hf.
  - simpl. iIntros "H". iApply hwp_call. iSplitL; [iApply (index_of_spec with "H")|].
    iIntros (r) "[-> H]". hret. unfold after. iExists ns. iSplit; [|done]. iPureIntro. split; [left|lia].
    cbn [lspec]. unfold index_of. by destruct (list_find _ ns.*2) as [[k y]|].
  - simpl. iIntros "[%Hl H]". iApply hwp_call. iSplitL; [iApply (fold_spec _ _ l); by iSplit|].
    iIntros (r) "[-> H]". hret. iApply (after_spec _ _ ns with "H"); [|lia]. cbn [lspec]. do 3 f_equal.
    rw (foldl_count (fun y => y =? x)); [lia|lia|]. rw length_fmap. destruct Hl. lia.
Qed.

Lemma filter_second (p : Z -> bool) ns :
  (filter (fun n => p n.2 = true) ns).*2 = filter (fun x => p x = true) ns.*2.
Proof.
  induction ns as [|n ns IH]; [done|]. rw fmap_cons. destruct (p n.2) eqn:E.
  - rw !filter_cons_True; [|done|done]. by rw fmap_cons IH.
  - rw !filter_cons_False; [|by rw E|by rw E]. done.
Qed.

Lemma step_whole l ns p :
  (slist_at l ns ⊢ hwp (slist_step LRemoveAll l) (after LRemoveAll ns)) /\
  (slist_at l ns ⊢ hwp (slist_step LReverse l) (after LReverse ns)) /\
  (slist_at l ns ⊢ hwp (slist_step (LFilterMut p) l) (after (LFilterMut p) ns)).
Proof.
  split_and!; simpl; iIntros "H"; iApply hwp_call.
  - iSplitL; [iApply (sremove_all_spec with "H")|]. iIntros ([st l']) "[%Hr H]". simpl in Hr. subst st. hret.
    iApply (after_spec _ _ [] with "H"); [by destruct ns|simpl; lia].
  - iSplitL; [iApply (reverse_spec with "H")|]. iIntros (l') "H". hret.
    iApply (after_spec with "H"); [|rw length_reverse; lia]. cbn [lspec]. by rw fmap_reverse.
  - iSplitL; [iApply (filter_mut_spec with "H")|]. iIntros ([st l']) "[%Hr H]". simpl in Hr. subst st. hret.
    iApply (after_spec with "H"); [|pose proof (length_filter (fun n : Z * Z => p n.2 = true) ns); lia].
    cbn [lspec]. rw filter_second. by destruct ns.
Qed.

Lemma step_spec op l ns :
  lop_ok op -> zlen ns + 1 < 2 ^ 32 ->
  slist_at l ns ⊢ hwp (slist_step op l) (after op ns).
Proof using HL.
  intros Hop Hm. destruct op; simpl in Hop.
  - by apply step_add.
  - by apply step_add.
  - apply step_add_at; [done|apply Hop].
  - by apply step_search.
  - apply (step_indexed l ns i 0), Hop.
  - by apply step_ends.
  - by apply step_ends.
  - by apply (step_whole l ns (fun _ => true)).
  - apply step_indexed, Hop.
  - apply (step_indexed l ns i 0), Hop.
  - by apply step_ends.
  - by apply step_ends.
  - by apply step_search.
  - by apply step_search.
  - by apply (step_whole l ns (fun _ => true)).
  - by apply step_whole.
Qed.

(** ** Sequences of calls *)

Lemma run_spec ops l ns :
  Forall lop_ok ops -> zlen ns + zlen ops < 2 ^ 32 ->
  slist_at l ns
  ⊢ hwp (slist_run ops l) (λ r, ∃ ns', ⌜lsteps ops ns.*2 r.1 ns'.*2⌝ ∧ slist_at r.2 ns').
Proof using HL.
  intros Hok. revert l ns. induction Hok as [|op ops Hop _ IH]; intros l ns Hm; iIntros "H"; simpl.
  - hret. iExists ns. iSplit; [|done]. iPureIntro. constructor.
  - simpl in Hm. iApply hwp_call. iSplitL; [iApply (step_spec with "H"); [done|lia]|].
    iIntros ([[st out] l']) "(%ns' & %Hs & H)". destruct Hs as [Hs Hn].
    iApply hwp_call. iSplitL; [iApply (IH with "H"); lia|]. iIntros (rs) "(%ns2 & %Hr & H)". hret.
    iExists ns2. iSplit; [|done]. iPureIntro. by econstructor.
Qed.

(** The part [h] of the heap holds exactly the nodes of [l], and their
    elements are [xs]. *)
Definition slist_holds l (xs : list Z) (h : heap snode) : Prop :=
  exists ns, ns.*2 = xs /\ hprop_at (slist_at l ns) h.

Lemma slist_holds_size l xs h : slist_holds l xs h -> stdpp.base.size h = length xs.
Proof. intros (ns & <- & _ & H). by rw (chain_size _ _ _ H) length_fmap. Qed.

(** C27. The singly linked list implements a list.  Whatever the rest [hf] of
    the heap is, every sequence of calls on a list returns, without an access
    through a null or dangling pointer and without touching [hf]; each call
    gives the status and the element of the list specification, or reports
    that memory ran out and changes nothing; and afterwards the heap holds
    exactly one node per element: none is lost and none is freed twice. *)
Theorem slist_refines_list ops l xs h hf :
  slist_holds l xs h -> h ##ₘ hf -> Forall lop_ok ops -> zlen xs + zlen ops < 2 ^ 32 ->
  exists rs l' xs' h', slist_run ops l (h ∪ hf) = Done (rs, l') (h' ∪ hf) /\ h' ##ₘ hf /\
    lsteps ops xs rs xs' /\ slist_holds l' xs' h' /\ stdpp.base.size h' = length xs'.
Proof using HL.
  intros (ns & <- & Hh) Hd Hok Hm. rw length_fmap in Hm.
  pose proof (entails_at _ _ (run_spec ops l ns Hok Hm) h Hh hf Hd) as Hr.
  destruct (slist_run ops l (h ∪ hf)) as [[rs l'] h1| | |]; [|done..].
  destruct Hr as (h' & -> & Hd' & ns' & Hs & H'). exists rs, l', ns'.*2, h'.
  assert (slist_holds l' ns'.*2 h') as Hl' by (by exists ns').
  split_and!; [done..|by eapply slist_holds_size].
Qed.

(** ** Iteration *)

(** The iterator has returned the nodes [before] and, when it has not been
    removed, [cur]; it will return [rest]. *)
Definition iter_at (it : slist_iter) (before : nodes) (cur : option (Z * Z)) (rest : nodes) : hpropI snode :=
  (⌜sli_index it = zlen (before ++ option_list cur) /\ sli_next it = first_addr rest NULL /\
    sli_current it = default NULL (fst <$> cur) /\ sli_prev it = last_from NULL before⌝ ∧
   slist_at (sli_list it) (before ++ option_list cur ++ rest))%I.

Lemma iter_init_spec l ns : slist_at l ns ⊢ iter_at (cc_slist_iter_init l) [] None ns.
Proof.
  iIntros "[%Hl H]". iSplit; [|by iSplit]. iPureIntro. split_and!; [done|apply Hl|done|done].
Qed.

Lemma iter_next_spec it before cur n rest :
  iter_at it before cur (n :: rest)
  ⊢ hwp (cc_slist_iter_next it)
      (λ r, ⌜r.1 = (CC_OK, Some n.2)⌝ ∧ iter_at r.2 (before ++ option_list cur) (Some n) rest).
Proof.
  iIntros "[%Hi H]". destruct Hi as (Hix & Hnx & Hcu & Hpr). unfold cc_slist_iter_next. rw Hnx. hsimpl.
  cbn [first_addr]. rw assoc_L. iDestruct (slist_not_null with "H") as "[%Hn H]". rw Hn.
  assert (⊢ (∀ c, ⌜cur = Some c⌝ → slist_at (sli_list it) ((before ++ option_list cur) ++ n :: rest) -∗
              ⌜(c.1 =? NULL) = false⌝ ∧ slist_at (sli_list it) ((before ++ option_list cur) ++ n :: rest))) as Hc.
  { iIntros (c ->) "H". simpl. rw -assoc_L /=. iApply (slist_not_null with "H"). }
  iAssert (⌜(if negb (sli_current it =? NULL) then sli_current it else sli_prev it)
            = last_from NULL (before ++ option_list cur)⌝ ∧
           slist_at (sli_list it) ((before ++ option_list cur) ++ n :: rest))%I with "[H]" as "[%Hp H]".
  { rw Hcu Hpr. destruct cur as [c|]; simpl.
    - iDestruct (Hc with "[//] H") as "[%Hz H]". rw Hz. iSplit; [|done]. by rw last_from_snoc.
    - iSplit; [|done]. by rw app_nil_r. }
  iApply hwp_bind. iApply load_node. iFrame "H". iIntros "[%Hl H]". hret. iSplit; [done|].
  iSplit; [|by iSplit]. iPureIntro. simpl. split_and!; [|done|done|done].
  destruct Hl as (_ & Hb & _). rw !length_app /= in Hb. rw Hix !length_app /=.
  rw wrap_id; [lia|unfold fits; lia].
Qed.

Lemma iter_end_spec it before cur :
  iter_at it before cur [] ⊢ hwp (cc_slist_iter_next it) (λ r, ⌜r = (CC_ITER_END, None, it)⌝ ∧ iter_at it before cur []).
Proof.
  iIntros "[%Hi H]". unfold cc_slist_iter_next. destruct Hi as (Hix & Hnx & Hcu & Hpr) eqn:E. rw Hnx.
  hret. iSplit; [done|]. by iSplit.
Qed.

Lemma iter_remove_spec it before c rest :
  iter_at it before (Some c) rest
  ⊢ hwp (cc_slist_iter_remove it)
      (λ r, ⌜r.1 = (CC_OK, Some c.2)⌝ ∧ iter_at r.2 before None rest).
Proof.
  iIntros "[%Hi H]". destruct Hi as (Hix & Hnx & Hcu & Hpr). unfold cc_slist_iter_remove.
  simpl in Hcu. rw Hcu Hpr. iDestruct (slist_not_null with "H") as "[%Hn H]". rw Hn.
  iAssert (⌜zlen (before ++ [c]) < 2 ^ 32⌝ ∧ slist_at (sli_list it) (before ++ c :: rest))%I with "[H]" as "[%Hb H]".
  { iDestruct "H" as "[%Hl H]". iSplit; [|by iSplit]. iPureIntro. destruct Hl as (_ & Hb & _).
    rw !length_app /= in Hb |- *. lia. }
  iApply hwp_call. iSplitL; [iApply (unlink_spec with "H")|]. iIntros ([x l']) "[%Hx H]". simpl in Hx. subst x.
  hret. iSplit; [done|]. iSplit; [|done]. iPureIntro. simpl. split_and!; [|done|done|done].
  rw Hix app_nil_r. rw length_app /= in Hb |- *. rw wrap_id; [lia|unfold fits; lia].
Qed.

(** The client's loop: every element the iterator returns that does not
    satisfy [p] is removed through it. *)
Fixpoint iter_filter (fuel : nat) (p : Z -> bool) (it : slist_iter) : SM slist :=
  match fuel with
  | O => hang
  | S fuel =>
      r ← cc_slist_iter_next it;
      match r with
      | (CC_OK, Some x, it) =>
          if p x then iter_filter fuel p it
          else r ← cc_slist_iter_remove it; iter_filter fuel p r.2
      | (_, _, it) => mret (sli_list it)
      end
  end.

Lemma iter_filter_spec (p : Z -> bool) rest fuel it before cur :
  (length rest < fuel)%nat ->
  iter_at it before cur rest
  ⊢ hwp (iter_filter fuel p it)
      (λ l, slist_at l (before ++ option_list cur ++ filter (fun n => p n.2 = true) rest)).
Proof.
  revert fuel it before cur. induction rest as [|n rest IH]; intros fuel it before cur Hf;
    (destruct fuel as [|fuel]; [simpl in Hf; lia|]); cbn [iter_filter]; iIntros "H"; iApply hwp_call.
  - iSplitL; [iApply (iter_end_spec with "H")|]. iIntros (r) "[-> [%Hi H]]". hret. done.
  - simpl in Hf. iSplitL; [iApply (iter_next_spec with "H")|].
    iIntros ([[st out] it']) "[%Hr H]". simpl in Hr. injection Hr as -> ->. cbn iota. destruct (p n.2) eqn:Ep.
    + rw filter_cons_True; [|done]. iApply hwp_wand. iSplitL; [iApply (IH with "H"); lia|].
      iIntros (l) "H". by rw -assoc_L.
    + rw filter_cons_False; [|by rw Ep]. iApply hwp_call. iSplitL; [iApply (iter_remove_spec with "H")|].
      iIntros ([[st out] it2]) "[_ H]". iApply hwp_wand. iSplitL; [iApply (IH with "H"); lia|].
      iIntros (l) "H". by rw -assoc_L.
Qed.

(** Removing through the iterator is filtering.  Walking over a list and
    removing every element that does not satisfy a predicate through the
    iterator, and [cc_slist_filter_mut] with the predicate, both return, leave
    the list with the elements that satisfy it, in order, and free the nodes
    of the others. *)
Theorem iter_remove_filters (p : Z -> bool) fuel l xs h hf :
  slist_holds l xs h -> h ##ₘ hf -> (length xs < fuel)%nat ->
  (exists l' h', iter_filter fuel p (cc_slist_iter_init l) (h ∪ hf) = Done l' (h' ∪ hf) /\ h' ##ₘ hf /\
     slist_holds l' (filter (fun x => p x = true) xs) h') /\
  (exists st l' h', cc_slist_filter_mut l p (h ∪ hf) = Done (st, l') (h' ∪ hf) /\ h' ##ₘ hf /\
     slist_holds l' (filter (fun x => p x = true) xs) h').
Proof.
  intros (ns & <- & Hh) Hd Hf. rw length_fmap in Hf. split.
  - pose proof (entails_at _ _ (iter_init_spec l ns) h Hh) as Hi.
    pose proof (entails_at _ _ (iter_filter_spec p ns fuel _ [] None Hf) h Hi hf Hd) as Hr.
    destruct (iter_filter _ _ _ _) as [l' h1| | |]; [|done..]. destruct Hr as (h' & -> & Hd' & H').
    exists l', h'. split_and!; [done..|]. eexists. split; [apply filter_second|done].
  - pose proof (entails_at _ _ (filter_mut_spec l ns p) h Hh hf Hd) as Hr.
    destruct (cc_slist_filter_mut _ _ _) as [[st l'] h1| | |]; [|done..].
    destruct Hr as (h' & -> & Hd' & _ & H'). exists st, l', h'. split_and!; [done..|].
    eexists. split; [apply filter_second|done].
Qed.
End Props.

(** ** Runs *)

Definition six_cells : NodeAlloc snode := cell_alloc [8; 16; 24; 32; 40; 48].

(** A list of two elements. *)
Definition two_nodes : heap snode := {[8 := mk_snode 5 16; 16 := mk_snode 6 NULL]}.
Definition two_list : slist := mk_slist 2 8 16.

Lemma two_list_holds : slist_holds two_list [5; 6] two_nodes.
Proof.
  exists [(8, 5); (16, 6)]. split; [done|]. split; [by vm_compute|].
  exists {[8 := mk_snode 5 16]}, {[16 := mk_snode 6 NULL]}. split_and!; [done| |done|].
  - by apply map_disjoint_singleton_l, lookup_singleton_ne.
  - exists {[16 := mk_snode 6 NULL]}, ∅. split_and!; [done|apply map_disjoint_empty_r|done|done].
Qed.

Definition demo_ops : list lop :=
  [LAddLast 7; LAddFirst 4; LAddAt 9 1; LReverse; LRemove 5; LRemoveAt 9; LRemoveLast; LIndexOf 9].

Lemma slist_refines_list_witness :
  slist_holds two_list [5; 6] two_nodes /\
  exists rs l' xs' h',
    slist_run (HA := six_cells) demo_ops two_list (two_nodes ∪ {[24 := mk_snode 1 2]})
      = Done (rs, l') (h' ∪ {[24 := mk_snode 1 2]}) /\ h' ##ₘ {[24 := mk_snode 1 2]} /\
    lsteps demo_ops [5; 6] rs xs' /\ slist_holds l' xs' h' /\ stdpp.base.size h' = length xs'.
Proof.
  split; [apply two_list_holds|].
  apply (slist_refines_list (HA := six_cells) (HL := cell_alloc_laws _) demo_ops two_list [5; 6]).
  - apply two_list_holds.
  - by apply map_disjoint_singleton_r.
  - repeat constructor; done.
  - done.
Defined.

Lemma iter_remove_filters_witness :
  slist_holds two_list [5; 6] two_nodes /\
  (exists l' h', iter_filter 3 Z.even (cc_slist_iter_init two_list) (two_nodes ∪ ∅) = Done l' (h' ∪ ∅) /\
     h' ##ₘ ∅ /\ slist_holds l' [6] h') /\
  (exists st l' h', cc_slist_filter_mut two_list Z.even (two_nodes ∪ ∅) = Done (st, l') (h' ∪ ∅) /\
     h' ##ₘ ∅ /\ slist_holds l' [6] h').
Proof.
  split; [apply two_list_holds|].
  apply (iter_remove_filters Z.even 3 two_list [5; 6]);
    [apply two_list_holds|apply map_disjoint_empty_r|simpl; lia].
Defined.

(** ** Where the iterator goes wrong *)

(** Next, add, next, remove. *)
Definition add_and_remove (l : slist) : M (heap snode) slist :=
  r ← cc_slist_iter_next (cc_slist_iter_init l);
  r ← cc_slist_iter_add (HA := six_cells) r.2 9;
  r ← cc_slist_iter_next r.2;
  r ← cc_slist_iter_remove r.2;
  mret (sli_list r.2).

(** An element added through the iterator is unlinked, and its node lost,
    when the element after it is removed through the iterator: the iterator
    takes the element before the added one for the predecessor.  The size still
    counts the lost element, and the access to it by index goes through a null
    pointer. *)
Lemma iter_add_remove_loses :
  exists l h, add_and_remove two_list two_nodes = Done l h /\ sl_size l = 2 /\
    sl_head l = 8 /\ sl_tail l = 8 /\ h !! 8 = Some (mk_snode 5 NULL) /\
    h !! 24 = Some (mk_snode 9 16) /\ h !! 16 = None /\ cc_slist_get_at l 1 h = Undef.
Proof. eexists _, _. split; [by vm_compute|]. by vm_compute. Qed.

(** An element added before the first call of next, or after a removal, is
    written through a null pointer. *)
Lemma iter_add_null :
  cc_slist_iter_add (HA := six_cells) (cc_slist_iter_init two_list) 9 two_nodes = Undef /\
  (r ← cc_slist_iter_next (cc_slist_iter_init two_list);
   r ← cc_slist_iter_remove r.2;
   cc_slist_iter_add (HA := six_cells) r.2 9) two_nodes = Undef.
Proof. by vm_compute. Qed.

(** [cc_slist_filter] reports success with an element missing when memory ran
    out for it. *)
Lemma filter_loses :
  exists l h, cc_slist_filter (HA := cell_alloc [24]) two_list (fun _ => true) two_nodes
      = Done (CC_OK, Some l) h /\ sl_size l = 1.
Proof. eexists _, _. split; [by vm_compute|done]. Qed.
