(* ===== verification/CcSlistPair.v ===== *)
(** * Operations on two singly linked lists

    Copying, splicing, sorting and taking sublists, on two lists that live on
    one heap: each owns its own nodes before and after every call. *)

From iris.proofmode Require Import proofmode.
From S2P Require Import Prelude CMem CState CHeap HeapLogic CcArray CcArrayFacts CcSlist CcSlistFacts CcSlistProps.

(** Documented behaviour of [qsort]: it permutes the array. *)
Class QSortLaws `{HQ : QSort} : Prop := qsort_perm cmp xs : qsort cmp xs ≡ₚ xs.

(** A call on the first list, the two lists exchanged, and the calls that
    involve both; a copy replaces the second list, which is destroyed. *)
Inductive pair_op :=
  | PFirst (op : lop) | PSwap
  | PAddAll | PAddAllAt (i : Z) | PSplice | PSpliceAt (i : Z)
  | PSort (cmp : Z -> Z -> Z) | PCopy (cp : Z -> Z) | PSublist (b e : Z).

Definition pair_ok (op : pair_op) : Prop :=
  match op with
  | PFirst op => lop_ok op
  | PAddAllAt i | PSpliceAt i => fits 32 i
  | PSublist b e => fits 32 b /\ fits 32 e
  | _ => True
  end.

Definition insert_list (i : Z) (ys xs : list Z) : list Z :=
  take (Z.to_nat i) xs ++ ys ++ drop (Z.to_nat i) xs.

Section Pair.
Context `{HA : !NodeAlloc snode} `{HQ : !QSort} `{HL : !NodeAllocLaws snode} `{HS : !QSortLaws}.
Implicit Types (l : slist) (ns ms : nodes).
Local Abbreviation SM := (M (heap snode)).

Definition pair_spec (op : pair_op) (xs ys : list Z) : cc_stat * list Z * list Z :=
  match op with
  | PFirst op => let r := lspec op xs in (r.1.1, r.2, ys)
  | PSwap => (CC_OK, ys, xs)
  | PAddAll => (CC_OK, xs ++ ys, ys)
  | PAddAllAt i =>
      if ys is [] then (CC_OK, xs, ys)
      else if i <? zlen xs then (CC_OK, insert_list i ys xs, ys) else (CC_ERR_OUT_OF_RANGE, xs, ys)
  | PSplice => (CC_OK, xs ++ ys, [])
  | PSpliceAt i =>
      if ys is [] then (CC_OK, xs, ys)
      else if i <? zlen xs then (CC_OK, insert_list i ys xs, []) else (CC_ERR_OUT_OF_RANGE, xs, ys)
  | PSort cmp => (CC_OK, qsort cmp xs, ys)
  | PCopy cp => (CC_OK, xs, cp <$> xs)
  | PSublist b e =>
      if (e <? b) || (zlen xs <=? e) then (CC_ERR_INVALID_RANGE, xs, ys)
      else (CC_OK, xs, take (Z.to_nat (e - b + 1)) (drop (Z.to_nat b) xs))
  end.

(** A new list takes the place of the second one. *)
Definition replace_second (r : cc_stat * option slist) l1 l2 : SM (cc_stat * (slist * slist)) :=
  match r.2 with
  | Some c => cc_slist_destroy l2 ;; mret (r.1, (l1, c))
  | None => mret (r.1, (l1, l2))
  end.

Definition pair_step (op : pair_op) (ls : slist * slist) : SM (cc_stat * (slist * slist)) :=
  let l1 := ls.1 in
  let l2 := ls.2 in
  match op with
  | PFirst op => r ← slist_step op l1; mret (r.1.1, (r.2, l2))
  | PSwap => mret (CC_OK, (l2, l1))
  | PAddAll => r ← cc_slist_add_all l1 l2; mret (r.1, (r.2, l2))
  | PAddAllAt i => r ← cc_slist_add_all_at l1 l2 i; mret (r.1, (r.2, l2))
  | PSplice => r ← cc_slist_splice l1 l2; mret (r.1.1, (r.1.2, r.2))
  | PSpliceAt i => r ← cc_slist_splice_at l1 l2 i; mret (r.1.1, (r.1.2, r.2))
  | PSort cmp => r ← cc_slist_sort l1 cmp; mret (r, (l1, l2))
  | PCopy cp => r ← cc_slist_copy_deep l1 cp; replace_second r l1 l2
  | PSublist b e => r ← cc_slist_sublist l1 b e; replace_second r l1 l2
  end.

(** ** Specifications *)

Definition pair_at (ls : slist * slist) ns ms : hpropI snode := (slist_at ls.1 ns ∗ slist_at ls.2 ms)%I.

(** What a call may do. *)
Definition pair_result (op : pair_op) (xs ys : list Z) (st : cc_stat) (xs' ys' : list Z) : Prop :=
  pair_spec op xs ys = (st, xs', ys') \/ st = CC_ERR_ALLOC /\ xs' = xs /\ ys' = ys.

Definition pair_after (op : pair_op) ns ms (r : cc_stat * (slist * slist)) : hpropI snode :=
  (∃ ns' ms', ⌜pair_result op ns.*2 ms.*2 r.1 ns'.*2 ms'.*2⌝ ∧ pair_at r.2 ns' ms')%I.

(** The call did what it is for, or ran out of memory. *)
Lemma pair_done op ns ms st l1 l2 ns' ms' :
  pair_spec op ns.*2 ms.*2 = (st, ns'.*2, ms'.*2) ->
  slist_at l1 ns' ∗ slist_at l2 ms' ⊢ pair_after op ns ms (st, (l1, l2)).
Proof. iIntros (H) "[H1 H2]". iExists ns', ms'. iSplit; [iPureIntro; by left|iFrame]. Qed.

Lemma pair_alloc op ns ms l1 l2 :
  slist_at l1 ns ∗ slist_at l2 ms ⊢ pair_after op ns ms (CC_ERR_ALLOC, (l1, l2)).
Proof. iIntros "[H1 H2]". iExists ns, ms. iSplit; [iPureIntro; by right|iFrame]. Qed.

Lemma pair_added op l1 l2 ns ms (P : nodes -> Prop) r :
  (forall ns', P ns' -> pair_spec op ns.*2 ms.*2 = (CC_OK, ns'.*2, ms.*2)) ->
  added l1 ns P r ∗ slist_at l2 ms ⊢ pair_after op ns ms (r.1, (r.2, l2)).
Proof.
  iIntros (HP) "[[[-> H]|(%ns' & %Hr & H)] H2]".
  - iApply pair_alloc. iFrame.
  - destruct Hr as [Hst Hns]. rw Hst. iApply (pair_done _ _ _ _ _ _ ns' ms); [by apply HP|iFrame].
Qed.

Lemma pair_copied op l1 l2 ns ms (xs : list Z) r :
  pair_spec op ns.*2 ms.*2 = (CC_OK, ns.*2, xs) ->
  slist_at l2 ms ∗ (slist_at l1 ns ∗
    ((⌜r = (CC_ERR_ALLOC, None)⌝ ∧ emp) ∨
     (∃ c cs, ⌜r = (CC_OK, Some c) /\ cs.*2 = xs⌝ ∧ slist_at c cs)))
  ⊢ hwp (replace_second r l1 l2) (pair_after op ns ms).
Proof.
  iIntros (HP) "[H2 [H1 [[-> _]|(%c & %cs & %Hr & H)]]]"; unfold replace_second; simpl.
  - hret. iApply pair_alloc. iFrame.
  - destruct Hr as [-> Hc]. simpl.
    iApply hwp_call. iSplitL "H2"; [iApply (sdestroy_spec with "H2")|]. iIntros (_) "_". hret.
    iApply (pair_done _ _ _ _ _ _ ns cs); [by rw Hc|iFrame].
Qed.

(** *** Sorting *)

Lemma zip_firsts ns (xs : list Z) :
  length xs = length ns ->
  (zip ns.*1 xs).*1 = ns.*1 /\ (zip ns.*1 xs).*2 = xs /\ length (zip ns.*1 xs) = length ns /\
  first_addr (zip ns.*1 xs) NULL = first_addr ns NULL.
Proof.
  intros H. rw fst_zip; [|rw length_fmap; lia]. rw snd_zip; [|rw length_fmap; lia].
  rw length_zip_with length_fmap. split_and!; [done|done|lia|]. by destruct ns, xs.
Qed.

(** The nodes stay; their elements are sorted. *)
Lemma sort_spec l ns cmp :
  slist_at l ns
  ⊢ hwp (cc_slist_sort l cmp)
      (λ st, ∃ ns', ⌜st = CC_OK /\ ns'.*2 = qsort cmp ns.*2 \/ st = CC_ERR_ALLOC /\ ns' = ns⌝ ∧ slist_at l ns').
Proof using HS.
  iIntros "[%Hl H]". unfold cc_slist_sort. destruct (Z.eqb_spec (sl_size l) 1) as [E|E].
  - destruct Hl as (Hs & Hr). rw Hs in E. destruct ns as [|n [|? ?]]; simpl in E; [lia| |lia].
    hret. iExists [n]. iSplit; [|by iSplit]. iPureIntro. left. split; [done|].
    symmetry. apply Permutation_singleton_r, qsort_perm.
  - iApply hwp_call. iSplitL; [iApply (to_array_spec l ns); by iSplit|]. iIntros (r) "[%Hr [_ H]]".
    destruct Hr as [-> | ->]; cbn [is_ok fst snd].
    + simpl. hret. iExists ns. iSplit; [iPureIntro; by right|by iSplit].
    + simpl. assert (length (qsort cmp ns.*2) = length ns) as Hq by (rw qsort_perm; apply length_fmap).
      destruct (zip_firsts ns _ Hq) as (H1 & H2 & H3 & H4).
      iApply hwp_call. iSplitL; [iApply (write_nodes_spec with "H"); [done|apply Hl]|]. iIntros (_) "H". hret.
      iExists (zip ns.*1 (qsort cmp ns.*2)). iSplit; [iPureIntro; by left|]. iSplit; [|done]. iPureIntro.
      destruct Hl as (Hs & Hb & Hh & Ht). split_and!; [by rw H3|by rw H3|by rw H4|].
      by rw Ht /last_from H1.
Qed.

(** *** The second list goes into the first *)

Lemma split_at ns i :
  0 <= i < zlen ns ->
  exists ns1 n ns2, ns = ns1 ++ n :: ns2 /\ i = zlen ns1 /\
    forall ys : list Z, insert_list i ys ns.*2 = ns1.*2 ++ ys ++ (n :: ns2).*2.
Proof.
  intros Hi. destruct (split_nodes ns i Hi) as (ns1 & n & ns2 & -> & -> & _). exists ns1, n, ns2.
  split_and!; [done|done|]. intros ys. unfold insert_list. rw Nat2Z.id fmap_app.
  rw take_app_length'; [|by rw length_fmap]. by rw drop_app_length'; [|by rw length_fmap].
Qed.

Lemma step_splice l1 l2 ns ms :
  zlen ns + zlen ms < 2 ^ 32 ->
  slist_at l1 ns ∗ slist_at l2 ms ⊢ hwp (pair_step PSplice (l1, l2)) (pair_after PSplice ns ms).
Proof.
  iIntros (Hm) "H". simpl. iApply hwp_call. iSplitL; [iApply (splice_spec with "H"); done|].
  iIntros ([[st a] b]) "[%Hr H]". simpl in Hr. subst st. hret.
  iApply (pair_done with "H"). simpl. by rw fmap_app.
Qed.

Lemma not_empty_test l ms : header_ok_for l ms -> ms <> [] -> (sl_size l =? 0) = false.
Proof. intros H Hn. rw (size_test _ _ H). by destruct ms. Qed.

Lemma step_splice_at l1 l2 ns ms i :
  zlen ns + zlen ms < 2 ^ 32 -> 0 <= i ->
  slist_at l1 ns ∗ slist_at l2 ms ⊢ hwp (pair_step (PSpliceAt i) (l1, l2)) (pair_after (PSpliceAt i) ns ms).
Proof.
  iIntros (Hm Hi) "[H1 [%H2 H2]]". simpl. destruct (decide (ms = [])) as [->|Hn].
  { unfold cc_slist_splice_at. rw (size_test _ _ H2). cbn iota. hskip. hret.
    iApply (pair_done _ _ _ _ _ _ ns []); [done|]. iFrame "H1". by iSplit. }
  assert (forall A (x y : A), match ms.*2 with [] => x | _ => y end = y) as Hms by (by destruct ms).
  destruct (Z.lt_ge_cases i (zlen ns)) as [Hlt|Hge].
  - destruct (split_at ns i) as (ns1 & n & ns2 & -> & -> & Hins); [lia|].
    iApply hwp_call. iSplitL; [iApply splice_at_spec; [done|]; iFrame "H1"; by iSplit|].
    iIntros ([[st a] b]) "[%Hr H]". simpl in Hr. subst st. hret.
    iApply (pair_done with "H"). cbn [pair_spec]. rw Hms length_fmap (proj2 (Z.ltb_lt _ _) Hlt) Hins.
    by rw !fmap_app.
  - unfold cc_slist_splice_at. rw (not_empty_test _ _ H2 Hn). iDestruct "H1" as "[%H1 H1]".
    rw (proj2 (Z.leb_le _ _)); [|by destruct H1 as [-> _]]. hskip. hret.
    iApply (pair_done _ _ _ _ _ _ ns ms); [|iSplitL "H1"; by iSplit]. cbn [pair_spec].
    by rw Hms length_fmap (proj2 (Z.ltb_ge _ _) Hge).
Qed.

Lemma step_add_all l1 l2 ns ms :
  zlen ns + zlen ms < 2 ^ 32 ->
  slist_at l1 ns ∗ slist_at l2 ms ⊢ hwp (pair_step PAddAll (l1, l2)) (pair_after PAddAll ns ms).
Proof using HL.
  iIntros (Hm) "H". simpl. iApply hwp_call. iSplitL; [iApply (add_all_spec with "H"); done|].
  iIntros (r) "H". hret. iApply (pair_added with "H"). simpl. by intros ns' ->.
Qed.

Lemma step_add_all_at l1 l2 ns ms i :
  zlen ns + zlen ms < 2 ^ 32 -> 0 <= i ->
  slist_at l1 ns ∗ slist_at l2 ms ⊢ hwp (pair_step (PAddAllAt i) (l1, l2)) (pair_after (PAddAllAt i) ns ms).
Proof using HL.
  iIntros (Hm Hi) "[H1 [%H2 H2]]". simpl. destruct (decide (ms = [])) as [->|Hn].
  { unfold cc_slist_add_all_at. rw (size_test _ _ H2). cbn iota. hskip. hret.
    iApply (pair_done _ _ _ _ _ _ ns []); [done|]. iFrame "H1". by iSplit. }
  assert (forall A (x y : A), match ms.*2 with [] => x | _ => y end = y) as Hms by (by destruct ms).
  destruct (Z.lt_ge_cases i (zlen ns)) as [Hlt|Hge].
  - destruct (split_at ns i) as (ns1 & n & ns2 & -> & -> & Hins); [lia|].
    iApply hwp_call. iSplitL; [iApply add_all_at_spec; [done|]; iFrame "H1"; by iSplit|].
    iIntros (r) "H". hret. iApply (pair_added with "H"). intros ns' Hns'. cbn [pair_spec].
    by rw Hms length_fmap (proj2 (Z.ltb_lt _ _) Hlt) Hins Hns'.
  - unfold cc_slist_add_all_at. rw (not_empty_test _ _ H2 Hn). iApply hwp_bind.
    iApply (indexed_out l1 ns); [done|]. iFrame "H1". iIntros "H1". hret. hret.
    iApply (pair_done _ _ _ _ _ _ ns ms); [|iFrame "H1"; by iSplit]. cbn [pair_spec].
    by rw Hms length_fmap (proj2 (Z.ltb_ge _ _) Hge).
Qed.

(** *** New lists *)

Lemma step_copy l1 l2 ns ms cp :
  slist_at l1 ns ∗ slist_at l2 ms ⊢ hwp (pair_step (PCopy cp) (l1, l2)) (pair_after (PCopy cp) ns ms).
Proof using HL.
  iIntros "[H1 H2]". simpl. iApply hwp_call. iSplitL "H1"; [iApply (copy_deep_spec with "H1")|].
  iIntros (r) "H". iApply (pair_copied (PCopy cp) _ _ _ _ (cp <$> ns.*2)); [done|iFrame].
Qed.

Lemma step_sublist l1 l2 ns ms b e :
  0 <= b -> 0 <= e ->
  slist_at l1 ns ∗ slist_at l2 ms ⊢ hwp (pair_step (PSublist b e) (l1, l2)) (pair_after (PSublist b e) ns ms).
Proof using HL.
  iIntros (Hb He) "[H1 H2]". simpl. destruct ((e <? b) || (zlen ns <=? e)) eqn:Er.
  - unfold cc_slist_sublist. iDestruct "H1" as "[%H1 H1]". assert (sl_size l1 = zlen ns) as -> by apply H1.
    rw Er. hskip. unfold replace_second. simpl. hret. iApply (pair_done _ _ _ _ _ _ ns ms).
    + cbn [pair_spec]. by rw length_fmap Er.
    + iFrame "H2". by iSplit.
  - apply orb_false_iff in Er as [H3%Z.ltb_ge H4%Z.leb_gt].
    pose proof (take_drop (Z.to_nat b) ns) as E1.
    pose proof (take_drop (Z.to_nat (e - b + 1)) (drop (Z.to_nat b) ns)) as E2.
    set (n1 := take (Z.to_nat b) ns) in *. set (n2 := take _ (drop _ ns)) in *. set (n3 := drop (Z.to_nat (_ + 1)) _) in *.
    assert (zlen n1 = b) as Hl1 by (subst n1; rw length_take; lia).
    assert (zlen n2 = e - b + 1) as Hl2 by (subst n2; rw length_take length_drop; lia).
    rw -E1 -E2 -Hl1. replace e with (zlen n1 + zlen n2 - 1) by lia.
    iApply hwp_call. iSplitL "H1"; [iApply (sublist_spec with "H1"); intros ->; simpl in Hl2; lia|].
    iIntros (r) "H". iApply (pair_copied _ _ _ _ _ n2.*2); [|iFrame]. cbn [pair_spec].
    rw (proj2 (Z.ltb_ge _ _)); [|lia]. rw (proj2 (Z.leb_gt _ _)); [|rw !length_fmap !length_app; lia]. simpl.
    do 2 f_equal. rw !fmap_app drop_app_length'; [|rw length_fmap; lia].
    by rw take_app_length'; [|rw length_fmap; lia].
Qed.

Lemma pair_step_spec op l1 l2 ns ms :
  pair_ok op -> zlen ns + zlen ms + 1 < 2 ^ 32 ->
  slist_at l1 ns ∗ slist_at l2 ms ⊢ hwp (pair_step op (l1, l2)) (pair_after op ns ms).
Proof using HL HS.
  intros Hop Hm. destruct op; simpl in Hop.
  - iIntros "[H1 H2]". simpl. iApply hwp_call. iSplitL "H1"; [iApply (step_spec with "H1"); [done|lia]|].
    iIntros ([[st out] l]) "(%ns' & %Hr & H1)". hret. iExists ns', ms. iSplit; [iPureIntro|iFrame].
    cbn [fst snd] in *. destruct Hr as [[Hs | (_ & -> & _ & ->)] _]; [left; cbn; by rw Hs|by right].
  - iIntros "[H1 H2]". simpl. hret. iApply (pair_done _ _ _ _ _ _ ms ns); [done|iFrame].
  - apply step_add_all. lia.
  - apply step_add_all_at; [lia|apply Hop].
  - apply step_splice. lia.
  - apply step_splice_at; [lia|apply Hop].
  - iIntros "[H1 H2]". simpl. iApply hwp_call. iSplitL "H1"; [iApply (sort_spec with "H1")|].
    iIntros (st) "(%ns' & %Hr & H1)". hret. destruct Hr as [[-> Hr]|[-> ->]].
    + iApply (pair_done _ _ _ _ _ _ ns' ms); [by rw Hr|iFrame].
    + iApply pair_alloc. iFrame.
  - apply step_copy.
  - destruct Hop as [[? _] [? _]]. by apply step_sublist.
Qed.

(** The part [h] of the heap is the nodes of [l1] and, apart from them, those
    of [l2]. *)
Definition pair_holds l1 l2 (xs ys : list Z) (h : heap snode) : Prop :=
  exists h1 h2, h = h1 ∪ h2 /\ h1 ##ₘ h2 /\ slist_holds l1 xs h1 /\ slist_holds l2 ys h2.

(** The representation of two lists is kept by every operation.  Two
    well-formed lists with disjoint nodes, and no other cells of [h], are again
    two well-formed lists with disjoint nodes, and no other cells, after a call
    on one of them, after adding all of one to the other, splicing, sorting,
    copying and taking a sublist; the call returns whatever the rest of the heap is, and
    the elements are the ones the specification gives, or unchanged with
    [CC_ERR_ALLOC]. *)
Theorem slist_pair_typed op l1 l2 xs ys h hf :
  pair_holds l1 l2 xs ys h -> h ##ₘ hf -> pair_ok op -> zlen xs + zlen ys + 1 < 2 ^ 32 ->
  exists st l1' l2' xs' ys' h', pair_step op (l1, l2) (h ∪ hf) = Done (st, (l1', l2')) (h' ∪ hf) /\
    h' ##ₘ hf /\ pair_holds l1' l2' xs' ys' h' /\ pair_result op xs ys st xs' ys'.
Proof using HL HS.
  intros (h1 & h2 & -> & H12 & (ns & <- & Hh1) & (ms & <- & Hh2)) Hd Hop Hm. rw !length_fmap in Hm.
  pose proof (entails_at _ _ (pair_step_spec op l1 l2 ns ms Hop Hm) (h1 ∪ h2)) as Hr.
  specialize (Hr (ex_intro _ h1 (ex_intro _ h2 (conj eq_refl (conj H12 (conj Hh1 Hh2))))) hf Hd).
  destruct (pair_step op (l1, l2) ((h1 ∪ h2) ∪ hf)) as [[st [a b]] h3| | |]; [|done..].
  destruct Hr as (h' & -> & Hd' & ns' & ms' & Hs & (h1' & h2' & -> & Hd2 & H1' & H2')).
  exists st, a, b, ns'.*2, ms'.*2, (h1' ∪ h2'). split_and!; [done|done| |done].
  exists h1', h2'. split_and!; [done|done|by exists ns'|by exists ms'].
Qed.
End Pair.

Lemma no_sort_laws : QSortLaws (HQ := fun _ xs => xs).
Proof. by intros cmp xs. Qed.

Lemma slist_pair_typed_witness :
  pair_holds two_list empty_list [5; 6] [] two_nodes /\
  exists st l1' l2' xs' ys' h',
    pair_step (HA := six_cells) (HQ := fun _ xs => xs) (PCopy Z.succ) (two_list, empty_list) (two_nodes ∪ ∅)
      = Done (st, (l1', l2')) (h' ∪ ∅) /\
    h' ##ₘ ∅ /\ pair_holds l1' l2' xs' ys' h' /\
    pair_result (HQ := fun _ xs => xs) (PCopy Z.succ) [5; 6] [] st xs' ys'.
Proof.
  assert (pair_holds two_list empty_list [5; 6] [] two_nodes) as Hp.
  { exists two_nodes, ∅. split_and!; [done|apply map_disjoint_empty_r|apply two_list_holds|].
    exists []. split; [done|]. by split. }
  split; [exact Hp|].
  apply (slist_pair_typed (HL := cell_alloc_laws _) (HS := no_sort_laws));
    [exact Hp|apply map_disjoint_empty_r|done|done].
Defined.
