(* ===== verification/Button.v ===== *)
(** * Button state machine (src/components/button/iot_button.c)

    One button: the debouncer and the press state machine that its timer tick
    runs, with every callback invocation recorded in [calls], and the callback
    registry.  A callback is a function outside the component: it is recorded,
    and does not call back into the component.  The options are those of
    src/sdkconfig; the level read from the driver is an argument. *)

From S2P Require Import Prelude CMem CState.

(** ** Configuration *)

Definition ESP_ERR_NO_MEM : Z := 0x101.
Definition ESP_ERR_INVALID_STATE : Z := 0x103.

Definition CONFIG_BUTTON_PERIOD_TIME_MS : Z := 5.
Definition CONFIG_BUTTON_DEBOUNCE_TICKS : Z := 2.
Definition CONFIG_BUTTON_SHORT_PRESS_TIME_MS : Z := 180.
Definition CONFIG_BUTTON_LONG_PRESS_TIME_MS : Z := 1500.
Definition CONFIG_BUTTON_LONG_PRESS_HOLD_SERIAL_TIME_MS : Z := 20.

Definition TICKS_INTERVAL : Z := CONFIG_BUTTON_PERIOD_TIME_MS.
Definition DEBOUNCE_TICKS : Z := CONFIG_BUTTON_DEBOUNCE_TICKS.
Definition SHORT_TICKS : Z := CONFIG_BUTTON_SHORT_PRESS_TIME_MS / TICKS_INTERVAL.
Definition LONG_TICKS : Z := CONFIG_BUTTON_LONG_PRESS_TIME_MS / TICKS_INTERVAL.
Definition SERIAL_TICKS : Z := CONFIG_BUTTON_LONG_PRESS_HOLD_SERIAL_TIME_MS / TICKS_INTERVAL.
Definition TOLERANCE : Z := CONFIG_BUTTON_PERIOD_TIME_MS * 4.

Definition TIME_TO_TICKS (time config_time : Z) : Z :=
  if 0 =? time then config_time
  else if negb (time / TICKS_INTERVAL =? 0) then time / TICKS_INTERVAL else 1.

Definition BUTTON_INACTIVE : Z := 0.
Definition BUTTON_ACTIVE : Z := 1.

(** ** Data *)

Inductive button_event_t :=
  | BUTTON_PRESS_DOWN | BUTTON_PRESS_UP | BUTTON_PRESS_REPEAT | BUTTON_PRESS_REPEAT_DONE
  | BUTTON_SINGLE_CLICK | BUTTON_DOUBLE_CLICK | BUTTON_MULTIPLE_CLICK
  | BUTTON_LONG_PRESS_START | BUTTON_LONG_PRESS_HOLD | BUTTON_LONG_PRESS_UP
  | BUTTON_PRESS_END | BUTTON_EVENT_MAX | BUTTON_NONE_PRESS.

#[export] Instance button_event_eq_dec : EqDecision button_event_t.
Proof. solve_decision. Defined.

(** The events that have callbacks: those before [BUTTON_EVENT_MAX]. *)
Definition all_events : list button_event_t :=
  [BUTTON_PRESS_DOWN; BUTTON_PRESS_UP; BUTTON_PRESS_REPEAT; BUTTON_PRESS_REPEAT_DONE;
   BUTTON_SINGLE_CLICK; BUTTON_DOUBLE_CLICK; BUTTON_MULTIPLE_CLICK;
   BUTTON_LONG_PRESS_START; BUTTON_LONG_PRESS_HOLD; BUTTON_LONG_PRESS_UP; BUTTON_PRESS_END].

Inductive press_state :=
  | PRESS_DOWN_CHECK | PRESS_UP_CHECK | PRESS_REPEAT_DOWN_CHECK
  | PRESS_REPEAT_UP_CHECK | PRESS_LONG_PRESS_UP_CHECK.

#[export] Instance press_state_eq_dec : EqDecision press_state.
Proof. solve_decision. Defined.

(** [event_args] is a union of one 16-bit field. *)
Record button_cb_info_t := mk_cb { cb : Z; usr_data : Z; event_args : Z }.

(** A pointer to callback entries: null, a block of the heap, or freed. *)
Inductive cb_block := Null | Block (l : list button_cb_info_t) | Freed.

(** A callback invocation: [btn->event] at the call, the callback, its argument. *)
Record call := mk_call { call_event : button_event_t; call_cb : Z; call_data : Z }.

Record button_dev_t := mk_dev {
  ticks : Z;
  long_press_ticks : Z;
  short_press_ticks : Z;
  long_press_hold_cnt : Z;
  repeat : Z;
  pstate : press_state;
  debounce_cnt : Z;
  button_level : Z;
  event : button_event_t;
  cb_info : button_event_t -> cb_block;
  cb_size : button_event_t -> Z;
  count0 : Z;
  count1 : Z;
  calls : list call;
}.

Definition set_ticks (v : Z) (b : button_dev_t) : button_dev_t :=
  mk_dev v (long_press_ticks b) (short_press_ticks b) (long_press_hold_cnt b) (repeat b)
    (pstate b) (debounce_cnt b) (button_level b) (event b) (cb_info b) (cb_size b) (count0 b)
    (count1 b) (calls b).
Definition set_long_press_ticks (v : Z) (b : button_dev_t) : button_dev_t :=
  mk_dev (ticks b) v (short_press_ticks b) (long_press_hold_cnt b) (repeat b) (pstate b)
    (debounce_cnt b) (button_level b) (event b) (cb_info b) (cb_size b) (count0 b) (count1 b)
    (calls b).
Definition set_short_press_ticks (v : Z) (b : button_dev_t) : button_dev_t :=
  mk_dev (ticks b) (long_press_ticks b) v (long_press_hold_cnt b) (repeat b) (pstate b)
    (debounce_cnt b) (button_level b) (event b) (cb_info b) (cb_size b) (count0 b) (count1 b)
    (calls b).
Definition set_long_press_hold_cnt (v : Z) (b : button_dev_t) : button_dev_t :=
  mk_dev (ticks b) (long_press_ticks b) (short_press_ticks b) v (repeat b) (pstate b)
    (debounce_cnt b) (button_level b) (event b) (cb_info b) (cb_size b) (count0 b) (count1 b)
    (calls b).
Definition set_repeat (v : Z) (b : button_dev_t) : button_dev_t :=
  mk_dev (ticks b) (long_press_ticks b) (short_press_ticks b) (long_press_hold_cnt b) v
    (pstate b) (debounce_cnt b) (button_level b) (event b) (cb_info b) (cb_size b) (count0 b)
    (count1 b) (calls b).
Definition set_pstate (v : press_state) (b : button_dev_t) : button_dev_t :=
  mk_dev (ticks b) (long_press_ticks b) (short_press_ticks b) (long_press_hold_cnt b)
    (repeat b) v (debounce_cnt b) (button_level b) (event b) (cb_info b) (cb_size b) (count0 b)
    (count1 b) (calls b).
Definition set_debounce_cnt (v : Z) (b : button_dev_t) : button_dev_t :=
  mk_dev (ticks b) (long_press_ticks b) (short_press_ticks b) (long_press_hold_cnt b)
    (repeat b) (pstate b) v (button_level b) (event b) (cb_info b) (cb_size b) (count0 b)
    (count1 b) (calls b).
Definition set_button_level (v : Z) (b : button_dev_t) : button_dev_t :=
  mk_dev (ticks b) (long_press_ticks b) (short_press_ticks b) (long_press_hold_cnt b)
    (repeat b) (pstate b) (debounce_cnt b) v (event b) (cb_info b) (cb_size b) (count0 b)
    (count1 b) (calls b).
Definition set_event (v : button_event_t) (b : button_dev_t) : button_dev_t :=
  mk_dev (ticks b) (long_press_ticks b) (short_press_ticks b) (long_press_hold_cnt b)
    (repeat b) (pstate b) (debounce_cnt b) (button_level b) v (cb_info b) (cb_size b)
    (count0 b) (count1 b) (calls b).
Definition set_cb_info (v : button_event_t -> cb_block) (b : button_dev_t) : button_dev_t :=
  mk_dev (ticks b) (long_press_ticks b) (short_press_ticks b) (long_press_hold_cnt b)
    (repeat b) (pstate b) (debounce_cnt b) (button_level b) (event b) v (cb_size b) (count0 b)
    (count1 b) (calls b).
Definition set_cb_size (v : button_event_t -> Z) (b : button_dev_t) : button_dev_t :=
  mk_dev (ticks b) (long_press_ticks b) (short_press_ticks b) (long_press_hold_cnt b)
    (repeat b) (pstate b) (debounce_cnt b) (button_level b) (event b) (cb_info b) v (count0 b)
    (count1 b) (calls b).
Definition set_count0 (v : Z) (b : button_dev_t) : button_dev_t :=
  mk_dev (ticks b) (long_press_ticks b) (short_press_ticks b) (long_press_hold_cnt b)
    (repeat b) (pstate b) (debounce_cnt b) (button_level b) (event b) (cb_info b) (cb_size b) v
    (count1 b) (calls b).
Definition set_count1 (v : Z) (b : button_dev_t) : button_dev_t :=
  mk_dev (ticks b) (long_press_ticks b) (short_press_ticks b) (long_press_hold_cnt b)
    (repeat b) (pstate b) (debounce_cnt b) (button_level b) (event b) (cb_info b) (cb_size b)
    (count0 b) v (calls b).
Definition set_calls (v : list call) (b : button_dev_t) : button_dev_t :=
  mk_dev (ticks b) (long_press_ticks b) (short_press_ticks b) (long_press_hold_cnt b)
    (repeat b) (pstate b) (debounce_cnt b) (button_level b) (event b) (cb_info b) (cb_size b)
    (count0 b) (count1 b) v.

Definition upd {A} (f : button_event_t -> A) (e : button_event_t) (v : A) : button_event_t -> A :=
  fun e' => if bool_decide (e' = e) then v else f e'.

(** ** Callback entries *)

Definition has_cb (e : button_event_t) (b : button_dev_t) : bool :=
  match cb_info b e with Null => false | _ => true end.

(** [btn->cb_info[e][i]]. *)
Definition entry (e : button_event_t) (i : Z) : M button_dev_t button_cb_info_t :=
  b ← gets cb_info;
  match b e with
  | Block l => if i <? 0 then lift Fault
               else match l !! Z.to_nat i with Some c => mret c | None => lift Fault end
  | _ => lift Fault
  end.

(** [btn->cb_info[e][i] = c]. *)
Definition set_entry (e : button_event_t) (i : Z) (c : button_cb_info_t) : M button_dev_t unit :=
  b ← gets cb_info;
  match b e with
  | Block l => if (0 <=? i) && (i <? zlen l)
               then modify (set_cb_info (upd b e (Block (<[Z.to_nat i := c]> l))))
               else lift Fault
  | _ => lift Fault
  end.

(** [btn->cb_info[e][i].cb(btn, btn->cb_info[e][i].usr_data)]. *)
Definition call_cb_at (e : button_event_t) (i : Z) : M button_dev_t unit :=
  c ← entry e i;
  ev ← gets event;
  modify (fun b => set_calls (calls b ++ [mk_call ev (cb c) (usr_data c)]) b).

Fixpoint call_loop (n : nat) (i : Z) (e : button_event_t) : M button_dev_t unit :=
  match n with
  | O => mret tt
  | S n => call_cb_at e i ;; call_loop n (i + 1) e
  end.

Definition CALL_EVENT_CB (e : button_event_t) : M button_dev_t unit :=
  h ← gets (has_cb e);
  if h : bool then n ← gets (fun b => cb_size b e); call_loop (Z.to_nat n) 0 e else mret tt.

(** ** The timer tick *)

Definition iot_button_get_pressed_time (b : button_dev_t) : Z := u32 (ticks b * TICKS_INTERVAL).
Definition long_press_time (b : button_dev_t) : Z := u32 (long_press_ticks b * TICKS_INTERVAL).

(** The tick counter and the debouncer. *)
Definition debounce (read_gpio_level : Z) (b : button_dev_t) : button_dev_t :=
  let b := if bool_decide (pstate b = PRESS_DOWN_CHECK) then b
           else set_ticks (u32 (ticks b + 1)) b in
  if negb (read_gpio_level =? button_level b) then
    let n := wrap 4 (debounce_cnt b + 1) in
    if DEBOUNCE_TICKS <=? n
    then set_debounce_cnt 0 (set_button_level (wrap 1 read_gpio_level) b)
    else set_debounce_cnt n b
  else set_debounce_cnt 0 b.

(** The loop that calls the callbacks of [BUTTON_LONG_PRESS_START] whose press
    time is [time], from [count[0]] on. *)
Fixpoint start_loop (fuel : nat) (time : Z) : M button_dev_t unit :=
  match fuel with
  | O => hang
  | S fuel =>
      i ← gets count0;
      call_cb_at BUTTON_LONG_PRESS_START i ;;
      modify (set_count0 (i + 1)) ;;
      n ← gets (fun b => cb_size b BUTTON_LONG_PRESS_START);
      if n <=? i + 1 then mret tt
      else
        c ← entry BUTTON_LONG_PRESS_START (i + 1);
        if event_args c =? time then start_loop fuel time else mret tt
  end.

Definition start_calls (time : Z) : M button_dev_t unit :=
  n ← gets (fun b => cb_size b BUTTON_LONG_PRESS_START); start_loop (Z.to_nat n) time.

(** The scans of the held state: the first entry from [i] on, among [n], whose
    press time has not passed; the last press time read otherwise. *)
Fixpoint scan_times (n : nat) (i time limit : Z) (e : button_event_t) : M button_dev_t (Z * option Z) :=
  match n with
  | O => mret (time, None)
  | S n =>
      c ← entry e i;
      if limit <=? event_args c then mret (event_args c, Some i)
      else scan_times n (i + 1) (event_args c) limit e
  end.

Definition near (pressed_time time : Z) : bool := Z.abs (sgn 32 pressed_time - time) <=? TOLERANCE.

(** The callbacks of [BUTTON_LONG_PRESS_START] due while the button is held. *)
Definition held_start : M button_dev_t unit :=
  h ← gets (has_cb BUTTON_LONG_PRESS_START);
  if h : bool then
    i ← gets count0;
    c ← entry BUTTON_LONG_PRESS_START i;
    limit ← gets long_press_time;
    n ← gets (fun b => cb_size b BUTTON_LONG_PRESS_START);
    r ← (if event_args c <? limit
         then scan_times (Z.to_nat (n - (i + 1))) (i + 1) (event_args c) limit BUTTON_LONG_PRESS_START
         else mret (event_args c, None));
    match r.2 with Some j => modify (set_count0 j) | None => mret tt end ;;
    i ← gets count0;
    pressed_time ← gets iot_button_get_pressed_time;
    if (i <? n) && near pressed_time r.1
    then modify (set_event BUTTON_LONG_PRESS_START) ;; start_calls r.1
    else mret tt
  else mret tt.

(** The loop that advances [count[1]] over the entries of press time [time]. *)
Fixpoint up_loop (fuel : nat) (time : Z) : M button_dev_t unit :=
  match fuel with
  | O => hang
  | S fuel =>
      i ← gets count1;
      modify (set_count1 (i + 1)) ;;
      n ← gets (fun b => cb_size b BUTTON_LONG_PRESS_UP);
      if n <=? i + 1 + 1 then mret tt
      else
        c ← entry BUTTON_LONG_PRESS_UP (i + 1 + 1);
        if event_args c =? time then up_loop fuel time else mret tt
  end.

Definition held_up : M button_dev_t unit :=
  h ← gets (has_cb BUTTON_LONG_PRESS_UP);
  if h : bool then
    i ← gets count1;
    c ← entry BUTTON_LONG_PRESS_UP (i + 1);
    limit ← gets long_press_time;
    n ← gets (fun b => cb_size b BUTTON_LONG_PRESS_UP);
    r ← (if event_args c <? limit
         then scan_times (Z.to_nat (n - (i + 1))) (i + 1) (event_args c) limit BUTTON_LONG_PRESS_UP
         else mret (event_args c, None));
    match r.2 with Some j => modify (set_count1 j) | None => mret tt end ;;
    i ← gets count1;
    pressed_time ← gets iot_button_get_pressed_time;
    if (i + 1 <? n) && near pressed_time r.1 then up_loop (Z.to_nat n) r.1 else mret tt
  else mret tt.

(** The loop that calls the callbacks of [BUTTON_LONG_PRESS_UP] of one press
    time, from [count[1]] down. *)
Fixpoint release_loop (fuel : nat) : M button_dev_t unit :=
  match fuel with
  | O => hang
  | S fuel =>
      i ← gets count1;
      call_cb_at BUTTON_LONG_PRESS_UP i ;;
      if i =? 0 then mret tt
      else
        modify (set_count1 (i - 1)) ;;
        c ← entry BUTTON_LONG_PRESS_UP (i - 1);
        d ← entry BUTTON_LONG_PRESS_UP i;
        if event_args c =? event_args d then release_loop fuel else mret tt
  end.

Definition fire (e : button_event_t) : M button_dev_t unit :=
  modify (set_event e) ;; CALL_EVENT_CB e.

Fixpoint multiple_loop (n : nat) (i : Z) : M button_dev_t unit :=
  match n with
  | O => mret tt
  | S n =>
      c ← entry BUTTON_MULTIPLE_CLICK i;
      r ← gets repeat;
      (if r =? event_args c then call_cb_at BUTTON_MULTIPLE_CLICK i else mret tt) ;;
      multiple_loop n (i + 1)
  end.

(** The cases of the state machine. *)
Definition press_down_check : M button_dev_t unit :=
  l ← gets button_level;
  if l =? BUTTON_ACTIVE then
    fire BUTTON_PRESS_DOWN ;;
    modify (set_ticks 0) ;; modify (set_repeat 1) ;; modify (set_pstate PRESS_UP_CHECK)
  else modify (set_event BUTTON_NONE_PRESS).

Definition press_up_check : M button_dev_t unit :=
  l ← gets button_level;
  if negb (l =? BUTTON_ACTIVE) then
    fire BUTTON_PRESS_UP ;; modify (set_ticks 0) ;; modify (set_pstate PRESS_REPEAT_DOWN_CHECK)
  else
    late ← gets (fun b => long_press_ticks b <=? ticks b);
    if late : bool then
      modify (set_event BUTTON_LONG_PRESS_START) ;;
      modify (set_pstate PRESS_LONG_PRESS_UP_CHECK) ;;
      pressed_time ← gets iot_button_get_pressed_time;
      limit ← gets long_press_time;
      h ← gets (fun b => has_cb BUTTON_LONG_PRESS_START b && (count0 b =? 0));
      if h : bool then
        if Z.abs (sgn 32 (pressed_time - limit)) <=? TOLERANCE then
          i ← gets count0;
          c ← entry BUTTON_LONG_PRESS_START i;
          if event_args c =? limit then start_calls limit else mret tt
        else mret tt
      else mret tt
    else mret tt.

Definition press_repeat_down_check : M button_dev_t unit :=
  l ← gets button_level;
  if l =? BUTTON_ACTIVE then
    fire BUTTON_PRESS_DOWN ;;
    modify (set_event BUTTON_PRESS_REPEAT) ;;
    modify (fun b => set_repeat (u8 (repeat b + 1)) b) ;;
    CALL_EVENT_CB BUTTON_PRESS_REPEAT ;;
    modify (set_ticks 0) ;; modify (set_pstate PRESS_REPEAT_UP_CHECK)
  else
    late ← gets (fun b => short_press_ticks b <? ticks b);
    if late : bool then
      r ← gets repeat;
      (if r =? 1 then fire BUTTON_SINGLE_CLICK
       else if r =? 2 then fire BUTTON_DOUBLE_CLICK else mret tt) ;;
      modify (set_event BUTTON_MULTIPLE_CLICK) ;;
      n ← gets (fun b => cb_size b BUTTON_MULTIPLE_CLICK);
      multiple_loop (Z.to_nat n) 0 ;;
      fire BUTTON_PRESS_REPEAT_DONE ;;
      modify (set_repeat 0) ;; modify (set_pstate PRESS_DOWN_CHECK) ;;
      fire BUTTON_PRESS_END
    else mret tt.

Definition press_repeat_up_check : M button_dev_t unit :=
  l ← gets button_level;
  if negb (l =? BUTTON_ACTIVE) then
    fire BUTTON_PRESS_UP ;;
    short ← gets (fun b => ticks b <? short_press_ticks b);
    if short : bool then modify (set_ticks 0) ;; modify (set_pstate PRESS_REPEAT_DOWN_CHECK)
    else modify (set_pstate PRESS_DOWN_CHECK) ;; fire BUTTON_PRESS_END
  else mret tt.

Definition press_long_press_up_check : M button_dev_t unit :=
  l ← gets button_level;
  if l =? BUTTON_ACTIVE then
    hold ← gets (fun b =>
      u32 ((long_press_hold_cnt b + 1) * SERIAL_TICKS + long_press_ticks b) <=? ticks b);
    (if hold : bool then
       modify (set_event BUTTON_LONG_PRESS_HOLD) ;;
       modify (fun b => set_long_press_hold_cnt (u32 (long_press_hold_cnt b + 1)) b) ;;
       CALL_EVENT_CB BUTTON_LONG_PRESS_HOLD
     else mret tt) ;;
    held_start ;; held_up
  else
    modify (set_event BUTTON_LONG_PRESS_UP) ;;
    due ← gets (fun b => has_cb BUTTON_LONG_PRESS_UP b && (0 <=? count1 b));
    (if due : bool then
       i ← gets count1;
       release_loop (Z.to_nat i + 1) ;; modify (set_count1 (-1))
     else mret tt) ;;
    h ← gets (has_cb BUTTON_LONG_PRESS_START);
    (if h : bool then modify (set_count0 0) else mret tt) ;;
    fire BUTTON_PRESS_UP ;;
    modify (set_pstate PRESS_DOWN_CHECK) ;;
    modify (set_long_press_hold_cnt 0) ;;
    fire BUTTON_PRESS_END.

Definition button_handler (read_gpio_level : Z) : M button_dev_t unit :=
  modify (debounce read_gpio_level) ;;
  s ← gets pstate;
  match s with
  | PRESS_DOWN_CHECK => press_down_check
  | PRESS_UP_CHECK => press_up_check
  | PRESS_REPEAT_DOWN_CHECK => press_repeat_down_check
  | PRESS_REPEAT_UP_CHECK => press_repeat_up_check
  | PRESS_LONG_PRESS_UP_CHECK => press_long_press_up_check
  end.

(** A sequence of ticks. *)
Fixpoint ticks_of (levels : list Z) : M button_dev_t unit :=
  match levels with [] => mret tt | l :: ls => button_handler l ;; ticks_of ls end.

(** ** The callback registry *)

Definition event_lt_max (e : button_event_t) : bool :=
  match e with BUTTON_EVENT_MAX | BUTTON_NONE_PRESS => false | _ => true end.

Definition is_long (e : button_event_t) : bool :=
  bool_decide (e = BUTTON_LONG_PRESS_START) || bool_decide (e = BUTTON_LONG_PRESS_UP).
Definition is_multiple (e : button_event_t) : bool := bool_decide (e = BUTTON_MULTIPLE_CLICK).

Inductive button_param_t := BUTTON_LONG_PRESS_TIME_MS | BUTTON_SHORT_PRESS_TIME_MS | BUTTON_PARAM_MAX.

(** The value is a pointer converted to [int32_t]; the division truncates. *)
Definition iot_button_set_param (param : button_param_t) (value : Z) : M button_dev_t Z :=
  match param with
  | BUTTON_LONG_PRESS_TIME_MS =>
      modify (set_long_press_ticks (u32 (Z.quot (sgn 32 value) TICKS_INTERVAL)))
  | BUTTON_SHORT_PRESS_TIME_MS =>
      modify (set_short_press_ticks (u32 (Z.quot (sgn 32 value) TICKS_INTERVAL)))
  | BUTTON_PARAM_MAX => mret tt
  end ;;
  mret ESP_OK.

(** The counters of an event are set when its first callback is registered
    and when its callbacks are removed. *)
Definition reset_count (e : button_event_t) : M button_dev_t unit :=
  if bool_decide (e = BUTTON_LONG_PRESS_START) then modify (set_count0 0)
  else if bool_decide (e = BUTTON_LONG_PRESS_UP) then modify (set_count1 (-1))
  else mret tt.

(** The insertion loop from [i] down: entries with a larger key move up. *)
Fixpoint insert_loop (n : nat) (e : button_event_t) (c : button_cb_info_t) : M button_dev_t unit :=
  match n with
  | O => mret tt
  | S i =>
      d ← entry e (Z.of_nat i);
      if event_args c <? event_args d then
        set_entry e (Z.of_nat i + 1) d ;; set_entry e (Z.of_nat i) c ;; insert_loop i e c
      else set_entry e (Z.of_nat i + 1) c
  end.

(** Placing the entry appended last by its key. *)
Definition insert_sorted (e : button_event_t) (c : button_cb_info_t) : M button_dev_t unit :=
  n ← gets (fun b => cb_size b e);
  if 2 <=? n then insert_loop (Z.to_nat (n - 1)) e c
  else
    d ← entry e (n - 1);
    set_entry e (n - 1) (mk_cb (cb d) (usr_data d) (event_args c)).

(** The block after [calloc] or [realloc]: [alloc] is whether it succeeds,
    [junk] what a cell of the enlarged block holds. *)
Definition grow_block (alloc : bool) (junk : button_cb_info_t) (e : button_event_t)
    : M button_dev_t bool :=
  if negb alloc then mret false
  else
    b ← gets cb_info;
    n ← gets (fun b => cb_size b e);
    match b e with
    | Null =>
        modify (set_cb_info (upd b e (Block [mk_cb 0 0 0]))) ;; reset_count e ;; mret true
    | Block l =>
        modify (set_cb_info (upd b e (Block (resize (Z.to_nat (n + 1)) junk l)))) ;; mret true
    | Freed => lift Fault
    end.

(** The arguments that [iot_button_register_cb] refuses. *)
Definition bad_args (e : button_event_t) (args : option Z) (b : button_dev_t) : bool :=
  (is_multiple e && bool_decide (args = None)) ||
  match args with
  | None => false
  | Some a =>
      (is_long e && (a <=? u32 (short_press_ticks b * TICKS_INTERVAL))) || (is_multiple e && (a =? 0))
  end.

Definition register_long (e : button_event_t) (args : option Z) (f data : Z) : M button_dev_t Z :=
  def ← gets (fun b => u16 (long_press_ticks b * TICKS_INTERVAL));
  let press_time := default def args in
  short ← gets short_press_ticks;
  if negb (short <? press_time / TICKS_INTERVAL) then mret ESP_ERR_INVALID_ARG
  else
    insert_sorted e (mk_cb f data press_time) ;;
    long ← gets long_press_ticks;
    if (short <? press_time / TICKS_INTERVAL) && (press_time / TICKS_INTERVAL <? long)
    then iot_button_set_param BUTTON_LONG_PRESS_TIME_MS press_time ;; mret ESP_OK
    else mret ESP_OK.

Definition iot_button_register_cb (alloc : bool) (junk : button_cb_info_t)
    (e : button_event_t) (args : option Z) (f : option Z) (data : Z) : M button_dev_t Z :=
  if negb (event_lt_max e) then mret ESP_ERR_INVALID_ARG
  else
    match f with
    | None => mret ESP_ERR_INVALID_ARG
    | Some f =>
        bad ← gets (bad_args e args);
        if bad : bool then mret ESP_ERR_INVALID_ARG
        else
          ok ← grow_block alloc junk e;
          if negb ok then mret ESP_ERR_NO_MEM
          else
            n ← gets (fun b => cb_size b e);
            c ← entry e n;
            set_entry e n (mk_cb f data (event_args c)) ;;
            sz ← gets cb_size;
            modify (set_cb_size (upd sz e (u32 (n + 1)))) ;;
            if is_long e then register_long e args f data
            else if is_multiple e then
              def ← gets (fun b => u16 (long_press_ticks b * TICKS_INTERVAL));
              insert_sorted e (mk_cb f data (default def args)) ;; mret ESP_OK
            else mret ESP_OK
    end.

(** Moving the entries after [j] down, [n] turns. *)
Fixpoint shift_loop (n : nat) (j : Z) (e : button_event_t) : M button_dev_t unit :=
  match n with
  | O => mret tt
  | S n => c ← entry e (j + 1); set_entry e j c ;; shift_loop n (j + 1) e
  end.

(** The search for the entry with key [key], from [i] on. *)
Fixpoint find_key (n : nat) (i key : Z) (e : button_event_t) : M button_dev_t (option Z) :=
  match n with
  | O => mret None
  | S n =>
      c ← entry e i;
      if key =? event_args c then mret (Some i) else find_key n (i + 1) key e
  end.

Definition unregister_one (alloc : bool) (e : button_event_t) (key : Z) : M button_dev_t Z :=
  n ← gets (fun b => cb_size b e);
  r ← find_key (Z.to_nat n) 0 key e;
  match r with
  | None => mret ESP_ERR_NOT_FOUND
  | Some i =>
      shift_loop (Z.to_nat (n - i)) i e ;;
      b ← gets cb_info;
      sz ← gets cb_size;
      if negb (n =? 1) then
        if negb alloc then mret ESP_ERR_NO_MEM
        else
          match b e with
          | Block l =>
              modify (set_cb_info (upd b e (Block (take (Z.to_nat (n - 1)) l)))) ;;
              modify (set_cb_size (upd sz e (u32 (n - 1)))) ;; mret ESP_OK
          | _ => lift Fault
          end
      else
        modify (set_cb_info (upd b e Null)) ;; modify (set_cb_size (upd sz e 0)) ;; mret ESP_OK
  end.

Definition iot_button_unregister_cb (alloc : bool) (e : button_event_t) (args : option Z)
    : M button_dev_t Z :=
  if negb (event_lt_max e) then mret ESP_ERR_INVALID_ARG
  else
    h ← gets (has_cb e);
    if negb h then mret ESP_ERR_INVALID_STATE
    else
      let key := default 0 args in
      if (is_long e || is_multiple e) && negb (key =? 0) then unregister_one alloc e key
      else
        b ← gets cb_info;
        match b e with
        | Freed => lift Fault
        | _ =>
            reset_count e ;;
            modify (set_cb_info (upd b e Null)) ;;
            sz ← gets cb_size;
            modify (set_cb_size (upd sz e 0)) ;; mret ESP_OK
        end.

Definition iot_button_count_cb (b : button_dev_t) : Z :=
  foldl (fun r e => if has_cb e b then u32 (r + cb_size b e) else r) 0 all_events.
Definition iot_button_count_event_cb (b : button_dev_t) (e : button_event_t) : outcome Z :=
  if event_lt_max e then Ret (cb_size b e) else Fault.
Definition iot_button_get_event (b : button_dev_t) : button_event_t := event b.
Definition iot_button_get_repeat (b : button_dev_t) : Z := repeat b.
Definition iot_button_get_long_press_hold_cnt (b : button_dev_t) : Z := u16 (long_press_hold_cnt b).

(** A device after [iot_button_create]. *)
Definition new_device (long_press_time short_press_time : Z) : button_dev_t :=
  mk_dev 0 (TIME_TO_TICKS long_press_time LONG_TICKS) (TIME_TO_TICKS short_press_time SHORT_TICKS)
    0 0 PRESS_DOWN_CHECK 0 BUTTON_INACTIVE BUTTON_NONE_PRESS (fun _ => Null) (fun _ => 0) 0 0 [].
