(* ===== verification/ButtonFacts.v ===== *)
(** * Facts about the button state machine

    Click trains, glitches, and the callback registry. *)

From S2P Require Import Prelude CMem CState Button.

(** ** Runs *)

Lemma done_bind {S A B} (m : M S A) (f : A -> M S B) s a s' :
  m s = Done a s' -> (m ≫= f) s = f a s'.
Proof. unfold mbind, M_bind. by intros ->. Qed.

Lemma ticks_app xs ys b b' :
  ticks_of xs b = Done tt b' -> ticks_of (xs ++ ys) b = ticks_of ys b'.
Proof.
  revert b. induction xs as [|x xs IH]; intros b; simpl; [by intros [= ->]|].
  unfold mbind, M_bind. destruct (button_handler x b) as [[] b1| | |]; try done. apply IH.
Qed.

Lemma ticks_cons x xs b b' : button_handler x b = Done tt b' -> ticks_of (x :: xs) b = ticks_of xs b'.
Proof. intros H. simpl. by rewrite (done_bind _ _ _ _ _ H). Qed.

(** ** The registry of a device *)

(** The entries of an event. *)
Definition entries (b : button_dev_t) (e : button_event_t) : list button_cb_info_t :=
  match cb_info b e with Block l => l | _ => [] end.

(** No block has been freed and each size is the length of its block. *)
Definition registry_ok (b : button_dev_t) : Prop :=
  forall e, cb_info b e <> Freed /\ cb_size b e = zlen (entries b e) /\ zlen (entries b e) < 2 ^ 31.

Definition fired (b : button_dev_t) (e : button_event_t) : list call :=
  (fun c => mk_call e (cb c) (usr_data c)) <$> entries b e.

Lemma entry_run b e i c l :
  cb_info b e = Block l -> l !! i = Some c -> entry e (Z.of_nat i) b = Done c b.
Proof.
  intros Hb Hc. unfold entry. run_simpl. rewrite Hb, (proj2 (Z.ltb_ge _ _)) by lia.
  by rewrite Nat2Z.id, Hc.
Qed.

Lemma entry_past b e l i : cb_info b e = Block l -> zlen l <= i -> entry e i b = Undef.
Proof.
  intros Hb Hi. unfold entry. run_simpl. rewrite Hb. destruct (Z.ltb_spec i 0); [done|].
  by rewrite lookup_ge_None_2 by lia.
Qed.

Lemma call_run b e i c l :
  cb_info b e = Block l -> l !! i = Some c ->
  call_cb_at e (Z.of_nat i) b = Done tt (set_calls (calls b ++ [mk_call (event b) (cb c) (usr_data c)]) b).
Proof. intros Hb Hc. unfold call_cb_at. by rewrite (done_bind _ _ _ _ _ (entry_run b e i c l Hb Hc)). Qed.

Lemma set_calls_calls cs cs' b : set_calls cs (set_calls cs' b) = set_calls cs b.
Proof. reflexivity. Qed.

Lemma call_loop_run n b e l (i : nat) :
  cb_info b e = Block l -> (i + n = length l)%nat ->
  call_loop n (Z.of_nat i) e b
  = Done tt (set_calls (calls b ++ ((fun c => mk_call (event b) (cb c) (usr_data c)) <$> drop i l)) b).
Proof.
  revert b i. induction n as [|n IH]; intros b i Hb Hi.
  - rewrite drop_ge by lia. simpl. rewrite app_nil_r. by destruct b.
  - destruct (lookup_lt_is_Some_2 l i) as [c Hc]; [lia|]. simpl.
    rewrite (done_bind _ _ _ _ _ (call_run b e i c l Hb Hc)).
    replace (Z.of_nat i + 1) with (Z.of_nat (S i)) by lia. rewrite IH; [|done|lia].
    rewrite set_calls_calls. simpl. rewrite (drop_S _ _ _ Hc), fmap_cons, <-app_assoc. done.
Qed.

Lemma fire_run b e :
  registry_ok b -> fire e b = Done tt (set_calls (calls b ++ fired b e) (set_event e b)).
Proof.
  intros Hr. destruct (Hr e) as (Hf & Hs & Hm). unfold fire, CALL_EVENT_CB.
  unfold entries in Hs. unfold fired, entries. run_simpl. unfold has_cb. simpl.
  destruct (cb_info b e) as [|l|] eqn:E; [| |done].
  - simpl. rewrite app_nil_r. by destruct b.
  - simpl. rewrite Hs, Nat2Z.id. exact (call_loop_run (length l) (set_event e b) e l 0 E eq_refl).
Qed.

Lemma multiple_run n b l (i : nat) :
  cb_info b BUTTON_MULTIPLE_CLICK = Block l -> (i + n = length l)%nat ->
  multiple_loop n (Z.of_nat i) b
  = Done tt (set_calls (calls b ++ ((fun c => mk_call (event b) (cb c) (usr_data c)) <$>
               filter (fun c => repeat b = event_args c) (drop i l))) b).
Proof.
  revert b i. induction n as [|n IH]; intros b i Hb Hi.
  - rewrite drop_ge by lia. simpl. rewrite app_nil_r. by destruct b.
  - destruct (lookup_lt_is_Some_2 l i) as [c Hc]; [lia|]. simpl.
    rewrite (done_bind _ _ _ _ _ (entry_run b _ i c l Hb Hc)), (drop_S _ _ _ Hc), filter_cons.
    replace (Z.of_nat i + 1) with (Z.of_nat (S i)) by lia.
    unfold gets at 1. rewrite (done_bind (fun s => Done (repeat s) s) _ _ _ _ eq_refl).
    destruct (Z.eqb_spec (repeat b) (event_args c)) as [Er|Er].
    + rewrite decide_True by done.
      rewrite (done_bind _ _ _ _ _ (call_run b _ i c l Hb Hc)), IH; [|done|lia].
      rewrite set_calls_calls, fmap_cons. simpl. by rewrite <-app_assoc.
    + rewrite decide_False by done.
      rewrite (done_bind (mret tt) _ b tt b eq_refl). apply IH; [done|lia].
Qed.

(** ** Runs of equal samples

    [at_ b st t r d l e cs]: the device [b] with the state that a tick
    changes replaced. *)

Lemma dev_eta b :
  b = mk_dev (ticks b) (long_press_ticks b) (short_press_ticks b) (long_press_hold_cnt b) (repeat b)
        (pstate b) (debounce_cnt b) (button_level b) (event b) (cb_info b) (cb_size b) (count0 b)
        (count1 b) (calls b).
Proof. by destruct b. Qed.

Section Clicks.
Context (b : button_dev_t) (Hreg : registry_ok b).
Context (Hshort : 0 <= short_press_ticks b < 2 ^ 31) (Hlong : 0 <= long_press_ticks b < 2 ^ 31).

Definition at_ (st : press_state) (t r d l : Z) (e : button_event_t) (cs : list call) : button_dev_t :=
  mk_dev t (long_press_ticks b) (short_press_ticks b) (long_press_hold_cnt b) r st d l e
    (cb_info b) (cb_size b) (count0 b) (count1 b) cs.

Lemma fire_at st t r d l e0 e cs :
  fire e (at_ st t r d l e0 cs) = Done tt (at_ st t r d l e (cs ++ fired b e)).
Proof using Hreg. apply fire_run. exact Hreg. Qed.

(** The callbacks of [BUTTON_MULTIPLE_CLICK] for [r] clicks. *)
Definition multiple (r : Z) : list call :=
  (fun c => mk_call BUTTON_MULTIPLE_CLICK (cb c) (usr_data c)) <$>
    filter (fun c => r = event_args c) (entries b BUTTON_MULTIPLE_CLICK).

Lemma multiple_at st t r d l cs :
  multiple_loop (Z.to_nat (cb_size b BUTTON_MULTIPLE_CLICK)) 0 (at_ st t r d l BUTTON_MULTIPLE_CLICK cs)
  = Done tt (at_ st t r d l BUTTON_MULTIPLE_CLICK (cs ++ multiple r)).
Proof using Hreg.
  destruct (Hreg BUTTON_MULTIPLE_CLICK) as (Hf & Hs & Hm). unfold multiple, entries in *.
  destruct (cb_info b BUTTON_MULTIPLE_CLICK) as [|ks|] eqn:E; [| |done]; rewrite Hs.
  - simpl. by rewrite app_nil_r.
  - rewrite Nat2Z.id. exact (multiple_run (length ks) (at_ st t r d l _ cs) ks 0 E eq_refl).
Qed.

(** One tick in each situation of a click train.  A sample that differs from
    the debounced level is taken over when it is the second in a row. *)

Lemma tick_idle t r e cs :
  button_handler 0 (at_ PRESS_DOWN_CHECK t r 0 0 e cs)
  = Done tt (at_ PRESS_DOWN_CHECK t r 0 0 BUTTON_NONE_PRESS cs).
Proof using Type. reflexivity. Qed.

Lemma tick_idle_after t r e cs :
  button_handler 0 (at_ PRESS_DOWN_CHECK t r 1 0 e cs)
  = Done tt (at_ PRESS_DOWN_CHECK t r 0 0 BUTTON_NONE_PRESS cs).
Proof using Type. reflexivity. Qed.

Lemma tick_glitch t r e cs :
  button_handler 1 (at_ PRESS_DOWN_CHECK t r 0 0 e cs)
  = Done tt (at_ PRESS_DOWN_CHECK t r 1 0 BUTTON_NONE_PRESS cs).
Proof using Type. reflexivity. Qed.

Lemma tick_down t r e cs :
  button_handler 1 (at_ PRESS_DOWN_CHECK t r 1 0 e cs)
  = Done tt (at_ PRESS_UP_CHECK 0 1 0 1 BUTTON_PRESS_DOWN (cs ++ fired b BUTTON_PRESS_DOWN)).
Proof using Hreg.
  unfold button_handler, modify at 1. run_simpl. unfold press_down_check. run_simpl.
  change (debounce 1 (at_ PRESS_DOWN_CHECK t r 1 0 e cs)) with (at_ PRESS_DOWN_CHECK t r 0 1 e cs).
  simpl. by rewrite fire_at.
Qed.

Lemma next_tick t : 0 <= t < 2 ^ 31 -> u32 (t + 1) = t + 1.
Proof using Type. intros H. apply wrap_id. unfold fits. lia. Qed.

(** The button held down after the first press. *)
Lemma tick_hold x t r e cs :
  (x = 0 \/ x = 1) -> 0 <= t -> t + 1 < long_press_ticks b ->
  button_handler x (at_ PRESS_UP_CHECK t r 0 1 e cs)
  = Done tt (at_ PRESS_UP_CHECK (t + 1) r (1 - x) 1 e cs).
Proof using Hlong.
  intros Hx H0 H1. assert (debounce x (at_ PRESS_UP_CHECK t r 0 1 e cs)
    = at_ PRESS_UP_CHECK (t + 1) r (1 - x) 1 e cs) as Hd.
  { destruct Hx as [->| ->]; unfold debounce; simpl; by rewrite next_tick by lia. }
  unfold button_handler. run_simpl. rewrite Hd. simpl. unfold press_up_check. run_simpl.
  by rewrite (proj2 (Z.leb_gt _ _)) by lia.
Qed.

Lemma tick_up t r e cs :
  button_handler 0 (at_ PRESS_UP_CHECK t r 1 1 e cs)
  = Done tt (at_ PRESS_REPEAT_DOWN_CHECK 0 r 0 0 BUTTON_PRESS_UP (cs ++ fired b BUTTON_PRESS_UP)).
Proof using Hreg.
  unfold button_handler. run_simpl. unfold press_up_check. run_simpl.
  change (debounce 0 _) with (at_ PRESS_UP_CHECK (u32 (t + 1)) r 0 0 e cs). simpl.
  by rewrite fire_at.
Qed.

(** Released, waiting for another press. *)
Lemma tick_gap x t r e cs :
  (x = 0 \/ x = 1) -> 0 <= t -> t + 1 <= short_press_ticks b ->
  button_handler x (at_ PRESS_REPEAT_DOWN_CHECK t r 0 0 e cs)
  = Done tt (at_ PRESS_REPEAT_DOWN_CHECK (t + 1) r x 0 e cs).
Proof using Hshort.
  intros Hx H0 H1. assert (debounce x (at_ PRESS_REPEAT_DOWN_CHECK t r 0 0 e cs)
    = at_ PRESS_REPEAT_DOWN_CHECK (t + 1) r x 0 e cs) as Hd.
  { destruct Hx as [->| ->]; unfold debounce; simpl; by rewrite next_tick by lia. }
  unfold button_handler. run_simpl. rewrite Hd. simpl. unfold press_repeat_down_check. run_simpl.
  by rewrite (proj2 (Z.ltb_ge _ _)) by lia.
Qed.

Lemma tick_again t r e cs :
  0 <= r < 255 ->
  button_handler 1 (at_ PRESS_REPEAT_DOWN_CHECK t r 1 0 e cs)
  = Done tt (at_ PRESS_REPEAT_UP_CHECK 0 (r + 1) 0 1 BUTTON_PRESS_REPEAT
      (cs ++ fired b BUTTON_PRESS_DOWN ++ fired b BUTTON_PRESS_REPEAT)).
Proof using Hreg.
  intros Hr. unfold button_handler. run_simpl. unfold press_repeat_down_check. run_simpl.
  change (debounce 1 _) with (at_ PRESS_REPEAT_DOWN_CHECK (u32 (t + 1)) r 0 1 e cs). simpl.
  rewrite fire_at. simpl. rewrite (wrap_id 8 (r + 1)) by (unfold fits; lia).
  pose proof (fire_at PRESS_REPEAT_DOWN_CHECK (u32 (t + 1)) (r + 1) 0 1 BUTTON_PRESS_DOWN
    BUTTON_PRESS_REPEAT (cs ++ fired b BUTTON_PRESS_DOWN)) as Hf.
  unfold fire in Hf. revert Hf. run_simpl.
  unfold at_ at 1, set_event. simpl. unfold at_ at 2, set_repeat, set_event. simpl.
  intros Hf. rewrite Hf. simpl. by rewrite <-app_assoc.
Qed.

(** Held down again. *)
Lemma tick_hold2 x t r e cs :
  (x = 0 \/ x = 1) -> 0 <= t < 2 ^ 31 ->
  button_handler x (at_ PRESS_REPEAT_UP_CHECK t r 0 1 e cs)
  = Done tt (at_ PRESS_REPEAT_UP_CHECK (t + 1) r (1 - x) 1 e cs).
Proof using Type.
  intros Hx H0. assert (debounce x (at_ PRESS_REPEAT_UP_CHECK t r 0 1 e cs)
    = at_ PRESS_REPEAT_UP_CHECK (t + 1) r (1 - x) 1 e cs) as Hd.
  { destruct Hx as [->| ->]; unfold debounce; simpl; by rewrite next_tick by lia. }
  unfold button_handler. run_simpl. rewrite Hd. reflexivity.
Qed.

Lemma tick_up2 t r e cs :
  0 <= t -> t + 1 < short_press_ticks b ->
  button_handler 0 (at_ PRESS_REPEAT_UP_CHECK t r 1 1 e cs)
  = Done tt (at_ PRESS_REPEAT_DOWN_CHECK 0 r 0 0 BUTTON_PRESS_UP (cs ++ fired b BUTTON_PRESS_UP)).
Proof using Hreg Hshort.
  intros H0 H1. unfold button_handler. run_simpl. unfold press_repeat_up_check. run_simpl.
  change (debounce 0 _) with (at_ PRESS_REPEAT_UP_CHECK (u32 (t + 1)) r 0 0 e cs). simpl.
  rewrite next_tick, fire_at by lia. simpl. by rewrite (proj2 (Z.ltb_lt _ _)) by lia.
Qed.

(** The callbacks at the end of a train of [r] clicks. *)
Definition finish (r : Z) : list call :=
  (if r =? 1 then fired b BUTTON_SINGLE_CLICK
   else if r =? 2 then fired b BUTTON_DOUBLE_CLICK else [])
  ++ multiple r ++ fired b BUTTON_PRESS_REPEAT_DONE ++ fired b BUTTON_PRESS_END.

Lemma tick_done t r e cs :
  0 <= t < 2 ^ 31 -> short_press_ticks b < t + 1 ->
  button_handler 0 (at_ PRESS_REPEAT_DOWN_CHECK t r 0 0 e cs)
  = Done tt (at_ PRESS_DOWN_CHECK (t + 1) 0 0 0 BUTTON_PRESS_END (cs ++ finish r)).
Proof using Hreg.
  intros H0 H1. unfold button_handler. run_simpl. unfold press_repeat_down_check. run_simpl.
  change (debounce 0 _) with (at_ PRESS_REPEAT_DOWN_CHECK (u32 (t + 1)) r 0 0 e cs). simpl.
  rewrite next_tick, (proj2 (Z.ltb_lt _ _)) by lia. unfold finish.
  set (at0 := at_ PRESS_REPEAT_DOWN_CHECK (t + 1) r 0 0).
  assert (exists e1, (if r =? 1 then fire BUTTON_SINGLE_CLICK
     else if r =? 2 then fire BUTTON_DOUBLE_CLICK else (fun s => Done () s)) (at0 e cs)
    = Done tt (at0 e1 (cs ++ (if r =? 1 then fired b BUTTON_SINGLE_CLICK
         else if r =? 2 then fired b BUTTON_DOUBLE_CLICK else [])))) as [e1 He1].
  { subst at0. destruct (r =? 1); [by rewrite fire_at; eexists|].
    destruct (r =? 2); [by rewrite fire_at; eexists|]. rewrite app_nil_r. by eexists. }
  change (repeat (at0 e cs)) with r. rewrite He1. set (cs1 := cs ++ _). subst at0. simpl.
  change (set_event BUTTON_MULTIPLE_CLICK _)
    with (at_ PRESS_REPEAT_DOWN_CHECK (t + 1) r 0 0 BUTTON_MULTIPLE_CLICK cs1).
  rewrite multiple_at, fire_at. simpl.
  change (set_pstate _ _) with (at_ PRESS_DOWN_CHECK (t + 1) 0 0 0 BUTTON_PRESS_REPEAT_DONE
    ((cs1 ++ multiple r) ++ fired b BUTTON_PRESS_REPEAT_DONE)).
  rewrite fire_at. subst cs1. by rewrite <-!app_assoc.
Qed.

(** *** Runs of equal samples *)

Lemma run_count (X : Z -> button_dev_t) x T n t :
  (forall t, 0 <= t < T -> button_handler x (X t) = Done tt (X (t + 1))) ->
  0 <= t -> t + Z.of_nat n <= T ->
  ticks_of (replicate n x) (X t) = Done tt (X (t + Z.of_nat n)).
Proof using Type.
  intros HX. revert t. induction n as [|n IH]; intros t H0 HT.
  - simpl. by rewrite Z.add_0_r.
  - cbn [replicate]. rewrite (ticks_cons _ _ _ _ (HX t ltac:(lia))), IH by lia. do 2 f_equal. lia.
Qed.

(** Idle ticks: at least one, since the first may follow another event. *)
Lemma run_idle n t r e cs :
  ticks_of (replicate (S n) 0) (at_ PRESS_DOWN_CHECK t r 0 0 e cs)
  = Done tt (at_ PRESS_DOWN_CHECK t r 0 0 BUTTON_NONE_PRESS cs).
Proof using Type.
  revert e. induction n as [|n IH]; intros e; [reflexivity|].
  change (replicate (S (S n)) 0) with (0 :: replicate (S n) 0).
  by rewrite (ticks_cons _ _ _ _ (tick_idle t r e cs)), IH.
Qed.

Definition released (r : Z) (cs : list call) : button_dev_t :=
  at_ PRESS_REPEAT_DOWN_CHECK 0 r 0 0 BUTTON_PRESS_UP cs.

(** The first press of [p] samples, from idle. *)
Lemma first_press p t r e cs :
  (2 <= p)%nat -> Z.of_nat p <= long_press_ticks b ->
  exists s, ticks_of (replicate p 1) (at_ PRESS_DOWN_CHECK t r 0 0 e cs) = Done tt s /\
    ticks_of [0; 0] s = Done tt (released 1 (cs ++ fired b BUTTON_PRESS_DOWN ++ fired b BUTTON_PRESS_UP)).
Proof using Hreg Hlong.
  intros Hp Hl. destruct p as [|[|p]]; [lia..|]. cbn [replicate].
  rewrite (ticks_cons _ _ _ _ (tick_glitch t r e cs)), (ticks_cons _ _ _ _ (tick_down _ _ _ _)).
  set (cs1 := cs ++ _). set (X := fun t => at_ PRESS_UP_CHECK t 1 0 1 BUTTON_PRESS_DOWN cs1).
  exists (X (Z.of_nat p)). split.
  - apply (run_count X 1 (Z.of_nat p) p 0); [|lia..]. intros u Hu. apply tick_hold; auto; lia.
  - rewrite (ticks_cons _ _ _ _ (tick_hold 0 (Z.of_nat p) 1 BUTTON_PRESS_DOWN cs1
      (or_introl eq_refl) ltac:(lia) ltac:(lia))).
    rewrite (ticks_cons _ _ _ _ (tick_up _ _ _ _)). subst cs1. by rewrite <-app_assoc.
Qed.

(** A later press of [p] samples, [g] samples after the previous one. *)
Lemma next_press g p r cs :
  (2 <= g)%nat -> Z.of_nat g <= short_press_ticks b + 1 ->
  (2 <= p)%nat -> Z.of_nat p < short_press_ticks b -> 0 <= r < 255 ->
  exists s, ticks_of (replicate (g - 2) 0 ++ replicate p 1) (released r cs) = Done tt s /\
    ticks_of [0; 0] s = Done tt (released (r + 1)
      (cs ++ fired b BUTTON_PRESS_DOWN ++ fired b BUTTON_PRESS_REPEAT ++ fired b BUTTON_PRESS_UP)).
Proof using Hreg Hshort.
  intros Hg Hgs Hp Hps Hr. destruct p as [|[|p]]; [lia..|]. cbn [replicate].
  assert (ticks_of (replicate (g - 2) 0) (released r cs) = Done tt
    (at_ PRESS_REPEAT_DOWN_CHECK (Z.of_nat (g - 2)) r 0 0 BUTTON_PRESS_UP cs)) as H0.
  { apply (run_count (fun t => at_ PRESS_REPEAT_DOWN_CHECK t r 0 0 BUTTON_PRESS_UP cs) 0
      (Z.of_nat (g - 2)) (g - 2) 0); [|lia..]. intros u Hu. apply tick_gap; auto; lia. }
  rewrite (ticks_app _ _ _ _ H0).
  rewrite (ticks_cons _ _ _ _ (tick_gap 1 (Z.of_nat (g - 2)) r BUTTON_PRESS_UP cs
    (or_intror eq_refl) ltac:(lia) ltac:(lia))).
  rewrite (ticks_cons _ _ _ _ (tick_again _ r _ cs Hr)).
  set (cs1 := cs ++ _). set (X := fun t => at_ PRESS_REPEAT_UP_CHECK t (r + 1) 0 1 BUTTON_PRESS_REPEAT cs1).
  exists (X (Z.of_nat p)). split.
  - apply (run_count X 1 (Z.of_nat p) p 0); [|lia..]. intros u Hu. apply tick_hold2; auto; lia.
  - rewrite (ticks_cons _ _ _ _ (tick_hold2 0 (Z.of_nat p) (r + 1) BUTTON_PRESS_REPEAT cs1
      (or_introl eq_refl) ltac:(lia))).
    rewrite (ticks_cons _ _ _ _ (tick_up2 (Z.of_nat p + 1) (r + 1) BUTTON_PRESS_REPEAT cs1
      ltac:(lia) ltac:(lia))).
    subst cs1. by rewrite <-!app_assoc.
Qed.

(** The wait that ends a train. *)
Lemma last_gap n r cs :
  Z.of_nat n >= short_press_ticks b + 2 ->
  exists t, ticks_of (replicate n 0) (released r cs)
            = Done tt (at_ PRESS_DOWN_CHECK t 0 0 0 BUTTON_NONE_PRESS (cs ++ finish r)).
Proof using Hreg Hshort.
  intros Hn. set (k := Z.to_nat (short_press_ticks b)).
  replace n with (k + (1 + S (n - k - 2)))%nat by lia. rewrite !replicate_add.
  assert (ticks_of (replicate k 0) (released r cs) = Done tt
    (at_ PRESS_REPEAT_DOWN_CHECK (Z.of_nat k) r 0 0 BUTTON_PRESS_UP cs)) as H0.
  { apply (run_count (fun t => at_ PRESS_REPEAT_DOWN_CHECK t r 0 0 BUTTON_PRESS_UP cs) 0
      (Z.of_nat k) k 0); [|lia..]. intros u Hu. apply tick_gap; auto; lia. }
  rewrite (ticks_app _ _ _ _ H0). cbn [replicate app].
  rewrite (ticks_cons _ _ _ _ (tick_done (Z.of_nat k) r BUTTON_PRESS_UP cs ltac:(lia) ltac:(lia))).
  eexists. apply run_idle.
Qed.

(** *** Trains of clicks *)

(** The samples of a press of [p] samples, then for each [(g, q)] a gap of [g]
    and a press of [q], then [n] samples of rest. *)
Definition train (p : nat) (rest : list (nat * nat)) (n : nat) : list Z :=
  replicate p 1 ++ flat_map (fun gq => replicate gq.1 0 ++ replicate gq.2 1) rest ++ replicate n 0.

(** Each gap is short enough and each further press shorter than the limit. *)
Definition quick (gq : nat * nat) : Prop :=
  (2 <= gq.1)%nat /\ Z.of_nat gq.1 <= short_press_ticks b + 1 /\
  (2 <= gq.2)%nat /\ Z.of_nat gq.2 < short_press_ticks b.

Definition train_calls (k : nat) : list call :=
  fired b BUTTON_PRESS_DOWN ++ fired b BUTTON_PRESS_UP ++
  concat (replicate (k - 1)
    (fired b BUTTON_PRESS_DOWN ++ fired b BUTTON_PRESS_REPEAT ++ fired b BUTTON_PRESS_UP)) ++
  finish (Z.of_nat k).

Lemma split_gap g : (2 <= g)%nat -> replicate g (0 : Z) = [0; 0] ++ replicate (g - 2) 0.
Proof using Type. intros H. destruct g as [|[|g]]; [lia..|]. simpl. by rewrite Nat.sub_0_r. Qed.

Lemma rest_run rest n s r cs :
  ticks_of [0; 0] s = Done tt (released r cs) -> Forall quick rest ->
  0 <= r -> r + zlen rest <= 255 -> Z.of_nat n >= short_press_ticks b + 4 ->
  exists t, ticks_of (flat_map (fun gq => replicate gq.1 0 ++ replicate gq.2 1) rest ++ replicate n 0) s
    = Done tt (at_ PRESS_DOWN_CHECK t 0 0 0 BUTTON_NONE_PRESS
        (cs ++ concat (replicate (length rest)
           (fired b BUTTON_PRESS_DOWN ++ fired b BUTTON_PRESS_REPEAT ++ fired b BUTTON_PRESS_UP))
         ++ finish (r + zlen rest))).
Proof using Hreg Hshort.
  intros Hs Hq. revert s r cs Hs. induction Hq as [|[g q] rest (H1 & H2 & H3 & H4) _ IH];
    intros s r cs Hs H0 Hr Hn; cbn [flat_map length concat replicate fst snd app] in *.
  - rewrite (split_gap n) by lia. rewrite (ticks_app _ _ _ _ Hs), Z.add_0_r. apply last_gap. lia.
  - rewrite (split_gap g H1), <-!app_assoc, (ticks_app _ _ _ _ Hs).
    destruct (next_press g q r cs) as (s' & Hp & Hs'); [done|lia|done|done|lia|].
    rewrite app_assoc, (ticks_app _ _ _ _ Hp).
    destruct (IH s' (r + 1) _ Hs' ltac:(lia) ltac:(lia) Hn) as [t Ht]. exists t. rewrite Ht.
    rewrite <-!app_assoc. do 7 f_equal. f_equal. lia.
Qed.

(** Idle and debounced. *)
Definition idle (s : button_dev_t) : Prop :=
  pstate s = PRESS_DOWN_CHECK /\ debounce_cnt s = 0 /\ button_level s = 0.

Lemma idle_at : idle b -> b = at_ PRESS_DOWN_CHECK (ticks b) (repeat b) 0 0 (event b) (calls b).
Proof using Type. intros (H1 & H2 & H3). unfold at_. rewrite (dev_eta b) at 1. by rewrite H1, H2, H3. Qed.

(** C15. A train of clicks is recognised.  On an idle button with a consistent
    registry, a press shorter than the long-press time, followed by up to 254
    presses and gaps shorter than the short-press time and then by rest,
    calls exactly the callbacks of [BUTTON_PRESS_DOWN] and [BUTTON_PRESS_UP]
    for the first press, those with [BUTTON_PRESS_REPEAT] between them for
    each further one, then of [BUTTON_SINGLE_CLICK] for one click and
    [BUTTON_DOUBLE_CLICK] for two, of [BUTTON_MULTIPLE_CLICK] registered for
    that number of clicks, of [BUTTON_PRESS_REPEAT_DONE] and
    [BUTTON_PRESS_END], each once and in this order, and leaves the button
    idle. *)
Theorem click_train p rest n :
  idle b -> (2 <= p)%nat -> Z.of_nat p <= long_press_ticks b -> Forall quick rest ->
  zlen rest <= 254 -> Z.of_nat n >= short_press_ticks b + 4 ->
  exists b', ticks_of (train p rest n) b = Done tt b' /\ idle b' /\
    calls b' = calls b ++ train_calls (S (length rest)) /\ event b' = BUTTON_NONE_PRESS.
Proof using Hreg Hshort Hlong.
  intros Hi Hp Hl Hq Hk Hn. unfold train.
  destruct (first_press p (ticks b) (repeat b) (event b) (calls b) Hp Hl) as (s & H1 & H2).
  rewrite <-(idle_at Hi) in H1. rewrite (ticks_app _ _ _ _ H1).
  destruct (rest_run rest n s 1 _ H2 Hq ltac:(lia) ltac:(lia) Hn) as [t Ht].
  rewrite Ht. eexists. split; [reflexivity|]. split; [done|]. split; [|done].
  unfold train_calls. simpl. rewrite Nat.sub_0_r, <-!app_assoc. do 5 f_equal. lia.
Qed.

(** *** Glitches *)

(** Samples in which no two active ones follow each other; [prev] tells whether
    the sample before was active. *)
Fixpoint spikes (prev : bool) (ls : list Z) : Prop :=
  match ls with
  | [] => True
  | x :: ls => (x = 0 \/ (x = 1 /\ prev = false)) /\ spikes (x =? 1) ls
  end.

Lemma spikes_run ls prev t r e cs :
  spikes prev ls ->
  exists d e', ticks_of ls (at_ PRESS_DOWN_CHECK t r (if prev then 1 else 0) 0 e cs)
             = Done tt (at_ PRESS_DOWN_CHECK t r d 0 e' cs).
Proof using Type.
  revert prev e. induction ls as [|x ls IH]; intros prev e; [intros _; by eexists _, _|].
  intros [Hx Hls]. destruct Hx as [->|[-> ->]].
  - destruct (IH _ BUTTON_NONE_PRESS Hls) as (d & e' & Hr). exists d, e'. rewrite <-Hr.
    destruct prev; [apply (ticks_cons _ _ _ _ (tick_idle_after t r e cs))
                   |apply (ticks_cons _ _ _ _ (tick_idle t r e cs))].
  - destruct (IH _ BUTTON_NONE_PRESS Hls) as (d & e' & Hr). exists d, e'. rewrite <-Hr.
    apply (ticks_cons _ _ _ _ (tick_glitch t r e cs)).
Qed.

(** Glitches are ignored.  Active samples of an idle button that are not
    followed by a second one call nothing and leave the state machine and
    the debounced level as they are, however many there are. *)
Theorem glitches_ignored ls :
  idle b -> spikes false ls ->
  exists b', ticks_of ls b = Done tt b' /\ calls b' = calls b /\
    pstate b' = PRESS_DOWN_CHECK /\ button_level b' = 0.
Proof using Type.
  intros Hi Hs. destruct (spikes_run ls false (ticks b) (repeat b) (event b) (calls b) Hs) as (d & e' & Hr).
  rewrite <-(idle_at Hi) in Hr. rewrite Hr. by eexists.
Qed.
End Clicks.

(** ** A concrete button: one callback per event *)

Definition click_events : list button_event_t :=
  [BUTTON_PRESS_DOWN; BUTTON_PRESS_UP; BUTTON_PRESS_REPEAT; BUTTON_SINGLE_CLICK;
   BUTTON_DOUBLE_CLICK; BUTTON_PRESS_END].

Definition clicker : button_dev_t :=
  mk_dev 0 LONG_TICKS SHORT_TICKS 0 0 PRESS_DOWN_CHECK 0 BUTTON_INACTIVE BUTTON_NONE_PRESS
    (fun e => if bool_decide (e ∈ click_events) then Block [mk_cb 1 2 0] else Null)
    (fun e => if bool_decide (e ∈ click_events) then 1 else 0) 0 0 [].

Lemma clicker_ok : registry_ok clicker.
Proof. intros e. unfold entries. simpl. destruct (bool_decide (e ∈ click_events)); done. Qed.

Lemma click_train_witness :
  exists b', ticks_of (train 10 [(8, 6); (5, 7)]%nat 60) clicker = Done tt b' /\ idle b' /\
    calls b' = calls clicker ++ train_calls clicker 3 /\ event b' = BUTTON_NONE_PRESS.
Proof.
  apply (click_train clicker clicker_ok ltac:(by_compute) ltac:(by_compute) 10 [(8, 6); (5, 7)]%nat 60);
    [done|lia|by_compute| |by_compute|apply Z.le_ge; by_compute].
  repeat constructor; simpl; lia || by_compute.
Defined.

Lemma glitches_ignored_witness :
  exists b', ticks_of [0; 1; 0; 0; 1; 0] clicker = Done tt b' /\ calls b' = calls clicker /\
    pstate b' = PRESS_DOWN_CHECK /\ button_level b' = 0.
Proof.
  apply (glitches_ignored clicker [0; 1; 0; 0; 1; 0]); [done|].
  repeat split; (by left) || (by right).
Defined.
