(* ===== verification/ButtonReg.v ===== *)
(** * Facts about the callback registry of a button

    Registration keeps the entries of long-press and multiple-click events
    sorted; and the places where the code leaves the block of the entries. *)

From S2P Require Import Prelude CMem CState Button ButtonFacts.

Abbreviation key := event_args.

(** Entries in ascending order of their keys. *)
Fixpoint ascending (l : list button_cb_info_t) : Prop :=
  match l with [] => True | c :: l => Forall (fun d => key c <= key d) l /\ ascending l end.

Definition below (k : Z) (l : list button_cb_info_t) := filter (fun d => key d <= k) l.
Definition above (k : Z) (l : list button_cb_info_t) := filter (fun d => k < key d) l.

Lemma filter_all {A} (P : A -> Prop) `{!forall x, Decision (P x)} l : Forall P l -> filter P l = l.
Proof. induction 1 as [|x l Hx _ IH]; [done|]. by rewrite filter_cons_True, IH. Qed.

Lemma filter_none {A} (P : A -> Prop) `{!forall x, Decision (P x)} l :
  Forall (fun x => ~ P x) l -> filter P l = [].
Proof. induction 1 as [|x l Hx _ IH]; [done|]. by rewrite filter_cons_False, IH. Qed.

Lemma ascending_snoc l d : ascending (l ++ [d]) <-> ascending l /\ Forall (fun c => key c <= key d) l.
Proof.
  induction l as [|c l IH]; simpl; [by split; [|intros [_ _]; repeat constructor]|].
  rewrite Forall_app, IH, Forall_singleton, (Forall_cons_iff _ c l). tauto.
Qed.

Lemma ascending_app l1 l2 :
  ascending (l1 ++ l2) <->
  ascending l1 /\ ascending l2 /\ Forall (fun c => Forall (fun d => key c <= key d) l2) l1.
Proof.
  induction l1 as [|c l1 IH]; simpl; [split; [done|tauto]|].
  rewrite Forall_app, IH, Forall_cons_iff. tauto.
Qed.

Lemma ascending_filter (P : button_cb_info_t -> Prop) `{!forall x, Decision (P x)} l :
  ascending l -> ascending (filter P l).
Proof.
  induction l as [|c l IH]; simpl; [done|]. intros [H1 H2]. rewrite filter_cons. case_decide; [|auto].
  split; [|auto]. apply list.Forall_forall. intros d [_ Hd]%list_elem_of_filter.
  by apply (proj1 (list.Forall_forall _ _) H1).
Qed.

Lemma place_ascending c l : ascending l -> ascending (below (key c) l ++ c :: above (key c) l).
Proof.
  intros H. apply ascending_app. split; [by apply ascending_filter|].
  assert (Forall (fun d => key c <= key d) (above (key c) l)) as Ha.
  { apply list.Forall_forall. intros d [Hd _]%list_elem_of_filter. lia. }
  split; [split; [done|by apply ascending_filter]|].
  apply list.Forall_forall. intros d [Hd _]%list_elem_of_filter. constructor; [done|].
  eapply Forall_impl; [|exact Ha]. simpl. lia.
Qed.

(** ** The insertion loop *)

Definition with_block (e : button_event_t) (l : list button_cb_info_t) (b : button_dev_t) : button_dev_t :=
  set_cb_info (upd (cb_info b) e (Block l)) b.

Lemma upd_same {A} (f : button_event_t -> A) e v : upd f e v e = v.
Proof. unfold upd. by rewrite bool_decide_eq_true_2. Qed.

Lemma upd_other {A} (f : button_event_t -> A) e e' v : e' <> e -> upd f e v e' = f e'.
Proof. intros H. unfold upd. by rewrite bool_decide_eq_false_2. Qed.

Lemma entry_at b e l1 c l2 :
  cb_info b e = Block (l1 ++ c :: l2) -> entry e (zlen l1) b = Done c b.
Proof.
  intros H. eapply entry_run; [exact H|]. by rewrite lookup_app_r, Nat.sub_diag by lia.
Qed.

Lemma set_entry_at b e l1 c l2 d :
  cb_info b e = Block (l1 ++ c :: l2) ->
  set_entry e (zlen l1) d b = Done tt (with_block e (l1 ++ d :: l2) b).
Proof.
  intros H. unfold set_entry. run_simpl. rewrite H, length_app.
  rewrite (proj2 (Z.leb_le _ _)), (proj2 (Z.ltb_lt _ _)) by (simpl; lia). simpl.
  by rewrite Nat2Z.id, insert_app_r_alt, Nat.sub_diag by lia.
Qed.

Lemma with_block_twice e l l' b f :
  with_block e l (set_cb_info (upd f e (Block l')) b) = set_cb_info (upd (upd f e (Block l')) e (Block l)) b.
Proof. reflexivity. Qed.

(** Equality of devices up to the pointwise equality of their blocks. *)
Definition same (b1 b2 : button_dev_t) : Prop :=
  set_cb_info (fun _ => Null) b1 = set_cb_info (fun _ => Null) b2 /\
  forall e, cb_info b1 e = cb_info b2 e.

Lemma insert_loop_run l x r e c b :
  ascending l -> (l = [] -> x = c) -> cb_info b e = Block (l ++ x :: r) ->
  exists b', insert_loop (length l) e c b = Done tt b' /\
    same b' (with_block e (below (key c) l ++ c :: above (key c) l ++ r) b).
Proof.
  revert x r b. induction l as [|d l IH] using rev_ind; intros x r b Hs Hx Hb.
  { simpl. eexists. split; [reflexivity|]. rewrite Hx in Hb by done. split; [done|].
    intros e'. simpl. destruct (decide (e' = e)) as [->|]; [by rewrite upd_same|by rewrite upd_other]. }
  apply ascending_snoc in Hs as [Hs Hd]. rewrite length_app, Nat.add_comm. simpl.
  rewrite <-app_assoc in Hb. simpl in Hb.
  rewrite (done_bind _ _ _ _ _ (entry_at _ _ _ _ _ Hb)).
  replace (Z.of_nat (length l) + 1) with (zlen (l ++ [d])) by (rewrite length_app; simpl; lia).
  assert (cb_info b e = Block ((l ++ [d]) ++ x :: r)) as Hb' by (by rewrite <-app_assoc).
  unfold below, above. rewrite !list.filter_app, !filter_cons, !filter_nil.
  destruct (Z.ltb_spec (key c) (key d)).
  - rewrite (done_bind _ _ _ _ _ (set_entry_at _ _ _ _ _ d Hb')).
    set (b1 := with_block e _ b).
    assert (cb_info b1 e = Block (l ++ d :: d :: r)) as Hb1.
    { subst b1. simpl. by rewrite upd_same, <-app_assoc. }
    rewrite (done_bind _ _ _ _ _ (set_entry_at _ _ _ _ _ c Hb1)).
    destruct (IH c (d :: r) (with_block e (l ++ c :: d :: r) b1)) as (b' & Hr & Hsame & Hblk);
      [done|done|simpl; by rewrite upd_same|].
    exists b'. split; [done|]. rewrite decide_False, decide_True, app_nil_r by lia.
    split; [done|]. intros e'. rewrite Hblk. subst b1. simpl.
    destruct (decide (e' = e)) as [->|]; [|by rewrite !upd_other].
    rewrite !upd_same. unfold below, above. by rewrite <-!app_assoc.
  - exists (with_block e ((l ++ [d]) ++ c :: r) b). rewrite (set_entry_at _ _ _ _ _ c Hb').
    split; [done|]. rewrite decide_True, decide_False, app_nil_r by lia. split; [done|].
    intros e'. simpl. destruct (decide (e' = e)) as [->|]; [|by rewrite !upd_other].
    rewrite !upd_same.
    rewrite filter_all by (eapply Forall_impl; [|exact Hd]; simpl; lia).
    by rewrite filter_none by (eapply Forall_impl; [|exact Hd]; simpl; lia).
Qed.

Lemma done_gets {S A B} (f : S -> A) (g : A -> M S B) s : (gets f ≫= g) s = g (f s) s.
Proof. reflexivity. Qed.

Lemma done_modify {S B} (f : S -> S) (g : unit -> M S B) s : (modify f ≫= g) s = g tt (f s).
Proof. reflexivity. Qed.

Lemma insert_sorted_run l x e c b :
  ascending l -> cb_info b e = Block (l ++ [x]) -> cb_size b e = zlen l + 1 ->
  cb x = cb c -> usr_data x = usr_data c ->
  exists b', insert_sorted e c b = Done tt b' /\
    same b' (with_block e (below (key c) l ++ c :: above (key c) l) b).
Proof.
  intros Hs Hb Hn H1 H2. unfold insert_sorted. rewrite done_gets, Hn.
  destruct (Z.leb_spec 2 (zlen l + 1)) as [Hl|Hl].
  - replace (Z.to_nat (zlen l + 1 - 1)) with (length l) by lia.
    destruct (insert_loop_run l x [] e c b Hs) as (b' & Hr & Hsame); [intros ->; simpl in Hl; lia|done|].
    exists b'. split; [done|]. by rewrite app_nil_r in Hsame.
  - destruct l as [|? l]; [|simpl in Hl; lia].
    change (zlen [] + 1 - 1) with (zlen (@nil button_cb_info_t)).
    rewrite (done_bind _ _ _ _ _ (entry_at b e [] x [] Hb)), (set_entry_at b e [] x [] _ Hb).
    eexists. split; [reflexivity|]. rewrite H1, H2. by destruct c.
Qed.

(** ** Growing the block *)

Lemma grow_run junk e b :
  registry_ok b ->
  exists b1 j, grow_block true junk e b = Done true b1 /\
    cb_info b1 e = Block (entries b e ++ [j]) /\
    (forall e', e' <> e -> cb_info b1 e' = cb_info b e') /\
    cb_size b1 = cb_size b /\ long_press_ticks b1 = long_press_ticks b /\
    short_press_ticks b1 = short_press_ticks b.
Proof.
  intros Hreg. destruct (Hreg e) as (Hf & Hs & _). unfold grow_block. simpl.
  rewrite !done_gets, Hs. unfold entries. destruct (cb_info b e) as [|l|] eqn:E; [| |done].
  - rewrite done_modify. unfold reset_count.
    exists (if bool_decide (e = BUTTON_LONG_PRESS_START) then set_count0 0 (with_block e [mk_cb 0 0 0] b)
            else if bool_decide (e = BUTTON_LONG_PRESS_UP) then set_count1 (-1) (with_block e [mk_cb 0 0 0] b)
            else with_block e [mk_cb 0 0 0] b), (mk_cb 0 0 0).
    repeat case_bool_decide; (split_and!; [done|simpl; by rewrite upd_same| |done..]);
      intros e' He'; simpl; by rewrite upd_other.
  - rewrite done_modify. eexists _, junk. split; [reflexivity|]. simpl.
    replace (Z.to_nat (zlen l + 1)) with (length l + 1)%nat by lia.
    rewrite resize_ge by lia. replace (length l + 1 - length l)%nat with 1%nat by lia.
    split_and!; [by rewrite upd_same| |done..]. intros e' He'. by rewrite upd_other.
Qed.

(** The device once the entry is appended and counted. *)
Lemma append_run junk e b f data args :
  registry_ok b -> event_lt_max e = true -> bad_args e args b = false ->
  zlen (entries b e) + 1 < 2 ^ 31 ->
  exists b2 x,
    iot_button_register_cb true junk e args (Some f) data b
    = (if is_long e then register_long e args f data b2
       else if is_multiple e then
         (def ← gets (fun b => u16 (long_press_ticks b * TICKS_INTERVAL));
          insert_sorted e (mk_cb f data (default def args)) ;; mret ESP_OK) b2
       else Done ESP_OK b2) /\
    cb_info b2 e = Block (entries b e ++ [x]) /\ cb x = f /\ usr_data x = data /\
    cb_size b2 e = zlen (entries b e) + 1 /\
    (forall e', e' <> e -> cb_info b2 e' = cb_info b e' /\ cb_size b2 e' = cb_size b e') /\
    long_press_ticks b2 = long_press_ticks b /\ short_press_ticks b2 = short_press_ticks b.
Proof.
  intros Hreg Hmax Hbad Hlen. unfold iot_button_register_cb. rewrite Hmax. simpl.
  rewrite done_gets, Hbad.
  destruct (grow_run junk e b Hreg) as (b1 & j & Hg & Hb1 & Ho1 & Hs1 & Hl1 & Hsh1).
  rewrite (done_bind _ _ _ _ _ Hg). simpl. rewrite done_gets, Hs1.
  destruct (Hreg e) as (_ & Hs & _). rewrite Hs.
  rewrite (done_bind _ _ _ _ _ (entry_at b1 e _ j [] Hb1)).
  rewrite (done_bind _ _ _ _ _ (set_entry_at b1 e _ j [] _ Hb1)), done_gets, done_modify.
  set (x := mk_cb f data (key j)). set (b2 := set_cb_size _ _). exists b2, x.
  assert (cb_size b2 e = zlen (entries b e) + 1) as Hn.
  { subst b2. simpl. rewrite upd_same. apply wrap_id. unfold fits. lia. }
  split_and!; try done.
  - by destruct (is_long e), (is_multiple e).
  - subst b2. simpl. by rewrite upd_same.
  - intros e' He'. subst b2. simpl. rewrite !upd_other by done. rewrite Ho1, Hs1 by done. done.
Qed.

Lemma same_fields b1 b2 :
  same b1 b2 -> cb_size b1 = cb_size b2 /\ long_press_ticks b1 = long_press_ticks b2 /\
    short_press_ticks b1 = short_press_ticks b2.
Proof.
  intros [H _]. split_and!; [apply (f_equal cb_size) in H|apply (f_equal long_press_ticks) in H
    |apply (f_equal short_press_ticks) in H]; exact H.
Qed.

Lemma sgn_small k : fits 16 k -> sgn 32 k = k.
Proof.
  intros [H1 H2]. unfold sgn. rewrite wrap_id by (unfold fits; lia).
  by rewrite (proj2 (Z.ltb_lt _ _)) by lia.
Qed.

(** The registry after the entry [c] was placed among [l]. *)
Record placed (e : button_event_t) (c : button_cb_info_t) (b b' : button_dev_t) : Prop := {
  pl_entries : entries b' e = below (key c) (entries b e) ++ c :: above (key c) (entries b e);
  pl_others : forall e', e' <> e -> entries b' e' = entries b e';
  pl_ok : registry_ok b';
}.

Lemma below_above_length k l : (length (below k l) + length (above k l) = length l)%nat.
Proof.
  unfold below, above. induction l as [|d l IH]; [done|]. rewrite !filter_cons.
  destruct (decide (key d <= k)), (decide (k < key d)); simpl; lia.
Qed.

Lemma placed_intro e c b b2 b' :
  registry_ok b -> zlen (entries b e) + 1 < 2 ^ 31 ->
  cb_size b2 e = zlen (entries b e) + 1 ->
  (forall e', e' <> e -> cb_info b2 e' = cb_info b e' /\ cb_size b2 e' = cb_size b e') ->
  same b' (with_block e (below (key c) (entries b e) ++ c :: above (key c) (entries b e)) b2) ->
  placed e c b b'.
Proof.
  intros Hreg Hlen Hn Ho [Hsame Hblk].
  assert (entries b' e = below (key c) (entries b e) ++ c :: above (key c) (entries b e)) as He.
  { unfold entries at 1. rewrite Hblk. simpl. by rewrite upd_same. }
  assert (forall e', e' <> e -> cb_info b' e' = cb_info b e') as Ho'.
  { intros e' He'. rewrite Hblk. simpl. rewrite upd_other by done. by apply Ho. }
  split; [done| |].
  - intros e' He'. unfold entries. by rewrite Ho'.
  - intros e'. pose proof (f_equal cb_size Hsame) as Hsz. simpl in Hsz. rewrite Hsz.
    destruct (decide (e' = e)) as [->|He'].
    + rewrite Hblk. simpl. rewrite upd_same, Hn, He, length_app. simpl.
      pose proof (below_above_length (key c) (entries b e)). split_and!; [done|lia|lia].
    + rewrite (Ho' e' He'), (proj2 (Ho e' He')). unfold entries. rewrite (Ho' e' He'). apply Hreg.
Qed.

(** The keys [iot_button_register_cb] accepts. *)
Definition key_ok (e : button_event_t) (k : Z) (b : button_dev_t) : Prop :=
  fits 16 k /\ (is_multiple e = true -> k <> 0) /\
  (is_long e = true -> 0 <= short_press_ticks b < k / TICKS_INTERVAL).

Lemma key_args e k b : key_ok e k b -> bad_args e (Some k) b = false.
Proof.
  intros ([H1 H2] & Hm & Hl). unfold bad_args. rewrite bool_decide_eq_false_2, andb_false_r by done.
  destruct (is_long e); simpl.
  - specialize (Hl eq_refl). unfold TICKS_INTERVAL, CONFIG_BUTTON_PERIOD_TIME_MS in *.
    pose proof (Z.mul_div_le k 5). rewrite wrap_id by (unfold fits; lia). rewrite (proj2 (Z.leb_gt _ _)) by lia. simpl.
    destruct (is_multiple e); [|done]. simpl. apply Z.eqb_neq. by apply Hm.
  - destruct (is_multiple e); [|done]. simpl. apply Z.eqb_neq. by apply Hm.
Qed.

Lemma register_long_run e k f data b b2 x :
  registry_ok b -> ascending (entries b e) -> key_ok e k b -> is_long e = true ->
  zlen (entries b e) + 1 < 2 ^ 31 ->
  cb_info b2 e = Block (entries b e ++ [x]) -> cb x = f -> usr_data x = data ->
  cb_size b2 e = zlen (entries b e) + 1 ->
  (forall e', e' <> e -> cb_info b2 e' = cb_info b e' /\ cb_size b2 e' = cb_size b e') ->
  long_press_ticks b2 = long_press_ticks b -> short_press_ticks b2 = short_press_ticks b ->
  exists b', register_long e (Some k) f data b2 = Done ESP_OK b' /\ placed e (mk_cb f data k) b b' /\
    long_press_ticks b' = Z.min (k / TICKS_INTERVAL) (long_press_ticks b).
Proof.
  intros Hreg Hs (Hk & _ & Hl) He Hlen Hb2 Hx1 Hx2 Hn Ho Hlo Hsh. specialize (Hl He).
  unfold register_long. rewrite !done_gets. simpl. rewrite Hsh, (proj2 (Z.ltb_lt _ _)) by lia. simpl.
  destruct (insert_sorted_run (entries b e) x e (mk_cb f data k) b2) as (b3 & Hr & Hsame); [done..|].
  rewrite (done_bind _ _ _ _ _ Hr), done_gets.
  pose proof (same_fields _ _ Hsame) as (H1 & H2 & H3). simpl in H1, H2, H3.
  pose proof (placed_intro e (mk_cb f data k) b b2 b3 Hreg Hlen Hn Ho Hsame) as [P1 P2 P3].
  rewrite H2, Hlo. destruct (Z.ltb_spec (k / TICKS_INTERVAL) (long_press_ticks b)).
  - unfold iot_button_set_param. run_simpl. eexists. split; [reflexivity|].
    rewrite sgn_small by done. destruct Hk as [Hk1 Hk2].
    unfold TICKS_INTERVAL, CONFIG_BUTTON_PERIOD_TIME_MS in *.
    pose proof (Z.mul_div_le k 5). rewrite Z.quot_div_nonneg, wrap_id by (unfold fits; lia).
    split; [by split|]. simpl. lia.
  - exists b3. split; [done|]. split; [done|]. lia.
Qed.

(** C17. The registry stays sorted.  Registering a callback for a long-press or
    multiple-click event whose entries are in ascending order of press time or
    clicks, with a time or number the function accepts and memory left,
    succeeds, places the callback behind the entries up to its own key and
    before the larger ones, leaves the other events alone, keeps sizes and
    blocks consistent, and lowers the long-press time to the press time. *)
Theorem register_keeps_order junk e k f data b :
  registry_ok b -> ascending (entries b e) -> is_long e || is_multiple e = true -> key_ok e k b ->
  zlen (entries b e) + 1 < 2 ^ 31 ->
  exists b', iot_button_register_cb true junk e (Some k) (Some f) data b = Done ESP_OK b' /\
    entries b' e = below k (entries b e) ++ mk_cb f data k :: above k (entries b e) /\
    ascending (entries b' e) /\ (forall e', e' <> e -> entries b' e' = entries b e') /\ registry_ok b' /\
    long_press_ticks b' = (if is_long e then Z.min (k / TICKS_INTERVAL) (long_press_ticks b)
                           else long_press_ticks b).
Proof.
  intros Hreg Hs He Hk Hlen.
  assert (event_lt_max e = true) as Hm by (by destruct e).
  destruct (append_run junk e b f data (Some k) Hreg Hm (key_args _ _ _ Hk) Hlen)
    as (b2 & x & -> & Hb2 & Hx1 & Hx2 & Hn & Ho & Hlo & Hsh).
  assert (exists b', (if is_long e then register_long e (Some k) f data b2
      else if is_multiple e then
        (def ← gets (fun b => u16 (long_press_ticks b * TICKS_INTERVAL));
         insert_sorted e (mk_cb f data (default def (Some k))) ;; mret ESP_OK) b2
      else Done ESP_OK b2) = Done ESP_OK b' /\ placed e (mk_cb f data k) b b' /\
    long_press_ticks b' = (if is_long e then Z.min (k / TICKS_INTERVAL) (long_press_ticks b)
                           else long_press_ticks b)) as (b' & Hr & [P1 P2 P3] & Hl').
  { destruct (is_long e) eqn:El.
    - eapply register_long_run; eauto.
    - simpl in He. rewrite He, done_gets. simpl.
      destruct (insert_sorted_run (entries b e) x e (mk_cb f data k) b2) as (b3 & Hr & Hsame); [done..|].
      rewrite (done_bind _ _ _ _ _ Hr). exists b3. split; [done|].
      pose proof (same_fields _ _ Hsame) as (_ & H2 & _). simpl in H2.
      split; [by eapply placed_intro|]. by rewrite H2. }
  exists b'. simpl in P1. split_and!; try done. rewrite P1. exact (place_ascending (mk_cb f data k) _ Hs).
Qed.

(** ** Where the code goes wrong *)

(** A refused registration stays.  A press time that exceeds the
    short-press time by less than one tick passes the first test of
    [iot_button_register_cb] and fails the second, after the callback has been
    stored: the function returns [ESP_ERR_INVALID_ARG] and the callback counts
    as registered. *)
Theorem refused_registration_stays junk e k f data b :
  registry_ok b -> is_long e = true -> fits 16 k -> 0 <= short_press_ticks b ->
  short_press_ticks b * TICKS_INTERVAL < k < (short_press_ticks b + 1) * TICKS_INTERVAL ->
  zlen (entries b e) + 1 < 2 ^ 31 ->
  exists b' x, iot_button_register_cb true junk e (Some k) (Some f) data b = Done ESP_ERR_INVALID_ARG b' /\
    entries b' e = entries b e ++ [x] /\ cb x = f /\ cb_size b' e = cb_size b e + 1.
Proof.
  intros Hreg He [Hk1 Hk2] H0 Hk Hlen.
  unfold TICKS_INTERVAL, CONFIG_BUTTON_PERIOD_TIME_MS in *.
  assert (event_lt_max e = true) as Hm by (by destruct e).
  assert (bad_args e (Some k) b = false) as Hbad.
  { unfold bad_args. rewrite He. destruct (is_multiple e) eqn:E; [by destruct e|]. simpl.
    unfold TICKS_INTERVAL, CONFIG_BUTTON_PERIOD_TIME_MS. rewrite wrap_id by (unfold fits; lia).
    by rewrite (proj2 (Z.leb_gt _ _)) by lia. }
  destruct (append_run junk e b f data (Some k) Hreg Hm Hbad Hlen)
    as (b2 & x & -> & Hb2 & Hx1 & _ & Hn & _ & _ & Hsh).
  rewrite He. unfold register_long. rewrite !done_gets. simpl. rewrite Hsh.
  unfold TICKS_INTERVAL, CONFIG_BUTTON_PERIOD_TIME_MS.
  rewrite (proj2 (Z.ltb_ge _ _)) by (apply Z.lt_succ_r, Z.div_lt_upper_bound; lia). simpl.
  exists b2, x. split_and!; [done|unfold entries at 1; by rewrite Hb2|done|].
  rewrite Hn. by destruct (Hreg e) as (_ & -> & _).
Qed.

Lemma find_key_run n i k e l b :
  cb_info b e = Block l -> (i + n = length l)%nat -> Exists (fun c => key c = k) (drop i l) ->
  exists j, find_key n (Z.of_nat i) k e b = Done (Some (Z.of_nat j)) b /\ (j < length l)%nat.
Proof.
  intros Hb. revert i. induction n as [|n IH]; intros i Hi Hex.
  { rewrite drop_ge in Hex by lia. by apply Exists_nil in Hex. }
  destruct (lookup_lt_is_Some_2 l i) as [c Hc]; [lia|]. simpl.
  rewrite (done_bind _ _ _ _ _ (entry_run b e i c l Hb Hc)).
  destruct (Z.eqb_spec k (key c)) as [->|Hne]; [exists i; split; [done|lia]|].
  rewrite (drop_S _ _ _ Hc) in Hex. apply Exists_cons in Hex as [?|Hex]; [congruence|].
  destruct (IH (S i)) as (j & Hj & Hl); [lia|done|]. exists j. split; [|done].
  rewrite <-Hj. f_equal. lia.
Qed.

Lemma shift_undef m i e l b :
  cb_info b e = Block l -> (i + S m = length l)%nat -> shift_loop (S m) (Z.of_nat i) e b = Undef.
Proof.
  revert i l b. induction m as [|m IH]; intros i l b Hb Hi; cbn [shift_loop].
  - unfold mbind, M_bind. by rewrite (entry_past b e l) by (done || lia).
  - destruct (lookup_lt_is_Some_2 l (S i)) as [c Hc]; [lia|].
    replace (Z.of_nat i + 1) with (Z.of_nat (S i)) by lia.
    rewrite (done_bind _ _ _ _ _ (entry_run b e (S i) c l Hb Hc)).
    rewrite <-(take_drop_middle l (S i) c Hc) in Hb.
    assert (exists l', set_entry e (Z.of_nat i) c b = Done tt (with_block e l' b) /\ length l' = length l)
      as (l' & Hs & Hl').
    { rewrite (take_drop_middle l (S i) c Hc) in Hb. exists (<[i := c]> l).
      unfold set_entry. run_simpl. rewrite Hb, (proj2 (Z.leb_le _ _)), (proj2 (Z.ltb_lt _ _)) by lia.
      simpl. rewrite Nat2Z.id, length_insert. done. }
    rewrite (done_bind _ _ _ _ _ Hs). apply (IH (S i) l'); [simpl; by rewrite upd_same|lia].
Qed.

(** Removing one callback reads past the block.  Whenever the callback
    named by [event_args] is found, the loop of [iot_button_unregister_cb] that
    closes the gap reads the entry after the last one. *)
Theorem unregister_reads_past_end alloc e k b :
  registry_ok b -> is_long e || is_multiple e = true -> k <> 0 ->
  Exists (fun c => key c = k) (entries b e) ->
  iot_button_unregister_cb alloc e (Some k) b = Undef.
Proof.
  intros Hreg He Hk Hex. assert (event_lt_max e = true) as Hm by (by destruct e).
  destruct (Hreg e) as (_ & Hs & _). unfold entries in *.
  destruct (cb_info b e) as [|l|] eqn:Hb; [by apply Exists_nil in Hex| |by apply Exists_nil in Hex].
  unfold iot_button_unregister_cb. rewrite Hm. simpl. rewrite done_gets.
  unfold has_cb. rewrite Hb. simpl. rewrite He, (proj2 (Z.eqb_neq _ _) Hk). simpl.
  unfold unregister_one. rewrite done_gets, Hs, Nat2Z.id.
  destruct (find_key_run (length l) 0 k e l b Hb eq_refl Hex) as (j & Hj & Hl).
  rewrite (done_bind _ _ _ _ _ Hj).
  replace (Z.to_nat (zlen l - Z.of_nat j)) with (S (length l - j - 1)) by lia.
  unfold mbind, M_bind. by rewrite (shift_undef (length l - j - 1) j e l b Hb) by lia.
Qed.

(** C35. A long press reads past the block.  Once all callbacks of
    [BUTTON_LONG_PRESS_START] have been called, [count[0]] is their number, and
    every further tick of the held button reads the entry at that index. *)
Theorem long_press_reads_past_end b :
  registry_ok b -> pstate b = PRESS_LONG_PRESS_UP_CHECK -> button_level b = 1 ->
  entries b BUTTON_LONG_PRESS_START <> [] ->
  count0 b = zlen (entries b BUTTON_LONG_PRESS_START) ->
  button_handler 1 b = Undef.
Proof.
  intros Hreg Hp Hl Hne Hc. set (b1 := debounce 1 b).
  assert (b1 = set_debounce_cnt 0 (set_ticks (u32 (ticks b + 1)) b)) as E1.
  { subst b1. unfold debounce. rewrite Hp, bool_decide_eq_false_2 by done. simpl. by rewrite Hl. }
  assert (registry_ok b1) as Hreg1 by (rewrite E1; exact Hreg).
  unfold button_handler. rewrite done_modify, done_gets. fold b1.
  assert (pstate b1 = PRESS_LONG_PRESS_UP_CHECK) as -> by (by rewrite E1).
  unfold press_long_press_up_check. rewrite done_gets.
  assert (button_level b1 = 1) as -> by (by rewrite E1). simpl. rewrite done_gets.
  assert (forall s, cb_info s = cb_info b -> count0 s = count0 b -> held_start s = Undef) as Hh.
  { intros s H1 H2. unfold held_start. rewrite done_gets. unfold has_cb. rewrite H1.
    unfold entries in *. destruct (cb_info b BUTTON_LONG_PRESS_START) as [|l|] eqn:Hb; [done| |done].
    rewrite done_gets. unfold mbind, M_bind. rewrite (entry_past s _ l); [done|by rewrite H1|].
    rewrite H2, Hc. lia. }
  set (hold := _ <=? _). destruct hold.
  - pose proof (fire_run (set_long_press_hold_cnt (u32 (long_press_hold_cnt b1 + 1)) b1)
      BUTTON_LONG_PRESS_HOLD Hreg1) as Hf. unfold fire in Hf. rewrite done_modify in Hf.
    unfold mbind, M_bind, modify.
    change (set_long_press_hold_cnt _ (set_event _ b1))
      with (set_event BUTTON_LONG_PRESS_HOLD (set_long_press_hold_cnt (u32 (long_press_hold_cnt b1 + 1)) b1)).
    rewrite Hf. rewrite Hh; [done|by rewrite E1|by rewrite E1].
  - unfold mbind, M_bind, mret, M_ret. rewrite Hh; [done|by rewrite E1|by rewrite E1].
Qed.

(** ** Witnesses: a new button with default times *)

Definition blank : button_cb_info_t := mk_cb 0 0 0.

Lemma new_ok long short : registry_ok (new_device long short).
Proof. intros e. done. Qed.

Lemma register_keeps_order_witness :
  exists b', iot_button_register_cb true blank BUTTON_LONG_PRESS_UP (Some 1000) (Some 7) 0 (new_device 0 0)
    = Done ESP_OK b' /\ entries b' BUTTON_LONG_PRESS_UP = [mk_cb 7 0 1000] /\ long_press_ticks b' = 200.
Proof.
  destruct (register_keeps_order blank BUTTON_LONG_PRESS_UP 1000 7 0 (new_device 0 0))
    as (b' & H1 & H2 & _ & _ & _ & H3); [apply new_ok|done|done| |by_compute|by eauto].
  repeat split; done || by_compute.
Defined.

Lemma refused_registration_stays_witness :
  exists b' x, iot_button_register_cb true blank BUTTON_LONG_PRESS_START (Some 182) (Some 7) 0 (new_device 0 0)
    = Done ESP_ERR_INVALID_ARG b' /\
    entries b' BUTTON_LONG_PRESS_START = [x] /\ cb x = 7 /\ cb_size b' BUTTON_LONG_PRESS_START = 1.
Proof.
  apply (refused_registration_stays blank BUTTON_LONG_PRESS_START 182 7 0 (new_device 0 0));
    [apply new_ok|done|by_compute..].
Defined.

(** The button of the default configuration with one callback for the start
    of a long press, after [n] active samples. *)
Definition pressed (n : nat) : button_dev_t :=
  match (iot_button_register_cb true blank BUTTON_LONG_PRESS_START (Some 1500) (Some 7) 0 ;;
         ticks_of (replicate n 1)) (new_device 0 0) with
  | Done _ b => b | _ => new_device 0 0
  end.

Lemma pressed_0_ok : registry_ok (pressed 0).
Proof. intros e. by destruct e; vm_compute. Qed.

Lemma pressed_302_ok : registry_ok (pressed 302).
Proof. intros e. by destruct e; vm_compute. Qed.

Lemma unregister_reads_past_end_witness :
  iot_button_unregister_cb true BUTTON_LONG_PRESS_START (Some 1500) (pressed 0) = Undef.
Proof.
  apply (unregister_reads_past_end true BUTTON_LONG_PRESS_START 1500 (pressed 0) pressed_0_ok);
    [done|lia|]. vm_compute. by left.
Defined.

(** 302 active samples call the callback; the next one leaves the block. *)
Lemma long_press_reads_past_end_witness :
  calls (pressed 302) = [mk_call BUTTON_LONG_PRESS_START 7 0] /\ button_handler 1 (pressed 302) = Undef.
Proof.
  split; [by vm_compute|].
  apply (long_press_reads_past_end (pressed 302) pressed_302_ok); by vm_compute.
Defined.
