(* ===== verification/ButtonSys.v ===== *)
(** * The set of buttons and its timer (src/components/button/iot_button.c)

    The list of devices, the periodic timer and power saving.  A handle is the
    number of its device.  The calls of the timer and of the drivers are
    recorded in [acts], those of the timer with what they returned; what the
    timer, a driver or an allocation returns is an argument. *)

From S2P Require Import Prelude CMem CState Button ButtonFacts ButtonReg.

(** ** Data *)

(** The fields of [button_driver_t] that the component reads. *)
Record button_driver_t := mk_driver { enable_power_save : bool; has_enter_power_save : bool }.

Record slot := mk_slot { handle : Z; driver : button_driver_t; device : button_dev_t }.

Inductive act :=
  | TimerCreate (ret : Z)
  | TimerStart (timer : bool) (period ret : Z)   (** [timer]: the handle is not [NULL] *)
  | TimerStop (timer : bool) (ret : Z)
  | TimerDelete (timer : bool) (ret : Z)
  | DriverEnterPowerSave (h : Z) | UserPowerSave | DriverDel (h : Z).

Record buttons := mk_buttons {
  g_head_handle : list slot;
  g_button_timer_handle : bool;         (** not [NULL] *)
  g_is_timer_running : bool;
  enter_power_save_cb : bool;           (** the user callback is registered *)
  acts : list act;
}.

Definition init_buttons : buttons := mk_buttons [] false false false [].

Definition set_slots v s := mk_buttons v (g_button_timer_handle s) (g_is_timer_running s) (enter_power_save_cb s) (acts s).
Definition set_timer v s := mk_buttons (g_head_handle s) v (g_is_timer_running s) (enter_power_save_cb s) (acts s).
Definition set_running v s := mk_buttons (g_head_handle s) (g_button_timer_handle s) v (enter_power_save_cb s) (acts s).
Definition set_user_cb v s := mk_buttons (g_head_handle s) (g_button_timer_handle s) (g_is_timer_running s) v (acts s).
Definition act_ (a : act) : M buttons unit :=
  modify (fun s => mk_buttons (g_head_handle s) (g_button_timer_handle s) (g_is_timer_running s)
                     (enter_power_save_cb s) (acts s ++ [a])).

(** ** The calls of the timer

    What [esp_timer] answers; one operation makes each call at most once. *)

Record answers := mk_answers { create_ret : Z; start_ret : Z; stop_ret : Z; delete_ret : Z }.

(** The handle is written only by a creation that succeeds. *)
Definition esp_timer_create (r : answers) : M buttons unit :=
  act_ (TimerCreate (create_ret r)) ;;
  if create_ret r =? ESP_OK then modify (set_timer true) else mret tt.

Definition esp_timer_start_periodic (period : Z) (r : answers) : M buttons unit :=
  t ← gets g_button_timer_handle; act_ (TimerStart t period (start_ret r)).

Definition esp_timer_stop (r : answers) : M buttons Z :=
  t ← gets g_button_timer_handle; act_ (TimerStop t (stop_ret r)) ;; mret (stop_ret r).

Definition esp_timer_delete (r : answers) : M buttons unit :=
  t ← gets g_button_timer_handle; act_ (TimerDelete t (delete_ret r)).

(** ** The timer callback *)

(** [button_handler] of every device, with the level its driver reads. *)
Fixpoint handle_all (level : Z -> Z) (l : list slot) : exec (list slot) unit :=
  match l with
  | [] => Done tt []
  | s :: l =>
      match button_handler (level (handle s)) (device s) with
      | Done _ d =>
          match handle_all level l with
          | Done _ l => Done tt (mk_slot (handle s) (driver s) d :: l)
          | Reset l => Reset l | Undef => Undef | Hang => Hang
          end
      | Reset _ => Reset (s :: l) | Undef => Undef | Hang => Hang
      end
  end.

(** A device that lets the system enter power saving. *)
Definition at_rest (s : slot) : bool :=
  enable_power_save (driver s) && (debounce_cnt (device s) =? 0) &&
  bool_decide (event (device s) = BUTTON_NONE_PRESS).

Fixpoint power_save_all (l : list slot) : M buttons unit :=
  match l with
  | [] => mret tt
  | s :: l =>
      (if enable_power_save (driver s) && has_enter_power_save (driver s)
       then act_ (DriverEnterPowerSave (handle s)) else mret tt) ;;
      power_save_all l
  end.

Definition button_cb (level : Z -> Z) (r : answers) : M buttons unit :=
  embed g_head_handle set_slots (handle_all level) ;;
  l ← gets g_head_handle;
  if forallb at_rest l then
    running ← gets g_is_timer_running;
    (if running : bool then esp_timer_stop r ;; modify (set_running false) else mret tt) ;;
    power_save_all l ;;
    user ← gets enter_power_save_cb;
    if user : bool then act_ UserPowerSave else mret tt
  else mret tt.

(** ** The API *)

(** The result of the start is not tested. *)
Definition start_timer (r : answers) : M buttons unit :=
  esp_timer_start_periodic (u32 (TICKS_INTERVAL * 1000)) r ;; modify (set_running true).

Definition iot_button_resume (r : answers) : M buttons Z :=
  t ← gets g_button_timer_handle;
  if negb t then mret ESP_ERR_INVALID_STATE
  else
    running ← gets g_is_timer_running;
    (if negb running then start_timer r else mret tt) ;; mret ESP_OK.

Definition iot_button_stop (r : answers) : M buttons Z :=
  t ← gets g_button_timer_handle;
  if negb t then mret ESP_ERR_INVALID_STATE
  else
    running ← gets g_is_timer_running;
    if negb running then mret ESP_ERR_INVALID_STATE
    else
      err ← esp_timer_stop r;
      if negb (err =? ESP_OK) then mret ESP_FAIL
      else modify (set_running false) ;; mret ESP_OK.

Definition iot_button_register_power_save_cb (cb_ok : bool) : M buttons Z :=
  l ← gets g_head_handle;
  match l with
  | [] => mret ESP_ERR_INVALID_STATE
  | _ => if negb cb_ok then mret ESP_ERR_INVALID_ARG else modify (set_user_cb true) ;; mret ESP_OK
  end.

(** [args_ok]: no argument is [NULL]; [alloc]: the address of the new device. *)
Definition iot_button_create (args_ok : bool) (long_press_time short_press_time : Z)
    (drv : button_driver_t) (alloc : option Z) (r : answers) : M buttons (Z * option Z) :=
  if negb args_ok then mret (ESP_ERR_INVALID_ARG, None)
  else
    match alloc with
    | None => mret (ESP_ERR_NO_MEM, None)
    | Some h =>
        let d := new_device long_press_time short_press_time in
        modify (fun s => set_slots (mk_slot h drv d :: g_head_handle s) s) ;;
        t ← gets g_button_timer_handle;
        (if negb t then esp_timer_create r else mret tt) ;;
        running ← gets g_is_timer_running;
        (if negb (enable_power_save drv) && negb running then start_timer r else mret tt) ;;
        mret (ESP_OK, Some h)
    end.

(** Freeing the entries of every event; freeing one twice is undefined. *)
Fixpoint free_entries (es : list button_event_t) (f : button_event_t -> cb_block)
    : outcome (button_event_t -> cb_block) :=
  match es with
  | [] => Ret f
  | e :: es =>
      match f e with
      | Null => free_entries es f
      | Block _ => free_entries es (upd f e Freed)
      | Freed => Fault
      end
  end.

(** The device at an address; using another address is undefined. *)
Definition find_slot (h : Z) (l : list slot) : outcome slot :=
  match list_find (fun s => handle s = h) l with Some (_, s) => Ret s | None => Fault end.

Definition put_device (h : Z) (d : button_dev_t) (l : list slot) : list slot :=
  (fun s => if handle s =? h then mk_slot h (driver s) d else s) <$> l.

(** [del] is the call of the [del] function of the driver, undefined if the
    driver object no longer exists; the handle [None] is [NULL]. *)
Definition iot_button_delete (h : option Z) (del : outcome Z) (r : answers) : M buttons Z :=
  match h with
  | None => mret ESP_ERR_INVALID_ARG
  | Some h =>
      l ← gets g_head_handle;
      s ← lift (find_slot h l);
      f ← lift (free_entries all_events (cb_info (device s)));
      modify (set_slots (put_device h (set_cb_info f (device s)) l)) ;;
      del_ret ← lift del;
      act_ (DriverDel h) ;;
      if negb (del_ret =? ESP_OK) then mret del_ret
      else
        modify (set_slots (filter (fun s => handle s <> h) l)) ;;
        l ← gets g_head_handle;
        running ← gets g_is_timer_running;
        (if (u16 (zlen l) =? 0) && running then
           esp_timer_stop r ;; esp_timer_delete r ;; modify (set_timer false) ;; modify (set_running false)
         else mret tt) ;;
        mret ESP_OK
  end.

(** A call of the registry of one device. *)
Definition on_device {A} (h : Z) (m : M button_dev_t A) : M buttons A := fun st =>
  match find_slot h (g_head_handle st) with
  | Fault => Undef
  | Ret s =>
      match m (device s) with
      | Done a d => Done a (set_slots (put_device h d (g_head_handle st)) st)
      | Reset d => Reset (set_slots (put_device h d (g_head_handle st)) st)
      | Undef => Undef | Hang => Hang
      end
  end.

(** ** Histories *)

Inductive op :=
  | Tick (level : Z -> Z) (r : answers)
  | Create (args_ok : bool) (long short : Z) (drv : button_driver_t) (alloc : option Z) (r : answers)
  | Delete (h : option Z) (del_ret : Z) (r : answers)
  | Resume (r : answers) | Stop (r : answers) | RegisterPowerSave (cb_ok : bool)
  | Register (h : Z) (alloc : bool) (junk : button_cb_info_t) (e : button_event_t)
      (args : option Z) (f : option Z) (data : Z)
  | Unregister (h : Z) (alloc : bool) (e : button_event_t) (args : option Z).

Definition run_op (o : op) : M buttons unit :=
  match o with
  | Tick level r => button_cb level r
  | Create ok l s d a r => iot_button_create ok l s d a r ;; mret tt
  | Delete h del r => iot_button_delete h (Ret del) r ;; mret tt
  | Resume r => iot_button_resume r ;; mret tt
  | Stop r => iot_button_stop r ;; mret tt
  | RegisterPowerSave ok => iot_button_register_power_save_cb ok ;; mret tt
  | Register h al j e a f d => on_device h (iot_button_register_cb al j e a f d) ;; mret tt
  | Unregister h al e a => on_device h (iot_button_unregister_cb al e a) ;; mret tt
  end.

Fixpoint run_ops (os : list op) : M buttons unit :=
  match os with [] => mret tt | o :: os => run_op o ;; run_ops os end.

(** ** The timer protocol

    The timer behind the calls: whether it exists, and whether it runs. *)

Definition timer_after (t : bool * bool) (a : act) : bool * bool :=
  match a with
  | TimerCreate r => if r =? ESP_OK then (true, false) else t
  | TimerStart _ _ r => if r =? ESP_OK then (t.1, true) else t
  | TimerStop _ r => if r =? ESP_OK then (t.1, false) else t
  | TimerDelete _ r => if r =? ESP_OK then (false, false) else t
  | _ => t
  end.

Definition timer_of (l : list act) : bool * bool := foldl timer_after (false, false) l.

(** Every call of a history satisfies [P] in the state it meets. *)
Fixpoint meets (P : bool * bool -> act -> bool) (t : bool * bool) (l : list act) : bool :=
  match l with [] => true | a :: l => P t a && meets P (timer_after t a) l end.

(** What [esp_timer] documents of its answers: a timer that exists and is
    stopped starts and can be deleted, one that runs can be stopped, and every
    other request fails.  A creation may fail. *)
Definition answered (t : bool * bool) (a : act) : bool :=
  match a with
  | TimerStart h _ r => Bool.eqb (r =? ESP_OK) (h && t.1 && negb t.2)
  | TimerStop h r => Bool.eqb (r =? ESP_OK) (h && t.1 && t.2)
  | TimerDelete h r => Bool.eqb (r =? ESP_OK) (h && t.1 && negb t.2)
  | _ => true
  end.

(** No second timer, no start or deletion of one that runs. *)
Definition proper (t : bool * bool) (a : act) : bool :=
  match a with
  | TimerCreate _ => negb t.1
  | TimerStart _ _ _ | TimerDelete _ _ => negb t.2
  | _ => true
  end.

Definition created (a : act) : bool := match a with TimerCreate r => r =? ESP_OK | _ => true end.
Definition succeeded (a : act) : bool :=
  match a with
  | TimerCreate r | TimerStart _ _ r | TimerStop _ r | TimerDelete _ r => r =? ESP_OK
  | _ => true
  end.

Lemma timer_of_snoc l a : timer_of (l ++ [a]) = timer_after (timer_of l) a.
Proof. unfold timer_of. by rewrite foldl_app. Qed.

Lemma meets_snoc P l a : meets P (false, false) (l ++ [a]) = meets P (false, false) l && P (timer_of l) a.
Proof.
  unfold timer_of. generalize (false, false). induction l as [|b l IH]; intros t; simpl.
  - by rewrite andb_true_r.
  - by rewrite IH, andb_assoc.
Qed.

(** The handle [c] and the flag [r] after some calls. *)
Definition agree (c r : bool) (l : list act) : Prop :=
  meets answered (false, false) l = true ->
  meets proper (false, false) l = true /\
  (timer_of l).1 = c /\ ((timer_of l).2 = true -> r = true /\ c = true) /\
  (forallb created l = true -> forallb succeeded l = true /\ (timer_of l).2 = r).

Definition timer_inv (s : buttons) : Prop := agree (g_button_timer_handle s) (g_is_timer_running s) (acts s).

(** A case analysis on the timer and on the answer of one more call. *)
Ltac one_call :=
  intros Hl; unfold agree in *; rewrite ?meets_snoc, ?timer_of_snoc, ?forallb_app;
  intros [Ha Hc]%andb_prop; specialize (Hl Ha); revert Hl Hc Ha;
  repeat match goal with H : _ = true -> _ |- _ => revert H end; destruct (timer_of _) as [ex rn]; simpl;
  repeat match goal with |- context [?r =? ESP_OK] => destruct (r =? ESP_OK) end;
  destruct ex, rn, (forallb created _), (forallb succeeded _), (meets proper _ _), (meets answered _ _); simpl; intuition congruence.

Lemma agree_create r res l : agree false r l -> agree (res =? ESP_OK) r (l ++ [TimerCreate res]).
Proof. destruct r; one_call. Qed.

Lemma agree_start c p res l :
  (forallb created l = true -> c = true) -> agree c false l -> agree c true (l ++ [TimerStart c p res]).
Proof. intros Hcr. revert Hcr. destruct c; intros Hcr; one_call. Qed.

Lemma agree_stop c res l : agree c true l -> agree c false (l ++ [TimerStop c res]).
Proof. destruct c; one_call. Qed.

Lemma agree_stop_failed res l :
  ((res =? ESP_OK) = true -> False) -> agree true true l -> agree true true (l ++ [TimerStop true res]).
Proof. intros Hr. one_call. Qed.

Lemma agree_delete c res l :
  (forallb created l = true -> meets answered (false, false) l = true -> c = true) ->
  agree c false l -> agree false false (l ++ [TimerDelete c res]).
Proof. intros Hcr. revert Hcr. destruct c; intros Hcr; one_call. Qed.

(** A transition that keeps the invariant. *)
Definition sound {A} (m : M buttons A) : Prop := forall s a s', m s = Done a s' -> timer_inv s -> timer_inv s'.

Lemma sound_ret {A} (a : A) : sound (mret a).
Proof. by intros s b s' [= _ <-]. Qed.

Lemma sound_bind {A B} (m : M buttons A) (f : A -> M buttons B) :
  sound m -> (forall a, sound (f a)) -> sound (m ≫= f).
Proof.
  intros Hm Hf s b s'. unfold mbind, M_bind. destruct (m s) as [a s1| | |] eqn:E; [|done..].
  intros Hb Hi. by eapply Hf, Hm.
Qed.

Lemma sound_gets {A} (f : buttons -> A) : sound (gets f).
Proof. by intros s b s' [= _ <-]. Qed.

Lemma sound_lift {A} (o : outcome A) : sound (lift o).
Proof. intros s b s'. unfold lift. destruct o; [|done]. by intros [= _ <-]. Qed.

(** A branch on a variable that its continuation relies on. *)
Lemma sound_read {A B} (f : buttons -> A) (g : A -> M buttons B) :
  (forall s b s', g (f s) s = Done b s' -> timer_inv s -> timer_inv s') -> sound (gets f ≫= g).
Proof. intros H s b s'. apply H. Qed.

Lemma sound_slots f : sound (modify (fun s => set_slots (f s) s)).
Proof. by intros s b s' [= _ <-]. Qed.

Lemma sound_act a :
  match a with DriverEnterPowerSave _ | UserPowerSave | DriverDel _ => True | _ => False end ->
  sound (act_ a).
Proof.
  intros Ha s b s' [= _ <-]. unfold timer_inv, agree. simpl. rewrite !meets_snoc, timer_of_snoc, !forallb_app.
  by destruct a; simpl; rewrite ?andb_true_r.
Qed.

Lemma sound_power_save l : sound (power_save_all l).
Proof.
  induction l as [|s l IH]; simpl; [apply sound_ret|]. apply sound_bind; [|auto].
  destruct (_ && _); [by apply sound_act|apply sound_ret].
Qed.

(** The flag, and the handle where no creation has failed. *)
Lemma running_handle c l :
  agree c true l -> forallb created l = true -> meets answered (false, false) l = true -> c = true.
Proof. intros H Hc Ha. destruct (H Ha) as (_ & _ & Hr & Hs). destruct (Hs Hc) as [_ E]. by apply Hr in E as [_ ->]. Qed.

(** The runs of the timer calls, from a state whose variables are known. *)
Ltac timer_cases :=
  unfold iot_button_resume, iot_button_stop, start_timer, esp_timer_create, esp_timer_start_periodic,
    esp_timer_stop, esp_timer_delete;
  intros s ? s'; destruct s as [l c g u ac]; unfold timer_inv, act_; run_simpl;
  destruct c, g; cbn -[agree];
  repeat match goal with |- context [?r =? ESP_OK] => destruct (r =? ESP_OK) eqn:?; cbn -[agree] end;
  intros [= <- <-]; cbn -[agree]; try done.

Lemma sound_stop_if_running r :
  sound (running ← gets g_is_timer_running;
         if running : bool then esp_timer_stop r ;; modify (set_running false) else mret tt).
Proof. timer_cases; apply agree_stop. Qed.

Lemma sound_resume r : sound (iot_button_resume r).
Proof. timer_cases. by apply agree_start. Qed.

Lemma sound_stop r : sound (iot_button_stop r).
Proof. timer_cases; [apply agree_stop|apply agree_stop_failed; congruence]. Qed.

(** Creating the timer if needed, then starting it if needed. *)
Lemma sound_create_timer (start : bool) (h : Z) r :
  sound (t ← gets g_button_timer_handle;
         (if negb t then esp_timer_create r else mret tt) ;;
         running ← gets g_is_timer_running;
         (if start && negb running then start_timer r else mret tt) ;;
         mret (ESP_OK, Some h)).
Proof.
  destruct start; timer_cases; intros H; try (by apply agree_start);
    apply (agree_create _ (create_ret r)) in H;
    match goal with E : (create_ret r =? ESP_OK) = _ |- _ => rewrite E in H end; try exact H;
    (apply agree_start; [|exact H]); [done|].
  rewrite forallb_app. simpl. match goal with E : (create_ret r =? ESP_OK) = _ |- _ => rewrite E end.
  by intros [_ H']%andb_prop.
Qed.

Lemma sound_create args_ok long short drv alloc r : sound (iot_button_create args_ok long short drv alloc r).
Proof.
  unfold iot_button_create. destruct args_ok, alloc as [h|]; try apply sound_ret. simpl.
  apply sound_bind; [apply sound_slots|]. intros _. apply sound_create_timer.
Qed.

Lemma sound_last_deleted (none : bool) r :
  sound (running ← gets g_is_timer_running;
         (if none && running then
            esp_timer_stop r ;; esp_timer_delete r ;; modify (set_timer false) ;; modify (set_running false)
          else mret tt) ;;
         mret ESP_OK).
Proof.
  destruct none; timer_cases; intros H; apply agree_delete; try (by apply agree_stop);
    rewrite forallb_app, meets_snoc; intros [Hc _]%andb_prop [Hm _]%andb_prop; by apply (running_handle _ _ H).
Qed.

Lemma sound_delete h del r : sound (iot_button_delete h del r).
Proof.
  unfold iot_button_delete. destruct h as [h|]; [|apply sound_ret].
  apply sound_bind; [apply sound_gets|]. intros l. apply sound_bind; [apply sound_lift|]. intros s.
  apply sound_bind; [apply sound_lift|]. intros f.
  apply sound_bind; [apply (sound_slots (fun _ => _))|]. intros _.
  apply sound_bind; [apply sound_lift|]. intros ret.
  apply sound_bind; [by apply sound_act|]. intros _. destruct (negb _); [apply sound_ret|].
  apply sound_bind; [apply (sound_slots (fun _ => _))|]. intros _.
  apply sound_bind; [apply sound_gets|]. intros l'. apply sound_last_deleted.
Qed.

Lemma sound_embed {A} (m : M (list slot) A) : sound (embed g_head_handle set_slots m).
Proof. intros s a s'. unfold embed. destruct (m _); [|done..]. by intros [= _ <-]. Qed.

Lemma sound_tick level r : sound (button_cb level r).
Proof.
  unfold button_cb. apply sound_bind; [apply sound_embed|]. intros _.
  apply sound_bind; [apply sound_gets|]. intros l. destruct (forallb _ _); [|apply sound_ret].
  intros s0 a s' Hs. rewrite <-bind_assoc_M in Hs. revert s0 a s' Hs.
  apply sound_bind; [apply sound_stop_if_running|]. intros _.
  apply sound_bind; [apply sound_power_save|]. intros _.
  apply sound_bind; [apply sound_gets|]. intros user. destruct user; [by apply sound_act|apply sound_ret].
Qed.

Lemma sound_power_cb ok : sound (iot_button_register_power_save_cb ok).
Proof.
  unfold iot_button_register_power_save_cb. apply sound_bind; [apply sound_gets|]. intros l.
  destruct l; [apply sound_ret|]. destruct ok; [|apply sound_ret].
  apply sound_bind; [by intros ? ? ? [= _ <-]|intros _; apply sound_ret].
Qed.

Lemma sound_on_device {A} h (m : M button_dev_t A) : sound (on_device h m).
Proof.
  intros s a s'. unfold on_device. destruct (find_slot h _) as [sl|]; [|done].
  destruct (m (device sl)); [|done..]. by intros [= _ <-].
Qed.

Lemma sound_op o : sound (run_op o).
Proof.
  destruct o; simpl; [apply sound_tick|..]; (apply sound_bind; [|intros ?; apply sound_ret]).
  - apply sound_create.
  - apply sound_delete.
  - apply sound_resume.
  - apply sound_stop.
  - apply sound_power_cb.
  - apply sound_on_device.
  - apply sound_on_device.
Qed.

(** C16. The timer protocol.  Take any sequence of ticks and API calls from the
    start of the program that returns, with any answers of [esp_timer] that its
    documentation allows; a creation may fail, and the code tests only the
    answer of the stop in [iot_button_stop].  Then no second timer is created
    while one exists, none is started or deleted while it runs, the handle is
    set exactly if the timer exists, and a timer that runs is one that
    [g_is_timer_running] and the handle show.  If no creation failed, every call
    of the timer succeeded and [g_is_timer_running] tells whether it runs. *)
Theorem timer_protocol os s :
  run_ops os init_buttons = Done tt s ->
  meets answered (false, false) (acts s) = true ->
  meets proper (false, false) (acts s) = true /\
  (timer_of (acts s)).1 = g_button_timer_handle s /\
  ((timer_of (acts s)).2 = true -> g_is_timer_running s = true /\ g_button_timer_handle s = true) /\
  (forallb created (acts s) = true ->
   forallb succeeded (acts s) = true /\ (timer_of (acts s)).2 = g_is_timer_running s).
Proof.
  intros Hr. assert (sound (run_ops os)) as Hs.
  { clear Hr. induction os as [|o os IH]; simpl; [apply sound_ret|].
    apply sound_bind; [apply sound_op|done]. }
  refine (Hs _ _ _ Hr _). intros _. done.
Qed.

(** ** Where the code goes wrong *)

Lemma free_entries_once es f :
  NoDup es -> (forall e, e ∈ es -> f e <> Freed) ->
  exists f', free_entries es f = Ret f' /\
    (forall e, e ∈ es -> f e <> Null -> f' e = Freed) /\ (forall e, e ∉ es -> f' e = f e).
Proof.
  intros Hnd. revert f. induction Hnd as [|e es Hne _ IH]; intros f Hf; simpl.
  { exists f. split_and!; [done| |done]. intros e He. by apply not_elem_of_nil in He. }
  assert (forall e', e' ∈ es -> f e' <> Freed) as Hes by (intros e' ?; apply Hf; by right).
  destruct (f e) as [|l|] eqn:E; [| |by destruct (Hf e); [by left|]].
  - destruct (IH f Hes) as (f' & -> & H1 & H2). exists f'. split_and!; [done| |].
    + intros e' [->|He']%elem_of_cons Hn; [done|auto].
    + intros e' [_ He']%not_elem_of_cons. by apply H2.
  - destruct (IH (upd f e Freed)) as (f' & -> & H1 & H2).
    { intros e' He'. rewrite upd_other by congruence. by apply Hes. }
    exists f'. split_and!; [done| |].
    + intros e' [->|He']%elem_of_cons Hn; [by rewrite (H2 e Hne), upd_same|].
      apply H1; [done|]. by rewrite upd_other by congruence.
    + intros e' [Hee He']%not_elem_of_cons. by rewrite (H2 e' He'), upd_other.
Qed.

Lemma free_freed es f e : e ∈ es -> f e = Freed -> free_entries es f = Fault.
Proof.
  intros He. revert f. induction He as [e es|e d es He IH]; intros f Hf; simpl; [by rewrite Hf|].
  destruct (f d) eqn:E; [by apply IH| |done]. apply IH. unfold upd. by case_bool_decide.
Qed.

Lemma all_events_nodup : NoDup all_events.
Proof. by_compute. Qed.

Lemma find_put h s d l :
  find_slot h l = Ret s -> find_slot h (put_device h d l) = Ret (mk_slot h (driver s) d).
Proof.
  unfold find_slot. induction l as [|s0 l IH]; simpl; [done|].
  destruct (Z.eqb_spec (handle s0) h) as [E|E].
  - rewrite !decide_True by done. by intros [= ->].
  - rewrite !decide_False by done.
    destruct (list_find _ l) as [[i s1]|]; simpl; [|done]. intros [= ->]. specialize (IH eq_refl).
    destruct (list_find _ (put_device h d l)) as [[j s2]|]; simpl in *; [|done]. by injection IH as ->.
Qed.

#[local] Opaque all_events.

(** A failed deletion leaves dangling pointers.  When the [del] function of
    the driver fails, [iot_button_delete] has already freed the callbacks of the
    button and leaves it in the list: deleting it again frees them twice, and
    the next tick that calls one of them uses freed memory. *)
Theorem failed_delete_dangles h r r' an an' e s st :
  find_slot h (g_head_handle st) = Ret s -> r <> ESP_OK ->
  registry_ok (device s) -> e ∈ all_events -> entries (device s) e <> [] ->
  exists st' s', iot_button_delete (Some h) (Ret r) an st = Done r st' /\
    find_slot h (g_head_handle st') = Ret s' /\ CALL_EVENT_CB e (device s') = Undef /\
    iot_button_delete (Some h) (Ret r') an' st' = Undef.
Proof.
  intros Hs Hr Hreg He Hcb.
  destruct (free_entries_once all_events (cb_info (device s)) all_events_nodup) as (f & Hf & Hfreed & _).
  { intros e' _. apply Hreg. }
  assert (f e = Freed) as Hfe.
  { apply Hfreed; [done|]. unfold entries in Hcb. by destruct (cb_info (device s) e). }
  assert (exists n, cb_size (device s) e = Z.of_nat (S n)) as [n Hn].
  { destruct (Hreg e) as (_ & -> & _). destruct (entries (device s) e) as [|c l]; [done|]. by exists (length l). }
  set (d := set_cb_info f (device s)).
  exists (mk_buttons (put_device h d (g_head_handle st)) (g_button_timer_handle st)
            (g_is_timer_running st) (enter_power_save_cb st) (acts st ++ [DriverDel h])).
  exists (mk_slot h (driver s) d). simpl. rewrite (find_put _ _ _ _ Hs). split_and!; [|done| |].
  - rewrite done_gets. unfold mbind, M_bind, lift. rewrite Hs, Hf. simpl.
    by rewrite (proj2 (Z.eqb_neq _ _) Hr).
  - unfold CALL_EVENT_CB. rewrite done_gets. unfold has_cb. simpl. rewrite Hfe, done_gets. simpl.
    rewrite Hn, Nat2Z.id. simpl. unfold call_cb_at, entry. run_simpl. by rewrite Hfe.
  - rewrite done_gets. unfold mbind, M_bind, lift. simpl. rewrite (find_put _ _ _ _ Hs). simpl.
    by rewrite (free_freed _ _ e He Hfe).
Qed.

#[local] Transparent all_events.

(** A failed creation goes unnoticed.  When [esp_timer_create] fails for a
    button that is always awake, [iot_button_create] reports success with
    [g_is_timer_running] set and no timer; [iot_button_resume] refuses to start
    one, and a later creation that gets its timer does not start it. *)
Theorem creation_failure_ignored long short drv h an :
  enable_power_save drv = false -> create_ret an <> ESP_OK -> start_ret an <> ESP_OK ->
  exists s, iot_button_create true long short drv (Some h) an init_buttons = Done (ESP_OK, Some h) s /\
    g_is_timer_running s = true /\ timer_of (acts s) = (false, false) /\
    (forall an', iot_button_resume an' s = Done ESP_ERR_INVALID_STATE s) /\
    forall h' an', create_ret an' = ESP_OK ->
      exists s', iot_button_create true long short drv (Some h') an' s = Done (ESP_OK, Some h') s' /\
        g_button_timer_handle s' = true /\ g_is_timer_running s' = true /\ timer_of (acts s') = (true, false).
Proof.
  intros Hp Hc%Z.eqb_neq Hs%Z.eqb_neq.
  unfold iot_button_create, iot_button_resume, esp_timer_create, start_timer, esp_timer_start_periodic, act_, timer_of.
  run_simpl. rewrite Hp, Hc. run_simpl. eexists. split; [reflexivity|]. simpl. rewrite Hc, Hs. simpl.
  split_and!; [done..|]. intros h' an' E. rewrite E. simpl. eexists. split; [reflexivity|]. simpl.
  done.
Qed.

(** ** Witnesses *)

Definition awake : button_driver_t := mk_driver false false.
Definition sleepy : button_driver_t := mk_driver true true.

(** Every call succeeds; [esp_timer_create] fails; a stop or start that fails. *)
Definition fine : answers := mk_answers 0 0 0 0.
Definition no_timer : answers := mk_answers 0x101 0x102 0x102 0x102.
Definition stopped : answers := mk_answers 0 0 0x103 0.

Definition history : list op :=
  [Create true 0 0 sleepy (Some 16) fine; Create true 0 0 awake (Some 32) fine;
   Register 32 true blank BUTTON_PRESS_DOWN None (Some 7) 0;
   Tick (fun h => if h =? 32 then 1 else 0) fine; Tick (fun h => if h =? 32 then 1 else 0) fine;
   Stop fine; Resume fine; Delete (Some 32) 0 fine; Tick (fun _ => 0) fine; Resume fine; Delete (Some 16) 0 fine;
   Create true 0 0 awake (Some 48) no_timer; Resume no_timer; Create true 0 0 awake (Some 64) fine;
   Delete (Some 48) 0 fine; Delete (Some 64) 0 stopped].

Definition after (os : list op) : buttons :=
  match run_ops os init_buttons with Done _ s => s | _ => init_buttons end.

Lemma timer_protocol_witness :
  exists s, run_ops history init_buttons = Done tt s /\
    acts s = [TimerCreate 0; TimerStart true 5000 0; TimerStop true 0; TimerStart true 5000 0; DriverDel 32;
              TimerStop true 0; DriverEnterPowerSave 16; TimerStart true 5000 0; DriverDel 16; TimerStop true 0;
              TimerDelete true 0; TimerCreate 0x101; TimerStart false 5000 0x102; TimerCreate 0; DriverDel 48;
              DriverDel 64; TimerStop true 0x103; TimerDelete true 0] /\
    meets proper (false, false) (acts s) = true /\ (timer_of (acts s)).1 = g_button_timer_handle s.
Proof.
  exists (after history). split; [vm_compute; reflexivity|]. split; [vm_compute; reflexivity|].
  destruct (timer_protocol history (after history)) as (H1 & H2 & _);
    [vm_compute; reflexivity|vm_compute; reflexivity|]. split; [exact H1|exact H2].
Defined.

Definition one_button : buttons :=
  after [Create true 0 0 awake (Some 32) fine; Register 32 true blank BUTTON_PRESS_DOWN None (Some 7) 0].

Lemma failed_delete_dangles_witness :
  exists st' s', iot_button_delete (Some 32) (Ret ESP_FAIL) fine one_button = Done ESP_FAIL st' /\
    find_slot 32 (g_head_handle st') = Ret s' /\ CALL_EVENT_CB BUTTON_PRESS_DOWN (device s') = Undef /\
    iot_button_delete (Some 32) (Ret ESP_OK) fine st' = Undef.
Proof.
  refine (failed_delete_dangles 32 ESP_FAIL ESP_OK fine fine BUTTON_PRESS_DOWN
    (default (mk_slot 0 awake (new_device 0 0)) (head (g_head_handle one_button))) one_button _ _ _ _ _).
  - vm_compute. reflexivity.
  - discriminate.
  - intros e. by destruct e; vm_compute.
  - by left.
  - by vm_compute.
Defined.
