(* ===== verification/ButtonDrv.v ===== *)
(** * Button drivers (src/components/button/button_{matrix,gpio,adc}.c)

    The three drivers that create buttons.  What a pin, a converter or an
    allocation returns is an argument; a driver object is alive or freed.  The
    calls that configure pins and calibration are in ButtonPins.v. *)

From S2P Require Import Prelude CMem CState Button ButtonFacts ButtonReg ButtonSys.

(** ** Matrix keypads *)

Module Matrix.

Record button_matrix_obj := mk_obj { row_gpio_num : Z; col_gpio_num : Z }.

Inductive gpio_act := SetLevel (pin level : Z) | GetLevel (pin : Z) | ResetPin (pin : Z).

(** [level] is what [gpio_get_level] returns; the level and the pin accesses. *)
Definition button_matrix_get_key_level (o : button_matrix_obj) (level : Z) : Z * list gpio_act :=
  (u8 level, [SetLevel (row_gpio_num o) 1; GetLevel (col_gpio_num o); SetLevel (row_gpio_num o) 0]).

(** The objects of one keypad are one block; [free] of the address of its [i]th
    element is defined for the first only.  [None] is a freed block. *)
Definition button_matrix_del (block : option (list button_matrix_obj)) (i : nat)
    : outcome (Z * option (list button_matrix_obj) * list gpio_act) :=
  match block with
  | None => Fault
  | Some l =>
      match l !! i with
      | None => Fault
      | Some o =>
          if (i =? 0)%nat
          then Ret (ESP_OK, None, [ResetPin (row_gpio_num o); ResetPin (col_gpio_num o)])
          else Fault
      end
  end.

Record button_matrix_config_t := mk_cfg { row_gpios : list Z; col_gpios : list Z; row_num : Z; col_num : Z }.

Definition pin (l : list Z) (i : Z) : outcome Z :=
  match l !! Z.to_nat i with Some p => Ret p | None => Fault end.

(** The pins configured by the two loops of the constructor. *)
Fixpoint init_pins (n : nat) (i : Z) (l : list Z) : outcome (list Z) :=
  match n with O => Ret [] | S n => p ← pin l i; ps ← init_pins n (i + 1) l; Ret (p :: ps) end.

(** The loop over the objects from the [i]th on: the objects, the handles of the
    buttons created and the system; it ends at the first button that cannot be
    created.  [alloc i] is the address of the [i]th device, [an i] what the timer
    answers during its creation. *)
Fixpoint create_loop (n : nat) (i : Z) (cfg : button_matrix_config_t) (long short : Z)
    (alloc : Z -> option Z) (an : Z -> answers) (hs : list Z) : M buttons (Z * list button_matrix_obj * list Z) :=
  match n with
  | O => mret (ESP_OK, [], hs)
  | S n =>
      r ← lift (pin (row_gpios cfg) (i / col_num cfg));
      c ← lift (pin (col_gpios cfg) (i mod col_num cfg));
      res ← iot_button_create true long short (mk_driver false false) (alloc i) (an i);
      match res with
      | (ret, Some h) =>
          rest ← create_loop n (i + 1) cfg long short alloc an (hs ++ [h]);
          mret (rest.1.1, mk_obj r c :: rest.1.2, rest.2)
      | (ret, None) => mret (ESP_FAIL, [mk_obj r c], hs)
      end
  end.

(** The status, the block of objects ([None] if freed on the error path) and
    the handles.  [calloc]: whether the block could be allocated; a null block
    is written to. *)
Definition iot_button_new_matrix_device (args_ok gpios_ok : bool) (long short : Z)
    (cfg : button_matrix_config_t) (size : Z) (calloc : bool) (alloc : Z -> option Z)
    (an : Z -> answers) : M buttons (Z * option (list button_matrix_obj) * list Z) :=
  if negb args_ok then mret (ESP_ERR_INVALID_ARG, None, [])
  else if negb gpios_ok then mret (ESP_ERR_INVALID_ARG, None, [])
  else if negb ((0 <? col_num cfg) && (0 <? row_num cfg)) then mret (ESP_ERR_INVALID_ARG, None, [])
  else if negb (size =? u32 (row_num cfg * col_num cfg)) then mret (ESP_ERR_INVALID_ARG, None, [])
  else
    lift (init_pins (Z.to_nat (row_num cfg)) 0 (row_gpios cfg)) ;;
    lift (init_pins (Z.to_nat (col_num cfg)) 0 (col_gpios cfg)) ;;
    if negb calloc && (0 <? size) then lift Fault
    else
      r ← create_loop (Z.to_nat size) 0 cfg long short alloc an [];
      if r.1.1 =? ESP_OK then mret (ESP_OK, Some r.1.2, r.2) else mret (r.1.1, None, r.2).
End Matrix.

(** ** Single pins *)

Module Gpio.

Record button_gpio_obj := mk_obj { gpio_num : Z; active_level : Z }.
Record button_gpio_config_t := mk_cfg {
  cfg_gpio_num : Z; cfg_active_level : Z; cfg_enable_power_save : bool; cfg_disable_pull : bool }.

Definition button_gpio_get_key_level (o : button_gpio_obj) (level : Z) : Z :=
  if level =? active_level o then 1 else 0.

(** Pull-up and pull-down of the pin. *)
Definition pulls (cfg : button_gpio_config_t) : bool * bool :=
  if cfg_disable_pull cfg then (false, false)
  else if negb (cfg_active_level cfg =? 0) then (false, true) else (true, false).

(** What the calls of the constructor return: [gpio_config],
    [gpio_wakeup_enable], [esp_sleep_enable_gpio_wakeup] and the three calls of
    [button_gpio_set_intr]. *)
Record answers := mk_answers {
  a_config : Z; a_wakeup : Z; a_sleep : Z; a_intr_type : Z; a_isr_service : Z; a_isr_add : Z }.

(** [isr_service_installed] is the static variable of the function. *)
Definition button_gpio_set_intr (isr_service_installed : bool) (a : answers) : Z * bool :=
  if negb (a_intr_type a =? ESP_OK) then (a_intr_type a, isr_service_installed)
  else if negb isr_service_installed && negb (a_isr_service a =? ESP_OK) then (a_isr_service a, false)
  else (a_isr_add a, true).

(** The error path: the driver object is freed if there is one, then the button
    of [*ret_button] is deleted, [del] being the call of its driver. *)
Definition err (ret : Z) (ret_ok : bool) (ret_button : option Z) (del : outcome Z)
    (an : ButtonSys.answers) : M buttons (Z * option Z) :=
  (if ret_ok then iot_button_delete ret_button del an ;; mret tt else mret tt) ;;
  mret (ret, ret_button).

(** [ret_ok]: [ret_button] is not [NULL]; [old] is the handle it points to and
    [old_del] the call of the driver of that button; [alloc] the address of the
    device; [an] what the button timer answers.  The last error path calls the driver just freed.  The results of the calls in the block
    for power saving go to a variable of the block, so that its error path
    returns the outer one, [ESP_OK]. *)
Definition iot_button_new_gpio_device (args_ok ret_ok valid : bool) (old : option Z) (old_del : outcome Z)
    (long short : Z) (cfg : button_gpio_config_t) (calloc : bool) (alloc : option Z) (a : answers)
    (an : ButtonSys.answers) (isr_service_installed : bool) : M buttons (Z * option Z) :=
  if negb (args_ok && ret_ok) then err ESP_ERR_INVALID_ARG ret_ok old old_del an
  else if negb valid then err ESP_ERR_INVALID_ARG ret_ok old old_del an
  else if negb calloc then err ESP_ERR_NO_MEM ret_ok None Fault an
  else if negb (a_config a =? ESP_OK) then err (a_config a) ret_ok None Fault an
  else if cfg_enable_power_save cfg && negb (a_wakeup a =? ESP_OK) then err ESP_OK ret_ok None Fault an
  else if cfg_enable_power_save cfg && negb (a_sleep a =? ESP_OK) then err ESP_OK ret_ok None Fault an
  else
    r ← iot_button_create true long short
          (mk_driver (cfg_enable_power_save cfg) (cfg_enable_power_save cfg)) alloc an;
    if negb (r.1 =? ESP_OK) then err ESP_FAIL ret_ok None Fault an
    else if cfg_enable_power_save cfg &&
            negb ((button_gpio_set_intr isr_service_installed a).1 =? ESP_OK)
         then err ESP_FAIL ret_ok r.2 Fault an
    else mret (ESP_OK, r.2).
End Gpio.

(** ** Resistor ladders on an analog input *)

Module Adc.

Definition ADC_BUTTON_MAX_CHANNEL : Z := 3.
Definition ADC_BUTTON_MAX_BUTTON : Z := 8.
Definition NO_OF_SAMPLES : Z := 1.
Definition ADC_UNIT_NUM : Z := 2.
Definition ADC_BUTTON_CHANNEL_MAX : Z := 10.

Record button_data_t := mk_data { min_mv : Z; max_mv : Z }.

Record btn_adc_channel_t := mk_channel { channel : Z; is_init : Z; btns : list button_data_t; last_time : Z }.

Inductive adc_init_info_t := ADC_NONE_INIT | ADC_INIT_BY_ADC_BUTTON | ADC_INIT_BY_USER.

#[export] Instance adc_init_info_eq_dec : EqDecision adc_init_info_t.
Proof. solve_decision. Defined.

Record btn_adc_unit_t := mk_unit { is_configured : adc_init_info_t; ch : list btn_adc_channel_t; ch_num : Z }.

(** [g_button] and the static variable [vol] of [button_adc_get_key_level]. *)
Record adc := mk_adc { g_button : list btn_adc_unit_t; vol : Z }.

Record button_adc_obj := mk_obj { unit_id : Z; obj_ch : Z; index : Z }.

Definition zero_data : button_data_t := mk_data 0 0.
Definition zero_channel : btn_adc_channel_t :=
  mk_channel 0 0 (replicate (Z.to_nat ADC_BUTTON_MAX_BUTTON) zero_data) 0.
Definition zero_unit : btn_adc_unit_t :=
  mk_unit ADC_NONE_INIT (replicate (Z.to_nat ADC_BUTTON_MAX_CHANNEL) zero_channel) 0.
Definition adc_init : adc := mk_adc (replicate (Z.to_nat ADC_UNIT_NUM) zero_unit) 0.

(** Array accesses; an index outside is undefined. *)
Definition at_index {A} (l : list A) (i : Z) : M adc A :=
  if i <? 0 then lift Fault
  else match l !! Z.to_nat i with Some x => mret x | None => lift Fault end.

Definition get_unit (u : Z) : M adc btn_adc_unit_t := g ← gets g_button; at_index g u.
Definition put_unit (u : Z) (x : btn_adc_unit_t) : M adc unit :=
  modify (fun s => mk_adc (<[Z.to_nat u := x]> (g_button s)) (vol s)).
Definition get_ch (u i : Z) : M adc btn_adc_channel_t := x ← get_unit u; at_index (ch x) i.
Definition put_ch (u i : Z) (c : btn_adc_channel_t) : M adc unit :=
  x ← get_unit u; put_unit u (mk_unit (is_configured x) (<[Z.to_nat i := c]> (ch x)) (ch_num x)).

(** The index of the first channel that satisfies [p], or -1. *)
Definition first_channel (p : btn_adc_channel_t -> bool) (u : Z) : M adc Z :=
  x ← get_unit u;
  mret (match list_find (fun c => p c = true) (ch x) with Some (i, _) => Z.of_nat i | None => -1 end).

Definition find_unused_channel (u : Z) : M adc Z := first_channel (fun c => 0 =? is_init c) u.
Definition find_channel (u chan : Z) : M adc Z := first_channel (fun c => u8 chan =? channel c) u.

(** The converter: the [i]th sample of a channel, and the calibration. *)
Class Converter := {
  adc_oneshot_read : Z -> Z -> Z -> Z;
  adc_cali_raw_to_voltage : Z -> Z -> Z;
}.

Section Ops.
Context `{Converter}.

Fixpoint sum_samples (n : nat) (i u chan : Z) (adc_reading : Z) : Z :=
  match n with
  | O => adc_reading
  | S n => sum_samples n (i + 1) u chan (u32 (adc_reading + adc_oneshot_read u chan i))
  end.

Definition get_adc_voltage (u chan : Z) : Z :=
  u32 (adc_cali_raw_to_voltage u (sum_samples (Z.to_nat NO_OF_SAMPLES) 0 u (u8 chan) 0 / NO_OF_SAMPLES)).

(** [now] and [now'] are what the two calls of [esp_timer_get_time] return. *)
Definition button_adc_get_key_level (o : button_adc_obj) (now now' : Z) : M adc Z :=
  if negb (obj_ch o <? ADC_BUTTON_CHANNEL_MAX) then mret 0
  else if negb (index o <? ADC_BUTTON_MAX_BUTTON) then mret 0
  else
    ch_index ← find_channel (unit_id o) (obj_ch o);
    if ch_index <? 0 then mret 0
    else
      c ← get_ch (unit_id o) ch_index;
      (if 1000 <? u64 (now - last_time c) then
         modify (fun s => mk_adc (g_button s) (u16 (get_adc_voltage (unit_id o) (obj_ch o)))) ;;
         put_ch (unit_id o) ch_index (mk_channel (channel c) (is_init c) (btns c) (u64 now'))
       else mret tt) ;;
      v ← gets vol;
      c ← get_ch (unit_id o) ch_index;
      d ← at_index (btns c) (index o);
      if (v <=? max_mv d) && (min_mv d <=? v) then mret BUTTON_ACTIVE else mret BUTTON_INACTIVE.

(** [del_unit] is what [adc_oneshot_del_unit] returns; the result is the status
    and whether the object was freed. *)
Definition button_adc_del (o : button_adc_obj) (del_unit : Z) : M adc (Z * bool) :=
  if negb (obj_ch o <? ADC_BUTTON_CHANNEL_MAX) then mret (ESP_ERR_INVALID_ARG, false)
  else if negb (index o <? ADC_BUTTON_MAX_BUTTON) then mret (ESP_ERR_INVALID_ARG, false)
  else
    ch_index ← find_channel (unit_id o) (obj_ch o);
    if ch_index <? 0 then mret (ESP_ERR_INVALID_ARG, false)
    else
      c ← get_ch (unit_id o) ch_index;
      let b := <[Z.to_nat (index o) := zero_data]> (btns c) in
      let unused := forallb (fun d => 0 =? max_mv d) b && negb (is_init c =? 0) in
      put_ch (unit_id o) ch_index
        (mk_channel (if unused then ADC_BUTTON_CHANNEL_MAX else channel c)
                    (if unused then 0 else is_init c) b (last_time c)) ;;
      x ← get_unit (unit_id o);
      if forallb (fun c => 0 =? is_init c) (ch x) && bool_decide (is_configured x <> ADC_NONE_INIT) then
        if bool_decide (is_configured x = ADC_INIT_BY_ADC_BUTTON) && negb (del_unit =? ESP_OK)
        then mret (del_unit, false)
        else put_unit (unit_id o) zero_unit ;; mret (ESP_OK, true)
      else mret (ESP_OK, true).

Record button_adc_config_t := mk_cfg {
  adc_handle : bool; cfg_unit_id : Z; adc_channel : Z; button_index : Z; cfg_min : Z; cfg_max : Z }.

(** The unit, initialised if it was not: [new_unit] is what
    [adc_oneshot_new_unit] returns; [false] if it failed. *)
Definition init_unit (cfg : button_adc_config_t) (new_unit : Z) : M adc bool :=
  x ← get_unit (cfg_unit_id cfg);
  if bool_decide (is_configured x = ADC_NONE_INIT) then
    if negb (adc_handle cfg) && negb (new_unit =? ESP_OK) then mret false
    else
      put_unit (cfg_unit_id cfg)
        (mk_unit (if adc_handle cfg then ADC_INIT_BY_USER else ADC_INIT_BY_ADC_BUTTON) (ch x) (ch_num x)) ;;
      mret true
  else mret true.

Definition init_channel (cfg : button_adc_config_t) (ch_index config_channel : Z) : M adc bool :=
  c ← get_ch (cfg_unit_id cfg) ch_index;
  if is_init c =? 0 then
    if negb (config_channel =? ESP_OK) then mret false
    else
      put_ch (cfg_unit_id cfg) ch_index (mk_channel (adc_channel cfg) 1 (btns c) 0) ;; mret true
  else mret true.

(** The channel to use: its own, if the button index is free there, or a new one. *)
Definition pick_channel (cfg : button_adc_config_t) : M adc (option Z) :=
  ch_index ← find_channel (cfg_unit_id cfg) (adc_channel cfg);
  if 0 <=? ch_index then
    c ← get_ch (cfg_unit_id cfg) ch_index;
    d ← at_index (btns c) (button_index cfg);
    if max_mv d =? 0 then mret (Some ch_index) else mret None
  else
    i ← find_unused_channel (cfg_unit_id cfg);
    if 0 <=? i then mret (Some i) else mret None.

(** The status and the driver object of the button, if one was created.  The
    results of the converter's calls go to variables of their blocks, so that
    those error paths return the outer one, [ESP_OK].  [create] is what
    [iot_button_create] returns. *)
Definition iot_button_new_adc_device (args_ok : bool) (cfg : button_adc_config_t)
    (calloc : bool) (new_unit config_channel create : Z) : M adc (Z * option button_adc_obj) :=
  if negb (args_ok && (cfg_unit_id cfg <? ADC_UNIT_NUM) && (adc_channel cfg <? ADC_BUTTON_CHANNEL_MAX)
           && (button_index cfg <? ADC_BUTTON_MAX_BUTTON) && (0 <? cfg_max cfg))
  then mret (ESP_ERR_INVALID_ARG, None)
  else if negb calloc then mret (ESP_ERR_NO_MEM, None)
  else
    i ← pick_channel cfg;
    match i with
    | None => mret (ESP_ERR_INVALID_STATE, None)
    | Some ch_index =>
        ok ← init_unit cfg new_unit;
        if negb ok then mret (ESP_OK, None)
        else
          ok ← init_channel cfg ch_index config_channel;
          if negb ok then mret (ESP_OK, None)
          else
            c ← get_ch (cfg_unit_id cfg) ch_index;
            put_ch (cfg_unit_id cfg) ch_index
              (mk_channel (channel c) (is_init c)
                 (<[Z.to_nat (button_index cfg) := mk_data (cfg_min cfg) (cfg_max cfg)]> (btns c))
                 (last_time c)) ;;
            x ← get_unit (cfg_unit_id cfg);
            put_unit (cfg_unit_id cfg) (mk_unit (is_configured x) (ch x) (u8 (ch_num x + 1))) ;;
            if negb (create =? ESP_OK) then mret (ESP_FAIL, None)
            else mret (ESP_OK, Some (mk_obj (cfg_unit_id cfg) (adc_channel cfg) (button_index cfg)))
    end.
End Ops.
End Adc.
