(* ===== verification/ButtonDrvFacts.v ===== *)
(** * Facts about the button drivers *)

From S2P Require Import Prelude CMem CState Button ButtonFacts ButtonReg ButtonSys ButtonDrv.

(** ** Matrix keypads *)

Section MatrixFacts.
Import Matrix.

Lemma create_run h long short drv an st :
  exists st', iot_button_create true long short drv (Some h) an st = Done (ESP_OK, Some h) st' /\
    find_slot h (g_head_handle st') = Ret (mk_slot h drv (new_device long short)).
Proof.
  destruct st as [l t r u ac].
  unfold iot_button_create, esp_timer_create, start_timer, esp_timer_start_periodic, act_, find_slot. run_simpl.
  destruct t, (enable_power_save drv), r; run_simpl; try (destruct (create_ret an =? ESP_OK); run_simpl);
    eexists; (split; [reflexivity|]); simpl; by rewrite decide_True.
Qed.

Lemma init_pins_run n i l :
  0 <= i -> i + Z.of_nat n <= zlen l -> exists ps, init_pins n i l = Ret ps.
Proof.
  revert i. induction n as [|n IH]; intros i H0 Hi; [by eexists|]. simpl. unfold pin.
  destruct (lookup_lt_is_Some_2 l (Z.to_nat i)) as [p Hp]; [lia|]. rewrite Hp, bind_Ret.
  destruct (IH (i + 1)) as [ps ->]; [lia|lia|]. by eexists.
Qed.
(** Rows, columns and addresses that exist. *)
Context (cfg : button_matrix_config_t) (address : Z -> Z).
Context (Hc : 0 < col_num cfg) (Hcl : col_num cfg <= zlen (col_gpios cfg)).

Lemma create_loop_run n (i : nat) long short an hs st :
  (forall k, (i <= k < i + n)%nat -> Z.of_nat k / col_num cfg < zlen (row_gpios cfg)) ->
  exists objs st', create_loop n (Z.of_nat i) cfg long short (fun i => Some (address i)) an hs st
    = Done (ESP_OK, objs, hs ++ (address ∘ Z.of_nat <$> seq i n)) st' /\ length objs = n /\
    forall k, (k < n)%nat -> exists o, objs !! k = Some o /\
      row_gpios cfg !! Z.to_nat (Z.of_nat (i + k) / col_num cfg) = Some (row_gpio_num o) /\
      col_gpios cfg !! Z.to_nat (Z.of_nat (i + k) mod col_num cfg) = Some (col_gpio_num o).
Proof using Hc Hcl.
  revert i hs st. induction n as [|n IH]; intros i hs st Hr.
  { exists [], st. simpl. rewrite app_nil_r. split_and!; [done|done|lia]. }
  assert (0 <= Z.of_nat i / col_num cfg) as H0 by (apply Z.div_pos; lia).
  pose proof (Hr i ltac:(lia)) as H1. pose proof (Z.mod_pos_bound (Z.of_nat i) (col_num cfg) Hc) as H2.
  destruct (lookup_lt_is_Some_2 (row_gpios cfg) (Z.to_nat (Z.of_nat i / col_num cfg))) as [r Er]; [lia|].
  destruct (lookup_lt_is_Some_2 (col_gpios cfg) (Z.to_nat (Z.of_nat i mod col_num cfg))) as [c Ec]; [lia|].
  destruct (create_run (address (Z.of_nat i)) long short (mk_driver false false) (an (Z.of_nat i)) st) as (st1 & H & _).
  destruct (IH (S i) (hs ++ [address (Z.of_nat i)]) st1) as (objs & st' & Hrun & Hlen & Hobj).
  { intros k Hk. apply Hr. lia. }
  exists (mk_obj r c :: objs), st'. split_and!; [|simpl; lia|].
  - simpl. unfold mbind at 1, M_bind, lift at 1, pin at 1. rewrite Er.
    unfold mbind at 1, M_bind, lift at 1, pin at 1. rewrite Ec.
    rewrite (done_bind _ _ _ _ _ H). replace (Z.of_nat i + 1) with (Z.of_nat (S i)) by lia.
    rewrite (done_bind _ _ _ _ _ Hrun). simpl. by rewrite <-app_assoc.
  - intros [|k] Hk; [exists (mk_obj r c); by rewrite Nat.add_0_r|].
    destruct (Hobj k) as (o & Ho); [lia|]. exists o. by rewrite <-Nat.add_succ_comm.
Qed.

End MatrixFacts.

Import Matrix.

(** A keypad has one button per crossing.  With memory for every button,
    the constructor succeeds, and the button at row [r] and column [c] of the
    configuration is the object number [r * columns + c], with its own handle. *)
Theorem matrix_layout cfg address an long short st :
  0 < row_num cfg -> 0 < col_num cfg -> row_num cfg * col_num cfg < 2 ^ 31 ->
  row_num cfg <= zlen (row_gpios cfg) -> col_num cfg <= zlen (col_gpios cfg) ->
  exists objs hs st', iot_button_new_matrix_device true true long short cfg
      (row_num cfg * col_num cfg) true (fun i => Some (address i)) an st = Done (ESP_OK, Some objs, hs) st' /\
    forall r c, 0 <= r < row_num cfg -> 0 <= c < col_num cfg ->
      exists o, objs !! Z.to_nat (r * col_num cfg + c) = Some o /\
        row_gpios cfg !! Z.to_nat r = Some (row_gpio_num o) /\
        col_gpios cfg !! Z.to_nat c = Some (col_gpio_num o) /\
        hs !! Z.to_nat (r * col_num cfg + c) = Some (address (r * col_num cfg + c)).
Proof.
  intros Hr Hc Hm Hrl Hcl. set (n := Z.to_nat (row_num cfg * col_num cfg)).
  destruct (create_loop_run cfg address Hc Hcl n 0 long short an [] st) as (objs & st' & Hrun & Hlen & Hobj).
  { intros k Hk. assert (Z.of_nat k / col_num cfg < row_num cfg); [|lia].
    apply Z.div_lt_upper_bound; lia. }
  exists objs, (address ∘ Z.of_nat <$> seq 0 n), st'. split.
  - unfold iot_button_new_matrix_device. simpl.
    rewrite !(proj2 (Z.ltb_lt _ _)) by lia. simpl. rewrite wrap_id by (unfold fits; lia).
    rewrite Z.eqb_refl. simpl.
    destruct (init_pins_run (Z.to_nat (row_num cfg)) 0 (row_gpios cfg)) as [ps ->]; [lia|lia|].
    destruct (init_pins_run (Z.to_nat (col_num cfg)) 0 (col_gpios cfg)) as [qs ->]; [lia|lia|].
    unfold mbind, M_bind, lift. fold n. change 0 with (Z.of_nat 0). by rewrite Hrun.
  - intros r c H1 H2. assert (r * col_num cfg + c < row_num cfg * col_num cfg) as Hlt by nia.
    assert (0 <= r * col_num cfg + c) as Hge by nia.
    destruct (Hobj (Z.to_nat (r * col_num cfg + c))) as (o & Ho & Er & Ec); [lia|].
    exists o. simpl in Er, Ec. rewrite Z2Nat.id in Er, Ec by lia.
    rewrite Z.div_add_l, Z.div_small, Z.add_0_r in Er by lia.
    rewrite Z.add_comm, Z.mod_add, Z.mod_small in Ec by lia. split_and!; try done.
    rewrite list_lookup_fmap, lookup_seq_lt by lia. simpl. by rewrite Z2Nat.id by lia.
Qed.

(** Freeing a keypad's button other than the first, and any after the first. *)
Lemma matrix_del_other block i : i <> 0%nat -> button_matrix_del block i = Fault.
Proof. intros Hi. destruct block as [l|]; [|done]. simpl. destruct (l !! i), i; done. Qed.

(** ** Pins *)

(** When the interrupt of a power-saving button cannot be set up, the error path
    frees the driver object and then calls it to delete the button. *)
Theorem gpio_interrupt_failure_uses_freed valid_old old_del long short cfg h a an installed st :
  Gpio.cfg_enable_power_save cfg = true -> Gpio.a_config a = ESP_OK -> Gpio.a_wakeup a = ESP_OK ->
  Gpio.a_sleep a = ESP_OK -> Gpio.a_intr_type a <> ESP_OK ->
  Gpio.iot_button_new_gpio_device true true true valid_old old_del long short cfg true (Some h) a an installed st
  = Undef.
Proof.
  intros Hp H1 H2 H3 H4. unfold Gpio.iot_button_new_gpio_device. simpl. rewrite H1, H2, H3, Hp. simpl.
  destruct (create_run h long short (mk_driver true true) an st) as (st' & Hr & Hf). rewrite (done_bind _ _ _ _ _ Hr). simpl.
  unfold Gpio.button_gpio_set_intr. rewrite (proj2 (Z.eqb_neq _ _) H4). simpl.
  rewrite (proj2 (Z.eqb_neq _ _) H4). simpl. unfold Gpio.err, iot_button_delete.
  unfold mbind, M_bind, gets, lift. rewrite Hf. simpl. reflexivity.
Qed.

(** ** Analog inputs *)

Section AdcFacts.
Import Adc.
Context `{Converter}.

(** The channel found for a number. *)
Lemma find_channel_run u chan g x i c :
  0 <= u -> g_button g !! Z.to_nat u = Some x ->
  list_find (fun c => (u8 chan =? channel c) = true) (ch x) = Some (i, c) ->
  find_channel u chan g = Done (Z.of_nat i) g.
Proof.
  intros Hu Hx Hf. unfold find_channel, first_channel, get_unit. rewrite bind_assoc_M, done_gets.
  unfold at_index. rewrite (proj2 (Z.ltb_ge _ _)), Hx by lia.
  unfold mbind, M_bind, mret, M_ret. by rewrite Hf.
Qed.

(** A fresh sample decides.  When the last sample of its channel is more
    than a millisecond old, an analog button reads as pressed exactly when the
    voltage now on the channel lies in the window of the button. *)
Theorem adc_fresh_window o g x i c d now now' :
  0 <= unit_id o -> 0 <= obj_ch o < ADC_BUTTON_CHANNEL_MAX -> 0 <= index o < ADC_BUTTON_MAX_BUTTON ->
  g_button g !! Z.to_nat (unit_id o) = Some x ->
  list_find (fun c => (u8 (obj_ch o) =? channel c) = true) (ch x) = Some (i, c) ->
  btns c !! Z.to_nat (index o) = Some d -> 1000 < u64 (now - last_time c) ->
  exists g', button_adc_get_key_level o now now' g
    = Done (if (min_mv d <=? u16 (get_adc_voltage (unit_id o) (obj_ch o))) &&
               (u16 (get_adc_voltage (unit_id o) (obj_ch o)) <=? max_mv d)
            then BUTTON_ACTIVE else BUTTON_INACTIVE) g'.
Proof.
  intros Hu [Hc0 Hc] [Hi0 Hi] Hx Hf Hd Hold. unfold button_adc_get_key_level.
  rewrite !(proj2 (Z.ltb_lt _ _)) by done. simpl.
  rewrite (done_bind _ _ _ _ _ (find_channel_run _ _ _ _ _ _ Hu Hx Hf)).
  rewrite (proj2 (Z.ltb_ge _ _)) by lia.
  pose proof (proj1 (list_find_Some _ _ _ _) Hf) as (Hci & _).
  pose proof (lookup_lt_Some _ _ _ Hx). pose proof (lookup_lt_Some _ _ _ Hci).
  unfold get_ch, put_ch, get_unit, put_unit, at_index. run_simpl.
  rewrite (proj2 (Z.ltb_ge (unit_id o) _)), Hx by lia. simpl.
  rewrite (proj2 (Z.ltb_ge (Z.of_nat i) _)), Nat2Z.id, Hci by lia. simpl.
  rewrite (proj2 (Z.ltb_lt _ _) Hold). simpl. rewrite Hx. simpl.
  rewrite list_lookup_insert_eq by done. simpl. rewrite list_lookup_insert_eq by done. simpl.
  rewrite (proj2 (Z.ltb_ge (index o) _)), Hd by lia. rewrite andb_comm.
  destruct (_ && _); by eexists.
Qed.
End AdcFacts.

Import Adc.

(** Channel 2 is at 0.1 V, all others at 3 V. *)
#[local] Instance board : Converter := {
  adc_oneshot_read _ chan _ := if chan =? 2 then 100 else 3000;
  adc_cali_raw_to_voltage _ raw := raw;
}.

Definition ladder (chan idx lo hi : Z) : button_adc_config_t := mk_cfg false 0 chan idx lo hi.

(** Two buttons on channel 1, one on channel 2, all created without error, then
    one tick: the levels of the three and what the converter shows. *)
Definition adc_tick : M adc (Z * Z * Z) :=
  a ← iot_button_new_adc_device true (ladder 1 0 900 1100) true ESP_OK ESP_OK ESP_OK;
  c ← iot_button_new_adc_device true (ladder 1 1 50 150) true ESP_OK ESP_OK ESP_OK;
  b ← iot_button_new_adc_device true (ladder 2 0 900 1100) true ESP_OK ESP_OK ESP_OK;
  match a.2, b.2, c.2 with
  | Some a, Some b, Some c =>
      la ← button_adc_get_key_level a 5000 5001;
      lb ← button_adc_get_key_level b 5002 5003;
      lc ← button_adc_get_key_level c 5004 5005;
      mret (la, lb, lc)
  | _, _, _ => mret (0, 0, 0)
  end.

(** An analog button can read another channel.  The last voltage is kept in
    one variable for all channels, the time of the last sample in each: of two
    buttons on channel 1 and one on channel 2, read in one tick in the order
    channel 1, channel 2, channel 1, the last is compared with the voltage of
    channel 2, and reads as pressed although its own channel is far outside
    its window. *)
Theorem adc_reads_other_channel :
  exists g, adc_tick adc_init = Done (BUTTON_INACTIVE, BUTTON_INACTIVE, BUTTON_ACTIVE) g /\
    get_adc_voltage 0 1 = 3000.
Proof. eexists. split; vm_compute; reflexivity. Qed.

(** A converter that cannot be initialised is reported as success, without a button. *)
Theorem adc_failure_reported_ok cfg new_unit r1 r2 :
  cfg_unit_id cfg = 0 -> adc_channel cfg < ADC_BUTTON_CHANNEL_MAX -> 0 <= button_index cfg < ADC_BUTTON_MAX_BUTTON ->
  0 < cfg_max cfg -> adc_handle cfg = false -> new_unit <> ESP_OK ->
  exists g', iot_button_new_adc_device true cfg true new_unit r1 r2 adc_init = Done (ESP_OK, None) g'.
Proof.
  intros H0 H1 [H2 H3] H4 H5 H6. unfold iot_button_new_adc_device. rewrite H0.
  rewrite !(proj2 (Z.ltb_lt _ _)) by done. simpl.
  assert (exists i, pick_channel cfg adc_init = Done (Some i) adc_init) as [i Hp].
  { unfold pick_channel. rewrite H0. unfold find_channel, find_unused_channel, first_channel, get_unit, at_index.
    run_simpl. destruct (Z.eqb_spec (u8 (adc_channel cfg)) 0) as [E|E]; simpl.
    - unfold get_ch, get_unit, at_index. run_simpl.
      rewrite (proj2 (Z.ltb_ge (button_index cfg) 0)) by lia.
      destruct (lookup_lt_is_Some_2 (replicate 8 zero_data) (Z.to_nat (button_index cfg))) as [d Hd].
      { rewrite length_replicate. unfold ADC_BUTTON_MAX_BUTTON in H3. lia. }
      pose proof (proj1 (lookup_replicate_1 _ _ _ _ Hd)) as ->.
      simpl in Hd. rewrite Hd. simpl. by eexists.
    - by eexists. }
  rewrite (done_bind _ _ _ _ _ Hp). unfold init_unit, get_unit, at_index. rewrite H0. run_simpl.
  rewrite H5, (proj2 (Z.eqb_neq _ _) H6). simpl. by eexists.
Qed.
