(* ===== verification/CcTreeTable.v ===== *)
(** * Tree table (src/components/Collections-C/src/cc_treetable.c)

    A red-black tree with parent pointers on the heap of CHeap.v.  Every missing
    child, and the parent of the root, is the sentinel, a cell of its own that
    the deletions write to.  The code has each routine twice, for the left and
    for the right; here it is written once, for a [side], the other text being
    its mirror image.  The header of a table is a value each operation returns
    changed; the comparator is a parameter. *)

From S2P Require Import Prelude CMem CState CHeap CcArray.

Definition RB_BLACK : Z := 1.
Definition RB_RED : Z := 0.

Record rbnode := mk_rb {
  rb_key : Z; rb_value : Z; rb_color : Z; rb_parent : Z; rb_left : Z; rb_right : Z
}.
#[export] Instance rbnode_zeroed : Zeroed rbnode := mk_rb 0 0 0 0 0 0.

Definition set_key (x : Z) (n : rbnode) : rbnode :=
  mk_rb x (rb_value n) (rb_color n) (rb_parent n) (rb_left n) (rb_right n).
Definition set_value (x : Z) (n : rbnode) : rbnode :=
  mk_rb (rb_key n) x (rb_color n) (rb_parent n) (rb_left n) (rb_right n).
Definition set_color (x : Z) (n : rbnode) : rbnode :=
  mk_rb (rb_key n) (rb_value n) x (rb_parent n) (rb_left n) (rb_right n).
Definition set_parent (x : Z) (n : rbnode) : rbnode :=
  mk_rb (rb_key n) (rb_value n) (rb_color n) x (rb_left n) (rb_right n).

(** [left] and [right]. *)
Inductive side := L | R.
Definition other (d : side) : side := match d with L => R | R => L end.
Definition child (d : side) (n : rbnode) : Z := match d with L => rb_left n | R => rb_right n end.
Definition set_child (d : side) (x : Z) (n : rbnode) : rbnode :=
  match d with
  | L => mk_rb (rb_key n) (rb_value n) (rb_color n) (rb_parent n) x (rb_right n)
  | R => mk_rb (rb_key n) (rb_value n) (rb_color n) (rb_parent n) (rb_left n) x
  end.

Record treetable := mk_tt { tt_root : Z; tt_sentinel : Z; tt_size : Z }.
Definition set_root (x : Z) (t : treetable) : treetable := mk_tt x (tt_sentinel t) (tt_size t).
Definition set_tt_size (x : Z) (t : treetable) : treetable := mk_tt (tt_root t) (tt_sentinel t) x.

(** The comparator of a table. *)
Class KeyCmp := key_cmp : Z -> Z -> Z.

Section TreeTable.
Context `{HA : !NodeAlloc rbnode} `{HU : !Uninit rbnode} `{HC : !KeyCmp}.
Local Abbreviation TM := (M (heap rbnode)).
Implicit Types table : treetable.

(** ** Construction *)

Definition cc_treetable_new_conf : TM (cc_stat * option treetable) :=
  ok ← header_alloc;
  if negb ok then mret (CC_ERR_ALLOC, None)
  else
    sentinel ← node_calloc;
    if sentinel =? NULL then mret (CC_ERR_ALLOC, None)
    else
      update sentinel (set_color RB_BLACK) ;;
      mret (CC_OK, Some (mk_tt sentinel sentinel 0)).

Definition cc_treetable_new : TM (cc_stat * option treetable) := cc_treetable_new_conf.

(** ** Moving in the tree *)

(** [tree_min] follows left children, [tree_max] right ones. *)
Fixpoint descend (fuel : nat) (d : side) (s n : Z) : TM Z :=
  match fuel with
  | O => hang
  | S fuel =>
      c ← field (child d) n;
      if c =? s then mret n else descend fuel d s c
  end.

Definition tree_extreme (d : side) table (n : Z) : TM Z :=
  if n =? tt_sentinel table then mret (tt_sentinel table)
  else fuel ← heap_fuel; descend fuel d (tt_sentinel table) n.
Definition tree_min := tree_extreme L.
Definition tree_max := tree_extreme R.

(** The [do]-[while] loop: the node is compared before it is tested. *)
Fixpoint key_loop (fuel : nat) (key s n : Z) : TM Z :=
  match fuel with
  | O => hang
  | S fuel =>
      k ← field rb_key n;
      if key_cmp key k <? 0
      then n ← field rb_left n; if n =? s then mret NULL else key_loop fuel key s n
      else if 0 <? key_cmp key k
      then n ← field rb_right n; if n =? s then mret NULL else key_loop fuel key s n
      else mret n
  end.

Definition get_tree_node_by_key table (key : Z) : TM Z :=
  if tt_size table =? 0 then mret NULL
  else fuel ← heap_fuel; key_loop fuel key (tt_sentinel table) (tt_root table).

(** Up, as long as [x] is the child of [y] on the side [d]. *)
Fixpoint ascend (fuel : nat) (d : side) (s x y : Z) : TM Z :=
  match fuel with
  | O => hang
  | S fuel =>
      if y =? s then mret y
      else
        c ← field (child d) y;
        if x =? c then p ← field rb_parent y; ascend fuel d s y p else mret y
  end.

(** The successor goes through right children ([d] is [R]), the predecessor
    through left ones. *)
Definition get_neighbour (d : side) table (x : Z) : TM Z :=
  if x =? NULL then mret NULL
  else
    c ← field (child d) x;
    if negb (c =? tt_sentinel table) then tree_extreme (other d) table c
    else y ← field rb_parent x; fuel ← heap_fuel; ascend fuel d (tt_sentinel table) x y.
Definition get_successor_node := get_neighbour R.
Definition get_predecessor_node := get_neighbour L.

(** ** Rotation *)

(** [rotate_left] for [L]: the right child [y] of [x] takes its place. *)
Definition rotate (d : side) table (x : Z) : TM treetable :=
  y ← field (child (other d)) x;
  b ← field (child d) y;
  update x (set_child (other d) b) ;;
  b ← field (child d) y;
  (if b =? tt_sentinel table then mret tt else update b (set_parent x)) ;;
  p ← field rb_parent x;
  update y (set_parent p) ;;
  p ← field rb_parent x;
  table ← (if p =? tt_sentinel table then mret (set_root y table)
           else
             c ← field (child d) p;
             (if x =? c then update p (set_child d y) else update p (set_child (other d) y)) ;;
             mret table);
  update y (set_child d x) ;;
  update x (set_parent y) ;;
  mret table.
Definition rotate_left := rotate L.
Definition rotate_right := rotate R.

(** ** Insertion *)

(** A turn of the loop with the parent of [z] on side [d] of its grandparent,
    whose other child is [y]. *)
Definition insert_turn (d : side) table (z : Z) : TM (treetable * Z) :=
  p ← field rb_parent z; g ← field rb_parent p; y ← field (child (other d)) g;
  yc ← field rb_color y;
  if yc =? RB_RED then
    p ← field rb_parent z; update p (set_color RB_BLACK) ;;
    update y (set_color RB_BLACK) ;;
    p ← field rb_parent z; g ← field rb_parent p; update g (set_color RB_RED) ;;
    p ← field rb_parent z; g ← field rb_parent p;
    mret (table, g)
  else
    p ← field rb_parent z; c ← field (child (other d)) p;
    r ← (if z =? c
         then z ← field rb_parent z; table ← rotate d table z; mret (table, z)
         else mret (table, z));
    let '(table, z) := r in
    p ← field rb_parent z; update p (set_color RB_BLACK) ;;
    p ← field rb_parent z; g ← field rb_parent p; update g (set_color RB_RED) ;;
    p ← field rb_parent z; g ← field rb_parent p;
    table ← rotate (other d) table g;
    mret (table, z).

Fixpoint insert_fix_loop (fuel : nat) table (z : Z) : TM treetable :=
  match fuel with
  | O => hang
  | S fuel =>
      p ← field rb_parent z; pc ← field rb_color p;
      if negb (pc =? RB_RED) then mret table
      else
        p ← field rb_parent z; g ← field rb_parent p; gl ← field rb_left g;
        r ← insert_turn (if p =? gl then L else R) table z;
        insert_fix_loop fuel r.1 r.2
  end.

Definition rebalance_after_insert table (z : Z) : TM treetable :=
  fuel ← heap_fuel;
  table ← insert_fix_loop fuel table z;
  update (tt_root table) (set_color RB_BLACK) ;;
  mret table.

(** The node with the key, or the sentinel, and the node before it. *)
Fixpoint add_loop (fuel : nat) (key s x y : Z) : TM (Z * Z) :=
  match fuel with
  | O => hang
  | S fuel =>
      if x =? s then mret (x, y)
      else
        k ← field rb_key x;
        if key_cmp key k <? 0 then n ← field rb_left x; add_loop fuel key s n x
        else if 0 <? key_cmp key k then n ← field rb_right x; add_loop fuel key s n x
        else mret (x, x)
  end.

Definition cc_treetable_add table (key val : Z) : TM (cc_stat * treetable) :=
  fuel ← heap_fuel;
  r ← add_loop fuel key (tt_sentinel table) (tt_root table) (tt_sentinel table);
  let '(x, y) := r in
  if negb (x =? tt_sentinel table) then update x (set_value val) ;; mret (CC_OK, table)
  else
    n ← node_malloc;
    if n =? NULL then mret (CC_ERR_ALLOC, table)
    else
      update n (set_value val) ;;
      update n (set_key key) ;;
      update n (set_parent y) ;;
      update n (set_child L (tt_sentinel table)) ;;
      update n (set_child R (tt_sentinel table)) ;;
      let table := set_tt_size (u32 (tt_size table + 1)) table in
      if y =? tt_sentinel table then
        update n (set_color RB_BLACK) ;; mret (CC_OK, set_root n table)
      else
        update n (set_color RB_RED) ;;
        k ← field rb_key y;
        (if key_cmp key k <? 0 then update y (set_child L n) else update y (set_child R n)) ;;
        table ← rebalance_after_insert table n;
        mret (CC_OK, table).

(** ** Removal *)

(** A turn of the loop with [x] on side [d] of its parent; [w] is the other
    child, and not red. *)
Definition delete_black (d : side) table (x w : Z) : TM (treetable * Z) :=
  near ← field (child d) w; nc ← field rb_color near;
  both ← (if nc =? RB_BLACK
          then far ← field (child (other d)) w; fc ← field rb_color far; mret (fc =? RB_BLACK)
          else mret false);
  if both : bool then
    update w (set_color RB_RED) ;;
    x ← field rb_parent x; mret (table, x)
  else
    far ← field (child (other d)) w; fc ← field rb_color far;
    r ← (if fc =? RB_BLACK then
           near ← field (child d) w; update near (set_color RB_BLACK) ;;
           update w (set_color RB_RED) ;;
           table ← rotate (other d) table w;
           p ← field rb_parent x; w ← field (child (other d)) p;
           mret (table, w)
         else mret (table, w));
    let '(table, w) := r in
    p ← field rb_parent x; pc ← field rb_color p; update w (set_color pc) ;;
    p ← field rb_parent x; update p (set_color RB_BLACK) ;;
    far ← field (child (other d)) w; update far (set_color RB_BLACK) ;;
    p ← field rb_parent x; table ← rotate d table p;
    mret (table, tt_root table).

Definition delete_turn (d : side) table (x : Z) : TM (treetable * Z) :=
  p ← field rb_parent x; w ← field (child (other d)) p;
  wc ← field rb_color w;
  r ← (if wc =? RB_RED then
         update w (set_color RB_BLACK) ;;
         p ← field rb_parent x; update p (set_color RB_RED) ;;
         p ← field rb_parent x; table ← rotate d table p;
         p ← field rb_parent x; w ← field (child (other d)) p;
         mret (table, w)
       else mret (table, w));
  delete_black d r.1 x r.2.

Fixpoint delete_loop (fuel : nat) table (x : Z) : TM (treetable * Z) :=
  match fuel with
  | O => hang
  | S fuel =>
      if x =? tt_root table then mret (table, x)
      else
        xc ← field rb_color x;
        if negb (xc =? RB_BLACK) then mret (table, x)
        else
          p ← field rb_parent x; pl ← field rb_left p;
          r ← delete_turn (if x =? pl then L else R) table x;
          delete_loop fuel r.1 r.2
  end.

Definition rebalance_after_delete table (x : Z) : TM treetable :=
  fuel ← heap_fuel;
  r ← delete_loop fuel table x;
  update r.2 (set_color RB_BLACK) ;;
  mret r.1.

Definition transplant table (u v : Z) : TM treetable :=
  p ← field rb_parent u;
  table ← (if p =? tt_sentinel table then mret (set_root v table)
           else
             c ← field rb_left p;
             (if u =? c then update p (set_child L v) else update p (set_child R v)) ;;
             mret table);
  p ← field rb_parent u;
  update v (set_parent p) ;;
  mret table.

Definition remove_node table (z : Z) : TM treetable :=
  y_color ← field rb_color z;
  zl ← field rb_left z; zr ← field rb_right z;
  r ← (if zl =? tt_sentinel table then
         table ← transplant table z zr; mret (table, zr, y_color)
       else if zr =? tt_sentinel table then
         table ← transplant table z zl; mret (table, zl, y_color)
       else
         y ← tree_min table zr;
         y_color ← field rb_color y;
         x ← field rb_right y;
         yp ← field rb_parent y;
         table ← (if yp =? z then update x (set_parent y) ;; mret table
                  else
                    yr ← field rb_right y;
                    table ← transplant table y yr;
                    zr ← field rb_right z;
                    update y (set_child R zr) ;;
                    yr ← field rb_right y; update yr (set_parent y) ;;
                    mret table);
         table ← transplant table z y;
         zl ← field rb_left z; update y (set_child L zl) ;;
         yl ← field rb_left y; update yl (set_parent y) ;;
         zc ← field rb_color z; update y (set_color zc) ;;
         mret (table, x, y_color));
  let '(table, x, y_color) := r in
  table ← (if y_color =? RB_BLACK then rebalance_after_delete table x else mret table);
  mem_free z ;;
  mret (set_tt_size (u32 (tt_size table - 1)) table).

(** The status, the value removed and the table. *)
Definition tt_result : Type := cc_stat * option Z * treetable.

Definition cc_treetable_remove table (key : Z) : TM tt_result :=
  node ← get_tree_node_by_key table key;
  if node =? NULL then mret (CC_ERR_KEY_NOT_FOUND, None, table)
  else
    v ← field rb_value node; table ← remove_node table node;
    mret (CC_OK, Some v, table).

Definition cc_treetable_remove_first table : TM tt_result :=
  if tt_size table =? 0 then mret (CC_ERR_KEY_NOT_FOUND, None, table)
  else
    node ← tree_min table (tt_root table);
    v ← field rb_value node; table ← remove_node table node;
    mret (CC_OK, Some v, table).

Definition cc_treetable_remove_last table : TM tt_result :=
  node ← tree_max table (tt_root table);
  if node =? NULL then mret (CC_ERR_KEY_NOT_FOUND, None, table)
  else
    v ← field rb_value node; table ← remove_node table node;
    mret (CC_OK, Some v, table).

(** [fuel] bounds the height. *)
Fixpoint tree_destroy (fuel : nat) (s n : Z) : TM unit :=
  match fuel with
  | O => hang
  | S fuel =>
      if n =? s then mret tt
      else
        l ← field rb_left n; tree_destroy fuel s l ;;
        r ← field rb_right n; tree_destroy fuel s r ;;
        mem_free n
  end.

Definition cc_treetable_remove_all table : TM treetable :=
  fuel ← heap_fuel;
  tree_destroy fuel (tt_sentinel table) (tt_root table) ;;
  mret (set_root (tt_sentinel table) (set_tt_size 0 table)).

(** The header is freed with the nodes. *)
Definition cc_treetable_destroy table : TM unit :=
  fuel ← heap_fuel;
  tree_destroy fuel (tt_sentinel table) (tt_root table) ;;
  mem_free (tt_sentinel table).

(** ** Reading *)

Definition cc_treetable_get table (key : Z) : TM (cc_stat * option Z) :=
  node ← get_tree_node_by_key table key;
  if node =? NULL then mret (CC_ERR_KEY_NOT_FOUND, None)
  else v ← field rb_value node; mret (CC_OK, Some v).

(** The field [f] of the first or the last node. *)
Definition get_end (d : side) (f : rbnode -> Z) (err : cc_stat) table : TM (cc_stat * option Z) :=
  node ← tree_extreme d table (tt_root table);
  if negb (node =? tt_sentinel table)
  then x ← field f node; mret (CC_OK, Some x)
  else mret (err, None).
Definition cc_treetable_get_first_value := get_end L rb_value CC_ERR_VALUE_NOT_FOUND.
Definition cc_treetable_get_last_value := get_end R rb_value CC_ERR_VALUE_NOT_FOUND.
Definition cc_treetable_get_first_key := get_end L rb_key CC_ERR_KEY_NOT_FOUND.
Definition cc_treetable_get_last_key := get_end R rb_key CC_ERR_KEY_NOT_FOUND.

Definition get_beside (d : side) table (key : Z) : TM (cc_stat * option Z) :=
  n ← get_tree_node_by_key table key;
  s ← get_neighbour d table n;
  if negb (n =? NULL) && negb (s =? NULL)
  then k ← field rb_key s; mret (CC_OK, Some k)
  else mret (CC_ERR_KEY_NOT_FOUND, None).
Definition cc_treetable_get_greater_than := get_beside R.
Definition cc_treetable_get_lesser_than := get_beside L.

Definition cc_treetable_size table : Z := tt_size table.

Definition cc_treetable_contains_key table (key : Z) : TM bool :=
  node ← get_tree_node_by_key table key; mret (negb (node =? NULL)).

(** From [node] on through the successors, [f] of each node folded into [x]. *)
Fixpoint fold_succ {A} (fuel : nat) (f : A -> rbnode -> A) table (node : Z) (x : A) : TM A :=
  match fuel with
  | O => hang
  | S fuel =>
      if node =? tt_sentinel table then mret x
      else c ← load node; n ← get_successor_node table node; fold_succ fuel f table n (f x c)
  end.

Definition fold_table {A} (f : A -> rbnode -> A) (x : A) table : TM A :=
  node ← tree_min table (tt_root table);
  fuel ← heap_fuel;
  fold_succ fuel f table node x.

Definition cc_treetable_contains_value table (value : Z) : TM Z :=
  fold_table (fun o c => if rb_value c =? value then u32 (o + 1) else o) 0 table.

(** The arguments of the callback, in order. *)
Definition cc_treetable_foreach_key table : TM (list Z) :=
  fold_table (fun l c => l ++ [rb_key c]) [] table.
Definition cc_treetable_foreach_value table : TM (list Z) :=
  fold_table (fun l c => l ++ [rb_value c]) [] table.

(** ** Iterator *)

Record tree_iter := mk_ti { ti_table : treetable; ti_current : Z; ti_next : Z }.
Implicit Types it : tree_iter.

Definition cc_treetable_iter_init table : TM tree_iter :=
  n ← tree_min table (tt_root table); mret (mk_ti table (tt_sentinel table) n).

(** The entry is a key and a value. *)
Definition cc_treetable_iter_next it : TM (cc_stat * option (Z * Z) * tree_iter) :=
  if ti_next it =? tt_sentinel (ti_table it) then mret (CC_ITER_END, None, it)
  else
    v ← field rb_value (ti_next it); k ← field rb_key (ti_next it);
    n ← get_successor_node (ti_table it) (ti_next it);
    mret (CC_OK, Some (k, v), mk_ti (ti_table it) (ti_next it) n).

Definition cc_treetable_iter_remove it : TM (cc_stat * option Z * tree_iter) :=
  if ti_current it =? NULL then mret (CC_ERR_KEY_NOT_FOUND, None, it)
  else
    v ← field rb_value (ti_current it);
    table ← remove_node (ti_table it) (ti_current it);
    mret (CC_OK, Some v, mk_ti table NULL (ti_next it)).
End TreeTable.
