(* ===== verification/RbTree.v ===== *)
(** * Red-black trees with a focus

    The mathematical trees behind cc_treetable.c: a tree whose nodes carry
    their addresses, a path from a node up to the root ([frame]s, the innermost
    first), the two repairing loops as functions on paths, and the red-black
    invariant, which they restore.  A side [d] stands for left or right, so
    that mirrored cases are proved once. *)

From Stdlib Require Import Sorted.
From S2P Require Import Prelude CMem CState CHeap CcArray CcTreeTable.

Inductive color := Red | Black.
Inductive tree := E | T (a : Z) (c : color) (k v : Z) (l r : tree).

(** A node with its child on side [d] first. *)
Definition node (d : side) (a : Z) (c : color) (k v : Z) (t1 t2 : tree) : tree :=
  match d with L => T a c k v t1 t2 | R => T a c k v t2 t1 end.

Lemma node_other d a c k v t1 t2 : node (other d) a c k v t1 t2 = node d a c k v t2 t1.
Proof. by destruct d. Qed.

Definition is_red (t : tree) : bool := match t with T _ Red _ _ _ _ => true | _ => false end.
Definition is_leaf (t : tree) : bool := match t with E => true | _ => false end.
Definition paint (c : color) (t : tree) : tree :=
  match t with E => E | T a _ k v l r => T a c k v l r end.

(** Address, key and value of a node. *)
Abbreviation entry := (Z * (Z * Z))%type.
Fixpoint inorder (t : tree) : list entry :=
  match t with E => [] | T a _ k v l r => inorder l ++ (a, (k, v)) :: inorder r end.

(** A node above the focus, which is its child on side [f_side]; the other
    child is [f_sib]. *)
Record frame := Fr {
  f_side : side; f_addr : Z; f_color : color; f_key : Z; f_val : Z; f_sib : tree
}.
Definition f_entry (f : frame) : entry := (f_addr f, (f_key f, f_val f)).
Definition plug (f : frame) (t : tree) : tree :=
  node (f_side f) (f_addr f) (f_color f) (f_key f) (f_val f) t (f_sib f).
Fixpoint zip (cs : list frame) (t : tree) : tree :=
  match cs with [] => t | f :: cs => zip cs (plug f t) end.

(** The entries to the left and to the right of the focus. *)
Fixpoint before (cs : list frame) : list entry :=
  match cs with
  | [] => []
  | f :: cs => before cs ++ match f_side f with L => [] | R => inorder (f_sib f) ++ [f_entry f] end
  end.
Fixpoint after_focus (cs : list frame) : list entry :=
  match cs with
  | [] => []
  | f :: cs => match f_side f with L => f_entry f :: inorder (f_sib f) | R => [] end ++ after_focus cs
  end.

Lemma inorder_zip cs t : inorder (zip cs t) = before cs ++ inorder t ++ after_focus cs.
Proof.
  revert t. induction cs as [|[d a c k v s] cs IH]; intros t; simpl; [by rewrite app_nil_r|].
  rewrite IH. destruct d; simpl; by rewrite ?app_nil_r, <- !app_assoc.
Qed.

(** There is an entry for each node of a path. *)
Lemma path_entries cs : (length cs <= length (before cs) + length (after_focus cs))%nat.
Proof.
  induction cs as [|[[] a c k v s] cs IH]; simpl; [lia| |]; rewrite ?length_app; simpl;
    rewrite ?length_app; simpl; lia.
Qed.

Lemma zip_app cs1 cs2 t : zip (cs1 ++ cs2) t = zip cs2 (zip cs1 t).
Proof. revert t. induction cs1 as [|f cs1 IH]; intros t; [done|apply IH]. Qed.

Lemma before_app p cs : before (p ++ cs) = before cs ++ before p.
Proof. induction p as [|f p IH]; simpl; [by rewrite app_nil_r|]. by rewrite IH, app_assoc. Qed.
Lemma after_app p cs : after_focus (p ++ cs) = after_focus p ++ after_focus cs.
Proof. induction p as [|f p IH]; simpl; [done|]. by rewrite IH, app_assoc. Qed.

Lemma inorder_paint c t : inorder (paint c t) = inorder t.
Proof. by destruct t. Qed.

(** ** The repairing loops *)

(** After an insertion: [t], whose root is red, at the focus.  [None] where the
    code would read the parent of the root. *)
Fixpoint ins_fix (cs : list frame) (t : tree) : option tree :=
  match cs with
  | Fr d p Red kp vp u :: cs =>
      match cs with
      | [] => None
      | Fr e g cg kg vg y :: cs =>
          if is_red y
          then ins_fix cs (node e g Red kg vg (node d p Black kp vp t u) (paint Black y))
          else
            match d, e, t with
            | L, L, _ | R, R, _ => Some (zip cs (node e p Black kp vp t (node e g Red kg vg u y)))
            | R, L, T z _ kz vz t1 t2 =>
                Some (zip cs (T z Black kz vz (T p Red kp vp u t1) (T g Red kg vg t2 y)))
            | L, R, T z _ kz vz t2 t1 =>
                Some (zip cs (T z Black kz vz (T g Red kg vg y t2) (T p Red kp vp t1 u)))
            | _, _, E => None
            end
      end
  | _ => Some (zip cs t)
  end.

(** A node's fields, its child on side [d] first. *)
Definition open (d : side) (t : tree) : option (Z * color * Z * Z * tree * tree) :=
  match t with
  | E => None
  | T a c k v l r => Some (a, c, k, v, match d with L => l | R => r end, match d with L => r | R => l end)
  end.

Lemma open_node d a c k v t1 t2 : open d (node d a c k v t1 t2) = Some (a, c, k, v, t1, t2).
Proof. by destruct d. Qed.
Lemma open_spec d t a c k v t1 t2 : open d t = Some (a, c, k, v, t1, t2) -> t = node d a c k v t1 t2.
Proof. destruct t; [done|]. by destruct d; intros [= <- <- <- <- <- <-]. Qed.

(** After a removal: the tree is one black node short at [t]; the focus moves
    up, or the tree is repaired. *)
Inductive repair := Up (t : tree) | Stop (t : tree).

(** [w] is the sibling of [t] and not red; the result takes the place of their
    parent [p]. *)
Definition sibling_fix (d : side) (p : Z) (cp : color) (kp vp : Z) (t w : tree) : option repair :=
  match open d w with
  | None => None
  | Some (aw, _, kw, vw, near, far) =>
      if negb (is_red near) && negb (is_red far)
      then Some (Up (node d p cp kp vp t (node d aw Red kw vw near far)))
      else if is_red far
      then Some (Stop (node d aw cp kw vw (node d p Black kp vp t near) (paint Black far)))
      else
        match open d near with
        | None => None
        | Some (b, _, kb, vb, bn, bf) =>
            Some (Stop (node d b cp kb vb (node d p Black kp vp t bn) (node d aw Black kw vw bf far)))
        end
  end.

Fixpoint del_fix (cs : list frame) (t : tree) : option tree :=
  if is_red t then Some (zip cs (paint Black t))
  else
    match cs with
    | [] => Some (paint Black t)
    | Fr d p cp kp vp w :: cs =>
        match open d w with
        | None => None
        | Some (aw, Red, kw, vw, near, far) =>
            match sibling_fix d p Red kp vp t near with
            | Some (Up u) => Some (zip (Fr d aw Black kw vw far :: cs) (paint Black u))
            | Some (Stop u) => Some (paint Black (zip (Fr d aw Black kw vw far :: cs) u))
            | None => None
            end
        | _ =>
            match sibling_fix d p cp kp vp t w with
            | Some (Up u) => del_fix cs u
            | Some (Stop u) => Some (paint Black (zip cs u))
            | None => None
            end
        end
    end.

(** [x] takes the place of a node of colour [c]. *)
Definition shorten (c : color) (cs : list frame) (x : tree) : option tree :=
  match c with Black => del_fix cs x | Red => Some (zip cs x) end.

(** The last node on side [d]: the path to it, its fields and its other child. *)
Fixpoint end_path (d : side) (t : tree) : option (list frame * (Z * color * Z * Z * tree)) :=
  match t with
  | E => None
  | T a c k v l r =>
      let '(near, far) := match d with L => (l, r) | R => (r, l) end in
      match match d with L => end_path d l | R => end_path d r end with
      | None => Some ([], (a, c, k, v, far))
      | Some (p, y) => Some (p ++ [Fr d a c k v far], y)
      end
  end.

(** The node at the focus, with children [l] and [r], is removed. *)
Definition del_node (cs : list frame) (c : color) (l r : tree) : option tree :=
  match l, end_path L r with
  | E, _ => shorten c cs r
  | _, None => shorten c cs l
  | _, Some (p, (y, cy, ky, vy, yr)) => shorten cy (p ++ Fr R y c ky vy l :: cs) yr
  end.

(** The entry after the focus for [R], before it for [L]. *)
Definition next_entry (d : side) (xs ys : list entry) : option entry :=
  match d with R => head ys | L => list.last xs end.

Lemma next_entry_up d f cs :
  f_side f = d ->
  next_entry d (before (f :: cs)) (after_focus (f :: cs)) = next_entry d (before cs) (after_focus cs).
Proof. intros <-. simpl. destruct (f_side f); simpl; by rewrite ?app_nil_r. Qed.

Lemma next_entry_frame d f cs :
  f_side f = other d -> next_entry d (before (f :: cs)) (after_focus (f :: cs)) = Some (f_entry f).
Proof. intros Hf. simpl. rewrite Hf. destruct d; simpl; [by rewrite app_assoc, last_snoc|done]. Qed.

(** ** The invariant *)

(** [rb t n]: no red node has a red child, and every path to a leaf has [n]
    black nodes. *)
Fixpoint rb (t : tree) (n : nat) : Prop :=
  match t with
  | E => n = 0%nat
  | T _ Black _ _ l r => exists m, n = S m /\ rb l m /\ rb r m
  | T _ Red _ _ l r => is_red l = false /\ is_red r = false /\ rb l n /\ rb r n
  end.

(** The root is black. *)
Definition rb_root (t : tree) : Prop := is_red t = false /\ exists n, rb t n.

Definition red_parent (cs : list frame) : bool :=
  match cs with f :: _ => match f_color f with Red => true | Black => false end | [] => false end.

(** A path whose focus takes a tree with [n] black nodes. *)
Fixpoint rb_path (cs : list frame) (n : nat) : Prop :=
  match cs with
  | [] => True
  | f :: cs =>
      rb (f_sib f) n /\
      match f_color f with
      | Black => rb_path cs (S n)
      | Red => is_red (f_sib f) = false /\ cs <> [] /\ red_parent cs = false /\ rb_path cs n
      end
  end.

Lemma rb_paint t n : rb t n -> rb_root (paint Black t).
Proof.
  destruct t as [|a [] k v l r]; simpl; intros H; (split; [done|]).
  - by exists 0%nat.
  - destruct H as (_ & _ & Hl & Hr). exists (S n). simpl. by exists n.
  - by exists n.
Qed.

Lemma rb_node d a c k v t1 t2 n :
  rb (node d a c k v t1 t2) n <->
  match c with
  | Black => exists m, n = S m /\ rb t1 m /\ rb t2 m
  | Red => is_red t1 = false /\ is_red t2 = false /\ rb t1 n /\ rb t2 n
  end.
Proof. destruct d, c; simpl; naive_solver. Qed.

Lemma is_red_node d a c k v t1 t2 :
  is_red (node d a c k v t1 t2) = match c with Red => true | Black => false end.
Proof. by destruct d, c. Qed.

(** A tree at the focus of a path, and back. *)
Lemma rb_zip cs t n :
  rb_path cs n -> rb t n -> red_parent cs && is_red t = false -> (cs = [] -> is_red t = false) ->
  rb_root (zip cs t).
Proof.
  revert t n. induction cs as [|[d a c k v s] cs IH]; intros t n Hc Ht Hr Hn; simpl in *.
  - split; [by apply Hn|by exists n].
  - destruct Hc as [Hs Hc]. destruct c; simpl in *.
    + destruct Hc as (Hsr & Hne & Hp & Hc). apply (IH _ n); [done| |by rewrite Hp|done].
      unfold plug. by apply rb_node.
    + apply (IH _ (S n)); [done| | |]; unfold plug; simpl.
      * apply rb_node. by exists n.
      * rewrite is_red_node. apply andb_false_r.
      * intros _. apply is_red_node.
Qed.

Lemma rb_unzip cs t :
  rb_root (zip cs t) ->
  exists n, rb_path cs n /\ rb t n /\ red_parent cs && is_red t = false /\ (cs = [] -> is_red t = false).
Proof.
  revert t. induction cs as [|[d a c k v s] cs IH]; intros t Hz; simpl in *.
  - destruct Hz as [Hr [n Hn]]. by exists n.
  - destruct (IH _ Hz) as (n & Hc & Hp & Hr & Hn). unfold plug in Hp, Hr, Hn. simpl in *.
    rewrite is_red_node in Hr, Hn. apply rb_node in Hp. destruct c; simpl in *.
    + destruct Hp as (H1 & H2 & H3 & H4). rewrite andb_true_r in Hr. exists n.
      split_and!; [done|done| |done|done|done|done|done]. intros ->. by specialize (Hn eq_refl).
    + destruct Hp as (m & -> & H1 & H2). exists m. by split_and!.
Qed.

(** Replacing a subtree by one with the same entries. *)
Lemma inorder_zip_eq cs t1 t2 : inorder t1 = inorder t2 -> inorder (zip cs t1) = inorder (zip cs t2).
Proof. intros H. by rewrite !inorder_zip, H. Qed.

Lemma inorder_node_eq d a c c' k v t1 t2 s :
  inorder t1 = inorder t2 -> inorder (node d a c k v t1 s) = inorder (node d a c' k v t2 s).
Proof. intros H. destruct d; simpl; by rewrite H. Qed.

Ltac entries :=
  simpl; unfold plug, node; simpl; rewrite ?inorder_paint; simpl; repeat (rewrite <- ?app_assoc; simpl);
  reflexivity.

Lemma rb_zip_painted cs t n :
  rb_path cs n -> rb t n -> red_parent cs && is_red t = false -> rb_root (paint Black (zip cs t)).
Proof.
  destruct cs as [|f cs]; intros Hc Ht Hr; [by eapply rb_paint|].
  destruct (rb_zip (f :: cs) t n Hc Ht Hr) as [_ [m Hm]]; [done|]. by eapply rb_paint.
Qed.

Lemma rb_painted t n : rb t n -> is_red t = true -> rb (paint Black t) (S n).
Proof. destruct t as [|a [] k v l r]; [done| |done]. intros (_ & _ & ? & ?) _. by exists n. Qed.

(** ** Insertion repairs the tree *)

Lemma ins_fix_ok cs : forall t n,
  rb_path cs n -> rb t n -> is_red t = true ->
  exists t', ins_fix cs t = Some t' /\ rb_root (paint Black t') /\ inorder t' = inorder (zip cs t).
Proof.
  induction cs as [[|[d p [|] kp vp u] [|[e g cg kg vg y] cs]] IH] using
    (well_founded_induction (well_founded_ltof _ length)); intros t n Hc Ht Hr; simpl in Hc.
  - exists t. split; [done|]. split; [by eapply rb_paint|done].
  - naive_solver.
  - destruct Hc as (Hu & Hur & _ & Hcg & Hy & Hc). destruct cg; [done|]. cbn [ins_fix zip].
    destruct (is_red y) eqn:Ery.
    + destruct (IH cs) with (t := node e g Red kg vg (node d p Black kp vp t u) (paint Black y)) (n := S n)
        as (t' & -> & Hok & Hin); [unfold ltof; simpl; lia|done| |apply is_red_node|].
      * apply rb_node. split_and!; [apply is_red_node|by destruct y| |by apply rb_painted].
        apply rb_node. by exists n.
      * exists t'. split_and!; [done|done|]. rewrite Hin. apply inorder_zip_eq. destruct d, e; entries.
    + destruct t as [|z [] kz vz zl zr]; [done| |done]. destruct Ht as (Hl & Hlr & Hzl & Hzr).
      assert (forall t t', rb t' (S n) -> is_red t' = false -> inorder t' = inorder t ->
              rb_root (paint Black (zip cs t')) /\ inorder (zip cs t') = inorder (zip cs t)) as Hz.
      { intros t t' H1 H2 H3. split; [|by apply inorder_zip_eq].
        eapply rb_zip_painted; [done|done|by rewrite H2, andb_false_r]. }
      destruct d, e; (eexists; split; [reflexivity|]); apply Hz; try done; try entries; simpl; naive_solver.
  - eexists; split; [reflexivity|]. split; [|done].
    by apply (rb_zip_painted (Fr d p Black kp vp u :: []) t n).
  - eexists; split; [reflexivity|]. split; [|done].
    by apply (rb_zip_painted (Fr d p Black kp vp u :: Fr e g cg kg vg y :: cs) t n).
Qed.

(** ** Removal repairs the tree *)

Definition color_red (c : color) : bool := match c with Red => true | Black => false end.

(** The parent of [t] and its sibling, and what replaces them. *)
Lemma sibling_fix_ok d p cp kp vp t w n :
  rb t n -> rb w (S n) -> is_red w = false -> is_red t = false ->
  exists r, sibling_fix d p cp kp vp t w = Some r /\
    match r with
    | Up u => rb (paint Black u) (S n) /\ is_red u = color_red cp /\ (cp = Black -> rb u (S n)) /\
              inorder u = inorder (node d p cp kp vp t w)
    | Stop u => rb u (match cp with Red => S n | Black => S (S n) end) /\ is_red u = color_red cp /\
                inorder u = inorder (node d p cp kp vp t w)
    end.
Proof.
  intros Ht Hw Hwr Htr. destruct w as [|aw [|] kw vw l r]; [done|done|].
  destruct Hw as (m & [= <-] & Hl & Hr). unfold sibling_fix. simpl.
  set (near := match d with L => l | R => r end). set (far := match d with L => r | R => l end).
  assert (rb near n /\ rb far n) as [Hn Hf] by (by destruct d).
  assert (T aw Black kw vw l r = node d aw Black kw vw near far) as -> by (by destruct d).
  clearbody near far. destruct (is_red far) eqn:Ef; [|destruct (is_red near) eqn:En]; simpl.
  - eexists; split; [by rewrite andb_false_r|]. cbn iota beta. pose proof (rb_painted _ _ Hf Ef) as Hf'.
    assert (rb (node d p Black kp vp t near) (S n)) by (apply rb_node; by exists n).
    rewrite is_red_node. split_and!; [|done|destruct d; entries].
    destruct cp; apply rb_node; [|by exists (S n)].
    split_and!; [apply is_red_node|by destruct far|done|done].
  - destruct near as [|b [|] kb vb bl br]; [done| |done]. destruct Hn as (? & ? & ? & ?). simpl.
    eexists; split; [reflexivity|]. cbn iota beta. rewrite is_red_node. split_and!; [|done|destruct d; entries].
    assert (rb (node d p Black kp vp t match d with L => bl | R => br end) (S n) /\
            rb (node d aw Black kw vw match d with L => br | R => bl end far) (S n)) as [? ?].
    { split; apply rb_node; exists n; destruct d; naive_solver. }
    destruct cp; apply rb_node; [|exists (S n)]; rewrite ?is_red_node; naive_solver.
  - eexists; split; [reflexivity|]. cbn iota beta. rewrite is_red_node.
    assert (rb (node d aw Red kw vw near far) n) by (by apply rb_node).
    assert (rb (node d p Black kp vp t (node d aw Red kw vw near far)) (S n)) as Hb
      by (apply rb_node; by exists n).
    split_and!; [by destruct d|by destruct cp|by intros ->|destruct d; entries].
Qed.

(** A red sibling: after the rotation the parent is red and the sibling black. *)
Lemma red_sibling_ok d p kp vp t aw kw vw near far cs n :
  rb t n -> is_red t = false -> rb near (S n) -> is_red near = false -> rb far (S n) ->
  rb_path cs (S (S n)) ->
  exists t', match sibling_fix d p Red kp vp t near with
             | Some (Up u) => Some (zip (Fr d aw Black kw vw far :: cs) (paint Black u))
             | Some (Stop u) => Some (paint Black (zip (Fr d aw Black kw vw far :: cs) u))
             | None => None
             end = Some t' /\
    rb_root t' /\ inorder t' = inorder (zip cs (node d p Black kp vp t (node d aw Red kw vw near far))).
Proof.
  intros Ht Htr Hn Hnr Hf Hc. assert (rb_path (Fr d aw Black kw vw far :: cs) (S n)) as Hc' by done.
  assert (inorder (node d p Black kp vp t (node d aw Red kw vw near far)) =
          inorder (node d aw Black kw vw (node d p Red kp vp t near) far)) as Hin by (destruct d; entries).
  destruct (sibling_fix_ok d p Red kp vp t near n) as ([u|u] & -> & Hu); [done..| |];
    (eexists; split; [reflexivity|]).
  - destruct Hu as (Hu & Hur & _ & Hui). split; [by apply (rb_zip (Fr d aw Black kw vw far :: cs) _ (S n) Hc')|].
    apply (inorder_zip_eq cs (plug _ _)). rewrite Hin. apply inorder_node_eq. by rewrite inorder_paint.
  - destruct Hu as (Hu & Hur & Hui). split; [by apply (rb_zip_painted (Fr d aw Black kw vw far :: cs) _ (S n) Hc')|].
    rewrite inorder_paint. apply (inorder_zip_eq cs (plug _ _)). rewrite Hin. by apply inorder_node_eq.
Qed.

(** A red focus takes up the missing black node. *)
Lemma del_fix_red cs t n :
  rb_path cs (S n) -> rb t n -> is_red t = true ->
  exists t', del_fix cs t = Some t' /\ rb_root t' /\ inorder t' = inorder (zip cs t).
Proof.
  intros Hc Ht Hr. exists (zip cs (paint Black t)). split; [by destruct cs as [|[]]; simpl; rewrite Hr|].
  split; [|apply inorder_zip_eq, inorder_paint]. apply (rb_zip _ _ (S n) Hc); [by apply rb_painted| |];
    destruct t; simpl; [by rewrite andb_comm..|done|done].
Qed.

Lemma del_fix_ok cs : forall t n,
  rb_path cs (S n) -> rb t n ->
  exists t', del_fix cs t = Some t' /\ rb_root t' /\ inorder t' = inorder (zip cs t).
Proof.
  induction cs as [|[d p cp kp vp w] cs IH]; intros t n Hc Ht;
    (destruct (is_red t) eqn:Er; [by eapply del_fix_red|]); cbn [del_fix]; rewrite Er.
  - eexists; split; [reflexivity|]. split; [by eapply rb_paint|apply inorder_paint].
  - destruct Hc as [Hw Hc]. simpl in Hw, Hc. destruct w as [|aw cw kw vw l r]; [done|]. simpl.
    assert (T aw cw kw vw l r = node d aw cw kw vw match d with L => l | R => r end match d with L => r | R => l end)
      as Ew by (by destruct d).
    destruct cw.
    + destruct cp; [naive_solver|]. destruct Hw as (Hlr & Hrr & Hl & Hr).
      destruct (red_sibling_ok d p kp vp t aw kw vw match d with L => l | R => r end
        match d with L => r | R => l end cs n) as (t' & Hfix & H1 & H2); [done|done|by destruct d..|done|].
      exists t'. split; [exact Hfix|]. split; [done|]. rewrite H2. by unfold plug; simpl; rewrite Ew.
    + assert (match cp with Red => rb_path cs (S n) /\ red_parent cs = false | Black => rb_path cs (S (S n)) end)
        as Hc' by (destruct cp; naive_solver).
      destruct (sibling_fix_ok d p cp kp vp t (T aw Black kw vw l r) n) as ([u|u] & -> & Hu); [done..| |].
      * destruct Hu as (Hu & Hur & Hub & Hui). destruct cp.
        -- exists (zip cs (paint Black u)). split; [by destruct cs as [|[]]; simpl; rewrite Hur|].
           split; [|by apply inorder_zip_eq; rewrite inorder_paint].
           destruct Hc' as [Hc' _]. apply (rb_zip _ _ (S n) Hc'); [done|by destruct u; rewrite andb_comm|by destruct u].
        -- destruct (IH u (S n)) as (t' & -> & H1 & H2); [done|by apply Hub|].
           exists t'. split_and!; [done|done|]. rewrite H2. by apply inorder_zip_eq.
      * destruct Hu as (Hu & Hur & Hui). eexists; split; [reflexivity|].
        split; [|by rewrite inorder_paint; apply inorder_zip_eq].
        destruct cp; simpl in Hur.
        -- destruct Hc' as [Hc' Hp]. apply (rb_zip_painted _ _ (S n) Hc'); [done|]. by rewrite Hp.
        -- apply (rb_zip_painted _ _ (S (S n)) Hc'); [done|]. by rewrite Hur, andb_comm.
Qed.

(** ** Removing a node *)

Lemma shorten_ok c cs x m :
  rb_path cs m ->
  match c with Black => exists n, m = S n /\ rb x n | Red => rb x m /\ is_red x = false end ->
  exists t', shorten c cs x = Some t' /\ rb_root t' /\ inorder t' = inorder (zip cs x).
Proof.
  destruct c; intros Hc Hx; simpl.
  - destruct Hx as [Hx Hr]. eexists; split; [reflexivity|]. split; [|done].
    by apply (rb_zip _ _ m Hc); rewrite ?Hr, ?andb_false_r.
  - destruct Hx as (n & -> & Hx). by apply (del_fix_ok _ _ n).
Qed.

Lemma rb_child d a c k v t s m :
  rb (node d a c k v t s) m ->
  match c with Black => exists n, m = S n /\ rb t n | Red => rb t m /\ is_red t = false end.
Proof. rewrite rb_node. destruct c; naive_solver. Qed.

Lemma end_path_spec d t p y cy ky vy u :
  end_path d t = Some (p, (y, cy, ky, vy, u)) ->
  zip p (node d y cy ky vy E u) = t /\ Forall (fun f => f_side f = d) p.
Proof.
  revert p. induction t as [|a c k v l IHl r IHr]; intros p; simpl; [done|].
  destruct d; [destruct (end_path L l) as [[p' y']|] eqn:Ee|destruct (end_path R r) as [[p' y']|] eqn:Ee];
    intros [= <- H]; simplify_eq.
  - destruct (IHl p' eq_refl) as [H1 H2]. rewrite zip_app, H1. split; [done|].
    apply Forall_app. by split; [|constructor].
  - assert (l = E) as -> by (destruct l as [|? ? ? ? ll ?]; [done|]; simpl in Ee; by destruct (end_path L ll) as [[]|]).
    done.
  - destruct (IHr p' eq_refl) as [H1 H2]. rewrite zip_app, H1. split; [done|].
    apply Forall_app. by split; [|constructor].
  - assert (r = E) as -> by (destruct r as [|? ? ? ? ? rr]; [done|]; simpl in Ee; by destruct (end_path R rr) as [[]|]).
    done.
Qed.

Lemma end_path_none d t : end_path d t = None -> t = E.
Proof.
  destruct t as [|a c k v l r]; [done|]. simpl.
  destruct d; [destruct (end_path L l) as [[]|]|destruct (end_path R r) as [[]|]]; done.
Qed.

Lemma before_left p : Forall (fun f => f_side f = L) p -> before p = [].
Proof. induction 1 as [|f p Hf _ IH]; [done|]. simpl. by rewrite IH, Hf. Qed.
Lemma after_right p : Forall (fun f => f_side f = R) p -> after_focus p = [].
Proof. induction 1 as [|f p Hf _ IH]; [done|]. simpl. by rewrite IH, Hf. Qed.

(** The entries at the two ends. *)
Lemma end_path_left t p y cy ky vy u :
  end_path L t = Some (p, (y, cy, ky, vy, u)) ->
  inorder t = (y, (ky, vy)) :: inorder u ++ after_focus p.
Proof.
  intros Hp. destruct (end_path_spec _ _ _ _ _ _ _ _ Hp) as [<- Hl].
  by rewrite inorder_zip, (before_left p Hl).
Qed.
Lemma end_path_right t p y cy ky vy u :
  end_path R t = Some (p, (y, cy, ky, vy, u)) ->
  inorder t = (before p ++ inorder u) ++ [(y, (ky, vy))].
Proof.
  intros Hp. destruct (end_path_spec _ _ _ _ _ _ _ _ Hp) as [<- Hl].
  rewrite inorder_zip, (after_right p Hl). simpl. by rewrite app_nil_r, app_assoc.
Qed.

(** Every entry can be brought into focus. *)
Lemma focus_entry t : forall xs e ys,
  inorder t = xs ++ e :: ys ->
  exists cs c l r, t = zip cs (T e.1 c e.2.1 e.2.2 l r) /\
    xs = before cs ++ inorder l /\ ys = inorder r ++ after_focus cs.
Proof.
  induction t as [|a c k v l IHl r IHr]; intros xs e ys; simpl; intros H; [by destruct xs|].
  apply app_eq_inv in H as [(zs & H1 & H2)|(zs & H1 & H2)].
  - destruct zs as [|z zs]; simpl in H2.
    + injection H2 as -> ->. rewrite app_nil_r in H1. subst xs. exists [], c, l, r. simpl.
      split_and!; [done|done|by rewrite app_nil_r].
    + injection H2 as -> ->. destruct (IHl xs z zs H1) as (cs & c' & l' & r' & -> & -> & ->).
      exists (cs ++ [Fr L a c k v r]), c', l', r'. rewrite zip_app, before_app, after_app. simpl.
      split_and!; [done|by rewrite <- ?app_assoc|]. by rewrite app_nil_r, <- app_assoc.
  - destruct zs as [|z zs]; simpl in H2.
    + injection H2 as <- <-. rewrite app_nil_r in H1. subst xs. exists [], c, l, r. simpl.
      split_and!; [done|done|by rewrite app_nil_r].
    + injection H2 as <- H2. destruct (IHr zs e ys H2) as (cs & c' & l' & r' & -> & -> & ->).
      exists (cs ++ [Fr R a c k v l]), c', l', r'. rewrite zip_app, before_app, after_app. simpl. subst xs.
      unfold f_entry. simpl. split_and!; [done|by rewrite <- !app_assoc|by rewrite app_nil_r].
Qed.

(** The colours and the siblings of a path decide its invariant. *)
Lemma rb_path_swap p a a' c k k' v v' d s cs n :
  rb_path (p ++ Fr d a c k v s :: cs) n -> rb_path (p ++ Fr d a' c k' v' s :: cs) n.
Proof.
  revert n. induction p as [|f p IH]; intros n; [done|]. simpl. intros [Hs Hc]. split; [done|].
  destruct (f_color f); [|by apply IH]. destruct Hc as (H1 & _ & H2 & H3).
  split_and!; [done|by destruct p|by destruct p|by apply IH].
Qed.

Lemma del_node_ok cs a c k v l r :
  rb_root (zip cs (T a c k v l r)) ->
  exists t', del_node cs c l r = Some t' /\ rb_root t' /\
    inorder t' = before cs ++ (inorder l ++ inorder r) ++ after_focus cs.
Proof.
  intros Hz. destruct (rb_unzip _ _ Hz) as (m & Hc & Ht & _). unfold del_node.
  destruct (is_leaf l) eqn:El; [|destruct (end_path L r) as [[p [[[[y cy] ky] vy] yr]]|] eqn:Er].
  - destruct l; [|done]. destruct (shorten_ok c cs r m Hc) as (t' & Hs & H1 & H2);
      [by apply (rb_child R a c k v _ E)|].
    exists t'. split_and!; [done|done|]. by rewrite H2, inorder_zip.
  - destruct (end_path_spec _ _ _ _ _ _ _ _ Er) as [Hp Hl]. simpl in Hp.
    assert (rb_root (zip (p ++ Fr R a c k v l :: cs) (T y cy ky vy E yr))) as Hz'
      by (rewrite zip_app, Hp; done).
    destruct (rb_unzip _ _ Hz') as (n & Hc' & Hy & _). apply (rb_path_swap p a y c k ky v vy) in Hc'.
    destruct (shorten_ok cy _ yr n Hc') as (t' & Hs & H1 & H2); [by apply (rb_child R y cy ky vy _ E)|].
    exists t'. split_and!; [by destruct l|done|].
    rewrite H2, inorder_zip, before_app, after_app, (before_left p Hl).
    rewrite <- Hp, inorder_zip, (before_left p Hl). simpl. unfold f_entry. simpl.
    rewrite !app_nil_r. repeat (rewrite <- !app_assoc; simpl). done.
  - apply end_path_none in Er as ->. destruct (shorten_ok c cs l m Hc) as (t' & Hs & H1 & H2);
      [by apply (rb_child L a c k v _ E)|].
    exists t'. split_and!; [by destruct l|done|]. rewrite H2, inorder_zip. simpl. by rewrite app_nil_r.
Qed.

(** ** Height *)

Fixpoint height (t : tree) : nat :=
  match t with E => 0 | T _ _ _ _ l r => S (Nat.max (height l) (height r)) end.

Lemma height_entries t : (height t <= length (inorder t))%nat.
Proof. induction t as [|a c k v l IHl r IHr]; simpl; [lia|]. rewrite length_app. simpl. lia. Qed.

Lemma rb_height t n :
  rb t n -> (height t <= 2 * n + (if is_red t then 1 else 0))%nat /\ (2 ^ n <= S (length (inorder t)))%nat.
Proof.
  revert n. induction t as [|a [] k v l IHl r IHr]; intros n; simpl.
  - intros ->. simpl. lia.
  - intros (Hl & Hr & H1 & H2). apply IHl in H1. apply IHr in H2. rewrite Hl in H1. rewrite Hr in H2.
    rewrite length_app. simpl. lia.
  - intros (m & -> & H1 & H2). apply IHl in H1. apply IHr in H2. rewrite length_app. simpl length.
    rewrite Nat.pow_succ_r'. destruct (is_red l), (is_red r); lia.
Qed.

(** The height of a balanced tree is at most twice the logarithm of its size. *)
Lemma rb_root_height t :
  rb_root t -> (height t <= 2 * Nat.log2 (S (length (inorder t))))%nat.
Proof.
  intros [Hr [n Hn]]. destruct (rb_height t n Hn) as [H1 H2]. rewrite Hr in H1.
  apply Nat.log2_le_pow2 in H2; lia.
Qed.

(** ** Searching *)

Class KeyLaws `{KeyCmp} : Prop := {
  cmp_flip x y : Z.sgn (key_cmp x y) = - Z.sgn (key_cmp y x);
  cmp_trans x y z : key_cmp x y <= 0 -> key_cmp y z <= 0 -> key_cmp x z <= 0;
}.

Section Search.
Context `{HC : KeyCmp} `{HK : !KeyLaws}.

(** The path to the key, down to its node or the leaf it would be at. *)
Fixpoint find_key (key : Z) (cs : list frame) (t : tree) : list frame * tree :=
  match t with
  | E => (cs, E)
  | T a c k v l r =>
      if key_cmp key k <? 0 then find_key key (Fr L a c k v r :: cs) l
      else if 0 <? key_cmp key k then find_key key (Fr R a c k v l :: cs) r
      else (cs, t)
  end.

Lemma find_key_zip key cs t : zip (find_key key cs t).1 (find_key key cs t).2 = zip cs t.
Proof.
  revert cs. induction t as [|a c k v l IHl r IHr]; intros cs; simpl; [done|].
  destruct (key_cmp key k <? 0); [by rewrite IHl|]. destruct (0 <? key_cmp key k); [by rewrite IHr|done].
Qed.

(** The leaf found is on the side of its parent that the key belongs to. *)
Lemma find_key_side key cs t cs' :
  (match cs with f :: _ => f_side f = if key_cmp key (f_key f) <? 0 then L else R | [] => True end) ->
  find_key key cs t = (cs', E) ->
  match cs' with f :: _ => f_side f = if key_cmp key (f_key f) <? 0 then L else R | [] => True end.
Proof.
  revert cs. induction t as [|a c k v l IHl r IHr]; intros cs Hcs; simpl; [by intros [= <-]|].
  destruct (key_cmp key k <? 0) eqn:E1; [|destruct (0 <? key_cmp key k); [|done]].
  - apply IHl. simpl. by rewrite E1.
  - apply IHr. simpl. by rewrite E1.
Qed.

(** *** Sorted lists of keys and values *)

Definition key_lt (x y : Z * Z) : Prop := key_cmp x.1 y.1 < 0.

Lemma cmp_gt_lt x y : 0 < key_cmp x y <-> key_cmp y x < 0.
Proof using HK. pose proof (cmp_flip x y). lia. Qed.
Lemma cmp_eq_sym x y : key_cmp x y = 0 <-> key_cmp y x = 0.
Proof using HK. pose proof (cmp_flip x y). lia. Qed.

Lemma cmp_lt_le x y z : key_cmp x y < 0 -> key_cmp y z <= 0 -> key_cmp x z < 0.
Proof using HK.
  intros H1 H2. apply cmp_gt_lt. destruct (Z.lt_ge_cases 0 (key_cmp z x)) as [|Hzx]; [done|].
  pose proof (cmp_trans y z x H2 Hzx). pose proof (cmp_flip x y). lia.
Qed.
Lemma cmp_le_lt x y z : key_cmp x y <= 0 -> key_cmp y z < 0 -> key_cmp x z < 0.
Proof using HK.
  intros H1 H2. apply cmp_gt_lt. destruct (Z.lt_ge_cases 0 (key_cmp z x)) as [|Hzx]; [done|].
  pose proof (cmp_trans z x y Hzx H1). pose proof (cmp_flip y z). lia.
Qed.

#[export] Instance key_lt_trans : Transitive key_lt.
Proof using HK. intros e1 e2 e3 H1 H2. unfold key_lt in *. apply (cmp_lt_le e1.1 e2.1 e3.1); lia. Qed.

(** What a table is: a list of keys and values, the keys increasing. *)
Local Abbreviation increasing := (StronglySorted key_lt).

Fixpoint ts_insert (key val : Z) (l : list (Z * Z)) : list (Z * Z) :=
  match l with
  | [] => [(key, val)]
  | (k, v) :: l =>
      if key_cmp key k <? 0 then (key, val) :: (k, v) :: l
      else if 0 <? key_cmp key k then (k, v) :: ts_insert key val l
      else (k, val) :: l
  end.

(** The entry with an equal key, and the entries around it. *)
Fixpoint ts_split (key : Z) (l : list (Z * Z)) : option (list (Z * Z) * (Z * Z) * list (Z * Z)) :=
  match l with
  | [] => None
  | e :: l =>
      if key_cmp key e.1 =? 0 then Some ([], e, l)
      else '(xs, y, zs) ← ts_split key l; Some (e :: xs, y, zs)
  end.

Definition is_above (key : Z) (e : Z * Z) : Prop := key_cmp key e.1 < 0.
Definition is_below (key : Z) (e : Z * Z) : Prop := 0 < key_cmp key e.1.

Lemma ts_insert_new key val xs ys :
  Forall (is_below key) xs -> Forall (is_above key) ys ->
  ts_insert key val (xs ++ ys) = xs ++ (key, val) :: ys.
Proof.
  intros Hx Hy. induction Hx as [|[k v] xs Hk _ IH]; simpl.
  - destruct Hy as [|[k v] ys Hk _]; [done|]. unfold is_above in Hk. simpl in *.
    by rewrite (proj2 (Z.ltb_lt _ _) Hk).
  - unfold is_below in Hk. simpl in Hk. rewrite (proj2 (Z.ltb_ge _ _)) by lia.
    by rewrite (proj2 (Z.ltb_lt _ _) Hk), IH.
Qed.

Lemma ts_insert_old key val k v xs ys :
  Forall (is_below key) xs -> key_cmp key k = 0 ->
  ts_insert key val (xs ++ (k, v) :: ys) = xs ++ (k, val) :: ys.
Proof.
  intros Hx Hk. induction Hx as [|[k' v'] xs Hk' _ IH]; simpl.
  - by rewrite Hk.
  - unfold is_below in Hk'. simpl in Hk'. rewrite (proj2 (Z.ltb_ge _ _)) by lia.
    by rewrite (proj2 (Z.ltb_lt _ _) Hk'), IH.
Qed.

Lemma ts_split_found key k v xs ys :
  Forall (is_below key) xs -> key_cmp key k = 0 ->
  ts_split key (xs ++ (k, v) :: ys) = Some (xs, (k, v), ys).
Proof.
  intros Hx Hk. induction Hx as [|[k' v'] xs Hk' _ IH]; simpl; [by rewrite Hk|].
  unfold is_below in Hk'. simpl in Hk'. rewrite (proj2 (Z.eqb_neq _ _)) by lia. by rewrite IH.
Qed.

Lemma ts_split_none key xs ys :
  Forall (is_below key) xs -> Forall (is_above key) ys -> ts_split key (xs ++ ys) = None.
Proof.
  intros Hx Hy. assert (Forall (fun e => key_cmp key e.1 <> 0) (xs ++ ys)) as H.
  { apply Forall_app. split; [eapply Forall_impl, Hx|eapply Forall_impl, Hy];
      unfold is_below, is_above; intros e ?; lia. }
  induction H as [|e l He _ IH]; simpl; [done|]. by rewrite (proj2 (Z.eqb_neq _ _) He), IH.
Qed.

Lemma ts_split_app key l xs e ys : ts_split key l = Some (xs, e, ys) -> l = xs ++ e :: ys.
Proof.
  revert xs e ys. induction l as [|e' l IH]; intros xs e ys; simpl; [done|].
  destruct (key_cmp key e'.1 =? 0); [by intros [= <- <- <-]|].
  destruct (ts_split key l) as [[[xs' e''] ys']|] eqn:E; [|done]. intros [= <- <- <-].
  simpl. f_equal. by apply IH.
Qed.

Lemma increasing_app l1 l2 :
  increasing (l1 ++ l2) <->
  increasing l1 /\ increasing l2 /\ Forall (fun x => Forall (key_lt x) l2) l1.
Proof.
  induction l1 as [|x l1 IH]; simpl.
  - split; [intros H; split_and!; [constructor|done|constructor]|by intros (_ & ? & _)].
  - split.
    + intros [H1 H2]%StronglySorted_inv. apply IH in H1 as (? & ? & ?). apply Forall_app in H2 as [? ?].
      split_and!; [by constructor|done|by constructor].
    + intros (H1 & H2 & H3). apply StronglySorted_inv in H1 as [? ?]. apply Forall_cons_1 in H3 as [? ?].
      constructor; [by apply IH|by apply Forall_app].
Qed.

Lemma increasing_mid xs e ys :
  increasing (xs ++ e :: ys) ->
  Forall (fun x => key_lt x e) xs /\ Forall (key_lt e) ys /\ increasing (xs ++ ys).
Proof.
  intros (H1 & H2 & H3)%increasing_app. apply StronglySorted_inv in H2 as [H2 H4].
  split_and!; [|done|apply increasing_app; split_and!; [done|done|]];
    (eapply Forall_impl, H3); intros x Hx; by apply Forall_cons_1 in Hx as [? ?].
Qed.

Lemma ts_insert_after e key val l :
  key_cmp e.1 key < 0 -> Forall (key_lt e) l -> Forall (key_lt e) (ts_insert key val l).
Proof.
  intros He. induction 1 as [|[k v] l Hk Hl IH]; simpl; [by repeat constructor|].
  destruct (key_cmp key k <? 0); [by repeat constructor|]. destruct (0 <? key_cmp key k); by constructor.
Qed.

Lemma ts_insert_increasing key val l : increasing l -> increasing (ts_insert key val l).
Proof using HK.
  induction l as [|[k v] l IH]; intros Hl; simpl; [by repeat constructor|].
  pose proof Hl as [Hl1 Hl2]%StronglySorted_inv. destruct (Z.ltb_spec (key_cmp key k) 0).
  - constructor; [done|]. constructor; [done|]. eapply Forall_impl, Hl2.
    intros [k' v'] Hk. unfold key_lt in *. simpl in *. by apply (cmp_lt_le key k k'); lia.
  - destruct (Z.ltb_spec 0 (key_cmp key k)).
    + constructor; [by apply IH|]. apply ts_insert_after; [by apply cmp_gt_lt|done].
    + constructor; [done|]. done.
Qed.

(** *** The search splits the sequence of entries *)

Lemma below_trans key e l : key_cmp key e.1 < 0 -> Forall (key_lt e) l -> Forall (is_above key) l.
Proof using HK.
  intros H. apply Forall_impl. intros x Hx. unfold is_above, key_lt in *. by apply (cmp_lt_le key e.1 x.1); lia.
Qed.
Lemma above_trans key e l :
  0 <= key_cmp key e.1 -> Forall (fun x => key_lt x e) l -> Forall (is_below key) l.
Proof using HK.
  intros H. apply Forall_impl. intros x Hx. unfold is_below, key_lt in *. apply cmp_gt_lt.
  apply (cmp_lt_le x.1 e.1 key); [done|]. pose proof (cmp_flip key e.1). lia.
Qed.

Lemma find_key_spec key t : forall cs cs' t',
  find_key key cs t = (cs', t') ->
  increasing (inorder (zip cs t)).*2 ->
  Forall (is_below key) (before cs).*2 -> Forall (is_above key) (after_focus cs).*2 ->
  match t' with
  | E => Forall (is_below key) (before cs').*2 /\ Forall (is_above key) (after_focus cs').*2
  | T _ _ k _ l r =>
      key_cmp key k = 0 /\ Forall (is_below key) (before cs' ++ inorder l).*2
  end.
Proof using HK.
  induction t as [|a c k v l IHl r IHr]; intros cs cs' t' Hf Hi Hb Ha; simpl in Hf.
  - injection Hf as <- <-. done.
  - pose proof Hi as Hi'. rewrite inorder_zip in Hi'. simpl in Hi'.
    assert (before cs ++ (inorder l ++ (a, (k, v)) :: inorder r) ++ after_focus cs =
            (before cs ++ inorder l) ++ (a, (k, v)) :: inorder r ++ after_focus cs) as E
      by (by rewrite <- !app_assoc).
    rewrite E, fmap_app, fmap_cons in Hi'. simpl in Hi'.
    apply increasing_mid in Hi' as (H1 & H2 & _). rewrite fmap_app in H1, H2.
    apply Forall_app in H1 as [_ H1]. apply Forall_app in H2 as [H2 _].
    destruct (Z.ltb_spec (key_cmp key k) 0) as [Hlt|Hge]; [|destruct (Z.ltb_spec 0 (key_cmp key k)) as [Hgt|Hle]].
    + apply (IHl _ _ _ Hf Hi); simpl; [by rewrite app_nil_r|].
      constructor; [done|]. rewrite fmap_app. apply Forall_app. split; [|done]. by apply (below_trans key (k, v)).
    + apply (IHr _ _ _ Hf Hi); simpl; [|done]. rewrite !fmap_app. simpl.
      apply Forall_app. split; [done|]. apply Forall_app. split; [apply (above_trans key (k, v)); [simpl; lia|done]|].
      by repeat constructor.
    + injection Hf as <- <-. split; [lia|]. rewrite fmap_app. apply Forall_app. split; [done|].
      apply (above_trans key (k, v)); [simpl; lia|done].
Qed.
(** The search in the tree is the search in the list. *)
Lemma find_key_split key t cs t' :
  increasing (inorder t).*2 -> find_key key [] t = (cs, t') ->
  ts_split key (inorder t).*2 =
    match t' with
    | E => None
    | T _ _ k v l r => Some ((before cs ++ inorder l).*2, (k, v), (inorder r ++ after_focus cs).*2)
    end.
Proof using HK.
  intros Hi Hf. pose proof (find_key_zip key [] t) as Hz. rewrite Hf in Hz. simpl in Hz.
  pose proof (find_key_spec key t [] cs t' Hf Hi (Forall_nil_2 _) (Forall_nil_2 _)) as Hs. subst t.
  rewrite inorder_zip. destruct t' as [|a c k v l r].
  - destruct Hs as [H1 H2]. rewrite !fmap_app. by apply ts_split_none.
  - destruct Hs as [H1 H2]. simpl. rewrite <- app_assoc, app_assoc. simpl.
    rewrite fmap_app. by apply ts_split_found.
Qed.
End Search.

Abbreviation increasing := (StronglySorted key_lt).

(** ** What a change at the focus does to the tree *)

Lemma rb_focus_value cs a c k v w l r :
  rb_root (zip cs (T a c k v l r)) -> rb_root (zip cs (T a c k w l r)).
Proof.
  intros Hz. destruct (rb_unzip _ _ Hz) as (n & H1 & H2 & H3 & H4).
  apply (rb_zip _ _ n H1); by destruct c.
Qed.

(** The red leaf node that [cc_treetable_add] attaches. *)
Lemma rb_attach cs a k v :
  rb_root (zip cs E) ->
  exists t', ins_fix cs (T a Red k v E E) = Some t' /\ rb_root (paint Black t') /\
    inorder t' = inorder (zip cs (T a Red k v E E)).
Proof.
  intros Hz. destruct (rb_unzip _ _ Hz) as (n & H1 & H2 & _). simpl in H2. subst n.
  by apply (ins_fix_ok _ _ 0).
Qed.
