(* ===== verification/CcTreeFacts.v ===== *)
(** * The tree table in separation logic

    [focus tab cs t sp] owns the sentinel and the nodes of the table: the
    subtree [t] at the focus and the path [cs] above it.  The functions of
    cc_treetable.c that move pointers are shown to do what the functions of
    RbTree.v do to focused trees. *)

From iris.proofmode Require Import proofmode.
From Stdlib Require Import Sorted.
From S2P Require Import Prelude CMem CState CHeap HeapLogic CcArray CcTreeTable RbTree.

(** ** Ownership *)

Definition code (c : color) : Z := match c with Red => RB_RED | Black => RB_BLACK end.

(** A node with its child on side [d] first. *)
Definition cell (d : side) (k v : Z) (c : color) (p x y : Z) : rbnode :=
  match d with L => mk_rb k v (code c) p x y | R => mk_rb k v (code c) p y x end.

(** The sentinel; its parent is whatever the last removal left there. *)
Definition sent (sp : Z) : rbnode := mk_rb 0 0 RB_BLACK sp 0 0.

Definition root_of (s : Z) (t : tree) : Z := match t with E => s | T a _ _ _ _ _ => a end.

Fixpoint tree_at (s : Z) (t : tree) (p : Z) : hpropI rbnode :=
  match t with
  | E => emp
  | T a c k v l r =>
      a ↦ mk_rb k v (code c) p (root_of s l) (root_of s r) ∗ tree_at s l a ∗ tree_at s r a
  end%I.

Definition up (q : Z) (cs : list frame) : Z := match cs with [] => q | f :: _ => f_addr f end.

(** The nodes of a path whose topmost node has parent [q]. *)
Fixpoint path_at (s q : Z) (cs : list frame) (hole : Z) : hpropI rbnode :=
  match cs with
  | [] => emp
  | f :: cs =>
      f_addr f ↦ cell (f_side f) (f_key f) (f_val f) (f_color f) (up q cs) hole (root_of s (f_sib f)) ∗
      tree_at s (f_sib f) (f_addr f) ∗ path_at s q cs (f_addr f)
  end%I.

Fixpoint top (cs : list frame) (hole : Z) : Z :=
  match cs with [] => hole | f :: cs => top cs (f_addr f) end.

Section Shapes.
Context (s : Z).

Lemma root_plug f t : root_of s (plug f t) = f_addr f.
Proof. by destruct f as [[]]. Qed.

Lemma root_zip cs t : root_of s (zip cs t) = top cs (root_of s t).
Proof. revert t. induction cs as [|f cs IH]; intros t; [done|]. simpl. by rw IH root_plug. Qed.

Lemma tree_plug f t q :
  tree_at s (plug f t) q
  ⊣⊢ f_addr f ↦ cell (f_side f) (f_key f) (f_val f) (f_color f) q (root_of s t) (root_of s (f_sib f)) ∗
     tree_at s t (f_addr f) ∗ tree_at s (f_sib f) (f_addr f).
Proof. destruct f as [[] a c k v t']; simpl; [done|]. iSplit; iIntros "($ & $ & $)". Qed.

Lemma tree_node d a c k v t1 t2 q :
  tree_at s (node d a c k v t1 t2) q
  ⊣⊢ a ↦ cell d k v c q (root_of s t1) (root_of s t2) ∗ tree_at s t1 a ∗ tree_at s t2 a.
Proof. apply (tree_plug (Fr d a c k v t2)). Qed.

Lemma tree_zip cs t q :
  tree_at s (zip cs t) q ⊣⊢ tree_at s t (up q cs) ∗ path_at s q cs (root_of s t).
Proof.
  revert t. induction cs as [|f cs IH]; intros t; simpl; [by rw right_id|].
  rw IH tree_plug root_plug. iSplit; iIntros "[(? & ? & ?) ?]" || iIntros "(? & ? & ? & ?)"; iFrame.
Qed.

Lemma tree_size t q h : hprop_at (tree_at s t q) h -> stdpp.base.size h = length (inorder t).
Proof.
  revert q h. induction t as [|a c k v l IHl r IHr]; intros q h; simpl.
  - intros ->. apply map_size_empty.
  - intros (h1 & h2 & -> & Hd & [-> _] & h3 & h4 & -> & Hd' & Hl & Hr).
    rw map_size_disj_union; [|done]. rw map_size_disj_union; [|done].
    rw map_size_singleton (IHl _ _ Hl) (IHr _ _ Hr) length_app /=. lia.
Qed.

(** ** Distinct addresses *)

Lemma cell_ne a b (x y : rbnode) : a ↦ x ∗ b ↦ y ⊢ ⌜(a =? b) = false⌝ ∧ a ↦ x ∗ b ↦ y.
Proof. iIntros "H". iDestruct (pointsto_ne with "H") as "[%H H]". iSplit; [by iPureIntro; apply Z.eqb_neq|done]. Qed.

(** A node is not the root of a tree beside it. *)
Lemma root_ne a x y t q :
  a ↦ x ∗ s ↦ y ∗ tree_at s t q
  ⊢ ⌜(a =? root_of s t) = false⌝ ∧ (a ↦ x ∗ s ↦ y ∗ tree_at s t q).
Proof.
  iIntros "(Ha & Hs & Ht)". destruct t as [|b c k v l r]; simpl.
  - iDestruct (cell_ne with "[$Ha $Hs]") as "[%H [$ $]]". iSplit; done.
  - iDestruct "Ht" as "[Hb Ht]". iDestruct (cell_ne with "[$Ha $Hb]") as "[%H [$ $]]". iFrame. iSplit; done.
Qed.

Lemma root_test y t q :
  s ↦ y ∗ tree_at s t q ⊢ ⌜(root_of s t =? s) = is_leaf t⌝ ∧ (s ↦ y ∗ tree_at s t q).
Proof.
  iIntros "[Hs Ht]". destruct t as [|b c k v l r]; simpl.
  - iFrame. iSplit; [|done]. iPureIntro. apply Z.eqb_refl.
  - iDestruct "Ht" as "[Hb Ht]". iDestruct (cell_ne with "[$Hb $Hs]") as "[%H [$ $]]". iFrame. iSplit; done.
Qed.

Definition is_nil {A} (l : list A) : bool := match l with [] => true | _ => false end.

Lemma up_test y cs hole :
  s ↦ y ∗ path_at s s cs hole ⊢ ⌜(up s cs =? s) = is_nil cs⌝ ∧ (s ↦ y ∗ path_at s s cs hole).
Proof.
  iIntros "[Hs Hp]". destruct cs as [|f cs]; simpl.
  - iFrame. iSplit; [|done]. iPureIntro. apply Z.eqb_refl.
  - iDestruct "Hp" as "[Hb Hp]". iDestruct (cell_ne with "[$Hb $Hs]") as "[%H [$ $]]". iFrame. iSplit; done.
Qed.
End Shapes.

(** A table with the focus on [t]. *)
Definition focus (tab : treetable) (cs : list frame) (t : tree) (sp : Z) : hpropI rbnode :=
  (⌜tt_root tab = top cs (root_of (tt_sentinel tab) t)⌝ ∧
   (tt_sentinel tab ↦ sent sp ∗ tree_at (tt_sentinel tab) t (up (tt_sentinel tab) cs) ∗
    path_at (tt_sentinel tab) (tt_sentinel tab) cs (root_of (tt_sentinel tab) t)))%I.

(** ** Symbolic execution *)

Ltac tsimpl :=
  cbn [fst snd rb_key rb_value rb_color rb_parent rb_left rb_right child other set_child set_key set_value
       set_color set_parent tt_root tt_sentinel tt_size set_root set_tt_size cell sent code
       f_side f_addr f_color f_key f_val f_sib plug node root_of up top path_at tree_at is_leaf is_nil].
Ltac tfield := iApply hwp_field; iFrame; iIntros "?"; tsimpl.
Ltac tupdate := iApply hwp_bind; iApply hwp_update; iFrame; iIntros "?"; tsimpl.
Ltac tret := iApply hwp_ret; tsimpl.
Ltac tskip := iApply hwp_bind; tret.
(** Putting the pieces of a table together. *)
Ltac tfocus := unfold focus; tsimpl; (iSplit; [iPureIntro; tsimpl; by try assumption|]); iFrame; try by iSplit.
(** A test decided by a hypothesis. *)
Ltac tif :=
  match goal with
  | |- context [if ?x =? ?x then _ else _] => rw (Z.eqb_refl x)
  | |- context [if negb (?x =? ?x) then _ else _] => rw (Z.eqb_refl x)
  | H : (?x =? ?y) = _ |- context [if ?x =? ?y then _ else _] => rw H
  | H : (?x =? ?y) = _ |- context [if negb (?x =? ?y) then _ else _] => rw H
  | |- context [RB_BLACK =? RB_RED] => change (RB_BLACK =? RB_RED) with false
  | |- context [RB_RED =? RB_BLACK] => change (RB_RED =? RB_BLACK) with false
  end; cbn [negb]; cbn iota.
Ltac trun :=
  repeat lazymatch goal with
    | |- environments.envs_entails _ (hwp (mbind _ (field _ _)) _) => tfield
    | |- environments.envs_entails _ (hwp (mbind _ (update _ _)) _) => tupdate
    | |- environments.envs_entails _ (hwp (mbind _ (mret _)) _) => tskip
    | |- environments.envs_entails _ (hwp (mret _) _) => tret
    | |- environments.envs_entails _ (hwp (update _ _) _) => iApply hwp_update; iFrame; iIntros "?"; tsimpl
    | |- environments.envs_entails _ (hwp (mbind _ (mbind _ _)) _) => iApply hwp_bind
    | |- environments.envs_entails _ (hwp (mbind _ (if _ then _ else _)) _) => tif
    | |- environments.envs_entails _ (hwp (if _ then _ else _) _) => tif
    end.

Section Facts.
Context `{HA : !NodeAlloc rbnode} `{HU : !Uninit rbnode} `{HC : !KeyCmp} `{HL : !NodeAllocLaws rbnode}.
Implicit Types (tab : treetable) (cs : list frame) (t : tree).

Lemma focus_plug tab f cs t sp : focus tab (f :: cs) t sp ⊣⊢ focus tab cs (plug f t) sp.
Proof.
  unfold focus. rw tree_plug root_plug. simpl.
  iSplit; (iIntros "[%H H]"; iSplit; [done|]); iDestruct "H" as "(? & ? & ?)".
  - iDestruct select (_ ∗ _)%I as "(? & ? & ?)". iFrame.
  - iDestruct select (_ ∗ _)%I as "(? & ? & ?)". iFrame.
Qed.

Lemma focus_zip tab cs1 cs2 t sp : focus tab (cs1 ++ cs2) t sp ⊣⊢ focus tab cs2 (zip cs1 t) sp.
Proof. revert t. induction cs1 as [|f cs1 IH]; intros t; [done|]. simpl. by rw focus_plug IH. Qed.

Lemma focus_whole tab cs t sp : focus tab cs t sp ⊣⊢ focus tab [] (zip cs t) sp.
Proof. by rw -focus_zip app_nil_r. Qed.

Lemma focus_root tab t sp :
  focus tab [] t sp ⊢ ⌜tt_root tab = root_of (tt_sentinel tab) t⌝ ∧ focus tab [] t sp.
Proof. iIntros "[%Hr H]". iSplit; [done|]. by iSplit. Qed.

(** ** Rotation *)

Lemma root_node s d a c k v t1 t2 : root_of s (node d a c k v t1 t2) = a.
Proof. by destruct d. Qed.

Lemma rotate_spec d tab cs a c k v A b c' k' v' B C sp :
  focus tab cs (node d a c k v A (node d b c' k' v' B C)) sp
  ⊢ hwp (rotate d tab a)
      (λ tab', ⌜tab' = set_root (top cs b) tab⌝ ∧
               focus tab' cs (node d b c' k' v' (node d a c k v A B) C) sp).
Proof.
  destruct tab as [r s sz]. unfold focus. tsimpl. rw !tree_node !root_node.
  iIntros "[%Hr (Hs & (Ha & HA & Hb & HB & HC) & Hp)]".
  iDestruct (root_test with "[$Hs $HB]") as "[%HBs [Hs HB]]".
  iDestruct (up_test with "[$Hs $Hp]") as "[%Hps [Hs Hp]]".
  unfold rotate. destruct B as [|b' cb kb vb Bl Br], cs as [|[e p cp kp vp u] cs]; simpl in HBs, Hps;
    try (iDestruct "HB" as "[HB HB']"); try (iDestruct "Hp" as "(Hp & Hu & Hp')"; 
      iDestruct (root_ne with "[$Ha $Hs $Hu]") as "[%Hau (Ha & Hs & Hu)]");
    destruct d; try destruct e; tsimpl; trun;
    (iSplit; [iPureIntro; tsimpl; by rw ?Hr|]); (iSplit; [done|]); iFrame.
Qed.

(** *** Reading the colour of a subtree *)

Lemma root_color {A} s sp t q (k : Z -> M (heap rbnode) A) (Φ : A -> hpropI rbnode) :
  s ↦ sent sp ∗ tree_at s t q ∗
  (s ↦ sent sp -∗ tree_at s t q -∗ hwp (k (if is_red t then RB_RED else RB_BLACK)) Φ)
  ⊢ hwp (field rb_color (root_of s t) ≫= k) Φ.
Proof.
  iIntros "(Hs & Ht & HΦ)". destruct t as [|a c k' v l r]; simpl.
  - iApply hwp_field. iFrame. iIntros "Hs". iApply ("HΦ" with "Hs"). done.
  - iDestruct "Ht" as "[Ha Ht]". iApply hwp_field. iFrame "Ha". iIntros "Ha". tsimpl. destruct c;
      iApply ("HΦ" with "Hs"); iFrame.
Qed.

(** The parent of a subtree; the sentinel remembers one. *)
Lemma root_parent {A} s sp t q (k : Z -> M (heap rbnode) A) (Φ : A -> hpropI rbnode) :
  (is_leaf t = true -> sp = q) ->
  s ↦ sent sp ∗ tree_at s t q ∗ (s ↦ sent sp -∗ tree_at s t q -∗ hwp (k q) Φ)
  ⊢ hwp (field rb_parent (root_of s t) ≫= k) Φ.
Proof.
  iIntros (Hq) "(Hs & Ht & HΦ)". destruct t as [|a c k' v l r]; simpl.
  - rw Hq; [|done]. iApply hwp_field. iFrame. iIntros "Hs". iApply ("HΦ" with "Hs"). done.
  - iDestruct "Ht" as "[Ha Ht]". iApply hwp_field. iFrame "Ha". iIntros "Ha". tsimpl.
    iApply ("HΦ" with "Hs"). iFrame.
Qed.

(** *** Turns enough for every loop *)

Lemma focus_size tab cs t sp h :
  hprop_at (focus tab cs t sp) h -> (length (inorder (zip cs t)) < stdpp.base.size h)%nat.
Proof.
  intros Hh. assert (hprop_at (focus tab [] (zip cs t) sp) h) as Hz.
  { by apply (focus_whole tab cs t sp h). }
  destruct Hz as (_ & h1 & h2 & -> & Hd & [-> _] & h3 & h4 & -> & Hd' & Ht & ->).
  rw map_size_disj_union; [|done]. rw map_size_disj_union; [|done].
  rw map_size_singleton (tree_size _ _ _ _ Ht). lia.
Qed.

Lemma focus_fuel tab cs t sp (Φ : nat -> hpropI rbnode) :
  focus tab cs t sp ∗ (∀ k, ⌜(S (length (inorder (zip cs t))) < k)%nat⌝ → focus tab cs t sp -∗ Φ k)
  ⊢ hwp heap_fuel Φ.
Proof. apply hwp_fuel. intros h Hh. apply focus_size in Hh. lia. Qed.

(** ** Whole tables *)

(** The size, the balance and the order of the keys. *)
Record table_ok tab t : Prop := {
  ok_size : tt_size tab = zlen (inorder t);
  ok_bound : zlen (inorder t) < 2 ^ 32;
  ok_rb : rb_root t;
  ok_keys : increasing (inorder t).*2;
}.

(** The table holds the keys and values [xs], and owns its nodes and its
    sentinel. *)
Definition table_at tab (xs : list (Z * Z)) : hpropI rbnode :=
  (∃ t sp, ⌜table_ok tab t /\ (inorder t).*2 = xs⌝ ∧ focus tab [] t sp)%I.

Lemma table_done tab t sp xs :
  table_ok tab t -> (inorder t).*2 = xs -> focus tab [] t sp ⊢ table_at tab xs.
Proof. iIntros (H1 H2) "H". iExists t, sp. by iSplit. Qed.
End Facts.

(** Colours and parents of subtrees whose shape is not known. *)
Tactic Notation "tcolor" constr(H) :=
  iApply root_color; iFrame "Hs"; iFrame H; iIntros "Hs"; iIntros H.
Ltac tparent Hq := iApply root_parent; [exact Hq|]; iFrame "Hs Ht"; iIntros "Hs Ht".
