(* ===== verification/CcTreeInsert.v ===== *)
(** * Insertion into the tree table

    The loop of [rebalance_after_insert] repairs the tree as [ins_fix] does,
    and [cc_treetable_add] inserts into the sorted list of entries. *)

From iris.proofmode Require Import proofmode.
From S2P Require Import Prelude CMem CState CHeap HeapLogic CcArray CcTreeTable RbTree CcTreeFacts.

Section Insert.
Context `{HA : !NodeAlloc rbnode} `{HU : !Uninit rbnode} `{HC : !KeyCmp} `{HL : !NodeAllocLaws rbnode}.
Implicit Types (tab : treetable) (cs : list frame) (t : tree).

(** ** One turn of the loop *)

Lemma turn_recolour e d tab cs p kp vp u g cg kg vg y t sp :
  is_red y = true -> is_leaf t = false ->
  focus tab (Fr d p Red kp vp u :: Fr e g cg kg vg y :: cs) t sp
  ⊢ hwp (insert_turn e tab (root_of (tt_sentinel tab) t))
      (λ r, ⌜r = (tab, g)⌝ ∧ focus tab cs (node e g Red kg vg (node d p Black kp vp t u) (paint Black y)) sp).
Proof.
  destruct tab as [rt s sz], t as [|z c k v l r], y as [|yy [] ky vy yl yr]; try done. intros _ _.
  unfold focus at 1. tsimpl. iIntros "[%Hr (Hs & Ht & Hp & Hu & Hg & Hy & Hc)]".
  iDestruct "Ht" as "[Hz Ht]". iDestruct "Hy" as "[Hy Hy']". unfold insert_turn.
  destruct d, e; tsimpl; trun; (iSplit; [done|]); (iSplit; [done|]); iFrame.
Qed.

Lemma turn_outer e tab cs p kp vp u g cg kg vg y t sp :
  is_red y = false -> is_leaf t = false ->
  focus tab (Fr e p Red kp vp u :: Fr e g cg kg vg y :: cs) t sp
  ⊢ hwp (insert_turn e tab (root_of (tt_sentinel tab) t))
      (λ r, ⌜r = (set_root (top cs p) tab, root_of (tt_sentinel tab) t)⌝ ∧
            focus r.1 (Fr e p Black kp vp (node e g Red kg vg u y) :: cs) t sp).
Proof.
  destruct tab as [rt s sz], t as [|z c k v l r]; [done|]. intros Hy _.
  unfold focus at 1. tsimpl. iIntros "[%Hr (Hs & Ht & Hp & Hu & Hg & Hy & Hc)]".
  iDestruct "Ht" as "[Hz Ht]".
  iDestruct (root_ne with "[$Hz $Hs $Hu]") as "[%Hzu (Hz & Hs & Hu)]". unfold insert_turn.
  destruct e; tsimpl; trun; iApply root_color; iFrame; iIntros "Hs Hy"; rw Hy; trun; iApply hwp_call.
  - iSplitL; [iApply (rotate_spec R _ cs g Red kg vg y p Black kp vp u (T z c k v l r) sp); tfocus|].
    iIntros (tab') "[-> H]". tret. iSplit; [done|]. by rw focus_plug.
  - iSplitL; [iApply (rotate_spec L _ cs g Red kg vg y p Black kp vp u (T z c k v l r) sp); tfocus|].
    iIntros (tab') "[-> H]". tret. iSplit; [done|]. by rw focus_plug.
Qed.

Lemma turn_inner e tab cs p kp vp u g cg kg vg y z cz kz vz t1 t2 sp :
  is_red y = false ->
  focus tab (Fr (other e) p Red kp vp u :: Fr e g cg kg vg y :: cs) (node e z cz kz vz t1 t2) sp
  ⊢ hwp (insert_turn e tab z)
      (λ r, ⌜r = (set_root (top cs z) tab, p)⌝ ∧
            focus r.1 cs (node e z Black kz vz (node e p Red kp vp u t1) (node e g Red kg vg t2 y)) sp).
Proof.
  destruct tab as [rt s sz]. intros Hy.
  unfold focus at 1. tsimpl. rw !tree_node !root_node. iIntros "[%Hr (Hs & (Hz & H1 & H2) & Hp & Hu & Hg & Hy & Hc)]".
  unfold insert_turn.
  destruct e; tsimpl; trun; iApply root_color; iFrame; iIntros "Hs Hy"; rw Hy; trun; iApply hwp_call.
  - iSplitL; [iApply (rotate_spec L _ (Fr L g cg kg vg y :: cs) p Red kp vp u z cz kz vz t1 t2 sp); tfocus|].
    iIntros (tab') "[-> [_ H]]". tsimpl. iDestruct "H" as "(Hs & (Hz & (Hp & Hu & H1) & H2) & Hg & Hy & Hc)". trun.
    iApply hwp_call. iSplitL.
    { iApply (rotate_spec R _ cs g Red kg vg y z Black kz vz t2 (T p Red kp vp u t1) sp). tfocus. }
    iIntros (tab') "[-> H]". tret. iSplit; [done|]. done.
  - iSplitL; [iApply (rotate_spec R _ (Fr R g cg kg vg y :: cs) p Red kp vp u z cz kz vz t1 t2 sp); tfocus|].
    iIntros (tab') "[-> [_ H]]". tsimpl. iDestruct "H" as "(Hs & (Hz & H2 & (Hp & H1 & Hu)) & Hg & Hy & Hc)". trun.
    iApply hwp_call. iSplitL.
    { iApply (rotate_spec L _ cs g Red kg vg y z Black kz vz t2 (T p Red kp vp t1 u) sp). tfocus. }
    iIntros (tab') "[-> H]". tret. iSplit; [done|]. done.
Qed.

(** ** The loop *)

(** The loop ends at a black parent. *)
Lemma insert_loop_end fuel tab cs t sp :
  red_parent cs = false -> is_leaf t = false ->
  focus tab cs t sp
  ⊢ hwp (insert_fix_loop (S fuel) tab (root_of (tt_sentinel tab) t)) (λ tab', ⌜tab' = tab⌝ ∧ focus tab cs t sp).
Proof.
  destruct tab as [rt s sz], t as [|z c k v l r]; [done|]. intros Hp _.
  unfold focus at 1. tsimpl. iIntros "[%Hr (Hs & [Hz Ht] & Hp)]". simpl.
  destruct cs as [|[d p [] kp vp u] cs]; [|done|].
  - trun. iSplit; [done|]. tfocus.
  - tsimpl. iDestruct "Hp" as "[Hp Hp']". destruct d; tsimpl; trun; (iSplit; [done|]); tfocus.
Qed.

(** The turn that is made below a red parent. *)
Lemma insert_loop_turn fuel tab d e p kp vp u g cg kg vg y cs t sp (Φ : treetable -> hpropI rbnode) :
  is_leaf t = false ->
  focus tab (Fr d p Red kp vp u :: Fr e g cg kg vg y :: cs) t sp ∗
  (focus tab (Fr d p Red kp vp u :: Fr e g cg kg vg y :: cs) t sp -∗
   hwp (r ← insert_turn e tab (root_of (tt_sentinel tab) t); insert_fix_loop fuel r.1 r.2) Φ)
  ⊢ hwp (insert_fix_loop (S fuel) tab (root_of (tt_sentinel tab) t)) Φ.
Proof.
  destruct tab as [rt s sz], t as [|z c k v l r]; [done|]. intros _.
  unfold focus at 1. tsimpl. iIntros "[[%Hr (Hs & [Hz Ht] & Hp & Hu & Hg & Hy & Hc)] HΦ]". simpl.
  iDestruct (root_ne with "[$Hp $Hs $Hy]") as "[%Hpy (Hp & Hs & Hy)]".
  destruct d, e; tsimpl; trun; (rw ?Z.eqb_refl ?Hpy); cbn iota; iApply "HΦ"; tfocus.
Qed.

(** The two shapes below a black uncle. *)
Lemma ins_fix_cases d e p kp vp u g cg kg vg y cs t t' :
  is_red y = false -> ins_fix (Fr d p Red kp vp u :: Fr e g cg kg vg y :: cs) t = Some t' ->
  d = e /\ t' = zip cs (plug (Fr e p Black kp vp (node e g Red kg vg u y)) t) \/
  d = other e /\ exists z cz kz vz t1 t2, t = node e z cz kz vz t1 t2 /\
    t' = zip cs (plug (Fr e z Black kz vz (node e g Red kg vg t2 y)) (node e p Red kp vp u t1)).
Proof.
  intros Hy. cbn [ins_fix]. rw Hy. destruct d, e.
  - intros [= <-]. by left.
  - destruct t as [|z cz kz vz t1 t2]; [done|]. intros [= <-]. right. split; [done|].
    exists z, cz, kz, vz, t2, t1. done.
  - destruct t as [|z cz kz vz t1 t2]; [done|]. intros [= <-]. right. split; [done|].
    exists z, cz, kz, vz, t1, t2. done.
  - intros [= <-]. by left.
Qed.

Lemma insert_loop_spec fuel : forall tab cs t t' sp,
  ins_fix cs t = Some t' -> is_leaf t = false -> (length cs < fuel)%nat ->
  focus tab cs t sp
  ⊢ hwp (insert_fix_loop fuel tab (root_of (tt_sentinel tab) t))
      (λ tab', ⌜tt_size tab' = tt_size tab /\ tt_sentinel tab' = tt_sentinel tab⌝ ∧ focus tab' [] t' sp).
Proof.
  induction fuel as [|fuel IH]; intros tab cs t t' sp Hf Ht Hl; [lia|].
  destruct (red_parent cs) eqn:Ep.
  - destruct cs as [|[d p [] kp vp u] [|[e g cg kg vg y] cs]]; try done. simpl in Hl.
    iIntros "H". iApply insert_loop_turn; [done|]. iFrame "H". iIntros "H".
    destruct (is_red y) eqn:Ey; [|destruct (ins_fix_cases _ _ _ _ _ _ _ _ _ _ _ _ _ _ Ey Hf)
      as [[-> ->]|[-> (z & cz & kz & vz & t1 & t2 & -> & ->)]]].
    + iApply hwp_call. iSplitL; [by iApply (turn_recolour with "H")|]. iIntros (r) "[-> H]". tsimpl.
      cbn [ins_fix] in Hf. rw Ey in Hf.
      pose proof (IH tab cs _ t' sp Hf) as IH'. rw root_node in IH'. iApply (IH' with "H"); [by destruct e|lia].
    + iApply hwp_call. iSplitL; [by iApply (turn_outer with "H")|]. iIntros ([tab1 z]) "[%Hr H]". injection Hr as -> ->. cbn [fst snd].
      iApply (IH (set_root (top cs p) tab) (Fr e p Black kp vp (node e g Red kg vg u y) :: cs) with "H");
        [done|done|simpl; lia].
    + rw root_node. iApply hwp_call. iSplitL; [by iApply (turn_inner with "H")|]. iIntros ([tab1 z1]) "[%Hr H]".
      injection Hr as -> ->. cbn [fst snd].
      change (node e z Black kz vz ?a ?b) with (plug (Fr e z Black kz vz b) a). rw -focus_plug.
      pose proof (IH (set_root (top cs z) tab) (Fr e z Black kz vz (node e g Red kg vg t2 y) :: cs)
        (node e p Red kp vp u t1) _ sp eq_refl) as IH'. rw root_node in IH'.
      iApply (IH' with "H"); [by destruct e|simpl; lia].
  - iIntros "H". iApply hwp_wand. iSplitL; [by iApply (insert_loop_end with "H")|].
    iIntros (tab') "[-> H]". iSplit; [done|]. iEval (rw focus_whole) in "H".
    assert (zip cs t = t') as -> by (by destruct cs as [|[? ? [] ? ? ?] ?]; simpl in *; simplify_eq). done.
Qed.

Lemma rebalance_insert_spec tab cs t t' sp :
  ins_fix cs t = Some t' -> is_leaf t = false ->
  focus tab cs t sp
  ⊢ hwp (rebalance_after_insert tab (root_of (tt_sentinel tab) t))
      (λ tab', ⌜tt_size tab' = tt_size tab /\ tt_sentinel tab' = tt_sentinel tab⌝ ∧
               focus tab' [] (paint Black t') sp).
Proof.
  intros Hf Ht. iIntros "H". unfold rebalance_after_insert. iApply hwp_bind. iApply focus_fuel. iFrame "H".
  iIntros (n Hn) "H". iApply hwp_call. iSplitL.
  { iApply (insert_loop_spec with "H"); [done|done|]. rw inorder_zip !length_app in Hn.
    pose proof (path_entries cs). lia. }
  iIntros (tab') "[%Hs [%Hr (Hs & Ht & Hp)]]". simpl in Hr. destruct t' as [|a c k v l r]; simpl.
  - rw Hr. trun. iSplit; [done|]. by tfocus.
  - iDestruct "Ht" as "[Ha Ht]". rw Hr. trun. iSplit; [done|]. by tfocus.
Qed.

(** ** Adding a key *)

Lemma add_loop_spec fuel key tab cs t sp :
  (height t < fuel)%nat ->
  focus tab cs t sp
  ⊢ hwp (add_loop fuel key (tt_sentinel tab) (root_of (tt_sentinel tab) t) (up (tt_sentinel tab) cs))
      (λ r, ⌜r.1 = root_of (tt_sentinel tab) (find_key key cs t).2 /\
             (is_leaf (find_key key cs t).2 = true -> r.2 = up (tt_sentinel tab) (find_key key cs t).1)⌝ ∧
            focus tab (find_key key cs t).1 (find_key key cs t).2 sp).
Proof.
  revert fuel cs. induction t as [|a c k v l IHl r IHr]; intros fuel cs Hf; destruct fuel as [|fuel]; try (simpl in Hf; lia).
  - iIntros "H". simpl. rw Z.eqb_refl. trun. by iSplit.
  - simpl in Hf. iIntros "[%Hr (Hs & Ht & Hp)]". cbn [add_loop find_key root_of].
    iDestruct (root_test _ _ (T a c k v l r) with "[$Hs $Ht]") as "[%Has [Hs Ht]]". tsimpl.
    iDestruct "Ht" as "(Ha & Hl & Hr)". simpl in Has. trun. destruct (key_cmp key k <? 0); [|destruct (0 <? key_cmp key k)].
    + trun. iApply (IHl fuel (Fr L a c k v r :: cs)); [lia|]. tfocus.
    + trun. iApply (IHr fuel (Fr R a c k v l :: cs)); [lia|]. tfocus.
    + trun. iSplit; [done|]. tfocus.
Qed.
Context `{HK : !KeyLaws}.

(** *** The tree that results *)

Lemma ok_insert tab tab' key val t t' :
  table_ok tab t -> (inorder t').*2 = ts_insert key val (inorder t).*2 ->
  tt_size tab' = zlen (inorder t') -> zlen (inorder t') < 2 ^ 32 -> rb_root t' -> table_ok tab' t'.
Proof using HK.
  intros Hok Hi Hs Hb Hr. split; [done..|]. rw Hi. by apply ts_insert_increasing, Hok.
Qed.

(** The key is in the table: its value changes. *)
Lemma found_value tab key val cs a c k v l r :
  table_ok tab (zip cs (T a c k v l r)) ->
  key_cmp key k = 0 -> Forall (is_below key) (before cs ++ inorder l).*2 ->
  table_ok tab (zip cs (T a c k val l r)) /\
  (inorder (zip cs (T a c k val l r))).*2 = ts_insert key val (inorder (zip cs (T a c k v l r))).*2.
Proof using HK.
  intros Hok Hk Hb.
  assert ((inorder (zip cs (T a c k val l r))).*2 = ts_insert key val (inorder (zip cs (T a c k v l r))).*2) as Hi.
  { rw !inorder_zip. simpl. rw -!(assoc_L (++)) !(assoc_L (++) (before cs)) !fmap_app /=.
    rw -fmap_app. by rw ts_insert_old. }
  split; [|done]. assert (zlen (inorder (zip cs (T a c k val l r))) = zlen (inorder (zip cs (T a c k v l r)))) as Hl
    by (rw !inorder_zip /= !length_app //=).
  apply (ok_insert tab tab key val _ _ Hok Hi); [by rw Hl; apply Hok..|].
  eapply rb_focus_value, Hok.
Qed.

(** It is not: a leaf is replaced. *)
Lemma found_leaf key val cs n c t' :
  Forall (is_below key) (before cs).*2 -> Forall (is_above key) (after_focus cs).*2 ->
  inorder t' = inorder (zip cs (T n c key val E E)) ->
  (inorder t').*2 = ts_insert key val (inorder (zip cs E)).*2 /\
  zlen (inorder t') = zlen (inorder (zip cs E)) + 1.
Proof.
  intros Hb Ha Hi. rw Hi !inorder_zip /= !fmap_app /=. split; [by rw ts_insert_new|].
  rw !length_app /=. lia.
Qed.

(** *** The function *)

(** The node is attached: memory after the parent is linked to it. *)
Lemma attach_spec {A} s sz cs n key val sp (K : unit -> M (heap rbnode) A) (Φ : A -> hpropI rbnode) :
  cs <> [] ->
  (match cs with f :: _ => f_side f = if key_cmp key (f_key f) <? 0 then L else R | [] => True end) ->
  (s ↦ sent sp ∗ path_at s s cs s ∗ n ↦ mk_rb key val RB_RED (up s cs) s s) ∗
  (focus (mk_tt (top cs s) s sz) cs (T n Red key val E E) sp -∗ hwp (K tt) Φ)
  ⊢ hwp (k ← field rb_key (up s cs);
         (if key_cmp key k <? 0 then update (up s cs) (set_child L n) else update (up s cs) (set_child R n)) ≫= K) Φ.
Proof.
  destruct cs as [|[d p cp kp vp u] cs]; [done|]. intros _ Hd. tsimpl.
  iIntros "[(Hs & (Hp & Hu & Hc) & Hn) HΦ]". simpl in Hd.
  destruct d; tsimpl; tfield; (destruct (key_cmp key kp <? 0); try done; []); trun; iApply "HΦ"; tfocus.
Qed.

Lemma tt_add_spec tab key val xs :
  zlen xs + 1 < 2 ^ 32 ->
  table_at tab xs
  ⊢ hwp (cc_treetable_add tab key val)
      (λ r, (⌜r = (CC_ERR_ALLOC, tab) /\ ts_split key xs = None⌝ ∧ table_at tab xs) ∨
            (⌜r.1 = CC_OK⌝ ∧ table_at r.2 (ts_insert key val xs))).
Proof using HL HK.
  iIntros (Hb) "(%t & %sp & %Ht & H)". destruct Ht as [Hok <-]. unfold cc_treetable_add.
  iDestruct (focus_root with "H") as "[%Hroot H]". rw Hroot. rw length_fmap in Hb.
  iApply hwp_bind. iApply focus_fuel. iFrame "H". iIntros (fuel Hfuel) "H".
  pose proof (add_loop_spec fuel key tab [] t sp) as Hloop. cbn [up] in Hloop.
  iApply hwp_call. iSplitL.
  { iApply (Hloop with "H"). pose proof (height_entries t). simpl in Hfuel. lia. }
  clear Hloop. iIntros ([x y]) "[%Hxy H]". destruct Hxy as [Hx Hy]. cbn [fst snd] in *.
  pose proof (find_key_zip key [] t) as Hz. pose proof (find_key_side key [] t) as Hside.
  pose proof (find_key_spec key t []) as Hspec. destruct (find_key key [] t) as [cs t'] eqn:Ef.
  pose proof (find_key_split key t cs t' (ok_keys _ _ Hok) Ef) as Hnew.
  specialize (Hspec _ _ eq_refl (ok_keys _ _ Hok) (Forall_nil_2 _) (Forall_nil_2 _)). simpl in Hz. subst t.
  cbn [fst snd] in *. destruct t' as [|a c k v l r]; simpl in Hx; subst x.
  - rw Z.eqb_refl. cbn [negb]. cbn iota. rw Hy; [|done]. destruct Hspec as [Hbelow Habove].
    iApply hwp_bind. iApply hwp_malloc. iSplit.
    { cbn iota. trun. iLeft. iSplit; [by iPureIntro|]. iApply (table_done _ (zip cs E) sp); [done|done|]. by rw -focus_whole. }
    iIntros (n junk) "Hn". iDestruct "H" as "[%Hr (Hs & _ & Hp)]". tsimpl.
    iDestruct (pointsto_not_null with "Hn") as "[%Hnn Hn]". rw (proj2 (Z.eqb_neq _ _) Hnn).
    iDestruct (up_test with "[$Hs $Hp]") as "[%Hps [Hs Hp]]". destruct tab as [rt s sz]. trun.
    pose proof (ok_size _ _ Hok) as Hsz. cbn [tt_size] in Hsz. cbn [tt_root tt_sentinel root_of] in Hr. subst rt.
    assert (u32 (sz + 1) = sz + 1) as Hsz' by (apply wrap_id; unfold fits; lia).
    destruct cs as [|f cs].
    + cbn [is_nil]. cbn iota. trun. iRight. iSplit; [done|].
      destruct (found_leaf key val [] n Black (T n Black key val E E)) as [H1 H2]; [done..|].
      iApply (table_done _ (T n Black key val E E) sp); [|done|].
      * apply (ok_insert _ _ key val _ _ Hok H1); [cbn [tt_size set_root]; rw Hsz'; simpl in *; lia|simpl; lia|]. split; [done|]. by exists 1%nat, 0%nat.
      * iSplit; [done|]. tsimpl. iFrame.
    + destruct (rb_attach (f :: cs) n key val (ok_rb _ _ Hok)) as (t' & Hfix & Hrb & Hin).
      destruct (found_leaf key val (f :: cs) n Red t' Hbelow Habove Hin) as [H1 H2].
      cbn [is_nil]. cbn iota. iApply hwp_bind. iApply hwp_update. iFrame. iIntros "Hn".
      iApply (attach_spec s (u32 (sz + 1)) (f :: cs)); [done|exact (Hside _ I eq_refl)|]. iFrame. iIntros "H".
      iApply hwp_call. iSplitL; [by iApply (rebalance_insert_spec with "H")|].
      iIntros (tab') "[%Htab H]". tret. destruct Htab as [Ht1 Ht2]. simpl in Ht1, Ht2.
      iRight. iSplit; [done|]. iApply (table_done with "H"); [|by rw inorder_paint].
      apply (ok_insert _ _ key val _ _ Hok); rw ?inorder_paint; [done|lia|lia|done].
  - iDestruct "H" as "[%Hr (Hs & Ht & Hp)]". tsimpl. iDestruct "Ht" as "[Ha Ht]".
    iDestruct (cell_ne with "[$Ha $Hs]") as "[%Has [Ha Hs]]". trun. iRight. iSplit; [done|].
    destruct Hspec as [Hk Hbelow]. destruct (found_value tab key val cs a c k v l r Hok Hk Hbelow) as [H1 H2].
    iApply (table_done _ (zip cs (T a c k val l r)) sp); [done|done|]. rw -focus_whole. tfocus.
Qed.
End Insert.
