(* ===== verification/CcTreeDelete.v ===== *)
(** * Removal from the tree table

    [rebalance_after_delete] repairs the tree as [del_fix] does, and
    [remove_node] removes the entry of its node, as [del_node] does. *)

From iris.proofmode Require Import proofmode.
From Stdlib Require Import Sorted.
From S2P Require Import Prelude CMem CState CHeap HeapLogic CcArray CcTreeTable RbTree CcTreeFacts.

Section Delete.
Context `{HA : !NodeAlloc rbnode} `{HU : !Uninit rbnode} `{HC : !KeyCmp} `{HL : !NodeAllocLaws rbnode}.
Implicit Types (tab : treetable) (cs : list frame) (t : tree).

(** ** One turn of the loop *)

(** The table has the same sentinel and size. *)
Definition same_table tab tab' : Prop :=
  tt_sentinel tab' = tt_sentinel tab /\ tt_size tab' = tt_size tab.

Lemma black_both d tab cs p cp kp vp t aw cw kw vw near far sp :
  is_red near = false -> is_red far = false -> (is_leaf t = true -> sp = p) ->
  focus tab (Fr d p cp kp vp (node d aw cw kw vw near far) :: cs) t sp
  ⊢ hwp (delete_black d tab (root_of (tt_sentinel tab) t) aw)
      (λ r, ⌜r = (tab, p)⌝ ∧ focus tab cs (node d p cp kp vp t (node d aw Red kw vw near far)) sp).
Proof.
  destruct tab as [rt s sz]. intros Hn Hf Hq. unfold focus at 1. tsimpl. rw tree_node root_node.
  iIntros "[%Hr (Hs & Ht & Hp & (Hw & Hn & Hf) & Hc)]". unfold delete_black.
  destruct d; tsimpl; trun; tcolor "Hn"; rw Hn; trun; tcolor "Hf"; rw Hf; trun; tparent Hq; trun;
    (iSplit; [done|]); tfocus.
Qed.

Lemma black_far d tab cs p cp kp vp t aw cw kw vw near far sp :
  is_red far = true -> (is_leaf t = true -> sp = p) ->
  focus tab (Fr d p cp kp vp (node d aw cw kw vw near far) :: cs) t sp
  ⊢ hwp (delete_black d tab (root_of (tt_sentinel tab) t) aw)
      (λ r, ⌜same_table tab r.1 /\ r.2 = tt_root r.1⌝ ∧
            focus r.1 cs (node d aw cp kw vw (node d p Black kp vp t near) (paint Black far)) sp).
Proof.
  destruct tab as [rt s sz], far as [|f [] kf vf fl fr]; try done. intros _ Hq.
  unfold focus at 1. tsimpl. rw tree_node root_node.
  iIntros "[%Hr (Hs & Ht & Hp & (Hw & Hn & Hf) & Hc)]". tsimpl. iDestruct "Hf" as "(Hf & Hfl & Hfr)".
  unfold delete_black.
  destruct d; tsimpl; trun; tcolor "Hn"; destruct (is_red near); trun; tparent Hq; trun; tparent Hq; trun;
    tparent Hq; trun; iApply hwp_call;
    (iSplitL; [first [iApply (rotate_spec L _ cs p Black kp vp t aw cp kw vw near (T f Black kf vf fl fr) sp)
                     |iApply (rotate_spec R _ cs p Black kp vp t aw cp kw vw near (T f Black kf vf fl fr) sp)];
               tfocus|]);
    iIntros (tab') "[-> H]"; tret; (iSplit; [done|]); done.
Qed.

Lemma black_near d tab cs p cp kp vp t aw cw kw vw b kb vb bn bf far sp :
  is_red far = false -> (is_leaf t = true -> sp = p) ->
  focus tab (Fr d p cp kp vp (node d aw cw kw vw (node d b Red kb vb bn bf) far) :: cs) t sp
  ⊢ hwp (delete_black d tab (root_of (tt_sentinel tab) t) aw)
      (λ r, ⌜same_table tab r.1 /\ r.2 = tt_root r.1⌝ ∧
            focus r.1 cs (node d b cp kb vb (node d p Black kp vp t bn) (node d aw Black kw vw bf far)) sp).
Proof.
  destruct tab as [rt s sz]. intros Hf Hq.
  unfold focus at 1. tsimpl. rw !tree_node !root_node.
  iIntros "[%Hr (Hs & Ht & Hp & (Hw & (Hb & Hbn & Hbf) & Hf) & Hc)]". unfold delete_black.
  destruct d; tsimpl; trun; tcolor "Hf"; rw Hf; trun; iApply hwp_call.
  - iSplitL; [iApply (rotate_spec R _ (Fr R p cp kp vp t :: cs) aw Red kw vw far b Black kb vb bf bn sp); tfocus|].
    iIntros (tab') "[-> [_ H]]". tsimpl. iDestruct "H" as "(Hs & (Hb & Hbn & (Hw & Hbf & Hf)) & Hp & Ht & Hc)".
    tparent Hq. trun. tparent Hq. trun. tparent Hq. trun. tparent Hq. iApply hwp_call.
    iSplitL; [iApply (rotate_spec L _ cs p Black kp vp t b cp kb vb bn (T aw Black kw vw bf far) sp); tfocus|].
    iIntros (tab') "[-> H]". tret. by iSplit.
  - iSplitL; [iApply (rotate_spec L _ (Fr L p cp kp vp t :: cs) aw Red kw vw far b Black kb vb bf bn sp); tfocus|].
    iIntros (tab') "[-> [_ H]]". tsimpl. iDestruct "H" as "(Hs & (Hb & (Hw & Hf & Hbf) & Hbn) & Hp & Ht & Hc)".
    tparent Hq. trun. tparent Hq. trun. tparent Hq. trun. tparent Hq. iApply hwp_call.
    iSplitL; [iApply (rotate_spec R _ cs p Black kp vp t b cp kb vb bn (T aw Black kw vw far bf) sp); tfocus|].
    iIntros (tab') "[-> H]". tret. by iSplit.
Qed.

(** The turn below a black sibling, in terms of [sibling_fix]. *)
Lemma delete_black_spec d tab cs p cp kp vp t w res sp :
  sibling_fix d p cp kp vp t w = Some res -> (is_leaf t = true -> sp = p) ->
  focus tab (Fr d p cp kp vp w :: cs) t sp
  ⊢ hwp (delete_black d tab (root_of (tt_sentinel tab) t) (root_of (tt_sentinel tab) w))
      (λ r, match res with
            | Up u => ⌜r = (tab, p)⌝ ∧ focus tab cs u sp
            | Stop u => ⌜same_table tab r.1 /\ r.2 = tt_root r.1⌝ ∧ focus r.1 cs u sp
            end).
Proof.
  intros Hfix Hq. unfold sibling_fix in Hfix.
  destruct (open d w) as [[[[[[aw cw] kw] vw] near] far]|] eqn:Ew; [|done].
  apply open_spec in Ew as ->. rw root_node. destruct (is_red far) eqn:Ef.
  - rw andb_false_r in Hfix. injection Hfix as <-. by apply black_far.
  - destruct (is_red near) eqn:En; simpl in Hfix.
    + destruct (open d near) as [[[[[[b cb] kb] vb] bn] bf]|] eqn:Eb; [|done]. injection Hfix as <-.
      apply open_spec in Eb as ->. rw is_red_node in En. destruct cb; [|done]. by apply black_near.
    + injection Hfix as <-. by apply black_both.
Qed.

Lemma turn_black d tab cs p cp kp vp t w res sp :
  is_red w = false -> sibling_fix d p cp kp vp t w = Some res -> (is_leaf t = true -> sp = p) ->
  focus tab (Fr d p cp kp vp w :: cs) t sp
  ⊢ hwp (delete_turn d tab (root_of (tt_sentinel tab) t))
      (λ r, match res with
            | Up u => ⌜r = (tab, p)⌝ ∧ focus tab cs u sp
            | Stop u => ⌜same_table tab r.1 /\ r.2 = tt_root r.1⌝ ∧ focus r.1 cs u sp
            end).
Proof.
  intros Hw Hfix Hq. iIntros "H". pose proof (delete_black_spec d tab cs p cp kp vp t w res sp Hfix Hq) as Hspec.
  destruct tab as [rt s sz]. unfold focus at 1. tsimpl. iDestruct "H" as "[%Hr (Hs & Ht & Hp & Hw & Hc)]".
  unfold delete_turn. tparent Hq. destruct d; tsimpl; tfield; tcolor "Hw"; rw Hw; trun; iApply Hspec; tfocus.
Qed.

Lemma turn_red d tab cs p cp kp vp t aw kw vw near far res sp :
  sibling_fix d p Red kp vp t near = Some res -> (is_leaf t = true -> sp = p) ->
  focus tab (Fr d p cp kp vp (node d aw Red kw vw near far) :: cs) t sp
  ⊢ hwp (delete_turn d tab (root_of (tt_sentinel tab) t))
      (λ r, match res with
            | Up u => ⌜same_table tab r.1 /\ r.2 = p⌝ ∧ focus r.1 (Fr d aw Black kw vw far :: cs) u sp
            | Stop u => ⌜same_table tab r.1 /\ r.2 = tt_root r.1⌝ ∧ focus r.1 (Fr d aw Black kw vw far :: cs) u sp
            end).
Proof.
  intros Hfix Hq. iIntros "H".
  pose proof (delete_black_spec d (set_root (top cs aw) tab) (Fr d aw Black kw vw far :: cs) p Red kp vp t near res sp Hfix Hq) as Hspec.
  destruct tab as [rt s sz]. unfold focus at 1. tsimpl. rw tree_node root_node.
  iDestruct "H" as "[%Hr (Hs & Ht & Hp & (Hw & Hn & Hf) & Hc)]". unfold delete_turn. tparent Hq.
  destruct d; tsimpl; tfield; tfield; trun; tparent Hq; trun; tparent Hq; iApply hwp_call.
  - iSplitL; [iApply (rotate_spec L _ cs p Red kp vp t aw Black kw vw near far sp); tfocus|].
    iIntros (tab') "[-> [_ H]]". tsimpl. iDestruct "H" as "(Hs & (Hw & (Hp & Ht & Hn) & Hf) & Hc)".
    tparent Hq. trun. iApply hwp_wand. iSplitL; [iApply Hspec; tfocus|]. iIntros (r) "H".
    destruct res; [|done]. iDestruct "H" as "[-> H]". by iSplit.
  - iSplitL; [iApply (rotate_spec R _ cs p Red kp vp t aw Black kw vw near far sp); tfocus|].
    iIntros (tab') "[-> [_ H]]". tsimpl. iDestruct "H" as "(Hs & (Hw & Hf & (Hp & Hn & Ht)) & Hc)".
    tparent Hq. trun. iApply hwp_wand. iSplitL; [iApply Hspec; tfocus|]. iIntros (r) "H".
    destruct res; [|done]. iDestruct "H" as "[-> H]". by iSplit.
Qed.

(** ** The loop *)

(** The focus is not the root of the table. *)
Lemma top_ne s y t q q' cs f hole :
  s ↦ y ∗ tree_at s t q ∗ path_at s q' (f :: cs) hole
  ⊢ ⌜(root_of s t =? top (f :: cs) hole) = false⌝ ∧ (s ↦ y ∗ tree_at s t q ∗ path_at s q' (f :: cs) hole).
Proof.
  revert f hole. induction cs as [|g cs IH]; intros f hole; iIntros "(Hs & Ht & Hp)"; cbn [path_at top];
    iDestruct "Hp" as "(Hf & Hu & Hc)".
  - iDestruct (root_ne with "[$Hf $Hs $Ht]") as "[%H ($ & $ & $)]". iFrame. iSplit; [|done].
    iPureIntro. by rw Z.eqb_sym.
  - iDestruct (IH g (f_addr f) with "[$Hs $Ht $Hc]") as "[%H ($ & $ & Hc)]". iSplit; [done|]. iFrame.
Qed.

(** Two trees side by side, one of them not empty. *)
Lemma roots_ne s y t q w q' :
  is_leaf w = false ->
  s ↦ y ∗ tree_at s t q ∗ tree_at s w q'
  ⊢ ⌜(root_of s t =? root_of s w) = false⌝ ∧ (s ↦ y ∗ tree_at s t q ∗ tree_at s w q').
Proof.
  destruct w as [|a c k v l r]; [done|]. iIntros (_) "(Hs & Ht & Hw)". tsimpl. iDestruct "Hw" as "[Ha Hw]".
  iDestruct (root_ne with "[$Ha $Hs $Ht]") as "[%H ($ & $ & $)]". iFrame. iSplit; [|done].
  iPureIntro. by rw Z.eqb_sym.
Qed.

(** What the loop leaves: the node to paint black. *)
Definition loop_done tab t' sp (r : treetable * Z) : hpropI rbnode :=
  (∃ cs t, ⌜same_table tab r.1 /\ r.2 = root_of (tt_sentinel tab) t /\ zip cs (paint Black t) = t'⌝ ∧
           focus r.1 cs t sp)%I.

Lemma delete_loop_end fuel tab cs t sp :
  is_red t = true \/ cs = [] ->
  focus tab cs t sp
  ⊢ hwp (delete_loop (S fuel) tab (root_of (tt_sentinel tab) t)) (loop_done tab (zip cs (paint Black t)) sp).
Proof.
  intros Hend. iIntros "[%Hr (Hs & Ht & Hp)]". cbn [delete_loop]. destruct (root_of _ t =? tt_root tab) eqn:Ex.
  - tret. iExists cs, t. iSplit; [done|]. by tfocus.
  - destruct Hend as [Ht|Hcs]; [|subst cs; rw Hr Z.eqb_refl in Ex; done].
    tcolor "Ht". rw Ht. trun. iExists cs, t. iSplit; [done|]. by tfocus.
Qed.

Lemma delete_loop_turn fuel tab d p cp kp vp w cs t sp (Φ : treetable * Z -> hpropI rbnode) :
  is_red t = false -> is_leaf w = false -> (is_leaf t = true -> sp = p) ->
  focus tab (Fr d p cp kp vp w :: cs) t sp ∗
  (focus tab (Fr d p cp kp vp w :: cs) t sp -∗
   hwp (r ← delete_turn d tab (root_of (tt_sentinel tab) t); delete_loop fuel r.1 r.2) Φ)
  ⊢ hwp (delete_loop (S fuel) tab (root_of (tt_sentinel tab) t)) Φ.
Proof.
  intros Ht Hw Hq. destruct tab as [rt s sz]. unfold focus at 1. tsimpl.
  iIntros "[[%Hr (Hs & Ht & Hp & Hw & Hc)] HΦ]". cbn [delete_loop]. tsimpl.
  iAssert (path_at s s (Fr d p cp kp vp w :: cs) (root_of s t)) with "[Hp Hw Hc]" as "Hp"; [tsimpl; iFrame|].
  iDestruct (top_ne with "[$Hs $Ht $Hp]") as "[%Hx (Hs & Ht & Hp)]". tsimpl.
  iDestruct "Hp" as "(Hp & Hw & Hc)". cbn [top f_addr] in Hx. rw Hr Hx.
  tcolor "Ht". rw Ht. trun. tparent Hq.
  iDestruct (roots_ne _ _ t _ w with "[$Hs $Ht $Hw]") as "[%Hxw (Hs & Ht & Hw)]"; [done|].
  destruct d; tsimpl; iApply hwp_field; iFrame "Hp"; iIntros "Hp"; tsimpl; (rw ?Z.eqb_refl ?Hxw); cbn iota;
    iApply "HΦ"; tfocus.
Qed.

Lemma loop_done_same tab tab1 t' sp r :
  same_table tab tab1 -> loop_done tab1 t' sp r ⊢ loop_done tab t' sp r.
Proof.
  intros [H1 H2]. iIntros "(%cs & %t & %H & Hf)". destruct H as ([H3 H4] & H5 & H6). iExists cs, t.
  iSplit; [|done]. iPureIntro. split_and!; [split; congruence|by rw -H1|done].
Qed.

(** The parent moves up with the focus. *)
Lemma up_root s d p cp kp vp t w u :
  sibling_fix d p cp kp vp t w = Some (Up u) ->
  root_of s u = p /\ is_leaf u = false /\ is_red u = color_red cp.
Proof.
  unfold sibling_fix. destruct (open d w) as [[[[[[aw cw] kw] vw] near] far]|]; [|done].
  destruct (is_red near), (is_red far); simpl; intros H; simplify_eq; try by destruct (open d near) as [[[[[[? ?] ?] ?] ?] ?]|].
  split_and!; [apply root_node|by destruct d|by destruct cp; apply is_red_node].
Qed.

(** The loop stops at the root. *)
Lemma loop_at_root fuel tab cs u sp :
  focus tab cs u sp
  ⊢ hwp (delete_loop (S fuel) tab (tt_root tab)) (loop_done tab (paint Black (zip cs u)) sp).
Proof.
  rw focus_whole. iIntros "H". iDestruct (focus_root with "H") as "[%Hr H]". rw Hr.
  iApply (delete_loop_end with "H"). by right.
Qed.

Lemma delete_loop_spec fuel : forall tab cs t t' sp,
  del_fix cs t = Some t' -> (is_leaf t = true -> sp = up (tt_sentinel tab) cs) -> (S (length cs) < fuel)%nat ->
  focus tab cs t sp ⊢ hwp (delete_loop fuel tab (root_of (tt_sentinel tab) t)) (loop_done tab t' sp).
Proof.
  induction fuel as [|fuel IH]; intros tab cs t t' sp Hf Hq Hl; [lia|].
  destruct fuel as [|fuel]; [simpl in Hl; lia|].
  destruct (is_red t) eqn:Er.
  { assert (zip cs (paint Black t) = t') as <- by (destruct cs as [|[]]; simpl in Hf; rw Er in Hf; by injection Hf).
    apply delete_loop_end. by left. }
  destruct cs as [|[d p cp kp vp w] cs]; cbn [del_fix] in Hf; rw Er in Hf.
  { injection Hf as <-. apply (delete_loop_end _ _ []). by right. }
  simpl in Hl. cbn [up f_addr] in Hq.
  assert (is_leaf w = false) as Hw by (by destruct w).
  iIntros "H". iApply delete_loop_turn; [done|done|done|]. iFrame "H". iIntros "H".
  destruct (open d w) as [[[[[[aw cw] kw] vw] near] far]|] eqn:Ew; [|done]. destruct cw.
  - apply open_spec in Ew as ->. destruct (sibling_fix d p Red kp vp t near) as [res|] eqn:Ef; [|done].
    iApply hwp_call. iSplitL; [by iApply (turn_red with "H")|]. iIntros ([tab1 x]) "H". destruct res as [u|u];
      injection Hf as <-; iDestruct "H" as "[%Hs H]"; destruct Hs as [Hs Hx]; cbn [fst snd] in *; subst x;
      iApply hwp_wand; iIntros; (iSplitL; [|iIntros (r) "Hr"; by iApply loop_done_same]).
    + destruct (up_root (tt_sentinel tab1) _ _ _ _ _ _ _ _ Ef) as (<- & _ & Hu).
      iApply (delete_loop_end with "H"). by left.
    + iApply (loop_at_root with "H").
  - assert (is_red w = false) as Hwr by (by apply open_spec in Ew as ->; rw is_red_node).
    destruct (sibling_fix d p cp kp vp t w) as [res|] eqn:Ef; [|done].
    iApply hwp_call. iSplitL; [by iApply (turn_black with "H")|]. iIntros ([tab1 x]) "H". destruct res as [u|u];
      iDestruct "H" as "[%Hs H]"; cbn [fst snd] in *.
    + injection Hs as -> ->. destruct (up_root (tt_sentinel tab) _ _ _ _ _ _ _ _ Ef) as (<- & Hu & _).
      iApply (IH with "H"); [done|by rw Hu|lia].
    + injection Hf as <-. destruct Hs as [Hs ->]. iApply hwp_wand.
      iSplitL; [iApply (loop_at_root with "H")|]. iIntros (r) "Hr". by iApply loop_done_same.
Qed.

Lemma rebalance_delete_spec tab cs t t' sp :
  del_fix cs t = Some t' -> (is_leaf t = true -> sp = up (tt_sentinel tab) cs) ->
  focus tab cs t sp
  ⊢ hwp (rebalance_after_delete tab (root_of (tt_sentinel tab) t))
      (λ tab', ⌜same_table tab tab'⌝ ∧ focus tab' [] t' sp).
Proof.
  intros Hf Hq. iIntros "H". unfold rebalance_after_delete. iApply hwp_bind. iApply focus_fuel. iFrame "H".
  iIntros (n Hn) "H". iApply hwp_call. iSplitL.
  { iApply (delete_loop_spec with "H"); [done|done|]. rw inorder_zip !length_app in Hn.
    pose proof (path_entries cs). lia. }
  iIntros ([tab1 x]) "(%cs1 & %t1 & %H & H)". destruct H as ([Hs1 Hs2] & Hx & <-). cbn [fst snd] in *. subst x.
  rw -Hs1. destruct tab1 as [rt s sz]. iDestruct "H" as "[%Hr (Hs & Ht & Hp)]". tsimpl.
  destruct t1 as [|a c k v l r]; tsimpl.
  - trun. iSplit; [done|]. rw -focus_whole. tfocus.
  - iDestruct "Ht" as "[Ha Ht]". trun. iSplit; [done|]. rw -focus_whole. tfocus.
Qed.
End Delete.
