(* ===== verification/CcTreeRead.v ===== *)
(** * Reading the tree table

    Walking down to a key or to an end, to the neighbour of a node, and through
    the whole table; none of it changes the memory. *)

From iris.proofmode Require Import proofmode.
From Stdlib Require Import Sorted.
From S2P Require Import Prelude CMem CState CHeap HeapLogic CcArray CcTreeTable RbTree CcTreeFacts.

Section Read.
Context `{HA : !NodeAlloc rbnode} `{HU : !Uninit rbnode} `{HC : !KeyCmp} `{HL : !NodeAllocLaws rbnode}.
Implicit Types (tab : treetable) (cs : list frame) (t : tree).

(** ** The ends *)

Definition end_addr (s : Z) (d : side) t : Z :=
  match end_path d t with Some (_, (y, _, _, _, _)) => y | None => s end.

Lemma end_addr_step s d a c k v t1 t2 :
  end_addr s d (node d a c k v t1 t2) = if is_leaf t1 then a else end_addr s d t1.
Proof.
  unfold end_addr. destruct d; simpl.
  - destruct (end_path L t1) as [[p [[[[y ?] ?] ?] ?]]|] eqn:Ee; [by destruct t1|]. by apply end_path_none in Ee as ->.
  - destruct (end_path R t1) as [[p [[[[y ?] ?] ?] ?]]|] eqn:Ee; [by destruct t1|]. by apply end_path_none in Ee as ->.
Qed.

Lemma node_cases d t : t = E \/ exists a c k v t1 t2, t = node d a c k v t1 t2.
Proof. destruct t as [|a c k v l r]; [by left|right]. destruct d; eauto 10. Qed.

Lemma height_node d a c k v t1 t2 : height (node d a c k v t1 t2) = S (Nat.max (height t1) (height t2)).
Proof. destruct d; simpl; lia. Qed.

Lemma descend_spec fuel : forall d tab cs t sp,
  is_leaf t = false -> (height t <= fuel)%nat ->
  focus tab cs t sp
  ⊢ hwp (descend fuel d (tt_sentinel tab) (root_of (tt_sentinel tab) t))
      (λ n, ⌜n = end_addr (tt_sentinel tab) d t⌝ ∧ focus tab cs t sp).
Proof.
  induction fuel as [|fuel IH]; intros d tab cs t sp Ht Hf;
    destruct (node_cases d t) as [->|(a & c & k & v & t1 & t2 & ->)]; try done; rw height_node in Hf; [lia|].
  clear Ht. rw root_node end_addr_step. iIntros "H".
  iAssert (focus tab (Fr d a c k v t2 :: cs) t1 sp) with "[H]" as "H"; [by rw focus_plug|].
  pose proof (IH d tab (Fr d a c k v t2 :: cs) t1 sp) as IH'.
  destruct tab as [rt s sz]. iDestruct "H" as "[%Hr (Hs & Ht & Hp)]". tsimpl. iDestruct "Hp" as "(Ha & Hu & Hc)".
  iDestruct (root_test with "[$Hs $Ht]") as "[%Ht [Hs Ht]]". cbn [descend]. tsimpl.
  destruct d; tsimpl; tfield; rw Ht; (destruct (is_leaf t1) eqn:El;
    [trun; (iSplit; [done|]); tfocus|]).
  - iApply hwp_wand. iSplitL; [iApply IH'; [done|lia|tfocus]|]. iIntros (n) "[-> H]". iSplit; [done|]. by rw focus_plug.
  - iApply hwp_wand. iSplitL; [iApply IH'; [done|lia|tfocus]|]. iIntros (n) "[-> H]". iSplit; [done|]. by rw focus_plug.
Qed.

Lemma tree_extreme_spec d tab cs t sp :
  focus tab cs t sp
  ⊢ hwp (tree_extreme d tab (root_of (tt_sentinel tab) t))
      (λ n, ⌜n = end_addr (tt_sentinel tab) d t⌝ ∧ focus tab cs t sp).
Proof.
  iIntros "[%Hr (Hs & Ht & Hp)]". iDestruct (root_test with "[$Hs $Ht]") as "[%Ht [Hs Ht]]".
  unfold tree_extreme. rw Ht. destruct (is_leaf t) eqn:El.
  - destruct t; [|done]. tret. iSplit; [done|]. by iSplit; [|iFrame].
  - iApply hwp_bind. iApply (focus_fuel tab cs t sp). iSplitL; [iSplit; [done|iFrame]|]. iIntros (n Hn) "H".
    iApply (descend_spec with "H"); [done|]. pose proof (height_entries t). rw inorder_zip !length_app in Hn. lia.
Qed.

(** ** Searching a key *)

Definition found (t : tree) : Z := match t with E => NULL | T a _ _ _ _ _ => a end.

Lemma key_loop_spec fuel : forall key tab cs t sp,
  is_leaf t = false -> (height t <= fuel)%nat ->
  focus tab cs t sp
  ⊢ hwp (key_loop fuel key (tt_sentinel tab) (root_of (tt_sentinel tab) t))
      (λ n, ⌜n = found (find_key key cs t).2⌝ ∧ focus tab (find_key key cs t).1 (find_key key cs t).2 sp).
Proof.
  induction fuel as [|fuel IH]; intros key tab cs t sp Ht Hf; destruct t as [|a c k v l r]; try done; simpl in Hf; [lia|].
  clear Ht. destruct tab as [rt s sz]. iIntros "[%Hr (Hs & Ht & Hp)]". tsimpl.
  iDestruct "Ht" as "(Ha & Hl & Hr)". cbn [key_loop find_key].
  iDestruct (root_test with "[$Hs $Hl]") as "[%Hl [Hs Hl]]".
  iDestruct (root_test with "[$Hs $Hr]") as "[%Hrr [Hs Hr]]". tfield.
  destruct (key_cmp key k <? 0); [|destruct (0 <? key_cmp key k)].
  - tfield. rw Hl. destruct l as [|al cl kl vl ll rl]; cbn [is_leaf]; cbn iota.
    + trun. iSplit; [done|]. tfocus.
    + iApply (IH key (mk_tt rt s sz) (Fr L a c k v r :: cs)); [done|lia|]. tfocus.
  - tfield. rw Hrr. destruct r as [|ar cr kr vr lr rr]; cbn [is_leaf]; cbn iota.
    + trun. iSplit; [done|]. tfocus.
    + iApply (IH key (mk_tt rt s sz) (Fr R a c k v l :: cs)); [done|lia|]. tfocus.
  - trun. iSplit; [done|]. tfocus.
Qed.

(** The path and the subtree a search ends at. *)
Lemma find_node_spec key tab t sp :
  table_ok tab t ->
  focus tab [] t sp
  ⊢ hwp (get_tree_node_by_key tab key)
      (λ n, ⌜n = found (find_key key [] t).2⌝ ∧ focus tab (find_key key [] t).1 (find_key key [] t).2 sp).
Proof.
  intros Hok. iIntros "H". unfold get_tree_node_by_key. rw (ok_size _ _ Hok).
  iDestruct (focus_root with "H") as "[%Hr H]". rw Hr. destruct t as [|a c k v l r].
  - simpl. tret. by iSplit.
  - assert ((zlen (inorder (T a c k v l r)) =? 0) = false) as ->.
    { apply Z.eqb_neq. simpl. rw length_app /=. lia. }
    iApply hwp_bind. iApply focus_fuel. iFrame "H". iIntros (n Hn) "H".
    iApply (key_loop_spec with "H"); [done|]. pose proof (height_entries (T a c k v l r)). cbn [zip] in Hn. lia.
Qed.

(** ** Neighbours *)

Definition addr_or (s : Z) (e : option entry) : Z := default s (fst <$> e).

Lemma ascend_spec fuel : forall d tab cs t sp,
  is_leaf t = false -> (length cs < fuel)%nat ->
  focus tab cs t sp
  ⊢ hwp (ascend fuel d (tt_sentinel tab) (root_of (tt_sentinel tab) t) (up (tt_sentinel tab) cs))
      (λ n, ⌜n = addr_or (tt_sentinel tab) (next_entry d (before cs) (after_focus cs))⌝ ∧ focus tab cs t sp).
Proof.
  induction fuel as [|fuel IH]; intros d tab cs t sp Ht Hf; [lia|]. destruct tab as [rt s sz]. tsimpl.
  iIntros "[%Hr (Hs & Ht & Hp)]". iDestruct (up_test with "[$Hs $Hp]") as "[%Hup [Hs Hp]]".
  cbn [ascend]. tsimpl. rw Hup. destruct cs as [|[e p cp kp vp u] cs]; simpl in Hf.
  - tret. iSplit; [by destruct d|]. tfocus.
  - cbn [is_nil]. cbn iota. tsimpl. iDestruct "Hp" as "(Hp & Hu & Hc)".
    destruct t as [|a c k v l r]; [done|]. tsimpl. iDestruct "Ht" as "(Ha & Hl & Hr)".
    iDestruct (root_ne with "[$Ha $Hs $Hu]") as "[%Hau (Ha & Hs & Hu)]".
    assert (e = d \/ e = other d) as [->| ->] by (destruct d, e; auto).
    + rw next_entry_up; [|done].
      pose proof (IH d (mk_tt rt s sz) cs (plug (Fr d p cp kp vp u) (T a c k v l r)) sp) as IH'.
      rw root_plug in IH'.
      destruct d; tsimpl; tfield; rw Z.eqb_refl; tfield; iApply hwp_wand;
        (iSplitL; [iApply IH'; [done|lia|tfocus]|]); iIntros (n) "[-> H]"; (iSplit; [done|]); by rw focus_plug.
    + rw next_entry_frame; [|done].
      destruct d; tsimpl; tfield; rw Hau; tret; (iSplit; [done|]); tfocus.
Qed.

Lemma end_addr_next s d t xs ys :
  is_leaf t = false -> end_addr s (other d) t = addr_or s (next_entry d (xs ++ inorder t) (inorder t ++ ys)).
Proof.
  intros Ht. unfold end_addr.
  destruct (end_path (other d) t) as [[p [[[[y cy] ky] vy] u]]|] eqn:Ee; [|by apply end_path_none in Ee as ->].
  destruct d; simpl in Ee |- *.
  - rw (end_path_right _ _ _ _ _ _ _ Ee). by rw assoc_L last_snoc.
  - by rw (end_path_left _ _ _ _ _ _ _ Ee).
Qed.

Lemma neighbour_spec d tab cs a c k v l r sp :
  focus tab cs (T a c k v l r) sp
  ⊢ hwp (get_neighbour d tab a)
      (λ n, ⌜n = addr_or (tt_sentinel tab) (next_entry d (before cs ++ inorder l) (inorder r ++ after_focus cs))⌝ ∧
            focus tab cs (T a c k v l r) sp).
Proof.
  set (near := match d with L => l | R => r end). set (far := match d with L => r | R => l end).
  assert (T a c k v l r = node d a c k v near far) as -> by (by destruct d).
  assert (next_entry d (before cs ++ inorder l) (inorder r ++ after_focus cs) =
          if is_leaf near then next_entry d (before cs) (after_focus cs)
          else next_entry d (before cs ++ inorder near) (inorder near ++ after_focus cs)) as ->.
  { destruct d; subst near; simpl; [destruct l|destruct r]; simpl; by rw ?app_nil_r. }
  clearbody near far. clear l r. iIntros "H".
  iAssert (focus tab (Fr d a c k v far :: cs) near sp) with "[H]" as "H"; [by rw focus_plug|].
  pose proof (fun n => ascend_spec n d tab cs (node d a c k v near far) sp) as Hasc. rw root_node in Hasc.
  pose proof (tree_extreme_spec (other d) tab (Fr d a c k v far :: cs) near sp) as Hext.
  destruct tab as [rt s sz]. iDestruct "H" as "[%Hr (Hs & Ht & Hp)]". tsimpl. iDestruct "Hp" as "(Ha & Hu & Hc)".
  iDestruct (pointsto_not_null with "Ha") as "[%Hn Ha]". apply Z.eqb_neq in Hn.
  iDestruct (root_test with "[$Hs $Ht]") as "[%Ht [Hs Ht]]". unfold get_neighbour. rw Hn.
  destruct (is_leaf near) eqn:El.
  - destruct near; [|done].
    destruct d; tsimpl; tfield; rw Ht; cbn [negb]; cbn iota; tfield; iApply hwp_bind;
      (iApply (focus_fuel (mk_tt rt s sz) cs _ sp); iSplitL; [|iIntros (n Hfuel) "H"; iApply (Hasc n with "H")]).
    + tfocus.
    + by destruct far.
    + rw inorder_zip !length_app in Hfuel. pose proof (path_entries cs). lia.
    + tfocus.
    + by destruct far.
    + rw inorder_zip !length_app in Hfuel. pose proof (path_entries cs). lia.
  - destruct d; tsimpl; tfield; rw Ht; cbn [negb]; cbn iota; iApply hwp_wand;
      (iSplitL; [iApply Hext; tfocus|]); iIntros (n) "[-> H]";
      (iSplit; [iPureIntro; by apply (end_addr_next s)|]); by rw focus_plug.
Qed.

(** ** The neighbours in the whole table *)

Lemma entry_neighbour d tab t sp xs e ys :
  inorder t = xs ++ e :: ys ->
  focus tab [] t sp
  ⊢ hwp (get_neighbour d tab e.1)
      (λ n, ⌜n = addr_or (tt_sentinel tab) (next_entry d xs ys)⌝ ∧ focus tab [] t sp).
Proof.
  intros Hi. destruct (focus_entry _ _ _ _ Hi) as (cs & c & l & r & -> & -> & ->).
  iIntros "H". iEval (rw -focus_whole) in "H". iApply hwp_wand. iSplitL; [iApply (neighbour_spec with "H")|].
  iIntros (n) "[-> H]". iSplit; [done|]. by rw -focus_whole.
Qed.

(** Reading the node of an entry. *)
Lemma entry_load tab t sp xs e ys (Φ : rbnode -> hpropI rbnode) :
  inorder t = xs ++ e :: ys ->
  focus tab [] t sp ∗ (∀ c, ⌜rb_key c = e.2.1 /\ rb_value c = e.2.2⌝ → focus tab [] t sp -∗ Φ c)
  ⊢ hwp (load e.1) Φ.
Proof.
  intros Hi. destruct (focus_entry _ _ _ _ Hi) as (cs & c & l & r & -> & _ & _).
  iIntros "[H HΦ]". iEval (rw -focus_whole) in "H". iDestruct "H" as "[%Hr (Hs & Ht & Hp)]". tsimpl. iDestruct "Ht" as "(Ha & Hl & Hrr)".
  iApply hwp_load. iFrame "Ha". iIntros "Ha". iApply "HΦ"; [done|].
  rw -focus_whole. iSplit; [done|]. tsimpl. iFrame.
Qed.

Lemma entry_test tab t sp xs e ys :
  inorder t = xs ++ e :: ys ->
  focus tab [] t sp ⊢ ⌜(e.1 =? tt_sentinel tab) = false /\ (e.1 =? NULL) = false⌝ ∧ focus tab [] t sp.
Proof.
  intros Hi. destruct (focus_entry _ _ _ _ Hi) as (cs & c & l & r & -> & _ & _). rw -focus_whole.
  iIntros "[%Hr (Hs & Ht & Hp)]". tsimpl. iDestruct "Ht" as "(Ha & Hl & Hrr)".
  iDestruct (cell_ne with "[$Ha $Hs]") as "[%H1 [Ha Hs]]".
  iDestruct (pointsto_not_null with "Ha") as "[%H2 Ha]". iSplit; [by rw H1 (proj2 (Z.eqb_neq _ _) H2)|].
  iSplit; [done|]. tsimpl. iFrame.
Qed.

Lemma fold_succ_spec {A} (f : A -> rbnode -> A) (g : A -> Z * Z -> A) tab t sp ys :
  (forall x c, f x c = g x (rb_key c, rb_value c)) ->
  forall fuel xs x, inorder t = xs ++ ys -> (length ys < fuel)%nat ->
  focus tab [] t sp
  ⊢ hwp (fold_succ fuel f tab (addr_or (tt_sentinel tab) (head ys)) x)
      (λ r, ⌜r = foldl g x ys.*2⌝ ∧ focus tab [] t sp).
Proof.
  intros Hf. induction ys as [|e ys IH]; intros fuel xs x Hi Hl; (destruct fuel as [|fuel]; [lia|]);
    cbn [fold_succ]; iIntros "H".
  - unfold addr_or. simpl. rw Z.eqb_refl. tret. by iSplit.
  - iDestruct (entry_test with "H") as "[[%H1 _] H]"; [exact Hi|]. unfold addr_or at 1. simpl. rw H1.
    iApply hwp_bind. iApply entry_load; [exact Hi|]. iFrame "H". iIntros (c [Hk Hv]) "H".
    iApply hwp_call. iSplitL; [iApply (entry_neighbour R with "H"); exact Hi|]. iIntros (n) "[-> H]". simpl.
    iApply hwp_wand. iSplitL; [iApply (IH fuel (xs ++ [e]) with "H")|].
    + by rw -assoc_L.
    + simpl in Hl. lia.
    + iIntros (r) "[-> H]". iSplit; [|done]. iPureIntro. rw Hf Hk Hv. by destruct e as [? []].
Qed.

Lemma fold_table_spec {A} (f : A -> rbnode -> A) (g : A -> Z * Z -> A) tab xs x :
  (forall x c, f x c = g x (rb_key c, rb_value c)) ->
  table_at tab xs ⊢ hwp (fold_table f x tab) (λ r, ⌜r = foldl g x xs⌝ ∧ table_at tab xs).
Proof.
  intros Hf. iIntros "(%t & %sp & %Ht & H)". destruct Ht as [Hok <-]. unfold fold_table.
  iDestruct (focus_root with "H") as "[%Hr H]". rw Hr.
  iApply hwp_call. iSplitL; [iApply (tree_extreme_spec with "H")|]. iIntros (n) "[-> H]".
  iApply hwp_bind. iApply focus_fuel. iFrame "H". iIntros (k Hk) "H". cbn [zip] in Hk.
  assert (end_addr (tt_sentinel tab) L t = addr_or (tt_sentinel tab) (head (inorder t))) as ->.
  { destruct (is_leaf t) eqn:El; [by destruct t|]. rw (end_addr_next _ R t [] []); [|done]. by rw app_nil_r. }
  iApply hwp_wand. iSplitL; [iApply (fold_succ_spec f g tab t sp _ Hf k [] with "H"); [done|lia]|].
  iIntros (r) "[-> H]". iSplit; [done|]. by iApply (table_done with "H").
Qed.

(** ** The functions that read *)

Lemma tt_contains_value_spec tab v xs :
  table_at tab xs
  ⊢ hwp (cc_treetable_contains_value tab v)
      (λ n, ⌜n = Z.of_nat (countb (fun e => e.2 =? v) xs)⌝ ∧ table_at tab xs).
Proof.
  iIntros "H". iAssert (⌜zlen xs < 2 ^ 32⌝ ∧ table_at tab xs)%I with "[H]" as "[%Hb H]".
  { iDestruct "H" as "(%t & %sp & %Ht & H)". destruct Ht as [Hok <-]. iSplit; [|by iApply (table_done with "H")].
    iPureIntro. rw length_fmap. apply Hok. }
  iApply hwp_wand. iSplitL.
  { by iApply (fold_table_spec _ (fun o e => if e.2 =? v then u32 (o + 1) else o) with "H"). }
  iIntros (n) "[-> H]". iSplit; [|done]. iPureIntro.
  assert (foldl (fun o (e : Z * Z) => if e.2 =? v then u32 (o + 1) else o) 0 xs =
          foldl (fun o x => if x =? v then u32 (o + 1) else o) 0 xs.*2) as ->.
  { generalize 0. induction xs as [|e xs IH]; intros o; [done|]. apply IH. simpl in Hb. lia. }
  rw (foldl_count (fun x => x =? v)); [|lia|rw length_fmap; lia]. rw Z.add_0_l. f_equal.
  clear Hb. induction xs as [|e xs IH]; [done|]. unfold countb in *. simpl. by f_equal.
Qed.

Lemma foldl_snoc {A B} (f : A -> B) xs acc : foldl (fun l x => l ++ [f x]) acc xs = acc ++ (f <$> xs).
Proof.
  revert acc. induction xs as [|x xs IH]; intros acc; simpl; [by rw app_nil_r|]. by rw IH -assoc_L.
Qed.

Lemma foreach_spec_key tab xs :
  table_at tab xs ⊢ hwp (cc_treetable_foreach_key tab) (λ r, ⌜r = xs.*1⌝ ∧ table_at tab xs).
Proof.
  iIntros "H". iApply hwp_wand. iSplitL.
  { by iApply (fold_table_spec _ (fun l e => l ++ [e.1]) with "H"). }
  iIntros (n) "[-> H]". iSplit; [|done]. iPureIntro. by apply (foldl_snoc fst xs []).
Qed.
Lemma foreach_spec_value tab xs :
  table_at tab xs ⊢ hwp (cc_treetable_foreach_value tab) (λ r, ⌜r = xs.*2⌝ ∧ table_at tab xs).
Proof.
  iIntros "H". iApply hwp_wand. iSplitL.
  { by iApply (fold_table_spec _ (fun l e => l ++ [e.2]) with "H"). }
  iIntros (n) "[-> H]". iSplit; [|done]. iPureIntro. by apply (foldl_snoc snd xs []).
Qed.

(** *** By key *)

Context `{HK : !KeyLaws}.

Lemma get_node_found key tab t sp :
  table_ok tab t ->
  focus tab [] t sp
  ⊢ hwp (get_tree_node_by_key tab key)
      (λ n, match ts_split key (inorder t).*2 with
            | None => ⌜n = NULL⌝
            | Some (xs, e, ys) => ⌜exists us vs, inorder t = us ++ (n, e) :: vs /\ xs = us.*2 /\ ys = vs.*2⌝
            end ∧ focus tab [] t sp).
Proof using HK.
  intros Hok. iIntros "H". iApply hwp_wand. iSplitL; [by iApply (find_node_spec key with "H")|].
  iIntros (n) "[-> H]". pose proof (find_key_zip key [] t) as Hz.
  destruct (find_key key [] t) as [cs t'] eqn:Ef. cbn [fst snd] in *. simpl in Hz.
  rw (find_key_split key t cs t' (ok_keys _ _ Hok) Ef). iEval (rw focus_whole Hz) in "H".
  destruct t' as [|a c k v l r]; simpl; (iSplit; [|done]); [done|]. iPureIntro.
  exists (before cs ++ inorder l), (inorder r ++ after_focus cs). split_and!; [|done|done].
  rw -Hz inorder_zip /=. by rw -!assoc_L.
Qed.

Definition ts_get (key : Z) (xs : list (Z * Z)) : cc_stat * option Z :=
  match ts_split key xs with
  | Some (_, e, _) => (CC_OK, Some e.2) | None => (CC_ERR_KEY_NOT_FOUND, None)
  end.

Lemma tt_get_spec key tab xs :
  table_at tab xs ⊢ hwp (cc_treetable_get tab key) (λ r, ⌜r = ts_get key xs⌝ ∧ table_at tab xs).
Proof using HK.
  iIntros "(%t & %sp & %Ht & H)". destruct Ht as [Hok <-]. unfold cc_treetable_get, ts_get.
  iApply hwp_call. iSplitL; [by iApply (get_node_found key with "H")|]. iIntros (n) "Hn".
  destruct (ts_split key (inorder t).*2) as [[[us e] vs]|]; iDestruct "Hn" as "[%Hn H]".
  - destruct Hn as (us' & vs' & Hi & _). iDestruct (entry_test with "H") as "[[_ %Hn] H]"; [exact Hi|].
    simpl in Hn. rw Hn. iApply hwp_bind. iApply hwp_bind. iApply (entry_load tab t sp _ (n, e)); [exact Hi|].
    iFrame "H". iIntros (c [Hk Hv]) "H". tret. tret. iSplit; [|by iApply (table_done with "H")].
    iPureIntro. simpl in Hv. by rw Hv.
  - subst n. rw Z.eqb_refl. tret. iSplit; [done|]. by iApply (table_done with "H").
Qed.

Lemma tt_contains_key_spec key tab xs :
  table_at tab xs
  ⊢ hwp (cc_treetable_contains_key tab key)
      (λ b, ⌜b = bool_decide (is_Some (ts_split key xs))⌝ ∧ table_at tab xs).
Proof using HK.
  iIntros "(%t & %sp & %Ht & H)". destruct Ht as [Hok <-]. unfold cc_treetable_contains_key.
  iApply hwp_call. iSplitL; [by iApply (get_node_found key with "H")|]. iIntros (n) "Hn".
  destruct (ts_split key (inorder t).*2) as [[[us e] vs]|]; iDestruct "Hn" as "[%Hn H]".
  - destruct Hn as (us' & vs' & Hi & _). iDestruct (entry_test with "H") as "[[_ %Hn] H]"; [exact Hi|].
    simpl in Hn. rw Hn. tret. iSplit; [|by iApply (table_done with "H")]. by rw bool_decide_true.
  - subst n. tret. iSplit; [|by iApply (table_done with "H")]. by rw bool_decide_false; [|apply is_Some_None].
Qed.

(** The neighbour of a key; beyond the last one, the key of the sentinel. *)
Definition ts_beside (d : side) (key : Z) (xs : list (Z * Z)) : cc_stat * option Z :=
  match ts_split key xs with
  | Some (us, _, vs) =>
      (CC_OK, Some (default NULL (fst <$> match d with R => head vs | L => list.last us end)))
  | None => (CC_ERR_KEY_NOT_FOUND, None)
  end.

Lemma sentinel_load tab t sp (Φ : rbnode -> hpropI rbnode) :
  focus tab [] t sp ∗ (focus tab [] t sp -∗ Φ (sent sp)) ⊢ hwp (load (tt_sentinel tab)) Φ.
Proof.
  iIntros "[[%Hr (Hs & H)] HΦ]". iApply hwp_load. iFrame "Hs". iIntros "Hs". iApply "HΦ". iSplit; [done|]. iFrame.
Qed.

Lemma tt_beside_spec d key tab xs :
  table_at tab xs ⊢ hwp (get_beside d tab key) (λ r, ⌜r = ts_beside d key xs⌝ ∧ table_at tab xs).
Proof using HK.
  iIntros "(%t & %sp & %Ht & H)". destruct Ht as [Hok <-]. unfold get_beside, ts_beside.
  iApply hwp_call. iSplitL; [by iApply (get_node_found key with "H")|]. iIntros (n) "Hn".
  destruct (ts_split key (inorder t).*2) as [[[us e] vs]|]; iDestruct "Hn" as "[%Hn H]".
  - destruct Hn as (us' & vs' & Hi & -> & ->). iDestruct (entry_test with "H") as "[[_ %Hn] H]"; [exact Hi|].
    simpl in Hn. iApply hwp_call. iSplitL; [by iApply (entry_neighbour d _ _ _ _ (n, e) with "H")|].
    iIntros (y) "[-> H]". rw Hn. cbn [negb andb].
    assert (match d with R => head vs'.*2 | L => list.last us'.*2 end = snd <$> next_entry d us' vs') as ->.
    { destruct d; simpl; [apply fmap_last|by destruct vs']. }
    destruct (next_entry d us' vs') as [[b e']|] eqn:Ene; unfold addr_or; simpl.
    + assert (exists us2 vs2, inorder t = us2 ++ (b, e') :: vs2) as (us2 & vs2 & Hi2).
      { destruct d; simpl in Ene.
        - apply last_Some in Ene as [us2 ->]. exists us2, ((n, e) :: vs'). by rw Hi -assoc_L.
        - destruct vs' as [|? vs2]; [done|]. simpl in Ene. injection Ene as ->.
          exists (us' ++ [(n, e)]), vs2. by rw Hi -assoc_L. }
      iDestruct (entry_test with "H") as "[[_ %Hb] H]"; [exact Hi2|]. simpl in Hb. rw Hb. cbn [negb]. cbn iota.
      iApply hwp_bind. iApply hwp_bind. iApply (entry_load tab t sp _ (b, e')); [exact Hi2|].
      iFrame "H". iIntros (c [Hk Hv]) "H". tret. tret. iSplit; [|by iApply (table_done with "H")].
      iPureIntro. simpl in Hk. by rw Hk.
    + iAssert (⌜tt_sentinel tab <> NULL⌝ ∧ focus tab [] t sp)%I with "[H]" as "[%Hs H]".
      { iDestruct "H" as "[%Hr (Hs & H)]". iDestruct (pointsto_not_null with "Hs") as "[$ Hs]".
        iSplit; [done|]. iFrame. }
      rw (proj2 (Z.eqb_neq _ _) Hs). cbn [negb]. cbn iota.
      iApply hwp_bind. iApply hwp_bind. iApply sentinel_load. iFrame "H". iIntros "H". tret. tret.
      iSplit; [done|]. by iApply (table_done with "H").
  - subst n. unfold get_neighbour. rw Z.eqb_refl. iApply hwp_bind. tret. tret.
    iSplit; [done|]. by iApply (table_done with "H").
Qed.

(** *** The ends *)

Definition ts_end (d : side) (xs : list (Z * Z)) : option (Z * Z) :=
  match d with L => head xs | R => list.last xs end.

Lemma end_entry d t :
  match end_path d t with
  | Some (_, (y, _, k, v, _)) =>
      exists us vs, inorder t = us ++ (y, (k, v)) :: vs /\ ts_end d (inorder t).*2 = Some (k, v)
  | None => t = E
  end.
Proof.
  destruct (end_path d t) as [[p [[[[y c] k] v] u]]|] eqn:Ee; [|by apply end_path_none in Ee].
  destruct d.
  - pose proof (end_path_left _ _ _ _ _ _ _ Ee) as Hi. exists [], (inorder u ++ after_focus p).
    rw Hi. by split.
  - pose proof (end_path_right _ _ _ _ _ _ _ Ee) as Hi. exists (before p ++ inorder u), [].
    rw Hi. split; [done|]. simpl. by rw fmap_app last_snoc.
Qed.

Lemma tt_get_end_spec d (f : rbnode -> Z) (g : Z * Z -> Z) err tab xs :
  (forall c, f c = g (rb_key c, rb_value c)) ->
  table_at tab xs
  ⊢ hwp (get_end d f err tab)
      (λ r, ⌜r = match ts_end d xs with Some e => (CC_OK, Some (g e)) | None => (err, None) end⌝ ∧ table_at tab xs).
Proof.
  intros Hf. iIntros "(%t & %sp & %Ht & H)". destruct Ht as [Hok <-]. unfold get_end.
  iDestruct (focus_root with "H") as "[%Hr H]". rw Hr.
  iApply hwp_call. iSplitL; [iApply (tree_extreme_spec with "H")|]. iIntros (n) "[-> H]".
  pose proof (end_entry d t) as He. unfold end_addr.
  destruct (end_path d t) as [[p [[[[y c] k] v] u]]|].
  - destruct He as (us & vs & Hi & ->). iDestruct (entry_test with "H") as "[[%Hy _] H]"; [exact Hi|].
    simpl in Hy. rw Hy. cbn [negb]. cbn iota. iApply hwp_bind. iApply hwp_bind.
    iApply (entry_load tab t sp _ (y, (k, v))); [exact Hi|]. iFrame "H". iIntros (c' [Hk Hv]) "H". tret. tret.
    iSplit; [|by iApply (table_done with "H")]. iPureIntro. simpl in *. by rw Hf Hk Hv.
  - subst t. rw Z.eqb_refl. cbn [negb]. cbn iota. tret. iSplit; [by destruct d|]. by iApply (table_done with "H").
Qed.
End Read.
