(* ===== verification/CcTreeRemove.v ===== *)
(** * [remove_node] and what calls it

    Taking a node out of the table: [transplant], the two cases of
    [remove_node], and the functions of cc_treetable.c that remove entries,
    empty the table or free it.  The result is stated on the list of entries. *)

From iris.proofmode Require Import proofmode.
From Stdlib Require Import Sorted.
From S2P Require Import Prelude CMem CState CHeap HeapLogic CcArray CcTreeTable RbTree CcTreeFacts CcTreeDelete CcTreeRead.

Section Remove.
Context `{HA : !NodeAlloc rbnode} `{HU : !Uninit rbnode} `{HC : !KeyCmp} `{HL : !NodeAllocLaws rbnode}.
Implicit Types (tab : treetable) (cs p : list frame) (t : tree).

(** ** Relinking *)

Lemma path_app s q cs1 cs2 hole :
  path_at s q (cs1 ++ cs2) hole ⊣⊢ path_at s (up q cs2) cs1 hole ∗ path_at s q cs2 (top cs1 hole).
Proof.
  revert hole. induction cs1 as [|f cs1 IH]; intros hole; simpl; [by rw left_id|].
  rw IH. assert (up q (cs1 ++ cs2) = up (up q cs2) cs1) as -> by (by destruct cs1).
  iSplit; [iIntros "($ & $ & $ & $)"|iIntros "[($ & $ & $) $]"].
Qed.

Lemma top_app cs1 cs2 hole : top (cs1 ++ cs2) hole = top cs2 (top cs1 hole).
Proof. revert hole. induction cs1 as [|f cs1 IH]; intros hole; [done|apply IH]. Qed.

(** A subtree, or the sentinel in its place, gets a parent. *)
Lemma reparent {B} s sp t (q p : Z) (k : unit -> M (heap rbnode) B) (Φ : B -> hpropI rbnode) :
  s ↦ sent sp ∗ tree_at s t q ∗
  (s ↦ sent (if is_leaf t then p else sp) -∗ tree_at s t p -∗ hwp (k tt) Φ)
  ⊢ hwp (update (root_of s t) (set_parent p) ≫= k) Φ.
Proof.
  iIntros "(Hs & Ht & HΦ)". iApply hwp_bind. destruct t as [|a c k' v l r]; tsimpl.
  - iApply hwp_update. iFrame "Hs". iIntros "Hs". tsimpl. iApply ("HΦ" with "Hs"). done.
  - iDestruct "Ht" as "[Ha Ht]". iApply hwp_update. iFrame "Ha". iIntros "Ha". tsimpl.
    iApply ("HΦ" with "Hs"). iFrame.
Qed.

Lemma transplant_spec tab cs t u cu q sp :
  rb_parent cu = up (tt_sentinel tab) cs -> tt_root tab = top cs u ->
  tt_sentinel tab ↦ sent sp ∗ u ↦ cu ∗ tree_at (tt_sentinel tab) t q ∗
  path_at (tt_sentinel tab) (tt_sentinel tab) cs u
  ⊢ hwp (transplant tab u (root_of (tt_sentinel tab) t))
      (λ tab', ⌜tab' = set_root (top cs (root_of (tt_sentinel tab) t)) tab⌝ ∧
        (tt_sentinel tab ↦ sent (if is_leaf t then up (tt_sentinel tab) cs else sp) ∗ u ↦ cu ∗
         tree_at (tt_sentinel tab) t (up (tt_sentinel tab) cs) ∗
         path_at (tt_sentinel tab) (tt_sentinel tab) cs (root_of (tt_sentinel tab) t))).
Proof.
  destruct tab as [rt s sz]. tsimpl. intros Hu Hr. iIntros "(Hs & Hu & Ht & Hp)". unfold transplant. tsimpl.
  iApply hwp_field. iFrame "Hu". iIntros "Hu". rw Hu.
  iDestruct (up_test with "[$Hs $Hp]") as "[%Hps [Hs Hp]]". rw Hps.
  destruct cs as [|[d a c k v w] cs]; tsimpl.
  - tskip. iApply hwp_field. iFrame "Hu". iIntros "Hu". rw Hu. iApply reparent. iFrame "Hs Ht".
    iIntros "Hs Ht". tret. iSplit; [done|]. iFrame.
  - iDestruct "Hp" as "(Hp & Hw & Hc)". iDestruct (root_ne with "[$Hu $Hs $Hw]") as "[%Huw (Hu & Hs & Hw)]".
    iApply hwp_bind. destruct d; tsimpl; iApply hwp_field; iFrame "Hp"; iIntros "Hp"; tsimpl;
      (rw ?Z.eqb_refl ?Huw); cbn iota;
      iApply hwp_bind; iApply hwp_update; iFrame "Hp"; iIntros "Hp"; tsimpl; tret; iApply hwp_field;
      iFrame "Hu"; iIntros "Hu"; rw Hu; iApply reparent; iFrame "Hs Ht"; iIntros "Hs Ht"; tret;
      (iSplit; [iPureIntro; by rw Hr|]); iFrame.
Qed.

(** ** [remove_node] *)

(** What is left to do when the node is out of the tree. *)
Lemma finish_spec tab cs x t' cy sp z cz :
  shorten cy cs x = Some t' -> (is_leaf x = true -> sp = up (tt_sentinel tab) cs) ->
  focus tab cs x sp ∗ z ↦ cz
  ⊢ hwp (table ← (if code cy =? RB_BLACK then rebalance_after_delete tab (root_of (tt_sentinel tab) x)
                  else mret tab);
         mem_free z ;; mret (set_tt_size (u32 (tt_size table - 1)) table))
      (λ tab', ⌜tt_sentinel tab' = tt_sentinel tab /\ tt_size tab' = u32 (tt_size tab - 1)⌝ ∧
               focus tab' [] t' sp).
Proof.
  intros Hs Hq. iIntros "[H Hz]".
  iApply (hwp_call _ _ (λ tab', ⌜same_table tab tab'⌝ ∧ focus tab' [] t' sp)%I). iSplitL "H".
  - destruct cy; simpl in Hs |- *.
    + injection Hs as <-. tret. iSplit; [done|]. by rw -focus_whole.
    + iApply (rebalance_delete_spec with "H"); done.
  - iIntros (tab') "[%Ht H]". destruct Ht as [H1 H2]. iApply hwp_bind. iApply hwp_free. iFrame "Hz". tret.
    iSplit; [by rw H1 H2|]. destruct tab'. iApply "H".
Qed.

(** The node [y] after [z] is taken out of the right subtree of [z]. *)
Lemma detach_spec tab p cs z c k v l y cy ky vy yr sp :
  focus tab (p ++ Fr R z c k v l :: cs) (T y cy ky vy E yr) sp
  ⊢ hwp (if up z p =? z then update (root_of (tt_sentinel tab) yr) (set_parent y) ;; mret tab
         else
           yr ← field rb_right y;
           table ← transplant tab y yr;
           zr ← field rb_right z;
           update y (set_child R zr) ;;
           yr ← field rb_right y; update yr (set_parent y) ;;
           mret table)
      (λ tab', ⌜tab' = tab /\ tt_root tab = top cs z⌝ ∧ ∃ zr q,
        (tt_sentinel tab ↦ sent (if is_leaf yr then up y p else sp) ∗
         z ↦ mk_rb k v (code c) (up (tt_sentinel tab) cs) (root_of (tt_sentinel tab) l) zr ∗
         tree_at (tt_sentinel tab) l z ∗ tree_at (tt_sentinel tab) (T y cy ky vy E (zip p yr)) q ∗
         path_at (tt_sentinel tab) (tt_sentinel tab) cs z)).
Proof.
  destruct p as [|f p].
  - destruct tab as [rt s sz]. unfold focus. tsimpl. cbn [app zip]. tsimpl.
    iIntros "[%Hr (Hs & (Hy & He & Ht) & Hz & Hl & Hc)]". tsimpl. rw Z.eqb_refl. iApply reparent. iFrame "Hs Ht".
    iIntros "Hs Ht". tret. iSplit; [done|]. iExists y, z. tsimpl. iFrame.
  - destruct tab as [rt s sz]. unfold focus. rw path_app top_app. tsimpl.
    iIntros "[%Hr (Hs & (Hy & He & Ht) & (Hf & Hw & Hp) & Hz & Hl & Hc)]". tsimpl.
    iDestruct (cell_ne with "[$Hf $Hz]") as "[%Hfz [Hf Hz]]". rw Hfz. iApply hwp_field. iFrame "Hy". iIntros "Hy". tsimpl.
    iApply (hwp_call _ _ (λ tab', ⌜tab' = mk_tt rt s sz⌝ ∧
      (s ↦ sent (if is_leaf yr then f_addr f else sp) ∗ y ↦ mk_rb ky vy (code cy) (f_addr f) s (root_of s yr) ∗
       tree_at s yr (f_addr f) ∗ path_at s s ((f :: p) ++ Fr R z c k v l :: cs) (root_of s yr)))%I).
    iSplitL.
    { iApply hwp_wand. iSplitL.
      - iApply (transplant_spec (mk_tt rt s sz) ((f :: p) ++ Fr R z c k v l :: cs) yr y (mk_rb ky vy (code cy) (f_addr f) s (root_of s yr)) y sp); [done| |].
        + rw top_app. exact Hr.
        + tsimpl. iFrame "Hs Hy Ht". rw path_app. tsimpl. iFrame.
      - iIntros (tab') "[-> (Hs & Hy & Ht & Hp)]". tsimpl. rw top_app. tsimpl. rw -Hr. iSplit; [done|]. iFrame. }
    iIntros (tab') "[-> (Hs & Hy & Ht & Hp)]". rw path_app. iDestruct "Hp" as "[Hp Hcs]".
    iAssert (tree_at s (zip (f :: p) yr) z) with "[Ht Hp]" as "Hr"; [rw tree_zip; tsimpl; iFrame|].
    tsimpl. iDestruct "Hcs" as "(Hz & Hl & Hc)". iApply hwp_field. iFrame "Hz". iIntros "Hz". tsimpl.
    iApply hwp_bind. iApply hwp_update. iFrame "Hy". iIntros "Hy". tsimpl.
    iApply hwp_field. iFrame "Hy". iIntros "Hy". tsimpl.
    assert (top p (f_addr f) = root_of s (zip (f :: p) yr)) as Htop by (by rw root_zip).
    assert (is_leaf (zip (f :: p) yr) = false) as Hnl.
    { clear. revert f yr. induction p as [|g p IH]; intros f t; [by destruct f as [[]]|apply (IH g)]. }
    rw Htop. iApply reparent. iFrame "Hs Hr". iIntros "Hs Hr". rw Hnl. tret. iSplit; [done|].
    iExists _, (f_addr f). iFrame.
Qed.

(** The node [y] takes the place of [z]. *)
Lemma replace_spec {B} tab cs z c k v l zr y cy ky vy r q sp (m : treetable -> M (heap rbnode) B) (Φ : B -> hpropI rbnode) :
  tt_root tab = top cs z -> is_leaf l = false ->
  (tt_sentinel tab ↦ sent sp ∗
   z ↦ mk_rb k v (code c) (up (tt_sentinel tab) cs) (root_of (tt_sentinel tab) l) zr ∗
   tree_at (tt_sentinel tab) l z ∗ tree_at (tt_sentinel tab) (T y cy ky vy E r) q ∗
   path_at (tt_sentinel tab) (tt_sentinel tab) cs z) ∗
  (∀ tab' cz, ⌜same_table tab tab'⌝ → focus tab' (Fr R y c ky vy l :: cs) r sp -∗ z ↦ cz -∗ hwp (m tab') Φ)
  ⊢ hwp (table ← transplant tab z y;
         zl ← field rb_left z; update y (set_child L zl) ;;
         yl ← field rb_left y; update yl (set_parent y) ;;
         zc ← field rb_color z; update y (set_color zc) ;;
         m table) Φ.
Proof.
  destruct tab as [rt s sz]. tsimpl. intros Hr Hl. iIntros "[(Hs & Hz & Hl & Hy & Hp) HΦ]".
  iApply hwp_call. iSplitL "Hs Hz Hy Hp".
  { iApply (transplant_spec (mk_tt rt s sz) cs (T y cy ky vy E r) z (mk_rb k v (code c) (up s cs) (root_of s l) zr) q sp); [done|done|].
    tsimpl. iFrame. }
  iIntros (tab') "[-> (Hs & Hz & Hy & Hp)]". tsimpl. iDestruct "Hy" as "(Hy & _ & Hr)".
  iApply hwp_field. iFrame "Hz". iIntros "Hz". tsimpl.
  iApply hwp_bind. iApply hwp_update. iFrame "Hy". iIntros "Hy". tsimpl.
  iApply hwp_field. iFrame "Hy". iIntros "Hy". tsimpl.
  iApply reparent. iFrame "Hs Hl". iIntros "Hs Hl". rw Hl.
  iApply hwp_field. iFrame "Hz". iIntros "Hz". tsimpl.
  iApply hwp_bind. iApply hwp_update. iFrame "Hy". iIntros "Hy". tsimpl.
  iApply ("HΦ" with "[] [Hs Hr Hl Hy Hp] Hz"); [by iPureIntro|]. unfold focus. tsimpl. iSplit; [done|]. iFrame.
Qed.

(** A node with at most one child. *)
Lemma tt_unlink_spec d tab cs z c k v t sp :
  focus tab cs (node d z c k v t E) sp
  ⊢ hwp (transplant tab z (root_of (tt_sentinel tab) t))
      (λ tab', ⌜same_table tab tab'⌝ ∧ ∃ cz,
         (focus tab' cs t (if is_leaf t then up (tt_sentinel tab) cs else sp) ∗ z ↦ cz)).
Proof.
  destruct tab as [rt s sz]. unfold focus at 1. rw tree_node root_node.
  iIntros "[%Hr (Hs & (Hz & Ht & _) & Hp)]". tsimpl. iApply hwp_wand. iSplitL.
  - iApply (transplant_spec (mk_tt rt s sz) cs t z (cell d k v c (up s cs) (root_of s t) s) z sp); [by destruct d|done|].
    tsimpl. iFrame.
  - iIntros (tab') "[-> (Hs & Hz & Ht & Hp)]". iSplit; [done|]. iExists _. iFrame "Hz". unfold focus. tsimpl.
    iSplit; [done|]. iFrame.
Qed.

(** The node at the focus goes; the table keeps its other entries and is a
    red-black tree again ([del_node_ok]). *)
Lemma remove_node_spec tab cs z c k v l r t' sp :
  del_node cs c l r = Some t' ->
  focus tab cs (T z c k v l r) sp
  ⊢ hwp (remove_node tab z)
      (λ tab', ⌜tt_sentinel tab' = tt_sentinel tab /\ tt_size tab' = u32 (tt_size tab - 1)⌝ ∧
               ∃ sp', focus tab' [] t' sp').
Proof.
  intros Hdel. unfold remove_node. iIntros "[%Hr (Hs & (Hz & Hl & Hrt) & Hc)]".
  iDestruct (root_test with "[$Hs $Hl]") as "[%Hl [Hs Hl]]".
  iDestruct (root_test with "[$Hs $Hrt]") as "[%Hrr [Hs Hrt]]".
  do 3 (iApply hwp_field; iFrame "Hz"; iIntros "Hz"; tsimpl). rw Hl Hrr.
  iAssert (focus tab cs (T z c k v l r) sp) with "[Hs Hz Hl Hrt Hc]" as "H"; [iSplit; [done|]; tsimpl; iFrame|].
  unfold del_node in Hdel. destruct (is_leaf l) eqn:El; [|destruct (is_leaf r) eqn:Er].
  - destruct l; [|done]. iApply hwp_bind. iApply hwp_call.
    iSplitL; [iApply (tt_unlink_spec R tab cs z c k v r sp with "H")|].
    iIntros (tab') "[%Ht (%cz & H & Hz)]". destruct Ht as [H1 H2]. tret. iApply hwp_wand.
    iSplitL; [rw -H1; iApply (finish_spec tab' cs r t' c with "[$H $Hz]"); [done|by intros ->; rw H1]|].
    iIntros (tab2) "[%Ht H]". rw H1 H2 in Ht. iSplit; [done|]. by iExists _.
  - destruct r; [|done]. assert (shorten c cs l = Some t') as Hs by (by destruct l). iApply hwp_bind. iApply hwp_call.
    iSplitL; [iApply (tt_unlink_spec L tab cs z c k v l sp with "H")|].
    iIntros (tab') "[%Ht (%cz & H & Hz)]". destruct Ht as [H1 H2]. tret. iApply hwp_wand.
    iSplitL; [rw -H1; iApply (finish_spec tab' cs l t' c with "[$H $Hz]"); [done|by intros ->]|].
    iIntros (tab2) "[%Ht H]". rw H1 H2 in Ht. iSplit; [done|]. by iExists _.
  - destruct (end_path L r) as [[p [[[[y cy] ky] vy] yr]]|] eqn:Ee; [|by apply end_path_none in Ee as ->].
    assert (shorten cy (p ++ Fr R y c ky vy l :: cs) yr = Some t') as Hs by (by destruct l).
    destruct (end_path_spec _ _ _ _ _ _ _ _ Ee) as [Hp _]. simpl in Hp.
    iApply hwp_bind. iApply hwp_call. iSplitL.
    { iApply (tree_extreme_spec L tab (Fr R z c k v l :: cs) r sp). by rw focus_plug. }
    iIntros (y') "[-> H]". unfold end_addr. rw Ee. rw -Hp -focus_zip.
    iDestruct "H" as "[%Hr2 (Hs & Ht & Hc)]". tsimpl. iDestruct "Ht" as "[Hy Ht]".
    assert (up (tt_sentinel tab) (p ++ Fr R z c k v l :: cs) = up z p) as Hup by (by destruct p).
    do 3 (iApply hwp_field; iFrame "Hy"; iIntros "Hy"; tsimpl). rw Hup.
    iApply hwp_call. iSplitL.
    { iApply (detach_spec tab p cs z c k v l y cy ky vy yr sp). iSplit; [done|]. tsimpl. rw Hup. iFrame. }
    iIntros (tab') "[%Ht (%zr & %q & H)]". destruct Ht as [-> Ht].
    iApply (replace_spec tab cs z c k v l zr y cy ky vy); [done|done|]. iFrame "H".
    iIntros (tab' cz Hsame) "H Hz". destruct Hsame as [H1 H2]. tret. rw -focus_zip. iApply hwp_wand.
    iSplitL; [rw -H1; iApply (finish_spec tab' _ yr t' cy with "[$H $Hz]"); [done|by intros ->; destruct p]|].
    iIntros (tab2) "[%Ht2 H]". rw H1 H2 in Ht2. iSplit; [done|]. by iExists _.
Qed.

(** ** Whole tables *)

Lemma entry_remove tab t sp us e vs :
  table_ok tab t -> inorder t = us ++ e :: vs ->
  focus tab [] t sp
  ⊢ hwp (remove_node tab e.1)
      (λ tab', ∃ t' sp', ⌜tt_sentinel tab' = tt_sentinel tab /\ table_ok tab' t' /\ inorder t' = us ++ vs⌝ ∧
                         focus tab' [] t' sp').
Proof.
  intros [Hsz Hb Hrb Hk] Hi. pose proof Hi as Hi'. destruct (focus_entry _ _ _ _ Hi) as (cs & c & l & r & -> & -> & ->).
  destruct (del_node_ok cs e.1 c e.2.1 e.2.2 l r Hrb) as (t' & Hd & Hrb' & Hin).
  iIntros "H". iEval (rw -focus_whole) in "H". iApply hwp_wand. iSplitL; [by iApply (remove_node_spec with "H")|].
  iIntros (tab') "[%Ht (%sp' & H)]". destruct Ht as [Hs Hz]. iExists t', sp'. iSplit; [|done]. iPureIntro.
  assert (inorder t' = (before cs ++ inorder l) ++ inorder r ++ after_focus cs) as Hin'
    by (by rw Hin -!assoc_L).
  revert Hin'. generalize (before cs ++ inorder l) (inorder r ++ after_focus cs) Hi'. intros us vs Hu Hin'.
  rw Hu in Hsz, Hb, Hk. rw length_app /= in Hsz. rw length_app /= in Hb. split_and!; [done| |done]. split.
  - rw Hz Hsz Hin' length_app wrap_id; [|unfold fits]; lia.
  - rw Hin' length_app. lia.
  - done.
  - rw fmap_app fmap_cons in Hk. apply increasing_mid in Hk as (_ & _ & Hk). by rw Hin' fmap_app.
Qed.

(** *** By key, and at the ends *)

Context `{HK : !KeyLaws}.

Definition ts_remove (key : Z) (xs : list (Z * Z)) : cc_stat * option Z * list (Z * Z) :=
  match ts_split key xs with
  | Some (us, e, vs) => (CC_OK, Some e.2, us ++ vs) | None => (CC_ERR_KEY_NOT_FOUND, None, xs)
  end.

(** The status and the value of [r], and the table left. *)
Definition removed tab (res : cc_stat * option Z * list (Z * Z)) (r : tt_result) : hpropI rbnode :=
  (⌜r.1 = res.1 /\ tt_sentinel r.2 = tt_sentinel tab⌝ ∧ table_at r.2 res.2)%I.

(** The node of an entry is read and removed. *)
Lemma take_entry {B} tab t sp us e vs (k : Z -> treetable -> M (heap rbnode) B) (Φ : B -> hpropI rbnode) :
  table_ok tab t -> inorder t = us ++ e :: vs ->
  focus tab [] t sp ∗
  (∀ tab', ⌜tt_sentinel tab' = tt_sentinel tab⌝ → table_at tab' (us ++ vs).*2 -∗ hwp (k e.2.2 tab') Φ)
  ⊢ hwp (v ← field rb_value e.1; table ← remove_node tab e.1; k v table) Φ.
Proof.
  intros Hok Hi. iIntros "[H HΦ]". iApply hwp_bind. iApply hwp_bind. iApply (entry_load tab t sp _ e); [exact Hi|].
  iFrame "H". iIntros (c [Hk Hv]) "H". tret. rw Hv. iApply hwp_call.
  iSplitL "H"; [by iApply (entry_remove with "H")|]. iIntros (tab') "(%t' & %sp' & %Ht & H)".
  destruct Ht as (Hs & Hok' & Hin). iApply ("HΦ" with "[%]"); [done|]. iApply (table_done with "H"); [done|].
  by rw Hin.
Qed.

Lemma tt_remove_spec key tab xs :
  table_at tab xs ⊢ hwp (cc_treetable_remove tab key) (removed tab (ts_remove key xs)).
Proof using HK HL.
  iIntros "(%t & %sp & %Ht & H)". destruct Ht as [Hok <-]. unfold cc_treetable_remove, ts_remove.
  iApply hwp_call. iSplitL; [by iApply (get_node_found key with "H")|]. iIntros (n) "Hn".
  destruct (ts_split key (inorder t).*2) as [[[us e] vs]|]; iDestruct "Hn" as "[%Hn H]".
  - destruct Hn as (us' & vs' & Hi & -> & ->). iDestruct (entry_test with "H") as "[[_ %Hn] H]"; [exact Hi|].
    simpl in Hn. rw Hn. iApply (take_entry tab t sp us' (n, e) vs'); [done|exact Hi|]. iFrame "H".
    iIntros (tab' Hs) "H". tret. iSplit; [done|]. by rw fmap_app.
  - subst n. rw Z.eqb_refl. tret. iSplit; [done|]. by iApply (table_done with "H").
Qed.

(** The first entry for [L], the last for [R], of a table that is not empty. *)
Definition ts_drop_end (d : side) (xs : list (Z * Z)) : list (Z * Z) :=
  match d with L => tail xs | R => removelast xs end.

Lemma end_node d tab xs e :
  ts_end d xs = Some e ->
  table_at tab xs
  ⊢ hwp (tree_extreme d tab (tt_root tab))
      (λ n, ∃ t sp us vs, ⌜table_ok tab t /\ inorder t = us ++ (n, e) :: vs /\ (us ++ vs).*2 = ts_drop_end d xs⌝ ∧
                          focus tab [] t sp).
Proof using HL.
  intros He. iIntros "(%t & %sp & %Ht & H)". destruct Ht as [Hok <-].
  iDestruct (focus_root with "H") as "[%Hr H]". rw Hr. iApply hwp_wand.
  iSplitL "H"; [iApply (tree_extreme_spec with "H")|]. iIntros (n) "[-> H]".
  unfold end_addr. destruct (end_path d t) as [[p [[[[y c] kk] v] u]]|] eqn:Ee; [|apply end_path_none in Ee as ->; by destruct d].
  assert (exists us vs, inorder t = us ++ (y, (kk, v)) :: vs /\ (us ++ vs).*2 = ts_drop_end d (inorder t).*2 /\ e = (kk, v))
    as (us & vs & Hi & Hd & ->); [|iExists t, sp, us, vs; by iSplit].
  destruct d.
  - apply end_path_left in Ee. rw Ee in He |- *. exists [], (inorder u ++ after_focus p). simpl in He. by injection He as <-.
  - apply end_path_right in Ee. rw Ee in He |- *. exists (before p ++ inorder u), []. rw app_nil_r.
    simpl in He |- *. rw fmap_app last_snoc in He. injection He as <-. by rw (fmap_app _ _ [_]) removelast_last.
Qed.

(** The status and value an end gives. *)
Definition ts_remove_end (d : side) (xs : list (Z * Z)) : cc_stat * option Z * list (Z * Z) :=
  match ts_end d xs with
  | Some e => (CC_OK, Some e.2, ts_drop_end d xs) | None => (CC_ERR_KEY_NOT_FOUND, None, xs)
  end.

Lemma table_size tab xs : table_at tab xs ⊢ ⌜tt_size tab = zlen xs /\ zlen xs < 2 ^ 32⌝ ∧ table_at tab xs.
Proof.
  iIntros "(%t & %sp & %Ht & H)". destruct Ht as [Hok <-]. iSplit; [|by iApply (table_done with "H")].
  iPureIntro. rw length_fmap. split; apply Hok.
Qed.

Lemma tt_remove_first_spec tab xs :
  table_at tab xs ⊢ hwp (cc_treetable_remove_first tab) (removed tab (ts_remove_end L xs)).
Proof using HK HL.
  iIntros "H". iDestruct (table_size with "H") as "[%Hz H]". destruct Hz as [Hz _].
  unfold cc_treetable_remove_first, ts_remove_end. rw Hz. destruct xs as [|e xs]; [by tret; iSplit|].
  rw (proj2 (Z.eqb_neq _ _)); [|simpl; lia]. cbn [ts_end head]. iApply hwp_call.
  iSplitL; [by iApply (end_node L with "H")|]. iIntros (n) "(%t & %sp & %us & %vs & %Ht & H)".
  destruct Ht as (Hok & Hi & Hd). iApply (take_entry tab t sp us (n, e) vs); [done|exact Hi|]. iFrame "H".
  iIntros (tab' Hs) "H". tret. rw Hd. by iSplit.
Qed.

(** With [remove_last] the table must not be empty. *)
Lemma tt_remove_last_spec tab xs :
  xs <> [] ->
  table_at tab xs ⊢ hwp (cc_treetable_remove_last tab) (removed tab (ts_remove_end R xs)).
Proof using HK HL.
  intros Hx. iIntros "H". unfold cc_treetable_remove_last, ts_remove_end.
  destruct (ts_end R xs) as [e|] eqn:He; [|by apply last_None in He]. iApply hwp_call.
  iSplitL; [by iApply (end_node R with "H")|]. iIntros (n) "(%t & %sp & %us & %vs & %Ht & H)".
  destruct Ht as (Hok & Hi & Hd). iDestruct (entry_test with "H") as "[[_ %Hn] H]"; [exact Hi|]. simpl in Hn. rw Hn.
  iApply (take_entry tab t sp us (n, e) vs); [done|exact Hi|]. iFrame "H".
  iIntros (tab' Hs) "H". tret. rw Hd. by iSplit.
Qed.
End Remove.
