(* ===== verification/CcTreeIter.v ===== *)
(** * Making, emptying, freeing and iterating over a tree table

    The first and the last operation of a table, and the iterator, which may
    remove the entry it returned last. *)

From iris.proofmode Require Import proofmode.
From Stdlib Require Import Sorted.
From S2P Require Import Prelude CMem CState CHeap HeapLogic CcArray CcTreeTable RbTree CcTreeFacts CcTreeRead CcTreeRemove.

Section Whole.
Context `{HA : !NodeAlloc rbnode} `{HU : !Uninit rbnode} `{HC : !KeyCmp} `{HL : !NodeAllocLaws rbnode}.
Implicit Types (tab : treetable) (cs : list frame) (t : tree).

Lemma empty_ok s : table_ok (mk_tt s s 0) E.
Proof. split; [done|done| |constructor]. split; [done|by exists 0%nat]. Qed.

Lemma tt_new_spec :
  emp ⊢ hwp cc_treetable_new
      (λ r, match r.2 with Some tab => ⌜r.1 = CC_OK⌝ ∧ table_at tab [] | None => ⌜r.1 = CC_ERR_ALLOC⌝ ∧ emp end).
Proof using HL.
  iIntros "_". unfold cc_treetable_new, cc_treetable_new_conf. iApply hwp_bind. iApply hwp_gets. iIntros ([]); [|by tret].
  cbn [negb]. cbn iota. iApply hwp_bind. iApply hwp_calloc. iSplit.
  - rw Z.eqb_refl. tret. done.
  - iIntros (a) "Ha". iDestruct (pointsto_not_null with "Ha") as "[%Hn Ha]". rw (proj2 (Z.eqb_neq _ _) Hn).
    iApply hwp_bind. iApply hwp_update. iFrame "Ha". iIntros "Ha". tret. iSplit; [done|].
    iApply (table_done _ E NULL); [apply empty_ok|done|]. unfold focus. tsimpl. iSplit; [done|]. by iFrame.
Qed.

Lemma tree_destroy_spec fuel : forall s y t q,
  (height t < fuel)%nat ->
  s ↦ y ∗ tree_at s t q ⊢ hwp (tree_destroy fuel s (root_of s t)) (λ _, s ↦ y).
Proof.
  induction fuel as [|fuel IH]; intros s y t q Hf; [lia|]. iIntros "[Hs Ht]". cbn [tree_destroy].
  iDestruct (root_test with "[$Hs $Ht]") as "[%Ht [Hs Ht]]". rw Ht.
  destruct t as [|a c k v l r]; cbn [is_leaf]; cbn iota; [by tret|]. simpl in Hf. tsimpl. iDestruct "Ht" as "(Ha & Hl & Hr)".
  iApply hwp_field. iFrame "Ha". iIntros "Ha". tsimpl. iApply hwp_call.
  iSplitL "Hs Hl"; [iApply (IH with "[$Hs $Hl]"); lia|]. iIntros (_) "Hs".
  iApply hwp_field. iFrame "Ha". iIntros "Ha". tsimpl. iApply hwp_call.
  iSplitL "Hs Hr"; [iApply (IH with "[$Hs $Hr]"); lia|]. iIntros (_) "Hs". iApply hwp_free. iFrame.
Qed.

(** The nodes of a table are freed; the sentinel is left. *)
Lemma nodes_freed {B} tab xs (m : M (heap rbnode) B) (Φ : B -> hpropI rbnode) :
  table_at tab xs ∗ (∀ sp, tt_sentinel tab ↦ sent sp -∗ hwp m Φ)
  ⊢ hwp (fuel ← heap_fuel; tree_destroy fuel (tt_sentinel tab) (tt_root tab) ;; m) Φ.
Proof.
  iIntros "[(%t & %sp & %Ht & H) HΦ]". iApply hwp_bind. iApply (focus_fuel tab [] t sp). iFrame "H".
  iIntros (n Hn) "[%Hr (Hs & Ht & _)]". tsimpl. rw Hr. iApply hwp_call. iSplitL "Hs Ht".
  - iApply (tree_destroy_spec with "[$Hs $Ht]"). pose proof (height_entries t). simpl in Hn. lia.
  - iIntros (_) "Hs". by iApply "HΦ".
Qed.

Lemma tt_remove_all_spec tab xs :
  table_at tab xs
  ⊢ hwp (cc_treetable_remove_all tab) (λ tab', ⌜tt_sentinel tab' = tt_sentinel tab⌝ ∧ table_at tab' []).
Proof.
  iIntros "H". iApply nodes_freed. iFrame "H". iIntros (sp) "Hs". tret. iSplit; [done|].
  iApply (table_done _ E sp); [apply empty_ok|done|]. unfold focus. tsimpl. iSplit; [done|]. by iFrame.
Qed.

Lemma tt_destroy_spec tab xs : table_at tab xs ⊢ hwp (cc_treetable_destroy tab) (λ _, emp).
Proof.
  iIntros "H". iApply nodes_freed. iFrame "H". iIntros (sp) "Hs". iApply hwp_free. iFrame.
Qed.

(** ** The iterator *)

(** The iterator has passed the entries [us] and is before [vs]; the last entry
    it returned is [cur], when that is not removed. *)
Definition titer_at (it : tree_iter) (us : list (Z * Z)) (cur : option (Z * Z)) (vs : list (Z * Z)) : hpropI rbnode :=
  (∃ t sp us' cur' vs',
    ⌜table_ok (ti_table it) t /\ inorder t = us' ++ option_list cur' ++ vs' /\
     us = us'.*2 /\ cur = snd <$> cur' /\ vs = vs'.*2 /\
     (forall e, cur' = Some e -> ti_current it = e.1) /\
     ti_next it = addr_or (tt_sentinel (ti_table it)) (head vs')⌝ ∧
    focus (ti_table it) [] t sp)%I.

Lemma titer_init_spec tab xs :
  table_at tab xs
  ⊢ hwp (cc_treetable_iter_init tab) (λ it, ⌜ti_table it = tab⌝ ∧ titer_at it [] None xs).
Proof using HL.
  iIntros "(%t & %sp & %Ht & H)". destruct Ht as [Hok <-]. unfold cc_treetable_iter_init.
  iDestruct (focus_root with "H") as "[%Hr H]". rw Hr. iApply hwp_call.
  iSplitL; [iApply (tree_extreme_spec with "H")|]. iIntros (n) "[-> H]". tret. iSplit; [done|].
  iExists t, sp, [], None, (inorder t). iSplit; [|done]. iPureIntro. cbn [ti_table ti_current ti_next]. split_and!; try done.
  destruct (is_leaf t) eqn:El; [by destruct t|]. rw (end_addr_next _ R t [] []); [|done]. by rw app_nil_r.
Qed.

Lemma titer_end_spec it us cur :
  titer_at it us cur []
  ⊢ hwp (cc_treetable_iter_next it) (λ r, ⌜r = (CC_ITER_END, None, it)⌝ ∧ titer_at it us cur []).
Proof.
  iIntros "(%t & %sp & %us' & %cur' & %vs' & %Ht & H)". unfold cc_treetable_iter_next.
  destruct Ht as (Hok & Hi & Hu & Hc & Hv & Ha & Hn). destruct vs'; [|done]. rw {1}Hn /addr_or /= Z.eqb_refl. tret.
  iSplit; [done|]. iExists t, sp, us', cur', []. by iSplit.
Qed.

Lemma titer_next_spec it us cur e vs :
  titer_at it us cur (e :: vs)
  ⊢ hwp (cc_treetable_iter_next it)
      (λ r, ⌜r.1 = (CC_OK, Some e) /\ ti_table r.2 = ti_table it⌝ ∧ titer_at r.2 (us ++ option_list cur) (Some e) vs).
Proof using HL.
  iIntros "(%t & %sp & %us' & %cur' & %vs' & %Ht & H)". unfold cc_treetable_iter_next.
  destruct Ht as (Hok & Hi & -> & -> & Hv & Ha & Hn). destruct vs' as [|e' vs']; [done|].
  simpl in Hv. injection Hv as -> ->. rw assoc_L in Hi. cbn [head addr_or fmap option_fmap option_map default from_option] in Hn.
  rw Hn. iDestruct (entry_test with "H") as "[[%Ht _] H]"; [exact Hi|]. rw Ht.
  iApply hwp_bind. iApply hwp_bind. iApply (entry_load _ t sp _ e'); [exact Hi|]. iFrame "H". iIntros (c [Hk Hv]) "H". tret.
  iApply hwp_bind. iApply hwp_bind. iApply (entry_load _ t sp _ e'); [exact Hi|]. iFrame "H". iIntros (c' [Hk' Hv']) "H". tret.
  iApply hwp_call. iSplitL; [iApply (entry_neighbour R with "H"); exact Hi|]. iIntros (n) "[-> H]". tret.
  iSplit; [iPureIntro; cbn [fst snd ti_table]; rw Hk' Hv; by destruct e' as [? []]|].
  iExists t, sp, (us' ++ option_list cur'), (Some e'), vs'. cbn [fst snd ti_table ti_current ti_next]. iSplit; [|done]. iPureIntro. split_and!; try done.
  - rw fmap_app. by destruct cur'.
  - by intros ? [= ->].
Qed.

(** The entry is removed; the others stay where they are, the next one among
    them. *)
Lemma titer_remove_spec it us e vs :
  titer_at it us (Some e) vs
  ⊢ hwp (cc_treetable_iter_remove it)
      (λ r, ⌜r.1 = (CC_OK, Some e.2) /\ tt_sentinel (ti_table r.2) = tt_sentinel (ti_table it)⌝ ∧ titer_at r.2 us None vs).
Proof using HL.
  iIntros "(%t & %sp & %us' & %cur' & %vs' & %Ht & H)". unfold cc_treetable_iter_remove.
  destruct Ht as (Hok & Hi & -> & Hc & -> & Ha & Hn). destruct cur' as [e'|]; [|done]. injection Hc as ->.
  rw (Ha e'); [|done]. simpl in Hi. iDestruct (entry_test with "H") as "[[_ %Ht] H]"; [exact Hi|]. rw Ht.
  iApply hwp_bind. iApply hwp_bind. iApply (entry_load _ t sp _ e'); [exact Hi|]. iFrame "H". iIntros (c [Hk Hv]) "H". tret.
  iApply hwp_call. iSplitL "H"; [by iApply (entry_remove with "H")|]. iIntros (tab') "(%t' & %sp' & %Ht' & H)".
  destruct Ht' as (Hs & Hok' & Hi'). tret. iSplit; [iPureIntro; cbn [fst snd ti_table]; by rw Hv|].
  iExists t', sp', us', None, vs'. cbn [fst snd ti_table ti_current ti_next]. iSplit; [|done]. iPureIntro. split_and!; try done.
  by rw Hn Hs.
Qed.

(** Removing twice is refused. *)
Lemma titer_remove_again it : ti_current it = NULL ->
  emp ⊢ hwp (cc_treetable_iter_remove it) (λ r, ⌜r = (CC_ERR_KEY_NOT_FOUND, None, it)⌝).
Proof. intros H. iIntros "_". unfold cc_treetable_iter_remove. rw H Z.eqb_refl. by tret. Qed.

(** The table under the iterator. *)
Lemma titer_table it us cur vs : titer_at it us cur vs ⊢ table_at (ti_table it) (us ++ option_list cur ++ vs).
Proof.
  iIntros "(%t & %sp & %us' & %cur' & %vs' & %Ht & H)". destruct Ht as (Hok & Hi & -> & -> & -> & _).
  iApply (table_done with "H"); [done|]. rw Hi !fmap_app. by destruct cur'.
Qed.

(** A client's loop: every entry the iterator returns that does not satisfy
    [p] is removed.  The entries seen are the result. *)
Fixpoint titer_filter (fuel : nat) (p : Z * Z -> bool) (it : tree_iter) : M (heap rbnode) (list (Z * Z) * treetable) :=
  match fuel with
  | O => hang
  | S fuel =>
      r ← cc_treetable_iter_next it;
      match r with
      | (CC_OK, Some e, it) =>
          r ← (if p e then titer_filter fuel p it
               else r ← cc_treetable_iter_remove it; titer_filter fuel p r.2);
          mret (e :: r.1, r.2)
      | (_, _, it) => mret ([], ti_table it)
      end
  end.

Lemma titer_filter_spec p vs : forall fuel it us cur,
  (length vs < fuel)%nat ->
  titer_at it us cur vs
  ⊢ hwp (titer_filter fuel p it)
      (λ r, ⌜r.1 = vs /\ tt_sentinel r.2 = tt_sentinel (ti_table it)⌝ ∧
            table_at r.2 (us ++ option_list cur ++ filter (fun e => p e = true) vs)).
Proof using HL.
  induction vs as [|e vs IH]; intros fuel it us cur Hf; (destruct fuel as [|fuel]; [simpl in Hf; lia|]);
    cbn [titer_filter]; iIntros "H"; iApply hwp_call.
  - iSplitL; [iApply (titer_end_spec with "H")|]. iIntros (r) "[-> H]". tret. iSplit; [done|].
    by iApply titer_table.
  - iSplitL; [iApply (titer_next_spec with "H")|]. iIntros ([[st x] it']) "[%Hr H]". cbn [fst snd] in *.
    destruct Hr as [[= -> ->] Ht]. cbn iota. simpl in Hf. destruct (p e) eqn:Ep.
    + iApply hwp_call. iSplitL; [iApply (IH with "H"); lia|]. iIntros ([ys tab']) "[%Hr H]". cbn [fst snd] in *.
      destruct Hr as [-> Hs]. tret. iSplit; [by rw Hs Ht|]. rw filter_cons_True; [|done]. by rw -!assoc_L.
    + iApply hwp_bind. iApply hwp_call. iSplitL; [iApply (titer_remove_spec with "H")|].
      iIntros ([[st x] it2]) "[%Hr H]". cbn [fst snd] in *. destruct Hr as [[= -> ->] Hs].
      iApply hwp_wand. iSplitL; [iApply (IH with "H"); lia|]. iIntros ([ys tab']) "[%Hr H]". cbn [fst snd] in *.
      destruct Hr as [-> Hs']. tret. iSplit; [by rw Hs' Hs Ht|]. rw filter_cons_False; [|by rw Ep].
      by rw -!assoc_L.
Qed.
End Whole.
