(* ===== verification/CcTreeProps.v ===== *)
(** * What the tree table promises

    Sequences of calls against a sorted list of keys and values, the number of
    turns a search takes, iteration, and where the code goes wrong.  The
    theorems are about runs of the code on heaps. *)

From iris.proofmode Require Import proofmode.
From Stdlib Require Import Sorted.
From S2P Require Import Prelude CMem CState CHeap HeapLogic CcArray CcTreeTable RbTree CcTreeFacts CcTreeInsert CcTreeRead CcTreeRemove CcTreeIter.

(** ** The specification: sorted lists *)

Inductive top_call :=
  | TAdd (key val : Z) | TGet (key : Z) | TContainsKey (key : Z) | TContainsValue (val : Z)
  | TRemove (key : Z) | TRemoveFirst | TRemoveLast | TRemoveAll
  | TEndKey (d : side) | TEndValue (d : side) | TBeside (d : side) (key : Z)
  | TSize | TForeachKey | TForeachValue.

(** A status and an element, a number, or the elements a callback is given. *)
Inductive treply := RStat (st : cc_stat) (out : option Z) | RNum (n : Z) | RList (l : list Z).

Section Spec.
Context `{HC : !KeyCmp}.

Definition end_reply (g : Z * Z -> Z) (err : cc_stat) (d : side) (xs : list (Z * Z)) : treply :=
  match ts_end d xs with Some e => RStat CC_OK (Some (g e)) | None => RStat err None end.

(** The reply and the list after a call, where [refused] tells whether the
    allocator has no block for a node.  Only the addition of a new key needs
    one.  Beyond the last key, and before the first, the code reports success
    with NULL for a key ([ts_beside]).  For the last entry of an empty table
    the code has no answer. *)
Definition tspec (op : top_call) (refused : bool) (xs : list (Z * Z)) : option (treply * list (Z * Z)) :=
  match op with
  | TAdd key val =>
      match ts_split key xs, refused with
      | None, true => Some (RStat CC_ERR_ALLOC None, xs)
      | _, _ => Some (RStat CC_OK None, ts_insert key val xs)
      end
  | TGet key => Some (RStat (ts_get key xs).1 (ts_get key xs).2, xs)
  | TContainsKey key => Some (RNum (Z.b2z (bool_decide (is_Some (ts_split key xs)))), xs)
  | TContainsValue val => Some (RNum (countb (fun e => e.2 =? val) xs), xs)
  | TRemove key => let r := ts_remove key xs in Some (RStat r.1.1 r.1.2, r.2)
  | TRemoveFirst => let r := ts_remove_end L xs in Some (RStat r.1.1 r.1.2, r.2)
  | TRemoveLast =>
      match xs with [] => None | _ => let r := ts_remove_end R xs in Some (RStat r.1.1 r.1.2, r.2) end
  | TRemoveAll => Some (RStat CC_OK None, [])
  | TEndKey d => Some (end_reply fst CC_ERR_KEY_NOT_FOUND d xs, xs)
  | TEndValue d => Some (end_reply snd CC_ERR_VALUE_NOT_FOUND d xs, xs)
  | TBeside d key => Some (RStat (ts_beside d key xs).1 (ts_beside d key xs).2, xs)
  | TSize => Some (RNum (zlen xs), xs)
  | TForeachKey => Some (RList xs.*1, xs)
  | TForeachValue => Some (RList xs.*2, xs)
  end.

(** The replies and the list of a sequence of calls, with what the allocator
    does at each of them. *)
Fixpoint tspec_run (ops : list top_call) (fl : list bool) (xs : list (Z * Z)) : option (list treply * list (Z * Z)) :=
  match ops, fl with
  | [], _ => Some ([], xs)
  | _ :: _, [] => None
  | op :: ops, b :: fl =>
      match tspec op b xs with
      | None => None
      | Some (r, xs) => match tspec_run ops fl xs with None => None | Some (rs, xs) => Some (r :: rs, xs) end
      end
  end.
End Spec.

Section Props.
Context `{HA : !NodeAlloc rbnode} `{HU : !Uninit rbnode} `{HC : !KeyCmp} `{HL : !NodeAllocLaws rbnode} `{HK : !KeyLaws}.
Implicit Types (tab : treetable) (xs : list (Z * Z)).
Local Abbreviation TM := (M (heap rbnode)).

Definition end_call (value : bool) (d : side) : treetable -> TM (cc_stat * option Z) :=
  match value, d with
  | false, L => cc_treetable_get_first_key | false, R => cc_treetable_get_last_key
  | true, L => cc_treetable_get_first_value | true, R => cc_treetable_get_last_value
  end.

Definition read_reply tab (r : cc_stat * option Z) : treply * treetable := (RStat r.1 r.2, tab).
Definition remove_reply (r : tt_result) : treply * treetable := (RStat r.1.1 r.1.2, r.2).

Definition tree_call (op : top_call) tab : TM (treply * treetable) :=
  match op with
  | TAdd key val => r ← cc_treetable_add tab key val; mret (RStat r.1 None, r.2)
  | TGet key => r ← cc_treetable_get tab key; mret (read_reply tab r)
  | TContainsKey key => b ← cc_treetable_contains_key tab key; mret (RNum (Z.b2z b), tab)
  | TContainsValue val => n ← cc_treetable_contains_value tab val; mret (RNum n, tab)
  | TRemove key => r ← cc_treetable_remove tab key; mret (remove_reply r)
  | TRemoveFirst => r ← cc_treetable_remove_first tab; mret (remove_reply r)
  | TRemoveLast => r ← cc_treetable_remove_last tab; mret (remove_reply r)
  | TRemoveAll => tab ← cc_treetable_remove_all tab; mret (RStat CC_OK None, tab)
  | TEndKey d => r ← end_call false d tab; mret (read_reply tab r)
  | TEndValue d => r ← end_call true d tab; mret (read_reply tab r)
  | TBeside R key => r ← cc_treetable_get_greater_than tab key; mret (read_reply tab r)
  | TBeside L key => r ← cc_treetable_get_lesser_than tab key; mret (read_reply tab r)
  | TSize => mret (RNum (cc_treetable_size tab), tab)
  | TForeachKey => l ← cc_treetable_foreach_key tab; mret (RList l, tab)
  | TForeachValue => l ← cc_treetable_foreach_value tab; mret (RList l, tab)
  end.

Fixpoint tree_run (ops : list top_call) tab : TM (list treply * treetable) :=
  match ops with
  | [] => mret ([], tab)
  | op :: ops => r ← tree_call op tab; rs ← tree_run ops r.2; mret (r.1 :: rs.1, rs.2)
  end.

(** Whether the allocator has no block for a node, at each call of a run. *)
Fixpoint refusals (ops : list top_call) tab (H : heap rbnode) : list bool :=
  match ops with
  | [] => []
  | op :: ops =>
      (calloc_at H =? NULL) ::
      match tree_call op tab H with Done (_, tab') H' => refusals ops tab' H' | _ => [] end
  end.

(** ** One call *)

(** A table after a call, with or without memory for a node. *)
Definition tafter op xs (r : treply * treetable) : hpropI rbnode :=
  (∃ b xs', ⌜tspec op b xs = Some (r.1, xs') /\ zlen xs' <= zlen xs + 1⌝ ∧ table_at r.2 xs')%I.

Lemma tafter_spec op b xs r tab xs' :
  tspec op b xs = Some (r, xs') -> zlen xs' <= zlen xs + 1 -> table_at tab xs' ⊢ tafter op xs (r, tab).
Proof. iIntros (H1 H2) "H". iExists b, xs'. by iSplit. Qed.

(** A call that only reads. *)
Lemma read_step {A} op tab xs (m : TM A) (x : A) (f : A -> treply) :
  (table_at tab xs ⊢ hwp m (λ r, ⌜r = x⌝ ∧ table_at tab xs)) -> tspec op false xs = Some (f x, xs) ->
  table_at tab xs ⊢ hwp (r ← m; mret (f r, tab)) (tafter op xs).
Proof.
  iIntros (Hm Hx) "H". iApply hwp_call. iSplitL; [by iApply Hm|]. iIntros (r) "[-> H]". tret.
  iApply (tafter_spec with "H"); [done|lia].
Qed.

Lemma remove_step op tab xs (m : TM tt_result) res :
  (table_at tab xs ⊢ hwp m (removed tab res)) -> tspec op false xs = Some (RStat res.1.1 res.1.2, res.2) ->
  zlen res.2 <= zlen xs + 1 ->
  table_at tab xs ⊢ hwp (r ← m; mret (remove_reply r)) (tafter op xs).
Proof.
  iIntros (Hm Hx Hn) "H". iApply hwp_call. iSplitL; [by iApply Hm|]. iIntros (r) "[%Hr H]". tret.
  destruct Hr as [Hr _]. iApply (tafter_spec with "H"); [|done]. by rw Hr.
Qed.

Lemma ts_insert_length key val xs : (length (ts_insert key val xs) <= S (length xs))%nat.
Proof.
  induction xs as [|[k v] xs IH]; simpl; [lia|].
  destruct (key_cmp key k <? 0); [done|]. destruct (0 <? key_cmp key k); simpl; lia.
Qed.

Lemma ts_insert_size key val xs : ts_split key xs = None -> length (ts_insert key val xs) = S (length xs).
Proof.
  induction xs as [|[k v] xs IH]; simpl; [done|]. destruct (Z.eqb_spec (key_cmp key k) 0); [done|].
  destruct (ts_split key xs) as [[[??]?]|]; [done|]. intros _.
  destruct (Z.ltb_spec (key_cmp key k) 0); [done|]. destruct (Z.ltb_spec 0 (key_cmp key k)); [|lia]. simpl. by rw IH.
Qed.

Lemma ts_remove_length key xs : (length (ts_remove key xs).2 <= length xs)%nat.
Proof.
  unfold ts_remove. destruct (ts_split key xs) as [[[us e] vs]|] eqn:E; [|done].
  apply ts_split_app in E as ->. simpl. rw !length_app /=. lia.
Qed.

Lemma ts_remove_end_length d xs : (length (ts_remove_end d xs).2 <= length xs)%nat.
Proof.
  unfold ts_remove_end. destruct (ts_end d xs); [|done]. destruct d; simpl.
  - destruct xs; simpl; lia.
  - destruct xs as [|x xs _] using rev_ind; [done|]. rw removelast_last length_app. lia.
Qed.

Lemma tree_call_spec op tab xs :
  zlen xs + 1 < 2 ^ 32 -> is_Some (tspec op false xs) -> table_at tab xs ⊢ hwp (tree_call op tab) (tafter op xs).
Proof using HL HK.
  intros Hb Hop. pose proof (fun k => ts_remove_length k xs). pose proof (fun d => ts_remove_end_length d xs).
  destruct op as [key val|key|key|val|key| | | |d|d|d key| | |]; cbn [tree_call].
  - iIntros "H". iApply hwp_call. iSplitL; [by iApply (tt_add_spec with "H")|]. iIntros ([st tab']) "[[%Hr H]|[%Hr H]]".
    + destruct Hr as [[= -> ->] Hs]. tret. iApply (tafter_spec _ true with "H"); [by rw /= Hs|lia].
    + simpl in Hr. subst st. tret. iApply (tafter_spec _ false with "H"); [by cbn [tspec]; destruct (ts_split key xs)|]. pose proof (ts_insert_length key val xs). lia.
  - apply (read_step (TGet key) tab xs _ _ (fun r => RStat r.1 r.2) (tt_get_spec key tab xs)). done.
  - apply (read_step (TContainsKey key) tab xs _ _ (fun b => RNum (Z.b2z b)) (tt_contains_key_spec key tab xs)).
    done.
  - by apply (read_step (TContainsValue val) tab xs _ _ RNum (tt_contains_value_spec tab val xs)).
  - apply (remove_step _ _ _ _ _ (tt_remove_spec key tab xs)); [done|]. specialize (H key). lia.
  - apply (remove_step _ _ _ _ _ (tt_remove_first_spec tab xs)); [done|]. specialize (H0 L). lia.
  - destruct xs as [|e xs]; [by destruct Hop|]. specialize (H0 R).
    apply (remove_step _ _ _ _ (ts_remove_end R (e :: xs))); [by apply tt_remove_last_spec|done|lia].
  - iIntros "H". iApply hwp_call. iSplitL; [iApply (tt_remove_all_spec with "H")|]. iIntros (tab') "[_ H]". tret.
    iApply (tafter_spec _ false with "H"); [done|simpl; lia].
  - destruct d; apply (read_step (TEndKey _) tab xs _ _ (fun r => RStat r.1 r.2)
      (tt_get_end_spec _ rb_key fst _ tab xs (fun _ => eq_refl))); cbn [tspec]; unfold end_reply; by destruct (ts_end _ xs).
  - destruct d; apply (read_step (TEndValue _) tab xs _ _ (fun r => RStat r.1 r.2)
      (tt_get_end_spec _ rb_value snd _ tab xs (fun _ => eq_refl))); cbn [tspec]; unfold end_reply; by destruct (ts_end _ xs).
  - destruct d; by apply (read_step (TBeside _ key) tab xs _ _ (fun r => RStat r.1 r.2) (tt_beside_spec _ key tab xs)).
  - iIntros "H". iDestruct (table_size with "H") as "[%Hz H]". destruct Hz as [Hz _]. unfold cc_treetable_size. rw Hz. tret.
    iApply (tafter_spec _ false with "H"); [done|lia].
  - by apply (read_step TForeachKey tab xs _ _ RList (foreach_spec_key tab xs)).
  - by apply (read_step TForeachValue tab xs _ _ RList (foreach_spec_value tab xs)).
Qed.

(** ** When memory runs out *)

Lemma field_reads {A B} (f : rbnode -> A) a (k : A -> TM B) h x h' :
  (v ← field f a; k v) h = Done x h' -> exists v, k v h = Done x h'.
Proof. unfold field, load, mbind, M_bind. destruct (h !! a); [|done]. simpl. eauto. Qed.

Lemma add_loop_reads fuel key s x y h r h' : add_loop fuel key s x y h = Done r h' -> h' = h.
Proof.
  revert x y. induction fuel as [|fuel IH]; intros x y; [done|]. simpl. destruct (x =? s); [by injection 1|].
  intros [k Hk]%field_reads. destruct (key_cmp key k <? 0); [|destruct (0 <? key_cmp key k); [|by injection Hk]];
    apply field_reads in Hk as [c Hc]; by eapply IH.
Qed.

(** The only cause of CC_ERR_ALLOC is an allocator with no block, and without
    a block the table is as large as before. *)
Lemma add_refused tab key val H r H' :
  cc_treetable_add tab key val H = Done r H' ->
  (r.1 = CC_ERR_ALLOC -> calloc_at H = NULL) /\ (calloc_at H = NULL -> r.2 = tab).
Proof.
  unfold cc_treetable_add. intros (fuel & h1 & [= <- <-] & Hr)%bind_done.
  apply bind_done in Hr as ([x y] & h1 & Hl & Hr). apply add_loop_reads in Hl as ->.
  destruct (x =? tt_sentinel tab); cbn [negb] in Hr.
  - apply bind_done in Hr as (n & h1 & Hn & Hr). unfold node_malloc in Hn.
    destruct (Z.eqb_spec (calloc_at H) NULL) as [E|E]; injection Hn as <- <-; [by injection Hr as <- _|].
    rw (proj2 (Z.eqb_neq _ _) E) in Hr. split; [|by intros ?].
    do 5 apply bind_done in Hr as (? & ? & _ & Hr).
    destruct (y =? tt_sentinel (set_tt_size _ _)); apply bind_done in Hr as (? & ? & _ & Hr); [by injection Hr as <- _|].
    do 3 apply bind_done in Hr as (? & ? & _ & Hr). by injection Hr as <- _.
  - apply bind_done in Hr as (? & ? & _ & Hr). by injection Hr as <- _.
Qed.

(** ** Sequences of calls *)

(** The part [h] of the heap holds exactly the sentinel and the nodes of the
    table, and their keys and values are [xs]. *)
Definition table_holds tab xs (h : heap rbnode) : Prop := hprop_at (table_at tab xs) h.

Lemma table_holds_tree tab xs h :
  table_holds tab xs h ->
  exists t sp, table_ok tab t /\ (inorder t).*2 = xs /\ hprop_at (focus tab [] t sp) h.
Proof. intros (t & sp & [H1 H2] & H3). by exists t, sp. Qed.

Lemma table_holds_keys tab xs h :
  table_holds tab xs h -> increasing xs /\ stdpp.base.size h = S (length xs).
Proof.
  intros (t & sp & Hok & <- & Hf)%table_holds_tree. split; [apply Hok|].
  destruct Hf as (_ & h1 & h2 & -> & Hd & [-> _] & h3 & h4 & -> & Hd' & Ht & ->).
  rw map_size_disj_union; [|done]. rw map_size_disj_union; [|done].
  rw map_size_singleton (tree_size _ _ _ _ Ht) length_fmap map_size_empty. lia.
Qed.

Lemma table_holds_size tab xs h : table_holds tab xs h -> tt_size tab = zlen xs.
Proof. intros (t & sp & Hok & <- & _)%table_holds_tree. rw length_fmap. apply Hok. Qed.

(** One call, with what the allocator has for it. *)
Lemma tree_call_exact op tab xs h hf :
  table_holds tab xs h -> h ##ₘ hf -> zlen xs + 1 < 2 ^ 32 -> is_Some (tspec op false xs) ->
  exists r tab' h' xs', tree_call op tab (h ∪ hf) = Done (r, tab') (h' ∪ hf) /\ h' ##ₘ hf /\
    tspec op (calloc_at (h ∪ hf) =? NULL) xs = Some (r, xs') /\ table_holds tab' xs' h' /\ zlen xs' <= zlen xs + 1.
Proof using HL HK.
  intros Hh Hd Hb Hop.
  destruct (hwp_run _ _ _ _ _ (tree_call_spec op tab xs Hb Hop) Hh Hd) as ([r tab'] & h' & Hr & Hd' & b & xs' & [Hs Hn] & H').
  cbn [fst snd] in *. exists r, tab', h', xs'. split_and!; [done..| |done|done].
  destruct op as [key val| | | | | | | | | | | | |]; try done. cbn [tree_call tspec] in Hr, Hs |- *.
  destruct (ts_split key xs) eqn:Es; [done|]. apply bind_done in Hr as (ra & h1 & Ha & [= <- <- _]).
  apply add_refused in Ha as [H1 H2]. destruct b.
  - injection Hs as Hs <-. by rw (H1 (eq_sym Hs)) -Hs.
  - destruct (Z.eqb_spec (calloc_at (h ∪ hf)) NULL) as [E|E]; [exfalso|done]. injection Hs as _ <-.
    pose proof (table_holds_size _ _ _ Hh). pose proof (table_holds_size _ _ _ H') as Hz.
    rw (H2 E) (ts_insert_size _ _ _ Es) in Hz. lia.
Qed.

(** Calls that never ask an empty table for its last entry. *)
Lemma tree_run_spec ops tab xs :
  zlen xs + zlen ops < 2 ^ 32 -> (forall fl, length fl = length ops -> is_Some (tspec_run ops fl xs)) ->
  table_at tab xs
  ⊢ hwp (tree_run ops tab) (λ r, ∃ fl xs', ⌜tspec_run ops fl xs = Some (r.1, xs')⌝ ∧ table_at r.2 xs').
Proof using HL HK.
  revert tab xs. induction ops as [|op ops IH]; intros tab xs Hm Hsp; iIntros "H"; cbn [tree_run].
  - tret. iExists [], xs. by iSplit.
  - rw length_cons in Hm. iApply hwp_call. iSplitL.
    { iApply (tree_call_spec with "H"); [lia|]. destruct (Hsp (replicate (length (op :: ops)) false)) as [q Hq];
        [by rw length_replicate|]. simpl in Hq. by destruct (tspec op false xs). }
    iIntros ([r tab']) "(%b & %xs' & %Hs & H)". destruct Hs as [Hs Hn]. cbn [fst snd] in *.
    iApply hwp_call. iSplitL.
    { iApply (IH with "H"); [lia|]. intros fl Hl. destruct (Hsp (b :: fl)) as [q Hq]; [by rw /= Hl|]. simpl in Hq.
      rw Hs in Hq. by destruct (tspec_run ops fl xs'). }
    iIntros (rs) "(%fl & %xs2 & %Hr & H)". tret. iExists (b :: fl), xs2. iSplit; [|done]. iPureIntro. simpl. by rw Hs Hr.
Qed.

(** ** How long a search takes *)

Lemma descend_reads fuel d s n h x h' : descend fuel d s n h = Done x h' -> h' = h.
Proof.
  revert n. induction fuel as [|fuel IH]; intros n; [done|]. intros [c Hc]%field_reads.
  destruct (c =? s); [by injection Hc|by eapply IH].
Qed.

Lemma key_loop_reads fuel key s n h x h' : key_loop fuel key s n h = Done x h' -> h' = h.
Proof.
  revert n. induction fuel as [|fuel IH]; intros n; [done|]. intros [k Hk]%field_reads.
  destruct (key_cmp key k <? 0); [|destruct (0 <? key_cmp key k); [|by injection Hk]];
    apply field_reads in Hk as [c Hc]; (destruct (c =? s); [by injection Hc|by eapply IH]).
Qed.

Lemma height_turns tab t : table_ok tab t -> (height t <= 2 * Nat.log2 (S (length (inorder t).*2)))%nat.
Proof. intros Hok. rw length_fmap. apply rb_root_height, Hok. Qed.

Lemma key_turns fuel key tab xs :
  xs <> [] -> (2 * Nat.log2 (S (length xs)) <= fuel)%nat ->
  table_at tab xs
  ⊢ hwp (key_loop fuel key (tt_sentinel tab) (tt_root tab)) (λ a, ⌜a = NULL <-> ts_split key xs = None⌝ ∧ table_at tab xs).
Proof using HK.
  iIntros (Hx Hf) "(%t & %sp & %Ht & H)". destruct Ht as [Hok <-]. pose proof (height_turns tab t Hok) as Hh.
  iDestruct (focus_root with "H") as "[%Hr H]". rw Hr. iApply hwp_wand.
  iSplitL; [iApply (key_loop_spec with "H"); [by destruct t|lia]|]. iIntros (n) "[-> H]".
  pose proof (find_key_zip key [] t) as Hz. destruct (find_key key [] t) as [cs t'] eqn:Ef. simpl in Hz |- *.
  rw (find_key_split key t cs t' (ok_keys _ _ Hok) Ef). destruct t' as [|a c k v l r]; simpl.
  - iSplit; [done|]. iApply (table_done _ t sp); [done|done|]. by rw focus_whole Hz.
  - iDestruct "H" as "[%Hr' (Hs & (Ha & Ht) & Hc)]". tsimpl.
    iDestruct (pointsto_not_null with "Ha") as "[%Hn Ha]". iSplit; [by iPureIntro|].
    iApply (table_done _ t sp); [done|done|]. rw -Hz -focus_whole. iSplit; [done|]. tsimpl. iFrame.
Qed.

Lemma end_turns fuel d tab xs :
  xs <> [] -> (2 * Nat.log2 (S (length xs)) <= fuel)%nat ->
  table_at tab xs
  ⊢ hwp (a ← descend fuel d (tt_sentinel tab) (tt_root tab); load a)
      (λ c, ⌜ts_end d xs = Some (rb_key c, rb_value c)⌝ ∧ table_at tab xs).
Proof.
  iIntros (Hx Hf) "(%t & %sp & %Ht & H)". destruct Ht as [Hok <-]. pose proof (height_turns tab t Hok) as Hh.
  iDestruct (focus_root with "H") as "[%Hr H]". rw Hr. iApply hwp_call.
  iSplitL; [iApply (descend_spec with "H"); [by destruct t|lia]|]. iIntros (n) "[-> H]".
  pose proof (end_entry d t) as He. unfold end_addr. destruct (end_path d t) as [[p [[[[y c] k] v] u]]|]; [|by subst t].
  destruct He as (us & vs & Hi & ->). iApply (entry_load tab t sp us (y, (k, v)) vs); [exact Hi|]. iFrame "H".
  iIntros (c' [Hk Hv]) "H". iSplit; [by rw Hk Hv|]. by iApply (table_done with "H").
Qed.

(** C23. A search takes at most twice the logarithm of the number of keys.  On a
    table of [n] keys the loop that looks for a key ends within
    [2 * log2 (n + 1)] turns without a change to the memory, and finds a node
    exactly if the key is there; the walks to the first and the last node end
    within as many turns at the first and the last entry. *)
Theorem tree_search_turns fuel key tab xs h hf :
  table_holds tab xs h -> h ##ₘ hf -> xs <> [] -> (2 * Nat.log2 (S (length xs)) <= fuel)%nat ->
  (exists a, key_loop fuel key (tt_sentinel tab) (tt_root tab) (h ∪ hf) = Done a (h ∪ hf) /\
     (a = NULL <-> ts_split key xs = None)) /\
  (forall d, exists a c, descend fuel d (tt_sentinel tab) (tt_root tab) (h ∪ hf) = Done a (h ∪ hf) /\
     (h ∪ hf) !! a = Some c /\ ts_end d xs = Some (rb_key c, rb_value c)).
Proof using HK.
  intros Hh Hd Hx Hf. split.
  - destruct (hwp_run _ _ _ _ _ (key_turns fuel key tab xs Hx Hf) Hh Hd) as (a & h' & Hr & _ & Ha & _).
    exists a. pose proof (key_loop_reads _ _ _ _ _ _ _ Hr) as E. rw E in Hr. by split.
  - intros d. destruct (hwp_run _ _ _ _ _ (end_turns fuel d tab xs Hx Hf) Hh Hd) as (c & h' & Hr & _ & Hc & _).
    unfold mbind, M_bind in Hr. destruct (descend fuel d _ _ (h ∪ hf)) as [a h1| | |] eqn:Ed; [|done..].
    pose proof (descend_reads _ _ _ _ _ _ _ Ed) as ->. exists a, c. split; [done|]. unfold load in Hr.
    destruct ((h ∪ hf) !! a); [|done]. by injection Hr as -> _.
Qed.

(** ** Iteration *)

(** C24. Iteration visits every entry once, in the order of the keys, and may
    remove what it visits.  A client's loop that removes through the iterator
    every entry failing a predicate sees exactly the entries of the table, in
    order, and leaves the table of those that satisfy it; the nodes of the
    others are freed. *)
Theorem tree_iteration (p : Z * Z -> bool) fuel tab xs h hf :
  table_holds tab xs h -> h ##ₘ hf -> (length xs < fuel)%nat ->
  exists tab' h',
    (it ← cc_treetable_iter_init tab; titer_filter fuel p it) (h ∪ hf) = Done (xs, tab') (h' ∪ hf) /\ h' ##ₘ hf /\
    table_holds tab' (filter (fun e => p e = true) xs) h'.
Proof using HL.
  intros Hh Hd Hf.
  assert (table_at tab xs ⊢ hwp (it ← cc_treetable_iter_init tab; titer_filter fuel p it)
            (λ r, ⌜r.1 = xs⌝ ∧ table_at r.2 (filter (fun e => p e = true) xs))) as Hs.
  { iIntros "H". iApply hwp_call. iSplitL; [iApply (titer_init_spec with "H")|]. iIntros (it) "[_ H]".
    iApply hwp_wand. iSplitL; [by iApply (titer_filter_spec with "H")|]. iIntros (r) "[%Hr H]". destruct Hr as [Hr _].
    iSplit; [by iPureIntro|iExact "H"]. }
  destruct (hwp_run _ _ _ _ _ Hs Hh Hd) as ([ys tab'] & h' & Hr & Hd' & Hys & H').
  simpl in Hys. subst ys. eauto.
Qed.

(** The life of a table leaves the heap as it was. *)
Lemma tree_life ops h :
  zlen ops < 2 ^ 32 -> (forall fl, length fl = length ops -> is_Some (tspec_run ops fl [])) ->
  exists r h', (r ← cc_treetable_new;
     match r.2 with
     | None => mret None
     | Some tab => rs ← tree_run ops tab; cc_treetable_destroy rs.2 ;; mret (Some rs.1)
     end) h = Done r h' /\ h' = h /\
    (forall rs, r = Some rs -> exists fl xs, tspec_run ops fl [] = Some (rs, xs)).
Proof using HL HK.
  intros Hm Hsp.
  assert (emp ⊢ hwp (r ← cc_treetable_new;
     match r.2 with
     | None => mret None
     | Some tab => rs ← tree_run ops tab; cc_treetable_destroy rs.2 ;; mret (Some rs.1)
     end) (λ r, ⌜forall rs, r = Some rs -> exists fl xs, tspec_run ops fl [] = Some (rs, xs)⌝ ∧ emp)) as Hs.
  { iIntros "_". iApply hwp_call. iSplitL; [by iApply tt_new_spec|]. iIntros ([st [tab|]]) "[_ H]"; cbn [snd]; [|by tret; iSplit].
    iApply hwp_call. iSplitL; [by iApply (tree_run_spec with "H")|]. iIntros ([rs tab']) "(%fl & %xs & %Hr & H)". cbn [fst snd] in *.
    iApply hwp_call. iSplitL; [iApply (tt_destroy_spec with "H")|]. iIntros (_) "_". tret. iSplit; [|done].
    iPureIntro. intros ? [= <-]. eauto. }
  destruct (hwp_run _ _ _ ∅ h Hs eq_refl (map_disjoint_empty_l _)) as (r & h' & Hr & _ & Hx & ->).
  rw !left_id_L in Hr. eauto.
Qed.

(** ** Where the code goes wrong *)

(** The greatest key has no greater one; the code reports success with the key
    of the sentinel, NULL, and likewise below the smallest. *)
Lemma beside_the_ends tab xs h k v ys :
  table_holds tab xs h -> key_cmp k k = 0 ->
  (xs = ys ++ [(k, v)] ->
   exists h', cc_treetable_get_greater_than tab k h = Done (CC_OK, Some NULL) h' /\ table_holds tab xs h') /\
  (xs = (k, v) :: ys ->
   exists h', cc_treetable_get_lesser_than tab k h = Done (CC_OK, Some NULL) h' /\ table_holds tab xs h').
Proof using HK.
  intros Hh Hk. pose proof (proj1 (table_holds_keys _ _ _ Hh)) as Hi.
  pose proof (fun d => hwp_run _ _ _ _ ∅ (tt_beside_spec d k tab xs) Hh (map_disjoint_empty_r _)) as Hr.
  setoid_rewrite (right_id_L ∅ (∪)) in Hr. split; intros ->.
  - destruct (Hr R) as (r & h' & Hrun & _ & -> & H'). exists h'. unfold cc_treetable_get_greater_than. rw Hrun.
    apply increasing_mid in Hi as (Hb & _ & _). unfold ts_beside. rw ts_split_found; [done| |done].
    by apply (above_trans k (k, v)); [simpl; lia|].
  - destruct (Hr L) as (r & h' & Hrun & _ & -> & H'). exists h'. unfold cc_treetable_get_lesser_than. rw Hrun.
    unfold ts_beside. rw (ts_split_found k k v [] ys); [done|constructor|done].
Qed.

(** The sentinel is taken for a node: its children are null pointers. *)
Lemma remove_sentinel tab sp h :
  h !! tt_sentinel tab = Some (sent sp) -> h !! NULL = None -> remove_node tab (tt_sentinel tab) h = Undef.
Proof.
  intros Hs Hn. assert ((NULL =? tt_sentinel tab) = false) as Hne.
  { apply Z.eqb_neq. intros E. by rw E Hs in Hn. }
  assert (forall A B (f : rbnode -> A) (k : A -> TM B), (v ← field f (tt_sentinel tab); k v) h = k (f (sent sp)) h) as Hf.
  { intros A B f k. unfold field, load, mbind, M_bind. by rw Hs. }
  assert (forall A B (m : TM A) (k : A -> TM B), m h = Undef -> (m ≫= k) h = Undef) as Hu.
  { intros A B m k E. unfold mbind, M_bind. by rw E. }
  assert (tree_min tab NULL h = Undef) as Hmin.
  { unfold tree_min, tree_extreme. rw Hne. change ((fuel ← heap_fuel; descend fuel L (tt_sentinel tab) NULL) h)
      with ((c ← field (child L) NULL; if c =? tt_sentinel tab then mret NULL
             else descend (stdpp.base.size h) L (tt_sentinel tab) c) h).
    apply Hu. unfold field, load, mbind, M_bind. by rw Hn. }
  unfold remove_node. rw !Hf. cbn [rb_left rb_right sent]. unfold NULL in *. rw !Hne. by apply Hu, Hu.
Qed.

Lemma holds_sentinel tab xs h hf :
  table_holds tab xs h -> exists sp, (h ∪ hf) !! tt_sentinel tab = Some (sent sp) /\ h !! NULL = None.
Proof.
  intros (t & sp & _ & _ & _ & h1 & h2 & -> & Hd & [-> Hs] & h3 & h4 & -> & Hd' & Ht & H4)%table_holds_tree.
  assert (h4 = ∅) as -> by exact H4. exists sp. split.
  - apply lookup_union_Some_l, lookup_union_Some_l, lookup_singleton_eq.
  - assert (forall q h, hprop_at (tree_at (tt_sentinel tab) t q) h -> h !! NULL = None) as Hn.
    { clear. induction t as [|a c k v l IHl r IHr]; intros q h; simpl; [by intros ->|].
      intros (h1 & h2 & -> & Hd & [-> Ha] & h3 & h4 & -> & Hd' & Hl & Hr).
      rw !lookup_union_None. split_and!; [by apply lookup_singleton_ne|by eapply IHl|by eapply IHr]. }
    rw !lookup_union_None. split_and!; [by apply lookup_singleton_ne|by eapply Hn|done].
Qed.

(** [cc_treetable_remove_last] of an empty table, and the removal through an
    iterator that has not returned an entry, follow a null pointer. *)
Lemma remove_before_first tab xs h hf :
  table_holds tab xs h -> h ##ₘ hf -> hf !! NULL = None ->
  (xs = [] -> cc_treetable_remove_last tab (h ∪ hf) = Undef) /\
  (it ← cc_treetable_iter_init tab; cc_treetable_iter_remove it) (h ∪ hf) = Undef.
Proof using HL.
  intros Hh Hd Hn. assert (forall h tab', table_holds tab' xs h -> tt_sentinel tab' = tt_sentinel tab -> h ##ₘ hf ->
    (tt_sentinel tab' =? NULL) = false /\
    (v ← field rb_value (tt_sentinel tab'); table ← remove_node tab' (tt_sentinel tab'); mret (CC_OK, Some v, table)) (h ∪ hf)
      = Undef) as Hrm.
  { clear Hh Hd h. intros h tab' Hh Ht Hd. destruct (holds_sentinel tab' xs h hf Hh) as (sp & Hs & Hn').
    assert ((h ∪ hf) !! NULL = None) as Hnn by (by apply lookup_union_None). split.
    - apply Z.eqb_neq. intros E. by rw E Hnn in Hs.
    - unfold field, load. unfold mbind at 1, M_bind. unfold mbind at 1, M_bind. rw Hs. simpl.
      unfold mbind at 1, M_bind. by rw (remove_sentinel tab' sp). }
  split.
  - intros ->. destruct (Hrm h tab Hh eq_refl Hd) as [H1 H2].
    destruct (table_holds_tree _ _ _ Hh) as (t & sp & Hok & Ht & Hf). destruct Hf as [Hr _]. simpl in Hr.
    apply fmap_nil_inv in Ht.
    assert (t = E) as -> by (destruct t as [|? ? ? ? l ?]; [done|]; simpl in Ht; by destruct (inorder l)). simpl in Hr.
    unfold cc_treetable_remove_last, tree_max, tree_extreme. rw Hr Z.eqb_refl.
    unfold mbind at 1, M_bind. simpl. by rw H1.
  - destruct (hwp_run _ _ _ _ hf (titer_init_spec tab xs) Hh Hd) as (it & h' & Hr & Hd' & Ht & H').
    assert (ti_current it = tt_sentinel tab) as Hc.
    { unfold cc_treetable_iter_init, mbind, M_bind in Hr. destruct (tree_min _ _ _); [|done..]. by injection Hr as <- _. }
    assert (table_holds tab xs h') as Hh'. { rw -Ht. by apply (entails_at _ _ (titer_table it [] None xs)). }
    destruct (Hrm h' tab Hh' eq_refl Hd') as [H1 H2]. unfold mbind at 1, M_bind. rw Hr.
    unfold cc_treetable_iter_remove. rw Hc Ht H1. unfold mbind, M_bind in H2 |- *.
    destruct (field rb_value (tt_sentinel tab) (h' ∪ hf)); [|done..]. by destruct (remove_node tab _ _).
Qed.

(** ** The tree table as a sorted map *)

Lemma tree_run_exact ops tab xs h hf :
  table_holds tab xs h -> h ##ₘ hf -> zlen xs + zlen ops < 2 ^ 32 ->
  match tspec_run ops (refusals ops tab (h ∪ hf)) xs with
  | Some (rs, xs') =>
      exists tab' h', tree_run ops tab (h ∪ hf) = Done (rs, tab') (h' ∪ hf) /\ h' ##ₘ hf /\ table_holds tab' xs' h'
  | None => hf !! NULL = None -> tree_run ops tab (h ∪ hf) = Undef
  end.
Proof using HL HK.
  revert tab xs h. induction ops as [|op ops IH]; intros tab xs h Hh Hd Hm; [by exists tab, h|].
  rw length_cons in Hm. cbn [tree_run refusals tspec_run].
  destruct (decide (is_Some (tspec op false xs))) as [Hop|Hop].
  - destruct (tree_call_exact op tab xs h hf Hh Hd ltac:(lia) Hop) as (r & tab' & h' & xs' & Hr & Hd' & Hs & H' & Hn).
    rw Hs Hr. specialize (IH tab' xs' h' H' Hd' ltac:(lia)).
    destruct (tspec_run ops (refusals ops tab' (h' ∪ hf)) xs') as [[rs xs2]|].
    + destruct IH as (tab2 & h2 & Hr2 & Hd2 & H2). exists tab2, h2. split_and!; [|done..].
      unfold mbind, M_bind. rw Hr. cbn [fst snd]. by rw Hr2.
    + intros Hf. unfold mbind, M_bind. rw Hr. cbn [fst snd]. by rw IH.
  - destruct op; try (by destruct Hop; eexists).
    + exfalso. apply Hop. cbn [tspec]. destruct (ts_split key xs); by eexists.
    + destruct xs as [|e xs]; [|by destruct Hop; eexists]. intros Hf. cbn [tspec tree_call].
      unfold mbind, M_bind. by rw (proj1 (remove_before_first tab [] h hf Hh Hd Hf) eq_refl).
Qed.

(** C22. The tree table implements a sorted map.  Whatever the rest [hf] of the
    heap is, and whatever total order the comparator stands for, run any
    sequence of calls on a table, and let [refusals] tell for each call whether
    the allocator then has no block.  As long as the last entry of an empty
    table is not asked for, the run returns without an access through a null or
    dangling pointer and without touching [hf]; every reply is the one the
    specification determines from the list of keys and values sorted by key, an
    addition failing exactly when the key is new and there is no block, and
    changing nothing then; afterwards the table is a red-black tree of the
    list ([table_ok]), its keys increase, and the heap holds exactly one node
    per key and the sentinel.  If the last entry of an empty table is asked
    for, the run follows a null pointer. *)
Theorem tree_refines_sorted_map ops tab xs h hf :
  table_holds tab xs h -> h ##ₘ hf -> zlen xs + zlen ops < 2 ^ 32 ->
  (forall rs xs', tspec_run ops (refusals ops tab (h ∪ hf)) xs = Some (rs, xs') ->
     exists tab' h', tree_run ops tab (h ∪ hf) = Done (rs, tab') (h' ∪ hf) /\ h' ##ₘ hf /\
       table_holds tab' xs' h' /\ increasing xs' /\ stdpp.base.size h' = S (length xs')) /\
  (tspec_run ops (refusals ops tab (h ∪ hf)) xs = None -> hf !! NULL = None ->
     tree_run ops tab (h ∪ hf) = Undef).
Proof using HL HK.
  intros Hh Hd Hm. pose proof (tree_run_exact ops tab xs h hf Hh Hd Hm) as Hr. split.
  - intros rs xs' Hs. rw Hs in Hr. destruct Hr as (tab' & h' & Hr & Hd' & H').
    exists tab', h'. split_and!; [done..| |]; by eapply table_holds_keys.
  - intros Hs. by rw Hs in Hr.
Qed.
End Props.

(** ** Runs *)

Definition tree_cells : NodeAlloc rbnode := cell_alloc [8; 16; 24; 32; 40; 48; 56].
Definition any_junk : Uninit rbnode := fun _ => mk_rb 7 7 7 7 7 7.
(** The comparator of [intptr_t] keys that cannot overflow. *)
Definition by_value : KeyCmp := Z.sub.

Lemma by_value_laws : KeyLaws (H := by_value).
Proof. split; unfold key_cmp, by_value; intros; lia. Qed.

(** A black root with a red child. *)
Definition two_keys : treetable := mk_tt 16 8 2.
Definition two_keys_heap : heap rbnode :=
  {[8 := sent 0; 16 := mk_rb 50 5 RB_BLACK 8 24 8; 24 := mk_rb 30 3 RB_RED 16 8 8]}.

Lemma two_keys_hold : table_holds (HC := by_value) two_keys [(30, 3); (50, 5)] two_keys_heap.
Proof.
  assert (8 ↦ sent 0 ∗ 16 ↦ mk_rb 50 5 RB_BLACK 8 24 8 ∗ 24 ↦ mk_rb 30 3 RB_RED 16 8 8 ∗ emp
          ⊢ table_at (HC := by_value) two_keys [(30, 3); (50, 5)]) as Hs.
  { iIntros "(Hs & Ha & Hb & _)". iApply (table_done _ (T 16 Black 50 5 (T 24 Red 30 3 E E) E) 0); [|done|].
    - split; [done|done|split; [done|by exists 1%nat, 0%nat]|by repeat constructor].
    - unfold focus. tsimpl. iSplit; [done|]. iFrame. by iSplit. }
  apply (entails_at _ _ Hs). do 3 (apply cell_sep; [|done|done]). done.
Qed.

Definition tree_demo : list top_call :=
  [TAdd 10 1; TAdd 40 4; TAdd 20 2; TRemove 30; TAdd 40 9; TBeside R 20; TContainsValue 9; TRemoveFirst;
   TRemove 77; TForeachKey; TEndValue R; TRemoveLast; TSize].

(** The replies of the run, with the sorted list it leaves. *)
Example tree_demo_runs :
  exists h, tree_run (HA := tree_cells) (HU := any_junk) (HC := by_value) tree_demo two_keys two_keys_heap
  = Done ([RStat CC_OK None; RStat CC_OK None; RStat CC_OK None; RStat CC_OK (Some 3); RStat CC_OK None;
           RStat CC_OK (Some 40); RNum 1; RStat CC_OK (Some 1); RStat CC_ERR_KEY_NOT_FOUND None;
           RList [20; 40; 50]; RStat CC_OK (Some 5); RStat CC_OK (Some 5); RNum 2], mk_tt 40 8 2) h.
Proof. eexists. by vm_compute. Qed.

(** The allocator has one block fewer than the run asks for, and the last call
    finds the table empty. *)
Definition tree_demo_edges : list top_call :=
  tree_demo ++ [TAdd 60 6; TAdd 70 7; TAdd 80 8; TAdd 90 9; TAdd 95 8; TAdd 60 1; TGet 60; TBeside R 80; TRemoveAll; TRemoveFirst].

Lemma tree_refines_sorted_map_witness :
  table_holds (HC := by_value) two_keys [(30, 3); (50, 5)] two_keys_heap /\
  (exists tab' h',
    tree_run (HA := tree_cells) (HU := any_junk) (HC := by_value) tree_demo_edges two_keys
        (two_keys_heap ∪ {[999 := sent 0]})
      = Done ([RStat CC_OK None; RStat CC_OK None; RStat CC_OK None; RStat CC_OK (Some 3); RStat CC_OK None;
               RStat CC_OK (Some 40); RNum 1; RStat CC_OK (Some 1); RStat CC_ERR_KEY_NOT_FOUND None;
               RList [20; 40; 50]; RStat CC_OK (Some 5); RStat CC_OK (Some 5); RNum 2; RStat CC_OK None;
               RStat CC_OK None; RStat CC_OK None; RStat CC_OK None; RStat CC_ERR_ALLOC None; RStat CC_OK None;
               RStat CC_OK (Some 1); RStat CC_OK (Some 90); RStat CC_OK None; RStat CC_ERR_KEY_NOT_FOUND None], tab') (h' ∪ {[999 := sent 0]}) /\
    h' ##ₘ {[999 := sent 0]} /\ table_holds (HC := by_value) tab' [] h' /\
    StronglySorted (key_lt (HC := by_value)) [] /\ stdpp.base.size h' = 1%nat) /\
  tree_run (HA := tree_cells) (HU := any_junk) (HC := by_value) [TRemoveAll; TRemoveLast] two_keys
    (two_keys_heap ∪ {[999 := sent 0]}) = Undef.
Proof.
  split; [apply two_keys_hold|]. split.
  - apply (tree_refines_sorted_map (HA := tree_cells) (HU := any_junk) (HC := by_value)
           (HL := cell_alloc_laws _) (HK := by_value_laws)) with [(30, 3); (50, 5)].
    + apply two_keys_hold.
    + by apply map_disjoint_singleton_r.
    + done.
    + by vm_compute.
  - apply (tree_refines_sorted_map (HA := tree_cells) (HU := any_junk) (HC := by_value)
           (HL := cell_alloc_laws _) (HK := by_value_laws)) with [(30, 3); (50, 5)].
    + apply two_keys_hold.
    + by apply map_disjoint_singleton_r.
    + done.
    + by vm_compute.
    + done.
Defined.

Lemma tree_search_turns_witness :
  table_holds (HC := by_value) two_keys [(30, 3); (50, 5)] two_keys_heap /\
  (exists a, key_loop (HC := by_value) 2 30 8 16 (two_keys_heap ∪ ∅) = Done a (two_keys_heap ∪ ∅) /\
     (a = NULL <-> ts_split (HC := by_value) 30 [(30, 3); (50, 5)] = None)) /\
  (forall d, exists a c, descend 2 d 8 16 (two_keys_heap ∪ ∅) = Done a (two_keys_heap ∪ ∅) /\
     (two_keys_heap ∪ ∅) !! a = Some c /\ ts_end d [(30, 3); (50, 5)] = Some (rb_key c, rb_value c)).
Proof.
  split; [apply two_keys_hold|].
  apply (tree_search_turns (HC := by_value) (HK := by_value_laws) 2 30 two_keys [(30, 3); (50, 5)] two_keys_heap ∅).
  - apply two_keys_hold.
  - apply map_disjoint_empty_r.
  - done.
  - by vm_compute; repeat constructor.
Defined.

Lemma tree_iteration_witness :
  table_holds (HC := by_value) two_keys [(30, 3); (50, 5)] two_keys_heap /\
  exists tab' h',
    (it ← cc_treetable_iter_init two_keys; titer_filter 3 (fun e => Z.even e.2) it) (two_keys_heap ∪ ∅)
      = Done ([(30, 3); (50, 5)], tab') (h' ∪ ∅) /\ h' ##ₘ ∅ /\ table_holds (HC := by_value) tab' [] h'.
Proof.
  split; [apply two_keys_hold|].
  apply (tree_iteration (HA := tree_cells) (HC := by_value) (HL := cell_alloc_laws _) (fun e => Z.even e.2) 3);
    [apply two_keys_hold|apply map_disjoint_empty_r|simpl; lia].
Defined.
