(* ===== verification/CcTreeSet.v ===== *)
(** * Tree set (src/components/Collections-C/src/cc_treeset.c)

    A set of elements is a tree table that maps each of them to a dummy.  It is
    verified against the specifications of the table (CcTreeInsert.v to
    CcTreeIter.v), not its code: the set refines a finite set of integers with
    the order of the comparator. *)

From iris.proofmode Require Import proofmode.
From Stdlib Require Import Sorted.
From S2P Require Import Prelude CMem CState CHeap HeapLogic CcArray CcTreeTable RbTree CcTreeFacts CcTreeInsert CcTreeRead CcTreeRemove CcTreeIter.

Record treeset := mk_tset { tset_t : treetable; tset_dummy : Z }.
Definition set_table (t : treetable) (set : treeset) : treeset := mk_tset t (tset_dummy set).

Section TreeSet.
Context `{HA : !NodeAlloc rbnode} `{HU : !Uninit rbnode} `{HC : !KeyCmp}.
Local Abbreviation TM := (M (heap rbnode)).
Implicit Types set : treeset.

(** [(int* ) 1], compared with no other pointer. *)
Definition DUMMY : Z := 1.

Definition cc_treeset_new_conf : TM (cc_stat * option treeset) :=
  ok ← header_alloc;
  if negb ok then mret (CC_ERR_ALLOC, None)
  else
    r ← cc_treetable_new_conf;
    match r with
    | (CC_OK, Some table) => mret (CC_OK, Some (mk_tset table DUMMY))
    | (s, _) => mret (s, None)
    end.
Definition cc_treeset_new : TM (cc_stat * option treeset) := cc_treeset_new_conf.

Definition cc_treeset_destroy set : TM unit := cc_treetable_destroy (tset_t set).

Definition cc_treeset_add set (element : Z) : TM (cc_stat * treeset) :=
  r ← cc_treetable_add (tset_t set) element (tset_dummy set); mret (r.1, set_table r.2 set).

(** The status of the table with its error renamed. *)
Definition not_found (s : cc_stat) : cc_stat :=
  match s with CC_ERR_KEY_NOT_FOUND => CC_ERR_VALUE_NOT_FOUND | _ => CC_OK end.

Definition cc_treeset_remove set (element : Z) : TM (cc_stat * option Z * treeset) :=
  r ← cc_treetable_remove (tset_t set) element;
  mret (not_found r.1.1, r.1.2, set_table r.2 set).

Definition cc_treeset_remove_all set : TM treeset :=
  t ← cc_treetable_remove_all (tset_t set); mret (set_table t set).

Definition cc_treeset_get_first set : TM (cc_stat * option Z) :=
  r ← cc_treetable_get_first_key (tset_t set); mret (not_found r.1, r.2).
Definition cc_treeset_get_last set : TM (cc_stat * option Z) :=
  r ← cc_treetable_get_last_key (tset_t set); mret (not_found r.1, r.2).
Definition cc_treeset_get_greater_than set (element : Z) : TM (cc_stat * option Z) :=
  r ← cc_treetable_get_greater_than (tset_t set) element; mret (not_found r.1, r.2).
Definition cc_treeset_get_lesser_than set (element : Z) : TM (cc_stat * option Z) :=
  r ← cc_treetable_get_lesser_than (tset_t set) element; mret (not_found r.1, r.2).

Definition cc_treeset_contains set (element : Z) : TM bool :=
  cc_treetable_contains_key (tset_t set) element.
Definition cc_treeset_size set : Z := cc_treetable_size (tset_t set).
Definition cc_treeset_foreach set : TM (list Z) := cc_treetable_foreach_key (tset_t set).

(** ** Iterator *)

Definition cc_treeset_iter_init set : TM tree_iter := cc_treetable_iter_init (tset_t set).

Definition cc_treeset_iter_next (iter : tree_iter) : TM (cc_stat * option Z * tree_iter) :=
  r ← cc_treetable_iter_next iter;
  match r with
  | (CC_OK, Some entry, iter) => mret (CC_OK, Some entry.1, iter)
  | (_, _, iter) => mret (CC_ITER_END, None, iter)
  end.

Definition cc_treeset_iter_remove (iter : tree_iter) : TM (cc_stat * option Z * tree_iter) :=
  cc_treetable_iter_remove iter.
End TreeSet.

(** ** Ordered sets *)

Inductive tset_call :=
  | SAdd (x : Z) | SRemove (x : Z) | SContains (x : Z) | SEnd (d : side) | SBeside (d : side) (x : Z)
  | SRemoveAll | SSize | SForeach.

Inductive sreply := SStat (st : cc_stat) (out : option Z) | SNum (n : Z) | SList (l : list Z).

Section Spec.
Context `{HC : !KeyCmp}.

(** [x] is the first element of [S] for [L], the last for [R]. *)
Definition extreme (d : side) (S : gset Z) (x : Z) : Prop :=
  x ∈ S /\ forall y, y ∈ S -> match d with L => key_cmp x y | R => key_cmp y x end <= 0.

(** The elements of [S] beyond [x]. *)
Definition beyond (d : side) (x : Z) (S : gset Z) : gset Z :=
  filter (fun y => match d with R => key_cmp x y | L => key_cmp y x end < 0) S.

(** What a call on the set [S] answers, and the set it leaves.  A removal hands
    out the dummy; beyond the last element the code gives NULL. *)
Definition sreplies (dummy : Z) (op : tset_call) (S : gset Z) (r : sreply) (S' : gset Z) : Prop :=
  match op with
  | SAdd x => r = SStat CC_OK None /\ S' = {[x]} ∪ S \/ r = SStat CC_ERR_ALLOC None /\ S' = S
  | SRemove x =>
      r = (if decide (x ∈ S) then SStat CC_OK (Some dummy) else SStat CC_ERR_VALUE_NOT_FOUND None) /\ S' = S ∖ {[x]}
  | SContains x => r = SNum (Z.b2z (bool_decide (x ∈ S))) /\ S' = S
  | SEnd d =>
      S' = S /\
      if decide (S = ∅) then r = SStat CC_ERR_VALUE_NOT_FOUND None
      else exists x, extreme d S x /\ r = SStat CC_OK (Some x)
  | SBeside d x =>
      S' = S /\
      if decide (x ∈ S)
      then if decide (beyond d x S = ∅) then r = SStat CC_OK (Some NULL)
           else exists y, extreme (other d) (beyond d x S) y /\ r = SStat CC_OK (Some y)
      else r = SStat CC_ERR_VALUE_NOT_FOUND None
  | SRemoveAll => r = SStat CC_OK None /\ S' = ∅
  | SSize => r = SNum (stdpp.base.size S) /\ S' = S
  | SForeach => S' = S /\ exists l, r = SList l /\ StronglySorted (fun x y => key_cmp x y < 0) l /\ list_to_set l = S
  end.

Inductive sruns (dummy : Z) : list tset_call -> gset Z -> list sreply -> gset Z -> Prop :=
  | sruns_nil S : sruns dummy [] S [] S
  | sruns_cons op ops S r S' rs S'' :
      sreplies dummy op S r S' -> sruns dummy ops S' rs S'' -> sruns dummy (op :: ops) S (r :: rs) S''.
End Spec.

(** ** Lists of entries as sets *)

Section Elements.
Context `{HC : !KeyCmp} `{HK : !KeyLaws}.
(** The comparator tells elements apart. *)
Context (HE : forall x y, key_cmp x y = 0 -> x = y).
Implicit Types (xs : list (Z * Z)).

Definition elements_of xs : gset Z := list_to_set xs.*1.

Lemma key_cmp_refl x : key_cmp x x = 0.
Proof using HK. pose proof (cmp_flip x x). lia. Qed.

Lemma elements_insert x v xs : elements_of (ts_insert x v xs) = {[x]} ∪ elements_of xs.
Proof using All.
  unfold elements_of. induction xs as [|[k w] xs IH]; simpl; [done|].
  destruct (Z.ltb_spec (key_cmp x k) 0); [done|]. destruct (Z.ltb_spec 0 (key_cmp x k)); simpl.
  - rw IH. set_solver.
  - assert (x = k) as -> by (apply HE; lia). set_solver.
Qed.

Lemma values_insert x v xs : Forall (fun e => e.2 = v) xs -> Forall (fun e => e.2 = v) (ts_insert x v xs).
Proof.
  induction 1 as [|[k w] xs Hw Hxs IH]; simpl; [by repeat constructor|].
  destruct (key_cmp x k <? 0); [by repeat constructor|]. destruct (0 <? key_cmp x k); by constructor.
Qed.

Lemma increasing_keys xs : increasing xs -> StronglySorted (fun x y => key_cmp x y < 0) xs.*1.
Proof. induction 1 as [|e xs _ IH He]; simpl; constructor; [done|]. by apply Forall_fmap. Qed.

Lemma increasing_nodup xs : increasing xs -> NoDup xs.*1.
Proof using HK.
  induction 1 as [|e xs _ IH He]; simpl; constructor; [|done].
  intros (e' & Heq & Hin)%list_elem_of_fmap. rewrite list.Forall_forall in He. apply He in Hin. unfold key_lt in Hin.
  rw Heq key_cmp_refl in Hin. lia.
Qed.

(** The entries on side [d] of an entry, and the one next to it. *)
Definition part (d : side) us vs : list (Z * Z) := match d with L => us | R => vs end.

Lemma beyond_part d us e vs :
  increasing (us ++ e :: vs) ->
  beyond d e.1 (elements_of (us ++ e :: vs)) = elements_of (part d us vs) /\ increasing (part d us vs).
Proof using All.
  intros Hi. pose proof Hi as (H1 & H2 & _)%increasing_mid. apply increasing_app in Hi as (Hu & Hv & _).
  apply StronglySorted_inv in Hv as [Hv _]. rewrite list.Forall_forall in H1. rewrite list.Forall_forall in H2.
  split; [|by destruct d]. unfold beyond, elements_of. apply leibniz_equiv. intros y.
  rw elem_of_filter !elem_of_list_to_set fmap_app fmap_cons elem_of_app elem_of_cons.
  assert (forall x, x ∈ us.*1 -> key_cmp x e.1 < 0) as Hus.
  { intros x (e' & -> & Hin)%list_elem_of_fmap. by apply H1. }
  assert (forall x, x ∈ vs.*1 -> key_cmp e.1 x < 0) as Hvs.
  { intros x (e' & -> & Hin)%list_elem_of_fmap. by apply H2. }
  assert (forall x z, key_cmp x z < 0 -> ~ key_cmp z x < 0) as Hasym.
  { intros x z Hx Hz. pose proof (cmp_flip x z). lia. }
  pose proof (key_cmp_refl e.1) as Hre. destruct d; simpl; split.
  - intros [Hy [Hin|[->|Hin]]]; [done|lia|]. apply Hvs in Hin. by apply Hasym in Hin.
  - intros Hin. split; [by apply Hus|by left].
  - intros [Hy [Hin|[->|Hin]]]; [|lia|done]. apply Hus in Hin. by apply Hasym in Hin.
  - intros Hin. split; [by apply Hvs|by right; right].
Qed.

(** What a search tells about the set. *)
Lemma split_found x xs us e vs :
  increasing xs -> ts_split x xs = Some (us, e, vs) ->
  x ∈ elements_of xs /\ xs = us ++ e :: vs /\ e.1 = x /\
  elements_of (us ++ vs) = elements_of xs ∖ {[x]}.
Proof using All.
  intros Hi Hs. assert (key_cmp x e.1 = 0) as He%HE.
  { clear Hi. revert us Hs. induction xs as [|e' xs IH]; intros us; simpl; [done|].
    destruct (Z.eqb_spec (key_cmp x e'.1) 0); [by intros [= _ <- _]|].
    destruct (ts_split x xs) as [[[us' e''] vs']|]; [|done]. intros [= _ -> ->]. by eapply IH. }
  apply ts_split_app in Hs as ->. subst x. apply increasing_nodup in Hi. unfold elements_of.
  rw fmap_app fmap_cons in Hi. apply list.NoDup_app in Hi as (_ & H1 & H2). apply list.NoDup_cons in H2 as [H2 _].
  rw !fmap_app fmap_cons !list_to_set_app_L list_to_set_cons. split_and!; [set_solver|done|done|].
  assert (e.1 ∉ us.*1) by (intros Hin; apply (H1 _ Hin), list_elem_of_here). set_solver.
Qed.

Lemma split_absent x xs : ts_split x xs = None -> x ∉ elements_of xs.
Proof using All.
  unfold elements_of. induction xs as [|e xs IH]; simpl; [set_solver|].
  destruct (Z.eqb_spec (key_cmp x e.1) 0) as [|Hne]; [done|].
  destruct (ts_split x xs) as [[[us' e''] vs']|]; [done|]. intros _. specialize (IH eq_refl).
  intros [->%elem_of_singleton|]%elem_of_union; [|done]. by rw key_cmp_refl in Hne.
Qed.

Lemma end_extreme d xs :
  increasing xs ->
  match ts_end d xs with Some e => extreme d (elements_of xs) e.1 | None => elements_of xs = ∅ end.
Proof using All.
  unfold extreme, elements_of. intros Hi. destruct d; simpl.
  - destruct xs as [|e xs]; simpl; [done|]. apply StronglySorted_inv in Hi as [_ He]. split; [set_solver|].
    intros y [->%elem_of_singleton|Hy]%elem_of_union; [by rw key_cmp_refl|].
    apply elem_of_list_to_set, list_elem_of_fmap in Hy as (e' & -> & Hy). rewrite list.Forall_forall in He.
    specialize (He _ Hy). unfold key_lt in He. lia.
  - destruct xs as [|e xs _] using rev_ind; simpl; [done|]. rw last_snoc fmap_app list_to_set_app_L /=.
    apply increasing_mid in Hi as (He & _). split; [set_solver|].
    intros y [Hy|Hy]%elem_of_union; [|rw right_id_L in Hy; apply elem_of_singleton in Hy as ->; by rw key_cmp_refl].
    apply elem_of_list_to_set, list_elem_of_fmap in Hy as (e' & -> & Hy). rewrite list.Forall_forall in He.
    specialize (He _ Hy). unfold key_lt in He. lia.
Qed.

End Elements.

Section Props.
Context `{HA : !NodeAlloc rbnode} `{HU : !Uninit rbnode} `{HC : !KeyCmp} `{HL : !NodeAllocLaws rbnode} `{HK : !KeyLaws}.
(** The comparator tells elements apart. *)
Context (HE : forall x y, key_cmp x y = 0 -> x = y).
Local Abbreviation TM := (M (heap rbnode)).
Implicit Types (set : treeset) (S : gset Z) (xs : list (Z * Z)).

Definition stat_reply set (r : cc_stat * option Z) : sreply * treeset := (SStat r.1 r.2, set).

Definition tset_step (op : tset_call) set : TM (sreply * treeset) :=
  match op with
  | SAdd x => r ← cc_treeset_add set x; mret (SStat r.1 None, r.2)
  | SRemove x => r ← cc_treeset_remove set x; mret (SStat r.1.1 r.1.2, r.2)
  | SContains x => b ← cc_treeset_contains set x; mret (SNum (Z.b2z b), set)
  | SEnd L => r ← cc_treeset_get_first set; mret (stat_reply set r)
  | SEnd R => r ← cc_treeset_get_last set; mret (stat_reply set r)
  | SBeside R x => r ← cc_treeset_get_greater_than set x; mret (stat_reply set r)
  | SBeside L x => r ← cc_treeset_get_lesser_than set x; mret (stat_reply set r)
  | SRemoveAll => set ← cc_treeset_remove_all set; mret (SStat CC_OK None, set)
  | SSize => mret (SNum (cc_treeset_size set), set)
  | SForeach => l ← cc_treeset_foreach set; mret (SList l, set)
  end.

Fixpoint tset_run (ops : list tset_call) set : TM (list sreply * treeset) :=
  match ops with
  | [] => mret ([], set)
  | op :: ops => r ← tset_step op set; rs ← tset_run ops r.2; mret (r.1 :: rs.1, rs.2)
  end.


(** ** One call *)

(** The table of the set has its elements for keys and the dummy for values. *)
Definition set_at set S : hpropI rbnode :=
  (∃ xs, ⌜elements_of xs = S /\ Forall (fun e => e.2 = tset_dummy set) xs⌝ ∧ table_at (tset_t set) xs)%I.

Lemma table_keys tab xs : table_at tab xs ⊢ ⌜increasing xs⌝ ∧ table_at tab xs.
Proof.
  iIntros "(%t & %sp & %Ht & H)". destruct Ht as [Hok <-]. iSplit; [|by iApply (table_done with "H")].
  iPureIntro. apply Hok.
Qed.

Lemma elements_size xs : increasing xs -> Z.of_nat (stdpp.base.size (elements_of xs)) = zlen xs.
Proof using HK. intros Hi. unfold elements_of. rw size_list_to_set; [by rw length_fmap|by apply increasing_nodup]. Qed.

Definition tset_after (op : tset_call) set S (r : sreply * treeset) : hpropI rbnode :=
  (∃ S', ⌜sreplies (tset_dummy set) op S r.1 S' /\ tset_dummy r.2 = tset_dummy set⌝ ∧ set_at r.2 S')%I.

Lemma tset_done op set S r t xs :
  Forall (fun e => e.2 = tset_dummy set) xs -> sreplies (tset_dummy set) op S r (elements_of xs) ->
  table_at t xs ⊢ tset_after op set S (r, set_table t set).
Proof. iIntros (H1 H2) "H". iExists (elements_of xs). iSplit; [done|]. iExists xs. by iSplit. Qed.

(** A call that only reads. *)
Lemma tset_read {A} op set xs (m : TM A) (x : A) (f : A -> sreply) :
  Forall (fun e => e.2 = tset_dummy set) xs ->
  (table_at (tset_t set) xs ⊢ hwp m (λ r, ⌜r = x⌝ ∧ table_at (tset_t set) xs)) ->
  sreplies (tset_dummy set) op (elements_of xs) (f x) (elements_of xs) ->
  table_at (tset_t set) xs ⊢ hwp (r ← m; mret (f r, set)) (tset_after op set (elements_of xs)).
Proof.
  iIntros (Hd Hm Hx) "H". iApply hwp_call. iSplitL; [by iApply Hm|]. iIntros (r) "[-> H]". tret.
  assert (set = set_table (tset_t set) set) as Es by (by destruct set). iEval (rw {2}Es). by iApply (tset_done with "H").
Qed.

(** The status of a call renamed. *)
Lemma renamed {A} set xs (m : TM (cc_stat * A)) (x : cc_stat * A) :
  (table_at (tset_t set) xs ⊢ hwp m (λ r, ⌜r = x⌝ ∧ table_at (tset_t set) xs)) ->
  table_at (tset_t set) xs
  ⊢ hwp (r ← m; mret (not_found r.1, r.2)) (λ r, ⌜r = (not_found x.1, x.2)⌝ ∧ table_at (tset_t set) xs).
Proof. iIntros (Hm) "H". iApply hwp_call. iSplitL; [by iApply Hm|]. iIntros (r) "[-> H]". tret. by iSplit. Qed.

Lemma end_reply_ok d xs dummy :
  increasing xs ->
  sreplies dummy (SEnd d) (elements_of xs)
    (match ts_end d xs with Some e => SStat CC_OK (Some e.1) | None => SStat CC_ERR_VALUE_NOT_FOUND None end)
    (elements_of xs).
Proof using All.
  intros Hi. split; [done|]. pose proof (end_extreme HE d xs Hi) as He. destruct (ts_end d xs) as [e|].
  - rw decide_False; [by exists e.1|]. destruct He as [He _]. set_solver.
  - by destruct (decide (elements_of xs = ∅)).
Qed.

Lemma beside_reply_ok d x xs dummy :
  increasing xs ->
  sreplies dummy (SBeside d x) (elements_of xs)
    (SStat (not_found (ts_beside d x xs).1) (ts_beside d x xs).2) (elements_of xs).
Proof using All.
  intros Hi. split; [done|]. unfold ts_beside. destruct (ts_split x xs) as [[[us e] vs]|] eqn:Es.
  - destruct (split_found HE _ _ _ _ _ Hi Es) as (Hin & -> & <- & _). rw decide_True; [|done].
    destruct (beyond_part HE d us e vs Hi) as [-> Hp]. pose proof (end_extreme HE (other d) _ Hp) as He.
    assert (match d with R => head vs | L => list.last us end = ts_end (other d) (part d us vs)) as -> by (by destruct d).
    destruct (ts_end (other d) (part d us vs)) as [e'|]; simpl.
    + rw decide_False; [by exists e'.1|]. destruct He as [He _]. set_solver.
    + by destruct (decide (elements_of (part d us vs) = ∅)).
  - rw decide_False; [done|]. by apply (split_absent HE).
Qed.

Lemma tset_step_spec op set S :
  stdpp.base.size S + 1 < 2 ^ 32 -> set_at set S ⊢ hwp (tset_step op set) (tset_after op set S).
Proof using All.
  intros Hb. iIntros "(%xs & %Hx & H)". destruct Hx as [<- Hd]. iDestruct (table_keys with "H") as "[%Hi H]".
  rw (elements_size xs Hi) in Hb.
  destruct op as [x|x|x|d|d x| | |]; cbn [tset_step].
  - iApply hwp_bind. iApply hwp_call. iSplitL; [by iApply (tt_add_spec with "H")|].
    iIntros ([st t]) "[[%Hr H]|[%Hr H]]"; cbn [fst snd] in *; [destruct Hr as [[= -> ->] _]|subst st]; tret; tret.
    + iApply (tset_done with "H"); [done|]. by right.
    + iApply (tset_done with "H"); [by apply values_insert|]. left. split; [done|]. by apply (elements_insert HE).
  - iApply hwp_bind. iApply hwp_call. iSplitL; [by iApply (tt_remove_spec with "H")|].
    iIntros ([r t]) "[%Hr H]". cbn [fst snd] in *. destruct Hr as [-> _]. tret. tret. unfold ts_remove.
    destruct (ts_split x xs) as [[[us e] vs]|] eqn:Es; cbn [fst snd not_found].
    + destruct (split_found HE _ _ _ _ _ Hi Es) as (Hin & -> & _ & He). pose proof Hd as [H1 [H2 H3]%Forall_cons_1]%list.Forall_app.
      iApply (tset_done with "H"); [by apply list.Forall_app|]. split; [|exact He].
      rw decide_True; [|done]. by rw H2.
    + iApply (tset_done with "H"); [done|]. apply (split_absent HE) in Es. split; [by rw decide_False|set_solver].
  - iApply (tset_read (SContains x) set xs _ _ (fun b => SNum (Z.b2z b)) Hd (tt_contains_key_spec x _ xs) with "H").
    split; [|done]. do 2 f_equal. apply bool_decide_ext. destruct (ts_split x xs) as [[[us e] vs]|] eqn:Es.
    + destruct (split_found HE _ _ _ _ _ Hi Es) as (Hin & _). naive_solver.
    + apply (split_absent HE) in Es. split; [by intros []|done].
  - assert (forall d, match ts_end d xs with Some e => (CC_OK, Some e.1) | None => (CC_ERR_KEY_NOT_FOUND, None) end =
      match ts_end d xs with Some e => (CC_OK, Some e.1) | None => (CC_ERR_KEY_NOT_FOUND, @None Z) end) as _ by done.
    pose proof (end_reply_ok d xs (tset_dummy set) Hi) as Hrep.
    destruct d; iApply (tset_read (SEnd _) set xs _ _ (fun r => SStat r.1 r.2) Hd
      (renamed set xs _ _ (tt_get_end_spec _ rb_key fst _ _ xs (fun _ => eq_refl))) with "H");
      by destruct (ts_end _ xs).
  - pose proof (beside_reply_ok d x xs (tset_dummy set) Hi) as Hrep.
    destruct d; by iApply (tset_read (SBeside _ x) set xs _ _ (fun r => SStat r.1 r.2) Hd
      (renamed set xs _ _ (tt_beside_spec _ x _ xs)) with "H").
  - iApply hwp_bind. iApply hwp_call. iSplitL; [iApply (tt_remove_all_spec with "H")|]. iIntros (t) "[_ H]". tret. tret.
    by iApply (tset_done with "H").
  - iDestruct (table_size with "H") as "[%Hz H]". destruct Hz as [Hz _]. unfold cc_treeset_size, cc_treetable_size. rw Hz.
    tret. iExists (elements_of xs). iSplit; [iPureIntro; split; [split; [by rw (elements_size xs Hi)|done]|done]|].
    iExists xs. by iSplit.
  - iApply (tset_read SForeach set xs _ _ SList Hd (foreach_spec_key _ xs) with "H"). split; [done|]. exists xs.*1.
    split_and!; [done|by apply increasing_keys|done].
Qed.

(** ** Sequences of calls *)

Lemma sreplies_size dummy op S r S' :
  sreplies dummy op S r S' -> (stdpp.base.size S' <= Datatypes.S (stdpp.base.size S))%nat.
Proof.
  assert (forall x, stdpp.base.size ({[x]} ∪ S) <= Datatypes.S (stdpp.base.size S))%nat as Hadd.
  { intros x. pose proof (size_union_alt {[x]} S) as H. rw size_singleton in H.
    pose proof (subseteq_size (S ∖ {[x]}) S ltac:(set_solver)). lia. }
  destruct op; simpl.
  - intros [[_ ->]|[_ ->]]; [apply Hadd|lia].
  - intros [_ ->]. pose proof (subseteq_size (S ∖ {[x]}) S ltac:(set_solver)). lia.
  - intros [_ ->]. lia.
  - intros [-> _]. lia.
  - intros [-> _]. lia.
  - intros [_ ->]. rw size_empty. lia.
  - intros [_ ->]. lia.
  - intros [-> _]. lia.
Qed.

Lemma tset_run_spec ops set S :
  stdpp.base.size S + zlen ops < 2 ^ 32 ->
  set_at set S ⊢ hwp (tset_run ops set) (λ r, ∃ S', ⌜sruns (tset_dummy set) ops S r.1 S'⌝ ∧ set_at r.2 S').
Proof using All.
  revert set S. induction ops as [|op ops IH]; intros set S Hm; iIntros "H"; cbn [tset_run].
  - tret. iExists S. iSplit; [|done]. iPureIntro. constructor.
  - rw length_cons in Hm. iApply hwp_call. iSplitL; [iApply (tset_step_spec with "H"); lia|].
    iIntros ([r set']) "(%S' & %Hs & H)". cbn [fst snd] in *. destruct Hs as [Hs Hd].
    pose proof (sreplies_size _ _ _ _ _ Hs).
    iApply hwp_call. iSplitL; [iApply (IH with "H"); lia|]. iIntros (rs) "(%S2 & %Hr & H)". tret.
    rw Hd in Hr. iExists S2. iSplit; [|done]. iPureIntro. by econstructor.
Qed.

Definition set_holds set S (h : heap rbnode) : Prop := hprop_at (set_at set S) h.

(** The tree set implements a finite set with an order.  Whatever the rest
    [hf] of the heap is, every sequence of calls on a set returns, without an
    access through a null or dangling pointer and without touching [hf]; the
    replies are those of a finite set whose elements the comparator orders:
    membership, the least and the greatest element, the neighbours of an
    element, the sorted enumeration; an addition may report that memory ran out
    and change nothing. *)
Theorem treeset_refines_ordered_set ops set S h hf :
  set_holds set S h -> h ##ₘ hf -> stdpp.base.size S + zlen ops < 2 ^ 32 ->
  exists rs set' S' h', tset_run ops set (h ∪ hf) = Done (rs, set') (h' ∪ hf) /\ h' ##ₘ hf /\
    sruns (tset_dummy set) ops S rs S' /\ set_holds set' S' h'.
Proof using All.
  intros Hh Hd Hm.
  destruct (hwp_run _ _ _ _ _ (tset_run_spec ops set S Hm) Hh Hd) as ([rs set'] & h' & Hr & Hd' & S' & Hs & H').
  by exists rs, set', S', h'.
Qed.

(** ** Life and iteration *)

Lemma set_new_spec :
  emp ⊢ hwp cc_treeset_new
      (λ r, match r.2 with Some set => ⌜r.1 = CC_OK⌝ ∧ set_at set ∅ | None => ⌜r.1 = CC_ERR_ALLOC⌝ ∧ emp end).
Proof using HL.
  iIntros "_". unfold cc_treeset_new, cc_treeset_new_conf. iApply hwp_bind. iApply hwp_gets. iIntros ([]); [|by tret].
  cbn [negb]. cbn iota. iApply hwp_call. iSplitL; [by iApply tt_new_spec|].
  iIntros ([st [t|]]) "[%Hr H]"; cbn [fst snd] in *; subst st; tret; (iSplit; [done|]); [|done].
  iExists []. by iSplit; [iPureIntro; split; [|constructor]|].
Qed.

Lemma set_destroy_spec set S : set_at set S ⊢ hwp (cc_treeset_destroy set) (λ _, emp).
Proof. iIntros "(%xs & _ & H)". by iApply tt_destroy_spec. Qed.

(** The iterator gives the elements in order. *)
Lemma set_iter_next_spec it us cur x vs :
  titer_at it us cur (x :: vs)
  ⊢ hwp (cc_treeset_iter_next it) (λ r, ⌜r.1 = (CC_OK, Some x.1)⌝ ∧ titer_at r.2 (us ++ option_list cur) (Some x) vs).
Proof using HL.
  iIntros "H". iApply hwp_call. iSplitL; [iApply (titer_next_spec with "H")|]. iIntros ([[st e] it']) "[%Hr H]".
  cbn [fst snd] in *. destruct Hr as [[= -> ->] _]. cbn iota. tret. by iSplit.
Qed.
Lemma set_iter_end_spec it us cur :
  titer_at it us cur []
  ⊢ hwp (cc_treeset_iter_next it) (λ r, ⌜r = (CC_ITER_END, None, it)⌝ ∧ titer_at it us cur []).
Proof.
  iIntros "H". iApply hwp_call. iSplitL; [iApply (titer_end_spec with "H")|]. iIntros (r) "[-> H]". tret. by iSplit.
Qed.
End Props.

(** ** A run *)

Definition set_cells : NodeAlloc rbnode := cell_alloc [8; 16; 24; 32; 40; 48].
Definition set_junk : Uninit rbnode := fun _ => mk_rb 7 7 7 7 7 7.
Definition by_number : KeyCmp := Z.sub.
Lemma by_number_laws : KeyLaws (H := by_number).
Proof. split; unfold key_cmp, by_number; intros; lia. Qed.

(** An empty set. *)
Definition no_elements : treeset := mk_tset (mk_tt 8 8 0) DUMMY.
Lemma no_elements_hold : set_holds (HC := by_number) no_elements ∅ {[8 := sent 0]}.
Proof.
  exists []. split; [split; [done|constructor]|]. exists E, 0. split; [split; [apply empty_ok|done]|].
  split; [done|]. exists {[8 := sent 0]}, ∅. split_and!; [done|apply map_disjoint_empty_r|done|].
  exists ∅, ∅. split_and!; [done|apply map_disjoint_empty_r|done|done].
Qed.

Definition set_demo : list tset_call :=
  [SAdd 30; SAdd 10; SAdd 20; SAdd 10; SBeside R 10; SBeside L 10; SEnd R; SRemove 30; SRemove 30; SForeach; SSize].

Example set_demo_runs :
  exists set h, tset_run (HA := set_cells) (HU := set_junk) (HC := by_number) set_demo no_elements {[8 := sent 0]}
  = Done ([SStat CC_OK None; SStat CC_OK None; SStat CC_OK None; SStat CC_OK None; SStat CC_OK (Some 20);
           SStat CC_OK (Some 0); SStat CC_OK (Some 30); SStat CC_OK (Some 1); SStat CC_ERR_VALUE_NOT_FOUND None;
           SList [10; 20]; SNum 2], set) h.
Proof. eexists _, _. by vm_compute. Qed.

Lemma treeset_refines_ordered_set_witness :
  set_holds (HC := by_number) no_elements ∅ {[8 := sent 0]} /\
  exists rs set' S' h',
    tset_run (HA := set_cells) (HU := set_junk) (HC := by_number) set_demo no_elements ({[8 := sent 0]} ∪ ∅)
      = Done (rs, set') (h' ∪ ∅) /\ h' ##ₘ ∅ /\
    sruns (HC := by_number) DUMMY set_demo ∅ rs S' /\ set_holds (HC := by_number) set' S' h'.
Proof.
  split; [apply no_elements_hold|].
  apply (treeset_refines_ordered_set (HA := set_cells) (HU := set_junk) (HC := by_number)
           (HL := cell_alloc_laws _) (HK := by_number_laws)).
  - unfold key_cmp, by_number. lia.
  - apply no_elements_hold.
  - apply map_disjoint_empty_r.
  - done.
Defined.
