(* ===== verification/CcList.v ===== *)
(** * Doubly linked list (src/components/Collections-C/src/cc_list.c)

    The nodes are cells of the heap of CHeap.v; the header of a list, its
    size, its head and its tail, is a value each operation returns changed.
    The calls of a callback are given as the list of its arguments; the sorting
    function of the C library is the parameter of CcSlist.v.  The sort in place
    moves nodes, not elements. *)

From S2P Require Import Prelude CMem CState CHeap CcArray CcSlist.

Record lnode := mk_node { n_data : Z; n_next : Z; n_prev : Z }.
#[export] Instance lnode_zeroed : Zeroed lnode := mk_node 0 0 0.
Definition set_data (e : Z) (n : lnode) : lnode := mk_node e (n_next n) (n_prev n).
Definition set_next (p : Z) (n : lnode) : lnode := mk_node (n_data n) p (n_prev n).
Definition set_prev (p : Z) (n : lnode) : lnode := mk_node (n_data n) (n_next n) p.

Record clist := mk_list { l_size : Z; l_head : Z; l_tail : Z }.
Definition set_l_size (n : Z) (l : clist) : clist := mk_list n (l_head l) (l_tail l).
Definition set_l_head (p : Z) (l : clist) : clist := mk_list (l_size l) p (l_tail l).
Definition set_l_tail (p : Z) (l : clist) : clist := mk_list (l_size l) (l_head l) p.

Section List.
Context `{HA : !NodeAlloc lnode} `{HQ : !QSort}.
Local Abbreviation LM := (M (heap lnode)).
Implicit Types l : clist.

(** ** Construction *)

Definition cc_list_new_conf : LM (cc_stat * option clist) :=
  ok ← header_alloc;
  if ok : bool then mret (CC_OK, Some (mk_list 0 NULL NULL)) else mret (CC_ERR_ALLOC, None).

Definition cc_list_new : LM (cc_stat * option clist) := cc_list_new_conf.

(** ** Finding a node *)

(** [n] steps along [f], [n_next] or [n_prev]. *)
Fixpoint go (f : lnode -> Z) (n : nat) (node : Z) : LM Z :=
  match n with O => mret node | S n => p ← field f node; go f n p end.

Definition get_node_at l (index : Z) : LM (cc_stat * Z) :=
  if l_size l <=? index then mret (CC_ERR_OUT_OF_RANGE, NULL)
  else if index <? l_size l / 2
  then node ← go n_next (Z.to_nat index) (l_head l); mret (CC_OK, node)
  else node ← go n_prev (Z.to_nat (l_size l - 1 - index)) (l_tail l); mret (CC_OK, node).

Fixpoint seek_data (n : nat) (element node : Z) : LM Z :=
  match n with
  | O => hang
  | S n =>
      if node =? NULL then mret NULL
      else
        d ← field n_data node;
        if d =? element then mret node else p ← field n_next node; seek_data n element p
  end.

Definition get_node l (element : Z) : LM Z := n ← heap_fuel; seek_data n element (l_head l).

(** ** Linking *)

(** [ins] leaves the place where it is linked. *)
Definition link_gap (ins : Z) : LM unit :=
  n ← field n_next ins;
  (if n =? NULL then mret tt
   else n ← field n_next ins; p ← field n_prev ins; update n (set_prev p)) ;;
  p ← field n_prev ins;
  if p =? NULL then mret tt
  else p ← field n_prev ins; n ← field n_next ins; update p (set_next n).

Definition link_behind (base ins : Z) : LM unit :=
  link_gap ins ;;
  bp ← field n_prev base;
  if bp =? NULL then
    update ins (set_prev NULL) ;;
    update ins (set_next base) ;;
    update base (set_prev ins)
  else
    bp ← field n_prev base;
    update ins (set_prev bp) ;;
    p ← field n_prev ins;
    update p (set_next ins) ;;
    update ins (set_next base) ;;
    update base (set_prev ins).

Definition link_after (base ins : Z) : LM unit :=
  link_gap ins ;;
  bn ← field n_next base;
  if bn =? NULL then
    update ins (set_prev base) ;;
    update base (set_next ins) ;;
    update ins (set_next NULL)
  else
    bn ← field n_next base;
    update ins (set_next bn) ;;
    n ← field n_next ins;
    update n (set_prev ins) ;;
    update ins (set_prev base) ;;
    update base (set_next ins).

(** [n2] follows [n1]; they change places. *)
Definition adjacent (n1 n2 : Z) : LM unit :=
  n2n ← field n_next n2;
  (if n2n =? NULL then mret tt else n2n ← field n_next n2; update n2n (set_prev n1)) ;;
  n2n ← field n_next n2; update n1 (set_next n2n) ;;
  n1p ← field n_prev n1;
  (if n1p =? NULL then mret tt else n1p ← field n_prev n1; update n1p (set_next n2)) ;;
  n1p ← field n_prev n1; update n2 (set_prev n1p) ;;
  update n1 (set_prev n2) ;;
  update n2 (set_next n1).

Definition swap_adjacent (n1 n2 : Z) : LM unit :=
  a ← field n_next n1;
  if a =? n2 then adjacent n1 n2
  else b ← field n_next n2; if b =? n1 then adjacent n2 n1 else mret tt.

Definition swap (n1 n2 : Z) : LM unit :=
  a ← field n_next n1;
  b ← (if a =? n2 then mret true else b ← field n_next n2; mret (b =? n1));
  if b : bool then swap_adjacent n1 n2
  else
    n1_left ← field n_prev n1; n1_right ← field n_next n1;
    n2_left ← field n_prev n2; n2_right ← field n_next n2;
    (if n1_left =? NULL then mret tt else update n1_left (set_next n2)) ;;
    update n2 (set_prev n1_left) ;;
    (if n1_right =? NULL then mret tt else update n1_right (set_prev n2)) ;;
    update n2 (set_next n1_right) ;;
    (if n2_left =? NULL then mret tt else update n2_left (set_next n1)) ;;
    update n1 (set_prev n2_left) ;;
    (if n2_right =? NULL then mret tt else update n2_right (set_prev n1)) ;;
    update n1 (set_next n2_right).

(** ** Unlinking *)

Definition unlinkn l (node : Z) : LM (Z * clist) :=
  data ← field n_data node;
  p ← field n_prev node;
  (if p =? NULL then mret tt
   else p ← field n_prev node; n ← field n_next node; update p (set_next n)) ;;
  p ← field n_prev node;
  l ← (if p =? NULL then n ← field n_next node; mret (set_l_head n l) else mret l);
  n ← field n_next node;
  l ← (if n =? NULL then p ← field n_prev node; mret (set_l_tail p l) else mret l);
  n ← field n_next node;
  (if n =? NULL then mret tt
   else n ← field n_next node; p ← field n_prev node; update n (set_prev p)) ;;
  mem_free node ;;
  mret (data, set_l_size (u32 (l_size l - 1)) l).

(** The elements handed to the callback, in order. *)
Fixpoint unlink_nodes (fuel : nat) l (node : Z) : LM (list Z * clist) :=
  match fuel with
  | O => hang
  | S fuel =>
      if node =? NULL then mret ([], l)
      else
        tmp ← field n_next node;
        r ← unlinkn l node;
        rs ← unlink_nodes fuel r.2 tmp;
        mret (r.1 :: rs.1, rs.2)
  end.

Definition unlinkn_all l : LM (bool * list Z * clist) :=
  if l_size l =? 0 then mret (false, [], l)
  else fuel ← heap_fuel; r ← unlink_nodes fuel l (l_head l); mret (true, r.1, r.2).

Definition cc_list_remove_all_cb l : LM (cc_stat * list Z * clist) :=
  r ← unlinkn_all l;
  if r.1.1 : bool then mret (CC_OK, r.1.2, set_l_tail NULL (set_l_head NULL r.2))
  else mret (CC_ERR_VALUE_NOT_FOUND, r.1.2, r.2).

Definition cc_list_remove_all l : LM (cc_stat * clist) :=
  r ← unlinkn_all l;
  if r.1.1 : bool then mret (CC_OK, set_l_tail NULL (set_l_head NULL r.2))
  else mret (CC_ERR_VALUE_NOT_FOUND, r.2).

(** The header is freed with the nodes. *)
Definition cc_list_destroy l : LM unit :=
  if 0 <? l_size l then cc_list_remove_all l ;; mret tt else mret tt.
Definition cc_list_destroy_cb l : LM (list Z) := r ← cc_list_remove_all_cb l; mret r.1.2.

(** ** Adding *)

Definition cc_list_add_first l (element : Z) : LM (cc_stat * clist) :=
  node ← node_calloc;
  if node =? NULL then mret (CC_ERR_ALLOC, l)
  else
    update node (set_data element) ;;
    l ← (if l_size l =? 0 then mret (set_l_tail node (set_l_head node l))
         else
           update node (set_next (l_head l)) ;;
           update (l_head l) (set_prev node) ;;
           mret (set_l_head node l));
    mret (CC_OK, set_l_size (u32 (l_size l + 1)) l).

Definition cc_list_add_last l (element : Z) : LM (cc_stat * clist) :=
  node ← node_calloc;
  if node =? NULL then mret (CC_ERR_ALLOC, l)
  else
    update node (set_data element) ;;
    l ← (if l_size l =? 0 then mret (set_l_tail node (set_l_head node l))
         else
           update node (set_prev (l_tail l)) ;;
           update (l_tail l) (set_next node) ;;
           mret (set_l_tail node l));
    mret (CC_OK, set_l_size (u32 (l_size l + 1)) l).

Definition cc_list_add l (element : Z) : LM (cc_stat * clist) := cc_list_add_last l element.

Definition cc_list_add_at l (element index : Z) : LM (cc_stat * clist) :=
  r ← get_node_at l index;
  let '(stat, base) := r in
  if negb (is_ok stat) then mret (stat, l)
  else
    new ← node_calloc;
    if new =? NULL then mret (CC_ERR_ALLOC, l)
    else
      update new (set_data element) ;;
      link_behind base new ;;
      let l := if index =? 0 then set_l_head new l else l in
      mret (CC_OK, set_l_size (u32 (l_size l + 1)) l).

(** Freeing the nodes linked so far. *)
Fixpoint free_nodes (fuel : nat) (h : Z) : LM unit :=
  match fuel with
  | O => hang
  | S fuel => if h =? NULL then mret tt else tmp ← field n_next h; mem_free h ;; free_nodes fuel tmp
  end.

(** Copies of [n] nodes from [insert] on, linked after the nodes from [h] to [t]. *)
Fixpoint link_copies (n : nat) (insert h t : Z) : LM (bool * Z * Z) :=
  match n with
  | O => mret (true, h, t)
  | S n =>
      new ← node_calloc;
      if new =? NULL then fuel ← heap_fuel; free_nodes fuel h ;; mret (false, NULL, t)
      else
        d ← field n_data insert;
        update new (set_data d) ;;
        r ← (if h =? NULL then mret (new, new)
             else update t (set_next new) ;; update new (set_prev t) ;; mret (h, new));
        insert ← field n_next insert;
        link_copies n insert r.1 r.2
  end.

Definition link_all_externally l : LM (bool * Z * Z) :=
  link_copies (Z.to_nat (l_size l)) (l_head l) NULL NULL.

(** [list2] is not changed; the two lists are distinct. *)
Definition add_all_to_empty l1 l2 : LM (cc_stat * clist) :=
  if l_size l2 =? 0 then mret (CC_OK, l1)
  else
    r ← link_all_externally l2;
    let '(ok, head, tail) := r in
    if negb ok then mret (CC_ERR_ALLOC, l1)
    else mret (CC_OK, mk_list (l_size l2) head tail).

(** The node at the index, or NULL beyond the last, and the one before it. *)
Definition gap_at l (index : Z) : LM (Z * Z) :=
  r ← get_node_at l index;
  let end_ := r.2 in
  if negb (end_ =? NULL) then base ← field n_prev end_; mret (base, end_)
  else r ← get_node_at l (u32 (index - 1)); mret (r.2, end_).

Definition cc_list_add_all_at l1 l2 (index : Z) : LM (cc_stat * clist) :=
  if l_size l2 =? 0 then mret (CC_OK, l1)
  else if l_size l1 <? index then mret (CC_ERR_OUT_OF_RANGE, l1)
  else
    r ← link_all_externally l2;
    let '(ok, head, tail) := r in
    if negb ok then mret (CC_ERR_ALLOC, l1)
    else
      g ← gap_at l1 index;
      let '(base, end_) := g in
      l1 ← (if end_ =? NULL then
              update (l_tail l1) (set_next head) ;;
              update head (set_prev (l_tail l1)) ;;
              mret (set_l_tail tail l1)
            else if base =? NULL then
              update (l_head l1) (set_prev tail) ;;
              update tail (set_next (l_head l1)) ;;
              mret (set_l_head head l1)
            else
              update head (set_prev base) ;;
              update base (set_next head) ;;
              update tail (set_next end_) ;;
              update end_ (set_prev tail) ;;
              mret l1);
      mret (CC_OK, set_l_size (u32 (l_size l1 + l_size l2)) l1).

Definition cc_list_add_all l1 l2 : LM (cc_stat * clist) :=
  if l_size l1 =? 0 then add_all_to_empty l1 l2 else cc_list_add_all_at l1 l2 (l_size l1).

(** ** Splicing *)

Definition splice_between l1 l2 (left right : Z) : LM (clist * clist) :=
  l1 ← (if left =? NULL then
          update (l_head l1) (set_prev (l_tail l2)) ;;
          update (l_tail l2) (set_next (l_head l1)) ;;
          mret (set_l_head (l_head l2) l1)
        else if right =? NULL then
          update (l_tail l1) (set_next (l_head l2)) ;;
          update (l_head l2) (set_prev (l_tail l1)) ;;
          mret (set_l_tail (l_tail l2) l1)
        else
          update left (set_next (l_head l2)) ;;
          update (l_head l2) (set_prev left) ;;
          update right (set_prev (l_tail l2)) ;;
          update (l_tail l2) (set_next right) ;;
          mret l1);
  mret (set_l_size (u32 (l_size l1 + l_size l2)) l1, mk_list 0 NULL NULL).

Definition cc_list_splice_at l1 l2 (index : Z) : LM (cc_stat * clist * clist) :=
  if l_size l2 =? 0 then mret (CC_OK, l1, l2)
  else if l_size l1 <? index then mret (CC_ERR_OUT_OF_RANGE, l1, l2)
  else if l_size l1 =? 0 then mret (CC_OK, l2, mk_list 0 NULL NULL)
  else
    g ← gap_at l1 index;
    r ← splice_between l1 l2 g.1 g.2; mret (CC_OK, r.1, r.2).

Definition cc_list_splice l1 l2 : LM (cc_stat * clist * clist) := cc_list_splice_at l1 l2 (l_size l1).

(** ** Removing *)

(** Status, the element removed or read, and the list. *)
Definition l_result : Type := cc_stat * option Z * clist.

Definition cc_list_remove l (element : Z) : LM l_result :=
  node ← get_node l element;
  if node =? NULL then mret (CC_ERR_VALUE_NOT_FOUND, None, l)
  else r ← unlinkn l node; mret (CC_OK, Some r.1, r.2).

Definition cc_list_remove_at l (index : Z) : LM l_result :=
  r ← get_node_at l index;
  let '(status, node) := r in
  if negb (is_ok status) then mret (status, None, l)
  else r ← unlinkn l node; mret (CC_OK, Some r.1, r.2).

Definition cc_list_remove_first l : LM l_result :=
  if l_size l =? 0 then mret (CC_ERR_VALUE_NOT_FOUND, None, l)
  else r ← unlinkn l (l_head l); mret (CC_OK, Some r.1, r.2).

Definition cc_list_remove_last l : LM l_result :=
  if l_size l =? 0 then mret (CC_ERR_VALUE_NOT_FOUND, None, l)
  else r ← unlinkn l (l_tail l); mret (CC_OK, Some r.1, r.2).

(** ** Access *)

Definition cc_list_replace_at l (element index : Z) : LM l_result :=
  r ← get_node_at l index;
  let '(status, node) := r in
  if is_ok status
  then old ← field n_data node; update node (set_data element) ;; mret (status, Some old, l)
  else mret (status, None, l).

Definition cc_list_get_first l : LM l_result :=
  if l_size l =? 0 then mret (CC_ERR_VALUE_NOT_FOUND, None, l)
  else d ← field n_data (l_head l); mret (CC_OK, Some d, l).

Definition cc_list_get_last l : LM l_result :=
  if l_size l =? 0 then mret (CC_ERR_VALUE_NOT_FOUND, None, l)
  else d ← field n_data (l_tail l); mret (CC_OK, Some d, l).

Definition cc_list_get_at l (index : Z) : LM l_result :=
  r ← get_node_at l index;
  let '(status, node) := r in
  if is_ok status then d ← field n_data node; mret (status, Some d, l)
  else mret (status, None, l).

Definition cc_list_size l : Z := l_size l.

(** ** Loops over the nodes *)

Fixpoint list_reverse_loop (n : nat) (left right : Z) : LM unit :=
  match n with
  | O => mret tt
  | S n =>
      tmpl ← field n_next left;
      tmpr ← field n_prev right;
      swap left right ;;
      list_reverse_loop n tmpl tmpr
  end.

Definition cc_list_reverse l : LM clist :=
  if (l_size l =? 0) || (l_size l =? 1) then mret l
  else
    list_reverse_loop (Z.to_nat (l_size l / 2)) (l_head l) (l_tail l) ;;
    mret (set_l_tail (l_head l) (set_l_head (l_tail l) l)).

(** What [f] makes of [x] and the elements from [node] on. *)
Fixpoint fold_data {A} (fuel : nat) (f : A -> Z -> A) (x : A) (node : Z) : LM A :=
  match fuel with
  | O => hang
  | S fuel =>
      if node =? NULL then mret x
      else d ← field n_data node; p ← field n_next node; fold_data fuel f (f x d) p
  end.

Definition fold_list {A} (f : A -> Z -> A) (x : A) l : LM A :=
  fuel ← heap_fuel; fold_data fuel f x (l_head l).

Definition cc_list_contains l (element : Z) : LM Z :=
  fold_list (fun n x => if x =? element then u32 (n + 1) else n) 0 l.

Definition cc_list_contains_value l (element : Z) (cmp : Z -> Z -> Z) : LM Z :=
  fold_list (fun n x => if cmp x element =? 0 then u32 (n + 1) else n) 0 l.

Definition cc_list_foreach l : LM (list Z) := fold_list (fun xs x => xs ++ [x]) [] l.

Fixpoint index_data (fuel : nat) (cmp : Z -> Z -> Z) (element node i : Z) : LM (cc_stat * option Z) :=
  match fuel with
  | O => hang
  | S fuel =>
      if node =? NULL then mret (CC_ERR_OUT_OF_RANGE, None)
      else
        d ← field n_data node;
        if cmp d element =? 0 then mret (CC_OK, Some i)
        else p ← field n_next node; index_data fuel cmp element p (u32 (i + 1))
  end.

Definition cc_list_index_of l (element : Z) (cmp : Z -> Z -> Z) : LM (cc_stat * option Z) :=
  fuel ← heap_fuel; index_data fuel cmp element (l_head l) 0.

(** The callback combines what two pointers point to and writes the result;
    an element points to [deref element].  The only element of a list is given
    with a null pointer. *)
Definition cc_list_reduce {D} l (deref : Z -> D) (fn : D -> option D -> D) : LM (cc_stat * option D) :=
  if cc_list_size l =? 0 then mret (CC_ERR_OUT_OF_RANGE, None)
  else if cc_list_size l =? 1 then
    d ← field n_data (l_head l); mret (CC_OK, Some (fn (deref d) None))
  else
    d1 ← field n_data (l_head l);
    second ← field n_next (l_head l); d2 ← field n_data second;
    curr ← field n_next second;
    fuel ← heap_fuel;
    r ← fold_data fuel (fun res d => fn res (Some (deref d))) (fn (deref d1) (Some (deref d2))) curr;
    mret (CC_OK, Some r).

(** ** New lists and arrays *)

(** [n] elements from [node] on are added to [sub]; a failure destroys it. *)
Fixpoint sub_nodes (n : nat) (node : Z) (sub : clist) : LM (cc_stat * option clist) :=
  match n with
  | O => mret (CC_OK, Some sub)
  | S n =>
      d ← field n_data node;
      r ← cc_list_add sub d;
      if negb (is_ok r.1) then cc_list_destroy r.2 ;; mret (r.1, None)
      else node ← field n_next node; sub_nodes n node r.2
  end.

Definition cc_list_sublist l (b e : Z) : LM (cc_stat * option clist) :=
  if (e <? b) || (l_size l <=? e) then mret (CC_ERR_INVALID_RANGE, None)
  else
    r ← cc_list_new_conf;
    match r with
    | (CC_OK, Some sub) =>
        r ← get_node_at l b;
        let '(status, node) := r in
        if negb (is_ok status) then mret (status, None)
        else sub_nodes (Z.to_nat (e - b + 1)) node sub
    | (status, _) => mret (status, None)
    end.

(** The elements from [node] on are added to [copy] through [cp]; a failure
    destroys it. *)
Fixpoint copy_data (fuel : nat) (cp : Z -> Z) (node : Z) (copy : clist) : LM (cc_stat * option clist) :=
  match fuel with
  | O => hang
  | S fuel =>
      if node =? NULL then mret (CC_OK, Some copy)
      else
        d ← field n_data node;
        r ← cc_list_add copy (cp d);
        if negb (is_ok r.1) then cc_list_destroy r.2 ;; mret (r.1, None)
        else node ← field n_next node; copy_data fuel cp node r.2
  end.

Definition cc_list_copy_deep l (cp : Z -> Z) : LM (cc_stat * option clist) :=
  r ← cc_list_new_conf;
  match r with
  | (CC_OK, Some copy) => fuel ← heap_fuel; copy_data fuel cp (l_head l) copy
  | (status, _) => mret (status, None)
  end.

Definition cc_list_copy_shallow l : LM (cc_stat * option clist) := cc_list_copy_deep l (fun x => x).

(** The status of [cc_list_add] is not looked at. *)
Fixpoint filter_data (fuel : nat) (pred : Z -> bool) (curr : Z) (filtered : clist) : LM clist :=
  match fuel with
  | O => hang
  | S fuel =>
      if curr =? NULL then mret filtered
      else
        d ← field n_data curr;
        filtered ← (if pred d then r ← cc_list_add filtered d; mret r.2 else mret filtered);
        curr ← field n_next curr;
        filter_data fuel pred curr filtered
  end.

Definition cc_list_filter l (pred : Z -> bool) : LM (cc_stat * option clist) :=
  if cc_list_size l =? 0 then mret (CC_ERR_OUT_OF_RANGE, None)
  else
    r ← cc_list_new;
    match r.2 with
    | Some filtered =>
        fuel ← heap_fuel; filtered ← filter_data fuel pred (l_head l) filtered; mret (CC_OK, Some filtered)
    | None => mret (CC_ERR_ALLOC, None)
    end.

Fixpoint list_filter_mut_loop (fuel : nat) (pred : Z -> bool) (curr : Z) l : LM clist :=
  match fuel with
  | O => hang
  | S fuel =>
      if curr =? NULL then mret l
      else
        next ← field n_next curr;
        d ← field n_data curr;
        l ← (if negb (pred d) then r ← unlinkn l curr; mret r.2 else mret l);
        list_filter_mut_loop fuel pred next l
  end.

Definition cc_list_filter_mut l (pred : Z -> bool) : LM (cc_stat * clist) :=
  if cc_list_size l =? 0 then mret (CC_ERR_OUT_OF_RANGE, l)
  else fuel ← heap_fuel; l ← list_filter_mut_loop fuel pred (l_head l) l; mret (CC_OK, l).

Fixpoint read_data (n : nat) (node : Z) : LM (list Z) :=
  match n with
  | O => mret []
  | S n => d ← field n_data node; node ← field n_next node; xs ← read_data n node; mret (d :: xs)
  end.

Definition cc_list_to_array l : LM (cc_stat * list Z) :=
  if l_size l =? 0 then mret (CC_ERR_INVALID_RANGE, [])
  else
    ok ← words_alloc (l_size l * PTR);
    if negb ok then mret (CC_ERR_ALLOC, [])
    else xs ← read_data (Z.to_nat (l_size l)) (l_head l); mret (CC_OK, xs).

(** ** Sorting *)

Fixpoint write_data (xs : list Z) (node : Z) : LM unit :=
  match xs with
  | [] => mret tt
  | x :: xs => update node (set_data x) ;; node ← field n_next node; write_data xs node
  end.

Definition cc_list_sort l (cmp : Z -> Z -> Z) : LM cc_stat :=
  r ← cc_list_to_array l;
  if negb (is_ok r.1) then mret r.1
  else write_data (qsort cmp r.2) (l_head l) ;; mret CC_OK.

(** The turns of the loop with [l] nodes of the left part and [r] of the right
    part merged; [left] and [right] are the first and the last node at the end. *)
Fixpoint merge_loop (n : nat) (cmp : Z -> Z -> Z) (l_size r_size i l r left right l_part r_part : Z) : LM (Z * Z) :=
  match n with
  | O => mret (left, right)
  | S n =>
      a ← field n_data l_part; b ← field n_data r_part;
      if cmp a b <=? 0 then
        if (i =? 0) && (l_size + r_size =? 2) then mret (left, right)
        else if l =? l_size then
          right ← go n_next (Z.to_nat (r_size - 1 - r)) r_part; mret (left, right)
        else
          l_part ← field n_next l_part;
          merge_loop n cmp l_size r_size (i + 1) (l + 1) r left right l_part r_part
      else
        tmp ← field n_next r_part;
        link_behind l_part r_part ;;
        if (i =? 0) && (l_size + r_size =? 2) then mret (r_part, l_part)
        else if r + 1 =? r_size then
          right ← go n_next (Z.to_nat (l_size - 1 - l)) l_part; mret (left, right)
        else
          merge_loop n cmp l_size r_size (i + 1) l (r + 1) (if i =? 0 then r_part else left) right l_part tmp
  end.

Definition merge (cmp : Z -> Z -> Z) (left right l_size r_size : Z) : LM (Z * Z) :=
  merge_loop (Z.to_nat (l_size + r_size)) cmp l_size r_size 0 0 0 left right left right.

(** The first node, and the list. *)
Fixpoint split (fuel : nat) (cmp : Z -> Z -> Z) l (b size : Z) : LM (Z * clist) :=
  match fuel with
  | O => hang
  | S fuel =>
      if size <? 2 then mret (b, l)
      else
        let l_size := size / 2 in
        let r_size := size / 2 + size mod 2 in
        center ← go n_next (Z.to_nat l_size) b;
        lh ← split fuel cmp l b l_size;
        rh ← split fuel cmp lh.2 center r_size;
        m ← merge cmp lh.1 rh.1 l_size r_size;
        mret (m.1, set_l_tail m.2 (set_l_head m.1 rh.2))
  end.

Definition cc_list_sort_in_place l (cmp : Z -> Z -> Z) : LM clist :=
  fuel ← heap_fuel; r ← split fuel cmp l (l_head l) (l_size l); mret r.2.

(** ** Iterators *)

(** Both iterators, up and down. *)
Record list_iter := mk_li { li_index : Z; li_list : clist; li_last : Z; li_next : Z }.
Implicit Types it : list_iter.

(** Node [last] is unlinked; the index stays. *)
Definition iter_unlink it : LM (cc_stat * option Z * list_iter) :=
  if li_last it =? NULL then mret (CC_ERR_VALUE_NOT_FOUND, None, it)
  else
    r ← unlinkn (li_list it) (li_last it);
    mret (CC_OK, Some r.1, mk_li (li_index it) r.2 NULL (li_next it)).

Definition iter_set it (element : Z) : LM (cc_stat * option Z) :=
  if li_last it =? NULL then mret (CC_ERR_VALUE_NOT_FOUND, None)
  else
    old ← field n_data (li_last it);
    update (li_last it) (set_data element) ;;
    mret (CC_OK, Some old).

Definition cc_list_iter_init l : list_iter := mk_li 0 l NULL (l_head l).
Definition cc_list_iter_remove it : LM (cc_stat * option Z * list_iter) := iter_unlink it.
Definition cc_list_iter_replace it (element : Z) : LM (cc_stat * option Z) := iter_set it element.
Definition cc_list_iter_index it : Z := u32 (li_index it - 1).

Definition cc_list_iter_add it (element : Z) : LM (cc_stat * list_iter) :=
  new_node ← node_calloc;
  if new_node =? NULL then mret (CC_ERR_ALLOC, it)
  else
    update new_node (set_data element) ;;
    link_after (li_last it) new_node ;;
    let l := li_list it in
    let l := if li_index it =? l_size l then set_l_tail new_node l else l in
    mret (CC_OK, mk_li (u32 (li_index it + 1)) (set_l_size (u32 (l_size l + 1)) l) (li_last it) (li_next it)).

Definition cc_list_iter_next it : LM (cc_stat * option Z * list_iter) :=
  if li_next it =? NULL then mret (CC_ITER_END, None, it)
  else
    data ← field n_data (li_next it);
    p ← field n_next (li_next it);
    mret (CC_OK, Some data, mk_li (u32 (li_index it + 1)) (li_list it) (li_next it) p).

Definition cc_list_diter_init l : list_iter := mk_li (l_size l) l NULL (l_tail l).
Definition cc_list_diter_remove it : LM (cc_stat * option Z * list_iter) := iter_unlink it.
Definition cc_list_diter_replace it (element : Z) : LM (cc_stat * option Z) := iter_set it element.
Definition cc_list_diter_index it : Z := u32 (li_index it - 1).

Definition cc_list_diter_add it (element : Z) : LM (cc_stat * list_iter) :=
  new_node ← node_calloc;
  if new_node =? NULL then mret (CC_ERR_ALLOC, it)
  else
    update new_node (set_data element) ;;
    let l := if li_index it =? 0 then set_l_head new_node (li_list it) else li_list it in
    link_behind (li_last it) new_node ;;
    mret (CC_OK, mk_li (li_index it) (set_l_size (u32 (l_size l + 1)) l) new_node (li_next it)).

Definition cc_list_diter_next it : LM (cc_stat * option Z * list_iter) :=
  if li_next it =? NULL then mret (CC_ITER_END, None, it)
  else
    data ← field n_data (li_next it);
    p ← field n_prev (li_next it);
    mret (CC_OK, Some data, mk_li (u32 (li_index it - 1)) (li_list it) (li_next it) p).

(** ** Iterator over two lists *)

Record list_zip := mk_lz {
  lz_l1 : clist; lz_l2 : clist; lz_last1 : Z; lz_last2 : Z; lz_next1 : Z; lz_next2 : Z; lz_index : Z
}.
Implicit Types z : list_zip.

Definition cc_list_zip_iter_init l1 l2 : list_zip := mk_lz l1 l2 NULL NULL (l_head l1) (l_head l2) 0.

Definition cc_list_zip_iter_next z : LM (cc_stat * option (Z * Z) * list_zip) :=
  if (lz_next1 z =? NULL) || (lz_next2 z =? NULL) then mret (CC_ITER_END, None, z)
  else
    data1 ← field n_data (lz_next1 z); data2 ← field n_data (lz_next2 z);
    p1 ← field n_next (lz_next1 z); p2 ← field n_next (lz_next2 z);
    mret (CC_OK, Some (data1, data2),
          mk_lz (lz_l1 z) (lz_l2 z) (lz_next1 z) (lz_next2 z) p1 p2 (u32 (lz_index z + 1))).

Definition cc_list_zip_iter_add z (e1 e2 : Z) : LM (cc_stat * list_zip) :=
  new1 ← node_calloc;
  if new1 =? NULL then mret (CC_ERR_ALLOC, z)
  else
    new2 ← node_calloc;
    if new2 =? NULL then mem_free new1 ;; mret (CC_ERR_ALLOC, z)
    else
      update new1 (set_data e1) ;;
      update new2 (set_data e2) ;;
      link_after (lz_last1 z) new1 ;;
      link_after (lz_last2 z) new2 ;;
      let l1 := if lz_index z =? l_size (lz_l1 z) then set_l_tail new1 (lz_l1 z) else lz_l1 z in
      let l2 := if lz_index z =? l_size (lz_l2 z) then set_l_tail new2 (lz_l2 z) else lz_l2 z in
      mret (CC_OK, mk_lz (set_l_size (u32 (l_size l1 + 1)) l1) (set_l_size (u32 (l_size l2 + 1)) l2)
                     (lz_last1 z) (lz_last2 z) (lz_next1 z) (lz_next2 z) (u32 (lz_index z + 1))).

Definition cc_list_zip_iter_remove z : LM (cc_stat * option (Z * Z) * list_zip) :=
  if (lz_last1 z =? NULL) || (lz_last2 z =? NULL) then mret (CC_ERR_VALUE_NOT_FOUND, None, z)
  else
    r1 ← unlinkn (lz_l1 z) (lz_last1 z);
    r2 ← unlinkn (lz_l2 z) (lz_last2 z);
    mret (CC_OK, Some (r1.1, r2.1), mk_lz r1.2 r2.2 NULL NULL (lz_next1 z) (lz_next2 z) (lz_index z)).

Definition cc_list_zip_iter_replace z (e1 e2 : Z) : LM (cc_stat * option (Z * Z)) :=
  if (lz_last1 z =? NULL) || (lz_last2 z =? NULL) then mret (CC_ERR_VALUE_NOT_FOUND, None)
  else
    old1 ← field n_data (lz_last1 z); old2 ← field n_data (lz_last2 z);
    update (lz_last1 z) (set_data e1) ;;
    update (lz_last2 z) (set_data e2) ;;
    mret (CC_OK, Some (old1, old2)).

Definition cc_list_zip_iter_index z : Z := u32 (lz_index z - 1).
End List.
