(* ===== verification/CcListFacts.v ===== *)
(** * The doubly linked list in separation logic

    [list_at l ns] owns exactly the nodes of the list [l]: [ns] are their
    addresses and elements, in order, and each node points to the next and to
    the one before it.  The functions of cc_list.c that find, link and unlink
    nodes get a specification of what they do to [ns]. *)

From iris.proofmode Require Import proofmode.
From S2P Require Import Prelude CMem CState CHeap HeapLogic CcArray CcSlist CcSlistFacts CcList.

(** ** Chains of nodes *)

(** The node before the first is [p], the node after the last [q]. *)
Fixpoint dchain (p : Z) (ns : nodes) (q : Z) : hpropI lnode :=
  match ns with
  | [] => emp
  | n :: ns => n.1 ↦ mk_node n.2 (first_addr ns q) p ∗ dchain n.1 ns q
  end%I.

Lemma dchain_app p ns1 ns2 q :
  dchain p (ns1 ++ ns2) q ⊣⊢ dchain p ns1 (first_addr ns2 q) ∗ dchain (last_from p ns1) ns2 q.
Proof.
  revert p. induction ns1 as [|n ns1 IH]; intros p; simpl; [by rw left_id|].
  by rw IH first_addr_app last_from_cons assoc.
Qed.

Lemma dchain_mid p ns1 n ns2 q :
  dchain p (ns1 ++ n :: ns2) q
  ⊣⊢ dchain p ns1 n.1 ∗ n.1 ↦ mk_node n.2 (first_addr ns2 q) (last_from p ns1) ∗ dchain n.1 ns2 q.
Proof. by rw dchain_app. Qed.

Lemma dchain_snoc p ns n q :
  dchain p (ns ++ [n]) q ⊣⊢ dchain p ns n.1 ∗ n.1 ↦ mk_node n.2 q (last_from p ns).
Proof. rw dchain_mid /=. by rw right_id. Qed.

Lemma dchain_size p ns q h : hprop_at (dchain p ns q) h -> stdpp.base.size h = length ns.
Proof.
  revert p h. induction ns as [|n ns IH]; simpl; intros p h.
  - intros ->. apply map_size_empty.
  - intros (h1 & h2 & -> & Hd & [-> _] & Hc). rw map_size_disj_union; [|done].
    by rw map_size_singleton (IH n.1 h2).
Qed.

Definition is_empty (ns : nodes) : bool := match ns with [] => true | _ => false end.

Lemma is_empty_snoc ns n : is_empty (ns ++ [n]) = false.
Proof. by destruct ns. Qed.

(** A chain with a node has a first and a last one. *)
Lemma last_from_any p p' (mid : nodes) : is_empty mid = false -> last_from p mid = last_from p' mid.
Proof. destruct mid as [|m mid]; [done|]. by rw !last_from_cons. Qed.
Lemma first_any q q' (mid : nodes) : is_empty mid = false -> first_addr mid q = first_addr mid q'.
Proof. by destruct mid. Qed.

(** The tests of the code for the ends of the list. *)
Lemma dchain_first p ns :
  dchain p ns NULL ⊢ ⌜(first_addr ns NULL =? NULL) = is_empty ns⌝ ∧ dchain p ns NULL.
Proof.
  destruct ns as [|n ns]; simpl; [by iIntros "$"|]. iIntros "[Ha Hc]".
  iDestruct (pointsto_not_null with "Ha") as "[%Hn Ha]". iSplit; [|iFrame]. iPureIntro. by apply Z.eqb_neq.
Qed.
Lemma dchain_last ns q :
  dchain NULL ns q ⊢ ⌜(last_from NULL ns =? NULL) = is_empty ns⌝ ∧ dchain NULL ns q.
Proof.
  destruct ns as [|n ns _] using rev_ind; [by iIntros "$"|]. rw dchain_snoc last_from_snoc. iIntros "[Hc Ha]".
  iDestruct (pointsto_not_null with "Ha") as "[%Hn Ha]". iSplit; [|iFrame]. iPureIntro.
  rw (proj2 (Z.eqb_neq _ _) Hn). by destruct ns.
Qed.

(** ** Symbolic execution *)

Ltac lsimpl := cbn [fst snd n_data n_next n_prev set_data set_next set_prev l_size l_head l_tail
  set_l_size set_l_head set_l_tail li_index li_list li_last li_next].
Ltac lret := iApply hwp_ret; lsimpl.
Ltac lskip := iApply hwp_bind; lret.
Tactic Notation "lfield" constr(H) := iApply hwp_field; iFrame H; iIntros H; lsimpl.
Tactic Notation "lupdate" constr(H) := iApply hwp_bind; iApply hwp_update; iFrame H; iIntros H; lsimpl.
(** A test decided by a hypothesis. *)
Ltac ltest :=
  match goal with
  | |- context [if ?x =? ?x then _ else _] => rw (Z.eqb_refl x)
  | H : (?x =? ?y) = _ |- context [if ?x =? ?y then _ else _] => rw H
  end; cbn iota.
Tactic Notation "lnull" constr(H) "as" simple_intropattern(E) :=
  iDestruct (pointsto_not_null with H) as "[%E HNN]"; iRename "HNN" into H; apply Z.eqb_neq in E.

(** Straight-line code over cells that are all in the context. *)
Ltac lrun :=
  repeat lazymatch goal with
    | |- environments.envs_entails _ (hwp (mbind _ (field _ _)) _) => iApply hwp_field; iFrame; iIntros "?"; lsimpl
    | |- environments.envs_entails _ (hwp (mbind _ (update _ _)) _) =>
        iApply hwp_bind; iApply hwp_update; iFrame; iIntros "?"; lsimpl
    | |- environments.envs_entails _ (hwp (mbind _ (mret _)) _) => lskip
    | |- environments.envs_entails _ (hwp (mret _) _) => lret
    | |- environments.envs_entails _ (hwp (update _ _) _) => iApply hwp_update; iFrame; iIntros "?"; lsimpl
    | |- environments.envs_entails _ (hwp (mbind _ (mem_free _)) _) => iApply hwp_bind; iApply hwp_free; iFrame; lsimpl
    | |- environments.envs_entails _ (hwp (mbind _ (mbind _ _)) _) => iApply hwp_bind
    | |- environments.envs_entails _ (hwp (mbind _ (if _ then _ else _)) _) => ltest
    | |- environments.envs_entails _ (hwp (if _ then _ else _) _) => ltest
    end.

(** Reading and changing the last node of a chain, and the first. *)
Section Ends.
Context {B : Type} (k : unit -> M (heap lnode) B) (Φ : B -> hpropI lnode).

Lemma set_next_last p ns q q' b :
  is_empty ns = false ->
  dchain p ns q ∗ (dchain p ns q' -∗ hwp (k tt) Φ) ⊢ hwp (update (last_from b ns) (set_next q') ≫= k) Φ.
Proof.
  destruct ns as [|n ns _] using rev_ind; [done|]. rw !dchain_snoc last_from_snoc. iIntros (_) "[[Hc Ha] HΦ]".
  lupdate "Ha". iApply "HΦ". iFrame.
Qed.

Lemma set_prev_first p p' ns q a :
  is_empty ns = false ->
  dchain p ns q ∗ (dchain p' ns q -∗ hwp (k tt) Φ) ⊢ hwp (update (first_addr ns a) (set_prev p') ≫= k) Φ.
Proof.
  destruct ns as [|n ns]; [done|]. iIntros (_) "[[Ha Hc] HΦ]". cbn [first_addr]. lupdate "Ha". iApply "HΦ". simpl. iFrame.
Qed.

(** The same where the code tests for a missing node. *)
Lemma set_next_last_opt ns q q' :
  dchain NULL ns q ∗ (dchain NULL ns q' -∗ hwp (k tt) Φ)
  ⊢ hwp ((if last_from NULL ns =? NULL then mret tt else update (last_from NULL ns) (set_next q')) ≫= k) Φ.
Proof.
  iIntros "[H HΦ]". iDestruct (dchain_last with "H") as "[%E H]". rw E. destruct (is_empty ns) eqn:En.
  - lskip. iApply "HΦ". by destruct ns.
  - iApply set_next_last; [done|]. iFrame "H". iApply "HΦ".
Qed.

Lemma set_prev_first_opt p p' ns :
  dchain p ns NULL ∗ (dchain p' ns NULL -∗ hwp (k tt) Φ)
  ⊢ hwp ((if first_addr ns NULL =? NULL then mret tt else update (first_addr ns NULL) (set_prev p')) ≫= k) Φ.
Proof.
  iIntros "[H HΦ]". iDestruct (dchain_first with "H") as "[%E H]". rw E. destruct (is_empty ns) eqn:En.
  - lskip. iApply "HΦ". by destruct ns.
  - iApply set_prev_first; [done|]. iFrame "H". iApply "HΦ".
Qed.
End Ends.

(** ** Lists *)

Definition header_ok (l : clist) (ns : nodes) : Prop :=
  l_size l = zlen ns /\ zlen ns < 2 ^ 32 /\ l_head l = first_addr ns NULL /\ l_tail l = last_from NULL ns.

Definition list_at (l : clist) (ns : nodes) : hpropI lnode := (⌜header_ok l ns⌝ ∧ dchain NULL ns NULL)%I.

Section Facts.
Context `{HA : !NodeAlloc lnode} `{HQ : !QSort} `{HL : !NodeAllocLaws lnode}.
Implicit Types (l : clist) (ns : nodes).
Local Abbreviation LM := (M (heap lnode)).

(** *** Walking *)

Lemma go_next_spec p ns q :
  dchain p ns q ⊢ hwp (go n_next (length ns) (first_addr ns q)) (λ a, ⌜a = q⌝ ∧ dchain p ns q).
Proof.
  revert p. induction ns as [|n ns IH]; intros p; simpl; iIntros "H".
  - lret. by iSplit.
  - iDestruct "H" as "[Ha Hc]". lfield "Ha". iApply hwp_wand. iSplitL "Hc"; [by iApply IH|].
    iIntros (a) "[-> Hc]". iSplit; [done|]. iFrame.
Qed.

Lemma go_prev_spec p ns q :
  dchain p ns q ⊢ hwp (go n_prev (length ns) (last_from p ns)) (λ a, ⌜a = p⌝ ∧ dchain p ns q).
Proof.
  revert q. induction ns as [|n ns IH] using rev_ind; intros q; simpl; iIntros "H".
  - lret. by iSplit.
  - rw length_app Nat.add_comm last_from_snoc. iEval (rw dchain_snoc) in "H". iDestruct "H" as "[Hc Ha]".
    cbn [length Nat.add go]. lfield "Ha". iApply hwp_wand. iSplitL "Hc"; [by iApply IH|].
    iIntros (a) "[-> Hc]". iSplit; [done|]. rw dchain_snoc. iFrame.
Qed.

Lemma at_node_spec l ns1 n ns2 :
  list_at l (ns1 ++ n :: ns2)
  ⊢ hwp (get_node_at l (zlen ns1)) (λ r, ⌜r = (CC_OK, n.1)⌝ ∧ list_at l (ns1 ++ n :: ns2)).
Proof.
  iIntros "[%Hl Hc]". unfold get_node_at. pose proof Hl as (Hs & Hb & Hh & Ht).
  rw (proj2 (Z.leb_gt _ _)); [|rw Hs length_app /=; lia]. iEval (rw dchain_app) in "Hc". iDestruct "Hc" as "[H1 H2]".
  assert (forall r, ⌜r = (CC_OK, n.1)⌝ ∧ dchain NULL ns1 n.1 ∗ dchain (last_from NULL ns1) (n :: ns2) NULL
            ⊢ ⌜r = (CC_OK, n.1)⌝ ∧ list_at l (ns1 ++ n :: ns2)) as Hdone.
  { intros r. iIntros "[-> [H1 H2]]". iSplit; [done|]. iSplit; [done|]. rw dchain_app. iFrame. }
  destruct (zlen ns1 <? l_size l / 2).
  - rw Nat2Z.id Hh first_addr_app. iApply hwp_call. iSplitL "H1"; [iApply (go_next_spec with "H1")|].
    iIntros (a) "[-> H1]". lret. iApply Hdone. iSplit; [done|]. iFrame.
  - replace (Z.to_nat (l_size l - 1 - zlen ns1)) with (length ns2) by (rw Hs length_app /=; lia).
    rw Ht last_from_app last_from_cons. cbn [dchain]. iDestruct "H2" as "[Ha H2]".
    iApply hwp_call. iSplitL "H2"; [iApply (go_prev_spec with "H2")|].
    iIntros (a) "[-> H2]". lret. iApply Hdone. iSplit; [done|]. cbn [dchain]. iFrame.
Qed.

Lemma at_out_spec l ns i :
  zlen ns <= i -> list_at l ns ⊢ hwp (get_node_at l i) (λ r, ⌜r = (CC_ERR_OUT_OF_RANGE, NULL)⌝ ∧ list_at l ns).
Proof.
  iIntros (Hi) "[%Hl Hc]". unfold get_node_at. rw (proj2 (Z.leb_le _ _)); [|destruct Hl; lia].
  lret. iSplit; [done|]. by iSplit.
Qed.

Lemma list_fuel ns (Φ : nat -> hpropI lnode) :
  dchain NULL ns NULL ∗ (∀ k, ⌜(length ns < k)%nat⌝ → dchain NULL ns NULL -∗ Φ k) ⊢ hwp heap_fuel Φ.
Proof. apply hwp_fuel. intros h Hh. by rw (dchain_size _ _ _ _ Hh). Qed.

(** The first node that holds [x]. *)
Lemma seek_data_spec x ns : forall fuel p,
  (length ns < fuel)%nat ->
  dchain p ns NULL ⊢ hwp (seek_data fuel x (first_addr ns NULL))
    (λ a, ⌜a = match list_find (fun n => n.2 = x) ns with Some (_, n) => n.1 | None => NULL end⌝ ∧ dchain p ns NULL).
Proof.
  induction ns as [|n ns IH]; intros fuel p Hf; (destruct fuel as [|fuel]; [simpl in Hf; lia|]); iIntros "Hc";
    iDestruct (dchain_first with "Hc") as "[%E Hc]"; cbn [seek_data]; rw E; cbn [is_empty]; cbn iota.
  - lret. by iSplit.
  - cbn [dchain first_addr] in *. iDestruct "Hc" as "[Ha Hc]". lfield "Ha". cbn [list_find].
    destruct (Z.eqb_spec n.2 x) as [En|En].
    + rw decide_True; [|done]. lret. iSplit; [done|]. cbn [dchain]. iFrame.
    + rw decide_False; [|done]. lfield "Ha". simpl in Hf. iApply hwp_wand. iSplitL "Hc"; [iApply (IH with "Hc"); lia|].
      iIntros (r) "[-> Hc]". iSplit; [|cbn [dchain]; iFrame]. iPureIntro. by destruct (list_find _ ns) as [[k m]|].
Qed.

Lemma find_data_spec l ns x :
  list_at l ns ⊢ hwp (get_node l x)
    (λ a, ⌜a = match list_find (fun n => n.2 = x) ns with Some (_, n) => n.1 | None => NULL end⌝ ∧ list_at l ns).
Proof.
  iIntros "[%Hl Hc]". unfold get_node. iApply hwp_bind. iApply list_fuel. iFrame "Hc".
  iIntros (k Hk) "Hc". destruct Hl as (Hs & Hb & Hh & Ht) eqn:El. rw Hh.
  iApply hwp_wand. iSplitL "Hc"; [by iApply (seek_data_spec with "Hc")|].
  iIntros (r) "[-> Hc]". iSplit; [done|]. by iSplit.
Qed.

(** A node is not NULL. *)
Lemma list_node l ns1 n ns2 :
  list_at l (ns1 ++ n :: ns2) ⊢ ⌜(n.1 =? NULL) = false⌝ ∧ list_at l (ns1 ++ n :: ns2).
Proof.
  iIntros "[%Hl Hc]". iEval (rw dchain_mid) in "Hc". iDestruct "Hc" as "(H1 & Hn & H2)". lnull "Hn" as E. iSplit; [done|].
  iSplit; [done|]. rw dchain_mid. iFrame.
Qed.

(** *** Unlinking a node *)

Lemma header_unlinked l ns1 n ns2 sz hd tl :
  header_ok l (ns1 ++ n :: ns2) ->
  sz = u32 (l_size l - 1) -> hd = first_addr (ns1 ++ ns2) NULL -> tl = last_from NULL (ns1 ++ ns2) ->
  header_ok (mk_list sz hd tl) (ns1 ++ ns2).
Proof.
  intros (Hs & Hb & _) -> -> ->. rw length_app /= in Hs Hb. split_and!; lsimpl; [|rw length_app; lia|done|done].
  rw wrap_id; [rw Hs length_app; lia|unfold fits; lia].
Qed.

Lemma unlinkn_spec l ns1 n ns2 :
  list_at l (ns1 ++ n :: ns2)
  ⊢ hwp (unlinkn l n.1) (λ r, ⌜r.1 = n.2⌝ ∧ list_at r.2 (ns1 ++ ns2)).
Proof.
  iIntros "[%Hl Hc]". iEval (rw dchain_mid) in "Hc". iDestruct "Hc" as "(H1 & Hn & H2)".
  iDestruct (dchain_last with "H1") as "[%E1 H1]". iDestruct (dchain_first with "H2") as "[%E2 H2]".
  pose proof Hl as (_ & _ & Hh & Ht). rw first_addr_app in Hh. rw last_from_app last_from_cons in Ht.
  destruct l as [sz hd tl]. lsimpl. cbn [l_head l_tail] in Hh, Ht. unfold unlinkn, list_at.
  assert (forall hd tl, hd = first_addr (ns1 ++ ns2) NULL -> tl = last_from NULL (ns1 ++ ns2) ->
    dchain NULL ns1 (first_addr ns2 NULL) ∗ dchain (last_from NULL ns1) ns2 NULL
    ⊢ ⌜n.2 = n.2⌝ ∧ ⌜header_ok (mk_list (u32 (sz - 1)) hd tl) (ns1 ++ ns2)⌝ ∧ dchain NULL (ns1 ++ ns2) NULL) as Hdone.
  { intros hd' tl' H1 H2. iIntros "H". iSplit; [done|]. rw dchain_app. iSplit; [|done]. iPureIntro.
    by eapply header_unlinked. }
  destruct ns1 as [|a ns1 _] using rev_ind; destruct ns2 as [|b ns2];
    rw ?last_from_snoc ?is_empty_snoc in E1; rw ?last_from_cons in Ht; rw ?last_from_snoc;
    cbn [first_addr is_empty] in *; try iEval (rw dchain_snoc) in "H1"; try iDestruct "H1" as "[H1 Ha]";
    try iDestruct "H2" as "[Hb H2]"; lsimpl; lrun; lsimpl;
    (iApply Hdone; [by rw ?app_nil_r; try destruct ns1|by rw ?last_from_app ?last_from_cons ?last_from_snoc ?Ht|]).
  - by iFrame.
  - iFrame.
  - rw dchain_snoc. by iFrame.
  - rw dchain_snoc last_from_snoc. simpl. iFrame.
Qed.

(** All nodes. *)
Lemma unlink_nodes_spec ns : forall fuel l,
  (length ns < fuel)%nat ->
  list_at l ns ⊢ hwp (unlink_nodes fuel l (first_addr ns NULL)) (λ r, ⌜r.1 = ns.*2⌝ ∧ list_at r.2 []).
Proof.
  induction ns as [|n ns IH]; intros fuel l Hf; (destruct fuel as [|fuel]; [simpl in Hf; lia|]); cbn [unlink_nodes].
  - iIntros "H". lret. by iSplit.
  - iIntros "H". iDestruct (list_node l [] n ns with "H") as "[%E H]". cbn [first_addr]. rw E.
    iDestruct "H" as "[%Hl [Ha Hc]]". simpl. lfield "Ha".
    iApply hwp_call. iSplitL; [iApply (unlinkn_spec l [] n ns); iSplit; [done|]; simpl; iFrame|].
    iIntros (r) "[%Hr H]". simpl in Hf. iApply hwp_call. iSplitL; [iApply (IH with "H"); lia|].
    iIntros (rs) "[%Hrs H]". lret. iSplit; [by rw Hr Hrs|done].
Qed.

Lemma lunlinkn_all_spec l ns :
  list_at l ns
  ⊢ hwp (unlinkn_all l) (λ r, ⌜r.1 = (negb (is_empty ns), ns.*2)⌝ ∧ list_at r.2 []).
Proof.
  iIntros "H". iDestruct "H" as "[%Hl Hc]". unfold unlinkn_all. rw (proj1 Hl). destruct ns as [|n ns].
  - lret. iSplit; [done|]. by iSplit.
  - rw (proj2 (Z.eqb_neq _ _)); [|simpl; lia]. iApply hwp_bind. iApply list_fuel. iFrame "Hc". iIntros (k Hk) "Hc".
    destruct Hl as (Hs & Hb & Hh & Ht) eqn:El. rw Hh. iApply hwp_call.
    iSplitL; [iApply unlink_nodes_spec; [exact Hk|by iSplit]|].
    iIntros (r) "[%Hr H]". lret. iSplit; [by rw Hr|done].
Qed.

Lemma list_empty l : list_at l [] ⊢ ⌜l = mk_list 0 NULL NULL⌝ ∧ emp.
Proof. iIntros "[%Hl H]". destruct l as [sz hd tl]. destruct Hl as (H1 & _ & H2 & H3). simpl in *. by subst. Qed.

Lemma empty_list : emp ⊢ list_at (mk_list 0 NULL NULL) [].
Proof. iIntros "_". by iSplit. Qed.

Lemma lremove_all_cb_spec l ns :
  list_at l ns
  ⊢ hwp (cc_list_remove_all_cb l)
      (λ r, ⌜r.1 = (if is_empty ns then CC_ERR_VALUE_NOT_FOUND else CC_OK, ns.*2)⌝ ∧ list_at r.2 []).
Proof.
  iIntros "H". iApply hwp_call. iSplitL; [iApply (lunlinkn_all_spec with "H")|]. iIntros ([[b xs] l']) "[%Hr H]".
  simpl in Hr. injection Hr as -> ->. iDestruct (list_empty with "H") as "[-> H]".
  destruct ns; simpl; lret; (iSplit; [done|]); by iApply empty_list.
Qed.

Lemma lremove_all_spec l ns :
  list_at l ns
  ⊢ hwp (cc_list_remove_all l) (λ r, ⌜r.1 = if is_empty ns then CC_ERR_VALUE_NOT_FOUND else CC_OK⌝ ∧ list_at r.2 []).
Proof.
  iIntros "H". iApply hwp_call. iSplitL; [iApply (lunlinkn_all_spec with "H")|]. iIntros ([[b xs] l']) "[%Hr H]".
  simpl in Hr. injection Hr as -> ->. iDestruct (list_empty with "H") as "[-> H]".
  destruct ns; simpl; lret; (iSplit; [done|]); by iApply empty_list.
Qed.

Lemma ldestroy_spec l ns : list_at l ns ⊢ hwp (cc_list_destroy l) (λ _, emp).
Proof.
  iIntros "H". unfold cc_list_destroy. destruct (0 <? l_size l) eqn:E.
  - iApply hwp_call. iSplitL; [iApply (lremove_all_spec with "H")|]. iIntros (r) "[_ H]". lret.
    by iDestruct (list_empty with "H") as "[_ H]".
  - iDestruct "H" as "[%Hl H]". lret. destruct ns; [done|]. destruct Hl as [Hs _]. apply Z.ltb_ge in E. simpl in Hs. lia.
Qed.

Lemma ldestroy_cb_spec l ns : list_at l ns ⊢ hwp (cc_list_destroy_cb l) (λ xs, ⌜xs = ns.*2⌝ ∧ emp).
Proof.
  iIntros "H". iApply hwp_call. iSplitL; [iApply (lremove_all_cb_spec with "H")|]. iIntros (r) "[%Hr H]". lret.
  iDestruct (list_empty with "H") as "[_ H]". iSplit; [by rw Hr|done].
Qed.

Lemma lnew_spec :
  emp ⊢ hwp cc_list_new_conf
    (λ r, (⌜r = (CC_ERR_ALLOC, None)⌝ ∧ emp) ∨ (∃ l, ⌜r = (CC_OK, Some l)⌝ ∧ list_at l [])).
Proof.
  iIntros "_". unfold cc_list_new_conf. iApply hwp_bind. iApply hwp_gets. iIntros ([]); lret.
  - iRight. iExists _. iSplit; [done|]. by iApply empty_list.
  - iLeft. by iSplit.
Qed.

(** *** Adding a node *)

(** Either memory ran out and nothing changed, or there is one node more. *)
Definition ladded l ns (P : nodes -> Prop) (r : cc_stat * clist) : hpropI lnode :=
  ((⌜r = (CC_ERR_ALLOC, l)⌝ ∧ list_at l ns) ∨
   (∃ ns', ⌜r.1 = CC_OK /\ P ns'⌝ ∧ list_at r.2 ns'))%I.

Lemma new_lnode (Φ : Z -> hpropI lnode) :
  Φ NULL ∧ (∀ a, ⌜(a =? NULL) = false⌝ → a ↦ zero_node -∗ Φ a) ⊢ hwp node_calloc Φ.
Proof using HL.
  iIntros "H". iApply hwp_calloc. iSplit; [by iDestruct "H" as "[H _]"|].
  iIntros (a) "Ha". lnull "Ha" as E. iDestruct "H" as "[_ H]". by iApply ("H" with "[%] Ha").
Qed.

Lemma header_grown l ns ns' hd tl k :
  header_ok l ns -> zlen ns' = zlen ns + k -> 0 <= k -> zlen ns + k < 2 ^ 32 ->
  hd = first_addr ns' NULL -> tl = last_from NULL ns' ->
  header_ok (mk_list (u32 (l_size l + k)) hd tl) ns'.
Proof.
  intros (Hs & Hb & _) Hn Hk Hm -> ->. split_and!; lsimpl; [|lia|done|done]. rw wrap_id; [lia|unfold fits; lia].
Qed.

Lemma ladd_first_spec l ns x :
  zlen ns + 1 < 2 ^ 32 ->
  list_at l ns ⊢ hwp (cc_list_add_first l x) (ladded l ns (fun ns' => ns'.*2 = x :: ns.*2)).
Proof using HL.
  iIntros (Hm) "H". unfold cc_list_add_first. iApply hwp_bind. iApply new_lnode. iSplit.
  { rw Z.eqb_refl. lret. iLeft. by iSplit. }
  iIntros (a Ha) "Ha". rw Ha. iDestruct "H" as "[%Hl Hc]". pose proof Hl as (Hs & Hb & Hh & Ht).
  destruct l as [sz hd tl]. cbn [l_size l_head l_tail] in *. lupdate "Ha".
  assert (forall hd tl, hd = a -> tl = last_from NULL ((a, x) :: ns) ->
    header_ok (mk_list (u32 (sz + 1)) hd tl) ((a, x) :: ns)) as Hok.
  { intros hd' tl' -> ->. apply (header_grown (mk_list sz hd tl) ns); simpl; try done; lia. }
  assert ((sz =? 0) = is_empty ns) as -> by (by rw Hs; destruct ns).
  destruct ns as [|n ns]; cbn [is_empty]; cbn iota.
  - cbn [is_empty]. cbn iota. lrun. iRight. iExists [(a, x)]. iSplit; [done|]. iSplit; [iPureIntro; by apply Hok|]. simpl. by iFrame.
  - cbn [first_addr dchain] in *. subst hd. iDestruct "Hc" as "[Hn Hc]". lrun.
    iRight. iExists ((a, x) :: n :: ns). iSplit; [done|]. iSplit; [|simpl; by iFrame]. iPureIntro. apply Hok; [done|].
    by rw Ht !last_from_cons.
Qed.

Lemma ladd_last_spec l ns x :
  zlen ns + 1 < 2 ^ 32 ->
  list_at l ns ⊢ hwp (cc_list_add l x) (ladded l ns (fun ns' => ns'.*2 = ns.*2 ++ [x])).
Proof using HL.
  iIntros (Hm) "H". unfold cc_list_add, cc_list_add_last. iApply hwp_bind. iApply new_lnode. iSplit.
  { rw Z.eqb_refl. lret. iLeft. by iSplit. }
  iIntros (a Ha) "Ha". rw Ha. iDestruct "H" as "[%Hl Hc]". pose proof Hl as (Hs & Hb & Hh & Ht).
  destruct l as [sz hd tl]. cbn [l_size l_head l_tail] in *. lupdate "Ha".
  assert (forall hd tl, hd = first_addr (ns ++ [(a, x)]) NULL -> tl = a ->
    header_ok (mk_list (u32 (sz + 1)) hd tl) (ns ++ [(a, x)])) as Hok.
  { intros hd' tl' -> ->. apply (header_grown (mk_list sz hd tl) ns); rw ?length_app /= ?last_from_snoc; try done; lia. }
  assert ((sz =? 0) = is_empty ns) as -> by (by rw Hs; destruct ns).
  destruct ns as [|n ns _] using rev_ind; rw ?is_empty_snoc; cbn [is_empty]; cbn iota.
  - cbn [is_empty]. cbn iota. lrun. iRight. iExists [(a, x)]. iSplit; [done|]. iSplit; [iPureIntro; by apply Hok|]. simpl. by iFrame.
  - rw last_from_snoc in Ht. subst tl. iEval (rw dchain_snoc) in "Hc".
    iDestruct "Hc" as "[Hc Hn]". lrun.
    iRight. iExists ((ns ++ [n]) ++ [(a, x)]). iSplit; [iPureIntro; by rw fmap_app|]. iSplit.
    + iPureIntro. apply Hok; [|done]. rw Hh. by destruct ns.
    + rw !dchain_snoc last_from_snoc. iFrame.
Qed.

(** *** Linking before and after a node *)

(** A node that is in no list. *)
Lemma link_gap_new {B} a x (k : unit -> LM B) (Φ : B -> hpropI lnode) :
  a ↦ mk_node x NULL NULL ∗ (a ↦ mk_node x NULL NULL -∗ hwp (k tt) Φ) ⊢ hwp (link_gap a ≫= k) Φ.
Proof. iIntros "[Ha HΦ]". unfold link_gap. iApply hwp_bind. lrun. by iApply "HΦ". Qed.

(** A node that leaves its list. *)
Lemma link_gap_in {B} p q ns1 n ns2 (k : unit -> LM B) (Φ : B -> hpropI lnode) :
  n.1 ↦ mk_node n.2 (first_addr ns2 NULL) (last_from NULL ns1) ∗ dchain NULL ns1 q ∗ dchain p ns2 NULL ∗
  (n.1 ↦ mk_node n.2 (first_addr ns2 NULL) (last_from NULL ns1) -∗ dchain NULL (ns1 ++ ns2) NULL -∗ hwp (k tt) Φ)
  ⊢ hwp (link_gap n.1 ≫= k) Φ.
Proof.
  iIntros "(Hn & H1 & H2 & HΦ)". unfold link_gap. iApply hwp_bind. lfield "Hn".
  iDestruct (dchain_first with "H2") as "[%E2 H2]". iDestruct (dchain_last with "H1") as "[%E1 H1]".
  iApply (hwp_call _ _ (λ _, n.1 ↦ mk_node n.2 (first_addr ns2 NULL) (last_from NULL ns1) ∗
                            dchain (last_from NULL ns1) ns2 NULL)%I). iSplitL "Hn H2".
  { rw E2. destruct ns2 as [|b ns2]; cbn [is_empty]; cbn iota; [lret; by iFrame|].
    cbn [first_addr dchain]. iDestruct "H2" as "[Hb H2]". lrun. iFrame. }
  iIntros (_) "[Hn H2]". lfield "Hn". rw E1.
  iApply (hwp_wand _ (λ _, n.1 ↦ mk_node n.2 (first_addr ns2 NULL) (last_from NULL ns1) ∗
                           dchain NULL ns1 (first_addr ns2 NULL))%I). iSplitL "Hn H1".
  { destruct ns1 as [|a ns1 _] using rev_ind; [cbn [is_empty]; cbn iota; lret; by iFrame|].
    rw is_empty_snoc last_from_snoc. iEval (rw dchain_snoc) in "H1". iDestruct "H1" as "[H1 Ha]". lrun.
    rw dchain_snoc. iFrame. }
  iIntros ([]) "[Hn H1]". iApply ("HΦ" with "Hn"). rw dchain_app. iFrame.
Qed.

Definition behind (base ins : Z) : LM unit :=
  bp ← field n_prev base;
  if bp =? NULL then
    update ins (set_prev NULL) ;;
    update ins (set_next base) ;;
    update base (set_prev ins)
  else
    bp ← field n_prev base;
    update ins (set_prev bp) ;;
    p ← field n_prev ins;
    update p (set_next ins) ;;
    update ins (set_next base) ;;
    update base (set_prev ins).

Lemma behind_spec ns1 b ns2 n c :
  n_data c = n.2 ->
  dchain NULL (ns1 ++ b :: ns2) NULL ∗ n.1 ↦ c ⊢ hwp (behind b.1 n.1) (λ _, dchain NULL (ns1 ++ n :: b :: ns2) NULL).
Proof.
  destruct c as [x cn cp]. cbn [n_data]. intros ->. iIntros "[H Hn]". iEval (rw dchain_mid) in "H".
  iDestruct "H" as "(H1 & Hb & H2)". iDestruct (dchain_last with "H1") as "[%E1 H1]". unfold behind. lfield "Hb". rw E1.
  destruct ns1 as [|a ns1 _] using rev_ind.
  - cbn [is_empty]. cbn iota. lrun. simpl. iFrame.
  - rw is_empty_snoc last_from_snoc. iEval (rw dchain_snoc) in "H1". iDestruct "H1" as "[H1 Ha]". lrun.
    rw (dchain_mid _ (ns1 ++ [a])) dchain_snoc last_from_snoc. simpl. iFrame.
Qed.

Definition after_node (base ins : Z) : LM unit :=
  bn ← field n_next base;
  if bn =? NULL then
    update ins (set_prev base) ;;
    update base (set_next ins) ;;
    update ins (set_next NULL)
  else
    bn ← field n_next base;
    update ins (set_next bn) ;;
    n ← field n_next ins;
    update n (set_prev ins) ;;
    update ins (set_prev base) ;;
    update base (set_next ins).

Lemma after_node_spec ns1 b ns2 n c :
  n_data c = n.2 ->
  dchain NULL (ns1 ++ b :: ns2) NULL ∗ n.1 ↦ c
  ⊢ hwp (after_node b.1 n.1) (λ _, dchain NULL (ns1 ++ b :: n :: ns2) NULL).
Proof.
  destruct c as [x cn cp]. cbn [n_data]. intros ->. iIntros "[H Hn]". iEval (rw dchain_mid) in "H".
  iDestruct "H" as "(H1 & Hb & H2)". iDestruct (dchain_first with "H2") as "[%E2 H2]". unfold after_node. lfield "Hb". rw E2.
  destruct ns2 as [|a ns2]; cbn [is_empty]; cbn iota.
  - lrun. rw dchain_mid. simpl. iFrame.
  - cbn [first_addr dchain]. iDestruct "H2" as "[Ha H2]". lrun. rw dchain_mid. simpl. iFrame.
Qed.
End Facts.
