(* ===== verification/CcListOps.v ===== *)
(** * The operations of the doubly linked list

    Every operation on one list does what it is specified to do on a list of
    elements; the specification is the one of the singly linked list
    (CcSlistProps.v), so that the two lists are interchangeable. *)

From iris.proofmode Require Import proofmode.
From S2P Require Import Prelude CMem CState CHeap HeapLogic CcArray CcArrayFacts CcSlist CcSlistFacts CcSlistProps CcList CcListFacts.

Section Ops.
Context `{HA : !NodeAlloc lnode} `{HQ : !QSort} `{HL : !NodeAllocLaws lnode}.
Implicit Types (l : clist) (ns : nodes).
Local Abbreviation LM := (M (heap lnode)).

(** ** By index *)

(** What is done with the node at an index. *)
Lemma at_index {A} l ns1 n ns2 (k : cc_stat * Z -> LM A) (Φ : A -> hpropI lnode) :
  list_at l (ns1 ++ n :: ns2) ∗ (list_at l (ns1 ++ n :: ns2) -∗ hwp (k (CC_OK, n.1)) Φ)
  ⊢ hwp (get_node_at l (zlen ns1) ≫= k) Φ.
Proof.
  iIntros "[H HΦ]". iApply hwp_call. iSplitL "H"; [iApply (at_node_spec with "H")|]. iIntros (r) "[-> H]". by iApply "HΦ".
Qed.

Lemma out_of_index {A} l ns i (k : cc_stat * Z -> LM A) (Φ : A -> hpropI lnode) :
  zlen ns <= i ->
  list_at l ns ∗ (list_at l ns -∗ hwp (k (CC_ERR_OUT_OF_RANGE, NULL)) Φ) ⊢ hwp (get_node_at l i ≫= k) Φ.
Proof.
  iIntros (Hi) "[H HΦ]". iApply hwp_call. iSplitL "H"; [by iApply (at_out_spec with "H")|].
  iIntros (r) "[-> H]". by iApply "HΦ".
Qed.

Lemma ladd_at_spec l ns1 n ns2 x :
  zlen (ns1 ++ n :: ns2) + 1 < 2 ^ 32 ->
  list_at l (ns1 ++ n :: ns2)
  ⊢ hwp (cc_list_add_at l x (zlen ns1))
      (ladded l (ns1 ++ n :: ns2) (fun ns' => ns'.*2 = ns1.*2 ++ x :: n.2 :: ns2.*2)).
Proof using HL.
  iIntros (Hm) "H". unfold cc_list_add_at. iApply at_index. iFrame "H". iIntros "H".
  change (is_ok CC_OK) with true. cbn [negb]. cbn iota. iApply hwp_bind. iApply new_lnode. iSplit.
  { rw Z.eqb_refl. lret. iLeft. by iSplit. }
  iIntros (a Ha) "Ha". rw Ha. iDestruct "H" as "[%Hl Hc]". lupdate "Ha". unfold link_behind.
  iApply hwp_bind. iApply link_gap_new. iFrame "Ha". iIntros "Ha".
  iApply (hwp_wand _ (λ _, dchain NULL (ns1 ++ (a, x) :: n :: ns2) NULL)). iSplitL.
  { iApply (behind_spec ns1 n ns2 (a, x) (mk_node x NULL NULL)); [done|]. iFrame. }
  iIntros ([]) "Hc". lret. iRight. iExists (ns1 ++ (a, x) :: n :: ns2). iSplit; [iPureIntro; by rw fmap_app|].
  iSplit; [|done]. iPureIntro. pose proof Hl as (Hs & Hb & Hh & Ht).
  destruct l as [sz hd tl]. rw length_app /= in Hm.
  assert (forall hd, hd = first_addr (ns1 ++ (a, x) :: n :: ns2) NULL ->
    header_ok (mk_list (u32 (sz + 1)) hd tl) (ns1 ++ (a, x) :: n :: ns2)) as Hok.
  { intros hd' ->. apply (header_grown (mk_list sz hd tl) (ns1 ++ n :: ns2)); [done| |done| |done|].
    - rw !length_app /=. lia.
    - rw length_app /=. lia.
    - cbn [l_tail] in Ht. by rw Ht !last_from_app !last_from_cons. }
  destruct ns1 as [|m ns1]; [by apply Hok|]. rw (proj2 (Z.eqb_neq _ _)); [|simpl; lia].
  apply Hok. exact Hh.
Qed.

Lemma ladd_at_out l ns i x :
  zlen ns <= i -> list_at l ns ⊢ hwp (cc_list_add_at l x i) (λ r, ⌜r = (CC_ERR_OUT_OF_RANGE, l)⌝ ∧ list_at l ns).
Proof. iIntros (Hi) "H". iApply out_of_index; [done|]. iFrame "H". iIntros "H". simpl. lret. by iSplit. Qed.

Lemma lremove_at_spec l ns1 n ns2 :
  list_at l (ns1 ++ n :: ns2)
  ⊢ hwp (cc_list_remove_at l (zlen ns1)) (λ r, ⌜r.1 = (CC_OK, Some n.2)⌝ ∧ list_at r.2 (ns1 ++ ns2)).
Proof.
  iIntros "H". iApply at_index. iFrame "H". iIntros "H". simpl. iApply hwp_call.
  iSplitL; [iApply (unlinkn_spec with "H")|]. iIntros (r) "[%Hr H]". lret. iSplit; [by rw Hr|done].
Qed.

Lemma lremove_at_out l ns i :
  zlen ns <= i -> list_at l ns ⊢ hwp (cc_list_remove_at l i) (λ r, ⌜r = (CC_ERR_OUT_OF_RANGE, None, l)⌝ ∧ list_at l ns).
Proof. iIntros (Hi) "H". iApply out_of_index; [done|]. iFrame "H". iIntros "H". simpl. lret. by iSplit. Qed.

(** Reading the element of a node, and replacing it. *)
Lemma read_data_at {A} l ns1 n ns2 (k : Z -> LM A) (Φ : A -> hpropI lnode) :
  list_at l (ns1 ++ n :: ns2) ∗ (list_at l (ns1 ++ n :: ns2) -∗ hwp (k n.2) Φ) ⊢ hwp (field n_data n.1 ≫= k) Φ.
Proof.
  iIntros "[[%Hl Hc] HΦ]". iEval (rw dchain_mid) in "Hc". iDestruct "Hc" as "(H1 & Hn & H2)". lfield "Hn".
  iApply "HΦ". iSplit; [done|]. rw dchain_mid. iFrame.
Qed.

Lemma header_same l ns1 n ns2 x : header_ok l (ns1 ++ n :: ns2) -> header_ok l (ns1 ++ (n.1, x) :: ns2).
Proof.
  intros (Hs & Hb & Hh & Ht). rw length_app /= in Hs Hb. split_and!; [rw length_app /=; lia|rw length_app /=; lia| |].
  - by rw Hh !first_addr_app.
  - by rw Ht !last_from_app !last_from_cons.
Qed.

Lemma lreplace_at_spec l ns1 n ns2 x :
  list_at l (ns1 ++ n :: ns2)
  ⊢ hwp (cc_list_replace_at l x (zlen ns1)) (λ r, ⌜r = (CC_OK, Some n.2, l)⌝ ∧ list_at l (ns1 ++ (n.1, x) :: ns2)).
Proof.
  iIntros "H". iApply at_index. iFrame "H". iIntros "H". simpl. iApply read_data_at. iFrame "H". iIntros "[%Hl Hc]".
  iEval (rw dchain_mid) in "Hc". iDestruct "Hc" as "(H1 & Hn & H2)". lupdate "Hn". lret. iSplit; [done|].
  iSplit; [iPureIntro; by apply header_same|]. rw dchain_mid. iFrame.
Qed.

Lemma lreplace_at_out l ns i x :
  zlen ns <= i -> list_at l ns ⊢ hwp (cc_list_replace_at l x i) (λ r, ⌜r = (CC_ERR_OUT_OF_RANGE, None, l)⌝ ∧ list_at l ns).
Proof. iIntros (Hi) "H". iApply out_of_index; [done|]. iFrame "H". iIntros "H". simpl. lret. by iSplit. Qed.

Lemma lget_at_spec l ns1 n ns2 :
  list_at l (ns1 ++ n :: ns2)
  ⊢ hwp (cc_list_get_at l (zlen ns1)) (λ r, ⌜r = (CC_OK, Some n.2, l)⌝ ∧ list_at l (ns1 ++ n :: ns2)).
Proof.
  iIntros "H". iApply at_index. iFrame "H". iIntros "H". simpl. iApply read_data_at. iFrame "H". iIntros "H". lret. by iSplit.
Qed.

Lemma lget_at_out l ns i :
  zlen ns <= i -> list_at l ns ⊢ hwp (cc_list_get_at l i) (λ r, ⌜r = (CC_ERR_OUT_OF_RANGE, None, l)⌝ ∧ list_at l ns).
Proof. iIntros (Hi) "H". iApply out_of_index; [done|]. iFrame "H". iIntros "H". simpl. lret. by iSplit. Qed.

(** ** At the ends *)

Lemma lsize_test l ns : list_at l ns ⊢ ⌜(l_size l =? 0) = is_empty ns⌝ ∧ list_at l ns.
Proof. iIntros "[%Hl Hc]". iSplit; [|by iSplit]. iPureIntro. rw (proj1 Hl). by destruct ns. Qed.

Lemma head_node l n ns : list_at l (n :: ns) ⊢ ⌜l_head l = n.1⌝ ∧ list_at l (n :: ns).
Proof. iIntros "[%Hl Hc]". iSplit; [iPureIntro; apply Hl|]. by iSplit. Qed.
Lemma tail_node l ns n : list_at l (ns ++ [n]) ⊢ ⌜l_tail l = n.1⌝ ∧ list_at l (ns ++ [n]).
Proof. iIntros "[%Hl Hc]". iSplit; [iPureIntro; destruct Hl as (_ & _ & _ & ->); apply last_from_snoc|]. by iSplit. Qed.

Lemma lremove_first_spec l ns :
  list_at l ns
  ⊢ hwp (cc_list_remove_first l)
      (λ r, ⌜r.1 = match ns with [] => (CC_ERR_VALUE_NOT_FOUND, None) | n :: _ => (CC_OK, Some n.2) end⌝ ∧
            list_at r.2 (tail ns)).
Proof.
  iIntros "H". iDestruct (lsize_test with "H") as "[%E H]". unfold cc_list_remove_first. rw E.
  destruct ns as [|n ns]; cbn [is_empty]; cbn iota; [lret; by iSplit|].
  iDestruct (head_node with "H") as "[%Eh H]". rw Eh. iApply hwp_call.
  iSplitL; [iApply (unlinkn_spec l [] n ns with "H")|]. iIntros (r) "[%Hr H]". lret. iSplit; [by rw Hr|done].
Qed.

Lemma lremove_last_spec l ns n :
  list_at l (ns ++ [n]) ⊢ hwp (cc_list_remove_last l) (λ r, ⌜r.1 = (CC_OK, Some n.2)⌝ ∧ list_at r.2 ns).
Proof.
  iIntros "H". iDestruct (lsize_test with "H") as "[%E H]". unfold cc_list_remove_last. rw E is_empty_snoc.
  iDestruct (tail_node with "H") as "[%Eh H]". rw Eh. iApply hwp_call.
  iSplitL; [iApply (unlinkn_spec l ns n [] with "H")|]. iIntros (r) "[%Hr H]". lret. iSplit; [by rw Hr|by rw app_nil_r].
Qed.

Lemma lremove_last_none l :
  list_at l [] ⊢ hwp (cc_list_remove_last l) (λ r, ⌜r = (CC_ERR_VALUE_NOT_FOUND, None, l)⌝ ∧ list_at l []).
Proof.
  iIntros "H". iDestruct (lsize_test with "H") as "[%E H]". unfold cc_list_remove_last. rw E. simpl. lret. by iSplit.
Qed.

Lemma lget_first_spec l ns :
  list_at l ns
  ⊢ hwp (cc_list_get_first l)
      (λ r, ⌜r = match ns with [] => (CC_ERR_VALUE_NOT_FOUND, None, l) | n :: _ => (CC_OK, Some n.2, l) end⌝ ∧ list_at l ns).
Proof.
  iIntros "H". iDestruct (lsize_test with "H") as "[%E H]". unfold cc_list_get_first. rw E.
  destruct ns as [|n ns]; cbn [is_empty]; cbn iota; [lret; by iSplit|].
  iDestruct (head_node with "H") as "[%Eh H]". rw Eh. iApply (read_data_at l [] n ns). iFrame "H". iIntros "H". lret. by iSplit.
Qed.

Lemma lget_last_spec l ns :
  list_at l ns
  ⊢ hwp (cc_list_get_last l)
      (λ r, ⌜r = match list.last ns with None => (CC_ERR_VALUE_NOT_FOUND, None, l) | Some n => (CC_OK, Some n.2, l) end⌝ ∧
            list_at l ns).
Proof.
  iIntros "H". iDestruct (lsize_test with "H") as "[%E H]". unfold cc_list_get_last. rw E.
  destruct ns as [|n ns _] using rev_ind; [simpl; lret; by iSplit|]. rw is_empty_snoc last_snoc.
  iDestruct (tail_node with "H") as "[%Eh H]". rw Eh. iApply (read_data_at l ns n []). iFrame "H". iIntros "H". lret. by iSplit.
Qed.

(** ** By element *)

Lemma lremove_spec l ns x :
  list_at l ns
  ⊢ hwp (cc_list_remove l x)
      (λ r, match list_find (fun n => n.2 = x) ns with
            | Some (k, _) => ⌜r.1 = (CC_OK, Some x)⌝ ∧ list_at r.2 (take k ns ++ drop (S k) ns)
            | None => ⌜r.1 = (CC_ERR_VALUE_NOT_FOUND, None)⌝ ∧ list_at r.2 ns
            end).
Proof.
  iIntros "H". iApply hwp_call. iSplitL; [iApply (find_data_spec with "H")|]. iIntros (a) "[-> H]".
  destruct (list_find (fun n => n.2 = x) ns) as [[k n]|] eqn:Ef; [|rw Z.eqb_refl; lret; by iSplit].
  apply list_find_Some in Ef as (Hk & Hx & _). rw -{1}(take_drop_middle _ _ _ Hk).
  iDestruct (list_node with "H") as "[%E H]". rw E. iApply hwp_call.
  iSplitL; [iApply (unlinkn_spec with "H")|]. iIntros (r) "[%Hr H]". lret. iSplit; [by rw Hr Hx|done].
Qed.

(** ** Reading all elements *)

Lemma fold_data_spec {A} (f : A -> Z -> A) ns : forall fuel p x,
  (length ns < fuel)%nat ->
  dchain p ns NULL ⊢ hwp (fold_data fuel f x (first_addr ns NULL)) (λ y, ⌜y = foldl f x ns.*2⌝ ∧ dchain p ns NULL).
Proof.
  induction ns as [|n ns IH]; intros fuel p x Hf; (destruct fuel as [|fuel]; [simpl in Hf; lia|]); iIntros "Hc";
    iDestruct (dchain_first with "Hc") as "[%E Hc]"; cbn [fold_data]; rw E; cbn [is_empty]; cbn iota.
  - lret. by iSplit.
  - cbn [dchain first_addr]. iDestruct "Hc" as "[Ha Hc]". do 2 lfield "Ha". simpl in Hf. iApply hwp_wand.
    iSplitL "Hc"; [iApply (IH with "Hc"); lia|]. iIntros (y) "[-> Hc]". iSplit; [done|]. simpl. iFrame.
Qed.

Lemma fold_list_spec {A} (f : A -> Z -> A) x l ns :
  list_at l ns ⊢ hwp (fold_list f x l) (λ y, ⌜y = foldl f x ns.*2⌝ ∧ list_at l ns).
Proof.
  iIntros "[%Hl Hc]". unfold fold_list. iApply hwp_bind. iApply list_fuel. iFrame "Hc". iIntros (k Hk) "Hc".
  destruct Hl as (Hs & Hb & Hh & Ht) eqn:El. rw Hh. iApply hwp_wand.
  iSplitL; [by iApply (fold_data_spec with "Hc")|]. iIntros (y) "[-> Hc]". iSplit; [done|]. by iSplit.
Qed.

Lemma lcontains_value_spec l ns x cmp :
  list_at l ns
  ⊢ hwp (cc_list_contains_value l x cmp)
      (λ n, ⌜n = Z.of_nat (countb (fun y => cmp y x =? 0) ns.*2)⌝ ∧ list_at l ns).
Proof.
  iIntros "[%Hl Hc]". iApply hwp_wand. iSplitL; [iApply (fold_list_spec _ _ l ns); by iSplit|].
  iIntros (n) "[-> H]". iSplit; [|done]. iPureIntro. rw (foldl_count (fun y => cmp y x =? 0)); [lia|lia|].
  rw length_fmap. destruct Hl. lia.
Qed.

Lemma lcontains_spec l ns x :
  list_at l ns
  ⊢ hwp (cc_list_contains l x) (λ n, ⌜n = Z.of_nat (countb (fun y => y =? x) ns.*2)⌝ ∧ list_at l ns).
Proof.
  iIntros "[%Hl Hc]". iApply hwp_wand. iSplitL; [iApply (fold_list_spec _ _ l ns); by iSplit|].
  iIntros (n) "[-> H]". iSplit; [|done]. iPureIntro. rw (foldl_count (fun y => y =? x)); [lia|lia|].
  rw length_fmap. destruct Hl. lia.
Qed.

Lemma lforeach_spec l ns : list_at l ns ⊢ hwp (cc_list_foreach l) (λ xs, ⌜xs = ns.*2⌝ ∧ list_at l ns).
Proof.
  iIntros "H". iApply hwp_wand. iSplitL; [iApply (fold_list_spec with "H")|]. iIntros (xs) "[-> H]". iSplit; [|done].
  iPureIntro. assert (forall acc (xs : list Z), foldl (fun xs x => xs ++ [x]) acc xs = acc ++ xs) as Hf; [|apply Hf].
  intros acc xs. revert acc. induction xs as [|x xs IH]; intros acc; simpl; [by rw app_nil_r|]. by rw IH -assoc_L.
Qed.

Lemma index_data_spec cmp x ns : forall fuel p i,
  (length ns < fuel)%nat -> 0 <= i -> i + zlen ns < 2 ^ 32 ->
  dchain p ns NULL ⊢ hwp (index_data fuel cmp x (first_addr ns NULL) i)
    (λ r, ⌜r = match list_find (fun y => cmp y x = 0) ns.*2 with
               | Some (k, _) => (CC_OK, Some (i + Z.of_nat k)%Z) | None => (CC_ERR_OUT_OF_RANGE, None)
               end⌝ ∧ dchain p ns NULL).
Proof.
  induction ns as [|n ns IH]; intros fuel p i Hf Hi Hm; (destruct fuel as [|fuel]; [simpl in Hf; lia|]); iIntros "Hc";
    iDestruct (dchain_first with "Hc") as "[%E Hc]"; cbn [index_data]; rw E; cbn [is_empty]; cbn iota.
  - lret. by iSplit.
  - cbn [dchain first_addr]. iDestruct "Hc" as "[Ha Hc]". lfield "Ha". rw fmap_cons. cbn [list_find].
    destruct (Z.eqb_spec (cmp n.2 x) 0) as [En|En].
    + rw decide_True; [|done]. lret. iSplit; [iPureIntro; do 2 f_equal; lia|]. simpl. iFrame.
    + rw decide_False; [|done]. lfield "Ha". simpl in Hf, Hm. iApply hwp_wand.
      iSplitL "Hc"; [iApply (IH with "Hc"); [lia|rw wrap_id; [lia|unfold fits; lia]|rw wrap_id; [lia|unfold fits; lia]]|].
      iIntros (r) "[-> Hc]". iSplit; [|simpl; iFrame]. iPureIntro. destruct (list_find _ ns.*2) as [[k m]|]; [|done].
      simpl. do 2 f_equal. rw wrap_id; [lia|unfold fits; lia].
Qed.

Lemma lindex_of_spec l ns x cmp :
  list_at l ns
  ⊢ hwp (cc_list_index_of l x cmp)
      (λ r, ⌜r = match list_find (fun y => cmp y x = 0) ns.*2 with
                 | Some (k, _) => (CC_OK, Some (Z.of_nat k)) | None => (CC_ERR_OUT_OF_RANGE, None)
                 end⌝ ∧ list_at l ns).
Proof.
  iIntros "[%Hl Hc]". unfold cc_list_index_of. iApply hwp_bind. iApply list_fuel. iFrame "Hc". iIntros (k Hk) "Hc".
  destruct Hl as (Hs & Hb & Hh & Ht) eqn:El. rw Hh. iApply hwp_wand.
  iSplitL; [iApply (index_data_spec with "Hc"); [done|lia|lia]|]. iIntros (y) "[-> Hc]".
  iSplit; [by destruct (list_find _ ns.*2) as [[]|]|]. by iSplit.
Qed.

(** The elements combined from the first two on. *)
Lemma lreduce_spec {D} l ns (deref : Z -> D) (fn : D -> option D -> D) :
  list_at l ns
  ⊢ hwp (cc_list_reduce l deref fn)
      (λ r, ⌜r = match ns.*2 with
                 | [] => (CC_ERR_OUT_OF_RANGE, None)
                 | [x] => (CC_OK, Some (fn (deref x) None))
                 | x :: xs => (CC_OK, Some (foldl (fun a y => fn a (Some (deref y))) (deref x) xs))
                 end⌝ ∧ list_at l ns).
Proof.
  iIntros "[%Hl Hc]". unfold cc_list_reduce, cc_list_size. pose proof Hl as (Hs & Hb & Hh & Ht). rw Hs Hh.
  destruct ns as [|n1 [|n2 ns]].
  - simpl. lret. iSplit; [done|]. by iSplit.
  - simpl. iDestruct "Hc" as "[Ha Hc]". lfield "Ha". lret. iSplit; [done|]. iSplit; [done|]. simpl. iFrame.
  - rw (proj2 (Z.eqb_neq _ 0)); [|simpl; lia]. rw (proj2 (Z.eqb_neq _ 1)); [|simpl; lia]. simpl.
    iDestruct "Hc" as "(Ha & Hb & Hc)". do 2 lfield "Ha". do 2 lfield "Hb". iApply hwp_bind.
    iApply (hwp_fuel (dchain n2.1 ns NULL) (length ns)); [intros h Hc; by rw (dchain_size _ _ _ _ Hc)|].
    iFrame "Hc". iIntros (k Hk) "Hc". iApply hwp_call. iSplitL "Hc"; [by iApply (fold_data_spec with "Hc")|].
    iIntros (y) "[-> Hc]". lret. iSplit; [done|]. iSplit; [done|]. simpl. iFrame.
Qed.

(** ** Filtering in place *)

Lemma lfilter_mut_loop_spec (pred : Z -> bool) ns2 : forall fuel l ns1,
  (length ns2 < fuel)%nat ->
  list_at l (ns1 ++ ns2)
  ⊢ hwp (list_filter_mut_loop fuel pred (first_addr ns2 NULL) l)
      (λ l', list_at l' (ns1 ++ filter (fun n => pred n.2 = true) ns2)).
Proof.
  induction ns2 as [|n ns2 IH]; intros fuel l ns1 Hf; (destruct fuel as [|fuel]; [simpl in Hf; lia|]);
    cbn [list_filter_mut_loop first_addr]; iIntros "H"; [rw Z.eqb_refl; by lret|].
  iDestruct (list_node with "H") as "[%E H]". rw E. iDestruct "H" as "[%Hl Hc]". iEval (rw dchain_mid) in "Hc".
  iDestruct "Hc" as "(H1 & Hn & H2)". do 2 lfield "Hn".
  iAssert (list_at l (ns1 ++ n :: ns2)) with "[H1 Hn H2]" as "H"; [iSplit; [done|]; rw dchain_mid; iFrame|].
  simpl in Hf. destruct (pred n.2) eqn:Ep; cbn [negb]; cbn iota.
  - lskip. rw filter_cons_True; [|done]. iApply hwp_wand. iSplitL; [iApply (IH _ _ (ns1 ++ [n])); [lia|by rw -assoc_L]|].
    iIntros (l') "H". by rw -assoc_L.
  - rw filter_cons_False; [|by rw Ep]. iApply hwp_bind. iApply hwp_call. iSplitL; [iApply (unlinkn_spec with "H")|].
    iIntros (r) "[_ H]". lret. iApply (IH with "H"). lia.
Qed.

Lemma lfilter_mut_spec l ns (pred : Z -> bool) :
  list_at l ns
  ⊢ hwp (cc_list_filter_mut l pred)
      (λ r, ⌜r.1 = if is_empty ns then CC_ERR_OUT_OF_RANGE else CC_OK⌝ ∧
            list_at r.2 (filter (fun n => pred n.2 = true) ns)).
Proof.
  iIntros "H". iDestruct (lsize_test with "H") as "[%E H]". unfold cc_list_filter_mut, cc_list_size. rw E.
  destruct ns as [|n ns]; cbn [is_empty]; cbn iota; [lret; by iSplit|].
  iDestruct (head_node with "H") as "[%Eh H]". iDestruct "H" as "[%Hl Hc]".
  iApply hwp_bind. iApply list_fuel. iFrame "Hc". iIntros (k Hk) "Hc". rw Eh.
  iApply hwp_call. iSplitL; [iApply (lfilter_mut_loop_spec pred (n :: ns) k l []); [done|by iSplit]|].
  iIntros (l') "H". lret. by iSplit.
Qed.
End Ops.
