(* ===== verification/CcListPair.v ===== *)
(** * Reversal and operations on two doubly linked lists

    [cc_list_reverse] exchanges the nodes at equal distances from the two ends;
    [swap] relinks two nodes, next to each other or not.  Then
    insertion and splicing of one list in another: each list owns its own nodes
    before and after every call. *)

From iris.proofmode Require Import proofmode.
From S2P Require Import Prelude CMem CState CHeap HeapLogic CcArray CcSlist CcSlistFacts CcSlistProps CcSlistPair CcList CcListFacts CcListOps.

Section Swap.
Context `{HA : !NodeAlloc lnode} `{HQ : !QSort}.
Implicit Types (l : clist) (ns mid A B : nodes).
Local Abbreviation LM := (M (heap lnode)).

(** The nodes between the two that are exchanged: there is a first and a last
    one. *)
Lemma first_test p mid q :
  is_empty mid = false -> dchain p mid q ⊢ ⌜(first_addr mid q =? NULL) = false⌝ ∧ dchain p mid q.
Proof.
  intros Hm. destruct mid as [|m mid]; [done|]. cbn [first_addr dchain]. iIntros "[Ha H]". lnull "Ha" as E.
  iSplit; [done|iFrame].
Qed.
Lemma last_test p mid q :
  is_empty mid = false -> dchain p mid q ⊢ ⌜(last_from p mid =? NULL) = false⌝ ∧ dchain p mid q.
Proof.
  intros Hm. destruct mid as [|m mid _] using rev_ind; [done|]. rw dchain_snoc last_from_snoc.
  iIntros "[H Ha]". lnull "Ha" as E. iSplit; [done|iFrame].
Qed.

Lemma addr_ne a b c d : a ↦ c ∗ b ↦ d ⊢ ⌜(a =? b) = false⌝ ∧ a ↦ c ∗ b ↦ d : hpropI lnode.
Proof. iIntros "H". iDestruct (pointsto_ne with "H") as "[%H H]". iSplit; [|done]. iPureIntro. by apply Z.eqb_neq. Qed.

(** The pieces of a list around two nodes. *)
Lemma dchain_pair A x mid y B :
  dchain NULL (A ++ x :: mid ++ y :: B) NULL
  ⊣⊢ dchain NULL A x.1 ∗ x.1 ↦ mk_node x.2 (first_addr mid y.1) (last_from NULL A) ∗ dchain x.1 mid y.1 ∗
     y.1 ↦ mk_node y.2 (first_addr B NULL) (last_from x.1 mid) ∗ dchain y.1 B NULL.
Proof. by rw dchain_mid dchain_mid first_addr_app. Qed.

Lemma dchain_adjacent A x y B :
  dchain NULL (A ++ x :: y :: B) NULL
  ⊣⊢ dchain NULL A x.1 ∗ x.1 ↦ mk_node x.2 y.1 (last_from NULL A) ∗
     y.1 ↦ mk_node y.2 (first_addr B NULL) x.1 ∗ dchain y.1 B NULL.
Proof. rw dchain_mid. by cbn [dchain first_addr]. Qed.

Lemma adjacent_spec A x y B :
  dchain NULL (A ++ x :: y :: B) NULL ⊢ hwp (adjacent x.1 y.1) (λ _, dchain NULL (A ++ y :: x :: B) NULL).
Proof.
  iIntros "H". iEval (rw dchain_adjacent) in "H". iDestruct "H" as "(HA & Hx & Hy & HB)".
  iDestruct (dchain_last with "HA") as "[%E1 HA]". iDestruct (dchain_first with "HB") as "[%E2 HB]".
  unfold adjacent.
  destruct A as [|a A _] using rev_ind; destruct B as [|b B];
    rw ?last_from_snoc ?is_empty_snoc in E1; rw ?last_from_snoc; cbn [first_addr is_empty] in *;
    try (iEval (rw dchain_snoc) in "HA"; iDestruct "HA" as "[HA Ha]"); try iDestruct "HB" as "[Hb HB]"; lsimpl;
    lrun; try rw dchain_adjacent dchain_snoc last_from_snoc; simpl; by iFrame.
Qed.

Lemma swap_spec A x mid y B :
  dchain NULL (A ++ x :: mid ++ y :: B) NULL
  ⊢ hwp (swap x.1 y.1) (λ _, dchain NULL (A ++ y :: mid ++ x :: B) NULL).
Proof.
  iIntros "H". destruct (is_empty mid) eqn:Em.
  - destruct mid; [|done]. cbn [app]. iEval (rw dchain_adjacent) in "H". iDestruct "H" as "(HA & Hx & Hy & HB)".
    unfold swap, swap_adjacent. lfield "Hx". rw Z.eqb_refl. lskip.
    lfield "Hx". rw Z.eqb_refl. iApply adjacent_spec. rw dchain_adjacent. iFrame.
  - iEval (rw dchain_pair) in "H". iDestruct "H" as "(HA & Hx & Hm & Hy & HB)".
    iDestruct (first_test with "Hm") as "[%E1 Hm]"; [done|]. iDestruct (last_test with "Hm") as "[%E2 Hm]"; [done|].
    iAssert (⌜(first_addr mid y.1 =? y.1) = false⌝ ∧ (dchain x.1 mid y.1 ∗
               y.1 ↦ mk_node y.2 (first_addr B NULL) (last_from x.1 mid)))%I with "[Hm Hy]" as "[%E3 [Hm Hy]]".
    { destruct mid as [|m mid]; [done|]. simpl. iDestruct "Hm" as "[Hm Hc]".
      iDestruct (addr_ne with "[$Hm $Hy]") as "[%E [Hm Hy]]". iSplit; [done|iFrame]. }
    iAssert (⌜(first_addr B NULL =? x.1) = false⌝ ∧ (dchain y.1 B NULL ∗
               x.1 ↦ mk_node x.2 (first_addr mid y.1) (last_from NULL A)))%I with "[HB Hx]" as "[%E4 [HB Hx]]".
    { destruct B as [|b B]; cbn [dchain first_addr]; [lnull "Hx" as E; rw Z.eqb_sym; iSplit; [done|iFrame]|].
      iDestruct "HB" as "[Hb HB]". iDestruct (addr_ne with "[$Hb $Hx]") as "[%E [Hb Hx]]". iSplit; [done|iFrame]. }
    unfold swap. lfield "Hx". rw E3. iApply hwp_bind. lfield "Hy". lret. rw E4.
    do 2 lfield "Hx". do 2 lfield "Hy".
    iApply set_next_last_opt. iFrame "HA". iIntros "HA". lupdate "Hy". rw E1.
    iApply set_prev_first; [done|]. iFrame "Hm". iIntros "Hm". lupdate "Hy". rw E2.
    iApply set_next_last; [done|]. iFrame "Hm". iIntros "Hm". lupdate "Hx".
    iApply set_prev_first_opt. iFrame "HB". iIntros "HB".
    iApply hwp_update. iFrame "Hx". iIntros "Hx". lsimpl. rw dchain_pair (first_any x.1 y.1 mid Em) (last_from_any y.1 x.1 mid Em). iFrame.
Qed.

(** The nodes between [A] and [B] are still to be reversed. *)
Lemma lreverse_loop_spec n : forall ns A B left right,
  Nat.div2 (length ns) = n ->
  (is_empty ns = false -> left = first_addr ns NULL /\ right = last_from NULL ns) ->
  dchain NULL (A ++ ns ++ B) NULL
  ⊢ hwp (list_reverse_loop n left right) (λ _, dchain NULL (A ++ reverse ns ++ B) NULL).
Proof.
  induction n as [|n IH]; intros ns A B left right Hn He; iIntros "H"; cbn [list_reverse_loop].
  - lret. destruct ns as [|x [|y ns]]; [done|done|discriminate Hn].
  - destruct ns as [|x ns]; [done|]. destruct ns as [|y mid _] using rev_ind; [done|].
    assert (Nat.div2 (length mid) = n) as Hn' by (cbn [length] in Hn; rw length_app Nat.add_comm in Hn; cbn in Hn; lia).
    destruct (He eq_refl) as [-> ->]. cbn [first_addr]. rw last_from_cons last_from_snoc.
    assert (A ++ (x :: mid ++ [y]) ++ B = A ++ x :: mid ++ y :: B) as -> by (by rw /= -assoc_L).
    iEval (rw dchain_pair) in "H". iDestruct "H" as "(HA & Hx & Hm & Hy & HB)". lfield "Hx". lfield "Hy".
    iApply hwp_call. iSplitL; [iApply (swap_spec A x mid y B); rw dchain_pair; iFrame|]. iIntros ([]) "H".
    assert (forall ms, A ++ y :: ms ++ x :: B = (A ++ [y]) ++ ms ++ x :: B) as Happ by (intros; by rw -assoc_L).
    rw Happ. iApply hwp_wand. iSplitL; [iApply (IH mid (A ++ [y]) (x :: B) with "H"); [done|]|].
    + intros Em. split; [by destruct mid|]. by apply last_from_any.
    + iIntros (u) "H". rw -Happ reverse_cons reverse_app. cbn [app]. by rw -!assoc_L.
Qed.

Lemma lreverse_spec l ns : list_at l ns ⊢ hwp (cc_list_reverse l) (λ l', list_at l' (reverse ns)).
Proof.
  iIntros "[%Hl H]". unfold cc_list_reverse. pose proof Hl as (Hs & Hb & Hh & Ht).
  destruct ((l_size l =? 0) || (l_size l =? 1)) eqn:E.
  - lret. rw Hs in E. destruct ns as [|x [|y ns]]; [by iSplit..|]. by apply orb_true_iff in E as [E%Z.eqb_eq|E%Z.eqb_eq]; cbn [length] in E; lia.
  - apply orb_false_iff in E as [E0 E1]. apply Z.eqb_neq in E0. iApply hwp_call. iSplitL.
    { iApply (lreverse_loop_spec _ ns [] []); [|by intros _|by rw app_nil_r].
      rw Hs Nat.div2_div. apply Nat2Z.inj. rw Z2Nat.id; [by rw Nat2Z.inj_div|]. apply Z.div_pos; lia. }
    iIntros (u) "H". lret. rw app_nil_r. iSplit; [|done]. iPureIntro. split_and!; lsimpl; rw ?length_reverse; [done|done| |].
    + rw Ht. destruct ns as [|n ns _] using rev_ind; [done|]. by rw reverse_app last_from_snoc.
    + rw Hh. destruct ns as [|n ns]; [done|]. by rw reverse_cons last_from_snoc.
Qed.
End Swap.

Section Pair.
Context `{HA : !NodeAlloc lnode} `{HQ : !QSort} `{HL : !NodeAllocLaws lnode} `{HS : !QSortLaws}.
Implicit Types (l : clist) (ns ms cs : nodes).
Local Abbreviation LM := (M (heap lnode)).

(** ** Copies of nodes *)

Lemma free_nodes_spec ns : forall fuel p,
  (length ns < fuel)%nat -> dchain p ns NULL ⊢ hwp (free_nodes fuel (first_addr ns NULL)) (λ _, emp).
Proof.
  induction ns as [|n ns IH]; intros fuel p Hf; (destruct fuel as [|fuel]; [simpl in Hf; lia|]); iIntros "Hc";
    iDestruct (dchain_first with "Hc") as "[%E Hc]"; cbn [free_nodes]; rw E; cbn [is_empty]; cbn iota.
  - by lret.
  - cbn [dchain first_addr]. iDestruct "Hc" as "[Ha Hc]". lfield "Ha". iApply hwp_bind. iApply hwp_free. iFrame "Ha".
    simpl in Hf. iApply (IH with "Hc"). lia.
Qed.

(** The copies of [ms] follow the copies [cs] made before. *)
Definition copied_nodes ms cs (r : bool * Z * Z) : hpropI lnode :=
  ((⌜r.1.1 = false⌝ ∧ emp) ∨
   (∃ cs', ⌜r = (true, first_addr cs' NULL, last_from NULL cs') /\ cs'.*2 = cs.*2 ++ ms.*2⌝ ∧ dchain NULL cs' NULL))%I.

Lemma link_copies_spec ms : forall cs p q,
  dchain p ms q ∗ dchain NULL cs NULL
  ⊢ hwp (link_copies (length ms) (first_addr ms q) (first_addr cs NULL) (last_from NULL cs))
      (λ r, dchain p ms q ∗ copied_nodes ms cs r).
Proof using HL.
  induction ms as [|m ms IH]; intros cs p q; iIntros "[Hm Hc]"; cbn [link_copies length].
  - lret. iFrame "Hm". iRight. iExists cs. iFrame "Hc". iPureIntro. by rw app_nil_r.
  - iApply hwp_bind. iApply new_lnode. iSplit.
    { rw Z.eqb_refl. iApply hwp_bind. iApply list_fuel. iFrame "Hc". iIntros (k Hk) "Hc". iApply hwp_call.
      iSplitL "Hc"; [by iApply (free_nodes_spec with "Hc")|]. iIntros (u) "_". lret. iFrame "Hm". iLeft. by iSplit. }
    iIntros (a Ha) "Ha". rw Ha. cbn [dchain first_addr]. iDestruct "Hm" as "[Hm Hms]". lfield "Hm". lupdate "Ha".
    iApply (hwp_call _ _ (λ r, ⌜r = (first_addr (cs ++ [(a, m.2)]) NULL, a)⌝ ∧ dchain NULL (cs ++ [(a, m.2)]) NULL)%I).
    iSplitL "Hc Ha".
    { iDestruct (dchain_first with "Hc") as "[%E Hc]". rw E. destruct (is_empty cs) eqn:Ec.
      - destruct cs; [|done]. lret. iSplit; [done|]. simpl. by iFrame.
      - iApply set_next_last; [done|]. iFrame "Hc". iIntros "Hc". lupdate "Ha". lret. rw dchain_snoc. iFrame.
        iPureIntro. by destruct cs. }
    iIntros (r) "[-> Hc]". lsimpl. lfield "Hm". iApply hwp_wand.
    iSplitL "Hc Hms"; [iPoseProof (IH (cs ++ [(a, m.2)]) with "[$Hms $Hc]") as "H"; by rw last_from_snoc|].
    iIntros (r) "[Hms Hr]". iFrame. iDestruct "Hr" as "[Hr|(%cs' & %Hr & Hr)]"; [by iLeft|]. iRight.
    iExists cs'. iSplit; [|done]. iPureIntro. destruct Hr as [-> Hcs]. split; [done|]. by rw Hcs fmap_app -assoc_L.
Qed.

Lemma lcopies_spec l ns :
  list_at l ns ⊢ hwp (link_all_externally l) (λ r, list_at l ns ∗ copied_nodes ns [] r).
Proof using HL.
  iIntros "[%Hl H]". unfold link_all_externally. pose proof Hl as (Hs & _ & Hh & _). rw Hs Nat2Z.id Hh.
  iApply hwp_wand. iSplitL; [iApply (link_copies_spec ns []); iFrame; by simpl|]. iIntros (r) "[H Hr]". iFrame. by iSplit.
Qed.

(** ** A chain put into a list *)

(** The list grown by the nodes [cs], which are linked between [ns1] and [ns2]. *)
Lemma header_inserted l ns1 ns2 cs hd tl k :
  header_ok l (ns1 ++ ns2) -> k = zlen cs -> zlen (ns1 ++ ns2) + zlen cs < 2 ^ 32 ->
  hd = first_addr (ns1 ++ cs ++ ns2) NULL -> tl = last_from NULL (ns1 ++ cs ++ ns2) ->
  header_ok (mk_list (u32 (l_size l + k)) hd tl) (ns1 ++ cs ++ ns2).
Proof.
  intros Hl -> Hm -> ->. apply (header_grown l (ns1 ++ ns2)); [done|rw !length_app; lia|lia|done|done|done].
Qed.

Lemma inserted_chain p ns1 cs ns2 q a b :
  is_empty cs = false ->
  dchain p ns1 (first_addr cs a) ∗ dchain (last_from p ns1) cs (first_addr ns2 q) ∗ dchain (last_from b cs) ns2 q
  ⊣⊢ dchain p (ns1 ++ cs ++ ns2) q.
Proof.
  intros Hc. rw !dchain_app first_addr_app. rw (last_from_any (last_from p ns1) b cs Hc).
  by rw (first_any (first_addr ns2 q) a cs Hc).
Qed.

(** The tests and writes of the code, for the three places of the chain. *)
Definition gap (l : clist) ns1 ns2 : hpropI lnode :=
  (⌜header_ok l (ns1 ++ ns2) /\ is_empty (ns1 ++ ns2) = false⌝ ∧
   dchain NULL ns1 (first_addr ns2 NULL) ∗ dchain (last_from NULL ns1) ns2 NULL)%I.

Lemma gap_list l ns1 ns2 : is_empty (ns1 ++ ns2) = false -> list_at l (ns1 ++ ns2) ⊣⊢ gap l ns1 ns2.
Proof.
  intros Hn. unfold list_at, gap. rw dchain_app. iSplit; iIntros "[%H Hc]"; (iSplit; [|done]); by destruct H.
Qed.

(** The last node of the chain [H] gets a successor, the first one a
    predecessor. *)
Local Tactic Notation "lnext" constr(H) := iApply set_next_last; [done|]; iFrame H; iIntros H.
Local Tactic Notation "lprev" constr(H) := iApply set_prev_first; [done|]; iFrame H; iIntros H.

(** Where the ends of the list are afterwards. *)
Lemma inserted_ends ns1 cs ns2 :
  is_empty cs = false ->
  first_addr (ns1 ++ cs ++ ns2) NULL = first_addr (if is_empty ns1 then cs else ns1 ++ ns2) NULL /\
  last_from NULL (ns1 ++ cs ++ ns2) = last_from NULL (if is_empty ns2 then cs else ns1 ++ ns2).
Proof.
  intros Hc. split; [by destruct ns1, cs|]. rw !last_from_app. destruct (is_empty ns2) eqn:E.
  - destruct ns2; [|done]. change (last_from (last_from NULL ns1) cs = last_from NULL cs). by apply last_from_any.
  - rw last_from_app. by apply last_from_any.
Qed.

Lemma gap_to_list l ns1 ns2 : gap l ns1 ns2 ⊢ list_at l (ns1 ++ ns2).
Proof. iIntros "[%H H]". rw gap_list; [by iSplit|apply H]. Qed.

Lemma gap_at_spec l ns1 ns2 :
  gap l ns1 ns2
  ⊢ hwp (gap_at l (zlen ns1)) (λ r, ⌜r = (last_from NULL ns1, first_addr ns2 NULL)⌝ ∧ gap l ns1 ns2).
Proof.
  iIntros "[%H H]". destruct H as [Hl Hn]. iAssert (gap l ns1 ns2) with "[H]" as "H"; [by iSplit|]. iDestruct (gap_to_list with "H") as "H".
  unfold gap_at. destruct ns2 as [|n ns2].
  - rw app_nil_r. iApply (out_of_index l ns1); [lia|]. iFrame "H". iIntros "H". rw Z.eqb_refl. cbn [negb]. cbn iota.
    destruct ns1 as [|n ns1 _] using rev_ind; [done|]. pose proof Hl as (_ & Hb & _). rw app_nil_r length_app /= in Hb.
    rw length_app. replace (u32 (Z.of_nat (length ns1 + length [n]) - 1)) with (zlen ns1);
      [|simpl; rw wrap_id; [lia|unfold fits; lia]].
    iApply at_index. iFrame "H". iIntros "H". lret. rw last_from_snoc. iSplit; [done|].
    rw -gap_list; rw app_nil_r; [done|by rw is_empty_snoc].
  - iApply at_index. iFrame "H". iIntros "[_ Hc]". iEval (rw dchain_mid) in "Hc". iDestruct "Hc" as "(H1 & Hn & H2)".
    lnull "Hn" as E. lsimpl. rw E. cbn [negb]. cbn iota. lfield "Hn". lret. iSplit; [done|]. iSplit; [done|]. cbn [dchain first_addr]. iFrame.
Qed.

(** The nodes [cs] linked in, whatever the order of the writes. *)
Lemma gap_closed l ns1 cs ns2 hd tl k a b :
  is_empty cs = false -> k = zlen cs -> header_ok l (ns1 ++ ns2) -> zlen (ns1 ++ ns2) + zlen cs < 2 ^ 32 ->
  hd = first_addr (ns1 ++ cs ++ ns2) NULL -> tl = last_from NULL (ns1 ++ cs ++ ns2) ->
  dchain NULL ns1 (first_addr cs a) ∗ dchain (last_from NULL ns1) cs (first_addr ns2 NULL) ∗ dchain (last_from b cs) ns2 NULL
  ⊢ list_at (mk_list (u32 (l_size l + k)) hd tl) (ns1 ++ cs ++ ns2).
Proof.
  iIntros (Hc Hk Hl Hm Hh Ht) "H". iSplit; [|by rw -(inserted_chain _ _ _ _ _ a b Hc)].
  iPureIntro. by eapply header_inserted.
Qed.

(** The three branches of the code, whichever of its two tests comes first. *)
Lemma gap_cases l ns1 ns2 (R : hpropI lnode) (Φ : clist -> hpropI lnode) (m1 m2 m3 : LM clist) :
  (is_empty ns2 = true -> is_empty ns1 = false -> R ∗ gap l ns1 ns2 ⊢ hwp m1 Φ) ->
  (is_empty ns1 = true -> is_empty ns2 = false -> R ∗ gap l ns1 ns2 ⊢ hwp m2 Φ) ->
  (is_empty ns1 = false -> is_empty ns2 = false -> R ∗ gap l ns1 ns2 ⊢ hwp m3 Φ) ->
  R ∗ gap l ns1 ns2
  ⊢ hwp (if first_addr ns2 NULL =? NULL then m1 else if last_from NULL ns1 =? NULL then m2 else m3) Φ ∧
    hwp (if last_from NULL ns1 =? NULL then m2 else if first_addr ns2 NULL =? NULL then m1 else m3) Φ.
Proof.
  intros H1 H2 H3. iIntros "[HR [%Hl [Ha Hb]]]". iDestruct (dchain_first with "Hb") as "[%E1 Hb]".
  iDestruct (dchain_last with "Ha") as "[%E2 Ha]". rw !E1 !E2. destruct Hl as [Hl Hn].
  iAssert (R ∗ gap l ns1 ns2)%I with "[HR Ha Hb]" as "H"; [iFrame "HR"; iSplit; [done|iFrame]|].
  destruct (is_empty ns1) eqn:N1; destruct (is_empty ns2) eqn:N2.
  - by destruct ns1, ns2.
  - iSplit; by iApply (H2 with "H").
  - iSplit; by iApply (H1 with "H").
  - iSplit; by iApply (H3 with "H").
Qed.

Lemma gap_size l ns1 ns2 : gap l ns1 ns2 ⊢ ⌜l_size l = (zlen ns1 + zlen ns2)%Z⌝ ∧ gap l ns1 ns2.
Proof.
  iIntros "[%Hl H]". iSplit; [|by iSplit]. iPureIntro. destruct Hl as [[-> _] _]. rw length_app. lia.
Qed.

Lemma zlen_values ns ms : ns.*2 = ms.*2 -> zlen ns = zlen ms.
Proof. intros H. apply (f_equal length) in H. rw !length_fmap in H. lia. Qed.

Lemma empty_values ns ms : ns.*2 = ms.*2 -> is_empty ns = is_empty ms.
Proof. by destruct ns, ms. Qed.

Lemma ladd_all_at_spec l1 l2 ns1 ns2 ms :
  is_empty ms = false -> zlen (ns1 ++ ns2) + zlen ms < 2 ^ 32 ->
  gap l1 ns1 ns2 ∗ list_at l2 ms
  ⊢ hwp (cc_list_add_all_at l1 l2 (zlen ns1))
      (λ r, ladded l1 (ns1 ++ ns2) (fun ns' => ns'.*2 = ns1.*2 ++ ms.*2 ++ ns2.*2) r ∗ list_at l2 ms).
Proof using HL.
  iIntros (Hn Hm) "[Hg H2]". iDestruct (lsize_test with "H2") as "[%E H2]". unfold cc_list_add_all_at. rw E Hn.
  iDestruct (gap_size with "Hg") as "[%E1 Hg]". rw (proj2 (Z.ltb_ge _ _)); [|lia].
  iApply hwp_call. iSplitL "H2"; [iApply (lcopies_spec with "H2")|].
  iIntros ([[ok hd] tl]) "[[%H2 H2] [[%Hr _]|(%cs & %Hr & Hc)]]".
  { simpl in Hr. rw Hr. lret. iSplitR "H2"; [|by iSplit]. iLeft. iSplit; [done|]. by iApply gap_to_list. }
  destruct Hr as [Hr Hcs]. injection Hr as -> -> ->. cbn [negb]. cbn iota. simpl in Hcs.
  pose proof (zlen_values _ _ Hcs) as Hz. rw -(empty_values _ _ Hcs) in Hn.
  iApply hwp_call. iSplitL "Hg"; [iApply (gap_at_spec with "Hg")|]. iIntros (g) "[-> Hg]". lsimpl.
  iApply (hwp_call _ _ (λ l, list_at (set_l_size (u32 (l_size l + l_size l2)) l) (ns1 ++ cs ++ ns2))).
  iSplitR "H2"; last first.
  { iIntros (l) "H". lret. iSplitR "H2"; [|by iSplit]. iRight. iExists _. iSplit; [|done]. iPureIntro.
    split; [done|]. by rw !fmap_app Hcs. }
  assert (l_size l2 = zlen cs) as Hsz by (rw Hz; apply H2).
  rw -Hz in Hm. iCombine "Hc Hg" as "H". iApply bi.and_elim_l. iApply (gap_cases with "H"); intros N1 N2.
  all: iIntros "[Hc [%Hl [Ha Hb]]]"; destruct Hl as [Hl Hne]; pose proof Hl as (_ & _ & Hh & Ht).
  all: destruct (inserted_ends ns1 cs ns2 Hn) as [Fh Ft]; rw N1 N2 in Fh Ft.
  - assert (ns2 = []) as -> by (by destruct ns2). rw app_nil_r in Hh Ht. rw Ht. lnext "Ha". lprev "Hc". lret.
    iApply (gap_closed l1 _ _ [] _ _ _ NULL NULL); [done..|by rw Fh Hh app_nil_r|by rw Ft|]. iFrame.
  - assert (ns1 = []) as -> by (by destruct ns1). simpl in Hh. rw Hh. lprev "Hb". lnext "Hc". lret.
    iApply (gap_closed l1 [] _ _ _ _ _ NULL NULL); [done..|by rw Ft Ht|]. iFrame.
  - lprev "Hc". lnext "Ha". lnext "Hc". lprev "Hb". lret.
    iApply (gap_closed _ _ _ _ _ _ _ NULL NULL); [done..|by rw Fh Hh|by rw Ft Ht|]. iFrame.
Qed.

(** Adding nothing. *)
Lemma ladd_all_at_none l1 l2 ns i :
  list_at l1 ns ∗ list_at l2 [] ⊢ hwp (cc_list_add_all_at l1 l2 i) (λ r, ⌜r = (CC_OK, l1)⌝ ∧ (list_at l1 ns ∗ list_at l2 [])).
Proof.
  iIntros "[H1 H2]". iDestruct (lsize_test with "H2") as "[%E H2]". unfold cc_list_add_all_at. rw E. lret. iSplit; [done|iFrame].
Qed.

Lemma ladd_all_at_out l1 l2 ns ms i :
  is_empty ms = false -> zlen ns < i ->
  list_at l1 ns ∗ list_at l2 ms
  ⊢ hwp (cc_list_add_all_at l1 l2 i) (λ r, ⌜r = (CC_ERR_OUT_OF_RANGE, l1)⌝ ∧ (list_at l1 ns ∗ list_at l2 ms)).
Proof.
  iIntros (Hn Hi) "[[%H1 H1] H2]". iDestruct (lsize_test with "H2") as "[%E H2]". unfold cc_list_add_all_at. rw E Hn.
  rw (proj2 (Z.ltb_lt _ _)); [|destruct H1; lia]. lret. iSplit; [done|]. iFrame. by iSplit.
Qed.

(** The copies are the whole list. *)
Lemma add_all_to_empty_spec l1 l2 ms :
  list_at l1 [] ∗ list_at l2 ms
  ⊢ hwp (add_all_to_empty l1 l2) (λ r, ladded l1 [] (fun ns' => ns'.*2 = ms.*2) r ∗ list_at l2 ms).
Proof using HL.
  iIntros "[H1 H2]". iDestruct (lsize_test with "H2") as "[%E H2]". unfold add_all_to_empty. rw E.
  destruct (is_empty ms) eqn:Hn.
  { lret. iFrame "H2". iRight. iExists []. iFrame "H1". iPureIntro. by destruct ms. }
  iApply hwp_call. iSplitL "H2"; [iApply (lcopies_spec with "H2")|].
  iIntros ([[ok hd] tl]) "[[%H2 H2] [[%Hr _]|(%cs & %Hr & Hc)]]".
  { simpl in Hr. rw Hr. lret. iSplitR "H2"; [|by iSplit]. iLeft. by iSplit. }
  destruct Hr as [Hr Hcs]. injection Hr as -> -> ->. simpl in Hcs. pose proof (zlen_values _ _ Hcs) as Hz.
  iDestruct (list_empty with "H1") as "[_ H1]". lret. iSplitR "H2"; [|by iSplit]. iRight. iExists cs. iSplit; [done|].
  iCombine "H1 Hc" as "H". rw left_id. iSplit; [|done]. iPureIntro. destruct H2 as (Hs & Hb & _).
  split_and!; lsimpl; [by rw Hs Hz|by rw Hz|done|done].
Qed.

Lemma ladd_all_spec l1 l2 ns ms :
  zlen ns + zlen ms < 2 ^ 32 ->
  list_at l1 ns ∗ list_at l2 ms
  ⊢ hwp (cc_list_add_all l1 l2) (λ r, ladded l1 ns (fun ns' => ns'.*2 = ns.*2 ++ ms.*2) r ∗ list_at l2 ms).
Proof using HL.
  iIntros (Hm) "[H1 H2]". iDestruct (lsize_test with "H1") as "[%E H1]". unfold cc_list_add_all. rw E.
  destruct (is_empty ns) eqn:Hn.
  { destruct ns; [|done]. iApply add_all_to_empty_spec. iFrame. }
  destruct (is_empty ms) eqn:Hn2.
  - destruct ms; [|done]. iApply hwp_wand. iSplitL; [iApply ladd_all_at_none; iFrame|]. iIntros (r) "[-> [H1 H2]]".
    iFrame "H2". iRight. iExists ns. iFrame "H1". iPureIntro. by rw app_nil_r.
  - iDestruct "H1" as "[%H1 H1]". replace (l_size l1) with (zlen ns) by (by destruct H1).
    iApply hwp_wand. iSplitL; [iApply (ladd_all_at_spec _ _ ns [] ms); [done|by rw app_nil_r|]|].
    + iFrame "H2". rw -gap_list app_nil_r; [by iSplit|done].
    + iIntros (r) "H". by rw !app_nil_r.
Qed.

(** ** Splicing *)

Lemma splice_between_spec l1 l2 ns1 ns2 ms :
  is_empty ms = false -> zlen (ns1 ++ ns2) + zlen ms < 2 ^ 32 ->
  gap l1 ns1 ns2 ∗ list_at l2 ms
  ⊢ hwp (splice_between l1 l2 (last_from NULL ns1) (first_addr ns2 NULL))
      (λ r, list_at r.1 (ns1 ++ ms ++ ns2) ∗ list_at r.2 []).
Proof.
  iIntros (Hn Hm) "[Hg [%H2 Hc]]". unfold splice_between. destruct H2 as (Hsz & _ & -> & ->).
  iApply (hwp_call _ _ (λ l, list_at (set_l_size (u32 (l_size l + l_size l2)) l) (ns1 ++ ms ++ ns2))).
  iSplitL; last first.
  { iIntros (l) "H". lret. iFrame. by iApply empty_list. }
  iCombine "Hc Hg" as "H". iApply bi.and_elim_r. iApply (gap_cases with "H"); intros N1 N2.
  all: iIntros "[Hc [%Hl [Ha Hb]]]"; destruct Hl as [Hl Hne]; pose proof Hl as (_ & _ & Hh & Ht).
  all: destruct (inserted_ends ns1 ms ns2 Hn) as [Fh Ft]; rw N1 N2 in Fh Ft.
  - assert (ns2 = []) as -> by (by destruct ns2). rw app_nil_r in Hh Ht. rw Ht. lnext "Ha". lprev "Hc". lret.
    iApply (gap_closed l1 _ _ [] _ _ _ NULL NULL); [done..|by rw Fh Hh app_nil_r|by rw Ft|]. iFrame.
  - assert (ns1 = []) as -> by (by destruct ns1). simpl in Hh. rw Hh. lprev "Hb". lnext "Hc". lret.
    iApply (gap_closed l1 [] _ _ _ _ _ NULL NULL); [done..|by rw Ft Ht|]. iFrame.
  - lnext "Ha". lprev "Hc". lprev "Hb". lnext "Hc". lret.
    iApply (gap_closed _ _ _ _ _ _ _ NULL NULL); [done..|by rw Fh Hh|by rw Ft Ht|]. iFrame.
Qed.

Lemma lsplice_at_spec l1 l2 ns1 ns2 ms :
  zlen (ns1 ++ ns2) + zlen ms < 2 ^ 32 ->
  list_at l1 (ns1 ++ ns2) ∗ list_at l2 ms
  ⊢ hwp (cc_list_splice_at l1 l2 (zlen ns1))
      (λ r, ⌜r.1.1 = CC_OK⌝ ∧ (list_at r.1.2 (ns1 ++ ms ++ ns2) ∗ list_at r.2 [])).
Proof.
  iIntros (Hm) "[H1 H2]". iDestruct (lsize_test with "H2") as "[%E2 H2]". iDestruct (lsize_test with "H1") as "[%E1 H1]".
  unfold cc_list_splice_at. rw E2. destruct (is_empty ms) eqn:Hn.
  { destruct ms; [|done]. lret. iSplit; [done|]. iFrame. }
  iDestruct "H1" as "[%H1 H1]". rw (proj2 (Z.ltb_ge _ _)); [|destruct H1 as [-> _]; rw length_app; lia]. rw E1.
  destruct (is_empty (ns1 ++ ns2)) eqn:Hn1.
  - lret. iSplit; [done|]. destruct ns1, ns2; try done. simpl. rw app_nil_r. iFrame. by iSplit.
  - iApply hwp_call. iSplitL "H1"; [iApply gap_at_spec; rw -gap_list; [by iSplit|done]|]. iIntros (g) "[-> Hg]".
    iApply hwp_call. iSplitL; [iApply (splice_between_spec with "[$Hg $H2]"); done|]. iIntros (r) "H". lret. by iSplit.
Qed.

Lemma lsplice_at_out l1 l2 ns ms i :
  is_empty ms = false -> zlen ns < i ->
  list_at l1 ns ∗ list_at l2 ms
  ⊢ hwp (cc_list_splice_at l1 l2 i) (λ r, ⌜r = (CC_ERR_OUT_OF_RANGE, l1, l2)⌝ ∧ (list_at l1 ns ∗ list_at l2 ms)).
Proof.
  iIntros (Hn Hi) "[[%H1 H1] H2]". iDestruct (lsize_test with "H2") as "[%E H2]". unfold cc_list_splice_at. rw E Hn.
  rw (proj2 (Z.ltb_lt _ _)); [|destruct H1; lia]. lret. iSplit; [done|]. iFrame. by iSplit.
Qed.
End Pair.
