(* ===== verification/CcListCopy.v ===== *)
(** * New lists from a doubly linked list

    Deep and shallow copies, sublists, filtering, arrays, sorting through an
    array; then every operation that involves two lists, as one step. *)

From iris.proofmode Require Import proofmode.
From S2P Require Import Prelude CMem CState CHeap HeapLogic CcArray CcSlist CcSlistFacts CcSlistProps CcSlistPair CcList CcListFacts CcListOps CcListPair.

Section Copy.
Context `{HA : !NodeAlloc lnode} `{HQ : !QSort} `{HL : !NodeAllocLaws lnode} `{HS : !QSortLaws}.
Implicit Types (l c : clist) (ns ms cs : nodes).
Local Abbreviation LM := (M (heap lnode)).

(** ** Copies *)

(** A new list with the elements [xs], or none. *)
Definition new_list (xs : list Z) (r : cc_stat * option clist) : hpropI lnode :=
  ((⌜r = (CC_ERR_ALLOC, None)⌝ ∧ emp) ∨
   (∃ c cs, ⌜r = (CC_OK, Some c) /\ cs.*2 = xs⌝ ∧ list_at c cs))%I.

(** The list a loop adds to: it gets one element more, or is destroyed. *)
Lemma add_or_destroy {A} c cs x (k : cc_stat * clist -> LM A) (Φ : A -> hpropI lnode) (fail : cc_stat * clist -> A) :
  zlen cs + 1 < 2 ^ 32 ->
  list_at c cs ∗ ((∀ c', Φ (fail (CC_ERR_ALLOC, c'))) ∧ (∀ c' cs', ⌜cs'.*2 = cs.*2 ++ [x]⌝ → list_at c' cs' -∗ hwp (k (CC_OK, c')) Φ))
  ⊢ hwp (r ← cc_list_add c x; if negb (is_ok r.1) then cc_list_destroy r.2 ;; mret (fail r) else k r) Φ.
Proof using HL.
  iIntros (Hm) "[Hc H]". iApply hwp_call. iSplitL "Hc"; [by iApply (ladd_last_spec with "Hc")|].
  iIntros ([st c']) "[[%Hr Hc]|(%cs' & %Hr & Hc)]".
  - injection Hr as -> ->. simpl. iApply hwp_call. iSplitL "Hc"; [iApply (ldestroy_spec with "Hc")|]. iIntros (u) "_".
    lret. by iDestruct "H" as "[H _]".
  - simpl in Hr. destruct Hr as [-> Hr]. simpl. iDestruct "H" as "[_ H]". by iApply ("H" with "[%] Hc").
Qed.

Lemma copy_data_spec cp ms : forall fuel p c cs,
  (length ms < fuel)%nat -> zlen cs + zlen ms < 2 ^ 32 ->
  dchain p ms NULL ∗ list_at c cs
  ⊢ hwp (copy_data fuel cp (first_addr ms NULL) c)
      (λ r, dchain p ms NULL ∗ new_list (cs.*2 ++ (cp <$> ms.*2)) r).
Proof using HL.
  induction ms as [|m ms IH]; intros fuel p c cs Hf Hm; (destruct fuel as [|fuel]; [simpl in Hf; lia|]); iIntros "[Hms Hc]";
    iDestruct (dchain_first with "Hms") as "[%E Hms]"; cbn [copy_data]; rw E; cbn [is_empty]; cbn iota.
  - lret. iFrame "Hms". iRight. iExists c, cs. iSplit; [by rw app_nil_r|done].
  - cbn [dchain first_addr]. iDestruct "Hms" as "[Ha Hms]". lfield "Ha". simpl in Hf, Hm.
    iApply (add_or_destroy c cs); [lia|]. iFrame "Hc". iSplit; [iIntros (c'); iFrame; iLeft; by iSplit|].
    iIntros (c' cs' Hcs) "Hc". lfield "Ha". iApply hwp_wand. iSplitL "Hms Hc".
    { iApply (IH with "[$Hms $Hc]"); [lia|]. apply (f_equal length) in Hcs. rw length_app !length_fmap /= in Hcs. lia. }
    iIntros (r) "[Hms Hr]". iFrame. by rw Hcs -assoc_L.
Qed.

Lemma lcopy_spec l ns cp :
  list_at l ns ⊢ hwp (cc_list_copy_deep l cp) (λ r, list_at l ns ∗ new_list (cp <$> ns.*2) r).
Proof using HL.
  iIntros "[%Hl H]". unfold cc_list_copy_deep. iApply hwp_call. iSplitR; [by iApply lnew_spec|].
  iIntros (r) "[[-> _]|(%c & -> & Hc)]".
  - lret. iSplitL; [by iSplit|]. iLeft. by iSplit.
  - iApply hwp_bind. iApply list_fuel. iFrame "H". iIntros (k Hk) "H". pose proof Hl as (_ & Hb & Hh & _). rw Hh.
    iApply hwp_wand. iSplitL; [iApply (copy_data_spec with "[$H $Hc]"); [done|simpl; lia]|].
    iIntros (r) "[H Hr]". iFrame. by iSplit.
Qed.

(** ** Sublists *)

Lemma sub_nodes_spec ms : forall p q c cs,
  zlen cs + zlen ms < 2 ^ 32 ->
  dchain p ms q ∗ list_at c cs
  ⊢ hwp (sub_nodes (length ms) (first_addr ms q) c) (λ r, dchain p ms q ∗ new_list (cs.*2 ++ ms.*2) r).
Proof using HL.
  induction ms as [|m ms IH]; intros p q c cs Hm; iIntros "[Hms Hc]"; cbn [sub_nodes length].
  - lret. iFrame "Hms". iRight. iExists c, cs. iSplit; [by rw app_nil_r|done].
  - cbn [dchain first_addr]. iDestruct "Hms" as "[Ha Hms]". lfield "Ha". simpl in Hm.
    iApply (add_or_destroy c cs); [lia|]. iFrame "Hc". iSplit; [iIntros (c'); iFrame; iLeft; by iSplit|].
    iIntros (c' cs' Hcs) "Hc". lfield "Ha". iApply hwp_wand. iSplitL "Hms Hc".
    { iApply (IH with "[$Hms $Hc]"). apply (f_equal length) in Hcs. rw length_app !length_fmap /= in Hcs. lia. }
    iIntros (r) "[Hms Hr]". iFrame. by rw Hcs -assoc_L.
Qed.

Lemma lsublist_spec l ns1 ms ns2 :
  is_empty ms = false ->
  list_at l (ns1 ++ ms ++ ns2)
  ⊢ hwp (cc_list_sublist l (zlen ns1) (zlen ns1 + zlen ms - 1))
      (λ r, list_at l (ns1 ++ ms ++ ns2) ∗ new_list ms.*2 r).
Proof using HL.
  iIntros (Hn) "[%Hl H]". unfold cc_list_sublist. pose proof Hl as (Hs & Hb & _). rw !length_app in Hs Hb.
  destruct ms as [|m ms]; [done|]. simpl length in Hs, Hb.
  rw (proj2 (orb_false_iff _ _)); [|split; [apply Z.ltb_ge|apply Z.leb_gt]; simpl; lia].
  iApply hwp_call. iSplitR; [by iApply lnew_spec|]. iIntros (r) "[[-> _]|(%c & -> & Hc)]".
  - lret. iSplitL; [by iSplit|]. iLeft. by iSplit.
  - cbn [app]. iApply at_index. iSplitL "H"; [by iSplit|]. iIntros "[_ H]". cbn [is_ok negb]. cbn iota.
    replace (Z.to_nat (zlen ns1 + zlen (m :: ms) - 1 - zlen ns1 + 1)) with (length (m :: ms)) by (simpl; lia).
    iEval (rw (dchain_app NULL ns1 ((m :: ms) ++ ns2)) dchain_app) in "H". iDestruct "H" as "(H1 & H2 & H3)".
    iApply hwp_wand. iSplitL "H2 Hc"; [iApply (sub_nodes_spec (m :: ms) _ _ c [] with "[$H2 $Hc]"); simpl; lia|].
    iIntros (r) "[H2 Hr]". iFrame "Hr". iSplit; [done|].
    rw (dchain_app NULL ns1 ((m :: ms) ++ ns2)) dchain_app. iFrame.
Qed.

(** ** Filtering *)

(** A failed allocation drops an element. *)
Lemma filter_data_spec (pred : Z -> bool) ms : forall fuel p c cs,
  (length ms < fuel)%nat -> zlen cs + zlen ms < 2 ^ 32 ->
  dchain p ms NULL ∗ list_at c cs
  ⊢ hwp (filter_data fuel pred (first_addr ms NULL) c)
      (λ c', dchain p ms NULL ∗ ∃ cs' ys,
         ⌜cs'.*2 = cs.*2 ++ ys /\ ys `sublist_of` filter (fun x => pred x = true) ms.*2⌝ ∧ list_at c' cs').
Proof using HL.
  induction ms as [|m ms IH]; intros fuel p c cs Hf Hm; (destruct fuel as [|fuel]; [simpl in Hf; lia|]); iIntros "[Hms Hc]";
    iDestruct (dchain_first with "Hms") as "[%E Hms]"; cbn [filter_data]; rw E; cbn [is_empty]; cbn iota.
  - lret. iFrame "Hms". iExists cs, []. iSplit; [by rw app_nil_r|done].
  - cbn [dchain first_addr]. iDestruct "Hms" as "[Ha Hms]". lfield "Ha". simpl in Hf, Hm.
    iApply (hwp_call _ _ (λ c', ∃ cs' ys, ⌜cs'.*2 = cs.*2 ++ ys /\ ys `sublist_of` filter (fun x => pred x = true) [m.2] /\
                                          zlen cs' <= zlen cs + 1⌝ ∧ list_at c' cs')%I).
    iSplitL "Hc".
    { destruct (pred m.2) eqn:Ep; [|lret; iExists cs, []; iSplit; [|done]; iPureIntro; split_and!; [by rw app_nil_r|apply sublist_nil_l|lia]].
      iApply hwp_call. iSplitL; [iApply (ladd_last_spec with "Hc"); lia|].
      iIntros ([st c']) "[[%Hr Hc]|(%cs' & %Hr & Hc)]"; lret.
      - injection Hr as -> ->. iExists cs, []. iSplit; [|done]. iPureIntro. split_and!; [by rw app_nil_r|apply sublist_nil_l|lia].
      - destruct Hr as [_ Hr]. iExists cs', [m.2]. iSplit; [|done]. iPureIntro.
        rw filter_cons_True; [|done]. split_and!; [done|done|].
        apply (f_equal length) in Hr. rw length_app !length_fmap /= in Hr. lia. }
    iIntros (c') "(%cs' & %ys & %Hcs & Hc)". destruct Hcs as (Hcs & Hys & Hz). lfield "Ha". iApply hwp_wand.
    iSplitL "Hms Hc"; [iApply (IH with "[$Hms $Hc]"); lia|]. iIntros (c2) "[Hms (%cs2 & %zs & %Hcs2 & Hc)]".
    destruct Hcs2 as [Hcs2 Hzs]. iFrame "Ha Hms". iExists cs2, (ys ++ zs). iSplit; [|done]. iPureIntro. split.
    + by rw Hcs2 Hcs -assoc_L.
    + change ((m :: ms).*2) with ([m.2] ++ ms.*2). rw list.filter_app. by apply sublist_app.
Qed.

Lemma lfilter_spec l ns (pred : Z -> bool) :
  list_at l ns
  ⊢ hwp (cc_list_filter l pred)
      (λ r, list_at l ns ∗
        ((⌜r = (if is_empty ns then CC_ERR_OUT_OF_RANGE else CC_ERR_ALLOC, None)⌝ ∧ emp) ∨
         (∃ c cs, ⌜r = (CC_OK, Some c) /\ cs.*2 `sublist_of` filter (fun x => pred x = true) ns.*2⌝ ∧ list_at c cs))).
Proof using HL.
  iIntros "H". iDestruct (lsize_test with "H") as "[%E H]". unfold cc_list_filter, cc_list_size. rw E.
  destruct (is_empty ns) eqn:En; [lret; iFrame; iLeft; by iSplit|]. iDestruct "H" as "[%Hl H]".
  iApply hwp_call. iSplitR; [by iApply lnew_spec|]. iIntros (r) "[[-> _]|(%c & -> & Hc)]"; lsimpl.
  - lret. iSplitL; [by iSplit|]. iLeft. by iSplit.
  - iApply hwp_bind. iApply list_fuel. iFrame "H". iIntros (k Hk) "H". pose proof Hl as (_ & Hb & Hh & _). rw Hh.
    iApply hwp_call. iSplitL; [iApply (filter_data_spec with "[$H $Hc]"); [done|simpl; lia]|].
    iIntros (c') "[H (%cs & %ys & %Hcs & Hc)]". lret. iSplitL "H"; [by iSplit|]. iRight. iExists c', cs. iSplit; [|done].
    iPureIntro. destruct Hcs as [Hcs Hys]. simpl in Hcs. by rw Hcs.
Qed.

(** ** Arrays *)

Lemma read_data_spec ms : forall p q,
  dchain p ms q ⊢ hwp (read_data (length ms) (first_addr ms q)) (λ xs, ⌜xs = ms.*2⌝ ∧ dchain p ms q).
Proof.
  induction ms as [|m ms IH]; intros p q; iIntros "H"; cbn [read_data length]; [lret; by iSplit|].
  cbn [dchain first_addr]. iDestruct "H" as "[Ha H]". do 2 lfield "Ha". iApply hwp_call. iSplitL "H"; [iApply (IH with "H")|].
  iIntros (xs) "[-> H]". lret. iSplit; [done|iFrame].
Qed.

Lemma lto_array_spec l ns :
  list_at l ns
  ⊢ hwp (cc_list_to_array l)
      (λ r, ⌜r = (if is_empty ns then CC_ERR_INVALID_RANGE else CC_ERR_ALLOC, []) \/ is_empty ns = false /\ r = (CC_OK, ns.*2)⌝ ∧
            list_at l ns).
Proof.
  iIntros "H". iDestruct (lsize_test with "H") as "[%E H]". unfold cc_list_to_array. rw E.
  destruct (is_empty ns) eqn:En; [lret; iSplit; [iPureIntro; by left|done]|].
  iApply hwp_bind. iApply hwp_gets. iIntros ([]); simpl (negb _); cbn iota.
  - iDestruct "H" as "[%Hl H]". pose proof Hl as (-> & _ & -> & _). rw Nat2Z.id. iApply hwp_call.
    iSplitL; [iApply (read_data_spec with "H")|]. iIntros (xs) "[-> H]". lret. iSplit; [iPureIntro; by right|]. by iSplit.
  - lret. iSplit; [iPureIntro; by left|done].
Qed.

Lemma write_data_spec ms : forall xs p q,
  length xs = length ms ->
  dchain p ms q ⊢ hwp (write_data xs (first_addr ms q)) (λ _, dchain p (zip ms.*1 xs) q).
Proof.
  induction ms as [|m ms IH]; intros [|x xs] p q Hlen; try done; iIntros "H"; cbn [write_data]; [by lret|].
  cbn [dchain first_addr]. iDestruct "H" as "[Ha H]". lupdate "Ha". lfield "Ha". iApply hwp_wand.
  iSplitL "H"; [iApply (IH with "H"); by injection Hlen|]. iIntros (u) "H". simpl. iFrame "H".
  change (list_fmap (Z * Z)%type Z fst ms) with ms.*1.
  assert (first_addr (zip ms.*1 xs) q = first_addr ms q) as ->; [by destruct ms, xs|iFrame].
Qed.

(** The nodes stay; their elements are sorted. *)
Lemma lsort_spec l ns cmp :
  list_at l ns
  ⊢ hwp (cc_list_sort l cmp)
      (λ st, ∃ ns', ⌜is_empty ns = false /\ st = CC_OK /\ ns'.*2 = qsort cmp ns.*2 \/
                     st = (if is_empty ns then CC_ERR_INVALID_RANGE else CC_ERR_ALLOC) /\ ns' = ns⌝ ∧ list_at l ns').
Proof using HS.
  iIntros "H". unfold cc_list_sort. iApply hwp_call. iSplitL; [iApply (lto_array_spec with "H")|].
  iIntros (r) "[%Hr H]". destruct Hr as [-> | [Hn ->]].
  - simpl. assert (is_ok (if is_empty ns then CC_ERR_INVALID_RANGE else CC_ERR_ALLOC) = false) as -> by (by destruct ns).
    simpl. lret. iExists ns. iSplit; [iPureIntro; by right|done].
  - simpl. assert (length (qsort cmp ns.*2) = length ns) as Hq by (rw qsort_perm; apply length_fmap).
    destruct (zip_firsts ns _ Hq) as (H1 & H2 & H3 & H4). iDestruct "H" as "[%Hl H]".
    pose proof Hl as (Hs & Hb & Hh & Ht). rw Hh.
    iApply hwp_call. iSplitL; [by iApply (write_data_spec with "H")|]. iIntros (u) "H". lret.
    iExists (zip ns.*1 (qsort cmp ns.*2)). iSplit; [iPureIntro; by left|]. iSplit; [|done]. iPureIntro.
    split_and!; [by rw H3|by rw H3|by rw H4|]. by rw Ht /last_from H1.
Qed.
End Copy.
