(* ===== verification/CcListSort.v ===== *)
(** * Sorting the doubly linked list in place

    [cc_list_sort_in_place] is a merge sort that relinks the nodes.  [merge]
    moves nodes of the right part before nodes of the left part, in the middle
    of the list; the list ends up sorted, with the same nodes, and with nodes
    that compare equal in the order they had. *)

From stdpp Require Import sorting.
From iris.proofmode Require Import proofmode.
From S2P Require Import Prelude CMem CState CHeap HeapLogic CcArray CcSlist CcSlistFacts CcList CcListFacts.

(** A comparison function, as the library documents it. *)
Class Comparison (cmp : Z -> Z -> Z) : Prop := {
  cmp_total x y : cmp x y <= 0 \/ cmp y x <= 0;
  cmp_trans x y z : cmp x y <= 0 -> cmp y z <= 0 -> cmp x z <= 0
}.

Lemma cmp_same cmp `{!Comparison cmp} x : cmp x x <= 0.
Proof. by destruct (cmp_total x x). Qed.

(** The order of nodes. *)
Definition node_le (cmp : Z -> Z -> Z) (n m : Z * Z) : Prop := cmp n.2 m.2 <= 0.
#[export] Instance node_le_dec cmp : RelDecision (node_le cmp) := fun n m => Z_le_dec _ _.

Section Order.
Context (cmp : Z -> Z -> Z) `{!Comparison cmp}.

#[export] Instance node_le_total : Total (node_le cmp).
Proof. intros n m. apply cmp_total. Qed.
#[export] Instance node_le_trans : Transitive (node_le cmp).
Proof. intros a b c. apply cmp_trans. Qed.

(** Nodes that compare equal to the element [k]. *)
Definition same_key (k : Z) (n : Z * Z) : Prop := cmp n.2 k <= 0 /\ cmp k n.2 <= 0.
#[export] Instance same_key_dec k n : Decision (same_key k n) := and_dec (Z_le_dec _ _) (Z_le_dec _ _).

(** [ms] is [ns] sorted, without exchanging nodes that compare equal. *)
Definition sorts (ns ms : nodes) : Prop :=
  ms ≡ₚ ns /\ Sorted (node_le cmp) ms /\ forall k, filter (same_key k) ms = filter (same_key k) ns.

Lemma node_merge_cons x y (ns ms : nodes) :
  list_merge (node_le cmp) (x :: ns) (y :: ms)
  = if cmp x.2 y.2 <=? 0 then x :: list_merge (node_le cmp) ns (y :: ms) else y :: list_merge (node_le cmp) (x :: ns) ms.
Proof.
  rw list_merge_cons /node_le. destruct (Z.leb_spec (cmp x.2 y.2) 0); case_decide; by try lia.
Qed.

Lemma no_node_kept (P : Z * Z -> Prop) `{HP : !forall n, Decision (P n)} ns : (forall n, n ∈ ns -> ~ P n) -> filter P ns = [].
Proof.
  induction ns as [|n ns IH]; intros H; [done|]. rw filter_cons_False; [|apply H; by left]. apply IH. intros m Hm. apply H. by right.
Qed.

Lemma merge_keeps_order k ns : forall ms,
  Sorted (node_le cmp) ns -> Sorted (node_le cmp) ms ->
  filter (same_key k) (list_merge (node_le cmp) ns ms) = filter (same_key k) ns ++ filter (same_key k) ms.
Proof using All.
  induction ns as [|x ns IH]; intros ms Hn Hm; [by rw list_merge_nil_l|].
  induction ms as [|y ms IHm]; [by rw list_merge_nil_r app_nil_r|]. rw node_merge_cons.
  destruct (Z.leb_spec (cmp x.2 y.2) 0) as [Hle|Hgt].
  - rw filter_cons (IH (y :: ms)); [|by inversion Hn|done]. rw (filter_cons _ x). by case_decide.
  - assert (Sorted (node_le cmp) ms) as Hm' by (by inversion Hm). rw filter_cons (IHm Hm') (filter_cons _ y).
    case_decide as Hy; [|done]. enough (filter (same_key k) (x :: ns) = []) as -> by done.
    apply Sorted_StronglySorted in Hn; [|apply _]. apply StronglySorted_inv in Hn as [_ Hx].
    apply no_node_kept. intros z Hz Hk. apply elem_of_cons in Hz.
    assert (cmp x.2 z.2 <= 0) as Hxz.
    { destruct Hz as [->|Hz]; [by apply cmp_same|]. by eapply list.Forall_forall in Hx. }
    destruct Hk as [Hk _], Hy as [_ Hy]. pose proof (cmp_trans _ _ _ Hxz (cmp_trans _ _ _ Hk Hy)). lia.
Qed.

Lemma merge_sorts ns1 ns2 ms1 ms2 :
  sorts ns1 ms1 -> sorts ns2 ms2 -> sorts (ns1 ++ ns2) (list_merge (node_le cmp) ms1 ms2).
Proof using All.
  intros (P1 & S1 & F1) (P2 & S2 & F2). split_and!.
  - by rw merge_Permutation P1 P2.
  - by apply Sorted_list_merge; [apply _|..].
  - intros k. by rw merge_keeps_order // F1 F2 list.filter_app.
Qed.

Lemma short_sorts ns : (length ns < 2)%nat -> sorts ns ns.
Proof. intros H. split_and!; [done| |done]. destruct ns as [|x [|y ns]]; simpl in H; [constructor|by repeat constructor|lia]. Qed.
End Order.

Section Sort.
Context (cmp : Z -> Z -> Z) `{HC : !Comparison cmp}.
Implicit Types (l : clist) (ns A B L R : nodes).
Local Abbreviation LM := (M (heap lnode)).
Local Abbreviation merged := (list_merge (node_le cmp)).

(** ** Moving nodes *)

Lemma node_field {T C} (f : lnode -> T) N1 n N2 (k : T -> LM C) (Φ : C -> hpropI lnode) :
  dchain NULL (N1 ++ n :: N2) NULL ∗
  (dchain NULL (N1 ++ n :: N2) NULL -∗ hwp (k (f (mk_node n.2 (first_addr N2 NULL) (last_from NULL N1)))) Φ)
  ⊢ hwp (field f n.1 ≫= k) Φ.
Proof.
  iIntros "[H HΦ]". iEval (rw dchain_mid) in "H". iDestruct "H" as "(H1 & Hn & H2)". lfield "Hn".
  iApply "HΦ". rw dchain_mid. iFrame.
Qed.

(** [y] moves before [x]. *)
Lemma link_behind_spec N1 x N2 y N3 :
  dchain NULL (N1 ++ x :: N2 ++ y :: N3) NULL
  ⊢ hwp (link_behind x.1 y.1) (λ _, dchain NULL (N1 ++ y :: x :: N2 ++ N3) NULL).
Proof.
  iIntros "H". rw app_comm_cons app_assoc dchain_mid. iDestruct "H" as "(H1 & Hy & H2)". unfold link_behind.
  iApply link_gap_in. iFrame "Hy H1 H2". iIntros "Hy H". rw -app_assoc -app_comm_cons.
  iApply (behind_spec N1 x (N2 ++ N3) y with "[$H $Hy]"). done.
Qed.

(** From the first node of a segment to the last. *)
Lemma go_last N1 ns N2 :
  is_empty ns = false ->
  dchain NULL (N1 ++ ns ++ N2) NULL
  ⊢ hwp (go n_next (length ns - 1) (first_addr ns NULL)) (λ a, ⌜a = last_from NULL ns⌝ ∧ dchain NULL (N1 ++ ns ++ N2) NULL).
Proof.
  destruct ns as [|n ns _] using rev_ind; [done|]. iIntros (_) "H". iEval (rw -(app_assoc ns) dchain_app dchain_app) in "H".
  iDestruct "H" as "(H1 & H2 & H3)". assert (length (ns ++ [n]) - 1 = length ns)%nat as -> by (rw length_app /=; lia).
  rw (first_addr_app ns [n] NULL) last_from_snoc. cbn [first_addr app]. iApply hwp_wand.
  iSplitL "H2"; [iApply (go_next_spec with "H2")|]. iIntros (a) "[-> H2]". iSplit; [done|]. rw -(app_assoc ns) dchain_app dchain_app. iFrame.
Qed.

(** ** Merging *)

(** What the loop has left to do when [i] nodes are in place: [L] and [R] are
    the nodes of the two parts that are not. *)
Record merging (ls rs i lc rc left right : Z) (M L R : nodes) : Prop := {
  mg_left : 0 <= lc /\ ls = lc + zlen L;
  mg_right : 0 <= rc /\ rs = rc + zlen R;
  mg_turn : i = lc + rc /\ zlen M = i;
  mg_some : is_empty R = false;
  mg_first : left = first_addr (M ++ L ++ R) NULL;
  mg_start : M = [] -> right = first_addr R NULL /\ is_empty L = false /\ (length R = 1 -> length L = 1)%nat
}.

Lemma pair_test ls rs i lc rc left right M L R :
  merging ls rs i lc rc left right M L R ->
  (i =? 0) && (ls + rs =? 2) = true -> exists x y, M = [] /\ L = [x] /\ R = [y] /\ right = y.1.
Proof.
  intros [[? ?] [? ?] [? ?] HR _ Hs] [Hi%Z.eqb_eq Hz%Z.eqb_eq]%andb_true_iff.
  assert (M = []) as -> by (apply length_zero_iff_nil; lia). destruct (Hs eq_refl) as (Hr & HL & _).
  destruct L as [|x [|x' L]]; [done| |simpl in *; destruct R; simpl in *; lia].
  destruct R as [|y [|y' R]]; [done| |simpl in *; lia]. by exists x, y.
Qed.

Lemma merging_left ls rs i lc rc left right M x L R :
  merging ls rs i lc rc left right M (x :: L) R ->
  (lc =? ls) = false /\ merging ls rs (i + 1) (lc + 1) rc left right (M ++ [x]) L R.
Proof.
  intros [[? ?] [? ?] [? ?] HR Hf Hs]. simpl length in *. split; [apply Z.eqb_neq; lia|].
  split; [lia|lia|rw length_app /=; lia|done| |by destruct M]. by rw Hf -app_assoc.
Qed.

Lemma merging_right ls rs i lc rc left right M x L y R :
  merging ls rs i lc rc left right M (x :: L) (y :: R) -> is_empty R = false ->
  merging ls rs (i + 1) lc (rc + 1) (if i =? 0 then y.1 else left) right (M ++ [y]) (x :: L) R.
Proof.
  intros [[? ?] [? ?] [? ?] HR Hf Hs] HR'. simpl length in *.
  split; [simpl; lia|lia|rw length_app /=; lia|done| |by destruct M].
  destruct M as [|m M]; [by replace (i =? 0) with true by (symmetry; apply Z.eqb_eq; simpl in *; lia)|].
  by rw (proj2 (Z.eqb_neq _ _)); [|simpl in *; lia].
Qed.

Lemma merge_loop_spec A B n : forall ls rs i lc rc left right M L R,
  merging ls rs i lc rc left right M L R -> (length L + length R <= n)%nat ->
  dchain NULL (A ++ M ++ L ++ R ++ B) NULL
  ⊢ hwp (merge_loop n cmp ls rs i lc rc left right (first_addr (L ++ R) NULL) (first_addr R NULL))
      (λ e, ⌜e = (first_addr (M ++ merged L R) NULL, last_from NULL (M ++ merged L R))⌝ ∧
            dchain NULL (A ++ (M ++ merged L R) ++ B) NULL).
Proof using HC.
  induction n as [|n IH]; intros ls rs i lc rc left right M L R Hg Hn.
  { destruct Hg as [_ _ _ HR _ _]. destruct R; [done|simpl in Hn; lia]. }
  pose proof (pair_test _ _ _ _ _ _ _ _ _ _ Hg) as Ht. pose proof Hg as [[Hl Hls] [Hr Hrs] [Hi HM] HR Hf Hs].
  destruct R as [|y R]; [done|]. destruct L as [|x L]; iIntros "H"; cbn [merge_loop first_addr app].
  - assert (A ++ M ++ [] ++ (y :: R) ++ B = (A ++ M) ++ y :: R ++ B) as E by by simplify_list_eq.
    iEval (rw E) in "H". do 2 (iApply node_field; iFrame "H"; iIntros "H"; lsimpl).
    pose proof (cmp_same cmp y.2). rw (proj2 (Z.leb_le _ _)); [|done].
    destruct ((i =? 0) && (ls + rs =? 2)); [by destruct (Ht eq_refl) as (? & ? & _ & ? & _)|].
    rw (proj2 (Z.eqb_eq lc ls)); [|simpl in Hls; lia].
    replace (Z.to_nat (rs - 1 - rc)) with (length (y :: R) - 1)%nat by (simpl in *; lia).
    iApply hwp_call. iSplitL; [iApply (go_last (A ++ M) (y :: R) B with "H"); done|]. iIntros (a) "[-> H]". lret.
    rw list_merge_nil_l. iSplit; [iPureIntro|by simplify_list_eq].
    by rw last_from_app Hf (last_from_any NULL (last_from NULL M) (y :: R)).
  - assert (A ++ M ++ (x :: L) ++ (y :: R) ++ B = (A ++ M) ++ x :: L ++ y :: R ++ B) as E by by simplify_list_eq.
    assert (A ++ M ++ (x :: L) ++ (y :: R) ++ B = (A ++ M ++ x :: L) ++ y :: R ++ B) as E' by by simplify_list_eq.
    iEval (rw E) in "H". iApply node_field. iFrame "H". iIntros "H". rw -{1}E. iEval (rw E') in "H".
    iApply node_field. iFrame "H". iIntros "H". lsimpl. rw -{1}E' node_merge_cons. destruct (cmp x.2 y.2 <=? 0).
    + destruct ((i =? 0) && (ls + rs =? 2)).
      { destruct (Ht eq_refl) as (? & ? & -> & HL1 & HR1 & ->). injection HL1 as <- ->. injection HR1 as <- ->. lret.
        iSplit; [iPureIntro; by rw Hf|done]. }
      destruct (merging_left _ _ _ _ _ _ _ _ _ _ _ Hg) as [E1 Hg']. rw E1. iEval (rw E) in "H".
      iApply node_field. iFrame "H". iIntros "H". lsimpl.
      assert (first_addr (L ++ y :: R ++ B) NULL = first_addr (L ++ y :: R) NULL) as -> by (by rw !first_addr_app).
      assert ((A ++ M) ++ x :: L ++ y :: R ++ B = A ++ (M ++ [x]) ++ L ++ (y :: R) ++ B) as E2 by by simplify_list_eq.
      rw E2. iApply hwp_wand. iSplitL; [iApply (IH _ _ _ _ _ _ _ _ _ _ Hg' with "H"); simpl in *; lia|].
      iIntros (e) "H". by simplify_list_eq.
    + iEval (rw E') in "H". iApply node_field. iFrame "H". iIntros "H". rw -{1}E'. iEval (rw E) in "H". iApply hwp_call.
      iSplitL; [iApply (link_behind_spec (A ++ M) x L y (R ++ B) with "H")|]. iIntros (u) "H". lsimpl.
      destruct ((i =? 0) && (ls + rs =? 2)) eqn:Ep.
      { destruct (Ht eq_refl) as (? & ? & -> & HL1 & HR1 & ->). injection HL1 as <- ->. injection HR1 as <- ->. lret.
        iSplit; [done|]. by simplify_list_eq. }
      destruct R as [|y' R].
      * rw (proj2 (Z.eqb_eq (rc + 1) rs)); [|simpl in *; lia].
        replace (Z.to_nat (ls - 1 - lc)) with (length (x :: L) - 1)%nat by (simpl in *; lia).
        assert ((A ++ M) ++ y :: x :: L ++ [] ++ B = (A ++ M ++ [y]) ++ (x :: L) ++ B) as E2 by by simplify_list_eq.
        rw E2. iApply hwp_call. iSplitL; [iApply (go_last _ (x :: L) B with "H"); done|]. iIntros (a) "[-> H]". lret.
        rw list_merge_nil_r. iSplit; [iPureIntro|by simplify_list_eq].
        destruct M as [|m M]; [|by rw Hf last_from_app !last_from_cons].
        destruct (Hs eq_refl) as (_ & _ & HL1). specialize (HL1 eq_refl). simpl in *. exfalso.
        apply andb_false_iff in Ep as [Ep%Z.eqb_neq|Ep%Z.eqb_neq]; lia.
      * rw (proj2 (Z.eqb_neq (rc + 1) rs)); [|simpl in *; lia].
        pose proof (merging_right _ _ _ _ _ _ _ _ _ _ _ _ Hg eq_refl) as Hg'.
        assert ((A ++ M) ++ y :: x :: L ++ (y' :: R) ++ B = A ++ (M ++ [y]) ++ (x :: L) ++ (y' :: R) ++ B) as E2 by by simplify_list_eq.
        rw E2. iApply hwp_wand. iSplitL; [iApply (IH _ _ _ _ _ _ _ _ _ _ Hg' with "H"); simpl in *; lia|].
        iIntros (e) "H". by simplify_list_eq.
Qed.

Lemma merge_spec A B L R :
  is_empty L = false -> is_empty R = false -> (length R = 1 -> length L = 1)%nat ->
  dchain NULL (A ++ L ++ R ++ B) NULL
  ⊢ hwp (merge cmp (first_addr L NULL) (first_addr R NULL) (zlen L) (zlen R))
      (λ e, ⌜e = (first_addr (merged L R) NULL, last_from NULL (merged L R))⌝ ∧ dchain NULL (A ++ merged L R ++ B) NULL).
Proof using HC.
  iIntros (HL HR Hs) "H". unfold merge.
  assert (first_addr L NULL = first_addr (L ++ R) NULL) as E by (by destruct L).
  iPoseProof (merge_loop_spec A B (Z.to_nat (zlen L + zlen R)) _ _ 0 0 0 (first_addr L NULL) (first_addr R NULL) [] L R with "H") as "H".
  - by split.
  - lia.
  - by rw -E.
Qed.

Lemma go_over N1 ns N2 a :
  a = first_addr (ns ++ N2) NULL ->
  dchain NULL (N1 ++ ns ++ N2) NULL
  ⊢ hwp (go n_next (length ns) a) (λ a, ⌜a = first_addr N2 NULL⌝ ∧ dchain NULL (N1 ++ ns ++ N2) NULL).
Proof.
  iIntros (->) "H". iEval (rw (dchain_app NULL N1) dchain_app) in "H". iDestruct "H" as "(H1 & H2 & H3)".
  iApply hwp_wand. iSplitL "H2"; [rw (first_addr_app ns N2 NULL); iApply (go_next_spec with "H2")|].
  iIntros (a) "[-> H2]". iSplit; [done|]. rw (dchain_app NULL N1) dchain_app. iFrame.
Qed.

(** The halves of a segment. *)
Lemma halves ns :
  (2 <= length ns)%nat ->
  exists L R, ns = L ++ R /\ zlen L = zlen ns / 2 /\ zlen R = zlen ns / 2 + zlen ns mod 2 /\
    is_empty L = false /\ is_empty R = false /\ (length R = 1 -> length L = 1)%nat /\
    (length L < length ns)%nat /\ (length R < length ns)%nat.
Proof.
  intros Hn. set (k := Z.to_nat (zlen ns / 2)). exists (take k ns), (drop k ns).
  pose proof (Z.div_mod (zlen ns) 2) as Hd. pose proof (Z.mod_pos_bound (zlen ns) 2) as Hm.
  assert (length (take k ns) = k) as H1 by (rw length_take; lia).
  assert (length (drop k ns) = length ns - k)%nat as H2 by apply length_drop.
  split; [by rw take_drop|]. split_and!; [lia|lia| | |lia|lia|lia].
  - destruct (take k ns); [simpl in H1; lia|done].
  - destruct (drop k ns); [simpl in H2; lia|done].
Qed.

(** ** Sorting a segment *)

(** The header is written where there is something to sort. *)
Definition sorted_header l ms : clist :=
  if zlen ms <? 2 then l else mk_list (l_size l) (first_addr ms NULL) (last_from NULL ms).

Lemma split_spec fuel : forall l ns A B b,
  (length ns < fuel)%nat -> b = first_addr (ns ++ B) NULL ->
  dchain NULL (A ++ ns ++ B) NULL
  ⊢ hwp (split fuel cmp l b (zlen ns))
      (λ r, ∃ ms, ⌜sorts cmp ns ms /\ r = (first_addr (ms ++ B) NULL, sorted_header l ms)⌝ ∧ dchain NULL (A ++ ms ++ B) NULL).
Proof using HC.
  induction fuel as [|fuel IH]; intros l ns A B b Hf Hb; [lia|]. iIntros "H". cbn [split].
  destruct (Z.ltb_spec (zlen ns) 2) as [Hn|Hn].
  - lret. iExists ns. iSplit; [|done]. iPureIntro. split; [apply short_sorts; lia|]. unfold sorted_header.
    by rw (proj2 (Z.ltb_lt _ _) Hn) Hb.
  - destruct (halves ns) as (L & R & -> & HL & HR & EL & ER & Hs & FL & FR); [lia|]. rw -HR -HL Nat2Z.id. rw -app_assoc in Hb.
    rw -(app_assoc L). iApply hwp_call. iSplitL; [by iApply (go_over A L (R ++ B))|].
    iIntros (center) "[-> H]". iApply hwp_call. iSplitL; [iApply (IH l L A (R ++ B) with "H"); [lia|done]|].
    iIntros (lh) "(%L' & %HL' & H)". destruct HL' as [SL ->]. lsimpl. rw app_assoc. iApply hwp_call.
    iSplitL; [iApply (IH _ R (A ++ L') B with "H"); [lia|done]|]. iIntros (rh) "(%R' & %HR' & H)". destruct HR' as [SR ->]. lsimpl.
    pose proof (Permutation_length (proj1 SL)) as NL. pose proof (Permutation_length (proj1 SR)) as NR.
    assert (is_empty L' = false) as EL' by (by destruct L, L').
    assert (is_empty R' = false) as ER' by (by destruct R, R').
    replace (first_addr (L' ++ R ++ B) NULL) with (first_addr L' NULL) by (by destruct L').
    replace (first_addr (R' ++ B) NULL) with (first_addr R' NULL) by (by destruct R'). rw -NL -NR -app_assoc.
    iApply hwp_call. iSplitL; [iApply (merge_spec A B L' R' with "H"); [done|done|by rw NL NR]|].
    iIntros (m) "[-> H]". lret. iExists (merged L' R'). iSplit; [|done]. iPureIntro.
    pose proof (merge_sorts cmp _ _ _ _ SL SR) as S. split; [done|].
    assert (length (merged L' R') = length (L ++ R)) as Hlen by apply Permutation_length, S.
    unfold sorted_header at 3. rw Hlen (proj2 (Z.ltb_ge _ _) Hn). 
    destruct (merged L' R') as [|n ms]; [rw -Hlen in Hn; simpl in Hn; lia|]. unfold sorted_header. simpl.
    by repeat case_match.
Qed.

Lemma lsort_in_place_spec l ns :
  list_at l ns
  ⊢ hwp (cc_list_sort_in_place l cmp) (λ l', ∃ ms, ⌜sorts cmp ns ms⌝ ∧ list_at l' ms).
Proof using HC.
  iIntros "[%Hl H]". unfold cc_list_sort_in_place. iApply hwp_bind. iApply list_fuel. iFrame "H". iIntros (k Hk) "H".
  pose proof Hl as (Hs & Hb & Hh & Ht). rw Hs Hh. iApply hwp_call.
  iSplitL; [iApply (split_spec k l ns [] []); [done|by rw app_nil_r|by rw app_nil_r]|].
  iIntros (r) "(%ms & %Hr & H)". destruct Hr as [S ->]. lret. iExists ms. iSplit; [done|]. rw app_nil_r. iSplit; [|done].
  pose proof (Permutation_length (proj1 S)) as N. iPureIntro. unfold sorted_header.
  destruct (Z.ltb_spec (zlen ms) 2) as [Hlt|Hge]; [|split_and!; lsimpl; rw ?N; done].
  enough (ms = ns) as -> by done. destruct S as (P & _ & _).
  destruct ms as [|m [|m' ms]]; [by apply Permutation_nil_l in P|by apply Permutation_singleton_l in P|simpl in Hlt; lia].
Qed.
End Sort.
