(* ===== verification/CcListProps.v ===== *)
(** * What a linked list promises

    An interface for lists of elements whose nodes are on the heap, proved for
    the singly linked and the doubly linked list: either one implements the
    specification of CcSlistProps.v, so that a client cannot tell them apart. *)

From iris.proofmode Require Import proofmode.
From S2P Require Import Prelude CMem CState CHeap HeapLogic CcArray CcArrayFacts CcSlist CcSlistFacts CcSlistProps CcList CcListFacts CcListOps CcListPair.

(** ** The interface *)

(** A list after a call: a step of the specification was done. *)
Definition list_after {N L} (at_ : L -> nodes -> hpropI N) (op : lop) (ns : nodes)
    (r : cc_stat * option Z * L) : hpropI N :=
  (∃ ns', ⌜lstep op ns.*2 r.1.1 r.1.2 ns'.*2 /\ zlen ns' <= zlen ns + 1⌝ ∧ at_ r.2 ns')%I.

Class LinkedList (N L : Type) := {
  ll_step : lop -> L -> M (heap N) (cc_stat * option Z * L);
  ll_at : L -> nodes -> hpropI N;
  ll_correct op l ns :
    lop_ok op -> zlen ns + 1 < 2 ^ 32 -> ll_at l ns ⊢ hwp (ll_step op l) (list_after ll_at op ns);
  ll_exact l ns h : hprop_at (ll_at l ns) h -> stdpp.base.size h = length ns
}.

(** ** Its clients *)

Section Client.
Context {N L : Type} `{HLL : !LinkedList N L}.

Fixpoint ll_run (ops : list lop) (l : L) : M (heap N) (list (cc_stat * option Z) * L) :=
  match ops with
  | [] => mret ([], l)
  | op :: ops => r ← ll_step op l; rs ← ll_run ops r.2; mret (r.1 :: rs.1, rs.2)
  end.

Definition ll_holds (l : L) (xs : list Z) (h : heap N) : Prop := exists ns, ns.*2 = xs /\ hprop_at (ll_at l ns) h.

Lemma ll_run_spec ops l ns :
  Forall lop_ok ops -> zlen ns + zlen ops < 2 ^ 32 ->
  ll_at l ns ⊢ hwp (ll_run ops l) (λ r, ∃ ns', ⌜lsteps ops ns.*2 r.1 ns'.*2⌝ ∧ ll_at r.2 ns').
Proof.
  intros Hok. revert l ns. induction Hok as [|op ops Hop _ IH]; intros l ns Hm; iIntros "H"; simpl.
  - iApply hwp_ret. iExists ns. iSplit; [|done]. iPureIntro. constructor.
  - simpl in Hm. iApply hwp_call. iSplitL; [iApply (ll_correct with "H"); [done|lia]|].
    iIntros ([[st out] l']) "(%ns' & %Hs & H)". destruct Hs as [Hs Hn].
    iApply hwp_call. iSplitL; [iApply (IH with "H"); lia|]. iIntros (rs) "(%ns2 & %Hr & H)". iApply hwp_ret.
    iExists ns2. iSplit; [|done]. iPureIntro. by econstructor.
Qed.

(** A run of the code on a whole heap. *)
Lemma ll_run_refines ops l xs h hf :
  ll_holds l xs h -> h ##ₘ hf -> Forall lop_ok ops -> zlen xs + zlen ops < 2 ^ 32 ->
  exists rs l' xs' h', ll_run ops l (h ∪ hf) = Done (rs, l') (h' ∪ hf) /\ h' ##ₘ hf /\
    lsteps ops xs rs xs' /\ ll_holds l' xs' h' /\ stdpp.base.size h' = length xs'.
Proof.
  intros (ns & <- & Hh) Hd Hok Hm. rw length_fmap in Hm.
  destruct (hwp_run _ _ _ h hf (ll_run_spec ops l ns Hok Hm) Hh Hd) as ([rs l'] & h' & Hr & Hd' & ns' & Hs & H').
  exists rs, l', ns'.*2, h'. split_and!; [done..|by exists ns'|]. rw length_fmap. by eapply ll_exact.
Qed.
End Client.

(** Without a failed allocation, the specification leaves no choice. *)
Definition no_alloc_error (rs : list (cc_stat * option Z)) : Prop := Forall (fun r => r.1 <> CC_ERR_ALLOC) rs.

Lemma lspec_never_alloc op xs : (lspec op xs).1.1 <> CC_ERR_ALLOC.
Proof. by destruct op; simpl; repeat case_match. Qed.

Lemma lsteps_deterministic ops xs rs xs' rs2 xs2 :
  lsteps ops xs rs xs' -> lsteps ops xs rs2 xs2 -> no_alloc_error rs -> no_alloc_error rs2 -> rs = rs2 /\ xs' = xs2.
Proof.
  intros H. revert rs2 xs2. induction H as [xs|op ops xs st out ys rs zs Hs _ IH]; intros rs2 zs2 H2; inversion H2; subst; [done|].
  intros [Ha Hn]%Forall_cons_1 [Ha2 Hn2]%Forall_cons_1. simpl in Ha, Ha2.
  destruct Hs as [Hs|(_ & ? & _)]; [|done]. match goal with H : lstep op xs _ _ _ |- _ => destruct H as [Hs2|(_ & ? & _)] end; [|done].
  rw Hs in Hs2. injection Hs2 as <- <- <-. edestruct IH as [-> ->]; done.
Qed.

(** ** The singly linked list *)

Lemma slist_size_at l ns h : hprop_at (slist_at l ns) h -> stdpp.base.size h = length ns.
Proof. intros [_ H]. by rw (chain_size _ _ _ H). Qed.

#[export] Instance slist_linked `{HA : !NodeAlloc snode, HQ : !QSort, HL : !NodeAllocLaws snode} :
  LinkedList snode slist :=
  { ll_step := slist_step; ll_at := slist_at; ll_correct := step_spec; ll_exact := slist_size_at }.

(** ** The doubly linked list *)

Section Step.
Context `{HA : !NodeAlloc lnode} `{HQ : !QSort} `{HL : !NodeAllocLaws lnode}.
Implicit Types (l : clist) (ns : nodes).
Local Abbreviation LM := (M (heap lnode)).

Definition no_out (r : cc_stat * clist) : cc_stat * option Z * clist := (r.1, None, r.2).

(** Elements are compared as pointers. *)
Definition same_element (x y : Z) : Z := if x =? y then 0 else 1.

Definition list_step (op : lop) l : LM (cc_stat * option Z * clist) :=
  match op with
  | LAddFirst x => r ← cc_list_add_first l x; mret (no_out r)
  | LAddLast x => r ← cc_list_add l x; mret (no_out r)
  | LAddAt x i => r ← cc_list_add_at l x i; mret (no_out r)
  | LRemove x => cc_list_remove l x
  | LRemoveAt i => cc_list_remove_at l i
  | LRemoveFirst => cc_list_remove_first l
  | LRemoveLast => cc_list_remove_last l
  | LRemoveAll => r ← cc_list_remove_all l; mret (no_out r)
  | LReplaceAt x i => cc_list_replace_at l x i
  | LGetAt i => cc_list_get_at l i
  | LGetFirst => cc_list_get_first l
  | LGetLast => cc_list_get_last l
  | LIndexOf x => r ← cc_list_index_of l x same_element; mret (r, l)
  | LContains x => n ← cc_list_contains l x; mret (CC_OK, Some n, l)
  | LReverse => l ← cc_list_reverse l; mret (CC_OK, None, l)
  | LFilterMut p => r ← cc_list_filter_mut l p; mret (no_out r)
  end.

Local Abbreviation after op ns := (list_after list_at op ns).

Lemma after_step op ns ns' st out l :
  lspec op ns.*2 = (st, out, ns'.*2) -> zlen ns' <= zlen ns + 1 -> list_at l ns' ⊢ after op ns (st, out, l).
Proof. iIntros (H1 H2) "H". iExists ns'. iSplit; [|done]. iPureIntro. split; [by left|done]. Qed.

Lemma after_ladded op l ns (P : nodes -> Prop) r :
  allocates op = true ->
  (forall ns', P ns' -> lspec op ns.*2 = (CC_OK, None, ns'.*2) /\ zlen ns' <= zlen ns + 1) ->
  ladded l ns P r ⊢ after op ns (no_out r).
Proof.
  iIntros (Ho HP) "[[-> H]|(%ns' & %Hr & H)]".
  - iExists ns. iSplit; [|done]. iPureIntro. split; [by right|lia].
  - destruct r as [st l']. destruct Hr as [Hst Hns]. simpl in Hst. subst st.
    iApply (after_step _ _ ns'); [by apply HP..|done].
Qed.

(** A specification of the call gives its step. *)
Lemma call_exact op l ns (R : cc_stat * option Z * clist -> Prop) ns' :
  (list_at l ns ⊢ hwp (list_step op l) (λ r, ⌜R r⌝ ∧ list_at r.2 ns')) ->
  (forall r, R r -> lspec op ns.*2 = (r.1.1, r.1.2, ns'.*2)) -> zlen ns' <= zlen ns + 1 ->
  list_at l ns ⊢ hwp (list_step op l) (after op ns).
Proof.
  iIntros (Hs HR Hn) "H". iApply hwp_wand. iSplitL; [by iApply Hs|]. iIntros ([[st out] l']) "[%Hr H]".
  iApply (after_step _ _ ns' with "H"); [by apply (HR _ Hr)|done].
Qed.

Lemma call_same op l ns ns' st out :
  (list_at l ns ⊢ hwp (list_step op l) (λ r, ⌜r = (st, out, l)⌝ ∧ list_at l ns')) ->
  lspec op ns.*2 = (st, out, ns'.*2) -> zlen ns' = zlen ns ->
  list_at l ns ⊢ hwp (list_step op l) (after op ns).
Proof.
  iIntros (Hs HR Hn) "H". iApply hwp_wand. iSplitL; [by iApply Hs|]. iIntros (r) "[-> H]".
  iApply (after_step _ _ ns' with "H"); [done|lia].
Qed.

Lemma call_add l ns x :
  zlen ns + 1 < 2 ^ 32 ->
  (list_at l ns ⊢ hwp (list_step (LAddFirst x) l) (after (LAddFirst x) ns)) /\
  (list_at l ns ⊢ hwp (list_step (LAddLast x) l) (after (LAddLast x) ns)).
Proof using HL.
  intros Hm. split; simpl; iIntros "H"; iApply hwp_call.
  - iSplitL; [by iApply (ladd_first_spec with "H")|]. iIntros (r) "H". lret.
    iApply (after_ladded with "H"); [done|]. intros ns' E. simpl. split; [by rw E|].
    apply (f_equal length) in E. rw /= !length_fmap in E. lia.
  - iSplitL; [by iApply (ladd_last_spec with "H")|]. iIntros (r) "H". lret.
    iApply (after_ladded with "H"); [done|]. intros ns' E. simpl. split; [by rw E|].
    apply (f_equal length) in E. rw length_app /= !length_fmap in E. lia.
Qed.

Lemma call_add_at l ns x i :
  zlen ns + 1 < 2 ^ 32 -> 0 <= i ->
  list_at l ns ⊢ hwp (list_step (LAddAt x i) l) (after (LAddAt x i) ns).
Proof using HL.
  iIntros (Hm Hi) "H". simpl. destruct (Z.lt_ge_cases i (zlen ns)) as [Hlt|Hge].
  - destruct (split_nodes ns i) as (ns1 & n & ns2 & -> & -> & _); [lia|].
    iApply hwp_call. iSplitL; [by iApply (ladd_at_spec with "H")|]. iIntros (r) "H". lret.
    iApply (after_ladded with "H"); [done|]. intros ns' E. cbn [lspec].
    rw (proj2 (Z.ltb_lt _ _)); [|rw length_fmap; done]. rw Nat2Z.id fmap_app.
    rw take_app_length'; [|by rw length_fmap]. rw drop_app_length'; [|by rw length_fmap]. rw -E.
    split; [done|]. apply (f_equal length) in E. rw length_app /= !length_fmap in E. rw length_app /=. lia.
  - iApply hwp_call. iSplitL; [by iApply (ladd_at_out with "H")|]. iIntros (r) "[-> H]". lret.
    iApply (after_step _ _ ns with "H"); [|lia]. cbn [lspec]. by rw (proj2 (Z.ltb_ge _ _)); [|rw length_fmap].
Qed.

Lemma call_indexed l ns i x :
  0 <= i ->
  (list_at l ns ⊢ hwp (list_step (LRemoveAt i) l) (after (LRemoveAt i) ns)) /\
  (list_at l ns ⊢ hwp (list_step (LReplaceAt x i) l) (after (LReplaceAt x i) ns)) /\
  (list_at l ns ⊢ hwp (list_step (LGetAt i) l) (after (LGetAt i) ns)).
Proof.
  intros Hi. destruct (Z.lt_ge_cases i (zlen ns)) as [Hlt|Hge].
  - destruct (split_nodes ns i) as (ns1 & n & ns2 & -> & -> & Hn); [lia|]. split_and!.
    + eapply call_exact; [apply lremove_at_spec| |rw !length_app /=; lia].
      intros [[st out] l'] [= -> ->]. cbn [lspec]. rw Hn. do 2 f_equal. by rw Nat2Z.id -fmap_remove_nth remove_mid.
    + eapply call_same; [apply lreplace_at_spec| |rw !length_app /=; lia].
      cbn [lspec]. rw Hn. do 2 f_equal. rw Nat2Z.id !fmap_app.
      rw insert_app_r_alt; [|rw length_fmap; lia]. by rw length_fmap Nat.sub_diag.
    + eapply call_same; [apply lget_at_spec| |done]. cbn [lspec]. by rw Hn.
  - split_and!; (eapply call_same; [|by cbn [lspec]; rw (nodes_beyond _ _ Hge)|done]).
    + by apply lremove_at_out.
    + by apply lreplace_at_out.
    + by apply lget_at_out.
Qed.

Lemma call_ends l ns :
  (list_at l ns ⊢ hwp (list_step LRemoveFirst l) (after LRemoveFirst ns)) /\
  (list_at l ns ⊢ hwp (list_step LRemoveLast l) (after LRemoveLast ns)) /\
  (list_at l ns ⊢ hwp (list_step LGetFirst l) (after LGetFirst ns)) /\
  (list_at l ns ⊢ hwp (list_step LGetLast l) (after LGetLast ns)).
Proof.
  split_and!.
  - eapply (call_exact _ _ _ _ (tail ns)); [apply lremove_first_spec| |destruct ns; simpl; lia].
    intros [[st out] l'] E. simpl in E. by destruct ns; injection E as -> ->.
  - destruct ns as [|n ns _] using rev_ind.
    + by eapply call_same; [apply lremove_last_none|..].
    + eapply (call_exact _ _ _ _ ns); [apply lremove_last_spec| |rw length_app /=; lia].
      intros [[st out] l'] [= -> ->]. cbn [lspec]. rw fmap_app /= last_snoc. do 2 f_equal.
      rw length_app /= Nat.add_sub. by rw take_app_length.
  - destruct ns as [|n ns].
    + by eapply call_same; [apply (lget_first_spec l [])|..].
    + by eapply call_same; [apply (lget_first_spec l (n :: ns))|..].
  - pose proof (lget_last_spec l ns) as Hs. destruct (list.last ns) as [n|] eqn:E.
    + eapply (call_same _ _ _ ns); [exact Hs|by cbn [lspec]; rw fmap_last E|done].
    + eapply (call_same _ _ _ ns); [exact Hs|by cbn [lspec]; rw fmap_last E|done].
Qed.

Lemma same_element_found x ys : list_find (fun y => same_element y x = 0) ys = list_find (fun y => y = x) ys.
Proof. apply list_find_ext. intros y. unfold same_element. by destruct (Z.eqb_spec y x). Qed.

Lemma call_search l ns x :
  (list_at l ns ⊢ hwp (list_step (LRemove x) l) (after (LRemove x) ns)) /\
  (list_at l ns ⊢ hwp (list_step (LIndexOf x) l) (after (LIndexOf x) ns)) /\
  (list_at l ns ⊢ hwp (list_step (LContains x) l) (after (LContains x) ns)).
Proof.
  destruct (find_second ns x) as [Hf Hx]. split_and!.
  - simpl. iIntros "H". iApply hwp_wand. iSplitL; [iApply (lremove_spec with "H")|].
    iIntros ([[st out] l']) "H". destruct (list_find (fun n => n.2 = x) ns) as [[k n]|] eqn:E;
      iDestruct "H" as "[%Hr H]"; injection Hr as -> ->.
    + iApply (after_step with "H"); [|rw length_app length_take length_drop; lia]. cbn [lspec]. rw Hf /=.
      do 2 f_equal. by rw -fmap_remove_nth.
    + iApply (after_step with "H"); [|lia]. cbn [lspec]. by rw Hf.
  - simpl. iIntros "H". iApply hwp_call. iSplitL; [iApply (lindex_of_spec with "H")|].
    iIntros (r) "[-> H]". lret. iExists ns. iSplit; [|done]. iPureIntro. split; [left|lia].
    cbn [lspec]. unfold index_of. rw same_element_found. by destruct (list_find _ ns.*2) as [[k y]|].
  - simpl. iIntros "H". iApply hwp_call. iSplitL; [iApply (lcontains_spec with "H")|].
    iIntros (r) "[-> H]". lret. by iApply (after_step _ _ ns with "H"); [|lia].
Qed.

Lemma call_whole l ns p :
  (list_at l ns ⊢ hwp (list_step LRemoveAll l) (after LRemoveAll ns)) /\
  (list_at l ns ⊢ hwp (list_step LReverse l) (after LReverse ns)) /\
  (list_at l ns ⊢ hwp (list_step (LFilterMut p) l) (after (LFilterMut p) ns)).
Proof.
  split_and!; simpl; iIntros "H"; iApply hwp_call.
  - iSplitL; [iApply (lremove_all_spec with "H")|]. iIntros ([st l']) "[%Hr H]". simpl in Hr. subst st. lret.
    iApply (after_step _ _ [] with "H"); [by destruct ns|simpl; lia].
  - iSplitL; [iApply (lreverse_spec with "H")|]. iIntros (l') "H". lret.
    iApply (after_step with "H"); [|rw length_reverse; lia]. cbn [lspec]. by rw fmap_reverse.
  - iSplitL; [iApply (lfilter_mut_spec with "H")|]. iIntros ([st l']) "[%Hr H]". simpl in Hr. subst st. lret.
    iApply (after_step with "H"); [|pose proof (length_filter (fun n : Z * Z => p n.2 = true) ns); lia].
    cbn [lspec]. rw filter_second. by destruct ns.
Qed.

Lemma call_correct op l ns :
  lop_ok op -> zlen ns + 1 < 2 ^ 32 -> list_at l ns ⊢ hwp (list_step op l) (after op ns).
Proof using HL.
  intros Hop Hm. destruct op; simpl in Hop.
  - by apply call_add.
  - by apply call_add.
  - apply call_add_at; [done|apply Hop].
  - by apply call_search.
  - apply (call_indexed l ns i 0), Hop.
  - by apply call_ends.
  - by apply call_ends.
  - by apply (call_whole l ns (fun _ => true)).
  - apply call_indexed, Hop.
  - apply (call_indexed l ns i 0), Hop.
  - by apply call_ends.
  - by apply call_ends.
  - by apply call_search.
  - by apply call_search.
  - by apply (call_whole l ns (fun _ => true)).
  - by apply call_whole.
Qed.
End Step.

Lemma list_size_at l ns h : hprop_at (list_at l ns) h -> stdpp.base.size h = length ns.
Proof. intros [_ H]. by rw (dchain_size _ _ _ _ H). Qed.

#[export] Instance list_linked `{HA : !NodeAlloc lnode, HL : !NodeAllocLaws lnode} : LinkedList lnode clist :=
  { ll_step := list_step; ll_at := list_at; ll_correct := call_correct; ll_exact := list_size_at }.

(** ** Theorems *)

(** C28. The doubly linked list implements a list.  Whatever the rest [hf] of
    the heap is, every sequence of calls on a list returns, without an access
    through a null or dangling pointer and without touching [hf]; each call
    gives the status and the element of the list specification, or reports
    that memory ran out and changes nothing; and afterwards the heap holds
    exactly one node per element, linked in both directions. *)
Theorem clist_refines_list `{HA : !NodeAlloc lnode, HL : !NodeAllocLaws lnode} ops (l : clist) xs (h hf : heap lnode) :
  ll_holds l xs h -> h ##ₘ hf -> Forall lop_ok ops -> zlen xs + zlen ops < 2 ^ 32 ->
  exists rs l' xs' h', ll_run ops l (h ∪ hf) = Done (rs, l') (h' ∪ hf) /\ h' ##ₘ hf /\
    lsteps ops xs rs xs' /\ ll_holds l' xs' h' /\ stdpp.base.size h' = length xs'.
Proof. apply ll_run_refines. Qed.

(** C30. The two lists are interchangeable.  On lists of the same elements, the
    same calls on the singly and on the doubly linked list return the same
    statuses and elements and leave the same elements, unless one of them runs
    out of memory. *)
Theorem lists_interchangeable `{HA : !NodeAlloc lnode, HL : !NodeAllocLaws lnode}
    `{HA2 : !NodeAlloc snode, HQ : !QSort, HL2 : !NodeAllocLaws snode} ops (l : clist) (sl : slist) xs
    (h : heap lnode) (sh : heap snode) :
  ll_holds l xs h -> ll_holds sl xs sh -> Forall lop_ok ops -> zlen xs + zlen ops < 2 ^ 32 ->
  exists rs rs2 l' sl' h' sh' ys zs,
    ll_run ops l h = Done (rs, l') h' /\ ll_run ops sl sh = Done (rs2, sl') sh' /\
    ll_holds l' ys h' /\ ll_holds sl' zs sh' /\
    (no_alloc_error rs -> no_alloc_error rs2 -> rs = rs2 /\ ys = zs).
Proof.
  intros H1 H2 Hok Hm.
  destruct (ll_run_refines ops l xs h ∅ H1) as (rs & l' & ys & h' & R1 & _ & S1 & F1 & _); [apply map_disjoint_empty_r|done..|].
  destruct (ll_run_refines ops sl xs sh ∅ H2) as (rs2 & sl' & zs & sh' & R2 & _ & S2 & F2 & _); [apply map_disjoint_empty_r|done..|].
  rw !(right_id_L ∅) in R1 R2. exists rs, rs2, l', sl', h', sh', ys, zs. split_and!; [done..|].
  by apply lsteps_deterministic with ops xs.
Qed.

(** ** Runs *)

Definition six_lcells : NodeAlloc lnode := cell_alloc [8; 16; 24; 32; 40; 48].

(** A list of two elements. *)
Definition pair_nodes : heap lnode := {[8 := mk_node 5 16 NULL; 16 := mk_node 6 NULL 8]}.
Definition pair_list : clist := mk_list 2 8 16.

Lemma pair_list_holds : ll_holds (HLL := list_linked (HA := six_lcells) (HL := cell_alloc_laws _)) pair_list [5; 6] pair_nodes.
Proof.
  exists [(8, 5); (16, 6)]. split; [done|]. split; [by vm_compute|]. cbn [dchain].
  apply cell_sep; [|done|done]. apply (cell_sep emp); [done|done|done].
Qed.

Lemma clist_refines_list_witness :
  exists rs l' xs' h',
    ll_run (HLL := list_linked (HA := six_lcells) (HL := cell_alloc_laws _)) demo_ops pair_list
        (pair_nodes ∪ {[24 := mk_node 1 2 3]})
      = Done (rs, l') (h' ∪ {[24 := mk_node 1 2 3]}) /\ h' ##ₘ {[24 := mk_node 1 2 3]} /\
    lsteps demo_ops [5; 6] rs xs' /\
    ll_holds (HLL := list_linked (HA := six_lcells) (HL := cell_alloc_laws _)) l' xs' h' /\
    stdpp.base.size h' = length xs'.
Proof.
  apply (clist_refines_list (HA := six_lcells) (HL := cell_alloc_laws _) demo_ops pair_list [5; 6]).
  - apply pair_list_holds.
  - by apply map_disjoint_singleton_r.
  - repeat constructor; done.
  - done.
Defined.

Lemma lists_interchangeable_witness :
  exists rs rs2 l' sl' h' sh' ys zs,
    ll_run (HLL := list_linked (HA := six_lcells) (HL := cell_alloc_laws _)) demo_ops pair_list pair_nodes = Done (rs, l') h' /\
    ll_run (HLL := slist_linked (HA := six_cells) (HQ := fun _ xs => xs) (HL := cell_alloc_laws _)) demo_ops two_list two_nodes
      = Done (rs2, sl') sh' /\
    ll_holds (HLL := list_linked (HA := six_lcells) (HL := cell_alloc_laws _)) l' ys h' /\
    ll_holds (HLL := slist_linked (HA := six_cells) (HQ := fun _ xs => xs) (HL := cell_alloc_laws _)) sl' zs sh' /\
    (no_alloc_error rs -> no_alloc_error rs2 -> rs = rs2 /\ ys = zs).
Proof.
  apply (lists_interchangeable (HL := cell_alloc_laws _) (HL2 := cell_alloc_laws _) demo_ops pair_list two_list [5; 6]).
  - apply pair_list_holds.
  - apply two_list_holds.
  - repeat constructor; done.
  - done.
Defined.
