(* ===== verification/CcListTwo.v ===== *)
(** * Two doubly linked lists

    One step for every operation that involves two lists, or makes a new one,
    as CcSlistPair.v has for the singly linked list. *)

From stdpp Require Import sorting.
From iris.proofmode Require Import proofmode.
From S2P Require Import Prelude CMem CState CHeap HeapLogic CcArray CcArrayFacts CcSlist CcSlistFacts CcSlistProps CcSlistPair CcList CcListFacts CcListOps CcListPair CcListCopy CcListSort CcListProps.

Section Two.
Context `{HA : !NodeAlloc lnode} `{HQ : !QSort} `{HL : !NodeAllocLaws lnode} `{HS : !QSortLaws}.
Implicit Types (l : clist) (ns ms : nodes).
Local Abbreviation LM := (M (heap lnode)).

(** As for the singly linked list, but an index may be the size, and an empty
    list is not sorted. *)
Definition two_spec (op : pair_op) (xs ys : list Z) : cc_stat * list Z * list Z :=
  match op with
  | PAddAllAt i =>
      if ys is [] then (CC_OK, xs, ys)
      else if zlen xs <? i then (CC_ERR_OUT_OF_RANGE, xs, ys) else (CC_OK, insert_list i ys xs, ys)
  | PSpliceAt i =>
      if ys is [] then (CC_OK, xs, ys)
      else if zlen xs <? i then (CC_ERR_OUT_OF_RANGE, xs, ys) else (CC_OK, insert_list i ys xs, [])
  | PSort cmp => if xs is [] then (CC_ERR_INVALID_RANGE, xs, ys) else (CC_OK, qsort cmp xs, ys)
  | _ => pair_spec op xs ys
  end.

(** [cc_list_add_all_at] at index 0 of an empty list, with elements to add: the
    code goes through the null tail. *)
Definition two_undef (op : pair_op) (xs ys : list Z) : bool :=
  match op with PAddAllAt i => (i =? 0) && bool_decide (xs = []) && negb (bool_decide (ys = [])) | _ => false end.

(** The operations that ask for memory. *)
Definition two_allocates (op : pair_op) : bool :=
  match op with PFirst op => allocates op | PSwap | PSplice | PSpliceAt _ => false | _ => true end.

(** A new list takes the place of the second one. *)
Definition take_new (r : cc_stat * option clist) l1 l2 : LM (cc_stat * (clist * clist)) :=
  match r.2 with
  | Some c => cc_list_destroy l2 ;; mret (r.1, (l1, c))
  | None => mret (r.1, (l1, l2))
  end.

Definition two_step (op : pair_op) (ls : clist * clist) : LM (cc_stat * (clist * clist)) :=
  let l1 := ls.1 in
  let l2 := ls.2 in
  match op with
  | PFirst op => r ← list_step op l1; mret (r.1.1, (r.2, l2))
  | PSwap => mret (CC_OK, (l2, l1))
  | PAddAll => r ← cc_list_add_all l1 l2; mret (r.1, (r.2, l2))
  | PAddAllAt i => r ← cc_list_add_all_at l1 l2 i; mret (r.1, (r.2, l2))
  | PSplice => r ← cc_list_splice l1 l2; mret (r.1.1, (r.1.2, r.2))
  | PSpliceAt i => r ← cc_list_splice_at l1 l2 i; mret (r.1.1, (r.1.2, r.2))
  | PSort cmp => r ← cc_list_sort l1 cmp; mret (r, (l1, l2))
  | PCopy cp => r ← cc_list_copy_deep l1 cp; take_new r l1 l2
  | PSublist b e => r ← cc_list_sublist l1 b e; take_new r l1 l2
  end.

Definition two_result (op : pair_op) (xs ys : list Z) (st : cc_stat) (xs' ys' : list Z) : Prop :=
  two_spec op xs ys = (st, xs', ys') \/
  two_allocates op = true /\ st = CC_ERR_ALLOC /\ xs' = xs /\ ys' = ys.

Definition two_after (op : pair_op) ns ms (r : cc_stat * (clist * clist)) : hpropI lnode :=
  (∃ ns' ms', ⌜two_result op ns.*2 ms.*2 r.1 ns'.*2 ms'.*2⌝ ∧ (list_at r.2.1 ns' ∗ list_at r.2.2 ms'))%I.

Lemma two_done op ns ms st l1 l2 ns' ms' :
  two_spec op ns.*2 ms.*2 = (st, ns'.*2, ms'.*2) ->
  list_at l1 ns' ∗ list_at l2 ms' ⊢ two_after op ns ms (st, (l1, l2)).
Proof. iIntros (H) "H". iExists ns', ms'. iSplit; [iPureIntro; by left|done]. Qed.

Lemma two_alloc op ns ms l1 l2 :
  two_allocates op = true -> list_at l1 ns ∗ list_at l2 ms ⊢ two_after op ns ms (CC_ERR_ALLOC, (l1, l2)).
Proof. iIntros (Ho) "H". iExists ns, ms. iSplit; [iPureIntro; by right|done]. Qed.

Lemma two_added op l1 l2 ns ms (P : nodes -> Prop) r :
  two_allocates op = true -> (forall ns', P ns' -> two_spec op ns.*2 ms.*2 = (CC_OK, ns'.*2, ms.*2)) ->
  ladded l1 ns P r ∗ list_at l2 ms ⊢ two_after op ns ms (r.1, (r.2, l2)).
Proof.
  iIntros (Ho HP) "[[[-> H]|(%ns' & %Hr & H)] H2]".
  - iApply two_alloc; [done|]. iFrame.
  - destruct Hr as [Hst Hns]. rw Hst. iApply (two_done _ _ _ _ _ _ ns' ms); [by apply HP|iFrame].
Qed.

Lemma two_copied op l1 l2 ns ms (xs : list Z) r :
  two_allocates op = true -> two_spec op ns.*2 ms.*2 = (CC_OK, ns.*2, xs) ->
  list_at l2 ms ∗ (list_at l1 ns ∗ new_list xs r) ⊢ hwp (take_new r l1 l2) (two_after op ns ms).
Proof.
  iIntros (Ho HP) "[H2 [H1 [[-> _]|(%c & %cs & %Hr & H)]]]"; unfold take_new; simpl.
  - lret. iApply two_alloc; [done|]. iFrame.
  - destruct Hr as [-> Hc]. simpl.
    iApply hwp_call. iSplitL "H2"; [iApply (ldestroy_spec with "H2")|]. iIntros (_) "_". lret.
    iApply (two_done _ _ _ _ _ _ ns cs); [by rw Hc|iFrame].
Qed.

(** Both lists around an index. *)
Lemma split_index ns i :
  0 <= i <= zlen ns ->
  exists ns1 ns2, ns = ns1 ++ ns2 /\ i = zlen ns1 /\ forall ys : list Z, insert_list i ys ns.*2 = ns1.*2 ++ ys ++ ns2.*2.
Proof.
  intros Hi. exists (take (Z.to_nat i) ns), (drop (Z.to_nat i) ns). split_and!; [by rw take_drop|rw length_take; lia|].
  intros ys. unfold insert_list. by rw fmap_take fmap_drop.
Qed.

Lemma two_splice_at l1 l2 ns ms i :
  zlen ns + zlen ms < 2 ^ 32 -> 0 <= i ->
  list_at l1 ns ∗ list_at l2 ms ⊢ hwp (two_step (PSpliceAt i) (l1, l2)) (two_after (PSpliceAt i) ns ms).
Proof.
  iIntros (Hm Hi) "H". simpl. destruct (is_empty ms && bool_decide (zlen ns < i)) eqn:E0.
  { apply andb_true_iff in E0 as [E0 _]. destruct ms; [|done]. iDestruct "H" as "[H1 H2]".
    iDestruct (lsize_test with "H2") as "[%E H2]". unfold cc_list_splice_at. rw E. lskip. lret.
    iApply (two_done _ _ _ _ _ _ ns []); [done|iFrame]. }
  destruct (Z.lt_ge_cases (zlen ns) i) as [Hlt|Hge].
  - rw bool_decide_true in E0; [|done]. rw andb_true_r in E0. iApply hwp_call.
    iSplitL; [by iApply (lsplice_at_out l1 l2 ns ms i with "H")|].
    iIntros (r) "[-> H]". lret. iApply (two_done with "H"). cbn [two_spec].
    rw length_fmap (proj2 (Z.ltb_lt _ _) Hlt). by destruct ms.
  - destruct (split_index ns i) as (ns1 & ns2 & -> & -> & Hins); [lia|].
    iApply hwp_call. iSplitL; [by iApply (lsplice_at_spec with "H")|].
    iIntros ([[st a] b]) "[%Hr H]". simpl in Hr. subst st. lret. iApply (two_done with "H"). cbn [two_spec].
    rw length_fmap (proj2 (Z.ltb_ge _ _) Hge) Hins !fmap_app. by destruct ms.
Qed.

Lemma two_splice l1 l2 ns ms :
  zlen ns + zlen ms < 2 ^ 32 ->
  list_at l1 ns ∗ list_at l2 ms ⊢ hwp (two_step PSplice (l1, l2)) (two_after PSplice ns ms).
Proof.
  iIntros (Hm) "[[%H1 Hc] H2]". simpl. unfold cc_list_splice. replace (l_size l1) with (zlen ns) by (by destruct H1).
  iApply hwp_call. iSplitL; [iApply (lsplice_at_spec l1 l2 ns [] ms); [by rw app_nil_r|]; rw app_nil_r; iFrame; by iSplit|].
  iIntros ([[st a] b]) "[%Hr H]". simpl in Hr. subst st. lret. iApply (two_done with "H"). simpl. by rw app_nil_r fmap_app.
Qed.

Lemma two_add_all_at l1 l2 ns ms i :
  zlen ns + zlen ms < 2 ^ 32 -> 0 <= i -> two_undef (PAddAllAt i) ns.*2 ms.*2 = false ->
  list_at l1 ns ∗ list_at l2 ms ⊢ hwp (two_step (PAddAllAt i) (l1, l2)) (two_after (PAddAllAt i) ns ms).
Proof using HL.
  iIntros (Hm Hi Hn) "H". simpl. destruct (is_empty ms) eqn:Em.
  { destruct ms; [|done]. iApply hwp_call. iSplitL; [iApply (ladd_all_at_none l1 l2 ns i with "H")|].
    iIntros (r) "[-> H]". lret. by iApply (two_done _ _ _ _ _ _ ns []). }
  assert (forall T (x y : T), match ms.*2 with [] => x | _ => y end = y) as Hms by (by destruct ms).
  destruct (Z.lt_ge_cases (zlen ns) i) as [Hlt|Hge].
  - iApply hwp_call. iSplitL; [by iApply (ladd_all_at_out l1 l2 ns ms i with "H")|].
    iIntros (r) "[-> H]". lret. iApply (two_done with "H"). cbn [two_spec].
    by rw Hms length_fmap (proj2 (Z.ltb_lt _ _) Hlt).
  - destruct (split_index ns i) as (ns1 & ns2 & -> & -> & Hins); [lia|]. iDestruct "H" as "[H1 H2]".
    iApply hwp_call. iSplitL; [iApply ladd_all_at_spec; [done|done|]; iFrame "H2"; rw -gap_list; [done|]|].
    { by destruct ns1, ns2, ms. }
    iIntros (r) "H". lret. iApply (two_added with "H"); [done|]. intros ns' E. cbn [two_spec].
    by rw Hms length_fmap (proj2 (Z.ltb_ge _ _) Hge) Hins E.
Qed.

Lemma two_sublist l1 l2 ns ms b e :
  0 <= b -> 0 <= e ->
  list_at l1 ns ∗ list_at l2 ms ⊢ hwp (two_step (PSublist b e) (l1, l2)) (two_after (PSublist b e) ns ms).
Proof using HL.
  iIntros (Hb He) "[H1 H2]". simpl. destruct ((e <? b) || (zlen ns <=? e)) eqn:Er.
  - unfold cc_list_sublist. iDestruct "H1" as "[%H1 H1]". assert (l_size l1 = zlen ns) as -> by apply H1.
    rw Er. lskip. unfold take_new. simpl. lret. iApply (two_done _ _ _ _ _ _ ns ms).
    + cbn [two_spec pair_spec]. by rw length_fmap Er.
    + iFrame "H2". by iSplit.
  - apply orb_false_iff in Er as [H3%Z.ltb_ge H4%Z.leb_gt].
    pose proof (take_drop (Z.to_nat b) ns) as E1.
    pose proof (take_drop (Z.to_nat (e - b + 1)) (drop (Z.to_nat b) ns)) as E2.
    set (n1 := take (Z.to_nat b) ns) in *. set (n2 := take _ (drop _ ns)) in *. set (n3 := drop (Z.to_nat (_ + 1)) _) in *.
    assert (zlen n1 = b) as Hl1 by (subst n1; rw length_take; lia).
    assert (zlen n2 = e - b + 1) as Hl2 by (subst n2; rw length_take length_drop; lia).
    rw -E1 -E2 -Hl1. replace e with (zlen n1 + zlen n2 - 1) by lia.
    iApply hwp_call. iSplitL "H1"; [iApply (lsublist_spec with "H1"); destruct n2; simpl in Hl2; [lia|done]|].
    iIntros (r) "H". iApply (two_copied _ _ _ _ _ n2.*2); [done| |iFrame]. cbn [two_spec pair_spec].
    rw (proj2 (Z.ltb_ge _ _)); [|lia]. rw (proj2 (Z.leb_gt _ _)); [|rw !length_fmap !length_app; lia]. simpl.
    do 2 f_equal. rw !fmap_app drop_app_length'; [|rw length_fmap; lia].
    by rw take_app_length'; [|rw length_fmap; lia].
Qed.

Lemma two_sort l1 l2 ns ms cmp :
  list_at l1 ns ∗ list_at l2 ms ⊢ hwp (two_step (PSort cmp) (l1, l2)) (two_after (PSort cmp) ns ms).
Proof using HS.
  iIntros "[H1 H2]". simpl. iApply hwp_call. iSplitL "H1"; [iApply (lsort_spec with "H1")|].
  iIntros (st) "(%ns' & %Hr & H1)". lret. destruct Hr as [(Hn & -> & Hr)|[-> ->]].
  - iApply (two_done _ _ _ _ _ _ ns' ms); [|iFrame]. cbn [two_spec]. rw Hr. by destruct ns.
  - destruct ns; [|iApply two_alloc; [done|iFrame]]. iApply (two_done _ _ _ _ _ _ [] ms); [done|iFrame].
Qed.

Lemma two_step_spec op l1 l2 ns ms :
  pair_ok op -> two_undef op ns.*2 ms.*2 = false -> zlen ns + zlen ms + 1 < 2 ^ 32 ->
  list_at l1 ns ∗ list_at l2 ms ⊢ hwp (two_step op (l1, l2)) (two_after op ns ms).
Proof using HL HS.
  intros Hop Hne Hm. destruct op; simpl in Hop.
  - iIntros "[H1 H2]". simpl. iApply hwp_call. iSplitL "H1"; [iApply (call_correct with "H1"); [done|lia]|].
    iIntros ([[st out] l]) "(%ns' & %Hr & H1)". lret. iExists ns', ms. iSplit; [iPureIntro|iFrame].
    cbn [fst snd] in *. destruct Hr as [[Hs | (Ha & -> & _ & ->)] _]; [left; cbn; by rw Hs|by right].
  - iIntros "[H1 H2]". simpl. lret. iApply (two_done _ _ _ _ _ _ ms ns); [done|iFrame].
  - iIntros "H". simpl. iApply hwp_call. iSplitL; [iApply (ladd_all_spec with "H"); lia|].
    iIntros (r) "H". lret. iApply (two_added with "H"); [done|]. simpl. by intros ns' ->.
  - apply two_add_all_at; [lia|apply Hop|done].
  - apply two_splice. lia.
  - apply two_splice_at; [lia|apply Hop].
  - apply two_sort.
  - iIntros "[H1 H2]". simpl. iApply hwp_call. iSplitL "H1"; [iApply (lcopy_spec with "H1")|].
    iIntros (r) "H". iApply (two_copied (PCopy cp) _ _ _ _ (cp <$> ns.*2)); [done..|iFrame].
  - destruct Hop as [[? _] [? _]]. by apply two_sublist.
Qed.

(** The part [h] of the heap is the nodes of [l1] and, apart from them, those
    of [l2]. *)
Definition two_hold l1 l2 (xs ys : list Z) (h : heap lnode) : Prop :=
  exists h1 h2, h = h1 ∪ h2 /\ h1 ##ₘ h2 /\ ll_holds l1 xs h1 /\ ll_holds l2 ys h2.

Lemma dchain_null p ns q h : hprop_at (dchain p ns q) h -> h !! NULL = None.
Proof.
  revert p h. induction ns as [|n ns IH]; intros p h; simpl; [by intros ->|].
  intros (h1 & h2 & -> & _ & [-> Hn] & H2). rw lookup_union_None. split; [by apply lookup_singleton_ne|by eapply IH].
Qed.

(** Adding to an empty list at index 0: the copies may find no memory,
    otherwise the code goes through the null tail. *)
Lemma add_all_at_null l1 l2 ys h hf :
  ll_holds l1 [] ∅ -> ll_holds l2 ys h -> ys <> [] -> h ##ₘ hf -> hf !! NULL = None ->
  cc_list_add_all_at l1 l2 0 (h ∪ hf) = Undef \/
  exists h', cc_list_add_all_at l1 l2 0 (h ∪ hf) = Done (CC_ERR_ALLOC, l1) (h' ∪ hf) /\ h' ##ₘ hf /\ ll_holds l2 ys h'.
Proof using HL.
  intros (ns & Hns & Hl & _) (ms & <- & Hh) Hy Hd Hf. apply fmap_nil_inv in Hns. subst ns.
  destruct Hl as (Hs & _ & _ & Ht). simpl in Hs, Ht.
  destruct (hwp_run _ _ _ h hf (lcopies_spec l2 ms) Hh Hd) as (r & h' & Hr & Hd' & h1 & h2 & -> & D & H1 & H2).
  unfold cc_list_add_all_at. pose proof Hh as [(Hz & _) _]. rw Hz Hs.
  assert ((zlen ms =? 0) = false) as -> by (destruct ms; [done|by apply Z.eqb_neq]).
  destruct H2 as [[Hok ->]|(cs & [-> Hc] & H2)].
  - right. exists (h1 ∪ ∅). split_and!; [|done|]; [|rw right_id_L; by exists ms].
    unfold mbind, M_bind. simpl. rw Hr. destruct r as [[ok hd] tl]. simpl in Hok. by subst ok.
  - left. unfold mbind, M_bind. simpl. rw Hr. unfold gap_at, get_node_at. rw Hs.
    assert (((h1 ∪ h2) ∪ hf) !! NULL = None) as Hn.
    { rw !lookup_union_None. split_and!; [|by eapply dchain_null|done]. destruct H1 as [_ H1]. by eapply dchain_null. }
    simpl. unfold update, load, mbind, M_bind. by rw Ht Hn.
Qed.

(** C31. The representation of two doubly linked lists is kept by every
    operation.  Two well-formed lists with disjoint nodes are again two
    well-formed lists with disjoint nodes, and no other cells, after a call on
    one of them, after adding all of one to the other at the end or at an
    index, splicing, sorting, copying and taking a sublist; the call returns
    whatever the rest of the heap is, and the elements are the ones the
    specification gives, or, for the operations that ask for memory, unchanged
    with [CC_ERR_ALLOC].  The one exception is [cc_list_add_all_at] at index 0
    of an empty list with elements to add: it reports that memory ran out, with
    both lists unchanged, or follows a null pointer. *)
Theorem clist_two_typed op l1 l2 xs ys h hf :
  two_hold l1 l2 xs ys h -> h ##ₘ hf -> pair_ok op -> zlen xs + zlen ys + 1 < 2 ^ 32 ->
  (two_undef op xs ys = false ->
   exists st l1' l2' xs' ys' h', two_step op (l1, l2) (h ∪ hf) = Done (st, (l1', l2')) (h' ∪ hf) /\
     h' ##ₘ hf /\ two_hold l1' l2' xs' ys' h' /\ two_result op xs ys st xs' ys') /\
  (two_undef op xs ys = true -> hf !! NULL = None ->
   two_step op (l1, l2) (h ∪ hf) = Undef \/
   exists h', two_step op (l1, l2) (h ∪ hf) = Done (CC_ERR_ALLOC, (l1, l2)) (h' ∪ hf) /\
     h' ##ₘ hf /\ two_hold l1 l2 xs ys h').
Proof using HL HS.
  intros (h1 & h2 & -> & H12 & Hl1 & Hl2) Hd Hop Hm. split; intros Hu.
  - destruct Hl1 as (ns & <- & Hh1), Hl2 as (ms & <- & Hh2). rw !length_fmap in Hm.
    destruct (hwp_run _ _ _ (h1 ∪ h2) hf (two_step_spec op l1 l2 ns ms Hop Hu Hm)) as ([st [a b]] & h' & Hr & Hd' & H').
    { exists h1, h2. by split_and!. }
    { done. }
    destruct H' as (ns' & ms' & Hs & (h1' & h2' & -> & Hd2 & H1' & H2')).
    exists st, a, b, ns'.*2, ms'.*2, (h1' ∪ h2'). split_and!; [done|done| |done].
    exists h1', h2'. split_and!; [done|done|by exists ns'|by exists ms'].
  - destruct op as [| | |i| | | | |]; [done..| |done|done|done|done|done]. cbn [two_undef] in Hu.
    apply andb_true_iff in Hu as [[->%Z.eqb_eq ->%bool_decide_eq_true]%andb_true_iff Hy].
    apply negb_true_iff, bool_decide_eq_false in Hy. intros Hf.
    assert (h1 = ∅) as ->.
    { destruct Hl1 as (ns & ->%fmap_nil_inv & _ & Hc). exact Hc. } rw left_id_L in Hd |- *.
    destruct (add_all_at_null l1 l2 ys h2 hf Hl1 Hl2 Hy Hd Hf) as [E|(h' & E & Hd' & H')]; cbn [two_step fst snd];
      unfold mbind, M_bind; rw E; [by left|right].
    exists h'. split_and!; [done..|]. exists ∅, h'. split_and!; [by rw left_id_L|apply map_disjoint_empty_l|done|done].
Qed.

End Two.

(** C29. The sort in place sorts, and is stable.  Whatever the rest [hf] of the
    heap is, [cc_list_sort_in_place] returns on every list, for every
    comparison that is a total preorder; afterwards the list is well formed and
    consists of the same nodes with the same elements, in ascending order, and
    nodes that compare equal to some element keep their order. *)
Theorem sort_in_place_sorts cmp `{HC : !Comparison cmp} (l : clist) ns (h hf : heap lnode) :
  hprop_at (list_at l ns) h -> h ##ₘ hf ->
  exists l' ms h', cc_list_sort_in_place l cmp (h ∪ hf) = Done l' (h' ∪ hf) /\ h' ##ₘ hf /\
    hprop_at (list_at l' ms) h' /\ ms ≡ₚ ns /\ Sorted (node_le cmp) ms /\
    forall k, filter (same_key cmp k) ms = filter (same_key cmp k) ns.
Proof.
  intros Hh Hd.
  destruct (hwp_run _ _ _ h hf (lsort_in_place_spec cmp l ns) Hh Hd) as (l' & h' & Hr & Hd' & ms & Hs & H').
  by exists l', ms, h'.
Qed.

(** ** Runs *)

#[local] Instance compare_ints : Comparison (fun x y => Z.sgn (x - y)).
Proof. split; intros *; lia. Qed.

Lemma pair_list_at : hprop_at (list_at pair_list [(8, 5); (16, 6)]) pair_nodes.
Proof.
  split; [by vm_compute|]. cbn [dchain]. apply cell_sep; [|done|done]. apply (cell_sep emp); [done|done|done].
Qed.

Lemma sort_in_place_sorts_witness :
  hprop_at (list_at pair_list [(8, 5); (16, 6)]) pair_nodes /\
  exists l' ms h',
    cc_list_sort_in_place pair_list (fun x y => Z.sgn (x - y)) (pair_nodes ∪ {[24 := mk_node 1 2 3]})
      = Done l' (h' ∪ {[24 := mk_node 1 2 3]}) /\ h' ##ₘ {[24 := mk_node 1 2 3]} /\
    hprop_at (list_at l' ms) h' /\ ms ≡ₚ [(8, 5); (16, 6)] /\ Sorted (node_le (fun x y => Z.sgn (x - y))) ms /\
    forall k, filter (same_key (fun x y => Z.sgn (x - y)) k) ms = filter (same_key (fun x y => Z.sgn (x - y)) k) [(8, 5); (16, 6)].
Proof.
  split; [apply pair_list_at|]. apply (sort_in_place_sorts (fun x y => Z.sgn (x - y)) pair_list).
  - apply pair_list_at.
  - by apply map_disjoint_singleton_r.
Defined.

Lemma clist_two_typed_witness :
  (exists st l1' l2' xs' ys' h',
    two_step (HA := six_lcells) (HQ := fun _ xs => xs) (PCopy Z.succ) (pair_list, mk_list 0 NULL NULL) (pair_nodes ∪ ∅)
      = Done (st, (l1', l2')) (h' ∪ ∅) /\ h' ##ₘ ∅ /\
    two_hold (HA := six_lcells) (HL := cell_alloc_laws _) l1' l2' xs' ys' h' /\
    two_result (HQ := fun _ xs => xs) (PCopy Z.succ) [5; 6] [] st xs' ys') /\
  (two_step (HA := six_lcells) (HQ := fun _ xs => xs) (PAddAllAt 0) (mk_list 0 NULL NULL, pair_list) (pair_nodes ∪ ∅) = Undef \/
   exists h',
     two_step (HA := six_lcells) (HQ := fun _ xs => xs) (PAddAllAt 0) (mk_list 0 NULL NULL, pair_list) (pair_nodes ∪ ∅)
       = Done (CC_ERR_ALLOC, (mk_list 0 NULL NULL, pair_list)) (h' ∪ ∅) /\ h' ##ₘ ∅ /\
     two_hold (HA := six_lcells) (HL := cell_alloc_laws _) (mk_list 0 NULL NULL) pair_list [] [5; 6] h').
Proof.
  split.
  - apply (clist_two_typed (HL := cell_alloc_laws _) (HS := no_sort_laws));
      [|apply map_disjoint_empty_r|done|done|done].
    exists pair_nodes, ∅. split_and!; [done|apply map_disjoint_empty_r|exact pair_list_holds|].
    exists []. split; [done|]. by split.
  - apply (clist_two_typed (HL := cell_alloc_laws _) (HS := no_sort_laws) (PAddAllAt 0) _ _ [] [5; 6]);
      [|apply map_disjoint_empty_r|done|done|done|done].
    exists ∅, pair_nodes. split_and!; [done|apply map_disjoint_empty_l| |exact pair_list_holds].
    exists []. split; [done|]. by split.
Defined.
