(* ===== verification/CcListIter.v ===== *)
(** * The iterators of the doubly linked list

    An iterator is a position in a list: the elements it has passed, the one it
    returned last, the ones added since, and the ones to come.  The iterator
    that walks up keeps an index that removals make too large; the one that
    walks down does not. *)

From iris.proofmode Require Import proofmode.
From S2P Require Import Prelude CMem CState CHeap HeapLogic CcArray CcArrayFacts CcSlist CcSlistFacts CcSlistProps CcList CcListFacts CcListOps CcListProps.

(** ** Positions *)

Inductive iop := INext | IRemove | IReplace (x : Z) | IAdd (x : Z).

(** [p_passed] is in list order; [p_removed] counts the removals. *)
Record position (A : Type) := mk_pos {
  p_passed : list A; p_cur : option A; p_added : list A; p_rest : list A; p_removed : Z
}.
Arguments mk_pos {A}. Arguments p_passed {A}. Arguments p_cur {A}. Arguments p_added {A}. Arguments p_rest {A}.
Arguments p_removed {A}.

(** Walking up, an element is added after the last one; walking down, before
    it, and it is then the last one. *)
Definition pos_next {A} (s : position A) : option (A * position A) :=
  match p_rest s with
  | [] => None
  | x :: rest => Some (x, mk_pos (p_passed s ++ option_list (p_cur s) ++ p_added s) (Some x) [] rest (p_removed s))
  end.
Definition pos_remove {A} (s : position A) : position A :=
  mk_pos (p_passed s) None (p_added s) (p_rest s) (p_removed s + 1).
Definition pos_set {A} (x : A) (s : position A) : position A :=
  mk_pos (p_passed s) (Some x) (p_added s) (p_rest s) (p_removed s).
Definition pos_add_up {A} (x : A) (s : position A) : position A :=
  mk_pos (p_passed s) (p_cur s) (x :: p_added s) (p_rest s) (p_removed s).
Definition pos_add_down {A} (x : A) (s : position A) : position A :=
  mk_pos (p_passed s ++ option_list (p_cur s)) (Some x) (p_added s) (p_rest s) (p_removed s).

Definition pos_spec (add : Z -> position Z -> position Z) (op : iop) (s : position Z) : cc_stat * option Z * position Z :=
  match op with
  | INext => match pos_next s with None => (CC_ITER_END, None, s) | Some (x, s) => (CC_OK, Some x, s) end
  | IRemove => match p_cur s with None => (CC_ERR_VALUE_NOT_FOUND, None, s) | Some x => (CC_OK, Some x, pos_remove s) end
  | IReplace y => match p_cur s with None => (CC_ERR_VALUE_NOT_FOUND, None, s) | Some x => (CC_OK, Some x, pos_set y s) end
  | IAdd y => (CC_OK, None, add y s)
  end.

(** Where adding is possible: there is a last element and, walking up, nothing
    was removed, and nothing was added yet where the list ends. *)
Definition down_ok (op : iop) (s : position Z) : Prop :=
  match op with IAdd _ => p_cur s <> None | _ => True end.
Definition up_ok (op : iop) (s : position Z) : Prop :=
  match op with
  | IAdd _ => p_cur s <> None /\ p_removed s = 0 /\ (p_rest s = [] -> p_added s = [])
  | _ => True
  end.

(** What a call may do. *)
Definition pos_result add (op : iop) (s : position Z) (st : cc_stat) (out : option Z) (s' : position Z) : Prop :=
  pos_spec add op s = (st, out, s') \/ (exists x, op = IAdd x) /\ st = CC_ERR_ALLOC /\ out = None /\ s' = s.

(** The elements in the order of the walk. *)
Definition pos_elements {A} (s : position A) : list A :=
  p_passed s ++ option_list (p_cur s) ++ p_added s ++ p_rest s.

Definition pos_map {A B} (f : A -> B) (s : position A) : position B :=
  mk_pos (f <$> p_passed s) (f <$> p_cur s) (f <$> p_added s) (f <$> p_rest s) (p_removed s).

Section Iter.
Context `{HA : !NodeAlloc lnode} `{HL : !NodeAllocLaws lnode}.
Implicit Types (it : list_iter) (s : position (Z * Z)) (ns : nodes).
Local Abbreviation LM := (M (heap lnode)).

Definition no_element (r : cc_stat * list_iter) : cc_stat * option Z * list_iter := (r.1, None, r.2).

Definition iter_step (op : iop) it : LM (cc_stat * option Z * list_iter) :=
  match op with
  | INext => cc_list_iter_next it
  | IRemove => cc_list_iter_remove it
  | IReplace x => r ← cc_list_iter_replace it x; mret (r, it)
  | IAdd x => r ← cc_list_iter_add it x; mret (no_element r)
  end.

Definition diter_step (op : iop) it : LM (cc_stat * option Z * list_iter) :=
  match op with
  | INext => cc_list_diter_next it
  | IRemove => cc_list_diter_remove it
  | IReplace x => r ← cc_list_diter_replace it x; mret (r, it)
  | IAdd x => r ← cc_list_diter_add it x; mret (no_element r)
  end.

(** The iterator that walks up is at the position [s]. *)
Definition up_at it s : hpropI lnode :=
  (⌜li_index it = (zlen (p_passed s ++ option_list (p_cur s) ++ p_added s) + p_removed s)%Z /\
    li_next it = first_addr (p_rest s) NULL /\ li_last it = default NULL (fst <$> p_cur s) /\
    0 <= p_removed s⌝ ∧
   list_at (li_list it) (pos_elements s))%I.

(** Walking down, the order is reversed, and the index counts what is left. *)
Definition down_at it s : hpropI lnode :=
  (⌜li_index it = zlen (p_rest s) /\
    li_next it = first_addr (p_rest s) NULL /\ li_last it = default NULL (fst <$> p_cur s) /\ p_added s = []⌝ ∧
   list_at (li_list it) (reverse (pos_elements s)))%I.

(** ** Steps both iterators share *)

Lemma unlink_cur it N1 c N2 :
  li_last it = c.1 ->
  list_at (li_list it) (N1 ++ c :: N2)
  ⊢ hwp (iter_unlink it)
      (λ r, ∃ l, ⌜r = (CC_OK, Some c.2, mk_li (li_index it) l NULL (li_next it))⌝ ∧ list_at l (N1 ++ N2)).
Proof.
  iIntros (Hc) "H". iDestruct (list_node with "H") as "[%E H]". unfold iter_unlink. rw Hc E.
  iApply hwp_call. iSplitL; [iApply (unlinkn_spec with "H")|]. iIntros ([x l]) "[%Hx H]". simpl in Hx. subst x. lret.
  iExists l. by iSplit.
Qed.

Lemma set_cur it N1 c N2 x :
  li_last it = c.1 ->
  list_at (li_list it) (N1 ++ c :: N2)
  ⊢ hwp (iter_set it x) (λ r, ⌜r = (CC_OK, Some c.2)⌝ ∧ list_at (li_list it) (N1 ++ (c.1, x) :: N2)).
Proof.
  iIntros (Hc) "H". iDestruct (list_node with "H") as "[%E H]". unfold iter_set. rw Hc E. iApply read_data_at. iFrame "H".
  iIntros "[%Hl H]". iEval (rw dchain_mid) in "H". iDestruct "H" as "(H1 & Hn & H2)". lupdate "Hn". lret. iSplit; [done|].
  iSplit; [iPureIntro; by apply header_same|]. rw dchain_mid. iFrame.
Qed.

Lemma no_cur it x :
  li_last it = NULL -> iter_unlink it = mret (CC_ERR_VALUE_NOT_FOUND, None, it) /\
                       iter_set it x = mret (CC_ERR_VALUE_NOT_FOUND, None).
Proof. unfold iter_unlink, iter_set. by intros ->. Qed.

(** The step was done. *)
Lemma pos_done add (at_ : list_iter -> position (Z * Z) -> hpropI lnode) op s st out it s' :
  pos_spec add op (pos_map snd s) = (st, out, pos_map snd s') ->
  at_ it s' ⊢ ∃ s', ⌜pos_result add op (pos_map snd s) st out (pos_map snd s')⌝ ∧ at_ it s'.
Proof. iIntros (H) "H". iExists s'. iSplit; [|done]. iPureIntro. by left. Qed.

Lemma pos_failed add (at_ : list_iter -> position (Z * Z) -> hpropI lnode) x s it :
  at_ it s ⊢ ∃ s', ⌜pos_result add (IAdd x) (pos_map snd s) CC_ERR_ALLOC None (pos_map snd s')⌝ ∧ at_ it s'.
Proof. iIntros "H". iExists s. iSplit; [|done]. iPureIntro. right. by split; [exists x|]. Qed.

(** ** Walking up *)

Local Abbreviation up_after op s := (λ r : cc_stat * option Z * list_iter,
  ∃ s', ⌜pos_result pos_add_up op (pos_map snd s) r.1.1 r.1.2 (pos_map snd s')⌝ ∧ up_at r.2 s')%I.

Lemma up_next it s :
  zlen (pos_elements s) + p_removed s + 1 < 2 ^ 32 ->
  up_at it s ⊢ hwp (iter_step INext it) (up_after INext s).
Proof.
  iIntros (Hm) "[%Hi H]". pose proof Hi as (Hix & Hnx & Hla & Hr). destruct s as [B c D R k]. simpl in *.
  unfold cc_list_iter_next. rw Hnx. destruct R as [|n R]; cbn [first_addr].
  - rw Z.eqb_refl. lret. iApply (pos_done _ _ _ _ _ _ _ (mk_pos B c D [] k)); [done|]. by iSplit.
  - unfold pos_elements. simpl. rw !app_assoc. iDestruct (list_node with "H") as "[%E H]". rw E.
    iApply read_data_at. iFrame "H". iIntros "[%Hl H]". iEval (rw dchain_mid) in "H". iDestruct "H" as "(H1 & Hn & H2)".
    lfield "Hn". lret. iApply (pos_done _ _ _ _ _ _ _ (mk_pos ((B ++ option_list c) ++ D) (Some n) [] R k)).
    + simpl. unfold pos_map, pos_next. simpl. rw !fmap_app -app_assoc. by destruct c.
    + unfold pos_elements in Hm. iSplit.
      * iPureIntro. simpl in *. rw !length_app /= in Hm |- *. split_and!; [|done|done|lia].
        rw Hix wrap_id !length_app /=; [lia|unfold fits; lia].
      * iSplit; [done|]. unfold pos_elements. simpl. rw dchain_mid. iFrame.
Qed.

Lemma up_remove it s : up_at it s ⊢ hwp (iter_step IRemove it) (up_after IRemove s).
Proof.
  iIntros "[%Hi H]". pose proof Hi as (Hix & Hnx & Hla & Hr). destruct s as [B [c|] D R k]; simpl in *.
  - iApply hwp_wand. iSplitL; [by iApply (unlink_cur it B c (D ++ R))|]. iIntros (r) "(%l & -> & H)".
    iApply (pos_done _ _ _ _ _ _ _ (mk_pos B None D R (k + 1))); [done|]. iSplit; [|done]. iPureIntro. simpl.
    split_and!; [|done|done|lia]. rw Hix !length_app /=. lia.
  - unfold cc_list_iter_remove. rw (proj1 (no_cur it 0 Hla)). lret.
    iApply (pos_done _ _ _ _ _ _ _ (mk_pos B None D R k)); [done|]. by iSplit.
Qed.

Lemma up_replace it s x : up_at it s ⊢ hwp (iter_step (IReplace x) it) (up_after (IReplace x) s).
Proof.
  iIntros "[%Hi H]". pose proof Hi as (Hix & Hnx & Hla & Hr). destruct s as [B [c|] D R k]; simpl in *.
  - iApply hwp_call. iSplitL; [by iApply (set_cur it B c (D ++ R) x)|]. iIntros (r) "[-> H]". lret.
    iApply (pos_done _ _ _ _ _ _ _ (mk_pos B (Some (c.1, x)) D R k)); [done|]. iSplit; [|done]. iPureIntro. simpl.
    split_and!; [|done|done|lia]. by rw Hix !length_app /=.
  - unfold cc_list_iter_replace. rw (proj2 (no_cur it x Hla)). lskip. lret.
    iApply (pos_done _ _ _ _ _ _ _ (mk_pos B None D R k)); [done|]. by iSplit.
Qed.

(** A node linked in, with the tail of the list moved to it or not. *)
Lemma header_added l N1 N2 n hd tl :
  header_ok l (N1 ++ N2) -> zlen (N1 ++ N2) + 1 < 2 ^ 32 ->
  hd = first_addr (N1 ++ n :: N2) NULL -> tl = last_from NULL (N1 ++ n :: N2) ->
  header_ok (mk_list (u32 (l_size l + 1)) hd tl) (N1 ++ n :: N2).
Proof.
  intros Hl Hm -> ->. apply (header_grown l (N1 ++ N2)); [done|rw !length_app /=; lia|lia|done|done|done].
Qed.

Lemma up_add it s x :
  up_ok (IAdd x) (pos_map snd s) -> zlen (pos_elements s) + p_removed s + 1 < 2 ^ 32 ->
  up_at it s ⊢ hwp (iter_step (IAdd x) it) (up_after (IAdd x) s).
Proof using HL.
  iIntros (Hok Hm) "[%Hi H]". pose proof Hi as (Hix & Hnx & Hla & Hr). destruct s as [B [c|] D R k]; [|by destruct Hok].
  simpl in *. destruct Hok as (_ & Hk & HD). subst k. unfold pos_elements in *. simpl in *.
  unfold cc_list_iter_add. iApply hwp_bind. iApply hwp_bind. iApply new_lnode. iSplit.
  { rw Z.eqb_refl. lret. lret. iApply (pos_failed _ _ _ (mk_pos B (Some c) D R 0)). by iSplit. }
  iIntros (a Ha) "Ha". rw Ha. iDestruct "H" as "[%Hl Hc]". lupdate "Ha". rw Hla. unfold link_after.
  iApply hwp_bind. iApply link_gap_new. iFrame "Ha". iIntros "Ha".
  iApply (hwp_wand _ (λ _, dchain NULL (B ++ c :: (a, x) :: D ++ R) NULL)). iSplitL.
  { iApply (after_node_spec B c (D ++ R) (a, x) (mk_node x NULL NULL)); [done|]. iFrame. }
  iIntros ([]) "H". lret. lret. iApply (pos_done _ _ _ _ _ _ _ (mk_pos B (Some c) ((a, x) :: D) R 0)); [done|].
  rw !length_app /= !length_app in Hm. rw !length_app /= in Hix. iSplit.
  { iPureIntro. simpl. split_and!; [|done|done|done]. rw !length_app /= Hix wrap_id; [lia|unfold fits; lia]. }
  iSplit; [iPureIntro|by unfold pos_elements; simpl]. pose proof Hl as (Hs & _ & Hh & Ht). unfold pos_elements. simpl.
  assert (B ++ c :: (a, x) :: D ++ R = (B ++ [c]) ++ (a, x) :: D ++ R) as E by (by rw -app_assoc).
  assert (B ++ c :: D ++ R = (B ++ [c]) ++ D ++ R) as E' by (by rw -app_assoc). rw E' in Hl Hs Hh Ht. rw E.
  rw !length_app /= in Hs. destruct (Z.eqb_spec (li_index it) (l_size (li_list it))) as [Ex|Ex].
  - assert (R = []) as -> by (apply length_zero_iff_nil; lia).
    assert (D = []) as -> by (apply (fmap_nil_inv snd), HD; done). apply (header_added (li_list it)); [done|rw !length_app /=; lia| |].
    + lsimpl. rw Hh. by destruct B.
    + by rw last_from_snoc.
  - assert (is_empty R = false) as Hne by (destruct R; simpl in *; [lia|done]).
    apply (header_added (li_list it)); [done|rw !length_app /=; lia| |].
    + lsimpl. rw Hh. by destruct B.
    + lsimpl. rw Ht app_comm_cons !last_from_app. by apply last_from_any.
Qed.

Lemma up_step it s op :
  up_ok op (pos_map snd s) -> zlen (pos_elements s) + p_removed s + 1 < 2 ^ 32 ->
  up_at it s ⊢ hwp (iter_step op it) (up_after op s).
Proof using HL.
  intros Hok Hm. destruct op; [by apply up_next|apply up_remove|apply up_replace|by apply up_add].
Qed.

(** ** Walking down *)

Local Abbreviation down_after op s := (λ r : cc_stat * option Z * list_iter,
  ∃ s', ⌜pos_result pos_add_down op (pos_map snd s) r.1.1 r.1.2 (pos_map snd s')⌝ ∧ down_at r.2 s')%I.

(** The order of the list around the last element. *)
Lemma down_elements B c R k : reverse (pos_elements (mk_pos B (Some c) [] R k)) = reverse R ++ c :: reverse B :> nodes.
Proof. unfold pos_elements. simpl. by rw reverse_app reverse_cons -app_assoc. Qed.
Lemma down_elements_none B R k : reverse (pos_elements (mk_pos B None [] R k)) = reverse R ++ reverse B :> nodes.
Proof. unfold pos_elements. simpl. by rw reverse_app. Qed.

Lemma down_next it s :
  zlen (pos_elements s) + 1 < 2 ^ 32 ->
  down_at it s ⊢ hwp (diter_step INext it) (down_after INext s).
Proof.
  iIntros (Hm) "[%Hi H]". pose proof Hi as (Hix & Hnx & Hla & HD). destruct s as [B c D R k]. simpl in *. subst D.
  unfold cc_list_diter_next. rw Hnx. destruct R as [|n R]; cbn [first_addr].
  - rw Z.eqb_refl. lret. iApply (pos_done _ _ _ _ _ _ _ (mk_pos B c [] [] k)); [done|]. by iSplit.
  - assert (reverse (pos_elements (mk_pos B c [] (n :: R) k)) = reverse R ++ n :: reverse (B ++ option_list c)) as E.
    { unfold pos_elements. simpl. by rw app_assoc reverse_app reverse_cons -app_assoc. }
    rw E. iDestruct (list_node with "H") as "[%En H]". rw En.
    iApply read_data_at. iFrame "H". iIntros "[%Hl H]". iEval (rw dchain_mid) in "H". iDestruct "H" as "(H1 & Hn & H2)".
    lfield "Hn". lret. iApply (pos_done _ _ _ _ _ _ _ (mk_pos (B ++ option_list c) (Some n) [] R k)).
    + simpl. unfold pos_map, pos_next. simpl. rw !fmap_app app_nil_r. by destruct c.
    + unfold pos_elements in Hm. simpl in Hm. rw !length_app /= in Hm. iSplit.
      * iPureIntro. simpl in *. split_and!; [|by rw last_first reverse_involutive|done|done].
        rw Hix wrap_id; [lia|unfold fits; lia].
      * rw down_elements. iSplit; [done|]. rw dchain_mid. iFrame.
Qed.

Lemma down_remove it s : down_at it s ⊢ hwp (diter_step IRemove it) (down_after IRemove s).
Proof.
  iIntros "[%Hi H]". pose proof Hi as (Hix & Hnx & Hla & HD). destruct s as [B [c|] D R k]; simpl in *; subst D.
  - rw down_elements. iApply hwp_wand. iSplitL; [by iApply unlink_cur|]. iIntros (r) "(%l & -> & H)".
    iApply (pos_done _ _ _ _ _ _ _ (mk_pos B None [] R (k + 1))); [done|]. iSplit; [done|]. by rw down_elements_none.
  - unfold cc_list_diter_remove. rw (proj1 (no_cur it 0 Hla)). lret.
    iApply (pos_done _ _ _ _ _ _ _ (mk_pos B None [] R k)); [done|]. by iSplit.
Qed.

Lemma down_replace it s x : down_at it s ⊢ hwp (diter_step (IReplace x) it) (down_after (IReplace x) s).
Proof.
  iIntros "[%Hi H]". pose proof Hi as (Hix & Hnx & Hla & HD). destruct s as [B [c|] D R k]; simpl in *; subst D.
  - rw down_elements. iApply hwp_call. iSplitL; [by iApply set_cur|]. iIntros (r) "[-> H]". lret.
    iApply (pos_done _ _ _ _ _ _ _ (mk_pos B (Some (c.1, x)) [] R k)); [done|]. iSplit; [done|]. by rw down_elements.
  - unfold cc_list_diter_replace. rw (proj2 (no_cur it x Hla)). lskip. lret.
    iApply (pos_done _ _ _ _ _ _ _ (mk_pos B None [] R k)); [done|]. by iSplit.
Qed.

Lemma down_add it s x :
  down_ok (IAdd x) (pos_map snd s) -> zlen (pos_elements s) + 1 < 2 ^ 32 ->
  down_at it s ⊢ hwp (diter_step (IAdd x) it) (down_after (IAdd x) s).
Proof using HL.
  iIntros (Hok Hm) "[%Hi H]". pose proof Hi as (Hix & Hnx & Hla & HD). destruct s as [B [c|] D R k]; [|by destruct Hok].
  simpl in *. subst D. unfold cc_list_diter_add. iApply hwp_bind. iApply hwp_bind. iApply new_lnode. iSplit.
  { rw Z.eqb_refl. lret. lret. iApply (pos_failed _ _ _ (mk_pos B (Some c) [] R k)). by iSplit. }
  iIntros (a Ha) "Ha". rw Ha. rw down_elements. iDestruct "H" as "[%Hl Hc]". lupdate "Ha". rw Hla. unfold link_behind.
  iApply hwp_bind. iApply link_gap_new. iFrame "Ha". iIntros "Ha".
  iApply (hwp_wand _ (λ _, dchain NULL (reverse R ++ (a, x) :: c :: reverse B) NULL)). iSplitL.
  { iApply (behind_spec (reverse R) c (reverse B) (a, x) (mk_node x NULL NULL)); [done|]. iFrame. }
  iIntros ([]) "H". lret. lret. iApply (pos_done _ _ _ _ _ _ _ (mk_pos (B ++ [c]) (Some (a, x)) [] R k)); [by simpl; rw /pos_map /= fmap_app|].
  iSplit; [done|]. rw down_elements reverse_snoc. iSplit; [|done]. iPureIntro. pose proof Hl as (Hs & _ & Hh & Ht).
  unfold pos_elements in Hm. simpl in Hm. rw !length_app /= in Hm.
  assert (zlen (reverse R ++ c :: reverse B) + 1 < 2 ^ 32) as Hm' by (rw length_app /= !length_reverse; lia).
  destruct (Z.eqb_spec (li_index it) 0) as [Ex|Ex]; apply (header_added (li_list it)); try done; lsimpl.
  - destruct R; [done|simpl in *; lia].
  - by rw Ht !last_from_app !last_from_cons.
  - rw Hh. destruct R as [|n R]; [by simpl in Hix|]. by rw reverse_cons -!app_assoc; destruct (reverse R).
  - by rw Ht !last_from_app !last_from_cons.
Qed.

Lemma down_step it s op :
  down_ok op (pos_map snd s) -> zlen (pos_elements s) + 1 < 2 ^ 32 ->
  down_at it s ⊢ hwp (diter_step op it) (down_after op s).
Proof using HL.
  intros Hok Hm. destruct op; [by apply down_next|apply down_remove|apply down_replace|by apply down_add].
Qed.

(** ** Both directions *)

Inductive direction := Up | Down.

Definition dir_init (d : direction) l : list_iter :=
  match d with Up => cc_list_iter_init l | Down => cc_list_diter_init l end.
Definition dir_step (d : direction) : iop -> list_iter -> LM (cc_stat * option Z * list_iter) :=
  match d with Up => iter_step | Down => diter_step end.
Definition dir_add (d : direction) : Z -> position Z -> position Z :=
  match d with Up => pos_add_up | Down => pos_add_down end.
Definition dir_ok (d : direction) : iop -> position Z -> Prop := match d with Up => up_ok | Down => down_ok end.
Definition dir_order (d : direction) (xs : list Z) : list Z := match d with Up => xs | Down => reverse xs end.
Definition dir_at (d : direction) : list_iter -> position (Z * Z) -> hpropI lnode :=
  match d with Up => up_at | Down => down_at end.

(** The part [h] of the heap is the nodes of the list, and the iterator is at
    the position [s]. *)
Definition iter_holds d it (s : position Z) (h : heap lnode) : Prop :=
  exists s0, pos_map snd s0 = s /\ hprop_at (dir_at d it s0) h.

Lemma iter_start d l xs h :
  ll_holds l xs h -> iter_holds d (dir_init d l) (mk_pos [] None [] (dir_order d xs) 0) h.
Proof.
  intros (ns & <- & Hl & Hh). destruct d.
  - exists (mk_pos [] None [] ns 0). split; [done|]. split; [|by split]. split_and!; [done|apply Hl|done|done].
  - exists (mk_pos [] None [] (reverse ns) 0). split; [by rw /pos_map /= fmap_reverse|]. simpl. rw /pos_elements /= reverse_involutive.
    split; [|by split]. simpl. destruct Hl as (Hs & _ & _ & Ht). rw length_reverse Hs Ht -last_first. by split_and!.
Qed.

Lemma fmap_elements (s0 : position (Z * Z)) : (pos_elements s0).*2 = pos_elements (pos_map snd s0).
Proof. destruct s0 as [B c D R k]. unfold pos_elements. simpl. rw !fmap_app. by destruct c. Qed.

Lemma iter_list d it (s : position Z) h : iter_holds d it s h -> ll_holds (li_list it) (dir_order d (pos_elements s)) h.
Proof.
  intros (s0 & <- & Hh). rw -fmap_elements. destruct d; destruct Hh as [_ Hh]; simpl in Hh.
  - by eexists.
  - eexists. split; [|exact Hh]. by rw fmap_reverse.
Qed.

End Iter.


(** ** Where the code goes wrong *)

Section Wrong.
#[local] Existing Instance six_lcells.
#[local] Instance no_sort : QSort := fun _ xs => xs.

(** Walking up: [k] times [next], then the other calls. *)
Fixpoint nexts (k : nat) (it : list_iter) : M (heap lnode) list_iter :=
  match k with O => mret it | S k => r ← cc_list_iter_next it; nexts k r.2 end.

(** After a removal through the iterator, an element added behind the last one
    is not found from the tail: the index is one too large. *)
Lemma iter_remove_then_add :
  exists l h,
    (it ← nexts 1 (cc_list_iter_init pair_list);
     r ← cc_list_iter_remove it;
     it ← nexts 1 r.2;
     r ← cc_list_iter_add it 7;
     mret (li_list r.2)) pair_nodes = Done l h /\
    cc_list_foreach l h = Done [6; 7] h /\ (r ← cc_list_get_last l; mret r.1.2) h = Done (Some 6) h.
Proof. eexists _, _. split; [by vm_compute|]. by vm_compute. Qed.

(** Adding twice behind the last element leaves the tail at the second one
    added, which is not the last. *)
Lemma iter_add_twice :
  exists l h,
    (it ← nexts 2 (cc_list_iter_init pair_list);
     r ← cc_list_iter_add it 7;
     r ← cc_list_iter_add r.2 8;
     mret (li_list r.2)) pair_nodes = Done l h /\
    cc_list_foreach l h = Done [5; 6; 8; 7] h /\ (r ← cc_list_get_last l; mret r.1.2) h = Done (Some 8) h.
Proof. eexists _, _. split; [by vm_compute|]. by vm_compute. Qed.

(** Adding before the first call of [next], or after a removal, goes through a
    null pointer. *)
Lemma list_iter_add_null :
  cc_list_iter_add (cc_list_iter_init pair_list) 9 pair_nodes = Undef /\
  cc_list_diter_add (cc_list_diter_init pair_list) 9 pair_nodes = Undef /\
  cc_list_zip_iter_add (cc_list_zip_iter_init pair_list pair_list) 9 9 pair_nodes = Undef.
Proof. by vm_compute. Qed.

(** Walking down, the first element returned is the last of the list, at index
    1; the iterator says 0. *)
Lemma diter_index_off :
  exists it h, (r ← cc_list_diter_next (cc_list_diter_init pair_list); mret r.2) pair_nodes = Done it h /\
    li_last it = l_tail pair_list /\ cc_list_diter_index it = 0.
Proof. eexists _, _. split; [by vm_compute|]. by vm_compute. Qed.

(** Adding the elements of a list to an empty one at index 0 goes through the
    null tail. *)
Lemma add_all_at_empty : cc_list_add_all_at (mk_list 0 NULL NULL) pair_list 0 pair_nodes = Undef.
Proof. by vm_compute. Qed.

(** An empty list is not sorted, but refused. *)
Lemma sort_empty cmp : cc_list_sort (mk_list 0 NULL NULL) cmp ∅ = Done CC_ERR_INVALID_RANGE ∅.
Proof. by vm_compute. Qed.
End Wrong.

(** Filtering reports success with an element missing when memory ran out. *)
Lemma list_filter_loses :
  exists l h, cc_list_filter (HA := cell_alloc [24]) pair_list (fun _ => true) pair_nodes = Done (CC_OK, Some l) h /\
    l_size l = 1.
Proof. eexists _, _. split; [by vm_compute|done]. Qed.
