(* ===== verification/CcTst.v ===== *)
(** * Ternary search table (src/components/Collections-C/src/cc_tsttable.c)

    A table keyed by strings: a tree of characters whose nodes, and the entries
    they point to, are cells of the heap of CHeap.v.  The header is a value
    each operation returns changed.  Keys are pointers; [chars_at] gives the
    characters before the terminating zero.  A loop that follows the tree gets
    twice as many turns as there are cells. *)

From S2P Require Import Prelude CMem CState CHeap CcArray CcSlist.

Record tstnode := mk_tn { ts_c : Z; ts_data : Z; ts_parent : Z; ts_left : Z; ts_mid : Z; ts_right : Z }.
Record tstentry := mk_te { te_key : Z; te_value : Z }.

(** A block of memory. *)
Inductive tcell := TNode (n : tstnode) | TEntry (e : tstentry).
#[export] Instance tcell_zeroed : Zeroed tcell := TNode (mk_tn 0 NULL NULL NULL NULL NULL).

Definition set_c (x : Z) (n : tstnode) : tstnode := mk_tn x (ts_data n) (ts_parent n) (ts_left n) (ts_mid n) (ts_right n).
Definition set_eow (x : Z) (n : tstnode) : tstnode := mk_tn (ts_c n) x (ts_parent n) (ts_left n) (ts_mid n) (ts_right n).
Definition set_up (x : Z) (n : tstnode) : tstnode := mk_tn (ts_c n) (ts_data n) x (ts_left n) (ts_mid n) (ts_right n).
Definition set_left (x : Z) (n : tstnode) : tstnode := mk_tn (ts_c n) (ts_data n) (ts_parent n) x (ts_mid n) (ts_right n).
Definition set_mid (x : Z) (n : tstnode) : tstnode := mk_tn (ts_c n) (ts_data n) (ts_parent n) (ts_left n) x (ts_right n).
Definition set_right (x : Z) (n : tstnode) : tstnode := mk_tn (ts_c n) (ts_data n) (ts_parent n) (ts_left n) (ts_mid n) x.

Record tsttable := mk_tst { tst_size : Z; tst_root : Z }.
Definition set_tst_size (x : Z) (t : tsttable) : tsttable := mk_tst x (tst_root t).
Definition set_tst_root (x : Z) (t : tsttable) : tsttable := mk_tst (tst_size t) x.

(** The strings of the keys, the configured comparison of characters, and what
    a block of an entry holds before it is written. *)
Class TstEnv := {
  chars_at : Z -> list Z;
  char_cmp : Z -> Z -> Z;
  entry_garbage : gmap Z tcell -> tstentry;
}.

(** The comparison of the default configuration. *)
Definition default_char_cmp (c1 c2 : Z) : Z := c1 - c2.

Section Tst.
Context `{HA : !NodeAlloc tcell} `{HE : !TstEnv}.
Local Abbreviation TM := (M (heap tcell)).
Implicit Types table : tsttable.

#[local] Instance tcell_uninit : Uninit tcell := fun h => TEntry (entry_garbage h).

Definition tst_undef {A} : TM A := fun _ => Undef.

(** Reading and writing a field of a node, or of an entry. *)
Definition tfield {A} (f : tstnode -> A) (a : Z) : TM A :=
  c ← load a; match c with TNode n => mret (f n) | TEntry _ => tst_undef end.
Definition tupdate (a : Z) (f : tstnode -> tstnode) : TM unit :=
  c ← load a; match c with TNode n => store a (TNode (f n)) | TEntry _ => tst_undef end.
Definition efield {A} (f : tstentry -> A) (a : Z) : TM A :=
  c ← load a; match c with TEntry e => mret (f e) | TNode _ => tst_undef end.
Definition eupdate (a : Z) (f : tstentry -> tstentry) : TM unit :=
  c ← load a; match c with TEntry e => store a (TEntry (f e)) | TNode _ => tst_undef end.

Definition tst_fuel : TM nat := n ← heap_fuel; mret (2 * n)%nat.

Definition cc_tsttable_new_conf : TM (cc_stat * option tsttable) :=
  ok ← header_alloc; if ok : bool then mret (CC_OK, Some (mk_tst 0 NULL)) else mret (CC_ERR_ALLOC, None).

Definition cc_tsttable_new : TM (cc_stat * option tsttable) := cc_tsttable_new_conf.

(** ** Finding the place of a key *)

(** A pointer to a pointer to a node: to the root, or to a child of a node. *)
Inductive tst_loc := LRoot | LLeft (a : Z) | LMid (a : Z) | LRight (a : Z).

Definition deref table (loc : tst_loc) : TM Z :=
  match loc with
  | LRoot => mret (tst_root table)
  | LLeft a => tfield ts_left a | LMid a => tfield ts_mid a | LRight a => tfield ts_right a
  end.

Definition assign table (loc : tst_loc) (x : Z) : TM tsttable :=
  match loc with
  | LRoot => mret (set_tst_root x table)
  | LLeft a => tupdate a (set_left x) ;; mret table
  | LMid a => tupdate a (set_mid x) ;; mret table
  | LRight a => tupdate a (set_right x) ;; mret table
  end.

(** [rest] is the part of the key behind [last_index]. *)
Fixpoint find_loop (fuel : nat) table (loc : tst_loc) (parent : Z) (rest : list Z) : TM (tst_loc * Z * list Z) :=
  match fuel with
  | O => hang
  | S fuel =>
      node ← deref table loc;
      match rest with
      | [] => mret (loc, parent, rest)
      | c :: rest' =>
          if node =? NULL then mret (loc, parent, rest)
          else
            nc ← tfield ts_c node;
            let cmp := char_cmp c nc in
            if cmp <? 0 then find_loop fuel table (LLeft node) node rest
            else if 0 <? cmp then find_loop fuel table (LRight node) node rest
            else if rest' is [] then mret (loc, parent, [])
            else find_loop fuel table (LMid node) node rest'
      end
  end.

Definition get_last_node table (key : Z) : TM (tst_loc * Z * list Z) :=
  fuel ← tst_fuel; find_loop fuel table LRoot NULL (chars_at key).

(** ** Adding *)

(** The loop of [make_mid_subtree]. *)
Fixpoint mid_chain (key : list Z) (node : Z) : TM (cc_stat * Z) :=
  match key with
  | [] => mret (CC_OK, node)
  | c :: key =>
      mid ← node_calloc;
      tupdate node (set_mid mid) ;;
      if mid =? NULL then mret (CC_ERR_ALLOC, node)
      else
        tupdate mid (set_up node) ;;
        tupdate mid (set_c c) ;;
        mid_chain key mid
  end.

(** Status, first and last node; [key[0]] of an empty key is the terminating
    zero. *)
Definition make_mid_subtree (key : list Z) : TM (cc_stat * Z * Z) :=
  begin ← node_calloc;
  if begin =? NULL then mret (CC_ERR_ALLOC, NULL, NULL)
  else
    tupdate begin (set_c (hd 0 key)) ;;
    r ← mid_chain (tail key) begin;
    mret (r.1, begin, r.2).

Definition write_entry (data key val : Z) : TM unit :=
  eupdate data (fun e => mk_te key (te_value e)) ;;
  eupdate data (fun e => mk_te (te_key e) val).

Definition cc_tsttable_add table (key val : Z) : TM (cc_stat * tsttable) :=
  r ← get_last_node table key;
  let '(last_node, last_parent, postfix) := r in
  node ← deref table last_node;
  if negb (node =? NULL) then
    eow ← tfield ts_data node;
    if eow =? NULL then
      data ← node_malloc;
      tupdate node (set_eow data) ;;
      if data =? NULL then mret (CC_ERR_ALLOC, table)
      else
        write_entry data key val ;;
        mret (CC_OK, set_tst_size (u32 (tst_size table + 1)) table)
    else write_entry eow key val ;; mret (CC_OK, table)
  else
    r ← make_mid_subtree postfix;
    let '(status, begin, end_) := r in
    if negb (is_ok status) then mret (CC_ERR_ALLOC, table)
    else
      tupdate begin (set_up last_parent) ;;
      data ← node_malloc;
      tupdate end_ (set_eow data) ;;
      if data =? NULL then mret (CC_ERR_ALLOC, table)
      else
        write_entry data key val ;;
        table ← assign (set_tst_size (u32 (tst_size table + 1)) table) last_node begin;
        mret (CC_OK, table).

(** ** Access *)

(** The entry of a key: its node, if there is one and all of the key led to it. *)
Definition entry_of table (r : tst_loc * Z * list Z) : TM (option (Z * Z)) :=
  let '(last_node, _, rest) := r in
  node ← deref table last_node;
  if node =? NULL then mret None
  else
    eow ← tfield ts_data node;
    if negb (eow =? NULL) && (if rest is [] then true else false) then mret (Some (node, eow)) else mret None.

Definition cc_tsttable_get table (key : Z) : TM (cc_stat * option Z) :=
  r ← get_last_node table key;
  e ← entry_of table r;
  match e with
  | Some (_, data) => v ← efield te_value data; mret (CC_OK, Some v)
  | None => mret (CC_ERR_KEY_NOT_FOUND, None)
  end.

Definition cc_tsttable_contains_key table (key : Z) : TM bool :=
  r ← cc_tsttable_get table key; mret (is_ok r.1).

Definition cc_tsttable_size table : Z := tst_size table.

(** ** Removing *)

(** [parent] no longer points to [node]; the fields are tested in the order [fs]. *)
Fixpoint unhook (fs : list ((tstnode -> Z) * (Z -> tstnode -> tstnode))) (parent node : Z) : TM unit :=
  match fs with
  | [] => mret tt
  | (get, set) :: fs =>
      p ← tfield get parent;
      if p =? node then tupdate parent (set NULL) else unhook fs parent node
  end.

Fixpoint remove_all_loop (fuel : nat) (size node : Z) : TM Z :=
  match fuel with
  | O => hang
  | S fuel =>
      if node =? NULL then mret size
      else
        parent ← tfield ts_parent node;
        l ← tfield ts_left node; m ← tfield ts_mid node; r ← tfield ts_right node;
        if (l =? NULL) && (r =? NULL) && (m =? NULL) then
          (if parent =? NULL then mret tt
           else unhook [(ts_left, set_left); (ts_mid, set_mid); (ts_right, set_right)] parent node) ;;
          eow ← tfield ts_data node;
          let size := if eow =? NULL then size else u32 (size - 1) in
          mem_free node ;;
          remove_all_loop fuel size parent
        else if negb (l =? NULL) then remove_all_loop fuel size l
        else if negb (m =? NULL) then remove_all_loop fuel size m
        else remove_all_loop fuel size r
  end.

Definition cc_tsttable_remove_all table : TM tsttable :=
  fuel ← tst_fuel;
  size ← remove_all_loop fuel (tst_size table) (tst_root table);
  mret (mk_tst size NULL).

(** The header is freed with the nodes. *)
Definition cc_tsttable_destroy table : TM unit := cc_tsttable_remove_all table ;; mret tt.

(** The nodes that are no longer needed, from [node] up. *)
Fixpoint prune_loop (fuel : nat) table (node parent : Z) : TM tsttable :=
  match fuel with
  | O => hang
  | S fuel =>
      if node =? NULL then mret table
      else
        l ← tfield ts_left node; m ← tfield ts_mid node; r ← tfield ts_right node;
        eow ← tfield ts_data node;
        if (l =? NULL) && (m =? NULL) && (r =? NULL) && (eow =? NULL) then
          if negb (parent =? NULL) then
            unhook [(ts_left, set_left); (ts_right, set_right); (ts_mid, set_mid)] parent node ;;
            mem_free node ;;
            up ← tfield ts_parent parent;
            prune_loop fuel table parent up
          else mem_free node ;; mret (set_tst_root NULL table)
        else mret table
  end.

(** The entry is not freed. *)
Definition remove_eow_node table (node : Z) : TM tsttable :=
  eow ← tfield ts_data node;
  if eow =? NULL then mret table
  else
    tupdate node (set_eow NULL) ;;
    parent ← tfield ts_parent node;
    fuel ← tst_fuel;
    prune_loop fuel table node parent.

Definition cc_tsttable_remove table (key : Z) : TM (cc_stat * option Z * tsttable) :=
  r ← get_last_node table key;
  e ← entry_of table r;
  match e with
  | Some (node, data) =>
      v ← efield te_value data;
      table ← remove_eow_node table node;
      mret (CC_OK, Some v,
            set_tst_size (if 0 <? tst_size table then u32 (tst_size table - 1) else 0) table)
  | None => mret (CC_ERR_KEY_NOT_FOUND, None, table)
  end.

(** ** Iterating *)

Record tst_iter := mk_tsi {
  tsi_table : tsttable; tsi_previous : Z; tsi_current : Z; tsi_next : Z; tsi_advanced : bool; tsi_stat : cc_stat
}.
Implicit Types it : tst_iter.

Definition cc_tsttable_iter_init table : tst_iter := mk_tsi table NULL NULL (tst_root table) false CC_OK.

(** The first of the pointers that is not null. *)
Fixpoint first_of (ps : list Z) : Z :=
  match ps with [] => NULL | p :: ps => if p =? NULL then first_of ps else p end.

(** Where the walk goes from a node it entered from [prev]; [NULL] is the
    error of the code. *)
Definition walk_on (n : tstnode) (prev : Z) : Z :=
  if prev =? ts_parent n then first_of [ts_left n; ts_mid n; ts_right n; ts_parent n]
  else if prev =? ts_left n then first_of [ts_mid n; ts_right n; ts_parent n]
  else if prev =? ts_mid n then first_of [ts_right n; ts_parent n]
  else if prev =? ts_right n then first_of [ts_parent n]
  else NULL.

(** The entry, the node, the node after it and the node before it. *)
Fixpoint walk_loop (fuel : nat) (node prev : Z) : TM (option (Z * Z * Z * Z)) :=
  match fuel with
  | O => hang
  | S fuel =>
      if node =? NULL then mret None
      else
        n ← tfield (fun n => n) node;
        let next := walk_on n prev in
        if next =? NULL then mret None
        else if negb (ts_data n =? NULL) then mret (Some (ts_data n, node, next, prev))
        else walk_loop fuel next node
  end.

Definition cc_tsttable_iter_next it : TM (cc_stat * option Z * tst_iter) :=
  if tsi_advanced it
  then mret (tsi_stat it, None,
             mk_tsi (tsi_table it) (tsi_previous it) (tsi_current it) (tsi_next it) false (tsi_stat it))
  else
    fuel ← tst_fuel;
    r ← walk_loop fuel (tsi_next it) (tsi_current it);
    match r with
    | Some (data, node, next, prev) => mret (CC_OK, Some data, mk_tsi (tsi_table it) prev node next false (tsi_stat it))
    | None => mret (CC_ITER_END, None, mk_tsi (tsi_table it) NULL NULL NULL false (tsi_stat it))
    end.

Definition cc_tsttable_iter_remove it : TM (cc_stat * option Z * tst_iter) :=
  if tsi_current it =? NULL then mret (CC_ERR_KEY_NOT_FOUND, None, it)
  else
    data ← tfield ts_data (tsi_current it);
    out ← efield te_value data;
    r ← cc_tsttable_iter_next it;
    let it' := r.2 in
    table ← remove_eow_node (tsi_table it') (tsi_current it);
    mret (CC_OK, Some out,
          mk_tsi (set_tst_size (u32 (tst_size table - 1)) table)
            (tsi_previous it') (tsi_current it') (tsi_next it') true r.1.1).

(** The keys, or the values, the function is called with. *)
Fixpoint visit_entries {A} (fuel : nat) (f : tstentry -> A) it : TM (list A) :=
  match fuel with
  | O => hang
  | S fuel =>
      r ← cc_tsttable_iter_next it;
      match r with
      | (CC_OK, Some data, it) => x ← efield f data; xs ← visit_entries fuel f it; mret (x :: xs)
      | (_, _, _) => mret []
      end
  end.

Definition cc_tsttable_foreach_key table : TM (list Z) :=
  fuel ← tst_fuel; visit_entries fuel te_key (cc_tsttable_iter_init table).
Definition cc_tsttable_foreach_value table : TM (list Z) :=
  fuel ← tst_fuel; visit_entries fuel te_value (cc_tsttable_iter_init table).
End Tst.
