(* ===== verification/TstTree.v ===== *)
(** * Ternary search trees

    The trees behind CcTst.v as a data type: the place a string leads to, what
    putting something else at that place does to the strings of the tree, and
    the removal of nodes that lead nowhere. *)

From S2P Require Import Prelude CHeap CcTst.

(** The address of an entry, the key pointer and the value it holds. *)
Record tentry := mk_ten { en_addr : Z; en_key : Z; en_value : Z }.

Inductive tst := TE | TT (a c : Z) (d : option tentry) (l m r : tst).

(** A tree with a hole where a child of the node [fr_addr] is; the other two
    children are in order. *)
Inductive tside := SideL | SideM | SideR.
Record tframe := Frame { fr_side : tside; fr_addr : Z; fr_c : Z; fr_data : option tentry; fr_1 : tst; fr_2 : tst }.

Definition fill (f : tframe) (t : tst) : tst :=
  match f with
  | Frame SideL a c d t1 t2 => TT a c d t t1 t2
  | Frame SideM a c d t1 t2 => TT a c d t1 t t2
  | Frame SideR a c d t1 t2 => TT a c d t1 t2 t
  end.

(** The innermost frame comes first. *)
Fixpoint tplug (k : list tframe) (t : tst) : tst :=
  match k with [] => t | f :: k => tplug k (fill f t) end.

Lemma tplug_app k1 k2 t : tplug (k1 ++ k2) t = tplug k2 (tplug k1 t).
Proof. revert t. induction k1 as [|f k1 IH]; intros t; [done|apply IH]. Qed.

(** Entries, nodes. *)
Definition has_entry (d : option tentry) : nat := match d with Some _ => 1 | None => 0 end.
Fixpoint tcount (t : tst) : nat :=
  match t with TE => 0 | TT _ _ d l m r => has_entry d + tcount l + tcount m + tcount r end.
Fixpoint tnodes (t : tst) : nat :=
  match t with TE => 0 | TT _ _ d l m r => 1 + tnodes l + tnodes m + tnodes r end.

Definition is_te (t : tst) : bool := match t with TE => true | _ => false end.

(** A node without entry and children, and a tree without such nodes. *)
Definition bare (t : tst) : bool := match t with TT _ _ None TE TE TE => true | _ => false end.
Fixpoint live (t : tst) : Prop :=
  match t with TE => True | TT _ _ _ l m r => bare t = false /\ live l /\ live m /\ live r end.

(** From the hole up, bare nodes are taken out. *)
Fixpoint tprune (k : list tframe) (t : tst) : tst :=
  if bare t then match k with [] => TE | f :: k => tprune k (fill f TE) end else tplug k t.

(** A new branch for the characters [s], at the addresses [al]. *)
Fixpoint branch (s al : list Z) (d : option tentry) : tst :=
  match s, al with
  | c :: s, a :: al => TT a c (if s is [] then d else None) TE (branch s al d) TE
  | _, _ => TE
  end.

Section Strings.
Context `{HE : !TstEnv}.
Implicit Types (t u : tst) (s : list Z) (k : list tframe).

(** The frames around the place of [s], what is there, and the characters that
    are left, the one that matched included. *)
Fixpoint tfind t s : list tframe * tst * list Z :=
  match t, s with
  | TT a c d l m r, x :: s' =>
      let cmp := char_cmp x c in
      if cmp <? 0 then let '(k, u, rem) := tfind l s in (k ++ [Frame SideL a c d m r], u, rem)
      else if 0 <? cmp then let '(k, u, rem) := tfind r s in (k ++ [Frame SideR a c d l m], u, rem)
      else match s' with
           | [] => ([], t, s)
           | _ => let '(k, u, rem) := tfind m s' in (k ++ [Frame SideM a c d l r], u, rem)
           end
  | _, _ => ([], t, s)
  end.

Fixpoint tlookup t s : option tentry :=
  match t, s with
  | TT _ c d l m r, x :: s' =>
      let cmp := char_cmp x c in
      if cmp <? 0 then tlookup l s
      else if 0 <? cmp then tlookup r s
      else match s' with [] => d | _ => tlookup m s' end
  | _, _ => None
  end.

(** The comparison tells characters apart. *)
Class CharLaws : Prop := char_cmp_eq x y : char_cmp x y = 0 <-> x = y.

Lemma tfind_plug t : forall s, let '(k, u, rem) := tfind t s in tplug k u = t.
Proof.
  induction t as [|a c d l IHl m IHm r IHr]; intros s; [by destruct s|]. destruct s as [|x s]; [done|]. simpl.
  destruct (char_cmp x c <? 0); [|destruct (0 <? char_cmp x c); [|destruct s as [|y s]; [done|]]].
  - specialize (IHl (x :: s)). destruct (tfind l (x :: s)) as [[k u] rem]. by rewrite tplug_app, IHl.
  - specialize (IHr (x :: s)). destruct (tfind r (x :: s)) as [[k u] rem]. by rewrite tplug_app, IHr.
  - specialize (IHm (y :: s)). destruct (tfind m (y :: s)) as [[k u] rem]. by rewrite tplug_app, IHm.
Qed.

(** The place is empty, or the node of the last character. *)
Lemma tfind_place t : forall s, s <> [] ->
  let '(k, u, rem) := tfind t s in
  rem <> [] /\ match u with TE => True | TT a c d l m r => exists x, rem = [x] /\ char_cmp x c = 0 end.
Proof.
  induction t as [|a c d l IHl m IHm r IHr]; intros s Hs; destruct s as [|x s]; try done. simpl.
  destruct (Z.ltb_spec (char_cmp x c) 0); [|destruct (Z.ltb_spec 0 (char_cmp x c)); [|destruct s as [|y s]]].
  - specialize (IHl (x :: s) ltac:(done)). by destruct (tfind l (x :: s)) as [[k u] rem].
  - specialize (IHr (x :: s) ltac:(done)). by destruct (tfind r (x :: s)) as [[k u] rem].
  - split; [done|]. exists x. split; [done|lia].
  - specialize (IHm (y :: s) ltac:(done)). by destruct (tfind m (y :: s)) as [[k u] rem].
Qed.

Lemma tfind_left t : forall s, let '(k, u, rem) := tfind t s in (length rem <= length s)%nat.
Proof.
  induction t as [|a c d l IHl m IHm r IHr]; intros s; destruct s as [|x s]; simpl; try lia.
  destruct (char_cmp x c <? 0); [|destruct (0 <? char_cmp x c); [|destruct s as [|y s]; [simpl; lia|]]].
  - specialize (IHl (x :: s)). by destruct (tfind l (x :: s)) as [[k u] rem].
  - specialize (IHr (x :: s)). by destruct (tfind r (x :: s)) as [[k u] rem].
  - specialize (IHm (y :: s)). destruct (tfind m (y :: s)) as [[k u] rem]. simpl in *. lia.
Qed.

Lemma tlookup_find t : forall s, s <> [] ->
  let '(k, u, rem) := tfind t s in tlookup t s = match u with TT _ _ d _ _ _ => d | TE => None end.
Proof.
  induction t as [|a c d l IHl m IHm r IHr]; intros s Hs; destruct s as [|x s]; try done. simpl.
  destruct (char_cmp x c <? 0); [|destruct (0 <? char_cmp x c); [|destruct s as [|y s]; [done|]]].
  - specialize (IHl (x :: s) ltac:(done)). by destruct (tfind l (x :: s)) as [[k u] rem].
  - specialize (IHr (x :: s) ltac:(done)). by destruct (tfind r (x :: s)) as [[k u] rem].
  - specialize (IHm (y :: s) ltac:(done)). by destruct (tfind m (y :: s)) as [[k u] rem].
Qed.

(** Something else in the place of [s]: the other strings are not touched if
    they see no difference. *)
Lemma tlookup_replace `{!CharLaws} t : forall s, s <> [] ->
  let '(k, u0, rem) := tfind t s in
  forall u, tlookup (tplug k u) s = tlookup u rem /\
    forall s2, s2 <> s -> (forall r2, r2 <> rem -> tlookup u r2 = tlookup u0 r2) -> tlookup (tplug k u) s2 = tlookup t s2.
Proof.
  induction t as [|a c d l IHl m IHm r IHr]; intros s Hs.
  { simpl. intros u. split; [done|]. intros s2 Hs2 Hu. by apply Hu. }
  destruct s as [|x s]; [done|]. simpl.
  destruct (Z.ltb_spec (char_cmp x c) 0) as [H1|H1]; [|destruct (Z.ltb_spec 0 (char_cmp x c)) as [H2|H2]; [|destruct s as [|y s]]].
  - specialize (IHl (x :: s) ltac:(done)). destruct (tfind l (x :: s)) as [[k u0] rem]. intros u. rewrite tplug_app. simpl.
    destruct (IHl u) as [Ha Hb]. rewrite (proj2 (Z.ltb_lt _ _)) by done. split; [done|]. intros [|y s2] Hs2 Hu; [done|].
    destruct (char_cmp y c <? 0); [by apply Hb|done].
  - specialize (IHr (x :: s) ltac:(done)). destruct (tfind r (x :: s)) as [[k u0] rem]. intros u. rewrite tplug_app. simpl.
    destruct (IHr u) as [Ha Hb]. rewrite (proj2 (Z.ltb_ge _ _)), (proj2 (Z.ltb_lt _ _)) by done. split; [done|].
    intros [|y s2] Hs2 Hu; [done|]. destruct (char_cmp y c <? 0); [done|]. destruct (0 <? char_cmp y c); [by apply Hb|done].
  - intros u. split; [done|]. intros s2 Hs2 Hu. by apply Hu.
  - specialize (IHm (y :: s) ltac:(done)). destruct (tfind m (y :: s)) as [[k u0] rem]. intros u. rewrite tplug_app. simpl.
    destruct (IHm u) as [Ha Hb]. rewrite !(proj2 (Z.ltb_ge _ _)) by done. split; [done|]. intros [|z s2] Hs2 Hu; [done|].
    destruct (Z.ltb_spec (char_cmp z c) 0); [done|]. destruct (Z.ltb_spec 0 (char_cmp z c)); [done|].
    destruct s2 as [|w s2]; [done|]. apply Hb; [|done]. intros E. apply Hs2. rewrite E. f_equal.
    transitivity c; [|symmetry]; apply char_cmp_eq; lia.
Qed.

(** Another entry in a node changes what one string finds. *)
Lemma tlookup_data `{!CharLaws} a c d d' l m r x s :
  char_cmp x c = 0 -> s <> [x] -> tlookup (TT a c d l m r) s = tlookup (TT a c d' l m r) s.
Proof.
  intros Hx Hs. apply char_cmp_eq in Hx as ->. destruct s as [|y s]; [done|]. simpl.
  destruct (Z.ltb_spec (char_cmp y c) 0); [done|]. destruct (Z.ltb_spec 0 (char_cmp y c)); [done|].
  destruct s; [|done]. destruct Hs. f_equal. apply char_cmp_eq. lia.
Qed.

(** ** Branches *)

Lemma branch_lookup `{!CharLaws} d : forall s al r,
  length al = length s -> tlookup (branch s al (Some d)) r = if decide (r = s /\ s <> []) then Some d else None.
Proof.
  induction s as [|c s IH]; intros [|a al] r Hl; try done.
  { rewrite decide_False by (by intros []). by destruct r. }
  simpl in Hl. destruct r as [|x r]; [by rewrite decide_False by (by intros [])|]. cbn [branch tlookup].
  pose proof (char_cmp_eq x c) as Hc. destruct (decide (x :: r = c :: s /\ c :: s <> [])) as [[E _]|Hn].
  - injection E as -> ->. rewrite (proj2 Hc eq_refl). cbn. destruct s; [done|]. rewrite IH by lia. by rewrite decide_True.
  - destruct (Z.ltb_spec (char_cmp x c) 0); [done|]. destruct (Z.ltb_spec 0 (char_cmp x c)); [done|].
    assert (x = c) as -> by (apply Hc; lia). destruct r as [|y r].
    + destruct s; [by destruct Hn|done].
    + rewrite IH by lia. apply decide_False. intros [E _]. apply Hn. by rewrite E.
Qed.

Lemma branch_count d s : forall al, s <> [] -> length al = length s -> tcount (branch s al d) = has_entry d.
Proof.
  induction s as [|c s IH]; intros [|a al] Hs Hl; try done. simpl in *.
  destruct s as [|c' s]; [destruct al; simpl; lia|].
  rewrite IH by (done || lia). simpl. lia.
Qed.

Lemma branch_nodes d s : forall al, length al = length s -> tnodes (branch s al d) = length s.
Proof. induction s as [|c s IH]; intros [|a al] Hl; try done. simpl in *. rewrite IH by lia. lia. Qed.

Lemma branch_live d s : forall al, length al = length s -> live (branch s al (Some d)).
Proof.
  induction s as [|c s IH]; intros [|a al] Hl; try done. simpl in *. split; [|split; [done|split; [apply IH; lia|done]]].
  destruct s; [done|]. by destruct al.
Qed.

(** ** Counting and pruning *)

Fixpoint kcount k : nat :=
  match k with [] => 0 | f :: k => has_entry (fr_data f) + tcount (fr_1 f) + tcount (fr_2 f) + kcount k end.
Lemma tcount_plug k t : tcount (tplug k t) = (kcount k + tcount t)%nat.
Proof. revert t. induction k as [|f k IH]; intros t; [done|]. simpl. rewrite IH. destruct f as [[] a c d t1 t2]; simpl; lia. Qed.

Fixpoint knodes k : nat := match k with [] => 0 | f :: k => 1 + tnodes (fr_1 f) + tnodes (fr_2 f) + knodes k end.
Lemma tnodes_plug k t : tnodes (tplug k t) = (knodes k + tnodes t)%nat.
Proof. revert t. induction k as [|f k IH]; intros t; [done|]. simpl. rewrite IH. destruct f as [[] a c d t1 t2]; simpl; lia. Qed.
Lemma knodes_length k : (length k <= knodes k)%nat.
Proof. induction k; simpl; lia. Qed.

Fixpoint klive k : Prop := match k with [] => True | f :: k => live (fr_1 f) /\ live (fr_2 f) /\ klive k end.

Lemma fill_not_bare f t : is_te t = false -> bare (fill f t) = false.
Proof. destruct f as [[] a c [d|] t1 t2]; destruct t; try done; by destruct t1, t2. Qed.

Lemma live_plug k t : is_te t = false -> live (tplug k t) <-> klive k /\ live t.
Proof.
  revert t. induction k as [|f k IH]; intros t Ht; [naive_solver|]. simpl. rewrite IH by (by destruct f as [[] ? ? ? ? ?]).
  pose proof (fill_not_bare f t Ht) as Hb. destruct f as [[] a c d t1 t2]; simpl in *; naive_solver.
Qed.

(** Where nothing was, the frames around are only live with something there. *)
Lemma klive_plug k t : live (tplug k t) -> klive k /\ live t.
Proof.
  revert t. induction k as [|f k IH]; intros t H; [done|]. simpl in *. apply IH in H as [Hk Hf].
  destruct f as [[] a c d t1 t2]; simpl in *; naive_solver.
Qed.

Definition live_below t : Prop := match t with TE => True | TT _ _ _ l m r => live l /\ live m /\ live r end.

Lemma live_below_bare t : bare t = false -> live_below t -> live t.
Proof. by destruct t. Qed.

Lemma prune_live k t : is_te t = false -> klive k -> live_below t -> live (tprune k t).
Proof.
  revert t. induction k as [|f k IH]; intros t Hn Hk Ht; destruct (bare t) eqn:Eb.
  - simpl. by rewrite Eb.
  - simpl. rewrite Eb. by apply live_below_bare.
  - simpl. rewrite Eb. apply IH; [by destruct f as [[] ? ? ? ? ?]|apply Hk|].
    destruct f as [[] a c d t1 t2]; simpl in *; naive_solver.
  - simpl. rewrite Eb. apply (live_plug (f :: k)); [done|]. split; [done|]. by apply live_below_bare.
Qed.

Lemma prune_count k t : tcount (tprune k t) = (kcount k + tcount t)%nat.
Proof.
  revert t. induction k as [|f k IH]; intros t; simpl; destruct (bare t) eqn:Eb; try done.
  - destruct t as [|a c [d|] [] [] []]; done.
  - rewrite IH. assert (tcount t = 0)%nat as -> by (by destruct t as [|a c [d|] [] [] []]).
    destruct f as [[] a c d t1 t2]; simpl; lia.
  - rewrite tcount_plug. destruct f as [[] a c d t1 t2]; simpl; lia.
Qed.

Lemma tlookup_plug_ext k t u :
  (forall s, tlookup t s = tlookup u s) -> forall s, tlookup (tplug k t) s = tlookup (tplug k u) s.
Proof.
  revert t u. induction k as [|f k IH]; intros t u H; [done|]. simpl. apply IH. intros s.
  destruct f as [[] a c d t1 t2]; destruct s as [|x s]; simpl; rewrite ?H; try done; by repeat case_match.
Qed.

Lemma bare_lookup t s : bare t = true -> tlookup t s = None.
Proof. destruct t as [|a c [d|] [] [] []]; try done. intros _. destruct s as [|x s]; simpl; [done|]. by repeat case_match. Qed.

Lemma prune_lookup k t s : tlookup (tprune k t) s = tlookup (tplug k t) s.
Proof.
  revert t. induction k as [|f k IH]; intros t; simpl; destruct (bare t) eqn:Eb; try done.
  - by rewrite (bare_lookup t).
  - rewrite IH. apply (tlookup_plug_ext (f :: k)). intros r. by rewrite (bare_lookup t).
Qed.

(** ** Trees that stand for maps *)

(** The tree has no nodes that lead nowhere, the values of [m] are the values
    of its entries, and each entry has the key that leads to it. *)
Definition represents t (m : gmap (list Z) Z) : Prop :=
  live t /\ (forall s, en_value <$> tlookup t s = m !! s) /\
  (forall s e, tlookup t s = Some e -> chars_at (en_key e) = s) /\ tcount t = size m.

Lemma represents_found t m s k u rem :
  represents t m -> s <> [] -> tfind t s = (k, u, rem) ->
  m !! s = en_value <$> match u with TT _ _ d _ _ _ => d | TE => None end.
Proof. intros (_ & Hm & _ & _) Hs E. pose proof (tlookup_find t s Hs) as H. rewrite E in H. by rewrite <- Hm, H. Qed.

Lemma represents_insert `{!CharLaws} t m s k u rem u' e :
  represents t m -> s <> [] -> tfind t s = (k, u, rem) ->
  is_te u' = false -> live u' -> tlookup u' rem = Some e -> chars_at (en_key e) = s -> (forall r, r <> rem -> tlookup u' r = tlookup u r) ->
  (tcount u' + size m = tcount u + size (<[s := en_value e]> m))%nat ->
  represents (tplug k u') (<[s := en_value e]> m).
Proof.
  intros (Hl & Hm & Hk & Hc) Hs E Hn Hu He Hke Hr Hz. pose proof (tfind_plug t s) as Hp. pose proof (tlookup_replace t s Hs) as Hx.
  rewrite E in Hp, Hx. destruct (Hx u') as [H1 H2]. rewrite <- Hp, tcount_plug in Hc. split; [|split; [|split]].
  - apply live_plug; [done|]. split; [|done]. rewrite <- Hp in Hl. by apply klive_plug in Hl as [? _].
  - intros s2. destruct (decide (s2 = s)) as [->|Hs2]; [by rewrite H1, He, lookup_insert_eq|].
    rewrite lookup_insert_ne by done. by rewrite H2, Hm.
  - intros s2 e2. destruct (decide (s2 = s)) as [->|Hs2]; [rewrite H1, He; by intros [= <-]|]. rewrite H2 by done. apply Hk.
  - rewrite tcount_plug. lia.
Qed.

(** A key nothing was at the place of: its branch. *)
Lemma represents_branch `{!CharLaws} t m s k rem al e :
  represents t m -> s <> [] -> tfind t s = (k, TE, rem) -> length al = length rem -> chars_at (en_key e) = s ->
  represents (tplug k (branch rem al (Some e))) (<[s := en_value e]> m).
Proof.
  intros Ht Hs E Hl He. pose proof (represents_found _ _ _ _ _ _ Ht Hs E) as Hv. pose proof (tfind_place t s Hs) as Hp.
  rewrite E in Hp. destruct Hp as [Hr _]. apply (represents_insert _ _ _ _ _ _ _ e Ht Hs E); [| | |done| |].
  - destruct rem as [|c rem]; [done|]. by destruct al.
  - by apply branch_live.
  - rewrite branch_lookup by done. by rewrite decide_True.
  - intros r Hr2. rewrite branch_lookup by done. rewrite decide_False by (by intros []). by destruct r.
  - rewrite branch_count by done. rewrite map_size_insert, Hv. simpl. lia.
Qed.

Lemma represents_empty : represents TE ∅.
Proof. split; [done|]. split; [intros s; by rewrite lookup_empty|done]. Qed.

Lemma represents_delete `{!CharLaws} t m s k a c e l mid r rem :
  represents t m -> s <> [] -> tfind t s = (k, TT a c (Some e) l mid r, rem) ->
  represents (tprune k (TT a c None l mid r)) (delete s m).
Proof.
  intros Ht Hs E. pose proof (represents_found _ _ _ _ _ _ Ht Hs E) as Hv. destruct Ht as (Hl & Hm & Hkeys & Hc).
  pose proof (tfind_plug t s) as Hp. pose proof (tlookup_replace t s Hs) as Hx. pose proof (tfind_place t s Hs) as Hpl.
  rewrite E in Hp, Hx, Hpl. destruct Hpl as (_ & x & -> & Hxc). destruct (Hx (TT a c None l mid r)) as [H1 H2].
  rewrite <- Hp in Hl, Hc. apply klive_plug in Hl as [Hk Hu]. rewrite tcount_plug in Hc.
  assert (tlookup (tplug k (TT a c None l mid r)) s = None) as Hgone by (rewrite H1; simpl; by rewrite Hxc).
  assert (forall s2, s2 <> s -> tlookup (tplug k (TT a c None l mid r)) s2 = tlookup t s2) as Hsame.
  { intros s2 Hs2. apply H2; [done|]. intros r2 Hr2. by apply (tlookup_data _ _ _ _ _ _ _ x). }
  split; [|split; [|split]].
  - apply prune_live; [done|done|apply Hu].
  - intros s2. rewrite prune_lookup. destruct (decide (s2 = s)) as [->|Hs2].
    + by rewrite Hgone, lookup_delete_eq.
    + by rewrite lookup_delete_ne, Hsame, Hm.
  - intros s2 e2. rewrite prune_lookup. destruct (decide (s2 = s)) as [->|Hs2]; [by rewrite Hgone|].
    rewrite Hsame by done. apply Hkeys.
  - rewrite prune_count, map_size_delete, Hv. simpl in *. lia.
Qed.

Lemma tlookup_empty t : tlookup t [] = None.
Proof. by destruct t. Qed.
End Strings.
