(* ===== verification/CcTstFacts.v ===== *)
(** * The ternary search table in separation logic

    [tst_at p t] owns the nodes and the entries of the tree [t], whose parent
    is [p]; [ctx_at k x] those of the frames [k], in whose hole [x] is.  Each
    function of cc_tsttable.c gets a specification of what it does to the
    tree; the cells it leaves behind unreachable are counted. *)

From iris.proofmode Require Import proofmode.
From S2P Require Import Prelude CMem CState CHeap HeapLogic CcArray CcSlist CcTst TstTree.

(** ** Assertions *)

Definition taddr (t : tst) : Z := match t with TE => NULL | TT a _ _ _ _ _ => a end.
Definition daddr (d : option tentry) : Z := match d with Some e => en_addr e | None => NULL end.

Definition entry_at (d : option tentry) : hpropI tcell :=
  match d with Some e => en_addr e ↦ TEntry (mk_te (en_key e) (en_value e)) | None => emp end%I.

Fixpoint tst_at (p : Z) (t : tst) : hpropI tcell :=
  match t with
  | TE => emp
  | TT a c d l m r =>
      a ↦ TNode (mk_tn c (daddr d) p (taddr l) (taddr m) (taddr r)) ∗ entry_at d ∗ tst_at a l ∗ tst_at a m ∗ tst_at a r
  end%I.

(** The node around a hole with [x] in it. *)
Definition fcell (f : tframe) (x p : Z) : tcell :=
  match f with
  | Frame SideL a c d t1 t2 => TNode (mk_tn c (daddr d) p x (taddr t1) (taddr t2))
  | Frame SideM a c d t1 t2 => TNode (mk_tn c (daddr d) p (taddr t1) x (taddr t2))
  | Frame SideR a c d t1 t2 => TNode (mk_tn c (daddr d) p (taddr t1) (taddr t2) x)
  end.

Definition frame_at (f : tframe) (x p : Z) : hpropI tcell :=
  (fr_addr f ↦ fcell f x p ∗ entry_at (fr_data f) ∗ tst_at (fr_addr f) (fr_1 f) ∗ tst_at (fr_addr f) (fr_2 f))%I.

Definition top (k : list tframe) : Z := match k with [] => NULL | f :: _ => fr_addr f end.

Fixpoint ctx_at (k : list tframe) (x : Z) : hpropI tcell :=
  match k with [] => emp | f :: k => frame_at f x (top k) ∗ ctx_at k (fr_addr f) end%I.

Lemma fill_at p f t : tst_at p (fill f t) ⊣⊢ frame_at f (taddr t) p ∗ tst_at (fr_addr f) t.
Proof.
  destruct f as [[] a c d t1 t2]; unfold frame_at; simpl;
    (iSplit; [iIntros "(? & ? & ? & ? & ?)"; iFrame|iIntros "((? & ? & ? & ?) & ?)"; iFrame]).
Qed.

Lemma taddr_fill f t : taddr (fill f t) = fr_addr f.
Proof. by destruct f as [[] a c d t1 t2]. Qed.

Lemma plug_at k t : tst_at NULL (tplug k t) ⊣⊢ ctx_at k (taddr t) ∗ tst_at (top k) t.
Proof.
  revert t. induction k as [|f k IH]; intros t; simpl; [by rw left_id|].
  rw IH fill_at taddr_fill. iSplit; [iIntros "(? & ? & ?)"|iIntros "([? ?] & ?)"]; iFrame.
Qed.

Lemma tst_size_at p t h : hprop_at (tst_at p t) h -> stdpp.base.size h = (tnodes t + tcount t)%nat.
Proof.
  revert p h. induction t as [|a c d l IHl m IHm r IHr]; simpl; intros p h.
  - intros ->. apply map_size_empty.
  - intros (h1 & h2 & -> & D1 & [-> _] & h3 & h4 & -> & D2 & Hd & h5 & h6 & -> & D3 & Hl & h7 & h8 & -> & D4 & Hm & Hr).
    rw map_size_disj_union; [|done]. rw map_size_disj_union; [|done]. rw map_size_disj_union; [|done]. rw map_size_disj_union; [|done].
    rw map_size_singleton (IHl _ _ Hl) (IHm _ _ Hm) (IHr _ _ Hr).
    assert (stdpp.base.size h3 = has_entry d) as -> by (by destruct d; [destruct Hd as [-> _]; rw map_size_singleton|rw Hd map_size_empty]).
    lia.
Qed.

(** ** Reading and writing *)

Ltac tsimpl := cbn [fst snd ts_c ts_data ts_parent ts_left ts_mid ts_right set_c set_eow set_up set_left set_mid set_right
  te_key te_value tst_size tst_root set_tst_size set_tst_root en_addr en_key en_value].
Ltac tret := iApply hwp_ret; tsimpl.
Ltac tskip := iApply hwp_bind; tret.

Section Rules.
Context {B : Type} (a : Z) (n : tstnode) (e : tstentry) (Φ : B -> hpropI tcell).

Lemma hwp_tfield {A} (f : tstnode -> A) (k : A -> M (heap tcell) B) :
  a ↦ TNode n ∗ (a ↦ TNode n -∗ hwp (k (f n)) Φ) ⊢ hwp (tfield f a ≫= k) Φ.
Proof.
  iIntros "[Ha H]". iApply hwp_bind. unfold tfield. iApply hwp_bind. iApply hwp_load. iFrame "Ha". iIntros "Ha".
  iApply hwp_ret. by iApply "H".
Qed.
Lemma hwp_tupdate f (k : unit -> M (heap tcell) B) :
  a ↦ TNode n ∗ (a ↦ TNode (f n) -∗ hwp (k tt) Φ) ⊢ hwp (tupdate a f ≫= k) Φ.
Proof.
  iIntros "[Ha H]". iApply hwp_bind. unfold tupdate. iApply hwp_bind. iApply hwp_load. iFrame "Ha". iIntros "Ha".
  iApply hwp_store. iFrame.
Qed.
Lemma hwp_efield {A} (f : tstentry -> A) (k : A -> M (heap tcell) B) :
  a ↦ TEntry e ∗ (a ↦ TEntry e -∗ hwp (k (f e)) Φ) ⊢ hwp (efield f a ≫= k) Φ.
Proof.
  iIntros "[Ha H]". iApply hwp_bind. unfold efield. iApply hwp_bind. iApply hwp_load. iFrame "Ha". iIntros "Ha".
  iApply hwp_ret. by iApply "H".
Qed.
Lemma hwp_eupdate f (k : unit -> M (heap tcell) B) :
  a ↦ TEntry e ∗ (a ↦ TEntry (f e) -∗ hwp (k tt) Φ) ⊢ hwp (eupdate a f ≫= k) Φ.
Proof.
  iIntros "[Ha H]". iApply hwp_bind. unfold eupdate. iApply hwp_bind. iApply hwp_load. iFrame "Ha". iIntros "Ha".
  iApply hwp_store. iFrame.
Qed.
End Rules.

Tactic Notation "tfield" constr(H) := iApply hwp_tfield; iFrame H; iIntros H; tsimpl.
Tactic Notation "tupdate" constr(H) := iApply hwp_tupdate; iFrame H; iIntros H; tsimpl.
Tactic Notation "efield" constr(H) := iApply hwp_efield; iFrame H; iIntros H; tsimpl.
Tactic Notation "eupdate" constr(H) := iApply hwp_eupdate; iFrame H; iIntros H; tsimpl.
Tactic Notation "tnull" constr(H) "as" simple_intropattern(E) :=
  iDestruct (pointsto_not_null with H) as "[%E HNN]"; iRename "HNN" into H; apply Z.eqb_neq in E.

Lemma hwp_tupdate_last a n f (Φ : unit -> hpropI tcell) :
  a ↦ TNode n ∗ (a ↦ TNode (f n) -∗ Φ tt) ⊢ hwp (tupdate a f) Φ.
Proof. iIntros "[Ha H]". unfold tupdate. iApply hwp_bind. iApply hwp_load. iFrame "Ha". iIntros "Ha". iApply hwp_store. iFrame. Qed.

(** The tests of the code for missing children and entries. *)
Lemma taddr_null p t : tst_at p t ⊢ ⌜(taddr t =? NULL) = is_te t⌝ ∧ tst_at p t.
Proof.
  destruct t as [|a c d l m r]; [by iIntros "$"|]. simpl. iIntros "[Ha H]". tnull "Ha" as E. iSplit; [done|iFrame].
Qed.
Lemma daddr_null d : entry_at d ⊢ ⌜(daddr d =? NULL) = match d with Some _ => false | None => true end⌝ ∧ entry_at d.
Proof. destruct d as [e|]; [|by iIntros "$"]. simpl. iIntros "Ha". tnull "Ha" as E. by iSplit. Qed.

Section Facts.
Context `{HA : !NodeAlloc tcell} `{HE : !TstEnv} `{HL : !NodeAllocLaws tcell}.
Implicit Types (t u : tst) (s : list Z) (k : list tframe) (tb : tsttable).
Local Abbreviation TM := (M (heap tcell)).

(** ** Finding the place of a key *)

Definition loc_of k : tst_loc :=
  match k with
  | [] => LRoot
  | f :: _ => match fr_side f with SideL => LLeft (fr_addr f) | SideM => LMid (fr_addr f) | SideR => LRight (fr_addr f) end
  end.

Lemma deref_spec {A} tb k x (kont : Z -> TM A) (Φ : A -> hpropI tcell) :
  (k = [] -> tst_root tb = x) ->
  ctx_at k x ∗ (ctx_at k x -∗ hwp (kont x) Φ) ⊢ hwp (deref tb (loc_of k) ≫= kont) Φ.
Proof.
  iIntros (Hr) "[H HΦ]". destruct k as [|[[] a c d t1 t2] k]; simpl.
  - tskip. rw Hr; [|done]. by iApply "HΦ".
  - iDestruct "H" as "[(Ha & Hd & H1 & H2) Hk]". cbn [fr_addr fcell]. tfield "Ha". iApply "HΦ". iFrame.
  - iDestruct "H" as "[(Ha & Hd & H1 & H2) Hk]". cbn [fr_addr fcell]. tfield "Ha". iApply "HΦ". iFrame.
  - iDestruct "H" as "[(Ha & Hd & H1 & H2) Hk]". cbn [fr_addr fcell]. tfield "Ha". iApply "HΦ". iFrame.
Qed.

(** Where the loop stops: the place of the key, and what is left of the key
    when nothing is there. *)
Definition found_at (k : list tframe) (r : list tframe * tst * list Z) (x : tst_loc * Z * list Z) : hpropI tcell :=
  let '(k1, u, rem) := r in
  (⌜x = (loc_of (k1 ++ k), top (k1 ++ k), if is_te u then rem else [])⌝ ∧
   ctx_at (k1 ++ k) (taddr u) ∗ tst_at (top (k1 ++ k)) u)%I.

(** Going on below the node that was looked at. *)
Lemma found_below k f r x :
  found_at (f :: k) r x ⊢ found_at k (let '(k1, u, rem) := r in (k1 ++ [f], u, rem)) x.
Proof. destruct r as [[k1 u] rem]. unfold found_at. rw -(assoc app k1 [f] k). done. Qed.

Lemma find_loop_spec t : forall fuel tb k s,
  (tnodes t < fuel)%nat -> (k = [] -> tst_root tb = taddr t) ->
  ctx_at k (taddr t) ∗ tst_at (top k) t ⊢ hwp (find_loop fuel tb (loc_of k) (top k) s) (found_at k (tfind t s)).
Proof.
  induction t as [|a c d l IHl m IHm r IHr]; intros fuel tb k s Hf Hr; destruct fuel as [|fuel]; try (simpl in Hf; lia);
    iIntros "[Hk Ht]"; cbn [find_loop]; iApply deref_spec; [done| |done|]; iFrame "Hk"; iIntros "Hk".
  - destruct s; [|rw Z.eqb_refl]; tret; unfold found_at; simpl; iFrame; done.
  - destruct s as [|x s]; [tret; unfold found_at; simpl; iFrame; done|]. cbn [taddr].
    iDestruct (taddr_null with "Ht") as "[%Hn Ht]". rw Hn. cbn [tst_at taddr is_te].
    iDestruct "Ht" as "(Ha & Hd & Hl & Hm & Hr)". tfield "Ha". cbn [tfind]. simpl in Hf.
    destruct (char_cmp x c <? 0); [|destruct (0 <? char_cmp x c); [|destruct s as [|y s]]].
    + iApply hwp_wand. iSplitL; [iApply (IHl fuel tb (Frame SideL a c d m r :: k)); [lia|done|]|].
      * cbn [ctx_at fr_addr]. unfold frame_at. cbn [fr_addr fr_data fr_1 fr_2 fcell top]. iFrame.
      * iIntros (z) "H". by iApply found_below.
    + iApply hwp_wand. iSplitL; [iApply (IHr fuel tb (Frame SideR a c d l m :: k)); [lia|done|]|].
      * cbn [ctx_at fr_addr]. unfold frame_at. cbn [fr_addr fr_data fr_1 fr_2 fcell top]. iFrame.
      * iIntros (z) "H". by iApply found_below.
    + tret. unfold found_at. simpl. iFrame. done.
    + iApply hwp_wand. iSplitL; [iApply (IHm fuel tb (Frame SideM a c d l r :: k)); [lia|done|]|].
      * cbn [ctx_at fr_addr]. unfold frame_at. cbn [fr_addr fr_data fr_1 fr_2 fcell top]. iFrame.
      * iIntros (z) "H". by iApply found_below.
Qed.

(** A whole table, its header and its tree. *)
Lemma tst_fuel_spec {A} p t (kont : nat -> TM A) (Φ : A -> hpropI tcell) :
  tst_at p t ∗ (∀ n, ⌜(2 * (tnodes t + tcount t) < n)%nat⌝ → tst_at p t -∗ hwp (kont n) Φ) ⊢ hwp (tst_fuel ≫= kont) Φ.
Proof.
  iIntros "[Ht H]". iApply hwp_bind. unfold tst_fuel. iApply hwp_bind.
  iApply (hwp_fuel (tst_at p t) (tnodes t + tcount t)); [intros h Hh; by rw (tst_size_at _ _ _ Hh)|].
  iFrame "Ht". iIntros (n Hn) "Ht". tret. iApply ("H" with "[] Ht"). iPureIntro. lia.
Qed.

Lemma get_last_node_spec tb t key :
  tst_root tb = taddr t ->
  tst_at NULL t ⊢ hwp (get_last_node tb key) (found_at [] (tfind t (chars_at key))).
Proof.
  iIntros (Hr) "Ht". unfold get_last_node. iApply tst_fuel_spec. iFrame "Ht". iIntros (n Hn) "Ht".
  iApply (find_loop_spec t n tb []); [lia|done|]. simpl. iFrame.
Qed.
End Facts.
