(* ===== verification/CcTstOps.v ===== *)
(** * Adding, reading and removing in the ternary search table

    The operations of cc_tsttable.c against the map a table stands for.
    [lost n] owns the [n] cells an operation leaves behind unreachable. *)

From iris.proofmode Require Import proofmode.
From S2P Require Import Prelude CMem CState CHeap HeapLogic CcArray CcSlist CcTst TstTree CcTstFacts.

(** ** Cells nobody points to *)

Definition lost (n : nat) : hpropI tcell := Hprop (fun h => stdpp.base.size h = n).

Lemma lost_none : ⊢ lost 0.
Proof. split. intros h Hh. rw Hh. apply map_size_empty. Qed.
Lemma lost_add n m : lost n ∗ lost m ⊢ lost (n + m).
Proof. split. intros h (h1 & h2 & -> & D & H1 & H2). hnf in *. rw map_size_disj_union; [|done]. simpl. lia. Qed.
Lemma lost_cell a c : a ↦ c ⊢ lost 1.
Proof. split. intros h [-> _]. hnf. apply map_size_singleton. Qed.
Lemma lost_tree p t : tst_at p t ⊢ lost (tnodes t + tcount t).
Proof. split. intros h Hh. by apply (tst_size_at p). Qed.
Lemma lost_entry d : entry_at d ⊢ lost (has_entry d).
Proof. destruct d; simpl; [apply lost_cell|]. split. intros h Hh. rw Hh. apply map_size_empty. Qed.

(** At most [n] cells. *)
Definition lost_upto (n : nat) : hpropI tcell := (∃ k, ⌜(k <= n)%nat⌝ ∧ lost k)%I.

Section Ops.
Context `{HA : !NodeAlloc tcell} `{HE : !TstEnv} `{HL : !NodeAllocLaws tcell} `{HK : !CharLaws}.
Implicit Types (t u : tst) (s : list Z) (k : list tframe) (tb : tsttable) (m : gmap (list Z) Z).
Local Abbreviation TM := (M (heap tcell)).
Local Abbreviation card := stdpp.base.size.

(** ** New branches *)

Definition last_of (al : list Z) (a : Z) : Z := List.last al a.

Lemma last_of_cons b al a : last_of (b :: al) a = last_of al b.
Proof.
  unfold last_of. revert a b. induction al as [|c al IH]; intros a b; [done|].
  transitivity (List.last (c :: al) a); [done|]. by rw (IH a c) (IH b c).
Qed.

Lemma mid_chain_spec s : forall c a p,
  a ↦ TNode (mk_tn c NULL p NULL NULL NULL)
  ⊢ hwp (mid_chain s a) (λ r,
      (∃ al, ⌜length al = length s /\ r = (CC_OK, last_of al a)⌝ ∧ tst_at p (branch (c :: s) (a :: al) None)) ∨
      (⌜r.1 = CC_ERR_ALLOC⌝ ∧ lost_upto (S (length s)))).
Proof using HL.
  induction s as [|c' s IH]; intros c a p; iIntros "Ha"; cbn [mid_chain].
  - tret. iLeft. iExists []. iSplit; [done|]. simpl. iFrame. by repeat iSplit.
  - iApply hwp_bind. iApply hwp_calloc. iSplit.
    + tupdate "Ha". tret. iRight. iSplit; [done|]. iExists 1%nat. iSplit; [iPureIntro; simpl; lia|]. by iApply lost_cell.
    + iIntros (b) "Hb". tupdate "Ha". tnull "Hb" as E. rw E. unfold zero_node, tcell_zeroed.
      tupdate "Hb". tupdate "Hb". iApply hwp_wand. iSplitL "Hb"; [by iApply (IH c' b a)|].
      iIntros (r) "[(%al & %Hal & Hb)|[%Hr (%n & %Hn & Hb)]]".
      * destruct Hal as [Hal ->]. iLeft. iExists (b :: al). iSplit.
        { iPureIntro. split; [simpl; lia|]. by rw last_of_cons. }
        simpl. iFrame.
      * iRight. iSplit; [done|]. iExists (S n). iSplit; [iPureIntro; simpl; lia|].
        iDestruct (lost_cell with "Ha") as "Ha". iApply (lost_add 1 n). iFrame.
Qed.

(** The last node of a branch, and the entry it is given. *)
Lemma branch_end s : forall c a al p,
  length al = length s ->
  tst_at p (branch (c :: s) (a :: al) None)
  ⊢ ∃ n, last_of al a ↦ TNode n ∗
      ∀ d, last_of al a ↦ TNode (set_eow (daddr d) n) ∗ entry_at d -∗ tst_at p (branch (c :: s) (a :: al) d).
Proof.
  induction s as [|c' s IH]; intros c a [|b al] p Hl; try done.
  - simpl. iIntros "(Ha & _)". iExists _. iFrame "Ha". iIntros (d) "[Ha Hd]". iFrame. by repeat iSplit.
  - simpl in Hl. rw last_of_cons. iIntros "H". iAssert (a ↦ TNode (mk_tn c NULL p NULL b NULL) ∗ tst_at a (branch (c' :: s) (b :: al) None))%I with "[H]" as "[Ha H]".
    { simpl. iDestruct "H" as "($ & _ & _ & $ & _)". }
    iDestruct (IH with "H") as (n) "[Hb H]"; [lia|]. iExists n. iFrame "Hb". iIntros (d) "Hd".
    iDestruct ("H" with "Hd") as "H". simpl. iFrame.
Qed.

Lemma branch_root p q c s a al d :
  tst_at p (branch (c :: s) (a :: al) d)
  ⊢ ∃ n, a ↦ TNode n ∗ (a ↦ TNode (set_up q n) -∗ tst_at q (branch (c :: s) (a :: al) d)).
Proof. simpl. iIntros "(Ha & H)". iExists _. iFrame "Ha". simpl. iIntros "Ha". iFrame. Qed.

Definition branch_made s (r : cc_stat * Z * Z) : hpropI tcell :=
  ((∃ a al, ⌜length (a :: al) = length s /\ r = (CC_OK, a, last_of al a)⌝ ∧ tst_at NULL (branch s (a :: al) None)) ∨
   (⌜r.1.1 = CC_ERR_ALLOC⌝ ∧ lost_upto (length s)))%I.

Lemma make_mid_subtree_spec s : s <> [] -> ⊢ hwp (make_mid_subtree s) (branch_made s).
Proof using HL.
  intros Hs. destruct s as [|c s]; [done|]. unfold make_mid_subtree. iApply hwp_bind. iApply hwp_calloc. iSplit.
  - tret. iRight. iSplit; [done|]. iExists 0%nat. iSplit; [iPureIntro; lia|]. iApply lost_none.
  - iIntros (a) "Ha". tnull "Ha" as E. rw E. unfold zero_node, tcell_zeroed. tupdate "Ha". iApply hwp_call.
    iSplitL; [by iApply (mid_chain_spec s c a NULL)|]. iIntros (r) "[(%al & %Hal & H)|[%Hr H]]"; tret.
    + destruct Hal as [Hal ->]. iLeft. iExists a, al. iSplit; [iPureIntro; simpl; split; [lia|done]|done].
    + iRight. by iFrame.
Qed.

(** ** Entries *)

Lemma hwp_entry_malloc (Φ : Z -> hpropI tcell) :
  Φ NULL ∧ (∀ a e, a ↦ TEntry e -∗ Φ a) ⊢ hwp (node_malloc (Uninit0 := tcell_uninit)) Φ.
Proof using HL.
  etrans; [|apply (hwp_fresh (fun h => TEntry (entry_garbage h)))]. iIntros "H". iSplit; [by iDestruct "H" as "[H _]"|].
  iDestruct "H" as "[_ H]". iIntros (a h). iApply "H".
Qed.

Lemma write_entry_spec {A} a e key val (kont : unit -> TM A) Φ :
  a ↦ TEntry e ∗ (a ↦ TEntry (mk_te key val) -∗ hwp (kont tt) Φ) ⊢ hwp (write_entry a key val ≫= kont) Φ.
Proof.
  iIntros "[Ha H]". iApply hwp_bind. unfold write_entry. eupdate "Ha". unfold eupdate. iApply hwp_bind.
  iApply hwp_load. iFrame "Ha". iIntros "Ha". iApply hwp_store. iFrame "Ha". done.
Qed.

(** A node is given a new entry. *)
Lemma new_entry_spec a n (kont : Z -> TM (cc_stat * tsttable)) Φ :
  a ↦ TNode n ∗
    ((a ↦ TNode (set_eow NULL n) -∗ hwp (kont NULL) Φ) ∧
     (∀ b e, ⌜(b =? NULL) = false⌝ → a ↦ TNode (set_eow b n) -∗ b ↦ TEntry e -∗ hwp (kont b) Φ))
  ⊢ hwp (data ← node_malloc (Uninit0 := tcell_uninit); tupdate a (set_eow data) ;; kont data) Φ.
Proof using HL.
  iIntros "[Ha H]". iApply hwp_bind. iApply hwp_entry_malloc. iSplit.
  - tupdate "Ha". iDestruct "H" as "[H _]". by iApply "H".
  - iIntros (b e) "Hb". tupdate "Ha". tnull "Hb" as E. iDestruct "H" as "[_ H]". by iApply ("H" with "[] Ha Hb").
Qed.

(** ** The table and the map it stands for *)

Definition tst_table_at tb m : hpropI tcell :=
  (∃ t, ⌜tst_root tb = taddr t /\ tst_size tb = Z.of_nat (card m) /\ represents t m⌝ ∧ tst_at NULL t)%I.

Definition added tb m (key val : Z) (r : cc_stat * tsttable) : hpropI tcell :=
  ((⌜r.1 = CC_OK⌝ ∧ tst_table_at r.2 (<[chars_at key := val]> m)) ∨
   (⌜r = (CC_ERR_ALLOC, tb) /\ m !! chars_at key = None⌝ ∧ tst_table_at tb m ∗ lost_upto (length (chars_at key))))%I.

(** The hole around a place of the tree. *)
Lemma assign_spec {A} tb k x y (kont : tsttable -> TM A) Φ :
  ctx_at k x ∗ (ctx_at k y -∗ hwp (kont (if k is [] then set_tst_root y tb else tb)) Φ)
  ⊢ hwp (assign tb (loc_of k) y ≫= kont) Φ.
Proof.
  iIntros "[H HΦ]". iApply hwp_bind. destruct k as [|[[] a c d t1 t2] k]; simpl.
  - tret. by iApply "HΦ".
  - iDestruct "H" as "[(Ha & Hd & H1 & H2) Hk]". cbn [fr_addr fcell]. tupdate "Ha". tret. iApply "HΦ". iFrame.
  - iDestruct "H" as "[(Ha & Hd & H1 & H2) Hk]". cbn [fr_addr fcell]. tupdate "Ha". tret. iApply "HΦ". iFrame.
  - iDestruct "H" as "[(Ha & Hd & H1 & H2) Hk]". cbn [fr_addr fcell]. tupdate "Ha". tret. iApply "HΦ". iFrame.
Qed.

Lemma root_of_plug k t u : is_te t = false -> (k = [] -> taddr t = taddr u) -> taddr (tplug k t) = taddr (tplug k u).
Proof.
  revert t u. induction k as [|f k IH]; intros t u Ht Hk; [by apply Hk|]. simpl. apply IH; [by destruct f as [[] ? ? ? ? ?]|].
  intros _. by rw !taddr_fill.
Qed.

Lemma add_found_spec tb t m key val k a c d l mid r rem :
  tst_root tb = taddr t -> tst_size tb = Z.of_nat (card m) -> Z.of_nat (card m) + 1 < 2 ^ 32 -> represents t m ->
  chars_at key <> [] -> tfind t (chars_at key) = (k, TT a c d l mid r, rem) ->
  ctx_at k a ∗ tst_at (top k) (TT a c d l mid r)
  ⊢ hwp (eow ← tfield ts_data a;
         if eow =? NULL then
           data ← node_malloc (Uninit0 := tcell_uninit);
           tupdate a (set_eow data) ;;
           if data =? NULL then mret (CC_ERR_ALLOC, tb)
           else write_entry data key val ;; mret (CC_OK, set_tst_size (u32 (tst_size tb + 1)) tb)
         else write_entry eow key val ;; mret (CC_OK, tb)) (added tb m key val).
Proof using HL HK.
  intros Hr Hz Hb Ht Hs E. pose proof (represents_found _ _ _ _ _ _ Ht Hs E) as Hv. pose proof (tfind_place t _ Hs) as Hp.
  pose proof (tfind_plug t (chars_at key)) as Hpl. rw E in Hp Hpl. destruct Hp as (_ & x & -> & Hx).
  assert (forall en, en_value en = val -> en_key en = key -> represents (tplug k (TT a c (Some en) l mid r)) (<[chars_at key := val]> m)) as Hins.
  { intros en <- Hk. apply (represents_insert _ _ _ _ _ _ _ en Ht Hs E); [done| |by simpl; rw Hx|by rw Hk| |].
    - destruct Ht as [Hl _]. rw -Hpl in Hl. apply klive_plug in Hl as [_ [_ Hl]]. by split.
    - intros s2 Hs2. by apply (tlookup_data _ _ _ _ _ _ _ x).
    - rw map_size_insert Hv /=. destruct d; simpl; lia. }
  assert (forall en, tst_root tb = taddr (tplug k (TT a c (Some en) l mid r))) as Hroot.
  { intros en. rw Hr -Hpl. by apply root_of_plug. }
  iIntros "[Hk (Ha & Hd & Hl & Hm & Hr)]". tfield "Ha". iDestruct (daddr_null with "Hd") as "[%Hd0 Hd]". rw Hd0.
  destruct d as [e|]; simpl in Hv.
  - simpl. iApply write_entry_spec. iFrame "Hd". iIntros "Hd". tret. iLeft. iSplit; [done|].
    iExists (tplug k (TT a c (Some (mk_ten (en_addr e) key val)) l mid r)). iSplit.
    { iPureIntro. split; [apply Hroot|]. split; [|by apply Hins]. by rw map_size_insert Hv. }
    rw plug_at. simpl. iFrame.
  - iApply (new_entry_spec a). iFrame "Ha". iSplit.
    + iIntros "Ha". rw Z.eqb_refl. tret. iRight. iSplit; [done|]. iSplitL.
      * iExists t. iSplit; [done|]. rw -Hpl plug_at. simpl. iFrame.
      * iExists 0%nat. iSplit; [iPureIntro; lia|]. iApply lost_none.
    + iIntros (b e Eb) "Ha Hb". rw Eb. iApply write_entry_spec. iFrame "Hb". iIntros "Hb". tret. iLeft. iSplit; [done|].
      iExists (tplug k (TT a c (Some (mk_ten b key val)) l mid r)). iSplit.
      { iPureIntro. split; [apply Hroot|]. split; [|by apply Hins]. simpl. rw map_size_insert Hv /=. simpl.
        rw Hz wrap_id; unfold fits; lia. }
      rw plug_at. simpl. iFrame.
Qed.

(** Nothing is at the place of the key yet: a branch for the rest of it. *)
Lemma add_branch_spec tb t m key val k rem :
  tst_root tb = taddr t -> tst_size tb = Z.of_nat (card m) -> Z.of_nat (card m) + 1 < 2 ^ 32 -> represents t m ->
  chars_at key <> [] -> tfind t (chars_at key) = (k, TE, rem) ->
  ctx_at k NULL
  ⊢ hwp (r ← make_mid_subtree rem;
         let '(status, begin, end_) := r in
         if negb (is_ok status) then mret (CC_ERR_ALLOC, tb)
         else
           tupdate begin (set_up (top k)) ;;
           data ← node_malloc (Uninit0 := tcell_uninit);
           tupdate end_ (set_eow data) ;;
           if data =? NULL then mret (CC_ERR_ALLOC, tb)
           else
             write_entry data key val ;;
             table ← assign (set_tst_size (u32 (tst_size tb + 1)) tb) (loc_of k) begin;
             mret (CC_OK, table)) (added tb m key val).
Proof using HL HK.
  intros Hr Hz Hb Ht Hs E. pose proof (represents_found _ _ _ _ _ _ Ht Hs E) as Hv. pose proof (tfind_place t _ Hs) as Hp.
  pose proof (tfind_plug t (chars_at key)) as Hpl. pose proof (tfind_left t (chars_at key)) as Hle. rw E in Hp Hpl Hle.
  destruct Hp as (Hrem & _). simpl in Hv.
  assert (ctx_at k NULL ⊢ tst_table_at tb m) as Hsame.
  { iIntros "H". iExists t. iSplit; [done|]. rw -Hpl plug_at. simpl. iFrame. }
  iIntros "Hk". iApply hwp_call. iSplitR; [by iApply make_mid_subtree_spec|]. iIntros ([[st b] e]) "[(%a & %al & %Hal & H)|[%Hst H]]".
  - destruct Hal as [Hal Hst]. injection Hst as -> -> ->. simpl is_ok. cbn [negb].
    destruct rem as [|c s]; [done|]. simpl in Hal.
    iDestruct (branch_root NULL (top k) with "H") as (n) "[Ha H]". tupdate "Ha". iDestruct ("H" with "Ha") as "H".
    iDestruct (branch_end with "H") as (n2) "[Ha H]"; [lia|]. iApply (new_entry_spec (last_of al a)). iFrame "Ha". iSplit.
    + iIntros "Ha". rw Z.eqb_refl. tret. iRight. iSplit; [done|]. iSplitL "Hk"; [by iApply Hsame|].
      iExists (length (c :: s)). iSplit; [done|]. iDestruct ("H" $! None with "[$Ha]") as "H".
      iDestruct (lost_tree with "H") as "H". rw branch_nodes; [|simpl; lia]. rw branch_count; [|done|simpl; lia].
      simpl. by rw Nat.add_0_r.
    + iIntros (x e Ex) "Ha Hx". rw Ex. iApply write_entry_spec. iFrame "Hx". iIntros "Hx".
      iDestruct ("H" $! (Some (mk_ten x key val)) with "[$Ha $Hx]") as "H".
      iApply (assign_spec _ k NULL a). iFrame "Hk". iIntros "Hk". tret. iLeft. iSplit; [done|].
      set (u' := branch (c :: s) (a :: al) (Some (mk_ten x key val))). iExists (tplug k u'). iSplit; [iPureIntro|].
      * assert (u32 (tst_size tb + 1) = Z.of_nat (card (<[chars_at key:=val]> m))) as Hc.
        { rw map_size_insert Hv Hz wrap_id; unfold fits; lia. }
        split; [|split; [by destruct k|]].
        { destruct k as [|f k]; [done|]. simpl. rw Hr -Hpl. simpl. apply root_of_plug.
          - by destruct f as [[] ? ? ? ? ?].
          - intros _. by rw !taddr_fill. }
        apply (represents_branch _ _ _ _ _ _ (mk_ten x key val) Ht Hs E); [simpl; lia|done].
      * rw plug_at. iFrame.
  - simpl in Hst. subst st. simpl is_ok. cbn [negb]. tret. iRight. iSplit; [done|]. iSplitL "Hk"; [by iApply Hsame|].
    iDestruct "H" as (n Hn) "H". iExists n. iSplit; [iPureIntro; lia|done].
Qed.

(** The place of a key in a table, and what is there. *)
Definition place_at k u rem (x : tst_loc * Z * list Z) : hpropI tcell :=
  (⌜x = (loc_of k, top k, if is_te u then rem else [])⌝ ∧ ctx_at k (taddr u) ∗ tst_at (top k) u)%I.

Lemma get_last_node_place tb t key k u rem :
  tst_root tb = taddr t -> tfind t (chars_at key) = (k, u, rem) ->
  tst_at NULL t ⊢ hwp (get_last_node tb key) (place_at k u rem).
Proof.
  iIntros (Hr E) "H". iApply hwp_wand. iSplitL; [by iApply get_last_node_spec|]. iIntros (x) "H". rw E.
  unfold found_at, place_at. by rw app_nil_r.
Qed.

Lemma root_at tb t k u : tst_root tb = taddr t -> tplug k u = t -> k = [] -> tst_root tb = taddr u.
Proof. by intros -> <- ->. Qed.

Lemma tst_add_spec tb m key val :
  chars_at key <> [] -> Z.of_nat (card m) + 1 < 2 ^ 32 ->
  tst_table_at tb m ⊢ hwp (cc_tsttable_add tb key val) (added tb m key val).
Proof using HL HK.
  iIntros (Hs Hb) "(%t & %Ht & H)". destruct Ht as (Hr & Hz & Ht). pose proof (tfind_plug t (chars_at key)) as Hp.
  destruct (tfind t (chars_at key)) as [[k u] rem] eqn:E.
  unfold cc_tsttable_add. iApply hwp_call. iSplitL; [by iApply (get_last_node_place with "H")|]. iIntros (x) "[-> [Hk Hu]]".
  iApply deref_spec; [by eapply root_at|]. iFrame "Hk". iIntros "Hk". iDestruct (taddr_null with "Hu") as "[%Hn Hu]". rw Hn.
  destruct u as [|a c d l mid r]; cbn [is_te negb taddr].
  - by iApply (add_branch_spec tb t m key val with "Hk").
  - iApply (add_found_spec tb t m key val); [done..|]. iFrame.
Qed.

(** What [entry_of] answers, by the map. *)
Definition entry_found tb m key (e : option (Z * Z)) : hpropI tcell :=
  match e with
  | Some (node, data) =>
      ∃ t k a c en l mid r rem,
        ⌜tst_root tb = taddr t /\ tst_size tb = Z.of_nat (card m) /\ represents t m /\
         tfind t (chars_at key) = (k, TT a c (Some en) l mid r, rem) /\
         m !! chars_at key = Some (en_value en) /\ node = a /\ data = en_addr en⌝ ∧
        ctx_at k a ∗ tst_at (top k) (TT a c (Some en) l mid r)
  | None => ⌜m !! chars_at key = None⌝ ∧ tst_table_at tb m
  end%I.

Lemma find_entry_spec {A} tb m key (kont : option (Z * Z) -> TM A) Φ :
  chars_at key <> [] ->
  tst_table_at tb m ∗ (∀ e, entry_found tb m key e -∗ hwp (kont e) Φ)
  ⊢ hwp (r ← get_last_node tb key; e ← entry_of tb r; kont e) Φ.
Proof.
  iIntros (Hs) "[(%t & %Ht & H) HΦ]". destruct Ht as (Hr & Hz & Ht). pose proof (tfind_plug t (chars_at key)) as Hp.
  destruct (tfind t (chars_at key)) as [[k u] rem] eqn:E. pose proof (represents_found _ _ _ _ _ _ Ht Hs E) as Hv.
  iApply hwp_call. iSplitL "H"; [by iApply (get_last_node_place with "H")|]. iIntros (x) "[-> [Hk Hu]]".
  assert (ctx_at k (taddr u) ∗ tst_at (top k) u ⊢ tst_table_at tb m) as Hsame.
  { iIntros "H". iExists t. iSplit; [done|]. rw -Hp plug_at. done. }
  iApply hwp_bind. unfold entry_of. iApply deref_spec; [by eapply root_at|]. iFrame "Hk". iIntros "Hk".
  iDestruct (taddr_null with "Hu") as "[%Hn Hu]". rw Hn. destruct u as [|a c d l mid r]; cbn [is_te taddr].
  - tret. iApply "HΦ". iSplit; [done|]. iApply Hsame. iFrame.
  - cbn [tst_at]. iDestruct "Hu" as "(Ha & Hd & Hl & Hm & Hr)". tfield "Ha".
    iDestruct (daddr_null with "Hd") as "[%Hd Hd]". rw Hd. destruct d as [en|]; cbn [negb andb]; tret; iApply "HΦ".
    + iExists t, k, a, c, en, l, mid, r, rem. iSplit; [done|]. iFrame.
    + iSplit; [done|]. iApply Hsame. iFrame.
Qed.

(** The table an entry was found in is the same. *)
Lemma entry_found_table tb m key node data : entry_found tb m key (Some (node, data)) ⊢ tst_table_at tb m.
Proof.
  iIntros "(%t & %k & %a & %c & %en & %l & %mid & %r & %rem & %H & Hk & Hu)". destruct H as (Hr & Hz & Ht & E & _).
  pose proof (tfind_plug t (chars_at key)) as Hp. rw E in Hp. iExists t. iSplit; [done|]. rw -Hp plug_at. iFrame.
Qed.

(** The entry itself. *)
Lemma entry_value tb m key node data :
  entry_found tb m key (Some (node, data))
  ⊢ ∃ e v, ⌜te_value e = v /\ m !! chars_at key = Some v⌝ ∧ data ↦ TEntry e ∗
      (data ↦ TEntry e -∗ entry_found tb m key (Some (node, data))).
Proof.
  iIntros "(%t & %k & %a & %c & %en & %l & %mid & %r & %rem & %H & Hk & Hu)". pose proof H as (Hr & Hz & Ht & E & Hv & -> & ->).
  cbn [tst_at]. iDestruct "Hu" as "(Ha & Hd & Hu)". iExists (mk_te (en_key en) (en_value en)), (en_value en). iSplit; [done|]. iFrame "Hd". iIntros "Hd".
  iExists t, k, a, c, en, l, mid, r, rem. iSplit; [done|]. iFrame.
Qed.

Definition get_reply m s : cc_stat * option Z :=
  match m !! s with Some v => (CC_OK, Some v) | None => (CC_ERR_KEY_NOT_FOUND, None) end.

Lemma tst_get_spec tb m key :
  chars_at key <> [] ->
  tst_table_at tb m ⊢ hwp (cc_tsttable_get tb key) (λ r, ⌜r = get_reply m (chars_at key)⌝ ∧ tst_table_at tb m).
Proof.
  iIntros (Hs) "H". unfold cc_tsttable_get, get_reply. iApply (find_entry_spec tb m key); [done|]. iFrame "H".
  iIntros ([[node data]|]) "H".
  - iDestruct (entry_value with "H") as (e v) "(%Hv & Hd & H)". destruct Hv as [Hv Hm]. efield "Hd". tret. rw Hm -Hv.
    iSplit; [done|]. iApply entry_found_table. by iApply "H".
  - iDestruct "H" as "[%Hm H]". rw Hm. tret. by iFrame.
Qed.

Lemma tst_contains_spec tb m key :
  chars_at key <> [] ->
  tst_table_at tb m
  ⊢ hwp (cc_tsttable_contains_key tb key) (λ b, ⌜b = bool_decide (is_Some (m !! chars_at key))⌝ ∧ tst_table_at tb m).
Proof.
  iIntros (Hs) "H". unfold cc_tsttable_contains_key. iApply hwp_call. iSplitL; [by iApply (tst_get_spec with "H")|].
  iIntros (r) "[-> H]". tret. iFrame. iPureIntro. unfold get_reply. destruct (m !! chars_at key); simpl; done.
Qed.
End Ops.
