(* ===== verification/CcTstRemove.v ===== *)
(** * Removing from the ternary search table

    [cc_tsttable_remove] takes the nodes that lead nowhere out and leaves the
    entry behind; [cc_tsttable_remove_all] frees the nodes and leaves every
    entry behind. *)

From iris.proofmode Require Import proofmode.
From S2P Require Import Prelude CMem CState CHeap HeapLogic CcArray CcSlist CcTst TstTree CcTstFacts CcTstOps.

Section Remove.
Context `{HA : !NodeAlloc tcell} `{HE : !TstEnv} `{HL : !NodeAllocLaws tcell} `{HK : !CharLaws}.
Implicit Types (t u : tst) (s : list Z) (k : list tframe) (tb : tsttable) (m : gmap (list Z) Z).
Local Abbreviation TM := (M (heap tcell)).
Local Abbreviation card := stdpp.base.size.

(** ** A node is taken out of its parent *)

Lemma sibling_ne p t a c : tst_at p t ∗ a ↦ c ⊢ ⌜(taddr t =? a) = false⌝ ∧ tst_at p t ∗ a ↦ c.
Proof.
  destruct t as [|b x d l m r]; iIntros "[Ht Ha]".
  - tnull "Ha" as E. iSplit; [iPureIntro; cbn [taddr]; by rw Z.eqb_sym|]. iFrame.
  - cbn [tst_at taddr]. iDestruct "Ht" as "[Hb Ht]". iDestruct (pointsto_ne with "[$Hb $Ha]") as "[%Hn [Hb Ha]]".
    iSplit; [by iPureIntro; apply Z.eqb_neq|]. iFrame.
Qed.

(** The children in the two orders the code tests them in. *)
Definition child_orders : list (list ((tstnode -> Z) * (Z -> tstnode -> tstnode))) :=
  [[(ts_left, set_left); (ts_right, set_right); (ts_mid, set_mid)];
   [(ts_left, set_left); (ts_mid, set_mid); (ts_right, set_right)]].

Lemma unhook_spec {A} fs f a c p (kont : unit -> TM A) Φ :
  fs ∈ child_orders ->
  frame_at f a p ∗ a ↦ c ∗ (tst_at p (fill f TE) -∗ a ↦ c -∗ hwp (kont tt) Φ)
  ⊢ hwp (unhook fs (fr_addr f) a ≫= kont) Φ.
Proof.
  iIntros (Hfs) "([Hb (Hd & H1 & H2)] & Ha & HΦ)". destruct f as [sd b x d t1 t2]. cbn [fr_addr fr_data fr_1 fr_2].
  iDestruct (sibling_ne with "[$H1 $Ha]") as "[%E1 [H1 Ha]]". iDestruct (sibling_ne with "[$H2 $Ha]") as "[%E2 [H2 Ha]]".
  iApply hwp_bind. unfold child_orders in Hfs. rw !elem_of_cons in Hfs. rw elem_of_nil in Hfs.
  destruct Hfs as [->|[->|[]]]; cbn [unhook];
    destruct sd; cbn [fcell]; tfield "Hb"; rw ?Z.eqb_refl ?E1;
    try (tfield "Hb"; rw ?Z.eqb_refl ?E1 ?E2); try (tfield "Hb"; rw ?Z.eqb_refl ?E1 ?E2);
    iApply hwp_tupdate_last; iFrame "Hb"; iIntros "Hb"; tsimpl; iApply ("HΦ" with "[Hb Hd H1 H2] Ha"); simpl; iFrame.
Qed.

Lemma parent_spec {A} f t p (kont : Z -> TM A) Φ :
  tst_at p (fill f t) ∗ (tst_at p (fill f t) -∗ hwp (kont p) Φ) ⊢ hwp (tfield ts_parent (fr_addr f) ≫= kont) Φ.
Proof.
  iIntros "[H HΦ]". destruct f as [[] a c d t1 t2]; cbn [fill tst_at fr_addr]; iDestruct "H" as "[Ha H]"; tfield "Ha";
    iApply "HΦ"; iFrame.
Qed.

Lemma frame_null f x p : frame_at f x p ⊢ ⌜(fr_addr f =? NULL) = false⌝ ∧ frame_at f x p.
Proof. iIntros "[Hf H]". tnull "Hf" as E. iSplit; [done|]. iFrame. Qed.

(** ** Removing a key *)

(** The test for a node that leads nowhere. *)
Lemma bare_test a c d l mid r p :
  tst_at p (TT a c d l mid r)
  ⊢ ⌜(taddr l =? NULL) && (taddr mid =? NULL) && (taddr r =? NULL) && (daddr d =? NULL) = bare (TT a c d l mid r)⌝ ∧
    tst_at p (TT a c d l mid r).
Proof.
  cbn [tst_at]. iIntros "(Ha & Hd & Hl & Hm & Hr)". iDestruct (daddr_null with "Hd") as "[-> Hd]".
  iDestruct (taddr_null with "Hl") as "[-> Hl]". iDestruct (taddr_null with "Hm") as "[-> Hm]".
  iDestruct (taddr_null with "Hr") as "[-> Hr]". iFrame. iPureIntro. by destruct d, l, mid, r.
Qed.

Lemma prune_loop_spec k : forall fuel tb u,
  (length k < fuel)%nat -> is_te u = false -> tst_root tb = taddr (tplug k u) ->
  ctx_at k (taddr u) ∗ tst_at (top k) u
  ⊢ hwp (prune_loop fuel tb (taddr u) (top k))
      (λ tb', ⌜tb' = set_tst_root (taddr (tprune k u)) tb⌝ ∧ tst_at NULL (tprune k u)).
Proof.
  induction k as [|f k IH]; intros fuel tb u Hf Hu Hr; destruct fuel as [|fuel]; try (simpl in Hf; lia);
    iIntros "[Hk Hu]"; cbn [prune_loop]; destruct u as [|a c d l mid r]; [done| |done|];
    iDestruct (taddr_null with "Hu") as "[%Hn Hu]"; rw Hn; cbn [is_te taddr];
    iDestruct (bare_test with "Hu") as "[%Hb Hu]"; cbn [tst_at]; iDestruct "Hu" as "(Ha & Hd & Hu)";
    tfield "Ha"; tfield "Ha"; tfield "Ha"; tfield "Ha"; rw Hb; destruct (bare _) eqn:Eb; cbn [tprune]; rw Eb; cbn [tplug].
  - cbn [top]. rw Z.eqb_refl. cbn [negb]. iApply hwp_bind. iApply hwp_free. iFrame "Ha". tret. iSplit; [done|].
    destruct d as [en|]; [done|]. by destruct l, mid, r.
  - tret. iSplit; [iPureIntro; destruct tb; simpl in *; by rw Hr|]. simpl. iFrame.
  - cbn [top ctx_at]. iDestruct "Hk" as "[Hk Hks]". iDestruct (frame_null with "Hk") as "[%Ef Hk]".
    rw Ef. cbn [negb]. iApply (unhook_spec _ f a); [apply list_elem_of_here|]. iFrame "Hk Ha". iIntros "Hp Ha".
    iApply hwp_bind. iApply hwp_free. iFrame "Ha". iApply (parent_spec f TE (top k)). iFrame "Hp". iIntros "Hp".
    assert (taddr (fill f TE) = fr_addr f) as Ep by apply taddr_fill. rw -Ep. iApply IH.
    + simpl in Hf. lia.
    + by destruct f as [[] ? ? ? ? ?].
    + rw Hr. cbn [tplug]; apply root_of_plug; [by destruct f as [[] ? ? ? ? ?]|]. intros _. by rw !taddr_fill.
    + rw Ep. iFrame "Hks Hp".
      destruct d as [en|]; [done|]. destruct l, mid, r; done.
  - tret. iSplit; [iPureIntro; destruct tb; simpl in *; by rw Hr|]. rw plug_at taddr_fill. cbn [ctx_at].
    iDestruct "Hk" as "[Hk Hks]". iFrame "Hks". rw fill_at. cbn [tst_at taddr]. iFrame.
Qed.

Lemma remove_eow_node_spec tb k a c en l mid r :
  tst_root tb = taddr (tplug k (TT a c (Some en) l mid r)) ->
  ctx_at k a ∗ tst_at (top k) (TT a c (Some en) l mid r)
  ⊢ hwp (remove_eow_node tb a)
      (λ tb', ⌜tb' = set_tst_root (taddr (tprune k (TT a c None l mid r))) tb⌝ ∧
        tst_at NULL (tprune k (TT a c None l mid r)) ∗ lost 1).
Proof.
  iIntros (Hr) "[Hk Hu]". cbn [tst_at]. iDestruct "Hu" as "(Ha & Hd & Hu)". unfold remove_eow_node. tfield "Ha".
  iDestruct (daddr_null with "Hd") as "[%Hd Hd]". rw Hd. tupdate "Ha". tfield "Ha".
  iDestruct (lost_entry with "Hd") as "Hd". set (u := TT a c None l mid r).
  iAssert (tst_at NULL (tplug k u)) with "[Hk Ha Hu]" as "H"; [rw plug_at; simpl; iFrame|].
  iApply tst_fuel_spec. iFrame "H". iIntros (n Hn) "H". rw tnodes_plug in Hn. pose proof (knodes_length k). rw plug_at.
  iApply hwp_wand. iSplitL "H"; [iApply (prune_loop_spec k n tb u with "H"); [lia|done|]|].
  - rw Hr. by apply root_of_plug.
  - iIntros (tb') "[-> H]". iSplit; [done|]. iFrame.
Qed.

Definition removed tb m key (r : cc_stat * option Z * tsttable) : hpropI tcell :=
  (⌜r.1 = get_reply m (chars_at key)⌝ ∧ tst_table_at r.2 (delete (chars_at key) m) ∗
   lost (if decide (is_Some (m !! chars_at key)) then 1 else 0)%nat)%I.

(** The entry of the key is left behind. *)
Lemma tst_remove_spec tb m key :
  chars_at key <> [] -> Z.of_nat (card m) < 2 ^ 32 ->
  tst_table_at tb m ⊢ hwp (cc_tsttable_remove tb key) (removed tb m key).
Proof using HL HK.
  iIntros (Hs Hb) "H". unfold cc_tsttable_remove. iApply (find_entry_spec tb m key); [done|]. iFrame "H".
  iIntros ([[node data]|]) "H".
  - iDestruct (entry_value with "H") as (e v) "(%Hv & Hd & H)". destruct Hv as [Hv Hm]. efield "Hd". rw Hv.
    iDestruct ("H" with "Hd") as (t k a c en l mid r rem) "(%H & H)". destruct H as (Hr & Hz & Ht & E & _ & -> & ->).
    pose proof (tfind_plug t (chars_at key)) as Hp. rw E in Hp.
    iApply hwp_call. iSplitL; [iApply (remove_eow_node_spec with "H"); by rw Hp|]. iIntros (tb') "[-> [H Hl]]". tret.
    iSplit; [iPureIntro; simpl; unfold get_reply; by rw Hm|]. rw decide_True; [|by rw Hm]. iFrame "Hl".
    iExists _. iSplit; [|done]. iPureIntro. split; [done|]. split; [|by eapply represents_delete].
    assert (card m <> 0)%nat by (intros E0%map_size_empty_inv; subst m; done).
    simpl. rw map_size_delete Hm Hz (proj2 (Z.ltb_lt _ _)); [|lia]. rw wrap_id; unfold fits; lia.
  - iDestruct "H" as "[%Hm H]". tret. iSplit; [iPureIntro; simpl; unfold get_reply; by rw Hm|].
    rw decide_False; [|rw Hm; by intros [? ?]]. rw delete_id; [|done]. iFrame "H". iApply lost_none.
Qed.

(** ** Removing everything *)

(** The turns left: each turn goes down one node or frees one. *)
Definition turns k u : nat := 2 * (knodes k + tnodes u) - length k.
Definition entries_in k u : nat := kcount k + tcount u.

Lemma turns_down f k u : is_te u = false -> (turns (f :: k) u < turns k (fill f u))%nat.
Proof. intros Hu. pose proof (knodes_length k). unfold turns. destruct f as [[] a c d t1 t2], u; try done; simpl; lia. Qed.
Lemma turns_up f k u : is_te u = false -> (turns k (fill f TE) < turns (f :: k) u)%nat.
Proof. intros Hu. pose proof (knodes_length k). unfold turns. destruct f as [[] a c d t1 t2], u; try done; simpl; lia. Qed.
Lemma entries_fill f k u : entries_in k (fill f u) = entries_in (f :: k) u.
Proof. unfold entries_in. destruct f as [[] a c d t1 t2]; simpl; lia. Qed.

Definition all_removed (size : Z) k u (r : Z) : hpropI tcell :=
  (⌜r = size - Z.of_nat (entries_in k u)⌝ ∧ lost (entries_in k u))%I.

(** A node that has been freed counts with its entry. *)
Lemma size_after d size n :
  Z.of_nat (has_entry d + n) <= size < 2 ^ 32 ->
  Z.of_nat n <= (match d with Some _ => u32 (size - 1) | None => size end) < 2 ^ 32 /\
  (match d with Some _ => u32 (size - 1) | None => size end) - Z.of_nat n = size - Z.of_nat (has_entry d + n).
Proof. intros H. destruct d; simpl in *; [|lia]. rw wrap_id; unfold fits; lia. Qed.

Lemma remove_all_loop_spec fuel : forall size k u,
  (turns k u < fuel)%nat -> is_te u = false -> Z.of_nat (entries_in k u) <= size < 2 ^ 32 ->
  ctx_at k (taddr u) ∗ tst_at (top k) u ⊢ hwp (remove_all_loop fuel size (taddr u)) (all_removed size k u).
Proof.
  induction fuel as [|fuel IH]; intros size k u Hf Hu Hz; [lia|]. destruct u as [|a c d l mid r]; [done|].
  assert (forall f u', fill f u' = TT a c d l mid r -> is_te u' = false ->
    ctx_at k a ∗ frame_at f (taddr u') (top k) ∗ tst_at (fr_addr f) u'
    ⊢ hwp (remove_all_loop fuel size (taddr u')) (all_removed size k (TT a c d l mid r))) as Hdown.
  { iIntros (f u' E Hu') "(Hk & Hf & Hu)". assert (fr_addr f = a) as Ea by (by rw -(taddr_fill f u') E).
    rw -E in Hf Hz |- *. unfold all_removed. rw entries_fill. iApply IH; [|done| |].
    - pose proof (turns_down f k u' Hu'). lia.
    - by rw -entries_fill.
    - cbn [ctx_at top]. rw Ea. iFrame. }
  iIntros "[Hk Hu]". cbn [remove_all_loop]. iDestruct (taddr_null with "Hu") as "[%Hn Hu]". rw Hn. cbn [is_te taddr tst_at].
  iDestruct "Hu" as "(Ha & Hd & Hl & Hm & Hr)". tfield "Ha". tfield "Ha". tfield "Ha". tfield "Ha".
  iDestruct (taddr_null with "Hl") as "[%Nl Hl]". iDestruct (taddr_null with "Hm") as "[%Nm Hm]".
  iDestruct (taddr_null with "Hr") as "[%Nr Hr]". rw Nl Nm Nr.
  destruct l as [|a1 c1 d1 l1 m1 r1]; cbn [is_te andb negb].
  2: { iApply (Hdown (Frame SideL a c d mid r)); [done|done|]. unfold frame_at. cbn [fr_addr fr_data fr_1 fr_2 fcell]. iFrame. }
  destruct mid as [|a1 c1 d1 l1 m1 r1]; cbn [is_te andb negb].
  2: { rw andb_false_r. iApply (Hdown (Frame SideM a c d TE r)); [done|done|].
       unfold frame_at. cbn [fr_addr fr_data fr_1 fr_2 fcell]. iFrame. }
  destruct r as [|a1 c1 d1 l1 m1 r1]; cbn [is_te andb negb].
  2: { iApply (Hdown (Frame SideR a c d TE TE)); [done|done|]. unfold frame_at. cbn [fr_addr fr_data fr_1 fr_2 fcell]. iFrame. }
  iDestruct (daddr_null with "Hd") as "[%Nd Hd]".
  destruct k as [|f k]; cbn [top ctx_at].
  - rw Z.eqb_refl. tskip. tfield "Ha". rw Nd.
    iApply hwp_bind. iApply hwp_free. iFrame "Ha". destruct fuel; [unfold turns in Hf; simpl in Hf; lia|].
    cbn [remove_all_loop]. rw Z.eqb_refl. tret. unfold all_removed, entries_in in *. simpl in Hz |- *.
    assert (has_entry d + 0 + 0 + 0 = has_entry d + 0)%nat as E by lia. rw E in Hz |- *.
    destruct (size_after d size 0 Hz) as [_ <-]. iSplit; [iPureIntro; destruct d; lia|]. rw Nat.add_0_r. by iApply lost_entry.
  - iDestruct "Hk" as "[Hk Hks]". iDestruct (frame_null with "Hk") as "[%Ef Hk]". rw Ef.
    iApply (unhook_spec _ f a); [apply list_elem_of_further, list_elem_of_here|]. iFrame "Hk Ha". iIntros "Hp Ha". tfield "Ha". rw Nd.
    iApply hwp_bind. iApply hwp_free. iFrame "Ha". iDestruct (lost_entry with "Hd") as "Hd".
    assert (entries_in (f :: k) (TT a c d TE TE TE) = has_entry d + entries_in k (fill f TE))%nat as E.
    { rw entries_fill. unfold entries_in. simpl. lia. }
    unfold all_removed. rw E in Hz |- *. destruct (size_after d size _ Hz) as [Hz' <-].
    pose proof (turns_up f k (TT a c d TE TE TE) eq_refl).
    assert (fr_addr f = taddr (fill f TE)) as -> by (by rw taddr_fill). iApply hwp_wand.
    iSplitL "Hks Hp"; [iApply (IH _ k (fill f TE)); [lia|by destruct f as [[] ? ? ? ? ?]| |]|].
    + by destruct d.
    + iFrame.
    + iIntros (x) "[-> Hx]". iSplit; [iPureIntro; by destruct d|]. iApply lost_add. iFrame.
Qed.

Lemma empty_table : ⊢ tst_table_at (mk_tst 0 NULL) ∅.
Proof.
  iExists TE. iSplit; [|done]. iPureIntro. split_and!; [done|done|]. apply represents_empty.
Qed.

(** Every entry is left behind. *)
Lemma tst_remove_all_spec tb m :
  Z.of_nat (card m) < 2 ^ 32 ->
  tst_table_at tb m ⊢ hwp (cc_tsttable_remove_all tb) (λ tb', ⌜tb' = mk_tst 0 NULL⌝ ∧ lost (card m)).
Proof.
  iIntros (Hb) "(%t & %Ht & H)". destruct Ht as (Hr & Hz & Hl & Hm & _ & Hc). unfold cc_tsttable_remove_all.
  iApply tst_fuel_spec. iFrame "H". iIntros (n Hn) "H".
  iApply (hwp_call _ _ (λ r, ⌜r = 0⌝ ∧ lost (card m)))%I. iSplitL.
  - rw Hr Hz -Hc. destruct t as [|a c d l mid r].
    + destruct n as [|n]; [lia|]. cbn [remove_all_loop taddr]. rw Z.eqb_refl. tret. iSplit; [done|]. simpl. iApply lost_none.
    + iApply hwp_wand. iSplitL; [iApply (remove_all_loop_spec n _ [] with "[H]"); [|done| |by iFrame]|].
      * unfold turns. simpl in *. lia.
      * unfold entries_in. cbn [kcount]. lia.
      * iIntros (x) "[-> Hl]". unfold entries_in. cbn [kcount]. iSplit; [iPureIntro; lia|done].
  - iIntros (x) "[-> Hl]". tret. by iFrame.
Qed.

Lemma tst_destroy_spec tb m :
  Z.of_nat (card m) < 2 ^ 32 -> tst_table_at tb m ⊢ hwp (cc_tsttable_destroy tb) (λ _, lost (card m)).
Proof.
  iIntros (Hb) "H". unfold cc_tsttable_destroy. iApply hwp_call. iSplitL; [by iApply (tst_remove_all_spec with "H")|].
  iIntros (tb') "[_ Hl]". tret. done.
Qed.

Lemma tst_new_spec :
  ⊢ hwp cc_tsttable_new (λ r, (⌜r.1 = CC_OK⌝ ∧ ∃ tb, ⌜r.2 = Some tb⌝ ∧ tst_table_at tb ∅) ∨ ⌜r = (CC_ERR_ALLOC, None)⌝).
Proof.
  unfold cc_tsttable_new, cc_tsttable_new_conf. iApply hwp_bind. iApply hwp_gets. iIntros ([]); tret; [|by iRight].
  iLeft. iSplit; [done|]. iExists _. iSplit; [done|]. iApply empty_table.
Qed.
End Remove.
