(* ===== verification/CcTstProps.v ===== *)
(** * What the ternary search table promises

    Sequences of calls against a finite map from strings to values, and what
    they leave behind; where the code goes wrong on concrete tables. *)

From iris.proofmode Require Import proofmode.
From S2P Require Import Prelude CMem CState CHeap HeapLogic CcArray CcSlist CcTst TstTree CcTstFacts CcTstOps CcTstRemove.

Inductive tst_call := SAdd (key val : Z) | SGet (key : Z) | SContains (key : Z) | SRemove (key : Z) | SRemoveAll | SSize.

(** A status and a value, or a number. *)
Inductive tst_reply := SStat (st : cc_stat) (out : option Z) | SNum (n : Z).

Local Abbreviation card := stdpp.base.size.

Section Spec.
Context `{HE : !TstEnv}.
Implicit Types m : gmap (list Z) Z.

(** The key of a call. *)
Definition call_key (op : tst_call) : option Z :=
  match op with SAdd key _ | SGet key | SContains key | SRemove key => Some key | SRemoveAll | SSize => None end.
Definition keyed (op : tst_call) : Prop := match call_key op with Some key => chars_at key <> [] | None => True end.

(** The reply, the map after the call, and the cells left behind. *)
Definition tst_spec (op : tst_call) m : tst_reply * gmap (list Z) Z * nat :=
  match op with
  | SAdd key val => (SStat CC_OK None, <[chars_at key := val]> m, 0%nat)
  | SGet key => (SStat (get_reply m (chars_at key)).1 (get_reply m (chars_at key)).2, m, 0%nat)
  | SContains key => (SNum (Z.b2z (bool_decide (is_Some (m !! chars_at key)))), m, 0%nat)
  | SRemove key =>
      (SStat (get_reply m (chars_at key)).1 (get_reply m (chars_at key)).2, delete (chars_at key) m,
       if decide (is_Some (m !! chars_at key)) then 1%nat else 0%nat)
  | SRemoveAll => (SStat CC_OK None, ∅, card m)
  | SSize => (SNum (Z.of_nat (card m)), m, 0%nat)
  end.

(** An addition of a new key may run out of memory, and then leaves up to a
    node for each character behind. *)
Definition sstep (op : tst_call) m (r : tst_reply) m' (n : nat) : Prop :=
  tst_spec op m = (r, m', n) \/
  exists key val, op = SAdd key val /\ m !! chars_at key = None /\ r = SStat CC_ERR_ALLOC None /\ m' = m /\
    (n <= length (chars_at key))%nat.

Inductive ssteps : list tst_call -> gmap (list Z) Z -> list tst_reply -> gmap (list Z) Z -> nat -> Prop :=
  | ssteps_nil m : ssteps [] m [] m 0
  | ssteps_cons op ops m r m' n rs m'' n' :
      sstep op m r m' n -> ssteps ops m' rs m'' n' -> ssteps (op :: ops) m (r :: rs) m'' (n + n').
End Spec.

Section Props.
Context `{HA : !NodeAlloc tcell} `{HE : !TstEnv} `{HL : !NodeAllocLaws tcell} `{HK : !CharLaws}.
Implicit Types (tb : tsttable) (m : gmap (list Z) Z).
Local Abbreviation TM := (M (heap tcell)).

Definition tst_do (op : tst_call) tb : TM (tst_reply * tsttable) :=
  match op with
  | SAdd key val => r ← cc_tsttable_add tb key val; mret (SStat r.1 None, r.2)
  | SGet key => r ← cc_tsttable_get tb key; mret (SStat r.1 r.2, tb)
  | SContains key => b ← cc_tsttable_contains_key tb key; mret (SNum (Z.b2z b), tb)
  | SRemove key => r ← cc_tsttable_remove tb key; mret (SStat r.1.1 r.1.2, r.2)
  | SRemoveAll => tb ← cc_tsttable_remove_all tb; mret (SStat CC_OK None, tb)
  | SSize => mret (SNum (cc_tsttable_size tb), tb)
  end.

Fixpoint tst_run (ops : list tst_call) tb : TM (list tst_reply * tsttable) :=
  match ops with
  | [] => mret ([], tb)
  | op :: ops => r ← tst_do op tb; rs ← tst_run ops r.2; mret (r.1 :: rs.1, rs.2)
  end.

(** ** One call *)

Definition did op m (r : tst_reply * tsttable) : hpropI tcell :=
  (∃ m' n, ⌜sstep op m r.1 m' n /\ (card m' <= card m + 1)%nat⌝ ∧ tst_table_at r.2 m' ∗ lost n)%I.

Lemma did_spec op m r tb m' n :
  tst_spec op m = (r, m', n) -> (card m' <= card m + 1)%nat -> tst_table_at tb m' ∗ lost n ⊢ did op m (r, tb).
Proof. iIntros (H1 H2) "H". iExists m', n. iSplit; [|done]. iPureIntro. split; [by left|done]. Qed.

Lemma did_same op m r tb : tst_spec op m = (r, m, 0%nat) -> tst_table_at tb m ⊢ did op m (r, tb).
Proof. iIntros (H) "H". iApply did_spec; [done|lia|]. iFrame "H". iApply lost_none. Qed.

Lemma card_insert_le m s (v : Z) : (card (<[s := v]> m) <= card m + 1)%nat.
Proof. rw map_size_insert. destruct (m !! s); simpl; lia. Qed.
Lemma card_delete_le m s : (card (delete s m) <= card m)%nat.
Proof. rw map_size_delete. destruct (m !! s); simpl; lia. Qed.

Lemma tst_do_spec op tb m :
  keyed op -> Z.of_nat (card m) + 1 < 2 ^ 32 -> tst_table_at tb m ⊢ hwp (tst_do op tb) (did op m).
Proof using HL HK.
  intros Hk Hb. destruct op as [key val|key|key|key| |]; cbn [tst_do]; unfold keyed in Hk; simpl in Hk; iIntros "H".
  - iApply hwp_call. iSplitL; [by iApply (tst_add_spec with "H")|]. iIntros ([st tb']) "[[%Hr H]|[%Hr [H Hl]]]"; tret.
    + simpl in Hr. subst st. iApply did_spec; [done|apply card_insert_le|]. iFrame "H". iApply lost_none.
    + destruct Hr as [Hr Hm]. injection Hr as -> ->. iDestruct "Hl" as (n Hn) "Hl". iExists m, n.
      iSplit; [iPureIntro; split; [right; by exists key, val|lia]|iFrame].
  - iApply hwp_call. iSplitL; [by iApply (tst_get_spec with "H")|]. iIntros (r) "[-> H]". tret. by iApply did_same.
  - iApply hwp_call. iSplitL; [by iApply (tst_contains_spec with "H")|]. iIntros (r) "[-> H]". tret. by iApply did_same.
  - iApply hwp_call. iSplitL; [iApply (tst_remove_spec with "H"); [done|lia]|]. iIntros (r) "[%Hr H]". tret. rw Hr.
    iApply did_spec; [done| |done]. pose proof (card_delete_le m (chars_at key)). lia.
  - iApply hwp_call. iSplitL; [iApply (tst_remove_all_spec with "H"); lia|]. iIntros (r) "[-> H]". tret.
    iApply did_spec; [done|rw map_size_empty; lia|]. iFrame "H". iApply empty_table.
  - tret. iDestruct "H" as (t) "[%Ht H]". pose proof Ht as (_ & Hz & _). unfold cc_tsttable_size. rw Hz.
    iApply did_same; [done|]. iExists t. by iFrame.
Qed.

(** ** Sequences of calls *)

Lemma tst_run_spec ops : forall tb m,
  Forall keyed ops -> Z.of_nat (card m) + zlen ops < 2 ^ 32 ->
  tst_table_at tb m ⊢ hwp (tst_run ops tb) (λ r, ∃ m' n, ⌜ssteps ops m r.1 m' n⌝ ∧ tst_table_at r.2 m' ∗ lost n).
Proof using HL HK.
  induction ops as [|op ops IH]; intros tb m Hk Hb; iIntros "H"; cbn [tst_run].
  - tret. iExists m, 0%nat. iSplit; [iPureIntro; constructor|]. iFrame "H". iApply lost_none.
  - simpl in Hb. apply Forall_cons_1 in Hk as [Hk Hks]. iApply hwp_call. iSplitL; [iApply (tst_do_spec with "H"); [done|lia]|].
    iIntros (r) "(%m1 & %n1 & %H1 & H & Hl)". destruct H1 as [H1 H2].
    iApply hwp_call. iSplitL "H"; [iApply (IH with "H"); [done|lia]|].
    iIntros (rs) "(%m2 & %n2 & %H3 & H & Hl2)". tret. iExists m2, (n1 + n2)%nat.
    iSplit; [iPureIntro; by econstructor|]. iFrame "H". iApply lost_add. iFrame.
Qed.

(** The part [h] of the heap holds exactly the nodes and entries of a table
    that stands for [m]. *)
Definition tst_holds tb m (h : heap tcell) : Prop := hprop_at (tst_table_at tb m) h.

(** The table uses an entry for each key and at most a node for each character. *)
Lemma tst_holds_size tb m h : tst_holds tb m h -> tst_size tb = Z.of_nat (card m).
Proof. by intros (t & (_ & Hz & _) & _). Qed.

(** The allocator refuses a block at some point. *)
Definition block_refused : Prop := exists H : heap tcell, calloc_at H = NULL.

Lemma null_refused (m : TM Z) (g : heap tcell -> tcell) H a H' :
  m = (fun h => if calloc_at h =? NULL then Done NULL h else Done (calloc_at h) (<[calloc_at h := g h]> h)) ->
  m H = Done a H' -> (a =? NULL) = true -> block_refused.
Proof.
  intros -> Hm Ha. apply Z.eqb_eq in Ha. exists H. destruct (Z.eqb_spec (calloc_at H) NULL) as [E|E]; [done|].
  injection Hm as <- _. congruence.
Qed.

Lemma mid_chain_refused s : forall a H r H', mid_chain s a H = Done r H' -> r.1 <> CC_OK -> block_refused.
Proof.
  induction s as [|c s IH]; intros a H r H'; cbn [mid_chain]; [by intros [= <- _]|].
  intros (x & h1 & Hx & Hr)%bind_done. apply bind_done in Hr as (? & ? & _ & Hr).
  destruct (x =? NULL) eqn:E; [by intros _; eapply (null_refused _ (fun _ => zero_node))|].
  do 2 apply bind_done in Hr as (? & ? & _ & Hr). by eapply IH.
Qed.

Lemma branch_refused s H r H' : make_mid_subtree s H = Done r H' -> r.1.1 <> CC_OK -> block_refused.
Proof.
  unfold make_mid_subtree. intros (x & h1 & Hx & Hr)%bind_done.
  destruct (x =? NULL) eqn:E; [by intros _; eapply (null_refused _ (fun _ => zero_node))|].
  apply bind_done in Hr as (? & ? & _ & Hr). apply bind_done in Hr as (q & ? & Hq & [= <- _]).
  cbn [fst]. by eapply mid_chain_refused.
Qed.

Lemma tst_add_refused tb key val H r H' : cc_tsttable_add tb key val H = Done r H' -> r.1 = CC_ERR_ALLOC -> block_refused.
Proof.
  unfold cc_tsttable_add. intros ([[x y] z] & h1 & _ & Hr)%bind_done. apply bind_done in Hr as (n & h2 & _ & Hr).
  destruct (n =? NULL); cbn [negb] in Hr; [|apply bind_done in Hr as (e & h3 & _ & Hr); destruct (e =? NULL)].
  - apply bind_done in Hr as ([[st b] e] & h3 & Hb & Hr). destruct st; cbn [is_ok negb] in Hr;
      try (intros _; by eapply branch_refused).
    apply bind_done in Hr as (? & ? & _ & Hr). apply bind_done in Hr as (d & ? & Hd & Hr).
    apply bind_done in Hr as (? & ? & _ & Hr).
    destruct (d =? NULL) eqn:E; [by intros _; eapply (null_refused _ tcell_uninit)|].
    do 2 apply bind_done in Hr as (? & ? & _ & Hr). by injection Hr as <- _.
  - apply bind_done in Hr as (d & ? & Hd & Hr). apply bind_done in Hr as (? & ? & _ & Hr).
    destruct (d =? NULL) eqn:E; [by intros _; eapply (null_refused _ tcell_uninit)|].
    apply bind_done in Hr as (? & ? & _ & Hr). by injection Hr as <- _.
  - apply bind_done in Hr as (? & ? & _ & Hr). by injection Hr as <- _.
Qed.

Lemma tst_run_refused ops : forall tb m H rs tb' H' m' n,
  tst_run ops tb H = Done (rs, tb') H' -> ssteps ops m rs m' n -> SStat CC_ERR_ALLOC None ∈ rs -> block_refused.
Proof.
  induction ops as [|op ops IH]; intros tb m H rs tb' H' m' n Hr Hs; inversion Hs as [|? ? ? r m1 n1 rs1 ? n2 Hs1 Hs2]; subst;
    [by intros ?%not_elem_of_nil|].
  cbn [tst_run] in Hr. apply bind_done in Hr as ([q tb1] & h1 & Hd & Hr). apply bind_done in Hr as ([rs2 tb2] & h2 & Hr2 & Hr).
  injection Hr as -> -> _ _. intros [E|Hin]%elem_of_cons; [|by eapply IH]. subst r. simpl in *.
  destruct Hs1 as [Hs1|(key & val & -> & _)].
  - unfold tst_spec, get_reply in Hs1. destruct op; cbn in Hs1; try done; by destruct (m !! _).
  - cbn [tst_do] in Hd. apply bind_done in Hd as (x & ? & Ha & [= Hx _]). by eapply tst_add_refused.
Qed.

(** C25. The ternary search table implements a finite map from strings to values.
    Whatever the rest [hf] of the heap is and however characters are compared,
    as long as the comparison tells them apart, every sequence of calls with
    keys that are not empty returns, without an access through a null or
    dangling pointer, a double free or a change to [hf].  Each call replies
    what the map says, or reports for a new key that memory ran out, which it
    only does if the allocator refused a block, and changes nothing.
    Afterwards the heap holds exactly a well-formed table of the new map and
    [n] cells that nothing points to, where each removed entry counts one and a
    failed addition at most one for each character of its key.  The empty key
    is left out: it is stored over another ([empty_key_overwrites]). *)
Theorem tst_refines_map ops tb m h hf :
  tst_holds tb m h -> h ##ₘ hf -> Forall keyed ops -> Z.of_nat (card m) + zlen ops < 2 ^ 32 ->
  exists rs tb' m' n h' g, tst_run ops tb (h ∪ hf) = Done (rs, tb') (h' ∪ g ∪ hf) /\ h' ∪ g ##ₘ hf /\ h' ##ₘ g /\
    ssteps ops m rs m' n /\ tst_holds tb' m' h' /\ card g = n /\ tst_size tb' = Z.of_nat (card m') /\
    (SStat CC_ERR_ALLOC None ∈ rs -> block_refused).
Proof using HL HK.
  intros Hh Hd Hk Hb.
  destruct (hwp_run _ _ _ _ _ (tst_run_spec ops tb m Hk Hb) Hh Hd) as ([rs tb'] & h' & Hr & Hd' & m' & n & Hs & Hx).
  destruct Hx as (h1 & h2 & -> & D & H1 & H2). exists rs, tb', m', n, h1, h2. split_and!; [done..| |].
  - by eapply tst_holds_size.
  - exact (tst_run_refused _ _ _ _ _ _ _ _ _ Hr Hs).
Qed.

End Props.

(** ** Runs *)

Definition tst_cells : NodeAlloc tcell := cell_alloc [8; 16; 24; 32; 40; 48; 56; 64; 72; 80].
(** The keys 1 to 5 are a, ab, abc, b and db; all others are empty. *)
Definition few_keys : TstEnv := {|
  chars_at key := nth (Z.to_nat (key - 1)) [[97]; [97; 98]; [97; 98; 99]; [98]; [100; 98]] [];
  char_cmp := default_char_cmp;
  entry_garbage := fun _ => mk_te 7 7 |}.

Lemma few_keys_laws : CharLaws (HE := few_keys).
Proof. intros x y. unfold char_cmp, few_keys, default_char_cmp. lia. Qed.

Lemma no_keys_hold : tst_holds (HE := few_keys) (mk_tst 0 NULL) ∅ ∅.
Proof. by apply (entails_at _ _ (empty_table (HE := few_keys))). Qed.

Definition tst_demo : list tst_call :=
  [SAdd 2 20; SAdd 3 30; SAdd 4 40; SAdd 2 21; SGet 1; SGet 2; SContains 3; SRemove 2; SGet 3; SSize; SRemove 5; SRemoveAll; SSize].

(** The replies of the run: 2 entries of the cells it leaves stay behind after
    the last call, 1 after the removal. *)
Example tst_demo_runs :
  exists h, tst_run (HA := tst_cells) (HE := few_keys) tst_demo (mk_tst 0 NULL) ∅
  = Done ([SStat CC_OK None; SStat CC_OK None; SStat CC_OK None; SStat CC_OK None; SStat CC_ERR_KEY_NOT_FOUND None;
           SStat CC_OK (Some 21); SNum 1; SStat CC_OK (Some 21); SStat CC_OK (Some 30); SNum 2;
           SStat CC_ERR_KEY_NOT_FOUND None; SStat CC_OK None; SNum 0], mk_tst 0 NULL) h /\ card h = 3%nat.
Proof. eexists. split; vm_compute; reflexivity. Qed.

Lemma tst_refines_map_witness :
  exists rs tb' m' n h' g, tst_run (HA := tst_cells) (HE := few_keys) tst_demo (mk_tst 0 NULL) (∅ ∪ {[999 := TEntry (mk_te 1 1)]})
      = Done (rs, tb') (h' ∪ g ∪ {[999 := TEntry (mk_te 1 1)]}) /\ h' ∪ g ##ₘ {[999 := TEntry (mk_te 1 1)]} /\ h' ##ₘ g /\
    ssteps (HE := few_keys) tst_demo ∅ rs m' n /\ tst_holds (HE := few_keys) tb' m' h' /\ card g = n /\
    tst_size tb' = Z.of_nat (card m') /\ (SStat CC_ERR_ALLOC None ∈ rs -> block_refused (HA := tst_cells)).
Proof.
  apply (tst_refines_map (HA := tst_cells) (HE := few_keys) (HL := cell_alloc_laws _) (HK := few_keys_laws)).
  - apply no_keys_hold.
  - apply map_disjoint_empty_l.
  - repeat constructor; discriminate.
  - rw map_size_empty. vm_compute. reflexivity.
Defined.

(** ** Where the code goes wrong *)

(** An entry is never freed: after an addition and the removal of the key the
    block is still there, and so it is after [cc_tsttable_destroy]. *)
Lemma entry_not_freed :
  (exists h, tst_run (HA := tst_cells) (HE := few_keys) [SAdd 1 10; SRemove 1] (mk_tst 0 NULL) ∅
     = Done ([SStat CC_OK None; SStat CC_OK (Some 10)], mk_tst 0 NULL) h /\ h = {[16 := TEntry (mk_te 1 10)]}) /\
  (exists h, (r ← cc_tsttable_add (HA := tst_cells) (HE := few_keys) (mk_tst 0 NULL) 1 10; cc_tsttable_destroy r.2) ∅ = Done tt h /\
     h = {[16 := TEntry (mk_te 1 10)]}).
Proof. split; (eexists; split; [vm_compute; reflexivity|]); apply map_eq; intros i; by vm_compute. Qed.

(** With memory for a node and not for its entry, the node is left behind. *)
Lemma failed_add_leaks :
  exists h, cc_tsttable_add (HA := cell_alloc [8]) (HE := few_keys) (mk_tst 0 NULL) 1 10 ∅ = Done (CC_ERR_ALLOC, mk_tst 0 NULL) h /\
    h = {[8 := TNode (mk_tn 97 NULL NULL NULL NULL NULL)]}.
Proof. eexists. split; [vm_compute; reflexivity|]. apply map_eq; intros i; by vm_compute. Qed.

(** The empty key is taken for the key that ends at the root: adding it
    replaces the entry of another key. *)
Lemma empty_key_overwrites :
  exists tb h, (r ← cc_tsttable_add (HA := tst_cells) (HE := few_keys) (mk_tst 0 NULL) 1 10;
                r ← cc_tsttable_add (HA := tst_cells) (HE := few_keys) r.2 0 99;
                v ← cc_tsttable_get (HE := few_keys) r.2 1; mret (r.1, v, r.2)) ∅
    = Done (CC_OK, (CC_OK, Some 99), tb) h /\ tst_size tb = 1.
Proof. do 2 eexists. split; vm_compute; reflexivity. Qed.
