(* ===== verification/CcTstIter.v ===== *)
(** * Walking over the ternary search table

    The iterator arrives at a node from its parent and again from each of its
    children; [arrivals] lists the entries of the nodes in that order.  The
    last arrival is the end of the walk, so its entry is not returned. *)

From iris.proofmode Require Import proofmode.
From S2P Require Import Prelude CMem CState CHeap HeapLogic CcArray CcSlist CcTst TstTree CcTstFacts CcTstOps CcTstRemove CcTstProps.

(** ** Walks on trees *)

Definition child (sd : tside) (t : tst) : tst :=
  match t, sd with
  | TE, _ => TE
  | TT _ _ _ l _ _, SideL => l | TT _ _ _ _ m _, SideM => m | TT _ _ _ _ _ r, SideR => r
  end.
Definition around (sd : tside) (t : tst) : tframe :=
  match t, sd with
  | TE, _ => Frame sd NULL 0 None TE TE
  | TT a c d l m r, SideL => Frame SideL a c d m r
  | TT a c d l m r, SideM => Frame SideM a c d l r
  | TT a c d l m r, SideR => Frame SideR a c d l m
  end.
Definition data_of (t : tst) : option tentry := match t with TT _ _ d _ _ _ => d | TE => None end.

(** From a node entered from [from]: the children still to visit. *)
Definition to_visit (from : option tside) : list tside :=
  match from with None => [SideL; SideM; SideR] | Some SideL => [SideM; SideR] | Some SideM => [SideR] | Some SideR => [] end.

Definition comeback (d : option tentry) (t : tst) : list (option tentry) := if is_te t then [] else [d].
Fixpoint tour (t : tst) : list (option tentry) :=
  match t with
  | TE => []
  | TT _ _ d l m r => d :: (tour l ++ comeback d l) ++ (tour m ++ comeback d m) ++ (tour r ++ comeback d r)
  end.

(** The walk at a node: the frames around it, the node, and where it was entered from. *)
Record tpos := TPos { tp_ctx : list tframe; tp_tree : tst; tp_from : option tside }.
Implicit Types (P Q : tpos).

Definition here (u : tst) (from : option tside) : list (option tentry) :=
  data_of u :: concat (map (fun sd => tour (child sd u) ++ comeback (data_of u) (child sd u)) (to_visit from)).
Fixpoint upward (k : list tframe) : list (option tentry) :=
  match k with [] => [] | f :: k => here (fill f TE) (Some (fr_side f)) ++ upward k end.
Definition arrivals P : list (option tentry) := here (tp_tree P) (tp_from P) ++ upward (tp_ctx P).

(** What the iterator returns from there on. *)
Definition returned P : list tentry := omap id (removelast (arrivals P)).

Definition pos_ok P : Prop :=
  is_te (tp_tree P) = false /\ match tp_from P with Some sd => is_te (child sd (tp_tree P)) = false | None => True end.
Definition pos_whole P : tst := tplug (tp_ctx P) (tp_tree P).

Fixpoint first_child (sds : list tside) (u : tst) : option tside :=
  match sds with [] => None | sd :: sds => if is_te (child sd u) then first_child sds u else Some sd end.

Definition move P : option tpos :=
  match first_child (to_visit (tp_from P)) (tp_tree P), tp_ctx P with
  | Some sd, k => Some (TPos (around sd (tp_tree P) :: k) (child sd (tp_tree P)) None)
  | None, f :: k => Some (TPos k (fill f (tp_tree P)) (Some (fr_side f)))
  | None, [] => None
  end.

Lemma fill_around sd u : is_te u = false -> fill (around sd u) (child sd u) = u.
Proof. by destruct u, sd. Qed.

Lemma here_enter u : is_te u = false -> here u None = tour u.
Proof. destruct u as [|a c d l m r]; [done|]. intros _. unfold here. cbn [data_of to_visit map concat child tour]. by rw app_nil_r. Qed.

(** The sibling that fills the hole does not matter to what comes after it. *)
Lemma here_fill f u : here (fill f u) (Some (fr_side f)) = here (fill f TE) (Some (fr_side f)).
Proof. by destruct f as [[] a c d t1 t2]. Qed.

Lemma next_child u from :
  is_te u = false ->
  match first_child (to_visit from) u with
  | Some sd => is_te (child sd u) = false /\ here u from = data_of u :: tour (child sd u) ++ here u (Some sd)
  | None => here u from = [data_of u]
  end.
Proof.
  assert (forall d x, is_te x = true -> tour x ++ comeback d x = []) as H1 by (by intros d []).
  assert (forall d x, is_te x = false -> tour x ++ comeback d x = tour x ++ [d]) as H2 by (by intros d []).
  destruct u as [|a c d l m r]; [done|]. intros _. unfold here.
  cbn [data_of]. destruct from as [[]|]; cbn [to_visit first_child child map concat];
    destruct (is_te l) eqn:El, (is_te m) eqn:Em, (is_te r) eqn:Er; cbn [to_visit child map concat];
    repeat match goal with |- context [comeback d ?x] => first [rewrite (H1 d x); [|assumption] | rewrite (H2 d x); [|assumption]] end;
    rw ?app_nil_r -?app_assoc; done.
Qed.

Lemma move_spec P :
  pos_ok P ->
  match move P with
  | Some P' => pos_ok P' /\ pos_whole P' = pos_whole P /\ arrivals P = data_of (tp_tree P) :: arrivals P'
  | None => arrivals P = [data_of (tp_tree P)]
  end.
Proof.
  destruct P as [k u from]. intros [Hu Hf]. simpl in Hu, Hf. unfold move, arrivals. cbn [tp_ctx tp_tree tp_from].
  pose proof (next_child u from Hu) as Hn. destruct (first_child _ u) as [sd|].
  - destruct Hn as [Hs Hh]. split; [done|]. unfold pos_whole. cbn [tp_ctx tp_tree tp_from tplug]. split; [by rw fill_around|].
    rw Hh. cbn [upward]. rw -(here_fill _ (child sd u)). rw fill_around; [|done].
    rw here_enter; [|done]. rw -app_comm_cons -app_assoc. by destruct u, sd.
  - destruct k as [|f k]; [by rw Hn app_nil_r|]. unfold pos_whole, pos_ok. cbn [tp_ctx tp_tree tp_from tplug].
    split; [by destruct f as [[] ? ? ? ? ?]|]. split; [done|]. rw Hn. cbn [upward]. by rw here_fill.
Qed.

(** ** The walk of the code *)

Definition prev_of P : Z := match tp_from P with None => top (tp_ctx P) | Some sd => taddr (child sd (tp_tree P)) end.
Definition addr_of (o : option tpos) : Z := match o with Some P => taddr (tp_tree P) | None => NULL end.

(** The addresses the code tells apart. *)
Definition apart (p : Z) (l m r : tst) (from : option tside) : Prop :=
  ((taddr l =? NULL) = is_te l /\ (taddr m =? NULL) = is_te m /\ (taddr r =? NULL) = is_te r) /\
  match from with
  | None => True
  | Some SideL => (taddr l =? p) = false
  | Some SideM => (taddr m =? p) = false /\ (taddr m =? taddr l) = false
  | Some SideR => (taddr r =? p) = false /\ (taddr r =? taddr l) = false /\ (taddr r =? taddr m) = false
  end.

Lemma first_of_parent p : first_of [p] = p.
Proof. simpl. destruct (Z.eqb_spec p NULL); [by subst|done]. Qed.

Lemma walk_on_spec P a c d l m r :
  tp_tree P = TT a c d l m r -> apart (top (tp_ctx P)) l m r (tp_from P) ->
  walk_on (mk_tn c (daddr d) (top (tp_ctx P)) (taddr l) (taddr m) (taddr r)) (prev_of P) = addr_of (move P).
Proof.
  destruct P as [k u from]. cbn [tp_tree tp_ctx tp_from]. intros -> [(Hl & Hm & Hr) Hf].
  assert (addr_of (match k with f :: k => Some (TPos k (fill f (TT a c d l m r)) (Some (fr_side f))) | [] => None end) = top k) as Hup.
  { destruct k as [|f k]; [done|]. cbn [addr_of tp_tree top]. apply taddr_fill. }
  assert (forall x ps, first_of (taddr x :: ps) = if taddr x =? NULL then first_of ps else taddr x) as Hfirst by done.
  unfold walk_on, prev_of, move. cbn [tp_tree tp_ctx tp_from ts_parent ts_left ts_mid ts_right].
  destruct from as [[]|]; cbn [child to_visit first_child];
    [rw Hf Z.eqb_refl|destruct Hf as (-> & ->); rw Z.eqb_refl|destruct Hf as (-> & -> & ->); rw Z.eqb_refl|rw Z.eqb_refl];
    rw ?Hfirst ?Hl ?Hm ?Hr ?first_of_parent;
    destruct (is_te l), (is_te m), (is_te r); try done; symmetry; exact Hup.
Qed.

Section Walk.
Context `{HA : !NodeAlloc tcell} `{HE : !TstEnv} `{HL : !NodeAllocLaws tcell}.
Implicit Types (tb : tsttable).
Local Abbreviation TM := (M (heap tcell)).

Definition pos_at P : hpropI tcell := (ctx_at (tp_ctx P) (taddr (tp_tree P)) ∗ tst_at (top (tp_ctx P)) (tp_tree P))%I.

Lemma pos_at_whole P : pos_at P ⊣⊢ tst_at NULL (pos_whole P).
Proof. by rw plug_at. Qed.

Lemma pos_at_same P Q : pos_whole P = pos_whole Q -> pos_at P ⊢ pos_at Q.
Proof. intros H. by rw !pos_at_whole H. Qed.

Lemma trees_apart p q t u : is_te u = false -> tst_at p t ∗ tst_at q u ⊢ ⌜(taddr u =? taddr t) = false⌝ ∧ tst_at p t ∗ tst_at q u.
Proof.
  iIntros (Hu) "[Ht Hu]". destruct u as [|a c d l m r]; [done|]. cbn [tst_at taddr]. iDestruct "Hu" as "[Ha Hu]".
  iDestruct (sibling_ne with "[$Ht $Ha]") as "[%E [Ht Ha]]". rw Z.eqb_sym. iSplit; [done|]. iFrame.
Qed.

Lemma parent_apart k x q u : is_te u = false -> ctx_at k x ∗ tst_at q u ⊢ ⌜(taddr u =? top k) = false⌝ ∧ ctx_at k x ∗ tst_at q u.
Proof.
  iIntros (Hu) "[Hk Hu]". destruct u as [|a c d l m r]; [done|]. cbn [tst_at taddr]. iDestruct "Hu" as "[Ha Hu]".
  destruct k as [|f k]; cbn [top ctx_at].
  - tnull "Ha" as E. iSplit; [done|]. iFrame.
  - iDestruct "Hk" as "[[Hf H] Hk]". iDestruct (pointsto_ne with "[$Hf $Ha]") as "[%E [Hf Ha]]".
    iSplit; [iPureIntro; apply Z.eqb_neq; congruence|]. iFrame.
Qed.

Lemma pos_apart P a c d l m r :
  pos_ok P -> tp_tree P = TT a c d l m r -> pos_at P ⊢ ⌜apart (top (tp_ctx P)) l m r (tp_from P)⌝ ∧ pos_at P.
Proof.
  destruct P as [k u from]. unfold pos_at. intros [_ Hf] Hu. simpl in Hf, Hu. subst u. cbn [tp_ctx tp_tree tp_from tst_at].
  iIntros "(Hk & Ha & Hd & Hl & Hm & Hr)".
  iDestruct (taddr_null with "Hl") as "[%Nl Hl]". iDestruct (taddr_null with "Hm") as "[%Nm Hm]".
  iDestruct (taddr_null with "Hr") as "[%Nr Hr]". unfold apart. destruct from as [[]|]; cbn [child] in Hf.
  - iDestruct (parent_apart with "[$Hk $Hl]") as "[%E [Hk Hl]]"; [done|]. iSplit; [done|]. iFrame.
  - iDestruct (parent_apart with "[$Hk $Hm]") as "[%E [Hk Hm]]"; [done|].
    iDestruct (trees_apart with "[$Hl $Hm]") as "[%E2 [Hl Hm]]"; [done|]. iSplit; [done|]. iFrame.
  - iDestruct (parent_apart with "[$Hk $Hr]") as "[%E [Hk Hr]]"; [done|].
    iDestruct (trees_apart with "[$Hl $Hr]") as "[%E2 [Hl Hr]]"; [done|].
    iDestruct (trees_apart with "[$Hm $Hr]") as "[%E3 [Hm Hr]]"; [done|]. iSplit; [done|]. iFrame.
  - iSplit; [done|]. iFrame.
Qed.

(** The node at a position and where the code goes from there. *)
Lemma walk_node {A} P (kont : tstnode -> TM A) Φ :
  pos_ok P ->
  pos_at P ∗
    (∀ n, ⌜walk_on n (prev_of P) = addr_of (move P) /\
           (ts_data n =? NULL) = (match data_of (tp_tree P) with Some _ => false | None => true end) /\
           ts_data n = daddr (data_of (tp_tree P))⌝ → pos_at P -∗ hwp (kont n) Φ)
  ⊢ hwp (tfield (fun n => n) (taddr (tp_tree P)) ≫= kont) Φ.
Proof.
  iIntros (Hok) "[HP H]". destruct (tp_tree P) as [|a c d l m r] eqn:Hu; [by destruct Hok as [Hok _]; rw Hu in Hok|].
  iDestruct (pos_apart with "HP") as "[%Hap HP]"; [done|done|]. unfold pos_at. rw Hu. cbn [tst_at taddr].
  iDestruct "HP" as "(Hk & Ha & Hd & Ht)". iDestruct (daddr_null with "Hd") as "[%Nd Hd]". tfield "Ha".
  iApply ("H" with "[]"); [|by iFrame]. iPureIntro. split; [by eapply walk_on_spec|]. by split.
Qed.

(** *** One step of the iterator *)

(** The next position with an entry that is not the end, and the position after it. *)
Definition walked P (r : option (Z * Z * Z * Z)) : Prop :=
  match r with
  | None => returned P = []
  | Some (data, node, next, prev) =>
      exists Q Q' e, pos_ok Q /\ move Q = Some Q' /\ pos_whole Q = pos_whole P /\ data_of (tp_tree Q) = Some e /\
        (length (arrivals Q) <= length (arrivals P))%nat /\
        returned P = e :: returned Q' /\ data = en_addr e /\ node = taddr (tp_tree Q) /\ next = addr_of (Some Q') /\ prev = prev_of Q
  end.

Lemma prev_of_move P P' : pos_ok P -> move P = Some P' -> prev_of P' = taddr (tp_tree P).
Proof.
  destruct P as [k u from]. intros [Hu Hf]. simpl in Hu. unfold move. cbn [tp_ctx tp_tree tp_from].
  destruct (first_child _ u) as [sd|]; [|destruct k as [|f k]; [done|]]; intros [= <-]; unfold prev_of; cbn [tp_ctx tp_tree tp_from top].
  - by destruct u, sd.
  - by destruct f as [[] a c d t1 t2].
Qed.

Lemma arrivals_cons P : arrivals P <> [].
Proof. done. Qed.

Lemma returned_move P P' :
  pos_ok P -> move P = Some P' ->
  returned P = match data_of (tp_tree P) with Some e => [e] | None => [] end ++ returned P'.
Proof.
  intros Hok E. pose proof (move_spec P Hok) as H. rw E in H. destruct H as (_ & _ & Ha). unfold returned. rw Ha.
  change (removelast (data_of (tp_tree P) :: arrivals P')) with (data_of (tp_tree P) :: removelast (arrivals P')).
  by destruct (data_of (tp_tree P)).
Qed.

Lemma walk_loop_spec fuel : forall P,
  pos_ok P -> (length (arrivals P) < fuel)%nat ->
  pos_at P ⊢ hwp (walk_loop fuel (taddr (tp_tree P)) (prev_of P)) (λ r, ⌜walked P r⌝ ∧ pos_at P).
Proof.
  induction fuel as [|fuel IH]; intros P Hok Hf; [lia|]. iIntros "HP". cbn [walk_loop].
  iAssert (⌜(taddr (tp_tree P) =? NULL) = false⌝ ∧ pos_at P)%I with "[HP]" as "[%Hn HP]".
  { unfold pos_at. iDestruct "HP" as "[Hk Hu]". iDestruct (taddr_null with "Hu") as "[%H Hu]". rw H. destruct Hok as [-> _].
    iSplit; [done|]. iFrame. }
  rw Hn. iApply walk_node; [done|]. iFrame "HP". iIntros (n Hw) "HP". destruct Hw as (-> & Hd & Ed).
  pose proof (move_spec P Hok) as Hm. destruct (move P) as [P'|] eqn:Em; cbn [addr_of].
  - destruct Hm as (Hok' & Hw & Ha). pose proof (returned_move P P' Hok Em) as Hr.
    iDestruct (pos_at_same P P' with "HP") as "HP"; [done|].
    iAssert (⌜(taddr (tp_tree P') =? NULL) = false⌝ ∧ pos_at P')%I with "[HP]" as "[%Hn' HP]".
    { unfold pos_at. iDestruct "HP" as "[Hk Hu]". iDestruct (taddr_null with "Hu") as "[%H Hu]". rw H. destruct Hok' as [-> _].
      iSplit; [done|]. iFrame. }
    rw Hn' Hd. destruct (data_of (tp_tree P)) as [e|] eqn:Ee; cbn [negb].
    + tret. iSplit; [|by iApply (pos_at_same P' P with "HP")]. iPureIntro. exists P, P', e. by rw Ed.
    + rw -(prev_of_move P P' Hok Em). iApply hwp_wand. iSplitL; [iApply (IH P' Hok' with "HP")|].
      * rw Ha in Hf. cbn [length] in Hf. lia.
      * iIntros (r) "[%Hr' HP]". iSplit; [|by iApply (pos_at_same P' P with "HP")]. iPureIntro.
        destruct r as [[[[data node] next] prev]|]; unfold walked in *; rw Hr; [|done].
        destruct Hr' as (Q & Q' & e & H1 & H2 & H3 & H4 & H5 & H6 & H7). exists Q, Q', e. split; [done|]. split; [done|]. split; [by rw H3|]. split; [done|]. split; [|by split].
        rw Ha. cbn [length]. lia.
  - rw Z.eqb_refl. tret. iSplit; [|done]. iPureIntro. unfold walked, returned. by rw Hm.
Qed.

(** The turns of the walk fit into the fuel. *)
Lemma here_length u from : is_te u = false -> (length (here u from) < 2 * tnodes u)%nat.
Proof.
  assert (forall t, length (tour t) + 1 <= 2 * tnodes t + (if is_te t then 1 else 0))%nat as Ht.
  { induction t as [|a c d l IHl m IHm r IHr]; [done|]. cbn [tour]. rw /= !length_app. unfold comeback.
    destruct (is_te l), (is_te m), (is_te r); simpl in *; lia. }
  intros Hu. destruct u as [|a c d l m r]; [done|]. pose proof (Ht l). pose proof (Ht m). pose proof (Ht r).
  unfold here, comeback. destruct from as [[]|]; cbn [to_visit map concat child data_of]; rw /= ?length_app;
    destruct (is_te l), (is_te m), (is_te r); simpl in *; lia.
Qed.

Lemma arrivals_length P : is_te (tp_tree P) = false -> (length (arrivals P) < 2 * tnodes (pos_whole P))%nat.
Proof.
  destruct P as [k u from]. unfold arrivals, pos_whole. cbn [tp_ctx tp_tree tp_from]. intros Hu.
  rw length_app tnodes_plug. pose proof (here_length u from Hu). assert (length (upward k) <= 2 * knodes k)%nat; [|lia].
  clear. induction k as [|f k IH]; [done|]. cbn [upward knodes]. rw length_app.
  assert (length (here (fill f TE) (Some (fr_side f))) < 2 * tnodes (fill f TE))%nat as H.
  { apply here_length. by destruct f as [[] ? ? ? ? ?]. }
  assert (tnodes (fill f TE) = 1 + tnodes (fr_1 f) + tnodes (fr_2 f))%nat as E by (destruct f as [[] ? ? ? ? ?]; simpl; lia).
  rw E in H. lia.
Qed.

(** *** The iterator *)

(** Before a position, or after the end. *)
Definition iter_at (o : option tpos) (it : tst_iter) : Prop :=
  tsi_advanced it = false /\ tsi_next it = addr_of o /\
  match o with Some P => pos_ok P /\ tsi_current it = prev_of P | None => tsi_current it = NULL end.
Definition to_return (o : option tpos) : list tentry := match o with Some P => returned P | None => [] end.
Definition within (t : tst) (o : option tpos) : Prop := match o with Some P => pos_whole P = t | None => True end.

Lemma tst_next_spec it o t :
  iter_at o it -> within t o ->
  tst_at NULL t ⊢ hwp (cc_tsttable_iter_next it) (λ r,
    match to_return o with
    | [] => ⌜exists it', r = (CC_ITER_END, None, it') /\ iter_at None it' /\ tsi_table it' = tsi_table it⌝ ∧ tst_at NULL t
    | e :: es => ⌜exists it' Q, r = (CC_OK, Some (en_addr e), it') /\ iter_at (Some Q) it' /\ within t (Some Q) /\
        tsi_table it' = tsi_table it /\ returned Q = es⌝ ∧
        en_addr e ↦ TEntry (mk_te (en_key e) (en_value e)) ∗
        (en_addr e ↦ TEntry (mk_te (en_key e) (en_value e)) -∗ tst_at NULL t)
    end).
Proof.
  iIntros (Hi Ht) "H". destruct Hi as (Ha & Hn & Hc). unfold cc_tsttable_iter_next. rw Ha.
  iApply tst_fuel_spec. iFrame "H". iIntros (n Hf) "H". rw Hn. destruct o as [P|]; cbn [to_return addr_of] in *.
  - destruct Hc as [Hok Hc]. rw Hc. simpl in Ht. subst t. pose proof (arrivals_length P (proj1 Hok)).
    iApply hwp_call. iSplitL; [iApply (walk_loop_spec n P Hok); [lia|by rw pos_at_whole]|].
    iIntros ([[[[data node] next] prev]|]) "[%Hw H]"; simpl in Hw.
    + destruct Hw as (Q & Q' & e & HQ & Em & Hw & He & _ & Hr & -> & -> & -> & ->). rw Hr.
      pose proof (move_spec Q HQ) as Hm. rw Em in Hm. destruct Hm as (Hok' & Hw' & _).
      iDestruct (pos_at_same P Q with "H") as "H"; [done|].
      destruct (tp_tree Q) as [|a c d l m r] eqn:Eu; [done|]. simpl in He. subst d. unfold pos_at at 1. rw Eu. cbn [tst_at].
      iDestruct "H" as "(Hk & Ha & He & Hu)". tret. iSplit.
      { iPureIntro. eexists _, Q'. split_and!; [done| |simpl; by rw Hw' Hw|done|done].
        split; [done|]. split; [done|]. split; [done|]. cbn [tsi_current]. by rw (prev_of_move Q Q' HQ Em) Eu. }
      iFrame "He". iIntros "He". rw -Hw -pos_at_whole. unfold pos_at. rw Eu. cbn [tst_at]. iFrame.
    + rw Hw. tret. iSplit; [iPureIntro; by eexists|]. by rw pos_at_whole.
  - destruct n as [|n]; [lia|]. cbn [walk_loop]. rw Z.eqb_refl. tskip. tret. iSplit; [iPureIntro; by eexists|done].
Qed.

Lemma visit_entries_spec {A} (f : tstentry -> A) t fuel : forall it o,
  iter_at o it -> within t o -> (length (to_return o) < fuel)%nat ->
  tst_at NULL t ⊢ hwp (visit_entries fuel f it)
    (λ xs, ⌜xs = map (fun e => f (mk_te (en_key e) (en_value e))) (to_return o)⌝ ∧ tst_at NULL t).
Proof.
  induction fuel as [|fuel IH]; intros it o Hi Ht Hf; [lia|]. iIntros "H". cbn [visit_entries].
  iApply hwp_call. iSplitL; [by iApply (tst_next_spec with "H")|]. iIntros (r) "H". destruct (to_return o) as [|e es] eqn:Er.
  - iDestruct "H" as "[%Hr H]". destruct Hr as (it' & -> & _). tret. by iFrame.
  - iDestruct "H" as "[%Hr [He H]]". destruct Hr as (it' & Q & -> & Hi' & Ht' & _ & <-). efield "He".
    iDestruct ("H" with "He") as "H". iApply hwp_call. iSplitL; [iApply (IH with "H"); [done|done|simpl in *; lia]|].
    iIntros (xs) "[-> H]". tret. by iFrame.
Qed.

Lemma omap_id_length {A} (l : list (option A)) : (length (omap id l) <= length l)%nat.
Proof. induction l as [|[x|] l IH]; [done| |].
  - change (omap id (Some x :: l)) with (x :: omap id l). cbn [length]. lia.
  - change (omap id (None :: l)) with (omap id l). cbn [length]. lia.
Qed.

(** A whole walk. *)
Definition visits (t : tst) : list tentry := omap id (removelast (tour t)).

Lemma start_at tb t : tst_root tb = taddr t -> iter_at (if is_te t then None else Some (TPos [] t None)) (cc_tsttable_iter_init tb).
Proof.
  intros Hr. unfold iter_at, cc_tsttable_iter_init. cbn [tsi_advanced tsi_next tsi_current]. rw Hr.
  destruct t as [|a c d l m r]; done.
Qed.

Lemma start_return t : to_return (if is_te t then None else Some (TPos [] t None)) = visits t.
Proof.
  destruct t as [|a c d l m r]; [done|]. cbn [is_te to_return]. unfold returned, arrivals. cbn [tp_tree tp_from tp_ctx upward].
  rw app_nil_r here_enter; done.
Qed.

Lemma visits_length t : (length (visits t) <= 2 * tnodes t)%nat.
Proof.
  destruct t as [|a c d l m r]; [done|]. pose proof (here_length (TT a c d l m r) None eq_refl) as H. rw here_enter in H; [|done].
  unfold visits. etransitivity; [apply omap_id_length|]. rw removelast_firstn_len length_take. lia.
Qed.
End Walk.

(** ** The entries a walk returns *)

Fixpoint tentries (t : tst) : list tentry :=
  match t with TE => [] | TT _ _ d l m r => option_list d ++ tentries l ++ tentries m ++ tentries r end.

Lemma elem_of_option_list (e : tentry) d : e ∈ option_list d <-> d = Some e.
Proof. destruct d as [x|]; simpl; [rw list_elem_of_singleton; naive_solver|]. split; [by intros ?%elem_of_nil|done]. Qed.

Lemma tentries_length t : length (tentries t) = tcount t.
Proof. induction t as [|a c d l IHl m IHm r IHr]; [done|]. simpl. rw !length_app IHl IHm IHr. destruct d; simpl; lia. Qed.

Lemma elem_comeback (e : tentry) d t : Some e ∈ comeback d t -> d = Some e.
Proof. unfold comeback. destruct (is_te t); [by intros ?%elem_of_nil|by intros ?%list_elem_of_singleton]. Qed.

Lemma tour_entries e t : Some e ∈ tour t <-> e ∈ tentries t.
Proof.
  induction t as [|a c d l IHl m IHm r IHr]; simpl; [by rw !elem_of_nil|].
  rw elem_of_cons !elem_of_app IHl IHm IHr elem_of_option_list. split.
  - intros [?|[[?|?%elem_comeback]|[[?|?%elem_comeback]|[?|?%elem_comeback]]]]; naive_solver.
  - naive_solver.
Qed.

Lemma visits_elem e t : e ∈ visits t <-> Some e ∈ removelast (tour t).
Proof. unfold visits. rw list_elem_of_omap. split; [by intros ([x|] & H & [= ->])|by exists (Some e)]. Qed.

Lemma visits_known e t : e ∈ visits t -> e ∈ tentries t.
Proof.
  intros H. apply tour_entries. apply visits_elem in H. destruct (tour t) as [|x xs]; [done|].
  rw (app_removelast_last None (l := x :: xs)); [|done]. apply elem_of_app. by left.
Qed.

(** The root is arrived at first and last. *)
Lemma visits_all e t : (2 <= tnodes t)%nat -> e ∈ tentries t -> e ∈ visits t.
Proof.
  intros Hn He. apply visits_elem. apply tour_entries in He. destruct t as [|a c d l m r]; [done|].
  assert (exists ys, tour (TT a c d l m r) = d :: ys ++ [d]) as [ys Hy].
  { simpl in Hn |- *. unfold comeback. destruct r; [destruct m; [destruct l; [simpl in Hn; lia|]|]|]; cbn [is_te];
      rw ?app_nil_r ?app_assoc; eexists; rw ?app_nil_r; reflexivity. }
  rw Hy in He |- *. rw app_comm_cons removelast_last. apply elem_of_cons in He as [He|He]; [by apply elem_of_cons; left|].
  apply elem_of_app in He as [He|He%list_elem_of_singleton]; apply elem_of_cons; [by right|by left].
Qed.

Section Entries.
Context `{HE : !TstEnv}.
Implicit Types (t : tst) (m : gmap (list Z) Z).

Lemma tlookup_entry t : forall s e, tlookup t s = Some e -> e ∈ tentries t.
Proof.
  induction t as [|a c d l IHl mid IHm r IHr]; intros s e; [done|]. destruct s as [|x s]; [done|]. simpl. rw !elem_of_app elem_of_option_list.
  destruct (char_cmp x c <? 0); [by eauto|]. destruct (0 <? char_cmp x c); [by eauto|]. destruct s; [by eauto|by eauto].
Qed.

(** A table has no entries a key does not lead to: there are as many as keys. *)
Lemma represents_entry t m e : represents t m -> e ∈ tentries t -> tlookup t (chars_at (en_key e)) = Some e.
Proof.
  intros (_ & Hm & Hk & Hc) He. set (es := omap (tlookup t) (map_to_list m).*1).
  assert (forall s, s ∈ (map_to_list m).*1 -> exists e, tlookup t s = Some e) as Hin.
  { intros s ([s' v] & -> & Hs)%list_elem_of_fmap. apply elem_of_map_to_list in Hs. specialize (Hm s'). rw Hs in Hm. simpl.
    destruct (tlookup t s'); [by eexists|done]. }
  assert (forall ss, (forall s, s ∈ ss -> exists e, tlookup t s = Some e) -> NoDup ss ->
    length (omap (tlookup t) ss) = length ss /\ NoDup (omap (tlookup t) ss)) as Hes.
  { induction ss as [|s ss IH]; [by repeat constructor|]. intros Hs Hnd. apply list.NoDup_cons in Hnd as [Hn Hnd].
    destruct (Hs s (list_elem_of_here _ _)) as [x Hx]. destruct IH as [H1 H2]; [by intros; apply Hs, list_elem_of_further|done|].
    simpl. rw Hx. simpl. split; [by rw H1|]. apply list.NoDup_cons. split; [|done].
    rw list_elem_of_omap. intros (s' & Hs' & Hx'). apply Hk in Hx as Hx1. apply Hk in Hx'. congruence. }
  destruct (Hes _ Hin (NoDup_fst_map_to_list m)) as [H1 H2]. fold es in H1, H2. rw length_fmap length_map_to_list in H1.
  assert (es ≡ₚ tentries t) as Hp.
  { apply submseteq_length_Permutation; [|rw tentries_length; lia]. apply NoDup_submseteq; [done|].
    intros x (s & _ & Hx)%list_elem_of_omap. by eapply tlookup_entry. }
  rw -Hp in He. apply list_elem_of_omap in He as (s & _ & Hs). pose proof (Hk _ _ Hs) as ->. done.
Qed.

(** More than one node. *)
Lemma represents_nodes t m :
  represents t m -> (2 <= stdpp.base.size m)%nat \/ (exists s, is_Some (m !! s) /\ (2 <= length s)%nat) -> (2 <= tnodes t)%nat.
Proof.
  intros (_ & Hm & _ & Hc) Hb. destruct t as [|a c d l mid r].
  - destruct Hb as [Hb|(s & [v Hv] & _)]; [simpl in Hc; lia|]. by rw -Hm in Hv.
  - simpl. destruct l as [|a1 c1 d1 l1 m1 r1]; [|simpl; lia]. destruct mid as [|a1 c1 d1 l1 m1 r1]; [|simpl; lia].
    destruct r as [|a1 c1 d1 l1 m1 r1]; [|simpl; lia]. destruct Hb as [Hb|(s & [v Hv] & Hs)]; [destruct d; simpl in Hc; lia|].
    rw -Hm in Hv. destruct s as [|x [|y s]]; [done|simpl in Hs; lia|]. simpl in Hv.
    by destruct (char_cmp x c <? 0), (0 <? char_cmp x c).
Qed.
End Entries.

(** ** What iteration promises *)

Section Covers.
Context `{HA : !NodeAlloc tcell} `{HE : !TstEnv} `{HL : !NodeAllocLaws tcell}.
Implicit Types (tb : tsttable) (m : gmap (list Z) Z).

(** The entries of a table with what a walk returns. *)
Definition covered m (es : list tentry) : Prop :=
  (forall e, e ∈ es -> m !! chars_at (en_key e) = Some (en_value e)) /\
  ((2 <= stdpp.base.size m)%nat \/ (exists s, is_Some (m !! s) /\ (2 <= length s)%nat) ->
   forall s v, m !! s = Some v -> exists e, e ∈ es /\ chars_at (en_key e) = s /\ en_value e = v).

Lemma visits_cover t m : represents t m -> covered m (visits t).
Proof.
  intros Ht. split.
  - intros e He%visits_known. pose proof (represents_entry t m e Ht He) as Hl. destruct Ht as (_ & Hm & _). by rw -Hm Hl.
  - intros Hb%(represents_nodes t m Ht) s v Hs. destruct Ht as (_ & Hm & Hk & _). specialize (Hm s). rw Hs in Hm.
    destruct (tlookup t s) as [e|] eqn:He; [|done]. injection Hm as Hv. exists e. split; [|split; [by apply Hk|done]].
    apply visits_all; [done|]. by eapply tlookup_entry.
Qed.

Lemma tst_foreach_spec {A} (f : tstentry -> A) tb m t :
  tst_root tb = taddr t /\ tst_size tb = Z.of_nat (stdpp.base.size m) /\ represents t m ->
  tst_at NULL t
  ⊢ hwp (fuel ← tst_fuel; visit_entries fuel f (cc_tsttable_iter_init tb))
      (λ xs, ⌜xs = map (fun e => f (mk_te (en_key e) (en_value e))) (visits t)⌝ ∧ tst_table_at tb m).
Proof.
  iIntros (Ht) "H". iApply tst_fuel_spec. iFrame "H". iIntros (n Hn) "H". pose proof (visits_length t).
  iApply hwp_wand. iSplitL.
  - iApply (visit_entries_spec f t n _ (if is_te t then None else Some (TPos [] t None)) with "H").
    + apply start_at, Ht.
    + by destruct t.
    + rw start_return. lia.
  - iIntros (xs) "[-> H]". rw start_return. iSplit; [done|]. iExists t. by iFrame.
Qed.

(** C26. Iteration over the ternary search table is sound, and complete on all
    but the smallest tables.  [cc_tsttable_foreach_key] and [_foreach_value]
    return on every table, pass the callback keys and values of the map in the
    same order, and leave the table as it was; if the table has two keys or a
    key of two characters, every key and value is passed.  (A key may be passed
    more than once, and a single key of one character is not passed at all:
    [iteration_repeats], [iteration_misses].) *)
Theorem tst_iteration_covers tb m h hf :
  tst_holds tb m h -> h ##ₘ hf ->
  exists es h1 h2, covered m es /\
    cc_tsttable_foreach_key tb (h ∪ hf) = Done (map en_key es) (h1 ∪ hf) /\ h1 ##ₘ hf /\ tst_holds tb m h1 /\
    cc_tsttable_foreach_value tb (h ∪ hf) = Done (map en_value es) (h2 ∪ hf) /\ h2 ##ₘ hf /\ tst_holds tb m h2.
Proof using HL.
  intros (t & Ht & Hh) Hd. exists (visits t).
  destruct (hwp_run _ _ _ _ _ (tst_foreach_spec te_key tb m t Ht) Hh Hd) as (ks & h1 & R1 & D1 & -> & H1).
  destruct (hwp_run _ _ _ _ _ (tst_foreach_spec te_value tb m t Ht) Hh Hd) as (vs & h2 & R2 & D2 & -> & H2).
  exists h1, h2. split; [by apply visits_cover, Ht|]. done.
Qed.
End Covers.

(** ** Runs *)

(** The table of the keys ab, abc and b with the values 20, 30 and 40. *)
Definition three_keys : tsttable := mk_tst 3 8.
Definition three_keys_tree : tst :=
  TT 8 97 None TE
    (TT 16 98 (Some (mk_ten 24 2 20)) TE (TT 32 99 (Some (mk_ten 40 3 30)) TE TE TE) TE)
    (TT 48 98 (Some (mk_ten 56 4 40)) TE TE TE).
Definition three_keys_heap : heap tcell :=
  {[8 := TNode (mk_tn 97 NULL NULL NULL 16 48); 16 := TNode (mk_tn 98 24 8 NULL 32 NULL);
    24 := TEntry (mk_te 2 20); 32 := TNode (mk_tn 99 40 16 NULL NULL NULL); 40 := TEntry (mk_te 3 30);
    48 := TNode (mk_tn 98 56 8 NULL NULL NULL); 56 := TEntry (mk_te 4 40)]}.

(** Adding the three keys makes that heap, and the walk over it passes the key
    ab twice: when the walk comes to its node, and when it comes back from abc. *)
Lemma iteration_repeats :
  exists tb h, tst_run (HA := tst_cells) (HE := few_keys) [SAdd 2 20; SAdd 3 30; SAdd 4 40] (mk_tst 0 NULL) ∅ = Done
    ([SStat CC_OK None; SStat CC_OK None; SStat CC_OK None], tb) h /\ (tb, h) = (three_keys, three_keys_heap) /\
    cc_tsttable_foreach_key tb h = Done [2; 3; 2; 4] h.
Proof. do 2 eexists. split; [vm_compute; reflexivity|]. split; [|vm_compute; reflexivity]. by vm_compute. Qed.

(** A single key of one character is not passed at all. *)
Lemma iteration_misses :
  exists tb h, tst_run (HA := tst_cells) (HE := few_keys) [SAdd 1 10] (mk_tst 0 NULL) ∅ = Done ([SStat CC_OK None], tb) h /\
    cc_tsttable_foreach_key tb h = Done [] h.
Proof. do 2 eexists. split; vm_compute; reflexivity. Qed.

(** After [cc_tsttable_iter_remove] the iterator has gone on to an entry that
    no call returns: of ab, abc and b the client that removes ab sees abc never. *)
Lemma iter_remove_drops :
  exists it h, (r ← cc_tsttable_iter_next (cc_tsttable_iter_init three_keys);
     r2 ← cc_tsttable_iter_remove r.2; r3 ← cc_tsttable_iter_next r2.2;
     r4 ← cc_tsttable_iter_next r3.2; r5 ← cc_tsttable_iter_next r4.2;
     mret (r.1, r2.1, r3.1, r4.1, r5.1, r5.2)) three_keys_heap
   = Done ((CC_OK, Some 24), (CC_OK, Some 20), (CC_OK, None), (CC_OK, Some 56), (CC_ITER_END, None), it) h.
Proof. do 2 eexists. vm_compute. reflexivity. Qed.

Definition three_map : gmap (list Z) Z := <[[98] := 40]> (<[[97; 98; 99] := 30]> (<[[97; 98] := 20]> ∅)).

Lemma three_keys_represent : represents (HE := few_keys) three_keys_tree three_map.
Proof.
  pose proof few_keys_laws as HK.
  pose proof (represents_branch (HE := few_keys) TE ∅ [97; 98] [] [97; 98] [8; 16] (mk_ten 24 2 20) represents_empty) as H1.
  specialize (H1 ltac:(done) eq_refl eq_refl eq_refl).
  pose proof (represents_branch (HE := few_keys) _ _ [97; 98; 99] _ _ [32] (mk_ten 40 3 30) H1 ltac:(done) eq_refl eq_refl eq_refl) as H2.
  exact (represents_branch (HE := few_keys) _ _ [98] _ _ [48] (mk_ten 56 4 40) H2 ltac:(done) eq_refl eq_refl eq_refl).
Qed.

Lemma three_keys_hold : tst_holds (HE := few_keys) three_keys three_map three_keys_heap.
Proof.
  exists three_keys_tree. split; [split; [done|split; [done|apply three_keys_represent]]|].
  assert (8 ↦ TNode (mk_tn 97 NULL NULL NULL 16 48) ∗ 16 ↦ TNode (mk_tn 98 24 8 NULL 32 NULL) ∗ 24 ↦ TEntry (mk_te 2 20) ∗
    32 ↦ TNode (mk_tn 99 40 16 NULL NULL NULL) ∗ 40 ↦ TEntry (mk_te 3 30) ∗ 48 ↦ TNode (mk_tn 98 56 8 NULL NULL NULL) ∗
    56 ↦ TEntry (mk_te 4 40) ∗ emp ⊢ tst_at NULL three_keys_tree) as Hs.
  { simpl. iIntros "(? & ? & ? & ? & ? & ? & ? & _)". iFrame. by repeat iSplit. }
  apply (entails_at _ _ Hs). do 7 (apply cell_sep; [|done|done]). done.
Qed.

Definition other_cell : heap tcell := {[999 := TEntry (mk_te 1 1)]}.

Lemma tst_iteration_covers_witness :
  exists es h1 h2, covered (HE := few_keys) three_map es /\
    cc_tsttable_foreach_key three_keys (three_keys_heap ∪ other_cell) = Done (map en_key es) (h1 ∪ other_cell) /\
    h1 ##ₘ other_cell /\ tst_holds (HE := few_keys) three_keys three_map h1 /\
    cc_tsttable_foreach_value three_keys (three_keys_heap ∪ other_cell) = Done (map en_value es) (h2 ∪ other_cell) /\
    h2 ##ₘ other_cell /\ tst_holds (HE := few_keys) three_keys three_map h2.
Proof.
  apply (tst_iteration_covers (HA := tst_cells) (HE := few_keys) (HL := cell_alloc_laws _)).
  - apply three_keys_hold.
  - apply map_disjoint_singleton_r. vm_compute. reflexivity.
Defined.
