(* ===== verification/CcArrayMore.v ===== *)
(** * Arrays handed to the caller's functions
    (src/components/Collections-C/src/cc_array.c, cc_stack.c, cc_pqueue.c, sized/cc_array_sized.c)

    Sorting, mapping, reducing and destroying.  A function of the caller that
    only sees elements is the list of the elements it is called with, in order;
    a destructor is the list of the calls it makes, with the function that
    frees each block.  [qsort] is the one of CcSlist.v. *)

From Stdlib Require Import Sorted.
From S2P Require Import Prelude CMem CcArray CcArrayFacts CcStack CcPqueue CcArraySized CcArraySizedFacts CcSlist.

(** ** What is freed, and how *)

Inductive owned := ArrayBuffer | ArrayHeader | StackHeader | Element (x : Z).
(** A call of the caller's callback, of the configured [mem_free], or of the
    [free] of the C library. *)
Inductive release := Callback (x : Z) | MemFree (b : owned) | LibFree (b : owned).

#[export] Instance owned_eq_dec : EqDecision owned.
Proof. solve_decision. Defined.
#[export] Instance release_eq_dec : EqDecision release.
Proof. solve_decision. Defined.

(** [for (i = 0; i < size; i++) fn(buffer[i])]: the elements passed. *)
Fixpoint visit_loop (n : nat) (i : Z) (b : list Z) : outcome (list Z) :=
  match n with
  | O => Ret []
  | S n => x ← cell b i; xs ← visit_loop n (i + 1) b; Ret (x :: xs)
  end.

Section More.
Context {F : Type} `{HR : !Runtime F} `{HQ : !QSort}.
Local Abbreviation cc_array := (cc_array F).
Implicit Types a : cc_array.

Record cc_array_conf := mk_array_conf { ac_exp_factor : F; ac_capacity : Z }.
Definition cc_array_conf_init : cc_array_conf := mk_array_conf DEFAULT_EXPANSION_FACTOR DEFAULT_CAPACITY.

Definition cc_array_get_buffer a : list Z := buffer a.
Definition cc_array_size a : Z := size a.
Definition cc_array_capacity a : Z := capacity a.
Definition cc_array_struct_size : Z := SIZEOF_ARRAY.

(** [qsort] works on the first [size] words of the block. *)
Definition cc_array_sort a (cmp : Z -> Z -> Z) : outcome cc_array :=
  if size a <=? zlen (buffer a)
  then Ret (set_buffer (qsort cmp (take (Z.to_nat (size a)) (buffer a)) ++ drop (Z.to_nat (size a)) (buffer a)) a)
  else Fault.

Definition cc_array_map a : outcome (list Z) := visit_loop (Z.to_nat (size a)) 0 (buffer a).

(** [fn e1 e2 result] is what the function leaves in [result], given what its
    arguments point to ([None] for [NULL]); an element points to [deref element]. *)
Fixpoint reduce_loop {D} (n : nat) (i : Z) (deref : Z -> D) (fn : D -> option D -> D -> D) (b : list Z) (result : D) : outcome D :=
  match n with
  | O => Ret result
  | S n => x ← cell b i; reduce_loop n (i + 1) deref fn b (fn result (Some (deref x)) result)
  end.

Definition cc_array_reduce {D} a (deref : Z -> D) (fn : D -> option D -> D -> D) (result : D) : outcome D :=
  if size a =? 1 then x ← cell (buffer a) 0; Ret (fn (deref x) None result)
  else
    result ← (if 1 <? size a then
                x ← cell (buffer a) 0; y ← cell (buffer a) 1; Ret (fn (deref x) (Some (deref y)) result)
              else Ret result);
    reduce_loop (Z.to_nat (size a - 2)) 2 deref fn (buffer a) result.

Definition cc_array_destroy a : list release := [MemFree ArrayBuffer; MemFree ArrayHeader].

Definition cc_array_destroy_cb a : outcome (list release) :=
  xs ← visit_loop (Z.to_nat (size a)) 0 (buffer a); Ret (map Callback xs ++ cc_array_destroy a).

Definition cc_array_remove_all_free a : outcome (list release * cc_array) :=
  xs ← visit_loop (Z.to_nat (size a)) 0 (buffer a);
  Ret (map (fun x => LibFree (Element x)) xs, cc_array_remove_all a).

(** ** The stack *)

Definition cc_stack_map (s : cc_stack F) : outcome (list Z) := cc_array_map (v s).
Definition cc_stack_destroy (s : cc_stack F) : list release := cc_array_destroy (v s) ++ [MemFree StackHeader].
Definition cc_stack_destroy_cb (s : cc_stack F) : outcome (list release) :=
  r ← cc_array_destroy_cb (v s); Ret (r ++ [LibFree StackHeader]).
Definition cc_stack_struct_size : Z := cc_array_struct_size.

Definition cc_stack_zip_iter_init (s1 s2 : cc_stack F) : cc_array_zip_iter (F := F) := cc_array_zip_iter_init (v s1) (v s2).
Definition cc_stack_zip_iter_next (it : cc_array_zip_iter (F := F)) := cc_array_zip_iter_next it.
Definition cc_stack_zip_iter_replace (it : cc_array_zip_iter (F := F)) (e1 e2 : Z) := cc_array_zip_iter_replace it e1 e2.

(** ** The priority queue *)

Definition cc_pqueue_destroy (pq : Pqueue.cc_pqueue F) : list release := [MemFree ArrayBuffer; MemFree ArrayHeader].
Definition cc_pqueue_destroy_cb (pq : Pqueue.cc_pqueue F) : outcome (list release) :=
  xs ← visit_loop (Z.to_nat (Pqueue.pq_size pq)) 0 (Pqueue.pq_buffer pq); Ret (map Callback xs ++ cc_pqueue_destroy pq).

(** ** What they do on a well-formed array *)

Lemma visit_loop_ok n : forall i (b : list Z),
  (i + n <= length b)%nat -> visit_loop n (Z.of_nat i) b = Ret (take n (drop i b)).
Proof.
  induction n as [|n IH]; intros i b Hi; [done|]. simpl. destruct (lookup_lt_is_Some_2 b i) as [y Hy]; [lia|].
  rewrite (cell_ok _ _ _ Hy), bind_Ret, (drop_S _ _ _ Hy). replace (Z.of_nat i + 1) with (Z.of_nat (S i)) by lia.
  by rewrite IH by lia.
Qed.

Lemma visit_contents a : array_wf a -> visit_loop (Z.to_nat (size a)) 0 (buffer a) = Ret (contents a).
Proof. intros []. change 0 with (Z.of_nat 0). rewrite visit_loop_ok by lia. done. Qed.

Lemma reduce_loop_ok {D} (deref : Z -> D) fn n : forall i (b : list Z) result,
  (i + n <= length b)%nat ->
  reduce_loop n (Z.of_nat i) deref fn b result
  = Ret (foldl (fun r x => fn r (Some (deref x)) r) result (take n (drop i b))).
Proof.
  induction n as [|n IH]; intros i b result Hi; [done|]. simpl. destruct (lookup_lt_is_Some_2 b i) as [y Hy]; [lia|].
  rewrite (cell_ok _ _ _ Hy), bind_Ret, (drop_S _ _ _ Hy). replace (Z.of_nat i + 1) with (Z.of_nat (S i)) by lia.
  by rewrite IH by lia.
Qed.

(** Reducing is a fold from the first two elements; the only element of an
    array comes with a null pointer, and nothing is called for no element. *)
Definition reduce_list {D} (deref : Z -> D) (fn : D -> option D -> D -> D) (result : D) (xs : list Z) : D :=
  match xs with
  | [] => result
  | [x] => fn (deref x) None result
  | x :: y :: xs => foldl (fun r x => fn r (Some (deref x)) r) (fn (deref x) (Some (deref y)) result) xs
  end.

Lemma array_reduce_ok {D} a (deref : Z -> D) fn result :
  array_wf a -> cc_array_reduce a deref fn result = Ret (reduce_list deref fn result (contents a)).
Proof.
  intros Hw. pose proof (contents_zlen a Hw) as Hc. pose proof Hw as [Hs Hb _ _]. unfold cc_array_reduce, contents in *.
  destruct (Z.eqb_spec (size a) 1) as [E|E].
  - rewrite E in *. destruct (buffer a) as [|x b]; [simpl in *; lia|]. done.
  - destruct (Z.ltb_spec 1 (size a)) as [H|H].
    + destruct (buffer a) as [|x [|y b]] eqn:Eb; [simpl in *; lia..|].
      change (cell (x :: y :: b) 0) with (@Ret Z x). change (cell (x :: y :: b) 1) with (@Ret Z y). rewrite !bind_Ret.
      change (reduce_loop (Z.to_nat (size a - 2)) 2) with (reduce_loop (D := D) (Z.to_nat (size a - 2)) (Z.of_nat 2)).
      rewrite reduce_loop_ok by (simpl in *; lia). destruct (Z.to_nat (size a)) as [|[|n]] eqn:En; [lia..|].
      simpl. f_equal. f_equal. f_equal. lia.
    + assert (size a = 0) as -> by lia. done.
Qed.

(** Every element is passed to the callback once, in order, and then both
    blocks are freed. *)
Lemma array_destroy_cb_ok a :
  array_wf a -> cc_array_destroy_cb a = Ret (map Callback (contents a) ++ [MemFree ArrayBuffer; MemFree ArrayHeader]).
Proof. intros Hw. unfold cc_array_destroy_cb. by rewrite visit_contents. Qed.

Lemma array_remove_all_free_ok a :
  array_wf a -> exists a', cc_array_remove_all_free a = Ret (map (fun x => LibFree (Element x)) (contents a), a') /\
    contents a' = [] /\ array_wf a'.
Proof.
  intros Hw. unfold cc_array_remove_all_free. rewrite visit_contents by done. eexists. split; [done|]. split; [done|].
  destruct Hw as [H1 H2 H3 H4]. split; simpl; [lia|done..].
Qed.

(** Documented behaviour of [qsort]: it permutes the array, and puts it into
    the order of a comparison that is a total preorder. *)
Class QSortSorts : Prop := {
  sorts_perm cmp xs : qsort cmp xs ≡ₚ xs;
  sorts_order cmp xs : (forall x y, cmp x y <= 0 \/ cmp y x <= 0) -> (forall x y z, cmp x y <= 0 -> cmp y z <= 0 -> cmp x z <= 0) ->
    StronglySorted (fun x y => cmp x y <= 0) (qsort cmp xs);
}.

Lemma array_sort_ok `{!QSortSorts} a cmp :
  array_wf a -> exists a', cc_array_sort a cmp = Ret a' /\ array_wf a' /\ contents a' = qsort cmp (contents a) /\
    drop (Z.to_nat (size a)) (buffer a') = drop (Z.to_nat (size a)) (buffer a).
Proof.
  intros [H1 H2 H3 H4]. unfold cc_array_sort. rewrite (proj2 (Z.leb_le _ _)) by lia. eexists. split; [done|].
  set (xs := take _ _). assert (length (qsort cmp xs) = Z.to_nat (size a)) as Hl.
  { rewrite sorts_perm. unfold xs. rewrite length_take. lia. }
  split; [|split].
  - split; simpl; [done| |..|done]; rewrite length_app, Hl, length_drop; lia.
  - unfold contents at 1. simpl. by rewrite take_app_length' by done.
  - simpl. by rewrite drop_app_length' by done.
Qed.

(** [cc_stack_destroy_cb] frees the header of the stack with [free], where
    [cc_stack_destroy] uses the configured function. *)
Lemma stack_destroy_cb_libc (s : cc_stack F) :
  array_wf (v s) ->
  exists r, cc_stack_destroy_cb s = Ret r /\ LibFree StackHeader ∈ r /\ MemFree StackHeader ∉ r /\
    MemFree StackHeader ∈ cc_stack_destroy s.
Proof.
  intros Hw. unfold cc_stack_destroy_cb. rewrite array_destroy_cb_ok by done. eexists. split; [done|]. split_and!.
  - apply elem_of_app. right. by apply list_elem_of_singleton.
  - rewrite !elem_of_app, list_elem_of_singleton. intros [[H|H]|H]; [|set_solver|done].
    apply list_elem_of_fmap in H as (x & H & _). done.
  - unfold cc_stack_destroy. apply elem_of_app. right. by apply list_elem_of_singleton.
Qed.

(** [cc_stack_struct_size] is the size of another structure. *)
Lemma stack_struct_size_wrong : cc_stack_struct_size <> SIZEOF_STACK.
Proof. done. Qed.
End More.

(** ** The array of byte blocks *)

(** [qsort] on blocks of bytes, and what is documented of it. *)
Class BlockSort := block_sort : (list Z -> list Z -> Z) -> list (list Z) -> list (list Z).
Class BlockSortLaws `{HS : BlockSort} : Prop := block_sort_perm cmp es : block_sort cmp es ≡ₚ es.

Section SizedMore.
Context {F : Type} `{HR : !Runtime F} `{HB : !ByteHeap} `{HS : !BlockSort}.
Implicit Types (a : cc_array_sized F).

Record cc_array_sized_conf := mk_sized_conf { sc_exp_factor : F; sc_capacity : Z }.
Definition cc_array_sized_conf_init : cc_array_sized_conf := mk_sized_conf DEFAULT_EXPANSION_FACTOR DEFAULT_CAPACITY.

Definition cc_array_sized_get_buffer a : list Z := sz_buffer a.
Definition cc_array_sized_size a : Z := sz_size a.
Definition cc_array_sized_capacity a : Z := sz_capacity a.
Definition cc_array_sized_destroy a : list release := [MemFree ArrayBuffer; MemFree ArrayHeader].

(** [qsort] works on the first [size] blocks of [data_length] bytes. *)
Definition cc_array_sized_sort a (cmp : list Z -> list Z -> Z) : outcome (cc_array_sized F) :=
  let d := Z.to_nat (data_length a) in
  let n := Z.to_nat (sz_size a) in
  if sz_size a * data_length a <=? zlen (sz_buffer a)
  then Ret (set_sz_buffer (mjoin (block_sort cmp (chunks d n (sz_buffer a))) ++ drop (d * n) (sz_buffer a)) a)
  else Fault.

Lemma sized_sort_ok `{!BlockSortLaws} d es a cmp :
  holds d es a -> exists a', cc_array_sized_sort a cmp = Ret a' /\ sized_wf d a' /\
    sz_contents a' = block_sort cmp (sz_contents a) /\
    drop (d * Z.to_nat (sz_size a)) (sz_buffer a') = drop (d * Z.to_nat (sz_size a)) (sz_buffer a).
Proof.
  intros Hh. pose proof (sz_contents_length _ _ _ Hh) as Hn. pose proof (holds_contents _ _ _ Hh) as Hc.
  pose proof Hh as [Hu Hl Hcap Hs Hlaid Hm Hg]. pose proof (laid_out_long _ _ _ Hlaid) as Hlong.
  set (xs := block_sort cmp (sz_contents a)). set (n := Z.to_nat (sz_size a)) in *.
  assert (length xs = n) as Hx by (unfold xs; by rewrite block_sort_perm).
  assert (sized_blocks d xs) as Hb.
  { unfold sized_blocks, xs. rewrite block_sort_perm, Hc. apply sized_take, Hlaid. }
  assert (laid_out d (mjoin xs ++ drop (d * n) (sz_buffer a)) (xs ++ drop n es)) as Hlaid2.
  { pose proof (laid_out_splice d _ _ xs 0 n Hlaid Hb Hx ltac:(lia)) as Hsp.
    rewrite Nat.mul_0_r in Hsp. exact Hsp. }
  unfold cc_array_sized_sort. rewrite Hl, (proj2 (Z.leb_le _ _)) by nia. rewrite Nat2Z.id. fold n.
  assert (chunks d n (sz_buffer a) = sz_contents a) as -> by (unfold sz_contents; by rewrite Hl, Nat2Z.id).
  eexists. split; [done|]. fold xs.
  assert (holds d (xs ++ drop n es) (set_sz_buffer (mjoin xs ++ drop (d * n) (sz_buffer a)) a)) as H'.
  { split; simpl; [done|done| | |done| |done].
    - rewrite length_app, length_drop. lia.
    - rewrite length_app, length_drop. lia.
    - rewrite length_app, length_drop, (join_length d) by done. nia. }
  split; [by exists (xs ++ drop n es)|]. split.
  - rewrite (holds_contents _ _ _ H'). simpl. fold n. by rewrite take_app_length' by done.
  - simpl. rewrite drop_app_length' by (rewrite (join_length d) by done; nia). done.
Qed.
End SizedMore.
