(* ===== verification/CcTreeCheck.v ===== *)
(** * The rule checker of the tree table (cc_treetable.c, DEBUG)

    [cc_treetable_test] walks a tree and reports the first rule it finds
    violated.  It is shown to compute [check_tree], to accept every table the
    operations make, and to be right about colours and black heights; of the
    order it only compares a node with its children. *)

From iris.proofmode Require Import proofmode.
From Stdlib Require Import Sorted.
From S2P Require Import Prelude CMem CState CHeap HeapLogic CcArray CcTreeTable RbTree CcTreeFacts CcTreeProps.

Inductive rb_error := RB_ERROR_OK | RB_ERROR_CONSECUTIVE_RED | RB_ERROR_BLACK_HEIGHT | RB_ERROR_TREE_STRUCTURE.
#[export] Instance rb_error_eq_dec : EqDecision rb_error.
Proof. solve_decision. Defined.

Section Check.
Context `{HC : !KeyCmp}.
Local Abbreviation TM := (M (heap rbnode)).

(** The error code and [*nb], which is only written when the code is
    [RB_ERROR_OK]; otherwise 0 stands for it. *)
Fixpoint cc_treetable_test (fuel : nat) (table : treetable) (node : Z) : TM (rb_error * Z) :=
  match fuel with
  | O => hang
  | S fuel =>
      if node =? tt_sentinel table then mret (RB_ERROR_OK, 1)
      else
        k ← field rb_key node;
        left ← field rb_left node;
        wrong_left ← (if negb (left =? tt_sentinel table) then lk ← field rb_key left; mret (0 <=? key_cmp lk k) else mret false);
        if wrong_left : bool then mret (RB_ERROR_TREE_STRUCTURE, 0)
        else
          right ← field rb_right node;
          wrong_right ← (if negb (right =? tt_sentinel table) then rk ← field rb_key right; mret (key_cmp rk k <=? 0) else mret false);
          if wrong_right : bool then mret (RB_ERROR_TREE_STRUCTURE, 0)
          else
            c ← field rb_color node;
            p ← field rb_parent node;
            both_red ← (if c =? RB_RED then pc ← field rb_color p; mret (pc =? RB_RED) else mret false);
            if both_red : bool then mret (RB_ERROR_CONSECUTIVE_RED, 0)
            else
              l ← cc_treetable_test fuel table left;
              if negb (bool_decide (l.1 = RB_ERROR_OK)) then mret (l.1, 0)
              else
                r ← cc_treetable_test fuel table right;
                if negb (bool_decide (r.1 = RB_ERROR_OK)) then mret (r.1, 0)
                else if negb (l.2 =? r.2) then mret (RB_ERROR_BLACK_HEIGHT, 0)
                else mret (RB_ERROR_OK, if c =? RB_BLACK then l.2 + 1 else l.2)
  end.

Definition cc_treetable_assert_rb_rules (table : treetable) : TM rb_error :=
  fuel ← heap_fuel; r ← cc_treetable_test fuel table (tt_root table); mret r.1.

(** ** The check on trees *)

Definition wrong_child (d : side) (k : Z) (t : tree) : bool :=
  match t with E => false | T _ _ kt _ _ _ => match d with L => 0 <=? key_cmp kt k | R => key_cmp kt k <=? 0 end end.
Definition red_color (c : color) : bool := match c with Red => true | Black => false end.

Fixpoint check_tree (above : bool) (t : tree) : rb_error * Z :=
  match t with
  | E => (RB_ERROR_OK, 1)
  | T _ c k _ l r =>
      if wrong_child L k l || wrong_child R k r then (RB_ERROR_TREE_STRUCTURE, 0)
      else if red_color c && above then (RB_ERROR_CONSECUTIVE_RED, 0)
      else
        let el := check_tree (red_color c) l in
        if negb (bool_decide (el.1 = RB_ERROR_OK)) then (el.1, 0)
        else
          let er := check_tree (red_color c) r in
          if negb (bool_decide (er.1 = RB_ERROR_OK)) then (er.1, 0)
          else if negb (el.2 =? er.2) then (RB_ERROR_BLACK_HEIGHT, 0)
          else (RB_ERROR_OK, if red_color c then el.2 else el.2 + 1)
  end.

(** Each node is in order with its children. *)
Fixpoint children_ordered (t : tree) : Prop :=
  match t with
  | E => True
  | T _ _ k _ l r => wrong_child L k l = false /\ wrong_child R k r = false /\ children_ordered l /\ children_ordered r
  end.

Lemma check_tree_pos t : forall above m, check_tree above t = (RB_ERROR_OK, m) -> exists n, m = Z.of_nat n + 1.
Proof.
  induction t as [|a c k v l IHl r _]; intros b m; cbn [check_tree].
  - intros [= <-]. by exists 0%nat.
  - destruct (_ || _); [done|]. destruct (_ && _); [done|]. destruct (check_tree _ l) as [el nl] eqn:El. cbn [fst snd].
    case_bool_decide as E1; [|by intros [= -> <-]]. cbn [negb]. subst el. case_bool_decide; [|by intros [= ? _]].
    destruct (nl =? _); [|done]. cbn [negb]. destruct (IHl _ _ El) as [n ->]. intros [= <-].
    destruct (red_color c); [by exists n|exists (S n); lia].
Qed.

(** Exactly these trees are accepted. *)
Lemma check_tree_spec t : forall above n,
  check_tree above t = (RB_ERROR_OK, Z.of_nat n + 1) <->
  rb t n /\ children_ordered t /\ above && is_red t = false.
Proof.
  induction t as [|a c k v l IHl r IHr]; intros above n.
  - simpl. rw andb_false_r. split; [intros [= H]|intros [-> _]; done]. split; [lia|done].
  - cbn [check_tree children_ordered]. destruct (wrong_child L k l); [simpl; naive_solver|].
    destruct (wrong_child R k r); [simpl; naive_solver|]. cbn [orb].
    destruct (red_color c && above) eqn:Ec.
    { split; [done|]. destruct c, above; try done. simpl. naive_solver. }
    destruct (check_tree (red_color c) l) as [el nl] eqn:El. destruct (check_tree (red_color c) r) as [er nr] eqn:Er.
    cbn [fst snd]. split.
    + case_bool_decide as E1; [|by intros [= -> _]]. case_bool_decide as E2; [|by intros [= -> _]]. cbn [negb]. subst el er.
      destruct (Z.eqb_spec nl nr) as [->|]; [|done]. cbn [negb]. intros [= Hn].
      destruct (check_tree_pos _ _ _ El) as [m ->]. apply IHl in El as (H1 & H2 & H3). apply IHr in Er as (H4 & H5 & H6).
      destruct c; simpl in *.
      * assert (m = n) as -> by lia. split_and!; [done..|]. by rw andb_comm.
      * assert (n = S m) as -> by lia. split_and!; [by exists m|done..|by rw andb_false_r].
    + intros (Hrb & (_ & _ & Hol & Hor) & _). destruct c; simpl in *.
      * destruct Hrb as (H1 & H2 & H3 & H4). rw (proj2 (IHl true n)) in El; [|done]. rw (proj2 (IHr true n)) in Er; [|done].
        injection El as <- <-. injection Er as <- <-. simpl. by rw Z.eqb_refl.
      * destruct Hrb as (m & -> & H1 & H2). rw (proj2 (IHl false m)) in El; [|done]. rw (proj2 (IHr false m)) in Er; [|done].
        injection El as <- <-. injection Er as <- <-. simpl. rw Z.eqb_refl. simpl. f_equal. lia.
Qed.

(** ** The walk on the heap *)

(** The cell of a parent: that of the root is the sentinel, which is owned anyway. *)
Definition parent_at (s p : Z) (o : option rbnode) : hpropI rbnode :=
  match o with Some n => p ↦ n | None => ⌜p = s⌝ ∧ emp end%I.
Definition parent_red (o : option rbnode) : bool := match o with Some n => rb_color n =? RB_RED | None => false end.

Lemma parent_color {A} s sp p o (k : Z -> TM A) Φ :
  s ↦ sent sp ∗ parent_at s p o ∗
    (∀ c, ⌜(c =? RB_RED) = parent_red o⌝ → s ↦ sent sp -∗ parent_at s p o -∗ hwp (k c) Φ)
  ⊢ hwp (field rb_color p ≫= k) Φ.
Proof.
  iIntros "(Hs & Hp & H)". destruct o as [n|]; cbn [parent_at].
  - iApply hwp_field. iFrame "Hp". iIntros "Hp". iApply ("H" with "[] Hs Hp"). done.
  - iDestruct "Hp" as "[-> Hp]". iApply hwp_field. iFrame "Hs". iIntros "Hs". iApply ("H" with "[] Hs"); [done|]. by iSplit.
Qed.

(** A child is compared with its parent. *)
Lemma child_check s sp d t a k (Φ : bool -> hpropI rbnode) :
  s ↦ sent sp ∗ tree_at s t a ∗ (s ↦ sent sp -∗ tree_at s t a -∗ Φ (wrong_child d k t))
  ⊢ hwp (if negb (root_of s t =? s)
         then ck ← field rb_key (root_of s t); mret (match d with L => 0 <=? key_cmp ck k | R => key_cmp ck k <=? 0 end)
         else mret false) Φ.
Proof.
  iIntros "(Hs & Ht & H)". iDestruct (root_test with "[$Hs $Ht]") as "[%E [Hs Ht]]". rw E.
  destruct t as [|b c kt v l r]; cbn [is_leaf negb].
  - iApply hwp_ret. iApply ("H" with "Hs Ht").
  - cbn [root_of tree_at]. iDestruct "Ht" as "[Hb Ht]". iApply hwp_field. iFrame "Hb". iIntros "Hb". iApply hwp_ret.
    cbn [rb_key]. destruct d; iApply ("H" with "Hs"); iFrame.
Qed.

Lemma tree_test_spec tab sp t : forall fuel p o,
  (height t < fuel)%nat ->
  tt_sentinel tab ↦ sent sp ∗ parent_at (tt_sentinel tab) p o ∗ tree_at (tt_sentinel tab) t p
  ⊢ hwp (cc_treetable_test fuel tab (root_of (tt_sentinel tab) t)) (λ r, ⌜r = check_tree (parent_red o) t⌝ ∧
      (tt_sentinel tab ↦ sent sp ∗ parent_at (tt_sentinel tab) p o ∗ tree_at (tt_sentinel tab) t p)).
Proof.
  induction t as [|a c k v l IHl r IHr]; intros fuel p o Hf; destruct fuel as [|fuel]; try (simpl in Hf; lia);
    iIntros "(Hs & Hp & Ht)"; cbn [cc_treetable_test check_tree]; iDestruct (root_test with "[$Hs $Ht]") as "[%E [Hs Ht]]"; rw E;
    cbn [is_leaf root_of tree_at]; [tret; by iFrame|].
  iDestruct "Ht" as "(Ha & Hl & Hr)". simpl in Hf.
  iApply hwp_field. iFrame "Ha". iIntros "Ha". tsimpl. iApply hwp_field. iFrame "Ha". iIntros "Ha". tsimpl.
  iApply hwp_bind. iApply (child_check _ sp L l a k). iFrame "Hs Hl". iIntros "Hs Hl".
  destruct (wrong_child L k l); [tret; by iFrame|].
  iApply hwp_field. iFrame "Ha". iIntros "Ha". tsimpl.
  iApply hwp_bind. iApply (child_check _ sp R r a k). iFrame "Hs Hr". iIntros "Hs Hr".
  destruct (wrong_child R k r); [tret; by iFrame|]. cbn [orb].
  iApply hwp_field. iFrame "Ha". iIntros "Ha". tsimpl. iApply hwp_field. iFrame "Ha". iIntros "Ha". tsimpl.
  iApply hwp_bind. iApply (hwp_wand _ (λ b, ⌜b = red_color c && parent_red o⌝ ∧
    (tt_sentinel tab ↦ sent sp ∗ parent_at (tt_sentinel tab) p o)))%I. iSplitL "Hs Hp".
  { destruct c; simpl; [|tret; by iFrame]. iApply parent_color. iFrame "Hs Hp". iIntros (pc Hpc) "Hs Hp". rw Hpc. tret. by iFrame. }
  iIntros (b) "[-> [Hs Hp]]". destruct (red_color c && parent_red o); [tret; by iFrame|].
  assert (red_color c = parent_red (Some (mk_rb k v (code c) p (root_of (tt_sentinel tab) l) (root_of (tt_sentinel tab) r)))) as Ec by by destruct c.
  rw Ec. iApply hwp_call. iSplitL "Hs Ha Hl".
  { iApply (IHl fuel a (Some _)); [lia|]. iFrame. }
  iIntros (el) "[-> (Hs & Ha & Hl)]". destruct (negb _); [tret; by iFrame|].
  iApply hwp_call. iSplitL "Hs Ha Hr".
  { iApply (IHr fuel a (Some _)); [lia|]. iFrame. }
  iIntros (er) "[-> (Hs & Ha & Hr)]". destruct (negb _); [tret; by iFrame|]. destruct (negb _); [tret; by iFrame|].
  tret. iFrame. iPureIntro. by destruct c.
Qed.

(** Keys that increase are in order with their children. *)
Lemma increasing_children `{HK : !KeyLaws} t : increasing (inorder t).*2 -> children_ordered t.
Proof.
  induction t as [|a c k v l IHl r IHr]; [done|]. cbn [inorder]. rw fmap_app fmap_cons. intros Hi.
  pose proof (increasing_mid _ _ _ Hi) as (Hl & Hr & _). apply increasing_app in Hi as (Hil & Hir & _).
  apply StronglySorted_inv in Hir as [Hir _]. split; [|split; [|split; [by apply IHl|by apply IHr]]].
  - destruct l as [|a1 c1 k1 v1 l1 r1]; [done|]. cbn [inorder] in Hl. rw fmap_app fmap_cons in Hl.
    apply Forall_app in Hl as [_ Hl]. apply Forall_cons_1 in Hl as [Hl _]. unfold key_lt in Hl. simpl in *. lia.
  - destruct r as [|a1 c1 k1 v1 l1 r1]; [done|]. cbn [inorder] in Hr. rw fmap_app fmap_cons in Hr.
    apply Forall_app in Hr as [_ Hr]. apply Forall_cons_1 in Hr as [Hr _]. unfold key_lt in Hr. simpl in *.
    pose proof (cmp_flip k k1). lia.
Qed.

Lemma check_tree_ok t : (check_tree false t).1 = RB_ERROR_OK <-> (exists n, rb t n) /\ children_ordered t.
Proof.
  split.
  - intros H. destruct (check_tree false t) as [e m] eqn:E. simpl in H. subst e.
    destruct (check_tree_pos _ _ _ E) as [n ->].
    apply check_tree_spec in E as (H1 & H2 & _). split; [by exists n|done].
  - intros [[n Hn] Ho]. by rw (proj2 (check_tree_spec t false n)).
Qed.

Lemma assert_rules_spec tab t sp :
  focus tab [] t sp
  ⊢ hwp (cc_treetable_assert_rb_rules tab) (λ e, ⌜e = RB_ERROR_OK <-> (exists n, rb t n) /\ children_ordered t⌝ ∧ focus tab [] t sp).
Proof.
  iIntros "H". unfold cc_treetable_assert_rb_rules. iApply hwp_bind. iApply focus_fuel. iFrame "H". iIntros (n Hn) "[%Hr H]".
  pose proof (height_entries t). simpl in Hn, Hr. rw Hr. tsimpl. iDestruct "H" as "(Hs & Ht & Hp)".
  iApply hwp_call. iSplitL "Hs Ht".
  { iApply (tree_test_spec tab sp t n (tt_sentinel tab) None); [lia|]. iFrame. by iSplit. }
  iIntros (r) "[-> (Hs & _ & Ht)]". tret. iSplit; [iPureIntro; apply check_tree_ok|]. unfold focus. tsimpl. iSplit; [done|]. iFrame.
Qed.

(** The rule checker of the tree table decides what it checks.  On every
    tree of linked nodes, red-black or not, [cc_treetable_assert_rb_rules]
    returns, leaves the tree as it is, and reports no error exactly if no red
    node has a red parent, all paths have the same number of black nodes and
    each node is in order with its children; so it accepts every tree table
    the operations can make. *)
Theorem tree_check_decides `{HK : !KeyLaws} tab t sp h hf :
  hprop_at (focus tab [] t sp) h -> h ##ₘ hf ->
  exists e h', cc_treetable_assert_rb_rules tab (h ∪ hf) = Done e (h' ∪ hf) /\ h' ##ₘ hf /\
    hprop_at (focus tab [] t sp) h' /\
    (e = RB_ERROR_OK <-> (exists n, rb t n) /\ children_ordered t) /\
    (table_ok tab t -> e = RB_ERROR_OK).
Proof.
  intros Hh Hd. destruct (hwp_run _ _ _ _ _ (assert_rules_spec tab t sp) Hh Hd) as (e & h' & Hr & Hd' & He & H').
  exists e, h'. split_and!; [done|done|done|apply He..|]. intros [_ _ [_ Hrb] Hk]. apply He. split; [done|].
  by apply increasing_children.
Qed.
End Check.

(** ** Runs *)

Lemma two_keys_focus : hprop_at (focus two_keys [] (T 16 Black 50 5 (T 24 Red 30 3 E E) E) 0) two_keys_heap.
Proof.
  assert (8 ↦ sent 0 ∗ 16 ↦ mk_rb 50 5 RB_BLACK 8 24 8 ∗ 24 ↦ mk_rb 30 3 RB_RED 16 8 8 ∗ emp
          ⊢ focus two_keys [] (T 16 Black 50 5 (T 24 Red 30 3 E E) E) 0) as Hs.
  { iIntros "(Hs & Ha & Hb & _)". unfold focus. tsimpl. iSplit; [done|]. iFrame. by repeat iSplit. }
  apply (entails_at _ _ Hs). do 3 (apply cell_sep; [|done|done]). done.
Qed.

Lemma tree_check_decides_witness :
  exists e h', cc_treetable_assert_rb_rules (HC := by_value) two_keys (two_keys_heap ∪ {[99 := sent 1]})
      = Done e (h' ∪ {[99 := sent 1]}) /\ h' ##ₘ {[99 := sent 1]} /\
    hprop_at (focus two_keys [] (T 16 Black 50 5 (T 24 Red 30 3 E E) E) 0) h' /\
    (e = RB_ERROR_OK <-> (exists n, rb (T 16 Black 50 5 (T 24 Red 30 3 E E) E) n) /\
       children_ordered (HC := by_value) (T 16 Black 50 5 (T 24 Red 30 3 E E) E)) /\
    (table_ok (HC := by_value) two_keys (T 16 Black 50 5 (T 24 Red 30 3 E E) E) -> e = RB_ERROR_OK).
Proof.
  apply (tree_check_decides (HK := by_value_laws)).
  - apply two_keys_focus.
  - apply map_disjoint_singleton_r. vm_compute. reflexivity.
Defined.

(** Out of order across two levels: 60 is in the left subtree of 50.  The
    checker accepts the tree. *)
Definition disordered : treetable := mk_tt 16 8 4.
Definition disordered_heap : heap rbnode :=
  {[8 := sent 0; 16 := mk_rb 50 5 RB_BLACK 8 24 32; 24 := mk_rb 30 3 RB_BLACK 16 8 40;
    32 := mk_rb 70 7 RB_BLACK 16 8 8; 40 := mk_rb 60 6 RB_RED 24 8 8]}.

Lemma checker_accepts_disorder :
  cc_treetable_assert_rb_rules (HC := by_value) disordered disordered_heap = Done RB_ERROR_OK disordered_heap.
Proof. vm_compute. reflexivity. Qed.

(** The checker notices a node in the wrong place, two red nodes in a row and
    unequal paths. *)
Example checker_reports :
  (exists h, cc_treetable_assert_rb_rules (HC := by_value) two_keys (<[24 := mk_rb 70 3 RB_RED 16 8 8]> two_keys_heap) = Done RB_ERROR_TREE_STRUCTURE h) /\
  (exists h, cc_treetable_assert_rb_rules (HC := by_value) two_keys (<[24 := mk_rb 30 3 RB_BLACK 16 8 8]> two_keys_heap) = Done RB_ERROR_BLACK_HEIGHT h) /\
  (exists h, cc_treetable_assert_rb_rules (HC := by_value) two_keys (<[16 := mk_rb 50 5 RB_RED 8 24 8]> two_keys_heap) = Done RB_ERROR_CONSECUTIVE_RED h).
Proof. split_and!; eexists; vm_compute; reflexivity. Qed.
