(* ===== verification/ButtonPins.v ===== *)
(** * Pins, calibration and names of the button component
    (src/components/button/button_gpio.c, button_matrix.c, button_adc.c, iot_button.c)

    What ButtonDrv.v leaves out: the calls that configure pins, the wake-up
    interrupt of the power-saving mode, the calibration handles of the analog
    driver, and the queries of the API.  Calls of the hardware drivers are
    recorded in order; what they return is an argument. *)

From Stdlib Require Import String.
From S2P Require Import Prelude CMem CState Button ButtonFacts ButtonReg ButtonSys ButtonDrv.

(** ** Pins *)

Inductive gpio_int_type := GPIO_INTR_LOW_LEVEL | GPIO_INTR_HIGH_LEVEL.
Record gpio_config_t := mk_gpio_config { pin_bit_mask : Z; mode : Z; pull_up_en : bool; pull_down_en : bool }.

Inductive pin_act :=
  | IntrEnable (pin : Z) | IntrDisable (pin : Z) | WakeupEnable (pin : Z) (t : gpio_int_type) | WakeupDisable (pin : Z)
  | PinReset (pin : Z) | PinConfig (c : gpio_config_t).

Definition wake_level (active_level : Z) : gpio_int_type :=
  if active_level =? 0 then GPIO_INTR_LOW_LEVEL else GPIO_INTR_HIGH_LEVEL.

(** [wakeup] is what [gpio_wakeup_enable] or [gpio_wakeup_disable] returns. *)
Definition button_gpio_enable_gpio_wakeup (gpio_num active_level : Z) (enable : bool) (wakeup : Z) : Z * list pin_act :=
  if enable then (wakeup, [IntrEnable gpio_num; WakeupEnable gpio_num (wake_level active_level)])
  else (wakeup, [IntrDisable gpio_num; WakeupDisable gpio_num]).

Definition button_enter_power_save (o : Gpio.button_gpio_obj) (wakeup : Z) : Z * list pin_act :=
  button_gpio_enable_gpio_wakeup (Gpio.gpio_num o) (Gpio.active_level o) true wakeup.

(** The argument of the handler is the pin. *)
Definition button_power_save_isr_handler (arg wakeup : Z) (an : answers) : M buttons (list pin_act) :=
  iot_button_resume an ;; mret (button_gpio_enable_gpio_wakeup arg 0 false wakeup).2.

(** [None] is an object that has been freed. *)
Definition button_gpio_del (o : option Gpio.button_gpio_obj) (reset : Z)
    : outcome (Z * option Gpio.button_gpio_obj * list pin_act) :=
  match o with None => Fault | Some o => Ret (reset, None, [PinReset (Gpio.gpio_num o)]) end.

Definition button_matrix_gpio_init (valid : bool) (gpio_num gpio_mode : Z) : Z * list pin_act :=
  if negb valid then (ESP_ERR_INVALID_ARG, [])
  else (ESP_OK, [PinConfig (mk_gpio_config (u64 (Z.shiftl 1 gpio_num)) gpio_mode false true)]).

(** The level that wakes the chip through a pin after some calls, if one does. *)
Definition pin_step (pin : Z) (st : bool * option gpio_int_type) (a : pin_act) : bool * option gpio_int_type :=
  match a with
  | IntrEnable p => if p =? pin then (true, st.2) else st
  | IntrDisable p => if p =? pin then (false, st.2) else st
  | WakeupEnable p t => if p =? pin then (st.1, Some t) else st
  | WakeupDisable p | PinReset p => if p =? pin then (st.1, None) else st
  | PinConfig _ => st
  end.
Definition pin_after (pin : Z) (l : list pin_act) (st : bool * option gpio_int_type) : bool * option gpio_int_type :=
  foldl (pin_step pin) st l.

(** The power-saving cycle.  Entering it arms the pin of the button for the
    level of a pressed key and no other pin; the interrupt disarms it and
    leaves the timer flagged as running, by calls the timer allows. *)
Theorem power_save_cycle (o : Gpio.button_gpio_obj) wakeup wakeup' an st s r s' :
  timer_inv s -> g_button_timer_handle s = true ->
  button_power_save_isr_handler (Gpio.gpio_num o) wakeup' an s = Done r s' ->
  pin_after (Gpio.gpio_num o) (button_enter_power_save o wakeup).2 st = (true, Some (wake_level (Gpio.active_level o))) /\
  pin_after (Gpio.gpio_num o) ((button_enter_power_save o wakeup).2 ++ r) st = (false, None) /\
  (forall pin, pin <> Gpio.gpio_num o -> pin_after pin ((button_enter_power_save o wakeup).2 ++ r) st = st) /\
  g_is_timer_running s' = true /\ timer_inv s'.
Proof.
  intros Hi Ht Hr. unfold button_power_save_isr_handler, mbind, M_bind in Hr.
  destruct (iot_button_resume an s) as [x s1| | |] eqn:E; [|done..]. injection Hr as <- <-.
  pose proof (sound_resume an s x s1 E Hi) as Hi'. unfold pin_after. cbn [foldl app button_enter_power_save button_gpio_enable_gpio_wakeup snd pin_step].
  split; [cbn; by rewrite !Z.eqb_refl|]. split; [cbn; by rewrite !Z.eqb_refl|]. split.
  { intros pin Hp. assert ((Gpio.gpio_num o =? pin) = false) as H by (apply Z.eqb_neq; congruence).
    cbn. by rewrite !H. }
  split; [|done]. revert E. unfold iot_button_resume. destruct s as [l c running u ac]. simpl in Ht. subst c.
  destruct running; cbn; intros [= _ <-]; done.
Qed.

(** ** Calibration handles *)

(** The state is the list of the handles created and not deleted.  [curve] and
    [line] say for each scheme whether the chip supports it and what handle its
    creation gives, [None] when it fails. *)
Definition create_scheme (r : option Z) : M (list Z) (option Z) :=
  match r with Some h => modify (fun l => h :: l) ;; mret (Some h) | None => mret None end.

Definition adc_calibration_init (curve line : option (option Z)) : M (list Z) (bool * option Z) :=
  h ← match curve with Some r => create_scheme r | None => mret None end;
  h ← match h, line with None, Some r => create_scheme r | _, _ => mret h end;
  mret (bool_decide (is_Some h), h).

Definition forget (h : Z) (l : list Z) : list Z := filter (fun x => x <> h) l.

Lemma forget_absent h l : h ∉ l -> forget h l = l.
Proof.
  unfold forget. induction l as [|x l IH]; intros Hl; [done|]. apply not_elem_of_cons in Hl as [Hx Hl].
  rewrite filter_cons_True by congruence. by rewrite IH.
Qed.
Lemma forget_head h l : h ∉ l -> forget h (h :: l) = l.
Proof. intros Hl. unfold forget. rewrite filter_cons_False by naive_solver. by apply forget_absent. Qed.

(** [ok] is what the deletion of each scheme answers, if the chip supports it. *)
Definition adc_calibration_deinit (handle : Z) (curve line : option bool) : M (list Z) bool :=
  match curve, line with
  | Some true, _ | _, Some true => modify (forget handle) ;; mret true
  | _, _ => mret false
  end.

(** [adc_calibration_init] for a channel of a unit writes the handle of the unit. *)
Definition calibrate_channel (field : option Z) (curve line : option (option Z)) : M (list Z) (option Z) :=
  r ← adc_calibration_init curve line; mret r.2.

(** A unit has one handle and each of its channels makes one: after two
    channels and the deletion of the unit the first handle is still there. *)
Lemma calibration_handle_leaks h1 h2 (l : list Z) :
  h1 <> h2 -> h2 ∉ l ->
  (f ← calibrate_channel None (Some (Some h1)) None;
   f ← calibrate_channel f (Some (Some h2)) None;
   adc_calibration_deinit (default 0 f) (Some true) None) l = Done true (h1 :: l).
Proof.
  intros Hn Hl. transitivity (Done true (forget h2 (h2 :: h1 :: l))); [done|]. rewrite forget_head; [done|]. apply not_elem_of_cons. by split.
Qed.

(** With one channel everything is released. *)
Lemma calibration_released h (l : list Z) :
  h ∉ l ->
  (f ← calibrate_channel None (Some (Some h)) None; adc_calibration_deinit (default 0 f) (Some true) None) l = Done true l.
Proof.
  intros Hl. transitivity (Done true (forget h (h :: l))); [done|]. by rewrite forget_head.
Qed.

(** The second scheme is tried only if the first gave no handle. *)
Lemma calibration_first_scheme curve line l b h l' :
  adc_calibration_init curve line l = Done (b, h) l' ->
  (b = true <-> is_Some h) /\ (forall h1, curve = Some (Some h1) -> h = Some h1 /\ l' = h1 :: l) /\ (b = false -> l' = l).
Proof.
  unfold adc_calibration_init, create_scheme. destruct curve as [[h1|]|], line as [[h2|]|]; cbn; intros [= <- <- <-];
    (split; [split; [first [by intros _; eexists|done]|by intros [? ?]]|split; [naive_solver|done]]).
Qed.

(** ** Queries *)

Definition button_event_str : list string :=
  ["BUTTON_PRESS_DOWN"; "BUTTON_PRESS_UP"; "BUTTON_PRESS_REPEAT"; "BUTTON_PRESS_REPEAT_DONE"; "BUTTON_SINGLE_CLICK";
   "BUTTON_DOUBLE_CLICK"; "BUTTON_MULTIPLE_CLICK"; "BUTTON_LONG_PRESS_START"; "BUTTON_LONG_PRESS_HOLD";
   "BUTTON_LONG_PRESS_UP"; "BUTTON_PRESS_END"; "BUTTON_EVENT_MAX"; "BUTTON_NONE_PRESS"]%string.

(** The value of an event. *)
Definition event_value (e : button_event_t) : Z :=
  match e with
  | BUTTON_PRESS_DOWN => 0 | BUTTON_PRESS_UP => 1 | BUTTON_PRESS_REPEAT => 2 | BUTTON_PRESS_REPEAT_DONE => 3
  | BUTTON_SINGLE_CLICK => 4 | BUTTON_DOUBLE_CLICK => 5 | BUTTON_MULTIPLE_CLICK => 6 | BUTTON_LONG_PRESS_START => 7
  | BUTTON_LONG_PRESS_HOLD => 8 | BUTTON_LONG_PRESS_UP => 9 | BUTTON_PRESS_END => 10 | BUTTON_EVENT_MAX => 11
  | BUTTON_NONE_PRESS => 12
  end.

Definition event_name (event : Z) : outcome string :=
  match button_event_str !! Z.to_nat event with Some s => Ret s | None => Fault end.

(** [event] is an unsigned enumeration value. *)
Definition iot_button_get_event_str (event : Z) : outcome string :=
  if (event <=? event_value BUTTON_NONE_PRESS) && (event_value BUTTON_PRESS_DOWN <=? event)
  then event_name event else Ret "invalid event"%string.

(** The status, and what is logged. *)
Definition iot_button_print_event (b : option button_dev_t) : outcome (Z * option string) :=
  match b with
  | None => Ret (ESP_FAIL, None)
  | Some b => s ← event_name (event_value (event b)); Ret (ESP_OK, Some s)
  end.

Definition iot_button_get_ticks_time (b : button_dev_t) : Z := iot_button_get_pressed_time b.

(** [level] is what the driver of the button reads. *)
Definition iot_button_get_key_level (btn_handle : option Z) (level : Z) : Z :=
  match btn_handle with None => 0 | Some _ => u8 level end.

(** Every event has a name of its own, and every value gets an answer. *)
Lemma event_str_total event : exists s, iot_button_get_event_str event = Ret s.
Proof.
  unfold iot_button_get_event_str, event_name. destruct (_ && _) eqn:E; [|by eexists]. simpl in E.
  destruct (lookup_lt_is_Some_2 button_event_str (Z.to_nat event)) as [s Hs]; [simpl; lia|]. rewrite Hs. by eexists.
Qed.

Lemma event_str_injective e1 e2 :
  iot_button_get_event_str (event_value e1) = iot_button_get_event_str (event_value e2) -> e1 = e2.
Proof. by destruct e1, e2. Qed.
